(* ===== verification/_CoqProject ===== *)
-Q . S2P
Prelude.v
Protocol.v
McpRules.v
McpDecide.v
McpTheorems.v
McpGuarantees.v
Text.v
IpAddr.v
PolicyHost.v
PolicyCidr.v
ProtectedSpace.v
HostMatch.v
Outbound.v
IpEval.v
AllowList.v
FlowGate.v
EgressTheorems.v
DnsWire.v
DnsTheorems.v
DnsResponse.v
DnsGate.v
Percent.v
Json.v
RpcId.v
Deputy.v
Session.v
SessionGate.v
AccessTheorems.v
TrajectoryTheorems.v
Framing.v
WireFrame.v
Wire.v
Structure.v
WireTheorems.v
Relay.v
RelayTheorems.v
ToolsList.v
Interleave.v
ProxyState.v
ListPipeline.v
ListClient.v
ListLogic.v
ListServer.v
ListTheorems.v
ListBudgets.v
Ebpf.v
EbpfMachine.v
EbpfAsm.v
EbpfExec.v
EbpfProgram.v
EbpfEvents.v
EbpfTheorems.v
EbpfVerdict.v
EbpfRules.v
EbpfCompile.v
EbpfRoute.v
EbpfGrants.v
EbpfDrain.v
PathText.v
PathResolve.v
Targets.v
SubPolicy.v
SchemaDecimal.v
SchemaEval.v
CheckRequest.v
PathTheorems.v
TargetsTheorems.v
CheckTheorems.v
RequestTheorems.v
SchemaTheorems.v
SchemaScan.v
ScanTheorems.v
JsonCanon.v
CanonTheorems.v
ToolPins.v
PinTheorems.v
PinnedSession.v
PolicyMerge.v
PolicyValidate.v
PsecSpec.v
