(* ===== verification/Prelude.v ===== *)
(** * mcp-writ: a verification development

    mcp-writ launches MCP servers under a policy.  Four layers of its own
    logic decide what a contained server may do, and this development models
    them as executable functions and proves what they guarantee:

    - the MCP layer judges every JSON-RPC message between client and server
      against the [mcp] rules of the policy ([src/src/policy/mcp.rs],
      [src/src/policy/mcp/decide.rs], vocabulary in [src/src/protocol/]);
    - the auditor reads the messages off two byte streams
      ([src/src/framing.rs]), refuses structures two parsers could read
      differently ([src/src/auditor/checker.rs]), keeps the table of requests
      in flight ([src/src/auditor/proxy_rpc/wire.rs]), asks the MCP layer,
      checks the arguments of a tool call against the contract of its tool
      ([src/src/auditor/checker/targets.rs],
      [src/src/auditor/checker/sub_policy.rs],
      [src/src/auditor/schema_validator.rs], paths as [src/src/pathutil.rs] and
      [src/src/secret_paths.rs] read them), restricts tool calls to what the
      session discovered ([src/src/auditor/session.rs],
      [src/src/policy/deputy.rs]), relays
      ([src/src/auditor/proxy_c2s.rs], [src/src/auditor/proxy_c2s/forward.rs],
      [src/src/auditor/proxy_s2c.rs]), and lets tools be called only as the
      last verified [tools/list] advertises them
      ([src/src/auditor/proxy_tools_list.rs],
      [src/src/auditor/proxy_list_state.rs], [src/src/auditor/proxy_state.rs]);
    - the name layer judges DNS queries ([src/src/dnsgate/name_policy.rs]),
      speaks the DNS wire format ([src/src/dnsgate/wire.rs]), walks upstream
      answers ([src/src/dnsgate/wire/response.rs]), decides what to relay
      ([src/src/dnsgate/server.rs]) and records what a permitted resolution
      may be used for in a table of expiring grants
      ([src/src/dnsgate/allowlist.rs]);
    - the IP layer judges every flow ([src/src/warden/ip_eval.rs],
      [src/src/warden/flow_gate.rs]) against the egress rules of the policy
      ([src/src/policy/outbound.rs]), host and range spellings being folded by
      [src/src/policy/host.rs] and [src/src/pathutil.rs], and asks the grants
      of the name layer; one of its routes puts the verdict into the kernel:
      [src/src/warden/ebpf/rules.rs] compiles the rules into map entries,
      [src/src/warden/ebpf/prog.rs] generates the eBPF program of each hook,
      and [src/src/warden/ebpf/supervisor.rs] rewrites the grant maps and
      audits the denials the programs record.

    Before any of them runs, the policy itself is merged from layers
    ([src/src/policy/merge.rs]) and checked for the document and for the
    system the workload runs on ([src/src/policy/validator.rs],
    [src/src/policy/validator/]); for a launch under the Windows process
    security environment it is translated into a specification document
    ([src/src/warden/psec_spec.rs]).

    ** Files

    - [Prelude]: results, the [Ord] class of totally ordered types, sorted
      and deduplicated lists, string [match], tactics.
    - [Protocol]: directions, revisions, subscription filters, [_meta] and
      initialize shapes.
    - [McpRules]: method ledger, rule keys and atoms, deny-sticky merge
      [resolve_atoms] with its abstract reading [merged_spec], collision
      check [validate_rule_set], rule shapes.
    - [McpDecide]: inputs and verdicts, behaviour tables, the four judgments
      and [decide_message], [decide_mcp].  One definition per branch of the
      source's large functions ([judge_request], [decide_behavior],
      [decide_listen], ...), composed as the source composes them.
    - [McpTheorems], [McpGuarantees]: the MCP layer's theorems and their
      concrete instances.
    - [Text], [IpAddr]: what the source uses of the standard library: string
      operations on bytes, [trim], integer parsing, UTF-8, [IpAddr] with its
      parser and printer, which round-trip.
    - [PolicyHost], [PolicyCidr]: host canonicalization, URL hosts, ranges as
      sets of addresses, protected space.  [ProtectedSpace], [HostMatch]:
      their theorems.
    - [Outbound], [IpEval]: egress rules and their projections, the name
      verdict, the flow verdict.  [AllowList]: the grant table as a state with
      one function per operation and [run] over operation sequences, and its
      theorems.  [FlowGate]: the gate that composes evaluator and grants.
      [EgressTheorems]: the egress theorems.
    - [DnsWire], [DnsTheorems]: the DNS codec and its theorems.
    - [DnsResponse]: the walk over an upstream answer and its theorems.
    - [DnsGate]: the query pipeline; a query's effect on the grant table is
      its list of operations, so that queries interleave; and the theorem that
      joins all layers of the egress path.
    - [Percent]: percent decoding and the replacing UTF-8 decoder.  [Json]:
      the parsed JSON tree and its accessors.  [RpcId]: the canonical spelling
      of request ids, floating-point numbers included.
    - [Deputy]: confused-deputy rules, path patterns and the extraction of
      paths from arguments and results ([src/src/auditor/session/extract.rs]).
      [Session], [SessionGate]: the session's state and operations, and the
      gates the relay puts around a tool call; [AccessTheorems],
      [TrajectoryTheorems]: their theorems, the last against an abstract
      history of calls and answers.
    - [Framing]: the two bounded line readers over a buffered transport.
    - [WireFrame]: what is read off a parsed frame.  [Wire]: the
      request table with its ledger, retired ids, subscriptions and
      elicitations; [WireTheorems]: its invariant.  [Structure]: the
      structural gate on the text of a frame.
    - [Relay]: the client and server handlers as interleaved steps over one
      request table; [RelayTheorems]: the abstract automaton [Protocol] they
      refine.
    - [ToolsList]: tool definitions, the pages of a listing, the state of its
      collection and the messages built from it.  [Interleave]: programs of
      atomic accesses to a shared state, the rely-guarantee triple [safe] and
      the invariant triple [keeps].  [ProxyState]: the state the two loops
      share and the interface [Verifier].  [ListPipeline]: the server loop's
      listing handlers as such programs; [ListClient]: the client loop's
      [tools/call] and [tools/list], and [System], the two loops side by side.
      [ListLogic], [ListServer], [ListTheorems], [ListBudgets]: the abstract
      gate, the assertions over it, and the theorems.
    - [Ebpf]: map entries, the instruction builder and the program generator.
      [EbpfMachine]: the eBPF instruction set, run against a kernel whose maps
      change under the program ([World]).  [EbpfAsm], [EbpfExec]: the
      assembler is correct, and what each block of instructions does.
      [EbpfProgram], [EbpfEvents], [EbpfTheorems], [EbpfVerdict]: the whole
      program, phase by phase, with the deny record and the ring buffer.
      [EbpfRules], [EbpfCompile], [EbpfRoute]: the compiled tables, address
      words as ranges, and the route against the evaluator.  [EbpfGrants]: the
      grant-map writer and its seqlock.  [EbpfDrain]: the drain loop.
    - [PathText], [PathResolve]: path arguments as text (decoding, NFKC,
      [file:] URIs, shapes, lexical matching) and against the file system,
      with the secret overlay.  [Targets]: the strings of a call as targets.
      [SubPolicy]: the contract of a tool.  [SchemaDecimal], [SchemaEval]: the
      numbers and the evaluator of [args_schema].  [CheckRequest]: the verdict
      on a request.  [PathTheorems], [TargetsTheorems], [CheckTheorems],
      [RequestTheorems]: their theorems, the walk over a request as a fold
      over its strings and the contract as predicates on what they name, with
      concrete calls.
    - [SchemaTheorems]: the evaluator against a declarative reading of schemas
      ([conforms]), and its termination.  [SchemaScan]: the load-time scan of a
      schema ([src/src/schema_spec.rs]); [ScanTheorems]: what a scan without
      findings promises the evaluator, and concrete schemas.
    - [JsonCanon]: the parser and the canonical printer of
      [src/src/verifier/json_canon.rs]; [CanonTheorems]: they invert each other.
      [ToolPins]: the digest of a listing, its diff and the verdict against a
      pin ([src/src/verifier/tools_hash.rs], [src/src/verifier/diff_classify.rs],
      [src/src/verifier/tools_diff.rs]); [PinTheorems]: what they determine.
      [PinnedSession]: the pins as an instance of [Verifier], joined with the
      theorems on listings.
    - [PolicyMerge]: coverage of path patterns per target system, the merge of
      the layers of a tool and its theorems.  [PolicyValidate]: policy
      documents, launch targets, the checks of both and their theorems.
      [PsecSpec]: the translation of a policy for the process security
      environment, the FlatBuffers writer byte by byte, a reader of that wire
      format as its specification, and what is read back.

    ** What the theorems show

    - MCP rules: the merge is the deny-wins union of the rules whatever their
      order, the collision check is exact, the ledger and the behaviour tables
      list the same protocol.
    - MCP verdicts: deny rules win over everything and only restrict; without
      rules exactly the documented default profile passes; a method that needs
      a rule passes only when granted, with its URI; subscriptions stay within
      the policy and the request; the 2025-11-25 handshake and the correlation
      of responses hold under every policy; unknown methods fail closed.
    - Framing and structure: what a reader delivers depends on the bytes and
      not on how the transport cuts them, every complete line is delivered,
      and a frame the structural gate accepts has one reading whatever a
      parser does with repeated members.
    - Request ids: two numeric ids have one canonical spelling exactly when
      they are the same number.
    - Session: the state stays within its budgets under every sequence of
      operations; a use-role call that passes names only paths discovered by
      an earlier forwarded call, and two dots before a separator are refused
      however they are encoded (at the end of a path they pass: a finding);
      the trajectory check is the same judgment
      on the abstract history (reusing an id disarms a rule: a finding).
    - Relay: after any interleaving of client and server frames the ledger of
      outstanding requests is exact, and what crosses is a run of the abstract
      automaton: every request forwarded at most once per admission, every
      response that crosses answers a request in flight in the other
      direction.
    - Listings: at every interleaving of the atomic accesses of the two loops,
      what is observable is a run of the abstract gate; so, where verification
      is enforced, behind each allowed call stands a published listing that passed verification and advertises
      the tool, with no newer one and no announced change since; the
      collection and the bookkeeping stay within their budgets.  One
      interleaving leaves a client's listing unanswered (a finding).
    - Tool calls: an admitted call stays within the contract of its tool in
      every string it carries, however nested, encoded or spread over the
      retry channel; refusals for authorization are exact and tell the client
      nothing; a use-role call hands the session every path it can name; after
      a forbidding side effect no call that names a host passes.
    - Pins: canonical texts read back, so the digest of a listing determines
      its tools and nothing else, unless two listings collide under SHA-256;
      the diff is silent, blocks, and names parameters exactly when it should,
      schemas over its budget always counting as a change; and in a session
      under pins, every allowed call that crosses names an approved tool with
      the approved definition.
    - Policies: what the merge of layers keeps is told entry by entry; on
      targets with case-sensitive POSIX paths pruning an allow that a plainly
      spelled deny covers changes no decision, and after validation the allow
      list of a tool alone, which is all an additive ruleset enforces, says
      for absolute wildcard-free patterns what both lists say; a document that
      passes has the properties the other layers rely on; the document written
      for a Windows process security environment reads back as rules that
      admit exactly the addresses the policy allows.  The matcher reads the
      pattern [/**] as nothing, the coverage rules as the root (a finding).
    - Schemas: the evaluator's numbers are exact; it accepts what conforms and
      rejects what does not, or fails fatally; it ends by its own limits
      however references loop; and a schema the scan accepts fails only for
      those limits, three spellings apart (findings).
    - Hosts and ranges: canonical forms are fixed points and mean the address
      set they spell; coverage and overlap of ranges are inclusion and overlap
      of address sets; protected space is the documented list of ranges on
      every IPv4-in-IPv6 spelling; host patterns match what their
      documentation says, and deny precedence prunes exactly the covered
      allows, plus the bare name under a wildcard deny.
    - Egress: denies precede allows on every spelling of a destination; an
      allowed flow has a covering rule or a live committed grant; projections
      and pruning keep the declared meaning; a name resolves only on
      authority and its grants carry exactly the covering rules' qualifiers.
    - Grants: authority exists only after a commit, staging is invisible, the
      table is bounded under every interleaving of its operations (and the
      direct path that is not).
    - eBPF route: the generated program resolves, fits the instruction limit,
      halts without an invalid access whatever user space writes meanwhile,
      and decides as a first-match scan; with the compiled tables that is the
      evaluator's verdict and audit label, IPv4-mapped destinations under IPv6
      rules and rules on port 0 excepted (findings); a grant authorizes a flow
      only from one consistent snapshot of the grant map, although slots are
      torn and map calls fail; a denial's record reads back as its flow, and
      no record can wedge the drain.
    - DNS: names decode in bounded time and space and round-trip, a decoded
      query describes slices that exist, what is forwarded asks the judged
      name, what is answered locally correlates with the query; a decoded
      answer was read to its last byte and its chain and addresses are exactly
      what its aliases reach; only judged answers are relayed (records off the
      chain excepted), and a flow admitted by a grant goes back to one
      recorded, permitted resolution under every interleaving of queries.

    ** Modelling conventions

    A [str] is its bytes ([string]), a buffer a [list ascii]; machine integers
    are [Z] with their width written out where it matters; an [Instant] is a
    [Z] and each clock reading an argument; [HashMap] and [BTreeMap] are
    [gmap]; a function with early returns is a nest of [if]s and matches in
    the same order.  Fuel: [decode_loop] runs with 160, enough for 16 jumps and
    127 labels ([decode_name_terminates]); [walk_chain] with 18, one more than
    the names a chain of sixteen can hold ([walk_answers]); the loops over one
    record's RDATA with its length; [canonicalize_fuel] and [trim_start_fuel]
    with the length of the string, which each step shortens; a frame reader
    with the number of chunks its transport still holds; an eBPF run with any
    number from some one on ([runs_to]); the drain with one more than the bytes
    pending; schema evaluation and scan with 66, two more than the depth limit,
    beyond which neither recurses ([schema_evaluation_terminates],
    [scan_fuel_enough]); the loops of the canonical parser with one more turn
    than bytes are left ([array_loop_turns], [object_loop_turns]), its nesting
    being bounded as in the source; the alignment loop of the specification
    writer with the alignment.

    An eBPF program runs instruction by instruction on [EbpfMachine], whose
    values are numbers and pointers with regions; anything the generator does
    not emit, and every access outside a region or to uninitialised memory, is
    a failed run.  Words are little-endian.  [World] gives the kernel's state at
    each instruction, so a statement for every world covers every interleaving
    with user space; [follows] restricts the world to what the writer's log
    allows, with the slot being written in an arbitrary state.

    Parameters: [idna::domain_to_ascii] (a third-party crate), of which no
    theorem assumes anything; the JSON parser (third-party), whose output is
    the tree of [Json]; [iter], the order in which a hash map is traversed, of
    which only that it lists every entry once is assumed; in the session, path
    normalization ([normalize_fs_argument], modelled in [PathText]); for the
    argument checker the Unicode tables (class [Unicode]; where the laws of
    NFKC matter they are the class [NfkcLaws]), the file system as a call sees
    it (class [FileSystem], of which no theorem assumes anything), regular
    expressions and schema files (classes [SchemaLib] and [SchemaFiles],
    likewise); and the record [Local] of [Relay], which carries what the steps
    around the request table answer: argument checks, session gates, the
    tools/list bookkeeping and whether the transport took a write.  The tool
    verifier answers the listing pipeline through the class [Verifier], of
    which no theorem on the pipeline assumes anything and which
    [PinnedSession] implements by the pins of a policy; SHA-256 (class
    [Digest]; a collision is an outcome of the theorems, not excluded) and the
    expression for hidden instructions (class [Expressions]) are library code;
    the paths a launch finds on its host are the class [LaunchHost]; what the
    environment answers (whether a write or an audit record succeeded) is an
    argument of each step.

    ** Not modelled, and the plan

    Input and output (sockets, files, processes, kernel interfaces), JSON and
    KDL parsing, and audit formatting are left out.  The process, container,
    sandbox and kernel backends, the command line, the policy generator and binary inspection are
    not modelled for that reason or because they are heuristics without a
    contract.

    What could follow: the manifest detectors ([src/src/verifier/]); the overlay
    of policy documents ([src/src/policy/kdl_inherit.rs]); id recovery from
    oversized frames ([src/src/auditor/proxy_wire.rs]); [src/src/fsoverlap.rs]; the flow table
    of [src/src/warden/namespaced/nat.rs]. *)

From stdpp Require Export base decidable gmap list sets strings sorting.
From Stdlib Require Export ZArith Lia.

(** ** Proof automation *)

Create HintDb writ.

(** Case analysis on every [match] and [if] scrutinee of the goal, keeping
    the equations, then the usual clean-up. *)
Ltac split_match :=
  repeat (case_match; simplify_eq/=; try done).

(** The same for the hypothesis [H] first, then the goal. *)
Ltac split_match_in H :=
  repeat (let E := fresh "E" in
          match type of H with
          | context [match ?x with _ => _ end] => destruct x eqn:E; simplify_eq/=; try done
          end).

(** ** [Option] and [Result] *)

Inductive result (A E : Type) :=
  | Ok (a : A)
  | Err (e : E).
Arguments Ok {A E} a.
Arguments Err {A E} e.

#[export] Instance result_eq_dec {A E} `{EqDecision A, EqDecision E} : EqDecision (result A E).
Proof. solve_decision. Defined.

Definition is_ok {A E} (r : result A E) : bool := if r is Ok _ then true else false.

Definition result_bind {A B E} (r : result A E) (k : A → result B E) : result B E :=
  match r with
  | Ok a => k a
  | Err e => Err e
  end.

Declare Scope result_scope.
Delimit Scope result_scope with result.
Notation "x ←? r ; k" := (result_bind r (λ x, k))
  (at level 20, r at level 100, k at level 200, right associativity) : result_scope.

Lemma result_bind_ok {A B E} (r : result A E) (k : A → result B E) b :
  result_bind r k = Ok b → ∃ a, r = Ok a ∧ k a = Ok b.
Proof. destruct r; [by eauto|done]. Qed.

(** [Option::is_some_and] and [Option::is_none_or]. *)
Definition is_some_and {A} (o : option A) (p : A → bool) : bool :=
  match o with
  | Some a => p a
  | None => false
  end.
Definition is_none_or {A} (o : option A) (p : A → bool) : bool :=
  match o with
  | Some a => p a
  | None => true
  end.

(** A double-quote character, as a one-character string. *)
Definition dquote : string := String (Ascii.ascii_of_nat 34) EmptyString.

(** ** Totally ordered types: what [derive(Ord)] gives the source's types *)

Class Ord (A : Type) := {
  ord_le : relation A;
  ord_le_dec :: RelDecision ord_le;
  ord_le_po :: PartialOrder ord_le;
  ord_le_total :: Total ord_le;
}.

#[export] Instance string_ord : Ord string := {| ord_le := String.le |}.

#[export] Program Instance Z_ord : Ord Z := {| ord_le := Z.le |}.

#[export] Program Instance nat_ord : Ord nat := {| ord_le := Nat.le |}.

(** Lexicographic order on pairs, as [derive(Ord)] orders fields. *)
Section pair_ord.
Context {A B : Type} `{EqDecision A, EqDecision B} `{Ord A, Ord B}.

Definition pair_le (x y : A * B) : Prop :=
  (ord_le x.1 y.1 ∧ x.1 ≠ y.1) ∨ (x.1 = y.1 ∧ ord_le x.2 y.2).

#[export] Program Instance pair_ord : Ord (A * B) := {| ord_le := pair_le |}.
Next Obligation. intros x y. unfold pair_le. apply _. Defined.
Next Obligation.
  unfold pair_le. split; [split|].
  - intros [a b]; right; split; [done|]. reflexivity.
  - intros [a b] [a' b'] [a'' b''] H1 H2; simpl in *.
    destruct H1 as [[H1 N1]|[-> H1]], H2 as [[H2 N2]|[-> H2]];
      [left; split| left; done | left; done | right; split; [done|]].
    + by transitivity a'.
    + intros ->. apply N1. by apply (anti_symm ord_le).
    + by transitivity b'.
  - intros [a b] [a' b'] H1 H2; simpl in *.
    destruct H1 as [[H1 N1]|[-> H1]], H2 as [[H2 N2]|[H2e H2]]; try done.
    + exfalso. apply N1. by apply (anti_symm ord_le).
    + f_equal. by apply (anti_symm ord_le).
Qed.
Next Obligation.
  unfold pair_le. intros [a b] [a' b']; simpl.
  destruct (decide (a = a')) as [->|Hne].
  - destruct (total ord_le b b'); auto.
  - destruct (total ord_le a a'); [left | right]; left; split; auto.
Qed.
End pair_ord.

(** An order pulled back along an injection (enums by discriminant, structs
    by the tuple of their fields). *)
Section key_ord.
Context {A B : Type} (f : A → B) `{!Inj (=) (=) f} `{Ord B}.

Definition key_le (x y : A) : Prop := ord_le (f x) (f y).

Program Definition ord_by_key : Ord A := {| ord_le := key_le |}.
Next Obligation. intros x y. unfold key_le. apply _. Defined.
Next Obligation.
  unfold key_le. split; [split|].
  - intros x; reflexivity.
  - intros x y z; apply transitivity.
  - intros x y H1 H2. apply (inj f). by apply (anti_symm ord_le).
Qed.
Next Obligation. unfold key_le. intros x y. apply (total ord_le). Qed.
End key_ord.

(** ** [sort] followed by [dedup] *)

(** [Vec::dedup]: drop consecutive repetitions, keeping the first of a run. *)
Section dedup.
Context {A : Type} `{EqDecision A}.

Fixpoint dedup_from (x : A) (l : list A) : list A :=
  match l with
  | [] => [x]
  | y :: l' => if decide (x = y) then dedup_from x l' else x :: dedup_from y l'
  end.

Definition dedup (l : list A) : list A :=
  match l with
  | [] => []
  | x :: l' => dedup_from x l'
  end.

Lemma elem_of_dedup_from l : ∀ x z, z ∈ dedup_from x l ↔ z ∈ x :: l.
Proof. induction l as [|y l IH]; intros x z; simpl; [done|]. case_decide; set_solver. Qed.

Lemma elem_of_dedup l z : z ∈ dedup l ↔ z ∈ l.
Proof. destruct l; [done|]. apply elem_of_dedup_from. Qed.
End dedup.

(** [v.sort(); v.dedup()] *)
Section sort_dedup.
Context {A : Type} `{EqDecision A} `{Ord A}.

Definition sort_dedup (l : list A) : list A := dedup (merge_sort ord_le l).

Lemma dedup_from_sorted l : ∀ x,
  StronglySorted ord_le (x :: l) →
  StronglySorted ord_le (dedup_from x l) ∧ NoDup (dedup_from x l).
Proof.
  induction l as [|y l IH]; intros x Hs; simpl.
  { split; [done|]. apply NoDup_singleton. }
  apply StronglySorted_cons in Hs as [Hx Hs].
  case_decide as Hxy; subst.
  - by apply IH.
  - destruct (IH y Hs) as [IH1 IH2].
    assert (∀ z, z ∈ dedup_from y l → ord_le x z) as Hle.
    { intros z Hz%elem_of_dedup_from. by rewrite Forall_forall in Hx; apply Hx. }
    assert (x ∉ dedup_from y l) as Hni.
    { intros Hin%elem_of_dedup_from. apply StronglySorted_cons in Hs as [Hy _].
      rewrite Forall_forall in Hx, Hy.
      apply elem_of_cons in Hin as [?|Hin]; [done|].
      apply Hxy, (anti_symm ord_le); [apply Hx; set_solver | by apply Hy]. }
    split; [|by apply NoDup_cons].
    apply StronglySorted_cons. split; [|done]. by rewrite Forall_forall.
Qed.

Lemma sort_dedup_sorted l : StronglySorted ord_le (sort_dedup l) ∧ NoDup (sort_dedup l).
Proof.
  unfold sort_dedup, dedup.
  pose proof (StronglySorted_merge_sort ord_le l) as Hs.
  destruct (merge_sort ord_le l) as [|x l'].
  - split; constructor.
  - by apply dedup_from_sorted.
Qed.

Lemma elem_of_sort_dedup l x : x ∈ sort_dedup l ↔ x ∈ l.
Proof. unfold sort_dedup. by rewrite elem_of_dedup, merge_sort_Permutation. Qed.

(** The normal form depends only on the set of elements. *)
Lemma sort_dedup_ext l1 l2 :
  (∀ x, x ∈ l1 ↔ x ∈ l2) → sort_dedup l1 = sort_dedup l2.
Proof.
  intros Heq. destruct (sort_dedup_sorted l1) as [S1 N1], (sort_dedup_sorted l2) as [S2 N2].
  apply (StronglySorted_unique ord_le); [done..|].
  apply NoDup_Permutation; [done..|]. intros x. by rewrite !elem_of_sort_dedup.
Qed.

Lemma sort_dedup_nil l : sort_dedup l = [] ↔ l = [].
Proof.
  split; [|by intros ->].
  intros Hl. destruct l as [|x l]; [done|].
  assert (x ∈ sort_dedup (x :: l)) as Hx by (apply elem_of_sort_dedup; set_solver).
  rewrite Hl in Hx. set_solver.
Qed.
End sort_dedup.

#[export] Hint Rewrite @elem_of_sort_dedup @elem_of_dedup : writ.

(** ** [match] on a string literal

    A Rust [match] whose arms are (or-patterns of) string literals, tried in
    order, with a wildcard arm at the end. *)
Fixpoint str_match {R} (m : string) (arms : list (list string * R)) (otherwise : R) : R :=
  match arms with
  | [] => otherwise
  | (pats, r) :: arms' => if bool_decide (m ∈ pats) then r else str_match m arms' otherwise
  end.

Definition str_arms {R} (arms : list (list string * R)) : list string := mjoin (fst <$> arms).

Lemma str_match_otherwise {R} m (arms : list (list string * R)) d :
  m ∉ str_arms arms → str_match m arms d = d.
Proof.
  unfold str_arms. induction arms as [|[pats r] arms IH]; intros Hni; [done|].
  cbn in *. rewrite bool_decide_eq_false_2 by set_solver. apply IH. set_solver.
Qed.

(** Replace a membership of a variable in a literal list by its cases. *)
Ltac elem_cases H :=
  repeat first
    [ apply elem_of_cons in H as [H|H]; [subst|]
    | apply elem_of_nil in H; destruct H ].

(** ** Sums of sizes *)

(** The total of a size over a collection, as the byte ledgers keep it. *)
Fixpoint sum_of {A} (f : A → Z) (l : list A) : Z :=
  match l with
  | [] => 0%Z
  | x :: l' => (f x + sum_of f l')%Z
  end.

Section sum_of.
Context {A : Type} (f : A → Z).

Lemma sum_of_app l1 l2 : (sum_of f (l1 ++ l2) = sum_of f l1 + sum_of f l2)%Z.
Proof. induction l1 as [|x l1 IH]; cbn; [done|]. lia. Qed.

Lemma sum_of_perm l1 l2 : l1 ≡ₚ l2 → sum_of f l1 = sum_of f l2.
Proof. induction 1; cbn; lia. Qed.

Lemma sum_of_nonneg l : (∀ x, 0 ≤ f x)%Z → (0 ≤ sum_of f l)%Z.
Proof. intros Hf. induction l as [|x l IH]; cbn; [done|]. specialize (Hf x). lia. Qed.

Lemma sum_of_elem x l : (∀ x, 0 ≤ f x)%Z → x ∈ l → (f x ≤ sum_of f l)%Z.
Proof.
  intros Hf. induction 1 as [x l|x y l _ IH]; cbn.
  - pose proof (sum_of_nonneg l Hf). lia.
  - specialize (Hf y). lia.
Qed.

Lemma sum_of_filter_split (P : A → bool) l :
  (sum_of f l = sum_of f (List.filter P l) + sum_of f (List.filter (λ x, negb (P x)) l))%Z.
Proof. induction l as [|x l IH]; cbn; [done|]. destruct (P x); cbn; lia. Qed.
End sum_of.

Section map_sum.
Context `{Countable K} {V : Type} (f : K * V → Z).

(** The total over the entries of a map. *)
Definition map_sum (m : gmap K V) : Z := sum_of f (map_to_list m).

Lemma map_sum_empty : map_sum ∅ = 0%Z.
Proof. unfold map_sum. by rewrite map_to_list_empty. Qed.

Lemma map_sum_insert m k v : m !! k = None → (map_sum (<[k := v]> m) = f (k, v) + map_sum m)%Z.
Proof. intros Hk. unfold map_sum. by rewrite (sum_of_perm f _ _ (map_to_list_insert m k v Hk)). Qed.

Lemma map_sum_delete m k v : m !! k = Some v → (map_sum m = f (k, v) + map_sum (delete k m))%Z.
Proof.
  intros Hk. rewrite <- map_sum_insert by apply lookup_delete_eq.
  by rewrite insert_delete_id.
Qed.

Lemma map_sum_delete_le m k : (∀ x, 0 ≤ f x)%Z → (map_sum (delete k m) ≤ map_sum m)%Z.
Proof.
  intros Hf. destruct (m !! k) as [v|] eqn:E.
  - rewrite (map_sum_delete m k v E). specialize (Hf (k, v)). lia.
  - by rewrite delete_id.
Qed.

Lemma map_sum_update m k v w : m !! k = Some v →
  (map_sum (<[k := w]> m) = map_sum m - f (k, v) + f (k, w))%Z.
Proof.
  intros Hk. rewrite (map_sum_delete m k v Hk), <- insert_delete_eq.
  rewrite map_sum_insert by apply lookup_delete_eq. lia.
Qed.

Lemma map_sum_nonneg m : (∀ x, 0 ≤ f x)%Z → (0 ≤ map_sum m)%Z.
Proof. apply sum_of_nonneg. Qed.
End map_sum.

Lemma set_sum_union `{Countable A} (f : A → Z) x (X : gset A) : x ∉ X →
  (sum_of f (elements ({[x]} ∪ X)) = f x + sum_of f (elements X))%Z.
Proof. intros Hx. by rewrite (sum_of_perm f _ _ (elements_union_singleton X x Hx)). Qed.
