(* ===== verification/Protocol.v ===== *)
(** * Protocol: the leaf types of [src/src/protocol]

    Directions, revisions and the pre-extracted wire fields the MCP decision
    model reads ([protocol/mod.rs], [protocol/fields.rs]).  Field extraction
    from JSON text goes through the third-party [nojson] parser and is not
    modelled here; the types below are what extraction hands to the model. *)

From S2P Require Import Prelude.

(** Direction of one JSON-RPC message relative to the MCP server. *)
Inductive MessageDirection := ClientToServer | ServerToClient.

(** MCP revisions this build implements. *)
Inductive SupportedProtocolVersion := Mcp2026July28 | Mcp2025November25.

#[export] Instance MessageDirection_eq_dec : EqDecision MessageDirection.
Proof. solve_decision. Defined.
#[export] Instance SupportedProtocolVersion_eq_dec : EqDecision SupportedProtocolVersion.
Proof. solve_decision. Defined.

Definition MessageDirection_as_str (d : MessageDirection) : string :=
  match d with
  | ClientToServer => "c2s"
  | ServerToClient => "s2c"
  end.

Definition MessageDirection_parse (value : string) : option MessageDirection :=
  str_match value [(["c2s"], Some ClientToServer); (["s2c"], Some ServerToClient)] None.

Definition MCP_VERSION_2026_07_28 : string := "2026-07-28".
Definition MCP_VERSION_2025_11_25 : string := "2025-11-25".

Definition SupportedProtocolVersion_as_str (v : SupportedProtocolVersion) : string :=
  match v with
  | Mcp2026July28 => MCP_VERSION_2026_07_28
  | Mcp2025November25 => MCP_VERSION_2025_11_25
  end.

Definition SupportedProtocolVersion_parse (value : string) : option SupportedProtocolVersion :=
  str_match value
    [([MCP_VERSION_2026_07_28], Some Mcp2026July28);
     ([MCP_VERSION_2025_11_25], Some Mcp2025November25)] None.

(** A scalar wire field checked against the revision schema. *)
Inductive SchemaField := Absent | Invalid | Valid.

#[export] Instance SchemaField_eq_dec : EqDecision SchemaField.
Proof. solve_decision. Defined.

(** [subscriptions/listen] filter names. *)
Inductive SubscriptionFilter :=
  ToolsListChanged | PromptsListChanged | ResourcesListChanged | ResourceSubscriptions.

#[export] Instance SubscriptionFilter_eq_dec : EqDecision SubscriptionFilter.
Proof. solve_decision. Defined.

(** Declaration order is the derived [Ord]. *)
Definition SubscriptionFilter_index (f : SubscriptionFilter) : nat :=
  match f with
  | ToolsListChanged => 0
  | PromptsListChanged => 1
  | ResourcesListChanged => 2
  | ResourceSubscriptions => 3
  end.

#[export] Instance SubscriptionFilter_index_inj : Inj (=) (=) SubscriptionFilter_index.
Proof. by intros [] []. Qed.
#[export] Instance SubscriptionFilter_ord : Ord SubscriptionFilter :=
  ord_by_key SubscriptionFilter_index.
#[export] Instance SubscriptionFilter_countable : Countable SubscriptionFilter.
Proof.
  apply (inj_countable SubscriptionFilter_index
    (fun n => match n with
              | 0 => Some ToolsListChanged | 1 => Some PromptsListChanged
              | 2 => Some ResourcesListChanged | 3 => Some ResourceSubscriptions
              | _ => None end)).
  by intros [].
Defined.

Definition SubscriptionFilter_as_str (f : SubscriptionFilter) : string :=
  match f with
  | ToolsListChanged => "toolsListChanged"
  | PromptsListChanged => "promptsListChanged"
  | ResourcesListChanged => "resourcesListChanged"
  | ResourceSubscriptions => "resourceSubscriptions"
  end.

Definition SubscriptionFilter_parse (value : string) : option SubscriptionFilter :=
  str_match value
    [(["toolsListChanged"], Some ToolsListChanged);
     (["promptsListChanged"], Some PromptsListChanged);
     (["resourcesListChanged"], Some ResourcesListChanged);
     (["resourceSubscriptions"], Some ResourceSubscriptions)] None.

(** The notification method a filter gates. *)
Definition notification_method (f : SubscriptionFilter) : string :=
  match f with
  | ToolsListChanged => "notifications/tools/list_changed"
  | PromptsListChanged => "notifications/prompts/list_changed"
  | ResourcesListChanged => "notifications/resources/list_changed"
  | ResourceSubscriptions => "notifications/resources/updated"
  end.

(** Parsed [params.notifications]. *)
Record ListenFilters := mkListenFilters {
  tools_list_changed : option bool;
  prompts_list_changed : option bool;
  resources_list_changed : option bool;
  resource_subscriptions : option (list string);
  unknown : list string;
}.

Definition enabled (l : ListenFilters) : list SubscriptionFilter :=
  (if bool_decide (tools_list_changed l = Some true) then [ToolsListChanged] else [])
  ++ (if bool_decide (prompts_list_changed l = Some true) then [PromptsListChanged] else [])
  ++ (if bool_decide (resources_list_changed l = Some true) then [ResourcesListChanged] else [])
  ++ (if bool_decide (is_Some (resource_subscriptions l)) then [ResourceSubscriptions] else []).

Definition only_free_filters (l : ListenFilters) : bool :=
  bool_decide (prompts_list_changed l ≠ Some true)
  && bool_decide (resources_list_changed l ≠ Some true)
  && bool_decide (resource_subscriptions l = None).

(** [params._meta] claims of a 2026-07-28 request. *)
Record RequestMeta := mkRequestMeta {
  malformed : bool;
  protocol_version : option string;
  client_capabilities_shape : SchemaField;
  client_capabilities : list string;
  log_level : option string;
  subscription_id : option string;
}.

(** 2025-11-25 [initialize] params shape. *)
Record InitializeShape := mkInitializeShape {
  has_protocol_version : bool;
  has_capabilities : bool;
  has_client_info : bool;
}.

Definition complete (s : InitializeShape) : bool :=
  has_protocol_version s && has_capabilities s && has_client_info s.

(** RFC 5424 severities, least severe first. *)
Definition rfc5424_rank (level : string) : option nat :=
  str_match level
    [(["debug"], Some 0); (["info"], Some 1); (["notice"], Some 2); (["warning"], Some 3);
     (["error"], Some 4); (["critical"], Some 5); (["alert"], Some 6); (["emergency"], Some 7)]
    None.

(** ** Facts about the leaf types *)

Lemma elem_of_enabled l f :
  f ∈ enabled l ↔
  match f with
  | ToolsListChanged => tools_list_changed l = Some true
  | PromptsListChanged => prompts_list_changed l = Some true
  | ResourcesListChanged => resources_list_changed l = Some true
  | ResourceSubscriptions => is_Some (resource_subscriptions l)
  end.
Proof.
  unfold enabled. rewrite !elem_of_app.
  repeat case_bool_decide; destruct f; set_solver.
Qed.

(** [only_free_filters] says exactly that nothing beyond the free filter is on. *)
Lemma only_free_filters_spec l :
  only_free_filters l = true ↔ ∀ f, f ∈ enabled l → f = ToolsListChanged.
Proof.
  unfold only_free_filters. rewrite !andb_true_iff, !bool_decide_eq_true.
  setoid_rewrite elem_of_enabled. split.
  - intros [[H1 H2] H3] [] Hf; try done. rewrite H3 in Hf. by destruct Hf.
  - intros H. split_and!.
    + intros Hp. by specialize (H PromptsListChanged Hp).
    + intros Hp. by specialize (H ResourcesListChanged Hp).
    + destruct (resource_subscriptions l) eqn:E; [|done].
      by specialize (H ResourceSubscriptions (mk_is_Some _ _ eq_refl)).
Qed.
