(* ===== verification/McpRules.v ===== *)
(** * McpRules: the rule model of [src/src/policy/mcp.rs]

    Rule keys, the closed method ledger, the expansion of a rule into atoms
    and the deny-sticky merge [resolve_atoms], with the abstract reading of a
    rule list that the merge implements. *)

From S2P Require Import Prelude Protocol.

(** ** Rule model *)

(** The [kind] component of a rule key. *)
Inductive RuleKind := KRequest | KNotification | KAdditionalRequest.

(** [allow] / [deny] effect of one rule node. *)
Inductive RuleEffect := EAllow | EDeny.

#[export] Instance RuleKind_eq_dec : EqDecision RuleKind.
Proof. solve_decision. Defined.
#[export] Instance RuleEffect_eq_dec : EqDecision RuleEffect.
Proof. solve_decision. Defined.

Definition RuleKind_as_str (k : RuleKind) : string :=
  match k with
  | KRequest => "request"
  | KNotification => "notification"
  | KAdditionalRequest => "additional-request"
  end.

(** One (revision, direction, kind) slot a method can legally occupy. *)
Record MethodSlot := mkSlot {
  slot_version : SupportedProtocolVersion;
  slot_direction : MessageDirection;
  slot_kind : RuleKind;
}.

#[export] Instance MethodSlot_eq_dec : EqDecision MethodSlot.
Proof. solve_decision. Defined.

Definition V25 := Mcp2025November25.
Definition V26 := Mcp2026July28.
Definition C2S := ClientToServer.
Definition S2C := ServerToClient.
Definition REQ := KRequest.
Definition NOTIF := KNotification.
Definition ADDL := KAdditionalRequest.

Definition slot (v : SupportedProtocolVersion) (d : MessageDirection) (k : RuleKind) : MethodSlot :=
  mkSlot v d k.

(** The closed ledger of MCP method names the rule engine understands. *)
Definition METHOD_LEDGER : list (string * list MethodSlot) :=
  [("initialize", [slot V25 C2S REQ]);
   ("ping", [slot V25 C2S REQ; slot V25 S2C REQ]);
   ("tools/list", [slot V25 C2S REQ; slot V26 C2S REQ]);
   ("tools/call", [slot V25 C2S REQ; slot V26 C2S REQ]);
   ("resources/list", [slot V25 C2S REQ; slot V26 C2S REQ]);
   ("resources/templates/list", [slot V25 C2S REQ; slot V26 C2S REQ]);
   ("resources/read", [slot V25 C2S REQ; slot V26 C2S REQ]);
   ("resources/subscribe", [slot V25 C2S REQ]);
   ("resources/unsubscribe", [slot V25 C2S REQ]);
   ("prompts/list", [slot V25 C2S REQ; slot V26 C2S REQ]);
   ("prompts/get", [slot V25 C2S REQ; slot V26 C2S REQ]);
   ("completion/complete", [slot V25 C2S REQ; slot V26 C2S REQ]);
   ("logging/setLevel", [slot V25 C2S REQ]);
   ("server/discover", [slot V26 C2S REQ]);
   ("subscriptions/listen", [slot V26 C2S REQ]);
   ("sampling/createMessage", [slot V25 S2C REQ; slot V26 S2C ADDL]);
   ("roots/list", [slot V25 S2C REQ; slot V26 S2C ADDL]);
   ("elicitation/create", [slot V25 S2C REQ; slot V26 S2C ADDL]);
   ("notifications/initialized", [slot V25 C2S NOTIF]);
   ("notifications/cancelled",
      [slot V25 C2S NOTIF; slot V25 S2C NOTIF; slot V26 C2S NOTIF; slot V26 S2C NOTIF]);
   ("notifications/progress",
      [slot V25 C2S NOTIF; slot V25 S2C NOTIF; slot V26 S2C NOTIF]);
   ("notifications/roots/list_changed", [slot V25 C2S NOTIF]);
   ("notifications/message", [slot V25 S2C NOTIF; slot V26 S2C NOTIF]);
   ("notifications/tools/list_changed", [slot V25 S2C NOTIF; slot V26 S2C NOTIF]);
   ("notifications/resources/list_changed", [slot V25 S2C NOTIF; slot V26 S2C NOTIF]);
   ("notifications/prompts/list_changed", [slot V25 S2C NOTIF; slot V26 S2C NOTIF]);
   ("notifications/resources/updated", [slot V25 S2C NOTIF; slot V26 S2C NOTIF]);
   ("notifications/elicitation/complete", [slot V25 S2C NOTIF]);
   ("notifications/subscriptions/acknowledged", [slot V26 S2C NOTIF])].

(** The [find] both ledger lookups share. *)
Definition ledger_find (m : string) : option (string * list MethodSlot) :=
  List.find (fun e => String.eqb e.1 m) METHOD_LEDGER.

(** Slots of a registered method; empty outside the ledger. *)
Definition method_slots (m : string) : list MethodSlot :=
  default [] (snd <$> ledger_find m).

(** The ledger's canonical name for a method. *)
Definition ledger_name (m : string) : option string := fst <$> ledger_find m.

(** A fully-qualified rule key (an atom). *)
Record RuleKey := mkKey {
  key_version : SupportedProtocolVersion;
  key_direction : MessageDirection;
  key_kind : RuleKind;
  key_method : string;
}.

#[export] Instance RuleKey_eq_dec : EqDecision RuleKey.
Proof. solve_decision. Defined.
#[export] Instance RuleKey_countable : Countable RuleKey.
Proof.
  apply (inj_countable'
    (fun k => (match key_version k with Mcp2026July28 => true | _ => false end,
               match key_direction k with ClientToServer => true | _ => false end,
               match key_kind k with KRequest => 0 | KNotification => 1 | _ => 2 end,
               key_method k))
    (fun '(v, d, k, m) =>
       mkKey (if v : bool then Mcp2026July28 else Mcp2025November25)
             (if d : bool then ClientToServer else ServerToClient)
             (match k with 0 => KRequest | 1 => KNotification | _ => KAdditionalRequest end) m)).
  by intros [[] [] [] m].
Defined.

(** One [allow]/[deny] node inside an [mcp] block. *)
Record McpRule := mkRule {
  rule_effect : RuleEffect;
  rule_method : string;
  rule_versions : list SupportedProtocolVersion;
  rule_direction : option MessageDirection;
  rule_uris : list string;
  rule_filters : list SubscriptionFilter;
}.

Definition atoms (r : McpRule) : list RuleKey :=
  match ledger_find (rule_method r) with
  | None => []
  | Some (m, slots) =>
      (fun s => mkKey (slot_version s) (slot_direction s) (slot_kind s) m) <$>
      filter (fun s => is_none_or (rule_direction r) (fun d => bool_decide (d = slot_direction s)))
        (filter (fun s => rule_versions r = [] ∨ slot_version s ∈ rule_versions r) slots)
  end.

(** An atom after merging. *)
Record ResolvedRule := mkResolved {
  res_effect : RuleEffect;
  res_uris : list string;
  res_filters : list SubscriptionFilter;
}.

Notation RuleMap := (gmap RuleKey ResolvedRule).

(** [mcp] rules bound to one server identity. *)
Record ServerMcpRules := mkServerRules {
  server_name : option string;
  server_rules : list McpRule;
  server_resolved : RuleMap;
}.

(** [if !v.contains(x) { v.push(x) }], for each [x] in turn. *)
Definition push_new {A} `{EqDecision A} (v : list A) (xs : list A) : list A :=
  foldl (fun v x => if bool_decide (x ∈ v) then v else v ++ [x]) v xs.

(** The body of the double loop of [resolve_atoms]: one rule meets one atom. *)
Definition merge_atom (rule : McpRule) (map : RuleMap) (key : RuleKey) : RuleMap :=
  match map !! key with
  | Some existing =>
      match res_effect existing, rule_effect rule with
      | _, EDeny => <[key := mkResolved EDeny [] []]> map
      | EDeny, EAllow => map
      | EAllow, EAllow =>
          <[key := mkResolved (res_effect existing)
                     (push_new (res_uris existing) (rule_uris rule))
                     (push_new (res_filters existing) (rule_filters rule))]> map
      end
  | None => <[key := mkResolved (rule_effect rule) (rule_uris rule) (rule_filters rule)]> map
  end.

Definition merge_rule (map : RuleMap) (rule : McpRule) : RuleMap :=
  foldl (merge_atom rule) map (atoms rule).

(** The final pass: every parameter list sorted and deduplicated. *)
Definition normalize_resolved (r : ResolvedRule) : ResolvedRule :=
  mkResolved (res_effect r) (sort_dedup (res_uris r)) (sort_dedup (res_filters r)).

Definition resolve_atoms (rules : list McpRule) : RuleMap :=
  normalize_resolved <$> foldl merge_rule ∅ rules.

Definition ServerMcpRules_new (name : option string) (rules : list McpRule) : ServerMcpRules :=
  mkServerRules name rules (resolve_atoms rules).

Definition extend_rules (s : ServerMcpRules) (extra : list McpRule) : ServerMcpRules :=
  let rules := server_rules s ++ extra in
  mkServerRules (server_name s) rules (resolve_atoms rules).

Definition set_rules (s : ServerMcpRules) (rules : list McpRule) : ServerMcpRules :=
  mkServerRules (server_name s) rules (resolve_atoms rules).

(** Intra-document atom collisions: the error names the first repeated atom. *)
Definition collision_message (name : option string) (atom : RuleKey) : string :=
  "conflicting mcp rules in server '" +:+ default "<unnamed>" name +:+ "': method " +:+
  dquote +:+ key_method atom +:+ dquote +:+ " (protocol " +:+
  dquote +:+ SupportedProtocolVersion_as_str (key_version atom) +:+ dquote +:+ ", direction " +:+
  dquote +:+ MessageDirection_as_str (key_direction atom) +:+ dquote +:+
  ") is covered more than once".

Fixpoint insert_atoms (name : option string) (seen : gset RuleKey) (ks : list RuleKey)
    : result (gset RuleKey) string :=
  match ks with
  | [] => Ok seen
  | k :: ks' =>
      if bool_decide (k ∈ seen) then Err (collision_message name k)
      else insert_atoms name ({[k]} ∪ seen) ks'
  end.

Fixpoint insert_rules (name : option string) (seen : gset RuleKey) (rules : list McpRule)
    : result (gset RuleKey) string :=
  match rules with
  | [] => Ok seen
  | r :: rules' =>
      result_bind (insert_atoms name seen (atoms r)) (fun seen => insert_rules name seen rules')
  end.

Definition validate_rule_set (name : option string) (rules : list McpRule) : result unit string :=
  result_bind (insert_rules name ∅ rules) (fun _ => Ok tt).

(** Shape checks of one parsed rule, [kdl_parse/mcp_rules.rs].  The error
    text is kept as the constructor naming the branch that produced it. *)
Inductive RuleShapeError :=
  | UnknownMcpMethod (m : string)
  | NoRuleKey (m : string) (slots : list MethodSlot)
  | DenyWithParams (m : string)
  | FilterOnMethod (m : string)
  | UriOnMethod (m : string)
  | UriWithoutResourceFilter.

Definition validate_mcp_rule (r : McpRule) : result unit RuleShapeError :=
  if bool_decide (method_slots (rule_method r) = []) then Err (UnknownMcpMethod (rule_method r))
  else if bool_decide (atoms r = []) then
    Err (NoRuleKey (rule_method r) (method_slots (rule_method r)))
  else if bool_decide (rule_effect r = EDeny)
          && (bool_decide (rule_uris r ≠ []) || bool_decide (rule_filters r ≠ [])) then
    Err (DenyWithParams (rule_method r))
  else if bool_decide (rule_filters r ≠ [])
          && bool_decide (rule_method r ≠ "subscriptions/listen") then
    Err (FilterOnMethod (rule_method r))
  else if bool_decide (rule_uris r ≠ [])
          && negb (bool_decide (rule_method r ∈
                     ["resources/read"; "resources/subscribe"; "resources/unsubscribe";
                      "subscriptions/listen"])) then
    Err (UriOnMethod (rule_method r))
  else if bool_decide (rule_method r = "subscriptions/listen")
          && bool_decide (rule_uris r ≠ [])
          && negb (bool_decide (ResourceSubscriptions ∈ rule_filters r)) then
    Err UriWithoutResourceFilter
  else Ok tt.

(** ** The abstract reading of a rule list *)

(** Some rule of the given effect covers the atom. *)
Definition covered_by (e : RuleEffect) (rules : list McpRule) (k : RuleKey) : Prop :=
  ∃ r, r ∈ rules ∧ rule_effect r = e ∧ k ∈ atoms r.

Definition granted_uri (rules : list McpRule) (k : RuleKey) (u : string) : Prop :=
  ∃ r, r ∈ rules ∧ rule_effect r = EAllow ∧ k ∈ atoms r ∧ u ∈ rule_uris r.

Definition granted_filter (rules : list McpRule) (k : RuleKey) (f : SubscriptionFilter) : Prop :=
  ∃ r, r ∈ rules ∧ rule_effect r = EAllow ∧ k ∈ atoms r ∧ f ∈ rule_filters r.

(** What the merged entry of an atom must say about the rules behind it:
    nothing covers an absent atom, a deny anywhere wins, and an allowed atom
    carries exactly the union of its rules' parameters. *)
Definition merged_spec (rules : list McpRule) (k : RuleKey) (o : option ResolvedRule) : Prop :=
  match o with
  | None => ¬ covered_by EAllow rules k ∧ ¬ covered_by EDeny rules k
  | Some res =>
      match res_effect res with
      | EDeny => covered_by EDeny rules k
      | EAllow =>
          covered_by EAllow rules k ∧ ¬ covered_by EDeny rules k ∧
          (∀ u, u ∈ res_uris res ↔ granted_uri rules k u) ∧
          (∀ f, f ∈ res_filters res ↔ granted_filter rules k f)
      end
  end.

(** ** The merge implements the reading *)

Lemma elem_of_push_new {A} `{EqDecision A} (xs v : list A) x :
  x ∈ push_new v xs ↔ x ∈ v ∨ x ∈ xs.
Proof.
  unfold push_new. revert v. induction xs as [|y xs IH]; intros v; simpl; [set_solver|].
  rewrite IH. case_bool_decide; set_solver.
Qed.

(** One step of the merge at one atom, seen through [lookup]. *)
Definition merge_opt (rule : McpRule) (o : option ResolvedRule) : ResolvedRule :=
  match o with
  | Some ex =>
      match res_effect ex, rule_effect rule with
      | _, EDeny => mkResolved EDeny [] []
      | EDeny, EAllow => ex
      | EAllow, EAllow =>
          mkResolved EAllow (push_new (res_uris ex) (rule_uris rule))
            (push_new (res_filters ex) (rule_filters rule))
      end
  | None => mkResolved (rule_effect rule) (rule_uris rule) (rule_filters rule)
  end.

Lemma lookup_merge_atom rule (m : RuleMap) key k :
  merge_atom rule m key !! k =
  if decide (key = k) then Some (merge_opt rule (m !! key)) else m !! k.
Proof.
  unfold merge_atom, merge_opt. case_decide as Hk; subst.
  - destruct (m !! k) as [ex|] eqn:E; [|by simplify_map_eq].
    destruct (res_effect ex) eqn:Ee, (rule_effect rule); by simplify_map_eq.
  - destruct (m !! key) as [ex|]; [|by simplify_map_eq].
    destruct (res_effect ex), (rule_effect rule); by simplify_map_eq.
Qed.

(** The reading, over an arbitrary set of rules that reach the atom. *)
Definition merged_by (P : McpRule → Prop) (o : option ResolvedRule) : Prop :=
  match o with
  | None => ∀ r, ¬ P r
  | Some res =>
      match res_effect res with
      | EDeny => ∃ r, P r ∧ rule_effect r = EDeny
      | EAllow =>
          (∃ r, P r) ∧ (∀ r, P r → rule_effect r = EAllow) ∧
          (∀ u, u ∈ res_uris res ↔ ∃ r, P r ∧ u ∈ rule_uris r) ∧
          (∀ f, f ∈ res_filters res ↔ ∃ r, P r ∧ f ∈ rule_filters r)
      end
  end.

Lemma merged_by_ext P Q o : (∀ r, P r ↔ Q r) → merged_by P o → merged_by Q o.
Proof.
  intros HPQ. unfold merged_by. destruct o as [res|]; [destruct (res_effect res)|];
    by setoid_rewrite HPQ.
Qed.

Lemma merged_by_step P rule o :
  merged_by P o → merged_by (λ r, P r ∨ r = rule) (Some (merge_opt rule o)).
Proof.
  unfold merged_by, merge_opt. intros H.
  destruct o as [ex|]; simpl; [destruct (res_effect ex) eqn:Ee|];
    destruct (rule_effect rule) eqn:Er; simpl; try rewrite Ee; try (by eauto).
  - destruct H as (Hex & Hall & Hu & Hf). split_and!.
    + eauto.
    + intros r [HP| ->]; eauto.
    + intros u. rewrite elem_of_push_new, Hu. naive_solver.
    + intros f. rewrite elem_of_push_new, Hf. naive_solver.
  - naive_solver.
  - split_and!; [eauto|naive_solver..].
Qed.

Lemma merge_atoms_spec rule ks : ∀ (m : RuleMap) (Q : RuleKey → McpRule → Prop),
  (∀ k, merged_by (Q k) (m !! k)) →
  ∀ k, merged_by (λ r, Q k r ∨ (r = rule ∧ k ∈ ks)) (foldl (merge_atom rule) m ks !! k).
Proof.
  induction ks as [|key ks IH]; intros m Q HQ k; simpl.
  { eapply merged_by_ext; [|apply HQ]. set_solver. }
  eapply merged_by_ext;
    [|apply (IH _ (λ k r, Q k r ∨ (r = rule ∧ k = key)))]; [set_solver|].
  intros k'. rewrite lookup_merge_atom. case_decide as Hk; subst.
  - eapply merged_by_ext; [|apply merged_by_step, HQ]. naive_solver.
  - eapply merged_by_ext; [|apply HQ]. naive_solver.
Qed.

Lemma merge_rules_spec rules : ∀ (m : RuleMap) (Q : RuleKey → McpRule → Prop),
  (∀ k, merged_by (Q k) (m !! k)) →
  ∀ k, merged_by (λ r, Q k r ∨ (r ∈ rules ∧ k ∈ atoms r)) (foldl merge_rule m rules !! k).
Proof.
  induction rules as [|rule rules IH]; intros m Q HQ k; simpl.
  { eapply merged_by_ext; [|apply HQ]. set_solver. }
  eapply merged_by_ext;
    [|apply (IH _ (λ k r, Q k r ∨ (r = rule ∧ k ∈ atoms rule)))]; [set_solver|].
  intros k'. apply merge_atoms_spec, HQ.
Qed.

Lemma merged_by_normalize P o :
  merged_by P o → merged_by P (normalize_resolved <$> o).
Proof.
  destruct o as [res|]; [|done]. unfold merged_by; simpl.
  destruct (res_effect res); [|done].
  by setoid_rewrite elem_of_sort_dedup.
Qed.

Lemma resolve_atoms_merged rules k :
  merged_by (λ r, r ∈ rules ∧ k ∈ atoms r) (resolve_atoms rules !! k).
Proof.
  unfold resolve_atoms. rewrite lookup_fmap. apply merged_by_normalize.
  eapply merged_by_ext; [|apply (merge_rules_spec rules ∅ (λ _ _, False))]; [naive_solver|].
  intros k'. rewrite lookup_empty. by intros r [].
Qed.

Lemma resolve_atoms_reading rules k : merged_spec rules k (resolve_atoms rules !! k).
Proof.
  pose proof (resolve_atoms_merged rules k) as H.
  unfold merged_by in H. unfold merged_spec, covered_by, granted_uri, granted_filter.
  destruct (resolve_atoms rules !! k) as [res|]; [destruct (res_effect res)|].
  - destruct H as ((r & Hr & Hk) & Hall & Hu & Hf).
    assert (∀ r, r ∈ rules → k ∈ atoms r → rule_effect r = EAllow) as Hall' by auto.
    split_and!.
    + eauto 6.
    + intros (r' & Hr' & He & Hk'). rewrite Hall' in He; done.
    + intros u. rewrite Hu. split; [intros (r' & [] & ?); eauto 7 | naive_solver].
    + intros f. rewrite Hf. split; [intros (r' & [] & ?); eauto 7 | naive_solver].
  - naive_solver.
  - naive_solver.
Qed.

(** Parameter lists come out sorted and without repetitions. *)
Lemma resolve_atoms_sorted rules k res :
  resolve_atoms rules !! k = Some res →
  StronglySorted ord_le (res_uris res) ∧ NoDup (res_uris res) ∧
  StronglySorted ord_le (res_filters res) ∧ NoDup (res_filters res).
Proof.
  unfold resolve_atoms. rewrite lookup_fmap_Some. intros (r & <- & _); simpl.
  destruct (sort_dedup_sorted (res_uris r)), (sort_dedup_sorted (res_filters r)). done.
Qed.

(** ** Equivalence of resolved maps

    Parameters of a denied atom are never consulted, so two maps are the same
    policy when they agree on effects and on the parameters of allowed atoms. *)
#[export] Instance resolved_equiv : Equiv ResolvedRule := λ a b,
  res_effect a = res_effect b ∧
  (res_effect a = EAllow → res_uris a = res_uris b ∧ res_filters a = res_filters b).

#[export] Instance resolved_equivalence : Equivalence (≡@{ResolvedRule}).
Proof.
  split.
  - by intros [].
  - intros a b [He Hp]. split; [done|]. intros Hb. destruct Hp; [congruence|done].
  - intros a b c [He Hp] [He' Hp']. split; [congruence|]. intros Ha.
    destruct (Hp Ha), Hp'; [congruence|]. split; congruence.
Qed.

Lemma covered_by_same e rules1 rules2 k :
  (∀ r, r ∈ rules1 ↔ r ∈ rules2) → covered_by e rules1 k → covered_by e rules2 k.
Proof. intros Hin (r & Hr & He & Hk). exists r. by rewrite <-Hin. Qed.

(** The merged entry of an atom is determined, up to [≡], by the reading. *)
Lemma merged_spec_unique rules1 rules2 k a b :
  (∀ r, r ∈ rules1 ↔ r ∈ rules2) →
  merged_spec rules1 k (Some a) → merged_spec rules2 k (Some b) →
  StronglySorted ord_le (res_uris a) → NoDup (res_uris a) →
  StronglySorted ord_le (res_filters a) → NoDup (res_filters a) →
  StronglySorted ord_le (res_uris b) → NoDup (res_uris b) →
  StronglySorted ord_le (res_filters b) → NoDup (res_filters b) →
  a ≡ b.
Proof.
  intros Hin. unfold merged_spec. intros Ha Hb ????????.
  pose proof (covered_by_same EDeny rules1 rules2 k Hin) as H12.
  pose proof (covered_by_same EDeny rules2 rules1 k (λ r, iff_sym (Hin r))) as H21.
  unfold equiv, resolved_equiv.
  destruct (res_effect a) eqn:Ea, (res_effect b) eqn:Eb; [|tauto|tauto|done].
  split; [done|]. intros _. destruct Ha as (_ & _ & Hu & Hf), Hb as (_ & _ & Hu' & Hf').
  unfold granted_uri in Hu, Hu'. unfold granted_filter in Hf, Hf'.
  split; apply (StronglySorted_unique ord_le); try done; apply NoDup_Permutation; try done;
    intros x; [rewrite Hu, Hu' | rewrite Hf, Hf']; apply exist_proper; intros r; by rewrite Hin.
Qed.

Lemma merged_spec_covered rules k a :
  merged_spec rules k (Some a) → ∃ e, covered_by e rules k.
Proof. unfold merged_spec. destruct (res_effect a); [intros (?&_)|intros ?]; eauto. Qed.

Lemma merged_spec_absent rules1 rules2 k a :
  (∀ r, r ∈ rules1 ↔ r ∈ rules2) →
  merged_spec rules1 k (Some a) → merged_spec rules2 k None → False.
Proof.
  intros Hin [[] He%(covered_by_same _ _ rules2)]%merged_spec_covered [Ha Hd]; done.
Qed.

Lemma resolve_atoms_same_rules rules1 rules2 :
  (∀ r, r ∈ rules1 ↔ r ∈ rules2) → resolve_atoms rules1 ≡ resolve_atoms rules2.
Proof.
  intros Hin k.
  pose proof (resolve_atoms_reading rules1 k) as H1.
  pose proof (resolve_atoms_reading rules2 k) as H2.
  pose proof (resolve_atoms_sorted rules1 k) as S1.
  pose proof (resolve_atoms_sorted rules2 k) as S2.
  destruct (resolve_atoms rules1 !! k) as [a|], (resolve_atoms rules2 !! k) as [b|].
  - constructor. destruct (S1 a eq_refl) as (?&?&?&?), (S2 b eq_refl) as (?&?&?&?).
    by apply (merged_spec_unique rules1 rules2 k).
  - destruct (merged_spec_absent rules1 rules2 k a Hin H1 H2).
  - by destruct (merged_spec_absent rules2 rules1 k b).
  - constructor.
Qed.

(** ** Ledger facts *)

Lemma ledger_find_name m e : ledger_find m = Some e → e.1 = m ∧ e ∈ METHOD_LEDGER.
Proof.
  unfold ledger_find. intros H%find_some. destruct H as [Hin Heq].
  apply String.eqb_eq in Heq. by rewrite list_elem_of_In.
Qed.

Lemma ledger_name_Some m n : ledger_name m = Some n → n = m ∧ m ∈ METHOD_LEDGER.*1.
Proof.
  unfold ledger_name. rewrite fmap_Some. intros (e & He & ->).
  apply ledger_find_name in He as [<- Hin]. split; [done|]. by apply list_elem_of_fmap_2.
Qed.

Lemma elem_of_atoms r k :
  k ∈ atoms r →
  key_method k = rule_method r ∧
  mkSlot (key_version k) (key_direction k) (key_kind k) ∈ method_slots (rule_method r).
Proof.
  unfold atoms, method_slots. destruct (ledger_find (rule_method r)) as [[m slots]|] eqn:E;
    [|set_solver].
  apply ledger_find_name in E as [Em _]. simpl in *.
  intros ([] & -> & [_ [_ Hin]%list_elem_of_filter]%list_elem_of_filter)%list_elem_of_fmap.
  done.
Qed.

(** ** The collision check *)

Lemma insert_atoms_spec name ks : ∀ seen,
  match insert_atoms name seen ks with
  | Ok seen' => NoDup ks ∧ (∀ k, k ∈ ks → k ∉ seen) ∧ seen' = list_to_set ks ∪ seen
  | Err _ => ¬ (NoDup ks ∧ ∀ k, k ∈ ks → k ∉ seen)
  end.
Proof.
  induction ks as [|k ks IH]; intros seen; simpl.
  { split_and!; [constructor|set_solver|set_solver]. }
  case_bool_decide as Hk; [set_solver|].
  specialize (IH ({[k]} ∪ seen)). destruct (insert_atoms _ _ _) as [seen'|e].
  - destruct IH as (Hnd & Hd & ->). split_and!; [apply NoDup_cons; set_solver|set_solver..].
  - intros [[Hk' Hnd]%NoDup_cons Hd]. apply IH. split; [done|]. set_solver.
Qed.

Lemma insert_rules_spec name rules : ∀ seen,
  match insert_rules name seen rules with
  | Ok _ => NoDup (rules ≫= atoms) ∧ (∀ k, k ∈ rules ≫= atoms → k ∉ seen)
  | Err _ => ¬ (NoDup (rules ≫= atoms) ∧ ∀ k, k ∈ rules ≫= atoms → k ∉ seen)
  end.
Proof.
  induction rules as [|r rules IH]; intros seen; simpl.
  { split; [constructor|set_solver]. }
  pose proof (insert_atoms_spec name (atoms r) seen) as Ha.
  destruct (insert_atoms _ _ _) as [seen'|e]; simpl.
  - destruct Ha as (Hnd & Hd & ->). specialize (IH (list_to_set (atoms r) ∪ seen)).
    destruct (insert_rules _ _ _).
    + destruct IH as [Hnd' Hd']. split; [apply NoDup_app; set_solver|set_solver].
    + intros [(?&Hx&?)%NoDup_app Hd']. apply IH. split; [done|]. set_solver.
  - intros [(?&Hx&?)%NoDup_app Hd']. apply Ha. split; [done|]. set_solver.
Qed.

(** The load-time collision check accepts a server's rule list exactly
    when no rule-key atom is covered twice, by two rules or by one. *)
Lemma validate_rule_set_ok_iff name rules :
  validate_rule_set name rules = Ok tt ↔ NoDup (rules ≫= atoms).
Proof.
  unfold validate_rule_set. pose proof (insert_rules_spec name rules ∅) as H.
  destruct (insert_rules _ _ _); simpl; set_solver.
Qed.

(** The merged rule map is the deny-wins reading of the rule list: an
    atom is absent exactly when no rule covers it, denied when some deny rule
    does, and otherwise carries exactly the union of the URIs and filters of
    the allow rules covering it, sorted and without repetitions. *)
Lemma resolve_atoms_deny_sticky rules k :
  merged_spec rules k (resolve_atoms rules !! k) ∧
  (∀ res, resolve_atoms rules !! k = Some res →
     StronglySorted ord_le (res_uris res) ∧ NoDup (res_uris res) ∧
     StronglySorted ord_le (res_filters res) ∧ NoDup (res_filters res)).
Proof. split; [apply resolve_atoms_reading|apply resolve_atoms_sorted]. Qed.
