(* ===== verification/McpDecide.v ===== *)
(** * McpDecide: the per-message decision engine

    [src/src/policy/mcp.rs] (decision inputs, verdicts and reason codes) and
    [src/src/policy/mcp/decide.rs] (behaviour tables and the [decide_*]
    functions).  The decision is pure: the correlation facts it reads are
    arguments, produced by the Auditor's tracking tables. *)

From S2P Require Import Prelude Protocol McpRules.

(** ** Decision inputs *)

Inductive InitStage := PendingInitialize | AwaitingInitialized | Operational.
Inductive CancelFacts := Unrelated | OwnedRequest | CancelSubscriptionId.
Inductive ProgressCorrelation := Unmatched | Matched.
Inductive SubscriptionState := PendingAck | Active | Ended.

#[export] Instance InitStage_eq_dec : EqDecision InitStage.
Proof. solve_decision. Defined.
#[export] Instance SubscriptionState_eq_dec : EqDecision SubscriptionState.
Proof. solve_decision. Defined.

Record MessageCorrelation := mkCorr { corr_log_level : option string }.

Record SubscriptionFacts := mkSub {
  sub_state : SubscriptionState;
  sub_requested : ListenFilters;
  sub_acked : list SubscriptionFilter;
  sub_acked_uris : list string;
}.

Record RequestParams := mkParams {
  p_initialize : InitializeShape;
  p_uri : option string;
  p_level : option string;
  p_notifications : option ListenFilters;
}.

Record RequestMessage := mkRequest {
  rq_version : SupportedProtocolVersion;
  rq_direction : MessageDirection;
  rq_method : string;
  rq_meta : option RequestMeta;
  rq_params : option RequestParams;
}.

Record NotificationMessage := mkNotification {
  nt_version : SupportedProtocolVersion;
  nt_direction : MessageDirection;
  nt_method : string;
  nt_uri : option string;
  nt_level : option string;
  nt_ack_filters : option ListenFilters;
  nt_elicitation_id : option string;
  nt_cancel_target : CancelFacts;
  nt_progress : ProgressCorrelation;
  nt_message_for : option MessageCorrelation;
  nt_subscription : option SubscriptionFacts;
}.

Record OriginalRequestFacts := mkOriginal {
  og_method : string;
  og_allowed : bool;
  og_client_capabilities : list string;
}.

Record AdditionalRequestMessage := mkAdditional {
  ad_version : SupportedProtocolVersion;
  ad_method : string;
  ad_original : OriginalRequestFacts;
}.

Record AnsweredFacts := mkAnswered {
  an_request_direction : MessageDirection;
  an_method : string;
  an_allowed : bool;
}.

Record ResponseMessage := mkResponse {
  rs_version : SupportedProtocolVersion;
  rs_direction : MessageDirection;
  rs_is_error : bool;
  rs_has_result : bool;
  rs_result_type : option string;
  rs_ttl_ms : SchemaField;
  rs_cache_scope : SchemaField;
  rs_input_requests : bool;
  rs_answered : option AnsweredFacts;
}.

Inductive TrafficMessage :=
  | TRequest (m : RequestMessage)
  | TNotification (m : NotificationMessage)
  | TAdditionalRequest (m : AdditionalRequestMessage)
  | TResponse (m : ResponseMessage).

(** Session state the Auditor supplies: tracking-table output only. *)
Record SessionFacts := mkFacts {
  f_init : InitStage;
  f_client_capabilities : list string;
  f_server_capabilities : list string;
  f_resource_subscriptions : list string;
  f_pending_elicitations : list string;
  f_log_level : option string;
}.

(** ** Verdicts and reason codes *)

Inductive AllowReason := AProtocolPass | ARuleAllow | ASubscriptionMatched.

Inductive DropReason :=
  | DrUnknownMethod | DrVersionRemoved | DrVersionDirection | DrNoRule | DrRuleDeny
  | DrInitOrder | DrCapability | DrUncorrelated | DrSubscriptionState | DrShape
  | DrFilterUnknown | DrFilterNotAllowed | DrUriNotAllowed | DrLevelRange.

Inductive DenyReason :=
  | DnUnknownMethod | DnVersionRemoved | DnVersionDirection | DnNoRule | DnRuleDeny
  | DnInitOrder | DnCapability | DnMetaMissing | DnMetaVersion | DnMetaMalformed | DnShape
  | DnUriNotAllowed | DnFilterUnknown | DnFilterNotAllowed | DnUncorrelated | DnResultType
  | DnCacheFields | DnInputRequiredTarget | DnLevelRange | DnFrameTooLarge
  | DnUnsupportedVersion.

Inductive UndecidedReason := UInputRequired.

Inductive McpVerdict :=
  | Allow (r : AllowReason)
  | Drop (r : DropReason)
  | Deny (r : DenyReason)
  | Undecided (r : UndecidedReason).

#[export] Instance AllowReason_eq_dec : EqDecision AllowReason.
Proof. solve_decision. Defined.
#[export] Instance DropReason_eq_dec : EqDecision DropReason.
Proof. solve_decision. Defined.
#[export] Instance DenyReason_eq_dec : EqDecision DenyReason.
Proof. solve_decision. Defined.
#[export] Instance UndecidedReason_eq_dec : EqDecision UndecidedReason.
Proof. solve_decision. Defined.
#[export] Instance McpVerdict_eq_dec : EqDecision McpVerdict.
Proof. solve_decision. Defined.

Definition AllowReason_as_str (r : AllowReason) : string :=
  match r with
  | AProtocolPass => "protocol-pass"
  | ARuleAllow => "rule-allow"
  | ASubscriptionMatched => "subscription-matched"
  end.

Definition DropReason_as_str (r : DropReason) : string :=
  match r with
  | DrUnknownMethod => "unknown-method"
  | DrVersionRemoved => "version-removed"
  | DrVersionDirection => "version-direction"
  | DrNoRule => "no-rule"
  | DrRuleDeny => "rule-deny"
  | DrInitOrder => "init-order"
  | DrCapability => "capability"
  | DrUncorrelated => "uncorrelated"
  | DrSubscriptionState => "subscription-state"
  | DrShape => "shape"
  | DrFilterUnknown => "filter-unknown"
  | DrFilterNotAllowed => "filter-not-allowed"
  | DrUriNotAllowed => "uri-not-allowed"
  | DrLevelRange => "level-range"
  end.

Definition DenyReason_as_str (r : DenyReason) : string :=
  match r with
  | DnUnknownMethod => "unknown-method"
  | DnVersionRemoved => "version-removed"
  | DnVersionDirection => "version-direction"
  | DnNoRule => "no-rule"
  | DnRuleDeny => "rule-deny"
  | DnInitOrder => "init-order"
  | DnCapability => "capability"
  | DnMetaMissing => "meta-missing"
  | DnMetaVersion => "meta-version"
  | DnMetaMalformed => "meta-malformed"
  | DnShape => "shape"
  | DnUriNotAllowed => "uri-not-allowed"
  | DnFilterUnknown => "filter-unknown"
  | DnFilterNotAllowed => "filter-not-allowed"
  | DnUncorrelated => "uncorrelated"
  | DnResultType => "result-type"
  | DnCacheFields => "cache-fields"
  | DnInputRequiredTarget => "input-required-target"
  | DnLevelRange => "level-range"
  | DnFrameTooLarge => "frame-too-large"
  | DnUnsupportedVersion => "unsupported-version"
  end.

Definition UndecidedReason_as_str (r : UndecidedReason) : string :=
  match r with UInputRequired => "input-required" end.

Definition outcome (v : McpVerdict) : string :=
  match v with
  | Allow _ => "allow"
  | Drop _ => "drop"
  | Deny _ => "deny"
  | Undecided _ => "undecided"
  end.

Definition reason_code (v : McpVerdict) : string :=
  match v with
  | Allow r => AllowReason_as_str r
  | Drop r => DropReason_as_str r
  | Deny r => DenyReason_as_str r
  | Undecided r => UndecidedReason_as_str r
  end.

(** [Display]: [outcome(reason)]. *)
Definition verdict_display (v : McpVerdict) : string :=
  outcome v +:+ "(" +:+ reason_code v +:+ ")".

(** ** Behaviour classification *)

Inductive RequestBehavior :=
  | RbUnknown
  | RbRemovedInVersion
  | RbIllegalDirection
  | RbInitialize
  | RbProtocolPass
  | RbRule (cap : option string)
  | RbRuleUri (cap : option string)
  | RbResourceSubscribe (unsubscribe : bool)
  | RbSubscriptionListen
  | RbLogLevelSet.

Definition request_behavior (v : SupportedProtocolVersion) (d : MessageDirection) (m : string)
    : RequestBehavior :=
  match v, d with
  | Mcp2026July28, ServerToClient => RbIllegalDirection
  | Mcp2026July28, ClientToServer =>
      str_match m
        [(["server/discover"; "tools/list"; "tools/call"], RbProtocolPass);
         (["subscriptions/listen"], RbSubscriptionListen);
         (["resources/list"; "resources/templates/list"; "prompts/list"; "prompts/get";
           "completion/complete"], RbRule None);
         (["resources/read"], RbRuleUri None);
         (["initialize"; "ping"; "logging/setLevel"; "resources/subscribe";
           "resources/unsubscribe"], RbRemovedInVersion)]
        RbUnknown
  | Mcp2025November25, ClientToServer =>
      str_match m
        [(["initialize"], RbInitialize);
         (["ping"; "tools/list"; "tools/call"], RbProtocolPass);
         (["resources/list"; "resources/templates/list"], RbRule (Some "resources"));
         (["resources/read"], RbRuleUri (Some "resources"));
         (["resources/subscribe"], RbResourceSubscribe false);
         (["resources/unsubscribe"], RbResourceSubscribe true);
         (["prompts/list"; "prompts/get"], RbRule (Some "prompts"));
         (["completion/complete"], RbRule (Some "completions"));
         (["logging/setLevel"], RbLogLevelSet)]
        RbUnknown
  | Mcp2025November25, ServerToClient =>
      str_match m
        [(["ping"], RbProtocolPass);
         (["sampling/createMessage"], RbRule (Some "sampling"));
         (["roots/list"], RbRule (Some "roots"));
         (["elicitation/create"], RbRule (Some "elicitation"))]
        RbUnknown
  end.

Inductive NotificationBehavior :=
  | NbUnknown
  | NbRemovedInVersion
  | NbInitialized
  | NbCancel
  | NbCancelSubscription
  | NbProgress
  | NbRule (cap : option string)
  | NbCapGate (cap : string)
  | NbResourceUpdated
  | NbLogMessage25
  | NbLogMessage26
  | NbElicitationComplete
  | NbSubNotify (filter : SubscriptionFilter)
  | NbSubscriptionAck.

Definition notification_behavior (v : SupportedProtocolVersion) (d : MessageDirection) (m : string)
    : NotificationBehavior :=
  match v, d with
  | Mcp2025November25, ClientToServer =>
      str_match m
        [(["notifications/initialized"], NbInitialized);
         (["notifications/cancelled"], NbCancel);
         (["notifications/progress"], NbProgress);
         (["notifications/roots/list_changed"], NbRule (Some "roots.listChanged"))]
        NbUnknown
  | Mcp2025November25, ServerToClient =>
      str_match m
        [(["notifications/cancelled"], NbCancel);
         (["notifications/progress"], NbProgress);
         (["notifications/message"], NbLogMessage25);
         (["notifications/tools/list_changed"], NbCapGate "tools.listChanged");
         (["notifications/resources/list_changed"], NbRule (Some "resources.listChanged"));
         (["notifications/prompts/list_changed"], NbRule (Some "prompts.listChanged"));
         (["notifications/resources/updated"], NbResourceUpdated);
         (["notifications/elicitation/complete"], NbElicitationComplete)]
        NbUnknown
  | Mcp2026July28, ClientToServer =>
      str_match m
        [(["notifications/cancelled"], NbCancel);
         (["notifications/initialized"; "notifications/roots/list_changed";
           "notifications/elicitation/complete"], NbRemovedInVersion)]
        NbUnknown
  | Mcp2026July28, ServerToClient =>
      str_match m
        [(["notifications/cancelled"], NbCancelSubscription);
         (["notifications/progress"], NbProgress);
         (["notifications/message"], NbLogMessage26);
         (["notifications/subscriptions/acknowledged"], NbSubscriptionAck);
         (["notifications/tools/list_changed"], NbSubNotify ToolsListChanged);
         (["notifications/prompts/list_changed"], NbSubNotify PromptsListChanged);
         (["notifications/resources/list_changed"], NbSubNotify ResourcesListChanged);
         (["notifications/resources/updated"], NbSubNotify ResourceSubscriptions);
         (["notifications/initialized"; "notifications/roots/list_changed";
           "notifications/elicitation/complete"], NbRemovedInVersion)]
        NbUnknown
  end.

Definition RESULT_TYPE_COMPLETE : string := "complete".
Definition RESULT_TYPE_INPUT_REQUIRED : string := "input_required".

Definition CACHEABLE_METHODS : list string :=
  ["server/discover"; "tools/list"; "resources/list"; "resources/templates/list";
   "resources/read"; "prompts/list"].

Definition INPUT_REQUIRED_METHODS : list string := ["tools/call"; "resources/read"; "prompts/get"].

Definition additional_request_capability (m : string) : option string :=
  str_match m
    [(["elicitation/create"], Some "elicitation");
     (["sampling/createMessage"], Some "sampling");
     (["roots/list"], Some "roots")] None.

(** ** The decision *)

(** The atom of a message, when its method is in the ledger. *)
Definition rule_atom (rules : RuleMap) (v : SupportedProtocolVersion) (d : MessageDirection)
    (k : RuleKind) (m : string) : option ResolvedRule :=
  match ledger_name m with
  | Some n => rules !! mkKey v d k n
  | None => None
  end.

Definition denies (r : ResolvedRule) : bool := bool_decide (res_effect r = EDeny).

(** The key test of the loop in [allowed_listen_filters]. *)
Definition is_listen_allow (key : RuleKey) (rule : ResolvedRule) : bool :=
  bool_decide (key_version key = V26) && bool_decide (key_direction key = C2S)
  && bool_decide (key_kind key = KRequest)
  && bool_decide (key_method key = "subscriptions/listen")
  && bool_decide (res_effect rule = EAllow).

Definition allowed_listen_filters (rules : RuleMap) : gset SubscriptionFilter * gset string :=
  foldl (fun '(filters, uris) '(key, rule) =>
           if is_listen_allow key rule
           then (list_to_set (res_filters rule) ∪ filters, list_to_set (res_uris rule) ∪ uris)
           else (filters, uris))
    ({[ToolsListChanged]}, ∅) (map_to_list rules).

Definition has_capability (capabilities : list string) (cap : string) : bool :=
  bool_decide (cap ∈ capabilities).

Definition meta_check (meta : option RequestMeta) : result unit DenyReason :=
  match meta with
  | None => Err DnMetaMissing
  | Some meta =>
      if malformed meta then Err DnMetaMalformed
      else if bool_decide (protocol_version meta = Some MCP_VERSION_2026_07_28) then
        match client_capabilities_shape meta with
        | Valid => Ok tt
        | Absent => Err DnMetaMissing
        | Invalid => Err DnMetaMalformed
        end
      else Err DnMetaVersion
  end.

(** The revision gate of [decide_request]: [_meta] for 2026-07-28, lifecycle
    ordering for 2025-11-25. *)
Definition request_gate (m : RequestMessage) (facts : SessionFacts) : result unit DenyReason :=
  match rq_version m with
  | Mcp2026July28 => meta_check (rq_meta m)
  | Mcp2025November25 =>
      if bool_decide (rq_method m = "initialize") then
        if bool_decide (f_init facts ≠ PendingInitialize) then Err DnInitOrder else Ok tt
      else if bool_decide (rq_method m = "ping") then Ok tt
      else if bool_decide (f_init facts = PendingInitialize) then Err DnInitOrder
      else if bool_decide (rq_direction m = ServerToClient)
              && bool_decide (f_init facts ≠ Operational) then Err DnInitOrder
      else Ok tt
  end.

(** Filters of a [subscriptions/listen] request against the rules. *)
Definition decide_listen (rules : RuleMap) (atom : option ResolvedRule)
    (params : option RequestParams) : McpVerdict :=
  match params ≫= p_notifications with
  | None => Deny DnShape
  | Some filters =>
      if bool_decide (unknown filters ≠ []) then Deny DnFilterUnknown
      else
        let '(allowed_filters, allowed_uris) := allowed_listen_filters rules in
        if existsb (fun f => bool_decide (f ≠ ResourceSubscriptions)
                             && negb (bool_decide (f ∈ allowed_filters))) (enabled filters)
        then Deny DnFilterNotAllowed
        else
          let pass := Allow (if only_free_filters filters && bool_decide (atom = None)
                             then AProtocolPass else ARuleAllow) in
          match resource_subscriptions filters with
          | Some uris =>
              if negb (bool_decide (ResourceSubscriptions ∈ allowed_filters))
              then Deny DnFilterNotAllowed
              else if existsb (fun u => negb (bool_decide (u ∈ allowed_uris))) uris
              then Deny DnUriNotAllowed
              else pass
          | None => pass
          end
  end.

(** The behaviour dispatch after the gates have passed.  The last three
    behaviours have returned before; the source marks them unreachable. *)
Definition decide_behavior (rules : RuleMap) (atom : option ResolvedRule) (b : RequestBehavior)
    (m : RequestMessage) (facts : SessionFacts) : McpVerdict :=
  match b with
  | RbInitialize =>
      if default false ((fun p => complete (p_initialize p)) <$> rq_params m)
      then Allow AProtocolPass else Deny DnShape
  | RbProtocolPass => Allow AProtocolPass
  | RbRule cap =>
      match atom with
      | None => Deny DnNoRule
      | Some _ =>
          let caps := match rq_direction m with
                      | ClientToServer => f_server_capabilities facts
                      | ServerToClient => f_client_capabilities facts
                      end in
          if is_none_or cap (has_capability caps) then Allow ARuleAllow else Deny DnCapability
      end
  | RbRuleUri cap =>
      match atom with
      | None => Deny DnNoRule
      | Some rule =>
          if negb (is_none_or cap (has_capability (f_server_capabilities facts)))
          then Deny DnCapability
          else match rq_params m ≫= p_uri with
               | None => Deny DnShape
               | Some uri =>
                   if bool_decide (uri ∈ res_uris rule) then Allow ARuleAllow
                   else Deny DnUriNotAllowed
               end
      end
  | RbResourceSubscribe unsubscribe =>
      match atom with
      | None => Deny DnNoRule
      | Some rule =>
          if negb (has_capability (f_server_capabilities facts) "resources.subscribe")
          then Deny DnCapability
          else match rq_params m ≫= p_uri with
               | None => Deny DnShape
               | Some uri =>
                   if unsubscribe then
                     if bool_decide (uri ∈ f_resource_subscriptions facts) then Allow ARuleAllow
                     else Deny DnUncorrelated
                   else if bool_decide (uri ∈ res_uris rule) then Allow ARuleAllow
                   else Deny DnUriNotAllowed
               end
      end
  | RbSubscriptionListen => decide_listen rules atom (rq_params m)
  | RbLogLevelSet =>
      match atom with
      | None => Deny DnNoRule
      | Some _ =>
          if negb (has_capability (f_server_capabilities facts) "logging") then Deny DnCapability
          else match rq_params m ≫= p_level with
               | Some level =>
                   if bool_decide (is_Some (rfc5424_rank level)) then Allow ARuleAllow
                   else Deny DnShape
               | None => Deny DnShape
               end
      end
  | RbUnknown => Deny DnUnknownMethod
  | RbRemovedInVersion => Deny DnVersionRemoved
  | RbIllegalDirection => Deny DnVersionDirection
  end.

(** From the deny test on: a deny atom wins even over protocol machinery. *)
Definition judge_request (rules : RuleMap) (b : RequestBehavior) (m : RequestMessage)
    (facts : SessionFacts) : McpVerdict :=
  let atom := rule_atom rules (rq_version m) (rq_direction m) KRequest (rq_method m) in
  if is_some_and atom denies then Deny DnRuleDeny
  else match request_gate m facts with
       | Err reason => Deny reason
       | Ok _ => decide_behavior rules atom b m facts
       end.

Definition decide_request (rules : RuleMap) (m : RequestMessage) (facts : SessionFacts)
    : McpVerdict :=
  let behavior := request_behavior (rq_version m) (rq_direction m) (rq_method m) in
  match behavior with
  | RbUnknown => Deny DnUnknownMethod
  | RbRemovedInVersion => Deny DnVersionRemoved
  | RbIllegalDirection => Deny DnVersionDirection
  | _ => judge_request rules behavior m facts
  end.

(** Log-level gate shared by the session and per-request thresholds. *)
Definition log_level_gate (message_level requested : option string) : McpVerdict :=
  match message_level with
  | None => Drop DrShape
  | Some level =>
      match rfc5424_rank level with
      | None => Drop DrShape
      | Some msg_rank =>
          match requested with
          | None => Allow ARuleAllow
          | Some req =>
              match rfc5424_rank req with
              | Some req_rank =>
                  if bool_decide (req_rank ≤ msg_rank) then Allow ARuleAllow
                  else Drop DrLevelRange
              | None => Drop DrLevelRange
              end
          end
      end
  end.

(** The two checked loops of the acknowledgement branch: each element must
    have been requested and must be granted; the first that is not decides. *)
Fixpoint ack_loop {A} (requested granted : A → bool) (not_granted : DropReason) (xs : list A)
    : option DropReason :=
  match xs with
  | [] => None
  | x :: xs' =>
      if negb (requested x) then Some DrUncorrelated
      else if negb (granted x) then Some not_granted
      else ack_loop requested granted not_granted xs'
  end.

Definition decide_ack (rules : RuleMap) (sub : SubscriptionFacts) (ack : ListenFilters)
    : McpVerdict :=
  let requested := enabled (sub_requested sub) in
  let '(allowed_filters, allowed_uris) := allowed_listen_filters rules in
  match ack_loop (fun f => bool_decide (f ∈ requested)) (fun f => bool_decide (f ∈ allowed_filters))
          DrFilterNotAllowed (enabled ack) with
  | Some r => Drop r
  | None =>
      match resource_subscriptions ack with
      | None => Allow ASubscriptionMatched
      | Some uris =>
          let requested_uris := default [] (resource_subscriptions (sub_requested sub)) in
          match ack_loop (fun u => bool_decide (u ∈ requested_uris))
                  (fun u => bool_decide (u ∈ allowed_uris)) DrUriNotAllowed uris with
          | Some r => Drop r
          | None => Allow ASubscriptionMatched
          end
      end
  end.

(** The behaviour dispatch of a notification, past the deny test. *)
Definition notify_behavior (rules : RuleMap) (atom : option ResolvedRule)
    (b : NotificationBehavior) (m : NotificationMessage) (facts : SessionFacts) : McpVerdict :=
  match b with
  | NbInitialized =>
      if bool_decide (f_init facts = AwaitingInitialized) then Allow AProtocolPass
      else Drop DrInitOrder
  | NbCancel =>
      match nt_cancel_target m with
      | OwnedRequest => Allow AProtocolPass
      | _ => Drop DrUncorrelated
      end
  | NbCancelSubscription =>
      match nt_cancel_target m with
      | CancelSubscriptionId => Allow AProtocolPass
      | _ => Drop DrUncorrelated
      end
  | NbProgress =>
      match nt_progress m with
      | Matched => Allow AProtocolPass
      | Unmatched => Drop DrUncorrelated
      end
  | NbRule cap =>
      if bool_decide (atom = None) then Drop DrNoRule
      else
        let caps := match nt_direction m with
                    | ClientToServer => f_client_capabilities facts
                    | ServerToClient => f_server_capabilities facts
                    end in
        if is_none_or cap (has_capability caps) then Allow ARuleAllow else Drop DrCapability
  | NbCapGate cap =>
      if has_capability (f_server_capabilities facts) cap then Allow AProtocolPass
      else Drop DrCapability
  | NbResourceUpdated =>
      if bool_decide (atom = None) then Drop DrNoRule
      else if negb (has_capability (f_server_capabilities facts) "resources.subscribe")
      then Drop DrCapability
      else match nt_uri m with
           | None => Drop DrShape
           | Some uri =>
               if bool_decide (uri ∈ f_resource_subscriptions facts) then Allow ARuleAllow
               else Drop DrUncorrelated
           end
  | NbLogMessage25 =>
      if bool_decide (atom = None) then Drop DrNoRule
      else if negb (has_capability (f_server_capabilities facts) "logging")
      then Drop DrCapability
      else log_level_gate (nt_level m) (f_log_level facts)
  | NbLogMessage26 =>
      if bool_decide (atom = None) then Drop DrNoRule
      else match nt_message_for m with
           | None => Drop DrUncorrelated
           | Some corr =>
               match corr_log_level corr with
               | None => Drop DrUncorrelated
               | Some requested => log_level_gate (nt_level m) (Some requested)
               end
           end
  | NbElicitationComplete =>
      if bool_decide (atom = None) then Drop DrNoRule
      else match nt_elicitation_id m with
           | None => Drop DrShape
           | Some el_id =>
               if bool_decide (el_id ∈ f_pending_elicitations facts) then Allow ARuleAllow
               else Drop DrUncorrelated
           end
  | NbSubNotify filter =>
      match nt_subscription m with
      | None => Drop DrUncorrelated
      | Some sub =>
          if bool_decide (sub_state sub ≠ Active) then Drop DrSubscriptionState
          else if negb (bool_decide (filter ∈ sub_acked sub)) then Drop DrFilterNotAllowed
          else if bool_decide (filter = ResourceSubscriptions) then
            match nt_uri m with
            | None => Drop DrShape
            | Some uri =>
                if bool_decide (uri ∈ sub_acked_uris sub) then Allow ASubscriptionMatched
                else Drop DrUriNotAllowed
            end
          else Allow ASubscriptionMatched
      end
  | NbSubscriptionAck =>
      match nt_subscription m with
      | None => Drop DrUncorrelated
      | Some sub =>
          if bool_decide (sub_state sub ≠ PendingAck) then Drop DrSubscriptionState
          else match nt_ack_filters m with
               | None => Drop DrShape
               | Some ack =>
                   if bool_decide (unknown ack ≠ []) then Drop DrFilterUnknown
                   else decide_ack rules sub ack
               end
      end
  | NbUnknown => Drop DrUnknownMethod
  | NbRemovedInVersion => Drop DrVersionRemoved
  end.

Definition judge_notification (rules : RuleMap) (b : NotificationBehavior)
    (m : NotificationMessage) (facts : SessionFacts) : McpVerdict :=
  let atom := rule_atom rules (nt_version m) (nt_direction m) KNotification (nt_method m) in
  if is_some_and atom denies then Drop DrRuleDeny
  else notify_behavior rules atom b m facts.

Definition decide_notification (rules : RuleMap) (m : NotificationMessage) (facts : SessionFacts)
    : McpVerdict :=
  let behavior := notification_behavior (nt_version m) (nt_direction m) (nt_method m) in
  match behavior with
  | NbUnknown => Drop DrUnknownMethod
  | NbRemovedInVersion => Drop DrVersionRemoved
  | _ => judge_notification rules behavior m facts
  end.

Definition decide_additional (rules : RuleMap) (m : AdditionalRequestMessage) : McpVerdict :=
  if bool_decide (ad_version m ≠ Mcp2026July28) then Deny DnVersionDirection
  else match additional_request_capability (ad_method m) with
  | None => Deny DnUnknownMethod
  | Some cap =>
      let atom := rule_atom rules V26 S2C KAdditionalRequest (ad_method m) in
      if is_some_and atom denies then Deny DnRuleDeny
      else if negb (og_allowed (ad_original m))
              || negb (bool_decide (og_method (ad_original m) ∈ INPUT_REQUIRED_METHODS))
      then Deny DnInputRequiredTarget
      else if negb (has_capability (og_client_capabilities (ad_original m)) cap)
      then Deny DnCapability
      else if bool_decide (atom = None) then Deny DnNoRule
      else Allow ARuleAllow
  end.

Definition decide_response (m : ResponseMessage) : McpVerdict :=
  if bool_decide (rs_version m = Mcp2026July28)
     && bool_decide (rs_direction m = ClientToServer) then Deny DnVersionDirection
  else match rs_answered m with
  | None => Deny DnUncorrelated
  | Some answered =>
      if bool_decide (an_request_direction answered = rs_direction m) then Deny DnUncorrelated
      else if negb (an_allowed answered) then Deny DnUncorrelated
      else if Bool.eqb (rs_is_error m) (rs_has_result m) then Deny DnShape
      else if rs_is_error m then Allow AProtocolPass
      else match rs_version m with
      | Mcp2025November25 =>
          if bool_decide (is_Some (rs_result_type m)) || rs_input_requests m
          then Deny DnResultType else Allow AProtocolPass
      | Mcp2026July28 =>
          if bool_decide (rs_result_type m = Some RESULT_TYPE_COMPLETE) then
            if rs_input_requests m then Deny DnResultType
            else if bool_decide (an_method answered ∈ CACHEABLE_METHODS)
                    && (bool_decide (rs_ttl_ms m ≠ Valid) || bool_decide (rs_cache_scope m ≠ Valid))
            then Deny DnCacheFields
            else Allow AProtocolPass
          else if bool_decide (rs_result_type m = Some RESULT_TYPE_INPUT_REQUIRED) then
            if bool_decide (an_method answered ∈ INPUT_REQUIRED_METHODS)
            then Undecided UInputRequired
            else Deny DnInputRequiredTarget
          else Deny DnResultType
      end
  end.

Definition decide_message (rules : RuleMap) (msg : TrafficMessage) (facts : SessionFacts) : McpVerdict :=
  match msg with
  | TRequest m => decide_request rules m facts
  | TNotification m => decide_notification rules m facts
  | TAdditionalRequest m => decide_additional rules m
  | TResponse m => decide_response m
  end.

(** [ServerMcpRules::decide]. *)
Definition server_decide (s : ServerMcpRules) (msg : TrafficMessage) (facts : SessionFacts)
    : McpVerdict := decide_message (server_resolved s) msg facts.

(** [Policy::decide_mcp]: exactly one bound server, or the empty rule set. *)
Definition decide_mcp (mcp_rules : list ServerMcpRules) (msg : TrafficMessage)
    (facts : SessionFacts) : McpVerdict :=
  match mcp_rules with
  | [s] => server_decide s msg facts
  | _ => server_decide (mkServerRules None [] ∅) msg facts
  end.
