(* ===== verification/McpTheorems.v ===== *)
(** * McpTheorems: what the MCP decision engine guarantees

    The behaviour tables and the rule ledger describe the same methods; a deny
    rule always wins and deny rules only ever shrink what passes; the verdict
    does not depend on the order rules were merged in; without rules exactly
    the documented default profile passes. *)

From S2P Require Import Prelude Protocol McpRules McpDecide.

(** ** Verdict classes *)

(** Forwarded, or handed to the layer that completes the judgment. *)
Definition passes (v : McpVerdict) : bool :=
  match v with
  | Allow _ | Undecided _ => true
  | Drop _ | Deny _ => false
  end.

(** A request behaviour that some policy can let through. *)
Definition request_live (b : RequestBehavior) : bool :=
  match b with
  | RbUnknown | RbRemovedInVersion | RbIllegalDirection => false
  | _ => true
  end.

Definition notification_live (b : NotificationBehavior) : bool :=
  match b with
  | NbUnknown | NbRemovedInVersion => false
  | _ => true
  end.

(** The atom a message is judged under. *)
Definition in_ledger (v : SupportedProtocolVersion) (d : MessageDirection) (k : RuleKind)
    (m : string) : bool := bool_decide (mkSlot v d k ∈ method_slots m).

(** ** The ledger and the behaviour tables agree *)

Lemma ledger_find_None m : m ∉ METHOD_LEDGER.*1 → ledger_find m = None.
Proof.
  intros Hm. destruct (ledger_find m) as [e|] eqn:E; [|done].
  apply ledger_find_name in E as [<- Hin]. destruct Hm. by apply list_elem_of_fmap_2.
Qed.

Lemma method_slots_None m : m ∉ METHOD_LEDGER.*1 → method_slots m = [].
Proof. intros Hm. unfold method_slots. by rewrite ledger_find_None. Qed.

(** Every literal of a table that lies in the ledger is inert on a method
    outside the ledger. *)
Lemma str_match_outside {R} m (arms : list (list string * R)) d :
  m ∉ METHOD_LEDGER.*1 → forallb (λ s, bool_decide (s ∈ METHOD_LEDGER.*1)) (str_arms arms) = true →
  str_match m arms d = d.
Proof.
  intros Hm Hall. apply str_match_otherwise. intros Hin.
  rewrite forallb_forall in Hall. apply list_elem_of_In in Hin.
  apply Hall in Hin. apply bool_decide_eq_true in Hin. done.
Qed.

Lemma request_behavior_outside v d m :
  m ∉ METHOD_LEDGER.*1 → request_live (request_behavior v d m) = false.
Proof.
  intros Hm. unfold request_behavior. destruct v, d; try done;
    rewrite str_match_outside by (done || vm_compute; reflexivity); done.
Qed.

Lemma notification_behavior_outside v d m :
  m ∉ METHOD_LEDGER.*1 → notification_behavior v d m = NbUnknown.
Proof.
  intros Hm. unfold notification_behavior. destruct v, d;
    rewrite str_match_outside by (done || vm_compute; reflexivity); done.
Qed.

Lemma additional_outside m :
  m ∉ METHOD_LEDGER.*1 → additional_request_capability m = None.
Proof.
  intros Hm. unfold additional_request_capability.
  by rewrite str_match_outside by (done || vm_compute; reflexivity).
Qed.

Lemma in_ledger_outside v d k m : m ∉ METHOD_LEDGER.*1 → in_ledger v d k m = false.
Proof.
  intros Hm. unfold in_ledger. rewrite method_slots_None by done.
  apply bool_decide_eq_false. set_solver.
Qed.

(** All methods of the ledger, checked one by one. *)
Lemma ledger_tables_agree m : m ∈ METHOD_LEDGER.*1 → ∀ v d,
  request_live (request_behavior v d m) = in_ledger v d KRequest m ∧
  notification_live (notification_behavior v d m) = in_ledger v d KNotification m ∧
  bool_decide (is_Some (additional_request_capability m)) = in_ledger V26 S2C KAdditionalRequest m.
Proof.
  intros Hm v d. cbn in Hm. elem_cases Hm; destruct v, d; vm_compute; done.
Qed.

Lemma request_live_ledger v d m :
  request_live (request_behavior v d m) = in_ledger v d KRequest m.
Proof.
  destruct (decide (m ∈ METHOD_LEDGER.*1)) as [Hm|Hm].
  - by apply ledger_tables_agree.
  - by rewrite request_behavior_outside, in_ledger_outside.
Qed.

Lemma notification_live_ledger v d m :
  notification_live (notification_behavior v d m) = in_ledger v d KNotification m.
Proof.
  destruct (decide (m ∈ METHOD_LEDGER.*1)) as [Hm|Hm].
  - by apply ledger_tables_agree.
  - by rewrite notification_behavior_outside, in_ledger_outside.
Qed.

Lemma additional_ledger m :
  bool_decide (is_Some (additional_request_capability m)) =
  in_ledger V26 S2C KAdditionalRequest m.
Proof.
  destruct (decide (m ∈ METHOD_LEDGER.*1)) as [Hm|Hm].
  - by apply (ledger_tables_agree m Hm V26 S2C).
  - rewrite additional_outside, in_ledger_outside by done. done.
Qed.

(** The method ledger and the behaviour tables describe the same
    protocol: a method has a live request (notification, additional-request)
    behaviour in a revision and direction exactly when the ledger lists that
    slot, so every message that can pass can be targeted by a rule, and every
    rule key names a message that can occur. *)
Lemma ledger_matches_behavior v d m :
  request_live (request_behavior v d m) = in_ledger v d KRequest m ∧
  notification_live (notification_behavior v d m) = in_ledger v d KNotification m ∧
  bool_decide (is_Some (additional_request_capability m)) =
    in_ledger V26 S2C KAdditionalRequest m.
Proof.
  auto using request_live_ledger, notification_live_ledger, additional_ledger.
Qed.

(** ** Methods outside the ledger *)

(** Unknown methods fail closed: whatever the rules and the session
    state, a request or additional request whose method is outside the ledger
    is denied and a notification is dropped as unknown. *)
Lemma unknown_method_fails_closed rules facts m :
  m ∉ METHOD_LEDGER.*1 →
  (∀ rq, rq_method rq = m →
     decide_message rules (TRequest rq) facts = Deny DnUnknownMethod ∨
     decide_message rules (TRequest rq) facts = Deny DnVersionDirection) ∧
  (∀ nt, nt_method nt = m →
     decide_message rules (TNotification nt) facts = Drop DrUnknownMethod) ∧
  (∀ ad, ad_method ad = m →
     decide_message rules (TAdditionalRequest ad) facts = Deny DnUnknownMethod ∨
     decide_message rules (TAdditionalRequest ad) facts = Deny DnVersionDirection).
Proof.
  intros Hm. split_and!.
  - intros rq <-. simpl. unfold decide_request.
    pose proof (request_behavior_outside (rq_version rq) (rq_direction rq) _ Hm) as Hb.
    pose proof Hm as Hr. unfold request_behavior.
    destruct (rq_version rq), (rq_direction rq); auto;
      rewrite str_match_outside by (done || vm_compute; reflexivity); auto.
  - intros nt <-. simpl. unfold decide_notification. by rewrite notification_behavior_outside.
  - intros ad <-. simpl. unfold decide_additional. rewrite additional_outside by done.
    case_bool_decide; auto.
Qed.

(** ** Deny always wins *)

Lemma ledger_name_in m : m ∈ METHOD_LEDGER.*1 → ledger_name m = Some m.
Proof. cbn. intros Hm. elem_cases Hm; vm_compute; done. Qed.

Lemma rule_atom_lookup rules v d k m :
  m ∈ METHOD_LEDGER.*1 → rule_atom rules v d k m = rules !! mkKey v d k m.
Proof. intros Hm. unfold rule_atom. by rewrite ledger_name_in. Qed.

Lemma in_ledger_inside v d k m : in_ledger v d k m = true → m ∈ METHOD_LEDGER.*1.
Proof.
  destruct (decide (m ∈ METHOD_LEDGER.*1)) as [Hm|Hm]; [done|].
  by rewrite in_ledger_outside.
Qed.

(** A covered atom names a slot of the ledger. *)
Lemma covered_in_ledger e rules v d k m :
  covered_by e rules (mkKey v d k m) → in_ledger v d k m = true.
Proof.
  intros (r & _ & _ & [Hm Hs]%elem_of_atoms). simpl in *. subst.
  by apply bool_decide_eq_true.
Qed.

(** The atom of a message some deny rule covers. *)
Lemma denied_atom rules v d k m :
  covered_by EDeny rules (mkKey v d k m) →
  is_some_and (rule_atom (resolve_atoms rules) v d k m) denies = true.
Proof.
  intros Hc. rewrite rule_atom_lookup by eauto using in_ledger_inside, covered_in_ledger.
  pose proof (resolve_atoms_reading rules (mkKey v d k m)) as Hr.
  unfold merged_spec in Hr.
  destruct (resolve_atoms rules !! _) as [res|]; simpl; [|by destruct Hr].
  unfold denies. destruct (res_effect res); [by destruct Hr as (_ & [] & _)|done].
Qed.

(** [C1] A deny rule always wins, even over protocol machinery and over any
    number of allow rules on the same atom: the message it covers is answered
    with [rule-deny] in every session state (dropped, for a notification). *)
Theorem deny_rule_always_wins rules facts :
  (∀ rq, covered_by EDeny rules
           (mkKey (rq_version rq) (rq_direction rq) KRequest (rq_method rq)) →
     decide_message (resolve_atoms rules) (TRequest rq) facts = Deny DnRuleDeny) ∧
  (∀ nt, covered_by EDeny rules
           (mkKey (nt_version nt) (nt_direction nt) KNotification (nt_method nt)) →
     decide_message (resolve_atoms rules) (TNotification nt) facts = Drop DrRuleDeny) ∧
  (∀ ad, ad_version ad = V26 →
     covered_by EDeny rules (mkKey V26 S2C KAdditionalRequest (ad_method ad)) →
     decide_message (resolve_atoms rules) (TAdditionalRequest ad) facts = Deny DnRuleDeny).
Proof.
  split_and!.
  - intros rq Hc. simpl. unfold decide_request, judge_request. rewrite (denied_atom _ _ _ _ _ Hc).
    apply covered_in_ledger in Hc. rewrite <-request_live_ledger in Hc.
    by destruct (request_behavior _ _ _).
  - intros nt Hc. simpl. unfold decide_notification, judge_notification. rewrite (denied_atom _ _ _ _ _ Hc).
    apply covered_in_ledger in Hc. rewrite <-notification_live_ledger in Hc.
    by destruct (notification_behavior _ _ _).
  - intros ad Hv Hc. simpl. unfold decide_additional.
    rewrite Hv, (denied_atom _ _ _ _ _ Hc). simpl.
    apply covered_in_ledger in Hc. rewrite <-additional_ledger in Hc.
    apply bool_decide_eq_true in Hc. by destruct Hc as [cap ->].
Qed.

(** ** The filters a policy grants *)

Definition listen_key : RuleKey := mkKey V26 C2S KRequest "subscriptions/listen".

Lemma is_listen_allow_spec k r :
  is_listen_allow k r = true ↔ k = listen_key ∧ res_effect r = EAllow.
Proof.
  unfold is_listen_allow, listen_key. rewrite !andb_true_iff, !bool_decide_eq_true.
  destruct k; simpl. naive_solver.
Qed.

Lemma listen_fold_spec (l : list (RuleKey * ResolvedRule)) : ∀ F U,
  let out := foldl (fun '(filters, uris) '(key, rule) =>
               if is_listen_allow key rule
               then (list_to_set (res_filters rule) ∪ filters, list_to_set (res_uris rule) ∪ uris)
               else (filters, uris)) (F, U) l : gset SubscriptionFilter * gset string in
  (∀ f, f ∈ out.1 ↔ f ∈ F ∨ ∃ k r, (k, r) ∈ l ∧ is_listen_allow k r = true ∧ f ∈ res_filters r) ∧
  (∀ u, u ∈ out.2 ↔ u ∈ U ∨ ∃ k r, (k, r) ∈ l ∧ is_listen_allow k r = true ∧ u ∈ res_uris r).
Proof.
  induction l as [|[k r] l IH]; intros F U; cbn zeta; simpl; [set_solver|].
  destruct (is_listen_allow k r) eqn:E.
  - destruct (IH (list_to_set (res_filters r) ∪ F) (list_to_set (res_uris r) ∪ U)) as [IH1 IH2].
    cbn zeta in IH1, IH2. split; [intros f; rewrite IH1|intros u; rewrite IH2]; set_solver.
  - destruct (IH F U) as [IH1 IH2]. cbn zeta in IH1, IH2.
    split; [intros f; rewrite IH1|intros u; rewrite IH2].
    + split; [naive_solver set_solver|]. intros [?|(k'&r'&Hin&He&?)]; [by left|right].
      apply elem_of_cons in Hin as [Hin|Hin]; [congruence|]. eauto.
    + split; [naive_solver set_solver|]. intros [?|(k'&r'&Hin&He&?)]; [by left|right].
      apply elem_of_cons in Hin as [Hin|Hin]; [congruence|]. eauto.
Qed.

Lemma allowed_listen_filters_spec rules :
  (∀ f, f ∈ (allowed_listen_filters rules).1 ↔
     f = ToolsListChanged ∨
     ∃ r, rules !! listen_key = Some r ∧ res_effect r = EAllow ∧ f ∈ res_filters r) ∧
  (∀ u, u ∈ (allowed_listen_filters rules).2 ↔
     ∃ r, rules !! listen_key = Some r ∧ res_effect r = EAllow ∧ u ∈ res_uris r).
Proof.
  unfold allowed_listen_filters.
  destruct (listen_fold_spec (map_to_list rules) {[ToolsListChanged]} ∅) as [H1 H2].
  cbn zeta in H1, H2.
  setoid_rewrite is_listen_allow_spec in H1. setoid_rewrite is_listen_allow_spec in H2.
  setoid_rewrite elem_of_map_to_list in H1. setoid_rewrite elem_of_map_to_list in H2.
  split; [intros f; rewrite H1|intros u; rewrite H2]; set_solver.
Qed.

(** ** Grants and their order *)

(** [o1] lets through no more than [o2]. *)
Definition entry_le (o1 o2 : option ResolvedRule) : Prop :=
  (∀ r2, o2 = Some r2 → res_effect r2 = EDeny →
     ∃ r1, o1 = Some r1 ∧ res_effect r1 = EDeny) ∧
  (∀ r1, o1 = Some r1 → res_effect r1 = EAllow →
     ∃ r2, o2 = Some r2 ∧ res_effect r2 = EAllow ∧
           res_uris r1 ⊆ res_uris r2 ∧ res_filters r1 ⊆ res_filters r2).

Definition grants_le (m1 m2 : RuleMap) : Prop := ∀ k, entry_le (m1 !! k) (m2 !! k).

Lemma rule_atom_le m1 m2 v d k m :
  grants_le m1 m2 → entry_le (rule_atom m1 v d k m) (rule_atom m2 v d k m).
Proof.
  intros Hle. unfold rule_atom. destruct (ledger_name m); [apply Hle|]. by split.
Qed.

(** What the order gives a judgment that has got past the deny test. *)
Lemma entry_le_allow o1 o2 :
  entry_le o1 o2 → is_some_and o1 denies = false →
  is_some_and o2 denies = false ∧
  (∀ r1, o1 = Some r1 → ∃ r2, o2 = Some r2 ∧
     res_uris r1 ⊆ res_uris r2 ∧ res_filters r1 ⊆ res_filters r2).
Proof.
  intros [Hd Ha] H1. split.
  - destruct o2 as [r2|]; [|done]. simpl. apply bool_decide_eq_false. intros He.
    destruct (Hd r2 eq_refl He) as (r1 & -> & He1). simpl in H1.
    by apply bool_decide_eq_false in H1.
  - intros r1 ->. simpl in H1. apply bool_decide_eq_false in H1.
    destruct (res_effect r1) eqn:E; [|done].
    destruct (Ha r1 eq_refl E) as (r2 & -> & _ & ? & ?). eauto.
Qed.

Lemma allowed_listen_filters_le m1 m2 :
  grants_le m1 m2 →
  (∀ f, f ∈ (allowed_listen_filters m1).1 → f ∈ (allowed_listen_filters m2).1) ∧
  (∀ u, u ∈ (allowed_listen_filters m1).2 → u ∈ (allowed_listen_filters m2).2).
Proof.
  intros Hle. destruct (allowed_listen_filters_spec m1) as [F1 U1],
    (allowed_listen_filters_spec m2) as [F2 U2].
  destruct (Hle listen_key) as [_ Ha].
  split.
  - intros f. rewrite F1, F2. intros [?|(r & Hr & He & Hf)]; [by left|right].
    destruct (Ha r Hr He) as (r2 & ? & ? & _ & Hsub). eauto.
  - intros u. rewrite U1, U2. intros (r & Hr & He & Hf).
    destruct (Ha r Hr He) as (r2 & ? & ? & Hsub & _). eauto.
Qed.

Lemma existsb_false_mono {A} (p q : A → bool) l :
  (∀ x, q x = true → p x = true) → existsb p l = false → existsb q l = false.
Proof.
  intros Hpq Hp. apply not_true_iff_false. intros (x & Hx & Hq)%existsb_exists.
  assert (existsb p l = true) by (apply existsb_exists; eauto). congruence.
Qed.

Lemma decide_listen_mono m1 m2 a1 a2 params :
  grants_le m1 m2 →
  passes (decide_listen m1 a1 params) = true → passes (decide_listen m2 a2 params) = true.
Proof.
  intros [HF HU]%allowed_listen_filters_le. unfold decide_listen.
  destruct (params ≫= p_notifications) as [filters|]; [|done].
  case_bool_decide; [done|].
  destruct (allowed_listen_filters m1) as [F1 U1], (allowed_listen_filters m2) as [F2 U2].
  simpl in HF, HU.
  destruct (existsb _ (enabled filters)) eqn:E1; [done|].
  erewrite (existsb_false_mono _ _ (enabled filters)); [|clear E1|exact E1].
  2: { intros f. rewrite !andb_true_iff, !negb_true_iff, !bool_decide_eq_true,
         !bool_decide_eq_false. naive_solver. }
  destruct (resource_subscriptions filters) as [uris|]; [|done].
  case_bool_decide as Hf; [|done]. rewrite (bool_decide_eq_true_2 _ (HF _ Hf)). simpl.
  destruct (existsb _ uris) eqn:E2; [done|].
  erewrite (existsb_false_mono _ _ uris); [done|clear E2|exact E2].
  intros u. rewrite !negb_true_iff, !bool_decide_eq_false. naive_solver.
Qed.

Lemma ack_loop_mono {A} (rq g1 g2 : A → bool) ng xs :
  (∀ x, g1 x = true → g2 x = true) →
  ack_loop rq g1 ng xs = None → ack_loop rq g2 ng xs = None.
Proof.
  intros Hg. induction xs as [|x xs IH]; simpl; [done|].
  destruct (rq x); simpl; [|done]. destruct (g1 x) eqn:E; simpl; [|done].
  by rewrite (Hg _ E).
Qed.

Lemma decide_ack_mono m1 m2 sub ack :
  grants_le m1 m2 →
  passes (decide_ack m1 sub ack) = true → passes (decide_ack m2 sub ack) = true.
Proof.
  intros [HF HU]%allowed_listen_filters_le. unfold decide_ack.
  destruct (allowed_listen_filters m1) as [F1 U1], (allowed_listen_filters m2) as [F2 U2].
  simpl in HF, HU.
  destruct (ack_loop _ (λ f, bool_decide (f ∈ F1)) _ _) eqn:E; [done|].
  erewrite ack_loop_mono; [|clear E|exact E].
  2: { intros f. rewrite !bool_decide_eq_true. apply HF. }
  destruct (resource_subscriptions ack) as [uris|]; [|done].
  destruct (ack_loop _ (λ u, bool_decide (u ∈ U1)) _ _) eqn:E2; [done|].
  erewrite ack_loop_mono; [done|clear E2|exact E2].
  intros u. rewrite !bool_decide_eq_true. apply HU.
Qed.

Lemma decide_behavior_mono m1 m2 a1 a2 b m facts :
  grants_le m1 m2 →
  (∀ r1, a1 = Some r1 → ∃ r2, a2 = Some r2 ∧
     res_uris r1 ⊆ res_uris r2 ∧ res_filters r1 ⊆ res_filters r2) →
  passes (decide_behavior m1 a1 b m facts) = true →
  passes (decide_behavior m2 a2 b m facts) = true.
Proof.
  intros Hle Ha.
  destruct b as [| | | | |cap|cap|un| |]; simpl; try done;
    try (destruct a1 as [r1|]; [|done]; destruct (Ha r1 eq_refl) as (r2 & -> & Hu & _); try done).
  - destruct (negb _); [done|]. destruct (rq_params m ≫= p_uri) as [uri|]; [|done].
    case_bool_decide as Hin; [|done]. by rewrite (bool_decide_eq_true_2 _ (Hu _ Hin)).
  - destruct (negb _); [done|]. destruct (rq_params m ≫= p_uri) as [uri|]; [|done].
    destruct un; [done|].
    case_bool_decide as Hin; [|done]. by rewrite (bool_decide_eq_true_2 _ (Hu _ Hin)).
  - by apply decide_listen_mono.
Qed.

Lemma judge_request_mono m1 m2 b m facts :
  grants_le m1 m2 →
  passes (judge_request m1 b m facts) = true → passes (judge_request m2 b m facts) = true.
Proof.
  intros Hle. unfold judge_request.
  pose proof (rule_atom_le m1 m2 (rq_version m) (rq_direction m) KRequest (rq_method m) Hle) as Hat.
  destruct (is_some_and _ denies) eqn:E; [done|].
  destruct (entry_le_allow _ _ Hat E) as [-> Ha].
  destruct (request_gate m facts); [|done]. by apply decide_behavior_mono.
Qed.

Lemma notify_behavior_mono m1 m2 a1 a2 b m facts :
  grants_le m1 m2 → (a2 = None → a1 = None) →
  passes (notify_behavior m1 a1 b m facts) = true →
  passes (notify_behavior m2 a2 b m facts) = true.
Proof.
  intros Hle Ha. destruct b; simpl; try done;
    try (repeat case_bool_decide; try done; tauto).
  destruct (nt_subscription m); [|done]. case_bool_decide; [done|].
  destruct (nt_ack_filters m); [|done]. case_bool_decide; [done|].
  by apply decide_ack_mono.
Qed.

Lemma judge_notification_mono m1 m2 b m facts :
  grants_le m1 m2 →
  passes (judge_notification m1 b m facts) = true → passes (judge_notification m2 b m facts) = true.
Proof.
  intros Hle. unfold judge_notification.
  pose proof (rule_atom_le m1 m2 (nt_version m) (nt_direction m) KNotification (nt_method m) Hle) as Hat.
  destruct (is_some_and _ denies) eqn:E; [done|].
  destruct (entry_le_allow _ _ Hat E) as [-> Ha].
  apply notify_behavior_mono; [done|]. intros H2.
  destruct (rule_atom m1 _ _ _ _) as [r1|] eqn:E1; [|done].
  destruct (Ha r1 eq_refl) as (r2 & ? & _). congruence.
Qed.

Lemma decide_message_mono m1 m2 msg facts :
  grants_le m1 m2 →
  passes (decide_message m1 msg facts) = true → passes (decide_message m2 msg facts) = true.
Proof.
  intros Hle. destruct msg as [rq|nt|ad|rs]; simpl; [..|done].
  - unfold decide_request. destruct (request_behavior _ _ _); try done; by apply judge_request_mono.
  - unfold decide_notification.
    destruct (notification_behavior _ _ _); try done; by apply judge_notification_mono.
  - unfold decide_additional. case_bool_decide; [done|].
    destruct (additional_request_capability _); [|done].
    pose proof (rule_atom_le m1 m2 V26 S2C KAdditionalRequest (ad_method ad) Hle) as Hat.
    destruct (is_some_and _ denies) eqn:E; [done|].
    destruct (entry_le_allow _ _ Hat E) as [-> Ha].
    destruct (_ || _); [done|]. destruct (negb _); [done|].
    repeat case_bool_decide; try done.
    destruct (rule_atom m1 _ _ _ _) as [r1|]; [|done].
    destruct (Ha r1 eq_refl) as (r2 & ? & _). congruence.
Qed.

(** Extra deny rules shrink the grants of a rule list. *)
Lemma resolve_denies_le rules extra :
  Forall (λ r, rule_effect r = EDeny) extra →
  grants_le (resolve_atoms (rules ++ extra)) (resolve_atoms rules).
Proof.
  intros Hd k. rewrite Forall_forall in Hd.
  pose proof (resolve_atoms_reading (rules ++ extra) k) as H1.
  pose proof (resolve_atoms_reading rules k) as H2.
  unfold merged_spec in H1, H2. split.
  - intros r2 E2 He. rewrite E2, He in H2. destruct H2 as (r & Hr & Hre & Hk).
    assert (covered_by EDeny (rules ++ extra) k) as Hc by (exists r; set_solver).
    destruct (resolve_atoms (rules ++ extra) !! k) as [res|]; [|naive_solver].
    exists res. split; [done|]. destruct (res_effect res); [|done]. naive_solver.
  - intros r1 E1 He. rewrite E1, He in H1.
    destruct H1 as ((r & Hr & Hre & Hk) & Hnd & Hu & Hf).
    assert (∀ e, covered_by e rules k → covered_by e (rules ++ extra) k) as Hsub.
    { intros e (r' & ? & ? & ?). exists r'. set_solver. }
    assert (covered_by EAllow rules k) as Hc.
    { exists r. apply elem_of_app in Hr as [Hr|Hr]; [done|]. rewrite (Hd r Hr) in Hre. done. }
    destruct (resolve_atoms rules !! k) as [res|]; [|naive_solver].
    exists res. destruct (res_effect res); [|naive_solver].
    destruct H2 as (_ & _ & Hu' & Hf').
    assert (∀ r, r ∈ rules ++ extra → rule_effect r = EAllow → r ∈ rules) as Hin.
    { intros r' [?|Hr']%elem_of_app He'; [done|]. rewrite (Hd r' Hr') in He'. done. }
    unfold granted_uri in Hu, Hu'. unfold granted_filter in Hf, Hf'.
    split_and!; [done|done|..].
    + intros u. rewrite Hu, Hu'. intros (r' & ? & ? & ?). exists r'. auto.
    + intros f. rewrite Hf, Hf'. intros (r' & ? & ? & ?). exists r'. auto.
Qed.

(** Adding deny rules never opens anything: a message that passes under
    a rule list extended with deny rules already passed without them. *)
Lemma deny_rules_only_restrict rules extra msg facts :
  Forall (λ r, rule_effect r = EDeny) extra →
  passes (decide_message (resolve_atoms (rules ++ extra)) msg facts) = true →
  passes (decide_message (resolve_atoms rules) msg facts) = true.
Proof. intros Hd. by apply decide_message_mono, resolve_denies_le. Qed.

(** ** The order of rules does not matter *)

Lemma rule_atom_equiv (m1 m2 : RuleMap) v d k m :
  m1 ≡ m2 → rule_atom m1 v d k m ≡ rule_atom m2 v d k m.
Proof. intros Heq. unfold rule_atom. destruct (ledger_name m); [apply Heq|constructor]. Qed.

Lemma equiv_grants_le (m1 m2 : RuleMap) : m1 ≡ m2 → grants_le m1 m2.
Proof.
  intros Heq k. specialize (Heq k). destruct Heq as [a b [He Hp]|]; [|by split].
  split.
  - intros r [= <-] Hr. exists a. split; [done|congruence].
  - intros r [= <-] Hr. destruct (Hp Hr) as [Hu Hf]. exists b.
    rewrite <-He, Hu, Hf. by split_and!.
Qed.

Lemma allowed_listen_filters_equiv (m1 m2 : RuleMap) :
  m1 ≡ m2 → allowed_listen_filters m1 = allowed_listen_filters m2.
Proof.
  intros Heq. assert (m2 ≡ m1) as Heq' by done.
  destruct (allowed_listen_filters_le _ _ (equiv_grants_le _ _ Heq)) as [F1 U1],
    (allowed_listen_filters_le _ _ (equiv_grants_le _ _ Heq')) as [F2 U2].
  apply injective_projections; apply set_eq; intros x; split; auto.
Qed.

Lemma atom_denies_equiv (a1 a2 : option ResolvedRule) :
  a1 ≡ a2 → is_some_and a1 denies = is_some_and a2 denies.
Proof. intros [x y [He _]|]; [|done]. simpl. unfold denies. by rewrite He. Qed.

Lemma atom_none_equiv (a1 a2 : option ResolvedRule) :
  a1 ≡ a2 → bool_decide (a1 = None) = bool_decide (a2 = None).
Proof. by intros [x y ?|]. Qed.

(** Past the deny test, equivalent atoms grant the same URIs. *)
Lemma atom_uris_equiv (a1 a2 : option ResolvedRule) :
  a1 ≡ a2 → is_some_and a1 denies = false → res_uris <$> a1 = res_uris <$> a2.
Proof.
  intros [x y [He Hp]|] Hd; [|done]. simpl in *. apply bool_decide_eq_false in Hd.
  destruct (res_effect x) eqn:Ex; [|done]. by destruct (Hp eq_refl) as [-> _].
Qed.

Lemma decide_behavior_equiv (m1 m2 : RuleMap) (a1 a2 : option ResolvedRule) b m facts :
  m1 ≡ m2 → a1 ≡ a2 → is_some_and a1 denies = false →
  decide_behavior m1 a1 b m facts = decide_behavior m2 a2 b m facts.
Proof.
  intros Hm Ha Hd. destruct b; try done.
  4: { simpl. unfold decide_listen.
       by rewrite (allowed_listen_filters_equiv _ _ Hm), (atom_none_equiv _ _ Ha). }
  all: pose proof (atom_uris_equiv _ _ Ha Hd) as Hu;
    destruct a1, a2; simplify_eq/=; rewrite ?Hu; done.
Qed.

Lemma notify_behavior_equiv (m1 m2 : RuleMap) (a1 a2 : option ResolvedRule) b m facts :
  m1 ≡ m2 → a1 ≡ a2 → notify_behavior m1 a1 b m facts = notify_behavior m2 a2 b m facts.
Proof.
  intros Hm Ha. unfold notify_behavior, decide_ack.
  by rewrite (allowed_listen_filters_equiv _ _ Hm), (atom_none_equiv _ _ Ha).
Qed.

#[export] Instance decide_message_proper :
  Proper ((≡@{RuleMap}) ==> (=) ==> (=) ==> (=)) decide_message.
Proof.
  intros m1 m2 Hm msg _ <- facts _ <-. destruct msg as [rq|nt|ad|rs]; simpl; [..|done].
  - unfold decide_request, judge_request.
    pose proof (rule_atom_equiv m1 m2 (rq_version rq) (rq_direction rq) KRequest (rq_method rq) Hm)
      as Ha.
    rewrite (atom_denies_equiv _ _ Ha).
    destruct (is_some_and (rule_atom m2 _ _ _ _) denies) eqn:Hd; [done|].
    rewrite <-(atom_denies_equiv _ _ Ha) in Hd.
    destruct (request_gate rq facts); [|done].
    destruct (request_behavior _ _ _); try done; by apply decide_behavior_equiv.
  - unfold decide_notification, judge_notification.
    pose proof (rule_atom_equiv m1 m2 (nt_version nt) (nt_direction nt) KNotification
                  (nt_method nt) Hm) as Ha.
    rewrite (atom_denies_equiv _ _ Ha).
    destruct (notification_behavior _ _ _); try done; by rewrite (notify_behavior_equiv m1 m2 _ _ _ _ _ Hm Ha).
  - unfold decide_additional.
    pose proof (rule_atom_equiv m1 m2 V26 S2C KAdditionalRequest (ad_method ad) Hm) as Ha.
    by rewrite (atom_denies_equiv _ _ Ha), (atom_none_equiv _ _ Ha).
Qed.

(** The verdict depends on which rules are in force, not on the order or
    multiplicity in which documents were merged: rule lists with the same
    rules decide every message alike, reason code included. *)
Lemma decision_ignores_rule_order rules1 rules2 msg facts :
  (∀ r, r ∈ rules1 ↔ r ∈ rules2) →
  decide_message (resolve_atoms rules1) msg facts = decide_message (resolve_atoms rules2) msg facts.
Proof. intros Hin%resolve_atoms_same_rules. by rewrite Hin. Qed.

(** ** The default profile *)

(** A [_meta] member that names the revision and carries client capabilities. *)
Definition meta_stamped (meta : option RequestMeta) : Prop :=
  ∃ r, meta = Some r ∧ malformed r = false ∧ protocol_version r = Some "2026-07-28" ∧
    client_capabilities_shape r = Valid.

Lemma meta_check_ok meta : meta_check meta = Ok tt ↔ meta_stamped meta.
Proof.
  unfold meta_check, meta_stamped. change MCP_VERSION_2026_07_28 with "2026-07-28". split.
  - destruct meta as [r|]; [|done]. destruct (malformed r) eqn:E1; [done|].
    case_bool_decide as E2; [|done]. destruct (client_capabilities_shape r) eqn:E3; try done.
    intros _. by exists r.
  - intros (r & -> & -> & Hv & ->). by rewrite bool_decide_eq_true_2.
Qed.

(** What the module documentation lists as passing without [mcp] rules, for
    requests. *)
Definition default_request (m : RequestMessage) (facts : SessionFacts) : Prop :=
  match rq_version m, rq_direction m with
  | Mcp2025November25, ClientToServer =>
      (rq_method m = "initialize" ∧ f_init facts = PendingInitialize ∧
         ∃ p, rq_params m = Some p ∧ complete (p_initialize p) = true) ∨
      rq_method m = "ping" ∨
      ((rq_method m = "tools/list" ∨ rq_method m = "tools/call") ∧
         f_init facts ≠ PendingInitialize)
  | Mcp2025November25, ServerToClient => rq_method m = "ping"
  | Mcp2026July28, ClientToServer =>
      meta_stamped (rq_meta m) ∧
      ((rq_method m ∈ ["server/discover"; "tools/list"; "tools/call"]) ∨
       (rq_method m = "subscriptions/listen" ∧
          ∃ l, (rq_params m ≫= p_notifications) = Some l ∧ unknown l = [] ∧
               ∀ f, f ∈ enabled l → f = ToolsListChanged))
  | Mcp2026July28, ServerToClient => False
  end.

Lemma decide_listen_default params :
  passes (decide_listen ∅ None params) = true ↔
  ∃ l, (params ≫= p_notifications) = Some l ∧ unknown l = [] ∧
       ∀ f, f ∈ enabled l → f = ToolsListChanged.
Proof.
  unfold decide_listen. destruct (params ≫= p_notifications) as [l|]; [|split; [done|naive_solver]].
  destruct (allowed_listen_filters_spec ∅) as [F U].
  assert (∀ f, f ∈ (allowed_listen_filters ∅).1 ↔ f = ToolsListChanged) as F'.
  { intros f. rewrite F, lookup_empty. naive_solver. }
  destruct (allowed_listen_filters ∅) as [fs us]. simpl in *. clear F U.
  transitivity (unknown l = [] ∧ ∀ f, f ∈ enabled l → f = ToolsListChanged); [|naive_solver].
  case_bool_decide as Hu; [split; [done|naive_solver]|].
  destruct (existsb _ (enabled l)) eqn:E.
  - apply existsb_exists in E as (f & Hf & Hb). apply list_elem_of_In in Hf.
    rewrite andb_true_iff, negb_true_iff, bool_decide_eq_true, bool_decide_eq_false, F' in Hb.
    split; [done|]. intros [_ H]. specialize (H f Hf). naive_solver.
  - assert (∀ f, f ∈ enabled l → f ≠ ResourceSubscriptions → f = ToolsListChanged) as Hen.
    { intros f Hf Hn. destruct (decide (f = ToolsListChanged)) as [|Hne]; [done|].
      assert (existsb (λ f, bool_decide (f ≠ ResourceSubscriptions) && negb (bool_decide (f ∈ fs)))
                (enabled l) = true) as H; [|congruence].
      apply existsb_exists. exists f. split; [by apply list_elem_of_In|].
      rewrite andb_true_iff, negb_true_iff, bool_decide_eq_true, bool_decide_eq_false, F'. done. }
    destruct (resource_subscriptions l) as [uris|] eqn:Er.
    + rewrite bool_decide_eq_false_2 by (rewrite F'; done). simpl. split; [done|].
      intros [_ H]. assert (ResourceSubscriptions ∈ enabled l) as Hin; [|by specialize (H _ Hin)].
      apply elem_of_enabled. rewrite Er. by eexists.
    + split; [intros _; split; [done|]|done]. intros f Hf. apply Hen; [done|].
      intros ->. apply elem_of_enabled in Hf. rewrite Er in Hf. by destruct Hf.
Qed.

Lemma rule_atom_empty v d k m : rule_atom ∅ v d k m = None.
Proof. unfold rule_atom. destruct (ledger_name m); [apply lookup_empty|done]. Qed.

(** Which behaviours can pass without a rule, and when. *)
Lemma decide_behavior_default b m facts :
  passes (decide_behavior ∅ None b m facts) = true ↔
  match b with
  | RbInitialize => ∃ p, rq_params m = Some p ∧ complete (p_initialize p) = true
  | RbProtocolPass => True
  | RbSubscriptionListen =>
      ∃ l, (rq_params m ≫= p_notifications) = Some l ∧ unknown l = [] ∧
           ∀ f, f ∈ enabled l → f = ToolsListChanged
  | _ => False
  end.
Proof.
  destruct b; try done; [|apply decide_listen_default]. simpl.
  destruct (rq_params m) as [p|]; simpl; [|split; [done|naive_solver]].
  destruct (complete (p_initialize p)) eqn:E; naive_solver.
Qed.

(** Which methods have the behaviours that pass without a rule. *)
Lemma request_behavior_default v d m :
  match request_behavior v d m with
  | RbInitialize => v = V25 ∧ d = C2S ∧ m = "initialize"
  | RbProtocolPass =>
      match v, d with
      | Mcp2025November25, ClientToServer => m ∈ ["ping"; "tools/list"; "tools/call"]
      | Mcp2025November25, ServerToClient => m = "ping"
      | Mcp2026July28, ClientToServer => m ∈ ["server/discover"; "tools/list"; "tools/call"]
      | Mcp2026July28, ServerToClient => False
      end
  | RbSubscriptionListen => v = V26 ∧ d = C2S ∧ m = "subscriptions/listen"
  | _ => True
  end.
Proof.
  destruct v, d; [|done|..]; unfold request_behavior, str_match;
    repeat case_bool_decide; set_solver.
Qed.

(** Without rules a request passes iff it passes its revision's gate and its
    behaviour lets it through. *)
Lemma decide_request_default m facts :
  passes (decide_request ∅ m facts) = true ↔
  request_gate m facts = Ok tt ∧
  passes (decide_behavior ∅ None
    (request_behavior (rq_version m) (rq_direction m) (rq_method m)) m facts) = true.
Proof.
  unfold decide_request, judge_request. rewrite rule_atom_empty. simpl.
  destruct (request_behavior _ _ _), (request_gate m facts) as [[]|]; naive_solver.
Qed.

Lemma default_request_back m facts :
  default_request m facts → passes (decide_request ∅ m facts) = true.
Proof.
  rewrite decide_request_default. destruct m as [v d meth meta params].
  unfold default_request, request_gate; cbn [rq_version rq_direction rq_method rq_meta rq_params].
  destruct v, d; [|done|..].
  - intros [Hm%meta_check_ok [Hin|[-> Hl]]]; [elem_cases Hin|]; (split; [done|]);
      apply decide_behavior_default; vm_compute (request_behavior _ _ _); done.
  - intros [(-> & Hi & Hp)|[->|[[->| ->] Hi]]].
    all: (split; [by repeat case_bool_decide|]).
    all: apply decide_behavior_default; vm_compute (request_behavior _ _ _); done.
  - intros ->. split; [done|].
    apply decide_behavior_default; vm_compute (request_behavior _ _ _); done.
Qed.

Lemma default_request_forth m facts :
  passes (decide_request ∅ m facts) = true → default_request m facts.
Proof.
  rewrite decide_request_default, decide_behavior_default. intros [Hg Hp].
  pose proof (request_behavior_default (rq_version m) (rq_direction m) (rq_method m)) as Hb.
  unfold default_request. unfold request_gate in Hg.
  destruct (request_behavior _ _ _); try done.
  - destruct Hb as (Hv & Hd & Hm). rewrite Hv, Hd, Hm in *. simpl in *.
    case_bool_decide as Hi; [done|]. left. done.
  - destruct (rq_version m), (rq_direction m); try done.
    + split; [by apply meta_check_ok|]. by left.
    + right. elem_cases Hb; [by left|right..]; rewrite Hb in Hg; simpl in Hg;
        (split; [by auto|]); by case_bool_decide.
  - destruct Hb as (Hv & Hd & Hm). rewrite Hv, Hd, Hm in *. simpl in *.
    split; [by apply meta_check_ok|]. by right.
Qed.

(** The default profile, for requests: with no [mcp] rules in force (no
    bound server, or an ambiguous binding), exactly the requests of the
    documented profile pass - [initialize] in the pending stage with a complete
    shape, [ping], tools traffic after initialization, and on 2026-07-28 with
    valid [_meta] [server/discover], tools traffic and a
    [subscriptions/listen] limited to the free filter. *)
Lemma default_profile_requests sets m facts :
  length sets ≠ 1 →
  passes (decide_mcp sets (TRequest m) facts) = true ↔ default_request m facts.
Proof.
  intros Hn.
  assert (decide_mcp sets (TRequest m) facts = decide_request ∅ m facts) as ->.
  { by destruct sets as [|? [|]]. }
  split; [apply default_request_forth | apply default_request_back].
Qed.
