(* ===== verification/McpGuarantees.v ===== *)
(** * McpGuarantees: guarantees of the MCP layer

    The properties of the judgments on requests, notifications, additional
    requests and responses, and concrete sessions that show them. *)

From S2P Require Import Prelude Protocol McpRules McpDecide McpTheorems.

(** ** What an allow atom comes from *)

Lemma allowed_atom rules v d k m res :
  rule_atom (resolve_atoms rules) v d k m = Some res →
  denies res = false →
  covered_by EAllow rules (mkKey v d k m) ∧
  ¬ covered_by EDeny rules (mkKey v d k m) ∧
  (∀ u, u ∈ res_uris res ↔ granted_uri rules (mkKey v d k m) u).
Proof.
  unfold rule_atom. destruct (ledger_name m) as [n|] eqn:En; [|done].
  assert (n = m) as ->.
  { unfold ledger_name in En. destruct (ledger_find m) as [e|] eqn:Ef; [|done].
    apply ledger_find_name in Ef as [? _]. simplify_eq/=. done. }
  intros Hl Hd. apply bool_decide_eq_false in Hd.
  pose proof (resolve_atoms_reading rules (mkKey v d k m)) as H. rewrite Hl in H.
  unfold merged_spec in H. destruct (res_effect res); [|done]. by destruct H as (? & ? & ? & _).
Qed.

Lemma listen_granted rules :
  (∀ f, f ∈ (allowed_listen_filters (resolve_atoms rules)).1 →
     f = ToolsListChanged ∨ granted_filter rules listen_key f) ∧
  (∀ u, u ∈ (allowed_listen_filters (resolve_atoms rules)).2 → granted_uri rules listen_key u).
Proof.
  destruct (allowed_listen_filters_spec (resolve_atoms rules)) as [F U].
  pose proof (resolve_atoms_reading rules listen_key) as H. unfold merged_spec in H.
  split.
  - intros f. rewrite F. intros [?|(r & Hl & He & Hf)]; [by left|right].
    rewrite Hl, He in H. destruct H as (_ & _ & _ & Hg). by apply Hg.
  - intros u. rewrite U. intros (r & Hl & He & Hu).
    rewrite Hl, He in H. destruct H as (_ & _ & Hg & _). by apply Hg.
Qed.

(** ** Requests *)

(** Behaviours that need an allow rule. *)
Definition needs_rule (b : RequestBehavior) : bool :=
  match b with
  | RbRule _ | RbRuleUri _ | RbResourceSubscribe _ | RbLogLevelSet => true
  | _ => false
  end.

(** A passing request got past every stage of [decide_request]. *)
Lemma request_passes_inv rules m facts :
  passes (decide_request rules m facts) = true →
  let b := request_behavior (rq_version m) (rq_direction m) (rq_method m) in
  let atom := rule_atom rules (rq_version m) (rq_direction m) KRequest (rq_method m) in
  request_live b = true ∧ is_some_and atom denies = false ∧ request_gate m facts = Ok tt ∧
  passes (decide_behavior rules atom b m facts) = true.
Proof.
  unfold decide_request, judge_request. simpl.
  destruct (request_behavior _ _ _), (is_some_and _ denies), (request_gate m facts) as [[]|];
    done.
Qed.

(** [C20] No rule, no passage: a request that passes and whose method is not
    protocol machinery is covered by an allow rule of the policy and by no deny
    rule; when the method carries a resource URI ([resources/read],
    [resources/subscribe]) that URI is listed by an allow rule on the same
    atom, and an unsubscribe names a URI the session is subscribed to. *)
Theorem rule_bound_requests_are_granted rules m facts :
  let b := request_behavior (rq_version m) (rq_direction m) (rq_method m) in
  let key := mkKey (rq_version m) (rq_direction m) KRequest (rq_method m) in
  needs_rule b = true →
  passes (decide_message (resolve_atoms rules) (TRequest m) facts) = true →
  covered_by EAllow rules key ∧ ¬ covered_by EDeny rules key ∧
  (∀ cap, b = RbRuleUri cap ∨ b = RbResourceSubscribe false →
     ∃ u, (rq_params m ≫= p_uri) = Some u ∧ granted_uri rules key u) ∧
  (b = RbResourceSubscribe true →
     ∃ u, (rq_params m ≫= p_uri) = Some u ∧ u ∈ f_resource_subscriptions facts).
Proof.
  intros b key Hb (_ & Hd & _ & Hp)%request_passes_inv. cbv zeta in *.
  fold b in Hp.
  destruct (rule_atom _ _ _ _ _) as [res|] eqn:Ha; [|by destruct b].
  destruct (allowed_atom _ _ _ _ _ _ Ha Hd) as (Hc & Hn & Hu). fold key in Hc, Hn, Hu.
  split_and!; [done..| |].
  - intros cap [E|E]; rewrite E in Hp; cbn in Hp; split_match_in Hp;
      eexists; (split; [done|]); by apply Hu; case_bool_decide.
  - intros E; rewrite E in Hp; cbn in Hp; split_match_in Hp.
    eexists; split; [done|]. by case_bool_decide.
Qed.

(** ** Subscriptions *)

Lemma decide_listen_passes rules atom params :
  passes (decide_listen rules atom params) = true →
  ∃ l, (params ≫= p_notifications) = Some l ∧ unknown l = [] ∧
    (∀ f, f ∈ enabled l → f ∈ (allowed_listen_filters rules).1) ∧
    (∀ us, resource_subscriptions l = Some us →
       ∀ u, u ∈ us → u ∈ (allowed_listen_filters rules).2).
Proof.
  unfold decide_listen. destruct (params ≫= p_notifications) as [l|]; [|done].
  case_bool_decide as Hun; [done|]. destruct (allowed_listen_filters rules) as [F U]; simpl.
  destruct (existsb _ (enabled l)) eqn:Ef; [done|]. intros Hp. exists l.
  rewrite <-not_true_iff_false, existsb_exists in Ef.
  assert (∀ f, f ∈ enabled l → f ≠ ResourceSubscriptions → f ∈ F) as Hen.
  { intros f Hf Hne. destruct (decide (f ∈ F)); [done|]. destruct Ef. exists f.
    rewrite andb_true_iff, bool_decide_eq_true, bool_decide_eq_false_2 by done.
    by rewrite <-list_elem_of_In. }
  destruct (resource_subscriptions l) as [us|] eqn:Er.
  - case_bool_decide as HR; [|done]. simpl in Hp. destruct (existsb _ us) eqn:Eu; [done|].
    rewrite <-not_true_iff_false, existsb_exists in Eu. split_and!; [done..| |].
    + intros f Hf. destruct (decide (f = ResourceSubscriptions)) as [->|]; auto.
    + intros ? [= <-] u Hu. destruct (decide (u ∈ U)); [done|]. destruct Eu. exists u.
      rewrite bool_decide_eq_false_2 by done. by rewrite <-list_elem_of_In.
  - split_and!; [done..| |done]. intros f Hf. apply Hen; [done|]. intros ->.
    apply elem_of_enabled in Hf. rewrite Er in Hf. by destruct Hf.
Qed.

Lemma ack_loop_passes {A} (rq g : A → bool) ng xs :
  ack_loop rq g ng xs = None → ∀ x, x ∈ xs → rq x = true ∧ g x = true.
Proof.
  induction xs as [|y xs IH]; simpl; [set_solver|].
  destruct (rq y) eqn:Er, (g y) eqn:Eg; simpl; try done. set_solver.
Qed.

Lemma decide_ack_passes rules sub ack :
  passes (decide_ack rules sub ack) = true →
  (∀ f, f ∈ enabled ack →
     f ∈ enabled (sub_requested sub) ∧ f ∈ (allowed_listen_filters rules).1) ∧
  (∀ us u, resource_subscriptions ack = Some us → u ∈ us →
     u ∈ default [] (resource_subscriptions (sub_requested sub)) ∧
     u ∈ (allowed_listen_filters rules).2).
Proof.
  unfold decide_ack. destruct (allowed_listen_filters rules) as [F U]; simpl.
  destruct (ack_loop _ _ _ (enabled ack)) eqn:Ef; [done|].
  pose proof (ack_loop_passes _ _ _ _ Ef) as Hf.
  setoid_rewrite bool_decide_eq_true in Hf.
  destruct (resource_subscriptions ack) as [us|]; [|done].
  destruct (ack_loop _ _ _ us) eqn:Eu; [done|].
  pose proof (ack_loop_passes _ _ _ _ Eu) as Hu.
  setoid_rewrite bool_decide_eq_true in Hu. intros _. split; [done|].
  by intros ? u [= <-] ?; apply Hu.
Qed.

(** A filter or URI of a subscription is either free or granted by the policy. *)
Definition subscription_granted (rules : list McpRule) (l : ListenFilters) : Prop :=
  (∀ f, f ∈ enabled l → f = ToolsListChanged ∨ granted_filter rules listen_key f) ∧
  (∀ us u, resource_subscriptions l = Some us → u ∈ us → granted_uri rules listen_key u).

(** Subscriptions stay inside the policy, at both ends of the exchange: a
    [subscriptions/listen] request that passes names only known filters, each
    free or granted, and only granted URIs; an acknowledgement that passes
    belongs to a subscription waiting for one, grants no more than was
    requested and no more than the policy grants. *)
Lemma subscriptions_within_policy rules facts :
  (∀ m, rq_version m = V26 → rq_direction m = C2S → rq_method m = "subscriptions/listen" →
     passes (decide_message (resolve_atoms rules) (TRequest m) facts) = true →
     ∃ l, (rq_params m ≫= p_notifications) = Some l ∧ unknown l = [] ∧
          subscription_granted rules l) ∧
  (∀ n, nt_version n = V26 → nt_direction n = S2C →
     nt_method n = "notifications/subscriptions/acknowledged" →
     passes (decide_message (resolve_atoms rules) (TNotification n) facts) = true →
     ∃ sub ack, nt_subscription n = Some sub ∧ nt_ack_filters n = Some ack ∧
       sub_state sub = PendingAck ∧ unknown ack = [] ∧
       subscription_granted rules ack ∧
       (∀ f, f ∈ enabled ack → f ∈ enabled (sub_requested sub)) ∧
       (∀ us u, resource_subscriptions ack = Some us → u ∈ us →
          u ∈ default [] (resource_subscriptions (sub_requested sub)))).
Proof.
  destruct (listen_granted rules) as [HF HU]. split.
  - intros m Hv Hd Hm (_ & _ & _ & Hp)%request_passes_inv. rewrite Hv, Hd, Hm in Hp.
    change (request_behavior V26 C2S "subscriptions/listen") with RbSubscriptionListen in Hp.
    apply decide_listen_passes in Hp as (l & Hl & Hun & Hf & Hu). exists l.
    split_and!; [done..|]. split; eauto.
  - intros n Hv Hd Hm. simpl. unfold decide_notification, judge_notification.
    rewrite Hv, Hd, Hm.
    change (notification_behavior V26 S2C _) with NbSubscriptionAck. cbn zeta iota.
    destruct (is_some_and _ denies); [done|]. simpl.
    destruct (nt_subscription n) as [sub|]; [|done]. case_bool_decide as Hs; [done|].
    destruct (nt_ack_filters n) as [ack|]; [|done]. case_bool_decide as Hu; [done|].
    intros [Hf Hus]%decide_ack_passes. exists sub, ack.
    split_and!; try done; [..|naive_solver|naive_solver].
    split; [intros f ?; apply HF; by apply Hf|].
    intros us u ??. apply HU. by eapply Hus.
Qed.

(** ** The life cycle of a 2025-11-25 session *)

(** Life-cycle order under every policy: a 2025-11-25 [initialize] passes
    only as the first request; before it nothing but [ping] passes; a server
    asks the client for anything but [ping] only once the session is
    operational; and [notifications/initialized] passes only when awaited. *)
Lemma lifecycle_2025 rules facts :
  (∀ m, rq_version m = V25 →
     passes (decide_message rules (TRequest m) facts) = true →
     (rq_method m = "initialize" → f_init facts = PendingInitialize) ∧
     (f_init facts = PendingInitialize →
        rq_method m = "initialize" ∨ rq_method m = "ping") ∧
     (rq_direction m = S2C → rq_method m = "ping" ∨ f_init facts = Operational)) ∧
  (∀ n, nt_version n = V25 → nt_method n = "notifications/initialized" →
     passes (decide_message rules (TNotification n) facts) = true →
     nt_direction n = C2S ∧ f_init facts = AwaitingInitialized).
Proof.
  split.
  - intros m Hv (Hl & _ & Hg & _)%request_passes_inv. unfold request_gate in Hg.
    rewrite Hv in Hg. cbn in Hg.
    destruct (bool_decide (rq_method m = "initialize")) eqn:Ei;
      [apply bool_decide_eq_true in Ei | apply bool_decide_eq_false in Ei].
    + case_bool_decide as Hi; [done|]. split_and!; [done|by left|].
      intros Hd. rewrite Hv, Hd, Ei in Hl. done.
    + destruct (bool_decide (rq_method m = "ping")) eqn:Ep;
        [apply bool_decide_eq_true in Ep; by split_and!; auto|apply bool_decide_eq_false in Ep].
      case_bool_decide; [done|]. split_and!; [done..|]. intros Hd. rewrite Hd in Hg. simpl in Hg.
      case_bool_decide; [done|]. by right.
  - intros n Hv Hm. simpl. unfold decide_notification, judge_notification. rewrite Hv, Hm.
    destruct (nt_direction n); [|done].
    change (notification_behavior V25 C2S _) with NbInitialized. cbn zeta iota.
    destruct (is_some_and _ denies); [done|]. simpl. by case_bool_decide.
Qed.

(** ** Responses *)

(** Correlation of responses: a response that passes answers a tracked
    request of the opposite direction that was itself let through, carries
    exactly one of result and error, and is never sent by a 2026-07-28 client.
    Of a 2026-07-28 result it moreover holds that it is either complete, asks
    for no input, and is well formed for the cache when its method is
    cacheable, or is left undecided as an [input_required] result of one of
    the three methods that may ask for input. *)
Lemma passing_response_is_correlated rules facts m :
  passes (decide_message rules (TResponse m) facts) = true →
  ∃ a, rs_answered m = Some a ∧ an_request_direction a ≠ rs_direction m ∧
    an_allowed a = true ∧ rs_is_error m = negb (rs_has_result m) ∧
    (rs_version m = V26 → rs_direction m = S2C) ∧
    (rs_version m = V26 → rs_has_result m = true →
       (rs_result_type m = Some RESULT_TYPE_COMPLETE ∧ rs_input_requests m = false ∧
        (an_method a ∈ CACHEABLE_METHODS → rs_ttl_ms m = Valid ∧ rs_cache_scope m = Valid)) ∨
       (decide_message rules (TResponse m) facts = Undecided UInputRequired ∧
        rs_result_type m = Some RESULT_TYPE_INPUT_REQUIRED ∧
        an_method a ∈ INPUT_REQUIRED_METHODS)).
Proof.
  simpl. unfold decide_response. destruct m as [v d err res ty ttl cs inp [a|]]; simpl; cycle 1.
  { by destruct (bool_decide _ && bool_decide _). }
  intros Hp. exists a. revert Hp.
  destruct (bool_decide (v = Mcp2026July28) && bool_decide (d = ClientToServer)) eqn:Evd; [done|].
  assert (v = V26 → d = S2C) as Hvd by (intros ->; by destruct d). clear Evd.
  case_bool_decide as Hdir; [done|]. destruct (an_allowed a); [|done]. simpl.
  destruct err, res; try done; simpl; intros Hp; (split_and!; [done..|]); try done.
  intros ->. simpl in *. case_bool_decide as Hty.
  - destruct inp; [done|]. left. split_and!; [done..|]. intros Hc.
    rewrite (bool_decide_eq_true_2 _ Hc) in Hp. by repeat case_bool_decide.
  - case_bool_decide as Hin; [|done]. case_bool_decide; [|done]. right. done.
Qed.

(** ** Verdicts *)

(** The shape of a verdict is fixed by the kind of message: requests and
    additional requests are allowed or answered with an error, never silently
    dropped; notifications are allowed or dropped, never answered; only a
    response can be left undecided. *)
Lemma verdict_shape rules msg facts :
  match msg, decide_message rules msg facts with
  | TRequest _, (Allow _ | Deny _) => True
  | TNotification _, (Allow _ | Drop _) => True
  | TAdditionalRequest _, (Allow _ | Deny _) => True
  | TResponse _, (Allow _ | Deny _ | Undecided _) => True
  | _, _ => False
  end.
Proof.
  destruct msg; simpl.
  - unfold decide_request, judge_request, decide_behavior, decide_listen. by split_match.
  - unfold decide_notification, judge_notification, notify_behavior, decide_ack, log_level_gate.
    by split_match.
  - unfold decide_additional. by split_match.
  - unfold decide_response. by split_match.
Qed.

(** ** A policy *)

Definition read_rule : McpRule := mkRule EAllow "resources/read" [V26] None ["file:///a"] [].
Definition listen_rule : McpRule :=
  mkRule EAllow "subscriptions/listen" [] None ["file:///a"]
    [PromptsListChanged; ResourceSubscriptions].
Definition ping_deny : McpRule := mkRule EDeny "ping" [] None [] [].

Definition policy : list McpRule := [read_rule; listen_rule].

(** ** A session and its messages *)

Definition session (stage : InitStage) : SessionFacts := mkFacts stage [] [] [] [] None.

Definition meta26 : RequestMeta :=
  mkRequestMeta false (Some MCP_VERSION_2026_07_28) Valid [] None None.

Definition filters : ListenFilters :=
  mkListenFilters (Some true) (Some true) None (Some ["file:///a"]) [].

Definition params : RequestParams :=
  mkParams (mkInitializeShape true true true) (Some "file:///a") None (Some filters).

Definition request26 (m : string) : RequestMessage :=
  mkRequest V26 C2S m (Some meta26) (Some params).
Definition request25 (d : MessageDirection) (m : string) : RequestMessage :=
  mkRequest V25 d m None (Some params).

Definition ack26 : NotificationMessage :=
  mkNotification V26 S2C "notifications/subscriptions/acknowledged" None None (Some filters) None
    Unrelated Unmatched None (Some (mkSub PendingAck filters [] [])).
Definition notification25 (m : string) : NotificationMessage :=
  mkNotification V25 C2S m None None None None Unrelated Unmatched None None.

Definition answer26 : ResponseMessage :=
  mkResponse V26 S2C false true (Some "complete") Valid Valid false
    (Some (mkAnswered C2S "tools/list" true)).

Lemma deny_rule_always_wins_witness :
  decide_message (resolve_atoms [ping_deny]) (TRequest (request25 C2S "ping"))
    (session Operational) = Deny DnRuleDeny.
Proof.
  apply (proj1 (deny_rule_always_wins [ping_deny] (session Operational))).
  exists ping_deny. split; [left|]. split; [reflexivity|].
  apply (bool_decide_unpack _); vm_compute; exact I.
Defined.

Lemma rule_bound_requests_are_granted_witness :
  covered_by EAllow policy (mkKey V26 C2S KRequest "resources/read").
Proof.
  refine (proj1 (rule_bound_requests_are_granted policy (request26 "resources/read")
                   (session Operational) _ _)); vm_compute; reflexivity.
Defined.

Lemma subscriptions_example :
  (∃ l, (rq_params (request26 "subscriptions/listen") ≫= p_notifications) = Some l ∧
        unknown l = [] ∧ subscription_granted policy l) ∧
  (∃ sub ack, nt_subscription ack26 = Some sub ∧ nt_ack_filters ack26 = Some ack ∧
       sub_state sub = PendingAck ∧ unknown ack = [] ∧ subscription_granted policy ack ∧
       (∀ f, f ∈ enabled ack → f ∈ enabled (sub_requested sub)) ∧
       (∀ us u, resource_subscriptions ack = Some us → u ∈ us →
          u ∈ default [] (resource_subscriptions (sub_requested sub)))).
Proof.
  destruct (subscriptions_within_policy policy (session Operational)) as [H1 H2]. split.
  - apply (H1 (request26 "subscriptions/listen")); vm_compute; reflexivity.
  - apply (H2 ack26); vm_compute; reflexivity.
Qed.

Lemma correlated_response_example :
  ∃ a, rs_answered answer26 = Some a ∧ an_request_direction a ≠ rs_direction answer26.
Proof.
  destruct (passing_response_is_correlated ∅ (session Operational) answer26) as (a & Ha & Hd & _);
    [vm_compute; reflexivity|]. exists a. split; [exact Ha|exact Hd].
Qed.
