(* ===== verification/Text.v ===== *)
(** * Text: the string operations of the Rust standard library

    A Rust [str] is its sequence of bytes, here a [string].  Each operation is
    a structural recursion, so that every parser built from them evaluates.
    Characters outside ASCII are sequences of bytes with the top bit set; the
    operations below that speak about characters only ever name ASCII ones,
    apart from [trim], whose white space is the Unicode set. *)

From S2P Require Import Prelude.
From Stdlib Require Export Ascii.

Open Scope Z_scope.

(** ** Characters *)

Definition code (c : ascii) : Z := Z.of_nat (nat_of_ascii c).

Definition is_ascii_char (c : ascii) : bool := code c <? 128.
Definition is_ascii_digit (c : ascii) : bool := (48 <=? code c) && (code c <=? 57).
Definition is_ascii_upper (c : ascii) : bool := (65 <=? code c) && (code c <=? 90).
Definition is_ascii_control (c : ascii) : bool := (code c <? 32) || (code c =? 127).
(** White space among the ASCII characters: tab, LF, VT, FF, CR and space. *)
Definition is_ascii_space (c : ascii) : bool :=
  ((9 <=? code c) && (code c <=? 13)) || (code c =? 32).

(** [char::to_digit]. *)
Definition digit_value (c : ascii) : option Z :=
  if is_ascii_digit c then Some (code c - 48)
  else if (97 <=? code c) && (code c <=? 122) then Some (code c - 87)
  else if is_ascii_upper c then Some (code c - 55)
  else None.

Definition to_digit (radix : Z) (c : ascii) : option Z :=
  match digit_value c with
  | Some d => if d <? radix then Some d else None
  | None => None
  end.

Definition is_ascii_hexdigit (c : ascii) : bool := bool_decide (is_Some (to_digit 16 c)).

Definition lower (c : ascii) : ascii :=
  if is_ascii_upper c then ascii_of_nat (nat_of_ascii c + 32) else c.

(** ** Whole strings *)

Fixpoint str_all (p : ascii → bool) (s : string) : bool :=
  match s with
  | EmptyString => true
  | String c s' => p c && str_all p s'
  end.

Definition str_any (p : ascii → bool) (s : string) : bool := negb (str_all (λ c, negb (p c)) s).
Definition contains (c : ascii) (s : string) : bool := str_any (Ascii.eqb c) s.
Definition is_ascii (s : string) : bool := str_all is_ascii_char s.

Fixpoint str_map (f : ascii → ascii) (s : string) : string :=
  match s with
  | EmptyString => EmptyString
  | String c s' => String (f c) (str_map f s')
  end.

Fixpoint str_filter (p : ascii → bool) (s : string) : string :=
  match s with
  | EmptyString => EmptyString
  | String c s' => if p c then String c (str_filter p s') else str_filter p s'
  end.

Definition to_ascii_lowercase (s : string) : string := str_map lower s.

Definition is_empty (s : string) : bool :=
  match s with EmptyString => true | _ => false end.

(** ** Prefixes and suffixes *)

Fixpoint strip_prefix (p s : string) : option string :=
  match p, s with
  | EmptyString, _ => Some s
  | String a p', String b s' => if Ascii.eqb a b then strip_prefix p' s' else None
  | String _ _, EmptyString => None
  end.

Definition starts_with (p s : string) : bool := bool_decide (is_Some (strip_prefix p s)).

Fixpoint strip_suffix (p s : string) : option string :=
  if bool_decide (s = p) then Some EmptyString
  else match s with
       | EmptyString => None
       | String c s' => String c <$> strip_suffix p s'
       end.

Definition ends_with (p s : string) : bool := bool_decide (is_Some (strip_suffix p s)).

Fixpoint trim_end_matches (c : ascii) (s : string) : string :=
  match s with
  | EmptyString => EmptyString
  | String a s' =>
      let t := trim_end_matches c s' in
      if is_empty t && Ascii.eqb a c then EmptyString else String a t
  end.

(** ** Splitting *)

(** [split_once] at the first occurrence of a character, [rsplit_once] at the
    last. *)
Fixpoint split_once (c : ascii) (s : string) : option (string * string) :=
  match s with
  | EmptyString => None
  | String a s' =>
      if Ascii.eqb a c then Some (EmptyString, s')
      else prod_map (String a) id <$> split_once c s'
  end.

Fixpoint rsplit_once (c : ascii) (s : string) : option (string * string) :=
  match s with
  | EmptyString => None
  | String a s' =>
      match rsplit_once c s' with
      | Some (h, t) => Some (String a h, t)
      | None => if Ascii.eqb a c then Some (EmptyString, s') else None
      end
  end.

(** [split_once] at the first occurrence of a string. *)
Fixpoint split_once_str (p s : string) : option (string * string) :=
  match strip_prefix p s with
  | Some rest => Some (EmptyString, rest)
  | None =>
      match s with
      | EmptyString => None
      | String a s' => prod_map (String a) id <$> split_once_str p s'
      end
  end.

(** [split]: never empty; [n] separators give [n+1] parts. *)
Fixpoint split (c : ascii) (s : string) : list string :=
  match s with
  | EmptyString => [EmptyString]
  | String a s' =>
      if Ascii.eqb a c then EmptyString :: split c s'
      else match split c s' with
           | h :: t => String a h :: t
           | [] => [String a EmptyString]
           end
  end.

(** The part before the first character satisfying [p]: the first item of
    [split(p)]. *)
Fixpoint take_until (p : ascii → bool) (s : string) : string :=
  match s with
  | EmptyString => EmptyString
  | String a s' => if p a then EmptyString else String a (take_until p s')
  end.

(** [slice::join]. *)
Fixpoint join (sep : string) (xs : list string) : string :=
  match xs with
  | [] => ""
  | [x] => x
  | x :: xs' => x +:+ sep +:+ join sep xs'
  end.

(** ** [str::trim] *)

(** The UTF-8 encodings of Unicode [White_Space]. *)
Definition bytes (l : list nat) : string := String.string_of_list_ascii (ascii_of_nat <$> l).

Definition WHITE_SPACE : list string :=
  bytes <$> ([[9]; [10]; [11]; [12]; [13]; [32];
    [194; 133]; [194; 160]; [225; 154; 128];
    [226; 128; 128]; [226; 128; 129]; [226; 128; 130]; [226; 128; 131]; [226; 128; 132];
    [226; 128; 133]; [226; 128; 134]; [226; 128; 135]; [226; 128; 136]; [226; 128; 137];
    [226; 128; 138]; [226; 128; 168]; [226; 128; 169]; [226; 128; 175]; [226; 129; 159];
    [227; 128; 128]])%nat.

Definition strip_any (ws : list string) (s : string) : option string :=
  foldr (λ w acc, match strip_prefix w s with Some r => Some r | None => acc end) None ws.

(** A white-space character has at most three bytes: [trim_start] drops one
    character per step, the fuel being the length of the string. *)
Fixpoint trim_start_fuel (n : nat) (s : string) : string :=
  match n with
  | O => s
  | S n' => match strip_any WHITE_SPACE s with
            | Some s' => trim_start_fuel n' s'
            | None => s
            end
  end.
Definition trim_start (s : string) : string := trim_start_fuel (String.length s) s.

(** [trim_end] drops the suffix as soon as what is left is white space only. *)
Fixpoint trim_end (s : string) : string :=
  if is_empty (trim_start s) then EmptyString
  else match s with
       | EmptyString => EmptyString
       | String c s' => String c (trim_end s')
       end.

Definition trim (s : string) : string := trim_end (trim_start s).

(** ** Unsigned numbers: [from_str_radix] *)

(** Digits read with overflow against [max], most significant first. *)
Fixpoint digits_value (radix max acc : Z) (s : string) : option Z :=
  match s with
  | EmptyString => Some acc
  | String c s' =>
      match to_digit radix c with
      | None => None
      | Some d =>
          let acc' := acc * radix + d in
          if max <? acc' then None else digits_value radix max acc' s'
      end
  end.

(** One leading [+] is accepted; an empty digit sequence is not. *)
Definition from_str_radix (radix max : Z) (s : string) : option Z :=
  match s with
  | EmptyString => None
  | String c s' =>
      if Ascii.eqb c "+" then
        if is_empty s' then None else digits_value radix max 0 s'
      else digits_value radix max 0 s
  end.

Definition U8_MAX : Z := 255.
Definition U16_MAX : Z := 65535.
Definition U32_MAX : Z := 4294967295.
Definition U64_MAX : Z := 18446744073709551615.

Definition parse_u8 : string → option Z := from_str_radix 10 U8_MAX.
Definition parse_u16 : string → option Z := from_str_radix 10 U16_MAX.
Definition parse_u32 : string → option Z := from_str_radix 10 U32_MAX.
Definition parse_u64 : string → option Z := from_str_radix 10 U64_MAX.

(** ** UTF-8 *)

(** [String::from_utf8]: well-formed UTF-8 (Unicode table 3-7). *)
Definition in_range (lo hi : Z) (c : ascii) : bool := (lo <=? code c) && (code c <=? hi).
Definition cont (c : ascii) : bool := in_range 128 191 c.

Fixpoint utf8_valid (s : string) : bool :=
  match s with
  | EmptyString => true
  | String b s0 =>
      if is_ascii_char b then utf8_valid s0
      else if in_range 194 223 b then
        match s0 with
        | String b1 s1 => cont b1 && utf8_valid s1
        | _ => false
        end
      else if in_range 224 239 b then
        match s0 with
        | String b1 (String b2 s2) =>
            (if Ascii.eqb b (ascii_of_nat 224) then in_range 160 191 b1
             else if Ascii.eqb b (ascii_of_nat 237) then in_range 128 159 b1
             else cont b1)
            && cont b2 && utf8_valid s2
        | _ => false
        end
      else if in_range 240 244 b then
        match s0 with
        | String b1 (String b2 (String b3 s3)) =>
            (if Ascii.eqb b (ascii_of_nat 240) then in_range 144 191 b1
             else if Ascii.eqb b (ascii_of_nat 244) then in_range 128 143 b1
             else cont b1)
            && cont b2 && cont b3 && utf8_valid s3
        | _ => false
        end
      else false
  end.

(** ** Strings over a class of characters *)

(** Case analysis on all 256 characters. *)
Ltac each_char c := destruct c as [[] [] [] [] [] [] [] []]; vm_compute; try done.

Lemma str_all_impl (p q : ascii → bool) s :
  (∀ c, p c = true → q c = true) → str_all p s = true → str_all q s = true.
Proof.
  intros Hpq. induction s as [|c s IH]; [done|]. simpl. rewrite !andb_true_iff.
  intros []. auto.
Qed.

Lemma contains_outside (p : ascii → bool) c s :
  p c = false → str_all p s = true → contains c s = false.
Proof.
  intros Hc. unfold contains, str_any. rewrite negb_false_iff.
  induction s as [|a s IH]; [done|]. cbn -[Ascii.eqb].
  rewrite !andb_true_iff. intros [Ha Hs]. split; [|by apply IH].
  destruct (Ascii.eqb_spec c a) as [->|]; [congruence|done].
Qed.

(** ASCII graphic characters: no white space starts with one. *)
Definition graphic (c : ascii) : bool := (33 <=? code c) && (code c <=? 126).

Lemma graphic_not_space c s : graphic c = true → strip_any WHITE_SPACE (String c s) = None.
Proof.
  assert (∀ w, w ∈ WHITE_SPACE → strip_prefix w (String c s) = None ∨ graphic c = false) as Hw.
  { intros w Hw. vm_compute in Hw.
    elem_cases Hw; cbn [strip_prefix];
      match goal with |- context [Ascii.eqb ?a c] => destruct (Ascii.eqb_spec a c) as [<-|] end;
      auto. }
  intros Hc. unfold strip_any. induction WHITE_SPACE as [|w ws IH]; [done|]. cbn [foldr].
  rewrite IH by (intros; apply Hw; set_solver).
  destruct (Hw w) as [->|]; [set_solver|done|congruence].
Qed.

Lemma trim_start_graphic s : str_all graphic s = true → trim_start s = s.
Proof.
  unfold trim_start. destruct s as [|c s]; [done|]. cbn [str_all String.length trim_start_fuel].
  intros [Hc _]%andb_true_iff. by rewrite graphic_not_space.
Qed.

Lemma trim_graphic s : str_all graphic s = true → trim s = s.
Proof.
  intros Hs. unfold trim. rewrite trim_start_graphic by done.
  induction s as [|c s IH]; [done|]. cbn [trim_end]. rewrite trim_start_graphic by done.
  cbn [is_empty]. f_equal. apply IH. simpl in Hs. by apply andb_true_iff in Hs as [_ ?].
Qed.

(** ** Appending *)

Lemma app_cons_string c s t : String c s +:+ t = String c (s +:+ t).
Proof. done. Qed.

Lemma app_empty_string s : "" +:+ s = s.
Proof. done. Qed.

Lemma strip_prefix_app p : ∀ s r, strip_prefix p s = Some r ↔ s = p +:+ r.
Proof.
  induction p as [|a p IH]; intros s r; [simpl; naive_solver|].
  rewrite app_cons_string. destruct s as [|b s]; simpl; [done|].
  destruct (Ascii.eqb_spec a b) as [->|]; [rewrite IH; naive_solver|naive_solver].
Qed.

Lemma length_app_string s t : String.length (s +:+ t) = (String.length s + String.length t)%nat.
Proof. induction s as [|c s IH]; [done|]. rewrite app_cons_string. simpl. by rewrite IH. Qed.

Lemma strip_prefix_length p s r : strip_prefix p s = Some r →
  String.length s = (String.length p + String.length r)%nat.
Proof. intros ->%strip_prefix_app. apply length_app_string. Qed.

Lemma app_assoc_string s t u : (s +:+ t) +:+ u = s +:+ (t +:+ u).
Proof. induction s as [|c s IH]; [done|]. rewrite !app_cons_string. by rewrite IH. Qed.

Lemma app_nil_string s : s +:+ "" = s.
Proof. induction s as [|c s IH]; [done|]. rewrite app_cons_string. by rewrite IH. Qed.

Lemma str_all_app p s t : str_all p (s +:+ t) = str_all p s && str_all p t.
Proof.
  induction s as [|c s IH]; [done|]. rewrite app_cons_string. simpl. rewrite IH. apply andb_assoc.
Qed.

Lemma split_once_app c s t :
  contains c s = false → split_once c (s +:+ String c t) = Some (s, t).
Proof.
  unfold contains, str_any. rewrite negb_false_iff.
  induction s as [|a s IH]; intros Hs.
  - simpl. by rewrite Ascii.eqb_refl.
  - rewrite app_cons_string. cbn -[Ascii.eqb] in *. apply andb_true_iff in Hs as [Ha Hs].
    apply negb_true_iff in Ha. rewrite Ascii.eqb_sym in Ha. by rewrite Ha, IH.
Qed.

(** ** Bytes and occurrences *)

Lemma code_range c : 0 <= code c < 256.
Proof. unfold code. pose proof (nat_ascii_bounded c). lia. Qed.

Lemma code_inj c d : code c = code d → c = d.
Proof. unfold code. intros H. apply Nat2Z.inj in H. by apply (f_equal ascii_of_nat) in H; rewrite !ascii_nat_embedding in H. Qed.

Lemma contains_app_string c s t : contains c (s +:+ t) = contains c s || contains c t.
Proof. unfold contains, str_any. rewrite str_all_app, negb_andb. done. Qed.

Lemma contains_cons c a s : contains c (String a s) = Ascii.eqb c a || contains c s.
Proof. unfold contains, str_any. cbn -[Ascii.eqb]. by rewrite negb_andb, negb_involutive. Qed.
