(* ===== verification/IpAddr.v ===== *)
(** * IpAddr: addresses of the standard library

    What the source uses of [std::net]: IPv4 and IPv6 addresses as numbers,
    the parser and the printer of [IpAddr], and that parsing a printed address
    gives it back. *)

From S2P Require Import Prelude Text.

Inductive IpAddr := V4 (a : Z) | V6 (a : Z).

#[export] Instance IpAddr_eq_dec : EqDecision IpAddr.
Proof. solve_decision. Defined.
#[export] Instance IpAddr_countable : Countable IpAddr.
Proof.
  apply (inj_countable' (λ x, match x with V4 a => inl a | V6 a => inr a end)
           (λ y, match y with inl a => V4 a | inr a => V6 a end)).
  by intros [].
Defined.

(** Values fit the width of their family. *)
Definition wf_ip (ip : IpAddr) : Prop :=
  match ip with
  | V4 a => 0 <= a < 2 ^ 32
  | V6 a => 0 <= a < 2 ^ 128
  end.

Definition is_ipv4 (ip : IpAddr) : bool := match ip with V4 _ => true | V6 _ => false end.

(** ** Octets and segments *)

Definition v4_octet (a : Z) (i : Z) : Z := Z.land (Z.shiftr a (8 * (3 - i))) 255.
Definition v6_octet (a : Z) (i : Z) : Z := Z.land (Z.shiftr a (8 * (15 - i))) 255.
Definition v6_segment (a : Z) (i : Z) : Z := Z.land (Z.shiftr a (16 * (7 - i))) 65535.

Definition v4_new (o0 o1 o2 o3 : Z) : Z := ((o0 * 256 + o1) * 256 + o2) * 256 + o3.

Definition v4_octets (a : Z) : list Z := v4_octet a <$> [0; 1; 2; 3].
Definition v6_segments (a : Z) : list Z := v6_segment a <$> [0; 1; 2; 3; 4; 5; 6; 7].

Definition from_groups (width : Z) (gs : list Z) : Z := foldl (λ acc g, acc * width + g) 0 gs.
Definition v4_from_octets : list Z → Z := from_groups 256.
Definition v6_from_segments : list Z → Z := from_groups 65536.

(** ** Classification *)

Definition v4_is_private (a : Z) : bool :=
  (v4_octet a 0 =? 10)
  || ((v4_octet a 0 =? 172) && (16 <=? v4_octet a 1) && (v4_octet a 1 <=? 31))
  || ((v4_octet a 0 =? 192) && (v4_octet a 1 =? 168)).
Definition v4_is_loopback (a : Z) : bool := v4_octet a 0 =? 127.
Definition v4_is_link_local (a : Z) : bool := (v4_octet a 0 =? 169) && (v4_octet a 1 =? 254).
Definition v4_is_multicast (a : Z) : bool := (224 <=? v4_octet a 0) && (v4_octet a 0 <=? 239).
Definition v4_is_broadcast (a : Z) : bool := a =? 4294967295.

Definition v6_is_loopback (a : Z) : bool := a =? 1.
Definition v6_is_unspecified (a : Z) : bool := a =? 0.
Definition v6_is_multicast (a : Z) : bool := v6_octet a 0 =? 255.
Definition v6_is_unique_local (a : Z) : bool := Z.land (v6_segment a 0) 0xfe00 =? 0xfc00.
Definition v6_is_unicast_link_local (a : Z) : bool := Z.land (v6_segment a 0) 0xffc0 =? 0xfe80.

(** [::ffff:a.b.c.d] *)
Definition to_ipv4_mapped (a : Z) : option Z :=
  if Z.shiftr a 32 =? 0xffff then Some (Z.land a 0xffffffff) else None.

Definition to_canonical (ip : IpAddr) : IpAddr :=
  match ip with
  | V4 _ => ip
  | V6 a => match to_ipv4_mapped a with Some v4 => V4 v4 | None => ip end
  end.

(** ** Parsing

    A reader takes the rest of the input and returns a value with what is
    left, or nothing: the caller keeps its own position then, which is what
    [read_atomically] restores. *)
Definition reader (A : Type) := string → option (A * string).

Definition read_given_char (c : ascii) : reader unit := λ s,
  match s with
  | String a s' => if Ascii.eqb a c then Some (tt, s') else None
  | EmptyString => None
  end.

(** The digit loop of [read_number], counting digits against the limit. *)
Fixpoint read_digits (radix : Z) (limit count : nat) (acc : Z) (s : string)
    : option (Z * nat * string) :=
  match s with
  | String c s' =>
      match to_digit radix c with
      | Some d =>
          if Nat.ltb limit (S count) then None
          else read_digits radix limit (S count) (acc * radix + d) s'
      | None => Some (acc, count, s)
      end
  | EmptyString => Some (acc, count, s)
  end.

Definition read_number (radix : Z) (limit : nat) (allow_zero_prefix : bool) (max : Z) : reader Z :=
  λ s,
  match read_digits radix limit 0 0 s with
  | None => None
  | Some (v, count, rest) =>
      if Nat.eqb count 0 then None
      else if negb allow_zero_prefix && starts_with "0" s && Nat.ltb 1 count then None
      else if max <? v then None
      else Some (v, rest)
  end.

(** [read_separator]: the separator is read before every group but the first. *)
Definition read_separator {A} (sep : ascii) (first : bool) (inner : reader A) : reader A := λ s,
  if first then inner s
  else match read_given_char sep s with
       | Some (_, s') => inner s'
       | None => None
       end.

Definition read_octet : reader Z := read_number 10 3 false 255.

Fixpoint read_octets (n : nat) (first : bool) : reader (list Z) := λ s,
  match n with
  | O => Some ([], s)
  | S n' =>
      match read_separator "." first read_octet s with
      | None => None
      | Some (o, s') =>
          match read_octets n' false s' with
          | None => None
          | Some (os, rest) => Some (o :: os, rest)
          end
      end
  end.

Definition read_ipv4_addr : reader Z := λ s,
  match read_octets 4 true s with
  | Some (os, rest) => Some (v4_from_octets os, rest)
  | None => None
  end.

(** [read_groups]: up to [limit] groups; the last two may be written as an
    embedded IPv4 address, which ends the sequence.  Returns the groups read,
    whether an IPv4 address ended them, and the rest of the input. *)
Fixpoint read_groups (limit : nat) (first : bool) (s : string) : list Z * bool * string :=
  match limit with
  | O => ([], false, s)
  | S n =>
      let group :=
        match read_separator ":" first (read_number 16 4 true 65535) s with
        | Some (g, s') => let '(gs, v4, rest) := read_groups n false s' in (g :: gs, v4, rest)
        | None => ([], false, s)
        end in
      if Nat.ltb 0 n then
        match read_separator ":" first read_ipv4_addr s with
        | Some (v4, s') => ([Z.shiftr v4 16; Z.land v4 65535], true, s')
        | None => group
        end
      else group
  end.

Definition read_ipv6_addr : reader Z := λ s,
  let '(head, head_ipv4, s1) := read_groups 8 true s in
  if Nat.eqb (length head) 8 then Some (v6_from_segments head, s1)
  else if head_ipv4 then None
  else match read_given_char ":" s1 with
  | None => None
  | Some (_, s2) =>
      match read_given_char ":" s2 with
      | None => None
      | Some (_, s3) =>
          let '(tail, _, s4) := read_groups (8 - (length head + 1)) true s3 in
          Some (v6_from_segments
                  (head ++ replicate (8 - (length head + length tail)) 0 ++ tail), s4)
      end
  end.

(** [parse_with]: all of the input must be read. *)
Definition parse_with {A} (inner : reader A) (s : string) : option A :=
  match inner s with
  | Some (a, EmptyString) => Some a
  | _ => None
  end.

(** [str::parse::<Ipv6Addr>] and [str::parse::<IpAddr>]. *)
Definition parse_ipv6 : string → option Z := parse_with read_ipv6_addr.

Definition read_ip_addr : reader IpAddr := λ s,
  match read_ipv4_addr s with
  | Some (a, rest) => Some (V4 a, rest)
  | None => prod_map V6 id <$> read_ipv6_addr s
  end.

Definition parse_ip : string → option IpAddr := parse_with read_ip_addr.

(** ** Printing *)

Definition digit_char (d : Z) : ascii :=
  ascii_of_nat (Z.to_nat (if d <? 10 then 48 + d else 87 + d)).

(** Digits of a non-negative number, most significant first; [fuel] bounds
    their count. *)
Fixpoint digits (fuel : nat) (radix n : Z) (acc : string) : string :=
  match fuel with
  | O => acc
  | S f =>
      let acc' := String (digit_char (n mod radix)) acc in
      if n / radix =? 0 then acc' else digits f radix (n / radix) acc'
  end.

(** [{}] of an unsigned integer (up to 64 bits), [{:x}] of a 16-bit one. *)
Definition show_dec (n : Z) : string := digits 20 10 n "".
Definition show_hex (n : Z) : string := digits 4 16 n "".

Definition show_v4 (a : Z) : string :=
  show_dec (v4_octet a 0) +:+ "." +:+ show_dec (v4_octet a 1) +:+ "." +:+
  show_dec (v4_octet a 2) +:+ "." +:+ show_dec (v4_octet a 3).

(** Start and length of the longest run of zero segments, the first one when
    several have the same length. *)
Fixpoint longest_zeroes (segs : list Z) (i : nat) (cur best : nat * nat) : nat * nat :=
  match segs with
  | [] => best
  | g :: segs' =>
      if g =? 0 then
        let cur := ((if Nat.eqb cur.2 0 then i else cur.1), S cur.2) in
        longest_zeroes segs' (S i) cur (if Nat.ltb best.2 cur.2 then cur else best)
      else longest_zeroes segs' (S i) (0%nat, 0%nat) best
  end.

Fixpoint show_segments (segs : list Z) : string :=
  match segs with
  | [] => ""
  | [g] => show_hex g
  | g :: segs' => show_hex g +:+ ":" +:+ show_segments segs'
  end.

Definition show_v6 (a : Z) : string :=
  match to_ipv4_mapped a with
  | Some v4 => "::ffff:" +:+ show_v4 v4
  | None =>
      let segs := v6_segments a in
      let '(start, len) := longest_zeroes segs 0 (0%nat, 0%nat) (0%nat, 0%nat) in
      if Nat.ltb 1 len
      then show_segments (take start segs) +:+ "::" +:+ show_segments (drop (start + len) segs)
      else show_segments segs
  end.

Definition show_ip (ip : IpAddr) : string :=
  match ip with
  | V4 a => show_v4 a
  | V6 a => show_v6 a
  end.

(** ** Strings *)

(** ** Digits *)

(** The rest of the input does not continue a number. *)
Definition stops (radix : Z) (s : string) : Prop :=
  match s with
  | EmptyString => True
  | String c _ => to_digit radix c = None
  end.

Lemma below_16 (P : Z → Prop) d :
  P 0 → P 1 → P 2 → P 3 → P 4 → P 5 → P 6 → P 7 → P 8 → P 9 → P 10 → P 11 → P 12 → P 13 →
  P 14 → P 15 → 0 <= d < 16 → P d.
Proof.
  intros ???????????????? Hd.
  assert (d = 0 ∨ d = 1 ∨ d = 2 ∨ d = 3 ∨ d = 4 ∨ d = 5 ∨ d = 6 ∨ d = 7 ∨ d = 8 ∨ d = 9 ∨
    d = 10 ∨ d = 11 ∨ d = 12 ∨ d = 13 ∨ d = 14 ∨ d = 15) as Hc by lia.
  repeat (destruct Hc as [->|Hc]; [done|]). by subst.
Qed.

Lemma to_digit_hex d : 0 <= d < 16 → to_digit 16 (digit_char d) = Some d.
Proof. apply (below_16 (λ d, to_digit 16 (digit_char d) = Some d)); reflexivity. Qed.

Lemma to_digit_char radix d :
  radix = 10 ∨ radix = 16 → 0 <= d < radix → to_digit radix (digit_char d) = Some d.
Proof.
  intros [-> | ->] Hd; [|by apply to_digit_hex].
  pose proof (to_digit_hex d ltac:(lia)) as H. unfold to_digit in *.
  destruct (digit_value _) as [d'|]; [|done]. destruct (d' <? 16); simplify_eq.
  by replace (d <? 10) with true by (symmetry; apply Z.ltb_lt; lia).
Qed.

Lemma digits_app f radix : ∀ n acc t, digits f radix n acc +:+ t = digits f radix n (acc +:+ t).
Proof. induction f as [|f IH]; intros n acc t; simpl; [done|]. case_match; [done|]. apply IH. Qed.

(** How many digits [digits] prints. *)
Fixpoint ndigits (f : nat) (radix n : Z) : nat :=
  match f with
  | O => 0
  | S f => if n / radix =? 0 then 1 else S (ndigits f radix (n / radix))
  end.

Lemma ndigits_bound f radix : 2 <= radix → ∀ m n, 0 <= n < radix ^ Z.of_nat m → m ≠ 0%nat →
  (ndigits f radix n ≤ m)%nat.
Proof.
  intros Hr. induction f as [|f IH]; intros m n Hn Hm; simpl; [lia|].
  destruct (n / radix =? 0) eqn:E; [lia|]. apply Z.eqb_neq in E.
  destruct m as [|m]; [done|]. rewrite Nat2Z.inj_succ, Z.pow_succ_r in Hn by lia.
  assert (0 <= n / radix < radix ^ Z.of_nat m) as Hq.
  { split; [apply Z.div_pos; lia|]. apply Z.div_lt_upper_bound; lia. }
  apply le_n_S, IH; [done|]. intros ->. simpl in Hq. lia.
Qed.

Lemma ndigits_pos f radix n : f ≠ 0%nat → (0 < ndigits f radix n)%nat.
Proof. destruct f; [done|]. simpl. case_match; lia. Qed.

Lemma read_digits_show radix limit : radix = 10 ∨ radix = 16 → ∀ f n count a acc,
  0 <= n < radix ^ Z.of_nat f → (count + ndigits f radix n ≤ limit)%nat →
  read_digits radix limit count a (digits f radix n acc) =
  read_digits radix limit (count + ndigits f radix n)
    (a * radix ^ Z.of_nat (ndigits f radix n) + n) acc.
Proof.
  intros Hr. assert (2 <= radix) as Hr2 by lia.
  induction f as [|f IH]; intros n count a acc Hn Hl.
  { simpl in *. rewrite Nat.add_0_r. f_equal. lia. }
  rewrite Nat2Z.inj_succ, Z.pow_succ_r in Hn by lia.
  assert (0 <= n mod radix < radix) as Hm by (apply Z.mod_pos_bound; lia).
  simpl in *. destruct (n / radix =? 0) eqn:E.
  - apply Z.eqb_eq in E. simpl. rewrite to_digit_char by done.
    replace (limit <? S count)%nat with false by (symmetry; apply Nat.ltb_ge; lia).
    f_equal; [lia|]. rewrite (Z.div_mod n radix) at 2 by lia. rewrite E. simpl. lia.
  - rewrite IH; [|split; [apply Z.div_pos; lia|apply Z.div_lt_upper_bound; lia]|lia].
    simpl. rewrite to_digit_char by done.
    replace (limit <? _)%nat with false by (symmetry; apply Nat.ltb_ge; lia).
    f_equal; [lia|]. rewrite Nat2Z.inj_succ, Z.pow_succ_r by lia.
    pose proof (Z.div_mod n radix ltac:(lia)) as Hd.
    remember (n / radix) as q. remember (n mod radix) as m. rewrite Hd. ring.
Qed.

Lemma read_digits_stops radix limit count a s :
  stops radix s → read_digits radix limit count a s = Some (a, count, s).
Proof. destruct s as [|c s]; simpl; [done|]. by intros ->. Qed.

(** Only zero is printed with a leading zero. *)
Lemma digits_head f : ∀ n acc, 0 < n < 10 ^ Z.of_nat f →
  starts_with "0" (digits f 10 n acc) = false.
Proof.
  induction f as [|f IH]; intros n acc Hn; [simpl in Hn; lia|].
  rewrite Nat2Z.inj_succ, Z.pow_succ_r in Hn by lia. simpl. destruct (n / 10 =? 0) eqn:E.
  - apply Z.eqb_eq in E. assert (n < 10) by (apply Z.div_small_iff in E; lia).
    rewrite Z.mod_small by lia. assert (0 < n < 10) as H' by lia. clear -H'.
    assert (∀ d, 0 <= d < 16 → 0 < d → starts_with "0" (String (digit_char d) acc) = false) as H.
    { intros d Hd. apply (below_16 (λ d, 0 < d → starts_with "0" (String (digit_char d) acc) = false));
        done || lia. }
    apply H; lia.
  - apply Z.eqb_neq in E. apply IH. split.
    + assert (0 <= n / 10) by (apply Z.div_pos; lia). lia.
    + apply Z.div_lt_upper_bound; lia.
Qed.

Lemma read_number_show radix limit az max f n rest :
  radix = 10 ∨ (radix = 16 ∧ az = true) → f ≠ 0%nat → limit ≠ 0%nat →
  0 <= n < radix ^ Z.of_nat f → n < radix ^ Z.of_nat limit → n <= max → stops radix rest →
  read_number radix limit az max (digits f radix n "" +:+ rest) = Some (n, rest).
Proof.
  intros Hr Hf Hlim Hn Hl Hm Hs. unfold read_number. rewrite digits_app. change ("" +:+ rest) with rest.
  assert (ndigits f radix n ≤ limit)%nat as Hnd by (apply ndigits_bound; lia).
  rewrite read_digits_show, read_digits_stops by (done || lia).
  pose proof (ndigits_pos f radix n Hf). rewrite Z.mul_0_l, Z.add_0_l. simpl.
  replace (Nat.eqb _ 0) with false by (symmetry; apply Nat.eqb_neq; lia).
  replace (max <? n) with false by (symmetry; apply Z.ltb_ge; lia).
  destruct az; simpl; [done|]. destruct Hr as [->|[_ ?]]; [|done].
  destruct (decide (n = 0)) as [->|]; [by destruct f as [|[]]; simpl; rewrite ?andb_false_r|].
  by rewrite digits_head by lia.
Qed.

(** ** IPv4 *)

Lemma land_low a k : 0 <= k → Z.land a (2 ^ k - 1) = a mod 2 ^ k.
Proof. intros Hk. rewrite <-Z.land_ones by done. f_equal. by rewrite Z.ones_equiv, Z.sub_1_r. Qed.

Lemma v4_octet_div a i : 0 <= i <= 3 → v4_octet a i = (a / 2 ^ (8 * (3 - i))) mod 256.
Proof.
  intros Hi. unfold v4_octet. rewrite Z.shiftr_div_pow2 by lia. apply (land_low _ 8). lia.
Qed.

Lemma v4_octet_bound a i : 0 <= i <= 3 → 0 <= v4_octet a i < 256.
Proof. intros Hi. rewrite v4_octet_div by done. by apply Z.mod_pos_bound. Qed.

Lemma v4_octets_value a : 0 <= a < 2 ^ 32 → v4_from_octets (v4_octets a) = a.
Proof.
  intros Ha. unfold v4_octets, v4_from_octets, from_groups. cbn [fmap list_fmap foldl].
  rewrite !v4_octet_div by lia. simpl (8 * _). 
  change (2 ^ (8 * (3 - 0))) with 16777216. change (2 ^ (8 * (3 - 1))) with 65536.
  change (2 ^ (8 * (3 - 2))) with 256. change (2 ^ (8 * (3 - 3))) with 1.
  change (2 ^ 32) with 4294967296 in Ha. Z.to_euclidean_division_equations. lia.
Qed.

Lemma read_octet_show o rest :
  0 <= o < 256 → stops 10 rest → read_octet (show_dec o +:+ rest) = Some (o, rest).
Proof. intros Ho Hs. apply read_number_show; (done || lia || auto). Qed.

Lemma read_separator_cons {A} c (inner : reader A) s :
  read_separator c false inner (String c "" +:+ s) = inner s.
Proof. simpl. unfold read_separator, read_given_char. by rewrite Ascii.eqb_refl. Qed.

Lemma read_ipv4_show a rest :
  0 <= a < 2 ^ 32 → stops 10 rest → read_ipv4_addr (show_v4 a +:+ rest) = Some (a, rest).
Proof.
  intros Ha Hs. unfold read_ipv4_addr, show_v4. rewrite !app_assoc_string.
  cbn [read_octets]. unfold read_separator at 1.
  rewrite read_octet_show by (done || apply v4_octet_bound; lia).
  do 3 (rewrite read_separator_cons, read_octet_show by (done || apply v4_octet_bound; lia)).
  do 2 f_equal. by apply v4_octets_value.
Qed.

(** ** No IPv4 address starts here *)

Definition head_is (c : ascii) (s : string) : bool :=
  match s with
  | String a _ => Ascii.eqb a c
  | EmptyString => false
  end.

(** What is left after the decimal digits. *)
Fixpoint skip_digits (s : string) : string :=
  match s with
  | String c s' => match to_digit 10 c with Some _ => skip_digits s' | None => s end
  | EmptyString => s
  end.

Lemma read_digits_skip limit s : ∀ count a v k rest,
  read_digits 10 limit count a s = Some (v, k, rest) → rest = skip_digits s.
Proof.
  induction s as [|c s IH]; intros count a v k rest; simpl; [by intros [= <- <- <-]|].
  destruct (to_digit 10 c); [|by intros [= <- <- <-]]. case_match; [done|]. apply IH.
Qed.

Lemma read_octet_skip s o rest : read_octet s = Some (o, rest) → rest = skip_digits s.
Proof.
  unfold read_octet, read_number. destruct (read_digits _ _ _ _ s) as [[[v k] r]|] eqn:E; [|done].
  repeat case_match; try done. intros [= <- <-]. by eapply read_digits_skip.
Qed.

Lemma no_ipv4 s : head_is "." (skip_digits s) = false → read_ipv4_addr s = None.
Proof.
  intros Hh. unfold read_ipv4_addr. cbn [read_octets]. unfold read_separator at 1.
  destruct (read_octet s) as [[o rest]|] eqn:E; [|done]. apply read_octet_skip in E as ->.
  unfold read_separator, read_given_char. destruct (skip_digits s); [done|].
  simpl in Hh. by rewrite Hh.
Qed.

Lemma skip_digits_app u t :
  contains "." u = false → head_is "." (skip_digits t) = false →
  head_is "." (skip_digits (u +:+ t)) = false.
Proof.
  unfold contains, str_any. rewrite negb_false_iff.
  induction u as [|c u IH]; intros Hu Ht; [done|].
  rewrite app_cons_string. cbn -[Ascii.eqb] in Hu |- *.
  apply andb_true_iff in Hu as [Hc Hu]. destruct (to_digit 10 c); [by apply IH|].
  simpl. rewrite Ascii.eqb_sym. by apply negb_true_iff.
Qed.

(** ** Groups of hexadecimal digits *)

Definition group (g : Z) : Prop := 0 <= g < 65536.

Lemma digit_char_no_dot d : 0 <= d < 16 → Ascii.eqb "." (digit_char d) = false.
Proof. apply (below_16 (λ d, Ascii.eqb "." (digit_char d) = false)); reflexivity. Qed.

Lemma digits_no_dot f : ∀ n acc, 0 <= n → contains "." acc = false →
  contains "." (digits f 16 n acc) = false.
Proof.
  unfold contains, str_any. induction f as [|f IH]; intros n acc Hn Ha; simpl; [done|].
  assert (0 <= n mod 16 < 16) as Hm by (by apply Z.mod_pos_bound).
  assert (negb (str_all (λ c, negb (Ascii.eqb "." c)) (String (digit_char (n mod 16)) acc)) = false)
    as Hacc.
  { cbn -[Ascii.eqb]. by rewrite digit_char_no_dot. }
  case_match; [done|]. apply IH; [|done]. by apply Z.div_pos.
Qed.

Lemma no_ipv4_group g t :
  group g → head_is "." (skip_digits t) = false → read_ipv4_addr (show_hex g +:+ t) = None.
Proof.
  intros Hg Ht. apply no_ipv4, skip_digits_app; [|done]. apply digits_no_dot; [apply Hg|done].
Qed.

Lemma read_group_show g rest : group g → stops 16 rest →
  read_number 16 4 true 65535 (show_hex g +:+ rest) = Some (g, rest).
Proof. intros Hg Hs. apply read_number_show; (done || unfold group in Hg; simpl; lia || auto). Qed.

(** [:g1:g2...] *)
Fixpoint show_tail (gs : list Z) : string :=
  match gs with
  | [] => ""
  | g :: gs' => ":" +:+ (show_hex g +:+ show_tail gs')
  end.

Lemma show_segments_cons g gs : show_segments (g :: gs) = show_hex g +:+ show_tail gs.
Proof.
  revert g. induction gs as [|g' gs IH]; intros g; [symmetry; apply app_nil_string|].
  cbn [show_segments show_tail]. f_equal. f_equal. apply IH.
Qed.

(** What can follow a sequence of groups that is not full: nothing, or [::]. *)
Definition ends (s : string) : Prop := s = "" ∨ ∃ t, s = "::" +:+ t.

Lemma ends_stop s : ends s → stops 16 s ∧ head_is "." (skip_digits s) = false.
Proof. intros [->|[t ->]]; done. Qed.

Lemma tail_stops gs rest : ends rest →
  stops 16 (show_tail gs +:+ rest) ∧ head_is "." (skip_digits (show_tail gs +:+ rest)) = false.
Proof. destruct gs; [apply ends_stop|done]. Qed.

Lemma read_groups_ends limit rest : ends rest → read_groups limit false rest = ([], false, rest).
Proof. intros [->|[t ->]]; destruct limit as [|[|]]; done. Qed.

Lemma read_groups_ends_first limit rest : ends rest → read_groups limit true rest = ([], false, rest).
Proof. intros [->|[t ->]]; destruct limit as [|[|]]; done. Qed.

(** One step of [read_groups] on a hexadecimal group. *)
Lemma read_groups_step limit first g t :
  group g → stops 16 t → head_is "." (skip_digits t) = false →
  read_groups (S limit) first ((if first then "" else ":") +:+ (show_hex g +:+ t)) =
  let '(gs, v4, rest) := read_groups limit false t in (g :: gs, v4, rest).
Proof.
  intros Hg Hs Hh. cbn [read_groups].
  assert (∀ A (inner : reader A), read_separator ":" first inner
            ((if first then "" else ":") +:+ (show_hex g +:+ t)) = inner (show_hex g +:+ t)) as Hsep.
  { intros A inner. destruct first; [done|]. apply read_separator_cons. }
  rewrite !Hsep, no_ipv4_group, read_group_show by done. by destruct (0 <? limit)%nat.
Qed.

Lemma read_groups_first limit g t :
  group g → stops 16 t → head_is "." (skip_digits t) = false →
  read_groups (S limit) true (show_hex g +:+ t) =
  let '(gs, v4, rest) := read_groups limit false t in (g :: gs, v4, rest).
Proof. exact (read_groups_step limit true g t). Qed.

Lemma read_groups_tail gs : ∀ limit rest,
  Forall group gs → (length gs ≤ limit)%nat → ends rest →
  read_groups limit false (show_tail gs +:+ rest) = (gs, false, rest).
Proof.
  induction gs as [|g gs IH]; intros limit rest Hgs Hl He.
  { by apply read_groups_ends. }
  apply Forall_cons in Hgs as [Hg Hgs]. simpl in Hl. destruct limit as [|limit]; [lia|].
  destruct (tail_stops gs rest He) as [Hs Hh].
  cbn [show_tail]. rewrite !app_assoc_string.
  rewrite (read_groups_step limit false g _ Hg Hs Hh). by rewrite IH by (done || lia).
Qed.

Lemma read_groups_show gs limit rest :
  Forall group gs → (length gs ≤ limit)%nat → ends rest →
  read_groups limit true (show_segments gs +:+ rest) = (gs, false, rest).
Proof.
  intros Hgs Hl He. destruct gs as [|g gs]; [by apply read_groups_ends_first|].
  apply Forall_cons in Hgs as [Hg Hgs]. simpl in Hl. destruct limit as [|limit]; [lia|].
  destruct (tail_stops gs rest He) as [Hs Hh].
  rewrite show_segments_cons, app_assoc_string.
  rewrite (read_groups_first limit g _ Hg Hs Hh). by rewrite read_groups_tail by (done || lia).
Qed.

(** ** The longest run of zeroes *)

Definition zeroes (gs : list Z) (start len : nat) : Prop :=
  (start + len ≤ length gs)%nat ∧ ∀ j, (start ≤ j < start + len)%nat → gs !! j = Some 0.

Lemma longest_zeroes_run pre suf cs cl best :
  (cl ≠ 0%nat → zeroes (pre ++ suf) cs cl ∧ (cs + cl = length pre)%nat) →
  zeroes (pre ++ suf) best.1 best.2 →
  let r := longest_zeroes suf (length pre) (cs, cl) best in zeroes (pre ++ suf) r.1 r.2.
Proof.
  revert pre cs cl best. induction suf as [|g suf IH]; intros pre cs cl best Hc Hb; [done|].
  cbn [longest_zeroes fst snd]. cbv zeta.
  assert (pre ++ g :: suf = (pre ++ [g]) ++ suf) as Happ by (by rewrite <-app_assoc).
  assert (length (pre ++ [g]) = S (length pre)) as Hlen by (rewrite length_app; simpl; lia).
  rewrite Happ in *. rewrite <-Hlen. destruct (g =? 0) eqn:Eg; [|by apply IH].
  apply Z.eqb_eq in Eg as ->.
  set (cs' := if Nat.eqb cl 0 then length pre else cs).
  assert (zeroes ((pre ++ [0]) ++ suf) cs' (S cl) ∧ (cs' + S cl = length (pre ++ [0%Z]))%nat)
    as [Hz He].
  { subst cs'. destruct (Nat.eqb_spec cl 0) as [->|Hne].
    - split; [|lia]. split; [rewrite length_app; lia|]. intros j Hj. replace j with (length pre) by lia.
      rewrite <-Happ. by rewrite list_lookup_middle.
    - destruct (Hc Hne) as [[Hz1 Hz2] He]. split; [|lia]. split; [rewrite length_app; lia|].
      intros j Hj. destruct (decide (j = length pre)) as [->|]; [|apply Hz2; lia].
      rewrite <-Happ. by rewrite list_lookup_middle. }
  apply IH; [done|]. by destruct (best.2 <? S cl)%nat.
Qed.

Lemma longest_zeroes_zeroes gs :
  let r := longest_zeroes gs 0 (0%nat, 0%nat) (0%nat, 0%nat) in zeroes gs r.1 r.2.
Proof. apply (longest_zeroes_run [] gs); [done|]. split; simpl; lia. Qed.

Lemma zeroes_split gs start len : zeroes gs start len →
  gs = take start gs ++ replicate len 0 ++ drop (start + len) gs.
Proof.
  intros [Hl Hz]. rewrite <-(take_drop start gs) at 1. f_equal.
  rewrite <-(take_drop len (drop start gs)) at 1. rewrite drop_drop. f_equal.
  apply list_eq. intros j. destruct (decide (j < len)%nat) as [Hj|Hj].
  - rewrite lookup_take_lt, lookup_drop, lookup_replicate_2 by done. apply Hz. lia.
  - rewrite lookup_take_ge by lia. symmetry. apply lookup_ge_None. rewrite length_replicate. lia.
Qed.

(** ** IPv6 *)

Lemma v6_segment_div a i : 0 <= i <= 7 → v6_segment a i = (a / 2 ^ (16 * (7 - i))) mod 65536.
Proof.
  intros Hi. unfold v6_segment. rewrite Z.shiftr_div_pow2 by lia. apply (land_low _ 16). lia.
Qed.

Lemma v6_segments_group a : Forall group (v6_segments a).
Proof.
  repeat constructor; unfold group; rewrite v6_segment_div by lia; by apply Z.mod_pos_bound.
Qed.

(** Appending the next 16 bits to the bits above them. *)
Lemma shift_in a k n : 0 <= k → n = k + 16 → a / 2 ^ n * 65536 + (a / 2 ^ k) mod 65536 = a / 2 ^ k.
Proof.
  intros Hk ->. rewrite Z.pow_add_r, <-Z.div_div by lia.
  rewrite Z.mul_comm. symmetry. by apply Z.div_mod.
Qed.

Lemma v6_segments_value a : 0 <= a < 2 ^ 128 → v6_from_segments (v6_segments a) = a.
Proof.
  intros Ha. unfold v6_segments, v6_from_segments, from_groups. cbn [fmap list_fmap foldl].
  rewrite !v6_segment_div by lia. rewrite <-(Z.div_small a (2 ^ 128)) at 1 by done.
  do 8 rewrite shift_in by lia. by rewrite Z.div_1_r.
Qed.

Lemma mapped_value a v4 : 0 <= a < 2 ^ 128 → to_ipv4_mapped a = Some v4 →
  0 <= v4 < 2 ^ 32 ∧ a = 65535 * 2 ^ 32 + v4.
Proof.
  intros Ha. unfold to_ipv4_mapped. destruct (Z.shiftr a 32 =? 65535) eqn:E; [|done].
  apply Z.eqb_eq in E. rewrite Z.shiftr_div_pow2 in E by lia. intros [= <-].
  change 4294967295 with (2 ^ 32 - 1). rewrite (land_low a 32) by lia. split; [by apply Z.mod_pos_bound|].
  rewrite <-E, Z.mul_comm. by apply Z.div_mod.
Qed.

Lemma read_ipv6_mapped v4 : 0 <= v4 < 2 ^ 32 →
  read_ipv6_addr ("::ffff:" +:+ show_v4 v4) = Some (65535 * 2 ^ 32 + v4, "").
Proof.
  intros Hv. unfold read_ipv6_addr.
  rewrite read_groups_ends_first by (right; exists ("ffff:" +:+ show_v4 v4); done).
  cbn [length Nat.eqb]. change ("::ffff:" +:+ show_v4 v4) with
    (String ":" (String ":" (show_hex 65535 +:+ (":" +:+ show_v4 v4)))).
  cbn [read_given_char Ascii.eqb Bool.eqb Nat.sub Nat.add].
  rewrite (read_groups_first 6 65535 (":" +:+ show_v4 v4)) by (done || unfold group; lia).
  cbn [read_groups Nat.ltb Nat.leb]. rewrite !read_separator_cons.
  rewrite <-(app_nil_string (show_v4 v4)) at 1. rewrite (read_ipv4_show v4 "") by done.
  cbn [length Nat.sub Nat.add replicate app]. unfold v6_from_segments, from_groups. simpl foldl.
  change (Z.land v4 65535) with (Z.land v4 (2 ^ 16 - 1)).
  rewrite Z.shiftr_div_pow2, (land_low v4 16) by lia. do 2 f_equal.
  pose proof (Z.div_mod v4 (2 ^ 16)). lia.
Qed.

Lemma read_ipv6_segments gs :
  length gs = 8%nat → Forall group gs → read_ipv6_addr (show_segments gs) = Some (v6_from_segments gs, "").
Proof.
  intros Hl Hg. unfold read_ipv6_addr. rewrite <-(app_nil_string (show_segments gs)).
  rewrite read_groups_show by (done || lia || by left). by rewrite Hl.
Qed.

Lemma read_ipv6_compressed gs start len :
  length gs = 8%nat → Forall group gs → zeroes gs start len → (1 < len)%nat →
  read_ipv6_addr (show_segments (take start gs) +:+ "::" +:+ show_segments (drop (start + len) gs))
  = Some (v6_from_segments gs, "").
Proof.
  intros Hl Hg Hz Hlen. pose proof Hz as [Hb _].
  assert (length (take start gs) = start) as Ht by (rewrite length_take; lia).
  assert (length (drop (start + len) gs) = 8 - (start + len))%nat as Hd
    by (rewrite length_drop; lia).
  unfold read_ipv6_addr.
  rewrite read_groups_show; [|by apply Forall_take|lia|right; eauto].
  rewrite Ht. replace (Nat.eqb start 8) with false by (symmetry; apply Nat.eqb_neq; lia).
  set (t := show_segments (drop (start + len) gs)).
  change (read_given_char ":" ("::" +:+ t)) with (Some (tt, String ":" t)). cbv iota beta.
  change (read_given_char ":" (String ":" t)) with (Some (tt, t)). cbv iota beta. subst t.
  rewrite <-(app_nil_string (show_segments (drop _ gs))) at 1.
  rewrite read_groups_show; [|by apply Forall_drop|lia|by left].
  rewrite Hd. replace (8 - (start + (8 - (start + len))))%nat with len by lia.
  by rewrite <-zeroes_split.
Qed.

Lemma read_ipv6_show a : 0 <= a < 2 ^ 128 → read_ipv6_addr (show_v6 a) = Some (a, "").
Proof.
  intros Ha. unfold show_v6. destruct (to_ipv4_mapped a) as [v4|] eqn:Em.
  { destruct (mapped_value a v4 Ha Em) as [Hv ->]. by apply read_ipv6_mapped. }
  pose proof (longest_zeroes_zeroes (v6_segments a)) as Hz.
  destruct (longest_zeroes (v6_segments a) 0 _ _) as [start len]. simpl in Hz.
  rewrite <-(v6_segments_value a Ha) at 4. destruct (1 <? len)%nat eqn:El.
  - apply read_ipv6_compressed; [done|apply v6_segments_group|done|by apply Nat.ltb_lt].
  - apply read_ipv6_segments; [done|apply v6_segments_group].
Qed.

Lemma no_ipv4_segments gs rest : Forall group gs → ends rest →
  head_is "." (skip_digits (show_segments gs +:+ rest)) = false.
Proof.
  intros Hg He. destruct gs as [|g gs]; [by apply ends_stop|].
  apply Forall_cons in Hg as [Hg _]. rewrite show_segments_cons, app_assoc_string.
  apply skip_digits_app; [apply digits_no_dot; [apply Hg|done]|]. by apply tail_stops.
Qed.

Lemma no_ipv4_v6 a : read_ipv4_addr (show_v6 a) = None.
Proof.
  apply no_ipv4. unfold show_v6. destruct (to_ipv4_mapped a); [done|].
  destruct (longest_zeroes _ _ _ _) as [start len].
  destruct (1 <? len)%nat.
  - apply no_ipv4_segments; [apply Forall_take, v6_segments_group|]. right. by eexists.
  - rewrite <-(app_nil_string (show_segments _)).
    apply no_ipv4_segments; [apply v6_segments_group|by left].
Qed.

(** The [Display] spelling of an address parses back to it. *)
Lemma parse_show_ip ip : wf_ip ip → parse_ip (show_ip ip) = Some ip.
Proof.
  unfold parse_ip, parse_with, read_ip_addr. destruct ip as [a|a]; intros Ha; cbn [show_ip].
  - pose proof (read_ipv4_show a "" Ha I) as H. rewrite app_nil_string in H. by rewrite H.
  - rewrite no_ipv4_v6, (read_ipv6_show a Ha). reflexivity.
Qed.

Lemma parse_show_v6 a : 0 <= a < 2 ^ 128 → parse_ipv6 (show_v6 a) = Some a.
Proof. intros Ha. unfold parse_ipv6, parse_with. rewrite (read_ipv6_show a Ha). reflexivity. Qed.

(** ** The characters of a printed address *)

Definition addr_char (c : ascii) : bool :=
  bool_decide (is_Some (to_digit 16 c)) || Ascii.eqb c "." || Ascii.eqb c ":".

Lemma digits_chars f radix : radix = 10 ∨ radix = 16 → ∀ n acc, 0 <= n →
  str_all addr_char acc = true → str_all addr_char (digits f radix n acc) = true.
Proof.
  intros Hr. induction f as [|f IH]; intros n acc Hn Ha; simpl; [done|].
  assert (str_all addr_char (String (digit_char (n mod radix)) acc) = true) as Hacc.
  { simpl. unfold addr_char at 1. rewrite (to_digit_hex (n mod radix)), Ha; [done|].
    pose proof (Z.mod_pos_bound n radix). lia. }
  case_match; [done|]. apply IH; [|done]. apply Z.div_pos; lia.
Qed.

Lemma show_v4_chars a : str_all addr_char (show_v4 a) = true.
Proof.
  unfold show_v4, show_dec. rewrite !str_all_app.
  rewrite !digits_chars; auto; apply v4_octet_bound; lia.
Qed.

Lemma show_segments_chars gs : Forall group gs → str_all addr_char (show_segments gs) = true.
Proof.
  destruct gs as [|g gs]; [done|]. rewrite show_segments_cons. revert g.
  induction gs as [|g' gs IH]; intros g [Hg Hgs]%Forall_cons.
  - rewrite app_nil_string. apply digits_chars; auto. apply Hg.
  - cbn [show_tail]. rewrite !str_all_app. specialize (IH g' Hgs). rewrite str_all_app in IH.
    rewrite IH. unfold show_hex. rewrite digits_chars; auto. apply Hg.
Qed.

Lemma show_ip_chars ip : str_all addr_char (show_ip ip) = true.
Proof.
  destruct ip as [a|a]; cbn [show_ip]; [apply show_v4_chars|]. unfold show_v6.
  destruct (to_ipv4_mapped a); [rewrite str_all_app, show_v4_chars; done|].
  destruct (longest_zeroes _ _ _ _) as [start len]. pose proof (v6_segments_group a) as Hg.
  destruct (1 <? len)%nat; rewrite ?str_all_app, ?show_segments_chars; auto using Forall_take, Forall_drop.
Qed.
