(* ===== verification/PolicyHost.v ===== *)
(** * PolicyHost: host and CIDR spellings of a policy

    [src/src/policy/host.rs], the WHATWG IPv4 grammar of [src/src/pathutil.rs]
    and [canonicalize_policy_host] of [src/src/policy/outbound.rs].  UTS-46
    ([idna::domain_to_ascii]) is a third-party function and a parameter. *)

From S2P Require Import Prelude Text IpAddr.

(** ** Ports *)

Definition valid_port (port : string) : bool :=
  is_empty port
  || (str_all is_ascii_digit port && is_some_and (parse_u32 port) (λ p, p <=? 65535)).

Definition valid_port_suffix (rest : string) : bool :=
  is_some_and (strip_prefix ":" rest) valid_port.

Definition port_suffix_port (rest : string) : option Z := strip_prefix ":" rest ≫= parse_u16.

Definition bare_port_spelling (value : string) : option Z :=
  if is_empty value || negb (str_all is_ascii_digit value) || starts_with "0" value then None
  else parse_u16 value.

Definition all_digits_host (value : string) : bool :=
  negb (is_empty value) && str_all is_ascii_digit value.

(** ** WHATWG IPv4 numbers *)

Definition strip_0x (s : string) : option string :=
  match strip_prefix "0x" s with
  | Some h => Some h
  | None => strip_prefix "0X" s
  end.

Definition parse_ipv4_number (part : string) : option Z :=
  if is_empty part then None
  else match strip_0x part with
  | Some hex =>
      if is_empty hex then Some 0
      else if str_all is_ascii_hexdigit hex then from_str_radix 16 U64_MAX hex
      else None
  | None =>
      if negb (str_all is_ascii_digit part) then None
      else if (Nat.ltb 1 (String.length part)) && starts_with "0" part
      then from_str_radix 8 U64_MAX part
      else parse_u64 part
  end.

(** The accumulation [addr += v * 256^(3-i)] over the non-final parts. *)
Fixpoint fold_parts (i : Z) (nums : list Z) (addr : Z) : Z :=
  match nums with
  | [] => addr
  | v :: nums' => fold_parts (i + 1) nums' (addr + v * 256 ^ (3 - i))
  end.

Definition parse_ipv4_whatwg (host : string) : option Z :=
  let parts := split "." host in
  let parts := if Nat.ltb 1 (length parts) && is_some_and (last parts) is_empty
               then removelast parts else parts in
  if Nat.eqb (length parts) 0 || Nat.ltb 4 (length parts) || existsb is_empty parts then None
  else match mapM parse_ipv4_number parts with
  | None => None
  | Some nums =>
      let n := Z.of_nat (length nums) in
      let lead := removelast nums in
      if existsb (λ v, 255 <? v) lead then None
      else match last nums with
      | None => None
      | Some lst =>
          if 256 ^ (5 - n) <=? lst then None
          else Some ((fold_parts 0 lead lst) mod 2 ^ 32)
      end
  end.

(** ** Canonical hosts *)

(** [host.rsplit('.').find(|p| !p.is_empty())]. *)
Definition last_label (host : string) : string :=
  default "" (List.find (λ p, negb (is_empty p)) (reverse (split "." host))).

Definition host_ends_in_number (host : string) : bool :=
  let lst := last_label host in
  if is_empty lst then false
  else str_all is_ascii_digit lst || is_some_and (strip_0x lst) (str_all is_ascii_hexdigit).

(** A host without its surrounding brackets, when it has both. *)
Definition unbracket (s : string) : string := default s (strip_prefix "[" s ≫= strip_suffix "]").

Definition canonicalize_url_host (host : string) : option string :=
  let trimmed := trim_end_matches "." host in
  if is_empty trimmed || negb (is_ascii trimmed) then None
  else
    let inner := unbracket trimmed in
    if contains ":" inner then
      match parse_ipv6 inner with
      | None => None
      | Some v6 => Some (match to_ipv4_mapped v6 with
                         | Some v4 => show_v4 v4
                         | None => show_v6 v6
                         end)
      end
    else if host_ends_in_number inner then show_v4 <$> parse_ipv4_whatwg inner
    else Some (to_ascii_lowercase inner).

(** ** URLs *)

(** The byte loop of [percent_decode_host]. *)
Fixpoint percent_bytes (s : string) : option string :=
  match s with
  | EmptyString => Some EmptyString
  | String c s0 =>
      if Ascii.eqb c "%" then
        match s0 with
        | String c1 (String c2 s2) =>
            match to_digit 16 c1, to_digit 16 c2 with
            | Some h1, Some h2 =>
                String (ascii_of_nat (Z.to_nat (Z.lor (Z.shiftl h1 4) h2))) <$> percent_bytes s2
            | _, _ => None
            end
        | _ => None
        end
      else String c <$> percent_bytes s0
  end.

Definition percent_decode_host (s : string) : option string :=
  match percent_bytes s with
  | Some decoded => if utf8_valid decoded then Some decoded else None
  | None => None
  end.

Definition has_white_space (s : string) : bool :=
  existsb (λ w, bool_decide (is_Some (split_once_str w s))) WHITE_SPACE.

Definition one_of (cs : list ascii) (c : ascii) : bool := existsb (Ascii.eqb c) cs.

(** Host, port and whether a port qualifier was spelled, of an authority. *)
Definition split_authority (host_port : string) : option (string * option Z * bool) :=
  match strip_prefix "[" host_port with
  | Some after =>
      match split_once "]" after with
      | None => None
      | Some (inner, rest) =>
          if negb (is_empty rest) && negb (valid_port_suffix rest) then None
          else Some (inner, port_suffix_port rest, negb (is_empty rest))
      end
  | None =>
      match split_once ":" host_port with
      | Some (host, port) =>
          if contains ":" port || negb (valid_port port) then None
          else Some (host, parse_u16 port, true)
      | None => Some (host_port, None, false)
      end
  end.

Definition forbidden_host (bracketed : bool) (decoded : string) : bool :=
  str_any (λ c, is_ascii_control c
                || one_of ["/"; "\"; "?"; "#"; "@"; "["; "]"]%char c
                || (Ascii.eqb c ":" && negb bracketed)) decoded
  || has_white_space decoded.

Definition extract_host_and_port_from_url (url : string) : option (string * option Z * bool) :=
  let stripped := str_filter (λ c, negb (one_of (ascii_of_nat <$> [9; 13; 10]%nat) c)) url in
  let after_scheme := match split_once_str "://" stripped with
                      | Some (_, rest) => Some rest
                      | None => strip_prefix "//" stripped
                      end in
  match after_scheme with
  | None => None
  | Some after_scheme =>
      let authority := take_until (one_of ["/"; "?"; "#"]%char) after_scheme in
      if contains "\" authority || is_empty authority then None
      else
        let host_port := match rsplit_once "@" authority with
                         | Some (_, hp) => hp
                         | None => authority
                         end in
        if is_empty host_port || contains "\" host_port then None
        else match split_authority host_port with
        | None => None
        | Some (host_str, port, port_qualified) =>
            if is_empty host_str then None
            else match percent_decode_host host_str with
            | None => None
            | Some decoded =>
                if forbidden_host (starts_with "[" host_port) decoded then None
                else match canonicalize_url_host decoded with
                | None => None
                | Some host => Some (host, port, port_qualified)
                end
            end
        end
  end.

Definition extract_host_from_url (url : string) : option string :=
  (λ x, x.1.1) <$> extract_host_and_port_from_url url.

(** [canonicalize_url_host(h).unwrap_or_else(|| h.to_ascii_lowercase())]. *)
Definition canonical_or_lower (h : string) : string :=
  default (to_ascii_lowercase h) (canonicalize_url_host h).

(** The two fall-back shapes of [analyze_policy_host], after the wildcard and
    URL shapes. *)
Definition bracketed_host (pattern : string) : option (string * option Z * bool) :=
  match strip_prefix "[" pattern with
  | None => None
  | Some after =>
      match split_once "]" after with
      | None => None
      | Some (inner, suffix) =>
          if is_empty inner then None
          else Some (canonical_or_lower inner, port_suffix_port suffix, valid_port_suffix suffix)
      end
  end.

Definition host_with_port (pattern : string) : option (string * option Z * bool) :=
  match rsplit_once ":" pattern with
  | Some (host, port) =>
      if negb (is_empty host) && negb (contains ":" host) && negb (is_empty port)
         && str_all is_ascii_digit port
      then Some (canonical_or_lower host, parse_u16 port, true)
      else None
  | None => None
  end.

Definition analyze_policy_host (pattern : string) : string * option Z * bool :=
  if bool_decide (pattern = "*") || starts_with "*." pattern then (pattern, None, false)
  else match extract_host_and_port_from_url pattern with
  | Some r => r
  | None =>
      match bracketed_host pattern with
      | Some r => r
      | None =>
          match host_with_port pattern with
          | Some r => r
          | None => (canonical_or_lower pattern, None, false)
          end
      end
  end.

Definition normalize_policy_host (pattern : string) : string := (analyze_policy_host pattern).1.1.

(** ** UTS-46 canonical names *)

Section idna.
(** [idna::domain_to_ascii]: the ASCII form of a domain name, or nothing
    when UTS-46 rejects it. *)
Context (domain_to_ascii : string → option string).

(** Each wildcard marker removed shortens the host, so its length is enough
    fuel; the last resort is never reached ([canonicalize_policy_host_eq]). *)
Fixpoint canonicalize_fuel (fuel : nat) (host : string) : string :=
  let trimmed := trim_end_matches "." (trim host) in
  match strip_prefix "*." trimmed with
  | Some suffix =>
      match fuel with
      | S n => "*." +:+ canonicalize_fuel n suffix
      | O => trimmed
      end
  | None =>
      if negb (is_ascii trimmed) then
        match domain_to_ascii trimmed with
        | Some ascii_name =>
            default (to_ascii_lowercase ascii_name)
              (canonicalize_url_host (trim_end_matches "." ascii_name))
        | None => to_ascii_lowercase trimmed
        end
      else canonical_or_lower trimmed
  end.

Definition canonicalize_policy_host (host : string) : string :=
  canonicalize_fuel (String.length host) host.

Definition host_covered_by_deny (allowed denied : string) : bool :=
  let a := canonicalize_policy_host allowed in
  let d := canonicalize_policy_host denied in
  if bool_decide (d = "*") || bool_decide (a = d) then true
  else match strip_prefix "*." d with
  | Some suffix => bool_decide (a = suffix) || ends_with ("." +:+ suffix) a
  | None => false
  end.

Definition host_matches (host pattern : string) : bool :=
  let host_lower := canonicalize_policy_host (normalize_policy_host host) in
  let pat_lower := canonicalize_policy_host pattern in
  if bool_decide (pat_lower = "*") then true
  else
    let pat_host := canonicalize_policy_host (normalize_policy_host pat_lower) in
    if bool_decide (host_lower = pat_host) then true
    else match strip_prefix "*." pat_host with
    | Some suffix => ends_with ("." +:+ suffix) host_lower
    | None => false
    end.

(** [dnsgate::canonical_name]. *)
Definition canonical_name (name : string) : string :=
  canonicalize_policy_host (normalize_policy_host name).
End idna.
