(* ===== verification/PolicyCidr.v ===== *)
(** * PolicyCidr: ranges

    The range half of [src/src/policy/host.rs]: canonicalization, containment,
    coverage and overlap of CIDR ranges; and that they are membership,
    inclusion and overlap of the address sets the ranges spell. *)

From S2P Require Import Prelude Text IpAddr PolicyHost.

(** ** Rules as text *)

Definition max_prefix (ip : IpAddr) : Z := if is_ipv4 ip then 32 else 128.

(** [u32::MAX.checked_shl(32 - prefix).unwrap_or(0)] and its 128-bit twin. *)
Definition checked_shl_ones (width n : Z) : Z :=
  if n <? width then (Z.shiftl (2 ^ width - 1) n) mod 2 ^ width else 0.

Definition mask_cidr_addr (addr : IpAddr) (prefix : Z) : IpAddr :=
  match addr with
  | V4 a => V4 (Z.land a (checked_shl_ones 32 (32 - prefix)))
  | V6 a => V6 (Z.land a (checked_shl_ones 128 (128 - prefix)))
  end.

Definition show_cidr (addr : IpAddr) (prefix : Z) : string :=
  show_ip addr +:+ "/" +:+ show_dec prefix.

(** A message with the offending value appended. *)
Definition in_value (what v : string) : string := what +:+ " in '" +:+ v +:+ "'".

(** The bracketed shape: the inner rule text and the port qualifier. *)
Definition cidr_brackets (v : string) : result (string * option Z * bool) string :=
  match strip_prefix "[" v with
  | None => Ok (v, None, false)
  | Some rest =>
      match split_once "]" rest with
      | None => Err "unterminated '['"
      | Some (inner, suffix) =>
          if negb (is_empty suffix) && negb (valid_port_suffix suffix)
          then Err (in_value "invalid suffix after ']'" v)
          else Ok (inner, port_suffix_port suffix, negb (is_empty suffix))
      end
  end.

(** The prefix text and the port qualifier after the slash. *)
Definition cidr_tail (v addr_str tail : string) (port : option Z) (port_qualified : bool)
    : result (string * option Z * bool) string :=
  match split_once ":" tail with
  | Some (prefix, port_str) =>
      if contains ":" addr_str
      then Err "an IPv6 port qualifier must be bracketed: '[addr/prefix]:port'"
      else if negb (valid_port port_str) then Err (in_value "invalid port qualifier" v)
      else Ok (prefix, parse_u16 port_str, true)
  | None => Ok (tail, port, port_qualified)
  end.

(** An IPv4-mapped rule folds into the IPv4 rule it names. *)
Definition fold_mapped (v : string) (addr : IpAddr) (prefix : Z) : result (IpAddr * Z) string :=
  match addr with
  | V6 a =>
      match to_ipv4_mapped a with
      | Some v4 =>
          if 96 <=? prefix then Ok (V4 v4, prefix - 96)
          else Err ("IPv4-mapped prefix length " +:+ show_dec prefix +:+ " below 96 in '" +:+ v +:+
                    "' also covers non-mapped space — write the IPv4 CIDR directly")
      | None => Ok (addr, prefix)
      end
  | V4 _ => Ok (addr, prefix)
  end.

Local Open Scope result_scope.

Definition analyze_policy_cidr (value : string) : result (string * option Z * bool) string :=
  let v := trim value in
  brackets ←? cidr_brackets v ;
  let '(inner, port, port_qualified) := brackets in
  match split_once "/" inner with
  | None => Err "expected '<addr>/<prefix>' (a single address belongs in 'host=')"
  | Some (addr_str, tail) =>
      qualified ←? cidr_tail v addr_str tail port port_qualified ;
      let '(prefix_str, port, port_qualified) := qualified in
      if is_empty prefix_str || negb (str_all is_ascii_digit prefix_str)
      then Err (in_value "invalid prefix length" v)
      else match parse_u32 prefix_str with
      | None => Err (in_value "invalid prefix length" v)
      | Some prefix =>
          match parse_ip addr_str with
          | None => Err (in_value "invalid IP address" v)
          | Some addr =>
              if max_prefix addr <? prefix
              then Err (in_value ("prefix length " +:+ show_dec prefix +:+ " exceeds "
                                  +:+ show_dec (max_prefix addr)) v)
              else
                folded ←? fold_mapped v addr prefix ;
                let '(addr, prefix) := folded in
                Ok (show_cidr (mask_cidr_addr addr prefix) prefix, port, port_qualified)
          end
      end
  end.

Definition parse_policy_cidr (cidr : string) : option (IpAddr * Z) :=
  match split_once "/" cidr with
  | None => None
  | Some (addr, prefix) =>
      match parse_ip addr with
      | None => None
      | Some addr =>
          match parse_u8 prefix with
          | None => None
          | Some prefix => if prefix <=? max_prefix addr then Some (addr, prefix) else None
          end
      end
  end.

(** ** Ranges *)

Definition v4_masked_eq (a b prefix : Z) : bool :=
  let keep := checked_shl_ones 32 (32 - prefix) in Z.land a keep =? Z.land b keep.
Definition v6_masked_eq (a b prefix : Z) : bool :=
  let keep := checked_shl_ones 128 (128 - prefix) in Z.land a keep =? Z.land b keep.

(** The family dispatch the three range tests share. *)
Definition masked_eq (x y : IpAddr) (prefix : Z) : bool :=
  match x, y with
  | V4 a, V4 b => v4_masked_eq a b prefix
  | V6 a, V6 b => v6_masked_eq a b prefix
  | _, _ => false
  end.

Definition cidr_contains (cidr : string) (addr : IpAddr) : bool :=
  match parse_policy_cidr cidr with
  | None => false
  | Some (net, prefix) => masked_eq net addr prefix
  end.

Definition cidr_covers (outer inner : string) : bool :=
  match parse_policy_cidr outer, parse_policy_cidr inner with
  | Some (o, op), Some (i, ip) => if ip <? op then false else masked_eq o i op
  | _, _ => false
  end.

Definition cidr_intersects (a b : string) : bool :=
  match parse_policy_cidr a, parse_policy_cidr b with
  | Some (a, pa), Some (b, pb) => masked_eq a b (Z.min pa pb)
  | _, _ => false
  end.

Definition host_is_ip_literal (host : string) : bool := bool_decide (is_Some (parse_ip host)).

Definition ip_literal_cidr (addr : IpAddr) : string := show_cidr addr (max_prefix addr).

(** ** Endpoints *)

Definition socket_endpoint (ip : IpAddr) : IpAddr := to_canonical ip.

Definition nat64_embedded_v4 (v6 : Z) : option Z :=
  if bool_decide (take 6 (v6_segments v6) = [0x0064; 0xff9b; 0; 0; 0; 0])
  then Some (v4_new (v6_octet v6 12) (v6_octet v6 13) (v6_octet v6 14) (v6_octet v6 15))
  else None.

Definition sixto4_embedded_v4 (v6 : Z) : option Z :=
  if v6_segment v6 0 =? 0x2002
  then Some (v4_new (v6_octet v6 2) (v6_octet v6 3) (v6_octet v6 4) (v6_octet v6 5))
  else None.

Definition dialed_endpoint (ip : IpAddr) : IpAddr :=
  match socket_endpoint ip with
  | V6 v6 => match nat64_embedded_v4 v6 with Some v4 => V4 v4 | None => V6 v6 end
  | v => v
  end.

Definition v4_is_protected (v4 : Z) : bool :=
  v4_is_private v4 || v4_is_loopback v4 || v4_is_link_local v4 || v4_is_multicast v4
  || v4_is_broadcast v4 || (v4_octet v4 0 =? 0)
  || ((v4_octet v4 0 =? 100) && (Z.land (v4_octet v4 1) 0xC0 =? 64)).

Definition v6_is_protected (v6 : Z) : bool :=
  v6_is_loopback v6 || v6_is_unspecified v6 || v6_is_multicast v6 || v6_is_unique_local v6
  || v6_is_unicast_link_local v6.

Definition endpoint_is_protected (addr : IpAddr) : bool :=
  match to_canonical addr with
  | V4 v4 => v4_is_protected v4
  | V6 v6 =>
      v6_is_protected v6
      || is_some_and (nat64_embedded_v4 v6) v4_is_protected
      || is_some_and (sixto4_embedded_v4 v6) v4_is_protected
  end.

(** ** Masks *)

Lemma checked_shl_ones_shift w n : 0 <= n <= w → checked_shl_ones w n = Z.shiftl (Z.ones (w - n)) n.
Proof.
  intros Hn. unfold checked_shl_ones. destruct (n <? w) eqn:E.
  - apply Z.ltb_lt in E.
    replace (2 ^ w - 1) with (Z.ones w) by (rewrite Z.ones_equiv; lia).
    apply Z.bits_inj'. intros i Hi. rewrite <-Z.land_ones, Z.land_spec by lia.
    rewrite !Z.shiftl_spec by lia. rewrite !Z.testbit_ones by lia. lia.
  - apply Z.ltb_ge in E. replace n with w by lia. rewrite Z.sub_diag. by rewrite Z.shiftl_0_l.
Qed.

Lemma testbit_above w a i : 0 <= a < 2 ^ w → 0 <= w <= i → Z.testbit a i = false.
Proof. intros Ha Hi. rewrite <-(Z.mod_small a (2 ^ w)) by done. apply Z.mod_pow2_bits_high. lia. Qed.

(** Masking keeps the bits above the host part. *)
Lemma land_keep w a p : 0 <= a < 2 ^ w → 0 <= p <= w →
  Z.land a (checked_shl_ones w (w - p)) = Z.shiftl (Z.shiftr a (w - p)) (w - p).
Proof.
  intros Ha Hp. rewrite checked_shl_ones_shift by lia. replace (w - (w - p)) with p by lia.
  apply Z.bits_inj'. intros i Hi.
  rewrite Z.land_spec, !Z.shiftl_spec, Z.testbit_ones by lia.
  destruct (Z.le_gt_cases (w - p) i).
  - rewrite Z.shiftr_spec by lia. replace (i - (w - p) + (w - p)) with i by lia.
    destruct (Z.le_gt_cases w i); [by rewrite (testbit_above w a i) by lia|].
    replace ((0 <=? i - (w - p)) && (i - (w - p) <? p)) with true; [by rewrite andb_true_r|]. lia.
  - rewrite (Z.testbit_neg_r _ (i - (w - p))) by lia.
    replace ((0 <=? i - (w - p)) && (i - (w - p) <? p)) with false; [by rewrite andb_false_r|]. lia.
Qed.

Lemma masked_div w a b p : 0 <= a < 2 ^ w → 0 <= b < 2 ^ w → 0 <= p <= w →
  Z.land a (checked_shl_ones w (w - p)) = Z.land b (checked_shl_ones w (w - p)) ↔
  a / 2 ^ (w - p) = b / 2 ^ (w - p).
Proof.
  intros Ha Hb Hp. rewrite !land_keep by done. rewrite !Z.shiftl_mul_pow2, !Z.shiftr_div_pow2 by lia.
  assert (0 < 2 ^ (w - p)) by (apply Z.pow_pos_nonneg; lia). nia.
Qed.

Definition width (ip : IpAddr) : Z := max_prefix ip.
Definition value (ip : IpAddr) : Z := match ip with V4 a | V6 a => a end.

(** Same family and the same first [p] bits. *)
Definition same_net (x y : IpAddr) (p : Z) : Prop :=
  is_ipv4 x = is_ipv4 y ∧ value x / 2 ^ (width x - p) = value y / 2 ^ (width x - p).

Lemma masked_eq_iff x y p : wf_ip x → wf_ip y → 0 <= p <= width x →
  masked_eq x y p = true ↔ same_net x y p.
Proof.
  unfold same_net. destruct x as [a|a], y as [b|b]; intros Hx Hy Hp; simpl; try (split; [done|by intros []]).
  - unfold v4_masked_eq. rewrite Z.eqb_eq, masked_div by done. tauto.
  - unfold v6_masked_eq. rewrite Z.eqb_eq, masked_div by done. tauto.
Qed.

(** ** Parsed rules are well formed *)

Lemma read_digits_range radix limit s : 0 < radix → ∀ count acc v k rest,
  0 <= acc → read_digits radix limit count acc s = Some (v, k, rest) → 0 <= v.
Proof.
  intros Hr. induction s as [|c s IH]; intros count acc v k rest Ha; simpl; [by intros [= <- _ _]|].
  destruct (to_digit radix c) as [d|] eqn:Ed; [|by intros [= <- _ _]].
  case_match; [done|]. apply IH. enough (0 <= d) by nia.
  unfold to_digit, digit_value, is_ascii_digit, is_ascii_upper in Ed.
  repeat case_match; simplify_eq; rewrite ?andb_true_iff, ?Z.leb_le in *; lia.
Qed.

Lemma read_number_range radix limit az max s v rest : 0 < radix →
  read_number radix limit az max s = Some (v, rest) → 0 <= v <= max.
Proof.
  intros Hr. unfold read_number. destruct (read_digits _ _ _ _ s) as [[[n k] r]|] eqn:E; [|done].
  apply read_digits_range in E; [|done|lia]. repeat case_match; try done. intros [= <- <-].
  rewrite Z.ltb_ge in *. lia.
Qed.

Lemma from_groups_range w gs : 0 < w → Forall (λ g, 0 <= g < w) gs → ∀ acc, 0 <= acc →
  0 <= foldl (λ acc g, acc * w + g) acc gs < (acc + 1) * w ^ Z.of_nat (length gs).
Proof.
  intros Hw. induction 1 as [|g gs Hg _ IH]; intros acc Ha; simpl foldl; simpl length.
  { simpl. lia. }
  destruct (IH (acc * w + g)) as [H1 H2]; [nia|]. split; [done|].
  rewrite Nat2Z.inj_succ, Z.pow_succ_r by lia.
  assert (0 < w ^ Z.of_nat (length gs)) by (apply Z.pow_pos_nonneg; lia). nia.
Qed.

Lemma read_octets_range n : ∀ first s os rest, read_octets n first s = Some (os, rest) →
  length os = n ∧ Forall (λ g, 0 <= g < 256) os.
Proof.
  induction n as [|n IH]; intros first s os rest; cbn [read_octets]; [by intros [= <- <-]|].
  destruct (read_separator "." first read_octet s) as [[o s']|] eqn:E; [|done].
  destruct (read_octets n false s') as [[os' r]|] eqn:E'; [|done]. intros [= <- <-].
  apply IH in E' as [Hl Hf]. split; [simpl; lia|]. constructor; [|done].
  assert (∃ t, read_octet t = Some (o, s')) as [t Ht].
  { unfold read_separator in E. destruct first; [by eexists|]. by destruct (read_given_char _ s) as [[]|]; eauto. }
  apply read_number_range in Ht; lia.
Qed.

Lemma read_ipv4_range s a rest : read_ipv4_addr s = Some (a, rest) → 0 <= a < 2 ^ 32.
Proof.
  unfold read_ipv4_addr. destruct (read_octets 4 true s) as [[os r]|] eqn:E; [|done].
  intros [= <- <-]. apply read_octets_range in E as [Hl Hf].
  pose proof (from_groups_range 256 os ltac:(lia) Hf 0 ltac:(lia)) as H. rewrite Hl in H. done.
Qed.

Lemma read_groups_range limit : ∀ first s gs v4 rest, read_groups limit first s = (gs, v4, rest) →
  Forall group gs ∧ (length gs ≤ limit)%nat.
Proof.
  assert (∀ A (inner : reader A) first s x, read_separator ":" first inner s = Some x →
            ∃ t, inner t = Some x) as Hsep.
  { intros A inner first s x. unfold read_separator. destruct first; [eauto|].
    destruct (read_given_char ":" s) as [[]|]; [eauto|done]. }
  induction limit as [|n IH]; intros first s gs v4 rest; cbn [read_groups]; [by intros [= <- <- <-]|].
  assert (∀ x, (match read_separator ":" first (read_number 16 4 true 65535) s with
           | Some (g, s') => let '(gs, v4, rest) := read_groups n false s' in (g :: gs, v4, rest)
           | None => ([], false, s) end = x) → Forall group x.1.1 ∧ (length x.1.1 ≤ S n)%nat) as Hg.
  { intros x <-. destruct (read_separator _ _ _ s) as [[g s']|] eqn:E; [|split; [constructor|simpl; lia]].
    apply Hsep in E as [t Ht]. apply read_number_range in Ht; [|lia].
    destruct (read_groups n false s') as [[gs' v4'] r'] eqn:E'. apply IH in E' as [Hf Hl].
    split; simpl; [constructor; [unfold group; lia|done]|lia]. }
  destruct (0 <? n)%nat eqn:En; [|intros E; exact (Hg _ E)].
  destruct (read_separator ":" first read_ipv4_addr s) as [[a s']|] eqn:E; [|intros E'; exact (Hg _ E')].
  intros [= <- <- <-]. apply Nat.ltb_lt in En. apply Hsep in E as [t Ht].
  apply read_ipv4_range in Ht. split; [|simpl; lia].
  repeat constructor; unfold group.
  - rewrite Z.shiftr_div_pow2 by lia. apply Z.div_pos; lia.
  - rewrite Z.shiftr_div_pow2 by lia. apply Z.div_lt_upper_bound; lia.
  - change 65535 with (2 ^ 16 - 1). rewrite land_low by lia. by apply Z.mod_pos_bound.
  - change 65535 with (2 ^ 16 - 1). rewrite land_low by lia. by apply Z.mod_pos_bound.
Qed.

Lemma v6_from_segments_range gs : length gs = 8%nat → Forall group gs →
  0 <= v6_from_segments gs < 2 ^ 128.
Proof.
  intros Hl Hf. pose proof (from_groups_range 65536 gs ltac:(lia) Hf 0 ltac:(lia)) as H.
  rewrite Hl in H. done.
Qed.

Lemma read_ipv6_range s a rest : read_ipv6_addr s = Some (a, rest) → 0 <= a < 2 ^ 128.
Proof.
  unfold read_ipv6_addr. destruct (read_groups 8 true s) as [[head v4] s1] eqn:E1.
  apply read_groups_range in E1 as [Hf1 Hl1]. destruct (Nat.eqb_spec (length head) 8) as [H8|H8].
  { intros [= <- <-]. by apply v6_from_segments_range. }
  destruct v4; [done|]. destruct (read_given_char ":" s1) as [[[] s2]|]; [|done].
  destruct (read_given_char ":" s2) as [[[] s3]|]; [|done].
  destruct (read_groups _ true s3) as [[tail v4'] s4] eqn:E2.
  apply read_groups_range in E2 as [Hf2 Hl2]. intros [= <- <-].
  apply v6_from_segments_range.
  - rewrite !length_app, length_replicate. lia.
  - apply Forall_app; split; [done|]. apply Forall_app; split; [|done].
    apply Forall_replicate. unfold group. lia.
Qed.

Lemma parse_ip_wf s ip : parse_ip s = Some ip → wf_ip ip.
Proof.
  unfold parse_ip, parse_with, read_ip_addr.
  destruct (read_ipv4_addr s) as [[a r]|] eqn:E4.
  - apply read_ipv4_range in E4. destruct r; [|done]. by intros [= <-].
  - destruct (read_ipv6_addr s) as [[a r]|] eqn:E6; [|done].
    apply read_ipv6_range in E6. simpl. destruct r; [|done]. by intros [= <-].
Qed.

Lemma digits_value_range radix max s : 0 < radix → ∀ acc v, 0 <= acc <= max →
  digits_value radix max acc s = Some v → 0 <= v <= max.
Proof.
  intros Hr. induction s as [|c s IH]; intros acc v Ha; simpl; [by intros [= <-]|].
  destruct (to_digit radix c) as [d|] eqn:Ed; [|done].
  destruct (max <? acc * radix + d) eqn:Em; [done|]. apply Z.ltb_ge in Em. apply IH. split; [|done].
  enough (0 <= d) by nia. unfold to_digit, digit_value, is_ascii_digit, is_ascii_upper in Ed.
  repeat case_match; simplify_eq; rewrite ?andb_true_iff, ?Z.leb_le in *; lia.
Qed.

Lemma from_str_radix_range radix max s v : 0 < radix → 0 <= max →
  from_str_radix radix max s = Some v → 0 <= v <= max.
Proof.
  intros Hr Hm. unfold from_str_radix. destruct s as [|c s]; [done|]. repeat case_match; try done;
    apply digits_value_range; lia.
Qed.

Lemma parse_policy_cidr_wf c net p :
  parse_policy_cidr c = Some (net, p) → wf_ip net ∧ 0 <= p <= width net.
Proof.
  unfold parse_policy_cidr. destruct (split_once "/" c) as [[s1 s2]|]; [|done].
  destruct (parse_ip s1) as [ip|] eqn:E; [|done]. apply parse_ip_wf in E.
  destruct (parse_u8 s2) as [q|] eqn:Eq; [|done].
  apply from_str_radix_range in Eq; [|lia|unfold U8_MAX; lia].
  destruct (q <=? max_prefix ip) eqn:El; [|done]. intros [= <- <-].
  apply Z.leb_le in El. unfold width. split; [done|lia].
Qed.

(** ** Ranges as sets of addresses *)

Lemma same_net_refl x p : same_net x x p.
Proof. done. Qed.

Lemma same_net_width x y p : same_net x y p → width y = width x.
Proof. intros [H _]. unfold width, max_prefix. by rewrite H. Qed.

Lemma same_net_sym x y p : same_net x y p → same_net y x p.
Proof. intros H. pose proof (same_net_width _ _ _ H) as Hw. destruct H. split; [done|]. by rewrite Hw. Qed.

Lemma same_net_trans x y z p : same_net x y p → same_net y z p → same_net x z p.
Proof.
  intros H1 H2. pose proof (same_net_width _ _ _ H1) as Hw. destruct H1, H2.
  rewrite Hw in *. split; congruence.
Qed.

Lemma same_net_weaken x y p q : 0 <= p <= q → q <= width x → same_net x y q → same_net x y p.
Proof.
  intros Hp Hq [Hf Hd]. split; [done|].
  replace (width x - p) with ((width x - q) + (q - p)) by lia.
  rewrite Z.pow_add_r, <-!Z.div_div by lia. by rewrite Hd.
Qed.

(** Same quotient: less than a divisor apart. *)
Lemma same_quotient a b k : 0 < k → a / k = b / k → b - a < k.
Proof.
  intros Hk H. pose proof (Z.div_mod a k). pose proof (Z.div_mod b k).
  pose proof (Z.mod_pos_bound a k). pose proof (Z.mod_pos_bound b k). nia.
Qed.

Definition with_value (x : IpAddr) (v : Z) : IpAddr :=
  match x with V4 _ => V4 v | V6 _ => V6 v end.

Lemma wf_value x : wf_ip x ↔ 0 <= value x < 2 ^ width x.
Proof. by destruct x. Qed.

(** A range is as large as its prefix says: it has two addresses
    [2^(width-p) - 1] apart. *)
Lemma range_extent x p : wf_ip x → 0 <= p <= width x →
  ∃ lo hi, wf_ip lo ∧ wf_ip hi ∧ same_net x lo p ∧ same_net x hi p ∧
    value hi - value lo = 2 ^ (width x - p) - 1.
Proof.
  intros Hx Hp. apply wf_value in Hx. set (k := 2 ^ (width x - p)).
  assert (0 < k) as Hk by (apply Z.pow_pos_nonneg; lia).
  pose proof (Z.div_mod (value x) k ltac:(lia)) as Hdm.
  pose proof (Z.mod_pos_bound (value x) k Hk) as Hm. set (q := value x / k) in *.
  assert (2 ^ width x = k * 2 ^ p) as Hw.
  { unfold k. rewrite <-Z.pow_add_r by lia. f_equal. lia. }
  assert (0 <= q < 2 ^ p) as Hq.
  { split; [apply Z.div_pos; lia|]. apply Z.div_lt_upper_bound; lia. }
  exists (with_value x (q * k)), (with_value x (q * k + (k - 1))).
  assert (∀ v, value (with_value x v) = v ∧ width (with_value x v) = width x
              ∧ is_ipv4 (with_value x v) = is_ipv4 x) as Hv by (intros v; by destruct x).
  destruct (Hv (q * k)) as (V1 & W1 & F1), (Hv (q * k + (k - 1))) as (V2 & W2 & F2).
  unfold same_net. rewrite !wf_value, V1, V2, W1, W2, F1, F2. fold k q.
  rewrite Z.div_mul, Z.div_add_l, (Z.div_small (k - 1)) by lia.
  split_and!; nia || done.
Qed.

Lemma cidr_covers_subset outer inner addr : wf_ip addr →
  cidr_covers outer inner = true → cidr_contains inner addr = true → cidr_contains outer addr = true.
Proof.
  intros Ha. unfold cidr_covers, cidr_contains.
  destruct (parse_policy_cidr outer) as [[o op]|] eqn:Ho; [|done].
  destruct (parse_policy_cidr inner) as [[i ip]|] eqn:Hi; [|done].
  apply parse_policy_cidr_wf in Ho as [Wo Po], Hi as [Wi Pi].
  destruct (ip <? op) eqn:E; [done|]. apply Z.ltb_ge in E. rewrite masked_eq_iff by done.
  intros Hoi. pose proof (same_net_width _ _ _ Hoi) as Hw.
  rewrite !masked_eq_iff by done. intros Hia. eapply same_net_trans; [done|].
  apply (same_net_weaken _ _ _ ip); [lia..|done].
Qed.

(** [cidr_covers] decides inclusion: for two well-formed rules it holds
    exactly when every address of the inner range lies in the outer one, so the
    deny-precedence pruning built on it removes an allow range only when no
    address of it could pass. *)
Lemma cidr_covers_iff_subset outer inner :
  is_Some (parse_policy_cidr outer) → is_Some (parse_policy_cidr inner) →
  cidr_covers outer inner = true ↔
  ∀ addr, wf_ip addr → cidr_contains inner addr = true → cidr_contains outer addr = true.
Proof.
  intros [[o op] Ho] [[i ip] Hi]. split; [by intros Hc addr Ha; apply cidr_covers_subset|].
  unfold cidr_covers, cidr_contains. rewrite Ho, Hi.
  apply parse_policy_cidr_wf in Ho as [Wo Po], Hi as [Wi Pi].
  intros Hsub. assert (masked_eq o i op = true) as Hoi.
  { apply Hsub; [done|]. by apply masked_eq_iff. }
  destruct (ip <? op) eqn:E; [exfalso|done]. apply Z.ltb_lt in E.
  destruct (range_extent i ip Wi Pi) as (lo & hi & Wl & Wh & Hl & Hh & Hd).
  apply masked_eq_iff in Hl, Hh; [|done..]. apply Hsub in Hl, Hh; [|done..].
  apply masked_eq_iff in Hl, Hh, Hoi; [|done..].
  pose proof (same_net_width _ _ _ Hoi) as Hw.
  destruct (same_net_trans _ _ _ _ (same_net_sym _ _ _ Hl) Hh) as [_ Hq].
  rewrite (same_net_width _ _ _ Hl) in Hq.
  apply same_quotient in Hq; [|apply Z.pow_pos_nonneg; lia]. rewrite Hd, Hw in Hq.
  assert (2 ^ (width o - op + 1) <= 2 ^ (width o - ip)) as Hpow by (apply Z.pow_le_mono_r; lia).
  rewrite Z.pow_add_r in Hpow by lia.
  assert (0 < 2 ^ (width o - op)) by (apply Z.pow_pos_nonneg; lia). lia.
Qed.

(** [cidr_intersects] decides overlap: for two well-formed rules it holds
    exactly when some address lies in both ranges, so a mechanism that cannot
    express exceptions refuses exactly the denies carved into an allow. *)
Lemma cidr_intersects_iff_overlap a b :
  is_Some (parse_policy_cidr a) → is_Some (parse_policy_cidr b) →
  cidr_intersects a b = true ↔
  ∃ addr, wf_ip addr ∧ cidr_contains a addr = true ∧ cidr_contains b addr = true.
Proof.
  intros [[x px] Hx] [[y py] Hy]. unfold cidr_intersects, cidr_contains. rewrite Hx, Hy.
  apply parse_policy_cidr_wf in Hx as [Wx Px], Hy as [Wy Py]. split.
  - intros Hm. apply masked_eq_iff in Hm; [|done..|lia]. pose proof (same_net_width _ _ _ Hm).
    destruct (Z.le_ge_cases px py) as [Hle|Hle].
    + rewrite Z.min_l in Hm by done. exists y. rewrite !masked_eq_iff by done. done.
    + rewrite Z.min_r in Hm by done. exists x. rewrite !masked_eq_iff by (done || lia).
      split_and!; [done..|]. by apply same_net_sym.
  - intros (addr & Wa & H1 & H2). apply masked_eq_iff in H1, H2; [|done..].
    apply masked_eq_iff; [done..|lia|]. pose proof (same_net_width _ _ _ H1).
    pose proof (same_net_width _ _ _ H2).
    apply (same_net_trans _ addr); [|apply same_net_sym];
      eapply same_net_weaken; [| |done| | |done]; lia.
Qed.

(** ** Printing and reading back a rule *)

Lemma digits_value_show max f : ∀ n a acc, 0 <= n < 10 ^ Z.of_nat f → 0 <= a →
  a * 10 ^ Z.of_nat (ndigits f 10 n) + n <= max →
  digits_value 10 max a (digits f 10 n acc) =
  digits_value 10 max (a * 10 ^ Z.of_nat (ndigits f 10 n) + n) acc.
Proof.
  induction f as [|f IH]; intros n a acc Hn Ha Hmax.
  { simpl in *. f_equal. lia. }
  rewrite Nat2Z.inj_succ, Z.pow_succ_r in Hn by lia.
  pose proof (Z.mod_pos_bound n 10 ltac:(lia)) as Hm. pose proof (Z.div_mod n 10 ltac:(lia)) as Hd.
  cbn [digits ndigits] in *. destruct (n / 10 =? 0) eqn:E.
  - apply Z.eqb_eq in E. simpl in *. rewrite to_digit_char by lia.
    replace (n mod 10) with n by lia. by replace (max <? a * 10 + n) with false by lia.
  - apply Z.eqb_neq in E.
    assert (0 <= n / 10) by (apply Z.div_pos; lia).
    rewrite Nat2Z.inj_succ, Z.pow_succ_r in * by lia.
    rewrite IH; [|split; [done|apply Z.div_lt_upper_bound; lia]|done|nia].
    cbn [digits_value]. rewrite to_digit_char by lia.
    replace ((a * 10 ^ Z.of_nat (ndigits f 10 (n / 10)) + n / 10) * 10 + n mod 10)
      with (a * (10 * 10 ^ Z.of_nat (ndigits f 10 (n / 10))) + n) by lia.
    by replace (max <? _) with false by lia.
Qed.

(** A decimal string is digits only and not empty. *)
Lemma digit_char_digit d : 0 <= d < 10 →
  is_ascii_digit (digit_char d) = true ∧ Ascii.eqb (digit_char d) "+" = false.
Proof.
  intros Hd. apply (below_16 (λ d, d < 10 → is_ascii_digit (digit_char d) = true ∧
    Ascii.eqb (digit_char d) "+" = false)); [.. |lia|lia]; done || lia.
Qed.

Lemma digits_shape f : ∀ n acc, f ≠ 0%nat → 0 <= n →
  str_all is_ascii_digit acc = true →
  str_all is_ascii_digit (digits f 10 n acc) = true ∧
  ∃ d s, 0 <= d < 10 ∧ digits f 10 n acc = String (digit_char d) s.
Proof.
  induction f as [|f IH]; intros n acc Hf Hn Ha; [done|]. simpl.
  pose proof (Z.mod_pos_bound n 10 ltac:(lia)) as Hm.
  assert (str_all is_ascii_digit (String (digit_char (n mod 10)) acc) = true) as Hacc.
  { simpl. by rewrite (proj1 (digit_char_digit _ Hm)). }
  assert (0 <= n / 10) by (apply Z.div_pos; lia).
  case_match; [split; [done|by eauto]|]. destruct f as [|f]; [split; [done|by eauto]|].
  by apply IH.
Qed.

Lemma from_str_radix_show max n : 0 <= n <= max → n < 10 ^ 20 →
  from_str_radix 10 max (show_dec n) = Some n.
Proof.
  intros Hn Hb. unfold show_dec.
  destruct (digits_shape 20 n "" ltac:(done) ltac:(lia) eq_refl) as [_ (d & s & Hd & E)].
  pose proof (digits_value_show max 20 n 0 "" ltac:(lia) ltac:(lia) ltac:(lia)) as H.
  rewrite E in *. unfold from_str_radix. rewrite (proj2 (digit_char_digit d Hd)).
  rewrite H. simpl. done.
Qed.

Lemma show_dec_shape n : 0 <= n →
  is_empty (show_dec n) = false ∧ str_all is_ascii_digit (show_dec n) = true.
Proof.
  intros Hn. destruct (digits_shape 20 n "" ltac:(done) Hn eq_refl) as [H (d & s & _ & E)].
  unfold show_dec. rewrite E in *. done.
Qed.

Lemma slash_no_addr ip : contains "/" (show_ip ip) = false.
Proof. apply (contains_outside addr_char); [done|apply show_ip_chars]. Qed.

Lemma split_show_cidr ip p : split_once "/" (show_cidr ip p) = Some (show_ip ip, show_dec p).
Proof. unfold show_cidr. apply split_once_app, slash_no_addr. Qed.

Lemma max_prefix_range ip : 0 <= max_prefix ip <= 128.
Proof. unfold max_prefix. case_match; lia. Qed.

(** A printed rule is read back as it was. *)
Lemma parse_show_cidr ip p :
  wf_ip ip → 0 <= p <= width ip → parse_policy_cidr (show_cidr ip p) = Some (ip, p).
Proof.
  intros Hip Hp. unfold parse_policy_cidr. rewrite split_show_cidr, parse_show_ip by done.
  unfold width in Hp. pose proof (max_prefix_range ip). unfold parse_u8, U8_MAX.
  rewrite from_str_radix_show by lia. by replace (p <=? max_prefix ip) with true by lia.
Qed.

(** ** Canonical rules *)

(** The characters of a canonical rule. *)
Definition cidr_char (c : ascii) : bool := addr_char c || Ascii.eqb c "/".

Lemma cidr_char_graphic c : cidr_char c = true → graphic c = true.
Proof. each_char c. Qed.

Lemma digit_is_addr c : is_ascii_digit c = true → addr_char c = true.
Proof.
  intros Hd. unfold addr_char, to_digit, digit_value. rewrite Hd.
  unfold is_ascii_digit in Hd. apply andb_true_iff in Hd as [H1 H2].
  apply Z.leb_le in H1, H2. by replace (code c - 48 <? 16) with true by lia.
Qed.

Lemma show_cidr_chars ip p : 0 <= p → str_all cidr_char (show_cidr ip p) = true.
Proof.
  intros Hp. unfold show_cidr. rewrite !str_all_app. rewrite !andb_true_iff. split_and!; [|done|].
  - eapply str_all_impl; [|apply show_ip_chars]. unfold cidr_char. by intros c ->.
  - eapply str_all_impl; [|apply (show_dec_shape p Hp)]. intros c Hc.
    unfold cidr_char. by rewrite digit_is_addr.
Qed.

Lemma no_bracket s : str_all cidr_char s = true → strip_prefix "[" s = None.
Proof.
  destruct s as [|c s]; [done|]. cbn [str_all strip_prefix]. intros [Hc _]%andb_true_iff.
  destruct (Ascii.eqb_spec "[" c) as [<-|]; done.
Qed.

Lemma no_colon_digits s : str_all is_ascii_digit s = true → split_once ":" s = None.
Proof.
  induction s as [|c s IH]; [done|]. cbn [str_all split_once]. intros [Hc Hs]%andb_true_iff.
  destruct (Ascii.eqb_spec c ":") as [->|]; [done|]. by rewrite IH.
Qed.

(** What canonicalization does with a plainly spelled rule. *)
Lemma analyze_show_cidr ip p : wf_ip ip → 0 <= p <= width ip →
  analyze_policy_cidr (show_cidr ip p) =
  match fold_mapped (show_cidr ip p) ip p with
  | Ok (ip', p') => Ok (show_cidr (mask_cidr_addr ip' p') p', None, false)
  | Err e => Err e
  end.
Proof.
  intros Hip Hp. unfold analyze_policy_cidr.
  rewrite trim_graphic
    by (eapply str_all_impl; [apply cidr_char_graphic|]; apply show_cidr_chars; lia).
  unfold cidr_brackets. rewrite no_bracket by (apply show_cidr_chars; lia). cbn [result_bind].
  rewrite split_show_cidr. destruct (show_dec_shape p ltac:(lia)) as [He Hd].
  unfold cidr_tail. rewrite no_colon_digits by done. cbn [result_bind]. rewrite He, Hd. cbn [orb negb].
  unfold width in Hp. pose proof (max_prefix_range ip). unfold parse_u32, U32_MAX.
  rewrite from_str_radix_show, parse_show_ip by (done || lia).
  replace (max_prefix ip <? p) with false by lia.
  by destruct (fold_mapped _ ip p) as [[]|].
Qed.

Lemma fold_mapped_range v ip p ip' p' : wf_ip ip → 0 <= p <= width ip →
  fold_mapped v ip p = Ok (ip', p') →
  wf_ip ip' ∧ 0 <= p' <= width ip' ∧ (∀ a, ip' = V6 a → to_ipv4_mapped a = None).
Proof.
  intros Hip Hp. destruct ip as [a|a]; cbn [fold_mapped]; [by intros [= <- <-]|].
  destruct (to_ipv4_mapped a) as [v4|] eqn:Em.
  - destruct (96 <=? p) eqn:E; [|done]. intros [= <- <-]. apply Z.leb_le in E.
    apply mapped_value in Em as [? _]; [|done]. unfold width, max_prefix in *. simpl in *.
    split_and!; [lia..|done].
  - intros [= <- <-]. split_and!; [apply Hip|apply Hp..|]. by intros ? [= <-].
Qed.

Lemma mask_value ip p : wf_ip ip → 0 <= p <= width ip →
  mask_cidr_addr ip p =
  with_value ip (value ip / 2 ^ (width ip - p) * 2 ^ (width ip - p)).
Proof.
  intros Hip Hp. destruct ip as [a|a]; unfold width, max_prefix in *;
    cbn [mask_cidr_addr is_ipv4 with_value value] in *; f_equal;
    rewrite land_keep, Z.shiftl_mul_pow2, Z.shiftr_div_pow2 by (done || lia); done.
Qed.

Lemma mask_wf ip p : wf_ip ip → 0 <= p <= width ip →
  wf_ip (mask_cidr_addr ip p) ∧ width (mask_cidr_addr ip p) = width ip ∧
  same_net ip (mask_cidr_addr ip p) p ∧
  mask_cidr_addr (mask_cidr_addr ip p) p = mask_cidr_addr ip p.
Proof.
  intros Hip Hp. assert (0 < 2 ^ (width ip - p)) as Hk by (apply Z.pow_pos_nonneg; lia).
  assert (wf_ip (mask_cidr_addr ip p) ∧ width (mask_cidr_addr ip p) = width ip ∧
    same_net ip (mask_cidr_addr ip p) p) as (Hw & He & Hn).
  { rewrite mask_value by done. apply wf_value in Hip. unfold same_net.
    assert (0 <= value ip / 2 ^ (width ip - p) * 2 ^ (width ip - p) <= value ip) as Hv.
    { split; [apply Z.mul_nonneg_nonneg; [apply Z.div_pos; lia|lia]|].
      rewrite Z.mul_comm. by apply Z.mul_div_le. }
    rewrite wf_value.
    destruct ip; cbn [with_value value is_ipv4] in *; unfold width, max_prefix in *;
      cbn [is_ipv4] in *; rewrite Z.div_mul by lia; split_and!; lia || done. }
  split_and!; [done..|]. rewrite (mask_value (mask_cidr_addr ip p)) by (done || lia).
  rewrite He. destruct Hn as [_ <-]. rewrite (mask_value ip p) by done. by destruct ip.
Qed.

(** Masking does not make an address IPv4-mapped. *)
Lemma mask_not_mapped a p m : 0 <= a < 2 ^ 128 → 0 <= p <= 128 → to_ipv4_mapped a = None →
  mask_cidr_addr (V6 a) p = V6 m → to_ipv4_mapped m = None.
Proof.
  intros Ha Hp Hn. rewrite mask_value by done. unfold width, max_prefix.
  cbn [with_value value is_ipv4]. intros [= <-]. set (k := 128 - p).
  assert (0 < 2 ^ k) as Hk by (apply Z.pow_pos_nonneg; lia).
  unfold to_ipv4_mapped in *. rewrite !Z.shiftr_div_pow2 in * by lia.
  destruct (Z.eqb_spec (a / 2 ^ 32) 65535) as [|Ha']; [done|].
  destruct (Z.eqb_spec (a / 2 ^ k * 2 ^ k / 2 ^ 32) 65535) as [E|]; [exfalso|done].
  destruct (Z.le_gt_cases k 32) as [Hle|Hgt].
  - apply Ha'. rewrite <-E. replace (2 ^ 32) with (2 ^ k * 2 ^ (32 - k))
      by (rewrite <-Z.pow_add_r by lia; f_equal; lia).
    rewrite <-!Z.div_div by (try apply Z.pow_nonzero; lia). by rewrite Z.div_mul by lia.
  - replace (2 ^ k) with (2 ^ (k - 33) * 2 * 2 ^ 32) in E at 2
      by (rewrite <-Z.mul_assoc, <-(Z.pow_succ_r 2 32), <-Z.pow_add_r by lia; f_equal; lia).
    rewrite !Z.mul_assoc, Z.div_mul in E by lia. lia.
Qed.

(** Canonical rules: whatever spelling [analyze_policy_cidr] accepts, the
    rule it stores is the printed form of a network address with its host bits
    cleared, the rule parses back to exactly that network and prefix, and
    canonicalizing it again changes nothing. *)
Lemma analyze_policy_cidr_canonical v rule port qualified :
  analyze_policy_cidr v = Ok (rule, port, qualified) →
  (∃ net p, rule = show_cidr net p ∧ parse_policy_cidr rule = Some (net, p) ∧
            mask_cidr_addr net p = net) ∧
  analyze_policy_cidr rule = Ok (rule, None, false).
Proof.
  unfold analyze_policy_cidr at 1. destruct (cidr_brackets (trim v)) as [[[inner po] q]|]; [|done].
  cbn [result_bind]. destruct (split_once "/" inner) as [[addr_str tail]|]; [|done].
  destruct (cidr_tail _ _ _ _ _) as [[[ps po'] q']|]; [|done]. cbn [result_bind].
  destruct (is_empty ps || _); [done|].
  destruct (parse_u32 ps) as [p0|] eqn:Ep; [|done].
  apply from_str_radix_range in Ep; [|lia|unfold U32_MAX; lia].
  destruct (parse_ip addr_str) as [ip0|] eqn:Ei; [|done]. apply parse_ip_wf in Ei.
  destruct (max_prefix ip0 <? p0) eqn:El; [done|]. apply Z.ltb_ge in El.
  destruct (fold_mapped _ ip0 p0) as [[ip p]|] eqn:Ef; [|done]. cbn [result_bind].
  apply fold_mapped_range in Ef as (Wip & Pp & Hm); [|done|unfold width; lia].
  intros [= <- _ _]. destruct (mask_wf ip p Wip Pp) as (Wm & Hw & _ & Hmm).
  split.
  - exists (mask_cidr_addr ip p), p. rewrite parse_show_cidr by (done || lia). done.
  - rewrite analyze_show_cidr by (done || lia).
    assert (fold_mapped (show_cidr (mask_cidr_addr ip p) p) (mask_cidr_addr ip p) p
              = Ok (mask_cidr_addr ip p, p)) as ->; [|by rewrite Hmm].
    destruct ip as [a|a]; [done|]. destruct (mask_cidr_addr (V6 a) p) as [|m] eqn:E; [done|].
    cbn [fold_mapped]. by rewrite (mask_not_mapped a p m Wip Pp (Hm a eq_refl) E).
Qed.

(** Meaning of a rule: for every address and prefix length, either the
    spelling [addr/p] is refused with the reason [fold_mapped] gives (an
    IPv4-mapped range reaching outside the mapped space), or the stored rule
    contains exactly the addresses that share the first [p] bits with [addr] -
    with the IPv4 address and [p-96] when [addr] is IPv4-mapped. *)
Lemma analyze_policy_cidr_meaning addr p :
  wf_ip addr → 0 <= p <= width addr →
  match fold_mapped (show_cidr addr p) addr p with
  | Ok (net, q) =>
      ∃ rule, analyze_policy_cidr (show_cidr addr p) = Ok (rule, None, false) ∧
        ∀ x, wf_ip x → cidr_contains rule x = true ↔ same_net net x q
  | Err e => analyze_policy_cidr (show_cidr addr p) = Err e
  end.
Proof.
  intros Wa Pp. rewrite analyze_show_cidr by done.
  destruct (fold_mapped _ addr p) as [[net q]|] eqn:Ef; [|done].
  apply fold_mapped_range in Ef as (Wn & Pq & _); [|done..].
  destruct (mask_wf net q Wn Pq) as (Wm & Hw & Hs & _).
  eexists; split; [done|]. intros x Wx. unfold cidr_contains.
  rewrite parse_show_cidr by (done || lia). rewrite masked_eq_iff by (done || lia).
  split; intros H; (eapply same_net_trans; [|exact H]); [done|by apply same_net_sym].
Qed.

Lemma ip_literal_route addr x :
  wf_ip addr → wf_ip x → cidr_contains (ip_literal_cidr addr) x = true ↔ x = addr.
Proof.
  intros Wa Wx. unfold cidr_contains, ip_literal_cidr.
  pose proof (max_prefix_range addr).
  rewrite parse_show_cidr by (done || unfold width; lia).
  rewrite masked_eq_iff by (done || unfold width; lia). unfold same_net, width.
  rewrite Z.sub_diag, Z.pow_0_r, !Z.div_1_r.
  destruct addr, x; simpl; naive_solver.
Qed.

