(* ===== verification/ProtectedSpace.v ===== *)
(** * ProtectedSpace: the addresses no name grant may open

    [endpoint_is_protected] of [src/src/policy/host.rs] is a table of octet
    tests; here it is shown to be the documented list of ranges, and to hold of
    every IPv6 spelling whose traffic reaches a protected IPv4 address. *)

From S2P Require Import Prelude Text IpAddr PolicyHost PolicyCidr.

(** The documented protected IPv4 ranges: this network, RFC 1918, carrier-grade
    NAT, loopback, link-local (cloud metadata), multicast, broadcast. *)
Definition PROTECTED_V4 : list string :=
  ["0.0.0.0/8"; "10.0.0.0/8"; "100.64.0.0/10"; "127.0.0.0/8"; "169.254.0.0/16";
   "172.16.0.0/12"; "192.168.0.0/16"; "224.0.0.0/4"; "255.255.255.255/32"].

(** Unspecified, loopback, unique-local, link-local, multicast. *)
Definition PROTECTED_V6 : list string :=
  ["::/128"; "::1/128"; "fc00::/7"; "fe80::/10"; "ff00::/8"].

Definition in_ranges (ranges : list string) (x : IpAddr) : Prop :=
  ∃ c, c ∈ ranges ∧ cidr_contains c x = true.

(** Containment in a literal rule, as a quotient. *)
Lemma contains_literal c net p x :
  parse_policy_cidr c = Some (net, p) → wf_ip x → cidr_contains c x = true ↔ same_net net x p.
Proof.
  intros Hc Hx. unfold cidr_contains. rewrite Hc. apply parse_policy_cidr_wf in Hc as [].
  by apply masked_eq_iff.
Qed.

Lemma in_ranges_cons c ranges x :
  in_ranges (c :: ranges) x ↔ cidr_contains c x = true ∨ in_ranges ranges x.
Proof.
  unfold in_ranges. split.
  - intros (c' & [->|Hc]%elem_of_cons & H); eauto.
  - intros [H|(c' & Hc & H)]; [exists c|exists c']; split; set_solver.
Qed.

Lemma in_ranges_nil x : in_ranges [] x ↔ False.
Proof. unfold in_ranges. split; [intros (? & ?%elem_of_nil & _)|]; done. Qed.

(** Rewrites every literal rule of the goal into its quotient test. *)
Ltac literal_ranges Hwf :=
  rewrite !in_ranges_cons, in_ranges_nil;
  repeat match goal with
  | |- context [cidr_contains ?c ?x = true] =>
      let r := eval vm_compute in (parse_policy_cidr c) in
      match r with
      | Some (?net, ?p) =>
          rewrite (contains_literal c net p x ltac:(vm_compute; reflexivity) Hwf)
      end
  end.

(** Proves a disjunction by the disjunct that holds. *)
Ltac pick_case :=
  match goal with
  | |- _ ∨ _ => first [left; pick_case | right; pick_case]
  | |- False => fail
  | |- _ => Z.to_euclidean_division_equations; lia
  end.

Lemma v4_octet0 a : 0 <= a < 2 ^ 32 → v4_octet a 0 = a / 2 ^ 24.
Proof.
  intros Ha. rewrite v4_octet_div by lia. apply Z.mod_small. split; [apply Z.div_pos; lia|].
  apply Z.div_lt_upper_bound; lia.
Qed.

Lemma land_top_bits w x p m : 0 <= x < 2 ^ w → 0 <= p <= w → m = checked_shl_ones w (w - p) →
  Z.land x m = x / 2 ^ (w - p) * 2 ^ (w - p).
Proof.
  intros Hx Hp ->. rewrite land_keep by done. by rewrite Z.shiftl_mul_pow2, Z.shiftr_div_pow2 by lia.
Qed.

(** The quotients of an address in terms of its first two octets. *)
Lemma v4_quotients a : 0 <= a < 2 ^ 32 → ∃ o0 o1 r,
  0 <= o0 < 256 ∧ 0 <= o1 < 256 ∧ 0 <= r < 65536 ∧ a = (o0 * 256 + o1) * 65536 + r ∧
  v4_octet a 0 = o0 ∧ v4_octet a 1 = o1 ∧
  a / 2 ^ 24 = o0 ∧ a / 2 ^ 16 = o0 * 256 + o1 ∧ a / 2 ^ 28 = o0 / 16 ∧
  a / 2 ^ 22 = o0 * 4 + o1 / 64 ∧ a / 2 ^ 20 = o0 * 16 + o1 / 16.
Proof.
  intros Ha. exists (a / 2 ^ 24), ((a / 2 ^ 16) mod 256), (a mod 2 ^ 16).
  rewrite v4_octet0, (v4_octet_div a 1) by lia.
  assert (a / 2 ^ 16 / 2 ^ 8 = a / 2 ^ 24) as H8 by (by rewrite Z.div_div).
  assert (a / 2 ^ 16 / 2 ^ 4 = a / 2 ^ 20) as H4 by (by rewrite Z.div_div).
  assert (a / 2 ^ 16 / 2 ^ 6 = a / 2 ^ 22) as H6 by (by rewrite Z.div_div).
  assert (a / 2 ^ 24 / 2 ^ 4 = a / 2 ^ 28) as H28 by (by rewrite Z.div_div).
  rewrite <-H4, <-H6, <-H28. change (8 * (3 - 1)) with 16.
  pose proof (Z.div_mod a (2 ^ 16) ltac:(lia)) as Hd.
  pose proof (Z.mod_pos_bound a (2 ^ 16) ltac:(lia)) as Hr.
  rewrite <-H8. remember (a / 2 ^ 16) as b. remember (a mod 2 ^ 16) as r.
  change (2 ^ 16) with 65536 in *. change (2 ^ 32) with 4294967296 in *.
  change (2 ^ 8) with 256. change (2 ^ 4) with 16. change (2 ^ 6) with 64.
  assert (0 <= b < 65536) by lia. clear Heqb Heqr H8 H4 H6 H28.
  split_and!; try done; Z.to_euclidean_division_equations; lia.
Qed.

Lemma v4_protected_ranges a : 0 <= a < 2 ^ 32 →
  v4_is_protected a = true ↔ in_ranges PROTECTED_V4 (V4 a).
Proof.
  intros Ha. assert (wf_ip (V4 a)) as Hwf by done.
  unfold v4_is_protected, v4_is_private, v4_is_loopback, v4_is_link_local, v4_is_multicast,
    v4_is_broadcast.
  pose proof (v4_octet_bound a 1 ltac:(lia)) as H1.
  rewrite (land_top_bits 8 (v4_octet a 1) 2 192) by (lia || reflexivity).
  unfold PROTECTED_V4. literal_ranges Hwf.
  unfold same_net, width, max_prefix. cbn [is_ipv4 value]. cbn [Z.sub Z.add Z.opp Z.pos_sub Pos.add].
  change (32 - 8) with 24. change (32 - 10) with 22. change (32 - 16) with 16.
  change (32 - 12) with 20. change (32 - 4) with 28. change (32 - 32) with 0.
  destruct (v4_quotients a Ha) as (o0 & o1 & r & B0 & B1 & Br & Ea & -> & -> & -> & -> & -> & -> & ->).
  rewrite Z.pow_0_r, Z.div_1_r.
  rewrite !orb_true_iff, !andb_true_iff, !Z.eqb_eq, !Z.leb_le.
  clear H1 Ha Hwf. split; [intros H|intros H]; repeat destruct H as [H|H]; try done;
    repeat match type of H with _ ∧ _ => let H' := fresh in destruct H as [H H'] end;
    pick_case.
Qed.

(** The quotients of an IPv6 address in terms of its first segment. *)
Lemma v6_quotients a : 0 <= a < 2 ^ 128 → ∃ s,
  0 <= s < 65536 ∧ v6_segment a 0 = s ∧ v6_octet a 0 = s / 256 ∧
  a / 2 ^ 121 = s / 512 ∧ a / 2 ^ 118 = s / 64 ∧ a / 2 ^ 120 = s / 256.
Proof.
  intros Ha. exists (a / 2 ^ 112).
  assert (0 <= a / 2 ^ 112 < 65536) as Hs.
  { split; [apply Z.div_pos; lia|]. apply Z.div_lt_upper_bound; lia. }
  assert (a / 2 ^ 112 / 512 = a / 2 ^ 121) as H9 by (by rewrite Z.div_div).
  assert (a / 2 ^ 112 / 64 = a / 2 ^ 118) as H6 by (by rewrite Z.div_div).
  assert (a / 2 ^ 112 / 256 = a / 2 ^ 120) as H8 by (by rewrite Z.div_div).
  split_and!; [lia|lia|..]; try done.
  - rewrite v6_segment_div by lia. change (16 * (7 - 0)) with 112. by apply Z.mod_small.
  - unfold v6_octet. rewrite Z.shiftr_div_pow2 by lia. change (8 * (15 - 0)) with 120.
    change 255 with (2 ^ 8 - 1). rewrite land_low by lia. rewrite H8. apply Z.mod_small.
    rewrite <-H8. split; [apply Z.div_pos; lia|]. apply Z.div_lt_upper_bound; lia.
Qed.

Lemma v6_protected_ranges a : 0 <= a < 2 ^ 128 →
  v6_is_protected a = true ↔ in_ranges PROTECTED_V6 (V6 a).
Proof.
  intros Ha. assert (wf_ip (V6 a)) as Hwf by done.
  unfold v6_is_protected, v6_is_loopback, v6_is_unspecified, v6_is_multicast, v6_is_unique_local,
    v6_is_unicast_link_local.
  unfold PROTECTED_V6. literal_ranges Hwf.
  unfold same_net, width, max_prefix. cbn [is_ipv4 value].
  change (128 - 7) with 121. change (128 - 10) with 118. change (128 - 8) with 120.
  change (128 - 128) with 0.
  destruct (v6_quotients a Ha) as (s & Bs & -> & -> & -> & -> & ->).
  rewrite (land_top_bits 16 s 7 65024), (land_top_bits 16 s 10 65472) by (lia || reflexivity).
  rewrite Z.pow_0_r, !Z.div_1_r. rewrite !orb_true_iff, !Z.eqb_eq. clear Ha Hwf.
  change (2 ^ (16 - 7)) with 512. change (2 ^ (16 - 10)) with 64.
  match goal with |- context [?x / 2 ^ 121] =>
    let v := eval vm_compute in (x / 2 ^ 121) in change (x / 2 ^ 121) with v end.
  match goal with |- context [?x / 2 ^ 118] =>
    let v := eval vm_compute in (x / 2 ^ 118) in change (x / 2 ^ 118) with v end.
  match goal with |- context [?x / 2 ^ 120] =>
    let v := eval vm_compute in (x / 2 ^ 120) in change (x / 2 ^ 120) with v end.
  split; intros H; repeat destruct H as [H|H]; try done;
    repeat match type of H with _ ∧ _ => let H' := fresh in destruct H as [H H'] end;
    pick_case.
Qed.

(** ** IPv4 addresses inside IPv6 spellings *)

(** A field of the low [n] bits can be read off the low bits alone. *)
Lemma field_low a n k m : 0 <= k → 0 <= m → k + m <= n →
  (a / 2 ^ k) mod 2 ^ m = ((a mod 2 ^ n) / 2 ^ k) mod 2 ^ m.
Proof.
  intros Hk Hm Hn. rewrite <-!Z.shiftr_div_pow2, <-!Z.land_ones by lia.
  apply Z.bits_inj'. intros i Hi. rewrite !Z.land_spec, !Z.shiftr_spec, Z.land_spec by lia.
  rewrite !Z.testbit_ones by lia.
  destruct ((0 <=? i) && (i <? m)) eqn:E; [|by rewrite !andb_false_r].
  apply andb_true_iff in E as [E1 E2]. apply Z.leb_le in E1. apply Z.ltb_lt in E2.
  replace ((0 <=? i + k) && (i + k <? n)) with true by lia. by rewrite !andb_true_r.
Qed.

(** Four consecutive octets are the 32-bit field they span. *)
Lemma v4_new_field b :
  v4_new ((b / 2 ^ 24) mod 256) ((b / 2 ^ 16) mod 256) ((b / 2 ^ 8) mod 256) (b mod 256)
  = b mod 2 ^ 32.
Proof.
  pose proof (Z.mod_pos_bound b (2 ^ 32) ltac:(lia)) as Hb.
  rewrite <-(v4_octets_value (b mod 2 ^ 32)) at 1 by done.
  unfold v4_octets, v4_from_octets, from_groups, v4_new. cbn [fmap list_fmap foldl].
  rewrite !v4_octet_div by lia.
  change (8 * (3 - 0)) with 24. change (8 * (3 - 1)) with 16. change (8 * (3 - 2)) with 8.
  change (8 * (3 - 3)) with 0. change 256 with (2 ^ 8).
  rewrite <-!(field_low b 32) by lia. by rewrite Z.pow_0_r, Z.div_1_r.
Qed.

Lemma v6_octet_div a i : 0 <= i <= 15 → v6_octet a i = (a / 2 ^ (8 * (15 - i))) mod 256.
Proof.
  intros Hi. unfold v6_octet. rewrite Z.shiftr_div_pow2 by lia. apply (land_low _ 8). lia.
Qed.

(** The three spellings. *)
Definition mapped_of (v4 : Z) : Z := 0xffff * 2 ^ 32 + v4.
Definition nat64_of (v4 : Z) : Z := 0x64ff9b * 2 ^ 96 + v4.
Definition sixto4_of (v4 rest : Z) : Z := 0x2002 * 2 ^ 112 + v4 * 2 ^ 80 + rest.

Lemma nat64_prefix a : 0 <= a < 2 ^ 128 →
  take 6 (v6_segments a) = [0x0064; 0xff9b; 0; 0; 0; 0] ↔ a / 2 ^ 32 = 0x64ff9b * 2 ^ 64.
Proof.
  intros Ha. unfold v6_segments. cbn [fmap list_fmap take]. rewrite !v6_segment_div by lia.
  change (16 * (7 - 0)) with 112. change (16 * (7 - 1)) with 96. change (16 * (7 - 2)) with 80.
  change (16 * (7 - 3)) with 64. change (16 * (7 - 4)) with 48. change (16 * (7 - 5)) with 32.
  split.
  - intros [= H0 H1 H2 H3 H4 H5].
    rewrite <-(shift_in a 32 48), H5, <-(shift_in a 48 64), H4, <-(shift_in a 64 80), H3,
      <-(shift_in a 80 96), H2, <-(shift_in a 96 112), H1, <-(shift_in a 112 128), H0 by lia.
    by rewrite (Z.div_small a (2 ^ 128)).
  - intros H.
    assert (∀ k, 32 <= k → a / 2 ^ k = 0x64ff9b * 2 ^ 64 / 2 ^ (k - 32)) as Hk.
    { intros k Hk. rewrite <-H, Z.div_div by (try apply Z.pow_nonzero; lia).
      rewrite <-Z.pow_add_r by lia. do 2 f_equal. lia. }
    by rewrite !Hk by lia.
Qed.

Lemma nat64_embedded_iff a v4 : 0 <= a < 2 ^ 128 →
  nat64_embedded_v4 a = Some v4 ↔ 0 <= v4 < 2 ^ 32 ∧ a = nat64_of v4.
Proof.
  intros Ha. unfold nat64_embedded_v4.
  assert (v4_new (v6_octet a 12) (v6_octet a 13) (v6_octet a 14) (v6_octet a 15) = a mod 2 ^ 32)
    as ->.
  { rewrite !v6_octet_div by lia. change (8 * (15 - 15)) with 0. rewrite Z.pow_0_r, Z.div_1_r.
    apply v4_new_field. }
  pose proof (Z.div_mod a (2 ^ 32) ltac:(lia)) as Hd.
  pose proof (Z.mod_pos_bound a (2 ^ 32) ltac:(lia)) as Hr. unfold nat64_of. split.
  - case_bool_decide as H; [|done]. apply nat64_prefix in H; [|done]. intros [= <-].
    split; [done|]. rewrite Hd at 1. rewrite H. lia.
  - intros [Hv ->]. rewrite bool_decide_eq_true_2.
    + f_equal. replace (0x64ff9b * 2 ^ 96) with ((0x64ff9b * 2 ^ 64) * 2 ^ 32) by lia.
      rewrite Z.add_comm, Z.mod_add by lia. by apply Z.mod_small.
    + apply nat64_prefix; [done|].
      replace (0x64ff9b * 2 ^ 96) with ((0x64ff9b * 2 ^ 64) * 2 ^ 32) by lia.
      rewrite Z.div_add_l by lia. rewrite (Z.div_small v4) by done. lia.
Qed.

Lemma sixto4_embedded_iff a v4 : 0 <= a < 2 ^ 128 →
  sixto4_embedded_v4 a = Some v4 ↔
  0 <= v4 < 2 ^ 32 ∧ ∃ rest, 0 <= rest < 2 ^ 80 ∧ a = sixto4_of v4 rest.
Proof.
  intros Ha. unfold sixto4_embedded_v4.
  assert (v4_new (v6_octet a 2) (v6_octet a 3) (v6_octet a 4) (v6_octet a 5)
            = (a / 2 ^ 80) mod 2 ^ 32) as ->.
  { rewrite !v6_octet_div by lia. rewrite <-v4_new_field, !Z.div_div by lia.
    by rewrite <-!Z.pow_add_r by lia. }
  rewrite v6_segment_div by lia. change (16 * (7 - 0)) with 112.
  rewrite (Z.mod_small (a / 2 ^ 112))
    by (split; [apply Z.div_pos; lia|apply Z.div_lt_upper_bound; lia]).
  assert (a / 2 ^ 80 / 2 ^ 32 = a / 2 ^ 112) as Hdd by (by rewrite Z.div_div).
  pose proof (Z.div_mod a (2 ^ 80) ltac:(lia)) as Hd.
  pose proof (Z.mod_pos_bound a (2 ^ 80) ltac:(lia)) as Hr.
  pose proof (Z.div_mod (a / 2 ^ 80) (2 ^ 32) ltac:(lia)) as Hd2. unfold sixto4_of. split.
  - destruct (Z.eqb_spec (a / 2 ^ 112) 0x2002) as [E|]; [|done]. intros [= <-].
    split; [by apply Z.mod_pos_bound|]. exists (a mod 2 ^ 80). split; [done|]. lia.
  - intros (Hv & rest & Hrest & Ea). assert (a / 2 ^ 80 = 0x2002 * 2 ^ 32 + v4) as E80.
    { rewrite Ea. replace (0x2002 * 2 ^ 112) with (0x2002 * 2 ^ 32 * 2 ^ 80) by lia.
      rewrite <-Z.mul_add_distr_r, Z.div_add_l by lia. rewrite (Z.div_small rest) by done. lia. }
    rewrite <-Hdd, E80, Z.div_add_l, (Z.div_small v4) by lia. simpl.
    f_equal. rewrite Z.add_comm, Z.mod_add by lia. by apply Z.mod_small.
Qed.

Lemma mapped_iff a v4 : 0 <= a < 2 ^ 128 →
  to_ipv4_mapped a = Some v4 ↔ 0 <= v4 < 2 ^ 32 ∧ a = mapped_of v4.
Proof.
  intros Ha. split; [by apply mapped_value|]. unfold mapped_of, to_ipv4_mapped. intros [Hv ->].
  rewrite Z.shiftr_div_pow2, Z.div_add_l, (Z.div_small v4) by lia.
  change 0xffffffff with (2 ^ 32 - 1). rewrite land_low by lia.
  simpl. f_equal. change 281470681743360 with (65535 * 2 ^ 32).
  rewrite Z.add_comm, Z.mod_add by lia. by apply Z.mod_small.
Qed.

(** ** The classification *)

(** The documented protected space: an address is protected when it lies in a
    protected range of its family, or spells - IPv4-mapped, NAT64 well-known
    prefix, 6to4 gateway - an IPv4 address that does. *)
Definition protected_space (ip : IpAddr) : Prop :=
  match ip with
  | V4 a => in_ranges PROTECTED_V4 (V4 a)
  | V6 a =>
      in_ranges PROTECTED_V6 (V6 a) ∨
      ∃ v4, wf_ip (V4 v4) ∧ in_ranges PROTECTED_V4 (V4 v4) ∧
        (a = mapped_of v4 ∨ a = nat64_of v4 ∨ ∃ rest, 0 <= rest < 2 ^ 80 ∧ a = sixto4_of v4 rest)
  end.

(** The protected IPv6 ranges hold no IPv4-mapped address. *)
Lemma mapped_not_v6_protected a v4 : 0 <= a < 2 ^ 128 → to_ipv4_mapped a = Some v4 →
  ¬ in_ranges PROTECTED_V6 (V6 a) ∧ nat64_embedded_v4 a = None ∧ sixto4_embedded_v4 a = None.
Proof.
  intros Ha [Hv ->]%mapped_iff; [|done]. split_and!.
  - rewrite <-v6_protected_ranges by done. unfold v6_is_protected.
    destruct (v6_quotients (mapped_of v4) Ha) as (s & Bs & Hs & Ho & _).
    assert (s = 0) as ->.
    { rewrite <-Hs, v6_segment_div by lia. unfold mapped_of. rewrite Z.div_small; [done|].
      change (16 * (7 - 0)) with 112. lia. }
    unfold v6_is_loopback, v6_is_unspecified, v6_is_multicast, v6_is_unique_local,
      v6_is_unicast_link_local, mapped_of in *. rewrite Hs, Ho.
    rewrite !orb_true_iff, !Z.eqb_eq. rewrite !Z.land_0_l. change (0 / 256) with 0. lia.
  - destruct (nat64_embedded_v4 _) as [w|] eqn:E; [|done].
    apply nat64_embedded_iff in E as [Hw E]; [|done]. unfold mapped_of, nat64_of in E. lia.
  - destruct (sixto4_embedded_v4 _) as [w|] eqn:E; [|done].
    apply sixto4_embedded_iff in E as (Hw & rest & Hr & E); [|done].
    unfold mapped_of, sixto4_of in E. lia.
Qed.

Lemma embedded_protected (emb : option Z) :
  (∀ v4, emb = Some v4 → 0 <= v4 < 2 ^ 32) →
  is_some_and emb v4_is_protected = true ↔
  ∃ v4, emb = Some v4 ∧ in_ranges PROTECTED_V4 (V4 v4).
Proof.
  intros Hb. destruct emb as [v4|]; simpl.
  - rewrite v4_protected_ranges by auto. split; [eauto|]. by intros (? & [= <-] & ?).
  - split; [done|]. by intros (? & ? & _).
Qed.

Lemma endpoint_protected_spec ip :
  wf_ip ip → endpoint_is_protected ip = true ↔ protected_space ip.
Proof.
  destruct ip as [a|a]; intros Ha; unfold endpoint_is_protected, protected_space, to_canonical.
  { by apply v4_protected_ranges. }
  pose proof (λ v4, nat64_embedded_iff a v4 Ha) as H64.
  pose proof (λ v4, sixto4_embedded_iff a v4 Ha) as H6.
  pose proof (λ v4, mapped_iff a v4 Ha) as Hm.
  destruct (to_ipv4_mapped a) as [v4|] eqn:Em.
  - destruct (mapped_not_v6_protected a v4 Ha Em) as (N6 & N64 & N2).
    destruct (proj1 (Hm v4) eq_refl) as [Hv Ea]. rewrite v4_protected_ranges by done. split.
    + intros H. right. exists v4. auto.
    + intros [H|(w & Hw & H & [E|[E|(rest & Hr & E)]])]; [done|..].
      * assert (Some v4 = Some w) as [= <-] by (by apply Hm). done.
      * rewrite (proj2 (H64 w)) in N64; done.
      * rewrite (proj2 (H6 w)) in N2; [done|]. split; [done|eauto].
  - rewrite !orb_true_iff, v6_protected_ranges, !embedded_protected by
      (done || (intros v4 Hv; by apply H64 in Hv as []) || (intros v4 Hv; by apply H6 in Hv as [])).
    split.
    + intros [[H|(v4 & [Hv E]%H64 & H)]|(v4 & (Hv & E)%H6 & H)]; [by left|right..];
        exists v4; auto.
    + intros [H|(w & Hw & H & [E|[E|E]])]; [by auto|..].
      * by specialize (proj2 (Hm w) (conj Hw E)).
      * left; right. exists w. split; [by apply H64|done].
      * right. exists w. split; [by apply H6|done].
Qed.

(** [endpoint_is_protected] is exactly the documented protected space, on
    every spelling: an IPv6 address is protected iff it lies in a protected
    IPv6 range or spells, as IPv4-mapped, NAT64 or 6to4, an IPv4 address in a
    protected IPv4 range. *)
Lemma endpoint_is_protected_iff ip :
  wf_ip ip → endpoint_is_protected ip = true ↔ protected_space ip.
Proof. apply endpoint_protected_spec. Qed.

