(* ===== verification/HostMatch.v ===== *)
(** * HostMatch: host patterns

    Canonical hosts are fixed points, patterns match what their documentation
    says, and deny precedence prunes exactly the covered allows, plus the bare
    name under a wildcard deny. *)

From S2P Require Import Prelude Text IpAddr PolicyHost PolicyCidr ProtectedSpace.

(** ** Lengths *)

Lemma trim_end_matches_length c s : (String.length (trim_end_matches c s) ≤ String.length s)%nat.
Proof. induction s as [|a s IH]; simpl; [done|]. case_match; simpl; lia. Qed.

Lemma strip_any_length ws s r : strip_any ws s = Some r → (String.length r ≤ String.length s)%nat.
Proof.
  unfold strip_any. induction ws as [|w ws IH]; simpl; [done|].
  destruct (strip_prefix w s) eqn:E; [|done]. intros [= ->]. apply strip_prefix_length in E. lia.
Qed.

Lemma trim_start_length s : (String.length (trim_start s) ≤ String.length s)%nat.
Proof.
  unfold trim_start. assert (∀ n s, (String.length (trim_start_fuel n s) ≤ String.length s)%nat) as H; [|apply H]. clear s.
  intros n. induction n as [|n IH]; intros s; cbn [trim_start_fuel]; [lia|].
  destruct (strip_any WHITE_SPACE s) as [r|] eqn:E; [|lia].
  apply strip_any_length in E. specialize (IH r). lia.
Qed.

Lemma trim_end_length s : (String.length (trim_end s) ≤ String.length s)%nat.
Proof. induction s as [|a s IH]; cbn [trim_end]; case_match; simpl; lia. Qed.

Lemma trim_length s : (String.length (trim s) ≤ String.length s)%nat.
Proof.
  unfold trim. etransitivity; [apply trim_end_length|apply trim_start_length].
Qed.

Section idna.
Context (domain_to_ascii : string → option string).

(** More fuel than the length of the host changes nothing. *)
Lemma canonicalize_fuel_enough n : ∀ m host,
  (String.length host ≤ n)%nat → (String.length host ≤ m)%nat →
  canonicalize_fuel domain_to_ascii n host = canonicalize_fuel domain_to_ascii m host.
Proof.
  induction n as [|n IH]; intros m host Hn Hm; destruct m as [|m]; cbn [canonicalize_fuel].
  all: destruct (strip_prefix "*." (trim_end_matches "." (trim host))) as [suffix|] eqn:E; [|done].
  all: apply strip_prefix_length in E;
    pose proof (trim_end_matches_length "." (trim host)); pose proof (trim_length host);
    simpl in E; try lia.
  f_equal. apply IH; lia.
Qed.

(** The fuel suffices: [canonicalize_policy_host] satisfies its recursion. *)
Lemma canonicalize_policy_host_eq host :
  canonicalize_policy_host domain_to_ascii host =
  let trimmed := trim_end_matches "." (trim host) in
  match strip_prefix "*." trimmed with
  | Some suffix => "*." +:+ canonicalize_policy_host domain_to_ascii suffix
  | None =>
      if is_ascii trimmed then canonical_or_lower trimmed
      else match domain_to_ascii trimmed with
           | Some name =>
               default (to_ascii_lowercase name) (canonicalize_url_host (trim_end_matches "." name))
           | None => to_ascii_lowercase trimmed
           end
  end.
Proof.
  unfold canonicalize_policy_host. cbn zeta.
  destruct (strip_prefix "*." (trim_end_matches "." (trim host))) as [suffix|] eqn:E.
  - pose proof (strip_prefix_length _ _ _ E) as Hl. simpl in Hl.
    pose proof (trim_end_matches_length "." (trim host)). pose proof (trim_length host).
    destruct (String.length host) as [|n] eqn:En; [lia|]. cbn [canonicalize_fuel]. rewrite E.
    f_equal. apply canonicalize_fuel_enough; lia.
  - destruct (String.length host); cbn [canonicalize_fuel]; rewrite E;
      by destruct (is_ascii _).
Qed.
End idna.

(** ** WHATWG numbers and printed octets *)

Lemma split_no_sep c s : contains c s = false → split c s = [s].
Proof.
  unfold contains, str_any. rewrite negb_false_iff.
  induction s as [|a s IH]; [done|]. cbn -[Ascii.eqb]. intros [Ha Hs]%andb_true_iff.
  apply negb_true_iff in Ha. rewrite Ascii.eqb_sym in Ha. by rewrite Ha, IH.
Qed.

Lemma split_app c s t : contains c s = false → split c (s +:+ (String c "" +:+ t)) = s :: split c t.
Proof.
  unfold contains, str_any. rewrite negb_false_iff.
  induction s as [|a s IH]; intros Hs.
  - simpl. by rewrite Ascii.eqb_refl.
  - rewrite app_cons_string. cbn -[Ascii.eqb] in *. apply andb_true_iff in Hs as [Ha Hs].
    apply negb_true_iff in Ha. rewrite Ascii.eqb_sym in Ha. by rewrite Ha, IH.
Qed.

(** The parts of a dotted quad. *)
Lemma split_show_v4 a : split "." (show_v4 a) = show_dec <$> v4_octets a.
Proof.
  assert (∀ i, 0 <= i <= 3 → contains "." (show_dec (v4_octet a i)) = false) as Hd.
  { intros i Hi. apply (contains_outside is_ascii_digit); [done|]. apply show_dec_shape.
    apply v4_octet_bound; lia. }
  unfold show_v4. rewrite !split_app by (apply Hd; lia). by rewrite split_no_sep by (apply Hd; lia).
Qed.

(** A printed number is neither empty nor hexadecimal nor octal. *)
Lemma parse_ipv4_number_show n : 0 <= n <= U64_MAX → parse_ipv4_number (show_dec n) = Some n.
Proof.
  intros Hn. unfold parse_ipv4_number. destruct (show_dec_shape n ltac:(lia)) as [He Hd].
  rewrite He. assert (∀ p, p = "0x" ∨ p = "0X" → strip_prefix p (show_dec n) = None) as Hx.
  { intros p Hp. destruct (strip_prefix p (show_dec n)) as [r|] eqn:E; [|done].
    apply strip_prefix_app in E. rewrite E in Hd. destruct Hp as [-> | ->]; simpl in Hd; done. }
  unfold strip_0x. rewrite !Hx by auto. rewrite Hd. simpl.
  assert ((1 <? String.length (show_dec n))%nat && starts_with "0" (show_dec n) = false) as ->.
  { destruct (decide (n = 0)) as [->|]; [done|]. unfold show_dec.
    rewrite digits_head; [by rewrite andb_false_r|]. unfold U64_MAX in Hn. simpl. lia. }
  apply from_str_radix_show; [done|]. unfold U64_MAX in Hn. lia.
Qed.

Lemma mapM_show ns : Forall (λ n, 0 <= n <= U64_MAX) ns →
  mapM parse_ipv4_number (show_dec <$> ns) = Some ns.
Proof.
  induction 1 as [|n ns Hn _ IH]; [done|]. cbn [fmap list_fmap]. cbn [mapM].
  rewrite parse_ipv4_number_show by done. cbn. cbn in IH. by rewrite IH.
Qed.

Lemma parse_ipv4_whatwg_show a : 0 <= a < 2 ^ 32 → parse_ipv4_whatwg (show_v4 a) = Some a.
Proof.
  intros Ha. unfold parse_ipv4_whatwg. rewrite split_show_v4.
  pose proof (v4_octet_bound a 0 ltac:(lia)). pose proof (v4_octet_bound a 1 ltac:(lia)).
  pose proof (v4_octet_bound a 2 ltac:(lia)). pose proof (v4_octet_bound a 3 ltac:(lia)).
  pose proof (v4_octets_value a Ha) as Hv. unfold v4_octets in *.
  assert (Forall (λ n, 0 <= n <= U64_MAX) (v4_octet a <$> [0; 1; 2; 3])) as Hf.
  { repeat constructor; unfold U64_MAX; lia. }
  assert (∀ i, 0 <= v4_octet a i → is_empty (show_dec (v4_octet a i)) = false) as He.
  { intros i Hi. by apply show_dec_shape. }
  pose proof (mapM_show _ Hf) as Hm. cbn [fmap list_fmap] in *.
  cbn [length last is_some_and Nat.ltb Nat.leb Nat.eqb orb existsb].
  rewrite !He by lia. cbn [andb orb]. rewrite Hm.
  cbn [length removelast existsb last]. 
  replace (255 <? v4_octet a 0) with false by lia. replace (255 <? v4_octet a 1) with false by lia.
  replace (255 <? v4_octet a 2) with false by lia. cbn [orb].
  change (256 ^ (5 - Z.of_nat 4)) with 256. replace (256 <=? v4_octet a 3) with false by lia.
  rewrite !He by lia. cbn [orb Nat.eqb].
  f_equal. unfold v4_from_octets, from_groups in Hv. cbn [foldl] in Hv.
  cbn [fold_parts]. change (256 ^ (3 - 0)) with 16777216. change (256 ^ (3 - (0 + 1))) with 65536.
  change (256 ^ (3 - (0 + 1 + 1))) with 256. rewrite Z.mod_small by lia. lia.
Qed.

Lemma parse_ipv4_whatwg_range s a : parse_ipv4_whatwg s = Some a → 0 <= a < 2 ^ 32.
Proof.
  unfold parse_ipv4_whatwg. intros H. repeat case_match; simplify_eq; by apply Z.mod_pos_bound.
Qed.

(** ** Lowercasing *)

Lemma lower_idem c : lower (lower c) = lower c.
Proof. each_char c. Qed.
Lemma lower_ascii c : is_ascii_char (lower c) = is_ascii_char c.
Proof. each_char c. Qed.
Lemma lower_digit c : is_ascii_digit (lower c) = is_ascii_digit c.
Proof. each_char c. Qed.
Lemma lower_hexdigit c : is_ascii_hexdigit (lower c) = is_ascii_hexdigit c.
Proof. each_char c. Qed.
Lemma lower_dot c : Ascii.eqb (lower c) "." = Ascii.eqb c ".".
Proof. each_char c. Qed.
Lemma lower_colon c : Ascii.eqb ":" (lower c) = Ascii.eqb ":" c.
Proof. each_char c. Qed.
Lemma lower_bracket c : Ascii.eqb "[" (lower c) = Ascii.eqb "[" c.
Proof. each_char c. Qed.
Lemma lower_zero c : Ascii.eqb "0" (lower c) = Ascii.eqb "0" c.
Proof. each_char c. Qed.
Lemma lower_x c : Ascii.eqb "x" (lower c) = Ascii.eqb "x" c || Ascii.eqb "X" c.
Proof. each_char c. Qed.
Lemma lower_big_x c : Ascii.eqb "X" (lower c) = false.
Proof. each_char c. Qed.

Lemma lowercase_idem s : to_ascii_lowercase (to_ascii_lowercase s) = to_ascii_lowercase s.
Proof. unfold to_ascii_lowercase. induction s as [|c s IH]; simpl; [done|]. by rewrite lower_idem, IH. Qed.

Lemma lowercase_all p s : (∀ c, p (lower c) = p c) → str_all p (to_ascii_lowercase s) = str_all p s.
Proof. intros Hp. unfold to_ascii_lowercase. induction s as [|c s IH]; simpl; [done|]. by rewrite Hp, IH. Qed.

Lemma lowercase_empty s : is_empty (to_ascii_lowercase s) = is_empty s.
Proof. by destruct s. Qed.

Lemma lowercase_contains_colon s : contains ":" (to_ascii_lowercase s) = contains ":" s.
Proof. unfold contains, str_any. f_equal. apply lowercase_all. intros c. by rewrite lower_colon. Qed.

Lemma lowercase_trim s :
  trim_end_matches "." (to_ascii_lowercase s) = to_ascii_lowercase (trim_end_matches "." s).
Proof.
  unfold to_ascii_lowercase. induction s as [|c s IH]; simpl; [done|]. rewrite IH.
  rewrite lower_dot. destruct (trim_end_matches "." s); simpl; by destruct (Ascii.eqb c "."%char).
Qed.

Lemma lowercase_split s : split "." (to_ascii_lowercase s) = to_ascii_lowercase <$> split "." s.
Proof.
  unfold to_ascii_lowercase. induction s as [|c s IH]; [done|]. cbn [str_map split].
  rewrite lower_dot, IH. destruct (Ascii.eqb c "."); [done|]. by destruct (split "." s).
Qed.

Lemma find_fmap_label l :
  List.find (λ p, negb (is_empty p)) (to_ascii_lowercase <$> l) =
  to_ascii_lowercase <$> List.find (λ p, negb (is_empty p)) l.
Proof.
  induction l as [|x l IH]; simpl; [done|]. rewrite lowercase_empty. by destruct (negb (is_empty x)).
Qed.

Lemma lowercase_last_label s : last_label (to_ascii_lowercase s) = to_ascii_lowercase (last_label s).
Proof.
  unfold last_label. rewrite lowercase_split, <-fmap_reverse, find_fmap_label.
  by destruct (List.find _ _).
Qed.

Lemma lowercase_strip_0x s :
  strip_0x (to_ascii_lowercase s) = to_ascii_lowercase <$> strip_0x s.
Proof.
  unfold strip_0x, to_ascii_lowercase. destruct s as [|a [|b s]]; cbn [str_map strip_prefix].
  - done.
  - by repeat case_match.
  - rewrite lower_zero, lower_x, lower_big_x. destruct (Ascii.eqb "0" a); [|done].
    destruct (Ascii.eqb "x" b); cbn [orb]; [done|]. by destruct (Ascii.eqb "X" b).
Qed.

Lemma lowercase_ends_in_number s :
  host_ends_in_number (to_ascii_lowercase s) = host_ends_in_number s.
Proof.
  unfold host_ends_in_number. rewrite lowercase_last_label, lowercase_empty.
  destruct (is_empty (last_label s)); [done|].
  rewrite (lowercase_all is_ascii_digit) by apply lower_digit. f_equal.
  rewrite lowercase_strip_0x. destruct (strip_0x (last_label s)); [|done]. simpl.
  apply lowercase_all, lower_hexdigit.
Qed.

(** ** Trailing dots *)

Lemma trim_end_idem c s : trim_end_matches c (trim_end_matches c s) = trim_end_matches c s.
Proof.
  induction s as [|a s IH]; simpl; [done|].
  destruct (is_empty (trim_end_matches c s) && Ascii.eqb a c) eqn:E; [done|]. simpl. by rewrite IH, E.
Qed.

Lemma trim_end_none c s : contains c s = false → trim_end_matches c s = s.
Proof.
  unfold contains, str_any. rewrite negb_false_iff.
  induction s as [|a s IH]; [done|]. cbn -[Ascii.eqb]. intros [Ha Hs]%andb_true_iff.
  rewrite IH by done. apply negb_true_iff in Ha. rewrite Ascii.eqb_sym in Ha.
  by rewrite Ha, andb_false_r.
Qed.

Lemma trim_end_app c s t : trim_end_matches c t = t → t ≠ "" →
  trim_end_matches c (s +:+ t) = s +:+ t.
Proof.
  intros Ht Hne. induction s as [|a s IH]; [done|]. rewrite app_cons_string. cbn [trim_end_matches].
  rewrite IH. destruct s as [|b s]; [|done]. by destruct t.
Qed.

Lemma trim_end_show_v4 a : trim_end_matches "." (show_v4 a) = show_v4 a.
Proof.
  unfold show_v4. rewrite <-!app_assoc_string.
  pose proof (v4_octet_bound a 3 ltac:(lia)) as Hb.
  destruct (show_dec_shape (v4_octet a 3) ltac:(lia)) as [He Hd].
  apply trim_end_app.
  - apply trim_end_none. by apply (contains_outside is_ascii_digit).
  - intros H. by rewrite H in He.
Qed.

Lemma show_v6_no_dot a : to_ipv4_mapped a = None → contains "." (show_v6 a) = false.
Proof.
  intros Hm. unfold show_v6. rewrite Hm. destruct (longest_zeroes _ _ _ _) as [start len].
  assert (∀ gs, Forall group gs → contains "." (show_segments gs) = false) as Hs.
  { intros [|g gs]; [done|]. rewrite show_segments_cons. revert g. unfold contains, str_any.
    setoid_rewrite negb_false_iff. setoid_rewrite str_all_app. setoid_rewrite andb_true_iff.
    induction gs as [|g' gs IH]; intros g [Hg Hgs]%Forall_cons.
    - split; [|done]. apply negb_false_iff. apply digits_no_dot; [apply Hg|done].
    - split; [apply negb_false_iff, digits_no_dot; [apply Hg|done]|].
      cbn [show_tail]. rewrite !str_all_app, !andb_true_iff. split; [done|]. by apply IH. }
  assert (∀ s t, contains "." (s +:+ t) = contains "." s || contains "." t) as Happ.
  { intros s t. unfold contains, str_any. by rewrite str_all_app, negb_andb. }
  destruct (1 <? len)%nat; rewrite ?Happ, ?Hs; try done;
    auto using Forall_take, Forall_drop, v6_segments_group.
Qed.

(** ** The fixed point *)

Lemma addr_char_ascii c : addr_char c = true → is_ascii_char c = true.
Proof. each_char c. Qed.

Lemma addr_not_bracket s : str_all addr_char s = true → unbracket s = s.
Proof.
  unfold unbracket. destruct s as [|c s]; [done|]. cbn [str_all strip_prefix].
  intros [Hc _]%andb_true_iff. destruct (Ascii.eqb_spec "[" c) as [<-|]; done.
Qed.

Lemma canonical_v4 a : 0 <= a < 2 ^ 32 → canonicalize_url_host (show_v4 a) = Some (show_v4 a).
Proof.
  intros Ha. unfold canonicalize_url_host. rewrite trim_end_show_v4.
  pose proof (show_v4_chars a) as Hc. pose proof (show_dec_shape (v4_octet a 0)
    ltac:(apply v4_octet_bound; lia)) as [He0 _].
  assert (is_empty (show_v4 a) = false) as ->.
  { unfold show_v4. by destruct (show_dec (v4_octet a 0)). }
  assert (is_ascii (show_v4 a) = true) as ->.
  { eapply str_all_impl; [apply addr_char_ascii|done]. }
  rewrite addr_not_bracket by done. cbn [orb negb].
  assert (∀ i, 0 <= i <= 3 → str_all is_ascii_digit (show_dec (v4_octet a i)) = true ∧
                is_empty (show_dec (v4_octet a i)) = false) as Hd.
  { intros i Hi. pose proof (v4_octet_bound a i Hi).
    destruct (show_dec_shape (v4_octet a i)); [lia|done]. }
  assert (contains ":" (show_v4 a) = false) as ->.
  { unfold contains, str_any, show_v4. rewrite negb_false_iff, !str_all_app, !andb_true_iff.
    assert (∀ i, 0 <= i <= 3 →
      str_all (λ c, negb (Ascii.eqb ":" c)) (show_dec (v4_octet a i)) = true) as Hn.
    { intros i Hi. eapply str_all_impl; [|apply (Hd i Hi)]. intros c. each_char c. }
    split_and!; try done; apply Hn; lia. }
  assert (host_ends_in_number (show_v4 a) = true) as ->.
  { unfold host_ends_in_number, last_label. rewrite split_show_v4. unfold v4_octets.
    cbn [fmap list_fmap]. cbn [reverse rev_append List.find].
    destruct (Hd 3 ltac:(lia)) as [H1 H2]. rewrite H2. cbn [negb default from_option id]. rewrite H2, H1. done. }
  by rewrite parse_ipv4_whatwg_show.
Qed.

Lemma canonical_v6 a : 0 <= a < 2 ^ 128 → to_ipv4_mapped a = None →
  canonicalize_url_host (show_v6 a) = Some (show_v6 a).
Proof.
  intros Ha Hm. unfold canonicalize_url_host.
  rewrite trim_end_none by (by apply show_v6_no_dot).
  pose proof (show_ip_chars (V6 a)) as Hc. cbn [show_ip] in Hc.
  pose proof (parse_show_v6 a Ha) as Hp.
  assert (is_empty (show_v6 a) = false) as ->.
  { destruct (show_v6 a); [done|done]. }
  assert (is_ascii (show_v6 a) = true) as -> by (eapply str_all_impl; [apply addr_char_ascii|done]).
  rewrite addr_not_bracket by done. cbn [orb negb].
  assert (contains ":" (show_v6 a) = true) as ->.
  { unfold show_v6. rewrite Hm. destruct (longest_zeroes _ _ _ _) as [start len].
    unfold contains, str_any. rewrite negb_true_iff.
    set (f := λ c, negb (Ascii.eqb ":" c)).
    assert (str_all f ":" = false) as H1 by reflexivity.
    assert (str_all f "::" = false) as H2 by reflexivity.
    destruct (1 <? len)%nat; [rewrite !str_all_app, H2; apply andb_false_r|].
    unfold v6_segments. cbn [fmap list_fmap show_segments].
    rewrite str_all_app, str_all_app, H1. apply andb_false_r. }
  by rewrite Hp, Hm.
Qed.

Lemma trim_not_bracket h : starts_with "[" h = false →
  unbracket (trim_end_matches "." h) = trim_end_matches "." h ∧
  unbracket (to_ascii_lowercase (trim_end_matches "." h)) = to_ascii_lowercase (trim_end_matches "." h).
Proof.
  unfold starts_with, unbracket. destruct h as [|c h]; [done|]. cbn [strip_prefix trim_end_matches].
  destruct (Ascii.eqb "[" c) eqn:E; [done|]. intros _.
  destruct (_ && _); [done|]. unfold to_ascii_lowercase. cbn [strip_prefix str_map].
  rewrite lower_bracket, E. done.
Qed.

(** The canonical identity of a host is a fixed point: folding an
    unbracketed host - a DNS name, a WHATWG IPv4 spelling or an IPv6 literal -
    yields a spelling that folds to itself, so a rule and the host it names
    compare equal however often either was normalized. *)
Lemma canonicalize_url_host_idempotent h c :
  starts_with "[" h = false →
  canonicalize_url_host h = Some c → canonicalize_url_host c = Some c.
Proof.
  intros Hb. unfold canonicalize_url_host at 1. destruct (trim_not_bracket h Hb) as [Hu Hul].
  pose proof (trim_end_idem "." h) as Htr.
  set (t := trim_end_matches "." h) in *.
  destruct (is_empty t) eqn:He; [done|]. destruct (is_ascii t) eqn:Ha; [|done]. cbn [orb negb].
  rewrite Hu. destruct (contains ":" t) eqn:Hc.
  - unfold parse_ipv6, parse_with. destruct (read_ipv6_addr t) as [[a [|]]|] eqn:Er; [|done..].
    apply read_ipv6_range in Er. intros H%(inj Some). subst c. destruct (to_ipv4_mapped a) as [v4|] eqn:Em.
    + apply canonical_v4. by apply mapped_value in Em as [].
    + by apply canonical_v6.
  - destruct (host_ends_in_number t) eqn:Hn.
    + destruct (parse_ipv4_whatwg t) as [a|] eqn:Ep; [|done]. intros H%(inj Some). subst c.
      apply canonical_v4. by eapply parse_ipv4_whatwg_range.
    + intros [= <-]. unfold canonicalize_url_host.
      rewrite lowercase_trim, Htr, lowercase_empty, He, Hul, lowercase_contains_colon, Hc,
        lowercase_ends_in_number, Hn, lowercase_idem.
      unfold is_ascii. rewrite lowercase_all by apply lower_ascii. fold (is_ascii t). by rewrite Ha.
Qed.

(** The characters of a canonical DNS name. *)
Definition name_char (c : ascii) : bool :=
  is_ascii_digit c || in_range 97 122 c || one_of ["-"; "_"; "."]%char c.

(** A canonical DNS name: lower-case labels, no dot at either end, and not the
    spelling of an IPv4 number. *)
Definition plain_name (d : string) : Prop :=
  d ≠ "" ∧ str_all name_char d = true ∧ starts_with "." d = false ∧
  trim_end_matches "." d = d ∧ host_ends_in_number d = false.

Lemma name_char_graphic c : name_char c = true → graphic c = true.
Proof. each_char c. Qed.
Lemma name_char_ascii c : name_char c = true → is_ascii_char c = true.
Proof. each_char c. Qed.
Lemma name_char_lower c : name_char c = true → lower c = c.
Proof. each_char c. Qed.

Lemma lowercase_name s : str_all name_char s = true → to_ascii_lowercase s = s.
Proof.
  unfold to_ascii_lowercase. induction s as [|c s IH]; [done|]. cbn [str_all str_map].
  intros [Hc Hs]%andb_true_iff. by rewrite name_char_lower, IH.
Qed.

Lemma name_no_prefix c p s : name_char c = false → str_all name_char s = true →
  strip_prefix (String c p) s = None.
Proof.
  intros Hc. destruct s as [|a s]; [done|]. cbn [strip_prefix str_all]. intros [Ha _]%andb_true_iff.
  destruct (Ascii.eqb_spec c a) as [->|]; [congruence|done].
Qed.

Lemma split_once_str_outside c p s : name_char c = false → str_all name_char s = true →
  split_once_str (String c p) s = None.
Proof.
  intros Hc. induction s as [|a s IH]; intros Hs; cbn [split_once_str];
    rewrite name_no_prefix by done; [done|].
  cbn [str_all] in Hs. apply andb_true_iff in Hs as [_ Hs]. by rewrite IH.
Qed.

Lemma rsplit_once_outside c s : contains c s = false → rsplit_once c s = None.
Proof.
  unfold contains, str_any. rewrite negb_false_iff. induction s as [|a s IH]; [done|].
  cbn -[Ascii.eqb]. intros [Ha Hs]%andb_true_iff. rewrite IH by done.
  apply negb_true_iff in Ha. rewrite Ascii.eqb_sym in Ha. by rewrite Ha.
Qed.

Lemma str_filter_name s : str_all name_char s = true →
  str_filter (λ c, negb (one_of (ascii_of_nat <$> [9; 13; 10]%nat) c)) s = s.
Proof.
  induction s as [|c s IH]; [done|]. cbn [str_all str_filter]. intros [Hc Hs]%andb_true_iff.
  rewrite IH by done. assert (one_of (ascii_of_nat <$> [9; 13; 10]%nat) c = false) as ->; [|done].
  revert Hc. each_char c.
Qed.

(** ** Suffixes *)

Lemma strip_suffix_self p : strip_suffix p p = Some "".
Proof. destruct p; cbn [strip_suffix]; by rewrite bool_decide_eq_true_2. Qed.

Lemma ends_with_iff p s : ends_with p s = true ↔ ∃ r, s = r +:+ p.
Proof.
  unfold ends_with. rewrite bool_decide_eq_true. split.
  - intros [r H]. exists r. revert r H. induction s as [|c s IH]; intros r; cbn [strip_suffix];
      case_bool_decide as Hp; try (by intros [= <-]).
    destruct (strip_suffix p s) as [r'|]; [|done]. intros [= <-].
    by rewrite app_cons_string, <-(IH r').
  - intros [r ->]. induction r as [|c r IH]; [by rewrite strip_suffix_self|].
    rewrite app_cons_string. cbn [strip_suffix]. case_bool_decide; [done|].
    destruct IH as [r' ->]. done.
Qed.

(** A suffix of a name with one more label. *)
Lemma cons_label_suffix (c : ascii) d e r : c ≠ "."%char →
  String c (String "." d) = r +:+ "." +:+ e → d = e ∨ ∃ r', d = r' +:+ "." +:+ e.
Proof.
  intros Hc. destruct r as [|a [|b r]]; intros H.
  - by injection H as -> _.
  - injection H as _ ->. by left.
  - injection H as _ _ ->. right. by exists r.
Qed.

Lemma find_app_snoc {A} (p : A → bool) l x :
  List.find p (l ++ [x]) = match List.find p l with
                           | Some y => Some y
                           | None => if p x then Some x else None
                           end.
Proof. induction l as [|y l IH]; simpl; [done|]. by destruct (p y). Qed.

Lemma plain_label c d : plain_name d → name_char c = true → is_ascii_digit c = false → c ≠ "."%char →
  plain_name (String c (String "." d)).
Proof.
  intros (Hne & Hc & Hs & Ht & Hn) Hcc Hcd Hdot. split_and!; [done| | | |].
  - cbn [str_all]. by rewrite Hcc, Hc.
  - unfold starts_with. cbn [strip_prefix]. destruct (Ascii.eqb_spec "." c) as [<-|]; [done|].
    apply bool_decide_eq_false. by intros [].
  - by apply (trim_end_app "." (String c "." ) d).
  - unfold host_ends_in_number, last_label in *.
    change (String c (String "." d)) with (String c "" +:+ (String "." "" +:+ d)).
    rewrite split_app.
    2: { unfold contains, str_any. cbn [str_all]. destruct (Ascii.eqb_spec "." c) as [<-|]; done. }
    rewrite reverse_cons, find_app_snoc. destruct (List.find _ (reverse (split "." d))); [done|].
    cbn [is_empty negb]. change (default "" (Some (String c ""))) with (String c "").
    cbn [is_empty str_all]. rewrite Hcd. cbn [andb orb].
    unfold strip_0x. cbn [strip_prefix]. by repeat case_match.
Qed.

Section plain.
Context (domain_to_ascii : string → option string).
Notation canonicalize_policy_host := (canonicalize_policy_host domain_to_ascii).
Notation host_matches := (host_matches domain_to_ascii).
Notation host_covered_by_deny := (host_covered_by_deny domain_to_ascii).

Lemma plain_url_host d : plain_name d → canonicalize_url_host d = Some d.
Proof.
  intros (Hne & Hc & _ & Ht & Hn). unfold canonicalize_url_host. rewrite Ht.
  assert (is_empty d = false) as -> by (by destruct d).
  assert (is_ascii d = true) as -> by (eapply str_all_impl; [apply name_char_ascii|done]).
  assert (unbracket d = d) as -> by (unfold unbracket; by rewrite name_no_prefix).
  rewrite (contains_outside name_char) by done. rewrite Hn, lowercase_name by done. done.
Qed.

Lemma plain_trim d : plain_name d → trim d = d.
Proof.
  intros (_ & Hc & _). apply trim_graphic. eapply str_all_impl; [apply name_char_graphic|done].
Qed.

Lemma plain_canonical d : plain_name d → canonicalize_policy_host d = d.
Proof.
  intros Hd. pose proof Hd as (Hne & Hc & _ & Ht & Hn). rewrite canonicalize_policy_host_eq.
  cbv zeta. rewrite plain_trim, Ht, name_no_prefix by done.
  assert (is_ascii d = true) as -> by (eapply str_all_impl; [apply name_char_ascii|done]).
  unfold canonical_or_lower. by rewrite plain_url_host.
Qed.

Lemma plain_normal d : plain_name d → normalize_policy_host d = d.
Proof.
  intros Hd. pose proof Hd as (Hne & Hc & _ & Ht & Hn).
  unfold normalize_policy_host, analyze_policy_host, starts_with. rewrite name_no_prefix by done.
  rewrite (bool_decide_eq_false_2 (d = "*")) by (intros ->; done).
  rewrite (bool_decide_eq_false_2 (is_Some None)) by (by intros []). cbn [orb].
  assert (extract_host_and_port_from_url d = None) as ->.
  { unfold extract_host_and_port_from_url. rewrite str_filter_name by done.
    by rewrite split_once_str_outside, name_no_prefix. }
  unfold bracketed_host. rewrite name_no_prefix by done.
  unfold host_with_port. rewrite rsplit_once_outside by (by apply (contains_outside name_char)).
  unfold canonical_or_lower. by rewrite plain_url_host.
Qed.

Lemma wild_canonical d : plain_name d → canonicalize_policy_host ("*." +:+ d) = "*." +:+ d.
Proof.
  intros Hd. pose proof Hd as (Hne & Hc & _ & Ht & Hn). rewrite canonicalize_policy_host_eq. cbv zeta.
  rewrite trim_graphic.
  2: { rewrite str_all_app. change (str_all graphic "*.") with true. cbn [andb].
       eapply str_all_impl; [apply name_char_graphic|done]. }
  rewrite trim_end_app by done.
  destruct (strip_prefix "*." ("*." +:+ d)) as [s|] eqn:E.
  - apply strip_prefix_app in E. assert (d = s) as <- by (by injection E). by rewrite plain_canonical.
  - assert (strip_prefix "*." ("*." +:+ d) = Some d) as E'; [by apply strip_prefix_app|congruence].
Qed.

Lemma wild_normal d : normalize_policy_host ("*." +:+ d) = "*." +:+ d.
Proof.
  unfold normalize_policy_host, analyze_policy_host.
  assert (starts_with "*." ("*." +:+ d) = true) as ->; [|by rewrite orb_true_r].
  unfold starts_with. apply bool_decide_eq_true. exists d. by apply strip_prefix_app.
Qed.

Lemma plain_not_wild d : plain_name d → d ≠ "*" ∧ strip_prefix "*." d = None.
Proof. intros (_ & Hc & _). split; [by intros ->|by apply name_no_prefix]. Qed.

Lemma any_canonical : canonicalize_policy_host "*" = "*".
Proof. rewrite canonicalize_policy_host_eq. by vm_compute. Qed.

(** ** Patterns *)

Lemma matches_any h : host_matches h "*" = true.
Proof. unfold PolicyHost.host_matches. rewrite any_canonical. by rewrite bool_decide_eq_true_2. Qed.

Lemma matches_name h d : plain_name h → plain_name d → host_matches h d = true ↔ h = d.
Proof.
  intros Hh Hd. destruct (plain_not_wild d Hd) as [Hs Hw]. unfold PolicyHost.host_matches.
  rewrite !(plain_canonical d), !(plain_normal d), !(plain_canonical d) by done.
  rewrite (plain_normal h), (plain_canonical h) by done.
  rewrite bool_decide_eq_false_2 by done. case_bool_decide as E; [done|]. by rewrite Hw.
Qed.

Lemma matches_wild h d : plain_name h → plain_name d →
  host_matches h ("*." +:+ d) = true ↔ ∃ p, h = p +:+ "." +:+ d.
Proof.
  intros Hh Hd. destruct (plain_not_wild h Hh) as [_ Hw]. unfold PolicyHost.host_matches.
  rewrite !wild_canonical, wild_normal, wild_canonical by done.
  rewrite (plain_normal h), (plain_canonical h) by done.
  rewrite bool_decide_eq_false_2 by (by destruct d).
  rewrite bool_decide_eq_false_2.
  2: { intros ->. assert (strip_prefix "*." ("*." +:+ d) = Some d); [by apply strip_prefix_app|congruence]. }
  assert (strip_prefix "*." ("*." +:+ d) = Some d) as ->; [by apply strip_prefix_app|].
  apply ends_with_iff.
Qed.

(** A pattern matches what its documentation says, on every DNS name in
    canonical form: [*] matches all, a name matches itself only, and a
    wildcard matches the names with at least one label more, never the bare
    name. *)
Lemma host_matches_semantics h d : plain_name h → plain_name d →
  host_matches h "*" = true ∧ (host_matches h d = true ↔ h = d) ∧
  (host_matches h ("*." +:+ d) = true ↔ ∃ p, p ≠ "" ∧ h = p +:+ "." +:+ d) ∧
  host_matches d ("*." +:+ d) = false.
Proof.
  intros Hh Hd. split_and!; [apply matches_any|by apply matches_name| |].
  - rewrite matches_wild by done. split; [|naive_solver]. intros [p ->]. exists p. split; [|done].
    intros ->. destruct Hh as (_ & _ & Hs & _). done.
  - apply not_true_iff_false. rewrite matches_wild by done. intros [p H].
    apply (f_equal String.length) in H. rewrite !length_app_string in H. simpl in H. lia.
Qed.

(** ** Pruning under a deny *)

Inductive host_pattern : string → Prop :=
  | HpAny : host_pattern "*"
  | HpName d : plain_name d → host_pattern d
  | HpWild d : plain_name d → host_pattern ("*." +:+ d).

Lemma pattern_canonical a : host_pattern a → canonicalize_policy_host a = a.
Proof.
  destruct 1; [apply any_canonical|by apply plain_canonical|by apply wild_canonical].
Qed.

Lemma covered_any a : host_covered_by_deny a "*" = true.
Proof. unfold PolicyHost.host_covered_by_deny. rewrite any_canonical. by rewrite bool_decide_eq_true_2. Qed.

Lemma covered_name a d : host_pattern a → plain_name d → host_covered_by_deny a d = true ↔ a = d.
Proof.
  intros Ha Hd. destruct (plain_not_wild d Hd) as [Hs Hw]. unfold PolicyHost.host_covered_by_deny.
  rewrite plain_canonical, pattern_canonical, Hw by done. rewrite bool_decide_eq_false_2 by done.
  cbn [orb]. by case_bool_decide.
Qed.

Lemma covered_wild a d : host_pattern a → plain_name d →
  host_covered_by_deny a ("*." +:+ d) = true ↔ a = d ∨ ∃ r, a = r +:+ "." +:+ d.
Proof.
  intros Ha Hd. unfold PolicyHost.host_covered_by_deny.
  rewrite wild_canonical, pattern_canonical by done.
  rewrite bool_decide_eq_false_2 by (by destruct d). cbn [orb].
  assert (strip_prefix "*." ("*." +:+ d) = Some d) as ->; [by apply strip_prefix_app|].
  case_bool_decide as E; [|rewrite orb_true_iff, bool_decide_eq_true, ends_with_iff; done].
  split; [|done]. intros _. right. exists "*". by rewrite E.
Qed.

(** A name that no other name or wildcard reaches, for every pattern. *)
Lemma label_matches c d : plain_name d → name_char c = true → is_ascii_digit c = false →
  c ≠ "."%char → host_matches (String c (String "." d)) ("*." +:+ d) = true.
Proof.
  intros Hd Hc1 Hc2 Hc3. apply matches_wild; [by apply plain_label|done|]. by exists (String c "").
Qed.

Definition hosts_within (a p : string) : Prop :=
  ∀ h, plain_name h → host_matches h a = true → host_matches h p = true.

Lemma wild_inj a b : "*." +:+ a = "*." +:+ b → a = b.
Proof. intros H. by injection H. Qed.

Lemma plain_no_star s : ¬ plain_name (String "*" s).
Proof. intros (_ & Hc & _). done. Qed.

(** The cases of [deny_cover_exact], by the shape of the deny. *)
Lemma within_name a e : host_pattern a → plain_name e → hosts_within a e ↔ a = e.
Proof.
  intros Ha He. split.
  - intros Hw. destruct Ha as [|d Hd|d Hd].
    + assert (host_matches (String "a" (String "." e)) e = true) as H
        by (apply Hw; [by apply plain_label|apply matches_any]).
      apply matches_name in H; [|by apply plain_label|done].
      apply (f_equal String.length) in H. simpl in H. lia.
    + apply matches_name; [done..|]. apply Hw; [done|]. by apply matches_name.
    + assert (∀ c, name_char c = true → is_ascii_digit c = false → c ≠ "."%char →
        String c (String "." d) = e) as H.
      { intros c H1 H2 H3. apply matches_name; [by apply plain_label|done|].
        apply Hw; [by apply plain_label|by apply label_matches]. }
      pose proof (H "a"%char) as Ha. rewrite <-(H "b"%char) in Ha by done.
      by specialize (Ha eq_refl eq_refl ltac:(done)).
  - intros ->. by intros h _ Hm.
Qed.

Lemma within_wild_name d e : plain_name d → plain_name e →
  hosts_within d ("*." +:+ e) ↔ ∃ r, d = r +:+ "." +:+ e.
Proof.
  intros Hd He. rewrite <-matches_wild by done. split.
  - intros Hw. apply Hw; [done|]. by apply matches_name.
  - intros H h Hh Hm. apply matches_name in Hm; [|done..]. by subst.
Qed.

Lemma within_wild_wild d e : plain_name d → plain_name e →
  hosts_within ("*." +:+ d) ("*." +:+ e) ↔ d = e ∨ ∃ r, d = r +:+ "." +:+ e.
Proof.
  intros Hd He. split.
  - intros Hw. assert (host_matches (String "a" (String "." d)) ("*." +:+ e) = true) as H
      by (apply Hw; [by apply plain_label|by apply label_matches]).
    apply matches_wild in H as [r H]; [|by apply plain_label|done].
    by apply (cons_label_suffix "a" d e r).
  - intros H h Hh Hm. apply matches_wild in Hm as [p ->]; [|done..]. apply matches_wild; [done..|].
    destruct H as [->|[r ->]]; [by exists p|]. exists (p +:+ "." +:+ r). by rewrite <-!app_assoc_string.
Qed.

Lemma within_wild_any e : plain_name e → ¬ hosts_within "*" ("*." +:+ e).
Proof.
  intros He Hw. assert (host_matches e ("*." +:+ e) = true) as H by (apply Hw; [done|apply matches_any]).
  apply matches_wild in H as [p H]; [|done..]. apply (f_equal String.length) in H.
  rewrite !length_app_string in H. simpl in H. lia.
Qed.

(** Deny precedence prunes exactly: an allow pattern counts as covered by
    a deny pattern iff every name the allow matches is matched by the deny -
    or the deny is the wildcard below an allowed name. In that one case the
    allow of the bare name is pruned although the deny does not match it. *)
Lemma deny_cover_exact a p : host_pattern a → host_pattern p →
  (host_covered_by_deny a p = true ↔ hosts_within a p ∨ p = "*." +:+ a) ∧
  (plain_name a → host_covered_by_deny a ("*." +:+ a) = true ∧ ¬ hosts_within a ("*." +:+ a)).
Proof.
  intros Ha Hp. split.
  - destruct Hp as [|e He|e He].
    + rewrite covered_any. split; [|done]. intros _. left. intros h _ _. apply matches_any.
    + rewrite covered_name, within_name by done. split; [auto|]. intros [->| ->]; [done|].
      by apply plain_no_star in He.
    + rewrite covered_wild by done. destruct Ha as [|d Hd|d Hd].
      * split; [|intros [H| ->%wild_inj]; [by apply within_wild_any in H|by apply plain_no_star in He]].
        intros [<-|[r H]]; [by apply plain_no_star in He|]. destruct He as (Hne & _).
        apply (f_equal String.length) in H. rewrite !length_app_string in H.
        destruct e; [done|simpl in H; lia].
      * rewrite within_wild_name by done. split; [intros [->|]; auto|]. intros [| ->%wild_inj]; auto.
      * rewrite within_wild_wild by done. split.
        -- intros [<-|[r H]]; [by apply plain_no_star in He|].
           left. by apply (cons_label_suffix "*" d e r).
        -- intros [[->|[r ->]]| ->%wild_inj]; [right; by exists "*"|right; by exists ("*." +:+ r)|].
           by apply plain_no_star in He.
  - intros Hpl. split; [apply covered_wild; auto|]. rewrite within_wild_name by done.
    intros [r H]. apply (f_equal String.length) in H. rewrite !length_app_string in H. simpl in H. lia.
Qed.
End plain.

(** ** Witnesses *)

Lemma example_com_plain : plain_name "example.com".
Proof. split_and!; by vm_compute. Qed.
Lemma api_example_com_plain : plain_name "api.example.com".
Proof. split_and!; by vm_compute. Qed.
