(* ===== verification/Outbound.v ===== *)
(** * Outbound: the egress policy surface

    [src/src/policy/outbound.rs]: protocols, destinations, qualified rules,
    grant qualifiers, the projections of a policy to its IP layer, and the
    deny-precedence reducers; the tool-level block is from
    [src/src/policy/mod.rs]. *)

From S2P Require Import Prelude Text IpAddr PolicyHost PolicyCidr.

(** ** Protocols, destinations, rules *)

Inductive EgressProto := Tcp | Udp | AnyProto.

#[export] Instance EgressProto_eq_dec : EqDecision EgressProto.
Proof. solve_decision. Defined.

Definition EgressProto_as_str (p : EgressProto) : string :=
  match p with Tcp => "tcp" | Udp => "udp" | AnyProto => "any" end.

Definition EgressProto_parse (value : string) : result EgressProto string :=
  str_match value
    [(["tcp"], Ok Tcp); (["udp"], Ok Udp); (["any"], Ok AnyProto)]
    (Err ("unknown proto '" +:+ value +:+ "', expected tcp|udp|any")).

Definition proto_covers (rule flow : EgressProto) : bool :=
  bool_decide (rule = AnyProto) || bool_decide (rule = flow).

Inductive EgressDest :=
  | Host (h : string)
  | Cidr (c : string)
  | Unix (u : string).

#[export] Instance EgressDest_eq_dec : EqDecision EgressDest.
Proof. solve_decision. Defined.

Definition dest_text (d : EgressDest) : string :=
  match d with Host h | Cidr h | Unix h => h end.

Record EgressRule := mkEgress {
  eg_allow : bool;
  eg_dest : EgressDest;
  eg_proto : EgressProto;
  eg_port : option Z;
}.

#[export] Instance EgressRule_eq_dec : EqDecision EgressRule.
Proof. solve_decision. Defined.

Definition describe (r : EgressRule) : string :=
  let kind := match eg_dest r with
              | Host h => "host=" +:+ h
              | Cidr c => "cidr=" +:+ c
              | Unix u => "unix=" +:+ u
              end in
  let s := if bool_decide (eg_proto r ≠ Tcp) || negb (eg_allow r)
           then kind +:+ (" proto=" +:+ EgressProto_as_str (eg_proto r)) else kind in
  match eg_port r with
  | Some p => s +:+ (" port=" +:+ show_dec p)
  | None => s
  end.

Definition covers_flow (r : EgressRule) (proto : EgressProto) (port : Z) : bool :=
  proto_covers (eg_proto r) proto && is_none_or (eg_port r) (λ p, p =? port).

(** The qualifiers a DNS-derived grant was minted under. *)
Record GrantQual := mkQual { gq_proto : EgressProto; gq_port : option Z }.

#[export] Instance GrantQual_eq_dec : EqDecision GrantQual.
Proof. solve_decision. Defined.

Definition qual_covers (q : GrantQual) (proto : EgressProto) (port : Z) : bool :=
  proto_covers (gq_proto q) proto && is_none_or (gq_port q) (λ p, p =? port).

Definition TCP_ANY : GrantQual := mkQual Tcp None.

(** The derived orders: [Tcp < Udp < Any], [None] below every port. *)
Definition proto_index (p : EgressProto) : Z :=
  match p with Tcp => 0 | Udp => 1 | AnyProto => 2 end.
Definition port_index (p : option Z) : Z * Z :=
  match p with None => (0, 0) | Some n => (1, n) end.

#[export] Instance proto_index_inj : Inj (=) (=) proto_index.
Proof. by intros [] []. Qed.
#[export] Instance EgressProto_ord : Ord EgressProto := ord_by_key proto_index.
#[export] Instance port_index_inj : Inj (=) (=) port_index.
Proof. intros [] []; naive_solver. Qed.
#[export] Instance port_ord : Ord (option Z) := ord_by_key port_index.

Definition qual_key (q : GrantQual) : EgressProto * option Z := (gq_proto q, gq_port q).
#[export] Instance qual_key_inj : Inj (=) (=) qual_key.
Proof. intros [] [] [= -> ->]. done. Qed.
#[export] Instance GrantQual_ord : Ord GrantQual := ord_by_key qual_key.

(** ** The policy *)

Record OutboundPolicy := mkOutbound {
  allowed : list string;
  allowed_port_qualified : list string;
  allowed_cidrs : list string;
  allowed_cidrs_port_qualified : list string;
  denied_hosts : list string;
  denied_cidrs : list string;
  deny_all_others : bool;
  stored_rules : list EgressRule;
}.

Definition OutboundPolicy_default : OutboundPolicy := mkOutbound [] [] [] [] [] [] true [].

(** IP literals of a host list, as host routes. *)
Definition literal_routes (hosts : list string) : list string :=
  omap (λ h, ip_literal_cidr <$> parse_ip h) hosts.

(** [if !out.contains(x) { out.push(x) }] over a list. *)
Definition push_missing (out : list string) (xs : list string) : list string :=
  foldl (λ out x, if bool_decide (x ∈ out) then out else out ++ [x]) out xs.

Definition ip_layer_denies (o : OutboundPolicy) : list string :=
  push_missing (denied_cidrs o) (literal_routes (denied_hosts o)).

Definition ip_layer_allows (o : OutboundPolicy) : list string :=
  let denies := ip_layer_denies o in
  foldl (λ out cidr,
           if negb (bool_decide (cidr ∈ out)) && negb (existsb (λ d, cidr_covers d cidr) denies)
           then out ++ [cidr] else out)
    [] (allowed_cidrs o ++ literal_routes (allowed o)).

(** [find_map] over the provenance spellings of a rule. *)
Definition find_map {A B} (f : A → option B) (l : list A) : option B :=
  foldr (λ x acc, match f x with Some y => Some y | None => acc end) None l.

Definition allow_host_rule (o : OutboundPolicy) (h : string) : EgressRule :=
  match bare_port_spelling h with
  | Some port => mkEgress true (Host "*") Tcp (Some port)
  | None =>
      let port := find_map (λ raw, let '(norm, port, _) := analyze_policy_host raw in
                                   if bool_decide (norm = h) then port else None)
                    (allowed_port_qualified o) in
      mkEgress true (Host h) Tcp port
  end.

Definition allow_cidr_rule (o : OutboundPolicy) (c : string) : EgressRule :=
  let port := find_map (λ raw, match analyze_policy_cidr raw with
                               | Ok (norm, port, _) => if bool_decide (norm = c) then port else None
                               | Err _ => None
                               end) (allowed_cidrs_port_qualified o) in
  mkEgress true (Cidr c) Tcp port.

Definition egress_rules (o : OutboundPolicy) : list EgressRule :=
  if bool_decide (stored_rules o ≠ []) then stored_rules o
  else (allow_host_rule o <$> allowed o)
       ++ (allow_cidr_rule o <$> allowed_cidrs o)
       ++ ((λ h, mkEgress false (Host h) AnyProto None) <$> denied_hosts o)
       ++ ((λ c, mkEgress false (Cidr c) AnyProto None) <$> denied_cidrs o).

Definition tcp_port_rules (o : OutboundPolicy) : list Z :=
  sort_dedup (omap eg_port
    (List.filter (λ r, eg_allow r && bool_decide (eg_dest r = Host "*")
                       && proto_covers (eg_proto r) Tcp) (egress_rules o))).

Definition unix_allows (o : OutboundPolicy) : list string :=
  omap (λ r, match eg_dest r with Unix u => Some u | _ => None end)
    (List.filter eg_allow (egress_rules o)).

(** ** Canonical order of rules *)

(** The tuple [sort_egress_rules] compares: allows before denies, then text,
    protocol and port. *)
Definition rule_key (r : EgressRule) : Z * (string * (EgressProto * option Z)) :=
  (if eg_allow r then 0 else 1, (dest_text (eg_dest r), (eg_proto r, eg_port r))).

Definition rule_le (a b : EgressRule) : Prop := ord_le (rule_key a) (rule_key b).
#[export] Instance rule_le_dec : RelDecision rule_le.
Proof. intros a b. unfold rule_le. apply _. Defined.

(** [slice::sort_by] is stable; so is insertion from the right. *)
Fixpoint insert_rule (r : EgressRule) (rs : list EgressRule) : list EgressRule :=
  match rs with
  | [] => [r]
  | x :: rs' => if decide (rule_le r x) then r :: rs else x :: insert_rule r rs'
  end.

Definition sort_egress_rules (rs : list EgressRule) : list EgressRule := foldr insert_rule [] rs.

(** ** Deny precedence *)

(** The tool-level network block. *)
Record ToolNetworkPolicy := mkToolNetwork {
  t_allowed_hosts : list string;
  t_allowed_cidrs : list string;
  t_denied_hosts : list string;
  t_denied_cidrs : list string;
  t_egress_rules : list EgressRule;
  t_allow_specified : bool;
}.

Definition egress_rule_set (t : ToolNetworkPolicy) : list EgressRule :=
  if bool_decide (t_egress_rules t ≠ []) then t_egress_rules t
  else ((λ h, match bare_port_spelling h with
              | Some port => mkEgress true (Host "*") Tcp (Some port)
              | None => mkEgress true (Host h) Tcp None
              end) <$> t_allowed_hosts t)
       ++ ((λ c, mkEgress true (Cidr c) Tcp None) <$> t_allowed_cidrs t)
       ++ ((λ h, mkEgress false (Host h) AnyProto None) <$> t_denied_hosts t)
       ++ ((λ c, mkEgress false (Cidr c) AnyProto None) <$> t_denied_cidrs t).

Section precedence.
Context (domain_to_ascii : string → option string).

(** Covered by some denied host; covered by some denied range. *)
Definition host_denied (denied : list string) (h : string) : bool :=
  existsb (λ d, host_covered_by_deny domain_to_ascii h d) denied.

Definition cidr_denied (deny_all_ip : bool) (denied_ip : list string) (c : string) : bool :=
  deny_all_ip || existsb (λ d, cidr_covers d c) denied_ip.

(** The rules that survive: every deny, and every allow no deny covers. *)
Definition rule_survives (denied : list string) (deny_all_ip : bool) (denied_ip : list string)
    (r : EgressRule) : bool :=
  negb (eg_allow r)
  || match eg_dest r with
     | Host h => negb (host_denied denied h)
     | Cidr c => negb (cidr_denied deny_all_ip denied_ip c)
     | Unix _ => true
     end.

Definition apply_outbound_deny_precedence (o : OutboundPolicy) : OutboundPolicy :=
  let allowed' := List.filter (λ h, negb (host_denied (denied_hosts o) h)) (allowed o) in
  let deny_all_ip := existsb (λ d, bool_decide (d = "*")) (denied_hosts o) in
  let denied_ip := ip_layer_denies o in
  let allowed_cidrs' :=
    List.filter (λ c, negb (cidr_denied deny_all_ip denied_ip c)) (allowed_cidrs o) in
  mkOutbound
    allowed'
    (List.filter (λ raw, bool_decide (normalize_policy_host raw ∈ allowed'))
       (allowed_port_qualified o))
    allowed_cidrs'
    (List.filter (λ raw, match analyze_policy_cidr raw with
                         | Ok (cidr, _, _) => bool_decide (cidr ∈ allowed_cidrs')
                         | Err _ => false
                         end) (allowed_cidrs_port_qualified o))
    (denied_hosts o) (denied_cidrs o) (deny_all_others o)
    (List.filter (rule_survives (denied_hosts o) deny_all_ip denied_ip) (stored_rules o)).

Definition apply_tool_network_deny_precedence (t : ToolNetworkPolicy) : ToolNetworkPolicy :=
  let denied_ip := t_denied_cidrs t ++ literal_routes (t_denied_hosts t) in
  let deny_all_ip := existsb (λ d, bool_decide (d = "*")) (t_denied_hosts t) in
  mkToolNetwork
    (List.filter (λ h, negb (host_denied (t_denied_hosts t) h)) (t_allowed_hosts t))
    (List.filter (λ c, negb (cidr_denied deny_all_ip denied_ip c)) (t_allowed_cidrs t))
    (t_denied_hosts t) (t_denied_cidrs t)
    (List.filter (rule_survives (t_denied_hosts t) deny_all_ip denied_ip) (t_egress_rules t))
    (t_allow_specified t).
End precedence.
