(* ===== verification/IpEval.v ===== *)
(** * IpEval: the name verdict and the flow verdict

    [src/src/dnsgate/name_policy.rs], the verdict on a query name with the
    qualifiers of its grants, and [src/src/warden/ip_eval.rs], the evaluator
    of a flow. *)

From S2P Require Import Prelude Text IpAddr PolicyHost PolicyCidr Outbound.

Inductive NameDenyReason :=
  | NdHost (rule : string)
  | NdCidr (rule : string)
  | NdNotAllowed.

Inductive NameVerdict :=
  | NameAllow
  | NameDeny (r : NameDenyReason).

#[export] Instance NameDenyReason_eq_dec : EqDecision NameDenyReason.
Proof. solve_decision. Defined.
#[export] Instance NameVerdict_eq_dec : EqDecision NameVerdict.
Proof. solve_decision. Defined.

Definition deny_decision (r : NameDenyReason) : string :=
  match r with
  | NdHost _ => "deny-host"
  | NdCidr _ => "deny-cidr"
  | NdNotAllowed => "not-allowed"
  end.

Definition deny_rule (r : NameDenyReason) : option string :=
  match r with
  | NdHost t | NdCidr t => Some t
  | NdNotAllowed => None
  end.

Record EvalOutcome := mkOutcome {
  eo_canonical : string;
  eo_verdict : NameVerdict;
  eo_quals : list GrantQual;
}.

Section name_policy.
Context (domain_to_ascii : string → option string).

(** An allow rule covering the canonical name (or the literal it is). *)
Definition rule_covers_name (canonical : string) (r : EgressRule) : bool :=
  eg_allow r
  && match eg_dest r with
     | Host h => host_matches domain_to_ascii canonical h
     | Cidr c => is_some_and (parse_ip canonical) (cidr_contains c)
     | Unix _ => false
     end.

Definition name_quals (outbound : OutboundPolicy) (canonical : string) : list GrantQual :=
  sort_dedup ((λ r, mkQual (eg_proto r) (eg_port r))
              <$> List.filter (rule_covers_name canonical) (egress_rules outbound)).

Definition evaluate_name (outbound : OutboundPolicy) (qname : string) : EvalOutcome :=
  let canonical := canonical_name domain_to_ascii qname in
  match List.find (host_matches domain_to_ascii canonical) (denied_hosts outbound) with
  | Some denied => mkOutcome canonical (NameDeny (NdHost denied)) []
  | None =>
      match parse_ip canonical ≫= (λ ip, List.find (λ c, cidr_contains c ip) (denied_cidrs outbound)) with
      | Some denied => mkOutcome canonical (NameDeny (NdCidr denied)) []
      | None =>
          let quals := name_quals outbound canonical in
          if deny_all_others outbound && bool_decide (quals = [])
          then mkOutcome canonical (NameDeny NdNotAllowed) []
          else if bool_decide (quals = [])
          then mkOutcome canonical NameAllow [mkQual AnyProto None]
          else mkOutcome canonical NameAllow quals
      end
  end.
End name_policy.

Inductive IpVerdict :=
  | IpAllow (basis : string) (rule : option string)
  | IpDeny (decision : string) (rule : option string).

#[export] Instance IpVerdict_eq_dec : EqDecision IpVerdict.
Proof. solve_decision. Defined.

(** What an allow rule's destination binds at the IP layer. *)
Inductive AllowDest :=
  | ADAny
  | ADLiteral (ip : IpAddr)
  | ADCidr (c : string)
  | ADName.

Definition dest_matches (d : AllowDest) (dest : IpAddr) : bool :=
  match d with
  | ADAny => true
  | ADLiteral ip => bool_decide (ip = dest)
  | ADCidr c => cidr_contains c dest
  | ADName => false
  end.

Definition dest_basis (d : AllowDest) : string :=
  match d with
  | ADCidr _ => "allow-cidr"
  | _ => "allow-host"
  end.

Inductive Context := Unotify | Namespaced | ConnectProxy.

#[export] Instance Context_eq_dec : EqDecision Context.
Proof. solve_decision. Defined.

Record AllowRule := mkAllow {
  ar_dest : AllowDest;
  ar_proto : EgressProto;
  ar_port : option Z;
  ar_text : string;
}.

Record IpLayerEvaluator := mkEvaluator {
  ev_ctx : Context;
  ev_deny_all_others : bool;
  ev_denied_any : bool;
  ev_denied_literals : list IpAddr;
  ev_denied_cidrs : list string;
  ev_allows : list AllowRule;
}.

(** One allow rule of the policy, projected; [unix=] opt-ins mint none. *)
Definition project_rule (rule : EgressRule) : option AllowRule :=
  if negb (eg_allow rule) then None
  else
    let mk d := Some (mkAllow d (eg_proto rule) (eg_port rule) (describe rule)) in
    match eg_dest rule with
    | Host h =>
        if bool_decide (h = "*") then mk ADAny
        else match parse_ip h with
             | Some ip => mk (ADLiteral ip)
             | None => mk ADName
             end
    | Cidr c => mk (ADCidr c)
    | Unix _ => None
    end.

Definition build (outbound : OutboundPolicy) (ctx : Context) : IpLayerEvaluator :=
  mkEvaluator ctx (deny_all_others outbound)
    (existsb (λ d, bool_decide (d = "*")) (denied_hosts outbound))
    (omap parse_ip (denied_hosts outbound))
    (denied_cidrs outbound)
    (omap project_rule (egress_rules outbound)).

Definition judged_endpoint (ev : IpLayerEvaluator) (dest : IpAddr) : IpAddr :=
  match ev_ctx ev with
  | ConnectProxy => dialed_endpoint dest
  | _ => socket_endpoint dest
  end.

(** The deny scan over the spellings of a destination. *)
Fixpoint deny_scan (ev : IpLayerEvaluator) (spellings : list IpAddr) : option IpVerdict :=
  match spellings with
  | [] => None
  | spelled :: rest =>
      if bool_decide (spelled ∈ ev_denied_literals ev)
      then Some (IpDeny "deny-host" (Some (show_ip spelled)))
      else match List.find (λ c, cidr_contains c spelled) (ev_denied_cidrs ev) with
      | Some rule => Some (IpDeny "deny-cidr" (Some rule))
      | None => deny_scan ev rest
      end
  end.

Definition rule_covers (endpoint : IpAddr) (proto : EgressProto) (port : Z) (r : AllowRule) : bool :=
  dest_matches (ar_dest r) endpoint && proto_covers (ar_proto r) proto
  && is_none_or (ar_port r) (λ p, p =? port).

Definition is_any (d : AllowDest) : bool := match d with ADAny => true | _ => false end.
Definition is_proxy (ev : IpLayerEvaluator) : bool := bool_decide (ev_ctx ev = ConnectProxy).

Definition evaluate (ev : IpLayerEvaluator) (dest : IpAddr) (proto : EgressProto) (port : Z)
    (grant_names : list string) (grant_covered : bool) : IpVerdict :=
  let endpoint := judged_endpoint ev dest in
  if ev_denied_any ev then IpDeny "deny-host" (Some "*")
  else match deny_scan ev (dest :: (if bool_decide (endpoint = dest) then [] else [endpoint])) with
  | Some v => v
  | None =>
      let protected := endpoint_is_protected endpoint in
      match List.find (rule_covers endpoint proto port) (ev_allows ev) with
      | Some rule =>
          if is_proxy ev && protected && is_any (ar_dest rule)
          then IpDeny "protected-endpoint" None
          else IpAllow (dest_basis (ar_dest rule)) (Some (ar_text rule))
      | None =>
          if grant_covered && protected then
            if ev_deny_all_others ev || is_proxy ev
            then IpDeny "protected-endpoint" None
            else IpAllow "open" None
          else if grant_covered then IpAllow "allowlist-grant" (Some (join "," grant_names))
          else if is_proxy ev && protected then IpDeny "protected-endpoint" None
          else if ev_deny_all_others ev then IpDeny "not-allowed" None
          else IpAllow "open" None
      end
  end.
