(* ===== verification/AllowList.v ===== *)
(** * AllowList: the table of expiring grants

    [src/src/dnsgate/allowlist.rs]: the state of the table, one function per
    operation and [run] over operation sequences; and the theorems on it:
    authority exists only after a commit, staging is invisible, the table is
    bounded. *)

From S2P Require Import Prelude Text IpAddr Outbound.

Record GrantKey := mkGrantKey { gk_addr : IpAddr; gk_name : string }.

#[export] Instance GrantKey_eq_dec : EqDecision GrantKey.
Proof. solve_decision. Defined.
#[export] Instance GrantKey_countable : Countable GrantKey.
Proof.
  apply (inj_countable' (λ k, (gk_addr k, gk_name k)) (λ p, mkGrantKey p.1 p.2)). by intros [].
Defined.

Record GrantEntry := mkGrantEntry { ge_expires : Z; ge_quals : list GrantQual }.

#[export] Instance GrantEntry_eq_dec : EqDecision GrantEntry.
Proof. solve_decision. Defined.

Record AllowList := mkAllowList {
  grants : gmap GrantKey GrantEntry;
  staged : gmap Z (list (GrantKey * GrantEntry));
  max_grants : nat;
  next_staging : Z;
}.

Definition new (cap : nat) : AllowList := mkAllowList ∅ ∅ cap 1.

Definition with_grants (st : AllowList) (g : gmap GrantKey GrantEntry) : AllowList :=
  mkAllowList g (staged st) (max_grants st) (next_staging st).
Definition with_staged (st : AllowList) (s : gmap Z (list (GrantKey * GrantEntry))) : AllowList :=
  mkAllowList (grants st) s (max_grants st) (next_staging st).

(** [grants.retain(|_, e| e.expires > Instant::now())]. *)
Definition retain_live (clock : GrantKey → Z) (g : gmap GrantKey GrantEntry)
    : gmap GrantKey GrantEntry := filter (λ p, clock p.1 < ge_expires p.2) g.

Definition register_at (now : Z) (clock : GrantKey → Z) (name : string) (addr : IpAddr)
    (quals : list GrantQual) (expires : Z) (st : AllowList) : AllowList * bool :=
  if bool_decide (expires <= now) || bool_decide (quals = []) then (st, false)
  else
    let live := retain_live clock (grants st) in
    let key := mkGrantKey addr name in
    let entry := mkGrantEntry expires quals in
    match live !! key with
    | Some _ => (with_grants st (<[key := entry]> live), true)
    | None =>
        if bool_decide (max_grants st ≤ size live)%nat then (with_grants st live, false)
        else (with_grants st (<[key := entry]> live), true)
    end.

Definition begin_staging (st : AllowList) : AllowList * Z :=
  (mkAllowList (grants st) (staged st) (max_grants st) ((next_staging st + 1) mod 2 ^ 64),
   next_staging st).

(** [entries.iter_mut().find(|(k, _)| *k == key)], refreshed in place. *)
Fixpoint refresh_entry (key : GrantKey) (entry : GrantEntry) (es : list (GrantKey * GrantEntry))
    : option (list (GrantKey * GrantEntry)) :=
  match es with
  | [] => None
  | (k, e) :: es' =>
      if bool_decide (k = key) then Some ((k, entry) :: es')
      else cons (k, e) <$> refresh_entry key entry es'
  end.

(** Keys of every staged entry, under any token. *)
Definition staged_keys (s : gmap Z (list (GrantKey * GrantEntry))) : gset GrantKey :=
  list_to_set (mjoin (map_to_list s).*2).*1.

Definition register_staged_at (token : Z) (now : Z) (clock : GrantKey → Z) (name : string)
    (addr : IpAddr) (quals : list GrantQual) (expires : Z) (st : AllowList) : AllowList * bool :=
  if bool_decide (expires <= now) || bool_decide (quals = []) then (st, false)
  else
    let live := retain_live clock (grants st) in
    let st := with_grants st live in
    let key := mkGrantKey addr name in
    let entry := mkGrantEntry expires quals in
    match staged st !! token ≫= refresh_entry key entry with
    | Some es => (with_staged st (<[token := es]> (staged st)), true)
    | None =>
        let staged_new := staged_keys (staged st) ∖ dom live in
        if bool_decide (live !! key = None)
           && bool_decide (max_grants st ≤ size live + size staged_new)%nat
        then (st, false)
        else (with_staged st
                (<[token := default [] (staged st !! token) ++ [(key, entry)]]> (staged st)), true)
    end.

(** Entries are inserted in order, a later one replacing an earlier. *)
Definition insert_all (g : gmap GrantKey GrantEntry) (es : list (GrantKey * GrantEntry))
    : gmap GrantKey GrantEntry := foldl (λ g p, <[p.1 := p.2]> g) g es.

Definition commit_staged (token : Z) (st : AllowList) : AllowList :=
  match staged st !! token with
  | Some entries => with_grants (with_staged st (delete token (staged st)))
                      (insert_all (grants st) entries)
  | None => st
  end.

Definition drop_staged (token : Z) (st : AllowList) : AllowList :=
  with_staged st (delete token (staged st)).

Definition revoke (name : string) (addr : IpAddr) (st : AllowList) : AllowList :=
  with_grants st (delete (mkGrantKey addr name) (grants st)).

(** A live grant on [addr] at [now]. *)
Definition live_on (addr : IpAddr) (now : Z) (p : GrantKey * GrantEntry) : bool :=
  bool_decide (gk_addr p.1 = addr) && bool_decide (now < ge_expires p.2).

Definition is_allowed_at (addr : IpAddr) (proto : EgressProto) (port now : Z) (st : AllowList)
    : bool :=
  existsb (λ p, live_on addr now p && existsb (λ q, qual_covers q proto port) (ge_quals p.2))
    (map_to_list (grants st)).

Definition names_for (addr : IpAddr) (now : Z) (st : AllowList) : list string :=
  merge_sort ord_le ((λ p, gk_name p.1) <$> List.filter (live_on addr now) (map_to_list (grants st))).

Definition quals_for (addr : IpAddr) (now : Z) (st : AllowList) : list GrantQual :=
  sort_dedup (mjoin ((λ p, ge_quals p.2)
                     <$> List.filter (live_on addr now) (map_to_list (grants st)))).

Definition live_len (now : Z) (st : AllowList) : nat :=
  length (List.filter (λ p, bool_decide (now < ge_expires p.2)) (map_to_list (grants st))).

(** ** Operations as steps *)

Inductive Op :=
  | ORegister (now : Z) (clock : GrantKey → Z) (name : string) (addr : IpAddr)
      (quals : list GrantQual) (expires : Z)
  | OBegin
  | OStage (token now : Z) (clock : GrantKey → Z) (name : string) (addr : IpAddr)
      (quals : list GrantQual) (expires : Z)
  | OCommit (token : Z)
  | ODrop (token : Z)
  | ORevoke (name : string) (addr : IpAddr).

Definition apply_op (st : AllowList) (op : Op) : AllowList :=
  match op with
  | ORegister now clock name addr quals expires =>
      (register_at now clock name addr quals expires st).1
  | OBegin => (begin_staging st).1
  | OStage token now clock name addr quals expires =>
      (register_staged_at token now clock name addr quals expires st).1
  | OCommit token => commit_staged token st
  | ODrop token => drop_staged token st
  | ORevoke name addr => revoke name addr st
  end.

Definition run (ops : list Op) (st : AllowList) : AllowList := foldl apply_op st ops.

(** ** Lookups *)

Lemma existsb_true_iff {A} (p : A → bool) l : existsb p l = true ↔ ∃ x, x ∈ l ∧ p x = true.
Proof. rewrite existsb_exists. by setoid_rewrite list_elem_of_In. Qed.

Lemma is_allowed_at_iff addr proto port now st :
  is_allowed_at addr proto port now st = true ↔
  ∃ k e q, grants st !! k = Some e ∧ gk_addr k = addr ∧ now < ge_expires e ∧
    q ∈ ge_quals e ∧ qual_covers q proto port = true.
Proof.
  unfold is_allowed_at. rewrite existsb_true_iff. split.
  - intros ([k e] & Hin%elem_of_map_to_list & H). unfold live_on in H. simpl in H.
    rewrite !andb_true_iff, !bool_decide_eq_true, existsb_true_iff in H.
    destruct H as [[Ha He] (q & Hq & Hc)]. exists k, e, q. done.
  - intros (k & e & q & Hk & Ha & He & Hq & Hc). exists (k, e). split; [by apply elem_of_map_to_list|].
    unfold live_on. simpl. rewrite !andb_true_iff, !bool_decide_eq_true, existsb_true_iff. eauto.
Qed.

Lemma retain_live_lookup clock g k e :
  retain_live clock g !! k = Some e ↔ g !! k = Some e ∧ clock k < ge_expires e.
Proof. unfold retain_live. by rewrite map_lookup_filter_Some. Qed.

Lemma insert_all_lookup es : ∀ g k e,
  insert_all g es !! k = Some e → (k, e) ∈ es ∨ g !! k = Some e.
Proof.
  induction es as [|[k' e'] es IH]; intros g k e; simpl; [by right|].
  intros [H|H]%IH; [left; set_solver|].
  apply lookup_insert_Some in H as [[-> ->]|[_ H]]; [left; set_solver|by right].
Qed.

Lemma dom_insert_all es : ∀ g, dom (insert_all g es) = dom g ∪ list_to_set es.*1.
Proof.
  induction es as [|[k e] es IH]; intros g; simpl; [set_solver|].
  rewrite IH, dom_insert_L. simpl. set_solver.
Qed.

Lemma refresh_entry_elem key entry es : ∀ es', refresh_entry key entry es = Some es' →
  es'.*1 = es.*1 ∧ key ∈ es.*1 ∧ ∀ p, p ∈ es' → p = (key, entry) ∨ p ∈ es.
Proof.
  induction es as [|[k e] es IH]; intros es'; simpl; [done|].
  case_bool_decide as Hk.
  - intros [= <-]. subst. split_and!; [done|set_solver|]. set_solver.
  - destruct (refresh_entry key entry es) as [es''|]; [|done]. intros [= <-].
    destruct (IH es'' eq_refl) as (H1 & H2 & H3). simpl. split_and!; [by f_equal|set_solver|].
    intros p. rewrite !elem_of_cons. intros [->|Hp]; [auto|]. destruct (H3 p Hp); auto.
Qed.

Lemma refresh_entry_None key entry es : refresh_entry key entry es = None → key ∉ es.*1.
Proof.
  induction es as [|[k e] es IH]; simpl; [set_solver|]. case_bool_decide; [done|].
  destruct (refresh_entry key entry es); [done|]. set_solver.
Qed.

Lemma elem_of_staged_keys (s : gmap Z (list (GrantKey * GrantEntry))) k :
  k ∈ staged_keys s ↔ ∃ tok es, s !! tok = Some es ∧ k ∈ es.*1.
Proof.
  unfold staged_keys. rewrite elem_of_list_to_set, list_elem_of_fmap. split.
  - intros (p & -> & Hp). apply list_elem_of_join in Hp as (es & Hp & Hes).
    apply list_elem_of_fmap in Hes as ([tok es'] & -> & Hin%elem_of_map_to_list).
    exists tok, es'. split; [done|]. by apply list_elem_of_fmap_2.
  - intros (tok & es & Hs & (p & -> & Hp)%list_elem_of_fmap). exists p. split; [done|].
    apply list_elem_of_join. exists es. split; [done|]. apply list_elem_of_fmap.
    exists (tok, es). split; [done|]. by apply elem_of_map_to_list.
Qed.

(** ** Where authority comes from *)

Section trace.
(** The operation stages the grant [k := e] under [tok]. *)
Definition stages (tok : Z) (k : GrantKey) (e : GrantEntry) (op : Op) : Prop :=
  ∃ now clock, op = OStage tok now clock (gk_name k) (gk_addr k) (ge_quals e) (ge_expires e)
    ∧ now < ge_expires e ∧ ge_quals e ≠ [].

Definition registers (k : GrantKey) (e : GrantEntry) (op : Op) : Prop :=
  ∃ now clock, op = ORegister now clock (gk_name k) (gk_addr k) (ge_quals e) (ge_expires e)
    ∧ now < ge_expires e ∧ ge_quals e ≠ [].

Definition revokes (k : GrantKey) (op : Op) : Prop := op = ORevoke (gk_name k) (gk_addr k).

(** Staged, and its token neither committed nor dropped since. *)
Definition pending (ops : list Op) (tok : Z) (k : GrantKey) (e : GrantEntry) : Prop :=
  ∃ before op after, ops = before ++ op :: after ∧ stages tok k e op ∧
    OCommit tok ∉ after ∧ ODrop tok ∉ after.

(** Committed while pending, or registered directly, and not revoked since. *)
Definition minted (ops : list Op) (k : GrantKey) (e : GrantEntry) : Prop :=
  ∃ before op after, ops = before ++ op :: after ∧
    (registers k e op ∨ ∃ tok, op = OCommit tok ∧ pending before tok k e) ∧
    Forall (λ op, ¬ revokes k op) after.

Definition accounted (ops : list Op) (st : AllowList) : Prop :=
  (∀ k e, grants st !! k = Some e → minted ops k e) ∧
  (∀ tok es k e, staged st !! tok = Some es → (k, e) ∈ es → pending ops tok k e).

Lemma minted_snoc ops k e op : minted ops k e → ¬ revokes k op → minted (ops ++ [op]) k e.
Proof.
  intros (b & o & a & -> & Ho & Hf) Hr. exists b, o, (a ++ [op]).
  split_and!; [by rewrite <-app_assoc|done|]. apply Forall_app; split; [done|]. by constructor.
Qed.

Lemma pending_snoc ops tok k e op :
  pending ops tok k e → op ≠ OCommit tok → op ≠ ODrop tok → pending (ops ++ [op]) tok k e.
Proof.
  intros (b & o & a & -> & Ho & Hc & Hd) H1 H2. exists b, o, (a ++ [op]).
  split_and!; [by rewrite <-app_assoc|done|..]; rewrite elem_of_app, list_elem_of_singleton;
    naive_solver.
Qed.

(** The operations that leave the staged grants of every token alone. *)
Lemma accounted_register ops st now clock name addr quals expires :
  accounted ops st →
  accounted (ops ++ [ORegister now clock name addr quals expires])
    (register_at now clock name addr quals expires st).1.
Proof.
  intros [Hg Hs]. unfold register_at.
  set (op := ORegister _ _ _ _ _ _).
  assert (∀ k e, grants st !! k = Some e → minted (ops ++ [op]) k e) as Hg'.
  { intros k e Hk. apply minted_snoc; [by apply Hg|]. by unfold revokes, op. }
  assert (∀ tok es k e, staged st !! tok = Some es → (k, e) ∈ es →
            pending (ops ++ [op]) tok k e) as Hs'.
  { intros. by eapply pending_snoc; [eapply Hs|..]. }
  case_bool_decide as He; [by split|]. case_bool_decide as Hq; [by split|]. simpl.
  assert (∀ k e, retain_live clock (grants st) !! k = Some e → minted (ops ++ [op]) k e) as Hl.
  { intros k e [Hk _]%retain_live_lookup. by apply Hg'. }
  assert (∀ k e, <[mkGrantKey addr name:=mkGrantEntry expires quals]>
            (retain_live clock (grants st)) !! k = Some e → minted (ops ++ [op]) k e) as Hi.
  { intros k e [[<- <-]|[_ Hk]]%lookup_insert_Some; [|by apply Hl].
    exists ops, op, []. split_and!; [done| |constructor]. left. exists now, clock. simpl.
    split_and!; [done|lia|done]. }
  destruct (retain_live _ _ !! _); [by split|]. case_bool_decide; by split.
Qed.

Lemma accounted_stage ops st tok now clock name addr quals expires :
  accounted ops st →
  accounted (ops ++ [OStage tok now clock name addr quals expires])
    (register_staged_at tok now clock name addr quals expires st).1.
Proof.
  intros [Hg Hs]. unfold register_staged_at. set (op := OStage _ _ _ _ _ _ _).
  assert (∀ k e, grants st !! k = Some e → minted (ops ++ [op]) k e) as Hg'.
  { intros k e Hk. apply minted_snoc; [by apply Hg|]. by unfold revokes, op. }
  assert (∀ tok es k e, staged st !! tok = Some es → (k, e) ∈ es →
            pending (ops ++ [op]) tok k e) as Hs'.
  { intros. by eapply pending_snoc; [eapply Hs|..]. }
  case_bool_decide as He; [by split|]. case_bool_decide as Hq; [by split|]. simpl.
  assert (∀ k e, retain_live clock (grants st) !! k = Some e → minted (ops ++ [op]) k e) as Hl.
  { intros k e [Hk _]%retain_live_lookup. by apply Hg'. }
  assert (pending (ops ++ [op]) tok (mkGrantKey addr name) (mkGrantEntry expires quals)) as Hnew.
  { exists ops, op, []. split_and!; [done| |set_solver..]. exists now, clock. simpl.
    split_and!; [done|lia|done]. }
  destruct (staged st !! tok ≫= refresh_entry _ _) as [es'|] eqn:Er.
  - split; [done|]. simpl. intros tok' es k e [[<- <-]|[_ Ht]]%lookup_insert_Some Hin; [|by eapply Hs'].
    apply bind_Some in Er as (es & Hes & Hr). apply refresh_entry_elem in Hr as (_ & _ & Hr).
    destruct (Hr _ Hin) as [[= -> ->]|Hin']; [done|by eapply Hs'].
  - case_match; [by split|]. split; [done|]. simpl.
    intros tok' es k e [[<- <-]|[_ Ht]]%lookup_insert_Some Hin; [|by eapply Hs'].
    apply elem_of_app in Hin as [Hin|[= -> ->]%list_elem_of_singleton]; [|done].
    destruct (staged st !! tok) eqn:Et; [by eapply Hs'|]. by apply elem_of_nil in Hin.
Qed.

Lemma accounted_step ops st op : accounted ops st → accounted (ops ++ [op]) (apply_op st op).
Proof.
  intros [Hg Hs]. destruct op as [| |tok ? ? ? ? ? ?|tok|tok|name addr]; simpl.
  - by apply accounted_register.
  - split; simpl; intros; [apply minted_snoc; [by apply Hg|done]|].
    by eapply pending_snoc; [eapply Hs|..].
  - by apply accounted_stage.
  - unfold commit_staged. destruct (staged st !! tok) as [es|] eqn:Et.
    + split; simpl.
      * intros k e [Hin|Hk]%insert_all_lookup; [|apply minted_snoc; [by apply Hg|done]].
        exists ops, (OCommit tok), []. split_and!; [done| |constructor]. right.
        exists tok. split; [done|]. by eapply Hs.
      * intros tok' es' k e [Hne Hl]%lookup_delete_Some Hin.
        eapply pending_snoc; [by eapply Hs|congruence|done].
    + split; [intros; apply minted_snoc; [by apply Hg|done]|].
      intros tok' es' k e Hl Hin. eapply pending_snoc; [by eapply Hs| |done].
      intros [= ->]. congruence.
  - split; simpl; [intros; apply minted_snoc; [by apply Hg|done]|].
    intros tok' es' k e [Hne Hl]%lookup_delete_Some Hin.
    eapply pending_snoc; [by eapply Hs|done|congruence].
  - split; simpl.
    + intros k e [Hne Hl]%lookup_delete_Some. apply minted_snoc; [by apply Hg|].
      unfold revokes. intros [= -> ->]. by destruct k.
    + intros. by eapply pending_snoc; [eapply Hs|..].
Qed.

Lemma accounted_run cap ops : accounted ops (run ops (new cap)).
Proof.
  unfold run. induction ops as [|op ops IH] using rev_ind.
  - split; simpl; intros; by rewrite lookup_empty in *.
  - rewrite foldl_app. by apply accounted_step.
Qed.
End trace.

Lemma allowed_was_minted cap ops addr proto port now :
  is_allowed_at addr proto port now (run ops (new cap)) = true →
  ∃ k e q, gk_addr k = addr ∧ minted ops k e ∧ now < ge_expires e ∧
    q ∈ ge_quals e ∧ qual_covers q proto port = true.
Proof.
  rewrite is_allowed_at_iff. intros (k & e & q & Hk & Ha & He & Hq & Hc).
  exists k, e, q. split_and!; try done. by apply (accounted_run cap ops).
Qed.

(** [C21] No authority before the record: after any sequence of operations, an
    address is allowed for a flow only if some grant on it, unexpired and
    covering the flow, was staged under a token and that token committed
    without being dropped in between (or the grant was registered directly),
    with no revocation of that grant since. *)
Theorem authority_was_committed cap ops addr proto port now :
  is_allowed_at addr proto port now (run ops (new cap)) = true →
  ∃ k e q, gk_addr k = addr ∧ minted ops k e ∧ now < ge_expires e ∧
    q ∈ ge_quals e ∧ qual_covers q proto port = true.
Proof. apply allowed_was_minted. Qed.

(** ** Staging is invisible *)

Lemma is_allowed_at_ext addr proto port now st1 st2 :
  (∀ k e, now < ge_expires e → grants st1 !! k = Some e ↔ grants st2 !! k = Some e) →
  is_allowed_at addr proto port now st1 = is_allowed_at addr proto port now st2.
Proof.
  intros Heq. apply eq_true_iff_eq. rewrite !is_allowed_at_iff.
  split; intros (k & e & q & Hk & Ha & He & ?); exists k, e, q; split_and!; try done; naive_solver.
Qed.

Lemma grants_register_staged tok now clock name addr quals expires st :
  let st' := (register_staged_at tok now clock name addr quals expires st).1 in
  grants st' = grants st ∨ grants st' = retain_live clock (grants st).
Proof. cbn zeta. unfold register_staged_at. repeat case_match; auto. Qed.

(** Staging and dropping change no verdict: a flow judged no earlier than
    the clock readings of the call is allowed after a grant is staged, or after
    a token is dropped, exactly when it was allowed before. *)
Lemma staging_is_invisible tok now clock name addr quals expires st addr' proto port t :
  (∀ k, clock k <= t) →
  is_allowed_at addr' proto port t (register_staged_at tok now clock name addr quals expires st).1
    = is_allowed_at addr' proto port t st ∧
  is_allowed_at addr' proto port t (drop_staged tok st) = is_allowed_at addr' proto port t st.
Proof.
  intros Hc. split; [|done]. apply is_allowed_at_ext. intros k e He.
  destruct (grants_register_staged tok now clock name addr quals expires st) as [->| ->]; [done|].
  rewrite retain_live_lookup. specialize (Hc k). split; [by intros []|]. split; [done|lia].
Qed.

(** ** Tokens *)

Definition is_begin (op : Op) : bool := match op with OBegin => true | _ => false end.

(** The counter behind [begin_staging]: the token drawn after a history is the
    number of draws in it plus one, so that two draws differ until it wraps. *)
Lemma next_staging_run cap ops :
  next_staging (run ops (new cap)) = (1 + Z.of_nat (length (List.filter is_begin ops))) mod 2 ^ 64.
Proof.
  unfold run. induction ops as [|op ops IH] using rev_ind; [done|].
  rewrite foldl_app, List.filter_app, length_app. cbn [foldl]. set (st := foldl _ _ _) in *.
  assert (is_begin op = false → next_staging (apply_op st op) = next_staging st) as Hother.
  { destruct op; try done; intros _; simpl; unfold register_at, register_staged_at, commit_staged;
      by repeat case_match. }
  destruct (is_begin op) eqn:Eb.
  - destruct op; try done. cbn [apply_op begin_staging fst next_staging List.filter is_begin length].
    rewrite IH. rewrite Zplus_mod_idemp_l. f_equal. lia.
  - rewrite Hother by done. cbn [List.filter]. rewrite Eb. cbn [length]. rewrite Nat.add_0_r. done.
Qed.

Lemma tokens_differ cap ops1 ops2 :
  let n ops := Z.of_nat (length (List.filter is_begin ops)) in
  n ops1 < n ops2 < 2 ^ 64 - 1 →
  (begin_staging (run ops1 (new cap))).2 ≠ (begin_staging (run ops2 (new cap))).2.
Proof.
  cbn zeta. intros H. simpl. rewrite !next_staging_run, !Z.mod_small by lia. lia.
Qed.

(** ** Capacity *)

(** Keys the table holds or will hold once every token is committed. *)
Definition held (st : AllowList) : gset GrantKey := dom (grants st) ∪ staged_keys (staged st).

Definition within_capacity (st : AllowList) : Prop := (size (held st) ≤ max_grants st)%nat.

Lemma within_shrink st st' :
  max_grants st' = max_grants st → held st' ⊆ held st → within_capacity st → within_capacity st'.
Proof. unfold within_capacity. intros -> Hs Hw. apply subseteq_size in Hs. lia. Qed.

Lemma dom_retain clock g : dom (retain_live clock g) ⊆ dom g.
Proof. apply dom_filter_subseteq. Qed.

Lemma staged_keys_insert s tok es :
  staged_keys (<[tok := es]> s) ⊆ staged_keys s ∪ list_to_set es.*1.
Proof.
  intros k (tok' & es' & [[<- <-]|[_ Hl]]%lookup_insert_Some & Hk)%elem_of_staged_keys.
  - set_solver.
  - apply elem_of_union_l, elem_of_staged_keys. eauto.
Qed.

Lemma staged_keys_delete s tok : staged_keys (delete tok s) ⊆ staged_keys s.
Proof.
  intros k (tok' & es & [_ Hl]%lookup_delete_Some & Hk)%elem_of_staged_keys.
  apply elem_of_staged_keys. eauto.
Qed.

Lemma staged_keys_lookup s tok es : s !! tok = Some es → list_to_set es.*1 ⊆ staged_keys s.
Proof. intros Hl k Hk%elem_of_list_to_set. apply elem_of_staged_keys. eauto. Qed.

Lemma stage_within tok now clock name addr quals expires st :
  within_capacity st →
  within_capacity (register_staged_at tok now clock name addr quals expires st).1.
Proof.
  intros Hw. unfold register_staged_at. case_match; [done|].
  set (live := retain_live clock (grants st)). pose proof (dom_retain clock (grants st)) as Hlive.
  fold live in Hlive.
  destruct (_ ≫= refresh_entry _ _) as [es'|] eqn:Er.
  - apply (within_shrink st); [done| |done]. unfold held. simpl in *.
    apply bind_Some in Er as (es & Hes & Hr). apply refresh_entry_elem in Hr as (Hk & _ & _).
    pose proof (staged_keys_insert (staged st) tok es') as Hi. rewrite Hk in Hi.
    apply staged_keys_lookup in Hes. set_solver.
  - case_match eqn:Hcap; [apply (within_shrink st); [done| |done]; unfold held; set_solver|].
    simpl in *. set (key := mkGrantKey addr name) in *. unfold held, within_capacity. simpl.
    set (es := default [] (staged st !! tok)).
    assert (staged_keys (<[tok:=es ++ [(key, mkGrantEntry expires quals)]]> (staged st))
              ⊆ staged_keys (staged st) ∪ {[key]}) as Hsub.
    { etransitivity; [apply staged_keys_insert|]. rewrite fmap_app, list_to_set_app.
      assert (list_to_set es.*1 ⊆ staged_keys (staged st)); [|set_solver].
      subst es. destruct (staged st !! tok) eqn:E; [by eapply staged_keys_lookup|set_solver]. }
    apply andb_false_iff in Hcap as [Hcap|Hcap]; apply bool_decide_eq_false in Hcap.
    + assert (key ∈ dom live) as Hin.
      { apply elem_of_dom. destruct (live !! key); [done|congruence]. }
      etransitivity; [|exact Hw]. apply subseteq_size. unfold held.
      clear -Hsub Hin Hlive. apply union_subseteq. split; [set_solver|].
      etransitivity; [exact Hsub|]. set_solver.
    + assert (size live + size (staged_keys (staged st) ∖ dom live) =
              size (dom live ∪ staged_keys (staged st)))%nat as Hsz.
      { rewrite <-size_dom, <-size_union by set_solver. f_equal.
        apply set_eq. intros k. destruct (decide (k ∈ dom live)); set_solver. }
      assert (size (dom live ∪ (staged_keys (<[tok:=es ++ [(key, mkGrantEntry expires quals)]]>
                (staged st)))) ≤ size (dom live ∪ staged_keys (staged st) ∪ {[key]}))%nat as H1.
      { apply subseteq_size. set_solver. }
      assert (size (dom live ∪ staged_keys (staged st) ∪ {[key]}) ≤
              size (dom live ∪ staged_keys (staged st)) + 1)%nat as H2.
      { rewrite size_union_alt. etransitivity; [apply Nat.add_le_mono_l|].
        { apply (subseteq_size _ {[key]}). set_solver. } by rewrite size_singleton. }
      rewrite <-Hsz in H2. apply Nat.nle_gt in Hcap. etransitivity; [exact H1|]. etransitivity; [exact H2|]. rewrite Nat.add_1_r. exact Hcap.
Qed.

(** Every operation the resolver's pipeline uses; [ORegister] bypasses staging. *)
Definition staged_only (op : Op) : Prop := match op with ORegister _ _ _ _ _ _ => False | _ => True end.

Lemma step_within st op : staged_only op → within_capacity st → within_capacity (apply_op st op).
Proof.
  destruct op as [| |tok ? ? ? ? ? ?|tok|tok|name addr]; intros Hop Hw; simpl; [done|done|..].
  - by apply stage_within.
  - unfold commit_staged. destruct (staged st !! tok) as [es|] eqn:E; [|done].
    apply (within_shrink st); [done| |done]. unfold held. simpl. rewrite dom_insert_all.
    apply staged_keys_lookup in E. pose proof (staged_keys_delete (staged st) tok). set_solver.
  - apply (within_shrink st); [done| |done]. unfold held, drop_staged. simpl.
    pose proof (staged_keys_delete (staged st) tok). set_solver.
  - apply (within_shrink st); [done| |done]. unfold held, revoke. simpl. rewrite dom_delete_L. set_solver.
Qed.

Lemma run_max ops : ∀ st, max_grants (run ops st) = max_grants st.
Proof.
  unfold run. induction ops as [|op ops IH]; intros st; [done|]. simpl. rewrite IH.
  destruct op; simpl; unfold register_at, register_staged_at, commit_staged; by repeat case_match.
Qed.

Lemma run_within cap ops : Forall staged_only ops → within_capacity (run ops (new cap)).
Proof.
  unfold run. induction ops as [|op ops IH] using rev_ind.
  - intros _. unfold within_capacity, held. simpl. rewrite dom_empty_L, union_empty_l_L.
    replace (staged_keys ∅) with (∅ : gset GrantKey); [by rewrite size_empty; lia|].
    apply set_eq. intros k. rewrite elem_of_staged_keys. setoid_rewrite lookup_empty. set_solver.
  - intros [Ho Hop]%Forall_app. rewrite foldl_app. apply step_within; [by apply Forall_singleton|].
    by apply IH.
Qed.

(** The table is bounded: whatever interleaving of tokens is staged,
    committed, dropped and revoked, the live grants never exceed the ceiling,
    and neither do they once every outstanding token is committed. *)
Lemma capacity_respected cap ops :
  Forall staged_only ops →
  (size (grants (run ops (new cap))) ≤ cap)%nat ∧
  (size (dom (grants (run ops (new cap))) ∪ staged_keys (staged (run ops (new cap)))) ≤ cap)%nat.
Proof.
  intros H%(run_within cap). unfold within_capacity, held in H. rewrite run_max in H. simpl in H.
  split; [|done]. rewrite <-size_dom. etransitivity; [|exact H]. apply subseteq_size. set_solver.
Qed.

(** ** Consumers that judge flows themselves *)

(** The qualifiers handed to a consumer that evaluates flows itself say
    the same as [is_allowed_at]: a flow is allowed exactly when some returned
    qualifier covers it. *)
Lemma quals_for_agrees addr proto port now st :
  existsb (λ q, qual_covers q proto port) (quals_for addr now st)
    = is_allowed_at addr proto port now st.
Proof.
  apply eq_true_iff_eq. rewrite is_allowed_at_iff, existsb_true_iff. unfold quals_for.
  setoid_rewrite elem_of_sort_dedup. setoid_rewrite list_elem_of_join.
  setoid_rewrite list_elem_of_fmap. split.
  - intros (q & (qs & Hq & ([k e] & -> & Hin)) & Hc).
    rewrite list_elem_of_In, filter_In, <-list_elem_of_In, elem_of_map_to_list in Hin.
    unfold live_on in Hin. simpl in Hin. rewrite andb_true_iff, !bool_decide_eq_true in Hin.
    exists k, e, q. naive_solver.
  - intros (k & e & q & Hk & Ha & He & Hq & Hc). exists q. split; [|done].
    exists (ge_quals e). split; [done|]. exists (k, e). split; [done|].
    rewrite list_elem_of_In, filter_In, <-list_elem_of_In, elem_of_map_to_list.
    unfold live_on. simpl. by rewrite andb_true_iff, !bool_decide_eq_true.
Qed.

(** ** The direct path *)

Definition addr_a : IpAddr := V4 134744072.
Definition addr_b : IpAddr := V4 16843009.
Definition clock0 : GrantKey → Z := λ _, 0.

(** Staged entries are not counted by the direct path. *)
Definition overrun : list Op :=
  [OStage 1 0 clock0 "a.example" addr_a [TCP_ANY] 60;
   ORegister 0 clock0 "b.example" addr_b [TCP_ANY] 60;
   OCommit 1].

(** The ceiling is not kept by the direct [register]: it counts live
    grants only, so a registration made while another resolution's grant is
    staged, followed by that commit, leaves more live grants than the ceiling. *)
Lemma direct_register_overruns_capacity :
  size (grants (run overrun (new 1))) = 2%nat ∧
  is_allowed_at addr_a Tcp 443 1 (run overrun (new 1)) = true ∧
  is_allowed_at addr_b Tcp 443 1 (run overrun (new 1)) = true.
Proof. vm_compute. done. Qed.

(** ** Witnesses *)

Definition session_ops : list Op :=
  [OBegin; OStage 1 0 clock0 "a.example" addr_a [TCP_ANY] 60; OCommit 1].

Lemma authority_was_committed_witness :
  ∃ k e q, gk_addr k = addr_a ∧ minted session_ops k e ∧ 5 < ge_expires e ∧
    q ∈ ge_quals e ∧ qual_covers q Tcp 443 = true.
Proof. apply (authority_was_committed 4 session_ops addr_a Tcp 443 5). vm_compute. reflexivity. Defined.

Lemma capacity_example : (size (grants (run session_ops (new 4))) ≤ 4)%nat.
Proof. apply (proj1 (capacity_respected 4 session_ops ltac:(repeat constructor))). Qed.

