(* ===== verification/FlowGate.v ===== *)
(** * FlowGate: the flow verdict of the egress proxies

    [FlowGate::verdict] and [FlowGate::verdict_literal] of
    [src/src/warden/flow_gate.rs]: the evaluator of [IpEval] asked about the
    grants of [AllowList], behind the audit sink's failure latch; and what an
    allowed flow is then known to have. *)

From S2P Require Import Prelude Text IpAddr PolicyHost PolicyCidr ProtectedSpace Outbound IpEval AllowList.

(** The two table reads take the lock separately, each at its own instant. *)
Definition verdict (ev : IpLayerEvaluator) (audit_failed : bool)
    (al_names al_quals : AllowList) (now_names now_quals : Z)
    (dest : IpAddr) (proto : EgressProto) (port : Z) : IpVerdict :=
  if audit_failed then IpDeny "audit-unavailable" None
  else
    let endpoint := judged_endpoint ev dest in
    let names := names_for endpoint now_names al_names in
    let covered := is_allowed_at endpoint proto port now_quals al_quals in
    evaluate ev dest proto port names covered.

Definition verdict_literal (ev : IpLayerEvaluator) (audit_failed : bool)
    (dest : IpAddr) (proto : EgressProto) (port : Z) : IpVerdict :=
  if audit_failed then IpDeny "audit-unavailable" None
  else evaluate ev dest proto port [] false.

Definition is_allow (v : IpVerdict) : bool :=
  match v with IpAllow _ _ => true | IpDeny _ _ => false end.

(** ** Deny precedence *)

(** A deny rule of the policy names the address. *)
Definition ip_denied (ev : IpLayerEvaluator) (x : IpAddr) : Prop :=
  x ∈ ev_denied_literals ev ∨ ∃ c, c ∈ ev_denied_cidrs ev ∧ cidr_contains c x = true.

Lemma find_some_iff {A} (p : A → bool) l :
  is_Some (List.find p l) ↔ ∃ x, x ∈ l ∧ p x = true.
Proof.
  split.
  - intros [x [Hin Hp]%List.find_some]. exists x. by rewrite list_elem_of_In.
  - intros (x & Hx%list_elem_of_In & Hp). destruct (List.find p l) eqn:E; [done|].
    by rewrite (List.find_none _ _ E x Hx) in Hp.
Qed.

Lemma deny_scan_None ev xs : deny_scan ev xs = None ↔ ∀ x, x ∈ xs → ¬ ip_denied ev x.
Proof.
  induction xs as [|x xs IH]; simpl; [set_solver|]. unfold ip_denied at 1.
  case_bool_decide as Hl; [split; [done|]; intros H; destruct (H x); set_solver|].
  destruct (List.find _ _) as [c|] eqn:E.
  - split; [done|]. intros H. exfalso. apply (H x); [set_solver|]. right.
    apply List.find_some in E as [E Hc]. apply list_elem_of_In in E. eauto.
  - rewrite IH. setoid_rewrite elem_of_cons. split.
    + intros H y [->|Hy]; [|by apply H]. intros [?|(c & Hc & Hx)]; [done|].
      apply list_elem_of_In in Hc. by rewrite (List.find_none _ _ E c Hc) in Hx.
    + intros H y Hy. by apply H; right.
Qed.

Lemma deny_scan_deny ev xs v : deny_scan ev xs = Some v → is_allow v = false.
Proof.
  induction xs as [|x xs IH]; simpl; [done|]. case_bool_decide; [by intros [= <-]|].
  destruct (List.find _ _); [by intros [= <-]|done].
Qed.

(** No deny rule names the destination as written or as it is reached. *)
Definition not_denied (ev : IpLayerEvaluator) (dest : IpAddr) : Prop :=
  ev_denied_any ev = false ∧ ¬ ip_denied ev dest ∧ ¬ ip_denied ev (judged_endpoint ev dest).

(** The verdict past the deny rules, with the grant's share of it. *)
Lemma evaluate_allow_iff ev dest proto port names covered :
  let endpoint := judged_endpoint ev dest in
  let protected := endpoint_is_protected endpoint in
  is_allow (evaluate ev dest proto port names covered) = true ↔
  not_denied ev dest ∧
  match List.find (rule_covers endpoint proto port) (ev_allows ev) with
  | Some rule => is_proxy ev && protected && is_any (ar_dest rule) = false
  | None =>
      (covered = true ∧ protected = false) ∨
      (ev_deny_all_others ev = false ∧ is_proxy ev && protected = false)
  end.
Proof.
  cbn zeta. unfold evaluate, not_denied.
  destruct (ev_denied_any ev); [split; [done|by intros [[]]]|].
  destruct (deny_scan _ _) as [v|] eqn:Es.
  - rewrite (deny_scan_deny _ _ _ Es). split; [done|]. intros [(_ & Hd & He) _].
    assert (deny_scan ev (dest :: (if bool_decide (judged_endpoint ev dest = dest) then []
              else [judged_endpoint ev dest])) = None) as H; [|congruence].
    apply deny_scan_None. intros x. case_bool_decide; set_solver.
  - rewrite deny_scan_None in Es.
    assert (¬ ip_denied ev dest ∧ ¬ ip_denied ev (judged_endpoint ev dest)) as [Hd He].
    { split; [apply Es; set_solver|]. case_bool_decide as H; [rewrite H|]; apply Es; set_solver. }
    destruct (List.find _ (ev_allows ev)) as [r|].
    + destruct (is_proxy ev && _ && _); simpl; naive_solver.
    + destruct covered, (endpoint_is_protected _), (ev_deny_all_others ev), (is_proxy ev);
        simpl; naive_solver.
Qed.

(** [C37] Deny precedes allow on every spelling: if [deny host="*"] is in
    force, or a denied literal or range contains the destination as written or
    the endpoint its flow reaches, the flow is refused whatever the allow rules,
    the grants and the posture say. *)
Theorem egress_deny_always_wins ev dest proto port names covered :
  ev_denied_any ev = true ∨ ip_denied ev dest ∨ ip_denied ev (judged_endpoint ev dest) →
  is_allow (evaluate ev dest proto port names covered) = false.
Proof.
  intros H. apply not_true_iff_false. rewrite evaluate_allow_iff.
  intros [(Ha & Hd & He) _]. destruct H as [H|[H|H]]; [congruence|done..].
Qed.

(** ** The policy behind an evaluator *)

Definition policy_denies (o : OutboundPolicy) (x : IpAddr) : Prop :=
  (∃ h, h ∈ denied_hosts o ∧ parse_ip h = Some x) ∨
  (∃ c, c ∈ denied_cidrs o ∧ cidr_contains c x = true).

(** An allow rule of the policy covers the flow at the IP layer. *)
Definition policy_rule_covers (r : EgressRule) (x : IpAddr) (proto : EgressProto) (port : Z) : Prop :=
  eg_allow r = true ∧ covers_flow r proto port = true ∧
  match eg_dest r with
  | Host h => h = "*" ∨ parse_ip h = Some x
  | Cidr c => cidr_contains c x = true
  | Unix _ => False
  end.

Lemma build_denied_any o ctx : ev_denied_any (build o ctx) = true ↔ "*" ∈ denied_hosts o.
Proof.
  simpl. rewrite existsb_true_iff. setoid_rewrite bool_decide_eq_true.
  split; [by intros (x & ? & ->)|eauto].
Qed.

Lemma build_denied o ctx x : ip_denied (build o ctx) x ↔ policy_denies o x.
Proof. unfold ip_denied, policy_denies. simpl. by rewrite list_elem_of_omap. Qed.

(** A projected rule that covers an endpoint is a rule of the policy that does. *)
Lemma build_allow_covers o ctx r x proto port :
  r ∈ ev_allows (build o ctx) → rule_covers x proto port r = true →
  ∃ rule, rule ∈ egress_rules o ∧ policy_rule_covers rule x proto port ∧
    (is_any (ar_dest r) = false → eg_dest rule ≠ Host "*").
Proof.
  simpl. rewrite list_elem_of_omap. intros (rule & Hin & Hp) Hc. exists rule. split; [done|]. revert Hp Hc.
  unfold project_rule, rule_covers, policy_rule_covers, covers_flow.
  destruct (eg_allow rule); [|done]. simpl.
  destruct (eg_dest rule) as [h|c|u]; [|intros [= <-]|done]; simpl.
  - case_bool_decide as Hh.
    + intros [= <-]. subst. simpl. rewrite !andb_true_iff.
      intros [? ?]. split_and!; done || by left.
    + destruct (parse_ip h) as [ip|]; intros [= <-]; simpl; [|done].
      rewrite !andb_true_iff, bool_decide_eq_true.
      intros [[-> ?] ?]. split_and!; done || (by right) || congruence.
  - rewrite !andb_true_iff. intros [[Hc ?] ?]. by split_and!.
Qed.

(** ** Endpoints are addresses *)

Lemma socket_endpoint_wf ip : wf_ip ip → wf_ip (socket_endpoint ip).
Proof.
  unfold socket_endpoint, to_canonical. destruct ip as [|a]; [done|]. intros Ha.
  destruct (to_ipv4_mapped a) eqn:E; [|done]. by apply mapped_iff in E as [].
Qed.

Lemma judged_endpoint_wf ev ip : wf_ip ip → wf_ip (judged_endpoint ev ip).
Proof.
  intros Hip%socket_endpoint_wf. unfold judged_endpoint, dialed_endpoint.
  destruct (ev_ctx ev); [done..|]. destruct (socket_endpoint ip) as [|a]; [done|].
  destruct (nat64_embedded_v4 a) eqn:E; [|done]. by apply nat64_embedded_iff in E as [].
Qed.

Lemma allowed_flow_facts o ctx af al_names t cap ops now dest proto port :
  wf_ip dest → deny_all_others o = true →
  is_allow (verdict (build o ctx) af al_names (run ops (new cap)) t now dest proto port) = true →
  let x := judged_endpoint (build o ctx) dest in
  af = false ∧ "*" ∉ denied_hosts o ∧ ¬ policy_denies o dest ∧ ¬ policy_denies o x ∧
  ((∃ rule, rule ∈ egress_rules o ∧ policy_rule_covers rule x proto port ∧
      (ctx = ConnectProxy → protected_space x → eg_dest rule ≠ Host "*")) ∨
   (¬ protected_space x ∧
    ∃ k e q, gk_addr k = x ∧ minted ops k e ∧ now < ge_expires e ∧ q ∈ ge_quals e ∧
      qual_covers q proto port = true)).
Proof.
  intros Hwf Hpost. unfold verdict. destruct af; [done|]. cbn zeta.
  set (ev := build o ctx). set (x := judged_endpoint ev dest).
  assert (wf_ip x) as Hx by (by apply judged_endpoint_wf).
  rewrite evaluate_allow_iff. fold x. intros [(Hany & Hd & He) Hv].
  split_and!; [done| | | |].
  - intros Hs%(build_denied_any o ctx). fold ev in Hs. congruence.
  - by rewrite <-(build_denied o ctx).
  - by rewrite <-(build_denied o ctx).
  - destruct (List.find _ (ev_allows ev)) as [r|] eqn:Ef.
    + left. apply List.find_some in Ef as [Hin%list_elem_of_In Hc].
      destruct (build_allow_covers o ctx r x proto port Hin Hc) as (rule & Hr & Hcov & Hne).
      exists rule. split_and!; [done..|]. intros Hctx Hps%endpoint_protected_spec; [|done].
      apply Hne. rewrite Hps in Hv. unfold is_proxy in Hv. simpl in Hv.
      by rewrite bool_decide_eq_true_2 in Hv.
    + destruct Hv as [[Hcov Hp]|[Hdo _]]; [|simpl in Hdo; congruence]. right.
      split; [intros Hps%endpoint_protected_spec; [congruence|done]|].
      by apply (allowed_was_minted cap).
Qed.

(** [C19] Every allowed flow has an authority: under a default-deny policy, a
    flow the gate allows was judged with a healthy audit sink; no deny rule of
    the policy names its destination, as written or as reached; and either an
    allow rule of the policy covers the reached endpoint with its protocol and
    port (one that names an address, when the CONNECT proxy would dial
    protected space), or the endpoint is outside protected space and an
    unexpired, committed and unrevoked DNS grant on it covers the flow. *)
Theorem allowed_flow_has_authority o ctx af al_names t cap ops now dest proto port :
  wf_ip dest → deny_all_others o = true →
  is_allow (verdict (build o ctx) af al_names (run ops (new cap)) t now dest proto port) = true →
  let x := judged_endpoint (build o ctx) dest in
  af = false ∧ "*" ∉ denied_hosts o ∧ ¬ policy_denies o dest ∧ ¬ policy_denies o x ∧
  ((∃ rule, rule ∈ egress_rules o ∧ policy_rule_covers rule x proto port ∧
      (ctx = ConnectProxy → protected_space x → eg_dest rule ≠ Host "*")) ∨
   (¬ protected_space x ∧
    ∃ k e q, gk_addr k = x ∧ minted ops k e ∧ now < ge_expires e ∧ q ∈ ge_quals e ∧
      qual_covers q proto port = true)).
Proof. apply allowed_flow_facts. Qed.

(** A bare address carries no name authority: whatever grants are live, a
    CONNECT to an IP literal is judged by the static rules and the posture
    alone, so under default-deny it passes only on an address or port rule of
    the policy. *)
Lemma literal_flow_ignores_grants o ctx af dest proto port :
  deny_all_others o = true →
  is_allow (verdict_literal (build o ctx) af dest proto port) = true →
  let x := judged_endpoint (build o ctx) dest in
  ¬ policy_denies o dest ∧ ¬ policy_denies o x ∧
  ∃ rule, rule ∈ egress_rules o ∧ policy_rule_covers rule x proto port.
Proof.
  intros Hpost. unfold verdict_literal. destruct af; [done|]. cbn zeta.
  rewrite evaluate_allow_iff. intros [(Hany & Hd & He) Hv].
  rewrite !build_denied in *. split_and!; [done..|].
  destruct (List.find _ _) as [r|] eqn:Ef; [|destruct Hv as [[]|[]]; simpl in *; congruence].
  apply List.find_some in Ef as [Hin%list_elem_of_In Hc].
  destruct (build_allow_covers o ctx r _ proto port Hin Hc) as (rule & Hr & Hcov & _). eauto.
Qed.

(** ** Order of the allow rules *)

(** A port rule and a range, default-deny, as the parser stores them. *)
Definition shadowed_policy : OutboundPolicy :=
  mkOutbound ["443"] [] ["10.0.0.0/8"] [] [] [] true
    (sort_egress_rules [mkEgress true (Cidr "10.0.0.0/8") Tcp None;
                        mkEgress true (Host "*") Tcp (Some 443)]).

Definition lan_host : IpAddr := V4 167838211.

(** An enumerated range does not open protected space on a port that a
    port-only rule also covers: the CONNECT proxy looks at the first covering
    rule only, the destination-free one sorts first, and the flow the range
    allows on every other port is refused there. *)
Lemma port_rule_shadows_enumerated_range :
  parse_ip "10.1.2.3" = Some lan_host ∧
  Exists (λ r, policy_rule_covers r lan_host Tcp 443 ∧ eg_dest r = Cidr "10.0.0.0/8")
    (egress_rules shadowed_policy) ∧
  evaluate (build shadowed_policy ConnectProxy) lan_host Tcp 443 [] false
    = IpDeny "protected-endpoint" None ∧
  evaluate (build shadowed_policy ConnectProxy) lan_host Tcp 80 [] false
    = IpAllow "allow-cidr" (Some "cidr=10.0.0.0/8").
Proof.
  split_and!; [vm_compute; reflexivity| |vm_compute; reflexivity|vm_compute; reflexivity].
  change (egress_rules shadowed_policy) with
    [mkEgress true (Host "*") Tcp (Some 443); mkEgress true (Cidr "10.0.0.0/8") Tcp None].
  apply Exists_cons_tl, Exists_cons_hd. split; [|done]. split_and!; [done..|].
  vm_compute. reflexivity.
Qed.

(** ** Witnesses *)

Definition sample_policy : OutboundPolicy :=
  mkOutbound ["8.8.8.8"; "api.example.com"] [] ["192.0.2.0/24"] [] ["9.9.9.9"] ["198.51.100.0/24"]
    true [].

Lemma egress_deny_always_wins_witness :
  is_allow (evaluate (build sample_policy Namespaced) (V6 (mapped_of 151587081)) Tcp 443
              ["api.example.com"] true) = false.
Proof.
  apply egress_deny_always_wins. right; right. left. vm_compute. left.
Defined.

Lemma allowed_flow_has_authority_witness :
  ∃ k e q, gk_addr k = addr_b ∧ minted [OStage 1 0 clock0 "api.example.com" addr_b [TCP_ANY] 60; OCommit 1] k e
    ∧ 5 < ge_expires e ∧ q ∈ ge_quals e ∧ qual_covers q Tcp 443 = true.
Proof.
  pose proof (allowed_flow_has_authority sample_policy ConnectProxy false
    (new 4) 5 4 [OStage 1 0 clock0 "api.example.com" addr_b [TCP_ANY] 60; OCommit 1] 5 addr_b Tcp 443)
    as H.
  destruct H as (_ & _ & _ & _ & [(rule & Hin & (_ & _ & Hd) & _)|[_ H]]).
  - unfold addr_b. simpl. lia.
  - reflexivity.
  - vm_compute. reflexivity.
  - exfalso. change (egress_rules sample_policy) with
      [mkEgress true (Host "8.8.8.8") Tcp None; mkEgress true (Host "api.example.com") Tcp None;
       mkEgress true (Cidr "192.0.2.0/24") Tcp None; mkEgress false (Host "9.9.9.9") AnyProto None;
       mkEgress false (Cidr "198.51.100.0/24") AnyProto None] in Hin.
    elem_cases Hin; vm_compute in Hd; destruct Hd as [Hd|Hd] || idtac; discriminate.
  - exact H.
Defined.

