(* ===== verification/EgressTheorems.v ===== *)
(** * EgressTheorems: the policy surface and the name layer

    What [src/src/policy/outbound.rs] and [src/src/dnsgate/name_policy.rs]
    guarantee: projections and deny precedence preserve what a policy lets
    through, rule order is canonical, and a name resolves only on an allow. *)

From S2P Require Import Prelude Text IpAddr PolicyHost PolicyCidr Outbound IpEval AllowList.

(** ** Projections to the IP layer *)

Lemma elem_of_push_missing xs : ∀ out x, x ∈ push_missing out xs ↔ x ∈ out ∨ x ∈ xs.
Proof.
  unfold push_missing. induction xs as [|y xs IH]; intros out x; simpl; [set_solver|].
  rewrite IH. case_bool_decide; set_solver.
Qed.

(** A host route of a literal list contains the literals and nothing else. *)
Lemma literal_routes_contain hosts x : wf_ip x →
  (∃ c, c ∈ literal_routes hosts ∧ cidr_contains c x = true) ↔
  ∃ h, h ∈ hosts ∧ parse_ip h = Some x.
Proof.
  intros Wx. unfold literal_routes. setoid_rewrite list_elem_of_omap. split.
  - intros (c & (h & Hh & Hc) & Hx). exists h. split; [done|].
    destruct (parse_ip h) as [ip|] eqn:E; [|done]. simplify_eq/=.
    apply ip_literal_route in Hx; [by subst|by eapply parse_ip_wf|done].
  - intros (h & Hh & Hp). exists (ip_literal_cidr x). split.
    + exists h. by rewrite Hp.
    + by apply ip_literal_route.
Qed.

(** An IP-layer deny or allow of the policy as declared. *)
Definition declared_ip_deny (o : OutboundPolicy) (x : IpAddr) : Prop :=
  (∃ c, c ∈ denied_cidrs o ∧ cidr_contains c x = true) ∨
  (∃ h, h ∈ denied_hosts o ∧ parse_ip h = Some x).
Definition declared_ip_allow (o : OutboundPolicy) (x : IpAddr) : Prop :=
  (∃ c, c ∈ allowed_cidrs o ∧ cidr_contains c x = true) ∨
  (∃ h, h ∈ allowed o ∧ parse_ip h = Some x).

Definition in_any (ranges : list string) (x : IpAddr) : Prop :=
  ∃ c, c ∈ ranges ∧ cidr_contains c x = true.

Lemma in_any_app l1 l2 x : in_any (l1 ++ l2) x ↔ in_any l1 x ∨ in_any l2 x.
Proof. unfold in_any. setoid_rewrite elem_of_app. naive_solver. Qed.

Lemma ip_layer_denies_mean o x : wf_ip x → in_any (ip_layer_denies o) x ↔ declared_ip_deny o x.
Proof.
  intros Wx. unfold in_any, ip_layer_denies, declared_ip_deny.
  setoid_rewrite elem_of_push_missing. rewrite <-literal_routes_contain by done. naive_solver.
Qed.

(** The loop of [ip_layer_allows]: candidates no deny range covers. *)
Lemma elem_of_allows_loop denies cs : ∀ out x,
  x ∈ foldl (λ out cidr,
        if negb (bool_decide (cidr ∈ out)) && negb (existsb (λ d, cidr_covers d cidr) denies)
        then out ++ [cidr] else out) out cs ↔
  x ∈ out ∨ (x ∈ cs ∧ existsb (λ d, cidr_covers d x) denies = false).
Proof.
  induction cs as [|c cs IH]; intros out x; simpl; [set_solver|]. rewrite IH.
  rewrite elem_of_cons. case_bool_decide; simpl; [naive_solver|].
  destruct (existsb (λ d, cidr_covers d c) denies) eqn:E; simpl;
    rewrite ?elem_of_app, ?list_elem_of_singleton; intuition (subst; auto; congruence).
Qed.

(** A range a deny covers has no address outside the denies. *)
Lemma covered_range_denied denies c x : wf_ip x →
  existsb (λ d, cidr_covers d c) denies = true → cidr_contains c x = true → in_any denies x.
Proof.
  intros Wx (d & Hd & Hc)%existsb_true_iff Hx. exists d. split; [done|].
  by eapply cidr_covers_subset.
Qed.

(** The IP-layer projections of a policy say what it declares: the deny
    projection holds an address exactly when a [deny cidr=] or a denied IP
    literal names it, and, outside those, the allow projection holds it exactly
    when an [allow cidr=] or an allowed literal does - dropping the allow
    ranges a deny covers loses nothing. *)
Lemma ip_layer_projection o x :
  wf_ip x →
  (in_any (ip_layer_denies o) x ↔ declared_ip_deny o x) ∧
  (in_any (ip_layer_allows o) x ∧ ¬ declared_ip_deny o x ↔
   declared_ip_allow o x ∧ ¬ declared_ip_deny o x).
Proof.
  intros Wx. pose proof (ip_layer_denies_mean o x Wx) as Hd. split; [done|].
  rewrite <-Hd. unfold declared_ip_allow. rewrite <-literal_routes_contain by done.
  unfold in_any at 1. setoid_rewrite elem_of_allows_loop. setoid_rewrite elem_of_app. split.
  - intros [(c & [Hc|[Hc _]] & Hx) Hn]; [by apply elem_of_nil in Hc|]. split; [|done].
    destruct Hc; [left|right]; eauto.
  - intros [Ha Hn]. split; [|done].
    assert (∃ c, (c ∈ allowed_cidrs o ∨ c ∈ literal_routes (allowed o)) ∧ cidr_contains c x = true)
      as (c & Hc & Hx) by (destruct Ha as [(c & ? & ?)|(c & ? & ?)]; eauto).
    exists c. split; [right; split; [done|]|done].
    destruct (existsb _ _) eqn:E; [|done]. destruct Hn. by eapply covered_range_denied.
Qed.

(** ** Deny precedence *)

Section precedence.
Context (domain_to_ascii : string → option string).
Notation prune := (apply_outbound_deny_precedence domain_to_ascii).

Lemma filter_filter_id {A} (p q : A → bool) l :
  (∀ x, x ∈ l → p x = true → q x = true) → List.filter q (List.filter p l) = List.filter p l.
Proof.
  induction l as [|x l IH]; intros H; simpl; [done|].
  assert (List.filter q (List.filter p l) = List.filter p l) as E
    by (apply IH; intros; apply H; [set_solver|done]).
  destruct (p x) eqn:Ep; simpl; [|done]. rewrite H by (done || set_solver). by rewrite E.
Qed.

Lemma filter_idem {A} (p : A → bool) l : List.filter p (List.filter p l) = List.filter p l.
Proof. by apply filter_filter_id. Qed.

(** The IP-layer authority of a flat policy: an allow range or literal, no
    deny range or literal, and no [deny host="*"]. *)
Definition ip_effective (o : OutboundPolicy) (x : IpAddr) : Prop :=
  "*" ∉ denied_hosts o ∧ ¬ declared_ip_deny o x ∧
  ∃ c, c ∈ allowed_cidrs o ∧ cidr_contains c x = true.

(** Deny precedence prunes without changing the policy: pruning twice is
    pruning once, the deny rules and the posture are untouched, and exactly
    the same addresses have an allow range that no deny rule takes away. *)
Lemma deny_precedence_preserves o :
  prune (prune o) = prune o ∧
  denied_hosts (prune o) = denied_hosts o ∧ denied_cidrs (prune o) = denied_cidrs o ∧
  deny_all_others (prune o) = deny_all_others o ∧
  (∀ x, wf_ip x → ip_effective (prune o) x ↔ ip_effective o x).
Proof.
  split_and!; [|done..|].
  - unfold apply_outbound_deny_precedence at 1. destruct o as [al apq ac acpq dh dc dao sr].
    unfold apply_outbound_deny_precedence.
    cbn [allowed allowed_port_qualified allowed_cidrs allowed_cidrs_port_qualified denied_hosts
         denied_cidrs deny_all_others stored_rules].
    change (ip_layer_denies (mkOutbound _ _ _ _ dh dc dao _)) with
      (ip_layer_denies (mkOutbound al apq ac acpq dh dc dao sr)).
    f_equal; rewrite ?filter_idem; try done.
  - intros x Wx. unfold ip_effective. cbn. split.
    + intros (Hs & Hd & c & [Hc%list_elem_of_In _]%list_elem_of_In%filter_In & Hx). eauto.
    + intros (Hs & Hd & c & Hc & Hx). split_and!; [done..|]. exists c. split; [|done].
      apply list_elem_of_In, filter_In. split; [by apply list_elem_of_In|].
      apply negb_true_iff. unfold cidr_denied. apply orb_false_iff. split.
      * apply not_true_iff_false. intros (d & Hin & ->%bool_decide_eq_true)%existsb_true_iff. done.
      * apply not_true_iff_false. intros Hcov. apply Hd, ip_layer_denies_mean; [done|].
        by eapply covered_range_denied.
Qed.
End precedence.

(** ** Canonical rule order *)

#[export] Instance rule_le_total : Total rule_le.
Proof. intros a b. apply (total ord_le). Qed.
#[export] Instance rule_le_trans : Transitive rule_le.
Proof. intros a b c. apply (transitivity (R := ord_le)). Qed.

Lemma insert_rule_perm r rs : insert_rule r rs ≡ₚ r :: rs.
Proof.
  induction rs as [|x rs IH]; simpl; [done|]. case_decide; [done|].
  rewrite IH. apply Permutation_swap.
Qed.

Lemma sort_egress_perm rs : sort_egress_rules rs ≡ₚ rs.
Proof.
  induction rs as [|r rs IH]; simpl; [done|].
  etransitivity; [apply insert_rule_perm|]. by rewrite IH.
Qed.

Lemma insert_rule_sorted r rs : StronglySorted rule_le rs → StronglySorted rule_le (insert_rule r rs).
Proof.
  induction rs as [|x rs IH]; intros Hs; simpl; [repeat constructor|].
  apply StronglySorted_cons in Hs as [Hx Hs]. case_decide as Hrx.
  - constructor; [by constructor|]. constructor; [done|].
    eapply Forall_impl; [done|]. intros y Hy. by transitivity x.
  - constructor; [by apply IH|]. rewrite insert_rule_perm. constructor; [|done].
    by destruct (total rule_le r x).
Qed.

Lemma sort_egress_sorted rs : StronglySorted rule_le (sort_egress_rules rs).
Proof. induction rs as [|r rs IH]; simpl; [constructor|]. by apply insert_rule_sorted. Qed.

(** Sorted permutations of one another agree when the order separates their
    elements. *)
Lemma sorted_perm_unique l1 : ∀ l2,
  StronglySorted rule_le l1 → StronglySorted rule_le l2 → l1 ≡ₚ l2 →
  (∀ a b, a ∈ l1 → b ∈ l1 → rule_le a b → rule_le b a → a = b) → l1 = l2.
Proof.
  induction l1 as [|x l1 IH]; intros l2 S1 S2 HP Hsep.
  { symmetry. by apply Permutation_nil. }
  destruct l2 as [|y l2]; [by apply Permutation_nil_r in HP|].
  apply StronglySorted_cons in S1 as [F1 S1], S2 as [F2 S2]. rewrite Forall_forall in F1, F2.
  assert (x = y) as ->.
  { assert (y ∈ x :: l1) as Hy by (rewrite HP; set_solver).
    assert (x ∈ y :: l2) as Hx by (rewrite <-HP; set_solver).
    apply elem_of_cons in Hy as [->|Hy]; [done|]. apply elem_of_cons in Hx as [->|Hx]; [done|].
    apply Hsep; [set_solver..| |]; auto. }
  f_equal. apply IH; [done..| |]; [by eapply Permutation_cons_inv|].
  intros a b Ha Hb. apply Hsep; set_solver.
Qed.

(** Rule order is canonical: sorting keeps exactly the declared rules,
    allows before denies, and any two declaration orders of the same rules sort
    to the same list, provided no two distinct rules agree on effect,
    destination text, protocol and port. *)
Lemma sort_egress_rules_canonical rs1 rs2 :
  rs1 ≡ₚ rs2 →
  (∀ a b, a ∈ rs1 → b ∈ rs1 → rule_key a = rule_key b → a = b) →
  sort_egress_rules rs1 ≡ₚ rs1 ∧ StronglySorted rule_le (sort_egress_rules rs1) ∧
  sort_egress_rules rs1 = sort_egress_rules rs2.
Proof.
  intros HP Hsep. split_and!; [apply sort_egress_perm|apply sort_egress_sorted|].
  apply sorted_perm_unique; [apply sort_egress_sorted..|by rewrite !sort_egress_perm|].
  intros a b Ha Hb Hab Hba. rewrite sort_egress_perm in Ha, Hb.
  apply Hsep; [done..|]. by apply (anti_symm ord_le).
Qed.

(** ** The name layer *)

Section names.
Context (domain_to_ascii : string → option string).
Notation evaluate_name := (evaluate_name domain_to_ascii).
Notation canonical_name := (canonical_name domain_to_ascii).
Notation host_matches := (host_matches domain_to_ascii).
Notation rule_covers_name := (rule_covers_name domain_to_ascii).

(** A deny rule of the policy names the canonical name. *)
Definition name_denied (o : OutboundPolicy) (canonical : string) : Prop :=
  (∃ h, h ∈ denied_hosts o ∧ host_matches canonical h = true) ∨
  (∃ c ip, c ∈ denied_cidrs o ∧ parse_ip canonical = Some ip ∧ cidr_contains c ip = true).

Lemma elem_of_name_quals o canonical q :
  q ∈ name_quals domain_to_ascii o canonical ↔
  ∃ r, r ∈ egress_rules o ∧ rule_covers_name canonical r = true ∧ q = mkQual (eg_proto r) (eg_port r).
Proof.
  unfold name_quals. rewrite elem_of_sort_dedup, list_elem_of_fmap. split.
  - intros (r & -> & [Hin Hc]%list_elem_of_In%filter_In). exists r. by rewrite list_elem_of_In.
  - intros (r & Hin & Hc & ->). exists r. split; [done|].
    apply list_elem_of_In, filter_In. by rewrite <-list_elem_of_In.
Qed.

Lemma name_quals_nil o canonical :
  name_quals domain_to_ascii o canonical = [] ↔
  ¬ ∃ r, r ∈ egress_rules o ∧ rule_covers_name canonical r = true.
Proof.
  split.
  - intros Hn (r & Hin & Hc).
    assert (mkQual (eg_proto r) (eg_port r) ∈ name_quals domain_to_ascii o canonical) as H
      by (apply elem_of_name_quals; eauto).
    rewrite Hn in H. by apply elem_of_nil in H.
  - intros Hn. destruct (name_quals _ o canonical) as [|q qs] eqn:E; [done|]. destruct Hn.
    assert (q ∈ name_quals domain_to_ascii o canonical) as (r & ? & ? & _)%elem_of_name_quals
      by (rewrite E; set_solver). eauto.
Qed.

Lemma find_denied_None o canonical :
  List.find (host_matches canonical) (denied_hosts o) = None →
  (parse_ip canonical ≫= λ ip, List.find (λ c, cidr_contains c ip) (denied_cidrs o)) = None →
  ¬ name_denied o canonical.
Proof.
  intros H1 H2 [(h & Hin%list_elem_of_In & Hm)|(c & ip & Hin%list_elem_of_In & Hp & Hc)].
  - by rewrite (List.find_none _ _ H1 h Hin) in Hm.
  - rewrite Hp in H2. simpl in H2. by rewrite (List.find_none _ _ H2 c Hin) in Hc.
Qed.

(** Both halves of the verdict, for the components that ask for it. *)
Lemma name_verdict_facts o qname :
  let out := evaluate_name o qname in
  let canonical := canonical_name qname in
  let covered := ∃ r, r ∈ egress_rules o ∧ rule_covers_name canonical r = true in
  eo_canonical out = canonical ∧
  (eo_verdict out = NameAllow ↔
     ¬ name_denied o canonical ∧ (covered ∨ deny_all_others o = false)) ∧
  (eo_verdict out = NameAllow → eo_quals out ≠ [] ∧
     (covered → ∀ q, q ∈ eo_quals out ↔ ∃ r, r ∈ egress_rules o ∧
        rule_covers_name canonical r = true ∧ q = mkQual (eg_proto r) (eg_port r)) ∧
     (¬ covered → eo_quals out = [mkQual AnyProto None])) ∧
  (eo_verdict out ≠ NameAllow → eo_quals out = []).
Proof.
  cbn zeta. unfold IpEval.evaluate_name. set (canonical := canonical_name qname).
  pose proof (name_quals_nil o canonical) as Hnil.
  pose proof (elem_of_name_quals o canonical) as Hq.
  destruct (List.find _ (denied_hosts o)) as [h|] eqn:E1.
  { apply List.find_some in E1 as [Hin%list_elem_of_In Hm]. simpl. split_and!; try done.
    split; [done|]. intros [Hn _]. destruct Hn. left. eauto. }
  destruct (parse_ip canonical ≫= _) as [c|] eqn:E2.
  { apply bind_Some in E2 as (ip & Hip & [Hin%list_elem_of_In Hc]%List.find_some). simpl.
    split_and!; try done. split; [done|]. intros [Hn _]. destruct Hn. right. eauto. }
  pose proof (find_denied_None o canonical E1 E2) as Hnd.
  destruct (name_quals domain_to_ascii o canonical) as [|q qs].
  - rewrite (bool_decide_eq_true_2 ([] = [])) by done. assert (¬ ∃ r, r ∈ egress_rules o ∧
      rule_covers_name canonical r = true) as Hnc by (by apply Hnil).
    destruct (deny_all_others o); simpl; split_and!; try done; naive_solver.
  - rewrite bool_decide_eq_false_2 by done. rewrite andb_false_r. simpl.
    assert (∃ r, r ∈ egress_rules o ∧ rule_covers_name canonical r = true) as Hc.
    { destruct (proj1 (Hq q)) as (r & ? & ? & _); [set_solver|eauto]. }
    split_and!; try done; naive_solver.
Qed.

(** A name resolves only on authority: the verdict on a query name is
    [Allow] exactly when no deny rule names its canonical spelling and either
    an allow rule covers it or the posture is open; the qualifiers handed to
    the grants are then never empty and are exactly those of the covering
    allow rules - or the unrestricted tag when the posture alone admits the
    name. A refused name hands out none. *)
Lemma name_verdict_spec o qname :
  let out := evaluate_name o qname in
  let canonical := canonical_name qname in
  let covered := ∃ r, r ∈ egress_rules o ∧ rule_covers_name canonical r = true in
  eo_canonical out = canonical ∧
  (eo_verdict out = NameAllow ↔
     ¬ name_denied o canonical ∧ (covered ∨ deny_all_others o = false)) ∧
  (eo_verdict out = NameAllow → eo_quals out ≠ [] ∧
     (covered → ∀ q, q ∈ eo_quals out ↔ ∃ r, r ∈ egress_rules o ∧
        rule_covers_name canonical r = true ∧ q = mkQual (eg_proto r) (eg_port r)) ∧
     (¬ covered → eo_quals out = [mkQual AnyProto None])) ∧
  (eo_verdict out ≠ NameAllow → eo_quals out = []).
Proof. apply name_verdict_facts. Qed.
End names.

