(* ===== verification/DnsWire.v ===== *)
(** * DnsWire: the DNS message codec of the gate

    [src/src/dnsgate/wire.rs]: names, resource-record headers, client queries,
    the forwarded query and the answers the gate builds itself; and the
    correlation checks of [src/src/dnsgate/wire/response.rs].  A buffer is a
    list of bytes; an access the source guards by a length test reads zero
    outside the buffer, which the guards exclude. *)

From S2P Require Import Prelude Text IpAddr.

Notation buffer := (list ascii).

Definition HEADER_LEN : nat := 12.

Definition RCODE_FORMERR : Z := 1.
Definition RCODE_SERVFAIL : Z := 2.
Definition RCODE_NXDOMAIN : Z := 3.
Definition RCODE_NOTIMP : Z := 4.
Definition RCODE_REFUSED : Z := 5.

Definition RRTYPE_OPT : Z := 41.

(** ** Bytes *)

Definition byte_at (buf : buffer) (i : nat) : Z := default 0 (code <$> buf !! i).
Definition of_byte (n : Z) : ascii := ascii_of_nat (Z.to_nat n).

(** [u16::from_be_bytes] and [u32::from_be_bytes] at an offset. *)
Definition be16 (buf : buffer) (i : nat) : Z := byte_at buf i * 256 + byte_at buf (i + 1).
Definition be32 (buf : buffer) (i : nat) : Z := be16 buf i * 65536 + be16 buf (i + 2).

Definition to_be16 (n : Z) : buffer := [of_byte (n / 256); of_byte (n mod 256)].

(** [buf.get(lo..hi)]. *)
Definition slice (buf : buffer) (lo hi : nat) : option buffer :=
  if bool_decide (lo ≤ hi)%nat && bool_decide (hi ≤ length buf)%nat
  then Some (take (hi - lo) (drop lo buf)) else None.

Definition text (bs : buffer) : string := String.string_of_list_ascii bs.
Definition octets (s : string) : buffer := String.list_ascii_of_string s.

(** ** Names *)

(** The loop of [decode_name].  The outer option is the fuel: every step
    follows a pointer, of which there are at most 16, or reads a label, which
    takes at least two of at most 255 octets. *)
Fixpoint decode_loop (fuel : nat) (buf : buffer) (follow_ptr : bool) (labels : list string)
    (total_len pos : nat) (end_ : option nat) (jumps : nat) : option (option (string * nat)) :=
  match fuel with
  | O => None
  | S fuel' =>
      match buf !! pos with
      | None => Some None
      | Some b =>
          let b := code b in
          if Z.land b 0xC0 =? 0xC0 then
            if negb follow_ptr then Some None
            else match buf !! (pos + 1)%nat with
            | None => Some None
            | Some lo =>
                let ptr := Z.to_nat (Z.lor (Z.shiftl (Z.land b 0x3F) 8) (code lo)) in
                let end_ := match end_ with Some e => Some e | None => Some (pos + 2)%nat end in
                if bool_decide (pos ≤ ptr)%nat then Some None
                else if bool_decide (16 < S jumps)%nat then Some None
                else decode_loop fuel' buf follow_ptr labels total_len ptr end_ (S jumps)
            end
          else if negb (Z.land b 0xC0 =? 0) then Some None
          else if b =? 0 then
            Some (Some (join "." labels, default (pos + 1)%nat end_))
          else
            let len := Z.to_nat b in
            let total_len := (total_len + (len + 1))%nat in
            if bool_decide (63 < len)%nat || bool_decide (255 < total_len)%nat then Some None
            else match slice buf (pos + 1) (pos + 1 + len) with
            | None => Some None
            | Some bytes =>
                if utf8_valid (text bytes)
                then decode_loop fuel' buf follow_ptr (labels ++ [text bytes]) total_len
                       (pos + (1 + len)) end_ jumps
                else Some None
            end
      end
  end.

Definition DECODE_FUEL : nat := 160.

Definition decode_name (buf : buffer) (off : nat) (follow_ptr : bool) : option (string * nat) :=
  default None (decode_loop DECODE_FUEL buf follow_ptr [] 1 off None 0).

(** The label loop of [encode_name]. *)
Fixpoint encode_labels (labels : list string) (out : buffer) : option buffer :=
  match labels with
  | [] => Some out
  | label :: labels' =>
      let b := octets label in
      if bool_decide (b = []) || bool_decide (63 < length b)%nat then None
      else encode_labels labels' (out ++ of_byte (Z.of_nat (length b)) :: b)
  end.

Definition encode_name (name : string) : option buffer :=
  match (if is_empty name then Some [] else encode_labels (split "." name) []) with
  | None => None
  | Some out =>
      let out := out ++ [of_byte 0] in
      if bool_decide (255 < length out)%nat then None else Some out
  end.

(** ** Resource records *)

Record Rr := mkRr {
  rr_name : string;
  rr_rtype : Z;
  rr_class : Z;
  rr_ttl : Z;
  rdata_off : nat;
  rdata_len : nat;
}.

Definition read_rr (buf : buffer) (off : nat) : option (Rr * nat) :=
  match decode_name buf off true with
  | None => None
  | Some (name, pos) =>
      match slice buf pos (pos + 10) with
      | None => None
      | Some fixed =>
          let len := Z.to_nat (be16 fixed 8) in
          let data := (pos + 10)%nat in
          let next := (data + len)%nat in
          if bool_decide (length buf < next)%nat then None
          else Some (mkRr name (be16 fixed 0) (be16 fixed 2) (be32 fixed 4) data len, next)
      end
  end.

(** ** Queries *)

Record DnsQuery := mkQuery {
  q_id : Z;
  flags_relay : Z;
  qname : string;
  qtype : Z;
  qclass : Z;
  question_end : nat;
  additional_start : nat;
  arcount : Z;
  edns_udp_size : option Z;
}.

Inductive QueryReject := RejDrop | RejFormErr | RejNotImp.

Record QueryError := mkQueryError {
  reject : QueryReject;
  err_qname : option string;
  err_qtype : option Z;
}.

(** The walk over answer and authority records. *)
Fixpoint skip_rrs (n : nat) (buf : buffer) (p : nat) : option nat :=
  match n with
  | O => Some p
  | S n' => match read_rr buf p with
            | None => None
            | Some (_, next) => skip_rrs n' buf next
            end
  end.

(** The walk over the additional section, with the EDNS payload size. *)
Fixpoint walk_additional (n : nat) (buf : buffer) (p : nat) (edns : option Z)
    : option (nat * option Z) :=
  match n with
  | O => Some (p, edns)
  | S n' =>
      match read_rr buf p with
      | None => None
      | Some (rr, next) =>
          if rr_rtype rr =? RRTYPE_OPT then
            if negb (is_empty (rr_name rr)) || bool_decide (is_Some edns) then None
            else walk_additional n' buf next (Some (rr_class rr))
          else walk_additional n' buf next edns
      end
  end.

(** [u16::saturating_add]. *)
Definition saturating_add16 (a b : Z) : Z := Z.min (a + b) U16_MAX.

Definition parse_query (buf : buffer) : result DnsQuery QueryError :=
  if bool_decide (length buf < HEADER_LEN)%nat then Err (mkQueryError RejDrop None None)
  else
    let flags := be16 buf 2 in
    if negb (Z.land flags 0x8000 =? 0) then Err (mkQueryError RejFormErr None None)
    else if negb (Z.land flags 0x7800 =? 0) then Err (mkQueryError RejNotImp None None)
    else if negb (Z.land flags 0x0040 =? 0) then Err (mkQueryError RejFormErr None None)
    else if negb (be16 buf 4 =? 1) then Err (mkQueryError RejFormErr None None)
    else
      let an := be16 buf 6 in
      let ns := be16 buf 8 in
      let ar := be16 buf 10 in
      match decode_name buf HEADER_LEN false with
      | None => Err (mkQueryError RejFormErr None None)
      | Some (name, pos) =>
          match slice buf pos (pos + 4) with
          | None => Err (mkQueryError RejFormErr (Some name) None)
          | Some qf =>
              let ty := be16 qf 0 in
              let question_end := (pos + 4)%nat in
              let bad := Err (mkQueryError RejFormErr (Some name) (Some ty)) in
              match skip_rrs (Z.to_nat (saturating_add16 an ns)) buf question_end with
              | None => bad
              | Some additional_start =>
                  match walk_additional (Z.to_nat ar) buf additional_start None with
                  | None => bad
                  | Some (p, edns) =>
                      if negb (bool_decide (p = length buf)) then bad
                      else Ok (mkQuery (be16 buf 0) (Z.land flags 0x0130) name ty (be16 qf 2)
                                 question_end additional_start ar edns)
                  end
              end
          end
      end.

(** ** Messages the gate builds *)

Definition build_forward_query (pkt : buffer) (q : DnsQuery) (canonical : string) : option buffer :=
  match encode_name canonical with
  | None => None
  | Some enc =>
      Some (take 2 pkt ++ to_be16 (flags_relay q) ++ to_be16 1 ++ to_be16 0 ++ to_be16 0
            ++ to_be16 (arcount q) ++ enc ++ to_be16 (qtype q) ++ to_be16 (qclass q)
            ++ drop (additional_start q) pkt)
  end.

(** [&pkt[HEADER_LEN..q.question_end]]. *)
Definition question_bytes (pkt : buffer) (q : DnsQuery) : buffer :=
  take (question_end q - HEADER_LEN) (drop HEADER_LEN pkt).

Definition refusal_answer (pkt : buffer) (q : option DnsQuery) (rcode : Z) : option buffer :=
  if bool_decide (length pkt < HEADER_LEN)%nat then None
  else Some (take 2 pkt ++ [of_byte (Z.lor (Z.land (byte_at pkt 2) 0x01) 0x80)]
             ++ [of_byte (Z.lor 0x80 rcode)]
             ++ match q with
                | Some q => to_be16 1 ++ to_be16 0 ++ to_be16 0 ++ to_be16 (arcount q)
                            ++ question_bytes pkt q ++ drop (additional_start q) pkt
                | None => replicate 8 (of_byte 0)
                end).

Definition truncated_answer (pkt : buffer) (q : DnsQuery) : buffer :=
  take 2 pkt ++ [of_byte (Z.lor (Z.land (byte_at pkt 2) 0x01) 0x82)] ++ [of_byte 0x80]
  ++ to_be16 1 ++ to_be16 0 ++ to_be16 0 ++ to_be16 (arcount q)
  ++ question_bytes pkt q ++ drop (additional_start q) pkt.

(** ** Labels for audit details *)

Definition qtype_name (ty : Z) : string :=
  match List.find (λ p, p.1 =? ty)
    [(1, "A"); (2, "NS"); (5, "CNAME"); (6, "SOA"); (12, "PTR"); (15, "MX"); (16, "TXT");
     (28, "AAAA"); (33, "SRV"); (41, "OPT"); (43, "DS"); (46, "RRSIG"); (47, "NSEC");
     (48, "DNSKEY"); (64, "SVCB"); (65, "HTTPS"); (255, "ANY")] with
  | Some (_, name) => name
  | None => "TYPE" +:+ show_dec ty
  end.

Definition rcode_name (rcode : Z) : string :=
  match List.find (λ p, p.1 =? rcode)
    [(0, "noerror"); (1, "formerr"); (2, "servfail"); (3, "nxdomain"); (4, "notimp");
     (5, "refused")] with
  | Some (_, name) => name
  | None => "RCODE" +:+ show_dec rcode
  end.

(** ** Correlating an answer *)

Definition response_truncated (buf : buffer) : bool :=
  bool_decide (HEADER_LEN ≤ length buf)%nat && negb (Z.land (byte_at buf 2) 0x02 =? 0).

Definition eq_ignore_ascii_case (a b : string) : bool :=
  bool_decide (to_ascii_lowercase a = to_ascii_lowercase b).

Definition response_matches (resp : buffer) (id : Z) (canonical : string) (ty cls : Z) : bool :=
  if bool_decide (length resp < HEADER_LEN)%nat || negb (be16 resp 0 =? id)
     || (Z.land (byte_at resp 2) 0x80 =? 0) then false
  else if be16 resp 4 <? 1 then false
  else match decode_name resp HEADER_LEN true with
  | None => false
  | Some (name, pos) =>
      if negb (eq_ignore_ascii_case name canonical) then false
      else match slice resp pos (pos + 4) with
      | None => false
      | Some qf => (be16 qf 0 =? ty) && (be16 qf 2 =? cls)
      end
  end.
