(* ===== verification/DnsTheorems.v ===== *)
(** * DnsTheorems: the DNS codec

    Name decoding terminates and stays in bounds, encoded names decode to
    themselves, a decoded query describes slices that exist, and what the gate
    sends - upstream or back to the client - carries the question it decoded. *)

From S2P Require Import Prelude Text IpAddr PolicyHost PolicyCidr ProtectedSpace HostMatch DnsWire.

(** ** Bytes *)

Lemma code_of_byte n : 0 <= n < 256 → code (of_byte n) = n.
Proof.
  intros Hn. unfold code, of_byte. rewrite nat_ascii_embedding by lia. lia.
Qed.

Lemma text_octets s : text (octets s) = s.
Proof. apply String.string_of_list_ascii_of_string. Qed.

Lemma slice_Some buf lo hi bs : slice buf lo hi = Some bs ↔
  (lo ≤ hi)%nat ∧ (hi ≤ length buf)%nat ∧ bs = take (hi - lo) (drop lo buf).
Proof. unfold slice. repeat case_bool_decide; naive_solver. Qed.

(** A slice of a message with a known middle part. *)
Lemma slice_app (pre mid post : buffer) :
  slice (pre ++ mid ++ post) (length pre) (length pre + length mid) = Some mid.
Proof.
  apply slice_Some. rewrite !length_app. split_and!; [lia..|].
  rewrite drop_app_length. replace (length pre + length mid - length pre)%nat with (length mid) by lia.
  by rewrite take_app_length.
Qed.

Lemma land_C0 n : 0 <= n < 64 → Z.land n 0xC0 = 0.
Proof.
  intros Hn. rewrite (land_top_bits 8 n 2 192) by (lia || reflexivity).
  change (2 ^ (8 - 2)) with 64. rewrite Z.div_small by lia. done.
Qed.

(** [Z.lor] stays within a width. *)
Lemma lor_range k a b : 0 < k → 0 <= a < 2 ^ k → 0 <= b < 2 ^ k → 0 <= Z.lor a b < 2 ^ k.
Proof.
  intros Hk Ha Hb. assert (0 <= Z.lor a b) as H0 by (apply Z.lor_nonneg; lia).
  split; [done|]. destruct (Z.eq_dec (Z.lor a b) 0) as [->|]; [lia|].
  apply Z.log2_lt_pow2; [lia|]. rewrite Z.log2_lor by lia.
  assert (∀ x, 0 <= x < 2 ^ k → Z.log2 x < k) as Hlog.
  { intros x Hx. destruct (Z.eq_dec x 0) as [->|]; [done|]. apply Z.log2_lt_pow2; lia. }
  apply Z.max_lub_lt; by apply Hlog.
Qed.

(** ** Decoding terminates *)

(** Fuel left against jumps and octets left. *)
Lemma decode_loop_total fuel : ∀ buf fp labels total pos end_ jumps,
  (total ≤ 255)%nat → (jumps ≤ 16)%nat →
  (2 * (17 - jumps) + (256 - total) < 2 * fuel)%nat →
  is_Some (decode_loop fuel buf fp labels total pos end_ jumps).
Proof.
  induction fuel as [|fuel IH]; intros buf fp labels total pos end_ jumps Ht Hj Hf; [lia|].
  cbn [decode_loop]. destruct (buf !! pos) as [b|]; [|done].
  pose proof (code_range b) as Hb. destruct (Z.land (code b) 192 =? 192).
  - destruct (negb fp); [done|]. destruct (buf !! (pos + 1)%nat); [|done].
    case_bool_decide; [done|]. case_bool_decide; [done|]. apply IH; lia.
  - destruct (negb _); [done|]. destruct (Z.eqb_spec (code b) 0); [done|].
    destruct (_ || _) eqn:E; [done|]. apply orb_false_iff in E as [E1 E2].
    rewrite bool_decide_eq_false in E1, E2. destruct (slice _ _ _); [|done].
    destruct (utf8_valid _); [|done]. apply IH; lia.
Qed.

Lemma decode_name_runs buf off fp :
  decode_loop DECODE_FUEL buf fp [] 1 off None 0 = Some (decode_name buf off fp).
Proof.
  unfold decode_name. destruct (decode_loop_total DECODE_FUEL buf fp [] 1 off None 0) as [r ->];
    unfold DECODE_FUEL; lia || done.
Qed.

(** More fuel gives the same result. *)
Lemma decode_loop_mono fuel : ∀ buf fp labels total pos end_ jumps r n,
  decode_loop fuel buf fp labels total pos end_ jumps = Some r →
  decode_loop (fuel + n) buf fp labels total pos end_ jumps = Some r.
Proof.
  induction fuel as [|fuel IH]; intros buf fp labels total pos end_ jumps r n; [done|].
  cbn [decode_loop Nat.add]. repeat case_match; try done; apply IH.
Qed.

(** ** Bounds *)

Lemma decode_loop_bounds fuel : ∀ buf fp labels total pos end_ jumps name e,
  decode_loop fuel buf fp labels total pos end_ jumps = Some (Some (name, e)) →
  match end_ with
  | Some e0 => e = e0
  | None => (pos < e ≤ length buf)%nat
  end.
Proof.
  induction fuel as [|fuel IH]; intros buf fp labels total pos end_ jumps name e; [done|].
  cbn [decode_loop]. destruct (buf !! pos) as [b|] eqn:Eb; [|done].
  pose proof (lookup_lt_Some _ _ _ Eb) as Hpos.
  destruct (Z.land (code b) 192 =? 192).
  - destruct (negb fp); [done|]. destruct (buf !! (pos + 1)%nat) as [lo|] eqn:El; [|done].
    pose proof (lookup_lt_Some _ _ _ El). do 2 (case_bool_decide; [done|]). intros Hi%IH.
    destruct end_; [done|]. lia.
  - destruct (negb _); [done|]. destruct (code b =? 0).
    + intros [= _ <-]. destruct end_; simpl; lia.
    + destruct (_ || _); [done|]. destruct (slice _ _ _) as [bs|] eqn:Es; [|done].
      destruct (utf8_valid _); [|done]. intros H%IH. destruct end_; [done|]. lia.
Qed.

Lemma decode_name_bounds buf off fp name e :
  decode_name buf off fp = Some (name, e) → (off < e ≤ length buf)%nat.
Proof.
  intros H. pose proof (decode_name_runs buf off fp) as Hr. rewrite H in Hr.
  by apply decode_loop_bounds in Hr.
Qed.

(** Name decoding terminates within its bounds: the loop never runs out
    of fuel, more fuel never changes its result, and a decoded name ends past
    its first octet and inside the buffer - compression pointers included. *)
Lemma decode_name_terminates buf off fp :
  (∀ n, decode_loop (DECODE_FUEL + n) buf fp [] 1 off None 0 = Some (decode_name buf off fp)) ∧
  (∀ name e, decode_name buf off fp = Some (name, e) → (off < e ≤ length buf)%nat).
Proof.
  split; [|apply decode_name_bounds]. intros n. apply decode_loop_mono, decode_name_runs.
Qed.

(** ** Encoding *)

(** The wire form of a sequence of labels, without the root. *)
Definition wire (labels : list string) : buffer :=
  mjoin ((λ l, of_byte (Z.of_nat (length (octets l))) :: octets l) <$> labels).

Definition good_label (l : string) : Prop := octets l ≠ [] ∧ (length (octets l) ≤ 63)%nat.

Lemma encode_labels_wire labels : ∀ out r, encode_labels labels out = Some r →
  r = out ++ wire labels ∧ Forall good_label labels.
Proof.
  induction labels as [|l labels IH]; intros out r; cbn [encode_labels].
  { intros [= <-]. split; [by rewrite app_nil_r|constructor]. }
  destruct (_ || _) eqn:E; [done|]. apply orb_false_iff in E as [E1 E2].
  rewrite bool_decide_eq_false in E1, E2.
  intros [-> Hf]%IH. split; [|constructor; [split; [done|lia]|done]].
  unfold wire. cbn. by rewrite <-app_assoc.
Qed.

Lemma join_split c s : join (String c "") (split c s) = s.
Proof.
  induction s as [|a s IH]; [done|]. cbn [split].
  destruct (Ascii.eqb_spec a c) as [->|Hne].
  - destruct (split c s) as [|h t] eqn:E; [by destruct s; cbn in E; repeat case_match|].
    change (join (String c "") ("" :: h :: t)) with (String c "" +:+ join (String c "") (h :: t)).
    by rewrite IH.
  - destruct (split c s) as [|h t] eqn:E; [by destruct s; cbn in E; repeat case_match|].
    rewrite <-IH. by destruct t.
Qed.

(** Labels of an ASCII name are ASCII, hence valid UTF-8. *)
Lemma is_ascii_utf8 s : is_ascii s = true → utf8_valid s = true.
Proof.
  unfold is_ascii. induction s as [|c s IH]; [done|]. cbn [str_all utf8_valid].
  intros [Hc Hs]%andb_true_iff. rewrite Hc. by apply IH.
Qed.

Lemma split_ascii c s : is_ascii s = true → Forall (λ l, is_ascii l = true) (split c s).
Proof.
  unfold is_ascii. induction s as [|a s IH]; [by repeat constructor|]. cbn [str_all split].
  intros [Ha Hs]%andb_true_iff. specialize (IH Hs).
  destruct (Ascii.eqb a c); [by constructor|].
  destruct (split c s) as [|h t]; [repeat constructor; simpl; by rewrite Ha|].
  apply Forall_cons in IH as [Hh Ht]. constructor; [|done]. simpl. by rewrite Ha, Hh.
Qed.

(** Decoding the wire form of labels at any place of a message. *)
Lemma decode_loop_wire labels : ∀ fuel pre post fp acc total jumps,
  Forall good_label labels → Forall (λ l, utf8_valid l = true) labels →
  (total + length (wire labels) ≤ 255)%nat → (length labels < fuel)%nat →
  decode_loop fuel (pre ++ wire labels ++ of_byte 0 :: post) fp acc total (length pre) None jumps =
  Some (Some (join "." (acc ++ labels), (length pre + length (wire labels) + 1)%nat)).
Proof.
  induction labels as [|l labels IH]; intros fuel pre post fp acc total jumps Hg Hu Hl Hf;
    (destruct fuel as [|fuel]; [simpl in Hf; lia|]); cbn [decode_loop].
  - unfold wire. cbn [fmap list_fmap mjoin list_join app length].
    rewrite list_lookup_middle by done. rewrite code_of_byte by lia. cbn.
    rewrite app_nil_r. do 3 f_equal. lia.
  - apply Forall_cons in Hg as [[Hne H63] Hg], Hu as [Hul Hu]. cbn [length] in Hf.
    assert (wire (l :: labels) = of_byte (Z.of_nat (length (octets l))) :: octets l ++ wire labels)
      as Hw by done.
    rewrite Hw in Hl |- *. cbn [length] in Hl. rewrite length_app in Hl.
    assert (0 < length (octets l))%nat as Hpos by (destruct (octets l); [done|simpl; lia]).
    rewrite <-app_comm_cons. rewrite list_lookup_middle by done. rewrite code_of_byte by lia.
    rewrite land_C0 by lia. cbn [Z.eqb negb]. 
    replace (Z.of_nat (length (octets l)) =? 0) with false by lia.
    rewrite Nat2Z.id. rewrite bool_decide_eq_false_2, bool_decide_eq_false_2 by lia. cbn [orb].
    assert (pre ++ of_byte (Z.of_nat (length (octets l))) :: (octets l ++ wire labels) ++ of_byte 0 :: post
      = (pre ++ [of_byte (Z.of_nat (length (octets l)))]) ++ octets l ++ (wire labels ++ of_byte 0 :: post))
      as Hb1 by (by rewrite <-!app_assoc).
    assert (length pre + 1 = length (pre ++ [of_byte (Z.of_nat (length (octets l)))]))%nat as Hp1
      by (rewrite length_app; simpl; lia).
    rewrite Hb1 at 1. rewrite Hp1, slice_app. rewrite text_octets, Hul.
    assert (pre ++ of_byte (Z.of_nat (length (octets l))) :: (octets l ++ wire labels) ++ of_byte 0 :: post
      = (pre ++ of_byte (Z.of_nat (length (octets l))) :: octets l) ++ wire labels ++ of_byte 0 :: post)
      as Hb2 by (by rewrite <-!app_assoc).
    rewrite Hb2.
    replace (length pre + (1 + length (octets l)))%nat with
      (length (pre ++ of_byte (Z.of_nat (length (octets l))) :: octets l))
      by (rewrite length_app; simpl; lia).
    rewrite IH by (done || lia).
    rewrite <-app_assoc. do 3 f_equal. rewrite length_app. simpl. rewrite length_app. lia.
Qed.

Lemma encode_name_wire name enc : encode_name name = Some enc → is_ascii name = true →
  ∃ labels, enc = wire labels ++ [of_byte 0] ∧ join "." labels = name ∧
    Forall good_label labels ∧ Forall (λ l, utf8_valid l = true) labels ∧
    (length (wire labels) ≤ 254)%nat.
Proof.
  unfold encode_name. intros H Ha.
  assert (∃ labels, (if is_empty name then Some [] else encode_labels (split "." name) []) = Some (wire labels)
            ∧ join "." labels = name ∧ Forall good_label labels ∧
            Forall (λ l, utf8_valid l = true) labels) as (labels & E & Hj & Hg & Hu).
  { destruct (is_empty name) eqn:En.
    - exists []. destruct name; [|done]. by repeat constructor.
    - destruct (encode_labels (split "." name) []) as [r|] eqn:E; [|done].
      apply encode_labels_wire in E as [-> Hg]. exists (split "." name).
      split_and!; [done|apply join_split|done|].
      eapply Forall_impl; [by apply split_ascii|]. intros l. apply is_ascii_utf8. }
  rewrite E in H. cbv beta iota zeta in H. case_bool_decide as Hl; [done|]. simplify_eq.
  exists labels. split_and!; try done. rewrite length_app in Hl. simpl in Hl. lia.
Qed.

Lemma length_labels_wire labels : Forall good_label labels → (length labels ≤ length (wire labels))%nat.
Proof.
  induction 1 as [|l labels _ _ IH]; [simpl; lia|].
  change (wire (l :: labels)) with
    (of_byte (Z.of_nat (length (octets l))) :: octets l ++ wire labels).
  cbn [length]. rewrite length_app. lia.
Qed.

Lemma decode_encode name enc pre post fp :
  encode_name name = Some enc → is_ascii name = true →
  decode_name (pre ++ enc ++ post) (length pre) fp = Some (name, (length pre + length enc)%nat).
Proof.
  intros He Ha. destruct (encode_name_wire name enc He Ha) as (labels & -> & <- & Hg & Hu & Hl).
  pose proof (length_labels_wire labels Hg) as Hn.
  rewrite <-app_assoc. cbn [app].
  pose proof (decode_name_runs (pre ++ wire labels ++ of_byte 0 :: post) (length pre) fp) as Hr.
  pose proof (decode_loop_wire labels (DECODE_FUEL + 256) pre post fp [] 1 0 Hg Hu
                ltac:(lia) ltac:(unfold DECODE_FUEL; lia)) as Hd.
  rewrite (decode_loop_mono _ _ _ _ _ _ _ _ _ 256 Hr) in Hd. injection Hd as ->.
  cbn [app]. rewrite length_app. simpl. do 2 f_equal. lia.
Qed.

(** Names round-trip through the wire: an ASCII name that encodes is
    decoded, at any place of a message and with or without compression
    allowed, to itself, ending exactly where its encoding ends; the encoding
    fits the 255-octet limit. *)
Lemma encode_decode_roundtrip name enc pre post fp :
  encode_name name = Some enc → is_ascii name = true →
  decode_name (pre ++ enc ++ post) (length pre) fp = Some (name, (length pre + length enc)%nat) ∧
  (length enc ≤ 255)%nat.
Proof.
  intros He Ha. split; [by apply decode_encode|].
  unfold encode_name in He. destruct (if is_empty name then _ else _); [|done].
  cbv beta iota zeta in He. case_bool_decide as Hl; [done|]. simplify_eq. lia.
Qed.

(** ** Queries *)

Lemma read_rr_bounds buf p rr next : read_rr buf p = Some (rr, next) →
  (p ≤ next ≤ length buf)%nat ∧ (rdata_off rr + rdata_len rr = next)%nat.
Proof.
  unfold read_rr. destruct (decode_name buf p true) as [[n e]|] eqn:E; [|done].
  apply decode_name_bounds in E. destruct (slice buf e (e + 10)) as [f|] eqn:Es; [|done].
  case_bool_decide as Hn; [done|]. intros [= <- <-]. simpl. lia.
Qed.

Lemma skip_rrs_bounds n : ∀ buf p p', skip_rrs n buf p = Some p' → (p ≤ length buf)%nat →
  (p ≤ p' ≤ length buf)%nat.
Proof.
  induction n as [|n IH]; intros buf p p'; cbn [skip_rrs]; [intros [= <-]; lia|].
  destruct (read_rr buf p) as [[rr next]|] eqn:E; [|done]. apply read_rr_bounds in E as [E _].
  intros H%IH; lia.
Qed.

(** The top bit of a big-endian halfword is the top bit of its first byte. *)
Lemma land_be16_top x y : 0 <= y < 256 → Z.land (x * 256 + y) 0x8000 = 0 → Z.land x 0x80 = 0.
Proof.
  intros Hy H. apply Z.bits_inj'. intros i Hi.
  rewrite Z.land_spec, Z.bits_0. change 0x80 with (2 ^ 7). rewrite Z.pow2_bits_eqb by lia.
  destruct (Z.eqb_spec 7 i) as [<-|]; [|apply andb_false_r].
  apply (f_equal (λ z, Z.testbit z 15)) in H. rewrite Z.land_spec, Z.bits_0 in H.
  change (Z.testbit 32768 15) with true in H. rewrite andb_true_r in H |- *.
  change 15 with (7 + 8) in H. rewrite <-Z.div_pow2_bits in H by lia.
  change (2 ^ 8) with 256 in H. by rewrite Z.div_add_l, (Z.div_small y), Z.add_0_r in H by lia.
Qed.

Lemma byte_at_range buf i : 0 <= byte_at buf i < 256.
Proof. unfold byte_at. destruct (_ !! _); simpl; [apply code_range|lia]. Qed.

Lemma be16_range buf i : 0 <= be16 buf i < 65536.
Proof.
  unfold be16. pose proof (byte_at_range buf i). pose proof (byte_at_range buf (i + 1)). lia.
Qed.

(** Everything [parse_query] establishes about an accepted packet. *)
Lemma parse_query_inv pkt q : parse_query pkt = Ok q →
  (HEADER_LEN ≤ length pkt)%nat ∧ q_id q = be16 pkt 0 ∧
  Z.land (byte_at pkt 2) 0x80 = 0 ∧
  (∃ pos qf, decode_name pkt HEADER_LEN false = Some (qname q, pos) ∧
     slice pkt pos (pos + 4) = Some qf ∧ qtype q = be16 qf 0 ∧ qclass q = be16 qf 2 ∧
     question_end q = (pos + 4)%nat) ∧
  (question_end q ≤ additional_start q ≤ length pkt)%nat ∧
  arcount q = be16 pkt 10 ∧ flags_relay q = Z.land (be16 pkt 2) 0x0130.
Proof.
  unfold parse_query. case_bool_decide as Hlen; [done|]. cbv zeta.
  destruct (negb (Z.land (be16 pkt 2) 32768 =? 0)) eqn:E1; [done|].
  destruct (negb (Z.land _ 30720 =? 0)); [done|]. destruct (negb (Z.land _ 64 =? 0)); [done|].
  destruct (negb (be16 pkt 4 =? 1)); [done|].
  destruct (decode_name pkt HEADER_LEN false) as [[name pos]|] eqn:En; [|done].
  destruct (slice pkt pos (pos + 4)) as [qf|] eqn:Eq; [|done].
  destruct (skip_rrs _ pkt (pos + 4)) as [a|] eqn:Es; [|done].
  destruct (walk_additional _ _ _ _) as [[p edns]|]; [|done].
  case_bool_decide; [|done]. cbn [negb]. intros [= <-]. cbn.
  pose proof Eq as (Hq1 & Hq2 & _)%slice_Some. apply skip_rrs_bounds in Es; [|lia].
  split_and!; try done; try lia; [|eauto 8].
  apply negb_false_iff, Z.eqb_eq in E1.
  apply (land_be16_top _ (byte_at pkt 3)); [apply byte_at_range|done].
Qed.

(** A query that counts no additional records ends with its last section. *)
Lemma parse_query_no_additional pkt q : parse_query pkt = Ok q → arcount q = 0 →
  additional_start q = length pkt.
Proof.
  unfold parse_query. case_bool_decide; [done|]. cbv zeta.
  do 4 (destruct (negb _); [done|]). destruct (decode_name _ _ _) as [[name pos]|]; [|done].
  destruct (slice _ _ _) as [qf|]; [|done]. destruct (skip_rrs _ _ _) as [a|]; [|done].
  destruct (walk_additional _ _ _ _) as [[p edns]|] eqn:Ew; [|done].
  case_bool_decide as Hp; [|done]. cbn [negb]. intros [= <-]. cbn. intros Hz.
  rewrite Hz in Ew. by simplify_eq/=.
Qed.

(** ** Slices of two buffers that agree *)

(** [agree buf buf' lo hi]: the two buffers hold the same bytes in a range. *)
Definition agree (buf buf' : buffer) (lo hi : nat) : Prop :=
  ∀ i, (lo ≤ i < hi)%nat → buf' !! i = buf !! i.

Lemma agree_mono buf buf' lo hi lo' hi' :
  agree buf buf' lo hi → (lo ≤ lo')%nat → (hi' ≤ hi)%nat → agree buf buf' lo' hi'.
Proof. intros H ?? i Hi. apply H. lia. Qed.

Lemma slice_agree buf buf' lo hi bs : (lo < hi)%nat → agree buf buf' lo hi →
  slice buf lo hi = Some bs → slice buf' lo hi = Some bs.
Proof.
  intros Hlt Ha (_ & Hl & ->)%slice_Some. apply slice_Some.
  assert (hi ≤ length buf')%nat.
  { assert (is_Some (buf' !! (hi - 1)%nat)) as Hs%lookup_lt_is_Some; [|lia].
    rewrite Ha by lia. apply lookup_lt_is_Some. lia. }
  split_and!; [lia..|]. apply list_eq. intros i.
  destruct (decide (i < hi - lo)%nat).
  - rewrite !lookup_take_lt, !lookup_drop by lia. symmetry. apply Ha. lia.
  - by rewrite !lookup_take_ge by lia.
Qed.

(** A name without compression depends on its own octets only, so it decodes
    the same in any message that holds them, pointers allowed or not. *)
Lemma decode_loop_local fuel : ∀ buf buf' fp labels total pos jumps name e,
  decode_loop fuel buf false labels total pos None jumps = Some (Some (name, e)) →
  agree buf buf' pos e →
  decode_loop fuel buf' fp labels total pos None jumps = Some (Some (name, e)).
Proof.
  induction fuel as [|fuel IH]; intros buf buf' fp labels total pos jumps name e H Ha; [done|].
  pose proof (decode_loop_bounds _ _ _ _ _ _ _ _ _ _ H) as Hb. cbn in Hb.
  cbn [decode_loop] in H |- *.
  rewrite (Ha pos) by lia. destruct (buf !! pos) as [b|]; [|done].
  destruct (Z.land (code b) 192 =? 192); [done|]. destruct (negb _); [done|].
  destruct (Z.eqb_spec (code b) 0); [done|]. destruct (_ || _); [done|].
  destruct (slice buf _ _) as [bs|] eqn:Es; [|done].
  destruct (utf8_valid _) eqn:Eu; [|done].
  pose proof (decode_loop_bounds _ _ _ _ _ _ _ _ _ _ H) as Hb'. cbn in Hb'.
  pose proof (code_range b).
  rewrite (slice_agree buf buf' _ _ bs), Eu; [|lia|eapply agree_mono; [done|lia..]|done].
  eapply IH; [done|]. eapply agree_mono; [done|lia..].
Qed.

Lemma decode_name_local buf buf' fp off name e :
  decode_name buf off false = Some (name, e) → agree buf buf' off e →
  decode_name buf' off fp = Some (name, e).
Proof.
  intros H Ha. pose proof (decode_name_runs buf off false) as Hr. rewrite H in Hr.
  apply (decode_loop_local _ _ buf' fp) in Hr; [|done].
  pose proof (decode_name_runs buf' off fp) as Hr'. rewrite Hr in Hr'. by injection Hr' as <-.
Qed.

(** ** What the gate sends *)

Lemma of_byte_code c : of_byte (code c) = c.
Proof. unfold of_byte, code. by rewrite Nat2Z.id, ascii_nat_embedding. Qed.

Lemma byte_at_app_ge (h rest : buffer) i : (length h ≤ i)%nat →
  byte_at (h ++ rest) i = byte_at rest (i - length h).
Proof. intros Hi. unfold byte_at. by rewrite lookup_app_r. Qed.

Lemma be16_app_ge (h rest : buffer) i : (length h ≤ i)%nat →
  be16 (h ++ rest) i = be16 rest (i - length h).
Proof.
  intros Hi. unfold be16. rewrite !byte_at_app_ge by lia. do 2 f_equal. lia.
Qed.

Lemma be16_to_be16 n rest : 0 <= n < 65536 → be16 (to_be16 n ++ rest) 0 = n.
Proof.
  intros Hn. pose proof (Z.mod_pos_bound n 256 ltac:(lia)) as Hm.
  assert (0 <= n / 256 < 256) as Hd by (split; [apply Z.div_pos|apply Z.div_lt_upper_bound]; lia).
  change (be16 (to_be16 n ++ rest) 0) with (code (of_byte (n / 256)) * 256 + code (of_byte (n mod 256))).
  rewrite !code_of_byte by done. pose proof (Z.div_mod n 256). lia.
Qed.

(** The shape of every answer the gate builds for a decoded query: twelve
    octets of header, the question of the packet, its additional section. *)
Definition answer_shape (pkt : buffer) (q : DnsQuery) (b2 b3 : Z) : buffer :=
  (take 2 pkt ++ [of_byte b2; of_byte b3] ++ to_be16 1 ++ to_be16 0 ++ to_be16 0
     ++ to_be16 (arcount q)) ++ question_bytes pkt q ++ drop (additional_start q) pkt.

Lemma truncated_answer_shape pkt q : truncated_answer pkt q =
  answer_shape pkt q (Z.lor (Z.land (byte_at pkt 2) 0x01) 0x82) 0x80.
Proof. unfold truncated_answer, answer_shape. by rewrite <-!app_assoc. Qed.

Lemma refusal_answer_shape pkt q rcode : (HEADER_LEN ≤ length pkt)%nat →
  refusal_answer pkt (Some q) rcode =
  Some (answer_shape pkt q (Z.lor (Z.land (byte_at pkt 2) 0x01) 0x80) (Z.lor 0x80 rcode)).
Proof.
  intros Hl. unfold refusal_answer, answer_shape. rewrite bool_decide_eq_false_2 by lia.
  by rewrite <-!app_assoc.
Qed.

Section answer.
Context (pkt : buffer) (q : DnsQuery) (b2 b3 : Z).
Context (Hq : parse_query pkt = Ok q) (Hb2 : 0 <= b2 < 256) (Hb3 : 0 <= b3 < 256).

Lemma answer_header : ∃ x y rest, pkt = x :: y :: rest ∧
  answer_shape pkt q b2 b3 =
  (x :: y :: of_byte b2 :: of_byte b3 :: to_be16 1 ++ to_be16 0 ++ to_be16 0
     ++ to_be16 (arcount q)) ++ question_bytes pkt q ++ drop (additional_start q) pkt.
Proof.
  destruct (parse_query_inv _ _ Hq) as (Hl & _). unfold HEADER_LEN in Hl.
  destruct pkt as [|x [|y rest]]; [simpl in Hl; lia..|]. by exists x, y, rest.
Qed.

Lemma answer_agrees : agree pkt (answer_shape pkt q b2 b3) HEADER_LEN (question_end q).
Proof.
  destruct (parse_query_inv _ _ Hq) as (_ & _ & _ & _ & Hle & _).
  destruct answer_header as (x & y & rest & Hpkt & ->). intros i Hi. unfold HEADER_LEN in Hi.
  rewrite lookup_app_r by (simpl; lia). cbn [length app to_be16].
  assert (length (question_bytes pkt q) = question_end q - 12)%nat as Hlen
    by (unfold question_bytes, HEADER_LEN; rewrite length_take, length_drop; lia).
  rewrite lookup_app_l by lia. unfold question_bytes, HEADER_LEN.
  rewrite lookup_take_lt, lookup_drop by lia. f_equal. lia.
Qed.

Lemma answer_bytes :
  (HEADER_LEN ≤ length (answer_shape pkt q b2 b3))%nat ∧
  be16 (answer_shape pkt q b2 b3) 0 = q_id q ∧
  byte_at (answer_shape pkt q b2 b3) 2 = b2 ∧ byte_at (answer_shape pkt q b2 b3) 3 = b3 ∧
  be16 (answer_shape pkt q b2 b3) 4 = 1.
Proof.
  destruct (parse_query_inv _ _ Hq) as (_ & -> & _).
  destruct answer_header as (x & y & rest & Hpkt & ->).
  unfold HEADER_LEN. split_and!; [simpl; lia|by rewrite Hpkt| | |done].
  all: unfold byte_at; simpl; by apply code_of_byte.
Qed.

Lemma answer_matches : Z.land b2 0x80 ≠ 0 →
  response_matches (answer_shape pkt q b2 b3) (q_id q) (qname q) (qtype q) (qclass q) = true.
Proof.
  intros Hqr. destruct answer_bytes as (Hl & Hid & H2 & _ & H4).
  destruct (parse_query_inv _ _ Hq) as (_ & _ & _ & (pos & qf & Hn & Hs & -> & -> & He) & _).
  pose proof answer_agrees as Ha. rewrite He in Ha.
  pose proof (decode_name_bounds _ _ _ _ _ Hn) as Hb.
  unfold response_matches. rewrite Hid, H2, H4, Z.eqb_refl, bool_decide_eq_false_2 by lia.
  apply Z.eqb_neq in Hqr as ->. cbn [orb negb Z.ltb Z.compare Pos.compare Pos.compare_cont].
  rewrite (decode_name_local pkt _ true _ _ _ Hn) by (eapply agree_mono; [done|lia..]).
  unfold eq_ignore_ascii_case. rewrite bool_decide_eq_true_2 by done. cbn [negb].
  rewrite (slice_agree pkt _ _ _ qf) by first [done|lia|eapply agree_mono; [done|lia..]].
  by rewrite !Z.eqb_refl.
Qed.
End answer.

Lemma land_lor_qr x m : 0 <= x < 256 → m = 0x80 ∨ m = 0x82 →
  0 <= Z.lor (Z.land x 0x01) m < 256 ∧ Z.land (Z.lor (Z.land x 0x01) m) 0x80 ≠ 0 ∧
  (Z.land (Z.lor (Z.land x 0x01) m) 0x02 = 0 ↔ m = 0x80).
Proof.
  intros Hx Hm. change 0x01 with (Z.ones 1). rewrite Z.land_ones by lia.
  pose proof (Z.mod_pos_bound x (2 ^ 1) ltac:(lia)) as Hb. change (2 ^ 1) with 2 in *.
  assert (x mod 2 = 0 ∨ x mod 2 = 1) as [-> | ->] by lia; destruct Hm as [-> | ->]; by vm_compute.
Qed.

(** The answers the gate makes itself correlate with the query: for a
    packet that decodes, the truncated answer and any refusal (with a
    four-bit rcode) pass the very check applied to upstream answers - same
    id, a response, the question of the packet - the truncated one with the
    TC bit and no error, the refusal without TC and with the given rcode. *)
Lemma gate_answers_correlate pkt q rcode :
  parse_query pkt = Ok q → 0 <= rcode < 16 →
  (response_matches (truncated_answer pkt q) (q_id q) (qname q) (qtype q) (qclass q) = true ∧
   response_truncated (truncated_answer pkt q) = true) ∧
  ∃ out, refusal_answer pkt (Some q) rcode = Some out ∧
    response_matches out (q_id q) (qname q) (qtype q) (qclass q) = true ∧
    response_truncated out = false ∧ Z.land (byte_at out 3) 0x0F = rcode.
Proof.
  intros Hq Hr. pose proof (byte_at_range pkt 2) as H2.
  destruct (parse_query_inv _ _ Hq) as (Hl & _).
  assert (0 <= Z.lor 0x80 rcode < 256 ∧ Z.land (Z.lor 0x80 rcode) 0x0F = rcode) as [Hr1 Hr2].
  { rewrite Z.land_lor_distr_l. change (Z.land 128 15) with 0. rewrite Z.lor_0_l.
    change 15 with (Z.ones 4). rewrite Z.land_ones, Z.mod_small by lia. split; [|done].
    apply (lor_range 8); lia. }
  split.
  - rewrite truncated_answer_shape.
    destruct (land_lor_qr _ 0x82 H2 ltac:(auto)) as (Hb & Hqr & Htc).
    destruct (answer_bytes pkt q _ 0x80 Hq Hb ltac:(lia)) as (Ho & _ & E2 & _).
    split; [by apply answer_matches|]. unfold response_truncated.
    rewrite E2, bool_decide_eq_true_2 by done. apply negb_true_iff, Z.eqb_neq. naive_solver.
  - rewrite refusal_answer_shape by done. eexists; split; [done|].
    destruct (land_lor_qr _ 0x80 H2 ltac:(auto)) as (Hb & Hqr & Htc).
    destruct (answer_bytes pkt q _ _ Hq Hb Hr1) as (Ho & _ & E2 & E3 & _).
    split_and!; [by apply answer_matches| |by rewrite E3]. unfold response_truncated.
    rewrite E2. apply andb_false_iff. right. apply negb_false_iff, Z.eqb_eq. naive_solver.
Qed.

(** ** What the gate forwards *)

Section forward.
Context (pkt : buffer) (q : DnsQuery) (canonical : string) (enc out : buffer).
Context (Hq : parse_query pkt = Ok q) (He : encode_name canonical = Some enc).
Context (Hf : build_forward_query pkt q canonical = Some out) (Ha : is_ascii canonical = true).

(** The twelve header octets, the new question, the old additional section. *)
Lemma forward_shape : ∃ x y rest, pkt = x :: y :: rest ∧
  out = ([x; y] ++ to_be16 (flags_relay q) ++ to_be16 1 ++ to_be16 0 ++ to_be16 0
         ++ to_be16 (arcount q)) ++ enc ++ to_be16 (qtype q) ++ to_be16 (qclass q)
         ++ drop (additional_start q) pkt.
Proof.
  destruct (parse_query_inv _ _ Hq) as (Hl & _). unfold HEADER_LEN in Hl.
  unfold build_forward_query in Hf. rewrite He in Hf. injection Hf as <-.
  destruct pkt as [|x [|y rest]]; [simpl in Hl; lia..|]. exists x, y, rest. split; [done|].
  by rewrite <-!app_assoc.
Qed.

Lemma forward_header :
  (HEADER_LEN ≤ length out)%nat ∧ be16 out 0 = q_id q ∧ be16 out 2 = flags_relay q ∧
  be16 out 4 = 1 ∧ be16 out 6 = 0 ∧ be16 out 8 = 0 ∧ be16 out 10 = arcount q.
Proof.
  destruct (parse_query_inv _ _ Hq) as (_ & -> & _ & _ & _ & Har & Hfl).
  destruct forward_shape as (x & y & rest & Hp & ->).
  assert (0 <= flags_relay q < 65536) as Hfr.
  { rewrite Hfl. change 0x130 with (Z.land 0x130 (Z.ones 9)).
    rewrite Z.land_assoc, Z.land_ones by lia.
    pose proof (Z.mod_pos_bound (Z.land (be16 pkt 2) 0x130) (2 ^ 9)). lia. }
  assert (0 <= arcount q < 65536) as Harr by (rewrite Har; apply be16_range).
  split_and!; [unfold HEADER_LEN; simpl; lia|by rewrite Hp| |done..|].
  - rewrite <-!app_assoc, be16_app_ge by done. by apply be16_to_be16.
  - rewrite <-!app_assoc. do 5 (rewrite be16_app_ge by (simpl; lia)). by apply be16_to_be16.
Qed.

Lemma forward_question :
  decode_name out HEADER_LEN false = Some (canonical, (HEADER_LEN + length enc)%nat) ∧
  ∃ qf, slice out (HEADER_LEN + length enc) (HEADER_LEN + length enc + 4) = Some qf ∧
    be16 qf 0 = qtype q ∧ be16 qf 2 = qclass q ∧
    drop (HEADER_LEN + length enc + 4) out = drop (additional_start q) pkt.
Proof.
  destruct (parse_query_inv _ _ Hq) as (_ & _ & _ & (pos & qf & _ & _ & Ht & Hc & _) & _).
  destruct forward_shape as (x & y & rest & Hp & ->).
  set (h := [x; y] ++ _). change HEADER_LEN with (length h).
  split; [by apply decode_encode|]. exists (to_be16 (qtype q) ++ to_be16 (qclass q)).
  split_and!.
  - rewrite app_assoc, <-length_app. rewrite (app_assoc (to_be16 (qtype q))).
    apply (slice_app (h ++ enc) (to_be16 (qtype q) ++ to_be16 (qclass q))).
  - apply be16_to_be16. rewrite Ht. apply be16_range.
  - rewrite be16_app_ge by done. rewrite <-(app_nil_r (to_be16 (qclass q))). apply be16_to_be16.
    rewrite Hc. apply be16_range.
  - rewrite !app_assoc, <-(app_assoc (h ++ enc)).
    apply drop_app_length'. rewrite !length_app. simpl. lia.
Qed.
End forward.

(** What the gate asks upstream is what the policy judged: the rebuilt
    query carries the client's id, only the relayed flag bits, the canonical
    name and the client's type and class, followed by the client's additional
    section unchanged; when that section is empty it is itself a query that
    decodes to exactly these fields. *)
Lemma forward_query_asks_canonical pkt q canonical out :
  parse_query pkt = Ok q → is_ascii canonical = true →
  build_forward_query pkt q canonical = Some out →
  be16 out 0 = q_id q ∧ be16 out 2 = Z.land (be16 pkt 2) 0x0130 ∧ be16 out 10 = arcount q ∧
  (∃ e qf, decode_name out HEADER_LEN false = Some (canonical, e) ∧
     slice out e (e + 4) = Some qf ∧ be16 qf 0 = qtype q ∧ be16 qf 2 = qclass q ∧
     drop (e + 4) out = drop (additional_start q) pkt) ∧
  (arcount q = 0 → ∃ e, parse_query out =
     Ok (mkQuery (q_id q) (flags_relay q) canonical (qtype q) (qclass q) e e 0 None)).
Proof.
  intros Hq Ha Hf. destruct (encode_name canonical) as [enc|] eqn:He;
    [|by unfold build_forward_query in Hf; rewrite He in Hf].
  destruct (forward_header pkt q canonical enc out Hq He Hf) as (Hl & Hid & Hfl & H4 & H6 & H8 & H10).
  destruct (forward_question pkt q canonical enc out Hq He Hf Ha) as (Hn & qf & Hs & Ht & Hc & Hd).
  destruct (parse_query_inv _ _ Hq) as (_ & _ & _ & _ & Hle & _ & Hrel).
  split_and!; [done|congruence|done|eauto 8|]. intros Hz.
  pose proof (parse_query_no_additional _ _ Hq Hz) as Hend.
  exists (HEADER_LEN + length enc + 4)%nat. unfold parse_query.
  rewrite bool_decide_eq_false_2 by lia. rewrite Hfl, H4, H6, H8, H10, Hid, Hz, Hrel, Hn, Hs, Ht, Hc.
  rewrite <-!(Z.land_assoc (be16 pkt 2)).
  change (Z.land 304 32768) with 0. change (Z.land 304 30720) with 0.
  change (Z.land 304 64) with 0. rewrite Z.land_0_r. change (Z.land 304 304) with 304.
  change (Z.to_nat (saturating_add16 0 0)) with 0%nat. change (Z.to_nat 0) with 0%nat.
  cbn [Z.eqb Pos.eqb negb skip_rrs walk_additional].
  apply slice_Some in Hs as (_ & Hs & _). apply (f_equal length) in Hd.
  rewrite !length_drop, Hend in Hd. rewrite bool_decide_eq_true_2 by lia. done.
Qed.

(** A decoded query describes slices that exist: the header is there,
    the question starts after it and ends before the additional section, which
    starts inside the packet, so none of the slicings of the answer builders
    can be out of range; type and class fit 16 bits; and the packet was a
    query, not a response. *)
Lemma parse_query_slices pkt q : parse_query pkt = Ok q →
  (HEADER_LEN + 5 ≤ question_end q ≤ additional_start q)%nat ∧
  (additional_start q ≤ length pkt)%nat ∧
  is_Some (slice pkt HEADER_LEN (question_end q)) ∧
  0 <= qtype q < 65536 ∧ 0 <= qclass q < 65536 ∧ 0 <= q_id q < 65536 ∧
  Z.land (byte_at pkt 2) 0x80 = 0.
Proof.
  intros (_ & -> & Hqr & (pos & qf & Hn & Hs & -> & -> & He) & Hle & _)%parse_query_inv.
  apply decode_name_bounds in Hn.
  split_and!; try done; try apply be16_range; try lia.
  eexists. apply slice_Some. split_and!; [lia|lia|done].
Qed.

(** ** Witnesses *)

(** A query for [example.com], type A, class IN, recursion desired. *)
Definition example_query : buffer :=
  of_byte <$> [0x12; 0x34; 1; 0; 0; 1; 0; 0; 0; 0; 0; 0;
               7; 101; 120; 97; 109; 112; 108; 101; 3; 99; 111; 109; 0; 0; 1; 0; 1].

Definition example_parsed : DnsQuery :=
  mkQuery 0x1234 0x100 "example.com" 1 1 29 29 0 None.

