(* ===== verification/DnsResponse.v ===== *)
(** * DnsResponse: the walk over an upstream answer

    [src/src/dnsgate/wire/response.rs]: every section and record type, the
    alias chain and the correlation checks; and that the chain, addresses and
    lifetime of a decoded answer are exactly what its aliases reach. *)

From S2P Require Import Prelude Text IpAddr PolicyHost DnsWire PolicyCidr.
From S2P Require Import ProtectedSpace HostMatch DnsTheorems.

Definition RRTYPE_A : Z := 1.
Definition RRTYPE_NS : Z := 2.
Definition RRTYPE_MD : Z := 3.
Definition RRTYPE_MF : Z := 4.
Definition RRTYPE_CNAME : Z := 5.
Definition RRTYPE_SOA : Z := 6.
Definition RRTYPE_MB : Z := 7.
Definition RRTYPE_MG : Z := 8.
Definition RRTYPE_MR : Z := 9.
Definition RRTYPE_WKS : Z := 11.
Definition RRTYPE_PTR : Z := 12.
Definition RRTYPE_MX : Z := 15.
Definition RRTYPE_AFSDB : Z := 18.
Definition RRTYPE_RT : Z := 21.
Definition RRTYPE_NSAP_PTR : Z := 23.
Definition RRTYPE_PX : Z := 26.
Definition RRTYPE_AAAA : Z := 28.
Definition RRTYPE_SRV : Z := 33.
Definition RRTYPE_NAPTR : Z := 35.
Definition RRTYPE_KX : Z := 36.
Definition RRTYPE_DNAME : Z := 39.
Definition RRTYPE_IPSECKEY : Z := 45.
Definition RRTYPE_NSEC : Z := 47.
Definition RRTYPE_HIP : Z := 55.
Definition RRTYPE_TALINK : Z := 58.
Definition RRTYPE_SVCB : Z := 64.
Definition RRTYPE_HTTPS : Z := 65.
Definition RRTYPE_LP : Z := 107.
Definition RRTYPE_URI : Z := 256.
Definition RRTYPE_AMTRELAY : Z := 260.

Definition MAX_CHAIN_DEPTH : nat := 16.
Definition SVC_PARAM_IPV4HINT : Z := 4.
Definition SVC_PARAM_IPV6HINT : Z := 6.

Record ParsedResponse := mkParsed {
  pr_rcode : Z;
  pr_chain : list string;
  pr_chain_truncated : bool;
  pr_addrs : list (IpAddr * Z);
  pr_min_ttl : option Z;
  pr_extra_names : list string;
  pr_extra_addrs : list IpAddr;
  pr_decoded : bool;
}.

(** ** Addresses in RDATA *)

Definition value_of (bs : buffer) : Z := from_groups 256 (code <$> bs).
Definition v4_of (bs : buffer) : IpAddr := V4 (value_of bs).
Definition v6_of (bs : buffer) : IpAddr := V6 (value_of bs).

(** [&buf[off..off+len]], for the accesses the length tests make safe. *)
Definition bytes_at (buf : buffer) (off len : nat) : buffer := take len (drop off buf).

(** [as_chunks::<n>().0]: the complete groups of [n] bytes. *)
Fixpoint chunks (fuel n : nat) (bs : buffer) : list buffer :=
  match fuel with
  | O => []
  | S fuel' => if bool_decide (length bs < n)%nat then []
               else take n bs :: chunks fuel' n (drop n bs)
  end.
Definition as_chunks (n : nat) (bs : buffer) : list buffer := chunks (length bs) n bs.

Definition decode_addr_field (buf : buffer) (off end_ : nat) (v6 : bool) : option IpAddr :=
  let len := (if v6 then 16 else 4)%nat in
  match slice buf off (off + len) with
  | None => None
  | Some b => if bool_decide (end_ < off + len)%nat then None
              else Some (if v6 then v6_of b else v4_of b)
  end.

(** ** URI targets *)

Definition is_ascii_alphabetic (c : ascii) : bool := in_range 65 90 c || in_range 97 122 c.
Definition is_ascii_alphanumeric (c : ascii) : bool := is_ascii_alphabetic c || is_ascii_digit c.

Definition is_dns_name (name : string) : bool :=
  negb (is_empty name) && bool_decide (String.length name ≤ 253)%nat
  && forallb (λ l, negb (is_empty l) && bool_decide (String.length l ≤ 63)%nat
                   && str_all (λ c, is_ascii_alphanumeric c || one_of ["-"; "_"]%char c) l)
       (split "." name).

(** The part after the last [c], or all of it: [rsplit(c).next()]. *)
Definition after_last (c : ascii) (s : string) : string :=
  match rsplit_once c s with Some (_, t) => t | None => s end.
(** The part before the first [c], or all of it: [split(c).next()]. *)
Definition before_first (c : ascii) (s : string) : string := take_until (Ascii.eqb c) s.

Fixpoint str_drop (n : nat) (s : string) : string :=
  match n, s with
  | O, _ => s
  | S n', String _ s' => str_drop n' s'
  | S _, EmptyString => EmptyString
  end.

Definition authority_host (authority : string) : result string unit :=
  let hostport := after_last "@" authority in
  let host := match strip_prefix "[" hostport with
              | Some b => before_first "]" b
              | None => before_first ":" hostport
              end in
  if is_empty host || contains "%" host then Err tt else Ok host.

(** The [maddr] parameters of a SIP target, each judged as an authority. *)
Fixpoint maddr_hosts (params hosts : list string) : result (list string) unit :=
  match params with
  | [] => Ok hosts
  | param :: params' =>
      match split_once "=" param with
      | Some (k, v) =>
          if eq_ignore_ascii_case k "maddr" then
            match authority_host v with
            | Ok h => maddr_hosts params' (hosts ++ [h])
            | Err e => Err e
            end
          else maddr_hosts params' hosts
      | None => maddr_hosts params' hosts
      end
  end.

Definition NO_HOST_SCHEMES : list string :=
  ["mailto"; "tel"; "sms"; "urn"; "data"; "mid"; "cid"; "acct"; "im"; "pres"; "xmpp"; "news";
   "nntp"; "geo"; "about"; "javascript"; "blob"; "dns"; "tag"].

Definition opaque_scheme_hosts (scheme rest : string) : result (list string) unit :=
  if bool_decide (scheme ∈ ["sip"; "sips"]) then
    if contains "?" rest || contains "\" rest then Err tt
    else
      let authority := before_first ";" rest in
      let tail := str_drop (String.length authority) rest in
      if negb (contains "@" authority) && contains "@" tail then Err tt
      else match authority_host authority with
      | Err e => Err e
      | Ok h => maddr_hosts (List.tl (split ";" tail)) [h]
      end
  else if bool_decide (scheme ∈ ["stun"; "stuns"; "turn"; "turns"]) then
    if contains ";" rest || contains "\" rest then Err tt
    else result_bind (authority_host (before_first "?" rest)) (λ h, Ok [h])
  else if bool_decide (scheme ∈ NO_HOST_SCHEMES) then Ok []
  else Err tt.

Definition scheme_ok (scheme : string) : bool :=
  match scheme with
  | EmptyString => false
  | String c s => is_ascii_alphabetic c
                  && str_all (λ c, is_ascii_alphanumeric c || one_of ["+"; "-"; "."]%char c) s
  end.

Definition SPECIAL_SCHEMES : list string := ["http"; "https"; "ws"; "wss"; "ftp"; "file"].

Definition uri_host (target : string) : result (list string) unit :=
  match split_once ":" target with
  | None => Err tt
  | Some (scheme, rest) =>
      if negb (scheme_ok scheme) then Err tt
      else if bool_decide (to_ascii_lowercase scheme ∈ SPECIAL_SCHEMES)
              && (contains "\" rest || negb (starts_with "//" rest)) then Err tt
      else match strip_prefix "//" rest with
      | None => opaque_scheme_hosts (to_ascii_lowercase scheme) rest
      | Some auth =>
          let authority := take_until (one_of ["/"; "?"; "#"]%char) auth in
          if is_empty authority || contains "\" authority then Err tt
          else result_bind (authority_host authority) (λ host, Ok [host])
      end
  end.

Definition rdata_names_target (rtype : Z) : bool :=
  bool_decide (rtype ∈ [RRTYPE_NS; RRTYPE_PTR; RRTYPE_MD; RRTYPE_MF; RRTYPE_MB; RRTYPE_MG;
    RRTYPE_MR; RRTYPE_NSAP_PTR; RRTYPE_MX; RRTYPE_KX; RRTYPE_AFSDB; RRTYPE_RT; RRTYPE_LP;
    RRTYPE_SRV; RRTYPE_NAPTR; RRTYPE_PX; RRTYPE_TALINK; RRTYPE_IPSECKEY; RRTYPE_HIP; RRTYPE_URI;
    RRTYPE_AMTRELAY]).

Record RdataDest := mkDest { rd_names : list string; rd_addrs : list IpAddr }.

Definition one_name (name : string) : RdataDest := mkDest [name] [].
Definition one_addr (a : IpAddr) : RdataDest := mkDest [] [a].
Definition no_dest : RdataDest := mkDest [] [].

Notation "'let?' p ':=' e 'in' k" := (match e with Some p => k | None => None end)
  (at level 200, p pattern, e at level 100, k at level 200, only parsing).

(** The end of a record's RDATA. *)
Definition rdata_end (rr : Rr) : nat := (rdata_off rr + rdata_len rr)%nat.

Section walk.
Context (domain_to_ascii : string → option string).
Notation canonical_name := (canonical_name domain_to_ascii).

(** ** Names in RDATA *)

(** The SvcParam loop of [decode_svcb_rdata]. *)
Fixpoint svc_params (fuel : nat) (buf : buffer) (pos end_ : nat) : option (list (Z * buffer)) :=
  if bool_decide (pos < end_)%nat then
    match fuel with
    | O => None
    | S fuel' =>
        let? fixed := slice buf pos (pos + 4) in
        let key := be16 fixed 0 in
        let plen := Z.to_nat (be16 fixed 2) in
        let pos := (pos + 4)%nat in
        if bool_decide (end_ < pos + plen)%nat then None
        else let? rest := svc_params fuel' buf (pos + plen) end_ in
             Some ((key, bytes_at buf pos plen) :: rest)
    end
  else Some [].

Definition decode_svcb_rdata (buf : buffer) (off len : nat)
    : option (Z * string * list (Z * buffer)) :=
  let end_ := (off + len)%nat in
  let? hi := buf !! off in
  let? lo := buf !! (off + 1)%nat in
  let? (target, pos) := decode_name buf (off + 2) true in
  if bool_decide (end_ < pos)%nat then None
  else let? params := svc_params len buf pos end_ in
       Some (code hi * 256 + code lo, target, params).

(** The owner suffix of a proper descendant, cut with its dot. *)
Definition dname_prefix (owner head : string) : option string := strip_suffix ("." +:+ owner) head.

(** [max_by_key]: the last of the longest covering owners. *)
Definition longest_owner (head : string) (dnames : list (string * string * Z))
    : option (string * string * Z) :=
  foldl (λ best d, if bool_decide (is_Some (dname_prefix d.1.1 head)) then
                     match best with
                     | Some b => if bool_decide (String.length d.1.1 < String.length b.1.1)%nat
                                 then best else Some d
                     | None => Some d
                     end
                   else best) None dnames.

Definition dname_target (dnames : list (string * string * Z)) (head : string) : option (string * Z) :=
  let? (owner, target, ttl) := longest_owner head dnames in
  let? prefix := dname_prefix owner head in
  Some (canonical_name (prefix +:+ "." +:+ target), ttl).

Definition decode_named_rdata (buf : buffer) (rr : Rr) (prefix : nat) : option string :=
  let start := (rdata_off rr + prefix)%nat in
  if bool_decide (rdata_end rr < start)%nat then None
  else let? (name, stop) := decode_name buf start true in
       if bool_decide (rdata_end rr < stop)%nat then None else Some (canonical_name name).

(** Three length-prefixed character strings. *)
Fixpoint skip_strings (n : nat) (buf : buffer) (pos end_ : nat) : option nat :=
  match n with
  | O => Some pos
  | S n' =>
      let? len := buf !! pos in
      let pos := (pos + (1 + Z.to_nat (code len)))%nat in
      if bool_decide (end_ < pos)%nat then None else skip_strings n' buf pos end_
  end.

Definition decode_naptr_rdata (buf : buffer) (rr : Rr) : option string :=
  let? pos := skip_strings 3 buf (rdata_off rr + 4) (rdata_end rr) in
  let? (name, stop) := decode_name buf pos true in
  if bool_decide (rdata_end rr < stop)%nat then None else Some (canonical_name name).

(** [n] names back to back, from [pos]; with the place they end. *)
Fixpoint name_seq (n : nat) (buf : buffer) (pos end_ : nat) : option (list string * nat) :=
  match n with
  | O => Some ([], pos)
  | S n' =>
      let? (name, stop) := decode_name buf pos true in
      if bool_decide (end_ < stop)%nat then None
      else let? (names, last) := name_seq n' buf stop end_ in
           Some (canonical_name name :: names, last)
  end.

Definition decode_name_seq (buf : buffer) (rr : Rr) (prefix n : nat) : option (list string) :=
  let? (names, pos) := name_seq n buf (rdata_off rr + prefix) (rdata_end rr) in
  if bool_decide (pos = rdata_end rr) then Some names else None.

(** The rendezvous servers of a HIP record, packed to its end. *)
Fixpoint hip_servers (fuel : nat) (buf : buffer) (pos end_ : nat) : option (list string) :=
  if bool_decide (pos < end_)%nat then
    match fuel with
    | O => None
    | S fuel' =>
        let? (name, stop) := decode_name buf pos true in
        if bool_decide (end_ < stop)%nat then None
        else let? names := hip_servers fuel' buf stop end_ in
             Some (canonical_name name :: names)
    end
  else Some [].

(** The hosts of a URI target as destinations. *)
Fixpoint uri_dests (hosts : list string) : option RdataDest :=
  match hosts with
  | [] => Some no_dest
  | host :: hosts' =>
      let canonical := canonical_name host in
      match parse_ip canonical with
      | Some ip => let? d := uri_dests hosts' in Some (mkDest (rd_names d) (ip :: rd_addrs d))
      | None => if is_dns_name canonical
                then let? d := uri_dests hosts' in
                     Some (mkDest (canonical :: rd_names d) (rd_addrs d))
                else None
      end
  end.

Definition ipseckey_dest (buf : buffer) (rr : Rr) : option RdataDest :=
  if bool_decide (rdata_len rr < 3)%nat then None
  else
    let gw_off := (rdata_off rr + 3)%nat in
    let kind := byte_at buf (rdata_off rr + 1) in
    if kind =? 0 then Some no_dest
    else if kind =? 1 then one_addr <$> decode_addr_field buf gw_off (rdata_end rr) false
    else if kind =? 2 then one_addr <$> decode_addr_field buf gw_off (rdata_end rr) true
    else if kind =? 3 then one_name <$> decode_named_rdata buf rr 3
    else None.

Definition amtrelay_dest (buf : buffer) (rr : Rr) : option RdataDest :=
  if bool_decide (rdata_len rr < 2)%nat then None
  else
    let relay_off := (rdata_off rr + 2)%nat in
    let kind := Z.land (byte_at buf (rdata_off rr + 1)) 0x7F in
    if (kind =? 0) && bool_decide (relay_off = rdata_end rr) then Some no_dest
    else if kind =? 1 then one_addr <$> decode_addr_field buf relay_off (rdata_end rr) false
    else if kind =? 2 then one_addr <$> decode_addr_field buf relay_off (rdata_end rr) true
    else if kind =? 3 then
      let? (name, stop) := decode_name buf relay_off true in
      if bool_decide (stop = rdata_end rr) then Some (one_name (canonical_name name)) else None
    else None.

Definition hip_dest (buf : buffer) (rr : Rr) : option RdataDest :=
  if bool_decide (rdata_len rr < 4)%nat then None
  else
    let hit_len := Z.to_nat (byte_at buf (rdata_off rr)) in
    let pk_len := Z.to_nat (be16 buf (rdata_off rr + 2)) in
    let pos := (rdata_off rr + 4 + pk_len + hit_len)%nat in
    if bool_decide (rdata_end rr < pos)%nat then None
    else let? names := hip_servers (rdata_len rr) buf pos (rdata_end rr) in
         Some (mkDest names []).

Definition uri_dest (buf : buffer) (rr : Rr) : option RdataDest :=
  if bool_decide (rdata_len rr < 4)%nat then None
  else
    let target := text (bytes_at buf (rdata_off rr + 4) (rdata_len rr - 4)) in
    if utf8_valid target then
      match uri_host target with
      | Ok hosts => uri_dests hosts
      | Err _ => None
      end
    else None.

Definition decode_rdata_dest (buf : buffer) (rr : Rr) : option RdataDest :=
  let ty := rr_rtype rr in
  if bool_decide (ty ∈ [RRTYPE_MX; RRTYPE_KX; RRTYPE_AFSDB; RRTYPE_RT; RRTYPE_LP])
  then one_name <$> decode_named_rdata buf rr 2
  else if ty =? RRTYPE_SRV then one_name <$> decode_named_rdata buf rr 6
  else if ty =? RRTYPE_NAPTR then one_name <$> decode_naptr_rdata buf rr
  else if ty =? RRTYPE_PX then (λ names, mkDest names []) <$> decode_name_seq buf rr 2 2
  else if ty =? RRTYPE_TALINK then (λ names, mkDest names []) <$> decode_name_seq buf rr 0 2
  else if ty =? RRTYPE_IPSECKEY then ipseckey_dest buf rr
  else if ty =? RRTYPE_AMTRELAY then amtrelay_dest buf rr
  else if ty =? RRTYPE_HIP then hip_dest buf rr
  else if ty =? RRTYPE_URI then uri_dest buf rr
  else one_name <$> decode_named_rdata buf rr 0.

(** The type bitmap blocks of an NSEC record. *)
Fixpoint nsec_blocks (fuel : nat) (buf : buffer) (pos end_ : nat) (prev_window : option Z)
    : option unit :=
  if bool_decide (pos < end_)%nat then
    match fuel with
    | O => None
    | S fuel' =>
        if bool_decide (end_ - pos < 2)%nat then None
        else
          let window := byte_at buf pos in
          let len := Z.to_nat (byte_at buf (pos + 1)) in
          if negb (bool_decide (1 ≤ len ≤ 32)%nat) || bool_decide (end_ < pos + 2 + len)%nat
             || is_some_and prev_window (λ w, window <=? w) then None
          else nsec_blocks fuel' buf (pos + (2 + len)) end_ (Some window)
    end
  else match prev_window with Some _ => Some tt | None => None end.

Definition validate_metadata_rdata (buf : buffer) (rr : Rr) : option unit :=
  if rr_rtype rr =? RRTYPE_SOA then
    let? (_, mid) := decode_name buf (rdata_off rr) true in
    if bool_decide (rdata_end rr < mid)%nat then None
    else let? (_, tail) := decode_name buf mid true in
         if bool_decide (tail + 20 = rdata_end rr)%nat then Some tt else None
  else if rr_rtype rr =? RRTYPE_NSEC then
    let? (_, pos) := decode_name buf (rdata_off rr) true in
    nsec_blocks (rdata_len rr) buf pos (rdata_end rr) None
  else None.

(** ** Authority and additional records *)

(** The hint addresses of SvcParams, up to the first malformed one; whether
    all were well formed. *)
Fixpoint hint_addrs (params : list (Z * buffer)) : list IpAddr * bool :=
  match params with
  | [] => ([], true)
  | (key, value) :: params' =>
      if key =? SVC_PARAM_IPV4HINT then
        if bool_decide (length value mod 4 = 0)%nat
        then let '(l, ok) := hint_addrs params' in ((v4_of <$> as_chunks 4 value) ++ l, ok)
        else ([], false)
      else if key =? SVC_PARAM_IPV6HINT then
        if bool_decide (length value mod 16 = 0)%nat
        then let '(l, ok) := hint_addrs params' in ((v6_of <$> as_chunks 16 value) ++ l, ok)
        else ([], false)
      else hint_addrs params'
  end.

(** What the two sections reveal, with the OPT seen so far. *)
Record Extra := mkExtra { ex_opt_seen : bool; ex_names : list string; ex_addrs : list IpAddr }.

Definition reveal (names : list string) (addrs : list IpAddr) (x : Extra) : Extra :=
  mkExtra (ex_opt_seen x) (ex_names x ++ names) (ex_addrs x ++ addrs).

Definition nonempty_names (l : list string) : list string := List.filter (λ n, negb (is_empty n)) l.

(** A target that decodes and ends inside its own RDATA. *)
Definition alias_target (buf : buffer) (rr : Rr) : option string :=
  let? (target, e) := decode_name buf (rdata_off rr) true in
  if bool_decide (e ≤ rdata_end rr)%nat then Some (canonical_name target) else None.

Definition read_extra_rr (buf : buffer) (rr : Rr) (in_additional : bool) (x : Extra) : Extra * bool :=
  let ty := rr_rtype rr in
  let len := rdata_len rr in
  if ty =? RRTYPE_OPT then
    if in_additional && is_empty (rr_name rr)
    then (mkExtra true (ex_names x) (ex_addrs x), negb (ex_opt_seen x))
    else (x, false)
  else if negb (rr_class rr =? 1) then (x, true)
  else
    let owner := canonical_name (rr_name rr) in
    if bool_decide (ty ∈ [RRTYPE_CNAME; RRTYPE_DNAME]) then
      match alias_target buf rr with
      | Some target => (reveal [owner; target] [] x, true)
      | None => (x, false)
      end
    else if (ty =? RRTYPE_A) && bool_decide (len = 4%nat) then
      (reveal [owner] [v4_of (bytes_at buf (rdata_off rr) 4)] x, true)
    else if (ty =? RRTYPE_AAAA) && bool_decide (len = 16%nat) then
      (reveal [owner] [v6_of (bytes_at buf (rdata_off rr) 16)] x, true)
    else if bool_decide (ty ∈ [RRTYPE_SVCB; RRTYPE_HTTPS]) && bool_decide (3 ≤ len)%nat then
      match decode_svcb_rdata buf (rdata_off rr) len with
      | Some (_, target, params) =>
          let '(addrs, ok) := hint_addrs params in
          (reveal (owner :: nonempty_names [canonical_name target]) addrs x, ok)
      | None => (x, false)
      end
    else if (ty =? RRTYPE_WKS) && bool_decide (5 ≤ len)%nat then
      (reveal [owner] [v4_of (bytes_at buf (rdata_off rr) 4)] x, true)
    else if rdata_names_target ty then
      match decode_rdata_dest buf rr with
      | Some dest => (reveal (owner :: nonempty_names (rd_names dest)) (rd_addrs dest) x, true)
      | None => (x, false)
      end
    else if bool_decide (ty ∈ [RRTYPE_SOA; RRTYPE_NSEC]) then
      (x, bool_decide (is_Some (validate_metadata_rdata buf rr)))
    else (x, true).

(** One section's records; [None] in the second component when undecoded. *)
Fixpoint extra_loop (n : nat) (buf : buffer) (pos : nat) (in_additional : bool) (x : Extra)
    : Extra * option nat :=
  match n with
  | O => (x, Some pos)
  | S n' =>
      match read_rr buf pos with
      | None => (x, None)
      | Some (rr, next) =>
          match read_extra_rr buf rr in_additional x with
          | (x', true) => extra_loop n' buf next in_additional x'
          | (x', false) => (x', None)
          end
      end
  end.

(** ** Answer records *)

Record Answers := mkAnswers {
  an_cnames : list (string * string * Z);
  an_dnames : list (string * string * Z);
  an_svc : list (string * string * Z);
  an_addrs : list (string * IpAddr * Z);
  an_extra : Extra;
  an_decoded : bool;
}.

Definition with_cname (c : string * string * Z) (st : Answers) : Answers :=
  mkAnswers (an_cnames st ++ [c]) (an_dnames st) (an_svc st) (an_addrs st) (an_extra st) (an_decoded st).
Definition with_dname (d : string * string * Z) (st : Answers) : Answers :=
  mkAnswers (an_cnames st) (an_dnames st ++ [d]) (an_svc st) (an_addrs st) (an_extra st) (an_decoded st).
Definition with_svc (l : list (string * string * Z)) (st : Answers) : Answers :=
  mkAnswers (an_cnames st) (an_dnames st) (an_svc st ++ l) (an_addrs st) (an_extra st) (an_decoded st).
Definition with_addrs (l : list (string * IpAddr * Z)) (st : Answers) : Answers :=
  mkAnswers (an_cnames st) (an_dnames st) (an_svc st) (an_addrs st ++ l) (an_extra st) (an_decoded st).
Definition with_extra (f : Extra → Extra) (st : Answers) : Answers :=
  mkAnswers (an_cnames st) (an_dnames st) (an_svc st) (an_addrs st) (f (an_extra st)) (an_decoded st).
Definition undecoded (st : Answers) : Answers :=
  mkAnswers (an_cnames st) (an_dnames st) (an_svc st) (an_addrs st) (an_extra st) false.

(** One answer record; [false] leaves the loop. *)
Definition answer_rr (buf : buffer) (rr : Rr) (st : Answers) : Answers * bool :=
  let ty := rr_rtype rr in
  let len := rdata_len rr in
  let ttl := rr_ttl rr in
  if ty =? RRTYPE_OPT then (undecoded st, false)
  else if negb (rr_class rr =? 1) then (st, true)
  else
    let owner := canonical_name (rr_name rr) in
    if ty =? RRTYPE_CNAME then
      match alias_target buf rr with
      | Some target => (with_cname (owner, target, ttl) st, true)
      | None => (undecoded st, false)
      end
    else if ty =? RRTYPE_DNAME then
      match alias_target buf rr with
      | Some target => (with_dname (owner, target, ttl) st, true)
      | None => (undecoded st, false)
      end
    else if (ty =? RRTYPE_A) && bool_decide (len = 4%nat) then
      (with_addrs [(owner, v4_of (bytes_at buf (rdata_off rr) 4), ttl)] st, true)
    else if (ty =? RRTYPE_AAAA) && bool_decide (len = 16%nat) then
      (with_addrs [(owner, v6_of (bytes_at buf (rdata_off rr) 16), ttl)] st, true)
    else if bool_decide (ty ∈ [RRTYPE_SVCB; RRTYPE_HTTPS]) && bool_decide (3 ≤ len)%nat then
      match decode_svcb_rdata buf (rdata_off rr) len with
      | Some (_, target, params) =>
          let '(addrs, ok) := hint_addrs params in
          let targets := nonempty_names [canonical_name target] in
          let st := with_svc ((λ t, (owner, t, ttl)) <$> targets) st in
          let st := with_addrs ((λ a, (owner, a, ttl)) <$> addrs) st in
          (if ok then st else undecoded st, true)
      | None => (undecoded st, true)
      end
    else if (ty =? RRTYPE_WKS) && bool_decide (5 ≤ len)%nat then
      (with_extra (reveal [owner] [v4_of (bytes_at buf (rdata_off rr) 4)]) st, true)
    else if rdata_names_target ty then
      match decode_rdata_dest buf rr with
      | Some dest =>
          (with_extra (reveal (owner :: nonempty_names (rd_names dest)) (rd_addrs dest)) st, true)
      | None => (undecoded st, false)
      end
    else if bool_decide (ty ∈ [RRTYPE_SOA; RRTYPE_NSEC])
            && negb (bool_decide (is_Some (validate_metadata_rdata buf rr)))
    then (undecoded st, false)
    else (st, true).

Fixpoint answer_loop (n : nat) (buf : buffer) (pos : nat) (st : Answers) : Answers * nat :=
  match n with
  | O => (st, pos)
  | S n' =>
      match read_rr buf pos with
      | None => (undecoded st, pos)
      | Some (rr, next) =>
          match answer_rr buf rr st with
          | (st', true) => answer_loop n' buf next st'
          | (st', false) => (st', next)
          end
      end
  end.

(** ** The chain walk *)

Record Walk := mkWalk {
  wk_visited : gset string;
  wk_heads : list string;
  wk_chain : list string;
  wk_truncated : bool;
  wk_min_ttl : option Z;
}.

(** [min_ttl.map_or(ttl, |m| m.min(ttl))]. *)
Definition min_ttl_of (m : option Z) (ttl : Z) : option Z :=
  Some (match m with Some t => Z.min t ttl | None => ttl end).

Definition candidates (st : Answers) (head : string) : list (string * Z) :=
  option_list ((λ c, (c.1.2, c.2)) <$> List.find (λ c, bool_decide (c.1.1 = head)) (an_cnames st))
  ++ option_list (dname_target (an_dnames st) head)
  ++ ((λ c, (c.1.2, c.2)) <$> List.filter (λ c, bool_decide (c.1.1 = head)) (an_svc st)).

Fixpoint push_candidates (cs : list (string * Z)) (w : Walk) : Walk :=
  match cs with
  | [] => w
  | (target, ttl) :: cs' =>
      if bool_decide (MAX_CHAIN_DEPTH ≤ length (wk_chain w))%nat
      then mkWalk (wk_visited w) (wk_heads w) (wk_chain w) true (wk_min_ttl w)
      else
        let fresh := bool_decide (target ∉ wk_visited w) in
        push_candidates cs'
          (mkWalk ({[target]} ∪ wk_visited w)
             (if fresh then wk_heads w ++ [target] else wk_heads w)
             (wk_chain w ++ [target]) (wk_truncated w) (min_ttl_of (wk_min_ttl w) ttl))
  end.

(** [while let Some(head) = heads.pop_front()]; the outer option is the fuel. *)
Fixpoint walk_chain (fuel : nat) (st : Answers) (w : Walk) : option Walk :=
  match wk_heads w with
  | [] => Some w
  | head :: heads =>
      match fuel with
      | O => None
      | S fuel' =>
          let w := push_candidates (candidates st head)
                     (mkWalk (wk_visited w) heads (wk_chain w) (wk_truncated w) (wk_min_ttl w)) in
          if wk_truncated w then Some w else walk_chain fuel' st w
      end
  end.

Definition CHAIN_FUEL : nat := 18.

Definition start_walk (forwarded_name : string) : Walk :=
  mkWalk {[forwarded_name]} [forwarded_name] [] false None.

(** The addresses owned by a visited name, with the lifetime they leave. *)
Definition owned_addrs (visited : gset string) (addrs : list (string * IpAddr * Z))
    : list (string * IpAddr * Z) := List.filter (λ a, bool_decide (a.1.1 ∈ visited)) addrs.

(** ** The whole answer *)

Fixpoint skip_questions (n : nat) (buf : buffer) (pos : nat) : option nat :=
  match n with
  | O => Some pos
  | S n' =>
      let? (_, next) := decode_name buf pos true in
      let next := (next + 4)%nat in
      if bool_decide (length buf < next)%nat then None else skip_questions n' buf next
  end.

Definition parse_response (buf : buffer) (forwarded_name : string) : ParsedResponse :=
  if bool_decide (length buf < HEADER_LEN)%nat then mkParsed 0 [] false [] None [] [] false
  else
    let rcode := Z.land (byte_at buf 3) 0x0F in
    let count i := Z.to_nat (be16 buf i) in
    match skip_questions (count 4%nat) buf HEADER_LEN with
    | None => mkParsed rcode [] false [] None [] [] false
    | Some pos =>
        let '(st, pos) := answer_loop (count 6%nat) buf pos
                            (mkAnswers [] [] [] [] (mkExtra false [] []) true) in
        let '(extra, decoded) :=
          if an_decoded st then
            match extra_loop (count 8%nat) buf pos false (an_extra st) with
            | (x, None) => (x, false)
            | (x, Some pos) =>
                match extra_loop (count 10%nat) buf pos true x with
                | (x, None) => (x, false)
                | (x, Some pos) => (x, bool_decide (pos = length buf))
                end
            end
          else (an_extra st, false) in
        let w := default (start_walk forwarded_name) (walk_chain CHAIN_FUEL st (start_walk forwarded_name)) in
        let addrs := owned_addrs (wk_visited w) (an_addrs st) in
        mkParsed rcode (wk_chain w) (wk_truncated w || bool_decide (wk_heads w ≠ []))
          ((λ a, (a.1.2, a.2)) <$> addrs) (foldl (λ m a, min_ttl_of m a.2) (wk_min_ttl w) addrs)
          (ex_names extra) (ex_addrs extra) decoded
    end.
End walk.

Section answers.
Context (domain_to_ascii : string → option string).
Notation candidates := (candidates domain_to_ascii).
Notation walk_chain := (walk_chain domain_to_ascii).
Notation answer_loop := (answer_loop domain_to_ascii).
Notation extra_loop := (extra_loop domain_to_ascii).
Notation parse_response := (parse_response domain_to_ascii).

(** ** The chain walk *)

(** A followed alias, with its lifetime. *)
Definition alias (st : Answers) (ttl : Z) (a b : string) : Prop := (b, ttl) ∈ candidates st a.
Definition aliased (st : Answers) (a b : string) : Prop := ∃ ttl, alias st ttl a b.

Definition lifetime_within (m : option Z) (ttl : Z) : Prop := ∃ t, m = Some t ∧ t <= ttl.

Lemma lifetime_min m ttl : lifetime_within (min_ttl_of m ttl) ttl.
Proof. destruct m as [t|]; eexists; (split; [done|]); lia. Qed.

Lemma lifetime_mono m ttl ttl' : lifetime_within m ttl → lifetime_within (min_ttl_of m ttl') ttl.
Proof. intros (t & -> & H). eexists; split; [done|]. lia. Qed.

(** Everything about a walk that popping and pushing keep. *)
Record walk_ok (st : Answers) (fwd : string) (w : Walk) : Prop := {
  wo_visited : wk_visited w = {[fwd]} ∪ list_to_set (wk_chain w);
  wo_heads : ∀ h, h ∈ wk_heads w → h ∈ wk_visited w;
  wo_reached : ∀ n, n ∈ wk_chain w → rtc (aliased st) fwd n;
  wo_length : (length (wk_chain w) ≤ MAX_CHAIN_DEPTH)%nat;
}.

Lemma visited_reached st fwd w n : walk_ok st fwd w → n ∈ wk_visited w → rtc (aliased st) fwd n.
Proof.
  intros Hw. rewrite (wo_visited _ _ _ Hw). intros [->%elem_of_singleton|Hn]%elem_of_union; [done|].
  apply (wo_reached _ _ _ Hw). by apply elem_of_list_to_set in Hn.
Qed.

(** The names whose aliases are all in the chain. *)
Definition expanded (st : Answers) (w : Walk) (h : string) : Prop :=
  ∀ t ttl, alias st ttl h t → t ∈ wk_chain w ∧ lifetime_within (wk_min_ttl w) ttl.

Lemma push_candidates_spec st fwd head cs : ∀ w,
  walk_ok st fwd w → wk_truncated w = false → rtc (aliased st) fwd head →
  (∀ t ttl, (t, ttl) ∈ cs → alias st ttl head t) →
  let w' := push_candidates cs w in
  walk_ok st fwd w' ∧
  (length (wk_heads w') + (16 - length (wk_chain w')) ≤ length (wk_heads w) + (16 - length (wk_chain w)))%nat ∧
  (∀ n, n ∈ wk_chain w → n ∈ wk_chain w') ∧
  (∀ ttl, lifetime_within (wk_min_ttl w) ttl → lifetime_within (wk_min_ttl w') ttl) ∧
  (∀ h, h ∈ wk_heads w → h ∈ wk_heads w') ∧
  (∀ h, h ∈ wk_visited w' → h ∈ wk_visited w ∨ h ∈ wk_heads w') ∧
  (wk_truncated w' = false → ∀ t ttl, (t, ttl) ∈ cs →
     t ∈ wk_chain w' ∧ lifetime_within (wk_min_ttl w') ttl).
Proof.
  induction cs as [|[t ttl] cs IH]; intros w Hw Htr Hh Hcs; cbn [push_candidates].
  { split_and!; try done; [auto|]. intros _ t ttl []%elem_of_nil. }
  case_bool_decide as Hlen.
  { split_and!; try done; [|auto]. destruct Hw. by split. }
  set (w1 := mkWalk _ _ _ _ _).
  assert (walk_ok st fwd w1) as Hw1.
  { pose proof Hw as [Hv Hhd Hr Hl]. unfold w1. split; simpl.
    - rewrite Hv, list_to_set_app_L. set_solver.
    - case_bool_decide; set_solver.
    - intros n [Hn| ->%list_elem_of_singleton]%elem_of_app; [by apply Hr|].
      eapply rtc_r; [done|]. exists ttl. apply Hcs. set_solver.
    - rewrite length_app. simpl. unfold MAX_CHAIN_DEPTH in *. lia. }
  destruct (IH w1) as (H1 & H2 & H3 & H4 & H5 & H6 & H7); [done..|set_solver|].
  unfold MAX_CHAIN_DEPTH in Hlen. split_and!; [done|..].
  - etransitivity; [exact H2|]. unfold w1. simpl. rewrite length_app.
    case_bool_decide; rewrite ?length_app; simpl; lia.
  - intros n Hn. apply H3. unfold w1. set_solver.
  - intros ttl' Ht. apply H4. unfold w1. simpl. by apply lifetime_mono.
  - intros h Hin. apply H5. unfold w1. simpl. case_bool_decide; set_solver.
  - intros h [Hv|Hv]%H6; [|by right]. unfold w1 in Hv. simpl in Hv.
    apply elem_of_union in Hv as [->%elem_of_singleton|Hv]; [|by left].
    destruct (decide (t ∈ wk_visited w)) as [|Hn]; [by left|]. right. apply H5.
    unfold w1. simpl. rewrite bool_decide_eq_true_2 by done. set_solver.
  - intros Htr' t' ttl' [[= -> ->]|Hin]%elem_of_cons; [|by apply H7].
    split; [apply H3; unfold w1; set_solver|]. apply H4. apply lifetime_min.
Qed.

(** The walk ends within its fuel, sound, and closed when not truncated. *)
Lemma walk_chain_spec st fwd fuel : ∀ w,
  walk_ok st fwd w → wk_truncated w = false →
  (length (wk_heads w) + (16 - length (wk_chain w)) ≤ fuel)%nat →
  (∀ h, h ∈ wk_visited w → h ∈ wk_heads w ∨ expanded st w h) →
  ∃ w', walk_chain fuel st w = Some w' ∧ walk_ok st fwd w' ∧
    (wk_truncated w' = false → wk_heads w' = [] ∧ ∀ h, h ∈ wk_visited w' → expanded st w' h).
Proof.
  induction fuel as [|fuel IH]; intros w Hw Htr Hf Hex; cbn [DnsResponse.walk_chain].
  - destruct (wk_heads w) as [|h hs] eqn:E; [|simpl in Hf; lia]. exists w. split_and!; [done..|].
    intros _. split; [done|]. intros h []%Hex; [set_solver|done].
  - destruct (wk_heads w) as [|head heads] eqn:E.
    { exists w. split_and!; [done..|]. intros _. split; [done|]. intros h []%Hex; [set_solver|done]. }
    set (w0 := mkWalk (wk_visited w) heads (wk_chain w) (wk_truncated w) (wk_min_ttl w)).
    assert (walk_ok st fwd w0) as Hw0.
    { destruct Hw as [Hv Hhd Hr Hl]. split; try done. intros h Hin. apply Hhd. rewrite E. set_solver. }
    assert (rtc (aliased st) fwd head) as Hhead.
    { eapply visited_reached; [done|]. apply (wo_heads _ _ _ Hw). rewrite E. set_solver. }
    destruct (push_candidates_spec st fwd head (candidates st head) w0) as
      (H1 & H2 & H3 & H4 & H5 & H6 & H7); [done..|].
    destruct (wk_truncated (push_candidates (candidates st head) w0)) eqn:Et.
    + eexists; split_and!; [done..|]. rewrite Et. done.
    + apply IH; [done..| |].
      * etransitivity; [exact H2|]. unfold w0. simpl in Hf |- *. lia.
      * intros h [Hv|Hv]%H6; [|by left]. unfold w0 in Hv. simpl in Hv.
        apply Hex in Hv as [Hin|Hold].
        -- apply elem_of_cons in Hin as [->|Hin]; [|left; by apply H5].
           right. intros t ttl Ha. by apply H7.
        -- right. intros t ttl [Hc Hl]%Hold. split; [by apply H3|by apply H4].
Qed.

Lemma start_walk_ok st fwd : walk_ok st fwd (start_walk fwd).
Proof. split; simpl; [set_solver|set_solver|set_solver|unfold MAX_CHAIN_DEPTH; lia]. Qed.

Lemma walk_answers st fwd :
  ∃ w, walk_chain CHAIN_FUEL st (start_walk fwd) = Some w ∧ walk_ok st fwd w ∧
    (wk_truncated w = false → wk_heads w = [] ∧ ∀ h, h ∈ wk_visited w → expanded st w h).
Proof.
  apply walk_chain_spec; [apply start_walk_ok|done|unfold CHAIN_FUEL; simpl; lia|].
  intros h Hh. left. simpl in *. set_solver.
Qed.

(** A closed walk visits every name the aliases reach. *)
Lemma closed_walk st fwd w : walk_ok st fwd w → (∀ h, h ∈ wk_visited w → expanded st w h) →
  ∀ n, n ∈ wk_visited w ↔ rtc (aliased st) fwd n.
Proof.
  intros Hw Hex n. split; [by apply visited_reached|].
  assert (∀ a b, rtc (aliased st) a b → a ∈ wk_visited w → b ∈ wk_visited w) as H.
  { induction 1 as [|a b c [ttl Hab] _ IH]; [done|]. intros Ha. apply IH.
    rewrite (wo_visited _ _ _ Hw). apply Hex in Ha. apply Ha in Hab as [Hc _]. set_solver. }
  intros Hr. eapply H; [done|]. rewrite (wo_visited _ _ _ Hw). set_solver.
Qed.

(** ** Fuel of the loops over one record *)

(** Any two amounts of fuel that cover the bytes left give the same result. *)
Lemma svc_params_fuel n : ∀ m buf pos end_, (end_ - pos ≤ n)%nat → (end_ - pos ≤ m)%nat →
  svc_params n buf pos end_ = svc_params m buf pos end_.
Proof.
  induction n as [|n IH]; intros m buf pos end_ Hn Hm; destruct m as [|m]; cbn [svc_params];
    case_bool_decide; try done; try lia.
  destruct (slice _ _ _); [|done]. case_bool_decide; [done|]. by rewrite (IH m) by lia.
Qed.

Lemma hip_servers_fuel n : ∀ m buf pos end_, (end_ - pos ≤ n)%nat → (end_ - pos ≤ m)%nat →
  hip_servers domain_to_ascii n buf pos end_ = hip_servers domain_to_ascii m buf pos end_.
Proof.
  induction n as [|n IH]; intros m buf pos end_ Hn Hm; destruct m as [|m]; cbn [hip_servers];
    case_bool_decide; try done; try lia.
  destruct (decode_name _ _ _) as [[name stop]|] eqn:E; [|done]. apply decode_name_bounds in E.
  case_bool_decide; [done|]. by rewrite (IH m) by lia.
Qed.

Lemma nsec_blocks_fuel n : ∀ m buf pos end_ w, (end_ - pos ≤ n)%nat → (end_ - pos ≤ m)%nat →
  nsec_blocks n buf pos end_ w = nsec_blocks m buf pos end_ w.
Proof.
  induction n as [|n IH]; intros m buf pos end_ w Hn Hm; destruct m as [|m]; cbn [nsec_blocks];
    case_bool_decide; try done; try lia.
  case_bool_decide; [done|]. destruct (_ || _); [done|]. apply IH; lia.
Qed.

Lemma chunks_fuel k n : (0 < k)%nat → ∀ m bs, (length bs ≤ n)%nat → (length bs ≤ m)%nat →
  chunks n k bs = chunks m k bs.
Proof.
  intros Hk. induction n as [|n IH]; intros m bs Hn Hm; destruct m as [|m]; cbn [chunks]; try done.
  - rewrite bool_decide_eq_true_2 by lia. done.
  - rewrite bool_decide_eq_true_2 by lia. done.
  - case_bool_decide; [done|]. f_equal. apply IH; rewrite length_drop; lia.
Qed.

(** ** Reading to the last byte *)

Lemma answer_rr_decoded buf rr st :
  let r := answer_rr domain_to_ascii buf rr st in
  an_decoded r.1 = true → an_decoded st = true ∧ r.2 = true.
Proof.
  unfold answer_rr. cbv zeta.
  destruct (_ =? RRTYPE_OPT); [done|]. destruct (negb _); [done|].
  destruct (_ =? RRTYPE_CNAME); [by destruct (alias_target _ _ _)|].
  destruct (_ =? RRTYPE_DNAME); [by destruct (alias_target _ _ _)|].
  destruct ((_ =? RRTYPE_A) && _); [done|]. destruct ((_ =? RRTYPE_AAAA) && _); [done|].
  destruct (_ && bool_decide (3 ≤ _)%nat).
  { destruct (decode_svcb_rdata _ _ _) as [[[? ?] ps]|]; [|done].
    by destruct (hint_addrs ps) as [? []]. }
  destruct ((_ =? RRTYPE_WKS) && _); [done|].
  destruct (rdata_names_target _); [by destruct (decode_rdata_dest _ _ _)|].
  by destruct (_ && negb _).
Qed.

Lemma answer_loop_decoded n : ∀ buf pos st st' pos',
  answer_loop n buf pos st = (st', pos') → an_decoded st' = true →
  an_decoded st = true ∧ skip_rrs n buf pos = Some pos'.
Proof.
  induction n as [|n IH]; intros buf pos st st' pos'; cbn [DnsResponse.answer_loop skip_rrs];
    [by intros [= <- <-]|].
  destruct (read_rr buf pos) as [[rr next]|]; [|by intros [= <- <-]].
  destruct (answer_rr _ buf rr st) as [st1 go] eqn:E. destruct go.
  - intros H Hd. destruct (IH _ _ _ _ _ H Hd) as [H1 H2].
    pose proof (answer_rr_decoded buf rr st) as Hr. rewrite E in Hr. by destruct (Hr H1).
  - intros [= <- <-] Hd. pose proof (answer_rr_decoded buf rr st) as Hr. rewrite E in Hr.
    by destruct (Hr Hd).
Qed.

Lemma extra_loop_read n : ∀ buf pos b x x' pos',
  extra_loop n buf pos b x = (x', Some pos') → skip_rrs n buf pos = Some pos'.
Proof.
  induction n as [|n IH]; intros buf pos b x x' pos'; cbn [DnsResponse.extra_loop skip_rrs];
    [by intros [= _ <-]|].
  destruct (read_rr buf pos) as [[rr next]|]; [|done].
  destruct (read_extra_rr _ _ _ _ _) as [x1 [|]]; [apply IH|done].
Qed.

(** ** The answer as a whole *)

(** The answer section's records, when the question section is readable. *)
Definition answers_of (buf : buffer) : option (Answers * nat) :=
  (λ pos, answer_loop (Z.to_nat (be16 buf 6)) buf pos
            (mkAnswers [] [] [] [] (mkExtra false [] []) true))
  <$> skip_questions (Z.to_nat (be16 buf 4)) buf HEADER_LEN.

Lemma foldl_lifetime (l : list (string * IpAddr * Z)) : ∀ m,
  (∀ ttl, lifetime_within m ttl → lifetime_within (foldl (λ m a, min_ttl_of m a.2) m l) ttl) ∧
  (∀ a, a ∈ l → lifetime_within (foldl (λ m a, min_ttl_of m a.2) m l) a.2).
Proof.
  induction l as [|x l IH]; intros m; simpl; [split; [done|set_solver]|].
  destruct (IH (min_ttl_of m x.2)) as [H1 H2]. split.
  - intros ttl H. by apply H1, lifetime_mono.
  - intros a [->|Ha]%elem_of_cons; [apply H1, lifetime_min|by apply H2].
Qed.

Lemma elem_of_owned visited addrs a :
  a ∈ owned_addrs visited addrs ↔ a ∈ addrs ∧ a.1.1 ∈ visited.
Proof.
  unfold owned_addrs. rewrite list_elem_of_In, filter_In, <-list_elem_of_In, bool_decide_eq_true. done.
Qed.

(** A decoded answer, taken apart. *)
Lemma parse_response_inv buf fwd : pr_decoded (parse_response buf fwd) = true →
  ∃ st p0 p1 p2 w,
    skip_questions (Z.to_nat (be16 buf 4)) buf HEADER_LEN = Some p0 ∧
    answers_of buf = Some (st, p1) ∧ skip_rrs (Z.to_nat (be16 buf 6)) buf p0 = Some p1 ∧
    skip_rrs (Z.to_nat (be16 buf 8)) buf p1 = Some p2 ∧
    skip_rrs (Z.to_nat (be16 buf 10)) buf p2 = Some (length buf) ∧
    walk_chain CHAIN_FUEL st (start_walk fwd) = Some w ∧
    pr_chain (parse_response buf fwd) = wk_chain w ∧
    pr_chain_truncated (parse_response buf fwd) = wk_truncated w || bool_decide (wk_heads w ≠ []) ∧
    pr_addrs (parse_response buf fwd) =
      (λ a, (a.1.2, a.2)) <$> owned_addrs (wk_visited w) (an_addrs st) ∧
    pr_min_ttl (parse_response buf fwd) =
      foldl (λ m a, min_ttl_of m a.2) (wk_min_ttl w) (owned_addrs (wk_visited w) (an_addrs st)).
Proof.
  unfold DnsResponse.parse_response, answers_of. case_bool_decide; [done|]. cbv zeta.
  destruct (skip_questions _ _ _) as [p0|] eqn:Eq; [|done]. cbn [fmap option_fmap option_map].
  destruct (answer_loop _ buf p0 _) as [st p1] eqn:Ea.
  destruct (walk_answers st fwd) as (w & Ew & _ & _).
  destruct (an_decoded st) eqn:Ed; [|done].
  destruct (extra_loop _ buf p1 false _) as [x1 [p2|]] eqn:E1; [|done].
  destruct (extra_loop _ buf p2 true x1) as [x2 [p3|]] eqn:E2; [|done].
  cbn [pr_decoded]. intros ->%bool_decide_eq_true.
  apply answer_loop_decoded in Ea as [_ Ea]; [|done].
  apply extra_loop_read in E1, E2.
  exists st, p0, p1, p2, w. cbn [pr_chain pr_chain_truncated pr_addrs pr_min_ttl].
  rewrite Ew. by split_and!.
Qed.

(** The lifetime of a decoded answer bounds that of its addresses. *)
Lemma addrs_lifetime buf fwd a ttl :
  pr_decoded (parse_response buf fwd) = true → (a, ttl) ∈ pr_addrs (parse_response buf fwd) →
  lifetime_within (pr_min_ttl (parse_response buf fwd)) ttl.
Proof.
  intros (st & p0 & p1 & p2 & w & _ & _ & _ & _ & _ & _ & _ & _ & -> & ->)%parse_response_inv.
  destruct (foldl_lifetime (owned_addrs (wk_visited w) (an_addrs st)) (wk_min_ttl w)) as [_ L].
  intros ([[o a'] t'] & [= -> ->] & Hin)%list_elem_of_fmap. by apply L in Hin.
Qed.

(** A decoded answer was read completely: the questions and then exactly
    the counted answer, authority and additional records follow each other and
    end at the last byte, so no part of what is relayed was left unread. *)
Lemma decoded_answer_read_to_end buf fwd :
  pr_decoded (parse_response buf fwd) = true →
  ∃ p0 p1 p2, skip_questions (Z.to_nat (be16 buf 4)) buf HEADER_LEN = Some p0 ∧
    skip_rrs (Z.to_nat (be16 buf 6)) buf p0 = Some p1 ∧
    skip_rrs (Z.to_nat (be16 buf 8)) buf p1 = Some p2 ∧
    skip_rrs (Z.to_nat (be16 buf 10)) buf p2 = Some (length buf).
Proof.
  intros (st & p0 & p1 & p2 & w & H0 & _ & H1 & H2 & H3 & _)%parse_response_inv. eauto 8.
Qed.

(** The alias chain is exact: of a decoded answer, the chain has at most
    sixteen entries, and when it is not truncated it holds, with the forwarded
    name, exactly the names the answer's CNAME, DNAME and service records lead
    to from there; the collected addresses are exactly those of records owned
    by such a name; and the lifetime does not exceed that of any alias on the
    way or of any collected address. *)
Lemma answer_chain_exact buf fwd :
  pr_decoded (parse_response buf fwd) = true →
  ∃ st pos, answers_of buf = Some (st, pos) ∧
  (length (pr_chain (parse_response buf fwd)) ≤ 16)%nat ∧
  (pr_chain_truncated (parse_response buf fwd) = false →
   (∀ n, n = fwd ∨ n ∈ pr_chain (parse_response buf fwd) ↔ rtc (aliased st) fwd n) ∧
   (∀ a ttl, (a, ttl) ∈ pr_addrs (parse_response buf fwd) ↔
      ∃ owner, (owner, a, ttl) ∈ an_addrs st ∧ rtc (aliased st) fwd owner) ∧
   (∀ a ttl, (a, ttl) ∈ pr_addrs (parse_response buf fwd) →
      lifetime_within (pr_min_ttl (parse_response buf fwd)) ttl) ∧
   (∀ h t ttl, rtc (aliased st) fwd h → alias st ttl h t →
      lifetime_within (pr_min_ttl (parse_response buf fwd)) ttl)).
Proof.
  intros (st & p0 & p1 & p2 & w & _ & Ha & _ & _ & _ & Hw & Hc & Ht & Had & Hm)%parse_response_inv.
  destruct (walk_answers st fwd) as (w' & Hw' & Hok & Hcl). rewrite Hw in Hw'. injection Hw' as <-.
  exists st, p1. rewrite Hc, Ht, Had, Hm. split_and!; [done|apply (wo_length _ _ _ Hok)|].
  intros [Htr _]%orb_false_iff. destruct (Hcl Htr) as [_ Hex].
  pose proof (closed_walk st fwd w Hok Hex) as Hv.
  destruct (foldl_lifetime (owned_addrs (wk_visited w) (an_addrs st)) (wk_min_ttl w)) as [L1 L2].
  split_and!.
  - intros n. rewrite <-Hv, (wo_visited _ _ _ Hok). by rewrite elem_of_union, elem_of_singleton, elem_of_list_to_set.
  - intros a ttl. rewrite list_elem_of_fmap. setoid_rewrite elem_of_owned. split.
    + intros ([[o a'] t'] & [= -> ->] & Hin & Ho). exists o. by rewrite <-Hv.
    + intros (o & Hin & Ho). exists (o, a, ttl). by rewrite Hv.
  - intros a ttl ([[o a'] t'] & [= -> ->] & Hin)%list_elem_of_fmap. by apply L2 in Hin.
  - intros h t ttl Hh%Hv Hal. apply L1. by apply (Hex h Hh t ttl).
Qed.
End answers.

(** ** Witnesses *)

(** [example.com A 93.184.216.34], with a lifetime of a minute. *)
Definition example_answer : buffer :=
  of_byte <$> [0x12; 0x34; 0x81; 0x80; 0; 1; 0; 1; 0; 0; 0; 0;
               7; 101; 120; 97; 109; 112; 108; 101; 3; 99; 111; 109; 0; 0; 1; 0; 1;
               0xC0; 12; 0; 1; 0; 1; 0; 0; 0; 60; 0; 4; 93; 184; 216; 34].

Notation no_idna := (λ _ : string, @None string).

(** [example.com CNAME b.example], [b.example A 93.184.216.34]. *)
Definition alias_answer : buffer :=
  of_byte <$> [0x12; 0x34; 0x81; 0x80; 0; 1; 0; 2; 0; 0; 0; 0;
               7; 101; 120; 97; 109; 112; 108; 101; 3; 99; 111; 109; 0; 0; 1; 0; 1;
               0xC0; 12; 0; 5; 0; 1; 0; 0; 0; 30; 0; 11; 1; 98; 7; 101; 120; 97; 109; 112; 108; 101; 0;
               0xC0; 41; 0; 1; 0; 1; 0; 0; 0; 60; 0; 4; 93; 184; 216; 34].

