(* ===== verification/DnsGate.v ===== *)
(** * DnsGate: the query pipeline

    [src/src/dnsgate/server.rs] and [src/src/dnsgate/upstream.rs]: a query
    judged, exchanged, its answer judged and recorded; its effect on the grant
    table is its list of operations, so that queries interleave. The theorems
    follow, the last one joining all layers of the egress path. *)

From S2P Require Import Prelude Text IpAddr PolicyHost PolicyCidr Outbound IpEval AllowList.
From S2P Require Import DnsWire DnsResponse ProtectedSpace HostMatch FlowGate.
From S2P Require Import EgressTheorems DnsTheorems.

(** ** Configuration *)

Inductive Refusal := RefNxdomain | RefRefused.

Definition Refusal_parse (s : string) : result Refusal string :=
  if eq_ignore_ascii_case s "nxdomain" then Ok RefNxdomain
  else if eq_ignore_ascii_case s "refused" then Ok RefRefused
  else Err ("invalid refusal rcode '" +:+ s +:+ "', expected nxdomain or refused").

Definition Refusal_rcode (r : Refusal) : Z :=
  match r with RefNxdomain => RCODE_NXDOMAIN | RefRefused => RCODE_REFUSED end.

Definition Refusal_as_str (r : Refusal) : string :=
  match r with RefNxdomain => "nxdomain" | RefRefused => "refused" end.

Inductive Transport := TransportUdp | TransportTcp.

(** ** The upstream exchange *)

Inductive ForwardError := FwTimeout | FwIo | FwMismatch.

(** What waiting on an upstream socket delivers. *)
Inductive NetRead := NrBytes (b : buffer) | NrIo | NrTimeout.

Section exchange.
Context (id : Z) (canonical : string) (ty cls : Z).

(** Datagrams that do not match are dropped without restarting the clock. *)
Fixpoint udp_exchange (reads : list NetRead) : result buffer ForwardError :=
  match reads with
  | [] | NrTimeout :: _ => Err FwTimeout
  | NrIo :: _ => Err FwIo
  | NrBytes b :: reads' =>
      if response_matches b id canonical ty cls then Ok b else udp_exchange reads'
  end.

Definition tcp_exchange (read : NetRead) : result buffer ForwardError :=
  match read with
  | NrTimeout => Err FwTimeout
  | NrIo => Err FwIo
  | NrBytes b => if response_matches b id canonical ty cls then Ok b else Err FwMismatch
  end.

Definition forward_udp (udp : list NetRead) (tcp : NetRead) : result buffer ForwardError :=
  match udp_exchange udp with
  | Err e => Err e
  | Ok resp => if response_truncated resp then tcp_exchange tcp else Ok resp
  end.

Definition forward_tcp (tcp : NetRead) : result buffer ForwardError := tcp_exchange tcp.
End exchange.

(** ** Address rules *)

(** [contains] over a growing list of spellings. *)
Definition spellings_of (addr : IpAddr) : list IpAddr :=
  foldl (λ l ep, if bool_decide (ep ∈ l) then l else l ++ [ep]) [addr]
    [socket_endpoint addr; dialed_endpoint addr].

Fixpoint denied_spelling (o : OutboundPolicy) (spellings : list IpAddr) : option (string * string) :=
  match spellings with
  | [] => None
  | spelled :: rest =>
      if bool_decide ("*" ∈ denied_hosts o) then Some ("deny-host", "*")
      else match List.find (λ d, bool_decide (parse_ip d = Some spelled)) (denied_hosts o) with
      | Some rule => Some ("deny-host", rule)
      | None =>
          match List.find (λ c, cidr_contains c spelled) (denied_cidrs o) with
          | Some rule => Some ("deny-cidr", rule)
          | None => denied_spelling o rest
          end
      end
  end.

Definition denied_addr (o : OutboundPolicy) (addr : IpAddr) : option (string * string) :=
  denied_spelling o (spellings_of addr).

(** An allow rule that names the endpoint by address. *)
Definition names_endpoint (endpoint : IpAddr) (r : EgressRule) : bool :=
  eg_allow r && match eg_dest r with
                | Host h => bool_decide (parse_ip h = Some endpoint)
                | Cidr c => cidr_contains c endpoint
                | Unix _ => false
                end.

Definition addr_opt_in_quals (o : OutboundPolicy) (endpoint : IpAddr) : option (list GrantQual) :=
  let quals := sort_dedup ((λ r, mkQual (eg_proto r) (eg_port r))
                           <$> List.filter (names_endpoint endpoint) (egress_rules o)) in
  if bool_decide (quals = []) then None else Some quals.

(** ** One query *)

Record Env := mkEnv {
  env_available : bool;             (** [ensure_available] before forwarding *)
  env_udp : list NetRead;
  env_tcp : NetRead;
  env_available_after : bool;       (** [ensure_available] before minting *)
  env_token : Z;                    (** what [begin_staging] returns *)
  env_now : nat → Z;                (** [Instant::now() + ttl] of the i-th grant *)
  env_check : nat → Z;              (** the reading its expiry is compared with *)
  env_clock : nat → GrantKey → Z;   (** the readings of its [retain] *)
  env_commit : bool;                (** the resolution record is durable *)
}.

Inductive Event :=
  | EvDenied (name : string) (ty : option Z) (decision : string) (rule : option string)
      (rcode : string) (detail : option string)
  | EvResolved (name : string) (ty : Z) (res : string).

Record Outcome := mkGateOutcome {
  go_answer : option buffer;
  go_ops : list Op;
  go_events : list Event;
}.

Section pipeline.
Context (domain_to_ascii : string → option string).
Notation evaluate_name := (evaluate_name domain_to_ascii).
Notation parse_response := (parse_response domain_to_ascii).

(** The judgments on a walked answer, in order; the first that fails. *)
Fixpoint denied_member (o : OutboundPolicy) (chain : list string)
    : option (string * option string * string) :=
  match chain with
  | [] => None
  | member :: chain' =>
      match eo_verdict (evaluate_name o member) with
      | NameDeny reason =>
          Some (deny_decision reason, deny_rule reason, "chain-target=" +:+ member)
      | NameAllow => denied_member o chain'
      end
  end.

Fixpoint denied_address (o : OutboundPolicy) (label : string) (addrs : list IpAddr)
    : option (string * option string * string) :=
  match addrs with
  | [] => None
  | addr :: addrs' =>
      match denied_addr o addr with
      | Some (decision, rule) => Some (decision, Some rule, label +:+ show_ip addr)
      | None => denied_address o label addrs'
      end
  end.

(** Only an explicit rule refuses a name that is merely referenced. *)
Fixpoint denied_section_name (o : OutboundPolicy) (names : list string)
    : option (string * option string * string) :=
  match names with
  | [] => None
  | name :: names' =>
      match eo_verdict (evaluate_name o name) with
      | NameDeny reason =>
          if bool_decide (is_Some (deny_rule reason))
          then Some (deny_decision reason, deny_rule reason, "section-name=" +:+ name)
          else denied_section_name o names'
      | NameAllow => denied_section_name o names'
      end
  end.

Definition or_else {A} (a b : option A) : option A := match a with Some x => Some x | None => b end.

Definition judge_answer (o : OutboundPolicy) (p : ParsedResponse)
    : option (string * option string * string) :=
  or_else (denied_member o (pr_chain p))
    (or_else (denied_address o "resolved-addr=" (pr_addrs p).*1)
       (or_else (denied_section_name o (pr_extra_names p))
          (denied_address o "section-addr=" (pr_extra_addrs p)))).

(** The qualifiers an address is granted under, if it may be. *)
Definition mint_quals (o : OutboundPolicy) (quals : list GrantQual) (addr : IpAddr)
    : option (list GrantQual) :=
  if endpoint_is_protected (dialed_endpoint addr)
  then addr_opt_in_quals o (dialed_endpoint addr) else Some quals.

Definition mint_endpoints (addr : IpAddr) : list IpAddr :=
  if bool_decide (dialed_endpoint addr = socket_endpoint addr) then [socket_endpoint addr]
  else [socket_endpoint addr; dialed_endpoint addr].

(** The [register_staged] calls, the i-th with the i-th clock readings. *)
Fixpoint stage_all (env : Env) (canonical : string) (ttl : Z)
    (targets : list (IpAddr * list GrantQual)) (i : nat) : list Op :=
  match targets with
  | [] => []
  | (ep, quals) :: targets' =>
      OStage (env_token env) (env_check env i) (env_clock env i) canonical ep quals
        (env_now env i + ttl)
      :: stage_all env canonical ttl targets' (S i)
  end.

Definition mint_targets (o : OutboundPolicy) (quals : list GrantQual) (addrs : list IpAddr)
    : list (IpAddr * list GrantQual) :=
  addrs ≫= λ addr, match mint_quals o quals addr with
                   | Some qs => (λ ep, (ep, qs)) <$> mint_endpoints addr
                   | None => []
                   end.

Definition mint_ops (env : Env) (o : OutboundPolicy) (eval : EvalOutcome) (p : ParsedResponse)
    : list Op :=
  match pr_min_ttl p with
  | Some ttl =>
      if 0 <? ttl
      then stage_all env (eo_canonical eval) ttl (mint_targets o (eo_quals eval) (pr_addrs p).*1) 0
      else []
  | None => []
  end.

(** UDP answers above the client's payload size become a truncation hint. *)
Definition sized_answer (t : Transport) (pkt : buffer) (q : DnsQuery) (resp : buffer) : buffer :=
  match t with
  | TransportTcp => resp
  | TransportUdp =>
      let cap := Z.max (default 512 (edns_udp_size q)) 512 in
      if cap <? Z.of_nat (length resp) then truncated_answer pkt q else resp
  end.

Definition refuse (pkt : buffer) (q : DnsQuery) (rcode : Z) (evs : list Event) : Outcome :=
  mkGateOutcome (refusal_answer pkt (Some q) rcode) [] evs.

(** From the upstream's answer to the client's. *)
Definition relay (env : Env) (t : Transport) (refusal : Refusal) (o : OutboundPolicy)
    (pkt : buffer) (q : DnsQuery) (eval : EvalOutcome) (resp : buffer) : Outcome :=
  let denied decision rule rcode detail :=
    EvDenied (eo_canonical eval) (Some (qtype q)) decision rule rcode detail in
  let p := parse_response resp (eo_canonical eval) in
  if negb (pr_decoded p) then
    refuse pkt q RCODE_SERVFAIL [denied "undecodable-response" None "servfail" None]
  else if pr_chain_truncated p then
    refuse pkt q RCODE_SERVFAIL [denied "chain-truncated" None "servfail" None]
  else match judge_answer o p with
  | Some (decision, rule, detail) =>
      refuse pkt q (Refusal_rcode refusal)
        [denied decision rule (Refusal_as_str refusal) (Some detail)]
  | None =>
      if negb (env_available_after env) then refuse pkt q RCODE_SERVFAIL []
      else
        let staged := OBegin :: mint_ops env o eval p in
        let resolved := [EvResolved (eo_canonical eval) (qtype q) "ok"] in
        if negb (env_commit env) then
          mkGateOutcome (refusal_answer pkt (Some q) RCODE_SERVFAIL)
            (staged ++ [ODrop (env_token env)]) resolved
        else mkGateOutcome (Some (sized_answer t pkt q resp))
               (staged ++ [OCommit (env_token env)]) resolved
  end.

Definition forward_result (e : ForwardError) : string :=
  match e with
  | FwTimeout => "upstream-timeout"
  | FwIo => "upstream-io-error"
  | FwMismatch => "upstream-mismatch"
  end.

Definition process_query (env : Env) (t : Transport) (refusal : Refusal) (o : OutboundPolicy)
    (pkt : buffer) : Outcome :=
  match parse_query pkt with
  | Err e =>
      match reject e with
      | RejDrop => mkGateOutcome None [] []
      | RejFormErr =>
          mkGateOutcome (refusal_answer pkt None RCODE_FORMERR) []
            [EvDenied (default "-" (err_qname e)) (err_qtype e) "protocol-error" None "formerr" None]
      | RejNotImp =>
          mkGateOutcome (refusal_answer pkt None RCODE_NOTIMP) []
            [EvDenied (default "-" (err_qname e)) (err_qtype e) "protocol-error" None "notimp" None]
      end
  | Ok q =>
      if negb (qclass q =? 1) then
        refuse pkt q (Refusal_rcode refusal)
          [EvDenied (qname q) (Some (qtype q)) "unsupported-class" None (Refusal_as_str refusal) None]
      else
        let eval := evaluate_name o (qname q) in
        match eo_verdict eval with
        | NameDeny reason =>
            refuse pkt q (Refusal_rcode refusal)
              [EvDenied (eo_canonical eval) (Some (qtype q)) (deny_decision reason)
                 (deny_rule reason) (Refusal_as_str refusal) None]
        | NameAllow =>
            if negb (env_available env) then refuse pkt q RCODE_SERVFAIL []
            else match build_forward_query pkt q (eo_canonical eval) with
            | None =>
                refuse pkt q RCODE_SERVFAIL
                  [EvResolved (eo_canonical eval) (qtype q) "encode-error"]
            | Some _ =>
                let exchange :=
                  match t with
                  | TransportUdp => forward_udp (q_id q) (eo_canonical eval) (qtype q) (qclass q)
                                      (env_udp env) (env_tcp env)
                  | TransportTcp => forward_tcp (q_id q) (eo_canonical eval) (qtype q) (qclass q)
                                      (env_tcp env)
                  end in
                match exchange with
                | Err e =>
                    refuse pkt q RCODE_SERVFAIL
                      [EvResolved (eo_canonical eval) (qtype q) (forward_result e)]
                | Ok resp => relay env t refusal o pkt q eval resp
                end
            end
        end
  end.

(** [QueryCore::answer]: a saturated gate refuses without judging. *)
Definition gate_answer (permit : bool) (env : Env) (t : Transport) (refusal : Refusal)
    (o : OutboundPolicy) (pkt : buffer) : Outcome :=
  if permit then process_query env t refusal o pkt
  else mkGateOutcome
         (refusal_answer pkt (match parse_query pkt with Ok q => Some q | Err _ => None end)
            RCODE_REFUSED) [] [].
End pipeline.

(** ** The upstream exchange *)

Lemma udp_exchange_matches id n ty cls reads b :
  udp_exchange id n ty cls reads = Ok b → response_matches b id n ty cls = true.
Proof.
  induction reads as [|[b'| |] reads IH]; cbn [udp_exchange]; try done.
  destruct (response_matches b' id n ty cls) eqn:E; [by intros [= <-]|done].
Qed.

Lemma tcp_exchange_matches id n ty cls read b :
  tcp_exchange id n ty cls read = Ok b → response_matches b id n ty cls = true.
Proof.
  destruct read as [b'| |]; cbn [tcp_exchange]; try done.
  destruct (response_matches b' id n ty cls) eqn:E; [by intros [= <-]|done].
Qed.

Lemma forward_udp_matches id n ty cls udp tcp b :
  forward_udp id n ty cls udp tcp = Ok b → response_matches b id n ty cls = true.
Proof.
  unfold forward_udp. destruct (udp_exchange _ _ _ _ _) as [r|] eqn:E; [|done].
  destruct (response_truncated r); [apply tcp_exchange_matches|].
  intros [= <-]. by apply udp_exchange_matches in E.
Qed.

(** ** Address denies *)

Lemma spellings_of_spec addr x :
  x ∈ spellings_of addr ↔ x = addr ∨ x = socket_endpoint addr ∨ x = dialed_endpoint addr.
Proof.
  unfold spellings_of. cbn [foldl].
  repeat case_bool_decide; rewrite ?elem_of_app, ?list_elem_of_singleton in *; naive_solver.
Qed.

Lemma denied_spelling_None o xs : denied_spelling o xs = None →
  ∀ x, x ∈ xs → "*" ∉ denied_hosts o ∧ ¬ policy_denies o x.
Proof.
  induction xs as [|y xs IH]; [set_solver|]. cbn [denied_spelling].
  case_bool_decide as Hs; [done|].
  destruct (List.find _ (denied_hosts o)) eqn:E1; [done|].
  destruct (List.find _ (denied_cidrs o)) eqn:E2; [done|].
  intros H x [->|Hx]%elem_of_cons; [|by apply IH]. split; [done|].
  intros [(h & Hh & Hp)|(c & Hc & Hp)].
  - apply list_elem_of_In in Hh. apply (List.find_none _ _ E1) in Hh.
    by rewrite bool_decide_eq_false in Hh.
  - apply list_elem_of_In in Hc. apply (List.find_none _ _ E2) in Hc. congruence.
Qed.

(** No deny rule names the address, under any spelling of it. *)
Definition addr_clear (o : OutboundPolicy) (a : IpAddr) : Prop :=
  "*" ∉ denied_hosts o ∧ ¬ policy_denies o a ∧ ¬ policy_denies o (socket_endpoint a) ∧
  ¬ policy_denies o (dialed_endpoint a).

Lemma denied_addr_None o a : denied_addr o a = None → addr_clear o a.
Proof.
  intros H. pose proof (denied_spelling_None o _ H) as Hs. setoid_rewrite spellings_of_spec in Hs.
  destruct (Hs a), (Hs (socket_endpoint a)), (Hs (dialed_endpoint a)); auto. by split_and!.
Qed.

Lemma denied_address_None o label addrs :
  denied_address o label addrs = None → ∀ a, a ∈ addrs → addr_clear o a.
Proof.
  induction addrs as [|b addrs IH]; [set_solver|]. cbn [denied_address].
  destruct (denied_addr o b) as [[]|] eqn:E; [done|].
  intros H a [->|Ha]%elem_of_cons; [by apply denied_addr_None|by apply IH].
Qed.

Section gate.
Context (domain_to_ascii : string → option string).
Notation evaluate_name := (evaluate_name domain_to_ascii).
Notation canonical_name := (canonical_name domain_to_ascii).
Notation parse_response := (parse_response domain_to_ascii).
Notation process_query := (process_query domain_to_ascii).
Notation rule_covers_name := (rule_covers_name domain_to_ascii).

(** ** Names of the answer *)

Lemma denied_member_None o chain : denied_member domain_to_ascii o chain = None →
  ∀ n, n ∈ chain → eo_verdict (evaluate_name o n) = NameAllow.
Proof.
  induction chain as [|m chain IH]; [set_solver|]. cbn [denied_member].
  destruct (eo_verdict _) eqn:E; [|done]. intros H n [->|Hn]%elem_of_cons; [done|by apply IH].
Qed.

(** A verdict that is not an explicit deny: no deny rule names the name. *)
Lemma not_explicit o n r : eo_verdict (evaluate_name o n) = NameDeny r → deny_rule r = None →
  ¬ name_denied domain_to_ascii o (canonical_name n).
Proof.
  unfold IpEval.evaluate_name. destruct (List.find _ (denied_hosts o)) eqn:E1; [by intros [= <-]|].
  destruct (_ ≫= _) eqn:E2; [by intros [= <-]|]. intros _ _. by apply find_denied_None.
Qed.

Lemma denied_section_name_None o names : denied_section_name domain_to_ascii o names = None →
  ∀ n, n ∈ names → ¬ name_denied domain_to_ascii o (canonical_name n).
Proof.
  induction names as [|m names IH]; [set_solver|]. cbn [denied_section_name].
  destruct (eo_verdict (evaluate_name o m)) as [|r] eqn:E.
  - intros H n [->|Hn]%elem_of_cons; [|by apply IH].
    by destruct (proj1 (proj1 (proj2 (name_verdict_facts domain_to_ascii o m))) E).
  - case_bool_decide as Hr; [done|]. intros H n [->|Hn]%elem_of_cons; [|by apply IH].
    eapply not_explicit; [done|]. destruct (deny_rule r); [|done]. destruct Hr. eauto.
Qed.

(** What a clean judgment of an answer means. *)
Definition answer_clear (o : OutboundPolicy) (p : ParsedResponse) : Prop :=
  (∀ n, n ∈ pr_chain p → eo_verdict (evaluate_name o n) = NameAllow) ∧
  (∀ n, n ∈ pr_extra_names p → ¬ name_denied domain_to_ascii o (canonical_name n)) ∧
  (∀ a, a ∈ (pr_addrs p).*1 ∨ a ∈ pr_extra_addrs p → addr_clear o a).

Lemma judge_answer_None o p : judge_answer domain_to_ascii o p = None → answer_clear o p.
Proof.
  unfold judge_answer, or_else.
  destruct (denied_member _ _ _) eqn:E1; [done|]. destruct (denied_address _ _ (pr_addrs p).*1) eqn:E2; [done|].
  destruct (denied_section_name _ _ _) eqn:E3; [done|]. intros E4. split_and!.
  - by apply denied_member_None.
  - by apply denied_section_name_None.
  - intros a [Ha|Ha]; [by apply (denied_address_None _ _ _ E2)|by apply (denied_address_None _ _ _ E4)].
Qed.

(** ** The pipeline *)

(** One query: its environment, transport and packet. *)
Record Query := mkGateQuery { gq_env : Env; gq_transport : Transport; gq_pkt : buffer }.

Definition run_query (refusal : Refusal) (o : OutboundPolicy) (r : Query) : Outcome :=
  process_query (gq_env r) (gq_transport r) refusal o (gq_pkt r).

(** The query was permitted, its answer matched, was read completely, and
    nothing it reveals is denied; the audit sink was available throughout. *)
Definition resolved (o : OutboundPolicy) (r : Query) (q : DnsQuery) (resp : buffer) : Prop :=
  let canonical := canonical_name (qname q) in
  parse_query (gq_pkt r) = Ok q ∧ qclass q = 1 ∧
  eo_verdict (evaluate_name o (qname q)) = NameAllow ∧
  response_matches resp (q_id q) canonical (qtype q) (qclass q) = true ∧
  pr_decoded (parse_response resp canonical) = true ∧
  pr_chain_truncated (parse_response resp canonical) = false ∧
  answer_clear o (parse_response resp canonical) ∧
  env_available (gq_env r) = true ∧ env_available_after (gq_env r) = true.

Lemma eo_canonical_name o n : eo_canonical (evaluate_name o n) = canonical_name n.
Proof. apply name_verdict_facts. Qed.

(** Every path of the pipeline: a refusal that leaves the table alone, a
    resolution whose record did not commit, or one whose record did. *)
Lemma run_query_cases refusal o r :
  (go_ops (run_query refusal o r) = [] ∧
   (go_answer (run_query refusal o r) = None ∨
    ∃ q rcode, go_answer (run_query refusal o r) = refusal_answer (gq_pkt r) q rcode)) ∨
  (∃ q resp, resolved o r q resp ∧
     let ops := OBegin :: mint_ops (gq_env r) o (evaluate_name o (qname q))
                            (parse_response resp (canonical_name (qname q))) in
     (env_commit (gq_env r) = false ∧ go_ops (run_query refusal o r) = ops ++ [ODrop (env_token (gq_env r))] ∧
      go_answer (run_query refusal o r) = refusal_answer (gq_pkt r) (Some q) RCODE_SERVFAIL) ∨
     (env_commit (gq_env r) = true ∧ go_ops (run_query refusal o r) = ops ++ [OCommit (env_token (gq_env r))] ∧
      go_answer (run_query refusal o r) = Some (sized_answer (gq_transport r) (gq_pkt r) q resp))).
Proof.
  destruct r as [env t pkt]. unfold run_query, DnsGate.process_query. cbn [gq_env gq_transport gq_pkt].
  destruct (parse_query pkt) as [q|e] eqn:Eq; [|left; destruct (reject e); simpl; eauto].
  destruct (Z.eqb_spec (qclass q) 1) as [Hc|]; cbn [negb]; [|left; simpl; eauto].
  cbv zeta. destruct (eo_verdict (evaluate_name o (qname q))) eqn:Ev; [|left; simpl; eauto].
  destruct (env_available env) eqn:Ea; cbn [negb]; [|left; simpl; eauto].
  destruct (build_forward_query _ _ _); [|left; simpl; eauto].
  destruct (match t with TransportUdp => _ | TransportTcp => _ end) as [resp|e] eqn:Ex; [|left; simpl; eauto].
  assert (response_matches resp (q_id q) (canonical_name (qname q)) (qtype q) (qclass q) = true) as Hm.
  { rewrite eo_canonical_name in Ex.
    destruct t; [by apply forward_udp_matches in Ex|by apply tcp_exchange_matches in Ex]. }
  clear Ex. unfold relay. rewrite eo_canonical_name. cbv zeta.
  destruct (pr_decoded _) eqn:Ed; cbn [negb]; [|left; simpl; eauto].
  destruct (pr_chain_truncated _) eqn:Et; [left; simpl; eauto|].
  destruct (judge_answer _ _ _) as [[[]]|] eqn:Ej; [left; simpl; eauto|].
  destruct (env_available_after env) eqn:Eaf; cbn [negb]; [|left; simpl; eauto].
  right. exists q, resp. split.
  { unfold resolved. cbn [gq_pkt gq_env]. apply judge_answer_None in Ej. by split_and!. }
  destruct (env_commit env) eqn:Ec; cbn [negb]; [by right|by left].
Qed.

(** ** Minting *)

Lemma elem_of_stage_all env canonical ttl targets : ∀ i op,
  op ∈ stage_all env canonical ttl targets i →
  ∃ j ep quals, (ep, quals) ∈ targets ∧
    op = OStage (env_token env) (env_check env j) (env_clock env j) canonical ep quals
           (env_now env j + ttl).
Proof.
  induction targets as [|[ep quals] targets IH]; intros i op; cbn [stage_all]; [set_solver|].
  intros [->|(j & ep' & qs & Hin & ->)%IH]%elem_of_cons.
  - exists i, ep, quals. set_solver.
  - exists j, ep', qs. set_solver.
Qed.

Lemma elem_of_mint_targets o quals addrs ep qs :
  (ep, qs) ∈ mint_targets o quals addrs → ∃ a, a ∈ addrs ∧ mint_quals o quals a = Some qs ∧
    (ep = socket_endpoint a ∨ ep = dialed_endpoint a).
Proof.
  unfold mint_targets. intros (a & Hin & Ha)%list_elem_of_bind. exists a. split; [done|].
  destruct (mint_quals o quals a) as [qs'|]; [|set_solver].
  apply list_elem_of_fmap in Hin as (ep' & [= -> ->] & Hep). split; [done|].
  unfold mint_endpoints in Hep. case_bool_decide; set_solver.
Qed.

(** An allow rule of the policy is behind a flow to an address that the
    answer for [name] held: one on the name, or, for protected space, one on
    the address itself; without any, the posture is open. *)
Definition flow_scoped (o : OutboundPolicy) (name : string) (a : IpAddr) (proto : EgressProto)
    (port : Z) : Prop :=
  (endpoint_is_protected (dialed_endpoint a) = false ∧
   ((∃ rule, rule ∈ egress_rules o ∧ rule_covers_name name rule = true ∧
       covers_flow rule proto port = true) ∨ deny_all_others o = false)) ∨
  (∃ rule, rule ∈ egress_rules o ∧ names_endpoint (dialed_endpoint a) rule = true ∧
     covers_flow rule proto port = true).

Lemma mint_quals_scoped o n a qs q proto port :
  eo_verdict (evaluate_name o n) = NameAllow →
  mint_quals o (eo_quals (evaluate_name o n)) a = Some qs → q ∈ qs →
  qual_covers q proto port = true → flow_scoped o (canonical_name n) a proto port.
Proof.
  intros Hv Hq Hin Hc. unfold mint_quals in Hq.
  destruct (endpoint_is_protected (dialed_endpoint a)) eqn:Ep.
  - right. unfold addr_opt_in_quals in Hq. case_bool_decide; [done|]. injection Hq as <-.
    apply elem_of_sort_dedup, list_elem_of_fmap in Hin as (rule & -> & Hin).
    apply list_elem_of_In, filter_In in Hin as [Hr Hn]. exists rule. by rewrite list_elem_of_In.
  - left. split; [done|]. injection Hq as <-.
    destruct (name_verdict_facts domain_to_ascii o n) as (_ & Hallow & Hquals & _).
    apply Hallow in Hv as Hd. destruct Hd as [_ Hd]. destruct (Hquals Hv) as (_ & Hcov & _).
    destruct Hd as [Hd|Hd]; [|by right]. left.
    destruct (proj1 (Hcov Hd q) Hin) as (rule & Hr & Hn & ->). by exists rule.
Qed.

(** ** The table after any interleaving *)

Lemma run_query_ops refusal o r op : op ∈ go_ops (run_query refusal o r) →
  ∃ q resp, resolved o r q resp ∧
    (op = OBegin ∨
     op ∈ mint_ops (gq_env r) o (evaluate_name o (qname q)) (parse_response resp (canonical_name (qname q))) ∨
     (op = ODrop (env_token (gq_env r)) ∧ env_commit (gq_env r) = false) ∨
     (op = OCommit (env_token (gq_env r)) ∧ env_commit (gq_env r) = true)).
Proof.
  destruct (run_query_cases refusal o r) as [[-> _]|(q & resp & Hr & Hops)]; [set_solver|].
  intros Hin. exists q, resp. split; [done|].
  destruct Hops as [(Hc & Ho & _)|(Hc & Ho & _)]; rewrite Ho in Hin;
    rewrite elem_of_app, elem_of_cons, list_elem_of_singleton in Hin; naive_solver.
Qed.

Lemma mint_op_inv env o eval p op : op ∈ mint_ops env o eval p →
  ∃ m j ep quals a ttl, pr_min_ttl p = Some m ∧ 0 < m ∧ (a, ttl) ∈ pr_addrs p ∧
    mint_quals o (eo_quals eval) a = Some quals ∧ (ep = socket_endpoint a ∨ ep = dialed_endpoint a) ∧
    op = OStage (env_token env) (env_check env j) (env_clock env j) (eo_canonical eval) ep quals
           (env_now env j + m).
Proof.
  unfold mint_ops. destruct (pr_min_ttl p) as [m|]; [|set_solver].
  destruct (Z.ltb_spec 0 m); [|set_solver].
  intros (j & ep & quals & Hin & ->)%elem_of_stage_all.
  apply elem_of_mint_targets in Hin as (a & Ha & Hq & Hep).
  apply list_elem_of_fmap in Ha as ([a' ttl] & -> & Ha). by exists m, j, ep, quals, a', ttl.
Qed.

(** A committed resolution stands behind a grant on [x] for the flow. *)
Definition granted_by_resolution (o : OutboundPolicy) (runs : list Query) (x : IpAddr)
    (proto : EgressProto) (port now : Z) : Prop :=
  ∃ r q resp a ttl i m, r ∈ runs ∧ resolved o r q resp ∧ env_commit (gq_env r) = true ∧
    (a, ttl) ∈ pr_addrs (parse_response resp (canonical_name (qname q))) ∧
    (x = socket_endpoint a ∨ x = dialed_endpoint a) ∧
    flow_scoped o (canonical_name (qname q)) a proto port ∧
    0 < m <= ttl ∧ now < env_now (gq_env r) i + m.

Section interleaved.
Context (refusal : Refusal) (o : OutboundPolicy) (runs : list Query) (ops : list Op).
(** Tokens are drawn from a counter ([tokens_differ]); the operations are those
    of the runs. *)
Context (Htok : ∀ r1 r2, r1 ∈ runs → r2 ∈ runs →
           env_token (gq_env r1) = env_token (gq_env r2) → r1 = r2).
Context (Hops : ∀ op, op ∈ ops → ∃ r, r ∈ runs ∧ op ∈ go_ops (run_query refusal o r)).

(** A staged grant, with the run that staged it. *)
Lemma staged_by_run tok k e op : op ∈ ops → stages tok k e op →
  ∃ r q resp a ttl j m, r ∈ runs ∧ env_token (gq_env r) = tok ∧ resolved o r q resp ∧
    pr_min_ttl (parse_response resp (canonical_name (qname q))) = Some m ∧ 0 < m ∧
    (a, ttl) ∈ pr_addrs (parse_response resp (canonical_name (qname q))) ∧
    mint_quals o (eo_quals (evaluate_name o (qname q))) a = Some (ge_quals e) ∧
    (gk_addr k = socket_endpoint a ∨ gk_addr k = dialed_endpoint a) ∧
    ge_expires e = env_now (gq_env r) j + m.
Proof.
  intros Hin (now & clock & -> & _). apply Hops in Hin as (r & Hr & Hop).
  apply run_query_ops in Hop as (q & resp & Hres & [?|[Hm|[[]|[]]]]); try done.
  apply mint_op_inv in Hm as (m & j & ep & quals & a & ttl & Hm & Hpos & Ha & Hq & Hep & [= Ht _ _ _ Hk Hqs He]).
  exists r, q, resp, a, ttl, j, m. rewrite Hk, Hqs. by split_and!.
Qed.

Lemma minted_by_resolution k e q proto port now :
  minted ops k e → now < ge_expires e → q ∈ ge_quals e → qual_covers q proto port = true →
  granted_by_resolution o runs (gk_addr k) proto port now.
Proof.
  intros (before & op & after & Heq & Hop & _) Hnow Hq Hc.
  assert (op ∈ ops) as Hin by (rewrite Heq; set_solver).
  destruct Hop as [(n & c & -> & _)|(tok & -> & b & op' & a' & Hb & Hst & _)].
  { apply Hops in Hin as (r & _ & Hop). apply run_query_ops in Hop as (q' & resp & _ & [?|[Hm|[[]|[]]]]);
      try done. apply mint_op_inv in Hm as (? & ? & ? & ? & ? & ? & _ & _ & _ & _ & _ & ?). done. }
  assert (op' ∈ ops) as Hin' by (rewrite Heq, Hb; set_solver).
  destruct (staged_by_run _ _ _ _ Hin' Hst) as
    (r & q' & resp & a & ttl & j & m & Hr & Ht & Hres & Hm & Hpos & Ha & Hqs & Hep & Hexp).
  apply Hops in Hin as (r2 & Hr2 & Hop2).
  apply run_query_ops in Hop2 as (q2 & resp2 & _ & [?|[Hmint|[[]|[Ht2 Hcom]]]]); try done.
  { by apply mint_op_inv in Hmint as (? & ? & ? & ? & ? & ? & _ & _ & _ & _ & _ & ?). }
  injection Ht2 as Ht2. assert (r = r2) as <- by (apply Htok; congruence).
  pose proof Hres as (_ & _ & Hv & _ & Hd & _).
  destruct (addrs_lifetime domain_to_ascii _ _ _ _ Hd Ha) as (t & Hmt & Hle).
  exists r, q', resp, a, ttl, j, m. split_and!; try done.
  - eapply mint_quals_scoped; done.
  - simplify_eq. lia.
  - lia.
Qed.
End interleaved.

(** [C5] From the flow back to the policy: under default-deny, with the grant
    table produced by any interleaving of any queries through the DNS gate, a
    flow the IP layer allows matches no deny rule, and either an allow rule of
    the policy covers its endpoint at the IP layer, or the endpoint is outside
    protected space and comes from the answer to one query: a name the policy
    permits, an answer that matched the forwarded question, was read to its
    end and revealed nothing denied, a resolution record that committed, a
    rule covering that name (or naming that address) with this protocol and
    port, and a lifetime no longer than the answer's. *)
Theorem admitted_flow_traces_to_policy refusal o runs ops ctx af al t cap now dest proto port :
  (∀ r1 r2, r1 ∈ runs → r2 ∈ runs → env_token (gq_env r1) = env_token (gq_env r2) → r1 = r2) →
  (∀ op, op ∈ ops → ∃ r, r ∈ runs ∧ op ∈ go_ops (run_query refusal o r)) →
  wf_ip dest → deny_all_others o = true →
  is_allow (verdict (build o ctx) af al (run ops (new cap)) t now dest proto port) = true →
  let x := judged_endpoint (build o ctx) dest in
  af = false ∧ "*" ∉ denied_hosts o ∧ ¬ policy_denies o dest ∧ ¬ policy_denies o x ∧
  ((∃ rule, rule ∈ egress_rules o ∧ policy_rule_covers rule x proto port) ∨
   (¬ protected_space x ∧ granted_by_resolution o runs x proto port now)).
Proof.
  intros Htok Hops Hwf Hpost Hv.
  destruct (allowed_flow_facts o ctx af al t cap ops now dest proto port Hwf Hpost Hv)
    as (H1 & H2 & H3 & H4 & [(rule & Hr & Hc & _)|(Hp & k & e & q & Hk & Hm & He & Hq & Hqc)]).
  - split_and!; [done..|]. left. eauto.
  - split_and!; [done..|]. right. split; [done|]. rewrite <-Hk.
    by apply (minted_by_resolution refusal o runs ops Htok Hops k e q).
Qed.

(** [C6] Only judged answers are relayed: whatever the client sends and the
    upstream returns, the gate answers with a refusal of its own, or the query
    was permitted and its answer matched, was decoded completely and is clear
    as far as it is judged, with a committed record. Judged are every name of
    the alias chain that starts at the query name (each permitted), the
    addresses at its end and the names and addresses of the other sections
    (none denied); records of the answer section that are not on the chain are
    relayed with the answer without being judged
    ([orphan_answer_record_is_relayed]). The client receives that answer
    unchanged or, over UDP when it exceeds the client's payload size, a
    truncation hint. Grants are committed in that case only. *)
Theorem relayed_answer_is_judged refusal o r out :
  go_answer (run_query refusal o r) = Some out →
  ((∃ q rcode, refusal_answer (gq_pkt r) q rcode = Some out) ∧
   ∀ tok, OCommit tok ∉ go_ops (run_query refusal o r)) ∨
  (∃ q resp, resolved o r q resp ∧ env_commit (gq_env r) = true ∧
     (out = resp ∨
      gq_transport r = TransportUdp ∧ out = truncated_answer (gq_pkt r) q ∧
        Z.max (default 512 (edns_udp_size q)) 512 < Z.of_nat (length resp))).
Proof.
  assert (∀ env eval p tok, OCommit tok ∉ mint_ops env o eval p) as Hmint.
  { intros env eval p tok Hin. by apply mint_op_inv in Hin as (? & ? & ? & ? & ? & ? & _ & _ & _ & _ & _ & ?). }
  destruct (run_query_cases refusal o r) as [[Ho [Ha|(q & rc & Ha)]]|(q & resp & Hr & [(Hc & Ho & Ha)|(Hc & Ho & Ha)])];
    rewrite Ha; [done|..].
  - intros H. left. split; [eauto|]. rewrite Ho. set_solver.
  - intros H. left. split; [eauto|]. rewrite Ho. intros tok.
    rewrite elem_of_app, elem_of_cons, list_elem_of_singleton. naive_solver.
  - intros [= <-]. right. exists q, resp. split_and!; [done..|]. unfold sized_answer.
    destruct (gq_transport r); [|by left].
    destruct (Z.ltb_spec (Z.max (default 512 (edns_udp_size q)) 512) (Z.of_nat (length resp)));
      [right|left]; done.
Qed.
End gate.

(** ** Witnesses *)

Definition example_policy : OutboundPolicy :=
  mkOutbound ["example.com"] [] [] [] ["evil.test"; "9.9.9.9"] [] true [].

Definition example_env (answer : buffer) : Env :=
  mkEnv true [NrBytes answer] NrTimeout true 1 (λ _, 0) (λ _, 0) (λ _ _, 0) true.

Definition example_run (answer : buffer) : Query :=
  mkGateQuery (example_env answer) TransportUdp example_query.

Lemma relayed_answer_is_judged_witness :
  ((∃ q rcode, refusal_answer example_query q rcode = Some example_answer) ∧
   ∀ tok, OCommit tok ∉ go_ops (run_query no_idna RefRefused example_policy (example_run example_answer))) ∨
  (∃ q resp, resolved no_idna example_policy (example_run example_answer) q resp ∧ true = true ∧
     (example_answer = resp ∨
      TransportUdp = TransportUdp ∧ example_answer = truncated_answer example_query q ∧
        Z.max (default 512 (edns_udp_size q)) 512 < Z.of_nat (length resp))).
Proof.
  apply (relayed_answer_is_judged no_idna RefRefused example_policy (example_run example_answer)
           example_answer).
  vm_compute. reflexivity.
Defined.

Definition example_host : IpAddr := V4 1572395042.

Lemma admitted_flow_traces_to_policy_witness :
  granted_by_resolution no_idna example_policy [example_run example_answer] example_host Tcp 443 5.
Proof.
  destruct (admitted_flow_traces_to_policy no_idna RefRefused example_policy [example_run example_answer]
    (go_ops (run_query no_idna RefRefused example_policy (example_run example_answer)))
    ConnectProxy false (new 4) 5 4 5 example_host Tcp 443) as (_ & _ & _ & _ & [(rule & Hin & (_ & _ & Hd))|[_ H]]).
  - intros r1 r2 H1 H2 _. apply list_elem_of_singleton in H1, H2. congruence.
  - intros op Hop. exists (example_run example_answer). split; [apply list_elem_of_singleton; reflexivity|exact Hop].
  - unfold example_host. simpl. lia.
  - reflexivity.
  - vm_compute. reflexivity.
  - exfalso. change (egress_rules example_policy) with
      [mkEgress true (Host "example.com") Tcp None; mkEgress false (Host "evil.test") AnyProto None;
       mkEgress false (Host "9.9.9.9") AnyProto None] in Hin.
    elem_cases Hin; vm_compute in Hd; destruct Hd as [Hd|Hd] || idtac; discriminate.
  - exact H.
Defined.

(** ** Records nobody asked for *)

(** The answer to the same question, holding [evil.test A 9.9.9.9] only. *)
Definition orphan_answer : buffer :=
  of_byte <$> [0x12; 0x34; 0x81; 0x80; 0; 1; 0; 1; 0; 0; 0; 0;
               7; 101; 120; 97; 109; 112; 108; 101; 3; 99; 111; 109; 0; 0; 1; 0; 1;
               4; 101; 118; 105; 108; 4; 116; 101; 115; 116; 0; 0; 1; 0; 1; 0; 0; 0; 60; 0; 4; 9; 9; 9; 9].

(** An answer-section record that no alias leads to is relayed unjudged:
    the name and the address it carries are both denied by the policy, the
    walk reports neither, and the client receives the bytes - while the same
    record in the additional section is refused. *)
Lemma orphan_answer_record_is_relayed :
  parse_response no_idna orphan_answer "example.com" = mkParsed 0 [] false [] None [] [] true ∧
  eo_verdict (evaluate_name no_idna example_policy "evil.test") = NameDeny (NdHost "evil.test") ∧
  denied_addr example_policy (V4 151587081) = Some ("deny-host", "9.9.9.9") ∧
  go_answer (run_query no_idna RefRefused example_policy (example_run orphan_answer))
    = Some orphan_answer ∧
  go_answer (run_query no_idna RefRefused example_policy
    (example_run (take 6 orphan_answer ++ (of_byte <$> [0; 0; 0; 0; 0; 1]) ++ drop 12 orphan_answer)))
    = refusal_answer example_query (Some example_parsed) RCODE_REFUSED.
Proof. split_and!; vm_compute; reflexivity. Qed.
