(* ===== verification/Percent.v ===== *)
(** * Percent: percent-decoding, lossy UTF-8 and substring search

    One round of [%XX] decoding is written twice in the program, with the same
    text: [src/src/auditor/session.rs] ([percent_decode_once], [hex_val]) for
    the traversal check of the session, and [src/src/pathutil.rs] for the
    normalisation of filesystem arguments.  A round works on bytes and ends
    with [String::from_utf8_lossy], modelled here by the replacement of each
    maximal ill-formed prefix.  The lemmas say that neither step can hide an
    ASCII substring that is spelled, wholly or partly, in escapes. *)

From S2P Require Import Prelude Text.

Open Scope Z_scope.

(** ** Substrings *)

(** [str::contains] for a string pattern. *)
Fixpoint contains_str (p s : string) : bool :=
  starts_with p s || match s with
                     | EmptyString => false
                     | String _ s' => contains_str p s'
                     end.

(** ** [String::from_utf8_lossy] *)

(** U+FFFD. *)
Definition REPLACEMENT : string := bytes [239; 191; 189]%nat.

(** The second byte of a three- and of a four-byte sequence (table 3-7). *)
Definition second3 (b b1 : ascii) : bool :=
  if Ascii.eqb b (ascii_of_nat 224) then in_range 160 191 b1
  else if Ascii.eqb b (ascii_of_nat 237) then in_range 128 159 b1
  else cont b1.
Definition second4 (b b1 : ascii) : bool :=
  if Ascii.eqb b (ascii_of_nat 240) then in_range 144 191 b1
  else if Ascii.eqb b (ascii_of_nat 244) then in_range 128 143 b1
  else cont b1.

(** The sequence that starts with [b]: a well-formed one is kept; the longest
    prefix of one that stops being well-formed becomes one replacement
    character.  With it, the bytes after the sequence. *)
Definition lossy_chunk (b : ascii) (s0 : string) : string * string :=
  if is_ascii_char b then (String b "", s0)
  else if in_range 194 223 b then
    match s0 with
    | String b1 s1 => if cont b1 then (String b (String b1 ""), s1) else (REPLACEMENT, s0)
    | EmptyString => (REPLACEMENT, s0)
    end
  else if in_range 224 239 b then
    match s0 with
    | String b1 s1 =>
        if second3 b b1 then
          match s1 with
          | String b2 s2 =>
              if cont b2 then (String b (String b1 (String b2 "")), s2) else (REPLACEMENT, s1)
          | EmptyString => (REPLACEMENT, s1)
          end
        else (REPLACEMENT, s0)
    | EmptyString => (REPLACEMENT, s0)
    end
  else if in_range 240 244 b then
    match s0 with
    | String b1 s1 =>
        if second4 b b1 then
          match s1 with
          | String b2 s2 =>
              if cont b2 then
                match s2 with
                | String b3 s3 =>
                    if cont b3 then (String b (String b1 (String b2 (String b3 ""))), s3)
                    else (REPLACEMENT, s2)
                | EmptyString => (REPLACEMENT, s2)
                end
              else (REPLACEMENT, s1)
          | EmptyString => (REPLACEMENT, s1)
          end
        else (REPLACEMENT, s0)
    | EmptyString => (REPLACEMENT, s0)
    end
  else (REPLACEMENT, s0).

(** The fuel is the number of bytes left to read. *)
Fixpoint lossy_loop (fuel : nat) (s : string) : string :=
  match fuel, s with
  | S fuel', String b s0 =>
      let '(out, rest) := lossy_chunk b s0 in out +:+ lossy_loop fuel' rest
  | _, _ => EmptyString
  end.

Definition from_utf8_lossy (s : string) : string := lossy_loop (String.length s) s.

(** ** One round of percent-decoding *)

Definition hex_val (b : ascii) : option Z :=
  if in_range 48 57 b then Some (code b - 48)
  else if in_range 97 102 b then Some (code b - 97 + 10)
  else if in_range 65 70 b then Some (code b - 65 + 10)
  else None.

(** The byte two hexadecimal digits spell, [hi << 4 | lo]. *)
Definition hex_byte (hi lo : Z) : ascii :=
  ascii_of_nat (Z.to_nat (Z.lor (Z.shiftl hi 4) lo)).

(** A [%] followed by two hexadecimal digits, and the rest. *)
Definition escape (s : string) : option (ascii * string) :=
  match s with
  | String c (String h (String l s')) =>
      if Ascii.eqb c "%" then
        match hex_val h, hex_val l with
        | Some hi, Some lo => Some (hex_byte hi lo, s')
        | _, _ => None
        end
      else None
  | _ => None
  end.

(** The decoding loop; the fuel is the number of bytes left to read. *)
Fixpoint percent_loop (fuel : nat) (s : string) : string :=
  match fuel, s with
  | S fuel', String c s' =>
      match escape s with
      | Some (b, rest) => String b (percent_loop fuel' rest)
      | None => String c (percent_loop fuel' s')
      end
  | _, _ => EmptyString
  end.

Definition decode_bytes (s : string) : string := percent_loop (String.length s) s.

Definition percent_decode_once (input : string) : string := from_utf8_lossy (decode_bytes input).

(** ** Properties of the search *)

Lemma starts_with_iff p s : starts_with p s = true ↔ ∃ r, s = p +:+ r.
Proof.
  unfold starts_with. rewrite bool_decide_eq_true.
  split; intros [r Hr]; exists r; by apply strip_prefix_app.
Qed.

Lemma contains_str_spec p : ∀ s, contains_str p s = true ↔ ∃ a b, s = a +:+ p +:+ b.
Proof.
  split.
  - induction s as [|c s IH]; cbn; rewrite orb_true_iff.
    + intros [[r Hr]%starts_with_iff|[=]]. by exists "", r.
    + intros [[r Hr]%starts_with_iff|(a & b & ->)%IH]; [by exists "", r|by exists (String c a), b].
  - intros (a & b & ->). induction a as [|c a IH].
    + destruct (p +:+ b) eqn:E; cbn -[starts_with]; apply orb_true_iff; left;
        apply starts_with_iff; eauto.
    + rewrite app_cons_string. cbn -[starts_with]. rewrite IH. apply orb_true_r.
Qed.

Lemma contains_str_app p a s b : contains_str p s = true → contains_str p (a +:+ s +:+ b) = true.
Proof.
  rewrite !contains_str_spec. intros (a' & b' & ->). exists (a +:+ a'), (b' +:+ b).
  by rewrite !app_assoc_string.
Qed.

(** ** Lossy decoding keeps ASCII text *)

(** No sequence of two or more bytes begins with an ASCII one. *)
Lemma ascii_not_cont b lo hi : is_ascii_char b = true → 128 ≤ lo → in_range lo hi b = false.
Proof.
  unfold is_ascii_char, in_range. intros Hb Hlo. apply Z.ltb_lt in Hb.
  apply andb_false_iff. left. apply Z.leb_gt. lia.
Qed.

Lemma ascii_cont b : is_ascii_char b = true → cont b = false.
Proof. intros H. by apply ascii_not_cont. Qed.

Lemma ascii_not_second3 b b1 : is_ascii_char b1 = true → second3 b b1 = false.
Proof. intros H. unfold second3, cont. repeat case_match; by apply ascii_not_cont. Qed.

Lemma ascii_not_second4 b b1 : is_ascii_char b1 = true → second4 b b1 = false.
Proof. intros H. unfold second4, cont. repeat case_match; by apply ascii_not_cont. Qed.

#[local] Opaque is_ascii_char in_range cont second3 second4 REPLACEMENT.

Lemma lossy_chunk_shrinks b s : (String.length (lossy_chunk b s).2 ≤ String.length s)%nat.
Proof. unfold lossy_chunk. repeat case_match; simpl; lia. Qed.

Lemma lossy_chunk_app b a c s : is_ascii_char c = true →
  lossy_chunk b (a +:+ String c s)
  = ((lossy_chunk b a).1, (lossy_chunk b a).2 +:+ String c s).
Proof.
  intros Hc. pose proof (ascii_cont c Hc) as Hcont.
  unfold lossy_chunk. destruct a as [|b1 [|b2 [|b3 a]]]; rewrite ?app_cons_string, ?app_empty_string;
    cbn; rewrite ?Hcont, ?ascii_not_second3, ?ascii_not_second4 by done;
    repeat case_match; simplify_eq; try congruence; done.
Qed.

Lemma lossy_loop_fuel s : ∀ n m, (String.length s ≤ n)%nat → (String.length s ≤ m)%nat →
  lossy_loop n s = lossy_loop m s.
Proof.
  intros n. revert s. induction n as [|n IH]; intros s m Hn Hm.
  - destruct s; [by destruct m|simpl in Hn; lia].
  - destruct s as [|b s]; [by destruct m|]. destruct m as [|m]; [simpl in Hm; lia|].
    cbn [lossy_loop]. pose proof (lossy_chunk_shrinks b s) as Hs.
    destruct (lossy_chunk b s) as [out rest]. simpl in *. f_equal. apply IH; lia.
Qed.

Lemma from_utf8_lossy_cons b s :
  from_utf8_lossy (String b s) = (lossy_chunk b s).1 +:+ from_utf8_lossy (lossy_chunk b s).2.
Proof.
  unfold from_utf8_lossy at 1. cbn [lossy_loop String.length].
  pose proof (lossy_chunk_shrinks b s) as Hs. destruct (lossy_chunk b s) as [out rest]. simpl in *.
  f_equal. by apply lossy_loop_fuel.
Qed.

(** Lossy decoding splits before an ASCII character. *)
Lemma from_utf8_lossy_app a c s : is_ascii_char c = true →
  from_utf8_lossy (a +:+ String c s) = from_utf8_lossy a +:+ from_utf8_lossy (String c s).
Proof.
  intros Hc. remember (String.length a) as n eqn:Hn. revert a Hn.
  induction n as [n IH] using lt_wf_ind. intros a ->. destruct a as [|b a]; [done|].
  rewrite app_cons_string, !(from_utf8_lossy_cons b), lossy_chunk_app by done. simpl.
  rewrite (IH (String.length (lossy_chunk b a).2)), app_assoc_string; [done| |done].
  pose proof (lossy_chunk_shrinks b a). simpl. lia.
Qed.

Lemma from_utf8_lossy_ascii t s : is_ascii t = true →
  from_utf8_lossy (t +:+ s) = t +:+ from_utf8_lossy s.
Proof.
  induction t as [|c t IH]; [done|]. cbn [is_ascii str_all].
  intros [Hc Ht]%andb_true_iff. rewrite app_cons_string, from_utf8_lossy_cons.
  assert (lossy_chunk c (t +:+ s) = (String c "", t +:+ s)) as -> by (unfold lossy_chunk; by rewrite Hc).
  simpl. by rewrite IH.
Qed.

(** ASCII text inside the bytes is still there after lossy decoding. *)
Lemma lossy_keeps_ascii p s : is_ascii p = true → contains_str p s = true →
  contains_str p (from_utf8_lossy s) = true.
Proof.
  intros Hp (a & b & ->)%contains_str_spec. apply contains_str_spec.
  destruct p as [|c p]; [by exists "", (from_utf8_lossy (a +:+ "" +:+ b))|].
  assert (Hc : is_ascii_char c = true) by (by apply andb_true_iff in Hp as [? _]).
  exists (from_utf8_lossy a), (from_utf8_lossy b).
  rewrite app_cons_string, from_utf8_lossy_app, <- app_cons_string by done.
  by rewrite from_utf8_lossy_ascii.
Qed.

(** ** Decoding distributes over text that does not begin with a digit *)

Definition no_hex_head (s : string) : Prop :=
  match s with
  | EmptyString => True
  | String c _ => hex_val c = None
  end.

Lemma escape_shrinks s b r : escape s = Some (b, r) → (String.length r < String.length s)%nat.
Proof. unfold escape. intros H. split_match_in H. simpl. lia. Qed.

Lemma percent_loop_fuel s : ∀ n m, (String.length s ≤ n)%nat → (String.length s ≤ m)%nat →
  percent_loop n s = percent_loop m s.
Proof.
  intros n. revert s. induction n as [|n IH]; intros s m Hn Hm.
  - destruct s; [by destruct m|simpl in Hn; lia].
  - destruct s as [|c s]; [by destruct m|]. destruct m as [|m]; [simpl in Hm; lia|].
    cbn [percent_loop]. destruct (escape (String c s)) as [[b r]|] eqn:E; f_equal.
    + apply escape_shrinks in E. apply IH; simpl in *; lia.
    + apply IH; simpl in *; lia.
Qed.

Lemma decode_bytes_cons c s :
  decode_bytes (String c s)
  = match escape (String c s) with
    | Some (b, r) => String b (decode_bytes r)
    | None => String c (decode_bytes s)
    end.
Proof.
  unfold decode_bytes at 1. cbn [percent_loop String.length].
  destruct (escape (String c s)) as [[b r]|] eqn:E; [|done].
  apply escape_shrinks in E. f_equal. apply percent_loop_fuel; simpl in *; lia.
Qed.

Lemma escape_app c a s : no_hex_head s →
  escape (String c (a +:+ s))
  = match escape (String c a) with
    | Some (b, r) => Some (b, r +:+ s)
    | None => None
    end.
Proof.
  intros Hs. destruct a as [|h [|l a]]; rewrite ?app_cons_string, ?app_empty_string; cbn -[hex_val].
  - destruct s as [|x [|y s]]; [done..|]. simpl in Hs. rewrite Hs. by case_match.
  - destruct s as [|x s]; [done|]. simpl in Hs. rewrite Hs. repeat case_match; done.
  - repeat case_match; simplify_eq; done.
Qed.

Lemma decode_bytes_app a s : no_hex_head s →
  decode_bytes (a +:+ s) = decode_bytes a +:+ decode_bytes s.
Proof.
  intros Hs. remember (String.length a) as n eqn:Hn. revert a Hn.
  induction n as [n IH] using lt_wf_ind. intros a ->. destruct a as [|c a]; [done|].
  rewrite app_cons_string, !decode_bytes_cons, escape_app by done.
  destruct (escape (String c a)) as [[b r]|] eqn:E.
  - apply escape_shrinks in E. by rewrite (IH (String.length r)).
  - rewrite (IH (String.length a)); [done|simpl; lia|done].
Qed.
