(* ===== verification/Json.v ===== *)
(** * Json: parsed JSON values

    Frames are parsed by a library; the program reads the parsed tree through a
    handful of accessors.  A [Json] is such a tree: numbers, arrays and objects
    keep their source text (the accessor [as_raw_str]), a string keeps its text
    between the quotes as written ([as_string_str]) and with the escapes
    resolved ([to_unquoted_string_str]), an object its members in order, under
    unquoted names.  The parser is not modelled: every theorem is about all
    trees. *)

From S2P Require Import Prelude Text.

Inductive Json :=
  | JNull
  | JBool (b : bool)
  | JInteger (raw : string)
  | JFloat (raw : string)
  | JString (raw unquoted : string)
  | JArray (raw : string) (items : list Json)
  | JObject (raw : string) (members : list (string * Json)).

(** ** Accessors *)

Definition as_raw_str (v : Json) : string :=
  match v with
  | JNull => "null"
  | JBool true => "true"
  | JBool false => "false"
  | JInteger raw | JFloat raw | JArray raw _ | JObject raw _ => raw
  | JString raw _ => dquote +:+ raw +:+ dquote
  end.

Definition as_string_str (v : Json) : option string :=
  match v with
  | JString raw _ => Some raw
  | _ => None
  end.

Definition to_unquoted_string_str (v : Json) : option string :=
  match v with
  | JString _ s => Some s
  | _ => None
  end.

Definition as_boolean (v : Json) : option bool :=
  match v with
  | JBool b => Some b
  | _ => None
  end.

Definition as_number_str (v : Json) : option string :=
  match v with
  | JInteger raw | JFloat raw => Some raw
  | _ => None
  end.

Definition to_array (v : Json) : option (list Json) :=
  match v with
  | JArray _ items => Some items
  | _ => None
  end.

Definition to_object (v : Json) : option (list (string * Json)) :=
  match v with
  | JObject _ ms => Some ms
  | _ => None
  end.

Definition is_object (v : Json) : bool := bool_decide (is_Some (to_object v)).

(** [to_member(name).ok().and_then(optional)]: the first member of that name. *)
Definition member_of (ms : list (string * Json)) (name : string) : option Json :=
  snd <$> List.find (λ m, String.eqb m.1 name) ms.

Definition member (v : Json) (name : string) : option Json :=
  match to_object v with
  | Some ms => member_of ms name
  | None => None
  end.

(** ** Induction over the tree *)

Section json_ind.
Context (P : Json → Prop).
Context (Hnull : P JNull) (Hbool : ∀ b, P (JBool b)).
Context (Hint : ∀ r, P (JInteger r)) (Hfloat : ∀ r, P (JFloat r)) (Hstr : ∀ r s, P (JString r s)).
Context (Harr : ∀ r items, Forall P items → P (JArray r items)).
Context (Hobj : ∀ r ms, Forall (λ m, P m.2) ms → P (JObject r ms)).

Fixpoint Json_nested_ind (v : Json) : P v :=
  match v with
  | JNull => Hnull
  | JBool b => Hbool b
  | JInteger r => Hint r
  | JFloat r => Hfloat r
  | JString r s => Hstr r s
  | JArray r items =>
      Harr r items
        ((fix go (l : list Json) : Forall P l :=
            match l with
            | [] => Forall_nil_2 P
            | x :: l' => Forall_cons_2 P x l' (Json_nested_ind x) (go l')
            end) items)
  | JObject r ms =>
      Hobj r ms
        ((fix go (l : list (string * Json)) : Forall (λ m, P m.2) l :=
            match l with
            | [] => Forall_nil_2 _
            | x :: l' => Forall_cons_2 (λ m, P m.2) x l' (Json_nested_ind x.2) (go l')
            end) ms)
  end.
End json_ind.

Lemma member_inv v name w : member v name = Some w →
  ∃ raw ms, v = JObject raw ms ∧ (name, w) ∈ ms.
Proof.
  unfold member, member_of. destruct v; try done. cbn. intros H.
  destruct (List.find _ members) as [[k x]|] eqn:E; [|done]. simplify_eq/=.
  apply List.find_some in E as [Hin Hk%String.eqb_eq]. simpl in Hk. subst.
  eexists _, _. split; [done|]. by apply list_elem_of_In.
Qed.
