(* ===== verification/RpcId.v ===== *)
(** * RpcId: request ids

    [src/src/auditor/session/rpc_id.rs]: canonical ids.
    [canonicalize_json_number] is exact on the grammar of JSON numbers: two
    spellings get the same canonical text precisely when they denote the same
    decimal number. The proof computes the canonical text of a printed number
    and shows that a significand without leading and trailing zeros, with its
    exponent, is a normal form. *)

From stdpp Require Import pretty.
From S2P Require Import Prelude Text Json.

Open Scope Z_scope.

Inductive RpcId := RNull | RNumber (n : string) | RString (s : string).

#[export] Instance RpcId_eq_dec : EqDecision RpcId.
Proof. solve_decision. Defined.
#[export] Instance RpcId_countable : Countable RpcId.
Proof.
  apply (inj_countable'
    (λ i, match i with RNull => inl () | RNumber n => inr (inl n) | RString s => inr (inr s) end)
    (λ p, match p with inl _ => RNull | inr (inl n) => RNumber n | inr (inr s) => RString s end)).
  by intros [].
Defined.

Definition INTERNAL_ID_PREFIX : string := "__mcp_writ_internal__".
Definition MAX_RPC_ID_BYTES : Z := 256.

(** The length of a string in bytes, as the budgets count it. *)
Definition len (s : string) : Z := Z.of_nat (String.length s).

Definition internal_id_str (n : Z) : string := INTERNAL_ID_PREFIX +:+ pretty n.

(** ** Numbers *)

Definition I128_MAX : Z := 2 ^ 127 - 1.
Definition I128_MIN : Z := - 2 ^ 127.

(** [str::parse::<i128>]. *)
Definition parse_i128 (s : string) : option Z :=
  match strip_prefix "-" s with
  | Some rest => if is_empty rest then None else Z.opp <$> digits_value 10 (- I128_MIN) 0 rest
  | None => from_str_radix 10 I128_MAX s
  end.

(** [i128::checked_sub] and [checked_add]. *)
Definition checked_i128 (z : Z) : option Z :=
  if (I128_MIN <=? z) && (z <=? I128_MAX) then Some z else None.

(** [str::find] with a set of characters, and the two sides of the match. *)
Fixpoint split_at_any (p : ascii → bool) (s : string) : option (string * string) :=
  match s with
  | EmptyString => None
  | String c s' =>
      if p c then Some (EmptyString, s')
      else match split_at_any p s' with
           | Some (a, b) => Some (String c a, b)
           | None => None
           end
  end.

Definition is_exp_mark (c : ascii) : bool := Ascii.eqb c "e" || Ascii.eqb c "E".

Fixpoint trim_start_matches (c : ascii) (s : string) : string :=
  match s with
  | String a s' => if Ascii.eqb a c then trim_start_matches c s' else s
  | EmptyString => EmptyString
  end.

Definition canonicalize_json_number (raw : string) : string :=
  let t := trim raw in
  let '(neg, unsigned) :=
    match strip_prefix "-" t with
    | Some rest => (true, rest)
    | None => (false, t)
    end in
  let '(mantissa, exp_lit) := default (unsigned, "0") (split_at_any is_exp_mark unsigned) in
  match parse_i128 exp_lit with
  | None => t
  | Some exp =>
      let '(int_part, frac_part) := default (mantissa, "") (split_once "." mantissa) in
      if (is_empty int_part && is_empty frac_part)
         || negb (str_all is_ascii_digit int_part) || negb (str_all is_ascii_digit frac_part)
      then t
      else
        let digits := int_part +:+ frac_part in
        let sig0 := trim_start_matches "0" digits in
        if is_empty sig0 then "0"
        else
          let sig := trim_end_matches "0" sig0 in
          let trailing := len sig0 - len sig in
          match (e ← checked_i128 (exp - len frac_part); checked_i128 (e + trailing)) with
          | None => t
          | Some e => (if neg then "-" else "") +:+ sig +:+ "e" +:+ pretty e
          end
  end.

(** ** Identifiers *)

Definition parse_from_json (id : Json) : option RpcId :=
  match id with
  | JNull => Some RNull
  | JInteger raw | JFloat raw =>
      let canon := canonicalize_json_number raw in
      if len canon <=? MAX_RPC_ID_BYTES then Some (RNumber canon) else None
  | JString _ s => if len s <=? MAX_RPC_ID_BYTES then Some (RString s) else None
  | _ => None
  end.

(** [from_line], on the parsed line. *)
Definition id_from_line (frame : option Json) : option RpcId :=
  v ← frame; id ← member v "id"; parse_from_json id.

Definition internal (n : Z) : RpcId := RString (internal_id_str n).

Definition is_internal_namespace (i : RpcId) : bool :=
  match i with
  | RString s => starts_with INTERNAL_ID_PREFIX s
  | _ => false
  end.

Definition rpc_id_bytes (i : RpcId) : Z :=
  match i with
  | RNull => 4
  | RNumber n | RString n => len n
  end.

(** ** JSON numbers and their values *)

(** The grammar of a JSON number. *)
Record JsonNumber := mkJsonNumber {
  jn_neg : bool;
  jn_int : string;
  jn_frac : option string;
  jn_exp : option (bool * option bool * string);
}.

Definition print_exp (e : bool * option bool * string) : string :=
  let '(upper, sign, digits) := e in
  (if upper then "E" else "e")
  +:+ match sign with Some true => "-" | Some false => "+" | None => "" end +:+ digits.

Definition print_number (n : JsonNumber) : string :=
  (if jn_neg n then "-" else "") +:+ jn_int n
  +:+ match jn_frac n with Some f => "." +:+ f | None => "" end
  +:+ match jn_exp n with Some e => print_exp e | None => "" end.

Definition is_digits (s : string) : bool := negb (is_empty s) && str_all is_ascii_digit s.

Definition number_ok (n : JsonNumber) : bool :=
  is_digits (jn_int n)
  && match jn_frac n with Some f => is_digits f | None => true end
  && match jn_exp n with Some (_, _, d) => is_digits d | None => true end.

(** The value of a digit string. *)
Fixpoint nat_value (acc : Z) (s : string) : Z :=
  match s with
  | EmptyString => acc
  | String c s' => nat_value (acc * 10 + (code c - 48)) s'
  end.

Definition exp_value (n : JsonNumber) : Z :=
  match jn_exp n with
  | Some (_, Some true, d) => - nat_value 0 d
  | Some (_, _, d) => nat_value 0 d
  | None => 0
  end.

Definition frac_digits (n : JsonNumber) : string := default "" (jn_frac n).

(** Coefficient and decimal exponent: the number is [coeff * 10 ^ scale]. *)
Definition coeff (n : JsonNumber) : Z :=
  let m := nat_value 0 (jn_int n +:+ frac_digits n) in if jn_neg n then - m else m.
Definition scale (n : JsonNumber) : Z := exp_value n - len (frac_digits n).

(** The two decimals are the same number. *)
Definition same_value (n1 n2 : JsonNumber) : Prop :=
  let k := Z.min (scale n1) (scale n2) in
  coeff n1 * 10 ^ (scale n1 - k) = coeff n2 * 10 ^ (scale n2 - k).

(** The exponents the code can represent. *)
Definition exp_fits (n : JsonNumber) : Prop :=
  - 2 ^ 126 < exp_value n < 2 ^ 126 ∧ len (jn_int n +:+ frac_digits n) < 2 ^ 126.

Example canon_1 : canonicalize_json_number "1" = "1e0". Proof. reflexivity. Qed.
Example canon_2 : canonicalize_json_number "10e-1" = "1e0". Proof. reflexivity. Qed.
Example canon_3 : canonicalize_json_number "-0.50E1" = "-5e0". Proof. reflexivity. Qed.

(** ** Digit strings and their values *)

Lemma digit_code c : is_ascii_digit c = true → 0 ≤ code c - 48 ≤ 9.
Proof. unfold is_ascii_digit. intros [H1%Z.leb_le H2%Z.leb_le]%andb_true_iff. lia. Qed.

Lemma len_cons c s : len (String c s) = len s + 1.
Proof. unfold len. simpl. lia. Qed.

Lemma len_app s t : len (s +:+ t) = len s + len t.
Proof. unfold len. rewrite length_app_string. lia. Qed.

Lemma len_nonneg s : 0 ≤ len s.
Proof. unfold len. lia. Qed.

Lemma nat_value_acc s : ∀ a, nat_value a s = a * 10 ^ len s + nat_value 0 s.
Proof.
  induction s as [|c s IH]; intros a; [simpl; unfold len; simpl; lia|].
  cbn [nat_value]. rewrite IH, (IH (0 * 10 + _)), len_cons, Z.pow_add_r; [ring|apply len_nonneg|lia].
Qed.

Lemma nat_value_app s t : nat_value 0 (s +:+ t) = nat_value 0 s * 10 ^ len t + nat_value 0 t.
Proof.
  rewrite <- nat_value_acc. generalize 0.
  induction s as [|c s IH]; intros a; [done|]. rewrite app_cons_string. apply IH.
Qed.

Lemma nat_value_range s : str_all is_ascii_digit s = true → 0 ≤ nat_value 0 s < 10 ^ len s.
Proof.
  induction s as [|c s IH]; [done|]. simpl. intros [Hc%digit_code Hs]%andb_true_iff.
  specialize (IH Hs). rewrite nat_value_acc, len_cons, Z.pow_add_r by (try apply len_nonneg; lia).
  set (P := 10 ^ len s) in *. nia.
Qed.

(** Digit strings of one length are determined by their value. *)
Lemma nat_value_inj s : ∀ t, str_all is_ascii_digit s = true → str_all is_ascii_digit t = true →
  len s = len t → nat_value 0 s = nat_value 0 t → s = t.
Proof.
  induction s as [|c s IH]; intros [|d t]; rewrite ?len_cons; [done|..];
    try (unfold len; simpl; lia).
  simpl. intros [Hc%digit_code Hs]%andb_true_iff [Hd%digit_code Ht]%andb_true_iff Hl Hv.
  assert (Hlen : len s = len t) by lia.
  pose proof (nat_value_range s Hs). pose proof (nat_value_range t Ht).
  rewrite nat_value_acc, (nat_value_acc t), <- Hlen in Hv. rewrite <- Hlen in *.
  set (P := 10 ^ len s) in *. assert (code c = code d) by nia.
  rewrite (code_inj c d) by done. f_equal. apply IH; auto. nia.
Qed.

(** ** Leading and trailing zeros *)

(** No leading zero: the value has as many digits as the string. *)
Definition no_leading_zero (s : string) : Prop :=
  match s with
  | EmptyString => False
  | String c _ => c ≠ "0"%char
  end.

Lemma not_zero_code c : is_ascii_digit c = true → c ≠ "0"%char → 1 ≤ code c - 48.
Proof.
  intros Hd%digit_code Hc. destruct (decide (code c = 48)) as [E|]; [|lia].
  by destruct Hc; apply code_inj.
Qed.

Lemma nat_value_lower s : str_all is_ascii_digit s = true → no_leading_zero s →
  10 ^ (len s - 1) ≤ nat_value 0 s.
Proof.
  destruct s as [|c s]; [done|]. simpl. intros [Hc Hs]%andb_true_iff Hz.
  apply not_zero_code in Hz; [|done]. rewrite nat_value_acc, len_cons.
  replace (len s + 1 - 1) with (len s) by lia. pose proof (nat_value_range s Hs). nia.
Qed.

Lemma no_leading_zero_inj s t :
  str_all is_ascii_digit s = true → str_all is_ascii_digit t = true →
  no_leading_zero s → no_leading_zero t → nat_value 0 s = nat_value 0 t → s = t.
Proof.
  intros Hs Ht Zs Zt E. apply nat_value_inj; [done..| |done].
  pose proof (nat_value_range s Hs). pose proof (nat_value_range t Ht).
  pose proof (nat_value_lower s Hs Zs). pose proof (nat_value_lower t Ht Zt).
  destruct (Z.lt_trichotomy (len s) (len t)) as [?|[?|?]]; [|done|]; exfalso.
  - assert (10 ^ len s ≤ 10 ^ (len t - 1)) by (apply Z.pow_le_mono_r; lia). lia.
  - assert (10 ^ len t ≤ 10 ^ (len s - 1)) by (apply Z.pow_le_mono_r; lia). lia.
Qed.

Lemma trim_start_zeros s : str_all is_ascii_digit s = true →
  let t := trim_start_matches "0" s in
  str_all is_ascii_digit t = true ∧ nat_value 0 t = nat_value 0 s ∧ len t ≤ len s
  ∧ (t = "" ∨ no_leading_zero t).
Proof.
  induction s as [|c s IH]; cbn -[Ascii.eqb nat_value str_all]; [repeat split; auto; lia|].
  intros H. pose proof H as [Hc Hs]%andb_true_iff.
  destruct (Ascii.eqb_spec c "0") as [->|Hz].
  - destruct (IH Hs) as (? & Hv & ? & ?). rewrite len_cons. repeat split; auto; try lia.
  - repeat split; auto; try lia.
Qed.

Lemma mod_ten a k r : 0 < k → (a * 10 ^ k + r) mod 10 = r mod 10.
Proof.
  intros Hk. replace k with (1 + (k - 1)) by lia. rewrite Z.pow_add_r by lia.
  replace (a * (10 ^ 1 * 10 ^ (k - 1)) + r) with (r + (a * 10 ^ (k - 1)) * 10) by ring.
  apply Z.mod_add. lia.
Qed.

(** Cutting the trailing zeros divides by a power of ten. *)
Lemma trim_end_zeros s : str_all is_ascii_digit s = true →
  let t := trim_end_matches "0" s in
  str_all is_ascii_digit t = true ∧ nat_value 0 s = nat_value 0 t * 10 ^ (len s - len t)
  ∧ len t ≤ len s ∧ (t = "" ∨ nat_value 0 t mod 10 ≠ 0)
  ∧ (no_leading_zero s → no_leading_zero t).
Proof.
  induction s as [|c s IH]; cbn -[Ascii.eqb nat_value str_all is_empty]; [repeat split; auto; lia|].
  intros H. pose proof H as [Hc Hs]%andb_true_iff. destruct (IH Hs) as (Dt & Vt & Lt & Mt & Nt).
  set (t := trim_end_matches "0" s) in *. pose proof (len_nonneg t) as L0.
  assert (Hval : nat_value 0 (String c s)
                 = nat_value 0 (String c t) * 10 ^ (len (String c s) - len (String c t))).
  { rewrite !len_cons. cbn [nat_value]. rewrite (nat_value_acc s), (nat_value_acc t), Vt.
    replace (len s + 1 - (len t + 1)) with (len s - len t) by lia.
    replace (10 ^ len s) with (10 ^ len t * 10 ^ (len s - len t))
      by (rewrite <- Z.pow_add_r by lia; f_equal; lia). ring. }
  assert (Hd : str_all is_ascii_digit (String c t) = true) by (by apply andb_true_iff).
  clearbody t. destruct (decide (t = "")) as [->|Hne].
  - cbn [is_empty andb]. destruct (Ascii.eqb_spec c "0") as [->|Hz].
    + rewrite len_cons. pose proof (len_nonneg s).
      repeat split; auto; [|by intros []].
      lia.
    + rewrite !len_cons in *. repeat split; auto; [lia|].
      right. cbn [nat_value]. apply not_zero_code in Hz as Hz1; [|done]. apply digit_code in Hc.
      rewrite Z.mod_small; lia.
  - assert (is_empty t = false) as -> by (by destruct t). cbn [andb].
    rewrite !len_cons in *. repeat split; auto; [lia|].
    right. destruct Mt as [|Mt]; [done|]. cbn [nat_value]. rewrite nat_value_acc, mod_ten; [done|].
    destruct t; [done|]. rewrite len_cons. pose proof (len_nonneg t). lia.
Qed.

(** A number without a factor of ten and a power of ten determine each other. *)
Lemma scaled_unique m1 m2 a b : m1 mod 10 ≠ 0 → m2 mod 10 ≠ 0 → 0 ≤ a → 0 ≤ b →
  m1 * 10 ^ a = m2 * 10 ^ b → m1 = m2 ∧ a = b.
Proof.
  intros H1 H2 Ha Hb E.
  assert (∀ x y c d, x mod 10 ≠ 0 → 0 ≤ c < d → x * 10 ^ c = y * 10 ^ d → False) as Hlt.
  { intros x y c d Hx Hcd Exy. apply Hx.
    assert (x = y * 10 ^ (d - c)) as ->.
    { apply (Z.mul_reg_r _ _ (10 ^ c)); [apply Z.pow_nonzero; lia|].
      rewrite Exy, <- Z.mul_assoc, <- Z.pow_add_r by lia. do 2 f_equal. lia. }
    rewrite <- (Z.add_0_r (y * _)), mod_ten by lia. done. }
  destruct (Z.lt_trichotomy a b) as [?|[->|?]].
  - destruct (Hlt m1 m2 a b); auto.
  - split; [|done]. apply (Z.mul_reg_r _ _ (10 ^ b)); [apply Z.pow_nonzero; lia|done].
  - destruct (Hlt m2 m1 b a); auto.
Qed.

(** ** The canonical text of a printed number *)

Lemma parse_digits max s : ∀ acc, str_all is_ascii_digit s = true → 0 ≤ acc →
  nat_value acc s ≤ max → digits_value 10 max acc s = Some (nat_value acc s).
Proof.
  induction s as [|c s IH]; intros acc; [done|]. cbn [str_all nat_value digits_value].
  intros [Hc Hs]%andb_true_iff Ha Hm. pose proof (digit_code c Hc) as Hr.
  assert (to_digit 10 c = Some (code c - 48)) as ->.
  { unfold to_digit, digit_value. rewrite Hc. rewrite (proj2 (Z.ltb_lt _ _)); [done|lia]. }
  cbv zeta. assert (acc * 10 + (code c - 48) ≤ max).
  { etrans; [|apply Hm]. rewrite nat_value_acc. pose proof (nat_value_range s Hs).
    assert (1 ≤ 10 ^ len s) by (apply (Z.pow_le_mono_r 10 0); [lia|apply len_nonneg]). nia. }
  rewrite (proj2 (Z.ltb_ge _ _)) by lia. apply IH; auto; lia.
Qed.

Lemma split_at_any_app p s c t : str_all (λ x, negb (p x)) s = true → p c = true →
  split_at_any p (s +:+ String c t) = Some (s, t).
Proof.
  induction s as [|d s IH]; rewrite ?app_cons_string, ?app_empty_string; cbn -[String.append].
  - intros _ ->. done.
  - intros [Hd%negb_true_iff Hs]%andb_true_iff Hc. rewrite Hd, IH by done. done.
Qed.

Lemma split_at_any_none p s : str_all (λ x, negb (p x)) s = true → split_at_any p s = None.
Proof.
  induction s as [|d s IH]; cbn; [done|]. intros [Hd%negb_true_iff Hs]%andb_true_iff.
  by rewrite Hd, IH.
Qed.

Lemma split_once_first c s t : str_all (λ x, negb (Ascii.eqb x c)) s = true →
  split_once c (s +:+ String c t) = Some (s, t).
Proof.
  induction s as [|d s IH]; rewrite ?app_cons_string, ?app_empty_string; cbn -[String.append Ascii.eqb].
  - by rewrite Ascii.eqb_refl.
  - intros [Hd%negb_true_iff Hs]%andb_true_iff. by rewrite Hd, IH.
Qed.

Lemma split_once_none c s : str_all (λ x, negb (Ascii.eqb x c)) s = true → split_once c s = None.
Proof.
  induction s as [|d s IH]; cbn -[Ascii.eqb]; [done|].
  intros [Hd%negb_true_iff Hs]%andb_true_iff. by rewrite Hd, IH.
Qed.

Lemma is_digits_spec s : is_digits s = true →
  str_all is_ascii_digit s = true ∧ ∃ c s', s = String c s' ∧ is_ascii_digit c = true.
Proof.
  unfold is_digits. intros [He Hs]%andb_true_iff. destruct s as [|c s]; [done|].
  split; [done|]. exists c, s. split; [done|]. by apply andb_true_iff in Hs as [? _].
Qed.

Lemma digit_graphic c : is_ascii_digit c = true → graphic c = true.
Proof. each_char c. Qed.
Lemma digit_no_mark c : is_ascii_digit c = true → negb (is_exp_mark c) = true.
Proof. each_char c. Qed.
Lemma digit_no_point c : is_ascii_digit c = true → negb (Ascii.eqb c ".") = true.
Proof. each_char c. Qed.
Lemma digit_no_sign c : is_ascii_digit c = true → Ascii.eqb "-" c = false ∧ Ascii.eqb c "+" = false.
Proof. each_char c. Qed.

(** What stands before the exponent, and what the code reads as exponent. *)
Definition mantissa_text (n : JsonNumber) : string :=
  jn_int n +:+ match jn_frac n with Some f => "." +:+ f | None => "" end.
Definition exp_text (n : JsonNumber) : string :=
  match jn_exp n with
  | Some (_, sign, d) => match sign with Some true => "-" | Some false => "+" | None => "" end +:+ d
  | None => "0"
  end.

Lemma print_graphic n : number_ok n = true → str_all graphic (print_number n) = true.
Proof.
  unfold number_ok. intros [[Hi Hf]%andb_true_iff He]%andb_true_iff.
  apply is_digits_spec in Hi as [Hi _]. pose proof (str_all_impl _ _ _ digit_graphic Hi) as Gi.
  unfold print_number, print_exp. rewrite !str_all_app, Gi.
  assert (str_all graphic (if jn_neg n then "-" else "") = true) as -> by (by destruct (jn_neg n)).
  destruct (jn_frac n) as [f|].
  2: destruct (jn_exp n) as [[[u g] d]|]; [|done].
  1: destruct (jn_exp n) as [[[u g] d]|].
  all: repeat match goal with
       | H : is_digits _ = true |- _ =>
           let H' := fresh in apply is_digits_spec in H as [H' _];
           apply (str_all_impl _ _ _ digit_graphic) in H'
       end.
  all: rewrite ?str_all_app; repeat match goal with H : str_all graphic _ = true |- _ => rewrite H; clear H end.
  all: try (destruct u, g as [[]|]; done). done.
Qed.

Lemma mantissa_no_mark n : number_ok n = true →
  str_all (λ x, negb (is_exp_mark x)) (mantissa_text n) = true.
Proof.
  unfold number_ok, mantissa_text. intros [[Hi Hf]%andb_true_iff _]%andb_true_iff.
  apply is_digits_spec in Hi as [Hi _]. rewrite str_all_app, (str_all_impl _ _ _ digit_no_mark Hi).
  destruct (jn_frac n) as [f|]; [|done]. apply is_digits_spec in Hf as [Hf _].
  by rewrite str_all_app, (str_all_impl _ _ _ digit_no_mark Hf).
Qed.

Lemma print_splits n : number_ok n = true →
  default (mantissa_text n, "0")
    (split_at_any is_exp_mark
       (mantissa_text n +:+ match jn_exp n with Some e => print_exp e | None => "" end))
  = (mantissa_text n, exp_text n).
Proof.
  intros Hok. unfold exp_text, print_exp. destruct (jn_exp n) as [[[u g] d]|].
  - set (tail := match g with Some true => "-" | Some false => "+" | None => "" end +:+ d).
    assert (∃ c, (if u then "E" else "e") +:+ tail = String c tail ∧ is_exp_mark c = true)
      as (c & -> & Hc) by (destruct u; eauto).
    by rewrite split_at_any_app by (auto using mantissa_no_mark).
  - rewrite app_nil_string, split_at_any_none by (by apply mantissa_no_mark). done.
Qed.

Lemma parse_exp_text n : number_ok n = true → exp_fits n → parse_i128 (exp_text n) = Some (exp_value n).
Proof.
  unfold number_ok, exp_fits, exp_text, exp_value. intros [_ He]%andb_true_iff [[Hlo Hhi] _].
  destruct (jn_exp n) as [[[u g] d]|]; [|done].
  apply is_digits_spec in He as (Hd & c & d' & -> & Hc). pose proof (digit_no_sign c Hc) as [Hm Hp].
  pose proof (nat_value_range _ Hd) as [Hr _].
  assert (∀ max, 2 ^ 127 - 1 ≤ max → nat_value 0 (String c d') < 2 ^ 126 →
    digits_value 10 max 0 (String c d') = Some (nat_value 0 (String c d'))) as Hparse.
  { intros max Hmax Hv. apply parse_digits; [done|lia|]. lia. }
  unfold parse_i128. destruct g as [[]|]; rewrite ?app_cons_string, ?app_empty_string.
  - assert (strip_prefix "-" (String "-" (String c d')) = Some (String c d')) as -> by done.
    cbn [is_empty]. rewrite Hparse; [done|unfold I128_MIN; lia|lia].
  - assert (strip_prefix "-" (String "+" (String c d')) = None) as -> by done.
    unfold from_str_radix. rewrite Ascii.eqb_refl. cbn [is_empty]. apply Hparse; [unfold I128_MAX; lia|lia].
  - assert (strip_prefix "-" (String c d') = None) as -> by (cbn -[Ascii.eqb]; by rewrite Hm).
    unfold from_str_radix. rewrite Hp. apply Hparse; [unfold I128_MAX; lia|lia].
Qed.

Lemma print_mantissa n : number_ok n = true →
  default (mantissa_text n, "") (split_once "." (mantissa_text n)) = (jn_int n, frac_digits n).
Proof.
  unfold number_ok, mantissa_text, frac_digits. intros [[Hi Hf]%andb_true_iff _]%andb_true_iff.
  apply is_digits_spec in Hi as [Hi _]. pose proof (str_all_impl _ _ _ digit_no_point Hi) as Hp.
  destruct (jn_frac n) as [f|].
  - by rewrite app_cons_string, app_empty_string, split_once_first.
  - by rewrite app_nil_string, split_once_none.
Qed.

Definition significand (n : JsonNumber) : string :=
  trim_end_matches "0" (trim_start_matches "0" (jn_int n +:+ frac_digits n)).
Definition canon_exp (n : JsonNumber) : Z :=
  scale n + (len (trim_start_matches "0" (jn_int n +:+ frac_digits n)) - len (significand n)).

Lemma number_digits n : number_ok n = true →
  str_all is_ascii_digit (jn_int n) = true ∧ str_all is_ascii_digit (frac_digits n) = true
  ∧ str_all is_ascii_digit (jn_int n +:+ frac_digits n) = true ∧ is_empty (jn_int n) = false.
Proof.
  unfold number_ok, frac_digits. intros [[Hi Hf]%andb_true_iff _]%andb_true_iff.
  apply is_digits_spec in Hi as (Hi & c & s & Hc & _). rewrite str_all_app, Hi.
  rewrite Hc. destruct (jn_frac n) as [f|]; [|done]. by apply is_digits_spec in Hf as [Hf _].
Qed.

Lemma checked_in_range z : - 2 ^ 127 ≤ z < 2 ^ 127 → checked_i128 z = Some z.
Proof.
  intros H. unfold checked_i128, I128_MIN, I128_MAX.
  by rewrite (proj2 (Z.leb_le _ _)), (proj2 (Z.leb_le _ _)) by lia.
Qed.

Lemma canonicalize_print n : number_ok n = true → exp_fits n →
  canonicalize_json_number (print_number n)
  = if is_empty (trim_start_matches "0" (jn_int n +:+ frac_digits n)) then "0"
    else (if jn_neg n then "-" else "") +:+ significand n +:+ "e" +:+ pretty (canon_exp n).
Proof.
  intros Hok Hfit. unfold canonicalize_json_number. rewrite trim_graphic by (by apply print_graphic).
  pose proof (number_digits n Hok) as (Di & Df & Dn & Ei).
  assert (match strip_prefix "-" (print_number n) with
          | Some rest => (true, rest) | None => (false, print_number n) end
          = (jn_neg n, mantissa_text n +:+ match jn_exp n with Some e => print_exp e | None => "" end))
    as ->.
  { unfold print_number, mantissa_text. rewrite !app_assoc_string. destruct (jn_neg n); [done|].
    rewrite app_empty_string. destruct (jn_int n) as [|c s]; [done|]. rewrite app_cons_string.
    cbn -[Ascii.eqb] in Di |- *. apply andb_true_iff in Di as [Hc _].
    by rewrite (proj1 (digit_no_sign c Hc)). }
  pose proof (print_splits n Hok) as Hs. cbv zeta.
  replace (default _ (split_at_any _ _)) with (mantissa_text n, exp_text n).
  2: { rewrite <- Hs. unfold exp_text in *. clear Hs. destruct (jn_exp n) as [[[u g] d]|]; [|].
       - destruct (split_at_any _ _) eqn:E; [done|]. exfalso. revert E. unfold print_exp.
         destruct u; rewrite ?app_cons_string, ?app_empty_string, split_at_any_app;
           try done; by apply mantissa_no_mark.
       - rewrite app_nil_string. done. }
  rewrite parse_exp_text, print_mantissa, Ei, Di, Df by done. cbn [andb negb orb].
  fold (significand n).
  set (s0 := trim_start_matches "0" (jn_int n +:+ frac_digits n)) in *.
  destruct (is_empty s0); [done|].
  destruct Hfit as [[Hlo Hhi] Hl]. rewrite len_app in Hl.
  pose proof (len_nonneg (jn_int n)). pose proof (len_nonneg (frac_digits n)).
  destruct (trim_start_zeros _ Dn) as (Ds & _ & L1 & _). fold s0 in Ds, L1.
  destruct (trim_end_zeros _ Ds) as (_ & _ & L2 & _). rewrite len_app in L1.
  fold s0 in L2. change (trim_end_matches "0" s0) with (significand n) in *.
  pose proof (len_nonneg (significand n)).
  rewrite (checked_in_range (exp_value n - len (frac_digits n))) by lia. cbn.
  rewrite checked_in_range by lia. done.
Qed.

(** ** Correlation by value *)

Lemma digits_mark_inj s : ∀ t x y,
  str_all is_ascii_digit s = true → str_all is_ascii_digit t = true →
  s +:+ String "e" x = t +:+ String "e" y → s = t ∧ x = y.
Proof.
  induction s as [|c s IH]; intros [|d t] x y;
    rewrite ?app_cons_string, ?app_empty_string; intros Hs Ht [=]; subst; [done|done|done|].
  apply andb_true_iff in Hs as [_ Hs], Ht as [_ Ht]. by destruct (IH t x y) as [-> ->].
Qed.

(** A nonzero number in normal form: a positive significand with no factor of
    ten, and the power of ten that goes with it. *)
Lemma normal_form n : number_ok n = true →
  let s0 := trim_start_matches "0" (jn_int n +:+ frac_digits n) in
  str_all is_ascii_digit (significand n) = true
  ∧ (s0 = "" → coeff n = 0)
  ∧ (s0 ≠ "" → no_leading_zero (significand n) ∧ 0 < nat_value 0 (significand n)
       ∧ nat_value 0 (significand n) mod 10 ≠ 0 ∧ scale n ≤ canon_exp n
       ∧ coeff n = (if jn_neg n then -1 else 1)
                   * (nat_value 0 (significand n) * 10 ^ (canon_exp n - scale n))).
Proof.
  intros Hok. pose proof (number_digits n Hok) as (_ & _ & Dn & _). unfold coeff, canon_exp.
  destruct (trim_start_zeros _ Dn) as (D0 & V0 & _ & Z0). cbv zeta.
  unfold significand. set (s0 := trim_start_matches "0" (jn_int n +:+ frac_digits n)) in *.
  destruct (trim_end_zeros _ D0) as (D1 & V1 & L1 & M1 & N1).
  set (sig := trim_end_matches "0" s0) in *. rewrite <- V0.
  split; [done|]. split; [intros ->; by destruct (jn_neg n)|]. intros Hne.
  destruct Z0 as [|Z0]; [done|]. specialize (N1 Z0).
  assert (sig ≠ "") by (intros E; by rewrite E in N1).
  destruct M1 as [|M1]; [done|]. pose proof (nat_value_range _ D1) as [Hr _].
  split; [done|]. split; [destruct (decide (nat_value 0 sig = 0)) as [E|]; [by rewrite E in M1|lia]|].
  split; [done|]. split; [lia|].
  replace (scale n + (len s0 - len sig) - scale n) with (len s0 - len sig) by lia.
  rewrite <- V1. destruct (jn_neg n); lia.
Qed.

Lemma signed_text_inj (b1 b2 : bool) s1 s2 (e1 e2 : Z) :
  str_all is_ascii_digit s1 = true → str_all is_ascii_digit s2 = true →
  no_leading_zero s1 → no_leading_zero s2 →
  (if b1 then "-" else "") +:+ s1 +:+ "e" +:+ pretty e1
  = (if b2 then "-" else "") +:+ s2 +:+ "e" +:+ pretty e2 →
  b1 = b2 ∧ s1 = s2 ∧ e1 = e2.
Proof.
  intros D1 D2 N1 N2 E.
  assert (∀ s x y, str_all is_ascii_digit s = true → no_leading_zero s →
            String "-" x = s +:+ y → False) as Hsign.
  { intros [|c s] x y Hs Hn; [done|]. rewrite app_cons_string. intros [= <- _]. done. }
  assert (b1 = b2) as ->.
  { destruct b1, b2; rewrite ?app_empty_string, ?app_cons_string in E; [done| | |done]; exfalso; eauto. }
  assert (s1 +:+ "e" +:+ pretty e1 = s2 +:+ "e" +:+ pretty e2) as E'.
  { destruct b2; rewrite ?app_cons_string, ?app_empty_string in E; [by injection E|done]. }
  rewrite !app_cons_string, !app_empty_string in E'.
  destruct (digits_mark_inj _ _ _ _ D1 D2 E') as [-> He]. by apply (inj pretty) in He.
Qed.

Lemma canon_has_mark (b : bool) s (e : Z) : (if b then "-" else "") +:+ s +:+ "e" +:+ pretty e ≠ "0".
Proof.
  intros E. destruct b; rewrite ?app_cons_string, ?app_empty_string in E; [done|].
  destruct s as [|c s]; rewrite ?app_cons_string, ?app_empty_string in E; [done|].
  injection E as _ E. destruct s; done.
Qed.

Definition sgn (n : JsonNumber) : Z := if jn_neg n then -1 else 1.

(** The value at a common scale [k]. *)
Lemma value_at n k : number_ok n = true → k ≤ scale n →
  trim_start_matches "0" (jn_int n +:+ frac_digits n) ≠ "" →
  coeff n * 10 ^ (scale n - k) = sgn n * (nat_value 0 (significand n) * 10 ^ (canon_exp n - k))
  ∧ 0 < nat_value 0 (significand n) * 10 ^ (canon_exp n - k).
Proof.
  intros Hok Hk Hne. destruct (normal_form n Hok) as (_ & _ & P).
  destruct (P Hne) as (_ & Hpos & _ & Hx & ->).
  split; [|apply Z.mul_pos_pos; [done|apply Z.pow_pos_nonneg; lia]].
  fold (sgn n). rewrite <- !Z.mul_assoc, <- Z.pow_add_r by lia. do 3 f_equal. lia.
Qed.

Lemma signed_equal s1 s2 x1 x2 : (s1 = 1 ∨ s1 = -1) → (s2 = 1 ∨ s2 = -1) → 0 < x1 → 0 < x2 →
  s1 * x1 = s2 * x2 → s1 = s2 ∧ x1 = x2.
Proof. lia. Qed.

(** [C26] Two JSON numbers are folded to the same request id exactly when they
    are the same decimal number: however the peer spells the sign, the
    fraction and the exponent, equal ids correlate and different ids never do,
    for all exponents within the range of the code's 128-bit arithmetic. *)
Theorem numeric_id_exact n1 n2 :
  number_ok n1 = true → number_ok n2 = true → exp_fits n1 → exp_fits n2 →
  canonicalize_json_number (print_number n1) = canonicalize_json_number (print_number n2)
  ↔ same_value n1 n2.
Proof.
  intros O1 O2 F1 F2. rewrite !canonicalize_print by done. unfold same_value.
  pose proof (normal_form n1 O1) as (D1 & Z1 & P1). pose proof (normal_form n2 O2) as (D2 & Z2 & P2).
  set (k := Z.min (scale n1) (scale n2)).
  destruct (trim_start_matches "0" (jn_int n1 +:+ _)) as [|c1 r1] eqn:E1,
    (trim_start_matches "0" (jn_int n2 +:+ _)) as [|c2 r2] eqn:E2; cbn [is_empty].
  - rewrite Z1, Z2 by done. split; [lia|done].
  - destruct (value_at n2 k O2 ltac:(lia) ltac:(by rewrite E2)) as [-> Hpos].
    split; [by intros ?%eq_sym%canon_has_mark|]. rewrite Z1 by done.
    unfold sgn. destruct (jn_neg n2); lia.
  - destruct (value_at n1 k O1 ltac:(lia) ltac:(by rewrite E1)) as [-> Hpos].
    split; [by intros ?%canon_has_mark|]. rewrite Z2 by done.
    unfold sgn. destruct (jn_neg n1); lia.
  - destruct (P1 ltac:(done)) as (N1 & _ & M1 & X1 & _).
    destruct (P2 ltac:(done)) as (N2 & _ & M2 & X2 & _).
    destruct (value_at n1 k O1 ltac:(lia) ltac:(by rewrite E1)) as [-> Hp1].
    destruct (value_at n2 k O2 ltac:(lia) ltac:(by rewrite E2)) as [-> Hp2]. split.
    + intros (Es & -> & ->)%signed_text_inj; [|done..]. unfold sgn. by rewrite Es.
    + intros [Es [Em Ee]%scaled_unique]%signed_equal; [|done|done|lia|lia| | |done|done].
      * assert (jn_neg n1 = jn_neg n2) as -> by (unfold sgn in Es; by destruct (jn_neg n1), (jn_neg n2)).
        rewrite (no_leading_zero_inj _ _ D1 D2 N1 N2 Em). do 3 f_equal. f_equal. lia.
      * unfold sgn. destruct (jn_neg n1); auto.
      * unfold sgn. destruct (jn_neg n2); auto.
Qed.

Lemma numeric_id_exact_witness :
  let a := mkJsonNumber false "1" (Some "50") (Some (false, None, "3")) in
  let b := mkJsonNumber false "15" None (Some (true, Some false, "2")) in
  print_number a = "1.50e3" ∧ print_number b = "15E+2" ∧
  canonicalize_json_number "1.50e3" = canonicalize_json_number "15E+2".
Proof.
  split; [done|]. split; [done|].
  apply (numeric_id_exact (mkJsonNumber false "1" (Some "50") (Some (false, None, "3")))
           (mkJsonNumber false "15" None (Some (true, Some false, "2"))));
    try done; vm_compute; done.
Defined.
