(* ===== verification/Deputy.v ===== *)
(** * Deputy: Confused Deputy roles and path extraction

    [src/src/policy/deputy.rs] and [src/src/auditor/session/extract.rs]: the
    roles a tool can have, the restricted JSON pointer that names paths inside
    a request or a response, the built-in extraction of list results, and the
    validation of a [deputy] block.  An array index is parsed as [usize]; the
    bounds of the traversal are kept. *)

From S2P Require Import Prelude Text Json.

Definition MAX_DEPUTY_RULES : nat := 16.
Definition MAX_POINTER_BYTES : nat := 256.
Definition MAX_POINTER_SEGMENTS : nat := 16.
Definition MAX_EXTRACT_VALUES : nat := 256.
Definition MAX_EXTRACT_VALUE_BYTES : nat := 4096.

(** ** Roles and shapes *)

Inductive DeputyRole := Discover | Use | NoRole.

#[export] Instance DeputyRole_eq_dec : EqDecision DeputyRole.
Proof. solve_decision. Defined.

Definition DeputyRole_as_str (r : DeputyRole) : string :=
  match r with
  | Discover => "discover"
  | Use => "use"
  | NoRole => "none"
  end.

Definition DeputyRole_parse (value : string) : option DeputyRole :=
  str_match value [(["discover"], Some Discover); (["use"], Some Use); (["none"], Some NoRole)] None.

Definition pointer_root (r : DeputyRole) : option string :=
  match r with
  | Discover => Some "result"
  | Use => Some "params"
  | NoRole => None
  end.

Inductive KnownShape := FsTargets | McpListResult.

#[export] Instance KnownShape_eq_dec : EqDecision KnownShape.
Proof. solve_decision. Defined.

Definition KnownShape_as_str (s : KnownShape) : string :=
  match s with
  | FsTargets => "fs_targets"
  | McpListResult => "mcp_list_result"
  end.

Definition KnownShape_parse (value : string) : option KnownShape :=
  str_match value [(["fs_targets"], Some FsTargets); (["mcp_list_result"], Some McpListResult)] None.

Definition KnownShape_role (s : KnownShape) : DeputyRole :=
  match s with
  | FsTargets => Use
  | McpListResult => Discover
  end.

(** ** Pointers *)

Record ExtractPointer := mkPointer {
  ptr_source : string;
  ptr_segments : list string;
  split_lines : bool;
}.

#[export] Instance ExtractPointer_eq_dec : EqDecision ExtractPointer.
Proof. solve_decision. Defined.

Inductive DeputyRule := RPointer (p : ExtractPointer) | RShape (s : KnownShape).

#[export] Instance DeputyRule_eq_dec : EqDecision DeputyRule.
Proof. solve_decision. Defined.

Record PointerOutcome := mkOutcome { po_values : list string; po_truncated : bool }.

(** The escapes [~0] and [~1] of a segment. *)
Fixpoint unescape (s : string) : option string :=
  match s with
  | EmptyString => Some EmptyString
  | String c s' =>
      if Ascii.eqb c "~" then
        match s' with
        | String d s'' =>
            if Ascii.eqb d "0" then String "~" <$> unescape s''
            else if Ascii.eqb d "1" then String "/" <$> unescape s''
            else None
        | EmptyString => None
        end
      else String c <$> unescape s'
  end.

Definition decode_segment (raw : string) : result string string :=
  if negb (contains "~" raw) then Ok raw
  else match unescape raw with
       | Some s => Ok s
       | None => Err ("invalid '~' escape in pointer segment " +:+ dquote +:+ raw +:+ dquote)
       end.

Fixpoint decode_segments (raws : list string) : result (list string) string :=
  match raws with
  | [] => Ok []
  | raw :: rest =>
      (s ←? decode_segment raw; ss ←? decode_segments rest; Ok (s :: ss))%result
  end.

Definition pointer_parse (source root : string) : result ExtractPointer string :=
  match strip_prefix "/" source with
  | None => Err "extract pointer must start with '/'"
  | Some rest =>
      if (MAX_POINTER_BYTES <? String.length source)%nat then Err "extract pointer exceeds 256 bytes"
      else
        (segments ←? decode_segments (split "/" rest);
         if (MAX_POINTER_SEGMENTS <? length segments)%nat
         then Err "extract pointer exceeds 16 segments"
         else if (length segments <? 2)%nat
         then Err "extract pointer must address a member below the frame root"
         else if bool_decide (head segments = Some root) then Ok (mkPointer source segments false)
         else Err ("extract pointer for this role must start with " +:+ dquote +:+ "/" +:+ root
                   +:+ "/" +:+ dquote))%result
  end.

Definition root_segment (p : ExtractPointer) : string := default "" (head (ptr_segments p)).

(** Everything a segment reaches from a value. *)
Definition reach (v : Json) (seg : string) : list Json :=
  if String.eqb seg "*" then
    match to_object v, to_array v with
    | Some ms, _ => ms.*2
    | None, Some items => items
    | None, None => []
    end
  else
    match member v seg with
    | Some w => [w]
    | None =>
        match to_array v, parse_u64 seg with
        | Some items, Some i =>
            if (i <? Z.of_nat (length items))%Z then option_list (items !! Z.to_nat i) else []
        | _, _ => []
        end
    end.

(** [expand_segment]: at most [limit] values, and whether there were more. *)
Definition expand_segment (v : Json) (seg : string) (limit : nat) : list Json * bool :=
  let all := reach v seg in
  (take limit all, (limit <? length all)%nat).

(** The values of one level, accumulated in [next]; true when it overflowed. *)
Fixpoint expand_level (current : list Json) (seg : string) (next : list Json) : list Json * bool :=
  match current with
  | [] => (next, false)
  | v :: rest =>
      let remaining := (MAX_EXTRACT_VALUES + 1 - length next)%nat in
      let '(more, over) := expand_segment v seg remaining in
      let next' := next ++ more in
      if (remaining =? 0)%nat || over || (MAX_EXTRACT_VALUES <? length next')%nat
      then (take MAX_EXTRACT_VALUES next', true)
      else expand_level rest seg next'
  end.

Fixpoint walk (segments : list string) (current : list Json) : list Json * bool :=
  match segments with
  | [] => (current, false)
  | seg :: rest =>
      let '(next, over) := expand_level current seg [] in
      if bool_decide (next = []) then ([], over)
      else let '(leaves, over') := walk rest next in (leaves, over || over')
  end.

(** [str::lines]: split at line feeds, a carriage return before one and an
    empty last line dropped. *)
Definition strip_cr (s : string) : string := default s (strip_suffix (String (ascii_of_nat 13) "") s).
Fixpoint chop_lines (parts : list string) : list string :=
  match parts with
  | [] => []
  | [last] => if is_empty last then [] else [last]
  | p :: rest => strip_cr p :: chop_lines rest
  end.
Definition lines (s : string) : list string := chop_lines (split (ascii_of_nat 10) s).

(** The text of a leaf, line by line. *)
Definition leaf_lines (text : string) : list string :=
  List.filter (λ l, negb (is_empty l)) (trim <$> lines text).

(** The lines of one leaf, appended until a bound is hit. *)
Fixpoint push_lines (ls : list string) (out : list string) : list string * bool :=
  match ls with
  | [] => (out, false)
  | l :: rest =>
      if (MAX_EXTRACT_VALUES <=? length out)%nat
         || (MAX_EXTRACT_VALUE_BYTES <? String.length l)%nat
      then (out, true)
      else push_lines rest (out ++ [l])
  end.

Fixpoint collect (split_lines : bool) (leaves : list Json) (out : list string) : list string * bool :=
  match leaves with
  | [] => (out, false)
  | v :: rest =>
      match to_unquoted_string_str v with
      | None => collect split_lines rest out
      | Some text =>
          if split_lines then
            let '(out', cut) := push_lines (leaf_lines text) out in
            if cut then (out', true) else collect split_lines rest out'
          else if (MAX_EXTRACT_VALUE_BYTES <? String.length text)%nat then (out, true)
          else collect split_lines rest (out ++ [text])
      end
  end.

Definition resolve (p : ExtractPointer) (root : Json) : PointerOutcome :=
  let '(leaves, over) := walk (ptr_segments p) [root] in
  let '(values, cut) := collect (split_lines p) leaves [] in
  mkOutcome values (over || cut).

(** ** The [deputy] block *)

Record DeputyPolicy := mkDeputy { dp_role : DeputyRole; dp_rules : list DeputyRule }.

Fixpoint validate_rules (role : DeputyRole) (seen rules : list DeputyRule) : result unit string :=
  match rules with
  | [] => Ok ()
  | rule :: rest =>
      (_ ←? match role, rule with
            | Discover, RShape FsTargets | Use, RShape McpListResult =>
                Err ("shape " +:+ dquote +:+ match rule with
                                             | RShape s => KnownShape_as_str s
                                             | RPointer _ => ""
                                             end +:+ dquote +:+ " is not valid for deputy role "
                     +:+ dquote +:+ DeputyRole_as_str role +:+ dquote)
            | Discover, RPointer p =>
                if String.eqb (root_segment p) "result" then Ok ()
                else Err ("extract " +:+ dquote +:+ ptr_source p +:+ dquote +:+ " must start with "
                          +:+ dquote +:+ "/result/" +:+ dquote +:+ " for role " +:+ dquote
                          +:+ "discover" +:+ dquote)
            | Use, RPointer p =>
                if String.eqb (root_segment p) "params" then Ok ()
                else Err ("extract " +:+ dquote +:+ ptr_source p +:+ dquote +:+ " must start with "
                          +:+ dquote +:+ "/params/" +:+ dquote +:+ " for role " +:+ dquote
                          +:+ "use" +:+ dquote)
            | _, _ => Ok ()
            end;
       if bool_decide (rule ∈ seen) then Err "duplicate extraction rule in deputy block"
       else validate_rules role (rule :: seen) rest)%result
  end.

Definition deputy_validate (d : DeputyPolicy) : result unit string :=
  match dp_role d with
  | NoRole =>
      if bool_decide (dp_rules d = []) then Ok ()
      else Err ("deputy role " +:+ dquote +:+ "none" +:+ dquote +:+ " cannot declare extraction rules")
  | role =>
      if bool_decide (dp_rules d = [])
      then Err ("deputy role " +:+ dquote +:+ DeputyRole_as_str role +:+ dquote
                +:+ " requires at least one `extract`/`shape` rule")
      else if (MAX_DEPUTY_RULES <? length (dp_rules d))%nat then Err "deputy block exceeds 16 rules"
      else validate_rules role [] (dp_rules d)
  end.

Definition LEGACY_DISCOVER_RULES : list DeputyRule := [RShape McpListResult].
Definition LEGACY_USE_RULES : list DeputyRule := [RShape FsTargets].

Inductive DeputyBinding := BNone | BDiscover (rules : list DeputyRule) | BUse (rules : list DeputyRule).

(** A tool of the policy, as far as its deputy block. *)
Record ToolDeputy := mkTool { td_name : string; td_deputy : option DeputyPolicy }.

Definition deputy_binding (tools : list ToolDeputy) (tool_name : string) : DeputyBinding :=
  match List.find (λ t, String.eqb (td_name t) tool_name) tools ≫= td_deputy with
  | Some dep =>
      match dp_role dep with
      | NoRole => BNone
      | Discover => BDiscover (dp_rules dep)
      | Use => BUse (dp_rules dep)
      end
  | None =>
      str_match tool_name
        [(["list_files"; "list_directory"], BDiscover LEGACY_DISCOVER_RULES);
         (["read_file"], BUse LEGACY_USE_RULES)] BNone
  end.

(** ** Extraction from list results *)

Definition MAX_KNOWN_PATHS : nat := 4096.
Definition MAX_PATH_BYTES : nat := 4096.

Definition json_string_field (v : Json) (name : string) : option string :=
  m ← member v name; to_unquoted_string_str m.

(** The length an identifier may have. *)
Definition identifier_len (s : string) : bool :=
  (1 <? String.length s)%nat && (String.length s <=? MAX_PATH_BYTES)%nat.

(** The lines of one [text] field; true when the collection is full. *)
Fixpoint push_text (ls : list string) (out : list string) : list string * bool :=
  match ls with
  | [] => (out, false)
  | line :: rest =>
      let trimmed := trim line in
      if identifier_len trimmed then
        let out' := out ++ [trimmed] in
        if (MAX_KNOWN_PATHS <=? length out')%nat then (out', true) else push_text rest out'
      else push_text rest out
  end.

Definition push_resource (item : Json) (out : list string) : list string :=
  match (r ← member item "resource"; json_string_field r "uri") with
  | Some uri => if identifier_len uri then out ++ [uri] else out
  | None => out
  end.

Fixpoint push_content (items : list Json) (out : list string) : list string :=
  match items with
  | [] => out
  | item :: rest =>
      if (MAX_KNOWN_PATHS <=? length out)%nat then out
      else
        let '(out', full) :=
          match json_string_field item "text" with
          | Some text => push_text (lines text) out
          | None => (out, false)
          end in
        if full then out' else push_content rest (push_resource item out')
  end.

Definition push_content_identifiers (result : Json) (out : list string) : list string :=
  match (content ← member result "content"; to_array content) with
  | Some items => push_content items out
  | None => out
  end.

Fixpoint push_fields (field : string) (items : list Json) (out : list string) : list string :=
  match items with
  | [] => out
  | item :: rest =>
      if (MAX_KNOWN_PATHS <=? length out)%nat then out
      else
        let out' :=
          match json_string_field item field with
          | Some value => if identifier_len value then out ++ [value] else out
          | None => out
          end in
        push_fields field rest out'
  end.

Definition push_array_string_field (result : Json) (array_name field : string) (out : list string)
  : list string :=
  match (arr ← member result array_name; to_array arr) with
  | Some items => push_fields field items out
  | None => out
  end.

Definition extract_mcp_list_identifiers (frame : Json) (out : list string) : list string :=
  match member frame "result" with
  | None => out
  | Some result =>
      let out := push_content_identifiers result out in
      let out := push_array_string_field result "resources" "uri" out in
      let out := push_array_string_field result "roots" "uri" out in
      push_array_string_field result "files" "path" out
  end.

(** [extract_paths_from_response], on the parsed line. *)
Definition extract_paths_from_response (frame : option Json) : list string :=
  match frame with
  | None => []
  | Some v => take MAX_KNOWN_PATHS (extract_mcp_list_identifiers v [])
  end.

Fixpoint extract_rules (frame : Json) (rules : list DeputyRule) (out : list string) : list string :=
  match rules with
  | [] => out
  | rule :: rest =>
      let out' :=
        match rule with
        | RShape McpListResult => extract_mcp_list_identifiers frame out
        | RShape FsTargets => out
        | RPointer p => out ++ po_values (resolve p frame)
        end in
      if (MAX_KNOWN_PATHS <=? length out')%nat then out' else extract_rules frame rest out'
  end.

Definition extract_paths_for_pending (frame : Json) (rules : list DeputyRule) : list string :=
  take MAX_KNOWN_PATHS (extract_rules frame rules []).

(** ** The pointer against its unbounded reading *)

(** Every node a pointer reaches, and every string it reads there. *)
Fixpoint full_walk (segments : list string) (current : list Json) : list Json :=
  match segments with
  | [] => current
  | seg :: rest => full_walk rest (current ≫= λ v, reach v seg)
  end.

Definition leaf_values (split_lines : bool) (v : Json) : list string :=
  match to_unquoted_string_str v with
  | None => []
  | Some text => if split_lines then leaf_lines text else [text]
  end.

Definition full_values (p : ExtractPointer) (root : Json) : list string :=
  full_walk (ptr_segments p) [root] ≫= leaf_values (split_lines p).

Lemma bind_prefix {A B} (f : A → list B) l1 l2 : l1 `prefix_of` l2 → (l1 ≫= f) `prefix_of` (l2 ≫= f).
Proof. intros [k ->]. rewrite bind_app. by apply prefix_app_r. Qed.

Lemma expand_level_spec seg current : ∀ next, (length next ≤ MAX_EXTRACT_VALUES)%nat →
  let full := next ++ (current ≫= λ v, reach v seg) in
  expand_level current seg next
  = (take MAX_EXTRACT_VALUES full, (MAX_EXTRACT_VALUES <? length full)%nat).
Proof.
  induction current as [|v rest IH]; intros next Hn; cbn [expand_level mbind list_bind].
  - rewrite app_nil_r, take_ge by done. f_equal. symmetry. by apply Nat.ltb_ge.
  - set (remaining := (MAX_EXTRACT_VALUES + 1 - length next)%nat). unfold expand_segment.
    assert (0 < remaining)%nat by (unfold remaining; lia).
    rewrite (proj2 (Nat.eqb_neq remaining 0)) by lia. cbn [orb]. cbv zeta.
    destruct (decide (length (next ++ reach v seg) ≤ MAX_EXTRACT_VALUES)%nat) as [Hfit|Hover].
    + rewrite length_app in Hfit.
      assert (length (reach v seg) ≤ remaining)%nat by (unfold remaining; lia).
      rewrite take_ge by done. rewrite (proj2 (Nat.ltb_ge remaining _)) by done.
      rewrite (proj2 (Nat.ltb_ge MAX_EXTRACT_VALUES _)) by (rewrite length_app; lia). cbn [orb].
      rewrite IH by (rewrite length_app; lia). by rewrite <- (assoc_L (++)).
    + rewrite length_app in Hover.
      assert (Hlen : (MAX_EXTRACT_VALUES < length (next ++ take remaining (reach v seg)))%nat)
        by (rewrite length_app, length_take; unfold remaining; lia).
      rewrite (proj2 (Nat.ltb_lt MAX_EXTRACT_VALUES (length (next ++ _)))) by done.
      rewrite orb_true_r. f_equal.
      * rewrite !take_app, take_take. rewrite Nat.min_l by (unfold remaining; lia). f_equal.
        replace (_ - length (reach v seg))%nat with 0%nat by lia. by rewrite take_0, app_nil_r.
      * symmetry. apply Nat.ltb_lt. rewrite !length_app. lia.
Qed.

Lemma full_walk_nil segments : full_walk segments [] = [].
Proof. induction segments as [|seg rest IH]; [done|]. apply IH. Qed.

(** The bounded walk reaches an initial part of what the pointer reaches, all
    of it when nothing overflowed. *)
Lemma walk_spec segments : ∀ current full, current `prefix_of` full →
  (walk segments current).1 `prefix_of` full_walk segments full
  ∧ ((walk segments current).2 = false → current = full →
     (walk segments current).1 = full_walk segments full).
Proof.
  induction segments as [|seg rest IH]; intros current full Hp; [done|]. cbn [walk full_walk].
  rewrite expand_level_spec by (simpl; lia). rewrite app_nil_l. cbv zeta.
  set (all := current ≫= λ v, reach v seg).
  assert (Hall : take MAX_EXTRACT_VALUES all `prefix_of` (full ≫= λ v, reach v seg)).
  { etrans; [apply prefix_take|]. by apply bind_prefix. }
  specialize (IH _ _ Hall) as [IHp IHe]. case_bool_decide as He.
  - split; [apply prefix_nil|]. cbn [snd fst]. intros Hlt%Nat.ltb_ge <-.
    rewrite take_ge in He by done. fold all. by rewrite He, full_walk_nil.
  - destruct (walk rest (take MAX_EXTRACT_VALUES all)) as [leaves over']. cbn [fst snd] in *.
    split; [done|]. intros [Hlt%Nat.ltb_ge Ho]%orb_false_iff <-.
    apply IHe; [done|]. by apply take_ge.
Qed.

Lemma push_lines_spec ls : ∀ out,
  let '(r, cut) := push_lines ls out in
  r `prefix_of` out ++ ls ∧ out `prefix_of` r ∧ (cut = false → r = out ++ ls).
Proof.
  induction ls as [|l rest IH]; intros out; cbn [push_lines]; [by rewrite app_nil_r|].
  destruct (_ || _); [repeat split; [by apply prefix_app_r|done|done]|].
  specialize (IH (out ++ [l])). rewrite <- (assoc_L (++)) in IH. simpl in IH.
  destruct (push_lines rest (out ++ [l])) as [r cut]. destruct IH as (? & Ho & ?).
  repeat split; [done| |done]. etrans; [|done]. by apply prefix_app_r.
Qed.

Lemma collect_spec sl leaves : ∀ out,
  let '(r, cut) := collect sl leaves out in
  r `prefix_of` out ++ (leaves ≫= leaf_values sl)
  ∧ (cut = false → r = out ++ (leaves ≫= leaf_values sl)).
Proof.
  induction leaves as [|v rest IH]; intros out; cbn [collect mbind list_bind].
  { by rewrite app_nil_r. }
  unfold leaf_values at 1 3. destruct (to_unquoted_string_str v) as [text|]; [|apply IH].
  destruct sl.
  - pose proof (push_lines_spec (leaf_lines text) out) as Hl.
    destruct (push_lines (leaf_lines text) out) as [out' cut]. destruct Hl as (Hp & _ & He).
    rewrite (assoc_L (++)). destruct cut.
    + split; [|done]. by apply prefix_app_r.
    + rewrite He by done. apply IH.
  - destruct (_ <? _)%nat; [split; [by apply prefix_app_r|done]|]. rewrite (assoc_L (++)). apply IH.
Qed.

(** A pointer reads, within its bounds, exactly what it names: the values
    are always an initial part of the strings at the locations the pointer
    reaches, and unless the outcome is marked truncated they are all of them,
    so a use-role call that is not refused for truncation has had every path
    it names checked. *)
Lemma pointer_outcome_exact p root :
  po_values (resolve p root) `prefix_of` full_values p root
  ∧ (po_truncated (resolve p root) = false → po_values (resolve p root) = full_values p root).
Proof.
  unfold resolve, full_values.
  pose proof (walk_spec (ptr_segments p) [root] [root] (reflexivity _)) as [Hp He].
  destruct (walk (ptr_segments p) [root]) as [leaves over]. cbn [fst snd] in *.
  pose proof (collect_spec (split_lines p) leaves []) as Hc.
  destruct (collect (split_lines p) leaves []) as [values cut]. cbn in *. destruct Hc as [Hv Hx].
  split.
  - etrans; [done|]. by apply bind_prefix.
  - intros [Ho Hk]%orb_false_iff. rewrite Hx, He by done. done.
Qed.

(** ** Validated blocks *)

Lemma validate_rules_ok role rules : ∀ seen, validate_rules role seen rules = Ok () →
  NoDup rules ∧ (∀ r, r ∈ rules → r ∉ seen)
  ∧ Forall (λ r, match r with
                 | RShape s => role ≠ NoRole → KnownShape_role s = role
                 | RPointer p => ∀ root, pointer_root role = Some root → root_segment p = root
                 end) rules.
Proof.
  induction rules as [|r rest IH]; intros seen; cbn [validate_rules].
  { intros _. repeat split; [constructor|set_solver|constructor]. }
  intros H. destruct (match role, r with
    | Discover, RShape FsTargets => _ | _, _ => _ end) as [[]|] eqn:E in H; [|done]. cbn in H.
  case_bool_decide; [done|]. destruct (IH _ H) as (Hnd & Hseen & Hall).
  repeat split.
  - constructor; [|done]. intros Hin. apply (Hseen _ Hin). left.
  - intros x [->|Hx]%elem_of_cons; [done|]. intros Hs. apply (Hseen _ Hx). by right.
  - constructor; [|done]. destruct role, r as [p|[]]; cbn in E |- *; try done;
      destruct (String.eqb_spec (root_segment p) "result"),
               (String.eqb_spec (root_segment p) "params"); simplify_eq; intros ? [= <-]; done.
Qed.
