(* ===== verification/Session.v ===== *)
(** * Session: the process-local session state of the auditor

    [src/src/auditor/session.rs]: the paths a session has discovered, the
    discovery calls and the tool calls in flight, and the markers the
    trajectory rules are matched against.  Byte budgets are integers, compared
    the way the code compares them ([saturating_add] on [usize]); the maps are
    finite maps keyed by canonical ids.  [normalize_fs_argument] is a parameter
    here; the path normalisation of [src/src/pathutil.rs] instantiates it.
    Error values are the code's messages.  [SessionManager] is not used by the
    proxy and keeps nothing but a map of sessions. *)

From S2P Require Import Prelude Text Percent RpcId Deputy.

Open Scope Z_scope.

(** ** Side effects and trajectory rules *)

Inductive SideEffect := ReadOnly | Write | Network | Execute.

#[export] Instance SideEffect_eq_dec : EqDecision SideEffect.
Proof. solve_decision. Defined.
#[export] Instance SideEffect_countable : Countable SideEffect.
Proof.
  apply (inj_countable (λ s, match s with ReadOnly => 0 | Write => 1 | Network => 2 | Execute => 3 end)
    (λ n, match n with 0 => Some ReadOnly | 1 => Some Write | 2 => Some Network | 3 => Some Execute
          | _ => None end)).
  by intros [].
Defined.

Definition SideEffect_parse (value : string) : result SideEffect string :=
  str_match value
    [(["read_only"], Ok ReadOnly); (["write"], Ok Write); (["network"], Ok Network);
     (["execute"], Ok Execute)]
    (Err ("unknown side_effect '" +:+ value +:+ "', expected read_only|write|network|execute")).

Definition SideEffect_as_str (s : SideEffect) : string :=
  match s with
  | ReadOnly => "read_only"
  | Write => "write"
  | Network => "network"
  | Execute => "execute"
  end.

Record TrajectoryRule := mkTrajectory { after_side_effect : SideEffect; deny_next : SideEffect }.

(** ** State *)

Record PendingList := mkPendingList { pl_tool : string; pl_rules : list DeputyRule }.
Record PendingToolCall := mkPendingCall { tool_name : string; side_effect : option SideEffect }.

Record SessionState := mkSession {
  known_paths : gset string;
  pending_list_requests : gmap RpcId PendingList;
  known_path_bytes : Z;
  pending_id_bytes : Z;
  last_successful_side_effect : option SideEffect;
  last_successful_tool : option string;
  unverified_tool_calls : gmap RpcId PendingToolCall;
  unverified_id_bytes : Z;
  unverified_overflow_effects : gset SideEffect;
  unverified_untrusted : bool;
  pending_tool_calls : gmap RpcId PendingToolCall;
  pending_tool_id_bytes : Z;
}.

Definition MAX_KNOWN_PATH_BYTES : Z := 1048576.
Definition MAX_PENDING_LISTS : nat := 128.
Definition MAX_PENDING_ID_BYTES : Z := 65536.
Definition MAX_PENDING_TOOL_CALLS : nat := 128.
Definition MAX_UNVERIFIED_TOOL_CALLS : nat := 256.
Definition MAX_UNVERIFIED_ID_BYTES : Z := 65536.

(** [usize::saturating_add] and [saturating_sub]. *)
Definition USIZE_MAX : Z := 18446744073709551615.
Definition saturating_add (a b : Z) : Z := Z.min (a + b) USIZE_MAX.
Definition saturating_sub (a b : Z) : Z := Z.max (a - b) 0.

Definition session_new : SessionState :=
  mkSession ∅ ∅ 0 0 None None ∅ 0 ∅ false ∅ 0.

(** Field updates. *)
Definition set_known (s : SessionState) (p : gset string) (b : Z) : SessionState :=
  mkSession p (pending_list_requests s) b (pending_id_bytes s) (last_successful_side_effect s)
    (last_successful_tool s) (unverified_tool_calls s) (unverified_id_bytes s)
    (unverified_overflow_effects s) (unverified_untrusted s) (pending_tool_calls s)
    (pending_tool_id_bytes s).
Definition set_lists (s : SessionState) (m : gmap RpcId PendingList) (b : Z) : SessionState :=
  mkSession (known_paths s) m (known_path_bytes s) b (last_successful_side_effect s)
    (last_successful_tool s) (unverified_tool_calls s) (unverified_id_bytes s)
    (unverified_overflow_effects s) (unverified_untrusted s) (pending_tool_calls s)
    (pending_tool_id_bytes s).
Definition set_calls (s : SessionState) (m : gmap RpcId PendingToolCall) (b : Z) : SessionState :=
  mkSession (known_paths s) (pending_list_requests s) (known_path_bytes s) (pending_id_bytes s)
    (last_successful_side_effect s) (last_successful_tool s) (unverified_tool_calls s)
    (unverified_id_bytes s) (unverified_overflow_effects s) (unverified_untrusted s) m b.
Definition set_unverified (s : SessionState) (m : gmap RpcId PendingToolCall) (b : Z) : SessionState :=
  mkSession (known_paths s) (pending_list_requests s) (known_path_bytes s) (pending_id_bytes s)
    (last_successful_side_effect s) (last_successful_tool s) m b
    (unverified_overflow_effects s) (unverified_untrusted s) (pending_tool_calls s)
    (pending_tool_id_bytes s).
Definition set_overflow (s : SessionState) (e : gset SideEffect) : SessionState :=
  mkSession (known_paths s) (pending_list_requests s) (known_path_bytes s) (pending_id_bytes s)
    (last_successful_side_effect s) (last_successful_tool s) (unverified_tool_calls s)
    (unverified_id_bytes s) e true (pending_tool_calls s) (pending_tool_id_bytes s).
Definition set_marker (s : SessionState) (tool : string) (se : option SideEffect) : SessionState :=
  mkSession (known_paths s) (pending_list_requests s) (known_path_bytes s) (pending_id_bytes s)
    se (Some tool) (unverified_tool_calls s) (unverified_id_bytes s)
    (unverified_overflow_effects s) (unverified_untrusted s) (pending_tool_calls s)
    (pending_tool_id_bytes s).

(** ** Discovery calls *)

Definition record_pending_list (s : SessionState) (request_id : RpcId) (tool : string)
    (rules : list DeputyRule) : result SessionState string :=
  if bool_decide (request_id = RNull) then Err "JSON-RPC id must not be null"
  else if bool_decide (is_Some (pending_list_requests s !! request_id))
  then Err "duplicate in-flight JSON-RPC id"
  else if (MAX_PENDING_LISTS <=? size (pending_list_requests s))%nat
  then Err "too many pending list requests"
  else
    let id_bytes := rpc_id_bytes request_id in
    if MAX_PENDING_ID_BYTES <? saturating_add (pending_id_bytes s) id_bytes
    then Err "pending list id budget exceeded"
    else Ok (set_lists s (<[request_id := mkPendingList tool rules]> (pending_list_requests s))
               (pending_id_bytes s + id_bytes)).

Definition take_pending_list (s : SessionState) (request_id : RpcId)
  : SessionState * option PendingList :=
  match pending_list_requests s !! request_id with
  | None => (s, None)
  | Some pending =>
      (set_lists s (delete request_id (pending_list_requests s))
         (saturating_sub (pending_id_bytes s) (rpc_id_bytes request_id)), Some pending)
  end.

(** ** Discovered paths *)

Section paths.
Context (normalize_fs_argument : string → result string string).

Fixpoint record_paths (s : SessionState) (paths : list string) : SessionState :=
  match paths with
  | [] => s
  | path :: rest =>
      if (MAX_KNOWN_PATHS <=? size (known_paths s))%nat then s
      else
        match normalize_fs_argument (trim path) with
        | Err _ => record_paths s rest
        | Ok normalized =>
            if is_empty normalized || (MAX_PATH_BYTES <? String.length normalized)%nat
            then record_paths s rest
            else if MAX_KNOWN_PATH_BYTES <? saturating_add (known_path_bytes s) (len normalized)
            then s
            else if bool_decide (normalized ∈ known_paths s) then record_paths s rest
            else record_paths
                   (set_known s ({[normalized]} ∪ known_paths s)
                      (known_path_bytes s + len normalized)) rest
        end
  end.
End paths.

(** A literal [../] or [..\]. *)
Definition has_traversal (s : string) : bool :=
  contains_str "../" s || contains_str "..\" s.

Definition check_access (s : SessionState) (path : string) : result unit string :=
  if has_traversal path then Err ("path traversal detected in '" +:+ path +:+ "'")
  else
    let lower := to_ascii_lowercase path in
    let decoded_once := percent_decode_once lower in
    let decoded_twice := percent_decode_once decoded_once in
    if contains "%" lower && has_traversal decoded_once
    then Err ("URL-encoded path traversal detected in '" +:+ path +:+ "'")
    else if contains "%" lower && contains "%" decoded_once && has_traversal decoded_twice
    then Err ("double URL-encoded path traversal detected in '" +:+ path +:+ "'")
    else if negb (bool_decide (path ∈ known_paths s))
    then Err ("path '" +:+ path +:+ "' was not discovered by a discovery-role tool call")
    else Ok ().

Definition known_path_count (s : SessionState) : nat := size (known_paths s).

(** ** Tool calls in flight *)

(** The bytes an entry retains: its id and its tool name. *)
Definition call_bytes (id : RpcId) (tool : string) : Z := saturating_add (rpc_id_bytes id) (len tool).

Definition record_pending_tool_call (s : SessionState) (request_id : RpcId) (tool : string)
    (se : option SideEffect) : result SessionState string :=
  if bool_decide (request_id = RNull) then Err "JSON-RPC id must not be null"
  else if bool_decide (is_Some (pending_tool_calls s !! request_id))
  then Err "duplicate in-flight JSON-RPC id"
  else if (MAX_PENDING_TOOL_CALLS <=? size (pending_tool_calls s))%nat
  then Err "too many pending tool calls"
  else
    let entry_bytes := call_bytes request_id tool in
    if MAX_PENDING_ID_BYTES <? saturating_add (pending_tool_id_bytes s) entry_bytes
    then Err "pending tool-call id budget exceeded"
    else Ok (set_calls s (<[request_id := mkPendingCall tool se]> (pending_tool_calls s))
               (pending_tool_id_bytes s + entry_bytes)).

Definition remove_pending_tool_call (s : SessionState) (request_id : RpcId)
  : SessionState * option PendingToolCall :=
  match pending_tool_calls s !! request_id with
  | None => (s, None)
  | Some pending =>
      (set_calls s (delete request_id (pending_tool_calls s))
         (saturating_sub (pending_tool_id_bytes s)
            (rpc_id_bytes request_id + len (tool_name pending))), Some pending)
  end.

Definition take_unverified (s : SessionState) (request_id : RpcId)
  : SessionState * option PendingToolCall :=
  match unverified_tool_calls s !! request_id with
  | None => (s, None)
  | Some tombstone =>
      (set_unverified s (delete request_id (unverified_tool_calls s))
         (saturating_sub (unverified_id_bytes s)
            (rpc_id_bytes request_id + len (tool_name tombstone))), Some tombstone)
  end.

Definition record_verified_success (s : SessionState) (tool : string) (se : option SideEffect)
  : SessionState := set_marker s tool se.

Definition record_successful_tool_call (s : SessionState) (tool : string) (se : option SideEffect)
  : SessionState := record_verified_success s tool se.

Definition complete_pending_tool_call (s : SessionState) (request_id : RpcId) (succeeded : bool)
  : SessionState :=
  match remove_pending_tool_call s request_id with
  | (s', Some pending) =>
      if succeeded then record_verified_success s' (tool_name pending) (side_effect pending) else s'
  | (s', None) =>
      match take_unverified s' request_id with
      | (s'', Some tombstone) =>
          if succeeded
          then record_verified_success s'' (tool_name tombstone) (side_effect tombstone) else s''
      | (s'', None) => s''
      end
  end.

Definition release_pending_tool_call_unverified (s : SessionState) (request_id : RpcId)
  : SessionState :=
  match remove_pending_tool_call s request_id with
  | (s', None) => s'
  | (s', Some pending) =>
      let entry_bytes := call_bytes request_id (tool_name pending) in
      if (MAX_UNVERIFIED_TOOL_CALLS <=? size (unverified_tool_calls s'))%nat
         || (MAX_UNVERIFIED_ID_BYTES <? saturating_add (unverified_id_bytes s') entry_bytes)
      then set_overflow s'
             match side_effect pending with
             | Some se => {[se]} ∪ unverified_overflow_effects s'
             | None => unverified_overflow_effects s'
             end
      else set_unverified s' (<[request_id := pending]> (unverified_tool_calls s'))
             (unverified_id_bytes s' + entry_bytes)
  end.

(** ** Trajectory *)

(** The side effects of the calls released without a verdict. *)
Definition unverified_effects (s : SessionState) : list SideEffect :=
  omap (λ c, side_effect c.2) (map_to_list (unverified_tool_calls s))
  ++ elements (unverified_overflow_effects s).

Definition same_tool_only (s : SessionState) (next_tool : string) : bool :=
  is_none_or (last_successful_tool s) (String.eqb next_tool)
  && negb (unverified_untrusted s)
  && forallb (λ c, String.eqb (tool_name c.2) next_tool) (map_to_list (unverified_tool_calls s)).

Definition matches_after (s : SessionState) (rule : TrajectoryRule) : bool :=
  bool_decide (last_successful_side_effect s = Some (after_side_effect rule))
  || bool_decide (after_side_effect rule ∈ unverified_effects s).

Definition denies_next (rule : TrajectoryRule) (next : option SideEffect) (has_host_or_url : bool)
  : bool :=
  match deny_next rule with
  | Network => bool_decide (next = Some Network) || has_host_or_url
  | se => bool_decide (next = Some se)
  end.

Fixpoint trajectory_loop (s : SessionState) (rules : list TrajectoryRule) (next : option SideEffect)
    (has_host_or_url : bool) : result unit string :=
  match rules with
  | [] => Ok ()
  | rule :: rest =>
      if negb (matches_after s rule) then trajectory_loop s rest next has_host_or_url
      else if denies_next rule next has_host_or_url
      then Err ("trajectory: after side_effect=" +:+ dquote
                +:+ SideEffect_as_str (after_side_effect rule) +:+ dquote +:+ " deny-next="
                +:+ dquote +:+ SideEffect_as_str (deny_next rule) +:+ dquote)
      else trajectory_loop s rest next has_host_or_url
  end.

Definition check_trajectory (s : SessionState) (rules : list TrajectoryRule) (next_tool : string)
    (next : option SideEffect) (has_host_or_url : bool) : result unit string :=
  if bool_decide (last_successful_side_effect s = None) && bool_decide (unverified_effects s = [])
  then Ok ()
  else if same_tool_only s next_tool
          && negb (has_host_or_url && bool_decide (next ≠ Some Network))
  then Ok ()
  else trajectory_loop s rules next has_host_or_url.
