(* ===== verification/SessionGate.v ===== *)
(** * SessionGate: the gates around a tool call

    How the relay uses the session: the gates before a [tools/call] is
    forwarded, the updates after its response, and the events of a session;
    and that the state stays within its budgets under every sequence of them. *)

From S2P Require Import Prelude Text RpcId Json Deputy Session Percent.

(** ** Policy and events *)

Record SessionPolicy := mkSessionPolicy {
  sp_trajectory : bool;
  sp_trajectory_rules : list TrajectoryRule;
  sp_confused_deputy : bool;
  sp_tools : list ToolDeputy;
}.

(** A [tools/call] request as the gates see it. *)
Record ToolCall := mkToolCall {
  tc_id : RpcId;
  tc_tool : option string;
  tc_side_effect : option SideEffect;
  tc_has_host : bool;
  tc_use_targets : list DeputyRule → result (list string) string;
}.

Fixpoint check_all (s : SessionState) (paths : list string) : result unit string :=
  match paths with
  | [] => Ok ()
  | p :: rest => (_ ←? check_access s p; check_all s rest)%result
  end.

Definition deputy_err {A} (r : result A string) : result A string :=
  match r with
  | Ok a => Ok a
  | Err e => Err ("confused deputy: " +:+ e)
  end.

Definition apply_confused_deputy_c2s (pol : SessionPolicy) (s : SessionState) (c : ToolCall)
  : result SessionState string :=
  if negb (sp_confused_deputy pol) then Ok s
  else
    match tc_tool c with
    | None => Ok s
    | Some tool =>
        match deputy_binding (sp_tools pol) tool with
        | BNone => Ok s
        | BDiscover rules =>
            if bool_decide (tc_id c = RNull)
            then Err "confused deputy: JSON-RPC id must not be null"
            else deputy_err (record_pending_list s (tc_id c) tool rules)
        | BUse rules =>
            (paths ←? deputy_err (tc_use_targets c rules);
             if bool_decide (paths = [])
             then Err ("confused deputy: tool '" +:+ tool +:+ "' is missing a resolvable path target")
             else _ ←? deputy_err (check_all s paths); Ok s)%result
        end
    end.

(** The state after the gates, and their verdict. *)
Definition apply_session_gates (pol : SessionPolicy) (s : SessionState) (c : ToolCall)
  : SessionState * result unit string :=
  let tool := default "<unknown>" (tc_tool c) in
  match (if sp_trajectory pol
         then check_trajectory s (sp_trajectory_rules pol) tool (tc_side_effect c) (tc_has_host c)
         else Ok ()) with
  | Err e => (s, Err e)
  | Ok _ =>
      match apply_confused_deputy_c2s pol s c with
      | Err e => (s, Err e)
      | Ok s1 =>
          if sp_trajectory pol then
            match record_pending_tool_call s1 (tc_id c) tool (tc_side_effect c) with
            | Ok s2 => (s2, Ok ())
            | Err e => ((take_pending_list s1 (tc_id c)).1, Err ("trajectory: " +:+ e))
            end
          else (s1, Ok ())
      end
  end.

(** A call that is not forwarded: refused by a gate (outside dry-run), not
    advertised, not registered, or not written. *)
Definition unwind_call (s : SessionState) (id : RpcId) : SessionState :=
  complete_pending_tool_call (take_pending_list s id).1 id false.

(** A forwarded cancel, or a response the policy refused to relay. *)
Definition release_call (s : SessionState) (id : RpcId) : SessionState :=
  release_pending_tool_call_unverified (take_pending_list s id).1 id.

Section response.
Context (normalize_fs_argument : string → result string string).

(** A forwarded response to a [tools/call]. *)
Definition apply_response_session_updates (pol : SessionPolicy) (s : SessionState) (id : RpcId)
    (frame : Json) (succeeded : bool) : SessionState :=
  if bool_decide (id = RNull) then s
  else
    let '(s1, pending) := take_pending_list s id in
    let s2 :=
      match pending with
      | Some p =>
          if succeeded
          then record_paths normalize_fs_argument s1 (extract_paths_for_pending frame (pl_rules p))
          else s1
      | None => s1
      end in
    if sp_trajectory pol then complete_pending_tool_call s2 id succeeded else s2.

(** ** Events *)

Inductive SessionEvent :=
  | EvCall (c : ToolCall) (dry_run forwarded : bool)
  | EvResponse (id : RpcId) (frame : Json) (succeeded : bool)
  | EvRelease (id : RpcId).

(** A call passes the gates and is forwarded, or is unwound; in dry-run a call
    a gate refused is forwarded all the same. *)
Definition session_step (pol : SessionPolicy) (s : SessionState) (e : SessionEvent) : SessionState :=
  match e with
  | EvCall c dry_run forwarded =>
      match apply_session_gates pol s c with
      | (s', Ok _) => if forwarded then s' else unwind_call s' (tc_id c)
      | (s', Err _) => if dry_run then s' else unwind_call s' (tc_id c)
      end
  | EvResponse id frame succeeded => apply_response_session_updates pol s id frame succeeded
  | EvRelease id => release_call s id
  end.

Definition session_run (pol : SessionPolicy) (es : list SessionEvent) : SessionState :=
  foldl (session_step pol) session_new es.
End response.

(** ** The abstract history *)

(** The calls in flight, the calls released without a verdict and still
    unresolved, and the last call that is known to have succeeded. *)
Record History := mkHistory {
  h_pending : gmap RpcId PendingToolCall;
  h_open : gmap RpcId PendingToolCall;
  h_last : option PendingToolCall;
}.

Definition history_new : History := mkHistory ∅ ∅ None.

Definition history_forward (h : History) (id : RpcId) (c : PendingToolCall) : History :=
  mkHistory (<[id := c]> (h_pending h)) (h_open h) (h_last h).

Definition history_response (h : History) (id : RpcId) (succeeded : bool) : History :=
  match h_pending h !! id, h_open h !! id with
  | Some c, _ =>
      mkHistory (delete id (h_pending h)) (h_open h) (if succeeded then Some c else h_last h)
  | None, Some c =>
      mkHistory (h_pending h) (delete id (h_open h)) (if succeeded then Some c else h_last h)
  | None, None => h
  end.

Definition history_release (h : History) (id : RpcId) : History :=
  match h_pending h !! id with
  | Some c => mkHistory (delete id (h_pending h)) (<[id := c]> (h_open h)) (h_last h)
  | None => h
  end.

(** The calls that may be the last one executed. *)
Definition candidate (h : History) (c : PendingToolCall) : Prop :=
  h_last h = Some c ∨ ∃ id, h_open h !! id = Some c.

(** A rule forbids the next call: some candidate has the side effect the rule
    is about, and either the call is cross-tool or it smuggles a host into a
    tool that is not a network tool. *)
Definition forbidden (h : History) (rules : list TrajectoryRule) (next_tool : string)
    (next : option SideEffect) (has_host : bool) : Prop :=
  ∃ rule, rule ∈ rules ∧ denies_next rule next has_host = true
    ∧ (∃ c, candidate h c ∧ side_effect c = Some (after_side_effect rule))
    ∧ ((∃ c, candidate h c ∧ tool_name c ≠ next_tool) ∨ (has_host = true ∧ next ≠ Some Network)).

(** What an event adds to the history.  A call counts once it is in flight: a
    call that a gate refuses, or that is not forwarded, leaves no trace. *)
Definition history_step (pol : SessionPolicy) (s : SessionState) (h : History) (e : SessionEvent)
  : History :=
  match e with
  | EvCall c _ forwarded =>
      if is_ok (apply_session_gates pol s c).2 && forwarded
      then history_forward h (tc_id c) (mkPendingCall (default "<unknown>" (tc_tool c)) (tc_side_effect c))
      else h
  | EvResponse id _ succeeded => if bool_decide (id = RNull) then h else history_response h id succeeded
  | EvRelease id => history_release h id
  end.

(** The id of a new call is neither in flight nor that of a released call whose
    own answer is outstanding. *)
Definition fresh_call (h : History) (e : SessionEvent) : Prop :=
  match e with
  | EvCall c _ _ => h_pending h !! tc_id c = None ∧ h_open h !! tc_id c = None
  | _ => True
  end.

Section history_run.
Context (normalize_fs_argument : string → result string string) (pol : SessionPolicy).

Fixpoint history_run (s : SessionState) (h : History) (es : list SessionEvent)
  : SessionState * History :=
  match es with
  | [] => (s, h)
  | e :: rest => history_run (session_step normalize_fs_argument pol s e) (history_step pol s h e) rest
  end.

Fixpoint fresh_calls (s : SessionState) (h : History) (es : list SessionEvent) : Prop :=
  match es with
  | [] => True
  | e :: rest =>
      fresh_call h e
      ∧ fresh_calls (session_step normalize_fs_argument pol s e) (history_step pol s h e) rest
  end.
End history_run.

Open Scope Z_scope.

(** ** Budgets *)

Definition list_entry_bytes (e : RpcId * PendingList) : Z := rpc_id_bytes e.1.
Definition call_entry_bytes (e : RpcId * PendingToolCall) : Z :=
  rpc_id_bytes e.1 + len (tool_name e.2).

Lemma rpc_id_bytes_nonneg i : 0 ≤ rpc_id_bytes i.
Proof. destruct i; simpl; try apply len_nonneg. lia. Qed.

Lemma list_entry_nonneg e : 0 ≤ list_entry_bytes e.
Proof. apply rpc_id_bytes_nonneg. Qed.

Lemma call_entry_nonneg e : 0 ≤ call_entry_bytes e.
Proof. unfold call_entry_bytes. pose proof (rpc_id_bytes_nonneg e.1). pose proof (len_nonneg (tool_name e.2)). lia. Qed.

(** Counts and bytes of a session. *)
Record within_budgets (s : SessionState) : Prop := mkWithin {
  wb_paths : (size (known_paths s) ≤ MAX_KNOWN_PATHS)%nat;
  wb_path_bytes : known_path_bytes s = sum_of len (elements (known_paths s));
  wb_path_budget : known_path_bytes s ≤ MAX_KNOWN_PATH_BYTES;
  wb_lists : (size (pending_list_requests s) ≤ MAX_PENDING_LISTS)%nat;
  wb_list_bytes : pending_id_bytes s = map_sum list_entry_bytes (pending_list_requests s);
  wb_list_budget : pending_id_bytes s ≤ MAX_PENDING_ID_BYTES;
  wb_calls : (size (pending_tool_calls s) ≤ MAX_PENDING_TOOL_CALLS)%nat;
  wb_call_bytes : pending_tool_id_bytes s = map_sum call_entry_bytes (pending_tool_calls s);
  wb_call_budget : pending_tool_id_bytes s ≤ MAX_PENDING_ID_BYTES;
  wb_tombs : (size (unverified_tool_calls s) ≤ MAX_UNVERIFIED_TOOL_CALLS)%nat;
  wb_tomb_bytes : map_sum call_entry_bytes (unverified_tool_calls s) ≤ unverified_id_bytes s;
  wb_tomb_budget : unverified_id_bytes s ≤ MAX_UNVERIFIED_ID_BYTES;
  wb_null : pending_list_requests s !! RNull = None ∧ pending_tool_calls s !! RNull = None;
}.

(** Budgets are far below the width of [usize]: what is accepted did not
    saturate. *)
Lemma within_budget a b max : max < USIZE_MAX → (max <? saturating_add a b) = false → a + b ≤ max.
Proof. unfold saturating_add. intros Hm H%Z.ltb_ge. lia. Qed.

Lemma call_bytes_exact id tool max : max < USIZE_MAX → call_bytes id tool ≤ max →
  call_bytes id tool = rpc_id_bytes id + len tool.
Proof. unfold call_bytes, saturating_add. lia. Qed.

Lemma saturating_sub_exact a b : b ≤ a → saturating_sub a b = a - b.
Proof. unfold saturating_sub. lia. Qed.

Lemma session_new_ok : within_budgets session_new.
Proof. by constructor; try (vm_compute; (done || lia)). Qed.

(** An update of one component leaves the others within their budgets. *)
Ltac keep_budgets := constructor; cbn; try done.

Lemma record_pending_list_ok s id tool rules s' : within_budgets s →
  record_pending_list s id tool rules = Ok s' → within_budgets s'.
Proof.
  intros [] H. unfold record_pending_list in H. do 2 (case_bool_decide; [done|]).
  destruct (_ <=? _)%nat eqn:Hn in H; [done|]. destruct (_ <? _) eqn:Hb in H; [done|].
  apply Nat.leb_gt in Hn. apply within_budget in Hb; [|done]. simplify_eq/=.
  assert (pending_list_requests s !! id = None) as Hid by (by apply eq_None_not_Some).
  keep_budgets.
  - rewrite map_size_insert_None by done. lia.
  - rewrite map_sum_insert by done. unfold list_entry_bytes at 1. simpl. lia.
  - split; [|tauto]. rewrite lookup_insert_ne by done. tauto.
Qed.

Lemma take_pending_list_ok s id : within_budgets s → within_budgets (take_pending_list s id).1.
Proof.
  intros []. unfold take_pending_list. destruct (pending_list_requests s !! id) as [p|] eqn:E; [|done].
  pose proof (map_sum_delete list_entry_bytes _ _ _ E) as Hd. unfold list_entry_bytes at 2 in Hd.
  pose proof (map_sum_nonneg list_entry_bytes (delete id (pending_list_requests s)) list_entry_nonneg).
  simpl in Hd. pose proof (rpc_id_bytes_nonneg id).
  keep_budgets.
  - rewrite map_size_delete_Some by eauto. lia.
  - rewrite saturating_sub_exact by lia. lia.
  - rewrite saturating_sub_exact by lia. lia.
  - split; [|tauto]. apply lookup_delete_None. tauto.
Qed.

Lemma record_paths_ok norm paths : ∀ s, within_budgets s → within_budgets (record_paths norm s paths).
Proof.
  induction paths as [|p rest IH]; intros s Hs; cbn [record_paths]; [done|].
  destruct (_ <=? _)%nat eqn:Hn; [done|]. apply Nat.leb_gt in Hn.
  destruct (norm (trim p)) as [n|]; [|auto].
  destruct (_ || _); [auto|]. destruct (_ <? _) eqn:Hb; [done|].
  apply within_budget in Hb; [|done]. case_bool_decide as Hin; [auto|]. apply IH. destruct Hs.
  keep_budgets.
  - rewrite size_union by set_solver. rewrite size_singleton. lia.
  - rewrite set_sum_union by done. lia.
Qed.

Lemma record_pending_tool_call_ok s id tool se s' : within_budgets s →
  record_pending_tool_call s id tool se = Ok s' → within_budgets s'.
Proof.
  intros [] H. unfold record_pending_tool_call in H. do 2 (case_bool_decide; [done|]).
  destruct (_ <=? _)%nat eqn:Hn in H; [done|]. destruct (_ <? _) eqn:Hb in H; [done|].
  apply Nat.leb_gt in Hn. apply within_budget in Hb; [|done].
  assert (Hp : 0 ≤ pending_tool_id_bytes s)
    by (rewrite wb_call_bytes0; apply map_sum_nonneg, call_entry_nonneg).
  rewrite (call_bytes_exact id tool MAX_PENDING_ID_BYTES) in * by (done || lia). simplify_eq/=.
  assert (pending_tool_calls s !! id = None) as Hid by (by apply eq_None_not_Some).
  keep_budgets.
  - rewrite map_size_insert_None by done. lia.
  - rewrite map_sum_insert by done. unfold call_entry_bytes at 1. simpl. lia.
  - split; [tauto|]. rewrite lookup_insert_ne by done. tauto.
Qed.

Lemma remove_pending_tool_call_ok s id : within_budgets s →
  within_budgets (remove_pending_tool_call s id).1.
Proof.
  intros []. unfold remove_pending_tool_call.
  destruct (pending_tool_calls s !! id) as [p|] eqn:E; [|done].
  pose proof (map_sum_delete call_entry_bytes _ _ _ E) as Hd. unfold call_entry_bytes at 2 in Hd.
  pose proof (map_sum_nonneg call_entry_bytes (delete id (pending_tool_calls s)) call_entry_nonneg).
  simpl in Hd. keep_budgets.
  - rewrite map_size_delete_Some by eauto. lia.
  - rewrite saturating_sub_exact by lia. lia.
  - unfold saturating_sub. pose proof (rpc_id_bytes_nonneg id). pose proof (len_nonneg (tool_name p)). lia.
  - split; [tauto|]. apply lookup_delete_None. tauto.
Qed.

Lemma take_unverified_ok s id : within_budgets s → within_budgets (take_unverified s id).1.
Proof.
  intros []. unfold take_unverified. destruct (unverified_tool_calls s !! id) as [p|] eqn:E; [|done].
  pose proof (map_sum_delete call_entry_bytes _ _ _ E) as Hd. unfold call_entry_bytes at 2 in Hd.
  pose proof (map_sum_nonneg call_entry_bytes (delete id (unverified_tool_calls s)) call_entry_nonneg).
  simpl in Hd. keep_budgets.
  - rewrite map_size_delete_Some by eauto. lia.
  - rewrite saturating_sub_exact by lia. lia.
  - unfold saturating_sub. pose proof (rpc_id_bytes_nonneg id). pose proof (len_nonneg (tool_name p)). lia.
Qed.

Lemma set_marker_ok s tool se : within_budgets s → within_budgets (set_marker s tool se).
Proof. intros []. by keep_budgets. Qed.

Lemma complete_ok s id b : within_budgets s → within_budgets (complete_pending_tool_call s id b).
Proof.
  intros Hs. unfold complete_pending_tool_call, record_verified_success.
  pose proof (remove_pending_tool_call_ok s id Hs) as H1.
  destruct (remove_pending_tool_call s id) as [s1 [p|]]; cbn in H1.
  { destruct b; [by apply set_marker_ok|done]. }
  pose proof (take_unverified_ok s1 id H1) as H2.
  destruct (take_unverified s1 id) as [s2 [p|]]; cbn in H2; [destruct b; [by apply set_marker_ok|done]|done].
Qed.

Lemma release_ok s id : within_budgets s → within_budgets (release_pending_tool_call_unverified s id).
Proof.
  intros Hs. unfold release_pending_tool_call_unverified.
  pose proof (remove_pending_tool_call_ok s id Hs) as H1.
  destruct (remove_pending_tool_call s id) as [s1 [p|]]; cbn in H1; [|done].
  destruct (_ || _) eqn:Hover; [destruct H1; by keep_budgets|].
  apply orb_false_iff in Hover as [Hn%Nat.leb_gt Hb]. apply within_budget in Hb; [|done]. destruct H1.
  pose proof (map_sum_nonneg call_entry_bytes (unverified_tool_calls s1) call_entry_nonneg).
  rewrite (call_bytes_exact id (tool_name p) MAX_UNVERIFIED_ID_BYTES) in * by (done || lia).
  keep_budgets.
  - destruct (unverified_tool_calls s1 !! id) eqn:E;
      [rewrite map_size_insert_Some by eauto; lia|rewrite map_size_insert_None by done; lia].
  - destruct (unverified_tool_calls s1 !! id) as [q|] eqn:E.
    + rewrite (map_sum_update _ _ _ _ _ E). pose proof (call_entry_nonneg (id, q)).
      unfold call_entry_bytes at 3. simpl. lia.
    + rewrite map_sum_insert by done. unfold call_entry_bytes at 1. simpl. lia.
Qed.

Lemma unwind_ok s id : within_budgets s → within_budgets (unwind_call s id).
Proof. intros Hs. by apply complete_ok, take_pending_list_ok. Qed.

Lemma gates_ok pol s c : within_budgets s → within_budgets (apply_session_gates pol s c).1.
Proof.
  intros Hs. unfold apply_session_gates.
  destruct (if sp_trajectory pol then _ else _) as [[]|]; [|done].
  destruct (apply_confused_deputy_c2s pol s c) as [s1|] eqn:E; [|done].
  assert (H1 : within_budgets s1).
  { unfold apply_confused_deputy_c2s in E.
    destruct (negb _), (tc_tool c) as [tool|]; simplify_eq; try done.
    destruct (deputy_binding _ tool) as [|rules|rules]; simplify_eq; try done.
    - case_bool_decide; [done|]. destruct (record_pending_list _ _ _ _) eqn:Er; simplify_eq/=.
      by eapply record_pending_list_ok.
    - destruct (deputy_err (tc_use_targets c rules)) as [paths|]; simplify_eq/=.
      case_bool_decide; [done|]. destruct (deputy_err (check_all s paths)); simplify_eq/=. done. }
  destruct (sp_trajectory pol); [|done].
  destruct (record_pending_tool_call _ _ _ _) eqn:Er; cbn.
  - by eapply record_pending_tool_call_ok.
  - by apply take_pending_list_ok.
Qed.

Lemma session_step_ok norm pol s e : within_budgets s → within_budgets (session_step norm pol s e).
Proof.
  intros Hs. destruct e as [c dry fwd|id frame b|id]; cbn [session_step].
  - pose proof (gates_ok pol s c Hs) as Hg.
    destruct (apply_session_gates pol s c) as [s1 [[]|]]; cbn in Hg; destruct dry, fwd; auto using unwind_ok.
  - unfold apply_response_session_updates. case_bool_decide; [done|].
    pose proof (take_pending_list_ok s id Hs) as Ht.
    destruct (take_pending_list s id) as [s1 [p|]]; cbn in Ht; destruct b, (sp_trajectory pol);
      auto using complete_ok, record_paths_ok.
  - by apply release_ok, take_pending_list_ok.
Qed.

(** [C36] Whatever the two peers send, a session holds at most 4096 discovered
    paths in 1 MiB, 128 discovery calls, 128 tool calls and 256 released calls
    in 64 KiB each; the byte counters of paths and calls in flight are the
    exact sums of what is retained, the counter of released calls never
    undercounts, and no entry is ever keyed by a null id. *)
Theorem session_within_budgets norm pol es : within_budgets (session_run norm pol es).
Proof.
  unfold session_run. generalize session_new_ok. generalize session_new.
  induction es as [|e es IH]; intros s Hs; cbn; [done|]. by apply IH, session_step_ok.
Qed.
