(* ===== verification/AccessTheorems.v ===== *)
(** * AccessTheorems: the access check of the session

    No spelling of a parent step gets past [check_access], whatever the session
    has recorded: each of the three characters may be written plainly, as a
    percent escape or as a doubly encoded escape, in any mixture and in any
    context.  And a path that passes was discovered: some successful response
    to a discovery-role call produced it. *)

From S2P Require Import Prelude Text Percent RpcId Json Deputy Session SessionGate.

Open Scope Z_scope.

(** ** Spellings *)

(** A character written plainly, escaped once, or escaped twice. *)
Inductive Spelling := Plain | Once (h l : ascii) | Twice (h l : ascii).

(** The hexadecimal digits of a spelling are those of the character. *)
Definition spells (c : ascii) (t : Spelling) : Prop :=
  match t with
  | Plain => True
  | Once h l | Twice h l =>
      ∃ hi lo, hex_val h = Some hi ∧ hex_val l = Some lo ∧ hex_byte hi lo = c
  end.

Definition spell (c : ascii) (t : Spelling) : string :=
  match t with
  | Plain => String c ""
  | Once h l => String "%" (String h (String l ""))
  | Twice h l => String "%" (String "2" (String "5" (String h (String l ""))))
  end.

(** One round of decoding. *)
Definition peel (t : Spelling) : Spelling :=
  match t with
  | Plain | Once _ _ => Plain
  | Twice h l => Once h l
  end.

Definition lower_spelling (t : Spelling) : Spelling :=
  match t with
  | Plain => Plain
  | Once h l => Once (lower h) (lower l)
  | Twice h l => Twice (lower h) (lower l)
  end.

(** The characters of a parent step. *)
Definition step_char (c : ascii) : Prop := c = "."%char ∨ c = "/"%char ∨ c = "\"%char.

Lemma hex_val_lower h v : hex_val h = Some v → hex_val (lower h) = Some v.
Proof. revert v. each_char h; intros ? [= <-]; done. Qed.

Lemma hex_not_percent h v : hex_val h = Some v → Ascii.eqb h "%" = false ∧ is_ascii_char h = true.
Proof. revert v. each_char h. Qed.

Lemma spells_lower c t : spells c t → spells c (lower_spelling t).
Proof.
  destruct t; cbn; [done|..]; intros (hi & lo & Hh & Hl & Hc); exists hi, lo;
    auto using hex_val_lower.
Qed.

Lemma spells_peel c t : spells c t → spells c (peel t).
Proof. by destruct t. Qed.

Lemma str_map_app f s t : str_map f (s +:+ t) = str_map f s +:+ str_map f t.
Proof. induction s as [|c s IH]; [done|]. rewrite !app_cons_string. cbn [str_map]. by rewrite IH, app_cons_string. Qed.

Lemma spell_lower c t : step_char c → str_map lower (spell c t) = spell c (lower_spelling t).
Proof. intros [->|[->| ->]]; destruct t; done. Qed.

Lemma escape_other c s : Ascii.eqb c "%" = false → escape (String c s) = None.
Proof. intros Hc. unfold escape. destruct s as [|? [|? ?]]; [done..|]. by rewrite Hc. Qed.

(** Decoding peels one layer off a spelling, wherever it stands. *)
Lemma decode_spell c t b : step_char c → spells c t →
  decode_bytes (spell c t +:+ b) = spell c (peel t) +:+ decode_bytes b.
Proof.
  intros Hc Ht. destruct t as [|h l|h l]; cbn [spell peel]; rewrite ?app_cons_string, ?app_empty_string.
  - rewrite decode_bytes_cons, escape_other; [done|]. by destruct Hc as [->|[->| ->]].
  - destruct Ht as (hi & lo & Hh & Hl & <-). rewrite decode_bytes_cons. unfold escape.
    rewrite Ascii.eqb_refl, Hh, Hl. done.
  - destruct Ht as (hi & lo & Hh & Hl & _).
    apply hex_not_percent in Hh as [Hh _], Hl as [Hl _].
    rewrite decode_bytes_cons.
    change (escape _) with (Some ("%"%char, String h (String l b))). cbn [String.append].
    by rewrite !decode_bytes_cons, !escape_other.
Qed.

Lemma spell_head c t : step_char c → ∃ d s, spell c t = String d s ∧ hex_val d = None.
Proof. intros [->|[->| ->]]; destruct t; eexists _, _; done. Qed.

Lemma spell_ascii c t : step_char c → spells c t → is_ascii (spell c t) = true.
Proof.
  intros Hc Ht. assert (is_ascii_char c = true) by (by destruct Hc as [->|[->| ->]]).
  destruct t as [|h l|h l]; cbn [spell is_ascii str_all]; [|destruct Ht as (? & ? & Hh & Hl & _);
    apply hex_not_percent in Hh as [_ Hh], Hl as [_ Hl]..]; rewrite ?H, ?Hh, ?Hl; done.
Qed.

(** A spelled parent step. *)
Definition step_text (sep : ascii) (t1 t2 t3 : Spelling) : string :=
  spell "." t1 +:+ spell "." t2 +:+ spell sep t3.

Definition step_spelled (sep : ascii) (t1 t2 t3 : Spelling) : Prop :=
  (sep = "/"%char ∨ sep = "\"%char) ∧ spells "." t1 ∧ spells "." t2 ∧ spells sep t3.

Lemma sep_step sep : sep = "/"%char ∨ sep = "\"%char → step_char sep.
Proof. unfold step_char. tauto. Qed.

(** One round turns a step in a path into the peeled step in the decoded path. *)
Lemma decode_once_step sep t1 t2 t3 a b : step_spelled sep t1 t2 t3 →
  ∃ a' b', percent_decode_once (a +:+ step_text sep t1 t2 t3 +:+ b)
           = a' +:+ step_text sep (peel t1) (peel t2) (peel t3) +:+ b'.
Proof.
  intros (Hsep%sep_step & H1 & H2 & H3). assert (Hd : step_char ".") by (by left).
  exists (from_utf8_lossy (decode_bytes a)), (from_utf8_lossy (decode_bytes b)).
  unfold percent_decode_once, step_text. rewrite !app_assoc_string.
  destruct (spell_head "." t1 Hd) as (d & r & E & Hx).
  rewrite decode_bytes_app by (rewrite E; exact Hx).
  rewrite !decode_spell by done.
  destruct (spell_head "." (peel t1) Hd) as (d' & r' & E' & _).
  assert (Ha : is_ascii (spell "." (peel t1)) = true) by (by apply spell_ascii, spells_peel).
  pose proof Ha as Ha'. rewrite E' in Ha'. apply andb_true_iff in Ha' as [Hd' _].
  rewrite E', !app_cons_string, from_utf8_lossy_app by done.
  rewrite <- app_cons_string, <- E'.
  rewrite !from_utf8_lossy_ascii by (by apply spell_ascii, spells_peel).
  by rewrite E', app_cons_string.
Qed.

Lemma step_traversal sep a b : sep = "/"%char ∨ sep = "\"%char →
  has_traversal (a +:+ step_text sep Plain Plain Plain +:+ b) = true.
Proof.
  intros Hs. unfold has_traversal. apply orb_true_iff.
  destruct Hs as [->| ->]; [left|right]; apply contains_str_app; done.
Qed.

(** A step that is not plain has a percent sign in it. *)
Lemma contains_app c a s b : contains c s = true → contains c (a +:+ s +:+ b) = true.
Proof.
  unfold contains, str_any. rewrite !negb_true_iff. intros H.
  assert (∀ x y, str_all (λ d, negb (Ascii.eqb c d)) (x +:+ y)
    = str_all (λ d, negb (Ascii.eqb c d)) x && str_all (λ d, negb (Ascii.eqb c d)) y) as Happ.
  { intros x y. induction x as [|e x IH]; [done|]. rewrite app_cons_string. cbn [str_all].
    rewrite IH. apply andb_assoc. }
  rewrite !Happ, H. by rewrite andb_false_r.
Qed.

Lemma step_percent sep t1 t2 t3 : step_char sep →
  (t1 = Plain ∧ t2 = Plain ∧ t3 = Plain) ∨ contains "%" (step_text sep t1 t2 t3) = true.
Proof.
  intros Hs. unfold step_text.
  destruct t1; [|right; done..]. destruct t2; [|right; done..].
  destruct Hs as [->|[->| ->]]; destruct t3; auto.
Qed.

(** [C24] A parent step that a separator follows never passes the access check,
    however the peer spells it: for any text before and after it, with each of
    the two dots and of the separator (slash or backslash) written plainly,
    percent-encoded or doubly encoded, in either case of the digits, the path
    is refused, even if the session has recorded that very string as
    discovered. Two dots at the end of a path are not such a step
    ([trailing_parent_passes]). *)
Theorem encoded_traversal_refused s sep t1 t2 t3 a b :
  step_spelled sep t1 t2 t3 →
  is_ok (check_access s (a +:+ step_text sep t1 t2 t3 +:+ b)) = false.
Proof.
  intros Hstep. pose proof Hstep as (Hsep & H1 & H2 & H3). unfold check_access.
  destruct (has_traversal _) eqn:Ht; [done|].
  unfold to_ascii_lowercase. rewrite !str_map_app. unfold step_text at 1 2 3 4 5.
  assert (Hl : str_map lower (step_text sep t1 t2 t3)
    = step_text sep (lower_spelling t1) (lower_spelling t2) (lower_spelling t3)).
  { unfold step_text. by rewrite !str_map_app, !spell_lower by (try (by left); by apply sep_step). }
  fold (step_text sep t1 t2 t3). rewrite Hl.
  set (u1 := lower_spelling t1) in *. set (u2 := lower_spelling t2) in *. set (u3 := lower_spelling t3) in *.
  assert (Hu : step_spelled sep u1 u2 u3) by (unfold step_spelled, u1, u2, u3; auto using spells_lower).
  destruct (decode_once_step sep u1 u2 u3 (str_map lower a) (str_map lower b) Hu) as (a1 & b1 & E1).
  assert (Hp : step_spelled sep (peel u1) (peel u2) (peel u3))
    by (destruct Hu as (? & ? & ? & ?); unfold step_spelled; auto using spells_peel).
  destruct (decode_once_step _ _ _ _ a1 b1 Hp) as (a2 & b2 & E2).
  destruct (step_percent sep u1 u2 u3 (sep_step _ Hsep)) as [(P1 & P2 & P3)|Hc].
  { assert (t1 = Plain ∧ t2 = Plain ∧ t3 = Plain) as (-> & -> & ->)
      by (unfold u1, u2, u3 in *; destruct t1, t2, t3; done).
    by rewrite step_traversal in Ht. }
  rewrite (contains_app "%" _ _ _ Hc). cbn [andb]. rewrite E1.
  destruct (has_traversal (a1 +:+ _)) eqn:Ht1; [done|].
  destruct (step_percent sep _ _ _ (sep_step _ Hsep) : (peel u1 = Plain ∧ peel u2 = Plain ∧ peel u3 = Plain) ∨ _)
    as [(P1 & P2 & P3)|Hc1].
  { by rewrite P1, P2, P3, step_traversal in Ht1. }
  rewrite (contains_app "%" _ _ _ Hc1). cbn [andb]. rewrite E2.
  assert (peel (peel u1) = Plain ∧ peel (peel u2) = Plain ∧ peel (peel u3) = Plain) as (-> & -> & ->)
    by (by destruct u1, u2, u3).
  by rewrite step_traversal.
Qed.

Lemma encoded_traversal_refused_witness :
  let s := set_known session_new {["/w/%2E.%252fetc"]} 15 in
  "/w/%2E.%252fetc" ∈ known_paths s ∧ is_ok (check_access s "/w/%2E.%252fetc") = false.
Proof.
  split; [vm_compute; done|].
  apply (encoded_traversal_refused _ "/" (Once "2" "E") Plain (Twice "2" "f") "/w/" "etc").
  split; [by left|]. split; [by exists 2, 14|]. split; [done|]. by exists 2, 15.
Defined.

(** ** Provenance *)

Section provenance.
Context (norm : string → result string string) (pol : SessionPolicy).

(** A call of a discovery-role tool that passed the gates of the session and
    was forwarded under [id], with the extraction rules of its tool. *)
Definition asked (es : list SessionEvent) (id : RpcId) (rules : list DeputyRule) : Prop :=
  ∃ before c dry_run tool after, es = before ++ EvCall c dry_run true :: after
    ∧ (apply_session_gates pol (session_run norm pol before) c).2 = Ok () ∧ tc_id c = id
    ∧ tc_tool c = Some tool ∧ deputy_binding (sp_tools pol) tool = BDiscover rules.

(** A successful response that came after such a call named the path. *)
Definition discovered (es : list SessionEvent) (p : string) : Prop :=
  ∃ before id frame rules q after, es = before ++ EvResponse id frame true :: after
    ∧ asked before id rules ∧ q ∈ extract_paths_for_pending frame rules ∧ norm (trim q) = Ok p.

Definition provenance (es : list SessionEvent) (s : SessionState) : Prop :=
  (∀ p, p ∈ known_paths s → discovered es p)
  ∧ (∀ id pl, pending_list_requests s !! id = Some pl → asked es id (pl_rules pl)).

Lemma asked_app es e id rules : asked es id rules → asked (es ++ [e]) id rules.
Proof.
  intros (b & c & d & t & a & -> & ?). exists b, c, d, t, (a ++ [e]). by rewrite <- app_assoc.
Qed.

Lemma discovered_app es e p : discovered es p → discovered (es ++ [e]) p.
Proof.
  intros (b & id & fr & rules & q & a & -> & ?). exists b, id, fr, rules, q, (a ++ [e]).
  by rewrite <- app_assoc.
Qed.

Lemma provenance_app es e s : provenance es s → provenance (es ++ [e]) s.
Proof. intros [H1 H2]. split; eauto using discovered_app, asked_app. Qed.

(** What a state keeps when it records and asks for nothing new. *)
Definition narrows (s s' : SessionState) : Prop :=
  known_paths s' = known_paths s
  ∧ ∀ id pl, pending_list_requests s' !! id = Some pl → pending_list_requests s !! id = Some pl.

Lemma provenance_narrows es s s' : provenance es s → narrows s s' → provenance es s'.
Proof. intros [H1 H2] [Hk Hp]. split; [by rewrite Hk|eauto]. Qed.

Lemma narrows_trans s1 s2 s3 : narrows s1 s2 → narrows s2 s3 → narrows s1 s3.
Proof. intros [H1 H2] [H3 H4]. split; [congruence|eauto]. Qed.

Lemma take_pending_list_narrows s id : narrows s (take_pending_list s id).1.
Proof.
  unfold take_pending_list. case_match; [|done]. split; [done|].
  intros id' pl. cbn. by intros [_ ?]%lookup_delete_Some.
Qed.

Lemma complete_narrows s id b : narrows s (complete_pending_tool_call s id b).
Proof.
  unfold complete_pending_tool_call, remove_pending_tool_call, take_unverified.
  destruct (pending_tool_calls s !! id); [by destruct b|].
  destruct (unverified_tool_calls s !! id); [by destruct b|done].
Qed.

Lemma release_narrows s id : narrows s (release_pending_tool_call_unverified s id).
Proof.
  unfold release_pending_tool_call_unverified, remove_pending_tool_call.
  destruct (pending_tool_calls s !! id); [|done]. by case_match.
Qed.

Lemma record_call_narrows s id tool se s' : record_pending_tool_call s id tool se = Ok s' → narrows s s'.
Proof. unfold record_pending_tool_call. intros H. by split_match_in H. Qed.

Lemma record_paths_pending paths : ∀ s,
  pending_list_requests (record_paths norm s paths) = pending_list_requests s.
Proof.
  induction paths as [|p rest IH]; intros s; cbn [record_paths]; [done|].
  destruct (_ <=? _)%nat; [done|]. destruct (norm (trim p)); [|done].
  destruct (_ || _); [done|]. destruct (_ <? _); [done|]. case_bool_decide; [done|]. by rewrite IH.
Qed.

Lemma record_paths_known paths : ∀ s p, p ∈ known_paths (record_paths norm s paths) →
  p ∈ known_paths s ∨ ∃ q, q ∈ paths ∧ norm (trim q) = Ok p.
Proof.
  induction paths as [|p rest IH]; intros s x; cbn [record_paths]; [auto|].
  assert (Hrest : ∀ s', (x ∈ known_paths (record_paths norm s' rest) →
    x ∈ known_paths s' ∨ ∃ q, q ∈ p :: rest ∧ norm (trim q) = Ok x)).
  { intros s' [?|(q & ? & ?)]%IH; [auto|]. right. exists q. by rewrite elem_of_cons; auto. }
  destruct (_ <=? _)%nat; [auto|]. destruct (norm (trim p)) as [n|] eqn:En; [|auto].
  destruct (_ || _); [auto|]. destruct (_ <? _); [auto|]. case_bool_decide; [auto|].
  intros [Hx|?]%Hrest; [|auto]. cbn in Hx. apply elem_of_union in Hx as [->%elem_of_singleton|?]; [|auto].
  right. exists p. split; [left|done].
Qed.

Lemma take_pending_list_other s id id' pl :
  pending_list_requests (take_pending_list s id).1 !! id' = Some pl → id' ≠ id.
Proof.
  unfold take_pending_list. destruct (pending_list_requests s !! id) eqn:E; cbn.
  - by intros [? _]%lookup_delete_Some.
  - intros H ->. congruence.
Qed.

(** The gates record no path, and ask only for a discovery call they pass. *)
Lemma gates_pending s c : known_paths (apply_session_gates pol s c).1 = known_paths s ∧
  ∀ id pl, pending_list_requests (apply_session_gates pol s c).1 !! id = Some pl →
  pending_list_requests s !! id = Some pl ∨
  (apply_session_gates pol s c).2 = Ok () ∧ tc_id c = id ∧
    ∃ tool, tc_tool c = Some tool ∧ deputy_binding (sp_tools pol) tool = BDiscover (pl_rules pl).
Proof.
  unfold apply_session_gates. destruct (if sp_trajectory pol then _ else _) as [[]|]; [|by auto].
  destruct (apply_confused_deputy_c2s pol s c) as [s1|] eqn:E; [|by auto].
  assert (H1 : known_paths s1 = known_paths s ∧ ∀ id pl, pending_list_requests s1 !! id = Some pl →
    pending_list_requests s !! id = Some pl ∨ tc_id c = id ∧
      ∃ tool, tc_tool c = Some tool ∧ deputy_binding (sp_tools pol) tool = BDiscover (pl_rules pl)).
  { unfold apply_confused_deputy_c2s in E.
    destruct (negb _), (tc_tool c) as [tool|] eqn:Et; simplify_eq; try (by auto).
    destruct (deputy_binding _ tool) as [|rules|rules] eqn:Eb; simplify_eq; try (by auto).
    - case_bool_decide; [done|]. destruct (record_pending_list _ _ _ _) eqn:Er; simplify_eq/=.
      unfold record_pending_list in Er. split_match_in Er. split; [done|].
      intros id pl. cbn. intros [[<- <-]|[_ Hl]]%lookup_insert_Some; [|by auto]. right. eauto.
    - destruct (deputy_err (tc_use_targets c rules)) as [paths|]; simplify_eq/=.
      case_bool_decide; [done|]. destruct (deputy_err (check_all s paths)); simplify_eq/=. by auto. }
  destruct H1 as [Hk Hp]. destruct (sp_trajectory pol); [|split; [done|]; cbn; naive_solver].
  destruct (record_pending_tool_call _ _ _ _) eqn:Er; cbn.
  - apply record_call_narrows in Er as [Hk' Hp']. split; [congruence|]. naive_solver.
  - destruct (take_pending_list_narrows s1 (tc_id c)) as [Hk' Hp']. split; [congruence|].
    intros id pl Hl. apply take_pending_list_other in Hl as Hne. apply Hp', Hp in Hl. naive_solver.
Qed.

Lemma unwind_pending s id : known_paths (unwind_call s id) = known_paths s ∧
  ∀ id' pl, pending_list_requests (unwind_call s id) !! id' = Some pl →
  pending_list_requests s !! id' = Some pl ∧ id' ≠ id.
Proof.
  unfold unwind_call. destruct (take_pending_list_narrows s id) as [Hk Hp].
  destruct (complete_narrows (take_pending_list s id).1 id false) as [Hk' Hp'].
  split; [congruence|]. intros id' pl H%Hp'. split; [auto|]. by eapply take_pending_list_other.
Qed.

Lemma call_provenance es c dry fwd : provenance es (session_run norm pol es) →
  provenance (es ++ [EvCall c dry fwd]) (session_step norm pol (session_run norm pol es) (EvCall c dry fwd)).
Proof.
  intros [Ha1 Ha2]. set (s := session_run norm pol es) in *. destruct (gates_pending s c) as [Hk Hp].
  assert (Hold : ∀ id pl, pending_list_requests s !! id = Some pl →
    asked (es ++ [EvCall c dry fwd]) id (pl_rules pl)) by eauto using asked_app.
  assert (Hknown : ∀ p, p ∈ known_paths s → discovered (es ++ [EvCall c dry fwd]) p)
    by eauto using discovered_app.
  cbn [session_step]. destruct (apply_session_gates pol s c) as [s1 verdict] eqn:Eg. cbn in Hk, Hp.
  destruct (unwind_pending s1 (tc_id c)) as [Hku Hpu].
  assert (Hunw : provenance (es ++ [EvCall c dry fwd]) (unwind_call s1 (tc_id c))).
  { split; [rewrite Hku, Hk; auto|]. intros id pl [Hl Hne]%Hpu.
    destruct (Hp id pl Hl) as [?|(_ & ? & _)]; [auto|congruence]. }
  destruct verdict as [[]|e].
  - destruct fwd; [|done]. split; [rewrite Hk; auto|]. intros id pl Hl.
    destruct (Hp id pl Hl) as [?|(_ & <- & tool & Ht & Hb)]; [auto|].
    exists es, c, dry, tool, []. split; [done|]. fold s. by rewrite Eg.
  - destruct dry; [|done]. split; [rewrite Hk; auto|]. intros id pl Hl.
    destruct (Hp id pl Hl) as [?|(? & _)]; [auto|done].
Qed.

Lemma response_provenance es s id frame b : provenance es s →
  provenance (es ++ [EvResponse id frame b]) (apply_response_session_updates norm pol s id frame b).
Proof.
  intros [Hd Ha]. destruct (provenance_app es (EvResponse id frame b) s (conj Hd Ha)) as [Ha1 Ha2].
  unfold apply_response_session_updates. case_bool_decide; [done|].
  pose proof (take_pending_list_narrows s id) as Hn.
  assert (Hp : (take_pending_list s id).2 = pending_list_requests s !! id)
    by (unfold take_pending_list; by case_match).
  destruct (take_pending_list s id) as [s1 p]. cbn in Hn, Hp. subst p.
  match goal with |- provenance _ (if _ then complete_pending_tool_call ?x _ _ else _) => set (s2 := x) end.
  assert (H2 : provenance (es ++ [EvResponse id frame b]) s2).
  { unfold s2. destruct (pending_list_requests s !! id) as [pl|] eqn:Epl;
      [|by eapply provenance_narrows]. destruct b; [|by eapply provenance_narrows].
    destruct Hn as [Hn1 Hn2]. split.
    - intros p [Hp|(q & Hq & Hnq)]%record_paths_known; [rewrite Hn1 in Hp; auto|].
      exists es, id, frame, (pl_rules pl), q, []. auto.
    - rewrite record_paths_pending. eauto. }
  destruct (sp_trajectory pol); [|done]. by eapply provenance_narrows, complete_narrows.
Qed.

Lemma run_provenance es : provenance es (session_run norm pol es).
Proof.
  induction es as [|e es IH] using rev_ind; [split; [set_solver|intros ??; cbn; by rewrite lookup_empty]|].
  unfold session_run. rewrite foldl_app. cbn [foldl]. fold (session_run norm pol es).
  destruct e as [c dry fwd|id frame b|id].
  - by apply call_provenance.
  - by apply response_provenance.
  - apply provenance_app. eapply provenance_narrows; [done|].
    eapply narrows_trans; [apply take_pending_list_narrows|apply release_narrows].
Qed.

(** No two dots before a slash or a backslash, as written or, where the path
    holds a percent sign, decoded once or twice. *)
Definition step_free (p : string) : Prop :=
  let lowered := to_ascii_lowercase p in
  let once := percent_decode_once lowered in
  has_traversal p = false
  ∧ (contains "%" lowered = true → has_traversal once = false)
  ∧ (contains "%" lowered = true → contains "%" once = true →
     has_traversal (percent_decode_once once) = false).

Lemma checked_path s p : check_access s p = Ok () → p ∈ known_paths s ∧ step_free p.
Proof.
  unfold check_access, step_free. intros H. destruct (has_traversal p); [done|].
  destruct (contains "%" (to_ascii_lowercase p)) eqn:E0; cbn [andb] in H.
  - destruct (has_traversal (percent_decode_once _)) eqn:E1 in H; [done|].
    destruct (contains "%" (percent_decode_once _)) eqn:E2; cbn [andb] in H.
    + destruct (has_traversal _) eqn:E3 in H; [done|]. case_bool_decide; [|done]. by split_and!.
    + case_bool_decide; [|done]. by split_and!.
  - case_bool_decide; [|done]. by split_and!.
Qed.

Lemma check_all_each s paths : check_all s paths = Ok () → ∀ p, p ∈ paths → check_access s p = Ok ().
Proof.
  induction paths as [|q paths IH]; cbn; [by intros _ p ?%elem_of_nil|].
  intros ([] & Hq & Hr)%result_bind_ok p [->|Hp]%elem_of_cons; auto.
Qed.

(** [C10] Confused-deputy protection, end to end: with the protection on, after
    any sequence of calls, responses and cancellations, a call of a use-role
    tool that passes the session gates names at least one path, and each path
    it names was, in this order, asked for by a call of a discovery-role tool
    that itself passed the gates and was forwarded, and named by a later
    successful response under the same id, at a place the extraction rules of
    that tool read, normalising to exactly the path asked for; and no such path
    holds two dots before a slash or a backslash, as written or percent-decoded
    once or twice. *)
Theorem access_only_discovered es c tool rules :
  sp_confused_deputy pol = true → tc_tool c = Some tool →
  deputy_binding (sp_tools pol) tool = BUse rules →
  (apply_session_gates pol (session_run norm pol es) c).2 = Ok () →
  ∃ paths, tc_use_targets c rules = Ok paths ∧ paths ≠ [] ∧
    ∀ p, p ∈ paths → discovered es p ∧ step_free p.
Proof.
  intros Hon Ht Hb Hg. unfold apply_session_gates in Hg.
  destruct (if sp_trajectory pol then _ else _) as [[]|]; [|done].
  destruct (apply_confused_deputy_c2s _ _ _) as [s1|] eqn:E; [|done].
  unfold apply_confused_deputy_c2s in E. rewrite Hon, Ht, Hb in E. cbn [negb] in E.
  apply result_bind_ok in E as (paths & Hp & E). exists paths.
  destruct (tc_use_targets c rules) as [ps|]; [|done]. injection Hp as ->.
  case_bool_decide; [done|]. apply result_bind_ok in E as ([] & Hall & _).
  destruct (check_all _ paths) as [[]|] eqn:Hc; [|done]. split_and!; [done..|]. intros p Hin.
  destruct (checked_path _ _ (check_all_each _ _ Hc p Hin)) as [Hk Hs]. split; [|done].
  by apply run_provenance.
Qed.
End provenance.

(** The events of a small session: a listing is asked for and answered. *)
Definition demo_frame : Json :=
  JObject "" [("result", JObject "" [("files", JArray "" [JObject "" [("path", JString "/w/a" "/w/a")]])])].
Definition demo_policy : SessionPolicy := mkSessionPolicy true [mkTrajectory Write Network] true [].
Definition demo_call (id tool : string) (se : SideEffect) : ToolCall :=
  mkToolCall (RString id) (Some tool) (Some se) false (λ _, Ok []).
Definition demo_events : list SessionEvent :=
  [EvCall (demo_call "1" "list_files" ReadOnly) false true; EvResponse (RString "1") demo_frame true].

(** A read of the path the listing named. *)
Definition demo_read : ToolCall :=
  mkToolCall (RString "2") (Some "read_file") (Some ReadOnly) false (λ _, Ok ["/w/a"]).

Lemma access_only_discovered_witness :
  (apply_session_gates demo_policy (session_run Ok demo_policy demo_events) demo_read).2 = Ok ()
  ∧ discovered Ok demo_policy demo_events "/w/a".
Proof.
  assert (H : (apply_session_gates demo_policy (session_run Ok demo_policy demo_events) demo_read).2 = Ok ())
    by (vm_compute; done).
  split; [exact H|].
  destruct (access_only_discovered Ok demo_policy demo_events demo_read "read_file" LEGACY_USE_RULES
    eq_refl eq_refl eq_refl H) as (paths & [= <-] & _ & Hp).
  exact (proj1 (Hp "/w/a" (list_elem_of_here _ _))).
Defined.

(** The check looks for a separator after the dots, so a discovered path that
    ends in a parent step passes. *)
Lemma trailing_parent_passes :
  check_access (record_paths Ok session_new ["/w/.."]) "/w/.." = Ok ().
Proof. vm_compute. done. Qed.
