(* ===== verification/TrajectoryTheorems.v ===== *)
(** * TrajectoryTheorems: the trajectory check refines the history of calls

    The session keeps bounded tables and one marker; the specification keeps
    the whole history.  A simulation relation links the two along every run in
    which a new call takes a fresh id; it gives that the check refuses every
    call the rules forbid after any call that may have run, and, as long as no
    released call had to be dropped, refuses nothing else.  The last lemmas
    show what reusing the id of a released call does. *)

From S2P Require Import Prelude Text RpcId Json Deputy Session SessionGate AccessTheorems.

(** ** The simulation relation *)

(** A released call whose table entry was dropped. *)
Definition overflowed (s : SessionState) (c : PendingToolCall) : Prop :=
  unverified_untrusted s = true
  ∧ ∀ se, side_effect c = Some se → se ∈ unverified_overflow_effects s.

Definition marker_is (s : SessionState) (c : PendingToolCall) : Prop :=
  last_successful_tool s = Some (tool_name c) ∧ last_successful_side_effect s = side_effect c.

Record simulates (s : SessionState) (h : History) : Prop := mkSim {
  sim_pending : pending_tool_calls s = h_pending h;
  sim_disjoint : h_pending h ##ₘ h_open h;
  sim_tombs : unverified_tool_calls s ⊆ h_open h;
  sim_open : ∀ id c, h_open h !! id = Some c →
    unverified_tool_calls s !! id = Some c ∨ overflowed s c;
  sim_last : ∀ c, h_last h = Some c → marker_is s c ∨ overflowed s c;
  sim_exact : unverified_untrusted s = false →
    unverified_overflow_effects s = ∅ ∧ h_open h ⊆ unverified_tool_calls s
    ∧ last_successful_tool s = tool_name <$> h_last h
    ∧ last_successful_side_effect s = h_last h ≫= side_effect;
}.

(** The fields the trajectory check reads. *)
Definition same_trajectory (s s' : SessionState) : Prop :=
  pending_tool_calls s' = pending_tool_calls s
  ∧ unverified_tool_calls s' = unverified_tool_calls s
  ∧ unverified_overflow_effects s' = unverified_overflow_effects s
  ∧ unverified_untrusted s' = unverified_untrusted s
  ∧ last_successful_tool s' = last_successful_tool s
  ∧ last_successful_side_effect s' = last_successful_side_effect s.

Lemma simulates_same s s' h : simulates s h → same_trajectory s s' → simulates s' h.
Proof.
  intros [] (E1 & E2 & E3 & E4 & E5 & E6).
  constructor; unfold overflowed, marker_is in *; rewrite ?E1, ?E2, ?E3, ?E4, ?E5, ?E6; done.
Qed.

Lemma same_trajectory_trans s1 s2 s3 :
  same_trajectory s1 s2 → same_trajectory s2 s3 → same_trajectory s1 s3.
Proof. unfold same_trajectory. intuition congruence. Qed.

Lemma take_list_same s id : same_trajectory s (take_pending_list s id).1.
Proof. unfold take_pending_list. by case_match. Qed.

Lemma record_list_same s id tool rules s' :
  record_pending_list s id tool rules = Ok s' → same_trajectory s s'.
Proof. unfold record_pending_list. intros H. by split_match_in H. Qed.

Lemma record_paths_same norm paths : ∀ s, same_trajectory s (record_paths norm s paths).
Proof.
  induction paths as [|p rest IH]; intros s; cbn [record_paths]; [done|].
  destruct (_ <=? _)%nat; [done|]. destruct (norm (trim p)); [|done].
  destruct (_ || _); [done|]. destruct (_ <? _)%Z; [done|]. case_bool_decide; [done|].
  eapply same_trajectory_trans; [|apply IH]. done.
Qed.

Lemma deputy_same pol s c s' : apply_confused_deputy_c2s pol s c = Ok s' → same_trajectory s s'.
Proof.
  unfold apply_confused_deputy_c2s. intros E.
  destruct (negb _), (tc_tool c) as [tool|]; simplify_eq; try done.
  destruct (deputy_binding _ tool) as [|rules|rules]; simplify_eq; try done.
  - case_bool_decide; [done|]. destruct (record_pending_list _ _ _ _) eqn:Er; simplify_eq/=.
    by eapply record_list_same.
  - destruct (deputy_err (tc_use_targets c rules)) as [paths|]; simplify_eq/=.
    case_bool_decide; [done|]. destruct (deputy_err (check_all s paths)); simplify_eq/=. done.
Qed.

(** ** Steps *)

Definition call_of (c : ToolCall) : PendingToolCall :=
  mkPendingCall (default "<unknown>" (tc_tool c)) (tc_side_effect c).

(** The gates record the call, or leave what the trajectory check reads. *)
Lemma gates_trajectory pol s c : sp_trajectory pol = true →
  match apply_session_gates pol s c with
  | (s', Ok _) => ∃ s1, same_trajectory s s1 ∧ pending_tool_calls s !! tc_id c = None
      ∧ pending_tool_calls s' = <[tc_id c := call_of c]> (pending_tool_calls s)
      ∧ same_trajectory (set_calls s1 (pending_tool_calls s') (pending_tool_id_bytes s')) s'
  | (s', Err _) => same_trajectory s s'
  end.
Proof.
  intros Ht. unfold apply_session_gates. rewrite Ht.
  destruct (check_trajectory _ _ _ _ _); [|done].
  destruct (apply_confused_deputy_c2s pol s c) as [s1|] eqn:E; [|done].
  apply deputy_same in E. destruct (record_pending_tool_call _ _ _ _) as [s2|] eqn:Er.
  - exists s1. unfold record_pending_tool_call in Er. case_bool_decide; [done|].
    case_bool_decide as Hn; [done|]. destruct (_ <=? _)%nat; [done|]. destruct (_ <? _)%Z; [done|].
    simplify_eq/=. split; [done|]. destruct E as [E _].
    split; [rewrite <- E; by apply eq_None_not_Some|]. split; [by rewrite E|done].
  - cbn. eapply same_trajectory_trans; [done|apply take_list_same].
Qed.

(** An unwound call disappears, if its id is not that of a released call. *)
Lemma unwind_trajectory s id : unverified_tool_calls s !! id = None →
  same_trajectory (set_calls s (delete id (pending_tool_calls s)) (pending_tool_id_bytes s))
    (unwind_call s id).
Proof.
  intros Hu. unfold unwind_call. destruct (take_list_same s id) as (E1 & E2 & E3 & E4 & E5 & E6).
  set (s1 := (take_pending_list s id).1) in *. unfold complete_pending_tool_call, remove_pending_tool_call.
  destruct (pending_tool_calls s1 !! id) as [p|] eqn:Ep; cbn.
  - unfold same_trajectory. cbn. by rewrite E1.
  - unfold take_unverified. rewrite E2, Hu. unfold same_trajectory. cbn.
    rewrite <- E1, delete_id by done. auto 8.
Qed.

Lemma simulates_forward s h id c b : simulates s h → h_open h !! id = None →
  simulates (set_calls s (<[id := c]> (pending_tool_calls s)) b) (history_forward h id c).
Proof.
  intros [] Ho. constructor; try done; cbn; [by f_equal|]. by apply map_disjoint_insert_l_2.
Qed.

Lemma simulates_fresh_id s h id : simulates s h → h_open h !! id = None →
  unverified_tool_calls s !! id = None.
Proof. intros [] Ho. by eapply lookup_weaken_None. Qed.

Lemma call_step pol norm s h c dry fwd : sp_trajectory pol = true → simulates s h →
  fresh_call h (EvCall c dry fwd) →
  simulates (session_step norm pol s (EvCall c dry fwd)) (history_step pol s h (EvCall c dry fwd)).
Proof.
  intros Ht Hs [Hp Ho]. cbn [session_step history_step].
  pose proof (gates_trajectory pol s c Ht) as Hg.
  pose proof (simulates_fresh_id s h (tc_id c) Hs Ho) as Hu.
  destruct (apply_session_gates pol s c) as [s' [[]|e]]; cbn [snd is_ok andb].
  - destruct Hg as (s1 & H1 & Hn & Hcalls & H2). pose proof (simulates_same _ _ _ Hs H1) as Hs1.
    destruct fwd.
    + eapply simulates_same; [|exact H2]. rewrite Hcalls. destruct H1 as [<- _].
      by apply simulates_forward.
    + eapply simulates_same; [exact Hs|]. eapply same_trajectory_trans; [exact H1|].
      eapply same_trajectory_trans; [|apply unwind_trajectory].
      * destruct H2 as (_ & H2). destruct H1 as [H1 _]. split; [|apply H2]. cbn.
        rewrite Hcalls, H1. by rewrite delete_insert_id.
      * destruct H2 as (_ & -> & _). cbn. by destruct H1 as (_ & -> & _).
  - destruct dry; [by eapply simulates_same|].
    eapply simulates_same; [exact Hs|]. eapply same_trajectory_trans; [exact Hg|].
    eapply same_trajectory_trans; [|apply unwind_trajectory].
    + split; [|done]. cbn. destruct Hg as [-> _]. destruct Hs as [-> _]. by rewrite delete_id.
    + by destruct Hg as (_ & -> & _).
Qed.

Lemma mark_overflowed s tool se c : overflowed s c → overflowed (set_marker s tool se) c.
Proof. done. Qed.

Lemma response_step s h id b : simulates s h →
  simulates (complete_pending_tool_call s id b) (history_response h id b).
Proof.
  intros []. unfold complete_pending_tool_call, history_response, remove_pending_tool_call.
  rewrite <- sim_pending0. destruct (pending_tool_calls s !! id) as [c|] eqn:Ep.
  - destruct b; constructor; cbn; try done;
      try (rewrite sim_pending0; by apply map_disjoint_delete_l).
    + intros c' [= <-]. by left.
    + intros Hu. by destruct (sim_exact0 Hu) as (? & ? & _).
  - cbn. unfold take_unverified. destruct (unverified_tool_calls s !! id) as [c|] eqn:Eu.
    + pose proof (lookup_weaken _ _ _ _ Eu sim_tombs0) as Eo. rewrite Eo.
      destruct b; constructor; cbn; try done.
      all: try (by apply delete_mono). all: try (rewrite sim_pending0; by apply map_disjoint_delete_r).
      all: try (intros i c' [Hi Hc]%lookup_delete_Some; destruct (sim_open0 _ _ Hc);
                [left; by rewrite lookup_delete_ne|by right]).
      * intros c' [= <-]. by left.
      * intros Hu. destruct (sim_exact0 Hu) as (? & ? & _). split; [done|]. by split; [apply delete_mono|].
      * intros Hu. destruct (sim_exact0 Hu) as (? & ? & ?). split; [done|]. by split; [apply delete_mono|].
    + destruct (h_open h !! id) as [c|] eqn:Eo; [|by constructor].
      destruct (sim_open0 _ _ Eo) as [|Hov]; [congruence|].
      assert (Hun : unverified_untrusted s = true) by apply Hov.
      constructor; cbn; try done.
      * rewrite sim_pending0. by apply map_disjoint_delete_r.
      * apply map_subseteq_spec. intros i c' Hi. rewrite lookup_delete_ne by congruence.
        by eapply lookup_weaken.
      * intros i c' [Hi Hc]%lookup_delete_Some. auto.
      * intros c' Hc. destruct b; [|auto]. simplify_eq. by right.
      * congruence.
Qed.

Lemma release_step s h id : simulates s h →
  simulates (release_pending_tool_call_unverified s id) (history_release h id).
Proof.
  intros []. unfold release_pending_tool_call_unverified, history_release, remove_pending_tool_call.
  rewrite <- sim_pending0. destruct (pending_tool_calls s !! id) as [c|] eqn:Ep; [|by constructor].
  assert (Ho : h_open h !! id = None).
  { rewrite sim_pending0 in Ep. by eapply map_disjoint_Some_l. }
  assert (Hdj : delete id (pending_tool_calls s) ##ₘ <[id := c]> (h_open h)).
  { rewrite sim_pending0. apply map_disjoint_insert_r. split; [by rewrite lookup_delete_eq|].
    by apply map_disjoint_delete_l. }
  pose proof (lookup_weaken_None _ _ _ Ho sim_tombs0) as Hu.
  cbn. destruct (_ || _); constructor; cbn; try done.
  - etrans; [done|]. by apply insert_subseteq.
  - intros i c' [[<- <-]|[Hi Hc]]%lookup_insert_Some.
    + right. split; [done|]. intros se Hse. cbn. rewrite Hse. set_solver.
    + destruct (sim_open0 _ _ Hc) as [|[Hun Hov]]; [by left|]. right. split; [done|].
      intros se Hse%Hov. cbn. case_match; set_solver.
  - intros c' [|[Hun Hov]]%sim_last0; [by left|]. right. split; [done|].
    intros se Hse%Hov. cbn. case_match; set_solver.
  - by apply insert_mono.
  - intros i c' [[<- <-]|[Hi Hc]]%lookup_insert_Some; [left; by rewrite lookup_insert_eq|].
    destruct (sim_open0 _ _ Hc); [left; by rewrite lookup_insert_ne|by right].
  - intros Hun. destruct (sim_exact0 Hun) as (? & ? & ?). split; [done|]. by split; [apply insert_mono|].
Qed.

Lemma event_step pol norm s h e : sp_trajectory pol = true → simulates s h → fresh_call h e →
  simulates (session_step norm pol s e) (history_step pol s h e).
Proof.
  intros Ht Hs Hf. destruct e as [c dry fwd|id frame b|id]; [by apply call_step|..]; cbn.
  - unfold apply_response_session_updates. case_bool_decide; [done|].
    pose proof (take_list_same s id) as Hl. destruct (take_pending_list s id) as [s1 p]. cbn in Hl.
    rewrite Ht. apply response_step. eapply simulates_same; [exact Hs|].
    eapply same_trajectory_trans; [exact Hl|].
    destruct p as [p|]; [|done]. destruct b; [apply record_paths_same|done].
  - apply release_step. eapply simulates_same; [exact Hs|apply take_list_same].
Qed.

Lemma run_simulates pol norm es : sp_trajectory pol = true → ∀ s h, simulates s h →
  fresh_calls norm pol s h es →
  simulates (history_run norm pol s h es).1 (history_run norm pol s h es).2.
Proof.
  intros Ht. induction es as [|e es IH]; intros s h Hs Hf; [done|]. destruct Hf as [Hf Hrest].
  cbn [history_run]. apply IH; [by apply event_step|done].
Qed.

Lemma history_run_session pol norm es : ∀ s h,
  (history_run norm pol s h es).1 = foldl (session_step norm pol) s es.
Proof. induction es as [|e es IH]; intros s h; [done|]. apply IH. Qed.

Lemma simulates_new : simulates session_new history_new.
Proof. by constructor. Qed.

(** ** The check *)

Lemma elem_of_effects s se : se ∈ unverified_effects s ↔
  (∃ id c, unverified_tool_calls s !! id = Some c ∧ side_effect c = Some se)
  ∨ se ∈ unverified_overflow_effects s.
Proof.
  unfold unverified_effects. rewrite elem_of_app, list_elem_of_omap, elem_of_elements.
  split; intros [H|?]; auto; left.
  - destruct H as ([id c] & Hin%elem_of_map_to_list & Hse). eauto.
  - destruct H as (id & c & Hl & Hse). exists (id, c). by rewrite elem_of_map_to_list.
Qed.

Lemma trajectory_loop_err s rules next host :
  is_ok (trajectory_loop s rules next host) = false ↔
  ∃ rule, rule ∈ rules ∧ matches_after s rule = true ∧ denies_next rule next host = true.
Proof.
  induction rules as [|r rules IH]; cbn [trajectory_loop].
  - split; [done|]. intros (? & ?%elem_of_nil & _). done.
  - destruct (matches_after s r) eqn:Em; cbn [negb]; [destruct (denies_next r next host) eqn:Ed|].
    + split; [intros _|done]. exists r. split; [left|done].
    + rewrite IH. split; intros (x & Hx & Hm & Hd); exists x; rewrite elem_of_cons in *; [auto|].
      destruct Hx as [->|]; [congruence|auto].
    + rewrite IH. split; intros (x & Hx & Hm & Hd); exists x; rewrite elem_of_cons in *; [auto|].
      destruct Hx as [->|]; [congruence|auto].
Qed.

Lemma candidate_matches s h c rule : simulates s h → candidate h c →
  side_effect c = Some (after_side_effect rule) → matches_after s rule = true.
Proof.
  intros [] Hc Hse. unfold matches_after. apply orb_true_iff. rewrite !bool_decide_eq_true, elem_of_effects.
  destruct Hc as [[[_ Hm]|[_ Hov]]%sim_last0|[id [Ht|[_ Hov]]%sim_open0]].
  - left. congruence.
  - right. right. auto.
  - right. left. eauto.
  - right. right. auto.
Qed.

Lemma candidate_cross s h c next_tool : simulates s h → candidate h c → tool_name c ≠ next_tool →
  same_tool_only s next_tool = false.
Proof.
  intros [] Hc Hn. unfold same_tool_only.
  destruct Hc as [[[Hm _]|[Hu _]]%sim_last0|[id [Ht|[Hu _]]%sim_open0]].
  - rewrite Hm. cbn. destruct (String.eqb_spec next_tool (tool_name c)); [congruence|done].
  - rewrite Hu. cbn. by rewrite andb_false_r.
  - apply andb_false_iff. right. apply not_true_iff_false. rewrite List.forallb_forall. intros Hall.
    specialize (Hall (id, c)). rewrite <- list_elem_of_In, elem_of_map_to_list in Hall.
    apply Hall in Ht. by apply String.eqb_eq in Ht.
  - rewrite Hu. cbn. by rewrite andb_false_r.
Qed.

Lemma forbidden_refused s h rules next_tool next host : simulates s h →
  forbidden h rules next_tool next host → is_ok (check_trajectory s rules next_tool next host) = false.
Proof.
  intros Hs (rule & Hr & Hd & (c & Hc & Hse) & Hx). unfold check_trajectory.
  pose proof (candidate_matches s h c rule Hs Hc Hse) as Hm.
  destruct (bool_decide (last_successful_side_effect s = None) && _) eqn:E.
  { apply andb_true_iff in E as [E1%bool_decide_eq_true E2%bool_decide_eq_true].
    unfold matches_after in Hm. rewrite E1, E2 in Hm. apply orb_true_iff in Hm.
    rewrite !bool_decide_eq_true in Hm. destruct Hm as [|?%elem_of_nil]; done. }
  destruct (same_tool_only s next_tool && _) eqn:E'.
  { exfalso. apply andb_true_iff in E' as [E1 E2]. destruct Hx as [(c' & Hc' & Hn)|[-> Hn]].
    - by rewrite (candidate_cross s h c' next_tool Hs Hc' Hn) in E1.
    - by rewrite bool_decide_eq_true_2 in E2. }
  apply trajectory_loop_err. eauto.
Qed.

Lemma refused_forbidden s h rules next_tool next host : simulates s h →
  unverified_untrusted s = false →
  is_ok (check_trajectory s rules next_tool next host) = false → forbidden h rules next_tool next host.
Proof.
  intros [] Hu. destruct (sim_exact0 Hu) as (Hov & Hsub & Hlt & Hls). unfold check_trajectory.
  destruct (bool_decide (last_successful_side_effect s = None) && _); [done|].
  destruct (same_tool_only s next_tool && _) eqn:E; [done|].
  intros (rule & Hr & Hm & Hd)%trajectory_loop_err. exists rule. split; [done|]. split; [done|]. split.
  - unfold matches_after in Hm. apply orb_true_iff in Hm. rewrite !bool_decide_eq_true, elem_of_effects in Hm.
    destruct Hm as [Hm|[(id & c & Hl & Hse)|Hm]].
    + rewrite Hls in Hm. apply bind_Some in Hm as (c & Hl & Hse). exists c. split; [by left|done].
    + exists c. split; [|done]. right. exists id. by eapply lookup_weaken.
    + rewrite Hov in Hm. by apply not_elem_of_empty in Hm.
  - apply andb_false_iff in E as [E|E].
    2: { right. apply negb_false_iff, andb_true_iff in E as [-> E%bool_decide_eq_true]. done. }
    left. unfold same_tool_only in E. rewrite Hu in E. cbn in E. rewrite andb_true_r in E.
    apply andb_false_iff in E as [E|E].
    + rewrite Hlt in E. destruct (h_last h) as [c|] eqn:El; [|done]. cbn in E.
      apply String.eqb_neq in E. exists c. split; [by left|done].
    + apply not_true_iff_false in E. rewrite List.forallb_forall in E.
      destruct (decide (map_Forall (λ _ c, tool_name c = next_tool) (unverified_tool_calls s))) as [Hall|Hex].
      * destruct E. intros [id c] Hin%list_elem_of_In%elem_of_map_to_list. cbn.
        apply String.eqb_eq. by apply (Hall id).
      * apply map_not_Forall in Hex as (id & c & Hl & Hn); [|solve_decision].
        exists c. split; [|done]. right. exists id. by eapply lookup_weaken.
Qed.

(** [C11] The trajectory check refines the history of the session.  Along any
    run of calls, responses, cancellations and refused responses in which each
    new call takes a fresh id, a call is refused whenever some rule forbids it
    after any call that may have been the last to run: the last verified
    success, or any call released without a verdict and not answered since.
    Cancelling a call never disarms a rule.  As long as no released call had to
    be dropped for capacity, only such calls are refused. *)
Theorem trajectory_refines_history norm pol es next_tool next host :
  sp_trajectory pol = true →
  fresh_calls norm pol session_new history_new es →
  let h := (history_run norm pol session_new history_new es).2 in
  let s := session_run norm pol es in
  (forbidden h (sp_trajectory_rules pol) next_tool next host →
   is_ok (check_trajectory s (sp_trajectory_rules pol) next_tool next host) = false)
  ∧ (unverified_untrusted s = false →
     is_ok (check_trajectory s (sp_trajectory_rules pol) next_tool next host) = false →
     forbidden h (sp_trajectory_rules pol) next_tool next host).
Proof.
  intros Ht Hf h s.
  assert (Hs : simulates s h).
  { unfold s, session_run. rewrite <- (history_run_session pol norm es session_new history_new).
    by apply run_simulates; [|apply simulates_new|]. }
  split; [by apply forbidden_refused|by apply refused_forbidden].
Qed.

(** A cancelled write, then a read that succeeds: the rule still applies. *)
Definition cancelled_write : list SessionEvent :=
  [EvCall (demo_call "1" "save" Write) false true; EvRelease (RString "1");
   EvCall (demo_call "2" "view" ReadOnly) false true; EvResponse (RString "2") JNull true].

Lemma trajectory_refines_history_witness :
  is_ok (check_trajectory (session_run Ok demo_policy cancelled_write)
           (sp_trajectory_rules demo_policy) "send" (Some Network) false) = false.
Proof.
  apply (trajectory_refines_history Ok demo_policy cancelled_write "send" (Some Network) false);
    [done|vm_compute; done|].
  exists (mkTrajectory Write Network). split; [by left|]. split; [done|]. split.
  - exists (mkPendingCall "save" (Some Write)). split; [|done]. right. exists (RString "1"). vm_compute. done.
  - left. exists (mkPendingCall "save" (Some Write)). split; [|done]. right. exists (RString "1"). vm_compute. done.
Defined.

(** ** Reusing the id of a released call *)

(** A write whose response the policy refuses to relay, and then a network call
    under the same id: the gate refuses it, and unwinding it resolves the
    released write as if it had been answered. *)
Definition reused_id : list SessionEvent :=
  [EvCall (demo_call "1" "save" Write) false true; EvRelease (RString "1");
   EvCall (demo_call "1" "send" Network) false true].

(** The refusal of a call that reuses the id of a released call disarms
    the rule: after a write whose response was refused, a network call under
    the same id is refused, but the unwinding of that refusal removes the
    record of the write, and the same network call under any id is then let
    through although the write is still without a verdict. *)
Lemma reused_id_disarms_rule :
  let rules := sp_trajectory_rules demo_policy in
  let before := session_run Ok demo_policy (take 2 reused_id) in
  let after := session_run Ok demo_policy reused_id in
  let h := (history_run Ok demo_policy session_new history_new reused_id).2 in
  is_ok (check_trajectory before rules "send" (Some Network) false) = false
  ∧ is_ok (check_trajectory after rules "send" (Some Network) false) = true
  ∧ forbidden h rules "send" (Some Network) false.
Proof.
  cbv zeta. split; [vm_compute; done|]. split; [vm_compute; done|].
  exists (mkTrajectory Write Network). split; [by left|]. split; [done|].
  assert (candidate (history_run Ok demo_policy session_new history_new reused_id).2
            (mkPendingCall "save" (Some Write))) as Hc.
  { right. exists (RString "1"). vm_compute. done. }
  split; [eauto|]. left. by exists (mkPendingCall "save" (Some Write)).
Qed.
