(* ===== verification/Framing.v ===== *)
(** * Framing: the bounded line readers

    [src/src/framing.rs]: the two readers over a buffered transport with read
    errors, oversize windows and replacement of invalid UTF-8; and that what
    they deliver depends on the byte stream alone. *)

From S2P Require Import Prelude Text Percent.

Open Scope Z_scope.

Definition DEFAULT_MAX_FRAME_BYTES : Z := 10 * 1024 * 1024.
Definition OVERSIZE_WINDOW_BYTES : nat := 8 * 1024.

Definition Bytes : Type := list ascii.
Definition LF : ascii := ascii_of_nat 10.
Definition CR : ascii := ascii_of_nat 13.

(** What one [fill_buf] returns. *)
Inductive Fill := Chunk (b : Bytes) | Failure (e : string).
Definition Reader : Type := list Fill.

Record OversizeFrame := mkOversize {
  head_window : Bytes;
  tail_window : Bytes;
  of_bytes : Z;
  terminated : bool;
}.

Inductive BoundedFrame := Line (s : string) | Oversize (f : OversizeFrame).

Inductive FramingError := Io (e : string) | TooLarge (bytes limit : Z).

Definition nbytes (b : Bytes) : Z := Z.of_nat (length b).

(** [iter().position(|b| b == '\n')]: the bytes before it, and those after it
    when there is one. *)
Fixpoint split_line (b : Bytes) : Bytes * option Bytes :=
  match b with
  | [] => ([], None)
  | c :: b' =>
      if Ascii.eqb c LF then ([], Some b')
      else let '(seg, rest) := split_line b' in (c :: seg, rest)
  end.

(** The last [n] bytes. *)
Definition last_bytes (n : nat) (b : Bytes) : Bytes := drop (length b - n) b.

(** [String::from_utf8_lossy]. *)
Definition lossy (b : Bytes) : string := from_utf8_lossy (String.string_of_list_ascii b).

Definition pop_cr (b : Bytes) : Bytes :=
  if bool_decide (last b = Some CR) then take (length b - 1) b else b.

(** The reader after the bytes of a buffer up to and including the newline. *)
Definition resume (rest : Bytes) (r : Reader) : Reader :=
  if bool_decide (rest = []) then r else Chunk rest :: r.

(** ** [read_frame_bounded] *)

Record FrameState := mkFrameState { acc : Bytes; tail : Bytes; total : Z; oversize : bool }.

Definition frame_start : FrameState := mkFrameState [] [] 0 false.

Definition oversize_frame (st : FrameState) (terminated : bool) : BoundedFrame :=
  Oversize (mkOversize (acc st) (tail st) (total st) terminated).

(** The end of the stream. *)
Definition frame_eof (st : FrameState) : option BoundedFrame :=
  if oversize st then Some (oversize_frame st false)
  else if bool_decide (acc st = []) then None
  else Some (Line (lossy (acc st))).

(** One segment of the current frame. *)
Definition frame_segment (max_bytes : Z) (st : FrameState) (seg : Bytes) : FrameState :=
  let flips := negb (oversize st) && (max_bytes <? total st + nbytes seg) in
  let st :=
    if flips
    then mkFrameState (take OVERSIZE_WINDOW_BYTES (acc st))
           (tail st ++ last_bytes OVERSIZE_WINDOW_BYTES (acc st)) (total st) true
    else st in
  let st :=
    if oversize st then
      let acc' :=
        if (length (acc st) <? OVERSIZE_WINDOW_BYTES)%nat
        then acc st ++ take (OVERSIZE_WINDOW_BYTES - length (acc st)) seg
        else acc st in
      mkFrameState acc' (last_bytes OVERSIZE_WINDOW_BYTES (tail st ++ seg)) (total st) true
    else mkFrameState (acc st ++ seg) (tail st) (total st) false in
  mkFrameState (acc st) (tail st) (total st + nbytes seg) (oversize st).

Fixpoint read_frame (max_bytes : Z) (st : FrameState) (r : Reader)
  : result (option BoundedFrame) FramingError * Reader :=
  match r with
  | [] => (Ok (frame_eof st), [])
  | Failure e :: r' => (Err (Io e), r')
  | Chunk available :: r' =>
      if bool_decide (available = []) then (Ok (frame_eof st), r')
      else
        let '(seg, nl) := split_line available in
        let st' := frame_segment max_bytes st seg in
        match nl with
        | None => read_frame max_bytes st' r'
        | Some rest =>
            let frame :=
              if oversize st' then oversize_frame st' true else Line (lossy (pop_cr (acc st'))) in
            (Ok (Some frame), resume rest r')
        end
  end.

Definition read_frame_bounded (r : Reader) (max_bytes : Z)
  : result (option BoundedFrame) FramingError * Reader := read_frame max_bytes frame_start r.

(** ** [read_line_bounded] *)

Fixpoint read_line (max_bytes : Z) (acc : Bytes) (r : Reader)
  : result (option string) FramingError * Reader :=
  match r with
  | [] =>
      if bool_decide (acc = []) then (Ok None, [])
      else if max_bytes <? nbytes acc then (Err (TooLarge (nbytes acc) max_bytes), [])
      else (Ok (Some (lossy acc)), [])
  | Failure e :: r' => (Err (Io e), r')
  | Chunk available :: r' =>
      if bool_decide (available = []) then
        if bool_decide (acc = []) then (Ok None, r')
        else if max_bytes <? nbytes acc then (Err (TooLarge (nbytes acc) max_bytes), r')
        else (Ok (Some (lossy acc)), r')
      else
        let '(seg, nl) := split_line available in
        match nl with
        | Some rest =>
            if max_bytes <? nbytes acc + nbytes seg
            then (Err (TooLarge (nbytes acc + nbytes seg) max_bytes), r)
            else (Ok (Some (lossy (pop_cr (acc ++ seg)))), resume rest r')
        | None =>
            if max_bytes <? nbytes acc + nbytes available
            then (Err (TooLarge (nbytes acc + nbytes available) max_bytes), r)
            else read_line max_bytes (acc ++ available) r'
        end
  end.

Definition read_line_bounded (r : Reader) (max_bytes : Z)
  : result (option string) FramingError * Reader := read_line max_bytes [] r.

(** ** The stream without its buffers *)

(** The bytes still to be read. *)
Definition stream (r : Reader) : Bytes :=
  r ≫= λ f, match f with Chunk b => b | Failure _ => [] end.

(** A reader with no failure ahead, all of whose buffers hold data. *)
Definition live (r : Reader) : Prop :=
  Forall (λ f, match f with Chunk b => b ≠ [] | Failure _ => False end) r.

(** What a frame of the stream is: the line, and whether a newline ends it. *)
Definition frame_of (max_bytes : Z) (line : Bytes) (newline : bool) : option BoundedFrame :=
  if max_bytes <? nbytes line then
    Some (Oversize (mkOversize (take OVERSIZE_WINDOW_BYTES line)
                      (last_bytes OVERSIZE_WINDOW_BYTES line) (nbytes line) newline))
  else if newline then Some (Line (lossy (pop_cr line)))
  else if bool_decide (line = []) then None
  else Some (Line (lossy line)).

(** The first frame of a byte sequence and the bytes after it. *)
Definition ref_frame (max_bytes : Z) (bs : Bytes) : option BoundedFrame * Bytes :=
  match split_line bs with
  | (line, None) => (frame_of max_bytes line false, [])
  | (line, Some rest) => (frame_of max_bytes line true, rest)
  end.

(** ** Bytes *)

Lemma nbytes_app a b : nbytes (a ++ b) = nbytes a + nbytes b.
Proof. unfold nbytes. rewrite length_app. lia. Qed.

Lemma nbytes_nonneg a : 0 ≤ nbytes a.
Proof. unfold nbytes. lia. Qed.

Lemma last_bytes_app n (p s : Bytes) : last_bytes n (last_bytes n p ++ s) = last_bytes n (p ++ s).
Proof.
  unfold last_bytes. rewrite !length_app, !length_drop, !drop_app, !drop_drop, !length_drop.
  f_equal; f_equal; lia.
Qed.

Lemma take_window n (p s : Bytes) :
  (if (length (take n p) <? n)%nat then take n p ++ take (n - length (take n p)) s else take n p)
  = take n (p ++ s).
Proof.
  rewrite take_app. destruct (_ <? _)%nat eqn:E; rewrite length_take in *.
  - apply Nat.ltb_lt in E. f_equal. f_equal. lia.
  - apply Nat.ltb_ge in E. replace (n - length p)%nat with 0%nat by lia. by rewrite take_0, app_nil_r.
Qed.

Lemma split_line_app b1 : ∀ b2,
  split_line (b1 ++ b2)
  = match split_line b1 with
    | (s, Some rest) => (s, Some (rest ++ b2))
    | (s, None) => let '(s', nl) := split_line b2 in (s ++ s', nl)
    end.
Proof.
  induction b1 as [|c b1 IH]; intros b2; cbn -[Ascii.eqb].
  { by destruct (split_line b2). }
  destruct (Ascii.eqb c LF); [done|]. rewrite IH. destruct (split_line b1) as [s [rest|]]; [done|].
  by destruct (split_line b2).
Qed.

Lemma split_line_length b s rest : split_line b = (s, Some rest) → length b = S (length s + length rest).
Proof.
  revert s. induction b as [|c b IH]; intros s; cbn -[Ascii.eqb]; [done|].
  destruct (Ascii.eqb c LF); [by intros [= <- <-]|].
  destruct (split_line b) as [s' nl]. intros [= <- ->]. cbn. by rewrite (IH s').
Qed.

Lemma split_line_none b s : split_line b = (s, None) → s = b.
Proof.
  revert s. induction b as [|c b IH]; intros s; cbn -[Ascii.eqb]; [by intros [= <-]|].
  destruct (Ascii.eqb c LF); [done|]. destruct (split_line b) as [s' nl]. intros [= <- ->].
  by rewrite (IH s').
Qed.

(** ** The loop state is a function of the bytes read *)

Definition state_after (max : Z) (p : Bytes) : FrameState :=
  if max <? nbytes p
  then mkFrameState (take OVERSIZE_WINDOW_BYTES p) (last_bytes OVERSIZE_WINDOW_BYTES p) (nbytes p) true
  else mkFrameState p [] (nbytes p) false.

Lemma state_after_start max : 0 ≤ max → state_after max [] = frame_start.
Proof. intros H. unfold state_after. by rewrite (proj2 (Z.ltb_ge _ _)). Qed.

Lemma frame_segment_after max p seg : 0 ≤ max →
  frame_segment max (state_after max p) seg = state_after max (p ++ seg).
Proof.
  intros Hm. unfold frame_segment, state_after. pose proof (nbytes_nonneg seg).
  rewrite nbytes_app. destruct (max <? nbytes p) eqn:Ep; cbn [oversize negb andb acc tail total].
  - apply Z.ltb_lt in Ep. rewrite (proj2 (Z.ltb_lt max (nbytes p + nbytes seg))) by lia.
    by rewrite take_window, last_bytes_app.
  - destruct (max <? nbytes p + nbytes seg) eqn:Es; cbn [oversize acc tail total]; [|done].
    rewrite app_nil_l. by rewrite take_window, last_bytes_app.
Qed.

Lemma frame_eof_after max p : frame_eof (state_after max p) = frame_of max p false.
Proof. unfold frame_eof, state_after, frame_of. by destruct (max <? nbytes p). Qed.

Lemma stream_resume rest r : stream (resume rest r) = rest ++ stream r.
Proof. unfold resume. case_bool_decide as E; [by rewrite E|done]. Qed.

Lemma live_resume rest r : live r → live (resume rest r).
Proof. intros Hr. unfold resume. case_bool_decide; [done|]. by constructor. Qed.

Lemma read_frame_after max r : 0 ≤ max → live r → ∀ p,
  ∃ r', read_frame max (state_after max p) r
        = (Ok (match split_line (stream r) with
               | (line, nl) => frame_of max (p ++ line) (bool_decide (is_Some nl))
               end), r')
        ∧ stream r' = default [] (split_line (stream r)).2 ∧ live r'.
Proof.
  intros Hm Hr. induction Hr as [|f r Hf Hr IH]; intros p.
  - exists []. split; [|split; [done|constructor]]. cbn [read_frame]. rewrite frame_eof_after. cbn. by rewrite app_nil_r.
  - destruct f as [b|]; [|done]. cbn [read_frame stream mbind list_bind].
    rewrite bool_decide_eq_false_2 by done. fold (stream r). rewrite split_line_app.
    destruct (split_line b) as [seg nl] eqn:Eb. rewrite frame_segment_after by done.
    destruct nl as [rest|].
    + exists (resume rest r). rewrite stream_resume. split; [|by split; [|apply live_resume]].
      f_equal. f_equal. unfold state_after, frame_of. by destruct (max <? nbytes (p ++ seg)).
    + destruct (IH (p ++ seg)) as (r' & -> & Hs & Hl). exists r'.
      destruct (split_line (stream r)) as [s' nl']. by rewrite (assoc_L (++)).
Qed.

Lemma read_frame_reference max r : 0 ≤ max → live r →
  ∃ r', read_frame_bounded r max = (Ok (ref_frame max (stream r)).1, r')
        ∧ stream r' = (ref_frame max (stream r)).2 ∧ live r'.
Proof.
  intros Hm Hr. unfold read_frame_bounded, ref_frame. rewrite <- (state_after_start max Hm).
  destruct (read_frame_after max r Hm Hr []) as (r' & -> & Hs & Hl). exists r'.
  destruct (split_line (stream r)) as [line [rest|]]; done.
Qed.

(** [C23] However the transport cuts the byte stream into buffers, a bounded
    read returns the first frame of the stream and leaves exactly the bytes
    after its newline: a frame over the limit comes back with its first and
    last 8 KiB, its exact length and whether a newline ended it, and the next
    read starts at the following frame. *)
Theorem frame_independent_of_buffers r max :
  0 ≤ max → live r →
  ∃ r', read_frame_bounded r max = (Ok (ref_frame max (stream r)).1, r')
        ∧ stream r' = (ref_frame max (stream r)).2 ∧ live r'.
Proof. apply read_frame_reference. Qed.

Definition demo_reader : Reader :=
  [Chunk ["a"; "b"]%char; Chunk ["c"; "d"; "e"]%char; Chunk [LF; "o"]%char; Chunk ["k"; CR]%char; Chunk [LF]].

Lemma frame_independent_of_buffers_witness :
  ∃ r', read_frame_bounded demo_reader 4
        = (Ok (Some (Oversize (mkOversize ["a"; "b"; "c"; "d"; "e"]%char
                                 ["a"; "b"; "c"; "d"; "e"]%char 5 true))), r')
        ∧ stream r' = ["o"; "k"; CR; LF]%char.
Proof.
  destruct (frame_independent_of_buffers demo_reader 4) as (r' & E & Hs & _);
    [done|repeat constructor; done|].
  exists r'. split; [exact E|exact Hs].
Defined.

(** ** Reading to the end *)

(** The relay loop: frames until the end of the stream. *)
Fixpoint read_all (fuel : nat) (max : Z) (r : Reader) : option (list BoundedFrame) :=
  match fuel with
  | O => None
  | S fuel' =>
      match read_frame_bounded r max with
      | (Ok None, _) => Some []
      | (Ok (Some f), r') => cons f <$> read_all fuel' max r'
      | (Err _, _) => None
      end
  end.

(** The lines of a byte sequence, an empty last one left out. *)
Fixpoint lines_of (fuel : nat) (bs : Bytes) : list (Bytes * bool) :=
  match fuel with
  | O => []
  | S fuel' =>
      match split_line bs with
      | (line, Some rest) => (line, true) :: lines_of fuel' rest
      | (line, None) => if bool_decide (line = []) then [] else [(line, false)]
      end
  end.

Definition all_lines (bs : Bytes) : list (Bytes * bool) := lines_of (S (length bs)) bs.

Lemma frame_of_some max line nl : 0 ≤ max → nl = true ∨ line ≠ [] → ∃ f, frame_of max line nl = Some f.
Proof.
  intros Hm H. unfold frame_of. destruct (max <? nbytes line); [eauto|]. destruct nl; [eauto|].
  rewrite bool_decide_eq_false_2; [eauto|]. by destruct H.
Qed.

Lemma read_all_lines max : 0 ≤ max → ∀ fuel r, live r → (length (stream r) < fuel)%nat →
  ∃ fs, read_all fuel max r = Some fs
        ∧ Some <$> fs = (λ l, frame_of max l.1 l.2) <$> lines_of fuel (stream r).
Proof.
  intros Hm. induction fuel as [|fuel IH]; intros r Hr Hf; [lia|].
  cbn [read_all lines_of]. destruct (read_frame_reference max r Hm Hr) as (r' & -> & Hs & Hl).
  unfold ref_frame in *. destruct (split_line (stream r)) as [line [rest|]] eqn:E; cbn [fst snd] in Hs |- *.
  - pose proof (split_line_length _ _ _ E) as Hlen.
    destruct (frame_of_some max line true Hm) as [f Ef]; [by left|]. rewrite Ef.
    destruct (IH r' Hl) as (fs & -> & Hfs); [rewrite Hs; lia|].
    exists (f :: fs). split; [done|]. cbn. rewrite Ef, <- Hs. by f_equal.
  - apply split_line_none in E as Eq. subst line. case_bool_decide as Hn.
    + rewrite Hn. unfold frame_of. rewrite (proj2 (Z.ltb_ge _ _)) by done. cbn. by exists [].
    + destruct (frame_of_some max (stream r) false Hm) as [f Ef]; [by right|]. rewrite Ef.
      assert (0 < length (stream r))%nat by (destruct (stream r); [done|cbn; lia]).
      destruct (IH r' Hl) as (fs & Hall & Hfs); [rewrite Hs; cbn; lia|].
      rewrite Hs in Hfs. destruct fuel as [|fuel']; [lia|]. cbn in Hfs. apply fmap_nil_inv in Hfs as ->.
      rewrite Hall. exists [f]. cbn. by rewrite Ef.
Qed.

(** [C40] The relay reads every frame and comes to the end: on a live stream of
    any length, cut into buffers in any way, reading until the end returns
    after at most one read per byte plus one, never fails, and delivers one
    frame for each line, in order, an oversized frame included. *)
Theorem all_frames_delivered max r :
  0 ≤ max → live r →
  ∃ fs, read_all (S (length (stream r))) max r = Some fs
        ∧ Some <$> fs = (λ l, frame_of max l.1 l.2) <$> all_lines (stream r).
Proof.
  intros Hm Hr. destruct (read_all_lines max Hm (S (length (stream r))) r Hr) as (fs & H); [lia|]. eauto.
Qed.

Lemma all_frames_delivered_witness :
  ∃ fs, read_all 10 4 demo_reader = Some fs ∧ length fs = 2%nat.
Proof.
  destruct (all_frames_delivered 4 demo_reader) as (fs & E & H); [done|repeat constructor; done|].
  exists fs. split; [exact E|].
  apply (f_equal length) in H. rewrite !length_fmap in H. exact H.
Defined.

(** ** The retained bytes *)

Lemma frame_state_bounded max p : 0 ≤ max →
  nbytes (acc (state_after max p)) ≤ Z.max max (Z.of_nat OVERSIZE_WINDOW_BYTES)
  ∧ nbytes (tail (state_after max p)) ≤ Z.of_nat OVERSIZE_WINDOW_BYTES.
Proof.
  intros Hm. unfold state_after, nbytes, last_bytes. destruct (_ <? _) eqn:E; cbn [acc tail].
  - rewrite length_take, length_drop. lia.
  - apply Z.ltb_ge in E. unfold nbytes in E. cbn. lia.
Qed.

(** ** The fail-fast line reader *)

Lemma read_line_after max r : 0 ≤ max → live r → ∀ p, nbytes p ≤ max →
  let '(line, nl) := split_line (stream r) in
  if nbytes (p ++ line) <=? max then
    ∃ r', read_line max p r
          = (Ok (match nl with
                 | Some _ => Some (lossy (pop_cr (p ++ line)))
                 | None => if bool_decide (p ++ line = []) then None else Some (lossy (p ++ line))
                 end), r')
          ∧ stream r' = default [] nl ∧ live r'
  else ∃ n r', read_line max p r = (Err (TooLarge n max), r') ∧ max < n ≤ nbytes (p ++ line).
Proof.
  intros Hm Hr. induction Hr as [|f r Hf Hr IH]; intros p Hp.
  - cbn. rewrite app_nil_r, (proj2 (Z.leb_le _ _)) by done. exists []. split; [|split; [done|constructor]].
    rewrite (proj2 (Z.ltb_ge _ _)) by done. by repeat case_bool_decide.
  - destruct f as [b|]; [|done]. cbn [read_line stream mbind list_bind].
    rewrite bool_decide_eq_false_2 by done. fold (stream r). rewrite split_line_app.
    destruct (split_line b) as [seg [rest|]] eqn:Eb.
    + rewrite nbytes_app. destruct (_ <=? max) eqn:E.
      * apply Z.leb_le in E. rewrite (proj2 (Z.ltb_ge _ _)) by done.
        exists (resume rest r). rewrite stream_resume. split; [done|]. by split; [|apply live_resume].
      * apply Z.leb_gt in E. rewrite (proj2 (Z.ltb_lt _ _)) by done. eexists _, _. split; [done|]. lia.
    + apply split_line_none in Eb as ->. destruct (split_line (stream r)) as [line nl] eqn:Es.
      destruct (max <? nbytes p + nbytes b) eqn:E.
      * apply Z.ltb_lt in E. pose proof (nbytes_nonneg line). rewrite !nbytes_app.
        rewrite (proj2 (Z.leb_gt _ _)) by lia. eexists _, _. split; [done|]. lia.
      * apply Z.ltb_ge in E. specialize (IH (p ++ b)). rewrite nbytes_app in IH.
        specialize (IH E). by rewrite (assoc_L (++)).
Qed.
