(* ===== verification/WireFrame.v ===== *)
(** * WireFrame: what is read off a frame

    [src/src/protocol/fields.rs] and the readers of
    [src/src/auditor/proxy_rpc.rs]: the members of a parsed JSON-RPC frame as
    the inputs of the request table and of the decision. *)

From S2P Require Import Prelude Text Json Protocol RpcId McpRules McpDecide.

Definition META_PROTOCOL_VERSION : string := "io.modelcontextprotocol/protocolVersion".
Definition META_CLIENT_CAPABILITIES : string := "io.modelcontextprotocol/clientCapabilities".
Definition META_SUBSCRIPTION_ID : string := "io.modelcontextprotocol/subscriptionId".
Definition META_LOG_LEVEL : string := "io.modelcontextprotocol/logLevel".

(** ** Capabilities *)

Fixpoint flatten_nested (name : string) (nested : list (string * Json)) : list string :=
  match nested with
  | [] => []
  | (sub, value) :: rest =>
      (if bool_decide (as_boolean value = Some true) then [name +:+ "." +:+ sub] else [])
      ++ flatten_nested name rest
  end.

Fixpoint flatten_members (members : list (string * Json)) : list string :=
  match members with
  | [] => []
  | (name, value) :: rest =>
      match to_object value with
      | None => []
      | Some nested => name :: flatten_nested name nested
      end ++ flatten_members rest
  end.

Definition flatten_capabilities (caps : Json) : list string :=
  match to_object caps with
  | None => []
  | Some members => flatten_members members
  end.

Definition capability_names (caps : Json) : list string := flatten_capabilities caps.

(** ** [_meta] *)

Definition string_member (v : Json) (name : string) : option string :=
  m ← member v name; as_string_str m.

Definition request_meta (holder : Json) : option RequestMeta :=
  match member holder "_meta" with
  | None => None
  | Some meta =>
      if negb (is_object meta) then Some (mkRequestMeta true None Absent [] None None)
      else
        let caps := member meta META_CLIENT_CAPABILITIES in
        Some (mkRequestMeta false
          (string_member meta META_PROTOCOL_VERSION)
          match caps with
          | None => Absent
          | Some c => if is_object c then Valid else Invalid
          end
          match caps with
          | None => []
          | Some c => flatten_capabilities c
          end
          (string_member meta META_LOG_LEVEL)
          (as_raw_str <$> member meta META_SUBSCRIPTION_ID))
  end.

Definition initialize_shape (params : option Json) : InitializeShape :=
  match params with
  | None => mkInitializeShape false false false
  | Some p =>
      mkInitializeShape
        (bool_decide (is_Some (string_member p "protocolVersion")))
        (is_some_and (member p "capabilities") is_object)
        (is_some_and (member p "clientInfo") is_object)
  end.

(** ** Listen filters *)

Definition filters_default : ListenFilters := mkListenFilters None None None None [].

Definition push_unknown (l : ListenFilters) (name : string) : ListenFilters :=
  mkListenFilters (tools_list_changed l) (prompts_list_changed l) (resources_list_changed l)
    (resource_subscriptions l) (unknown l ++ [name]).

(** The URIs of an array of strings; [None] when the value is anything else. *)
Definition parse_uri_list (value : Json) : option (list string) :=
  items ← to_array value; mapM as_string_str items.

Definition set_flag (l : ListenFilters) (f : SubscriptionFilter) (b : bool) : ListenFilters :=
  match f with
  | ToolsListChanged =>
      mkListenFilters (Some b) (prompts_list_changed l) (resources_list_changed l)
        (resource_subscriptions l) (unknown l)
  | PromptsListChanged =>
      mkListenFilters (tools_list_changed l) (Some b) (resources_list_changed l)
        (resource_subscriptions l) (unknown l)
  | ResourcesListChanged =>
      mkListenFilters (tools_list_changed l) (prompts_list_changed l) (Some b)
        (resource_subscriptions l) (unknown l)
  | ResourceSubscriptions => l
  end.

Definition set_uris (l : ListenFilters) (uris : list string) : ListenFilters :=
  mkListenFilters (tools_list_changed l) (prompts_list_changed l) (resources_list_changed l)
    (Some uris) (unknown l).

Definition apply_filter (out : ListenFilters) (name : string) (value : Json) : ListenFilters :=
  match SubscriptionFilter_parse name with
  | Some ResourceSubscriptions =>
      match parse_uri_list value with
      | Some uris => set_uris out uris
      | None => set_uris (push_unknown out name) []
      end
  | Some flag =>
      match as_boolean value with
      | Some b => set_flag out flag b
      | None => push_unknown out name
      end
  | None => push_unknown out name
  end.

Fixpoint filter_members (members : list (string * Json)) (seen : list string) (out : ListenFilters)
  : ListenFilters :=
  match members with
  | [] => out
  | (name, value) :: rest =>
      if bool_decide (name ∈ seen) then filter_members rest seen (push_unknown out name)
      else filter_members rest (name :: seen) (apply_filter out name value)
  end.

Definition listen_filters (params : option Json) : ListenFilters :=
  match (p ← params; member p "notifications") with
  | None => filters_default
  | Some notifications =>
      match to_object notifications with
      | None => push_unknown filters_default "notifications"
      | Some members => filter_members members [] filters_default
      end
  end.

(** ** Scalars *)

Definition string_param (params : option Json) (name : string) : option string :=
  p ← params; string_member p name.

Definition raw_param (params : option Json) (name : string) : option string :=
  p ← params; as_raw_str <$> member p name.
Definition request_id_param (params : option Json) : option string := raw_param params "requestId".
Definition progress_token_param (params : option Json) : option string := raw_param params "progressToken".

Definition listen_subscription_id (params : option Json) : option string :=
  p ← params; meta ← member p "_meta"; as_raw_str <$> member meta META_SUBSCRIPTION_ID.

Definition result_type_field (res : Json) : option string := string_member res "resultType".

(** [str::parse::<i64>] of an integer's text. *)
Definition I64_MAX : Z := 2 ^ 63 - 1.
Definition parse_i64 (s : string) : option Z :=
  match strip_prefix "-" s with
  | Some rest => if is_empty rest then None else Z.opp <$> digits_value 10 (2 ^ 63) 0 rest
  | None => from_str_radix 10 I64_MAX s
  end.

Definition ttl_ms_field (res : Json) : SchemaField :=
  match member res "ttlMs" with
  | None => Absent
  | Some (JInteger raw) =>
      match parse_i64 raw with
      | Some v => if (0 <=? v)%Z then Valid else Invalid
      | None => Invalid
      end
  | Some _ => Invalid
  end.

Definition cache_scope_field (res : Json) : SchemaField :=
  match member res "cacheScope" with
  | None => Absent
  | Some v =>
      match as_string_str v with
      | Some s => str_match s [(["public"; "private"], Valid)] Invalid
      | None => Invalid
      end
  end.

(** ** MRTR input requests *)

Record InputRequestEntry := mkEntry { ire_key : string; ire_method : option string }.
Definition MAX_INPUT_REQUESTS : nat := 64.

Inductive InputRequests :=
  | IRAbsent | IRMap (entries : list InputRequestEntry) | IRMalformed | IROverrun.

(** The members of one descriptor: a [method] string and an optional [params]
    object, each at most once. *)
Fixpoint descriptor (members : list (string * Json)) (method : option string) (params_seen : bool)
  : option (option string) :=
  match members with
  | [] => Some method
  | (name, value) :: rest =>
      if String.eqb name "method" then
        match method with
        | Some _ => None
        | None =>
            match as_string_str value with
            | Some m => descriptor rest (Some m) params_seen
            | None => None
            end
        end
      else if String.eqb name "params" then
        if params_seen || negb (is_object value) then None else descriptor rest method true
      else None
  end.

Definition input_request_method (entry : Json) : option string :=
  members ← to_object entry; mjoin (descriptor members None false).

Fixpoint input_entries (members : list (string * Json)) (entries : list InputRequestEntry)
  : InputRequests :=
  match members with
  | [] => IRMap entries
  | (key, entry) :: rest =>
      if (MAX_INPUT_REQUESTS <=? length entries)%nat then IROverrun
      else input_entries rest (entries ++ [mkEntry key (input_request_method entry)])
  end.

Definition input_requests (res : Json) : InputRequests :=
  match member res "inputRequests" with
  | None => IRAbsent
  | Some value =>
      match to_object value with
      | None => IRMalformed
      | Some members => input_entries members []
      end
  end.

Definition request_state (res : Json) : SchemaField :=
  match member res "requestState" with
  | None => Absent
  | Some v => if bool_decide (is_Some (as_string_str v)) then Valid else Invalid
  end.

Definition MAX_PENDING_ELICITATIONS : nat := 256.
Definition MAX_CAPABILITY_NAMES : nat := 512.
Definition URL_ELICITATION_REQUIRED_CODE : Z := -32042.

#[export] Instance MessageDirection_countable : Countable MessageDirection.
Proof.
  apply (inj_countable' (λ d, match d with ClientToServer => true | ServerToClient => false end)
    (λ b : bool, if b then ClientToServer else ServerToClient)).
  by intros [].
Defined.

Definition opposite (d : MessageDirection) : MessageDirection :=
  match d with
  | ClientToServer => ServerToClient
  | ServerToClient => ClientToServer
  end.

(** ** Classification *)

Inductive WireFrame :=
  | WRequest (method : string) (id : RpcId) (raw_id : string)
  | WNotification (method : string)
  | WResponse (id : RpcId) (raw_id : string)
  | WMalformed (reason : string) (raw_id : option string).

Definition params_value (v : Json) : option Json := member v "params".
Definition meta_value (params : option Json) : option Json := p ← params; member p "_meta".
Definition rpc_id_member (params : option Json) (name : string) : option RpcId :=
  p ← params; v ← member p name; parse_from_json v.

Definition has_member (v : Json) (name : string) : bool := bool_decide (is_Some (member v name)).

Definition classify_frame (v : Json) : WireFrame :=
  if negb (is_object v) then WMalformed "frame is not a JSON object" None
  else
    let id_value := member v "id" in
    let raw_id := as_raw_str <$> id_value in
    if negb (bool_decide ((j ← member v "jsonrpc"; as_string_str j) = Some "2.0"))
    then WMalformed "missing or invalid jsonrpc member" raw_id
    else
      let has_result := has_member v "result" in
      let has_error := has_member v "error" in
      let rpc_id := id_value ≫= parse_from_json in
      match member v "method" with
      | Some method_value =>
          match to_unquoted_string_str method_value with
          | None => WMalformed "method is not a string" raw_id
          | Some method =>
              if has_result || has_error then WMalformed "method and result/error members mixed" raw_id
              else if bool_decide (is_Some id_value) then
                match rpc_id with
                | Some id => WRequest method id (default "null" raw_id)
                | None => WMalformed "request id must be a string, number, or null" raw_id
                end
              else WNotification method
          end
      | None =>
          if has_result && has_error then WMalformed "response carries both result and error" raw_id
          else if has_result || has_error then
            match rpc_id with
            | Some id => WResponse id (default "null" raw_id)
            | None => WMalformed "response id missing or invalid" raw_id
            end
          else WMalformed "frame has no method, result, or error member" raw_id
      end.

Definition has_response_members (v : Json) : bool := has_member v "result" || has_member v "error".

(** ** Requests *)

Record ExtractedRequest := mkExtReq {
  xr_meta : option RequestMeta;
  xr_meta_declares_version : bool;
  xr_initialize : InitializeShape;
  xr_initialize_client_capabilities : list string;
  xr_uri : option string;
  xr_level : option string;
  xr_notifications : option ListenFilters;
  xr_progress_token : option RpcId;
  xr_elicitation_id : option string;
}.

Definition ext_params (x : ExtractedRequest) : RequestParams :=
  mkParams (xr_initialize x) (xr_uri x) (xr_level x) (xr_notifications x).

Definition capped_capabilities (caps : option Json) : list string :=
  match caps with
  | Some v => take MAX_CAPABILITY_NAMES (capability_names v)
  | None => []
  end.

Definition extract_request (v : Json) (method : string) : ExtractedRequest :=
  let params := params_value v in
  let meta_member := meta_value params in
  mkExtReq
    (params ≫= request_meta)
    (is_some_and meta_member (λ m, has_member m META_PROTOCOL_VERSION))
    (initialize_shape params)
    (if String.eqb method "initialize"
     then capped_capabilities (p ← params; member p "capabilities") else [])
    (string_param params "uri")
    (string_param params "level")
    (if String.eqb method "subscriptions/listen"
        && is_some_and params (λ p, has_member p "notifications")
     then Some (listen_filters params) else None)
    (m ← meta_member; t ← member m "progressToken"; parse_from_json t)
    (if String.eqb method "elicitation/create" then string_param params "elicitationId" else None).

(** ** Notifications *)

Record ExtractedNotification := mkExtNote {
  xn_uri : option string;
  xn_level : option string;
  xn_ack_filters : option ListenFilters;
  xn_cancel_id : option RpcId;
  xn_progress_token : option RpcId;
  xn_subscription_id : option RpcId;
  xn_elicitation_id : option string;
}.

Definition extract_notification (v : Json) (method : string) : ExtractedNotification :=
  let params := params_value v in
  mkExtNote
    (string_param params "uri")
    (string_param params "level")
    (if String.eqb method "notifications/subscriptions/acknowledged"
        && is_some_and params (λ p, has_member p "notifications")
     then Some (listen_filters params) else None)
    (rpc_id_member params "requestId")
    (rpc_id_member params "progressToken")
    (m ← meta_value params; s ← member m META_SUBSCRIPTION_ID; parse_from_json s)
    (if String.eqb method "notifications/elicitation/complete"
     then string_param params "elicitationId" else None).

(** ** Responses *)

Record ExtractedResponse := mkExtResp {
  xp_is_error : bool;
  xp_has_result : bool;
  xp_result_type : option string;
  xp_ttl_ms : SchemaField;
  xp_cache_scope : SchemaField;
  xp_input_requests : bool;
  xp_initialize_protocol_version : option string;
  xp_initialize_server_capabilities : list string;
  xp_elicitation_ids : list string;
}.

(** The [elicitationId]s of a URL_ELICITATION_REQUIRED error. *)
Definition error_elicitations (error : option Json) : list string :=
  match (e ← error;
         if bool_decide ((c ← member e "code"; n ← as_number_str c; parse_i64 n)
                         = Some URL_ELICITATION_REQUIRED_CODE)
         then d ← member e "data"; l ← member d "elicitations"; to_array l
         else None) with
  | Some els => take MAX_PENDING_ELICITATIONS (omap (λ el, string_param (Some el) "elicitationId") els)
  | None => []
  end.

Definition extract_response (v : Json) : ExtractedResponse :=
  let res := member v "result" in
  let error := member v "error" in
  mkExtResp
    (bool_decide (is_Some error))
    (bool_decide (is_Some res))
    (res ≫= result_type_field)
    (from_option ttl_ms_field Absent res)
    (from_option cache_scope_field Absent res)
    (is_some_and res (λ r, has_member r "inputRequests"))
    (r ← res; string_param (Some r) "protocolVersion")
    (capped_capabilities (r ← res; member r "capabilities"))
    (error_elicitations error).

(** ** Tracked requests *)

Record SubTracker := mkTracker {
  st_state : SubscriptionState;
  st_requested : ListenFilters;
  st_acked : list SubscriptionFilter;
  st_acked_uris : list string;
}.

Record TrackedRequest := mkTracked {
  tr_method : string;
  tr_version : SupportedProtocolVersion;
  tr_allowed : bool;
  tr_dry_run : bool;
  tr_internal : bool;
  tr_progress_token : option RpcId;
  tr_log_level : option string;
  tr_client_capabilities : list string;
  tr_uri : option string;
  tr_level : option string;
  tr_cancelled : bool;
  tr_responded : bool;
  tr_subscription : option SubTracker;
}.

Definition from_extracted (method : string) (version : SupportedProtocolVersion)
    (allowed dry_run : bool) (ext : ExtractedRequest) : TrackedRequest :=
  mkTracked method version allowed dry_run false
    (xr_progress_token ext)
    (xr_meta ext ≫= log_level)
    (from_option client_capabilities [] (xr_meta ext))
    (xr_uri ext) (xr_level ext) false false
    (if String.eqb method "subscriptions/listen"
     then Some (mkTracker PendingAck (default filters_default (xr_notifications ext)) [] [])
     else None).

Definition internal_list (version : SupportedProtocolVersion) : TrackedRequest :=
  mkTracked "tools/list" version true false true None None [] None None false false None.

Record AnsweredRequest := mkAnsReq {
  aq_request_direction : MessageDirection;
  aq_method : string;
  aq_reached_peer : bool;
  aq_internal : bool;
}.

(** ** Decision inputs *)

Definition request_message (version : SupportedProtocolVersion) (direction : MessageDirection)
    (method : string) (ext : ExtractedRequest) : TrafficMessage :=
  TRequest (mkRequest version direction method (xr_meta ext) (Some (ext_params ext))).

Definition notification_message (version : SupportedProtocolVersion) (direction : MessageDirection)
    (method : string) (ext : ExtractedNotification) (cancel_target : CancelFacts)
    (progress : ProgressCorrelation) (message_for : option MessageCorrelation)
    (subscription : option SubscriptionFacts) : TrafficMessage :=
  TNotification (mkNotification version direction method (xn_uri ext) (xn_level ext)
    (xn_ack_filters ext) (xn_elicitation_id ext) cancel_target progress message_for subscription).

Definition answered_facts (a : AnsweredRequest) : AnsweredFacts :=
  mkAnswered (aq_request_direction a) (aq_method a) (aq_reached_peer a).

Definition response_message (direction : MessageDirection) (version : SupportedProtocolVersion)
    (ext : ExtractedResponse) (answered : option AnsweredFacts) : TrafficMessage :=
  TResponse (mkResponse version direction (xp_is_error ext) (xp_has_result ext) (xp_result_type ext)
    (xp_ttl_ms ext) (xp_cache_scope ext) (xp_input_requests ext) answered).
