(* ===== verification/Wire.v ===== *)
(** * Wire: the bidirectional request table of the auditor

    [src/src/auditor/proxy_rpc/wire.rs] ([WireState]): the established revision,
    the 2025-11-25 lifecycle, the negotiated capabilities, the subscriptions and
    elicitations, and the bounded table of requests in flight in both
    directions, with the ids retired from it and the ledger of the bytes all
    of these retain.  The table is a hash map: the order in which it is
    iterated is a parameter [iter] that lists the entries of a map in some
    order.  The facts handed to the decision procedure are computed here from
    the state.  A failed forward is rolled back with the token its
    registration returned. *)

From S2P Require Import Prelude Text Json RpcId Protocol WireFrame McpRules McpDecide Session.

Open Scope Z_scope.

Definition MAX_IN_FLIGHT_REQUESTS : nat := 128.
Definition MAX_RETIRED_REQUEST_IDS : nat := MAX_IN_FLIGHT_REQUESTS.
Definition MAX_RESOURCE_SUBSCRIPTIONS : nat := 256.
Definition MAX_RETAINED_VALUE_BYTES : Z := 1024.
Definition MAX_WIRE_STATE_BYTES : Z := 4 * 1024 * 1024.

Definition bounded_names (names : list string) : list string :=
  List.filter (λ n, len n <=? MAX_RETAINED_VALUE_BYTES) names.

Notation WireKey := (MessageDirection * RpcId)%type.

(** ** State *)

Record WireState := mkWire {
  w_version : option SupportedProtocolVersion;
  w_init : InitStage;
  w_pending_init : option (list string);
  w_client_capabilities : list string;
  w_server_capabilities : list string;
  w_resource_subscriptions : list string;
  w_pending_elicitations : list string;
  w_log_level : option string;
  w_requests : gmap WireKey TrackedRequest;
  w_retired : gset WireKey;
  w_bytes : Z;
}.

Definition wire_new : WireState :=
  mkWire None PendingInitialize None [] [] [] [] None ∅ ∅ 0.

(** Field updates. *)
Definition set_version (w : WireState) (x : option SupportedProtocolVersion) : WireState :=
  mkWire x (w_init w) (w_pending_init w) (w_client_capabilities w) (w_server_capabilities w)
    (w_resource_subscriptions w) (w_pending_elicitations w) (w_log_level w) (w_requests w)
    (w_retired w) (w_bytes w).
Definition set_init (w : WireState) (x : InitStage) : WireState :=
  mkWire (w_version w) x (w_pending_init w) (w_client_capabilities w) (w_server_capabilities
    w) (w_resource_subscriptions w) (w_pending_elicitations w) (w_log_level w) (w_requests w)
    (w_retired w) (w_bytes w).
Definition set_pending_init (w : WireState) (x : option (list string)) : WireState :=
  mkWire (w_version w) (w_init w) x (w_client_capabilities w) (w_server_capabilities w)
    (w_resource_subscriptions w) (w_pending_elicitations w) (w_log_level w) (w_requests w)
    (w_retired w) (w_bytes w).
Definition set_client_capabilities (w : WireState) (x : list string) : WireState :=
  mkWire (w_version w) (w_init w) (w_pending_init w) x (w_server_capabilities w)
    (w_resource_subscriptions w) (w_pending_elicitations w) (w_log_level w) (w_requests w)
    (w_retired w) (w_bytes w).
Definition set_server_capabilities (w : WireState) (x : list string) : WireState :=
  mkWire (w_version w) (w_init w) (w_pending_init w) (w_client_capabilities w) x
    (w_resource_subscriptions w) (w_pending_elicitations w) (w_log_level w) (w_requests w)
    (w_retired w) (w_bytes w).
Definition set_resource_subscriptions (w : WireState) (x : list string) : WireState :=
  mkWire (w_version w) (w_init w) (w_pending_init w) (w_client_capabilities w)
    (w_server_capabilities w) x (w_pending_elicitations w) (w_log_level w) (w_requests w)
    (w_retired w) (w_bytes w).
Definition set_pending_elicitations (w : WireState) (x : list string) : WireState :=
  mkWire (w_version w) (w_init w) (w_pending_init w) (w_client_capabilities w)
    (w_server_capabilities w) (w_resource_subscriptions w) x (w_log_level w) (w_requests w)
    (w_retired w) (w_bytes w).
Definition set_log_level (w : WireState) (x : option string) : WireState :=
  mkWire (w_version w) (w_init w) (w_pending_init w) (w_client_capabilities w)
    (w_server_capabilities w) (w_resource_subscriptions w) (w_pending_elicitations w) x
    (w_requests w) (w_retired w) (w_bytes w).
Definition set_requests (w : WireState) (x : gmap WireKey TrackedRequest) : WireState :=
  mkWire (w_version w) (w_init w) (w_pending_init w) (w_client_capabilities w)
    (w_server_capabilities w) (w_resource_subscriptions w) (w_pending_elicitations w)
    (w_log_level w) x (w_retired w) (w_bytes w).
Definition set_retired (w : WireState) (x : gset WireKey) : WireState :=
  mkWire (w_version w) (w_init w) (w_pending_init w) (w_client_capabilities w)
    (w_server_capabilities w) (w_resource_subscriptions w) (w_pending_elicitations w)
    (w_log_level w) (w_requests w) x (w_bytes w).
Definition set_bytes (w : WireState) (x : Z) : WireState :=
  mkWire (w_version w) (w_init w) (w_pending_init w) (w_client_capabilities w)
    (w_server_capabilities w) (w_resource_subscriptions w) (w_pending_elicitations w)
    (w_log_level w) (w_requests w) (w_retired w) x.

(** ** The byte ledger *)

Definition key_bytes (id : RpcId) : Z := 1 + rpc_id_bytes id.

Definition opt_len (o : option string) : Z := from_option len 0 o.

Definition request_bytes (id : RpcId) (e : TrackedRequest) : Z :=
  key_bytes id + len (tr_method e)
  + from_option rpc_id_bytes 0 (tr_progress_token e)
  + opt_len (tr_log_level e)
  + sum_of len (tr_client_capabilities e)
  + opt_len (tr_uri e) + opt_len (tr_level e)
  + match tr_subscription e with
    | Some sub =>
        sum_of len (st_acked_uris sub)
        + from_option (sum_of len) 0 (resource_subscriptions (st_requested sub))
    | None => 0
    end.

Definition too_long (s : string) : bool := MAX_RETAINED_VALUE_BYTES <? len s.

Definition entry_oversized (id : RpcId) (e : TrackedRequest) : bool :=
  (MAX_RPC_ID_BYTES <? rpc_id_bytes id)
  || too_long (tr_method e)
  || is_some_and (tr_progress_token e) (λ t, MAX_RPC_ID_BYTES <? rpc_id_bytes t)
  || is_some_and (tr_log_level e) too_long
  || is_some_and (tr_uri e) too_long
  || is_some_and (tr_level e) too_long
  || existsb too_long (tr_client_capabilities e)
  || is_some_and (tr_subscription e) (λ sub,
       existsb too_long (st_acked_uris sub
                         ++ default [] (resource_subscriptions (st_requested sub)))).

(** The state after charging [n] bytes, if the budget holds them. *)
Definition charge_bytes (w : WireState) (n : Z) : option WireState :=
  if MAX_WIRE_STATE_BYTES <? saturating_add (w_bytes w) n then None
  else Some (set_bytes w (w_bytes w + n)).

Definition refund_bytes (w : WireState) (n : Z) : WireState :=
  set_bytes w (saturating_sub (w_bytes w) n).

Definition remove_request (w : WireState) (key : WireKey) (retired : bool)
  : WireState * option TrackedRequest :=
  match w_requests w !! key with
  | None => (w, None)
  | Some entry =>
      let w1 := set_requests w (delete key (w_requests w)) in
      let n := request_bytes key.2 entry - (if retired then key_bytes key.2 else 0) in
      (refund_bytes w1 n, Some entry)
  end.

(** ** Versions and facts *)

Definition wire_version (w : WireState) : option SupportedProtocolVersion := w_version w.
Definition passive_version (w : WireState) : SupportedProtocolVersion := default V25 (w_version w).

Definition request_version (w : WireState) (method : string) (meta_declares_version : bool)
  : result SupportedProtocolVersion DenyReason :=
  if bool_decide (w_version w = Some V26) then Ok V26
  else if String.eqb method "initialize" then Ok V25
  else if meta_declares_version then
    match w_version w with
    | Some Mcp2025November25 => Err DnMetaVersion
    | _ => Ok V26
    end
  else Ok V25.

Definition session_facts (w : WireState) : SessionFacts :=
  mkFacts (w_init w) (w_client_capabilities w) (w_server_capabilities w)
    (w_resource_subscriptions w) (w_pending_elicitations w) (w_log_level w).

Section iteration.
Context (iter : gmap WireKey TrackedRequest → list (WireKey * TrackedRequest)).

(** ** Registration *)

Definition reclaimable (e : WireKey * TrackedRequest) : bool :=
  tr_cancelled e.2 && bool_decide (tr_subscription e.2 = None).

Definition register (w : WireState) (direction : MessageDirection) (id : RpcId)
    (entry : TrackedRequest) : result WireState string :=
  let key := (direction, id) in
  if bool_decide (id = RNull) then Err "request id must not be null"
  else if bool_decide (is_Some (w_requests w !! key)) then Err "duplicate in-flight request id"
  else if bool_decide (key ∈ w_retired w)
  then Err "request id retired after cancelled-entry reclaim"
  else if entry_oversized id entry
  then Err "request retains an oversized peer-controlled value"
  else
    (reclaim ←?
       (if (MAX_IN_FLIGHT_REQUESTS <=? size (w_requests w))%nat then
          match List.find reclaimable (iter (w_requests w)) with
          | None => Err "in-flight request limit reached"
          | Some victim =>
              if (MAX_RETIRED_REQUEST_IDS <=? size (w_retired w))%nat
              then Err "retired request id budget exhausted"
              else Ok (Some victim.1)
          end
        else Ok None);
     let charge := request_bytes id entry in
     let refunded :=
       match reclaim with
       | Some victim =>
           match w_requests w !! victim with
           | Some e => request_bytes victim.2 e - key_bytes victim.2
           | None => 0
           end
       | None => 0
       end in
     if MAX_WIRE_STATE_BYTES <? saturating_add (saturating_sub (w_bytes w) refunded) charge
     then Err "wire ledger byte budget exhausted"
     else
       let w1 :=
         match reclaim with
         | Some victim =>
             let w' := (remove_request w victim true).1 in
             set_retired w' ({[victim]} ∪ w_retired w')
         | None => w
         end in
       let w2 := default w1 (charge_bytes w1 charge) in
       Ok (set_requests w2 (<[key := entry]> (w_requests w2))))%result.

Definition can_register (w : WireState) (direction : MessageDirection) (id : RpcId)
  : result unit string :=
  let key := (direction, id) in
  if bool_decide (id = RNull) then Err "request id must not be null"
  else if bool_decide (is_Some (w_requests w !! key)) then Err "duplicate in-flight request id"
  else if bool_decide (key ∈ w_retired w)
  then Err "request id retired after cancelled-entry reclaim"
  else
    (_ ←?
       (if (MAX_IN_FLIGHT_REQUESTS <=? size (w_requests w))%nat then
          if negb (existsb reclaimable (iter (w_requests w))) then Err "in-flight request limit reached"
          else if (MAX_RETIRED_REQUEST_IDS <=? size (w_retired w))%nat
          then Err "retired request id budget exhausted"
          else Ok ()
        else Ok ());
     if MAX_WIRE_STATE_BYTES <? saturating_add (w_bytes w) (key_bytes id)
     then Err "wire ledger byte budget exhausted" else Ok ())%result.

Definition unregister (w : WireState) (direction : MessageDirection) (id : RpcId) : WireState :=
  (remove_request w (direction, id) false).1.

Definition wire_get (w : WireState) (direction : MessageDirection) (id : RpcId)
  : option TrackedRequest := w_requests w !! (direction, id).

Definition wire_take (w : WireState) (direction : MessageDirection) (id : RpcId)
  : WireState * option TrackedRequest := remove_request w (direction, id) false.

(** ** Correlation *)

Definition answered (w : WireState) (response_direction : MessageDirection) (id : RpcId)
  : option AnsweredRequest :=
  e ← w_requests w !! (opposite response_direction, id);
  if tr_responded e then None
  else Some (mkAnsReq (opposite response_direction) (tr_method e)
               (tr_allowed e || tr_dry_run e) (tr_internal e)).

Definition cancel_facts (w : WireState) (direction : MessageDirection) (id : RpcId)
    (version : SupportedProtocolVersion) : CancelFacts :=
  if bool_decide (version = V26) && bool_decide (direction = S2C) then
    match (e ← w_requests w !! (C2S, id); st_state <$> tr_subscription e) with
    | Some PendingAck | Some Active => CancelSubscriptionId
    | _ => Unrelated
    end
  else
    match w_requests w !! (direction, id) with
    | Some _ => OwnedRequest
    | None => Unrelated
    end.

Definition progress (w : WireState) (direction : MessageDirection) (token : RpcId)
  : ProgressCorrelation :=
  let requester := opposite direction in
  if existsb (λ e, bool_decide (e.1.1 = requester) && bool_decide (tr_progress_token e.2 = Some token))
       (iter (w_requests w))
  then Matched else Unmatched.

Definition message_correlation (w : WireState) (subscription_id progress_token : option RpcId)
  : option MessageCorrelation :=
  match (id ← subscription_id; e ← w_requests w !! (C2S, id);
         if bool_decide (is_Some (tr_subscription e)) then Some e else None) with
  | Some entry => Some (mkCorr (tr_log_level entry))
  | None =>
      match (token ← progress_token;
             List.find (λ e, bool_decide (e.1.1 = C2S)
                             && bool_decide (tr_progress_token e.2 = Some token))
               (iter (w_requests w))) with
      | Some (_, entry) => Some (mkCorr (tr_log_level entry))
      | None =>
          match List.filter (λ e, bool_decide (e.1.1 = C2S) && bool_decide (is_Some (tr_log_level e.2)))
                  (iter (w_requests w)) with
          | [(_, entry)] => Some (mkCorr (tr_log_level entry))
          | _ => None
          end
      end
  end.
End iteration.

Definition subscription_facts (w : WireState) (id : RpcId) : option SubscriptionFacts :=
  entry ← w_requests w !! (C2S, id);
  sub ← tr_subscription entry;
  Some (mkSub (st_state sub) (st_requested sub) (st_acked sub) (st_acked_uris sub)).

(** ** Forwarded requests *)

Record RequestForwardUndo := mkUndo {
  undo_direction : MessageDirection;
  undo_id : RpcId;
  undo_version : option SupportedProtocolVersion;
  undo_pending_init : option (list string);
  undo_elicitation : option string;
}.

Definition set_pending_init_caps (w : WireState) (caps : option (list string)) : WireState :=
  let w1 := match w_pending_init w with
            | Some old => refund_bytes w (sum_of len old)
            | None => w
            end in
  match bounded_names <$> caps with
  | Some new =>
      match charge_bytes w1 (sum_of len new) with
      | Some w2 => set_pending_init w2 (Some new)
      | None => set_pending_init w1 (Some [])
      end
  | None => set_pending_init w1 None
  end.

Definition drop_elicitation (w : WireState) (el_id : string) : WireState :=
  let same := λ e, String.eqb e el_id in
  let w1 := refund_bytes w (sum_of len (List.filter same (w_pending_elicitations w))) in
  set_pending_elicitations w1 (List.filter (λ e, negb (same e)) (w_pending_elicitations w1)).

(** The state with the id tracked, or [None]. *)
Definition track_elicitation (w : WireState) (el_id : string) : option WireState :=
  if (MAX_RETAINED_VALUE_BYTES <? len el_id)
     || existsb (λ e, String.eqb e el_id) (w_pending_elicitations w)
     || (MAX_PENDING_ELICITATIONS <=? length (w_pending_elicitations w))%nat
  then None
  else
    match charge_bytes w (len el_id) with
    | None => None
    | Some w1 => Some (set_pending_elicitations w1 (w_pending_elicitations w1 ++ [el_id]))
    end.

Definition on_request_forwarded (w : WireState) (direction : MessageDirection) (id : RpcId)
    (method : string) (version : SupportedProtocolVersion) (ext : ExtractedRequest)
  : WireState * RequestForwardUndo :=
  let undo := mkUndo direction id (w_version w) (w_pending_init w) None in
  match direction with
  | ClientToServer =>
      let w1 := match w_version w with
                | None => set_version w (Some version)
                | Some _ => w
                end in
      let w2 := if String.eqb method "initialize"
                then set_pending_init_caps w1 (Some (xr_initialize_client_capabilities ext))
                else w1 in
      (w2, undo)
  | ServerToClient =>
      if String.eqb method "elicitation/create" then
        match (el_id ← xr_elicitation_id ext; w1 ← track_elicitation w el_id; Some (w1, el_id)) with
        | Some (w1, el_id) =>
            (w1, mkUndo direction id (w_version w) (w_pending_init w) (Some el_id))
        | None => (w, undo)
        end
      else (w, undo)
  end.

Definition rollback_forwarded_request (w : WireState) (undo : RequestForwardUndo) : WireState :=
  let w1 := unregister w (undo_direction undo) (undo_id undo) in
  let w2 := set_version w1 (undo_version undo) in
  let w3 := set_pending_init_caps w2 (undo_pending_init undo) in
  match undo_elicitation undo with
  | Some el_id => drop_elicitation w3 el_id
  | None => w3
  end.

(** ** Forwarded notifications *)

Definition update_request (w : WireState) (key : WireKey) (f : TrackedRequest → TrackedRequest)
  : WireState := set_requests w (alter f key (w_requests w)).

Definition end_sub (s : SubTracker) : SubTracker :=
  mkTracker Ended (st_requested s) (st_acked s) (st_acked_uris s).

Definition with_sub (e : TrackedRequest) (s : option SubTracker) : TrackedRequest :=
  mkTracked (tr_method e) (tr_version e) (tr_allowed e) (tr_dry_run e) (tr_internal e)
    (tr_progress_token e) (tr_log_level e) (tr_client_capabilities e) (tr_uri e) (tr_level e)
    (tr_cancelled e) (tr_responded e) s.
Definition with_cancelled (e : TrackedRequest) : TrackedRequest :=
  mkTracked (tr_method e) (tr_version e) (tr_allowed e) (tr_dry_run e) (tr_internal e)
    (tr_progress_token e) (tr_log_level e) (tr_client_capabilities e) (tr_uri e) (tr_level e)
    true (tr_responded e) (end_sub <$> tr_subscription e).
Definition with_responded (e : TrackedRequest) : TrackedRequest :=
  mkTracked (tr_method e) (tr_version e) (tr_allowed e) (tr_dry_run e) (tr_internal e)
    (tr_progress_token e) (tr_log_level e) (tr_client_capabilities e) (tr_uri e) (tr_level e)
    (tr_cancelled e) true (tr_subscription e).

Definition is_responded (w : WireState) (key : WireKey) : bool :=
  is_some_and (w_requests w !! key) tr_responded.

Definition end_subscription (w : WireState) (id : RpcId) : WireState :=
  let key := (C2S, id) in
  if is_responded w key then (remove_request w key false).1
  else update_request w key (λ e, with_sub e (end_sub <$> tr_subscription e)).

Definition on_cancelled (w : WireState) (direction : MessageDirection)
    (version : SupportedProtocolVersion) (id : RpcId) : WireState :=
  if bool_decide (version = V26) && bool_decide (direction = S2C) then end_subscription w id
  else
    let key := (direction, id) in
    if is_responded w key then (remove_request w key false).1
    else update_request w key with_cancelled.

Definition acked_sum (w : WireState) (key : WireKey) : Z :=
  match (e ← w_requests w !! key; tr_subscription e) with
  | Some sub => sum_of len (st_acked_uris sub)
  | None => 0
  end.

Definition on_acknowledged (w : WireState) (id : RpcId) (ack : option ListenFilters) : WireState :=
  let key := (C2S, id) in
  let bounded := from_option bounded_names [] (ack ≫= resource_subscriptions) in
  let new_sum := sum_of len bounded in
  let old_sum := acked_sum w key in
  let charged := if new_sum <=? old_sum then Some w else charge_bytes w (new_sum - old_sum) in
  let w1 := default w charged in
  let chargeable := bool_decide (is_Some charged) in
  let w2 := update_request w1 key (λ e, with_sub e
    ((λ sub, mkTracker Active (st_requested sub)
        (from_option enabled (st_acked sub) ack)
        (if bool_decide (is_Some ack) && chargeable then bounded else st_acked_uris sub))
     <$> tr_subscription e)) in
  if chargeable && (new_sum <? old_sum) then refund_bytes w2 (old_sum - new_sum) else w2.

Definition on_notification_forwarded (w : WireState) (direction : MessageDirection)
    (version : SupportedProtocolVersion) (method : string) (ext : ExtractedNotification) : WireState :=
  if bool_decide (direction = C2S) && String.eqb method "notifications/initialized"
  then set_init w Operational
  else if String.eqb method "notifications/cancelled" then
    match xn_cancel_id ext with
    | Some id => on_cancelled w direction version id
    | None => w
    end
  else if bool_decide (direction = S2C) && String.eqb method "notifications/subscriptions/acknowledged"
  then
    match xn_subscription_id ext with
    | Some id => on_acknowledged w id (xn_ack_filters ext)
    | None => w
    end
  else if bool_decide (direction = S2C) && String.eqb method "notifications/elicitation/complete" then
    match xn_elicitation_id ext with
    | Some el_id => drop_elicitation w el_id
    | None => w
    end
  else w.

(** ** Forwarded responses *)

Definition track_all (w : WireState) (ids : list string) : WireState :=
  foldl (λ w id, default w (track_elicitation w id)) w ids.

Definition commit_initialize (w : WireState) (ext : ExtractedResponse) : WireState :=
  let w1 := refund_bytes w (sum_of len (w_client_capabilities w)) in
  let w2 := set_pending_init
              (set_client_capabilities w1 (default [] (w_pending_init w1))) None in
  let server := bounded_names (xp_initialize_server_capabilities ext) in
  let w3 := set_server_capabilities
              (refund_bytes w2 (sum_of len (w_server_capabilities w2))) [] in
  let w4 := match charge_bytes w3 (sum_of len server) with
            | Some w' => set_server_capabilities w' server
            | None => w3
            end in
  set_init w4 AwaitingInitialized.

Definition commit_subscribe (w : WireState) (uri : string) : WireState :=
  if negb (bool_decide (uri ∈ w_resource_subscriptions w))
     && (length (w_resource_subscriptions w) <? MAX_RESOURCE_SUBSCRIPTIONS)%nat
     && (len uri <=? MAX_RETAINED_VALUE_BYTES) then
    match charge_bytes w (len uri) with
    | Some w1 => set_resource_subscriptions w1 (w_resource_subscriptions w1 ++ [uri])
    | None => w
    end
  else w.

Definition commit_unsubscribe (w : WireState) (uri : string) : WireState :=
  let same := λ u, String.eqb u uri in
  let w1 := refund_bytes w (sum_of len (List.filter same (w_resource_subscriptions w))) in
  set_resource_subscriptions w1 (List.filter (λ u, negb (same u)) (w_resource_subscriptions w1)).

Definition commit_log_level (w : WireState) (level : string) : WireState :=
  let w1 := set_log_level (match w_log_level w with
                           | Some old => refund_bytes w (len old)
                           | None => w
                           end) None in
  if len level <=? MAX_RETAINED_VALUE_BYTES then
    match charge_bytes w1 (len level) with
    | Some w2 => set_log_level w2 (Some level)
    | None => w1
    end
  else w1.

Definition on_response_forwarded (w : WireState) (response_direction : MessageDirection)
    (entry : TrackedRequest) (ext : ExtractedResponse) (is_result : bool) : WireState :=
  match response_direction with
  | ClientToServer => w
  | ServerToClient =>
      let w1 := track_all w (xp_elicitation_ids ext) in
      if negb is_result then w1
      else if String.eqb (tr_method entry) "initialize" then commit_initialize w1 ext
      else if String.eqb (tr_method entry) "resources/subscribe"
      then from_option (commit_subscribe w1) w1 (tr_uri entry)
      else if String.eqb (tr_method entry) "resources/unsubscribe"
      then from_option (commit_unsubscribe w1) w1 (tr_uri entry)
      else if String.eqb (tr_method entry) "logging/setLevel"
      then from_option (commit_log_level w1) w1 (tr_level entry)
      else w1
  end.

Definition mark_responded (w : WireState) (direction : MessageDirection) (id : RpcId)
  : WireState * option TrackedRequest :=
  let key := (direction, id) in
  match w_requests w !! key with
  | None => (w, None)
  | Some entry =>
      let w1 := update_request w key with_responded in
      let ended := is_some_and (tr_subscription entry) (λ s, bool_decide (st_state s = Ended)) in
      if ended || tr_cancelled entry then remove_request w1 key false else (w1, None)
  end.

Definition SUPPORTED_INITIALIZE_VERSIONS : list string := [MCP_VERSION_2025_11_25].

Definition initialize_result_version_ok (ext : ExtractedResponse) : bool :=
  is_some_and (xp_initialize_protocol_version ext)
    (λ v, bool_decide (v ∈ SUPPORTED_INITIALIZE_VERSIONS)).
