(* ===== verification/Structure.v ===== *)
(** * Structure: the structural gate on frames

    [src/src/auditor/checker.rs]: before anything is decided a frame is checked
    for duplicate object keys at every level and for its nesting depth
    ([check_duplicate_keys_recursively]), and the opaque [requestState] of a
    retry is capped.  A frame that passes reads the same for a parser that
    keeps the first of two equal keys and for one that keeps the last. *)

From S2P Require Import Prelude Text Json RpcId.

Definition MAX_JSON_NESTING : nat := 64.
Definition REQUEST_STATE_MAX_BYTES : Z := 65536.

Definition nesting_reason : string := "JSON nesting exceeds 64 levels".
Definition duplicate_reason (key : string) : string :=
  "duplicate key '" +:+ key +:+ "' in JSON-RPC request".

Fixpoint check_duplicate_keys_at_depth (v : Json) (depth : nat) : result unit string :=
  if (MAX_JSON_NESTING <? depth)%nat then Err nesting_reason
  else
    match v with
    | JObject _ ms =>
        (fix members (ms : list (string * Json)) (seen : gset string) : result unit string :=
           match ms with
           | [] => Ok tt
           | (key, x) :: ms' =>
               if bool_decide (key ∈ seen) then Err (duplicate_reason key)
               else
                 match check_duplicate_keys_at_depth x (S depth) with
                 | Err e => Err e
                 | Ok _ => members ms' ({[key]} ∪ seen)
                 end
           end) ms ∅
    | JArray _ items =>
        (fix elements (items : list Json) : result unit string :=
           match items with
           | [] => Ok tt
           | x :: items' =>
               match check_duplicate_keys_at_depth x (S depth) with
               | Err e => Err e
               | Ok _ => elements items'
               end
           end) items
    | _ => Ok tt
    end.

Definition check_duplicate_keys_recursively (v : Json) : result unit string :=
  check_duplicate_keys_at_depth v 0.

Definition params_member (v : Json) (key : string) : option Json :=
  p ← member v "params"; member p key.

(** The string content, or the raw text of a value of another type. *)
Definition request_state_byte_len (v : Json) : Z :=
  match as_string_str v with
  | Some s => len s
  | None => len (as_raw_str v)
  end.

Definition request_state_over_cap (frame : Json) : option Z :=
  v ← params_member frame "requestState";
  let size := request_state_byte_len v in
  if (REQUEST_STATE_MAX_BYTES <? size)%Z then Some size else None.

(** ** The gate, declaratively *)

(** [well_keyed v n]: no object below [v] repeats a key, and [v] nests at most
    [n] levels below itself. *)
Fixpoint well_keyed (v : Json) (n : nat) : Prop :=
  match v, n with
  | JObject _ ms, O => ms = []
  | JArray _ items, O => items = []
  | JObject _ ms, S n' =>
      NoDup ms.*1 ∧ (fix all (ms : list (string * Json)) : Prop :=
                       match ms with [] => True | m :: ms' => well_keyed m.2 n' ∧ all ms' end) ms
  | JArray _ items, S n' =>
      (fix all (items : list Json) : Prop :=
         match items with [] => True | x :: items' => well_keyed x n' ∧ all items' end) items
  | _, _ => True
  end.

Lemma well_keyed_object r ms n :
  well_keyed (JObject r ms) (S n) ↔ NoDup ms.*1 ∧ Forall (λ m, well_keyed m.2 n) ms.
Proof.
  simpl. apply and_iff_compat_l. induction ms as [|m ms IH]; [by split; [constructor|]|].
  by rewrite Forall_cons, IH.
Qed.

Lemma well_keyed_array r items n :
  well_keyed (JArray r items) (S n) ↔ Forall (λ x, well_keyed x n) items.
Proof.
  simpl. induction items as [|x items IH]; [by split; [constructor|]|]. by rewrite Forall_cons, IH.
Qed.

(** The loops of the checker over members and elements, for any check. *)
Section loops.
Context (f : Json → result unit string).

Fixpoint members_ok (ms : list (string * Json)) (seen : gset string)
  : result unit string :=
  match ms with
  | [] => Ok tt
  | (key, x) :: ms' =>
      if bool_decide (key ∈ seen) then Err (duplicate_reason key)
      else match f x with Err e => Err e | Ok _ => members_ok ms' ({[key]} ∪ seen) end
  end.

Fixpoint elements_ok (items : list Json) : result unit string :=
  match items with
  | [] => Ok tt
  | x :: items' => match f x with Err e => Err e | Ok _ => elements_ok items' end
  end.
End loops.

#[local] Opaque MAX_JSON_NESTING.
#[local] Arguments Nat.ltb : simpl never.

Lemma check_object r ms d : (d ≤ MAX_JSON_NESTING)%nat →
  check_duplicate_keys_at_depth (JObject r ms) d
  = members_ok (λ x, check_duplicate_keys_at_depth x (S d)) ms ∅.
Proof. intros Hd. cbn. rewrite (proj2 (Nat.ltb_ge _ _) Hd). done. Qed.

Lemma check_array r items d : (d ≤ MAX_JSON_NESTING)%nat →
  check_duplicate_keys_at_depth (JArray r items) d
  = elements_ok (λ x, check_duplicate_keys_at_depth x (S d)) items.
Proof. intros Hd. cbn. rewrite (proj2 (Nat.ltb_ge _ _) Hd). done. Qed.

Lemma check_too_deep v d : (MAX_JSON_NESTING < d)%nat →
  check_duplicate_keys_at_depth v d = Err nesting_reason.
Proof. intros Hd. destruct v; cbn; by rewrite (proj2 (Nat.ltb_lt _ _) Hd). Qed.

Lemma members_ok_iff f ms : ∀ seen,
  members_ok f ms seen = Ok tt ↔
  NoDup ms.*1 ∧ (∀ k, k ∈ ms.*1 → k ∉ seen) ∧ Forall (λ m, f m.2 = Ok tt) ms.
Proof.
  induction ms as [|[key x] ms IH]; intros seen; cbn.
  { split; [|done]. intros _. split_and!; [constructor|set_solver|constructor]. }
  rewrite NoDup_cons, Forall_cons. case_bool_decide as Hs; cbn.
  - split; [done|]. intros (_ & Hn & _). destruct (Hn key); set_solver.
  - destruct (f x) as [[]|e] eqn:Hf; cbn; [|naive_solver].
    rewrite IH. split.
    + intros (Hnd & Hn & Hall). split_and!; try done; set_solver.
    + intros ((Hni & Hnd) & Hn & _ & Hall). split_and!; try done; set_solver.
Qed.

Lemma elements_ok_iff f items : elements_ok f items = Ok tt ↔ Forall (λ x, f x = Ok tt) items.
Proof.
  induction items as [|x items IH]; cbn; [by split; [constructor|]|].
  rewrite Forall_cons. destruct (f x) as [[]|e] eqn:Hf; [by rewrite IH; naive_solver|naive_solver].
Qed.

Lemma check_depth_iff v : ∀ d, (d ≤ MAX_JSON_NESTING)%nat →
  check_duplicate_keys_at_depth v d = Ok tt ↔ well_keyed v (MAX_JSON_NESTING - d).
Proof.
  induction v as [| | | | |r items IH|r ms IH] using Json_nested_ind; intros d Hd;
    try (cbn; rewrite (proj2 (Nat.ltb_ge _ _) Hd); done).
  - rewrite check_array, elements_ok_iff by done.
    destruct (decide (d = MAX_JSON_NESTING)) as [->|Hne].
    + rewrite Nat.sub_diag. cbn. split; [|by intros ->].
      intros Hall. destruct items as [|x items]; [done|]. apply Forall_cons in Hall as [Hx _].
      rewrite check_too_deep in Hx by lia. done.
    + replace (MAX_JSON_NESTING - d)%nat with (S (MAX_JSON_NESTING - S d)) by lia.
      rewrite well_keyed_array, !Forall_forall. rewrite Forall_forall in IH.
      split; intros H x Hx; apply IH; auto; lia.
  - rewrite check_object, members_ok_iff by done.
    destruct (decide (d = MAX_JSON_NESTING)) as [->|Hne].
    + rewrite Nat.sub_diag. cbn. split; [|intros ->; by repeat constructor; set_solver].
      intros (_ & _ & Hall). destruct ms as [|x ms]; [done|]. apply Forall_cons in Hall as [Hx _].
      rewrite check_too_deep in Hx by lia. done.
    + replace (MAX_JSON_NESTING - d)%nat with (S (MAX_JSON_NESTING - S d)) by lia.
      rewrite well_keyed_object, !Forall_forall. rewrite Forall_forall in IH.
      split.
      * intros (Hnd & _ & H). split; [done|]. intros x Hx. apply IH; auto. lia.
      * intros (Hnd & H). split_and!; [done|set_solver|]. intros x Hx. apply IH; auto. lia.
Qed.

(** ** Readers that resolve duplicates differently *)

(** One step into a value. *)
Inductive PathStep := AtKey (key : string) | AtIndex (n : nat).

(** A reader is given by the member it picks for a key. *)
Definition step_with (pick : list (string * Json) → string → option Json) (v : Json) (s : PathStep)
  : option Json :=
  match s, v with
  | AtKey k, JObject _ ms => pick ms k
  | AtIndex n, JArray _ items => items !! n
  | _, _ => None
  end.

Fixpoint read_with (pick : list (string * Json) → string → option Json) (v : Json) (path : list PathStep)
  : option Json :=
  match path with
  | [] => Some v
  | s :: path' => x ← step_with pick v s; read_with pick x path'
  end.

Definition last_member_of (ms : list (string * Json)) (name : string) : option Json :=
  member_of (reverse ms) name.

Lemma member_of_elem ms k x : member_of ms k = Some x → (k, x) ∈ ms.
Proof.
  unfold member_of. destruct (List.find _ ms) as [[k' y]|] eqn:E; [|done]. intros [= <-].
  apply List.find_some in E as [Hin Hk%String.eqb_eq]. simpl in Hk. subst. by apply list_elem_of_In.
Qed.

Lemma member_of_unique ms k x : NoDup ms.*1 → (k, x) ∈ ms → member_of ms k = Some x.
Proof.
  unfold member_of. induction ms as [|[k' y] ms IH]; [set_solver|]. cbn.
  intros [Hni Hnd]%NoDup_cons [Heq|Hin]%elem_of_cons.
  - simplify_eq. by rewrite String.eqb_refl.
  - destruct (String.eqb_spec k' k) as [->|]; [|by apply IH].
    destruct Hni. apply list_elem_of_fmap. by exists (k, x).
Qed.

(** A picker that returns a member with the key whenever there is one. *)
Definition picks (pick : list (string * Json) → string → option Json) : Prop :=
  ∀ ms k, match pick ms k with
          | Some x => (k, x) ∈ ms
          | None => k ∉ ms.*1
          end.

Lemma picks_agree p q ms k : picks p → picks q → NoDup ms.*1 → p ms k = q ms k.
Proof.
  intros Hp Hq Hnd. specialize (Hp ms k). specialize (Hq ms k).
  destruct (p ms k) as [x|], (q ms k) as [y|]; try done.
  - pose proof (member_of_unique _ _ _ Hnd Hp). pose proof (member_of_unique _ _ _ Hnd Hq). congruence.
  - destruct Hq. apply list_elem_of_fmap. by exists (k, x).
  - destruct Hp. apply list_elem_of_fmap. by exists (k, y).
Qed.

Lemma member_of_picks : picks member_of.
Proof.
  intros ms k. destruct (member_of ms k) as [x|] eqn:E; [by apply member_of_elem|].
  unfold member_of in E. destruct (List.find _ ms) eqn:F; [done|].
  intros ([k' x] & -> & Hin)%list_elem_of_fmap.
  apply list_elem_of_In in Hin. pose proof (find_none _ _ F _ Hin) as H. simpl in H.
  by rewrite String.eqb_refl in H.
Qed.

Lemma last_member_of_picks : picks last_member_of.
Proof.
  intros ms k. unfold last_member_of. pose proof (member_of_picks (reverse ms) k) as H.
  destruct (member_of _ _); [by rewrite elem_of_reverse in H|].
  by rewrite fmap_reverse, elem_of_reverse in H.
Qed.

Lemma step_agree p q v n s : picks p → picks q → well_keyed v n →
  step_with p v s = step_with q v s ∧
  ∀ x, step_with p v s = Some x → ∃ n', well_keyed x n'.
Proof.
  intros Hp Hq Hw. destruct s as [k|i], v as [| | | | |r items|r ms]; simpl; try done.
  - destruct n as [|n].
    + simpl in Hw. subst. pose proof (Hp [] k) as H1. pose proof (Hq [] k) as H2.
      destruct (p [] k), (q [] k); set_solver.
    + apply well_keyed_object in Hw as [Hnd Hall]. split; [by apply picks_agree|].
      intros x Hx. specialize (Hp ms k). rewrite Hx in Hp. rewrite Forall_forall in Hall.
      exists n. by apply (Hall (k, x)).
  - destruct n as [|n]; [simpl in Hw; subst; done|].
    apply well_keyed_array in Hw. split; [done|]. intros x Hx. exists n.
    rewrite Forall_forall in Hw. by eapply Hw, list_elem_of_lookup_2.
Qed.

(** [C25] No parser disagreement: the structural gate accepts exactly the frames
    in which no object at any level repeats a key and which nest at most 64
    levels, and on such a frame every reader that resolves a key to some member
    with that key, the first as the relay does or the last as another parser
    may, reads the same value at every path. *)
Theorem accepted_frames_read_alike v :
  (check_duplicate_keys_recursively v = Ok tt ↔ well_keyed v MAX_JSON_NESTING) ∧
  (check_duplicate_keys_recursively v = Ok tt → ∀ p q path, picks p → picks q →
     read_with p v path = read_with q v path) ∧
  picks member_of ∧ picks last_member_of.
Proof.
  assert (check_duplicate_keys_recursively v = Ok tt ↔ well_keyed v MAX_JSON_NESTING) as Hiff
    by (apply (check_depth_iff v 0); lia).
  split_and!; [done| |apply member_of_picks|apply last_member_of_picks].
  rewrite Hiff. generalize MAX_JSON_NESTING. clear Hiff.
  intros n Hw p q path Hp Hq. revert v n Hw. induction path as [|s path IH]; intros v n Hw; [done|].
  simpl. destruct (step_agree p q v n s Hp Hq Hw) as [Heq Hn]. rewrite <- Heq.
  destruct (step_with p v s) as [x|]; [|done]. simpl. destruct (Hn x eq_refl) as [n' Hx]. by eapply IH.
Qed.
