(* ===== verification/WireTheorems.v ===== *)
(** * WireTheorems: the ledger of the request table

    Every operation of [Wire] keeps the byte ledger equal to the bytes the
    state retains, the table, the retired ids, the subscriptions and the
    elicitations within their counts, and the retired ids apart from the ids in
    flight.  The one exception is an acknowledgement without filters or without
    a subscription, which the decision procedure refuses. *)

From S2P Require Import Prelude Text Json RpcId Protocol WireFrame McpRules McpDecide Session SessionGate Wire.

Open Scope Z_scope.

(** ** What the ledger counts *)

Definition request_entry_bytes (e : WireKey * TrackedRequest) : Z := request_bytes e.1.2 e.2.
Definition retired_bytes (k : WireKey) : Z := key_bytes k.2.
#[local] Notation names_bytes := (sum_of len).

(** The bytes a state retains. *)
Definition retained (w : WireState) : Z :=
  map_sum request_entry_bytes (w_requests w)
  + sum_of retired_bytes (elements (w_retired w))
  + from_option names_bytes 0 (w_pending_init w)
  + names_bytes (w_client_capabilities w) + names_bytes (w_server_capabilities w)
  + names_bytes (w_resource_subscriptions w) + names_bytes (w_pending_elicitations w)
  + opt_len (w_log_level w).

Record wire_ok (w : WireState) : Prop := mkWireOk {
  wo_exact : w_bytes w = retained w;
  wo_budget : w_bytes w ≤ MAX_WIRE_STATE_BYTES;
  wo_requests : (size (w_requests w) ≤ MAX_IN_FLIGHT_REQUESTS)%nat;
  wo_retired : (size (w_retired w) ≤ MAX_RETIRED_REQUEST_IDS)%nat;
  wo_subscriptions : (length (w_resource_subscriptions w) ≤ MAX_RESOURCE_SUBSCRIPTIONS)%nat;
  wo_elicitations : (length (w_pending_elicitations w) ≤ MAX_PENDING_ELICITATIONS)%nat;
  wo_disjoint : ∀ k, k ∈ w_retired w → w_requests w !! k = None;
  wo_null : ∀ d, w_requests w !! (d, RNull) = None;
}.

Lemma names_bytes_nonneg l : 0 ≤ names_bytes l.
Proof. apply sum_of_nonneg, len_nonneg. Qed.

Lemma opt_len_nonneg o : 0 ≤ opt_len o.
Proof. destruct o; simpl; [apply len_nonneg | lia]. Qed.

Lemma key_bytes_nonneg id : 0 ≤ key_bytes id.
Proof. unfold key_bytes. pose proof (rpc_id_bytes_nonneg id). lia. Qed.

Lemma request_bytes_key id e : key_bytes id ≤ request_bytes id e.
Proof.
  unfold request_bytes.
  pose proof (len_nonneg (tr_method e)). pose proof (opt_len_nonneg (tr_log_level e)).
  pose proof (opt_len_nonneg (tr_uri e)). pose proof (opt_len_nonneg (tr_level e)).
  pose proof (sum_of_nonneg len (tr_client_capabilities e) len_nonneg).
  assert (0 ≤ from_option rpc_id_bytes 0 (tr_progress_token e))
    by (destruct (tr_progress_token e); simpl; [apply rpc_id_bytes_nonneg | lia]).
  destruct (tr_subscription e) as [sub|]; [|lia].
  pose proof (sum_of_nonneg len (st_acked_uris sub) len_nonneg).
  destruct (resource_subscriptions (st_requested sub)) as [l|]; simpl; [|lia].
  pose proof (sum_of_nonneg len l len_nonneg). lia.
Qed.

Lemma request_entry_nonneg e : 0 ≤ request_entry_bytes e.
Proof.
  unfold request_entry_bytes.
  pose proof (request_bytes_key e.1.2 e.2). pose proof (key_bytes_nonneg e.1.2). lia.
Qed.

(** Nonnegativity of every part of [retained w]. *)
Ltac part_bounds w :=
  pose proof (map_sum_nonneg request_entry_bytes (w_requests w) request_entry_nonneg);
  pose proof (sum_of_nonneg retired_bytes (elements (w_retired w)) (λ k, key_bytes_nonneg k.2));
  assert (0 ≤ from_option names_bytes 0 (w_pending_init w))
    by (destruct (w_pending_init w); simpl; [apply names_bytes_nonneg | lia]);
  pose proof (names_bytes_nonneg (w_client_capabilities w));
  pose proof (names_bytes_nonneg (w_server_capabilities w));
  pose proof (names_bytes_nonneg (w_resource_subscriptions w));
  pose proof (names_bytes_nonneg (w_pending_elicitations w));
  pose proof (opt_len_nonneg (w_log_level w)).

#[local] Arguments opt_len : simpl never.

(** ** Charging and refunding *)

Lemma charge_exact w n w' : charge_bytes w n = Some w' →
  w' = set_bytes w (w_bytes w + n) ∧ w_bytes w + n ≤ MAX_WIRE_STATE_BYTES.
Proof.
  unfold charge_bytes. destruct (_ <? _) eqn:E; [done|]. intros [= <-]. split; [done|].
  by apply (within_budget _ _ MAX_WIRE_STATE_BYTES).
Qed.

Lemma refund_exact w n : n ≤ w_bytes w → refund_bytes w n = set_bytes w (w_bytes w - n).
Proof. intros Hn. unfold refund_bytes. by rewrite saturating_sub_exact. Qed.

Lemma wire_new_ok : wire_ok wire_new.
Proof. constructor; try (vm_compute; (done || lia)). Qed.

(** Solve the conjuncts an update leaves alone. *)
Ltac keep_wire := constructor; cbn; try (done || lia).

(** ** The request table *)

Lemma requests_delete w key entry b n :
  wire_ok w → w_requests w !! key = Some entry →
  n = request_bytes key.2 entry →
  b = w_bytes w - n →
  wire_ok (set_bytes (set_requests w (delete key (w_requests w))) b).
Proof.
  intros [] Hk -> ->.
  pose proof (map_sum_delete request_entry_bytes _ _ _ Hk) as Hs.
  pose proof (request_entry_nonneg (key, entry)).
  change (request_entry_bytes (key, entry)) with (request_bytes key.2 entry) in *.
  keep_wire.
  - unfold retained in *; cbn. lia.
  - rewrite map_size_delete_Some by done. lia.
  - intros k Hr. apply lookup_delete_None. auto.
  - intros d. apply lookup_delete_None. auto.
Qed.

Lemma tracked_bytes_le w key e : wire_ok w → w_requests w !! key = Some e →
  request_bytes key.2 e ≤ w_bytes w.
Proof.
  intros [] Hk. rewrite wo_exact0. unfold retained. part_bounds w.
  pose proof (map_sum_delete request_entry_bytes _ _ _ Hk) as Hs.
  pose proof (map_sum_nonneg request_entry_bytes (delete key (w_requests w)) request_entry_nonneg).
  change (request_entry_bytes (key, e)) with (request_bytes key.2 e) in *. lia.
Qed.

Lemma remove_request_ok w key : wire_ok w → wire_ok (remove_request w key false).1.
Proof.
  intros Hw. unfold remove_request. destruct (w_requests w !! key) as [entry|] eqn:Hk; [|done].
  rewrite Z.sub_0_r. simpl. rewrite refund_exact.
  - by eapply requests_delete.
  - by apply (tracked_bytes_le w key entry).
Qed.

(** An update in place that keeps the bytes of the entry. *)
Lemma update_request_ok w key f b :
  wire_ok w →
  (∀ e, w_requests w !! key = Some e →
        b - w_bytes w = request_bytes key.2 (f e) - request_bytes key.2 e) →
  (w_requests w !! key = None → b = w_bytes w) →
  b ≤ MAX_WIRE_STATE_BYTES →
  wire_ok (set_bytes (update_request w key f) b).
Proof.
  intros [] Hf Hn Hb. destruct (w_requests w !! key) as [e|] eqn:Hk.
  - specialize (Hf e eq_refl).
    assert (alter f key (w_requests w) = <[key := f e]> (w_requests w)) as Ha.
    { apply map_eq. intros k. destruct (decide (k = key)) as [->|Hne].
      - by rewrite lookup_alter_eq, Hk, lookup_insert_eq.
      - by rewrite lookup_alter_ne, lookup_insert_ne. }
    keep_wire; rewrite ?Ha.
    + unfold retained in *; cbn. rewrite Ha, (map_sum_update _ _ _ _ _ Hk).
      change (request_entry_bytes (key, ?x)) with (request_bytes key.2 x). lia.
    + rewrite map_size_insert_Some by done. lia.
    + intros k Hr. rewrite lookup_insert_ne; [auto|]. intros ->. specialize (wo_disjoint0 _ Hr). congruence.
    + intros d. rewrite lookup_insert_ne; [auto|]. intros ->. specialize (wo_null0 d). congruence.
  - specialize (Hn eq_refl). subst b.
    assert (alter f key (w_requests w) = w_requests w) as Ha by (apply alter_id; intros; congruence).
    unfold update_request. rewrite Ha. by keep_wire.
Qed.

Lemma set_bytes_same w : set_bytes w (w_bytes w) = w.
Proof. by destruct w. Qed.

(** Reclaiming a cancelled entry keeps its id among the retired ones. *)
Lemma retire_ok w k e : wire_ok w → w_requests w !! k = Some e →
  (size (w_retired w) < MAX_RETIRED_REQUEST_IDS)%nat →
  let w' := (remove_request w k true).1 in
  wire_ok (set_retired w' ({[k]} ∪ w_retired w')).
Proof.
  intros Hw Hk Hr. pose proof Hw as []. unfold remove_request. rewrite Hk. simpl.
  pose proof (map_sum_delete request_entry_bytes _ _ _ Hk) as Hs.
  change (request_entry_bytes (k, e)) with (request_bytes k.2 e) in Hs.
  assert (k ∉ w_retired w) as Hni by (intros Hin; specialize (wo_disjoint0 _ Hin); congruence).
  pose proof (request_bytes_key k.2 e). pose proof (key_bytes_nonneg k.2).
  pose proof (map_sum_nonneg request_entry_bytes (delete k (w_requests w)) request_entry_nonneg).
  rewrite refund_exact by (cbn; rewrite wo_exact0; unfold retained; part_bounds w; lia).
  keep_wire.
  - unfold retained in *; cbn. rewrite set_sum_union by done. unfold retired_bytes at 1. lia.
  - rewrite map_size_delete_Some by done. lia.
  - rewrite size_union by set_solver. rewrite size_singleton. lia.
  - intros k' [->%elem_of_singleton|Hin]%elem_of_union; apply lookup_delete_None; auto.
  - intros d. apply lookup_delete_None. auto.
Qed.

Lemma insert_request_ok w key entry : wire_ok w → key.2 ≠ RNull →
  w_requests w !! key = None → key ∉ w_retired w →
  (size (w_requests w) < MAX_IN_FLIGHT_REQUESTS)%nat →
  w_bytes w + request_bytes key.2 entry ≤ MAX_WIRE_STATE_BYTES →
  wire_ok (set_requests (set_bytes w (w_bytes w + request_bytes key.2 entry))
             (<[key := entry]> (w_requests w))).
Proof.
  intros [] Hnn Hk Hr Hsz Hb. keep_wire.
  - unfold retained in *; cbn. rewrite map_sum_insert by done.
    change (request_entry_bytes (key, ?x)) with (request_bytes key.2 x). lia.
  - rewrite map_size_insert_None by done. lia.
  - intros k Hin. rewrite lookup_insert_ne by (intros ->; done). auto.
  - intros d. rewrite lookup_insert_ne by (intros ->; done). auto.
Qed.

(** What a registration that succeeded did. *)
Inductive registered (w : WireState) (key : WireKey) (entry : TrackedRequest) (w' : WireState) : Prop :=
  | RegisteredFree :
      w' = set_requests (set_bytes w (w_bytes w + request_bytes key.2 entry)) (<[key := entry]> (w_requests w)) →
      (size (w_requests w) < MAX_IN_FLIGHT_REQUESTS)%nat →
      w_bytes w + request_bytes key.2 entry ≤ MAX_WIRE_STATE_BYTES →
      registered w key entry w'
  | RegisteredReclaim victim e w1 :
      w_requests w !! victim = Some e → reclaimable (victim, e) = true →
      w1 = set_retired (remove_request w victim true).1 ({[victim]} ∪ w_retired w) →
      w' = set_requests (set_bytes w1 (w_bytes w1 + request_bytes key.2 entry)) (<[key := entry]> (w_requests w1)) →
      (size (w_retired w) < MAX_RETIRED_REQUEST_IDS)%nat →
      w_bytes w1 + request_bytes key.2 entry ≤ MAX_WIRE_STATE_BYTES →
      registered w key entry w'.

Section iteration.
Context (iter : gmap WireKey TrackedRequest → list (WireKey * TrackedRequest)).
Context (iter_entries : ∀ m, iter m ≡ₚ map_to_list m).

Lemma iter_find p m k e : List.find p (iter m) = Some (k, e) → m !! k = Some e ∧ p (k, e) = true.
Proof.
  intros [Hin Hp]%find_some. split; [|done].
  apply elem_of_map_to_list. rewrite <- (iter_entries m). by apply list_elem_of_In.
Qed.

Lemma register_inv w d id entry w' : 0 ≤ w_bytes w → register iter w d id entry = Ok w' →
  id ≠ RNull ∧ w_requests w !! (d, id) = None ∧ (d, id) ∉ w_retired w ∧
  entry_oversized id entry = false ∧ registered w (d, id) entry w'.
Proof.
  unfold register. intros Hpos H. do 3 (case_bool_decide; [done|]).
  destruct (entry_oversized id entry) eqn:Ho; [done|]. rewrite <- eq_None_not_Some in *.
  repeat (split; [done|]).
  destruct (MAX_IN_FLIGHT_REQUESTS <=? _)%nat eqn:Hn in H.
  - destruct (List.find _ _) as [[victim e]|] eqn:Hf in H; [|done].
    apply iter_find in Hf as [Hv Hp].
    destruct (MAX_RETIRED_REQUEST_IDS <=? _)%nat eqn:Hm in H; [done|]. apply Nat.leb_gt in Hm.
    cbn in H. rewrite Hv in H. destruct (_ <? _) eqn:Hb in H; [done|].
    unfold remove_request in H. rewrite Hv in H. cbn in H. unfold charge_bytes in H. cbn in H.
    rewrite Hb in H. cbn in H. injection H as <-.
    eapply RegisteredReclaim; [done..| |done|].
    + unfold remove_request. by rewrite Hv.
    + unfold remove_request. rewrite Hv. cbn. by apply (within_budget _ _ MAX_WIRE_STATE_BYTES).
  - apply Nat.leb_gt in Hn. cbn in H. rewrite saturating_sub_exact, Z.sub_0_r in H by done.
    destruct (_ <? _) eqn:Hb in H; [done|]. unfold charge_bytes in H. rewrite Hb in H. cbn in H.
    injection H as <-. apply RegisteredFree; [done..|].
    by apply (within_budget _ _ MAX_WIRE_STATE_BYTES).
Qed.

Lemma wire_bytes_nonneg w : wire_ok w → 0 ≤ w_bytes w.
Proof. intros []. rewrite wo_exact0. unfold retained. part_bounds w. lia. Qed.

Lemma register_ok w d id entry w' : wire_ok w → register iter w d id entry = Ok w' → wire_ok w'.
Proof.
  intros Hw (Hnn & Hk & Hr & _ & [-> Hs Hb|victim e w1 Hv Hc -> -> Hm Hb])%register_inv.
  - by apply insert_request_ok.
  - pose proof (retire_ok w victim e Hw Hv Hm) as Hw1. cbn zeta in Hw1.
    assert (w_retired (remove_request w victim true).1 = w_retired w) as Hret
      by (unfold remove_request; by rewrite Hv).
    assert (w_requests (remove_request w victim true).1 = delete victim (w_requests w)) as Hreq
      by (unfold remove_request; by rewrite Hv).
    rewrite Hret in Hw1. apply insert_request_ok; [done..| | | |done]; cbn.
    + rewrite Hreq. by apply lookup_delete_None; right.
    + intros [He%elem_of_singleton|Hin]%elem_of_union; [congruence|done].
    + rewrite Hreq, map_size_delete_Some by done.
      assert (size (w_requests w) ≠ 0)%nat by (eapply map_size_ne_0_lookup_2; eauto).
      destruct Hw. unfold MAX_IN_FLIGHT_REQUESTS in *. lia.
  - by apply wire_bytes_nonneg.
Qed.
End iteration.

(** ** Lists of names *)

Lemma names_bytes_app (l1 l2 : list string) : names_bytes (l1 ++ l2) = names_bytes l1 + names_bytes l2.
Proof. apply sum_of_app. Qed.

Lemma opt_len_None : opt_len None = 0.
Proof. done. Qed.

Lemma opt_len_Some s : opt_len (Some s) = len s.
Proof. done. Qed.

(** The ledger after an update of the lists: [w] holds the parts, the goal is
    the equation between them. *)
Ltac ledger := unfold retained in *; cbn in *; rewrite ?names_bytes_app, ?opt_len_None, ?opt_len_Some; cbn; lia.

Lemma set_pending_init_caps_ok w caps : wire_ok w → wire_ok (set_pending_init_caps w caps).
Proof.
  intros Hw. pose proof Hw as []. unfold set_pending_init_caps.
  set (w1 := match w_pending_init w with Some old => _ | None => w end).
  assert (w1 = set_bytes w (w_bytes w - from_option names_bytes 0 (w_pending_init w))) as ->.
  { subst w1. destruct (w_pending_init w) as [old|] eqn:E; simpl.
    - apply refund_exact. rewrite wo_exact0. unfold retained. part_bounds w. rewrite E in *. simpl in *.
      lia.
    - by rewrite Z.sub_0_r, set_bytes_same. }
  part_bounds w. destruct (bounded_names <$> caps) as [new|].
  - destruct (charge_bytes _ _) as [w2|] eqn:Hc.
    + apply charge_exact in Hc as [-> Hb]. cbn in Hb. keep_wire; ledger.
    + keep_wire. ledger.
  - keep_wire. ledger.
Qed.

(** A list of names split by one of them. *)
Lemma names_without x l :
  let same := List.filter (λ e, String.eqb e x) l in
  let rest := List.filter (λ e, negb (String.eqb e x)) l in
  names_bytes l = names_bytes same + names_bytes rest ∧ 0 ≤ names_bytes same ∧
  0 ≤ names_bytes rest ∧ (length rest ≤ length l)%nat.
Proof.
  split_and!; auto using names_bytes_nonneg, filter_length_le.
  apply (sum_of_filter_split len (λ e, String.eqb e x)).
Qed.

Lemma drop_elicitation_ok w el : wire_ok w → wire_ok (drop_elicitation w el).
Proof.
  intros Hw. pose proof Hw as []. unfold drop_elicitation.
  destruct (names_without el (w_pending_elicitations w)) as (Hs & Hsame & Hrest & Hlen). part_bounds w.
  rewrite refund_exact by (rewrite wo_exact0; unfold retained; lia).
  keep_wire. ledger.
Qed.

Lemma track_elicitation_ok w el w' : wire_ok w → track_elicitation w el = Some w' → wire_ok w'.
Proof.
  intros Hw H. pose proof Hw as []. unfold track_elicitation in H.
  destruct (_ || _) eqn:Hg in H; [done|].
  destruct (charge_bytes w (len el)) as [w1|] eqn:Hc; [|done]. simplify_eq.
  apply charge_exact in Hc as [-> Hb]. pose proof (len_nonneg el).
  apply orb_false_iff in Hg as [_ Hg%Nat.leb_gt].
  keep_wire; [ledger|]. rewrite length_app. simpl. lia.
Qed.

Lemma track_all_ok ids : ∀ w, wire_ok w → wire_ok (track_all w ids).
Proof.
  unfold track_all. induction ids as [|el ids IH]; intros w Hw; simpl; [done|].
  apply IH. destruct (track_elicitation w el) as [w'|] eqn:E; simpl; [|done].
  by eapply track_elicitation_ok.
Qed.

Lemma set_version_ok w v : wire_ok w → wire_ok (set_version w v).
Proof. intros []. by keep_wire. Qed.

Lemma set_init_ok w i : wire_ok w → wire_ok (set_init w i).
Proof. intros []. by keep_wire. Qed.

#[export] Hint Resolve remove_request_ok set_pending_init_caps_ok drop_elicitation_ok
  track_all_ok set_version_ok set_init_ok wire_new_ok : wire.

(** ** Requests *)

Lemma unregister_ok w d id : wire_ok w → wire_ok (unregister w d id).
Proof. unfold unregister. auto with wire. Qed.

Lemma wire_take_ok w d id : wire_ok w → wire_ok (wire_take w d id).1.
Proof. unfold wire_take. auto with wire. Qed.

Lemma on_request_forwarded_ok w d id method v ext :
  wire_ok w → wire_ok (on_request_forwarded w d id method v ext).1.
Proof.
  intros Hw. unfold on_request_forwarded. destruct d.
  - destruct (String.eqb method "initialize"), (w_version w); simpl; auto with wire.
  - destruct (String.eqb method "elicitation/create"); [|done].
    destruct (xr_elicitation_id ext) as [el|]; simpl; [|done].
    destruct (track_elicitation w el) as [w'|] eqn:E; simpl; [|done].
    by eapply track_elicitation_ok.
Qed.

Lemma rollback_ok w undo : wire_ok w → wire_ok (rollback_forwarded_request w undo).
Proof.
  intros Hw. unfold rollback_forwarded_request.
  destruct (undo_elicitation undo); auto using unregister_ok with wire.
Qed.

(** ** Notifications *)

(** An update in place that retains the same bytes. *)
Lemma update_same_bytes_ok w key f : wire_ok w →
  (∀ e, request_bytes key.2 (f e) = request_bytes key.2 e) → wire_ok (update_request w key f).
Proof.
  intros Hw Hf.
  rewrite <- (set_bytes_same (update_request w key f)).
  apply update_request_ok; [done| |done|].
  - intros e _. rewrite Hf. cbn. lia.
  - cbn. by destruct Hw.
Qed.

Lemma request_bytes_end_sub id e :
  request_bytes id (with_sub e (end_sub <$> tr_subscription e)) = request_bytes id e.
Proof. unfold request_bytes. cbn. by destruct (tr_subscription e). Qed.

Lemma request_bytes_cancelled id e : request_bytes id (with_cancelled e) = request_bytes id e.
Proof. unfold request_bytes. cbn. by destruct (tr_subscription e). Qed.

Lemma on_cancelled_ok w d v id : wire_ok w → wire_ok (on_cancelled w d v id).
Proof.
  intros Hw. unfold on_cancelled, end_subscription.
  destruct (_ && _), (is_responded _ _); auto with wire;
    apply update_same_bytes_ok; auto using request_bytes_end_sub, request_bytes_cancelled.
Qed.

(** The bytes of an entry apart from the acknowledged URIs. *)
Lemma request_bytes_acked id e sub f : tr_subscription e = Some sub →
  request_bytes id (with_sub e ((λ s, mkTracker Active (st_requested s) f.1 f.2) <$> tr_subscription e))
  = request_bytes id e - names_bytes (st_acked_uris sub) + names_bytes f.2.
Proof. intros Hsub. unfold request_bytes. cbn. rewrite Hsub. cbn. lia. Qed.

Lemma acked_bytes_le id e sub : tr_subscription e = Some sub →
  names_bytes (st_acked_uris sub) ≤ request_bytes id e.
Proof.
  intros Hsub. pose proof (request_bytes_acked id e sub ([], []) Hsub) as H. cbn [snd] in H.
  pose proof (request_bytes_key id (with_sub e ((λ s, mkTracker Active (st_requested s) [] []) <$> tr_subscription e))).
  pose proof (key_bytes_nonneg id). simpl in *. lia.
Qed.

(** The acknowledgement of a tracked subscription. *)
Lemma on_acknowledged_ok w id filters e sub : wire_ok w →
  w_requests w !! (C2S, id) = Some e → tr_subscription e = Some sub →
  wire_ok (on_acknowledged w id (Some filters)).
Proof.
  intros Hw Hk Hsub. pose proof (wire_bytes_nonneg w Hw) as Hpos.
  unfold on_acknowledged, acked_sum. rewrite Hk. simpl. rewrite Hsub.
  set (bounded := from_option bounded_names [] (resource_subscriptions filters)).
  set (new := sum_of len bounded). set (old := sum_of len (st_acked_uris sub)).
  pose proof (names_bytes_nonneg bounded : 0 ≤ new). pose proof (names_bytes_nonneg (st_acked_uris sub) : 0 ≤ old).
  pose proof (tracked_bytes_le w (C2S, id) e Hw Hk) as Hle. simpl in Hle.
  assert (∀ b, b - w_bytes w = new - old → b ≤ MAX_WIRE_STATE_BYTES →
    wire_ok (set_bytes (update_request w (C2S, id) (λ e, with_sub e
      ((λ sub, mkTracker Active (st_requested sub) (enabled filters) bounded) <$> tr_subscription e))) b)) as Hup.
  { intros b Hb Hmax. apply update_request_ok; [done| |congruence|done].
    intros e' He'. simplify_eq. rewrite (request_bytes_acked _ _ _ (enabled filters, bounded) Hsub). simpl. fold old new. lia. }
  pose proof (wo_budget _ Hw). pose proof (acked_bytes_le id e sub Hsub) as Ha. fold old in Ha.
  destruct (new <=? old) eqn:Hcmp; simpl.
  - apply Z.leb_le in Hcmp. destruct (new <? old) eqn:Hlt; simpl.
    + rewrite refund_exact by (cbn; lia). apply Hup; cbn; lia.
    + apply Z.ltb_ge in Hlt. rewrite <- (set_bytes_same (update_request _ _ _)). apply Hup; cbn; lia.
  - apply Z.leb_gt in Hcmp. destruct (charge_bytes w (new - old)) as [w1|] eqn:Hc; simpl.
    + apply charge_exact in Hc as [-> Hb]. destruct (new <? old) eqn:Hlt; [apply Z.ltb_lt in Hlt; lia|].
      apply (Hup (w_bytes w + (new - old))); lia.
    + apply update_same_bytes_ok; [done|]. intros e'. unfold request_bytes. cbn. by destruct (tr_subscription e').
Qed.

Lemma commit_initialize_ok w ext : wire_ok w → wire_ok (commit_initialize w ext).
Proof.
  intros Hw. pose proof Hw as []. unfold commit_initialize. part_bounds w.
  rewrite (refund_exact w) by (rewrite wo_exact0; unfold retained; lia).
  rewrite refund_exact by (cbn; rewrite wo_exact0; unfold retained; lia).
  assert (names_bytes (default [] (w_pending_init w)) = from_option names_bytes 0 (w_pending_init w))
    by (by destruct (w_pending_init w)).
  destruct (charge_bytes _ _) as [w4|] eqn:Hc.
  - apply charge_exact in Hc as [-> Hb]. cbn in Hb. keep_wire; ledger.
  - keep_wire; ledger.
Qed.

Lemma commit_subscribe_ok w uri : wire_ok w → wire_ok (commit_subscribe w uri).
Proof.
  intros Hw. pose proof Hw as []. unfold commit_subscribe. destruct (_ && _) eqn:Hg; [|done].
  destruct (charge_bytes w (len uri)) as [w1|] eqn:Hc; [|done].
  apply charge_exact in Hc as [-> Hb].
  apply andb_true_iff in Hg as [[_ Hg%Nat.ltb_lt]%andb_true_iff _].
  keep_wire; [ledger|]. rewrite length_app. simpl. lia.
Qed.

Lemma commit_unsubscribe_ok w uri : wire_ok w → wire_ok (commit_unsubscribe w uri).
Proof.
  intros Hw. pose proof Hw as []. unfold commit_unsubscribe.
  destruct (names_without uri (w_resource_subscriptions w)) as (Hs & Hsame & Hrest & Hlen). part_bounds w.
  rewrite refund_exact by (rewrite wo_exact0; unfold retained; lia).
  keep_wire. ledger.
Qed.

Lemma commit_log_level_ok w level : wire_ok w → wire_ok (commit_log_level w level).
Proof.
  intros Hw. pose proof Hw as []. unfold commit_log_level.
  set (w0 := match w_log_level w with Some old => _ | None => w end).
  assert (w0 = set_bytes w (w_bytes w - opt_len (w_log_level w))) as ->.
  { subst w0. part_bounds w. destruct (w_log_level w) as [old|] eqn:E.
    - apply refund_exact. rewrite wo_exact0. unfold retained. rewrite E. unfold opt_len in *. simpl in *. lia.
    - unfold opt_len. simpl. by rewrite Z.sub_0_r, set_bytes_same. }
  part_bounds w. destruct (len level <=? _); [|keep_wire; ledger].
  destruct (charge_bytes _ _) as [w2|] eqn:Hc.
  - apply charge_exact in Hc as [-> Hb]. cbn in Hb. keep_wire; ledger.
  - keep_wire; ledger.
Qed.

#[export] Hint Resolve on_cancelled_ok commit_initialize_ok commit_subscribe_ok
  commit_unsubscribe_ok commit_log_level_ok : wire.

Lemma on_response_forwarded_ok w d entry ext is_result :
  wire_ok w → wire_ok (on_response_forwarded w d entry ext is_result).
Proof.
  intros Hw. unfold on_response_forwarded. destruct d; [done|].
  destruct is_result; simpl; [|by apply track_all_ok].
  destruct (String.eqb _ "initialize"); [auto with wire|].
  destruct (String.eqb _ "resources/subscribe"); [destruct (tr_uri entry); simpl; auto with wire|].
  destruct (String.eqb _ "resources/unsubscribe"); [destruct (tr_uri entry); simpl; auto with wire|].
  destruct (String.eqb _ "logging/setLevel"); [destruct (tr_level entry); simpl; auto with wire|].
  auto with wire.
Qed.

Lemma mark_responded_ok w d id : wire_ok w → wire_ok (mark_responded w d id).1.
Proof.
  intros Hw. unfold mark_responded. destruct (w_requests w !! (d, id)) as [e|]; [|done].
  assert (wire_ok (update_request w (d, id) with_responded)) by (by apply update_same_bytes_ok).
  destruct (_ || _); simpl; auto with wire.
Qed.
