(* ===== verification/Relay.v ===== *)
(** * Relay: the two relay loops over the request table

    [src/src/auditor/proxy_c2s.rs], [src/src/auditor/proxy_c2s/forward.rs] and
    [src/src/auditor/proxy_s2c.rs]: each parsed frame is gated structurally,
    classified, decided ([McpDecide]) on the facts of the wire state ([Wire]),
    and forwarded, answered with an error, or dropped.

    The loops run concurrently and share the wire state under a lock.  A step
    of the model is what one loop does while it holds the lock: a client
    request is decided in one step, registered in another, and the outcome of
    the write to the server is a third; a server request is decided and
    registered in one step and its write is another.  The steps of the two
    loops interleave freely.  An emission records what a step does to the
    outside: [Forward] is produced when the request is registered or the
    frame handed over, before the bytes cross, since the answer may be
    processed before the write returns; a failed write is a rollback.
    [Closed] records that the relay gave up a request that had no answer yet.

    The tools/list bookkeeping, the argument checker, the session gates and the
    transport answer through a record [Local] of booleans supplied with each
    step, so the theorems hold for every behaviour of theirs.  A loop that
    fails stops; the model lets frames follow, as the other loop may. *)

From S2P Require Import Prelude Text Json RpcId Protocol WireFrame McpRules McpDecide Session Structure Wire.

(** ** Emissions, local answers, state *)

Inductive Emit :=
  | Forward (d : MessageDirection) (frame : Json)
  | AnswerError (d : MessageDirection) (raw_id : string)
  | ToListing (frame : Json)
  | InternalRequest (id : RpcId)
  | Closed (key : WireKey)
  | Stop.

Record Local := mkLocal {
  lc_busy : bool;          (** no verified listing, or a revalidation in progress *)
  lc_check : bool;         (** the argument checker and the session gates pass *)
  lc_advertised : bool;    (** the verified listing advertises the tool *)
  lc_armed : bool;         (** the tools/list bookkeeping accepts the request *)
  lc_pending_list : bool;  (** the id is a pending client tools/list *)
  lc_internal : bool;      (** the id is the internal listing in progress *)
}.

(** What the client loop is in the middle of. *)
Inductive ClientPhase :=
  | CIdle
  | CDecided (frame : Json) (method : string) (id : RpcId) (raw_id : string)
      (version : SupportedProtocolVersion) (verdict : McpVerdict)
  | CWriting (undo : RequestForwardUndo) (raw_id : string).

Inductive ServerPhase :=
  | SIdle
  | SWriting (undo : RequestForwardUndo).

Record RelayState := mkRelay {
  r_wire : WireState;
  r_client : ClientPhase;
  r_server : ServerPhase;
}.

Definition relay_new : RelayState := mkRelay wire_new CIdle SIdle.

Definition with_wire (s : RelayState) (w : WireState) : RelayState := mkRelay w (r_client s) (r_server s).
Definition with_client (s : RelayState) (w : WireState) (c : ClientPhase) : RelayState :=
  mkRelay w c (r_server s).
Definition with_server (s : RelayState) (w : WireState) (p : ServerPhase) : RelayState :=
  mkRelay w (r_client s) p.

Section relay.
Context (iter : gmap WireKey TrackedRequest → list (WireKey * TrackedRequest)).
Context (mcp_rules : list ServerMcpRules) (dry_run : bool).

Definition relay_decide (w : WireState) (msg : TrafficMessage) : McpVerdict :=
  decide_mcp mcp_rules msg (session_facts w).

Definition verdict_allows (v : McpVerdict) : bool :=
  match v with Allow _ => true | _ => false end.

(** The requests still owed an answer, and the record that one is given up. *)
Definition awaits (w : WireState) (key : WireKey) : bool :=
  is_some_and (w_requests w !! key) (λ e, negb (tr_responded e)).

Definition closing (w : WireState) (key : WireKey) : list Emit :=
  if awaits w key then [Closed key] else [].

Definition undo_key (undo : RequestForwardUndo) : WireKey := (undo_direction undo, undo_id undo).

(** ** Client requests *)

(** [c2s_request]: the decision, on the state at that moment. *)
Definition c2s_request (s : RelayState) (frame : Json) (method : string) (id : RpcId) (raw_id : string)
  : RelayState * list Emit :=
  if bool_decide (id = RNull) then (s, [AnswerError S2C raw_id])
  else if is_internal_namespace id then (s, [AnswerError S2C raw_id])
  else
    let w := r_wire s in
    let ext := extract_request frame method in
    let classified := request_version w method (xr_meta_declares_version ext) in
    let version := match classified with Ok v => v | Err _ => passive_version w end in
    let verdict := match classified with
                   | Err reason => Deny reason
                   | Ok v => relay_decide w (request_message v C2S method ext)
                   end in
    (with_client s w (CDecided frame method id raw_id version verdict), []).

Definition dry_run_observable (method : string) (verdict : McpVerdict) : bool :=
  String.eqb method "tools/call"
  && match verdict with Deny DnNoRule | Deny DnRuleDeny => true | _ => false end.

(** [register_and_forward_impl], up to the write. *)
Definition register_and_forward (s : RelayState) (frame : Json) (method : string) (id : RpcId)
    (raw_id : string) (version : SupportedProtocolVersion) (allowed : bool) : RelayState * list Emit :=
  let ext := extract_request frame method in
  match register iter (r_wire s) C2S id (from_extracted method version allowed dry_run ext) with
  | Err _ => (with_client s (r_wire s) CIdle, [AnswerError S2C raw_id])
  | Ok w1 =>
      let '(w2, undo) := on_request_forwarded w1 C2S id method version ext in
      (with_client s w2 (CWriting undo raw_id), [Forward C2S frame])
  end.

(** [deny_request]. *)
Definition deny_request (s : RelayState) (frame : Json) (method : string) (id : RpcId)
    (raw_id : string) (version : SupportedProtocolVersion) (verdict : McpVerdict)
  : RelayState * list Emit :=
  if dry_run && dry_run_observable method verdict
  then register_and_forward s frame method id raw_id version false
  else (with_client s (r_wire s) CIdle, [AnswerError S2C raw_id]).

(** [forward_allowed]. *)
Definition forward_allowed (s : RelayState) (l : Local) (frame : Json) (method : string) (id : RpcId)
    (raw_id : string) (version : SupportedProtocolVersion) : RelayState * list Emit :=
  let refuse := (with_client s (r_wire s) CIdle, [AnswerError S2C raw_id]) in
  let over_cap := bool_decide (is_Some (request_state_over_cap frame)) in
  if String.eqb method "tools/call" then
    if lc_busy l then refuse
    else
      match can_register iter (r_wire s) C2S id with
      | Err _ => deny_request s frame method id raw_id version (Deny DnShape)
      | Ok _ =>
          if lc_check l then
            if lc_advertised l then register_and_forward s frame method id raw_id version true
            else refuse
          else if dry_run && negb over_cap
          then register_and_forward s frame method id raw_id version false
          else refuse
      end
  else if over_cap then deny_request s frame method id raw_id version (Deny DnShape)
  else if String.eqb method "tools/list" then
    if lc_armed l then register_and_forward s frame method id raw_id version true
    else refuse
  else register_and_forward s frame method id raw_id version true.

(** The second half of [c2s_request]: the dispatch on the verdict. *)
Definition c2s_admit (s : RelayState) (l : Local) : RelayState * list Emit :=
  match r_client s with
  | CDecided frame method id raw_id version verdict =>
      match verdict with
      | Allow _ => forward_allowed s l frame method id raw_id version
      | Deny _ => deny_request s frame method id raw_id version verdict
      | _ => deny_request s frame method id raw_id version (Deny DnShape)
      end
  | _ => (s, [])
  end.

(** The outcome of the write: written, refused by the freshness check before
    the write ([stale]), or failed. *)
Inductive WriteOutcome := Written | Stale | WriteFailed.

Definition c2s_written (s : RelayState) (o : WriteOutcome) : RelayState * list Emit :=
  match r_client s with
  | CWriting undo raw_id =>
      match o with
      | Written => (with_client s (r_wire s) CIdle, [])
      | Stale => (with_client s (rollback_forwarded_request (r_wire s) undo) CIdle,
                  closing (r_wire s) (undo_key undo) ++ [AnswerError S2C raw_id])
      | WriteFailed => (with_client s (rollback_forwarded_request (r_wire s) undo) CIdle,
                        closing (r_wire s) (undo_key undo) ++ [Stop])
      end
  | _ => (s, [])
  end.

(** ** Client notifications and responses *)

Definition c2s_notification (s : RelayState) (frame : Json) (method : string) : RelayState * list Emit :=
  let ext := extract_notification frame method in
  let w := r_wire s in
  let version := passive_version w in
  if String.eqb method "notifications/cancelled" && is_some_and (xn_cancel_id ext) is_internal_namespace
  then (s, [])
  else
    let cancel_target := from_option (λ id, cancel_facts w C2S id version) Unrelated (xn_cancel_id ext) in
    let prog := from_option (progress iter w C2S) Unmatched (xn_progress_token ext) in
    if verdict_allows (relay_decide w (notification_message version C2S method ext cancel_target prog None None))
    then (with_wire s (on_notification_forwarded w C2S version method ext), [Forward C2S frame])
    else (s, []).

(** [version] under which a response in direction [d] is judged. *)
Definition response_version (w : WireState) (d : MessageDirection) (id : RpcId) : SupportedProtocolVersion :=
  from_option tr_version (passive_version w) (wire_get w (opposite d) id).

Definition judge_response (w : WireState) (d : MessageDirection) (id : RpcId) (ext : ExtractedResponse)
  : McpVerdict :=
  relay_decide w (response_message d (response_version w d id) ext (answered_facts <$> answered w d id)).

Definition c2s_response (s : RelayState) (frame : Json) (id : RpcId) (raw_id : string)
  : RelayState * list Emit :=
  let ext := extract_response frame in
  let w := r_wire s in
  let version := response_version w C2S id in
  if verdict_allows (judge_response w C2S id ext) then
    let '(w1, entry) := wire_take w S2C id in
    let w2 := match entry with
              | Some e => on_response_forwarded w1 C2S e ext (xp_has_result ext && negb (xp_is_error ext))
              | None => w1
              end in
    (with_wire s w2, [Forward C2S frame])
  else
    let '(w1, entry) := match answered w C2S id with
                        | Some _ => wire_take w S2C id
                        | None => (w, None)
                        end in
    (with_wire s w1,
     closing w (S2C, id) ++
     if bool_decide (is_Some entry) && negb (bool_decide (version = V26))
     then [AnswerError C2S raw_id] else []).

(** ** Server notifications and requests *)

Definition s2c_notification (s : RelayState) (frame : Json) (method : string) : RelayState * list Emit :=
  let ext := extract_notification frame method in
  let w := r_wire s in
  let version := passive_version w in
  let cancel_target := from_option (λ id, cancel_facts w S2C id version) Unrelated (xn_cancel_id ext) in
  let prog := from_option (progress iter w S2C) Unmatched (xn_progress_token ext) in
  let message_for := if String.eqb method "notifications/message"
                     then message_correlation iter w (xn_subscription_id ext) (xn_progress_token ext)
                     else None in
  let subscription := xn_subscription_id ext ≫= subscription_facts w in
  if verdict_allows (relay_decide w (notification_message version S2C method ext cancel_target prog message_for
                           subscription))
  then (with_wire s (on_notification_forwarded w S2C version method ext),
        [if String.eqb method "notifications/tools/list_changed"
         then ToListing frame else Forward S2C frame])
  else (s, []).

Definition s2c_request (s : RelayState) (frame : Json) (method : string) (id : RpcId) (raw_id : string)
  : RelayState * list Emit :=
  let ext := extract_request frame method in
  let w := r_wire s in
  let version := passive_version w in
  let verdict := if bool_decide (id = RNull) then Deny DnShape
                 else relay_decide w (request_message version S2C method ext) in
  let refuse := (s, if bool_decide (version = V26) then [] else [AnswerError C2S raw_id]) in
  if verdict_allows verdict then
    match register iter w S2C id (from_extracted method version true dry_run ext) with
    | Err _ => refuse
    | Ok w1 =>
        let '(w2, undo) := on_request_forwarded w1 S2C id method version ext in
        (with_server s w2 (SWriting undo), [Forward S2C frame])
    end
  else refuse.

Definition s2c_written (s : RelayState) (ok : bool) : RelayState * list Emit :=
  match r_server s with
  | SWriting undo =>
      if ok then (with_server s (r_wire s) SIdle, [])
      else (with_server s (rollback_forwarded_request (r_wire s) undo) SIdle,
            closing (r_wire s) (undo_key undo) ++ [Stop])
  | SIdle => (s, [])
  end.

(** ** Server responses *)

Fixpoint first_deny (w : WireState) (original : OriginalRequestFacts)
    (version : SupportedProtocolVersion) (entries : list InputRequestEntry) : option McpVerdict :=
  match entries with
  | [] => None
  | e :: entries' =>
      let verdict := match ire_method e with
                     | Some m => relay_decide w (TAdditionalRequest (mkAdditional version m original))
                     | None => Deny DnShape
                     end in
      if verdict_allows verdict then first_deny w original version entries' else Some verdict
  end.

Definition resolve_input_required (w : WireState) (frame : Json) (id : RpcId)
    (version : SupportedProtocolVersion) : McpVerdict :=
  match wire_get w C2S id with
  | None => Deny DnUncorrelated
  | Some tracked =>
      let original := mkOriginal (tr_method tracked) (tr_allowed tracked) (tr_client_capabilities tracked) in
      match member frame "result" with
      | None => Deny DnShape
      | Some res =>
          let oversized := is_some_and (member res "requestState")
                             (λ v, (REQUEST_STATE_MAX_BYTES <? request_state_byte_len v)%Z) in
          if bool_decide (request_state res = Invalid) || oversized then Deny DnShape
          else
            match input_requests res with
            | IROverrun | IRMalformed => Deny DnShape
            | IRAbsent | IRMap [] =>
                if bool_decide (request_state res = Valid) then Allow AProtocolPass else Deny DnShape
            | IRMap entries => default (Allow ARuleAllow) (first_deny w original version entries)
            end
      end
  end.

Definition s2c_verdict (w : WireState) (frame : Json) (id : RpcId) (ext : ExtractedResponse) : McpVerdict :=
  match judge_response w S2C id ext with
  | Undecided UInputRequired => resolve_input_required w frame id (response_version w S2C id)
  | v => v
  end.

(** The rejection of a response, the revision pin of [initialize] included. *)
Definition s2c_deny_reason (w : WireState) (frame : Json) (id : RpcId) (ext : ExtractedResponse)
  : option DenyReason :=
  let reason := match s2c_verdict w frame id ext with
                | Allow _ => None
                | Undecided _ => Some DnResultType
                | Deny r => Some r
                | Drop _ => Some DnShape
                end in
  let initialize_result :=
    is_some_and (answered w S2C id) (λ a, String.eqb (aq_method a) "initialize" && negb (aq_internal a))
    && xp_has_result ext && negb (xp_is_error ext) in
  match reason with
  | None => if initialize_result && negb (initialize_result_version_ok ext)
            then Some DnUnsupportedVersion else None
  | Some r => Some r
  end.

Definition s2c_response (s : RelayState) (l : Local) (frame : Json) (id : RpcId) (raw_id : string)
  : RelayState * list Emit :=
  let ext := extract_response frame in
  let w := r_wire s in
  let ans := answered w S2C id in
  let on_list_path := is_some_and ans (λ a, String.eqb (aq_method a) "tools/list")
                      || lc_pending_list l || lc_internal l in
  if is_some_and ans (λ a, String.eqb (aq_method a) "tools/list" && negb (aq_internal a))
     && negb (lc_pending_list l) && negb (lc_internal l)
  then (with_wire s (wire_take w C2S id).1, closing w (C2S, id))
  else
    match s2c_deny_reason w frame id ext with
    | None =>
        let is_result := xp_has_result ext && negb (xp_is_error ext) in
        let is_listen := is_some_and ans (λ a, String.eqb (aq_method a) "subscriptions/listen") in
        let '(w1, entry) := if is_listen && is_result then mark_responded w C2S id
                            else wire_take w C2S id in
        let w2 := match entry with
                  | Some e => on_response_forwarded w1 S2C e ext is_result
                  | None => w1
                  end in
        (with_wire s w2,
         [if on_list_path || is_some_and ans aq_internal then ToListing frame else Forward S2C frame])
    | Some _ =>
        let '(w1, entry) := match ans with
                            | Some _ => wire_take w C2S id
                            | None => (w, None)
                            end in
        (with_wire s w1,
         closing w (C2S, id) ++
         if is_some_and entry tr_internal then [Stop]
         else if on_list_path then [AnswerError S2C raw_id]
         else if bool_decide (is_Some ans) then [AnswerError S2C raw_id] else [])
    end.

(** A malformed server frame that carries response members still ends the
    request it names. *)
Definition s2c_malformed (s : RelayState) (l : Local) (frame : Json) (raw_id : option string)
  : RelayState * list Emit :=
  if has_response_members frame then
    let rpc_id := member frame "id" ≫= parse_from_json in
    if lc_internal l || (bool_decide (is_Some rpc_id) && lc_pending_list l) then (s, [ToListing frame])
    else
      let w := r_wire s in
      let '(w1, entry) := match rpc_id with
                          | Some id => match answered w S2C id with
                                       | Some _ => wire_take w C2S id
                                       | None => (w, None)
                                       end
                          | None => (w, None)
                          end in
      (with_wire s w1,
       if bool_decide (is_Some entry)
       then closing w (C2S, default RNull rpc_id) ++ [AnswerError S2C (default "null" raw_id)] else [])
  else (s, []).

(** ** The loops *)

Definition c2s_frame (s : RelayState) (frame : Json) : RelayState * list Emit :=
  match check_duplicate_keys_recursively frame with
  | Err _ => (s, [AnswerError S2C (from_option as_raw_str "null" (member frame "id"))])
  | Ok _ =>
      match classify_frame frame with
      | WMalformed _ raw_id => (s, [AnswerError S2C (default "null" raw_id)])
      | WNotification method => c2s_notification s frame method
      | WResponse id raw_id => c2s_response s frame id raw_id
      | WRequest method id raw_id => c2s_request s frame method id raw_id
      end
  end.

Definition s2c_frame (s : RelayState) (l : Local) (frame : Json) : RelayState * list Emit :=
  match check_duplicate_keys_recursively frame with
  | Err _ => (s, [])
  | Ok _ =>
      match classify_frame frame with
      | WMalformed _ raw_id => s2c_malformed s l frame raw_id
      | WNotification method => s2c_notification s frame method
      | WResponse id raw_id => s2c_response s l frame id raw_id
      | WRequest method id raw_id => s2c_request s frame method id raw_id
      end
  end.

(** The registration of an internal tools/list request
    ([begin_revalidation], pagination). *)
Definition internal_request (s : RelayState) (n : Z) : RelayState * list Emit :=
  let w := r_wire s in
  match register iter w C2S (internal n) (internal_list (passive_version w)) with
  | Err _ => (s, [Stop])
  | Ok w1 => (with_wire s w1, [InternalRequest (internal n)])
  end.

Inductive RelayEvent :=
  | ClientFrame (frame : Json)
  | ClientAdmit (l : Local)
  | ClientWritten (o : WriteOutcome)
  | ServerFrame (frame : Json) (l : Local)
  | ServerWritten (ok : bool)
  | InternalListing (n : Z).

Definition relay_step (s : RelayState) (ev : RelayEvent) : RelayState * list Emit :=
  match ev with
  | ClientFrame frame => match r_client s with CIdle => c2s_frame s frame | _ => (s, []) end
  | ClientAdmit l => c2s_admit s l
  | ClientWritten o => c2s_written s o
  | ServerFrame frame l => match r_server s with SIdle => s2c_frame s l frame | _ => (s, []) end
  | ServerWritten ok => s2c_written s ok
  | InternalListing n => internal_request s n
  end.

Fixpoint relay_run (s : RelayState) (evs : list RelayEvent) : RelayState * list Emit :=
  match evs with
  | [] => (s, [])
  | ev :: evs' =>
      let '(s1, out1) := relay_step s ev in
      let '(s2, out2) := relay_run s1 evs' in
      (s2, out1 ++ out2)
  end.
End relay.
