(* ===== verification/RelayTheorems.v ===== *)
(** * RelayTheorems: what crosses the relay

    The relay of [Relay] is compared with an abstract protocol whose state is
    the requests still owed an answer and the progress of the handshake.  Every
    interleaving of client frames, server frames, write outcomes and internal
    listings keeps the ledger of the request table exact, and produces only
    emissions the protocol permits. *)

From stdpp Require Import pretty.
From S2P Require Import Prelude Text Percent Json RpcId Protocol WireFrame McpRules McpDecide Session SessionGate Structure Wire WireTheorems Relay.

(** ** The abstract protocol *)

Record Protocol := mkProtocol {
  pr_open : gmap WireKey string;   (** requests owed an answer, with their method *)
  pr_result : bool;                (** a result of [initialize] was passed on *)
  pr_initialized : bool;           (** [notifications/initialized] was passed on *)
}.

Definition protocol_new : Protocol := mkProtocol ∅ false false.

Definition stamped (frame : Json) (method : string) : bool :=
  bool_decide (meta_check (xr_meta (extract_request frame method)) = Ok tt).

(** When a request may cross. *)
Definition ready (dry_run : bool) (p : Protocol) (d : MessageDirection) (frame : Json) (m : string) : bool :=
  bool_decide (m = "initialize") || bool_decide (m = "ping")
  || match d with
     | ClientToServer =>
         pr_result p || stamped frame m || (dry_run && bool_decide (m = "tools/call"))
     | ServerToClient => pr_initialized p
     end.

Definition carries_result (frame : Json) : bool :=
  xp_has_result (extract_response frame) && negb (xp_is_error (extract_response frame)).

(** A response closes the request it answers. *)
Definition answer (p : Protocol) (d : MessageDirection) (id : RpcId) (frame : Json) : option Protocol :=
  m ← pr_open p !! (opposite d, id);
  Some (mkProtocol (delete (opposite d, id) (pr_open p))
          (pr_result p || (bool_decide (d = S2C) && bool_decide (m = "initialize") && carries_result frame))
          (pr_initialized p)).

Definition open_request (p : Protocol) (key : WireKey) (m : string) : option Protocol :=
  match pr_open p !! key with
  | Some _ => None
  | None => Some (mkProtocol (<[key := m]> (pr_open p)) (pr_result p) (pr_initialized p))
  end.

(** What the protocol permits, and its next state; [None] is a violation. *)
Definition protocol_step (dry_run : bool) (p : Protocol) (e : Emit) : option Protocol :=
  match e with
  | Forward d frame =>
      match classify_frame frame with
      | WRequest m id _ =>
          if ready dry_run p d frame m && negb (bool_decide (d = C2S) && is_internal_namespace id)
          then open_request p (d, id) m else None
      | WResponse id _ =>
          if bool_decide (d = S2C) && is_internal_namespace id then None else answer p d id frame
      | WNotification m =>
          if bool_decide (d = C2S) && bool_decide (m = "notifications/initialized") then
            if pr_result p then Some (mkProtocol (pr_open p) (pr_result p) true) else None
          else Some p
      | WMalformed _ _ => None
      end
  | ToListing frame =>
      match classify_frame frame with
      | WResponse id _ => answer p S2C id frame
      | WRequest _ _ _ => None
      | _ => Some p
      end
  | InternalRequest id => open_request p (C2S, id) "tools/list"
  | Closed key =>
      if bool_decide (is_Some (pr_open p !! key))
      then Some (mkProtocol (delete key (pr_open p)) (pr_result p) (pr_initialized p)) else None
  | AnswerError _ _ | Stop => Some p
  end.

Fixpoint protocol_run (dry_run : bool) (p : Protocol) (es : list Emit) : option Protocol :=
  match es with
  | [] => Some p
  | e :: es' => p' ← protocol_step dry_run p e; protocol_run dry_run p' es'
  end.

Lemma protocol_run_app dry p es1 es2 :
  protocol_run dry p (es1 ++ es2) = (p' ← protocol_run dry p es1; protocol_run dry p' es2).
Proof.
  revert p. induction es1 as [|e es1 IH]; intros p; simpl; [done|].
  destruct (protocol_step dry p e); simpl; auto.
Qed.

(** ** Simulation *)

Record tracks (w : WireState) (p : Protocol) : Prop := mkTracks {
  tk_wire : wire_ok w;
  tk_open : ∀ k e, w_requests w !! k = Some e → tr_responded e = false →
            pr_open p !! k = Some (tr_method e);
  tk_closed : ∀ k m, pr_open p !! k = Some m → k ∈ w_retired w ∨ awaits w k = true;
  tk_result : w_init w ≠ PendingInitialize → pr_result p = true;
  tk_initialized : w_init w = Operational → pr_initialized p = true;
  tk_internal : ∀ id e, w_requests w !! (C2S, id) = Some e → tr_internal e = is_internal_namespace id;
}.

Definition phase_ok (dry_run : bool) (p : Protocol) (c : ClientPhase) : Prop :=
  match c with
  | CDecided frame method id raw_id version verdict =>
      classify_frame frame = WRequest method id raw_id ∧ is_internal_namespace id = false ∧
      (verdict_allows verdict = true → ready dry_run p C2S frame method = true)
  | _ => True
  end.

Definition follows (dry_run : bool) (s : RelayState) (p : Protocol) : Prop :=
  tracks (r_wire s) p ∧ phase_ok dry_run p (r_client s).

(** The protocol only gains ground. *)
Definition gains (p p' : Protocol) : Prop :=
  (pr_result p = true → pr_result p' = true) ∧ (pr_initialized p = true → pr_initialized p' = true).

Lemma ready_gains dry p p' d f m : gains p p' → ready dry p d f m = true → ready dry p' d f m = true.
Proof.
  intros [Hr Hi]. unfold ready. rewrite !orb_true_iff. destruct d; [|tauto].
  rewrite !orb_true_iff. tauto.
Qed.

Lemma phase_gains dry p p' c : gains p p' → phase_ok dry p c → phase_ok dry p' c.
Proof. destruct c; simpl; [done| |done]. intros Hg (? & ? & H). split_and!; eauto using ready_gains. Qed.

(** States that agree on what [tracks] reads. *)
Lemma tracks_same w w' p : tracks w p → wire_ok w' →
  w_requests w' = w_requests w → w_retired w' = w_retired w → w_init w' = w_init w → tracks w' p.
Proof.
  intros [] Hok Hr Ht Hi. constructor; rewrite ?Hr, ?Ht, ?Hi; auto.
  intros k m Hk. unfold awaits. rewrite Hr. eauto.
Qed.

(** An update in place that keeps the method, the answered flag and the origin
    of the entry. *)
Definition keeps_identity (f : TrackedRequest → TrackedRequest) : Prop :=
  ∀ e, tr_method (f e) = tr_method e ∧ tr_responded (f e) = tr_responded e ∧ tr_internal (f e) = tr_internal e.

Lemma tracks_update w w' p key f : tracks w p → wire_ok w' → keeps_identity f →
  w_requests w' = alter f key (w_requests w) → w_retired w' = w_retired w → w_init w' = w_init w →
  tracks w' p.
Proof.
  intros [] Hok Hf Hr Ht Hi. constructor; rewrite ?Ht, ?Hi; auto; rewrite ?Hr.
  - intros k e. rewrite lookup_alter. case_decide as E; [subst|eauto].
    destruct (w_requests w !! k) as [e'|] eqn:He; [|done]. intros [= <-].
    destruct (Hf e') as (-> & -> & _). eauto.
  - intros k m Hk. destruct (tk_closed0 _ _ Hk) as [?|Ha]; [by left|right].
    unfold awaits in *. rewrite Hr, lookup_alter. case_decide as E; [subst|done].
    destruct (w_requests w !! k) as [e'|]; [|done]. simpl in *. by destruct (Hf e') as (_ & -> & _).
  - intros id e. rewrite lookup_alter. case_decide as E; [subst|eauto].
    destruct (w_requests w !! _) as [e'|] eqn:He; [|done]. intros [= <-].
    destruct (Hf e') as (_ & _ & ->). eauto.
Qed.

(** An entry that is removed or marked answered is closed in the protocol. *)
Lemma tracks_close w w' p key res ini : tracks w p → wire_ok w' →
  (∀ k, k ≠ key → w_requests w' !! k = w_requests w !! k) →
  (∀ e', w_requests w' !! key = Some e' → tr_responded e' = true ∧
     ∃ e, w_requests w !! key = Some e ∧ tr_internal e' = tr_internal e) →
  w_retired w' = w_retired w →
  (w_init w' ≠ PendingInitialize → res = true) → (w_init w' = Operational → ini = true) →
  tracks w' (mkProtocol (delete key (pr_open p)) res ini).
Proof.
  intros [] Hok Hr Hkey Ht Hres Hini. constructor; simpl; auto; rewrite ?Ht.
  - intros k e He Hresp. destruct (decide (k = key)) as [->|Hne].
    + apply Hkey in He as [? _]. congruence.
    + rewrite lookup_delete_ne by done. rewrite Hr in He by done. eauto.
  - intros k m [Hne Hk]%lookup_delete_Some. destruct (tk_closed0 _ _ Hk) as [?|Ha]; [by left|right].
    unfold awaits in *. by rewrite Hr.
  - intros id e He. destruct (decide ((C2S, id) = key)) as [<-|Hne].
    + apply Hkey in He as [_ (e0 & He0 & ->)]. eauto.
    + rewrite Hr in He by done. eauto.
Qed.

(** A tracked request that was answered is not open. *)
Lemma not_awaited_closed w p key e : tracks w p → w_requests w !! key = Some e →
  awaits w key = false → pr_open p !! key = None.
Proof.
  intros [] He Ha. destruct (pr_open p !! key) as [m|] eqn:Hm; [|done].
  destruct (tk_closed0 _ _ Hm) as [Hr|?]; [|congruence].
  pose proof (wo_disjoint _ tk_wire0 _ Hr). congruence.
Qed.

Lemma awaits_open w p key : tracks w p → awaits w key = true →
  ∃ e, w_requests w !! key = Some e ∧ tr_responded e = false ∧ pr_open p !! key = Some (tr_method e).
Proof.
  intros [] Ha. unfold awaits in Ha. destruct (w_requests w !! key) as [e|] eqn:He; [|done].
  simpl in Ha. apply negb_true_iff in Ha. eauto.
Qed.

(** ** What the wire operations touch *)

(** The part of the state [tracks] reads. *)
Definition core (w : WireState) := (w_requests w, w_retired w, w_init w).

Lemma tracks_core w w' p : tracks w p → wire_ok w' → core w' = core w → tracks w' p.
Proof. intros Ht Hok [= ? ? ?]. by eapply tracks_same. Qed.

Lemma core_charge w n w' : charge_bytes w n = Some w' → core w' = core w.
Proof. unfold charge_bytes. destruct (_ <? _)%Z; [done|]. by intros [= <-]. Qed.

Lemma core_pending_caps w caps : core (set_pending_init_caps w caps) = core w.
Proof.
  unfold set_pending_init_caps. destruct (bounded_names <$> caps) as [new|], (w_pending_init w);
    try done; destruct (charge_bytes _ _) eqn:Hc; try done; by apply core_charge in Hc.
Qed.

Lemma core_track_elicitation w el w' : track_elicitation w el = Some w' → core w' = core w.
Proof.
  unfold track_elicitation. destruct (_ || _); [done|].
  destruct (charge_bytes _ _) eqn:Hc; [|done]. intros [= <-]. by apply core_charge in Hc.
Qed.

Lemma core_track_all ids : ∀ w, core (track_all w ids) = core w.
Proof.
  unfold track_all. induction ids as [|el ids IH]; intros w; simpl; [done|]. rewrite IH.
  destruct (track_elicitation w el) as [w'|] eqn:E; [|done]. by apply core_track_elicitation in E.
Qed.

Lemma core_request_forwarded w d id m v ext : core (on_request_forwarded w d id m v ext).1 = core w.
Proof.
  unfold on_request_forwarded. destruct d.
  - simpl. destruct (String.eqb m "initialize"), (w_version w); rewrite ?core_pending_caps; done.
  - destruct (String.eqb m "elicitation/create"); [|done].
    destruct (xr_elicitation_id ext) as [el|]; simpl; [|done].
    destruct (track_elicitation w el) as [w'|] eqn:E; simpl; [|done]. by apply core_track_elicitation in E.
Qed.

Lemma core_remove w key :
  core (remove_request w key false).1 = (delete key (w_requests w), w_retired w, w_init w).
Proof.
  unfold remove_request. destruct (w_requests w !! key) as [e|] eqn:E; simpl; [done|].
  by rewrite delete_id.
Qed.

Lemma core_rollback w undo :
  core (rollback_forwarded_request w undo) = (delete (undo_key undo) (w_requests w), w_retired w, w_init w).
Proof.
  unfold rollback_forwarded_request, unregister, undo_key.
  destruct (undo_elicitation undo) as [el|].
  - transitivity (core (set_pending_init_caps (set_version (remove_request w (undo_direction undo, undo_id undo)
      false).1 (undo_version undo)) (undo_pending_init undo))); [done|].
    rewrite core_pending_caps. apply core_remove.
  - rewrite core_pending_caps. apply core_remove.
Qed.

Lemma core_response_forwarded w d e ext is_result :
  w_requests (on_response_forwarded w d e ext is_result) = w_requests w ∧
  w_retired (on_response_forwarded w d e ext is_result) = w_retired w ∧
  w_init (on_response_forwarded w d e ext is_result)
  = (if bool_decide (d = S2C) && is_result && bool_decide (tr_method e = "initialize")
     then AwaitingInitialized else w_init w).
Proof.
  unfold on_response_forwarded. destruct d; [done|].
  pose proof (core_track_all (xp_elicitation_ids ext) w) as [= Hr Ht Hi].
  destruct is_result; simpl; [|by rewrite Hr, Ht, Hi].
  destruct (String.eqb_spec (tr_method e) "initialize") as [->|Hne].
  { unfold commit_initialize. destruct (charge_bytes _ _) eqn:Hc.
    - apply core_charge in Hc as [= ? ? ?]. simpl. by rewrite H, H0.
    - simpl. by rewrite Hr, Ht. }
  rewrite (bool_decide_eq_false_2 _ Hne). simpl.
  unfold commit_subscribe, commit_unsubscribe, commit_log_level.
  destruct (String.eqb _ _); [|destruct (String.eqb _ _); [|destruct (String.eqb _ _)]].
  all: try (by rewrite Hr, Ht, Hi).
  - destruct (tr_uri e); simpl; [|by rewrite Hr, Ht, Hi]. destruct (_ && _); [|by rewrite Hr, Ht, Hi].
    destruct (charge_bytes _ _) eqn:Hc; [|by rewrite Hr, Ht, Hi].
    apply core_charge in Hc as [= ? ? ?]. simpl. split_and!; congruence.
  - destruct (tr_uri e); simpl; by rewrite Hr, Ht, Hi.
  - destruct (tr_level e); simpl; [|by rewrite Hr, Ht, Hi].
    destruct (w_log_level _), (_ <=? _)%Z; simpl; try (by rewrite Hr, Ht, Hi);
      destruct (charge_bytes _ _) eqn:Hc; simpl; try (by rewrite Hr, Ht, Hi);
      apply core_charge in Hc as [= ? ? ?]; split_and!; simpl in *; congruence.
Qed.

(** ** Steps of the protocol *)

(** What a step of the relay must establish. *)
Definition step_ok (dry : bool) (w' : WireState) (p : Protocol) (es : list Emit) : Prop :=
  ∃ p', protocol_run dry p es = Some p' ∧ tracks w' p' ∧ gains p p'.

Lemma gains_refl p : gains p p.
Proof. by split. Qed.

Lemma gains_trans p q r : gains p q → gains q r → gains p r.
Proof. unfold gains. tauto. Qed.

(** Emissions the protocol ignores. *)
Definition quiet (e : Emit) : Prop :=
  match e with AnswerError _ _ | Stop => True | _ => False end.

Lemma step_silent dry w p es : tracks w p →
  Forall quiet es → step_ok dry w p es.
Proof.
  intros Ht Hall. exists p. split_and!; [|done|apply gains_refl].
  induction Hall as [|e es He _ IH]; [done|]. by destruct e.
Qed.

Lemma step_app dry w w' p es1 es2 : step_ok dry w p es1 →
  (∀ p', tracks w p' → step_ok dry w' p' es2) → step_ok dry w' p (es1 ++ es2).
Proof.
  intros (p1 & H1 & Ht1 & Hg1) H2. destruct (H2 p1 Ht1) as (p2 & H2' & Ht2 & Hg2).
  exists p2. rewrite protocol_run_app, H1. eauto using gains_trans.
Qed.

(** Giving up a request. *)
Lemma step_closing dry w w' p key : tracks w p → wire_ok w' →
  core w' = (delete key (w_requests w), w_retired w, w_init w) → step_ok dry w' p (closing w key).
Proof.
  intros Ht Hok [= Hr Hret Hi]. pose proof Ht as [].
  assert (tracks w' (mkProtocol (delete key (pr_open p)) (pr_result p) (pr_initialized p))) as Ht'.
  { eapply tracks_close; [done..| | |done| |]; rewrite ?Hi; auto; rewrite ?Hr.
    - intros k Hne. by apply lookup_delete_ne.
    - intros e' He'. by rewrite lookup_delete_eq in He'. }
  unfold closing, step_ok. destruct (awaits w key) eqn:Ha.
  - destruct (awaits_open w p key Ht Ha) as (e & _ & _ & Hm). simpl.
    rewrite bool_decide_eq_true_2 by eauto. simpl. eexists. split_and!; done.
  - exists p. split_and!; [done| |apply gains_refl].
    destruct (w_requests w !! key) as [e|] eqn:He.
    + rewrite delete_id in Ht' by (by eapply not_awaited_closed). by destruct p.
    + eapply tracks_same; [done..| | |]; [|done|done]. by rewrite Hr, delete_id.
Qed.

(** Passing an answer on. *)
Lemma step_answer dry w w' p d id raw frame (listing : bool) e :
  tracks w p → wire_ok w' → classify_frame frame = WResponse id raw →
  w_requests w !! (opposite d, id) = Some e → tr_responded e = false →
  (∀ k, k ≠ (opposite d, id) → w_requests w' !! k = w_requests w !! k) →
  (∀ e', w_requests w' !! (opposite d, id) = Some e' →
     tr_responded e' = true ∧ tr_internal e' = tr_internal e) →
  w_retired w' = w_retired w →
  w_init w' = (if bool_decide (d = S2C) && carries_result frame && bool_decide (tr_method e = "initialize")
               then AwaitingInitialized else w_init w) →
  (if listing then d = S2C else d = S2C → tr_internal e = false) →
  step_ok dry w' p [if listing then ToListing frame else Forward d frame].
Proof.
  intros Ht Hok Hcl He Hresp Hne Hkey Hret Hi Hl. pose proof Ht as [].
  assert (∃ p', answer p d id frame = Some p' ∧ tracks w' p' ∧ gains p p') as (p' & Ha & Ht' & Hg).
  { unfold answer. rewrite (tk_open0 _ _ He Hresp). simpl. eexists. split_and!; [done| |].
    - eapply tracks_close; eauto.
      + intros e' He'. destruct (Hkey e' He'). eauto.
      + rewrite Hi. destruct (bool_decide (d = S2C)), (carries_result frame),
          (bool_decide (tr_method e = "initialize")); simpl; rewrite ?orb_true_r, ?orb_false_r; auto.
      + rewrite Hi. destruct (_ && _); [done|auto].
    - split; simpl; [|done]. by intros ->. }
  exists p'. split_and!; [|done..]. destruct listing; simpl; rewrite Hcl.
  - subst d. by rewrite Ha.
  - destruct (bool_decide (d = S2C)) eqn:Hd; simpl; [|by rewrite Ha].
    apply bool_decide_eq_true in Hd. subst d. simpl in He.
    rewrite <- (tk_internal0 _ _ He), Hl by done. by rewrite Ha.
Qed.

Section relay.
Context (iter : gmap WireKey TrackedRequest → list (WireKey * TrackedRequest)).
Context (iter_entries : ∀ m, iter m ≡ₚ map_to_list m).

Lemma register_core w d id entry w1 : wire_ok w → register iter w d id entry = Ok w1 →
  w_requests w !! (d, id) = None ∧ (d, id) ∉ w_retired w ∧ w_init w1 = w_init w ∧
  w_requests w1 !! (d, id) = Some entry ∧
  (∀ k e, k ≠ (d, id) → w_requests w1 !! k = Some e → w_requests w !! k = Some e) ∧
  (∀ k e, w_requests w !! k = Some e → w_requests w1 !! k = Some e ∨ k ∈ w_retired w1) ∧
  w_retired w ⊆ w_retired w1.
Proof.
  intros Hok (_ & Hk & Hr & _ & [-> _ _|victim e0 w2 Hv _ -> -> _ _])%(register_inv iter iter_entries);
    [| |by apply wire_bytes_nonneg].
  - simpl. rewrite lookup_insert_eq. split_and!; try done.
    + intros k e Hne. by rewrite lookup_insert_ne.
    + intros k e He. left. rewrite lookup_insert_ne; [done|congruence].
  - unfold remove_request. rewrite Hv. simpl. rewrite lookup_insert_eq. split_and!; try done; [| |set_solver].
    + intros k e Hne. rewrite lookup_insert_ne by done. by intros [_ ?]%lookup_delete_Some.
    + intros k e He. destruct (decide (k = victim)) as [->|Hne]; [right; set_solver|left].
      rewrite lookup_insert_ne by congruence. by apply lookup_delete_Some.
Qed.

(** A registration opens the request in the protocol. *)
Lemma open_simulated w w1 w' p d id entry : tracks w p →
  register iter w d id entry = Ok w1 → core w' = core w1 → wire_ok w' → tr_responded entry = false →
  (d = C2S → tr_internal entry = is_internal_namespace id) →
  ∃ p', open_request p (d, id) (tr_method entry) = Some p' ∧ tracks w' p' ∧ gains p p'.
Proof.
  intros Ht Hreg [= Hr Hret Hi] Hok Hresp Hint. pose proof Ht as [].
  apply register_core in Hreg as (Hk & Hnr & Hi1 & Hnew & Hold & Hkeep & Hsub); [|done].
  unfold open_request. destruct (pr_open p !! (d, id)) as [m|] eqn:Hm.
  { exfalso. destruct (tk_closed0 _ _ Hm) as [?|Ha]; [done|]. unfold awaits in Ha. by rewrite Hk in Ha. }
  eexists. split_and!; [done| |by split]. constructor; simpl; rewrite ?Hr, ?Hret, ?Hi, ?Hi1; auto.
  - intros k e He Hre. destruct (decide (k = (d, id))) as [->|Hne].
    + rewrite lookup_insert_eq. congruence.
    + rewrite lookup_insert_ne by done. eauto.
  - intros k m [[<- <-]|[Hne Hmk]]%lookup_insert_Some.
    + right. unfold awaits. rewrite Hr, Hnew. simpl. by rewrite Hresp.
    + destruct (tk_closed0 _ _ Hmk) as [?|Ha]; [set_solver|].
      destruct (awaits_open _ _ _ Ht Ha) as (e & He & Hre & _).
      destruct (Hkeep _ _ He) as [He1|?]; [|set_solver]. right.
      unfold awaits. rewrite Hr, He1. simpl. by rewrite Hre.
  - intros id' e He. destruct (decide ((C2S, id') = (d, id))) as [[= <- <-]|Hne]; [|eauto].
    rewrite Hnew in He. simplify_eq. auto.
Qed.

Lemma step_request dry w w1 w' p d id raw m frame entry : tracks w p →
  register iter w d id entry = Ok w1 → core w' = core w1 → wire_ok w' →
  classify_frame frame = WRequest m id raw → tr_method entry = m →
  tr_responded entry = false → tr_internal entry = false →
  (d = C2S → is_internal_namespace id = false) → ready dry p d frame m = true →
  step_ok dry w' p [Forward d frame].
Proof.
  intros Ht Hreg Hc Hok Hcl Hm Hresp Hint Hns Hready.
  destruct (open_simulated w w1 w' p d id entry) as (p' & Ho & Ht' & Hg); auto.
  { intros Hd. by rewrite Hint, Hns. }
  exists p'. split_and!; [|done..]. simpl. rewrite Hcl, Hready, <- Hm, Ho. simpl.
  by destruct d; [rewrite Hns|].
Qed.

(** ** Notifications *)

Lemma decide_mcp_rules mcp : ∃ rules, ∀ msg facts, decide_mcp mcp msg facts = decide_message rules msg facts.
Proof.
  unfold decide_mcp, server_decide. destruct mcp as [|s [|]]; [by exists ∅|by eexists|by exists ∅].
Qed.

(** [notifications/initialized] passes only while it is awaited. *)
Lemma initialized_passes mcp w v ext ct pr mf sub :
  verdict_allows (relay_decide mcp w (notification_message v C2S "notifications/initialized" ext ct pr mf sub)) = true →
  w_init w = AwaitingInitialized.
Proof.
  unfold relay_decide. destruct (decide_mcp_rules mcp) as [rules ->]. simpl.
  unfold decide_notification, judge_notification. simpl. destruct v; simpl; [done|].
  destruct (is_some_and _ _); [done|]. case_bool_decide; done.
Qed.

(** An acknowledgement passes only for a tracked subscription, with filters. *)
Lemma acknowledged_passes mcp w v ext ct pr mf sub :
  verdict_allows (relay_decide mcp w (notification_message v S2C "notifications/subscriptions/acknowledged"
              ext ct pr mf sub)) = true →
  is_Some sub ∧ is_Some (xn_ack_filters ext).
Proof.
  unfold relay_decide. destruct (decide_mcp_rules mcp) as [rules ->]. simpl.
  unfold decide_notification, judge_notification. simpl. destruct v; simpl; [|done].
  destruct (is_some_and _ _); [done|]. destruct sub as [sub|]; [|done].
  case_bool_decide; [done|]. destruct (xn_ack_filters ext); [|done]. eauto.
Qed.

Lemma remove_answered w p key : tracks w p → is_responded w key = true →
  tracks (remove_request w key false).1 p.
Proof.
  intros Ht Hr. destruct (step_closing false w (remove_request w key false).1 p key) as (p' & Hp & Ht' & _).
  - done.
  - apply remove_request_ok, Ht.
  - apply core_remove.
  - unfold closing, awaits in Hp. unfold is_responded in Hr.
    destruct (w_requests w !! key) as [e|]; [|done]. simpl in *. rewrite Hr in Hp. by injection Hp as <-.
Qed.

Lemma cancelled_tracks w p d v id : tracks w p → tracks (on_cancelled w d v id) p.
Proof.
  intros Ht. pose proof (on_cancelled_ok w d v id (tk_wire _ _ Ht)) as Hok.
  unfold on_cancelled, end_subscription in *.
  destruct (_ && _), (is_responded _ _) eqn:Hr; try (by apply remove_answered);
    (eapply tracks_update; [done|exact Hok| |done..]); by intros e.
Qed.

Lemma acknowledged_tracks w p id filters e sub : tracks w p →
  w_requests w !! (C2S, id) = Some e → tr_subscription e = Some sub →
  tracks (on_acknowledged w id (Some filters)) p.
Proof.
  intros Ht He Hs. pose proof (on_acknowledged_ok w id filters e sub (tk_wire _ _ Ht) He Hs) as Hok.
  revert Hok. unfold on_acknowledged.
  set (charged := if (_ <=? _)%Z then Some w else _). set (f := λ e, with_sub e _).
  assert (core (default w charged) = core w) as [= Hr Hret Hi].
  { subst charged. destruct (_ <=? _)%Z; [done|]. destruct (charge_bytes _ _) eqn:Hc; [|done].
    by apply core_charge in Hc. }
  destruct (_ && (_ <? _)%Z); intros Hok;
    (eapply (tracks_update _ _ _ (C2S, id) f); [done|exact Hok|by intros e0|by rewrite <- Hr|exact Hret|exact Hi]).
Qed.

Lemma step_notification dry w p d v m ext frame (listing : bool) : tracks w p →
  classify_frame frame = WNotification m →
  (d = C2S → m = "notifications/initialized" → w_init w = AwaitingInitialized) →
  (d = S2C → m = "notifications/subscriptions/acknowledged" →
     is_Some (xn_subscription_id ext ≫= subscription_facts w) ∧ is_Some (xn_ack_filters ext)) →
  (listing = true → m ≠ "notifications/initialized") →
  step_ok dry (on_notification_forwarded w d v m ext) p [if listing then ToListing frame else Forward d frame].
Proof.
  intros Ht Hcl Hinit Hack Hl. unfold on_notification_forwarded.
  destruct (bool_decide (d = C2S) && String.eqb m "notifications/initialized") eqn:H1.
  { apply andb_true_iff in H1 as [Hd%bool_decide_eq_true Hm%String.eqb_eq]. subst.
    specialize (Hinit eq_refl eq_refl). pose proof Ht as [].
    destruct listing; [by destruct (Hl eq_refl)|].
    exists (mkProtocol (pr_open p) (pr_result p) true). simpl. rewrite Hcl. simpl.
    rewrite tk_result0 by congruence. split_and!; [done| |by split].
    constructor; simpl; auto. by apply set_init_ok. }
  assert (∀ w', tracks w' p → step_ok dry w' p [if listing then ToListing frame else Forward d frame]) as Hstay.
  { intros w' Ht'. exists p. split_and!; [|done|apply gains_refl].
    destruct listing; simpl; rewrite Hcl; [done|].
    destruct (bool_decide (d = C2S)) eqn:Hd; simpl; [|done]. simpl in H1.
    apply String.eqb_neq in H1. by rewrite bool_decide_eq_false_2. }
  apply Hstay. destruct (String.eqb m "notifications/cancelled").
  { destruct (xn_cancel_id ext); [by apply cancelled_tracks|done]. }
  destruct (bool_decide (d = S2C) && String.eqb m "notifications/subscriptions/acknowledged") eqn:H2.
  { apply andb_true_iff in H2 as [Hd%bool_decide_eq_true Hm%String.eqb_eq].
    destruct (Hack Hd Hm) as [[sf Hsf] [filters ->]].
    destruct (xn_subscription_id ext) as [id|]; [|done]. simpl in Hsf. unfold subscription_facts in Hsf.
    destruct (w_requests w !! (C2S, id)) as [e|] eqn:He; [|done]. simpl in Hsf.
    destruct (tr_subscription e) as [sub|] eqn:Hs; [|done]. by eapply acknowledged_tracks. }
  destruct (bool_decide (d = S2C) && String.eqb m "notifications/elicitation/complete"); [|done].
  destruct (xn_elicitation_id ext) as [el|]; [|done].
  eapply tracks_core; [done|apply drop_elicitation_ok, Ht|done].
Qed.

(** ** The handlers *)

Context (mcp_rules : list ServerMcpRules) (dry_run : bool).

(** A request that passes may cross. *)
Lemma allowed_request_ready w p version d frame m : tracks w p →
  verdict_allows (relay_decide mcp_rules w (request_message version d m (extract_request frame m))) = true →
  ready dry_run p d frame m = true.
Proof.
  intros [] Ha. unfold relay_decide in Ha. destruct (decide_mcp_rules mcp_rules) as [rules Hd].
  rewrite Hd in Ha. clear Hd. simpl in Ha. unfold decide_request, judge_request in Ha. simpl in Ha.
  assert (request_gate (mkRequest version d m (xr_meta (extract_request frame m))
            (Some (ext_params (extract_request frame m)))) (session_facts w) = Ok tt) as Hg.
  { destruct (request_gate _ _) as [[]|]; [done|]. by destruct (request_behavior _ _ _); try done; destruct (is_some_and _ denies). }
  assert (version = V26 → d = C2S) as Hv26.
  { intros ->. by destruct d. }
  clear Ha. unfold request_gate in Hg. simpl in Hg. unfold ready. destruct version.
  - rewrite (Hv26 eq_refl). unfold stamped.
    rewrite (bool_decide_eq_true_2 (meta_check _ = _)) by exact Hg. by rewrite !orb_true_r.
  - case_bool_decide; [done|]. case_bool_decide; [done|]. simpl. case_bool_decide; [done|].
    destruct d; simpl in Hg.
    + rewrite tk_result0 by done. done.
    + case_bool_decide as Hi; [done|]. by apply tk_initialized0.
Qed.

(** A response that passes answers a request owed an answer. *)
Lemma judged_answers w d id ext v : judge_response mcp_rules w d id ext = v →
  (verdict_allows v = true ∨ ∃ r, v = Undecided r) →
  ∃ e, w_requests w !! (opposite d, id) = Some e ∧ tr_responded e = false ∧
       answered w d id = Some (mkAnsReq (opposite d) (tr_method e) (tr_allowed e || tr_dry_run e) (tr_internal e)).
Proof.
  unfold judge_response, relay_decide. destruct (decide_mcp_rules mcp_rules) as [rules ->]. simpl.
  unfold decide_response. simpl. intros <-. destruct (_ && _); [intros [?|[??]]; done|].
  unfold answered. destruct (w_requests w !! (opposite d, id)) as [e|]; simpl; [|by intros [?|[??]]].
  destruct (tr_responded e) eqn:Hr; simpl; [by intros [?|[??]]|]. eauto.
Qed.

(** What a step of the relay establishes. *)
Definition relay_ok (p : Protocol) (r : RelayState * list Emit) : Prop :=
  ∃ p', protocol_run dry_run p r.2 = Some p' ∧ follows dry_run r.1 p' ∧ gains p p'.

(** A step that leaves the client loop alone or makes it idle. *)
Lemma relay_ok_step s p w' c' sv' es : follows dry_run s p → step_ok dry_run w' p es →
  (c' = r_client s ∨ ∀ p', phase_ok dry_run p' c') → relay_ok p (mkRelay w' c' sv', es).
Proof.
  intros [_ Hph] (p' & Hrun & Ht & Hg) Hc. exists p'. split_and!; [done| |done].
  split; [done|]. simpl. destruct Hc as [->|Hc]; [by eapply phase_gains|done].
Qed.

Lemma relay_ok_silent s p w' c' sv' es : follows dry_run s p → tracks w' p →
  Forall quiet es →
  (c' = r_client s ∨ ∀ p', phase_ok dry_run p' c') → relay_ok p (mkRelay w' c' sv', es).
Proof. intros Hs Ht Hes Hc. by eapply relay_ok_step; [|apply step_silent|]. Qed.

Lemma c2s_request_ok s p frame method id raw : follows dry_run s p → r_client s = CIdle →
  classify_frame frame = WRequest method id raw →
  relay_ok p (c2s_request mcp_rules s frame method id raw).
Proof.
  intros Hs Hidle Hcl. pose proof Hs as [Ht _]. unfold c2s_request.
  assert (∀ es, Forall quiet es →
                relay_ok p (s, es)) as Hstay.
  { intros es Hes. destruct s. apply (relay_ok_silent _ _ _ _ _ _ Hs Ht Hes). by left. }
  case_bool_decide; [apply Hstay; by repeat constructor|].
  destruct (is_internal_namespace id) eqn:Hns; [apply Hstay; by repeat constructor|].
  exists p. split_and!; [done| |apply gains_refl]. split; [done|]. simpl. split_and!; [done..|].
  destruct (request_version _ _ _) as [v|]; [|done]. by apply allowed_request_ready.
Qed.

Lemma register_and_forward_ok s p frame method id raw version allowed : follows dry_run s p →
  classify_frame frame = WRequest method id raw → is_internal_namespace id = false →
  ready dry_run p C2S frame method = true →
  relay_ok p (register_and_forward iter dry_run s frame method id raw version allowed).
Proof.
  intros Hs Hcl Hns Hr. pose proof Hs as [Ht _]. unfold register_and_forward.
  destruct (register _ _ _ _ _) as [w1|] eqn:Hreg.
  - destruct (on_request_forwarded w1 C2S id method version (extract_request frame method)) as [w2 undo] eqn:Ho.
    apply (relay_ok_step s); [done| |by right].
    eapply step_request; [done|exact Hreg| | |done..].
    + pose proof (core_request_forwarded w1 C2S id method version (extract_request frame method)) as Hc.
      by rewrite Ho in Hc.
    + pose proof (on_request_forwarded_ok w1 C2S id method version (extract_request frame method)) as Hc.
      rewrite Ho in Hc. apply Hc. eapply register_ok; [done| |exact Hreg]. apply Ht.
  - apply (relay_ok_silent s); [done|done|by repeat constructor|by right].
Qed.

Lemma deny_request_ok s p frame method id raw version verdict : follows dry_run s p →
  classify_frame frame = WRequest method id raw → is_internal_namespace id = false →
  relay_ok p (deny_request iter dry_run s frame method id raw version verdict).
Proof.
  intros Hs Hcl Hns. pose proof Hs as [Ht _]. unfold deny_request.
  destruct (dry_run && _) eqn:Hd.
  - apply register_and_forward_ok; [done..|]. apply andb_true_iff in Hd as [Hdry Hobs].
    unfold dry_run_observable in Hobs. apply andb_true_iff in Hobs as [->%String.eqb_eq _].
    unfold ready. rewrite Hdry. simpl. by rewrite !orb_true_r.
  - apply (relay_ok_silent s); [done|done|by repeat constructor|by right].
Qed.

Lemma forward_allowed_ok s p l frame method id raw version : follows dry_run s p →
  classify_frame frame = WRequest method id raw → is_internal_namespace id = false →
  ready dry_run p C2S frame method = true →
  relay_ok p (forward_allowed iter dry_run s l frame method id raw version).
Proof.
  intros Hs Hcl Hns Hr. pose proof Hs as [Ht _]. unfold forward_allowed.
  assert (relay_ok p (with_client s (r_wire s) CIdle, [AnswerError S2C raw])) as Hrefuse
    by (apply (relay_ok_silent s); [done|done|by repeat constructor|by right]).
  destruct (String.eqb method "tools/call").
  - destruct (lc_busy l); [done|]. destruct (can_register _ _ _ _); [|by apply deny_request_ok].
    destruct (lc_check l); [destruct (lc_advertised l)|destruct (_ && _)];
      auto using register_and_forward_ok.
  - destruct (bool_decide _); [by apply deny_request_ok|].
    destruct (String.eqb method "tools/list"); [destruct (lc_armed l)|]; auto using register_and_forward_ok.
Qed.

Lemma c2s_admit_ok s p l : follows dry_run s p → relay_ok p (c2s_admit iter dry_run s l).
Proof.
  intros Hs. pose proof Hs as [Ht Hph]. unfold c2s_admit.
  destruct (r_client s) as [|frame method id raw version verdict|] eqn:Hc.
  1,3: destruct s; apply (relay_ok_silent _ _ _ _ _ _ Hs Ht); [constructor|by left].
  destruct Hph as (Hcl & Hns & Hready).
  destruct verdict; try (by apply deny_request_ok). by apply forward_allowed_ok; auto.
Qed.

Lemma rollback_step s p undo es : follows dry_run s p →
  Forall quiet es →
  step_ok dry_run (rollback_forwarded_request (r_wire s) undo) p (closing (r_wire s) (undo_key undo) ++ es).
Proof.
  intros [Ht _] Hes. eapply step_app; [|by intros; apply step_silent].
  apply step_closing; [done|apply rollback_ok, Ht|apply core_rollback].
Qed.

Lemma c2s_written_ok s p o : follows dry_run s p → relay_ok p (c2s_written s o).
Proof.
  intros Hs. pose proof Hs as [Ht Hph]. unfold c2s_written.
  destruct (r_client s) as [| |undo raw] eqn:Hc.
  1,2: destruct s; apply (relay_ok_silent _ _ _ _ _ _ Hs Ht); [constructor|by left].
  destruct o.
  - by apply (relay_ok_silent s); [| |constructor|right].
  - apply (relay_ok_step s); [done|apply rollback_step; [done|by repeat constructor]|by right].
  - apply (relay_ok_step s); [done|apply rollback_step; [done|by repeat constructor]|by right].
Qed.

Lemma s2c_written_ok s p ok : follows dry_run s p → relay_ok p (s2c_written s ok).
Proof.
  intros Hs. pose proof Hs as [Ht Hph]. unfold s2c_written.
  destruct (r_server s) as [|undo] eqn:Hc.
  { destruct s; apply (relay_ok_silent _ _ _ _ _ _ Hs Ht); [constructor|by left]. }
  destruct ok.
  - by apply (relay_ok_silent s); [| |constructor|left].
  - apply (relay_ok_step s); [done|apply rollback_step; [done|by repeat constructor]|by left].
Qed.

(** The state is left as it was. *)
Lemma relay_ok_stay s p es : follows dry_run s p → Forall quiet es → relay_ok p (s, es).
Proof.
  intros Hs Hes. pose proof Hs as [Ht _]. destruct s. eapply relay_ok_silent; [done|done|done|by left].
Qed.

Lemma with_wire_same s : with_wire s (r_wire s) = s.
Proof. by destruct s. Qed.

Lemma c2s_notification_ok s p frame m : follows dry_run s p → classify_frame frame = WNotification m →
  relay_ok p (c2s_notification iter mcp_rules s frame m).
Proof.
  intros Hs Hcl. pose proof Hs as [Ht _]. unfold c2s_notification.
  destruct (_ && _); [apply relay_ok_stay; [done|constructor]|].
  destruct (verdict_allows _) eqn:Ha; [|apply relay_ok_stay; [done|constructor]].
  apply (relay_ok_step s); [done| |by left].
  apply (step_notification _ _ _ _ _ _ _ _ false); [done..| | |done]; [|done].
  intros _ ->. by eapply initialized_passes.
Qed.

Lemma s2c_notification_ok s p frame m : follows dry_run s p → classify_frame frame = WNotification m →
  relay_ok p (s2c_notification iter mcp_rules s frame m).
Proof.
  intros Hs Hcl. pose proof Hs as [Ht _]. unfold s2c_notification.
  destruct (verdict_allows _) eqn:Ha; [|apply relay_ok_stay; [done|constructor]].
  apply (relay_ok_step s); [done| |by left].
  apply step_notification; [done..| |]; [|by intros ->%String.eqb_eq].
  intros _ ->. by eapply acknowledged_passes.
Qed.

Lemma s2c_request_ok s p frame m id raw : follows dry_run s p → classify_frame frame = WRequest m id raw →
  relay_ok p (s2c_request iter mcp_rules dry_run s frame m id raw).
Proof.
  intros Hs Hcl. pose proof Hs as [Ht _]. unfold s2c_request.
  assert (relay_ok p (s, if bool_decide (passive_version (r_wire s) = V26) then [] else [AnswerError C2S raw]))
    as Hrefuse by (apply relay_ok_stay; [done|destruct (bool_decide _); by repeat constructor]).
  destruct (verdict_allows _) eqn:Ha; [|done]. case_bool_decide; [done|].
  destruct (register _ _ _ _ _) as [w1|] eqn:Hreg; [|done].
  destruct (on_request_forwarded w1 S2C id m _ _) as [w2 undo] eqn:Ho.
  apply (relay_ok_step s); [done| |by left].
  eapply step_request; [done|exact Hreg| | |done..|].
  - pose proof (core_request_forwarded w1 S2C id m (passive_version (r_wire s)) (extract_request frame m)) as Hc.
    by rewrite Ho in Hc.
  - pose proof (on_request_forwarded_ok w1 S2C id m (passive_version (r_wire s)) (extract_request frame m)) as Hc.
    rewrite Ho in Hc. apply Hc. eapply register_ok; [done| |exact Hreg]. apply Ht.
  - by eapply allowed_request_ready.
Qed.

(** ** Responses *)

(** The entry at [key] is gone or marked answered; nothing else changed. *)
Definition consumed (w : WireState) (key : WireKey) (e : TrackedRequest) (r : WireState * option TrackedRequest) : Prop :=
  wire_ok r.1 ∧ (∀ k, k ≠ key → w_requests r.1 !! k = w_requests w !! k) ∧
  (∀ e', w_requests r.1 !! key = Some e' → tr_responded e' = true ∧ tr_internal e' = tr_internal e) ∧
  w_retired r.1 = w_retired w ∧ w_init r.1 = w_init w ∧
  match r.2 with
  | Some e0 => tr_method e0 = tr_method e
  | None => tr_method e ≠ "initialize"
  end.

Lemma take_consumed w d id e : wire_ok w → w_requests w !! (d, id) = Some e →
  consumed w (d, id) e (wire_take w d id).
Proof.
  intros Hok He. pose proof (remove_request_ok w (d, id) Hok). unfold wire_take.
  pose proof (core_remove w (d, id)) as [= Hr Hret Hi]. split_and!; [done| | |done|done|].
  - intros k Hne. rewrite Hr. by apply lookup_delete_ne.
  - intros e'. rewrite Hr, lookup_delete_eq. done.
  - unfold remove_request. by rewrite He.
Qed.

Lemma mark_consumed w d id e : wire_ok w → w_requests w !! (d, id) = Some e →
  tr_method e ≠ "initialize" → consumed w (d, id) e (mark_responded w d id).
Proof.
  intros Hok He Hm. pose proof (mark_responded_ok w d id Hok) as Hok'. unfold mark_responded in *. rewrite He in *.
  set (w1 := update_request w (d, id) with_responded) in *.
  assert (w_requests w1 !! (d, id) = Some (with_responded e)) as He1
    by (simpl; by rewrite lookup_alter_eq, He).
  destruct (_ || _).
  - pose proof (core_remove w1 (d, id)) as [= Hr Hret Hi]. split_and!; [done| | |done|done|].
    + intros k Hne. rewrite Hr, lookup_delete_ne by done. simpl. by rewrite lookup_alter_ne.
    + intros e'. rewrite Hr, lookup_delete_eq. done.
    + unfold remove_request. by rewrite He1.
  - split_and!; simpl; try done.
    + intros k Hne. by rewrite lookup_alter_ne.
    + intros e'. rewrite lookup_alter_eq, He. by intros [= <-].
Qed.

Lemma step_consumed w p d id raw frame (listing : bool) e r : tracks w p →
  classify_frame frame = WResponse id raw →
  w_requests w !! (opposite d, id) = Some e → tr_responded e = false →
  consumed w (opposite d, id) e r →
  (if listing then d = S2C else d = S2C → tr_internal e = false) →
  step_ok dry_run
    (match r.2 with
     | Some e0 => on_response_forwarded r.1 d e0 (extract_response frame) (carries_result frame)
     | None => r.1
     end) p [if listing then ToListing frame else Forward d frame].
Proof.
  intros Ht Hcl He Hresp (Hok & Hne & Hkey & Hret & Hi & Hm) Hl.
  destruct r as [w1 [e0|]]; simpl in *.
  - destruct (core_response_forwarded w1 d e0 (extract_response frame) (carries_result frame)) as (Hr & Ht' & Hi').
    eapply step_answer; [done|by apply on_response_forwarded_ok|done|done|done|..|done].
    + intros k Hk. rewrite Hr. auto.
    + rewrite Hr. auto.
    + by rewrite Ht'.
    + by rewrite Hi', Hi, Hm.
  - eapply step_answer; [done..| |done]. by rewrite (bool_decide_eq_false_2 _ Hm), andb_false_r.
Qed.

(** A refused response gives its request up, when there is one. *)
Lemma step_reject w p d id es : tracks w p → Forall quiet es →
  step_ok dry_run
    (match answered w d id with Some _ => wire_take w (opposite d) id | None => (w, None) end).1 p
    (closing w (opposite d, id) ++ es).
Proof.
  intros Ht Hes. eapply step_app; [|by intros; apply step_silent].
  destruct (answered w d id) as [a|] eqn:Ha.
  - apply step_closing; [done|apply wire_take_ok, Ht|apply core_remove].
  - unfold closing. replace (awaits w (opposite d, id)) with false; [by apply step_silent; [|constructor]|].
    unfold answered, awaits in *. destruct (w_requests w !! (opposite d, id)) as [e|]; simpl in *; [|done].
    by destruct (tr_responded e).
Qed.

Lemma carries_result_eq frame :
  xp_has_result (extract_response frame) && negb (xp_is_error (extract_response frame)) = carries_result frame.
Proof. done. Qed.

Lemma c2s_response_ok s p frame id raw : follows dry_run s p → classify_frame frame = WResponse id raw →
  relay_ok p (c2s_response mcp_rules s frame id raw).
Proof.
  intros Hs Hcl. pose proof Hs as [Ht _]. pose proof (tk_wire _ _ Ht) as Hok. unfold c2s_response.
  destruct (verdict_allows _) eqn:Ha.
  - destruct (judged_answers _ _ _ _ _ eq_refl (or_introl Ha)) as (e & He & Hr & _).
    pose proof (take_consumed (r_wire s) S2C id e Hok He) as Hcons.
    pose proof (step_consumed (r_wire s) p C2S id raw frame false e _ Ht Hcl He Hr Hcons) as Hst.
    destruct (wire_take (r_wire s) S2C id) as [w1 entry]. simpl in Hst. rewrite carries_result_eq.
    apply (relay_ok_step s); [done| |by left]. by apply Hst.
  - pose proof (step_reject (r_wire s) p C2S id) as Hrej. simpl in Hrej.
    destruct (match answered _ _ _ with Some _ => _ | None => _ end) as [w1 entry].
    apply (relay_ok_step s); [done| |by left]. apply Hrej; [done|]. destruct (_ && _); by repeat constructor.
Qed.

Lemma s2c_accepted w frame id : s2c_deny_reason mcp_rules w frame id (extract_response frame) = None →
  ∃ e, w_requests w !! (C2S, id) = Some e ∧ tr_responded e = false ∧
       answered w S2C id = Some (mkAnsReq C2S (tr_method e) (tr_allowed e || tr_dry_run e) (tr_internal e)).
Proof.
  intros Hd. apply (judged_answers w S2C id (extract_response frame) _ eq_refl).
  unfold s2c_deny_reason, s2c_verdict in Hd.
  destruct (judge_response mcp_rules w S2C id (extract_response frame)) as [| | |r]; try done; [by left|].
  right. by exists r.
Qed.

Lemma s2c_response_ok s p l frame id raw : follows dry_run s p → classify_frame frame = WResponse id raw →
  relay_ok p (s2c_response mcp_rules s l frame id raw).
Proof.
  intros Hs Hcl. pose proof Hs as [Ht _]. pose proof (tk_wire _ _ Ht) as Hok. unfold s2c_response.
  destruct (_ && _ && _) eqn:Hdead.
  { apply (relay_ok_step s); [done| |by left].
    apply step_closing; [done|apply wire_take_ok, Ht|apply core_remove]. }
  destruct (s2c_deny_reason _ _ _ _ _) as [reason|] eqn:Hd.
  - pose proof (step_reject (r_wire s) p S2C id) as Hrej. simpl in Hrej.
    destruct (match answered _ _ _ with Some _ => _ | None => _ end) as [w1 entry].
    apply (relay_ok_step s); [done| |by left]. apply Hrej; [done|].
    repeat match goal with |- Forall _ (if ?b then _ else _) => destruct b end; by repeat constructor.
  - destruct (s2c_accepted _ _ _ Hd) as (e & He & Hr & Ha). rewrite Ha, carries_result_eq.
    cbn [is_some_and aq_method aq_internal].
    set (listing := (_ || _ : bool)).
    set (r := if (_ && _) then mark_responded _ _ _ else _).
    assert (consumed (r_wire s) (C2S, id) e r) as Hcons.
    { subst r. destruct (String.eqb_spec (tr_method e) "subscriptions/listen") as [Hm|]; simpl.
      - destruct (carries_result frame); [apply mark_consumed|apply take_consumed]; [done..| |done|done].
        by rewrite Hm.
      - by apply take_consumed. }
    assert (if listing then S2C = S2C else S2C = S2C → tr_internal e = false) as Hl.
    { subst listing. destruct (tr_internal e); [by rewrite orb_true_r|].
      by destruct (String.eqb (tr_method e) _ || _ || _ || _). }
    pose proof (step_consumed (r_wire s) p S2C id raw frame listing e r Ht Hcl He Hr Hcons Hl) as Hst.
    destruct r as [w1 entry]. by apply (relay_ok_step s); [| |left].
Qed.

Lemma s2c_malformed_ok s p l frame reason raw : follows dry_run s p →
  classify_frame frame = WMalformed reason raw → relay_ok p (s2c_malformed s l frame raw).
Proof.
  intros Hs Hcl. pose proof Hs as [Ht Hph]. unfold s2c_malformed.
  destruct (has_response_members frame); [|apply relay_ok_stay; [done|constructor]].
  destruct (_ || _).
  { exists p. simpl. rewrite Hcl. split_and!; [done|done|apply gains_refl]. }
  destruct (member frame "id" ≫= parse_from_json) as [id|]; simpl.
  - pose proof (step_reject (r_wire s) p S2C id [AnswerError S2C (default "null" raw)] Ht) as Hrej.
    unfold answered in *. change (opposite S2C) with C2S in *.
    destruct (w_requests (r_wire s) !! (C2S, id)) as [e|] eqn:He; simpl in *;
      [|rewrite with_wire_same; apply relay_ok_stay; [done|constructor]].
    destruct (tr_responded e); simpl in *; [rewrite with_wire_same; apply relay_ok_stay; [done|constructor]|].
    unfold wire_take, remove_request in *. rewrite He in *. simpl in *.
    apply (relay_ok_step s); [done| |by left]. apply Hrej. by repeat constructor.
  - rewrite with_wire_same. apply relay_ok_stay; [done|constructor].
Qed.

(** ** Runs *)

Lemma internal_in_namespace n : is_internal_namespace (internal n) = true.
Proof.
  unfold is_internal_namespace, internal, internal_id_str. apply starts_with_iff. by exists (pretty n).
Qed.

Lemma internal_request_ok s p n : follows dry_run s p → relay_ok p (internal_request iter s n).
Proof.
  intros Hs. pose proof Hs as [Ht _]. unfold internal_request.
  destruct (register _ _ _ _ _) as [w1|] eqn:Hreg; [|apply relay_ok_stay; [done|by repeat constructor]].
  apply (relay_ok_step s); [done| |by left].
  destruct (open_simulated (r_wire s) w1 w1 p C2S (internal n) (internal_list (passive_version (r_wire s))))
    as (p' & Ho & Ht' & Hg); [done|exact Hreg|done| |done|by rewrite internal_in_namespace|].
  - eapply register_ok; [done| |exact Hreg]. apply Ht.
  - exists p'. simpl in *. by rewrite Ho.
Qed.

Lemma relay_step_ok s p ev : follows dry_run s p → relay_ok p (relay_step iter mcp_rules dry_run s ev).
Proof.
  intros Hs. destruct ev as [frame|l|o|frame l|ok|n]; simpl.
  - destruct (r_client s) eqn:Hc; try (apply relay_ok_stay; [done|constructor]). unfold c2s_frame.
    destruct (check_duplicate_keys_recursively frame); [|apply relay_ok_stay; [done|by repeat constructor]].
    destruct (classify_frame frame) eqn:Hcl; eauto using c2s_request_ok, c2s_notification_ok, c2s_response_ok.
    apply relay_ok_stay; [done|by repeat constructor].
  - by apply c2s_admit_ok.
  - by apply c2s_written_ok.
  - destruct (r_server s) eqn:Hc; [|apply relay_ok_stay; [done|constructor]]. unfold s2c_frame.
    destruct (check_duplicate_keys_recursively frame); [|apply relay_ok_stay; [done|by repeat constructor]].
    destruct (classify_frame frame) eqn:Hcl;
      eauto using s2c_request_ok, s2c_notification_ok, s2c_response_ok, s2c_malformed_ok.
  - by apply s2c_written_ok.
  - by apply internal_request_ok.
Qed.

Lemma relay_run_ok evs : ∀ s p, follows dry_run s p → relay_ok p (relay_run iter mcp_rules dry_run s evs).
Proof.
  induction evs as [|ev evs IH]; intros s p Hs; simpl.
  { exists p. split_and!; [done|done|apply gains_refl]. }
  destruct (relay_step_ok s p ev Hs) as (p1 & H1 & Hs1 & Hg1).
  destruct (relay_step _ _ _ _ _) as [s1 out1]. simpl in *.
  destruct (IH s1 p1 Hs1) as (p2 & H2 & Hs2 & Hg2). destruct (relay_run _ _ _ _ _) as [s2 out2]. simpl in *.
  exists p2. cbn [fst snd]. rewrite protocol_run_app, H1. simpl. eauto using gains_trans.
Qed.

Lemma new_follows : follows dry_run relay_new protocol_new.
Proof.
  split; [|done]. constructor; try done. apply wire_new_ok.
Qed.

(** [C22] The ledger of the request table is exact on every run: whatever frames
    client and server send, in whatever interleaving with decisions, failed
    writes and internal listings, the byte count the relay keeps is the number
    of bytes its state retains, at most 4 MiB; at most 128 requests are in
    flight and 128 ids retired, no id is both, and none is null. *)
Theorem relay_ledger_exact evs : wire_ok (r_wire (relay_run iter mcp_rules dry_run relay_new evs).1).
Proof.
  destruct (relay_run_ok evs relay_new protocol_new new_follows) as (p & _ & [Ht _] & _). apply Ht.
Qed.

End relay.

(** ** A session *)

Definition j_str (s : string) : Json := JString s s.
Definition j_obj (ms : list (string * Json)) : Json := JObject "{}" ms.

Definition demo_initialize : Json := j_obj
  [("jsonrpc", j_str "2.0"); ("id", JInteger "1"); ("method", j_str "initialize");
   ("params", j_obj [("protocolVersion", j_str "2025-11-25"); ("capabilities", j_obj []);
                     ("clientInfo", j_obj [("name", j_str "c"); ("version", j_str "1")])])].
Definition demo_initialized : Json := j_obj
  [("jsonrpc", j_str "2.0"); ("method", j_str "notifications/initialized")].
Definition demo_result : Json := j_obj
  [("jsonrpc", j_str "2.0"); ("id", JInteger "1");
   ("result", j_obj [("protocolVersion", j_str "2025-11-25"); ("capabilities", j_obj [("tools", j_obj [])])])].
Definition demo_request (n : string) (method : string) : Json := j_obj
  [("jsonrpc", j_str "2.0"); ("id", JInteger n); ("method", j_str method); ("params", j_obj [("name", j_str "t")])].
Definition demo_answer (n : string) : Json := j_obj
  [("jsonrpc", j_str "2.0"); ("id", JInteger n); ("result", j_obj [])].

Definition demo_local : Local := mkLocal false true true true false false.
Definition client_sends (f : Json) : list RelayEvent := [ClientFrame f; ClientAdmit demo_local; ClientWritten Written].

(** A handshake, a call answered twice and a call reusing an id in flight. *)
Definition relay_demo : list RelayEvent :=
  client_sends (demo_request "9" "tools/call")
  ++ client_sends demo_initialize ++ [ServerFrame demo_result demo_local; ClientFrame demo_initialized]
  ++ client_sends (demo_request "2" "tools/call") ++ client_sends (demo_request "2.0" "tools/call")
  ++ [ServerFrame (demo_answer "2") demo_local; ServerFrame (demo_answer "2") demo_local].

Lemma relay_demo_out :
  (relay_run map_to_list [] false relay_new relay_demo).2
  = [AnswerError S2C "9"; Forward C2S demo_initialize; Forward S2C demo_result; Forward C2S demo_initialized;
     Forward C2S (demo_request "2" "tools/call"); AnswerError S2C "2.0"; Forward S2C (demo_answer "2")].
Proof. vm_compute. reflexivity. Qed.

Lemma relay_ledger_exact_witness :
  wire_ok (r_wire (relay_run map_to_list [] false relay_new relay_demo).1).
Proof. apply (relay_ledger_exact map_to_list). reflexivity. Defined.


(** ** Dry-run and the life cycle *)

Definition deny_calls : ServerMcpRules :=
  ServerMcpRules_new None [mkRule EDeny "tools/call" [] None [] []].

(** In dry-run a [tools/call] that comes before the handshake is refused when no
    rule denies it, as in enforce mode, but forwarded when a deny rule covers
    the method: the deny rule is judged before the life cycle, and dry-run
    observes it by forwarding. *)
Lemma dry_run_forwards_before_handshake :
  let call := demo_request "9" "tools/call" in
  (relay_run map_to_list [] true relay_new (client_sends call)).2 = [AnswerError S2C "9"] ∧
  (relay_run map_to_list [deny_calls] false relay_new (client_sends call)).2 = [AnswerError S2C "9"] ∧
  (relay_run map_to_list [deny_calls] true relay_new (client_sends call)).2 = [Forward C2S call].
Proof. vm_compute. split_and!; reflexivity. Qed.

(** A refused response never crosses, in any mode: at most an error does. *)
Lemma refused_response_never_crosses mcp_rules s l frame id raw reason :
  s2c_deny_reason mcp_rules (r_wire s) frame id (extract_response frame) = Some reason →
  ∀ e, e ∈ (s2c_response mcp_rules s l frame id raw).2 →
       match e with Forward _ _ | ToListing _ => False | _ => True end.
Proof.
  intros Hd e. unfold s2c_response. rewrite Hd.
  assert (∀ w key e', e' ∈ closing w key → match e' with Forward _ _ | ToListing _ => False | _ => True end)
    as Hcl by (intros w key e'; unfold closing; destruct (awaits w key); set_solver).
  destruct (_ && _ && _); [apply Hcl|].
  destruct (match answered _ _ _ with Some _ => _ | None => _ end) as [w1 entry]. simpl.
  intros [He|He]%elem_of_app; [by eapply Hcl|].
  destruct (is_some_and entry tr_internal); [set_solver|]. destruct (_ || lc_pending_list l || _); [set_solver|].
  destruct (bool_decide _); set_solver.
Qed.
