(* ===== verification/ToolsList.v ===== *)
(** * ToolsList: tools/list pages and the collection of one listing

    [src/src/tool_def.rs] and [src/src/protocol/tools_list.rs]: a tool
    definition, the reading of one response page, and the text a verified tool
    is rebuilt into.  [src/src/auditor/proxy_list_state.rs]: the state of the
    one collection the server side keeps, with all its operations.
    [src/src/auditor/proxy_wire.rs]: the choice of the id a client sees, and
    the result members that may be forwarded.

    A retained request line is its text and its parsed tree ([ListLine]); a
    raw id is kept with the id it parses to ([ClientId]), which
    [rpc_id_from_raw_id] recomputes.  Parse errors are [None]: their text never
    reaches a decision. *)

From S2P Require Import Prelude Text Json RpcId Session Protocol WireFrame.

Open Scope Z_scope.

Definition MAX_PAGES : Z := 50.
Definition MAX_TOTAL_TOOLS : Z := 1000.
Definition MAX_TOTAL_PAGE_BYTES : Z := 16 * 1024 * 1024.
Definition MAX_RESULT_EXTRAS : Z := 32.
Definition MAX_RESULT_EXTRA_BYTES : Z := 64 * 1024.
Definition MAX_LIST_PAGE_BYTES : Z := MAX_TOTAL_PAGE_BYTES.

(** ** Tool definitions and pages *)

Record ToolDefinition := mkTool {
  td_name : string;
  td_description : string;
  td_title : option string;
  td_input_schema : option string;
  td_output_schema : option string;
  td_annotations_raw : option string;
  td_icons_raw : option string;
  td_execution_raw : option string;
  td_meta_raw : option string;
  td_raw_json : option string;
}.

#[export] Instance ToolDefinition_eq_dec : EqDecision ToolDefinition.
Proof. solve_decision. Defined.

Record ToolsListPage := mkPage {
  pg_tools : list ToolDefinition;
  pg_next_cursor : option string;
  pg_result_extras : list (string * string);
}.

(** The outer [option] is the parse error. *)
Definition optional_member_string (item : Json) (key : string) : option (option string) :=
  match member item key with
  | None | Some JNull => Some None
  | Some (JString _ s) => Some (Some s)
  | Some _ => None
  end.

Definition optional_raw_member (item : Json) (key : string) : option string :=
  as_raw_str <$> member item key.

Definition extract_tool (item : Json) : option ToolDefinition :=
  name ← member item "name" ≫= to_unquoted_string_str;
  description ← optional_member_string item "description";
  title ← optional_member_string item "title";
  Some (mkTool name (default "" description) title
    (optional_raw_member item "inputSchema") (optional_raw_member item "outputSchema")
    (optional_raw_member item "annotations") (optional_raw_member item "icons")
    (optional_raw_member item "execution") (optional_raw_member item "_meta")
    (Some (as_raw_str item))).

Definition extract_tools (tools : Json) : option (list ToolDefinition) :=
  items ← to_array tools; mapM extract_tool items.

(** Listing-level members, the last of a repeated name winning its place. *)
Fixpoint collect_extras (members : list (string * Json)) (acc : list (string * string))
  : list (string * string) :=
  match members with
  | [] => acc
  | (name, value) :: members' =>
      if String.eqb name "tools" || String.eqb name "nextCursor" then collect_extras members' acc
      else collect_extras members'
             (filter (λ e, e.1 ≠ name) acc ++ [(name, as_raw_str value)])
  end.

Definition parse_next_cursor (res : Json) : option (option string) :=
  match member res "nextCursor" with
  | None => Some None
  | Some v => Some <$> to_unquoted_string_str v
  end.

Definition parse_tools_list_response_page (frame : Json) : option ToolsListPage :=
  match member frame "error" with
  | Some _ => None
  | None =>
      res ← member frame "result";
      next_cursor ← parse_next_cursor res;
      tools ← member res "tools" ≫= extract_tools;
      members ← to_object res;
      Some (mkPage tools next_cursor (collect_extras members []))
  end.

(** ** The rebuilt tool *)

Definition BACKSLASH : string := String (ascii_of_nat 92) EmptyString.

Definition hex_digit (n : Z) : string :=
  String (ascii_of_nat (Z.to_nat (if n <? 10 then 48 + n else 87 + n))) EmptyString.

(** Escapes are all on ASCII characters, so the bytes of others pass. *)
Definition json_escape_char (c : ascii) : string :=
  let n := code c in
  if n =? 34 then BACKSLASH +:+ dquote
  else if n =? 92 then BACKSLASH +:+ BACKSLASH
  else if n =? 10 then BACKSLASH +:+ "n"
  else if n =? 13 then BACKSLASH +:+ "r"
  else if n =? 9 then BACKSLASH +:+ "t"
  else if n <? 32 then BACKSLASH +:+ "u00" +:+ hex_digit (n / 16) +:+ hex_digit (n mod 16)
  else String c EmptyString.

Fixpoint json_escape_into (s : string) : string :=
  match s with
  | EmptyString => EmptyString
  | String c s' => json_escape_char c +:+ json_escape_into s'
  end.

Definition quoted (s : string) : string := dquote +:+ s +:+ dquote.

Definition raw_field (key : string) (value : option string) : string :=
  from_option (λ v, "," +:+ quoted key +:+ ":" +:+ v) "" value.

Definition verified_tool_json (tool : ToolDefinition) : string :=
  "{" +:+ quoted "name" +:+ ":" +:+ quoted (json_escape_into (td_name tool))
  +:+ "," +:+ quoted "description" +:+ ":" +:+ quoted (json_escape_into (td_description tool))
  +:+ from_option (λ t, "," +:+ quoted "title" +:+ ":" +:+ quoted (json_escape_into t)) "" (td_title tool)
  +:+ raw_field "inputSchema" (td_input_schema tool)
  +:+ raw_field "outputSchema" (td_output_schema tool)
  +:+ raw_field "annotations" (td_annotations_raw tool)
  +:+ raw_field "icons" (td_icons_raw tool)
  +:+ raw_field "execution" (td_execution_raw tool)
  +:+ raw_field "_meta" (td_meta_raw tool) +:+ "}".

(** ** Frames on the way to the client *)

Record ClientId := mkClientId { ci_raw : string; ci_rpc : option RpcId }.

Definition client_facing_id (collecting_client_id raw_id : option ClientId)
    (answered_internal : bool) : option ClientId :=
  if answered_internal then collecting_client_id
  else match collecting_client_id with Some i => Some i | None => raw_id end.

Definition response_result_has_tools_field (frame : Json) : bool :=
  is_some_and (member frame "result") (λ r, bool_decide (is_Some (member r "tools"))).

Definition value_is_response (frame : Json) : bool :=
  if has_member frame "method" then false
  else has_member frame "result" || has_member frame "error".

Definition extract_tool_name (frame : Json) : option string :=
  member frame "params" ≫= λ p, member p "name" ≫= to_unquoted_string_str.

Definition FORWARDED_RESULT_MEMBERS : list string := ["resultType"; "ttlMs"; "cacheScope"].

Definition is_alnum (c : ascii) : bool :=
  is_ascii_digit c || is_ascii_upper c || in_range 97 122 c.

Definition identifier_char (c : ascii) : bool :=
  is_alnum c || Ascii.eqb c "." || Ascii.eqb c "-" || Ascii.eqb c "_".

Definition forwarded_result_value_valid (name raw : string) : bool :=
  if String.eqb name "resultType" || String.eqb name "cacheScope" then
    is_some_and (strip_prefix dquote raw ≫= strip_suffix dquote)
      (λ inner, negb (is_empty inner) && (len inner <=? 64) && str_all identifier_char inner)
  else if String.eqb name "ttlMs" then bool_decide (is_Some (parse_u64 raw))
  else false.

Definition forwarded_extras (extras : list (string * string)) : list (string * string) :=
  filter (λ e, bool_decide (e.1 ∈ FORWARDED_RESULT_MEMBERS)
               && forwarded_result_value_valid e.1 e.2 = true) extras.

(** [build_verified_tools_list_response]: what the client receives. *)
Record VerifiedListing := mkListing {
  vl_id : string;
  vl_tools : list string;
  vl_extras : list (string * string);
}.

Definition build_verified_tools_list_response (id_raw : string) (tools : list ToolDefinition)
    (result_extras : list (string * string)) : VerifiedListing :=
  mkListing id_raw (verified_tool_json <$> tools) (forwarded_extras result_extras).

(** ** The collection of one listing *)

Record ListLine := mkLine { ll_text : string; ll_json : Json }.

Record S2cListState := mkList {
  accumulated_tools : list ToolDefinition;
  result_extras : list (string * string);
  collecting_client_id : option ClientId;
  collecting_original : option ListLine;
  waiting_internal_id : option RpcId;
  seen_cursors : gset string;
  page_count : Z;
  extras_bytes : Z;
  page_bytes : Z;
  held_list_changed : option string;
  pending_revalidate : bool;
  internal_revalidation : bool;
  last_verified : option string;
}.

Definition list_new : S2cListState :=
  mkList [] [] None None None ∅ 0 0 0 None false false None.

(** The page buffer, and the part of the state that outlives it. *)
Definition set_pages (st : S2cListState) (tools : list ToolDefinition)
    (extras : list (string * string)) (waiting : option RpcId) (cursors : gset string)
    (pages ebytes pbytes : Z) : S2cListState :=
  mkList tools extras (collecting_client_id st) (collecting_original st) waiting cursors pages
    ebytes pbytes (held_list_changed st) (pending_revalidate st) (internal_revalidation st)
    (last_verified st).

Definition set_client (st : S2cListState) (id : option ClientId) (original : option ListLine)
  : S2cListState :=
  mkList (accumulated_tools st) (result_extras st) id original (waiting_internal_id st)
    (seen_cursors st) (page_count st) (extras_bytes st) (page_bytes st) (held_list_changed st)
    (pending_revalidate st) (internal_revalidation st) (last_verified st).

Definition set_context (st : S2cListState) (held : option string) (queued revalidating : bool)
    (digest : option string) : S2cListState :=
  mkList (accumulated_tools st) (result_extras st) (collecting_client_id st)
    (collecting_original st) (waiting_internal_id st) (seen_cursors st) (page_count st)
    (extras_bytes st) (page_bytes st) held queued revalidating digest.

Definition discard_pages (st : S2cListState) : S2cListState := set_pages st [] [] None ∅ 0 0 0.

Definition hold_list_changed (st : S2cListState) (line : string) (already_busy : bool)
  : S2cListState * bool :=
  let in_flight := already_busy || bool_decide (is_Some (collecting_client_id st))
                   || bool_decide (is_Some (waiting_internal_id st))
                   || negb (bool_decide (accumulated_tools st = [])) in
  (set_context st (Some line) (in_flight || pending_revalidate st) (internal_revalidation st)
     (last_verified st), in_flight).

Definition expect_internal_response (st : S2cListState) (internal_id : Z) : S2cListState :=
  set_pages st (accumulated_tools st) (result_extras st) (Some (internal internal_id))
    (seen_cursors st) (page_count st) (extras_bytes st) (page_bytes st).

Definition begin_revalidation_state (st : S2cListState) (template : option ListLine)
    (internal_id : Z) : S2cListState :=
  let st1 := set_context st (held_list_changed st) (pending_revalidate st) true (last_verified st) in
  let st2 := discard_pages st1 in
  expect_internal_response (set_client st2 (collecting_client_id st2) template) internal_id.

Definition needs_client_binding (st : S2cListState) : bool :=
  bool_decide (collecting_client_id st = None) && negb (internal_revalidation st).

Definition bind_client (st : S2cListState) (id : ClientId) (original : option ListLine)
  : S2cListState := set_client st (Some id) original.

Definition take_client_id (st : S2cListState) : S2cListState * option ClientId :=
  (set_client st None (collecting_original st), collecting_client_id st).

Definition is_internal_response (st : S2cListState) (id : option RpcId) : bool :=
  bool_decide (is_Some (waiting_internal_id st)) && bool_decide (waiting_internal_id st = id).

Definition append_page (st : S2cListState) (tools : list ToolDefinition)
  : S2cListState * result unit string :=
  let acc := accumulated_tools st ++ tools in
  let pages := page_count st + 1 in
  (set_pages st acc (result_extras st) (waiting_internal_id st) (seen_cursors st) pages
     (extras_bytes st) (page_bytes st),
   if MAX_PAGES <? pages then Err "tools/list exceeded max page limit"
   else if MAX_TOTAL_TOOLS <? Z.of_nat (length acc) then Err "tools/list exceeded max tool count (1000)"
   else Ok ()).

Definition record_cursor (st : S2cListState) (cursor : string) : S2cListState * result unit string :=
  if bool_decide (cursor ∈ seen_cursors st) then (st, Err "repeated tools/list cursor")
  else (set_pages st (accumulated_tools st) (result_extras st) (waiting_internal_id st)
          ({[cursor]} ∪ seen_cursors st) (page_count st) (extras_bytes st) (page_bytes st), Ok ()).

Definition extra_bytes (e : string * string) : Z := len e.1 + len e.2.
Definition extras_sum (es : list (string * string)) : Z := foldr (λ e n, extra_bytes e + n) 0 es.

Definition set_extras (st : S2cListState) (es : list (string * string)) (n : Z) : S2cListState :=
  set_pages st (accumulated_tools st) es (waiting_internal_id st) (seen_cursors st) (page_count st)
    n (page_bytes st).

Fixpoint record_result_extras (st : S2cListState) (extras : list (string * string))
  : S2cListState * result unit string :=
  match extras with
  | [] => (st, Ok ())
  | (name, raw) :: extras' =>
      let replaced := extras_sum (filter (λ e, e.1 = name) (result_extras st)) in
      let kept := filter (λ e, e.1 ≠ name) (result_extras st) in
      let held := saturating_sub (extras_bytes st) replaced in
      let charge := len name + len raw in
      if (MAX_RESULT_EXTRA_BYTES <? saturating_add held charge)
         || (MAX_RESULT_EXTRAS <=? Z.of_nat (length kept))
      then (set_extras st kept held, Err "tools/list result metadata limit exceeded")
      else record_result_extras (set_extras st (kept ++ [(name, raw)]) (held + charge)) extras'
  end.

Definition note_page_bytes (st : S2cListState) (n : Z) : S2cListState * result unit string :=
  let bytes := saturating_add (page_bytes st) n in
  (set_pages st (accumulated_tools st) (result_extras st) (waiting_internal_id st) (seen_cursors st)
     (page_count st) (extras_bytes st) bytes,
   if MAX_LIST_PAGE_BYTES <? bytes then Err "tools/list exceeded max accumulated bytes" else Ok ()).

Definition take_completed_pages (st : S2cListState)
  : S2cListState * (list ToolDefinition * option ClientId * list (string * string)) :=
  let '(st1, client_id) := take_client_id st in
  (discard_pages st1, (accumulated_tools st, client_id, result_extras st)).

Definition idle (st : S2cListState) : bool :=
  bool_decide (collecting_client_id st = None) && bool_decide (waiting_internal_id st = None)
  && bool_decide (accumulated_tools st = []) && negb (internal_revalidation st).

Definition release_collection_for (st : S2cListState) (id : RpcId) : S2cListState * option RpcId :=
  if bool_decide (collecting_client_id st ≫= ci_rpc = Some id)
  then (discard_pages (set_client st None (collecting_original st)), waiting_internal_id st)
  else (st, None).

Definition requires_abort_on_error (st : S2cListState) : bool :=
  internal_revalidation st || bool_decide (is_Some (held_list_changed st)).

Definition has_incomplete_listing (st : S2cListState) : bool :=
  bool_decide (is_Some (collecting_client_id st)) || requires_abort_on_error st.

Definition record_verified_digest (st : S2cListState) (digest : string) : S2cListState * bool :=
  let changed := negb (bool_decide (last_verified st = Some digest)) in
  (set_context st (held_list_changed st) (pending_revalidate st) (internal_revalidation st)
     (Some digest), changed).

Definition take_queued_revalidation (st : S2cListState) : S2cListState * bool :=
  (set_context st (held_list_changed st) false (internal_revalidation st) (last_verified st),
   pending_revalidate st).

Definition take_verified_notification (st : S2cListState) : S2cListState * option string :=
  (set_context st None (pending_revalidate st) (internal_revalidation st) (last_verified st),
   held_list_changed st).

Definition finish_verification (st : S2cListState) : S2cListState :=
  set_context st (held_list_changed st) (pending_revalidate st) false (last_verified st).
