(* ===== verification/Interleave.v ===== *)
(** * Interleave: tasks that share a state

    The two relay loops are tasks over one shared state.  A task is a program
    whose nodes are the accesses to that state: each [Atom] is one access (an
    atomic variable, or a critical section that holds no other access), each
    [Ask] an outcome the environment decides (a write that may fail, a record
    that may be refused).  Between two nodes any number of accesses of the
    other task may fall.  An [Atom] runs only when it is enabled, which is how
    a task waits for a mutex.

    [safe Rely Guar Post p s]: from [s], under interference that stays within
    [Rely], every access of [p] stays within [Guar] and a result satisfies
    [Post].  The rules below are the usual ones: weakening, sequence,
    stability, and one step of execution. *)

From S2P Require Import Prelude.

Section programs.
Context {S : Type}.

Inductive Prog (A : Type) : Type :=
  | Ret (a : A)
  | Atom (R : Type) (enabled : S → bool) (op : S → S * R) (k : R → Prog A)
  | Ask (k : bool → Prog A).
Arguments Ret {A} a.
Arguments Atom {A R} enabled op k.
Arguments Ask {A} k.

Fixpoint prog_bind {A B} (p : Prog A) (f : A → Prog B) : Prog B :=
  match p with
  | Ret a => f a
  | Atom en op k => Atom en op (λ r, prog_bind (k r) f)
  | Ask k => Ask (λ b, prog_bind (k b) f)
  end.

(** One access that is always possible. *)
Definition atom {R} (op : S → S * R) : Prog R := Atom (λ _, true) op Ret.
Definition read {R} (f : S → R) : Prog R := atom (λ s, (s, f s)).
Definition write (f : S → S) : Prog unit := atom (λ s, (f s, ())).
Definition ask : Prog bool := Ask Ret.

(** One step of a task; [choice] is the environment's answer. *)
Definition prog_step {A} (p : Prog A) (choice : bool) (s : S) : option (S * Prog A) :=
  match p with
  | Ret _ => None
  | Atom en op k => if en s then Some ((op s).1, k (op s).2) else None
  | Ask k => Some (s, k choice)
  end.

Section logic.
Context (Rely Guar : relation S) `{!PreOrder Rely}.

Fixpoint safe {A} (Post : A → S → Prop) (p : Prog A) (s : S) : Prop :=
  match p with
  | Ret a => Post a s
  | Atom en op k => ∀ s', Rely s s' → en s' = true →
      Guar s' (op s').1 ∧ safe Post (k (op s').2) (op s').1
  | Ask k => ∀ b, safe Post (k b) s
  end.

Definition stable (P : S → Prop) : Prop := ∀ s s', Rely s s' → P s → P s'.

Lemma safe_stable {A} (Post : A → S → Prop) p s s' :
  (∀ a, stable (Post a)) → Rely s s' → safe Post p s → safe Post p s'.
Proof.
  intros Hst Hr. induction p as [a|R en op k IH|k IH]; simpl.
  - by apply Hst.
  - intros H s2 Hr2 Hen. apply H; [|done]. by transitivity s'.
  - intros H b. by apply IH.
Qed.

Lemma safe_bind {A B} (Q : A → S → Prop) (Post : B → S → Prop) p f s :
  safe Q p s → (∀ a s, Q a s → safe Post (f a) s) → safe Post (prog_bind p f) s.
Proof.
  intros Hp Hf. revert s Hp. induction p as [a|R en op k IH|k IH]; simpl; intros s Hp.
  - by apply Hf.
  - intros s' Hr Hen. destruct (Hp s' Hr Hen) as [HG Hk]. split; [done|]. by apply IH.
  - intros b. apply IH, Hp.
Qed.

Lemma safe_mono {A} (P Q : A → S → Prop) p s :
  safe P p s → (∀ a s, P a s → Q a s) → safe Q p s.
Proof.
  intros Hp HPQ. revert s Hp. induction p as [a|R en op k IH|k IH]; simpl; intros s Hp.
  - by apply HPQ.
  - intros s' Hr Hen. destruct (Hp s' Hr Hen) as [HG Hk]. split; [done|]. by apply IH.
  - intros b. apply IH, Hp.
Qed.

(** What a task owes at one access, when it is entered with a stable fact. *)
Lemma safe_atom {A R} (Post : A → S → Prop) (I : S → Prop) en (op : S → S * R) k s :
  stable I → I s →
  (∀ s', I s' → en s' = true → Guar s' (op s').1 ∧ safe Post (k (op s').2) (op s').1) →
  safe Post (Atom en op k) s.
Proof. intros Hst Hs H s' Hr Hen. apply H; [|done]. by eapply Hst. Qed.

Lemma safe_prog_step {A} (Post : A → S → Prop) p choice s s' p' :
  safe Post p s → Reflexive Guar → prog_step p choice s = Some (s', p') →
  Guar s s' ∧ safe Post p' s'.
Proof.
  intros Hp Hrefl. destruct p as [a|R en op k|k]; simpl; intros Hstep; [done| |].
  - destruct (en s) eqn:Hen; [|done]. simplify_eq. apply Hp; [reflexivity|done].
  - simplify_eq. split; [reflexivity|apply Hp].
Qed.
End logic.

(** ** Invariants of every access

    [keeps I Q p]: each access of [p] preserves [I], and a result satisfies
    [Q]; interference that preserves [I] is no concern. *)
Fixpoint keeps (I : S → Prop) {A} (Q : A → Prop) (p : Prog A) : Prop :=
  match p with
  | Ret a => Q a
  | Atom en op k => ∀ s, I s → I (op s).1 ∧ keeps I Q (k (op s).2)
  | Ask k => ∀ b, keeps I Q (k b)
  end.

Lemma keeps_bind I {A B} (P : A → Prop) (Q : B → Prop) p f :
  keeps I P p → (∀ a, P a → keeps I Q (f a)) → keeps I Q (prog_bind p f).
Proof.
  intros Hp Hf. induction p as [a|R en op k IH|k IH]; simpl in *.
  - by apply Hf.
  - intros s Hs. destruct (Hp s Hs) as [HI Hk]. split; [done|]. by apply IH.
  - intros b. by apply IH.
Qed.

Lemma keeps_atom I {A R} (Q : A → Prop) (op : S → S * R) f :
  (∀ s, I s → I (op s).1) → (∀ r, keeps I Q (f r)) → keeps I Q (prog_bind (atom op) f).
Proof. intros Hop Hf s Hs. split; [by apply Hop|apply Hf]. Qed.

Lemma keeps_prog_step I {A} (Q : A → Prop) (p : Prog A) choice s s' p' :
  keeps I Q p → I s → prog_step p choice s = Some (s', p') → I s' ∧ keeps I Q p'.
Proof.
  intros Hp Hs. destruct p as [a|R en op k|k]; simpl; intros Hstep; [done| |].
  - destruct (en s) eqn:Hen; [|done]. simplify_eq. by apply Hp.
  - simplify_eq. split; [done|apply Hp].
Qed.
End programs.

Arguments Prog S A : clear implicits.
Arguments Ret {S A} a.
Arguments Atom {S A R} enabled op k.
Arguments Ask {S A} k.

Declare Scope prog_scope.
Delimit Scope prog_scope with prog.
Notation "x ⇐ p ; k" := (prog_bind p (λ x, k))
  (at level 20, p at level 100, k at level 200, right associativity) : prog_scope.
Notation "p ;; k" := (prog_bind p (λ _, k))
  (at level 100, k at level 200, right associativity) : prog_scope.
