(* ===== verification/ProxyState.v ===== *)
(** * ProxyState: what the two relay loops share about tools/list

    [src/src/auditor/proxy_state.rs]: the busy gate, the dispatch epoch, the
    verified tool set with its generation, the bounded set of client listings
    in flight, their retained requests, the held listing, the cancelled id and
    the recorded failure; beside them the wire state.  The session's tally of
    calls is here too.  What a loop does to the outside is appended to
    [sh_trace], in the order it happens. *)

From S2P Require Import Prelude Text Json RpcId Session Protocol WireFrame Wire ToolsList Interleave.

Open Scope Z_scope.

Definition MAX_PENDING_TOOLS_LIST : nat := 128.
Definition MAX_ORIGINAL_TOOLS_LIST_BYTES : Z := 8 * 1024 * 1024.
Definition MAX_TALLY_TOOLS : nat := 256.
Definition MAX_TALLY_DENIALS : nat := 256.
Definition MAX_TALLY_TOOL_BYTES : Z := 64 * 1024.
Definition MAX_TALLY_DENIAL_BYTES : Z := 512 * 1024.

(** ** The policy facts of the pipeline, and the verifier it asks *)

Record ListPolicy := mkListPolicy {
  tools_list_hashes : list string;   (** the servers with a pinned hash *)
  policy_tools : list (string * bool);    (** tool entries: name, allowed *)
  fail_on_none : bool;
  policy_dry_run : bool;
}.

Definition list_verification_required (p : ListPolicy) : bool :=
  negb (bool_decide (tools_list_hashes p = [])) || negb (fail_on_none p).

Definition tool_is_allowed (p : ListPolicy) (name : string) : bool :=
  existsb (λ t, String.eqb t.1 name && t.2) (policy_tools p).

(** What the pipeline asks of [src/src/verifier/]: the manifest scan at the
    session's threshold, the comparison with the pin or baseline of a server
    ([None] is the unpinned default), and the digest of a listing. *)
Class Verifier := {
  scan_blocks : list ToolDefinition → bool;
  diff_blocks : option string → list ToolDefinition → bool;
  hash_tools_list : list ToolDefinition → option string;
}.

(** ** The tally of calls *)

Record CallTally := mkTally {
  called_tools : gset string;
  denied : gset (string * string);
  called_tools_truncated : bool;
  denied_truncated : bool;
}.

Definition tally_bytes (names : gset string) : Z := foldr (λ n b, len n + b) 0 (elements names).
Definition denial_bytes (pairs : gset (string * string)) : Z :=
  foldr (λ e b, len e.1 + len e.2 + b) 0 (elements pairs).

Definition record_call (t : CallTally) (tool : string) : CallTally :=
  if bool_decide (tool ∈ called_tools t) then t
  else if (MAX_TALLY_TOOLS <=? size (called_tools t))%nat
          || (MAX_TALLY_TOOL_BYTES <? tally_bytes (called_tools t) + len tool)
  then mkTally (called_tools t) (denied t) true (denied_truncated t)
  else mkTally ({[tool]} ∪ called_tools t) (denied t) (called_tools_truncated t) (denied_truncated t).

Definition record_denial (t : CallTally) (tool reason : string) : CallTally :=
  if bool_decide ((tool, reason) ∈ denied t) then t
  else if (MAX_TALLY_DENIALS <=? size (denied t))%nat
          || (MAX_TALLY_DENIAL_BYTES <? denial_bytes (denied t) + len tool + len reason)
  then mkTally (called_tools t) (denied t) (called_tools_truncated t) true
  else mkTally (called_tools t) ({[(tool, reason)]} ∪ denied t) (called_tools_truncated t)
         (denied_truncated t).

(** ** The bounded set of listings in flight *)

Definition try_insert (ids : list RpcId) (id : RpcId) : list RpcId * bool :=
  if bool_decide (id = RNull) then (ids, false)
  else if bool_decide (id ∈ ids) then (ids, false)
  else if (MAX_PENDING_TOOLS_LIST <=? length ids)%nat then (ids, false)
  else (ids ++ [id], true).

Fixpoint remove_first (ids : list RpcId) (id : RpcId) : list RpcId :=
  match ids with
  | [] => []
  | x :: ids' => if decide (x = id) then ids' else x :: remove_first ids' id
  end.

Definition remove_pending (ids : list RpcId) (id : RpcId) : list RpcId * bool :=
  (remove_first ids id, bool_decide (id ∈ ids)).

(** ** Observable events *)

(** An internal tools/list request: its sequence number, cursor, and the
    revision it re-declares. *)
Record ListRequest := mkListRequest {
  lr_id : Z;
  lr_cursor : option string;
  lr_version : option string;
}.

Inductive ListEvent :=
  | ListChanged                     (** a change notification has raised the gate *)
  | GateClosed
  | GateOpened
  | Revalidate (r : ListRequest)
  | NextPage (r : ListRequest)
  | Recorded (blocked : bool)       (** the verification record is durable *)
  | Published (tools : list ToolDefinition)
  | Listed (l : VerifiedListing)
  | ListError (raw_id : string)
  | Refused (raw_id : string)
  | ErrorRelayed (line : string)
  | Notified (line : string)
  | ListForwarded (id : RpcId)
  | Dispatched (expected : option Z) (tool : option string) (allowed : bool)
  | Aborted.

(** Why a listing cannot be verified. *)
Inductive BlockReason :=
  | BatchFrame | Envelope (reason : string) | InvalidJson | DuplicateKeys (reason : string)
  | ErrorAnswer | MalformedPage | Budget (reason : string) | Register (reason : string)
  | ScanBlocked | DiffBlocked | HashFailed | Rejected (reason : string).

#[export] Instance BlockReason_eq_dec : EqDecision BlockReason.
Proof. solve_decision. Defined.

(** ** The shared state *)

Record VerifiedToolSet := mkVerified { vt_generation : Z; vt_names : list string }.

Record Shared := mkShared {
  sh_busy : bool;
  sh_epoch : bool;
  sh_verified : VerifiedToolSet;
  sh_generation : Z;
  sh_pending : list RpcId;
  sh_originals : gmap RpcId ListLine;
  sh_cancelled : option RpcId;
  sh_held : option (RpcId * string);
  sh_failure : option (BlockReason * bool);
  sh_template : option ListLine;
  sh_next_internal : Z;
  sh_abort : bool;
  sh_wire : WireState;
  sh_trace : list ListEvent;
}.

Definition shared_new : Shared :=
  mkShared false false (mkVerified 0 []) 0 [] ∅ None None None None 910001 false wire_new [].

Definition log (s : Shared) (ev : ListEvent) : Shared :=
  mkShared (sh_busy s) (sh_epoch s) (sh_verified s) (sh_generation s) (sh_pending s) (sh_originals s)
    (sh_cancelled s) (sh_held s) (sh_failure s) (sh_template s) (sh_next_internal s) (sh_abort s)
    (sh_wire s) (sh_trace s ++ [ev]).

(** A change of the gate is observable. *)
Definition set_busy (s : Shared) (b : bool) : Shared :=
  log (mkShared b (sh_epoch s) (sh_verified s) (sh_generation s) (sh_pending s) (sh_originals s)
         (sh_cancelled s) (sh_held s) (sh_failure s) (sh_template s) (sh_next_internal s) (sh_abort s)
         (sh_wire s) (sh_trace s))
    (if b then GateClosed else GateOpened).

Definition set_epoch (s : Shared) (b : bool) : Shared :=
  mkShared (sh_busy s) b (sh_verified s) (sh_generation s) (sh_pending s) (sh_originals s)
    (sh_cancelled s) (sh_held s) (sh_failure s) (sh_template s) (sh_next_internal s) (sh_abort s)
    (sh_wire s) (sh_trace s).

(** A publication is observable too. *)
Definition set_verified (s : Shared) (v : VerifiedToolSet) (tools : list ToolDefinition) : Shared :=
  log (mkShared (sh_busy s) (sh_epoch s) v (sh_generation s) (sh_pending s) (sh_originals s)
         (sh_cancelled s) (sh_held s) (sh_failure s) (sh_template s) (sh_next_internal s) (sh_abort s)
         (sh_wire s) (sh_trace s))
    (Published tools).

Definition set_generation (s : Shared) (n : Z) : Shared :=
  mkShared (sh_busy s) (sh_epoch s) (sh_verified s) n (sh_pending s) (sh_originals s)
    (sh_cancelled s) (sh_held s) (sh_failure s) (sh_template s) (sh_next_internal s) (sh_abort s)
    (sh_wire s) (sh_trace s).

(** The bookkeeping of client listings. *)
Definition set_book (s : Shared) (pending : list RpcId) (originals : gmap RpcId ListLine)
    (cancelled : option RpcId) (held : option (RpcId * string)) (template : option ListLine) : Shared :=
  mkShared (sh_busy s) (sh_epoch s) (sh_verified s) (sh_generation s) pending originals cancelled held
    (sh_failure s) template (sh_next_internal s) (sh_abort s) (sh_wire s) (sh_trace s).

Definition set_pending (s : Shared) (x : list RpcId) : Shared :=
  set_book s x (sh_originals s) (sh_cancelled s) (sh_held s) (sh_template s).
Definition set_originals (s : Shared) (x : gmap RpcId ListLine) : Shared :=
  set_book s (sh_pending s) x (sh_cancelled s) (sh_held s) (sh_template s).
Definition set_cancelled (s : Shared) (x : option RpcId) : Shared :=
  set_book s (sh_pending s) (sh_originals s) x (sh_held s) (sh_template s).
Definition set_held (s : Shared) (x : option (RpcId * string)) : Shared :=
  set_book s (sh_pending s) (sh_originals s) (sh_cancelled s) x (sh_template s).
Definition set_template (s : Shared) (x : option ListLine) : Shared :=
  set_book s (sh_pending s) (sh_originals s) (sh_cancelled s) (sh_held s) x.

(** The failure, the abort signal, the internal counter and the wire table. *)
Definition set_rest (s : Shared) (failure : option (BlockReason * bool)) (abort : bool) (next : Z)
    (w : WireState) : Shared :=
  mkShared (sh_busy s) (sh_epoch s) (sh_verified s) (sh_generation s) (sh_pending s) (sh_originals s)
    (sh_cancelled s) (sh_held s) failure (sh_template s) next abort w (sh_trace s).

Definition set_failure (s : Shared) (x : BlockReason) (replied : bool) : Shared :=
  set_rest s (Some (x, replied)) (sh_abort s) (sh_next_internal s) (sh_wire s).
Definition set_wire (s : Shared) (w : WireState) : Shared :=
  set_rest s (sh_failure s) (sh_abort s) (sh_next_internal s) w.
Definition set_next (s : Shared) (n : Z) : Shared :=
  set_rest s (sh_failure s) (sh_abort s) n (sh_wire s).
Definition send_abort (s : Shared) : Shared :=
  log (set_rest s (sh_failure s) true (sh_next_internal s) (sh_wire s)) Aborted.

(** ** Accesses both loops use *)

Definition emit (ev : ListEvent) : Prog Shared unit := write (λ s, log s ev).

(** A write that may fail. *)
Definition send (ev : ListEvent) : Prog Shared bool := (emit ev;; ask)%prog.

(** [raise_list_gate]: runs while nobody holds the epoch; the prior value. *)
Definition raise_list_gate : Prog Shared bool :=
  Atom (λ s, negb (sh_epoch s)) (λ s, (set_busy s true, sh_busy s)) Ret.

(** [compare_exchange(false, true)]. *)
Definition acquire_gate : Prog Shared bool :=
  atom (λ s, if sh_busy s then (s, false) else (set_busy s true, true)).

Definition take_held : Prog Shared (option (RpcId * string)) :=
  atom (λ s, (set_held s None, sh_held s)).

Definition remove_original (id : option RpcId) : Prog Shared (option ListLine) :=
  match id with
  | Some i => atom (λ s, (set_originals s (delete i (sh_originals s)), sh_originals s !! i))
  | None => Ret None
  end.
