(* ===== verification/ListPipeline.v ===== *)
(** * ListPipeline: the server side of tools/list

    [src/src/auditor/proxy_tools_list.rs], with the list handling of
    [src/src/auditor/proxy_s2c.rs]: collection over pages, verification of the
    whole listing, publication, revalidation after a change notification, and
    the ways a listing fails.  Each handler is a task over the shared state,
    with the collection state [S2cListState] of the loop passed through; its
    accesses interleave with those of the client side.

    The record of a verification, the filter record and the availability of the
    audit sink are environment answers, as are the outcomes of writes.  A
    handler that returns an error ends the loop ([Failed]). *)

From S2P Require Import Prelude Text Json RpcId Session Protocol WireFrame McpRules Wire Structure ToolsList Interleave ProxyState.

Open Scope Z_scope.

Inductive ListFlow :=
  | Handled (st : S2cListState)
  | ForwardRaw (st : S2cListState)
  | Failed.

(** ** Internal requests *)

Definition declared_meta_protocol_version (line : option ListLine) : option string :=
  l ← line;
  params ← member (ll_json l) "params";
  meta ← member params "_meta";
  member meta META_PROTOCOL_VERSION ≫= as_string_str.

Definition build_internal_tools_list_request (template : option ListLine) (id : Z) : ListRequest :=
  mkListRequest id None (declared_meta_protocol_version template).

Definition build_pagination_request (original : option ListLine) (id : Z) (cursor : string)
  : ListRequest :=
  mkListRequest id (Some cursor) (declared_meta_protocol_version original).

Section pipeline.
Context (iter : gmap WireKey TrackedRequest → list (WireKey * TrackedRequest)).
Context {V : Verifier} (pol : ListPolicy).

(** Continue when a write or a record succeeds. *)
Definition send_or_fail (ev : ListEvent) (k : Prog Shared ListFlow) : Prog Shared ListFlow :=
  (ok ⇐ send ev; if (ok : bool) then k else Ret Failed)%prog.

Definition require (k : Prog Shared ListFlow) : Prog Shared ListFlow :=
  (ok ⇐ ask; if (ok : bool) then k else Ret Failed)%prog.

(** [next_internal_id.fetch_add(1)]. *)
Definition fetch_internal_id : Prog Shared Z :=
  atom (λ s, (set_next s (sh_next_internal s + 1), sh_next_internal s)).

Definition register_internal (id : Z) : Prog Shared (option string) :=
  atom (λ s, match register iter (sh_wire s) C2S (internal id) (internal_list (passive_version (sh_wire s))) with
             | Ok w => (set_wire s w, None)
             | Err reason => (s, Some reason)
             end).

Definition abort_listing (reason : BlockReason) (replied : bool) : Prog Shared ListFlow :=
  (write (λ s, set_failure s reason replied);; write send_abort;; Ret Failed)%prog.

(** The tail both internal requests share: register, then write. *)
Definition send_internal (st : S2cListState) (id : Z) (ev : ListEvent) : Prog Shared ListFlow :=
  (refused ⇐ register_internal id;
   match refused with
   | Some reason => abort_listing (Register reason) false
   | None => send_or_fail ev (Ret (Handled st))
   end)%prog.

Definition begin_revalidation (st : S2cListState) : Prog Shared ListFlow :=
  (id ⇐ fetch_internal_id;
   template ⇐ read sh_template;
   let st1 := begin_revalidation_state st template id in
   send_internal st1 id (Revalidate (build_internal_tools_list_request template id)))%prog.

Definition handle_list_changed (st : S2cListState) (line : string) : Prog Shared ListFlow :=
  (was_busy ⇐ raise_list_gate;
   emit ListChanged;;
   let '(st1, in_flight) := hold_list_changed st line was_busy in
   if (in_flight : bool) then Ret (Handled st1) else begin_revalidation st1)%prog.

(** ** Failures *)

Definition answer_held_client_list_with_error (k : Prog Shared ListFlow) : Prog Shared ListFlow :=
  (held ⇐ take_held;
   match held with
   | Some (_, raw_id) => send_or_fail (ListError raw_id) k
   | None => k
   end)%prog.

Definition failure_emit_id (resolved : option ClientId) (reason : BlockReason)
  : Prog Shared (option string) :=
  (emit_id ⇐ match resolved with
             | Some c => Ret (Some (ci_raw c))
             | None => (held ⇐ take_held; Ret (snd <$> held))
             end;
   write (λ s, set_failure s reason (bool_decide (is_Some emit_id)));;
   Ret emit_id)%prog.

Definition fail_listing (client raw_id : option ClientId) (answered_internal : bool)
    (reason : BlockReason) : Prog Shared ListFlow :=
  (emit_id ⇐ failure_emit_id (client_facing_id client raw_id answered_internal) reason;
   match emit_id with
   | Some id => send_or_fail (ListError id) (write send_abort;; Ret Failed)
   | None => write send_abort;; Ret Failed
   end)%prog.

(** ** The queue after a cancelled listing *)

Definition release_cancelled (st : S2cListState) (cancelled : option RpcId)
  : Prog Shared S2cListState :=
  match cancelled with
  | None => Ret st
  | Some id =>
      let '(st1, waiting) := release_collection_for st id in
      match waiting with
      | Some i => (write (λ s, set_wire s (wire_take (sh_wire s) C2S i).1);; Ret st1)%prog
      | None => Ret st1
      end
  end.

Definition resume_queued_revalidation (st : S2cListState) : Prog Shared ListFlow :=
  (cancelled ⇐ atom (λ s, (set_cancelled s None, sh_cancelled s));
   st1 ⇐ release_cancelled st cancelled;
   if negb (idle st1) then Ret (Handled st1)
   else
     empty ⇐ read (λ s, bool_decide (sh_pending s = []));
     if negb empty then Ret (Handled st1)
     else
       let '(st2, queued) := take_queued_revalidation st1 in
       if (queued : bool) then begin_revalidation st2
       else
         write (λ s, set_busy s false);;
         answer_held_client_list_with_error (Ret (Handled st2)))%prog.

(** ** Verification of a complete listing *)

Definition listing_verdict (tools : list ToolDefinition) : option BlockReason :=
  let blocked :=
    if scan_blocks tools then Some ScanBlocked
    else if bool_decide (tools_list_hashes pol = []) then
      if diff_blocks None tools then Some DiffBlocked else None
    else if existsb (λ server, diff_blocks (Some server) tools) (tools_list_hashes pol)
    then Some DiffBlocked else None in
  match hash_tools_list tools with
  | Some _ => blocked
  | None => Some HashFailed
  end.

Definition visible_tools (tools : list ToolDefinition) : list ToolDefinition :=
  filter (λ t, tool_is_allowed pol (td_name t) = true) tools.
Definition hidden_tools (tools : list ToolDefinition) : list ToolDefinition :=
  filter (λ t, tool_is_allowed pol (td_name t) = false) tools.

(** What the client may see of a listing, and so call. *)
Definition emit_tools (tools : list ToolDefinition) : list ToolDefinition :=
  if policy_dry_run pol then tools else visible_tools tools.

(** A filtered view is not for shared caches. *)
Definition scoped_extras (tools : list ToolDefinition) (extras : list (string * string))
  : list (string * string) :=
  let private := quoted "private" in
  if policy_dry_run pol || bool_decide (hidden_tools tools = []) then extras
  else if existsb (λ e, String.eqb e.1 "cacheScope") extras
  then (fix go es := match es with
                     | [] => []
                     | e :: es' => if String.eqb e.1 "cacheScope" then (e.1, private) :: es' else e :: go es'
                     end) extras
  else extras ++ [("cacheScope", private)].

(** The generation and the advertised names move under one lock. *)
Definition publish (tools : list ToolDefinition) : Prog Shared Z :=
  atom (λ s, let next := vt_generation (sh_verified s) + 1 in
             (set_verified s (mkVerified next (td_name <$> emit_tools tools)) tools, next)).

(** The refusal when the record itself could not be committed. *)
Definition unrecorded_block (client raw_id : option ClientId) (answered_internal : bool)
    (reason : BlockReason) : Prog Shared ListFlow :=
  (emit_id ⇐ failure_emit_id (client_facing_id client raw_id answered_internal) reason;
   write send_abort;;
   match emit_id with
   | Some id => (_ ⇐ send (ListError id); Ret Failed)
   | None => Ret Failed
   end)%prog.

(** After the gate: the queued revalidation, or the held listing and the held
    notification. *)
Definition settle (st : S2cListState) (revalidate : bool) (tools : list ToolDefinition)
    (extras : list (string * string)) : Prog Shared ListFlow :=
  if revalidate then begin_revalidation st
  else
    (let notify :=
       let '(st1, notification) := take_verified_notification st in
       match notification with
       | Some line => require (send_or_fail (Notified line) (Ret (Handled st1)))
       | None => Ret (Handled st1)
       end in
     held ⇐ take_held;
     match held with
     | Some (_, raw_id) =>
         require (send_or_fail (Listed (build_verified_tools_list_response raw_id tools extras)) notify)
     | None => notify
     end)%prog.

(** From the publication on. *)
Definition publish_and_emit (st : S2cListState) (tools : list ToolDefinition) (digest : string)
    (client raw_id : option ClientId) (extras : list (string * string)) (answered_internal : bool)
  : Prog Shared ListFlow :=
  let '(st1, changed) := record_verified_digest st digest in
  (next ⇐ publish tools;
   write (λ s, set_generation s next);;
   let already_reported := internal_revalidation st1 && negb changed in
   let visible := emit_tools tools in
   let extras1 := scoped_extras tools extras in
   let verified :=
     match client with
     | Some c => Some (build_verified_tools_list_response (ci_raw c) visible extras1)
     | None => if negb (internal_revalidation st1) && negb answered_internal
               then Some (build_verified_tools_list_response (from_option ci_raw "null" raw_id) visible extras1)
               else None
     end in
   let emit_listing :=
     let '(st2, revalidate) := take_queued_revalidation st1 in
     let st3 := if revalidate then st2 else finish_verification st2 in
     let emit_response :=
       match verified with
       | Some l => require (send_or_fail (Listed l) (settle st3 revalidate visible extras1))
       | None => settle st3 revalidate visible extras1
       end in
     if revalidate then emit_response else (write (λ s, set_busy s false);; emit_response)%prog in
   if negb (bool_decide (hidden_tools tools = [])) && negb already_reported
   then require emit_listing else emit_listing)%prog.

Definition verify_and_emit_list (st : S2cListState) (raw_id : option ClientId)
    (answered_internal : bool) : Prog Shared ListFlow :=
  let '(st1, (tools, client, extras)) := take_completed_pages st in
  let verdict := listing_verdict tools in
  (committed ⇐ ask;
   if negb committed then
     match verdict with
     | Some reason => unrecorded_block client raw_id answered_internal reason
     | None => Ret Failed
     end
   else
     emit (Recorded (bool_decide (is_Some verdict)));;
     match verdict, hash_tools_list tools with
     | None, Some digest => publish_and_emit st1 tools digest client raw_id extras answered_internal
     | Some reason, _ => fail_listing client raw_id answered_internal reason
     | None, None => Ret Failed
     end)%prog.

(** ** One response on the tools/list path *)

Record S2cFrame := mkFrame {
  fr_line : string;
  fr_parsed : option Json;
  fr_rpc_id : option RpcId;
  fr_raw_id : option string;
  fr_has_method : bool;
  fr_is_response : bool;
  fr_malformed : option string;
}.

(** A raw id with what it parses to; the frame carries both. *)
Definition frame_client_id (f : S2cFrame) : option ClientId :=
  (λ raw, mkClientId raw (fr_rpc_id f)) <$> fr_raw_id f.

(** Whether the id belongs to a client listing in flight; a genuine response
    consumes the entry. *)
Definition tracked_listing (f : S2cFrame) : Prog Shared bool :=
  match fr_rpc_id f with
  | None | Some RNull => Ret false
  | Some id =>
      if fr_is_response f && bool_decide (fr_malformed f = None)
      then atom (λ s, let '(ids, found) := remove_pending (sh_pending s) id in (set_pending s ids, found))
      else read (λ s, is_some_and (fr_parsed f) has_response_members && bool_decide (id ∈ sh_pending s))
  end.

(** An error answer: unwind, or abort when a revalidation depends on it. *)
Definition handle_list_error (st0 : S2cListState) (f : S2cFrame) (answered_internal : bool)
  : Prog Shared ListFlow :=
  let st := discard_pages st0 in
  (_ ⇐ remove_original (collecting_client_id st ≫= ci_rpc);
   _ ⇐ remove_original (frame_client_id f ≫= ci_rpc);
   generation ⇐ read sh_generation;
   let initial_internal := answered_internal && internal_revalidation st
                           && bool_decide (collecting_client_id st = None) && (generation =? 0) in
   if requires_abort_on_error st && negb initial_internal then abort_listing ErrorAnswer false
   else
     let st1 := if initial_internal then finish_verification st else st in
     write (λ s, set_busy s false);;
     answer_held_client_list_with_error
       (let '(st2, client) := take_client_id st1 in
        match client with
        | Some c => send_or_fail (ListError (ci_raw c)) (Ret (Handled st2))
        | None => if answered_internal then Ret (Handled st2)
                  else send_or_fail (ErrorRelayed (fr_line f)) (Ret (Handled st2))
        end))%prog.

(** The three budgets a page is charged against, in order. *)
Definition charge_page (st : S2cListState) (bytes : Z) (page : ToolsListPage)
  : S2cListState * result unit string :=
  match note_page_bytes st bytes with
  | (st1, Err e) => (st1, Err e)
  | (st1, Ok _) =>
      match append_page st1 (pg_tools page) with
      | (st2, Err e) => (st2, Err e)
      | (st2, Ok _) => record_result_extras st2 (pg_result_extras page)
      end
  end.

(** A listing nobody owns yet is bound to the id it answers, and the gate is
    raised for its remaining pages. *)
Definition bind_listing (st : S2cListState) (raw_id : option ClientId) : Prog Shared S2cListState :=
  if needs_client_binding st then
    (st1 ⇐ match raw_id with
           | Some c => (original ⇐ remove_original (ci_rpc c); Ret (bind_client st c original))
           | None => Ret st
           end;
     _ ⇐ raise_list_gate;
     Ret st1)%prog
  else Ret st.

Definition next_page_cursor (page : ToolsListPage) : option string :=
  match pg_next_cursor page with
  | Some c => if is_empty (trim c) then None else Some c
  | None => None
  end.

Definition handle_page (st : S2cListState) (f : S2cFrame) (answered_internal : bool)
    (page : ToolsListPage) : Prog Shared ListFlow :=
  let raw_id := frame_client_id f in
  match charge_page st (len (fr_line f)) page with
  | (st1, Err e) => fail_listing (collecting_client_id st1) raw_id answered_internal (Budget e)
  | (st1, Ok _) =>
      (st2 ⇐ bind_listing st1 raw_id;
       match next_page_cursor page with
       | Some cursor =>
           match record_cursor st2 cursor with
           | (st3, Err e) => fail_listing (collecting_client_id st3) raw_id answered_internal (Budget e)
           | (st3, Ok _) =>
               id ⇐ fetch_internal_id;
               send_internal (expect_internal_response st3 id) id
                 (NextPage (build_pagination_request (collecting_original st3) id cursor))
           end
       | None => verify_and_emit_list st2 raw_id answered_internal
       end)%prog
  end.

(** After the routing: the frame is a listing's answer without a method. *)
Definition handle_listing_answer (st : S2cListState) (f : S2cFrame) (answered_internal : bool)
  : Prog Shared ListFlow :=
  let fail := fail_listing (collecting_client_id st) (frame_client_id f) answered_internal in
  match fr_parsed f with
  | None => fail InvalidJson
  | Some frame =>
      match check_duplicate_keys_recursively frame with
      | Err reason => fail (DuplicateKeys reason)
      | Ok _ =>
          if has_member frame "error" then handle_list_error st f answered_internal
          else match parse_tools_list_response_page frame with
               | None => fail MalformedPage
               | Some page => handle_page st f answered_internal page
               end
      end
  end.

Definition is_array (v : Json) : bool := bool_decide (is_Some (to_array v)).

Definition handle_tools_list_response (st : S2cListState) (f : S2cFrame) : Prog Shared ListFlow :=
  let answered_internal := is_internal_response st (fr_rpc_id f) in
  let fail := fail_listing (collecting_client_id st) (frame_client_id f) answered_internal in
  if is_some_and (fr_parsed f) is_array then fail BatchFrame
  else
    (found ⇐ tracked_listing f;
     let is_tools_list_response :=
       match fr_rpc_id f with
       | None | Some RNull => false
       | Some _ => (found : bool) || answered_internal
       end in
     let seems_tools_list :=
       is_tools_list_response
       || (negb (bool_decide (tools_list_hashes pol = []))
           && is_some_and (fr_parsed f) response_result_has_tools_field) in
     let malformed := match fr_malformed f with
                      | Some r => Some r
                      | None => if fr_has_method f then Some "method" else None
                      end in
     match (if is_tools_list_response then malformed else None) with
     | Some reason => fail (Envelope reason)
     | None =>
         if negb (seems_tools_list && negb (fr_has_method f)) then Ret (ForwardRaw st)
         else handle_listing_answer st f answered_internal
     end)%prog.

(** ** The list handling of the server loop *)

(** After a forwarded [initialize] result that advertises tools. *)
Definition initial_listing (st : S2cListState) : Prog Shared ListFlow :=
  (generation ⇐ read sh_generation;
   if list_verification_required pol && (generation =? 0) && idle st then
     was_busy ⇐ raise_list_gate;
     if (was_busy : bool) then Ret (Handled st) else begin_revalidation st
   else Ret (Handled st))%prog.

(** A rejected answer to an internal request. *)
Definition reject_internal (st : S2cListState) (reason : BlockReason) : Prog Shared ListFlow :=
  (_ ⇐ raise_list_gate; abort_listing reason false)%prog.

(** A rejected or oversized answer to a client listing: [release] is the
    oversize path, which also retires a page request in flight. *)
Definition reject_listing (st : S2cListState) (id : RpcId) (raw_id : string) (release : bool)
    (reason : BlockReason) : Prog Shared ListFlow :=
  (write (λ s, set_pending s (remove_pending (sh_pending s) id).1);;
   let bound := collecting_client_id st in
   st1 ⇐ (if release then release_cancelled st (Some id) else Ret st);
   let st2 := discard_pages st1 in
   let client := default (mkClientId raw_id (Some id)) (if release then bound else collecting_client_id st2) in
   let st3 := (take_client_id st2).1 in
   _ ⇐ remove_original (Some id);
   _ ⇐ remove_original (if release then ci_rpc client else collecting_client_id st2 ≫= ci_rpc);
   if requires_abort_on_error st3 then
     _ ⇐ raise_list_gate;
     send_or_fail (Refused (ci_raw client)) (abort_listing reason true)
   else
     write (λ s, set_busy s false);;
     send_or_fail (Refused (ci_raw client)) (Ret (Handled st3)))%prog.

(** What the server loop may be asked to do about listings. *)
Inductive ServerEvent :=
  | OnListChanged (line : string)
  | OnKick
  | OnListAnswer (f : S2cFrame)
  | OnInitialized
  | OnInternalRejected (reason : BlockReason)
  | OnListRejected (id : RpcId) (raw_id : string) (oversize : bool) (reason : BlockReason).

Definition server_task (st : S2cListState) (ev : ServerEvent) : Prog Shared ListFlow :=
  match ev with
  | OnListChanged line => handle_list_changed st line
  | OnKick => resume_queued_revalidation st
  | OnListAnswer f => handle_tools_list_response st f
  | OnInitialized => initial_listing st
  | OnInternalRejected reason => reject_internal st reason
  | OnListRejected id raw_id oversize reason => reject_listing st id raw_id oversize reason
  end.
End pipeline.
