(* ===== verification/ListClient.v ===== *)
(** * ListClient: the client side of the verified listing

    [src/src/auditor/proxy_c2s/forward.rs] and the cancel handling of
    [src/src/auditor/proxy_c2s.rs]: the admission of a [tools/call] against
    the verified tool set, its dispatch inside the epoch, the arming, holding
    and unwinding of a client [tools/list], and the release of a cancelled
    one.  Each is a task over the shared state ([ProxyState]).

    The argument checker and the session gates answer through [check]; their
    bookkeeping is in [SessionGate].  [System] puts the two loops side by
    side. *)

From S2P Require Import Prelude Text Json RpcId Session Protocol WireFrame McpRules McpDecide Wire Structure ToolsList Interleave ProxyState ListPipeline.

Open Scope Z_scope.

(** [Err] ends the loop. *)
Inductive ClientFlow := Forwarded | NotForwarded | ClientFailed.

Record ClientRequest := mkRequest {
  cr_line : string;
  cr_frame : Json;
  cr_id : RpcId;
  cr_raw_id : string;
  cr_version : SupportedProtocolVersion;
}.

Section client.
Context (iter : gmap WireKey TrackedRequest → list (WireKey * TrackedRequest)).
Context (pol : ListPolicy).

Definition send_or_stop (ev : ListEvent) (k : Prog Shared ClientFlow) : Prog Shared ClientFlow :=
  (ok ⇐ send ev; if (ok : bool) then k else Ret ClientFailed)%prog.

(** A record that must be accepted before going on. *)
Definition audited (k : Prog Shared ClientFlow) : Prog Shared ClientFlow :=
  (ok ⇐ ask; if (ok : bool) then k else Ret ClientFailed)%prog.

Definition refuse_request (r : ClientRequest) : Prog Shared ClientFlow :=
  send_or_stop (Refused (cr_raw_id r)) (Ret NotForwarded).

(** ** Registration and dispatch *)

Definition register_request (r : ClientRequest) (method : string) (allowed : bool)
  : Prog Shared (option RequestForwardUndo) :=
  let ext := extract_request (cr_frame r) method in
  atom (λ s,
    match register iter (sh_wire s) C2S (cr_id r)
            (from_extracted method (cr_version r) allowed (policy_dry_run pol) ext) with
    | Err _ => (s, None)
    | Ok w1 => let '(w2, undo) := on_request_forwarded w1 C2S (cr_id r) method (cr_version r) ext in
               (set_wire s w2, Some undo)
    end).

Definition rollback (undo : RequestForwardUndo) : Prog Shared unit :=
  write (λ s, set_wire s (rollback_forwarded_request (sh_wire s) undo)).

(** The mutex of the epoch. *)
Definition lock_epoch : Prog Shared unit :=
  Atom (λ s, negb (sh_epoch s)) (λ s, (set_epoch s true, ())) Ret.
Definition unlock_epoch : Prog Shared unit := write (λ s, set_epoch s false).

(** The epoch's critical section: [None] is the stale verdict, otherwise
    whether the write succeeded. *)
Definition dispatch_in_epoch (expected : Z) (ev : ListEvent) : Prog Shared (option bool) :=
  (lock_epoch;;
   busy ⇐ read sh_busy;
   res ⇐ (if (busy : bool) then Ret None
          else generation ⇐ read (λ s, vt_generation (sh_verified s));
               if negb (generation =? expected) then Ret None
               else ok ⇐ send ev; Ret (Some ok));
   unlock_epoch;;
   Ret res)%prog.

Definition dispatch (expected : option Z) (ev : ListEvent) : Prog Shared (option bool) :=
  match expected with
  | Some g => dispatch_in_epoch g ev
  | None => (ok ⇐ send ev; Ret (Some ok))%prog
  end.

(** [register_and_forward_impl]; [decided] when the decision is recorded here. *)
Definition register_and_forward_impl (r : ClientRequest) (method : string) (allowed decided : bool)
    (expected : option Z) (ev : ListEvent) : Prog Shared ClientFlow :=
  let record k := if decided then audited k else k in
  (undo ⇐ register_request r method allowed;
   match undo with
   | None => record (refuse_request r)
   | Some undo =>
       record (audited
         (res ⇐ dispatch expected ev;
          match res with
          | Some true => Ret Forwarded
          | Some false => rollback undo;; Ret ClientFailed
          | None => rollback undo;; refuse_request r
          end))
   end)%prog.

(** ** tools/call *)

Definition call_event (r : ClientRequest) (expected : option Z) (allowed : bool) : ListEvent :=
  Dispatched expected (extract_tool_name (cr_frame r)) allowed.

Definition forward_call (r : ClientRequest) (expected : option Z) (allowed : bool)
  : Prog Shared ClientFlow :=
  register_and_forward_impl r "tools/call" allowed allowed expected (call_event r expected allowed).

(** The captured generation still advertises the tool. *)
Definition still_advertised (expected : Z) (tool : option string) : Prog Shared bool :=
  read (λ s, (vt_generation (sh_verified s) =? expected)
             && is_some_and tool (λ name, bool_decide (name ∈ vt_names (sh_verified s)))).

(** After the busy check. [check] is the answer of the argument checks and the
    session gates; what those gates and their unwinding do to the session is
    modelled by [apply_session_gates] and [unwind_call]. *)
Definition admit_call (r : ClientRequest) (check : bool) (expected : option Z) : Prog Shared ClientFlow :=
  (eligible ⇐ read (λ s, is_ok (can_register iter (sh_wire s) C2S (cr_id r)));
   if negb eligible then audited (refuse_request r)
   else if check then
     match expected with
     | Some g =>
         advertised ⇐ still_advertised g (extract_tool_name (cr_frame r));
         if (advertised : bool) then audited (forward_call r expected true) else refuse_request r
     | None => audited (forward_call r expected true)
     end
   else if policy_dry_run pol && bool_decide (request_state_over_cap (cr_frame r) = None)
   then audited (forward_call r expected false)
   else audited (refuse_request r))%prog.

Definition check_gate (r : ClientRequest) (k : Prog Shared ClientFlow) : Prog Shared ClientFlow :=
  (busy ⇐ read sh_busy; if (busy : bool) then refuse_request r else k)%prog.

(** [forward_allowed] on a tools/call. *)
Definition client_call (r : ClientRequest) (check : bool) : Prog Shared ClientFlow :=
  if list_verification_required pol then
    (generation ⇐ read (λ s, vt_generation (sh_verified s));
     if generation =? 0 then refuse_request r
     else check_gate r (admit_call r check (Some generation)))%prog
  else check_gate r (admit_call r check None).

(** [deny_request] on a tools/call refused by the tool rules: a dry run
    observes it, the expected generation unset. *)
Definition client_denied_call (r : ClientRequest) (observable : bool) : Prog Shared ClientFlow :=
  if policy_dry_run pol && observable then audited (forward_call r None false)
  else audited (refuse_request r).

(** ** tools/list *)

Definition insert_pending (id : RpcId) : Prog Shared bool :=
  atom (λ s, let '(ids, ok) := try_insert (sh_pending s) id in (set_pending s ids, ok)).
Definition drop_pending (id : RpcId) : Prog Shared unit :=
  write (λ s, set_pending s (remove_pending (sh_pending s) id).1).

(** The slot's mutex is held to the end: setting it and looking at the gate
    are separate accesses, the gate not being under that mutex. *)
Definition hold_client_list (r : ClientRequest) : Prog Shared bool :=
  (placed ⇐ atom (λ s, if bool_decide (is_Some (sh_held s)) || negb (bool_decide (sh_pending s = []))
                       then (s, false)
                       else (set_held s (Some (cr_id r, cr_raw_id r)), true));
   if negb placed then Ret false
   else
     busy ⇐ read sh_busy;
     if (busy : bool) then Ret true
     else (_ ⇐ take_held; Ret false))%prog.

Definition originals_bytes (m : gmap RpcId ListLine) : Z :=
  map_fold (λ _ l n, len (ll_text l) + n) 0 m.

(** Retain the request the pages are rebuilt from, within the budget. *)
Definition retain_original (r : ClientRequest) : Prog Shared bool :=
  (write (λ s, set_template s (Some (mkLine (cr_line r) (cr_frame r))));;
   atom (λ s,
     if MAX_ORIGINAL_TOOLS_LIST_BYTES <? saturating_add (originals_bytes (sh_originals s)) (len (cr_line r))
     then (set_pending s (remove_pending (sh_pending s) (cr_id r)).1, false)
     else (set_originals s (<[cr_id r := mkLine (cr_line r) (cr_frame r)]> (sh_originals s)), true)))%prog.

(** [arm_tools_list]: continue with [k] when armed. *)
Definition arm_tools_list (r : ClientRequest) (k : Prog Shared ClientFlow) : Prog Shared ClientFlow :=
  (let finish := (retained ⇐ retain_original r;
                  if (retained : bool) then k else audited (refuse_request r)) in
   accepted ⇐ insert_pending (cr_id r);
   if negb accepted then audited (refuse_request r)
   else
     armed ⇐ acquire_gate;
     if (armed : bool) then finish
     else
       drop_pending (cr_id r);;
       held ⇐ hold_client_list r;
       if (held : bool) then Ret NotForwarded
       else
         again ⇐ insert_pending (cr_id r);
         armed' ⇐ (if (again : bool) then acquire_gate else Ret false);
         if (armed' : bool) then finish
         else drop_pending (cr_id r);; audited (refuse_request r))%prog.

Definition unwind_tools_list (id : RpcId) : Prog Shared unit :=
  (drop_pending id;; _ ⇐ remove_original (Some id); Ret ())%prog.

Definition client_list (r : ClientRequest) : Prog Shared ClientFlow :=
  arm_tools_list r
    (res ⇐ register_and_forward_impl r "tools/list" true true None (ListForwarded (cr_id r));
     match res with
     | Forwarded => Ret Forwarded
     | _ => unwind_tools_list (cr_id r);; Ret res
     end)%prog.

(** [release_cancelled_bookkeeping] of a tools/list. *)
Definition client_cancel_list (id : RpcId) : Prog Shared ClientFlow :=
  (drop_pending id;; _ ⇐ remove_original (Some id);
   write (λ s, set_cancelled s (Some id));; Ret Forwarded)%prog.

Inductive ClientEvent :=
  | OnCall (r : ClientRequest) (check : bool)
  | OnDeniedCall (r : ClientRequest) (observable : bool)
  | OnList (r : ClientRequest)
  | OnCancelList (id : RpcId).

Definition client_task (ev : ClientEvent) : Prog Shared ClientFlow :=
  match ev with
  | OnCall r check => client_call r check
  | OnDeniedCall r observable => client_denied_call r observable
  | OnList r => client_list r
  | OnCancelList id => client_cancel_list id
  end.
End client.

(** ** The two loops side by side *)

Record System := mkSystem {
  sy_shared : Shared;
  sy_server : Prog Shared ListFlow;
  sy_client : Prog Shared ClientFlow;
}.

Definition system_new : System := mkSystem shared_new (Ret (Handled list_new)) (Ret Forwarded).

Inductive Turn :=
  | ServerTakes (ev : ServerEvent)
  | ServerRuns (answer : bool)
  | ClientTakes (ev : ClientEvent)
  | ClientRuns (answer : bool).

Section system.
Context (iter : gmap WireKey TrackedRequest → list (WireKey * TrackedRequest)).
Context {V : Verifier} (pol : ListPolicy).

(** A loop takes its next event when the last is handled, and stops after an
    error. *)
Definition system_step (sy : System) (t : Turn) : System :=
  match t with
  | ServerTakes ev =>
      match sy_server sy with
      | Ret (Handled st) | Ret (ForwardRaw st) =>
          mkSystem (sy_shared sy) (server_task iter pol st ev) (sy_client sy)
      | _ => sy
      end
  | ClientTakes ev =>
      match sy_client sy with
      | Ret Forwarded | Ret NotForwarded => mkSystem (sy_shared sy) (sy_server sy) (client_task iter pol ev)
      | _ => sy
      end
  | ServerRuns answer =>
      match prog_step (sy_server sy) answer (sy_shared sy) with
      | Some (s, p) => mkSystem s p (sy_client sy)
      | None => sy
      end
  | ClientRuns answer =>
      match prog_step (sy_client sy) answer (sy_shared sy) with
      | Some (s, p) => mkSystem s (sy_server sy) p
      | None => sy
      end
  end.

Definition system_run (turns : list Turn) : System := foldl system_step system_new turns.
End system.
