(* ===== verification/ListLogic.v ===== *)
(** * ListLogic: the abstract listing gate and the assertions over it

    The automaton the listing pipeline refines, and the assertions of the
    rely-guarantee proof that it does. *)

From S2P Require Import Prelude Text Json RpcId Protocol WireFrame Wire ToolsList Interleave.
From S2P Require Import ProxyState ListPipeline ListClient.

Open Scope Z_scope.

(** [Owed]: a change was announced and no revalidation has been requested
    since; [Relisting]: one has, and nothing is published since. *)
Inductive Change := Settled | Owed | Relisting.

#[export] Instance Change_eq_dec : EqDecision Change.
Proof. solve_decision. Defined.

(** What only the server loop moves. *)
Record Book := mkBook {
  bk_generation : Z;
  bk_names : list string;
  bk_listing : list string;
  bk_change : Change;
  bk_recorded : bool;
}.

Record Gate := mkGate { g_open : bool; g_book : Book }.

Definition gate_new : Gate := mkGate true (mkBook 0 [] [] Settled false).

Definition with_change (b : Book) (c : Change) : Book :=
  mkBook (bk_generation b) (bk_names b) (bk_listing b) c (bk_recorded b).
Definition with_recorded (b : Book) (r : bool) : Book :=
  mkBook (bk_generation b) (bk_names b) (bk_listing b) (bk_change b) r.

Section gate.
Context {V : Verifier} (pol : ListPolicy).

Definition published (b : Book) (tools : list ToolDefinition) : Book :=
  mkBook (bk_generation b + 1) (td_name <$> emit_tools pol tools)
    (verified_tool_json <$> emit_tools pol tools)
    (match bk_change b with Relisting => Settled | c => c end) false.

Definition may_dispatch (g : Gate) (expected : option Z) (tool : option string) (allowed : bool) : bool :=
  match expected with
  | Some n =>
      g_open g && (bk_generation (g_book g) =? n) && negb (n =? 0)
      && bool_decide (bk_change (g_book g) = Settled)
      && (negb allowed || is_some_and tool (λ name, bool_decide (name ∈ bk_names (g_book g))))
  | None => negb (list_verification_required pol) || (policy_dry_run pol && negb allowed)
  end.

Definition gate_step (g : Gate) (ev : ListEvent) : option Gate :=
  let b := g_book g in
  match ev with
  | ListChanged => Some (mkGate false (with_change b Owed))
  | GateClosed => Some (mkGate false b)
  | GateOpened => if bool_decide (bk_change b = Settled) || (bk_generation b =? 0)
                  then Some (mkGate true b) else None
  | Revalidate _ => Some (mkGate (g_open g)
                      (if bool_decide (bk_change b = Owed) then with_change b Relisting else b))
  | Recorded blocked => Some (mkGate (g_open g) (with_recorded b (negb blocked)))
  | Published tools =>
      if bk_recorded b && bool_decide (listing_verdict pol tools = None)
         && negb (g_open g && bool_decide (bk_change b = Owed))
      then Some (mkGate (g_open g) (published b tools)) else None
  | Listed l => if negb (bk_generation b =? 0) && bool_decide (vl_tools l = bk_listing b)
                then Some g else None
  | Notified _ => if negb (bk_generation b =? 0) && bool_decide (bk_change b = Settled)
                  then Some g else None
  | Dispatched expected tool allowed => if may_dispatch g expected tool allowed then Some g else None
  | NextPage _ | ListError _ | Refused _ | ErrorRelayed _ | ListForwarded _ | Aborted => Some g
  end.

Definition gate_run (evs : list ListEvent) : option Gate :=
  foldl (λ g ev, g ≫= λ g, gate_step g ev) (Some gate_new) evs.
End gate.

Section logic.
Context {V : Verifier} (pol : ListPolicy).

Definition gate_of (s : Shared) : option Gate := gate_run pol (sh_trace s).

(** The shared state agrees with the abstract gate; an open gate with a
    published listing has no change outstanding. *)
Record linked (g : Gate) (s : Shared) : Prop := mkLinked {
  lk_open : g_open g = negb (sh_busy s);
  lk_generation : bk_generation (g_book g) = vt_generation (sh_verified s);
  lk_names : bk_names (g_book g) = vt_names (sh_verified s);
  lk_settled : g_open g = true → bk_generation (g_book g) ≠ 0 → bk_change (g_book g) = Settled;
  lk_positive : 0 ≤ bk_generation (g_book g);
}.

Definition Phi : Type := bool → Book → Z → Prop.

Definition inv (P : Phi) (s : Shared) : Prop :=
  ∃ g, gate_of s = Some g ∧ linked g s ∧ P (sh_busy s) (g_book g) (sh_generation s).

Definition Linked (s : Shared) : Prop := inv (λ _ _ _, True) s.

(** ** What each loop may do to the other *)

Definition Rely_s (s s' : Shared) : Prop :=
  ∀ g, gate_of s = Some g → linked g s →
  ∃ g', gate_of s' = Some g' ∧ linked g' s' ∧ g_book g' = g_book g
        ∧ (sh_busy s = true → sh_busy s' = true) ∧ sh_generation s' = sh_generation s.

Definition Rely_c (s s' : Shared) : Prop :=
  Linked s →
  Linked s' ∧ vt_generation (sh_verified s) ≤ vt_generation (sh_verified s')
  ∧ (vt_generation (sh_verified s) = vt_generation (sh_verified s') → sh_verified s' = sh_verified s)
  ∧ sh_epoch s' = sh_epoch s
  ∧ (sh_epoch s = true → sh_busy s = false →
       sh_busy s' = false ∧ (vt_generation (sh_verified s) ≠ 0 → sh_verified s' = sh_verified s)).

#[export] Instance Rely_s_preorder : PreOrder Rely_s.
Proof.
  split.
  - intros s g Hg Hl. exists g. eauto.
  - intros s1 s2 s3 H12 H23 g Hg Hl.
    destruct (H12 g Hg Hl) as (g2 & Hg2 & Hl2 & Hb2 & Hbusy2 & Hn2).
    destruct (H23 g2 Hg2 Hl2) as (g3 & Hg3 & Hl3 & Hb3 & Hbusy3 & Hn3).
    exists g3. rewrite Hb3, Hn3. eauto 10.
Qed.

#[export] Instance Rely_c_preorder : PreOrder Rely_c.
Proof.
  split.
  - intros s HL. split_and!; auto with lia.
  - intros s1 s2 s3 H12 H23 HL.
    destruct (H12 HL) as (HL2 & Hle2 & Heq2 & He2 & Hep2).
    destruct (H23 HL2) as (HL3 & Hle3 & Heq3 & He3 & Hep3).
    split_and!; [done|lia| |congruence|].
    + intros Hgen. rewrite Heq3 by lia. apply Heq2. lia.
    + intros Hep Hbusy. destruct (Hep2 Hep Hbusy) as [Hb2 Hv2].
      rewrite <-He2 in Hep. destruct (Hep3 Hep Hb2) as [Hb3 Hv3]. split; [done|].
      intros Hgen. rewrite Hv3; [by apply Hv2|]. by rewrite Hv2.
Qed.

(** ** Assertions *)

(** The other loop can only raise the busy flag. *)
Definition mono (P : Phi) : Prop := ∀ b n, P false b n → P true b n.

Lemma inv_mono P Q s : inv P s → (∀ b bk n, P b bk n → Q b bk n) → inv Q s.
Proof. intros (g & Hg & Hl & HP) HPQ. exists g. eauto. Qed.

Lemma inv_Linked P s : inv P s → Linked s.
Proof. intros H. by eapply inv_mono. Qed.

Lemma inv_stable P : mono P → stable Rely_s (inv P).
Proof.
  intros Hm s s' Hr (g & Hg & Hl & HP). destruct (Hr g Hg Hl) as (g' & Hg' & Hl' & Hb & Hbusy & Hn).
  exists g'. split_and!; [done..|]. rewrite Hb, Hn.
  destruct (sh_busy s), (sh_busy s'); auto; by discriminate Hbusy.
Qed.

(** Two states the assertions cannot tell apart. *)
Definition same_core (s s' : Shared) : Prop :=
  sh_busy s' = sh_busy s ∧ sh_verified s' = sh_verified s ∧ sh_generation s' = sh_generation s
  ∧ sh_trace s' = sh_trace s.

Lemma inv_core P s s' : same_core s s' → inv P s → inv P s'.
Proof.
  intros (Hb & Hv & Hn & Ht) (g & Hg & [] & HP). exists g.
  unfold gate_of. rewrite Ht, Hb, Hn. split_and!; [done| |done].
  by split; rewrite ?Hb, ?Hv.
Qed.

Lemma gate_of_log s ev : gate_of (log s ev) = gate_of s ≫= λ g, gate_step pol g ev.
Proof. unfold gate_of, gate_run, log. cbn. by rewrite foldl_app. Qed.

Lemma gate_of_set_busy s b :
  gate_of (set_busy s b) = gate_of s ≫= λ g, gate_step pol g (if b then GateClosed else GateOpened).
Proof. unfold set_busy. by rewrite gate_of_log. Qed.

(** The gate accepts the event, its open flag and its listing as they were. *)
Definition accepts (P Q : Phi) (ev : ListEvent) : Prop :=
  ∀ b bk n, P b bk n → ∃ bk', gate_step pol (mkGate (negb b) bk) ev = Some (mkGate (negb b) bk')
    ∧ bk_generation bk' = bk_generation bk ∧ bk_names bk' = bk_names bk
    ∧ (b = false → bk_generation bk ≠ 0 → bk_change bk = Settled → bk_change bk' = Settled) ∧ Q b bk' n.

Lemma accepts_same (P : Phi) ev :
  (∀ b bk n, P b bk n → gate_step pol (mkGate (negb b) bk) ev = Some (mkGate (negb b) bk)) →
  accepts P P ev.
Proof. intros Hev b bk n HP. exists bk. split_and!; [by eapply Hev|done..]. Qed.

Section server_rules.
Context {A : Type} (Post : A → Shared → Prop).
Notation safe_s := (safe Rely_s Rely_c Post).

(** An access outside the gate's state. *)
Lemma s_inert {R} P en (op : Shared → Shared * R) k s :
  mono P → (∀ s, same_core s (op s).1 ∧ sh_epoch (op s).1 = sh_epoch s) →
  inv P s → (∀ r s, inv P s → safe_s (k r) s) → safe_s (Atom en op k) s.
Proof.
  intros Hm Hop Hs Hk. apply (safe_atom _ _ _ (inv P)); [by apply inv_stable|done|].
  intros s' Hs' _. destruct (Hop s') as [Hc He].
  assert (inv P (op s').1) as HI by by eapply inv_core.
  split; [|by apply Hk]. intros HL. destruct Hc as (Hb & Hv & _).
  split_and!; [by eapply inv_Linked|rewrite Hv; lia|by rewrite Hv|done|].
  intros _ Hbusy. rewrite Hv, Hb. auto.
Qed.

(** A read, whose value may be used. *)
Lemma s_read {R} P (f : Shared → R) k s :
  mono P → inv P s → (∀ s, inv P s → safe_s (k (f s)) s) → safe_s (prog_bind (read f) k) s.
Proof.
  intros Hm Hs Hk. apply (safe_atom _ _ _ (inv P)); [by apply inv_stable|done|].
  intros s' Hs' _. cbn. split; [|by apply Hk]. intros HL. split_and!; auto with lia.
Qed.

(** An event: the gate accepts it and the open flag stays. *)
Lemma s_emit P Q ev k s :
  mono P → inv P s →
  accepts P Q ev →
  (∀ s, inv Q s → safe_s k s) → safe_s (prog_bind (emit ev) (λ _, k)) s.
Proof.
  intros Hm Hs Hev Hk. apply (safe_atom _ _ _ (inv P)); [by apply inv_stable|done|].
  intros s' (g & Hg & Hl & HP) _. cbn.
  destruct (Hev _ _ _ HP) as (bk' & Hstep & Hgen & Hnames & Hset & HQ). destruct Hl as [Ho Hlg Hln Hls Hlp].
  assert (inv Q (log s' ev)) as HI.
  { exists (mkGate (negb (sh_busy s')) bk'). split_and!; [|split; cbn|done].
    - rewrite gate_of_log, Hg. cbn. destruct g as [o bk]. cbn in *. by rewrite Ho.
    - done.
    - by rewrite Hgen.
    - by rewrite Hnames.
    - rewrite Hgen. intros Hop Hne. apply Hset; [by destruct (sh_busy s')|done|].
      apply Hls; [by rewrite Ho|done].
    - by rewrite Hgen. }
  split; [|by apply Hk]. intros _. split_and!; [by eapply inv_Linked|cbn; lia|done..].
Qed.

(** Raising the gate, when nobody holds the epoch. *)
Lemma s_raise P k s :
  mono P → inv P s →
  (∀ r s, inv (λ b bk n, b = true ∧ P true bk n) s → safe_s (k r) s) →
  safe_s (prog_bind raise_list_gate k) s.
Proof.
  intros Hm Hs Hk. apply (safe_atom _ _ _ (inv P)); [by apply inv_stable|done|].
  intros s' (g & Hg & Hl & HP) Hen. apply negb_true_iff in Hen. cbn [fst snd].
  assert (inv (λ b bk n, b = true ∧ P true bk n) (set_busy s' true)) as HI.
  { destruct Hl as [Ho Hlg Hln Hls Hlp]. exists (mkGate false (g_book g)). split_and!; [|by split|done|].
    - by rewrite gate_of_set_busy, Hg.
    - cbn. destruct (sh_busy s'); [done|by apply Hm]. }
  split; [|by apply Hk]. intros _. split_and!; [by eapply inv_Linked|cbn; lia|done..|].
  intros He. cbn in He. congruence.
Qed.

(** Lowering it. *)
Lemma s_lower P Q k s :
  mono P → inv P s →
  (∀ b bk n, P b bk n → bk_change bk = Settled ∨ bk_generation bk = 0) →
  (∀ b bk n, P b bk n → Q false bk n) →
  (∀ s, inv Q s → safe_s k s) →
  safe_s (prog_bind (write (λ s, set_busy s false)) (λ _, k)) s.
Proof.
  intros Hm Hs Hset HQ Hk. apply (safe_atom _ _ _ (inv P)); [by apply inv_stable|done|].
  intros s' (g & Hg & Hl & HP) _. cbn [fst snd].
  assert (inv Q (set_busy s' false)) as HI.
  { destruct Hl as [Ho Hlg Hln Hls Hlp]. exists (mkGate true (g_book g)). split_and!; [|split; try done|].
    - rewrite gate_of_set_busy, Hg. cbn.
      destruct (Hset _ _ _ HP) as [->| ->]; [done|]. by rewrite orb_true_r.
    - cbn. intros _ Hne. by destruct (Hset _ _ _ HP).
    - cbn. eauto. }
  split; [|by apply Hk]. intros _. split_and!; [by eapply inv_Linked|cbn; lia|done..].
Qed.

(** Publishing: the listing was verified and recorded; the gate is down only
    before the first publication, and then nothing is owed. *)
Lemma s_publish P Q tools k s :
  mono P → inv P s →
  (∀ b bk n, P b bk n → bk_recorded bk = true ∧ listing_verdict pol tools = None
     ∧ (b = false → bk_generation bk = 0 ∧ bk_change bk ≠ Owed)) →
  (∀ b bk n, 0 ≤ bk_generation bk → P b bk n → Q b (published pol bk tools) n) →
  (∀ next s, inv (λ b bk n, Q b bk n ∧ next = bk_generation bk) s → safe_s (k next) s) →
  safe_s (prog_bind (publish pol tools) k) s.
Proof.
  intros Hm Hs Hok HQ Hk. apply (safe_atom _ _ _ (inv P)); [by apply inv_stable|done|].
  intros s' (g & Hg & Hl & HP) _. cbn [fst snd].
  destruct Hl as [Ho Hlg Hln Hls Hlp]. destruct (Hok _ _ _ HP) as (Hrec & Hver & Hdown).
  set (next := vt_generation (sh_verified s') + 1).
  assert (inv (λ b bk n, Q b bk n ∧ next = bk_generation bk)
            (set_verified s' (mkVerified next (td_name <$> emit_tools pol tools)) tools)) as HI.
  { exists (mkGate (negb (sh_busy s')) (published pol (g_book g) tools)). split_and!.
    - unfold set_verified. rewrite gate_of_log. change (gate_of _) with (gate_of s'). rewrite Hg. cbn.
      rewrite Hrec, Hver, Ho. cbn. destruct (sh_busy s'); [done|]. cbn.
      rewrite bool_decide_eq_false_2 by (by apply Hdown). done.
    - split; cbn; [done|by rewrite Hlg|done| |lia]. destruct (sh_busy s'); [done|]. intros _ _.
      destruct Hdown as [Hzero Howed]; [done|]. by destruct (bk_change (g_book g)).
    - by apply HQ.
    - cbn. by rewrite Hlg. }
  split; [|by apply Hk]. intros _. split_and!; [by eapply inv_Linked|cbn; lia|cbn; lia|done|].
  cbn. intros _ Hbusy. split; [done|]. intros Hne. destruct Hne. rewrite <-Hlg. by apply Hdown.
Qed.

Lemma s_generation P Q next k s :
  mono P → inv P s → (∀ b bk n, P b bk n → Q b bk next) → (∀ s, inv Q s → safe_s k s) →
  safe_s (prog_bind (write (λ s, set_generation s next)) (λ _, k)) s.
Proof.
  intros Hm Hs HPQ Hk. apply (safe_atom _ _ _ (inv P)); [by apply inv_stable|done|].
  intros s' (g & Hg & [] & HP) _. cbn [fst snd].
  assert (inv Q (set_generation s' next)) as HI by (exists g; split_and!; [done|by split|cbn; eauto]).
  split; [|by apply Hk]. intros _. split_and!; [by eapply inv_Linked|cbn; lia|done..|auto].
Qed.

(** A write the gate does not refuse. *)
Lemma s_send P Q ev k s :
  mono P → inv P s → accepts P Q ev →
  (∀ ok s, inv Q s → safe_s (k ok) s) → safe_s (prog_bind (send ev) k) s.
Proof.
  intros Hm Hs Hev Hk. change (safe_s (prog_bind (emit ev) (λ _, Ask k)) s).
  apply (s_emit P Q ev); [done..|]. intros s' Hs' ok. auto.
Qed.
End server_rules.

(** ** The client's assertions *)

Definition Psi : Type := bool → bool → VerifiedToolSet → Prop.

Definition cinv (P : Psi) (s : Shared) : Prop :=
  Linked s ∧ P (sh_epoch s) (sh_busy s) (sh_verified s).

(** Stable under what the server loop may do. *)
Definition cmono (P : Psi) : Prop :=
  ∀ e b v b' v', P e b v →
    vt_generation v ≤ vt_generation v' → (vt_generation v = vt_generation v' → v' = v) →
    (e = true → b = false → b' = false ∧ (vt_generation v ≠ 0 → v' = v)) → P e b' v'.

Lemma cinv_stable P : cmono P → stable Rely_c (cinv P).
Proof.
  intros Hm s s' Hr [HL HP]. destruct (Hr HL) as (HL' & Hle & Heq & He & Hep).
  split; [done|]. rewrite He. eauto.
Qed.

Lemma cinv_mono P Q s : cinv P s → (∀ e b v, P e b v → Q e b v) → cinv Q s.
Proof. intros [HL HP] HPQ. split; auto. Qed.

Section client_rules.
Context {A : Type} (Post : A → Shared → Prop).
Notation safe_c := (safe Rely_c Rely_s Post).

Lemma c_inert {R} P en (op : Shared → Shared * R) k s :
  cmono P → (∀ s, same_core s (op s).1 ∧ sh_epoch (op s).1 = sh_epoch s) →
  cinv P s → (∀ r s, cinv P s → safe_c (k r) s) → safe_c (Atom en op k) s.
Proof.
  intros Hm Hop Hs Hk. apply (safe_atom _ _ _ (cinv P)); [by apply cinv_stable|done|].
  intros s' [HL HP] _. destruct (Hop s') as [Hc He]. split.
  - intros g Hg Hl. destruct Hc as (Hb & Hv & Hn & Ht). exists g. unfold gate_of. rewrite Ht.
    destruct Hl. split_and!; [done| |done|by rewrite Hb|done]. by split; rewrite ?Hb, ?Hv.
  - apply Hk. split; [by eapply inv_core|]. destruct Hc as (Hb & Hv & _). by rewrite He, Hb, Hv.
Qed.

Lemma c_read {R} P (f : Shared → R) k s :
  cmono P → cinv P s → (∀ s, cinv P s → safe_c (k (f s)) s) → safe_c (prog_bind (read f) k) s.
Proof.
  intros Hm Hs Hk. apply (safe_atom _ _ _ (cinv P)); [by apply cinv_stable|done|].
  intros s' Hs' _. cbn. split; [|by apply Hk]. reflexivity.
Qed.

(** The epoch's mutex. *)
Lemma c_epoch P Q en x k s :
  cmono P → cinv P s → (∀ e b v, P e b v → Q x b v) → (∀ s, cinv Q s → safe_c k s) →
  safe_c (prog_bind (Atom en (λ s, (set_epoch s x, ())) Ret) (λ _, k)) s.
Proof.
  intros Hm Hs HPQ Hk. apply (safe_atom _ _ _ (cinv P)); [by apply cinv_stable|done|].
  intros s' [HL HP] _. cbn [fst snd prog_bind]. split.
  - intros g Hg []. exists g. by split_and!.
  - apply Hk. split; [by eapply inv_core, HL|]. cbn. eauto.
Qed.

(** An event that leaves the gate as it is. *)
Lemma c_send P ev k s :
  cmono P → cinv P s →
  (∀ s g, cinv P s → linked g s → gate_step pol g ev = Some g) →
  (∀ ok s, cinv P s → safe_c (k ok) s) → safe_c (prog_bind (send ev) k) s.
Proof.
  intros Hm Hs Hev Hk. apply (safe_atom _ _ _ (cinv P)); [by apply cinv_stable|done|].
  intros s' Hs' _. cbn. pose proof Hs' as [(g & Hg & Hl & _) HP].
  assert (gate_of (log s' ev) = Some g) as Hg'.
  { rewrite gate_of_log, Hg. cbn. by apply (Hev s'). }
  destruct Hl. split.
  - intros g0 Hg0 Hl0. assert (g0 = g) as -> by congruence. exists g. by split_and!.
  - intros ok. apply Hk. split; [|done]. exists g. by split_and!.
Qed.

Lemma c_acquire P k s :
  cmono P → (∀ e b v, P e b v → P e true v) → cinv P s → (∀ r s, cinv P s → safe_c (k r) s) →
  safe_c (prog_bind acquire_gate k) s.
Proof.
  intros Hm Hup Hs Hk. apply (safe_atom _ _ _ (cinv P)); [by apply cinv_stable|done|].
  intros s' Hs' _. destruct (sh_busy s') eqn:Hbusy; cbn [fst snd].
  { split; [reflexivity|by apply Hk]. }
  pose proof Hs' as [(g & Hg & Hl & _) HP]. destruct Hl as [Ho Hlg Hln Hls Hlp].
  assert (gate_of (set_busy s' true) = Some (mkGate false (g_book g))) as Hg' by by rewrite gate_of_set_busy, Hg.
  assert (linked (mkGate false (g_book g)) (set_busy s' true)) by by split.
  split.
  - intros g0 Hg0 Hl0. assert (g0 = g) as -> by congruence. eexists. by split_and!.
  - apply Hk. split; [by eexists|]. cbn. eauto.
Qed.
End client_rules.
End logic.
