(* ===== verification/ListServer.v ===== *)
(** * ListServer: the server loop keeps the gate

    Each handler of [ListPipeline], from a state in which the loop's collection
    [st] is covered by the gate ([owned]), keeps every access within what the
    client loop relies on, and ends with its new collection covered. *)

From S2P Require Import Prelude Text Json RpcId Protocol WireFrame Wire Structure ToolsList Interleave ProxyState ListPipeline ListClient ListLogic.

Open Scope Z_scope.

(** ** What covers a collection *)

(** A bound client listing is behind the gate.  So is a revalidation, or a
    queued one, as soon as anything is published; before that a revalidation
    may run with the gate down, but not with another one queued.  A change
    still owed is queued, one being relisted has its revalidation (before the
    first publication it may have failed), and a queue always holds a
    notification. *)
Definition owned (st : S2cListState) : Phi := λ b bk n,
  n = bk_generation bk
  ∧ (collecting_client_id st ≠ None → b = true)
  ∧ (internal_revalidation st = true → pending_revalidate st = true → b = true)
  ∧ (bk_generation bk ≠ 0 → internal_revalidation st = true ∨ pending_revalidate st = true → b = true)
  ∧ (pending_revalidate st = true → held_list_changed st ≠ None)
  ∧ (bk_change bk = Owed → pending_revalidate st = true)
  ∧ (bk_change bk = Relisting → internal_revalidation st = true ∨ bk_generation bk = 0).

(** Where a revalidation may start. *)
Definition startable (st : S2cListState) : Phi := λ b bk n,
  n = bk_generation bk
  ∧ (collecting_client_id st ≠ None → b = true)
  ∧ (pending_revalidate st = true → b = true)
  ∧ (bk_generation bk ≠ 0 → b = true)
  ∧ (pending_revalidate st = true → held_list_changed st ≠ None).

Definition anything : Phi := λ _ _ _, True.

Lemma owned_mono st : mono (owned st).
Proof. unfold mono, owned. intuition congruence. Qed.
Lemma startable_mono st : mono (startable st).
Proof. unfold mono, startable. intuition congruence. Qed.
Lemma anything_mono : mono anything.
Proof. done. Qed.
Lemma and_mono (P Q : Phi) : mono P → mono Q → mono (λ b bk n, P b bk n ∧ Q b bk n).
Proof. unfold mono. intuition. Qed.
#[export] Hint Resolve owned_mono startable_mono anything_mono and_mono : writ.

Section server.
Context (iter : gmap WireKey TrackedRequest → list (WireKey * TrackedRequest)).
Context {V : Verifier} (pol : ListPolicy).

Definition server_post (r : ListFlow) (s : Shared) : Prop :=
  match r with
  | Handled st | ForwardRaw st => inv pol (owned st) s
  | Failed => True
  end.

Notation safe_s := (safe (Rely_s pol) (Rely_c pol) server_post).

(** ** Accesses outside the gate *)

Definition inert {R} (op : Shared → Shared * R) : Prop :=
  ∀ s, same_core s (op s).1 ∧ sh_epoch (op s).1 = sh_epoch s.

Lemma s_atom {R} P (op : Shared → Shared * R) k s :
  mono P → inert op → inv pol P s → (∀ r s, inv pol P s → safe_s (k r) s) →
  safe_s (prog_bind (atom op) k) s.
Proof. intros. by apply (s_inert pol server_post P). Qed.

Lemma s_write P (f : Shared → Shared) k s :
  mono P → inert (λ s, (f s, ())) → inv pol P s → (∀ s, inv pol P s → safe_s k s) →
  safe_s (prog_bind (write f) (λ _, k)) s.
Proof. intros. by apply (s_atom P (λ s, (f s, ()))). Qed.

(** Events the gate does not look at. *)
Definition neutral (ev : ListEvent) : Prop := ∀ g, gate_step pol g ev = Some g.

Lemma s_send_or_fail P ev k s :
  mono P → neutral ev → inv pol P s → (∀ s, inv pol P s → safe_s k s) → safe_s (send_or_fail ev k) s.
Proof.
  intros Hm Hn Hs Hk. apply (s_send pol server_post P P); [done|done| |].
  - apply accepts_same. intros b bk n _. apply Hn.
  - intros [] s1 Hs1; [by apply Hk|done].
Qed.

Lemma s_require P k s :
  inv pol P s → (∀ s, inv pol P s → safe_s k s) → safe_s (require k) s.
Proof. intros Hs Hk [|]; cbn; auto. Qed.

Lemma s_remove_original P id k s :
  mono P → inv pol P s → (∀ r s, inv pol P s → safe_s (k r) s) →
  safe_s (prog_bind (remove_original id) k) s.
Proof. intros Hm Hs Hk. destruct id; [|by apply Hk]. apply (s_atom P); auto. done. Qed.

Lemma s_take_held P k s :
  mono P → inv pol P s → (∀ r s, inv pol P s → safe_s (k r) s) → safe_s (prog_bind take_held k) s.
Proof. intros. by apply (s_atom P). Qed.

(** ** Failures *)

Lemma s_abort P k s :
  mono P → inv pol P s → (∀ s, inv pol P s → safe_s k s) →
  safe_s (prog_bind (write send_abort) (λ _, k)) s.
Proof.
  intros Hm Hs Hk. apply (safe_atom _ _ _ (inv pol P)); [by apply inv_stable|done|].
  intros s' (g & Hg & Hl & HP) _. cbn [fst snd prog_bind].
  assert (inv pol P (send_abort s')) as HI.
  { destruct Hl. exists g. unfold send_abort. rewrite gate_of_log.
    change (gate_of pol _) with (gate_of pol s'). rewrite Hg. split_and!; [done|by split|done]. }
  split; [|by apply Hk]. intros _. split_and!; [by eapply inv_Linked|cbn; lia|done..].
Qed.

Lemma abort_listing_safe reason replied s :
  inv pol anything s → safe_s (abort_listing reason replied) s.
Proof.
  intros Hs. unfold abort_listing. apply (s_write anything); [done..|].
  intros s1 Hs1. by apply (s_abort anything).
Qed.

Lemma failure_emit_id_safe P resolved reason k s :
  mono P → inv pol P s → (∀ r s, inv pol P s → safe_s (k r) s) →
  safe_s (prog_bind (failure_emit_id resolved reason) k) s.
Proof.
  intros Hm Hs Hk. unfold failure_emit_id, take_held, write, atom.
  destruct resolved; cbn [prog_bind]; apply (s_inert pol server_post P); try done.
  - intros _ s1 Hs1. cbn. auto.
  - intros r s1 Hs1. cbn [prog_bind]. apply (s_inert pol server_post P); try done. intros _ s2 Hs2. cbn. auto.
Qed.

Lemma fail_listing_safe client raw_id internal reason s :
  inv pol anything s → safe_s (fail_listing client raw_id internal reason) s.
Proof.
  intros Hs. apply (failure_emit_id_safe anything); [done..|]. intros [id|] s1 Hs1.
  - apply (s_send_or_fail anything); [done..|]. intros s2 Hs2. by apply (s_abort anything).
  - by apply (s_abort anything).
Qed.

Lemma unrecorded_block_safe client raw_id internal reason s :
  inv pol anything s → safe_s (unrecorded_block client raw_id internal reason) s.
Proof.
  intros Hs. apply (failure_emit_id_safe anything); [done..|]. intros emit_id s1 Hs1.
  apply (s_abort anything); [done..|]. intros s2 Hs2. destruct emit_id as [id|]; [|done].
  apply (s_send pol server_post anything anything); [done..| |done]. by apply accepts_same.
Qed.

Lemma inv_anything P s : inv pol P s → inv pol anything s.
Proof. intros H. by eapply inv_mono. Qed.
Hint Resolve inv_anything : writ.

Lemma answer_held_safe P k s :
  mono P → inv pol P s → (∀ s, inv pol P s → safe_s k s) →
  safe_s (answer_held_client_list_with_error k) s.
Proof.
  intros Hm Hs Hk. apply (s_take_held P); [done..|]. intros [[id raw]|] s1 Hs1; [|by apply Hk].
  by apply (s_send_or_fail P).
Qed.

(** ** Revalidation *)

Lemma register_internal_inert id :
  inert (λ s, match register iter (sh_wire s) McpRules.C2S (internal id)
                    (internal_list (passive_version (sh_wire s))) with
              | Ok w => (set_wire s w, None)
              | Err reason => (s, Some reason)
              end).
Proof. intros s. by destruct register. Qed.

Lemma send_internal_safe P Q st id ev s :
  mono P → inv pol P s →
  accepts pol P Q ev →
  (∀ b bk n, Q b bk n → owned st b bk n) →
  safe_s (send_internal iter st id ev) s.
Proof.
  intros Hm Hs Hev HQ. apply (s_atom P); [done|apply register_internal_inert|done|].
  intros [reason|] s1 Hs1; [apply abort_listing_safe; eauto with writ|].
  apply (s_send pol server_post P Q); [done..|]. intros [|] s2 Hs2; [|done].
  by eapply inv_mono.
Qed.

Lemma begin_revalidation_safe st s :
  inv pol (startable st) s → safe_s (begin_revalidation iter st) s.
Proof.
  intros Hs. apply (s_atom (startable st)); [auto with writ|done..|]. intros id s1 Hs1.
  apply (s_read pol server_post (startable st)); [auto with writ|done|].
  intros s2 Hs2. eapply (send_internal_safe (startable st)
    (λ b bk n, startable st b bk n ∧ bk_change bk ≠ Owed)); [auto with writ|done| |].
  - intros b bk n HP. cbn. case_bool_decide.
    + exists (with_change bk Relisting). repeat split; [|by apply HP..|done].
      intros -> Hne _. destruct HP as (_ & _ & _ & Hb & _). by specialize (Hb Hne).
    + exists bk. done.
  - intros b bk n [HP Hne]. unfold startable, owned in *. cbn. intuition congruence.
Qed.

Lemma handle_list_changed_safe st line s :
  inv pol (owned st) s → safe_s (handle_list_changed iter st line) s.
Proof.
  intros Hs. apply (s_raise pol server_post (owned st)); [auto with writ|done|].
  intros was s1 Hs1.
  apply (s_emit pol server_post (λ b bk n, b = true ∧ owned st true bk n)
           (λ b bk n, b = true ∧ n = bk_generation bk ∧ bk_change bk = Owed)); [by intros ??[]|done| |].
  - intros b bk n [-> HP]. exists (with_change bk Owed). cbn. repeat split; [done|apply HP].
  - intros s2 Hs2. destruct (hold_list_changed st line was) as [st1 in_flight] eqn:Hhold.
    unfold hold_list_changed in Hhold. cbn in Hhold. simplify_eq. destruct (was || _ || _ || _) eqn:Hflight.
    + eapply inv_mono; [done|]. intros b bk n (-> & -> & Hc). unfold owned. cbn. intuition congruence.
    + apply begin_revalidation_safe. eapply inv_mono; [done|].
      intros b bk n (-> & -> & Hc). unfold startable. cbn. intuition congruence.
Qed.

(** ** The queue *)

Lemma release_cancelled_safe st cancelled k s :
  inv pol (owned st) s → (∀ st1 s, inv pol (owned st1) s → safe_s (k st1) s) →
  safe_s (prog_bind (release_cancelled st cancelled) k) s.
Proof.
  intros Hs Hk. destruct cancelled as [id|]; [|by apply Hk]. cbn [release_cancelled].
  destruct (release_collection_for st id) as [st1 waiting] eqn:Hrel.
  assert (inv pol (owned st1) s) as Hs1.
  { eapply inv_mono; [done|]. intros b bk n HP. unfold release_collection_for in Hrel.
    case_bool_decide; simplify_eq; [|done]. unfold owned in *. cbn. intuition congruence. }
  destruct waiting; [|by apply Hk]. cbn [prog_bind write atom].
  apply (s_inert pol server_post (owned st1)); auto with writ. intros s'. done.
Qed.

Lemma resume_safe st s : inv pol (owned st) s → safe_s (resume_queued_revalidation iter st) s.
Proof.
  intros Hs. apply (s_atom (owned st)); [auto with writ|done..|]. intros cancelled s1 Hs1.
  apply release_cancelled_safe; [done|]. intros st1 s2 Hs2.
  destruct (idle st1) eqn:Hidle; [|done]. cbn [negb].
  apply (s_read pol server_post (owned st1)); [auto with writ|done|]. intros s3 Hs3.
  destruct (bool_decide (sh_pending s3 = [])); [|done]. cbn [negb].
  unfold idle in Hidle. rewrite !andb_true_iff, !bool_decide_eq_true, negb_true_iff in Hidle.
  destruct Hidle as [[[Hclient _] _] Hint].
  destruct (pending_revalidate st1) eqn:Hq; cbn [take_queued_revalidation]; rewrite Hq.
  - apply begin_revalidation_safe. eapply inv_mono; [done|]. intros b bk n HP.
    unfold owned, startable in *. cbn. intuition congruence.
  - apply (s_lower pol server_post (owned st1) (owned (take_queued_revalidation st1).1));
      [auto with writ|done| | |].
    + intros b bk n (_ & _ & _ & _ & _ & Ho & Hr).
      destruct (bk_change bk); [by left|specialize (Ho eq_refl); congruence|].
      destruct (Hr eq_refl); [congruence|by right].
    + intros b bk n HP. unfold owned in *. cbn. intuition congruence.
    + intros s4 Hs4. apply (answer_held_safe (owned (take_queued_revalidation st1).1)); auto with writ.
Qed.

(** ** Publication *)

(** The verified listing is the published one. *)
Definition shown (listing : list string) : Phi := λ _ bk _,
  bk_generation bk ≠ 0 ∧ bk_listing bk = listing.

(** Between the publication and the decision about the gate. *)
Definition fresh (st : S2cListState) (listing : list string) : Phi := λ b bk n,
  n = bk_generation bk ∧ shown listing b bk n
  ∧ (pending_revalidate st = true → b = true) ∧ (pending_revalidate st = true → held_list_changed st ≠ None)
  ∧ (bk_change bk = Owed → pending_revalidate st = true) ∧ bk_change bk ≠ Relisting.

Definition settled (st : S2cListState) (listing : list string) : Phi := λ b bk n,
  owned st b bk n ∧ shown listing b bk n ∧ bk_change bk = Settled.

Lemma fresh_mono st l : mono (fresh st l).
Proof. unfold mono, fresh, shown. intuition. Qed.
Lemma settled_mono st l : mono (settled st l).
Proof. unfold mono, settled. intros bk n [HP HQ]. split; [by apply owned_mono|done]. Qed.
Lemma shown_mono l : mono (shown l).
Proof. by intros bk n HP. Qed.
Hint Resolve fresh_mono settled_mono shown_mono : writ.

Lemma s_listed P l k s :
  mono P → inv pol P s → (∀ b bk n, P b bk n → shown (vl_tools l) b bk n) →
  (∀ s, inv pol P s → safe_s k s) → safe_s (require (send_or_fail (Listed l) k)) s.
Proof.
  intros Hm Hs Hshown Hk. apply (s_require P); [done|]. intros s1 Hs1.
  apply (s_send pol server_post P P); [done..| |intros [] s2 Hs2; [by apply Hk|done]].
  apply accepts_same. intros b bk n HP. destruct (Hshown _ _ _ HP) as [Hne Hl]. cbn.
  rewrite bool_decide_eq_true_2 by done. by apply Z.eqb_neq in Hne as ->.
Qed.

Lemma settle_safe st tools extras s :
  pending_revalidate st = false → inv pol (settled st (verified_tool_json <$> tools)) s →
  safe_s (settle iter st false tools extras) s.
Proof.
  intros Hq Hs. unfold settle. pose (P := settled st (verified_tool_json <$> tools)).
  apply (s_take_held P); [apply settled_mono|done|].
  assert (∀ s, inv pol P s → inv pol (owned (take_verified_notification st).1) s) as Hdone.
  { intros s1 Hs1. eapply inv_mono; [done|]. intros b bk n [HP _]. unfold owned in *. cbn. intuition congruence. }
  assert (∀ s, inv pol P s → safe_s (let '(st1, notification) := take_verified_notification st in
       match notification with
       | Some line => require (send_or_fail (Notified line) (Ret (Handled st1)))
       | None => Ret (Handled st1)
       end) s) as Hnotify.
  { intros s1 Hs1. cbn. destruct (held_list_changed st); [|by apply Hdone].
    apply (s_require P); [done|]. intros s2 Hs2.
    apply (s_send pol server_post P P); [apply settled_mono|done| |intros [] s3 Hs3; [by apply Hdone|done]].
    apply (accepts_same pol P). intros b bk n (_ & [Hne _] & Hset). cbn. rewrite Hset. by apply Z.eqb_neq in Hne as ->. }
  intros [[id raw]|] s1 Hs1; [|by apply Hnotify].
  apply (s_listed P); [apply settled_mono|done| |done]. intros b bk n HP. apply HP.
Qed.

Lemma settle_again_safe st tools extras s :
  inv pol (startable st) s → safe_s (settle iter st true tools extras) s.
Proof. apply begin_revalidation_safe. Qed.

(** A complete listing may be verified: the gate is up, or nothing was ever
    published and nothing is queued. *)
Definition verifiable (st : S2cListState) : Phi := λ b bk n,
  owned st b bk n ∧ (b = true ∨ bk_generation bk = 0 ∧ pending_revalidate st = false).

Definition recorded (st : S2cListState) : Phi := λ b bk n, verifiable st b bk n ∧ bk_recorded bk = true.

Lemma verifiable_mono st : mono (verifiable st).
Proof. intros bk n [HP HQ]. split; [by apply owned_mono|by left]. Qed.
Lemma recorded_mono st : mono (recorded st).
Proof. intros bk n [HP HQ]. split; [by apply verifiable_mono|done]. Qed.
Hint Resolve verifiable_mono recorded_mono : writ.

(** The gate after the publication: kept for a queued revalidation, lowered
    otherwise. *)
Lemma after_publish_safe st tools extras (response : option VerifiedListing) s :
  collecting_client_id st = None →
  (∀ l, response = Some l → vl_tools l = verified_tool_json <$> tools) →
  inv pol (fresh st (verified_tool_json <$> tools)) s →
  safe_s (let '(st2, revalidate) := take_queued_revalidation st in
          let st3 := if revalidate then st2 else finish_verification st2 in
          let emit_response :=
            match response with
            | Some l => require (send_or_fail (Listed l) (settle iter st3 revalidate tools extras))
            | None => settle iter st3 revalidate tools extras
            end in
          if revalidate then emit_response else (write (λ s, set_busy s false);; emit_response)%prog) s.
Proof.
  intros Hclient Hresp Hs. cbn [take_queued_revalidation].
  destruct (pending_revalidate st) eqn:Hq.
  - set (st2 := set_context _ _ _ _ _). set (listing := verified_tool_json <$> tools) in *.
    assert (∀ s, inv pol (λ b bk n, startable st2 b bk n ∧ shown listing b bk n) s →
              safe_s (settle iter st2 true tools extras) s) as Hsettle.
    { intros s1 Hs1. apply settle_again_safe. eapply inv_mono; [done|]. by intros b bk n []. }
    assert (inv pol (λ b bk n, startable st2 b bk n ∧ shown listing b bk n) s) as Hs2.
    { eapply inv_mono; [done|]. intros b bk n HP. unfold fresh, startable in *. cbn. intuition congruence. }
    destruct response as [l|]; [|by apply Hsettle].
    apply (s_listed (λ b bk n, startable st2 b bk n ∧ shown listing b bk n)); [auto with writ|done| |done].
    intros b bk n [_ HP]. by rewrite (Hresp l).
  - set (st3 := finish_verification _). set (listing := verified_tool_json <$> tools) in *.
    apply (s_lower pol server_post (fresh st listing) (settled st3 listing)); [auto with writ|done| | |].
    + intros b bk n (_ & _ & _ & _ & Ho & Hr). left.
      destruct (bk_change bk); [done|specialize (Ho eq_refl); congruence|done].
    + intros b bk n HP. unfold fresh, settled, owned in *. cbn.
      destruct (bk_change bk) eqn:Hc; intuition congruence.
    + intros s1 Hs1. destruct response as [l|]; [|by apply settle_safe].
      apply (s_listed (settled st3 listing)); [auto with writ|done| |intros; by apply settle_safe].
      intros b bk n HP. rewrite (Hresp l) by done. apply HP.
Qed.

Lemma publish_and_emit_safe st tools digest client raw_id extras internal s :
  collecting_client_id st = None → listing_verdict pol tools = None →
  inv pol (recorded st) s →
  safe_s (publish_and_emit iter pol st tools digest client raw_id extras internal) s.
Proof.
  intros Hclient Hver Hs. unfold publish_and_emit. cbn [record_verified_digest].
  set (st1 := set_context _ _ _ _ _). set (listing := verified_tool_json <$> emit_tools pol tools).
  apply (s_publish pol server_post (recorded st) (λ b bk _, fresh st1 listing b bk (bk_generation bk)));
    [auto with writ|done| | |].
  - intros b bk n [[HP Hcov] Hrec]. split_and!; [done..|]. intros ->. destruct Hcov as [|[Hz Hq]]; [done|].
    split; [done|]. intros Howed. apply HP in Howed. congruence.
  - intros b bk n Hpos [[HP Hcov] Hrec]. unfold fresh, shown, owned in *. cbn.
    destruct (bk_change bk); intuition (congruence || lia).
  - intros next s1 Hs1.
    apply (s_generation pol server_post
             (λ b bk n, fresh st1 listing b bk (bk_generation bk) ∧ next = bk_generation bk)
             (fresh st1 listing)); [|done|by intros b bk n [HP ->]|].
    { intros bk n [HP Hn]. split; [by apply fresh_mono|done]. }
    intros s2 Hs2. set (response := match client with Some c => _ | None => _ end).
    assert (∀ l, response = Some l → vl_tools l = listing) as Hresp.
    { intros l Hl. unfold response in Hl. destruct client; [by simplify_eq|].
      destruct (negb _ && negb _); by simplify_eq. }
    clearbody response. destruct (negb _ && negb _); [apply (s_require (fresh st1 listing)); [done|]; intros s3 Hs3|];
      by apply after_publish_safe.
Qed.

Lemma verify_and_emit_safe st raw_id internal s :
  inv pol (verifiable st) s → safe_s (verify_and_emit_list iter pol st raw_id internal) s.
Proof.
  intros Hs. unfold verify_and_emit_list. cbn [take_completed_pages take_client_id].
  set (tools := accumulated_tools st). set (st1 := discard_pages _).
  assert (inv pol (verifiable st1) s) as Hs1.
  { eapply inv_mono; [done|]. intros b bk n [HP HQ]. split; [|done].
    unfold owned in *. cbn. intuition congruence. }
  intros [|]; cbn [negb]; [|destruct (listing_verdict pol tools); [|done];
    apply unrecorded_block_safe; by eapply inv_anything].
  apply (s_emit pol server_post (verifiable st1)
           (λ b bk n, verifiable st1 b bk n ∧ (listing_verdict pol tools = None → bk_recorded bk = true)));
    [auto with writ|done| |].
  - intros b bk n HP. exists (with_recorded bk (negb (bool_decide (is_Some (listing_verdict pol tools))))).
    repeat split; try done; [apply HP..|]. intros ->. done.
  - intros s2 Hs2. destruct (listing_verdict pol tools) eqn:Hver.
    { apply fail_listing_safe. by eapply inv_anything. }
    destruct (hash_tools_list tools); [|done].
    apply publish_and_emit_safe; [done..|]. eapply inv_mono; [done|].
    intros b bk n [HP HQ]. split; auto.
Qed.

(** ** Answers *)

(** The parts of a collection the gate depends on. *)
Definition same_owner (st st' : S2cListState) : Prop :=
  collecting_client_id st' = collecting_client_id st
  ∧ internal_revalidation st' = internal_revalidation st
  ∧ pending_revalidate st' = pending_revalidate st ∧ held_list_changed st' = held_list_changed st.

Lemma owned_same st st' s : same_owner st st' → inv pol (owned st) s → inv pol (owned st') s.
Proof.
  intros (Hc & Hi & Hp & Hh) Hs. eapply inv_mono; [done|]. unfold owned. by rewrite Hc, Hi, Hp, Hh.
Qed.

(** Lowering the gate when an error does not concern a revalidation, or
    nothing was published yet. *)
Lemma s_give_up st st' k s :
  inv pol (λ b bk n, owned st b bk n ∧ (requires_abort_on_error st = false ∨ bk_generation bk = 0)) s →
  collecting_client_id st' = None → internal_revalidation st' = false →
  pending_revalidate st' = pending_revalidate st → held_list_changed st' = held_list_changed st →
  (∀ s, inv pol (owned st') s → safe_s k s) →
  safe_s (prog_bind (write (λ s, set_busy s false)) (λ _, k)) s.
Proof.
  intros Hs Hc Hi Hp Hh Hk.
  assert (requires_abort_on_error st = false → internal_revalidation st = false ∧ held_list_changed st = None)
    as Hno.
  { unfold requires_abort_on_error. rewrite orb_false_iff, bool_decide_eq_false.
    by destruct (held_list_changed st); intros [-> Hn]; [destruct Hn|]. }
  eapply (s_lower pol server_post _ (owned st')); [|exact Hs|..|exact Hk].
  - intros bk n [HP HQ]. split; [by apply owned_mono|done].
  - intros b bk n [HP [Hab|]]; [|by right]. destruct (Hno Hab) as [Hint Hheld].
    unfold owned in HP. destruct (bk_change bk) eqn:E; intuition congruence.
  - intros b bk n [HP HQ]. unfold owned in *. rewrite Hc, Hi, Hp, Hh.
    destruct HQ as [Hab|]; [destruct (Hno Hab)|]; intuition congruence.
Qed.

Lemma handle_list_error_safe st0 f internal s :
  inv pol (owned st0) s → safe_s (handle_list_error st0 f internal) s.
Proof.
  intros Hs. assert (inv pol (owned (discard_pages st0)) s) as Hs0 by by eapply owned_same.
  clear Hs. unfold handle_list_error. generalize dependent (discard_pages st0). intros st Hs0.
  apply (s_remove_original (owned st)); [auto with writ|done|]. intros _ s1 Hs1.
  apply (s_remove_original (owned st)); [auto with writ|done|]. intros _ s2 Hs2.
  apply (s_read pol server_post (owned st)); [auto with writ|done|]. intros s3 Hs3.
  destruct (internal && _ && _ && _) eqn:Hinit.
  - cbn [negb]. rewrite andb_false_r. rewrite !andb_true_iff, Z.eqb_eq in Hinit.
    destruct Hinit as [[[-> Hint] Hclient%bool_decide_eq_true] Hzero].
    apply (s_give_up st (take_client_id (finish_verification st)).1); [|done..|].
    + destruct Hs3 as (g & Hg & Hl & HP). exists g. split_and!; [done..|]. right.
      rewrite <-Hzero. symmetry. apply HP.
    + intros s4 Hs4. apply (answer_held_safe (owned (take_client_id (finish_verification st)).1));
        [auto with writ|done|]. intros s5 Hs5. cbn. by rewrite Hclient.
  - cbn [negb]. rewrite andb_true_r. destruct (requires_abort_on_error st) eqn:Hab.
    { apply abort_listing_safe. by eapply inv_anything. }
    assert (internal_revalidation st = false) as Hint
      by (unfold requires_abort_on_error in Hab; by destruct (internal_revalidation st)).
    apply (s_give_up st (take_client_id st).1); [|done..|].
    { eapply inv_mono; [done|]. auto. }
    intros s4 Hs4. apply (answer_held_safe (owned (take_client_id st).1)); [auto with writ|done|].
    intros s5 Hs5. cbn [take_client_id].
    destruct (collecting_client_id st); [|destruct internal; [done|]];
      (apply (s_send_or_fail (owned (take_client_id st).1)); [auto with writ|done..]).
Qed.

Lemma record_extras_same st extras : same_owner st (record_result_extras st extras).1.
Proof.
  revert st. induction extras as [|[name raw] extras IH]; intros st; [done|].
  cbn [record_result_extras]. case_match; [done|]. exact (IH (set_extras st _ _)).
Qed.

Lemma charge_page_same st n page : same_owner st (charge_page st n page).1.
Proof.
  unfold charge_page. cbn [note_page_bytes]. destruct (MAX_LIST_PAGE_BYTES <? _); [done|].
  cbn [append_page]. destruct (MAX_PAGES <? _); [done|]. destruct (MAX_TOTAL_TOOLS <? _); [done|].
  exact (record_extras_same _ (pg_result_extras page)).
Qed.

Lemma bind_listing_safe st raw_id k s :
  inv pol (owned st) s →
  (∀ st1 s, inv pol (verifiable st1) s → safe_s (k st1) s) → safe_s (prog_bind (bind_listing st raw_id) k) s.
Proof.
  intros Hs Hk. unfold bind_listing, needs_client_binding.
  destruct (bool_decide (collecting_client_id st = None) && _) eqn:Hneeds.
  - assert (∀ st1 s, inv pol (λ b bk n, b = true ∧ owned st true bk n) s →
      st1 = st ∨ (∃ c o, st1 = bind_client st c o) → safe_s (k st1) s) as Hraised.
    { intros st1 s1 Hs1 Hst. apply Hk. eapply inv_mono; [done|]. intros b bk n [-> HP].
      split; [|by left]. destruct Hst as [->|(c & o & ->)]; [done|]. unfold owned in *. cbn. intuition. }
    destruct raw_id as [c|]; cbn [prog_bind].
    + destruct (ci_rpc c); cbn [prog_bind remove_original atom].
      * apply (s_inert pol server_post (owned st)); [auto with writ|done|done|]. intros o s1 Hs1.
        apply (s_raise pol server_post (owned st) (λ _, k (bind_client st c o))); [auto with writ|done|].
        intros _ s2 Hs2. apply Hraised; eauto.
      * apply (s_raise pol server_post (owned st) (λ _, k (bind_client st c None))); [auto with writ|done|].
        intros _ s2 Hs2. apply Hraised; eauto.
    + apply (s_raise pol server_post (owned st) (λ _, k st)); [auto with writ|done|].
      intros _ s2 Hs2. apply Hraised; eauto.
  - apply Hk. eapply inv_mono; [done|]. intros b bk n HP. split; [done|].
    unfold owned in HP. destruct b; [by left|]. right.
    apply andb_false_iff in Hneeds as [Hc%bool_decide_eq_false|Hi%negb_false_iff]; [intuition congruence|].
    destruct (pending_revalidate st), (decide (bk_generation bk = 0)); intuition congruence.
Qed.

Lemma handle_page_safe st f internal page s :
  inv pol (owned st) s → safe_s (handle_page iter pol st f internal page) s.
Proof.
  intros Hs. unfold handle_page.
  pose proof (charge_page_same st (len (fr_line f)) page) as Hsame.
  destruct (charge_page st _ page) as [st1 [|e]]; [|apply fail_listing_safe; by eapply inv_anything].
  apply bind_listing_safe; [by eapply owned_same|]. intros st2 s2 Hs2.
  destruct (next_page_cursor page) as [cursor|]; [|by apply verify_and_emit_safe].
  destruct (record_cursor st2 cursor) as [st3 [|e]] eqn:Hcur;
    [|apply fail_listing_safe; by eapply inv_anything].
  assert (inv pol (owned st3) s2) as Hs3.
  { unfold record_cursor in Hcur. case_bool_decide; simplify_eq. eapply owned_same; [done|].
    eapply inv_mono; [done|]. by intros b bk n []. }
  apply (s_atom (owned st3)); [auto with writ|done..|]. intros id s3 Hs4.
  eapply (send_internal_safe (owned st3) (owned st3)); [auto with writ|done|by apply accepts_same|].
  intros b bk n HP. done.
Qed.

Lemma handle_response_safe st f s :
  inv pol (owned st) s → safe_s (handle_tools_list_response iter pol st f) s.
Proof.
  intros Hs. unfold handle_tools_list_response.
  destruct (is_some_and (fr_parsed f) is_array); [apply fail_listing_safe; by eapply inv_anything|].
  assert (∀ k, (∀ r s, inv pol (owned st) s → safe_s (k r) s) →
    safe_s (prog_bind (tracked_listing f) k) s) as Htracked.
  { intros k Hk. unfold tracked_listing. destruct (fr_rpc_id f) as [[| |]|]; try (by apply Hk);
      destruct (fr_is_response f && _); apply (s_inert pol server_post (owned st));
      by auto with writ. }
  apply Htracked. intros found s1 Hs1.
  match goal with |- context [if ?b then ?m else None] => destruct (if b then m else None) as [reason|] end;
    [apply fail_listing_safe; by eapply inv_anything|].
  match goal with |- context [if negb ?b then _ else _] => destruct (negb b); [done|] end. unfold handle_listing_answer.
  destruct (fr_parsed f) as [frame|]; [|apply fail_listing_safe; by eapply inv_anything].
  destruct (check_duplicate_keys_recursively frame); [|apply fail_listing_safe; by eapply inv_anything].
  destruct (has_member frame "error"); [by apply handle_list_error_safe|].
  destruct (parse_tools_list_response_page frame); [by apply handle_page_safe|].
  apply fail_listing_safe. by eapply inv_anything.
Qed.

(** ** The rest of the loop *)

Lemma initial_listing_safe st s :
  inv pol (owned st) s → safe_s (initial_listing iter pol st) s.
Proof.
  intros Hs. apply (s_read pol server_post (owned st)); [auto with writ|done|]. intros s1 Hs1.
  destruct (list_verification_required pol && _ && _); [|done].
  apply (s_raise pol server_post (owned st)); [auto with writ|done|]. intros [|] s2 Hs2.
  - eapply inv_mono; [done|]. by intros b bk n [-> HP].
  - apply begin_revalidation_safe. eapply inv_mono; [done|]. intros b bk n [-> HP].
    unfold owned, startable in *. intuition.
Qed.

Lemma reject_internal_safe st reason s :
  inv pol (owned st) s → safe_s (reject_internal st reason) s.
Proof.
  intros Hs. apply (s_raise pol server_post (owned st)); [auto with writ|done|].
  intros _ s1 Hs1. apply abort_listing_safe. by eapply inv_anything.
Qed.

Lemma reject_listing_safe st id raw_id release reason s :
  inv pol (owned st) s → safe_s (reject_listing st id raw_id release reason) s.
Proof.
  intros Hs. apply (s_write (owned st)); [auto with writ|done..|]. intros s1 Hs1.
  assert (∀ k, (∀ st1 s, inv pol (owned st1) s → safe_s (k st1) s) →
    safe_s (prog_bind (if release then release_cancelled st (Some id) else Ret st) k) s1) as Hrel.
  { intros k Hk. destruct release; [by apply release_cancelled_safe|by apply Hk]. }
  apply Hrel. intros st1 s2 Hs2. cbn zeta.
  assert (inv pol (owned (discard_pages st1)) s2) as Hs3 by by eapply owned_same.
  set (client := default _ _). clearbody client. generalize dependent (discard_pages st1). intros st2 Hs3.
  apply (s_remove_original (owned st2)); [auto with writ|done|]. intros _ s3 Hs4.
  apply (s_remove_original (owned st2)); [auto with writ|done|]. intros _ s4 Hs5.
  destruct (requires_abort_on_error (take_client_id st2).1) eqn:Hab.
  - apply (s_raise pol server_post (owned st2)); [auto with writ|done|]. intros _ s5 Hs6.
    apply (s_send_or_fail anything); [done..|by eapply inv_anything|].
    intros s6 Hs7. by apply abort_listing_safe.
  - assert (internal_revalidation st2 = false) as Hint
      by (unfold requires_abort_on_error in Hab; cbn in Hab; by destruct (internal_revalidation st2)).
    apply (s_give_up st2 (take_client_id st2).1); [|done..|].
    { eapply inv_mono; [done|]. auto. }
    intros s5 Hs6. apply (s_send_or_fail (owned (take_client_id st2).1)); [auto with writ|done..].
Qed.

Lemma server_task_safe st ev s :
  inv pol (owned st) s → safe_s (server_task iter pol st ev) s.
Proof.
  intros Hs. destruct ev; cbn [server_task].
  - by apply handle_list_changed_safe.
  - by apply resume_safe.
  - by apply handle_response_safe.
  - by apply initial_listing_safe.
  - by apply reject_internal_safe.
  - by apply reject_listing_safe.
Qed.
End server.
