(* ===== verification/ListTheorems.v ===== *)
(** * ListTheorems: the listing pipeline refines the gate

    The refinement for the two loops side by side, what it says of every
    dispatched call, and the interleaving that leaves a listing of the client
    unanswered. *)

From S2P Require Import Prelude Text Json RpcId Protocol McpRules WireFrame Wire Structure.
From S2P Require Import ToolsList Interleave ProxyState ListPipeline ListClient ListLogic.
From S2P Require Import ListServer.

Open Scope Z_scope.

(** ** The client loop *)

(** The call was admitted under generation [n], which advertises the tool when
    the policy allows the call. *)
Definition admitted (n : Z) (tool : option string) (allowed : bool) : Psi := λ _ _ v,
  n ≠ 0 ∧ n ≤ vt_generation v
  ∧ (allowed = true → vt_generation v = n →
     is_some_and tool (λ name, bool_decide (name ∈ vt_names v)) = true).

Definition in_epoch (P : Psi) : Psi := λ e b v, e = true ∧ P e b v.
Definition gate_down (P : Psi) : Psi := λ e b v, e = true ∧ b = false ∧ P e b v.
Definition current (n : Z) (P : Psi) : Psi := λ e b v,
  e = true ∧ b = false ∧ vt_generation v = n ∧ n ≠ 0 ∧ P e b v.
Definition always : Psi := λ _ _ _, True.

Lemma always_cmono : cmono always.
Proof. done. Qed.
Lemma admitted_cmono n tool allowed : cmono (admitted n tool allowed).
Proof.
  intros e b v b' v' (Hn & Hle & Hadv) Hge Heq _. split_and!; [done|lia|].
  intros Ha Hv. assert (v' = v) as -> by (apply Heq; lia). auto.
Qed.
Lemma in_epoch_cmono P : cmono P → cmono (in_epoch P).
Proof. intros HP e b v b' v' [-> HQ] Hge Heq Hep. split; [done|]. by eapply HP. Qed.
Lemma gate_down_cmono P : cmono P → cmono (gate_down P).
Proof.
  intros HP e b v b' v' (-> & -> & HQ) Hge Heq Hep.
  split_and!; [done|by apply Hep|]. by eapply HP.
Qed.
Lemma current_cmono n P : cmono P → cmono (current n P).
Proof.
  intros HP e b v b' v' (-> & -> & Hv & Hn & HQ) Hge Heq Hep.
  destruct (Hep eq_refl eq_refl) as [-> Hsame]. rewrite Hsame by congruence.
  split_and!; [done..|]. eapply HP; [done|lia|done|done].
Qed.
#[export] Hint Resolve always_cmono admitted_cmono in_epoch_cmono gate_down_cmono current_cmono : writ.

Section client.
Context (iter : gmap WireKey TrackedRequest → list (WireKey * TrackedRequest)).
Context {V : Verifier} (pol : ListPolicy).

Definition client_post {A} (r : A) (s : Shared) : Prop := cinv pol always s.

Notation safe_c := (safe (Rely_c pol) (Rely_s pol) client_post).

Lemma cinv_always P s : cinv pol P s → cinv pol always s.
Proof. intros HP. by eapply cinv_mono. Qed.
Hint Resolve cinv_always : writ.

Lemma c_atom {A R} P (op : Shared → Shared * R) (k : R → Prog Shared A) s :
  cmono P → inert op → cinv pol P s → (∀ r s, cinv pol P s → safe_c (k r) s) →
  safe_c (prog_bind (atom op) k) s.
Proof. intros. by apply (c_inert pol client_post P). Qed.

Lemma c_write {A} P (f : Shared → Shared) (k : Prog Shared A) s :
  cmono P → inert (λ s, (f s, ())) → cinv pol P s → (∀ s, cinv pol P s → safe_c k s) →
  safe_c (prog_bind (write f) (λ _, k)) s.
Proof. intros. by apply (c_atom P (λ s, (f s, ()))). Qed.

Lemma c_remove_original {A} P id (k : option ListLine → Prog Shared A) s :
  cmono P → cinv pol P s → (∀ r s, cinv pol P s → safe_c (k r) s) →
  safe_c (prog_bind (remove_original id) k) s.
Proof. intros Hm Hs Hk. destruct id; [|by apply Hk]. by apply (c_atom P). Qed.

Lemma c_refuse s r : cinv pol always s → safe_c (refuse_request r) s.
Proof. intros Hs. apply (c_send pol client_post always); [done..|]. by intros [] s1 Hs1. Qed.

Lemma c_audited P (k : Prog Shared ClientFlow) s :
  cinv pol P s → (∀ s, cinv pol P s → safe_c k s) → safe_c (audited k) s.
Proof. intros Hs Hk [|]; [by apply Hk|by eapply cinv_always]. Qed.


(** An event that may be sent: at any time, or only under the current
    generation [n]. *)
Definition sendable (expected : option Z) (ev : ListEvent) (P : Psi) : Prop :=
  match expected with
  | Some n => ∀ s g, cinv pol (current n P) s → linked g s → gate_step pol g ev = Some g
  | None => ∀ g, gate_step pol g ev = Some g
  end.

Lemma dispatch_in_epoch_safe {A} n ev P (k : option bool → Prog Shared A) s :
  cmono P → (∀ e e' b v, P e b v → P e' b v) → n ≠ 0 → cinv pol P s → sendable (Some n) ev P →
  (∀ r s, cinv pol always s → safe_c (k r) s) →
  safe_c (prog_bind (dispatch_in_epoch n ev) k) s.
Proof.
  intros Hm Hep Hn Hs Hev Hk.
  assert (∀ Q r s, cmono Q → cinv pol Q s →
    safe_c (prog_bind (prog_bind unlock_epoch (λ _, Ret r)) k) s) as Hunlock.
  { intros Q r s1 HQ Hs1.
    apply (c_epoch pol client_post Q always (λ _, true) false (k r)); [done..|].
    intros s2 Hs2. by apply Hk. }
  unfold dispatch_in_epoch.
  apply (c_epoch pol client_post P (in_epoch P) _ true
    (prog_bind (read sh_busy) (λ busy, prog_bind (prog_bind
      (if (busy : bool) then Ret None
       else prog_bind (read (λ s, vt_generation (sh_verified s))) (λ generation,
              if negb (generation =? n) then Ret None else prog_bind (send ev) (λ ok, Ret (Some ok))))
      (λ res, prog_bind unlock_epoch (λ _, Ret res))) k))); [done..| |].
  { intros e b v HP. split; [done|]. by eapply Hep. }
  intros s1 Hs1. apply (safe_atom _ _ _ (cinv pol (in_epoch P))); [apply cinv_stable; auto with writ|done|].
  intros s2 Hs2 _. cbn [fst snd]. split; [reflexivity|].
  destruct (sh_busy s2) eqn:Hbusy; [by eapply (Hunlock (in_epoch P)); auto with writ|].
  assert (cinv pol (gate_down P) s2) as Hs3.
  { destruct Hs2 as [HL [He HP]]. split; [done|]. by split_and!. }
  apply (safe_atom _ _ _ (cinv pol (gate_down P))); [apply cinv_stable; auto with writ|done|].
  intros s3 Hs4 _. cbn [fst snd]. split; [reflexivity|].
  destruct (vt_generation (sh_verified s3) =? n) eqn:Hgen;
    [|by eapply (Hunlock (gate_down P)); auto with writ].
  apply Z.eqb_eq in Hgen.
  assert (cinv pol (current n P) s3) as Hs5.
  { destruct Hs4 as [HL (He & Hb & HP)]. split; [done|]. by split_and!. }
  apply (c_send pol client_post (current n P) ev
    (λ ok, prog_bind (prog_bind unlock_epoch (λ _, Ret (Some ok))) k)); [auto with writ|done|done|].
  intros ok s4 Hs6. eapply (Hunlock (current n P)); auto with writ.
Qed.

Lemma dispatch_safe {A} expected ev P (k : option bool → Prog Shared A) s :
  cmono P → (∀ e e' b v, P e b v → P e' b v) → expected ≠ Some 0 → cinv pol P s →
  sendable expected ev P → (∀ r s, cinv pol always s → safe_c (k r) s) →
  safe_c (prog_bind (dispatch expected ev) k) s.
Proof.
  intros Hm Hep Hn Hs Hev Hk. destruct expected as [n|]; cbn [dispatch].
  - apply (dispatch_in_epoch_safe n ev P); [done..|congruence|done|done|done].
  - apply (c_send pol client_post always ev (λ ok, k (Some ok))); [done|by eapply cinv_always|auto|].
    intros ok s1 Hs1. by apply Hk.
Qed.

Lemma register_inert (r : ClientRequest) method allowed :
  inert (λ s, match register iter (sh_wire s) C2S (cr_id r)
                 (from_extracted method (cr_version r) allowed (policy_dry_run pol)
                    (extract_request (cr_frame r) method)) with
              | Err _ => (s, None)
              | Ok w1 => let '(w2, undo) := on_request_forwarded w1 C2S (cr_id r) method (cr_version r)
                                              (extract_request (cr_frame r) method) in
                         (set_wire s w2, Some undo)
              end).
Proof. intros s. destruct register; [|done]. by destruct on_request_forwarded. Qed.

Lemma register_and_forward_safe r method allowed decided expected ev P s :
  cmono P → (∀ e e' b v, P e b v → P e' b v) → expected ≠ Some 0 → cinv pol P s →
  sendable expected ev P →
  safe_c (register_and_forward_impl iter pol r method allowed decided expected ev) s.
Proof.
  intros Hm Hep Hn Hs Hev. unfold register_and_forward_impl.
  apply (c_atom P); [done|apply register_inert|done|].
  assert (∀ (Q : Psi) k s, cinv pol Q s → (∀ s, cinv pol Q s → safe_c k s) →
    safe_c (if decided then audited k else k) s) as Hrecord.
  { intros Q k s1 Hs1 Hk. destruct decided; [by eapply c_audited|by apply Hk]. }
  intros [undo|] s1 Hs1.
  - apply (Hrecord P); [done|]. intros s2 Hs2. apply (c_audited P); [done|]. intros s3 Hs3.
    apply (dispatch_safe expected ev P); [done..|]. intros [[|]|] s4 Hs4; [done|..];
      (apply (c_write always); [done..|]; intros s5 Hs5); [done|by apply c_refuse].
  - apply (Hrecord P); [done|]. intros s2 Hs2. apply c_refuse. by eapply cinv_always.
Qed.

(** ** Calls *)

Lemma call_sendable r n allowed :
  sendable (Some n) (call_event r (Some n) allowed)
    (admitted n (extract_tool_name (cr_frame r)) allowed).
Proof.
  intros s g [_ (He & Hb & Hgen & Hn & (_ & _ & Hadv))] [Ho Hlg Hln Hls _]. cbn.
  rewrite Ho, Hb, Hlg, Hgen, Z.eqb_refl. cbn.
  rewrite bool_decide_eq_true_2 by (apply Hls; [by rewrite Ho, Hb|by rewrite Hlg, Hgen]).
  apply Z.eqb_neq in Hn as ->. cbn. rewrite Hln.
  destruct allowed; [|done]. cbn. by rewrite Hadv.
Qed.

Lemma forward_call_safe r n allowed s :
  n ≠ 0 → cinv pol (admitted n (extract_tool_name (cr_frame r)) allowed) s →
  safe_c (forward_call iter pol r (Some n) allowed) s.
Proof.
  intros Hn Hs. apply (register_and_forward_safe _ _ _ _ _ _ (admitted n (extract_tool_name (cr_frame r)) allowed));
    [auto with writ|done|congruence|done|apply call_sendable].
Qed.

Lemma forward_ungated_safe r allowed s :
  negb (list_verification_required pol) || (policy_dry_run pol && negb allowed) = true →
  cinv pol always s → safe_c (forward_call iter pol r None allowed) s.
Proof.
  intros Hok Hs. apply (register_and_forward_safe _ _ _ _ _ _ always); [done..|].
  intros g. cbn. by rewrite Hok.
Qed.

Lemma admit_call_safe r check expected s :
  match expected with
  | Some n => n ≠ 0 ∧ cinv pol (λ _ _ v, n ≤ vt_generation v) s
  | None => list_verification_required pol = false ∧ cinv pol always s
  end →
  safe_c (admit_call iter pol r check expected) s.
Proof.
  intros Hs. unfold admit_call. destruct expected as [n|].
  - destruct Hs as [Hn Hs]. pose (P := λ (_ _ : bool) v, n ≤ vt_generation v).
    assert (cmono P) as Hm by (intros ??????; unfold P in *; lia).
    apply (c_read pol client_post P); [done..|]. intros s1 Hs1.
    destruct (is_ok _); cbn [negb]; [|apply (c_audited P); [done|]; intros; apply c_refuse; by eapply cinv_always].
    destruct check.
    + apply (safe_atom _ _ _ (cinv pol P)); [by apply cinv_stable|done|].
      intros s2 Hs2 _. cbn [fst snd]. split; [reflexivity|].
      destruct (_ && _) eqn:Hadv; [|apply c_refuse; by eapply cinv_always].
      assert (cinv pol (admitted n (extract_tool_name (cr_frame r)) true) s2) as Hs3.
      { destruct Hs2 as [HL HP]. split; [done|]. apply andb_true_iff in Hadv as [_ Hadv]. by split_and!. }
      apply (c_audited (admitted n (extract_tool_name (cr_frame r)) true)); [done|].
      intros s3 Hs4. by apply forward_call_safe.
    + destruct (policy_dry_run pol && _);
        (apply (c_audited P); [done|]; intros s2 Hs2); [|apply c_refuse; by eapply cinv_always].
      apply forward_call_safe; [done|]. eapply cinv_mono; [done|]. intros e b v HP. by split_and!.
  - destruct Hs as [Hreq Hs]. apply (c_read pol client_post always); [done..|]. intros s1 Hs1.
    destruct (is_ok _); cbn [negb]; [|apply (c_audited always); [done|]; intros; by apply c_refuse].
    destruct check; [|destruct (policy_dry_run pol && _)];
      (apply (c_audited always); [done|]; intros s2 Hs2); try (by apply c_refuse);
      apply forward_ungated_safe; by rewrite ?Hreq.
Qed.

Lemma client_call_safe r check s : cinv pol always s → safe_c (client_call iter pol r check) s.
Proof.
  intros Hs. unfold client_call, check_gate. destruct (list_verification_required pol) eqn:Hreq.
  - apply (c_read pol client_post always); [done..|]. intros s1 Hs1.
    destruct (vt_generation (sh_verified s1) =? 0) eqn:Hz; [by apply c_refuse|].
    pose (P := λ (_ _ : bool) v, vt_generation (sh_verified s1) ≤ vt_generation v).
    assert (cinv pol P s1) as HP.
    { destruct Hs1 as [HL _]. split; [done|]. unfold P. lia. }
    apply (c_read pol client_post P); [intros ??????; unfold P in *; lia|done|]. intros s2 Hs2.
    destruct (sh_busy s2); [apply c_refuse; by eapply cinv_always|].
    apply admit_call_safe. split; [by apply Z.eqb_neq|done].
  - apply (c_read pol client_post always); [done..|]. intros s1 Hs1.
    destruct (sh_busy s1); [by apply c_refuse|]. by apply admit_call_safe.
Qed.

Lemma client_denied_call_safe r observable s :
  cinv pol always s → safe_c (client_denied_call iter pol r observable) s.
Proof.
  intros Hs. unfold client_denied_call. destruct (policy_dry_run pol) eqn:Hdry; cbn [andb];
    [destruct observable|]; (apply (c_audited always); [done|]; intros s1 Hs1); try (by apply c_refuse).
  apply forward_ungated_safe; [|done]. by rewrite Hdry, orb_true_r.
Qed.

(** ** Listings *)

Lemma c_insert_pending {A} id (k : bool → Prog Shared A) s :
  cinv pol always s → (∀ r s, cinv pol always s → safe_c (k r) s) →
  safe_c (prog_bind (insert_pending id) k) s.
Proof.
  intros Hs Hk. apply (c_atom always); [done| |done..].
  intros s1. by destruct (try_insert (sh_pending s1) id).
Qed.

Lemma c_retain {A} r (k : bool → Prog Shared A) s :
  cinv pol always s → (∀ r s, cinv pol always s → safe_c (k r) s) →
  safe_c (prog_bind (retain_original r) k) s.
Proof.
  intros Hs Hk. unfold retain_original, write, atom. cbn [prog_bind].
  apply (c_inert pol client_post always); [done..|]. intros _ s1 Hs1. cbn [prog_bind].
  apply (c_inert pol client_post always); [done| |done..]. intros s2. by case_match.
Qed.

Lemma c_hold {A} r (k : bool → Prog Shared A) s :
  cinv pol always s → (∀ r s, cinv pol always s → safe_c (k r) s) →
  safe_c (prog_bind (hold_client_list r) k) s.
Proof.
  intros Hs Hk. unfold hold_client_list, read, take_held, atom. cbn [prog_bind].
  apply (c_inert pol client_post always); [done| |done|]; [intros s1; by case_match|].
  intros [|] s1 Hs1; cbn [negb]; [|by apply Hk]. cbn [prog_bind].
  apply (c_inert pol client_post always); [done..|].
  intros [|] s2 Hs2; [by apply Hk|]. cbn [prog_bind].
  apply (c_inert pol client_post always); [done..|]. intros _ s3 Hs3. by apply Hk.
Qed.

Lemma arm_tools_list_safe r k s :
  cinv pol always s → (∀ s, cinv pol always s → safe_c k s) → safe_c (arm_tools_list r k) s.
Proof.
  intros Hs Hk. unfold arm_tools_list.
  assert (∀ s, cinv pol always s → safe_c (audited (refuse_request r)) s) as Hrefuse.
  { intros s1 Hs1. apply (c_audited always); [done|]. intros. by apply c_refuse. }
  assert (∀ s, cinv pol always s → safe_c (prog_bind (retain_original r)
    (λ retained : bool, if retained then k else audited (refuse_request r))) s) as Hfinish.
  { intros s1 Hs1. apply c_retain; [done|]. intros [|] s2 Hs2; [by apply Hk|by apply Hrefuse]. }
  apply c_insert_pending; [done|]. intros [|] s1 Hs1; cbn [negb]; [|by apply Hrefuse].
  apply (c_acquire pol client_post always); [done..|]. intros [|] s2 Hs2; [by apply Hfinish|].
  apply (c_write always); [done..|]. intros s3 Hs3. apply c_hold; [done|].
  intros [|] s4 Hs4; [done|]. apply c_insert_pending; [done|].
  assert (∀ b s, cinv pol always s → safe_c (if (b : bool) then prog_bind (retain_original r)
     (λ retained : bool, if retained then k else audited (refuse_request r))
     else (drop_pending (cr_id r);; audited (refuse_request r))%prog) s) as Hlast.
  { intros [|] s5 Hs5; [by apply Hfinish|]. apply (c_write always); [done..|]. by apply Hrefuse. }
  intros [|] s5 Hs5; [|by apply (Hlast false)].
  apply (c_acquire pol client_post always); [done..|]. apply Hlast.
Qed.

Lemma client_list_safe r s : cinv pol always s → safe_c (client_list iter pol r) s.
Proof.
  intros Hs. apply arm_tools_list_safe; [done|]. intros s1 Hs1.
  apply (safe_bind _ _ client_post).
  - by apply (register_and_forward_safe _ _ _ _ _ _ always).
  - assert (∀ (res : ClientFlow) s, cinv pol always s →
      safe_c (prog_bind (unwind_tools_list (cr_id r)) (λ _, Ret res)) s) as Hunwind.
    { intros res s2 Hs2. unfold unwind_tools_list, drop_pending, remove_original, write, atom. cbn [prog_bind].
      apply (c_inert pol client_post always); [done..|]. intros _ s3 Hs3.
      by apply (c_inert pol client_post always). }
    intros [] s2 Hs2; [done|by apply Hunwind..].
Qed.

Lemma client_cancel_safe id s : cinv pol always s → safe_c (client_cancel_list id) s.
Proof.
  intros Hs. apply (c_write always); [done..|]. intros s1 Hs1.
  apply (c_remove_original always); [done..|]. intros _ s2 Hs2. by apply (c_write always).
Qed.

Lemma client_task_safe ev s : cinv pol always s → safe_c (client_task iter pol ev) s.
Proof.
  intros Hs. destruct ev; cbn [client_task].
  - by apply client_call_safe.
  - by apply client_denied_call_safe.
  - by apply client_list_safe.
  - by apply client_cancel_safe.
Qed.
End client.

(** ** The two loops together *)

Section together.
Context (iter : gmap WireKey TrackedRequest → list (WireKey * TrackedRequest)).
Context {V : Verifier} (pol : ListPolicy).

Definition system_ok (sy : System) : Prop :=
  Linked pol (sy_shared sy)
  ∧ safe (Rely_s pol) (Rely_c pol) (server_post pol) (sy_server sy) (sy_shared sy)
  ∧ safe (Rely_c pol) (Rely_s pol) (client_post pol) (sy_client sy) (sy_shared sy).

Lemma server_post_stable r : stable (Rely_s pol) (server_post pol r).
Proof. destruct r; [apply inv_stable, owned_mono..|done]. Qed.

Lemma Linked_rely_s s s' : Rely_s pol s s' → Linked pol s → Linked pol s'.
Proof. intros Hr Hs. by eapply inv_stable. Qed.

#[local] Instance Rely_s_refl : Reflexive (Rely_s pol).
Proof. apply Rely_s_preorder. Qed.
#[local] Instance Rely_c_refl : Reflexive (Rely_c pol).
Proof. apply Rely_c_preorder. Qed.

Lemma system_step_ok sy t : system_ok sy → system_ok (system_step iter pol sy t).
Proof.
  intros (HL & Hsrv & Hcli). destruct t as [ev|answer|ev|answer]; cbn [system_step].
  - destruct (sy_server sy) as [[st|st|]| |] eqn:E;
      try (by split_and!; rewrite ?E); (split_and!; [done| |done]; apply server_task_safe; exact Hsrv).
  - destruct (prog_step (sy_server sy) answer (sy_shared sy)) as [[s p]|] eqn:E; [|done].
    apply (safe_prog_step (Rely_s pol) (Rely_c pol) (server_post pol)) in E as [HG Hp]; [|exact Hsrv|apply _].
    split_and!; [by apply HG|done|]. eapply safe_stable; [apply _| |exact HG|done].
    intros r. apply cinv_stable, always_cmono.
  - destruct (sy_client sy) as [[]| |] eqn:E; try (by split_and!; rewrite ?E);
      (split_and!; [done|done|]; apply client_task_safe; by split).
  - destruct (prog_step (sy_client sy) answer (sy_shared sy)) as [[s p]|] eqn:E; [|done].
    apply (safe_prog_step (Rely_c pol) (Rely_s pol) (client_post pol)) in E as [HG Hp]; [|exact Hcli|apply _].
    split_and!; [by eapply Linked_rely_s| |done]. eapply safe_stable; [apply _|apply server_post_stable|done..].
Qed.

Lemma system_new_ok : system_ok system_new.
Proof.
  assert (∀ P : Phi, P false (g_book gate_new) 0 → inv pol P shared_new) as Hnew.
  { intros P HP. exists gate_new. split_and!; [done|by split|done]. }
  split_and!; [by apply Hnew|by apply Hnew|split; [by apply Hnew|done]].
Qed.

Lemma system_run_ok turns : system_ok (system_run iter pol turns).
Proof.
  unfold system_run. generalize system_new_ok. generalize system_new.
  induction turns as [|t turns IH]; intros sy Hsy; [done|]. cbn. by apply IH, system_step_ok.
Qed.

(** [C3] Whatever the interleaving of the two relay loops and whatever the
    server, the client and the environment answer, the events of the session
    are a run of the abstract gate. A tool call that was admitted under a
    generation crosses only while the gate is open, under that generation, with
    no change notification outstanding and, when the policy allows the call,
    for a tool the generation advertises; a call admitted without a generation
    crosses, the gate open or not, only where the policy requires no
    verification of listings or where a dry run observes a call it does not
    allow. A listing is published only after its record was written and with no
    verdict against it; the client receives only the published listing. *)
Theorem session_respects_gate turns :
  is_Some (gate_run pol (sh_trace (sy_shared (system_run iter pol turns)))).
Proof.
  destruct (system_run_ok turns) as [(g & Hg & _) _]. by exists g.
Qed.
End together.

Section traces.
Context {V : Verifier} (pol : ListPolicy).

(** No listing published, no change announced. *)
Definition unpublished (evs : list ListEvent) : Prop := Forall (λ ev, ∀ tools, ev ≠ Published tools) evs.
Definition unchanged (evs : list ListEvent) : Prop := Forall (λ ev, ev ≠ ListChanged) evs.

(** The last publication, and what the gate remembers of it. *)
Definition last_publication (t : list ListEvent) (bk : Book) : Prop :=
  ∃ before tools after,
    t = before ++ Published tools :: after ∧ unpublished after
    ∧ listing_verdict pol tools = None ∧ bk_names bk = td_name <$> emit_tools pol tools
    ∧ (bk_change bk = Settled → unchanged after).

Lemma gate_run_snoc t ev : gate_run pol (t ++ [ev]) = gate_run pol t ≫= λ g, gate_step pol g ev.
Proof. unfold gate_run. by rewrite foldl_app. Qed.

(** An event other than a publication keeps the listing, and settles no change. *)
Lemma gate_step_keeps g ev g' :
  gate_step pol g ev = Some g' → (∀ tools, ev ≠ Published tools) →
  bk_generation (g_book g') = bk_generation (g_book g) ∧ bk_names (g_book g') = bk_names (g_book g)
  ∧ (bk_change (g_book g') = Settled → bk_change (g_book g) = Settled ∧ ev ≠ ListChanged).
Proof.
  intros Hstep Hev.
  destruct ev; try (by destruct (Hev tools)); cbn in Hstep; repeat case_match; simplify_eq/=;
    try case_bool_decide; split_and!; try done; intros; split; congruence.
Qed.

Lemma last_publication_step t g ev g' :
  gate_step pol g ev = Some g' → (∀ tools, ev ≠ Published tools) →
  last_publication t (g_book g) → last_publication (t ++ [ev]) (g_book g').
Proof.
  intros Hstep Hev (before & tools & after & -> & Hu & Hver & Hn & Hc).
  destruct (gate_step_keeps _ _ _ Hstep Hev) as (_ & Hnames & Hset).
  exists before, tools, (after ++ [ev]). split_and!; [by rewrite <-app_assoc| |done|congruence|].
  - apply Forall_app. auto.
  - intros Hs. destruct (Hset Hs). apply Forall_app. split; [by apply Hc|auto].
Qed.

Lemma gate_last_published t g :
  gate_run pol t = Some g → bk_generation (g_book g) ≠ 0 → last_publication t (g_book g).
Proof.
  revert g. induction t as [|ev t IH] using rev_ind; intros g Hrun Hne.
  { unfold gate_run in Hrun. simplify_eq/=. }
  rewrite gate_run_snoc in Hrun. destruct (gate_run pol t) as [g0|] eqn:E; [|done]. cbn in Hrun.
  assert ((∃ tools, ev = Published tools) ∨ ∀ tools, ev ≠ Published tools) as [[tools ->]|Hev]
    by (destruct ev; (by right) || eauto).
  - cbn in Hrun. destruct (bk_recorded _ && _ && _) eqn:Hok; simplify_eq/=.
    exists t, tools, []. apply andb_true_iff in Hok as [[_ Hver]%andb_true_iff _].
    apply bool_decide_eq_true in Hver.
    split_and!; [done|by apply Forall_nil|done..|intros _; by apply Forall_nil].
  - eapply last_publication_step; [done..|]. apply IH; [done|].
    by destruct (gate_step_keeps _ _ _ Hrun Hev) as (<- & _).
Qed.

Lemma gate_run_prefix t1 t2 : is_Some (gate_run pol (t1 ++ t2)) → is_Some (gate_run pol t1).
Proof.
  induction t2 as [|ev t2 IH] using rev_ind; [by rewrite app_nil_r|].
  rewrite app_assoc, gate_run_snoc. intros [g Hg]. apply IH.
  by destruct (gate_run pol (t1 ++ t2)).
Qed.

Lemma dispatch_accepted t expected tool g :
  list_verification_required pol = true → gate_run pol t = Some g →
  is_Some (gate_step pol g (Dispatched expected tool true)) →
  ∃ name, tool = Some name ∧ name ∈ bk_names (g_book g)
    ∧ bk_generation (g_book g) ≠ 0 ∧ bk_change (g_book g) = Settled.
Proof.
  intros Hreq Hrun [g' Hstep]. cbn in Hstep. unfold may_dispatch in Hstep. rewrite Hreq in Hstep.
  destruct expected as [n|]; [|by rewrite andb_false_r in Hstep].
  destruct (_ && _) eqn:Hok; [|done]. rewrite !andb_true_iff in Hok.
  destruct Hok as [[[[_ Hgen%Z.eqb_eq] Hn%negb_true_iff%Z.eqb_neq] Hc%bool_decide_eq_true] Hadv].
  destruct tool as [name|]; [|done]. apply bool_decide_eq_true in Hadv. exists name. split_and!; [done..|lia|done].
Qed.
End traces.

Lemma dispatch_published iter {V : Verifier} pol turns pre post expected tool :
  list_verification_required pol = true →
  sh_trace (sy_shared (system_run iter pol turns)) = pre ++ Dispatched expected tool true :: post →
  ∃ name tools before after,
    tool = Some name ∧ pre = before ++ Published tools :: after
    ∧ listing_verdict pol tools = None ∧ name ∈ td_name <$> emit_tools pol tools
    ∧ unpublished after ∧ unchanged after.
Proof.
  intros Hreq Htrace.
  destruct (system_run_ok iter pol turns) as [(g1 & Hg1 & _) _]. unfold gate_of in Hg1. rewrite Htrace in Hg1.
  assert (is_Some (gate_run pol (pre ++ [Dispatched expected tool true]))) as Hpre.
  { apply (gate_run_prefix pol _ post). rewrite <-app_assoc. by exists g1. }
  rewrite gate_run_snoc in Hpre. destruct (gate_run pol pre) as [g|] eqn:E; [|by destruct Hpre].
  destruct (dispatch_accepted pol pre expected tool g Hreq E Hpre) as (name & -> & Hin & Hne & Hset).
  destruct (gate_last_published pol pre g E Hne) as (before & tools & after & -> & Hu & Hver & Hn & Hc).
  exists name, tools, before, after. rewrite <-Hn. split_and!; [done..|by apply Hc].
Qed.

(** [C4] Where verification is enforced, behind every allowed call that crosses
    to the server, under any interleaving of the two loops, stands a published
    listing that passed the scan, the pins and the hash and advertises the tool
    to this client, and since that publication neither a newer listing was
    published nor a change of the tools announced. *)
Theorem dispatched_tool_was_verified iter {V : Verifier} pol turns pre post expected tool :
  list_verification_required pol = true →
  sh_trace (sy_shared (system_run iter pol turns)) = pre ++ Dispatched expected tool true :: post →
  ∃ name tools before after,
    tool = Some name ∧ pre = before ++ Published tools :: after
    ∧ listing_verdict pol tools = None ∧ name ∈ td_name <$> emit_tools pol tools
    ∧ unpublished after ∧ unchanged after.
Proof. apply dispatch_published. Qed.

(** ** Concrete sessions *)

Module ListingDemo.

#[export] Instance demo_verifier : Verifier :=
  {| scan_blocks := λ _, false; diff_blocks := λ _ _, false; hash_tools_list := λ _, Some "digest" |}.
Definition listing_policy : ListPolicy := mkListPolicy [] [("read", true); ("remove", false)] false false.

Definition str (s : string) : Json := JString s s.
Definition tool_json (name : string) : Json := JObject name [("name", str name)].
Definition answer_json (id : Json) (tools : list Json) : Json :=
  JObject "answer" [("id", id); ("result", JObject "result" [("tools", JArray "tools" tools)])].
Definition error_json (id : Json) : Json := JObject "error" [("id", id); ("error", JObject "e" [])].

Definition internal_frame (n : Z) (frame : Json) : S2cFrame :=
  mkFrame "line" (Some frame) (Some (internal n)) (Some (internal_id_str n)) false true None.
Definition client_frame (id : string) (frame : Json) : S2cFrame :=
  mkFrame "line" (Some frame) (Some (RNumber id)) (Some id) false true None.

Definition request (id method : string) (params : list (string * Json)) : ClientRequest :=
  mkRequest "line" (JObject "request" [("id", JInteger id); ("method", str method); ("params", JObject "p" params)])
    (RNumber id) id V25.

Definition server_runs (n : nat) : list Turn := replicate n (ServerRuns true).
Definition client_runs (n : nat) : list Turn := replicate n (ClientRuns true).

Definition events (turns : list Turn) : list ListEvent :=
  sh_trace (sy_shared (system_run map_to_list listing_policy turns)).

(** The probe after [initialize], its answer, and a call of an advertised tool. *)
Definition probed : list Turn :=
  [ServerTakes OnInitialized] ++ server_runs 8
  ++ [ServerTakes (OnListAnswer (internal_frame 910001
        (answer_json (str (internal_id_str 910001)) [tool_json "read"; tool_json "remove"])))]
  ++ server_runs 14
  ++ [ClientTakes (OnCall (request "1" "tools/call" [("name", str "read")]) true)] ++ client_runs 16.

(** The same, with a change announced after the call was admitted. *)
Definition overtaken : list Turn :=
  [ServerTakes OnInitialized] ++ server_runs 8
  ++ [ServerTakes (OnListAnswer (internal_frame 910001
        (answer_json (str (internal_id_str 910001)) [tool_json "read"; tool_json "remove"])))]
  ++ server_runs 14
  ++ [ClientTakes (OnCall (request "1" "tools/call" [("name", str "read")]) true)] ++ client_runs 6
  ++ [ServerTakes (OnListChanged "changed")] ++ server_runs 6 ++ client_runs 10.

(** The probe fails after a change was queued; a client listing is held while
    the failure is handled, so that a wake-up is pending when the gate drops;
    the queued revalidation then starts under an open gate, and the next
    client listing is absorbed by it. *)
Definition race : list Turn :=
  [ServerTakes OnInitialized] ++ server_runs 8 ++ [ServerTakes (OnListChanged "changed")] ++ server_runs 2
  ++ [ServerTakes (OnListAnswer (internal_frame 910001 (error_json (str (internal_id_str 910001)))))]
  ++ server_runs 3
  ++ [ClientTakes (OnList (request "2" "tools/list" []))] ++ client_runs 5
  ++ server_runs 4 ++ [ServerTakes OnKick] ++ server_runs 8
  ++ [ClientTakes (OnList (request "3" "tools/list" []))] ++ client_runs 10
  ++ [ServerTakes (OnListAnswer (client_frame "3" (answer_json (JInteger "3") [tool_json "read"])))]
  ++ server_runs 12.
End ListingDemo.
Import ListingDemo.

Example probed_dispatches : ∃ tools, events probed =
  [GateClosed; Revalidate (mkListRequest 910001 None None); Recorded false; Published tools; GateOpened;
   Dispatched (Some 1) (Some "read") true].
Proof. eexists. vm_compute. reflexivity. Qed.

Example overtaken_call_is_refused : ∃ tools, events overtaken =
  [GateClosed; Revalidate (mkListRequest 910001 None None); Recorded false; Published tools; GateOpened;
   GateClosed; ListChanged; Revalidate (mkListRequest 910002 None None); Refused "1"].
Proof. eexists. vm_compute. reflexivity. Qed.

Lemma absorbed_listing_is_unanswered : ∃ tools, events race =
  [GateClosed; Revalidate (mkListRequest 910001 None None); GateClosed; ListChanged; GateOpened;
   ListError "2"; Revalidate (mkListRequest 910002 None None); GateClosed; ListForwarded (RNumber "3");
   Recorded false; Published tools; GateOpened; Notified "changed"].
Proof. eexists. vm_compute. reflexivity. Qed.

Lemma dispatched_tool_was_verified_witness :
  ∃ name tools before after,
    Some "read" = Some name ∧ take 5 (events probed) = before ++ Published tools :: after
    ∧ listing_verdict listing_policy tools = None ∧ name ∈ td_name <$> emit_tools listing_policy tools
    ∧ unpublished after ∧ unchanged after.
Proof.
  apply (dispatched_tool_was_verified map_to_list listing_policy probed (take 5 (events probed)) [] (Some 1) (Some "read"));
    [reflexivity|vm_compute; reflexivity].
Defined.
