(* ===== verification/ListBudgets.v ===== *)
(** * ListBudgets: what a listing may hold

    The collection of the server loop stays within its page, tool, byte,
    metadata and cursor budgets, and the bookkeeping of client listings within
    its own, under every interleaving. *)

From S2P Require Import Prelude Text Json RpcId Session Protocol McpRules WireFrame Wire Structure ToolsList Interleave ProxyState ListPipeline ListClient.

Open Scope Z_scope.

(** ** The collection *)

Record within (st : S2cListState) : Prop := mkWithin {
  wi_pages : 0 ≤ page_count st ≤ MAX_PAGES;
  wi_tools : Z.of_nat (length (accumulated_tools st)) ≤ MAX_TOTAL_TOOLS;
  wi_bytes : 0 ≤ page_bytes st ≤ MAX_LIST_PAGE_BYTES;
  wi_extras : Z.of_nat (length (result_extras st)) ≤ MAX_RESULT_EXTRAS;
  wi_names : NoDup (result_extras st).*1;
  wi_ledger : extras_bytes st = extras_sum (result_extras st);
  wi_extra_bytes : extras_bytes st ≤ MAX_RESULT_EXTRA_BYTES;
  wi_cursors : Z.of_nat (size (seen_cursors st)) ≤ page_count st;
}.

Lemma extra_bytes_nonneg e : 0 ≤ extra_bytes e.
Proof. unfold extra_bytes, len. lia. Qed.

Lemma extras_sum_nonneg es : 0 ≤ extras_sum es.
Proof.
  unfold extras_sum. induction es as [|e es IH]; cbn; [done|]. pose proof (extra_bytes_nonneg e). lia.
Qed.

Lemma extras_sum_app es1 es2 : extras_sum (es1 ++ es2) = extras_sum es1 + extras_sum es2.
Proof. unfold extras_sum. induction es1 as [|e es1 IH]; cbn; [done|]. lia. Qed.

Lemma extras_sum_split name es :
  extras_sum es = extras_sum (filter (λ e, e.1 = name) es) + extras_sum (filter (λ e, e.1 ≠ name) es).
Proof.
  induction es as [|e es IH]; [done|]. rewrite !filter_cons. unfold extras_sum in *.
  destruct (decide (e.1 = name)), (decide (e.1 ≠ name)); cbn; try done; lia.
Qed.

Lemma list_new_within : within list_new.
Proof. split; cbn; try done; try lia. apply NoDup_nil_2. Qed.

Lemma discard_within st : within (discard_pages st).
Proof. split; cbn; try done; try lia. apply NoDup_nil_2. Qed.

(** Operations that do not touch the page buffer. *)
Definition same_pages (st st' : S2cListState) : Prop :=
  accumulated_tools st' = accumulated_tools st ∧ result_extras st' = result_extras st
  ∧ seen_cursors st' = seen_cursors st ∧ page_count st' = page_count st
  ∧ extras_bytes st' = extras_bytes st ∧ page_bytes st' = page_bytes st.

Lemma same_pages_within st st' : same_pages st st' → within st → within st'.
Proof. intros (H1 & H2 & H3 & H4 & H5 & H6) []. split; rewrite ?H1, ?H2, ?H3, ?H4, ?H5, ?H6; done. Qed.

Lemma saturating_add_le a b m : m < USIZE_MAX → (m <? saturating_add a b) = false → a + b ≤ m.
Proof. unfold saturating_add. intros Hm Hle%Z.ltb_ge. lia. Qed.

(** One member recorded: the entry of that name is replaced. *)
Lemma put_extra_within st name raw :
  within st →
  let kept := filter (λ e, e.1 ≠ name) (result_extras st) in
  Z.of_nat (length kept) < MAX_RESULT_EXTRAS →
  extras_sum kept + (len name + len raw) ≤ MAX_RESULT_EXTRA_BYTES →
  within (set_extras st (kept ++ [(name, raw)]) (extras_sum kept + (len name + len raw))).
Proof.
  intros [? ? ? ? Hnd ? ? ?] kept Hroom Hbytes. split; cbn; try done.
  - rewrite length_app. cbn. lia.
  - rewrite fmap_app. cbn. apply NoDup_app. split_and!.
    + eapply sublist_NoDup; [exact Hnd|]. apply fmap_sublist, sublist_filter.
    + intros x [e [-> He]]%list_elem_of_fmap Hx%list_elem_of_singleton.
      by apply list_elem_of_filter in He as [He _].
    + apply NoDup_singleton.
  - rewrite extras_sum_app. cbn. unfold extra_bytes. cbn. lia.
Qed.

Lemma kept_bytes st name :
  within st →
  saturating_sub (extras_bytes st) (extras_sum (filter (λ e, e.1 = name) (result_extras st)))
  = extras_sum (filter (λ e, e.1 ≠ name) (result_extras st)).
Proof.
  intros [? ? ? ? ? -> ? ?]. rewrite (extras_sum_split name (result_extras st)).
  pose proof (extras_sum_nonneg (filter (λ e, e.1 ≠ name) (result_extras st))). unfold saturating_sub. lia.
Qed.

Lemma record_extras_within extras st st' :
  within st → record_result_extras st extras = (st', Ok ()) →
  within st' ∧ page_count st' = page_count st ∧ seen_cursors st' = seen_cursors st.
Proof.
  revert st. induction extras as [|[name raw] extras IH]; intros st Hw Hrec; [by simplify_eq/=|].
  cbn [record_result_extras] in Hrec. rewrite kept_bytes in Hrec by done.
  destruct (_ || _) eqn:Hover; [done|]. apply orb_false_iff in Hover as [Hb Hn%Z.leb_gt].
  apply saturating_add_le in Hb; [|done].
  apply IH in Hrec; [exact Hrec|]. by apply put_extra_within.
Qed.

Lemma note_bytes_within st n st' :
  within st → 0 ≤ n → note_page_bytes st n = (st', Ok ()) →
  within st' ∧ page_count st' = page_count st ∧ seen_cursors st' = seen_cursors st.
Proof.
  intros [? ? [Hlo ?] ? ? ? ? ?] Hn. unfold note_page_bytes.
  destruct (_ <? _) eqn:Hb; intros Hst; simplify_eq. apply Z.ltb_ge in Hb.
  assert (0 ≤ saturating_add (page_bytes st) n) by (unfold saturating_add, USIZE_MAX; lia).
  split_and!; [split; try done|done|done].
Qed.

Lemma append_page_within st tools st' :
  within st → append_page st tools = (st', Ok ()) →
  within st' ∧ page_count st' = page_count st + 1 ∧ seen_cursors st' = seen_cursors st.
Proof.
  intros [[Hlo ?] ? ? ? ? ? ? Hcur]. unfold append_page.
  destruct (MAX_PAGES <? _) eqn:Hp; [done|]. destruct (MAX_TOTAL_TOOLS <? _) eqn:Ht; intros Hst; simplify_eq.
  apply Z.ltb_ge in Hp, Ht. assert (0 ≤ page_count st + 1) by lia.
  assert (Z.of_nat (size (seen_cursors st)) ≤ page_count st + 1) by lia.
  split_and!; [split; try done|done|done].
Qed.

Lemma charge_page_within st n page st' :
  within st → 0 ≤ n → charge_page st n page = (st', Ok ()) →
  within st' ∧ page_count st' = page_count st + 1 ∧ seen_cursors st' = seen_cursors st.
Proof.
  intros Hw Hn. unfold charge_page.
  destruct (note_page_bytes st n) as [st1 [[]|]] eqn:E1; [|done].
  destruct (append_page st1 _) as [st2 [[]|]] eqn:E2; [|done]. intros E3.
  apply note_bytes_within in E1 as (Hw1 & Hp1 & Hc1); [|done..].
  apply append_page_within in E2 as (Hw2 & Hp2 & Hc2); [|done].
  apply record_extras_within in E3 as (Hw3 & Hp3 & Hc3); [|done]. split_and!; [done|congruence..].
Qed.

Lemma record_cursor_within st cursor st' :
  within st → Z.of_nat (size (seen_cursors st)) < page_count st →
  record_cursor st cursor = (st', Ok ()) → within st'.
Proof.
  intros [] Hroom. unfold record_cursor. case_bool_decide as Hin; [done|]. intros ?; simplify_eq.
  split; cbn; try done. rewrite size_union, size_singleton by set_solver. lia.
Qed.

(** ** The bookkeeping of client listings *)

Definition book_ok (s : Shared) : Prop :=
  (length (sh_pending s) ≤ MAX_PENDING_TOOLS_LIST)%nat ∧ NoDup (sh_pending s)
  ∧ originals_bytes (sh_originals s) ≤ MAX_ORIGINAL_TOOLS_LIST_BYTES.

Lemma remove_first_sublist ids id : remove_first ids id `sublist_of` ids.
Proof.
  induction ids as [|x ids IH]; cbn; [done|]. case_decide; [by apply sublist_cons|by apply sublist_skip].
Qed.

Lemma remove_pending_ok s id : book_ok s → book_ok (set_pending s (remove_pending (sh_pending s) id).1).
Proof.
  intros (Hlen & Hnd & Hb). pose proof (remove_first_sublist (sh_pending s) id) as Hsub.
  split_and!; cbn; [|by eapply sublist_NoDup|done]. apply sublist_length in Hsub. lia.
Qed.

Lemma try_insert_ok s id : book_ok s → book_ok (set_pending s (try_insert (sh_pending s) id).1).
Proof.
  intros (Hlen & Hnd & Hb). unfold try_insert. case_bool_decide; [done|]. case_bool_decide as Hin; [done|].
  destruct (_ <=? _)%nat eqn:Hcap; [done|]. split_and!; cbn; [|apply NoDup_app; split_and!|done].
  - rewrite length_app. cbn. apply Nat.leb_gt in Hcap. unfold MAX_PENDING_TOOLS_LIST in *. lia.
  - done.
  - intros x Hx ->%list_elem_of_singleton. done.
  - apply NoDup_singleton.
Qed.

Lemma originals_bytes_insert m id l :
  m !! id = None → originals_bytes (<[id := l]> m) = len (ll_text l) + originals_bytes m.
Proof.
  intros Hid. unfold originals_bytes. rewrite map_fold_insert_L; [done| |done]. intros. lia.
Qed.

Lemma originals_bytes_delete m id : originals_bytes (delete id m) ≤ originals_bytes m.
Proof.
  destruct (m !! id) as [l|] eqn:E; [|by rewrite delete_id].
  rewrite <-(insert_delete_id m id l E) at 2.
  rewrite originals_bytes_insert by apply lookup_delete_eq. unfold len. lia.
Qed.

Lemma originals_bytes_overwrite m id l :
  originals_bytes (<[id := l]> m) ≤ len (ll_text l) + originals_bytes m.
Proof.
  rewrite <-insert_delete_eq, originals_bytes_insert by apply lookup_delete_eq.
  pose proof (originals_bytes_delete m id). lia.
Qed.

Lemma delete_original_ok s id : book_ok s → book_ok (set_originals s (delete id (sh_originals s))).
Proof.
  intros (Hlen & Hnd & Hb). split_and!; [done..|]. cbn.
  pose proof (originals_bytes_delete (sh_originals s) id). lia.
Qed.

(** ** Every access keeps the bookkeeping *)

Create HintDb keepdb.

Notation keeps_book := (keeps book_ok).

(** Most accesses do not touch the bookkeeping at all. *)
Lemma keeps_inert {R} (op : Shared → Shared * R) :
  (∀ s, sh_pending (op s).1 = sh_pending s ∧ sh_originals (op s).1 = sh_originals s) →
  keeps_book (λ _, True) (atom op).
Proof. intros Hop s Hs. split; [|done]. destruct (Hop s) as [Hp Ho]. unfold book_ok. by rewrite Hp, Ho. Qed.

Lemma keeps_read {R} (f : Shared → R) : keeps_book (λ _, True) (read f).
Proof. by apply keeps_inert. Qed.
Lemma keeps_ask : keeps_book (λ _, True) ask.
Proof. done. Qed.
Lemma keeps_emit ev : keeps_book (λ _, True) (emit ev).
Proof. by apply keeps_inert. Qed.
Lemma keeps_send ev : keeps_book (λ _, True) (send ev).
Proof. intros s Hs. by split; [|intros b]. Qed.
Lemma keeps_raise : keeps_book (λ _, True) raise_list_gate.
Proof. intros s Hs. by split. Qed.
Lemma keeps_acquire : keeps_book (λ _, True) acquire_gate.
Proof. apply keeps_inert. intros s. by case_match. Qed.
Lemma keeps_take_held : keeps_book (λ _, True) take_held.
Proof. by apply keeps_inert. Qed.
Lemma keeps_remove_original id : keeps_book (λ _, True) (remove_original id).
Proof. destruct id; [|done]. intros s Hs. split; [by apply delete_original_ok|done]. Qed.
Lemma keeps_busy b : keeps_book (λ _, True) (write (λ s, set_busy s b)).
Proof. by apply keeps_inert. Qed.
Lemma keeps_generation n : keeps_book (λ _, True) (write (λ s, set_generation s n)).
Proof. by apply keeps_inert. Qed.
Lemma keeps_failure reason b : keeps_book (λ _, True) (write (λ s, set_failure s reason b)).
Proof. by apply keeps_inert. Qed.
Lemma keeps_abort : keeps_book (λ _, True) (write send_abort).
Proof. by apply keeps_inert. Qed.
Lemma keeps_fetch : keeps_book (λ _, True) fetch_internal_id.
Proof. by apply keeps_inert. Qed.
Lemma keeps_remove_pending id :
  keeps_book (λ _, True) (write (λ s, set_pending s (remove_pending (sh_pending s) id).1)).
Proof. intros s Hs. split; [by apply remove_pending_ok|done]. Qed.
#[export] Hint Resolve keeps_read keeps_ask keeps_emit keeps_send keeps_raise keeps_acquire keeps_take_held
  keeps_remove_original keeps_busy keeps_generation keeps_failure keeps_abort keeps_fetch
  keeps_remove_pending : keepdb.

(** The next access, whose value does not matter. *)
Ltac keeps_next :=
  apply (keeps_bind _ (λ _, True)); [solve [auto with keepdb]|intros ? _].

Section budgets.
Context (iter : gmap WireKey TrackedRequest → list (WireKey * TrackedRequest)).
Context {V : Verifier} (pol : ListPolicy).

Definition fits (r : ListFlow) : Prop :=
  match r with
  | Handled st | ForwardRaw st => within st
  | Failed => True
  end.

Notation keeps_fit := (keeps book_ok fits).

Lemma fit_handled st : within st → keeps_fit (Ret (Handled st)).
Proof. done. Qed.
Lemma fit_send ev k : keeps_fit k → keeps_fit (send_or_fail ev k).
Proof. intros Hk. unfold send_or_fail. keeps_next. by case_match. Qed.
Lemma fit_require k : keeps_fit k → keeps_fit (require k).
Proof. intros Hk. unfold require. keeps_next. by case_match. Qed.
Lemma fit_abort reason b : keeps_fit (abort_listing reason b).
Proof. unfold abort_listing. by do 2 keeps_next. Qed.
Lemma keeps_register_internal id : keeps_book (λ _, True) (register_internal iter id).
Proof. apply keeps_inert. intros s. by destruct register. Qed.
Lemma keeps_failure_emit_id resolved reason : keeps_book (λ _, True) (failure_emit_id resolved reason).
Proof.
  unfold failure_emit_id. apply (keeps_bind _ (λ _, True)).
  - destruct resolved; [done|]. by keeps_next.
  - intros emit_id _. by keeps_next.
Qed.
Lemma keeps_publish tools : keeps_book (λ _, True) (publish pol tools).
Proof. by apply keeps_inert. Qed.
Hint Resolve fit_handled fit_send fit_require fit_abort keeps_register_internal keeps_failure_emit_id keeps_publish : keepdb.

Lemma fit_fail client raw internal reason : keeps_fit (fail_listing client raw internal reason).
Proof. unfold fail_listing. keeps_next. case_match; [apply fit_send|]; by keeps_next. Qed.
Lemma fit_unrecorded client raw internal reason : keeps_fit (unrecorded_block client raw internal reason).
Proof. unfold unrecorded_block. do 2 keeps_next. case_match; [by keeps_next|done]. Qed.
Lemma fit_answer_held k : keeps_fit k → keeps_fit (answer_held_client_list_with_error k).
Proof. intros Hk. unfold answer_held_client_list_with_error. keeps_next. repeat case_match; auto with keepdb. Qed.
Hint Resolve fit_fail fit_unrecorded fit_answer_held : keepdb.

Lemma fit_send_internal st id ev : within st → keeps_fit (send_internal iter st id ev).
Proof. intros Hst. unfold send_internal. keeps_next. case_match; auto with keepdb. Qed.

Lemma expect_within st id : within st → within (expect_internal_response st id).
Proof. by apply same_pages_within. Qed.

Lemma fit_begin st : keeps_fit (begin_revalidation iter st).
Proof.
  unfold begin_revalidation. do 2 keeps_next. apply fit_send_internal, expect_within.
  by apply (same_pages_within (discard_pages st)), discard_within.
Qed.
Hint Resolve fit_send_internal fit_begin : keepdb.

Lemma fit_list_changed st line : within st → keeps_fit (handle_list_changed iter st line).
Proof.
  intros Hst. unfold handle_list_changed. do 2 keeps_next.
  destruct (hold_list_changed _ _ _) as [st1 []] eqn:E; [|auto with keepdb].
  unfold hold_list_changed in E. simplify_eq. by apply (same_pages_within st).
Qed.

Lemma keeps_release st cancelled :
  within st → keeps_book (λ st1, within st1) (release_cancelled st cancelled).
Proof.
  intros Hst. destruct cancelled as [id|]; [|done]. cbn [release_cancelled].
  destruct (release_collection_for st id) as [st1 waiting] eqn:E.
  assert (within st1) as Hst1.
  { unfold release_collection_for in E. case_bool_decide; simplify_eq; [apply discard_within|done]. }
  destruct waiting; [|done]. intros s Hs. by split.
Qed.

Lemma fit_resume st : within st → keeps_fit (resume_queued_revalidation iter st).
Proof.
  intros Hst. unfold resume_queued_revalidation.
  apply (keeps_bind _ (λ _, True)); [by apply keeps_inert|]. intros cancelled _.
  apply (keeps_bind _ within); [by apply keeps_release|]. intros st1 Hst1.
  destruct (negb (idle st1)); [done|]. keeps_next. case_match; [done|].
  cbn [take_queued_revalidation]. case_match; [auto with keepdb|].
  keeps_next. apply fit_answer_held. by apply (same_pages_within st1).
Qed.

Lemma fit_settle st revalidate tools extras : within st → keeps_fit (settle iter st revalidate tools extras).
Proof.
  intros Hst. unfold settle. destruct revalidate; [auto with keepdb|]. keeps_next.
  assert (within (take_verified_notification st).1) as Hst1 by by apply (same_pages_within st).
  destruct (take_verified_notification st) as [st1 notification]. cbn [fst] in Hst1.
  repeat case_match; auto 8 with keepdb.
Qed.

Lemma fit_publish st tools digest client raw extras internal :
  within st → keeps_fit (publish_and_emit iter pol st tools digest client raw extras internal).
Proof.
  intros Hst. unfold publish_and_emit. cbn [record_verified_digest take_queued_revalidation].
  do 2 keeps_next. set (response := match client with Some _ => _ | None => _ end). clearbody response.
  assert (∀ st1 b, within st1 → keeps_fit
    match response with
    | Some l => require (send_or_fail (Listed l) (settle iter st1 b (emit_tools pol tools) (scoped_extras pol tools extras)))
    | None => settle iter st1 b (emit_tools pol tools) (scoped_extras pol tools extras)
    end) as Hemit.
  { intros st1 b Hst1. pose proof (fit_settle st1 b (emit_tools pol tools) (scoped_extras pol tools extras) Hst1).
    destruct response; auto with keepdb. }
  match goal with |- context [if ?b then require ?k else ?k] => assert (keeps_fit k) end.
  - destruct (pending_revalidate (set_context _ _ _ _ _)); [|keeps_next]; apply Hemit;
      by apply (same_pages_within st).
  - match goal with |- context [if ?b then require ?k else ?k] => destruct b end; auto with keepdb.
Qed.

Lemma fit_verify st raw internal : keeps_fit (verify_and_emit_list iter pol st raw internal).
Proof.
  unfold verify_and_emit_list. cbn [take_completed_pages take_client_id].
  keeps_next. destruct (negb _); [case_match; auto with keepdb; done|].
  keeps_next. repeat case_match; auto with keepdb; try done. apply fit_publish, discard_within.
Qed.

Lemma fit_list_error st f internal : keeps_fit (handle_list_error st f internal).
Proof.
  unfold handle_list_error. do 3 keeps_next. case_match; [auto with keepdb|].
  keeps_next. apply fit_answer_held. cbn [take_client_id].
  match goal with |- context [Handled ?x] => assert (within x) end.
  { case_match; by apply (same_pages_within (discard_pages st)), discard_within. }
  repeat case_match; auto with keepdb.
Qed.

Lemma keeps_bind_listing st raw :
  within st → keeps_book (λ st1, within st1 ∧ page_count st1 = page_count st ∧ seen_cursors st1 = seen_cursors st)
    (bind_listing st raw).
Proof.
  intros Hst. unfold bind_listing. destruct (needs_client_binding st); [|done].
  apply (keeps_bind _ (λ st1, within st1 ∧ page_count st1 = page_count st ∧ seen_cursors st1 = seen_cursors st)).
  - destruct raw; [|done]. keeps_next. split_and!; [|done..]. by apply (same_pages_within st).
  - intros st1 Hst1. by keeps_next.
Qed.

Lemma fit_page st f internal page : within st → keeps_fit (handle_page iter pol st f internal page).
Proof.
  intros Hst. unfold handle_page.
  destruct (charge_page st _ page) as [st1 [[]|]] eqn:E; [|auto with keepdb].
  apply charge_page_within in E as (Hst1 & Hp & Hc); [|done|unfold len; lia].
  apply (keeps_bind _ (λ st2, within st2 ∧ page_count st2 = page_count st1 ∧ seen_cursors st2 = seen_cursors st1));
    [by apply keeps_bind_listing|]. intros st2 (Hst2 & Hp2 & Hc2).
  destruct (next_page_cursor page); [|apply fit_verify].
  destruct (record_cursor st2 _) as [st3 [[]|]] eqn:E3; [|auto with keepdb].
  keeps_next. apply fit_send_internal, expect_within. eapply record_cursor_within; [done| |done].
  rewrite Hp2, Hc2, Hp, Hc. destruct Hst. lia.
Qed.

Lemma keeps_tracked f : keeps_book (λ _, True) (tracked_listing f).
Proof.
  unfold tracked_listing. destruct (fr_rpc_id f) as [[| |]|]; try done; case_match; auto with keepdb;
    (intros sh Hs; split; [|done]; by apply remove_pending_ok).
Qed.

Lemma fit_response st f : within st → keeps_fit (handle_tools_list_response iter pol st f).
Proof.
  intros Hst. unfold handle_tools_list_response. case_match; [auto with keepdb|].
  apply (keeps_bind _ (λ _, True)); [apply keeps_tracked|]. intros found _.
  match goal with |- context [if ?b then ?m else None] => destruct (if b then m else None) end; [auto with keepdb|].
  match goal with |- context [if negb ?b then _ else _] => destruct (negb b); [done|] end.
  unfold handle_listing_answer. repeat (case_match; auto using fit_list_error, fit_page with keepdb).
Qed.

Lemma fit_initial st : within st → keeps_fit (initial_listing iter pol st).
Proof. intros Hst. unfold initial_listing. keeps_next. case_match; [|done]. keeps_next. case_match; auto with keepdb. Qed.

Lemma fit_reject st id raw release reason :
  within st → keeps_fit (reject_listing st id raw release reason).
Proof.
  intros Hst. unfold reject_listing. keeps_next.
  apply (keeps_bind _ within); [destruct release; [by apply keeps_release|done]|]. intros st1 Hst1.
  do 2 keeps_next. case_match; [keeps_next; auto with keepdb|]. keeps_next. apply fit_send.
  by apply (same_pages_within (discard_pages st1)), discard_within.
Qed.

Lemma fit_server_task st ev : within st → keeps_fit (server_task iter pol st ev).
Proof.
  intros Hst. destruct ev; cbn [server_task];
    auto using fit_list_changed, fit_resume, fit_response, fit_initial, fit_reject.
  unfold reject_internal. keeps_next. auto with keepdb.
Qed.
End budgets.

(** ** The client loop *)

Section client_budgets.
Context (iter : gmap WireKey TrackedRequest → list (WireKey * TrackedRequest)).
Context {V : Verifier} (pol : ListPolicy).

Notation keeps_any := (keeps book_ok (λ _, True)).

Lemma any_send ev k : keeps_any k → keeps_any (send_or_stop ev k).
Proof. intros Hk. unfold send_or_stop. keeps_next. by case_match. Qed.
Lemma any_audited k : keeps_any k → keeps_any (audited k).
Proof. intros Hk. unfold audited. keeps_next. by case_match. Qed.
Lemma any_refuse r : keeps_any (refuse_request r).
Proof. by apply any_send. Qed.
Lemma any_rollback undo : keeps_any (rollback undo).
Proof. by apply keeps_inert. Qed.
Lemma any_unlock : keeps_any unlock_epoch.
Proof. by apply keeps_inert. Qed.
Lemma any_lock : keeps_any lock_epoch.
Proof. intros s Hs. by split. Qed.
Lemma any_register r method allowed : keeps_any (register_request iter pol r method allowed).
Proof. apply keeps_inert. intros s. destruct register; [|done]. by destruct on_request_forwarded. Qed.
Lemma any_insert id : keeps_any (insert_pending id).
Proof.
  intros s Hs. split; [|done]. pose proof (try_insert_ok s id Hs) as Hok. cbn.
  by destruct (try_insert (sh_pending s) id).
Qed.
Lemma any_retain r : keeps_any (retain_original r).
Proof.
  unfold retain_original. apply (keeps_bind _ (λ _, True)); [by apply keeps_inert|]. intros _ _ s Hs.
  split; [|done]. cbn. destruct (_ <? _) eqn:Hcap; [by apply remove_pending_ok|].
  apply saturating_add_le in Hcap; [|done]. destruct Hs as (Hlen & Hnd & Hb). split_and!; [done..|]. cbn.
  pose proof (originals_bytes_overwrite (sh_originals s) (cr_id r) (mkLine (cr_line r) (cr_frame r))) as Hle.
  cbn [ll_text] in Hle. lia.
Qed.
Lemma any_drop id : keeps_any (drop_pending id).
Proof. intros s Hs. split; [by apply remove_pending_ok|done]. Qed.
#[local] Hint Resolve any_send any_audited any_refuse any_rollback any_unlock any_lock any_register any_insert
  any_retain any_drop : keepdb.

Lemma any_dispatch expected ev : keeps_any (dispatch expected ev).
Proof.
  destruct expected as [n|]; [|by keeps_next]. cbn [dispatch]. unfold dispatch_in_epoch.
  do 2 keeps_next. apply (keeps_bind _ (λ _, True)); [|intros res _; by keeps_next].
  case_match; [done|]. keeps_next. case_match; [done|]. by keeps_next.
Qed.
#[local] Hint Resolve any_dispatch : keepdb.

Lemma any_forward r method allowed decided expected ev :
  keeps_any (register_and_forward_impl iter pol r method allowed decided expected ev).
Proof.
  unfold register_and_forward_impl. keeps_next. case_match; [|case_match; auto with keepdb].
  match goal with |- context [if decided then audited ?k else ?k] => assert (keeps_any k) end.
  - apply any_audited. keeps_next. repeat case_match; [done|..]; keeps_next; auto with keepdb; done.
  - case_match; auto with keepdb.
Qed.
#[local] Hint Resolve any_forward : keepdb.

Lemma any_call r check expected : keeps_any (admit_call iter pol r check expected).
Proof.
  unfold admit_call, forward_call, still_advertised. keeps_next.
  destruct (negb _); [auto with keepdb|]. destruct check; [|case_match; auto with keepdb].
  destruct expected; [|auto with keepdb]. keeps_next. case_match; auto with keepdb.
Qed.

Lemma any_hold r : keeps_any (hold_client_list r).
Proof.
  unfold hold_client_list. apply (keeps_bind _ (λ _, True)); [apply keeps_inert; intros s; by case_match|].
  intros placed _. case_match; [done|]. keeps_next. case_match; [done|]. by keeps_next.
Qed.
#[local] Hint Resolve any_hold : keepdb.

Lemma any_arm r k : keeps_any k → keeps_any (arm_tools_list r k).
Proof.
  intros Hk. unfold arm_tools_list.
  assert (keeps_any (retained ⇐ retain_original r; if (retained : bool) then k else audited (refuse_request r))%prog)
    as Hfinish by (keeps_next; case_match; auto with keepdb).
  keeps_next. case_match; [auto with keepdb|]. keeps_next. case_match; [done|].
  do 2 keeps_next. case_match; [done|]. keeps_next.
  apply (keeps_bind _ (λ _, True)); [case_match; [auto with keepdb|done]|]. intros armed _.
  case_match; [done|]. keeps_next. auto with keepdb.
Qed.

Lemma any_client_task ev : keeps_any (client_task iter pol ev).
Proof.
  destruct ev; cbn [client_task].
  - unfold client_call, check_gate. case_match; keeps_next; case_match; auto using any_call with keepdb.
    keeps_next. case_match; auto using any_call with keepdb.
  - unfold client_denied_call, forward_call. case_match; auto with keepdb.
  - apply any_arm. keeps_next. case_match; [done|..];
      (unfold unwind_tools_list; apply (keeps_bind _ (λ _, True)); [by do 2 keeps_next|done]).
  - unfold client_cancel_list. do 2 keeps_next. by apply (keeps_bind _ (λ _, True)); [apply keeps_inert|].
Qed.
End client_budgets.

(** [C38] Under every interleaving of the two loops, whatever the server sends,
    the collection of a listing never holds more than 50 pages, 1000 tools,
    16 MiB of page text, 32 metadata members under distinct names and 64 KiB of
    metadata (the ledger being exactly what is held), and the bookkeeping of
    client listings never more than 128 distinct ids in flight and 8 MiB of
    retained requests. *)
Theorem listing_within_budgets iter {V : Verifier} pol turns :
  book_ok (sy_shared (system_run iter pol turns))
  ∧ match sy_server (system_run iter pol turns) with
    | Ret (Handled st) | Ret (ForwardRaw st) => within st
    | _ => True
    end.
Proof.
  assert (∀ sy, book_ok (sy_shared sy) ∧ keeps book_ok fits (sy_server sy)
                ∧ keeps book_ok (λ _, True) (sy_client sy) →
          let sy' := foldl (system_step iter pol) sy turns in
          book_ok (sy_shared sy') ∧ keeps book_ok fits (sy_server sy')) as Hrun.
  { induction turns as [|t turns IH]; intros sy (Hb & Hs & Hc); [done|]. cbn [foldl]. apply IH. clear IH.
    destruct t as [ev|answer|ev|answer]; cbn [system_step].
    - destruct (sy_server sy) as [[st|st|]| |] eqn:E; try (by split_and!; rewrite ?E);
        (split_and!; [done|by apply fit_server_task|done]).
    - destruct (prog_step (sy_server sy) answer _) as [[s p]|] eqn:E; [|done].
      by destruct (keeps_prog_step _ _ _ _ _ _ _ Hs Hb E).
    - destruct (sy_client sy) as [[]| |] eqn:E; try (by split_and!; rewrite ?E);
        (split_and!; [done|done|apply any_client_task]).
    - destruct (prog_step (sy_client sy) answer _) as [[s p]|] eqn:E; [|done].
      by destruct (keeps_prog_step _ _ _ _ _ _ _ Hc Hb E). }
  destruct (Hrun system_new) as [Hb Hs].
  { split_and!; [|apply list_new_within|done]. split_and!; cbn; [lia|apply NoDup_nil_2|done]. }
  split; [done|]. unfold system_run. repeat case_match; done.
Qed.

(** ** The tally *)

Definition tally_ok (t : CallTally) : Prop :=
  (size (called_tools t) ≤ MAX_TALLY_TOOLS)%nat ∧ tally_bytes (called_tools t) ≤ MAX_TALLY_TOOL_BYTES
  ∧ (size (denied t) ≤ MAX_TALLY_DENIALS)%nat ∧ denial_bytes (denied t) ≤ MAX_TALLY_DENIAL_BYTES.

Lemma foldr_sum_perm {A} (f : A → Z) l1 l2 :
  l1 ≡ₚ l2 → foldr (λ x b, f x + b) 0 l1 = foldr (λ x b, f x + b) 0 l2.
Proof. induction 1; cbn; lia. Qed.

Lemma tally_bytes_insert X n : n ∉ X → tally_bytes ({[n]} ∪ X) = len n + tally_bytes X.
Proof.
  intros Hn. exact (foldr_sum_perm len _ _ (elements_union_singleton X n Hn)).
Qed.

Lemma denial_bytes_insert X e : e ∉ X → denial_bytes ({[e]} ∪ X) = len e.1 + len e.2 + denial_bytes X.
Proof.
  intros Hn. exact (foldr_sum_perm (λ e, len e.1 + len e.2) _ _ (elements_union_singleton X e Hn)).
Qed.

(** Client-controlled names and reasons never outgrow the tally. *)
Lemma record_call_ok t tool : tally_ok t → tally_ok (record_call t tool).
Proof.
  intros (Hn & Hb & Hdn & Hdb). unfold record_call. case_bool_decide as Hin; [done|].
  destruct (_ || _) eqn:Hfull; [done|]. apply orb_false_iff in Hfull as [Hc%Nat.leb_gt Hs%Z.ltb_ge].
  split_and!; cbn [called_tools denied]; [|rewrite tally_bytes_insert by done; lia|done..].
  rewrite size_union, size_singleton by set_solver. lia.
Qed.

Lemma record_denial_ok t tool reason : tally_ok t → tally_ok (record_denial t tool reason).
Proof.
  intros (Hn & Hb & Hdn & Hdb). unfold record_denial. case_bool_decide as Hin; [done|].
  destruct (_ || _) eqn:Hfull; [done|]. apply orb_false_iff in Hfull as [Hc%Nat.leb_gt Hs%Z.ltb_ge].
  split_and!; cbn [called_tools denied]; [done..| |rewrite denial_bytes_insert by done; cbn [fst snd]; lia].
  rewrite size_union, size_singleton by set_solver. lia.
Qed.
