(* ===== verification/Ebpf.v ===== *)
(** * Ebpf: the programs of the cgroup hooks

    [src/src/warden/ebpf/prog.rs], with the map entry of
    [src/src/warden/ebpf/rules.rs] and the kernel constants of
    [src/src/warden/ebpf/sys.rs]: a launch compiles its egress rules into one
    eBPF program per hook, emitted as instruction words.

    A [u64] word is a [Z] and the casts between widths are written out.  The
    host is little-endian, as on every platform the route is built for.  The
    method calls on the builder are the list of [Op]s that [apply_op] runs, so
    that a block of code is a list and composition is concatenation. *)

From S2P Require Import Prelude.

Open Scope Z_scope.

(** ** Widths *)

Definition as_u16 (z : Z) : Z := z mod 2 ^ 16.
Definition as_u32 (z : Z) : Z := z mod 2 ^ 32.
Definition as_i16 (z : Z) : Z := let m := z mod 2 ^ 16 in if m <? 2 ^ 15 then m else m - 2 ^ 16.
Definition as_i32 (z : Z) : Z := let m := z mod 2 ^ 32 in if m <? 2 ^ 31 then m else m - 2 ^ 32.

(** ** Map entries *)

(** [[u32; 4]] *)
Record Words := W4 { w0 : Z; w1 : Z; w2 : Z; w3 : Z }.

#[export] Instance Words_eq_dec : EqDecision Words.
Proof. solve_decision. Defined.

Record RuleEntry := mkEntry {
  re_addr : Words;
  re_mask : Words;
  re_proto : Z;
  re_port_raw : Z;
  re_action : Z;
  re_pad : Z;
  re_expires_at_ns : Z;
}.

#[export] Instance RuleEntry_eq_dec : EqDecision RuleEntry.
Proof. solve_decision. Defined.

Definition ACTION_DENY : Z := 0.
Definition ACTION_ALLOW : Z := 1.
Definition RULE_IDX_NONE : Z := 2 ^ 32 - 1.
Definition RULE_IDX_GRANT : Z := 0x80000000.
Definition MAX_RULES_PER_MAP : nat := 96.
Definition GRANT_SLOTS : nat := 64.

(** ** Kernel constants *)

Definition BPF_CGROUP_INET4_CONNECT : Z := 10.
Definition BPF_CGROUP_INET6_CONNECT : Z := 11.
Definition BPF_CGROUP_UDP4_SENDMSG : Z := 14.
Definition BPF_CGROUP_UDP6_SENDMSG : Z := 15.

Definition BPF_FUNC_MAP_LOOKUP_ELEM : Z := 1.
Definition BPF_FUNC_GET_CURRENT_PID_TGID : Z := 14.
Definition BPF_FUNC_KTIME_GET_BOOT_NS : Z := 125.
Definition BPF_FUNC_RINGBUF_RESERVE : Z := 131.
Definition BPF_FUNC_RINGBUF_SUBMIT : Z := 132.

Definition USER_IP4 : Z := 4.
Definition USER_IP6 : Z := 8.
Definition USER_PORT : Z := 24.
Definition PROTOCOL : Z := 36.

(** [libc] *)
Definition AF_INET : Z := 2.
Definition AF_INET6 : Z := 10.
Definition IPPROTO_TCP : Z := 6.
Definition IPPROTO_UDP : Z := 17.

(** [port.to_be() as u32] *)
Definition raw_port (port : Z) : Z := Z.lor (Z.shiftl (Z.land port 0xff) 8) (Z.shiftr port 8).

(** ** Encoding *)

Definition ins (code dst src off imm : Z) : Z :=
  Z.lor (Z.lor (Z.lor (Z.lor code (Z.shiftl dst 8)) (Z.shiftl src 12))
           (Z.shiftl (as_u16 off) 16))
    (Z.shiftl (as_u32 imm) 32).

Definition BPF_MOV64_REG : Z := 0xbf.
Definition BPF_MOV64_IMM : Z := 0xb7.
Definition BPF_ALU64_AND_REG : Z := 0x5f.
Definition BPF_ALU64_ADD_IMM : Z := 0x07.
Definition BPF_ALU64_ADD_REG : Z := 0x0f.
Definition BPF_LDX_MEM_W : Z := 0x61.
Definition BPF_LDX_MEM_DW : Z := 0x79.
Definition BPF_ST_MEM_W : Z := 0x62.
Definition BPF_STX_MEM_W : Z := 0x63.
Definition BPF_STX_MEM_DW : Z := 0x7b.
Definition BPF_STX_XADD_DW : Z := 0xdb.
Definition BPF_LDDW_IMM : Z := 0x18.
Definition BPF_PSEUDO_MAP_FD : Z := 1.
Definition BPF_CALL : Z := 0x85.
Definition BPF_EXIT : Z := 0x95.
Definition BPF_JA : Z := 0x05.
Definition BPF_JEQ_K : Z := 0x15.
Definition BPF_JSET_K : Z := 0x45.
Definition BPF_JNE_X : Z := 0x5d.
Definition BPF_JLE_X : Z := 0xbd.

Definition SLOT_KEY : Z := -4.
Definition SLOT_NOW : Z := -16.
Definition SLOT_MATCH : Z := -24.
Definition SLOT_PID : Z := -32.
Definition SLOT_ADDR_HI : Z := -48.
Definition SLOT_SEQ : Z := -56.

Definition EVENT_SIZE : Z := 48.
Definition EVENT_MAGIC : Z := 0xeb0f5001.
Definition STAT_DENIED : Z := 0.
Definition STAT_DROPPED : Z := 8.

(** ** Hooks *)

Inductive ProgKind := V4Connect | V6Connect | V4Sendmsg | V6Sendmsg.

Definition attach_type (k : ProgKind) : Z :=
  match k with
  | V4Connect => BPF_CGROUP_INET4_CONNECT
  | V6Connect => BPF_CGROUP_INET6_CONNECT
  | V4Sendmsg => BPF_CGROUP_UDP4_SENDMSG
  | V6Sendmsg => BPF_CGROUP_UDP6_SENDMSG
  end.
Definition kind_family (k : ProgKind) : Z :=
  match k with
  | V4Connect | V4Sendmsg => AF_INET
  | V6Connect | V6Sendmsg => AF_INET6
  end.
Definition is_v6 (k : ProgKind) : bool :=
  match k with V6Connect | V6Sendmsg => true | _ => false end.
Definition is_sendmsg (k : ProgKind) : bool :=
  match k with V4Sendmsg | V6Sendmsg => true | _ => false end.

Record ProgMaps := mkMaps {
  pm_rules : Z;
  pm_grants : Z;
  pm_events : Z;
  pm_stats : Z;
  pm_seq : Z;
  pm_clock : Z;
}.

(** ** The builder *)

Inductive Mark :=
  | MAllow | MDeny | MDenyDrop | MNoEpoch | MHaveEpoch | MNoSeq | MHaveSeq
  | MDefault | MGrantAllow | MNext (slot : Z).

#[export] Instance Mark_eq_dec : EqDecision Mark.
Proof. solve_decision. Defined.

Record Builder := mkBuilder {
  b_v : list Z;
  b_fixups : list (nat * Mark);
  b_marks : list (Mark * nat);
}.

Definition builder_new : Builder := mkBuilder [] [] [].
Definition emit (b : Builder) (i : Z) : Builder :=
  mkBuilder (b_v b ++ [i]) (b_fixups b) (b_marks b).
Definition jump (b : Builder) (code dst src : Z) (m : Mark) (imm : Z) : Builder :=
  emit (mkBuilder (b_v b) (b_fixups b ++ [(length (b_v b), m)]) (b_marks b))
    (ins code dst src 0 imm).
Definition mark (b : Builder) (m : Mark) : Builder :=
  mkBuilder (b_v b) (b_fixups b) (b_marks b ++ [(m, length (b_v b))]).

(** The 16-bit offset field of an emitted word, replaced. *)
Definition set_off (w off : Z) : Z :=
  Z.lor (Z.land w (Z.lxor (2 ^ 64 - 1) (Z.shiftl 0xffff 16))) (Z.shiftl (as_u16 off) 16).

Definition mark_target (marks : list (Mark * nat)) (m : Mark) : option nat :=
  snd <$> List.find (λ e, bool_decide (e.1 = m)) marks.

(** The loop over the fixups; [None] where the source panics, on a jump to a
    mark that was never bound or past the end. *)
Fixpoint resolve_loop (marks : list (Mark * nat)) (fixups : list (nat * Mark)) (v : list Z)
    : option (list Z) :=
  match fixups with
  | [] => Some v
  | (at_, m) :: rest =>
      match mark_target marks m, v !! at_ with
      | Some target, Some w =>
          let off := as_i16 (Z.of_nat target - Z.of_nat at_ - 1) in
          resolve_loop marks rest (<[at_ := set_off w off]> v)
      | _, _ => None
      end
  end.
Definition resolve_jumps (b : Builder) : option (list Z) :=
  resolve_loop (b_marks b) (b_fixups b) (b_v b).

(** A call on the builder. *)
Inductive Op :=
  | Emit (i : Z)
  | Jump (code dst src : Z) (m : Mark) (imm : Z)
  | MarkHere (m : Mark).

Definition apply_op (b : Builder) (o : Op) : Builder :=
  match o with
  | Emit i => emit b i
  | Jump code dst src m imm => jump b code dst src m imm
  | MarkHere m => mark b m
  end.

(** Jump past the current entry block. *)
Definition next (code dst src slot : Z) : Op := Jump code dst src (MNext slot) 0.

Definition ld_map (reg fd : Z) : list Op :=
  [Emit (ins BPF_LDDW_IMM reg BPF_PSEUDO_MAP_FD 0 fd); Emit (ins 0 0 0 0 0)].

(** ** Blocks *)

(** [key] to the stack and the map lookup every access starts with. *)
Definition lookup_ops (fd key : Z) : list Op :=
  Emit (ins BPF_ST_MEM_W 10 0 SLOT_KEY key) :: ld_map 1 fd
  ++ [Emit (ins BPF_MOV64_REG 2 10 0 0);
      Emit (ins BPF_ALU64_ADD_IMM 2 0 0 SLOT_KEY);
      Emit (ins BPF_CALL 0 0 0 BPF_FUNC_MAP_LOOKUP_ELEM)].

Definition bump_stat (stats off : Z) : list Op :=
  lookup_ops stats 0
  ++ [Emit (ins BPF_JEQ_K 0 0 2 0);
      Emit (ins BPF_MOV64_IMM 1 0 0 1);
      Emit (ins BPF_STX_XADD_DW 0 1 off 0)].

Inductive PairCmp := CmpSkip | CmpRaw | CmpMasked.

Definition word_cmp (mask addr : Z) : PairCmp :=
  if (mask =? 0) && (addr =? 0) then CmpSkip
  else if mask =? 2 ^ 32 - 1 then CmpRaw
  else CmpMasked.

Definition pair_cmp (m0 m1 a0 a1 : Z) : PairCmp :=
  if (m0 =? 0) && (m1 =? 0) && ((a0 =? 0) && (a1 =? 0)) then CmpSkip
  else if (m0 =? 2 ^ 32 - 1) && (m1 =? 2 ^ 32 - 1) then CmpRaw
  else CmpMasked.

(** The address compare of an IPv4 block. *)
Definition cmp_v4 (c : PairCmp) (slot : Z) : list Op :=
  match c with
  | CmpSkip => []
  | CmpRaw => [Emit (ins BPF_LDX_MEM_W 1 0 0 0); next BPF_JNE_X 7 1 slot]
  | CmpMasked =>
      [Emit (ins BPF_LDX_MEM_W 1 0 16 0); Emit (ins BPF_MOV64_REG 3 7 0 0);
       Emit (ins BPF_ALU64_AND_REG 3 1 0 0); Emit (ins BPF_LDX_MEM_W 2 0 0 0);
       next BPF_JNE_X 3 2 slot]
  end.

(** The two compares of an IPv6 block: words 0-1 and words 2-3. *)
Definition cmp_v6_lo (c : PairCmp) (slot : Z) : list Op :=
  match c with
  | CmpSkip => []
  | CmpRaw => [Emit (ins BPF_LDX_MEM_DW 1 0 0 0); next BPF_JNE_X 7 1 slot]
  | CmpMasked =>
      [Emit (ins BPF_LDX_MEM_DW 1 0 16 0); Emit (ins BPF_MOV64_REG 3 7 0 0);
       Emit (ins BPF_ALU64_AND_REG 3 1 0 0); Emit (ins BPF_LDX_MEM_DW 2 0 0 0);
       next BPF_JNE_X 3 2 slot]
  end.
Definition cmp_v6_hi (c : PairCmp) (slot : Z) : list Op :=
  match c with
  | CmpSkip => []
  | CmpRaw =>
      [Emit (ins BPF_LDX_MEM_DW 1 0 8 0); Emit (ins BPF_LDX_MEM_DW 3 10 SLOT_ADDR_HI 0);
       next BPF_JNE_X 3 1 slot]
  | CmpMasked =>
      [Emit (ins BPF_LDX_MEM_DW 1 0 24 0); Emit (ins BPF_LDX_MEM_DW 3 10 SLOT_ADDR_HI 0);
       Emit (ins BPF_ALU64_AND_REG 3 1 0 0); Emit (ins BPF_LDX_MEM_DW 2 0 8 0);
       next BPF_JNE_X 3 2 slot]
  end.

Definition cmp_addr (kind : ProgKind) (entry : option RuleEntry) (slot : Z) : list Op :=
  if is_v6 kind then
    cmp_v6_lo (match entry with
               | None => CmpMasked
               | Some e => pair_cmp (w0 (re_mask e)) (w1 (re_mask e)) (w0 (re_addr e)) (w1 (re_addr e))
               end) slot
    ++ cmp_v6_hi (match entry with
                  | None => CmpMasked
                  | Some e => pair_cmp (w2 (re_mask e)) (w3 (re_mask e)) (w2 (re_addr e)) (w3 (re_addr e))
                  end) slot
  else
    cmp_v4 (match entry with
            | None => CmpMasked
            | Some e => word_cmp (w0 (re_mask e)) (w0 (re_addr e))
            end) slot.

(** A qualifier compare; a dynamic entry is asked whether it is [any]. *)
Definition cmp_qual (field reg : Z) (any grants : bool) (slot : Z) : list Op :=
  if any then []
  else Emit (ins BPF_LDX_MEM_W 1 0 field 0)
       :: (if grants then [Emit (ins BPF_JEQ_K 1 0 1 0)] else [])
       ++ [next BPF_JNE_X 1 reg slot].

Definition expiry_check (slot : Z) : list Op :=
  [Emit (ins BPF_LDX_MEM_DW 1 0 48 0); next BPF_JEQ_K 1 0 slot;
   Emit (ins BPF_LDX_MEM_DW 2 10 SLOT_NOW 0); next BPF_JLE_X 1 2 slot].

Definition block_slot (i : nat) (grants : bool) : Z :=
  Z.of_nat i + if grants then 1000000 else 0.

Definition rule_block_ex (kind : ProgKind) (maps : ProgMaps) (i : nat) (entry : option RuleEntry)
    (hit : Mark) : list Op :=
  let grants := match entry with None => true | Some _ => false end in
  let slot := block_slot i grants in
  let any p := match entry with None => false | Some e => p e =? 0 end in
  lookup_ops (if grants then pm_grants maps else pm_rules maps) (as_i32 (Z.of_nat i))
  ++ [next BPF_JEQ_K 0 0 slot]
  ++ (if grants then expiry_check slot else [])
  ++ cmp_addr kind entry slot
  ++ cmp_qual 32 9 (any re_proto) grants slot
  ++ cmp_qual 36 8 (any re_port_raw) grants slot
  ++ (if grants then [] else [Emit (ins BPF_ST_MEM_W 10 0 SLOT_MATCH (as_i32 (Z.of_nat i)))])
  ++ [Jump BPF_JA 0 0 hit 0; MarkHere (MNext slot)].

(** ** The program *)

Definition prologue_ctx (kind : ProgKind) : list Op :=
  [Emit (ins BPF_MOV64_REG 6 1 0 0)]
  ++ (if is_v6 kind
      then [Emit (ins BPF_LDX_MEM_DW 7 6 USER_IP6 0);
            Emit (ins BPF_LDX_MEM_DW 5 6 (USER_IP6 + 8) 0);
            Emit (ins BPF_STX_MEM_DW 10 5 SLOT_ADDR_HI 0)]
      else [Emit (ins BPF_LDX_MEM_W 7 6 USER_IP4 0)])
  ++ [Emit (ins BPF_LDX_MEM_W 8 6 USER_PORT 0)]
  ++ (if is_sendmsg kind then [Jump BPF_JEQ_K 8 0 MAllow 0] else [])
  ++ [Emit (ins BPF_LDX_MEM_W 9 6 PROTOCOL 0)].

Definition prologue_clock (maps : ProgMaps) : list Op :=
  [Emit (ins BPF_CALL 0 0 0 BPF_FUNC_KTIME_GET_BOOT_NS);
   Emit (ins BPF_STX_MEM_DW 10 0 SLOT_NOW 0)]
  ++ lookup_ops (pm_clock maps) 0
  ++ [Jump BPF_JEQ_K 0 0 MNoEpoch 0;
      Emit (ins BPF_LDX_MEM_DW 1 0 0 0);
      Jump BPF_JA 0 0 MHaveEpoch 0;
      MarkHere MNoEpoch;
      Emit (ins BPF_MOV64_IMM 1 0 0 0);
      MarkHere MHaveEpoch;
      Emit (ins BPF_LDX_MEM_DW 0 10 SLOT_NOW 0);
      Emit (ins BPF_ALU64_ADD_REG 0 1 0 0);
      Emit (ins BPF_STX_MEM_DW 10 0 SLOT_NOW 0);
      Emit (ins BPF_ST_MEM_W 10 0 SLOT_MATCH (as_i32 RULE_IDX_NONE))].

Definition static_blocks (kind : ProgKind) (maps : ProgMaps) (entries : list RuleEntry) : list Op :=
  concat (imap (λ i e, rule_block_ex kind maps i (Some e)
                         (if re_action e =? ACTION_ALLOW then MAllow else MDeny)) entries).

Definition seq_snapshot (maps : ProgMaps) : list Op :=
  lookup_ops (pm_seq maps) 0
  ++ [Jump BPF_JEQ_K 0 0 MNoSeq 0;
      Emit (ins BPF_LDX_MEM_DW 1 0 0 0);
      Jump BPF_JA 0 0 MHaveSeq 0;
      MarkHere MNoSeq;
      Emit (ins BPF_MOV64_IMM 1 0 0 1);
      MarkHere MHaveSeq;
      Emit (ins BPF_STX_MEM_DW 10 1 SLOT_SEQ 0);
      Jump BPF_JSET_K 1 0 MDefault 1].

Definition grant_blocks (kind : ProgKind) (maps : ProgMaps) (slots : nat) (seqlock : bool) : list Op :=
  concat ((λ i, rule_block_ex kind maps i None (if seqlock then MGrantAllow else MAllow)) <$> seq 0 slots).

Definition allow_tail : list Op :=
  [MarkHere MAllow; Emit (ins BPF_MOV64_IMM 0 0 0 1); Emit (ins BPF_EXIT 0 0 0 0)].

Definition grant_recheck (maps : ProgMaps) : list Op :=
  MarkHere MGrantAllow :: lookup_ops (pm_seq maps) 0
  ++ [Jump BPF_JEQ_K 0 0 MDefault 0;
      Emit (ins BPF_LDX_MEM_DW 1 0 0 0);
      Emit (ins BPF_LDX_MEM_DW 2 10 SLOT_SEQ 0);
      Jump BPF_JNE_X 1 2 MDefault 0;
      Jump BPF_JA 0 0 MAllow 0].

(** The destination words of the deny record. *)
Definition record_addr (kind : ProgKind) : list Op :=
  if is_v6 kind
  then [Emit (ins BPF_STX_MEM_DW 4 7 16 0);
        Emit (ins BPF_LDX_MEM_DW 1 10 SLOT_ADDR_HI 0);
        Emit (ins BPF_STX_MEM_DW 4 1 24 0)]
  else [Emit (ins BPF_STX_MEM_W 4 7 16 0);
        Emit (ins BPF_ST_MEM_W 4 0 20 0);
        Emit (ins BPF_ST_MEM_W 4 0 24 0);
        Emit (ins BPF_ST_MEM_W 4 0 28 0)].

Definition deny_reserve (maps : ProgMaps) : list Op :=
  [Emit (ins BPF_CALL 0 0 0 BPF_FUNC_GET_CURRENT_PID_TGID);
   Emit (ins BPF_STX_MEM_DW 10 0 SLOT_PID 0)]
  ++ ld_map 1 (pm_events maps)
  ++ [Emit (ins BPF_MOV64_IMM 2 0 0 EVENT_SIZE);
      Emit (ins BPF_MOV64_IMM 3 0 0 0);
      Emit (ins BPF_CALL 0 0 0 BPF_FUNC_RINGBUF_RESERVE);
      Jump BPF_JEQ_K 0 0 MDenyDrop 0].

Definition deny_record (kind : ProgKind) : list Op :=
  [Emit (ins BPF_MOV64_REG 4 0 0 0);
   Emit (ins BPF_ST_MEM_W 4 0 0 (as_i32 EVENT_MAGIC));
   Emit (ins BPF_LDX_MEM_W 1 10 SLOT_MATCH 0);
   Emit (ins BPF_STX_MEM_W 4 1 4 0);
   Emit (ins BPF_ST_MEM_W 4 0 8 (kind_family kind));
   Emit (ins BPF_STX_MEM_W 4 9 12 0)]
  ++ record_addr kind
  ++ [Emit (ins BPF_STX_MEM_W 4 8 32 0);
      Emit (ins BPF_ST_MEM_W 4 0 36 0);
      Emit (ins BPF_LDX_MEM_DW 1 10 SLOT_PID 0);
      Emit (ins BPF_STX_MEM_DW 4 1 40 0);
      Emit (ins BPF_MOV64_REG 1 4 0 0);
      Emit (ins BPF_MOV64_IMM 2 0 0 0);
      Emit (ins BPF_CALL 0 0 0 BPF_FUNC_RINGBUF_SUBMIT);
      Emit (ins BPF_MOV64_IMM 0 0 0 0);
      Emit (ins BPF_EXIT 0 0 0 0)].

Definition deny_tail (kind : ProgKind) (maps : ProgMaps) : list Op :=
  MarkHere MDeny :: bump_stat (pm_stats maps) STAT_DENIED ++ deny_reserve maps ++ deny_record kind.

Definition drop_tail (maps : ProgMaps) : list Op :=
  MarkHere MDenyDrop :: bump_stat (pm_stats maps) STAT_DROPPED
  ++ [Emit (ins BPF_MOV64_IMM 0 0 0 0); Emit (ins BPF_EXIT 0 0 0 0)].

(** The calls [build] makes on its builder. *)
Definition build_ops (kind : ProgKind) (maps : ProgMaps) (entries : list RuleEntry)
    (grant_slots : nat) (default_allow : bool) : list Op :=
  let seqlock := (0 <? Z.of_nat grant_slots) && negb default_allow in
  prologue_ctx kind ++ prologue_clock maps
  ++ static_blocks kind maps entries
  ++ (if seqlock then seq_snapshot maps else [])
  ++ grant_blocks kind maps grant_slots seqlock
  ++ [MarkHere MDefault; Jump BPF_JA 0 0 (if default_allow then MAllow else MDeny) 0]
  ++ allow_tail
  ++ (if seqlock then grant_recheck maps else [])
  ++ deny_tail kind maps ++ drop_tail maps.

Definition build_prog (kind : ProgKind) (maps : ProgMaps) (entries : list RuleEntry)
    (grant_slots : nat) (default_allow : bool) : option (list Z) :=
  resolve_jumps (foldl apply_op builder_new (build_ops kind maps entries grant_slots default_allow)).
