(* ===== verification/EbpfMachine.v ===== *)
(** * EbpfMachine: the instruction set the programs run on

    The eBPF instruction set as its standard documents it, restricted to the
    opcodes and helpers the generator emits: a 64-bit register machine with a
    512-byte stack whose pointers are regions with offsets.  Any other
    instruction, a read of an uninitialised register or stack byte, and an
    access outside a region are [Wrong], so that a run that halts is also a
    run without an invalid access.

    The maps are shared with user space, which rewrites the grant, clock and
    sequence maps while programs run: a [World] gives the state of the kernel
    at every instruction of the run, and each load of a map value reads the
    state of its own instant. *)

From S2P Require Import Prelude Ebpf.

Open Scope Z_scope.

(** ** Bytes in memory *)

Fixpoint le_bytes (n : nat) (v : Z) : list Z :=
  match n with
  | O => []
  | S n => v mod 256 :: le_bytes n (v / 256)
  end.
Fixpoint le_value (bs : list Z) : Z :=
  match bs with
  | [] => 0
  | b :: bs => b + 256 * le_value bs
  end.

(** Memory that may be partly uninitialised. *)
Definition Mem := Z → option Z.
Definition no_bytes : Mem := λ _, None.

Definition store_bytes (m : Mem) (off : Z) (bs : list Z) : Mem :=
  λ a, if (off <=? a) && (a <? off + Z.of_nat (length bs)) then bs !! Z.to_nat (a - off) else m a.
Definition store (n : nat) (m : Mem) (off v : Z) : Mem := store_bytes m off (le_bytes n v).

Fixpoint read_bytes (m : Mem) (off : Z) (n : nat) : option (list Z) :=
  match n with
  | O => Some []
  | S n =>
      match m off, read_bytes m (off + 1) n with
      | Some b, Some bs => Some (b :: bs)
      | _, _ => None
      end
  end.
Definition load (n : nat) (m : Mem) (off : Z) : option Z := le_value <$> read_bytes m off n.

(** Initialised memory given by its bytes. *)
Definition of_bytes (bs : list Z) : Mem := store_bytes no_bytes 0 bs.

(** A [RuleEntry] in its [repr(C)] layout. *)
Definition words_bytes (w : Words) : list Z :=
  le_bytes 4 (w0 w) ++ le_bytes 4 (w1 w) ++ le_bytes 4 (w2 w) ++ le_bytes 4 (w3 w).
Definition entry_bytes (e : RuleEntry) : list Z :=
  words_bytes (re_addr e) ++ words_bytes (re_mask e)
  ++ le_bytes 4 (re_proto e) ++ le_bytes 4 (re_port_raw e)
  ++ le_bytes 4 (re_action e) ++ le_bytes 4 (re_pad e) ++ le_bytes 8 (re_expires_at_ns e).

(** ** Values *)

Inductive Region := RCtx | RStack | RRule (i : nat) | RGrant (i : nat) | RClock | RSeq | RStats | RRecord.

#[export] Instance Region_eq_dec : EqDecision Region.
Proof. solve_decision. Defined.

Inductive Val :=
  | Undef
  | Num (z : Z)
  | Ptr (r : Region) (off : Z)
  | MapRef (fd : Z).

(** What a run leaves behind: counters added to, records submitted. *)
Inductive Effect :=
  | Bumped (off by_ : Z)
  | Submitted (record : Mem).

(** The kernel at one instant.  [k_stats] tells whether the counters are
    reachable and [k_reserve] whether the ring buffer has room. *)
Record Kernel := mkKernel {
  k_maps : ProgMaps;
  k_ctx : list Z;
  k_rules : list RuleEntry;
  k_grants : list RuleEntry;
  k_clock : option Z;
  k_seq : option Z;
  k_stats : bool;
  k_reserve : bool;
  k_boot_ns : Z;
  k_pid_tgid : Z;
}.
Definition World := nat → Kernel.

Record Machine := mkMachine {
  regs : Z → Val;
  stack : Mem;
  rec : Mem;
  out : list Effect;
  time : nat;
}.

Definition upd (r : Z) (v : Val) (f : Z → Val) : Z → Val := λ x, if x =? r then v else f x.

Definition initial : Machine :=
  mkMachine (upd 10 (Ptr RStack 0) (upd 1 (Ptr RCtx 0) (λ _, Undef))) no_bytes no_bytes [] 0.

(** ** Instructions *)

Record Insn := mkInsn { i_code : Z; i_dst : Z; i_src : Z; i_off : Z; i_imm : Z }.

Definition decode (w : Z) : Insn :=
  mkInsn (Z.land w 0xff) (Z.land (Z.shiftr w 8) 0xf) (Z.land (Z.shiftr w 12) 0xf)
    (as_i16 (Z.shiftr w 16)) (as_i32 (Z.shiftr w 32)).

(** What one instruction does: go on, skip [n] more words, halt, or fail. *)
Inductive Outcome :=
  | Next (m : Machine)
  | Skip (n : Z) (m : Machine)
  | Halt (r : Z) (m : Machine)
  | Wrong.

Definition set_reg (m : Machine) (r : Z) (v : Val) : Outcome :=
  Next (mkMachine (upd r v (regs m)) (stack m) (rec m) (out m) (S (time m))).
Definition set_stack (m : Machine) (s : Mem) : Outcome :=
  Next (mkMachine (regs m) s (rec m) (out m) (S (time m))).
Definition go (m : Machine) : Machine :=
  mkMachine (regs m) (stack m) (rec m) (out m) (S (time m)).
Definition branch (taken : bool) (off : Z) (m : Machine) : Outcome :=
  if taken then Skip off (go m) else Next (go m).

(** [None] where the region holds no such bytes. *)
Definition read (k : Kernel) (m : Machine) (n : nat) (r : Region) (off : Z) : option Z :=
  match r with
  | RCtx => load n (of_bytes (k_ctx k)) off
  | RStack => load n (stack m) off
  | RRule i => e ← k_rules k !! i; load n (of_bytes (entry_bytes e)) off
  | RGrant i => e ← k_grants k !! i; load n (of_bytes (entry_bytes e)) off
  | RClock => v ← k_clock k; load n (of_bytes (le_bytes 8 v)) off
  | RSeq => v ← k_seq k; load n (of_bytes (le_bytes 8 v)) off
  | RStats | RRecord => None
  end.

Definition write (m : Machine) (n : nat) (r : Region) (off v : Z) : Outcome :=
  match r with
  | RStack => if (-512 <=? off) && (off + Z.of_nat n <=? 0)
              then set_stack m (store n (stack m) off v) else Wrong
  | RRecord => if (0 <=? off) && (off + Z.of_nat n <=? EVENT_SIZE)
               then Next (mkMachine (regs m) (stack m) (store n (rec m) off v) (out m) (S (time m)))
               else Wrong
  | _ => Wrong
  end.

(** [bpf_map_lookup_elem]: a pointer into the map, or NULL. *)
Definition map_elem (k : Kernel) (fd : Z) (key : nat) : option Val :=
  let maps := k_maps k in
  let present (b : bool) r := Some (if b then Ptr r 0 else Num 0) in
  if fd =? pm_rules maps then present (bool_decide (is_Some (k_rules k !! key))) (RRule key)
  else if fd =? pm_grants maps then present (bool_decide (is_Some (k_grants k !! key))) (RGrant key)
  else if fd =? pm_stats maps then present ((key =? 0)%nat && k_stats k) RStats
  else if fd =? pm_seq maps then present ((key =? 0)%nat && bool_decide (is_Some (k_seq k))) RSeq
  else if fd =? pm_clock maps then present ((key =? 0)%nat && bool_decide (is_Some (k_clock k))) RClock
  else None.

(** A helper's return value, its arguments and the scratch registers gone. *)
Definition returns (m : Machine) (v : Val) (rc : Mem) (o : list Effect) : Outcome :=
  Next (mkMachine (upd 0 v (upd 1 Undef (upd 2 Undef (upd 3 Undef (upd 4 Undef (upd 5 Undef (regs m)))))))
          (stack m) rc o (S (time m))).

Definition call (k : Kernel) (m : Machine) (f : Z) : Outcome :=
  if f =? BPF_FUNC_MAP_LOOKUP_ELEM then
    match regs m 1, regs m 2 with
    | MapRef fd, Ptr RStack off =>
        match load 4 (stack m) off with
        | Some key => match map_elem k fd (Z.to_nat key) with
                      | Some v => returns m v (rec m) (out m)
                      | None => Wrong
                      end
        | None => Wrong
        end
    | _, _ => Wrong
    end
  else if f =? BPF_FUNC_GET_CURRENT_PID_TGID then returns m (Num (k_pid_tgid k)) (rec m) (out m)
  else if f =? BPF_FUNC_KTIME_GET_BOOT_NS then returns m (Num (k_boot_ns k)) (rec m) (out m)
  else if f =? BPF_FUNC_RINGBUF_RESERVE then
    match regs m 1, regs m 2, regs m 3 with
    | MapRef fd, Num size, Num 0 =>
        if (fd =? pm_events (k_maps k)) && (size =? EVENT_SIZE)
        then returns m (if k_reserve k then Ptr RRecord 0 else Num 0) no_bytes (out m)
        else Wrong
    | _, _, _ => Wrong
    end
  else if f =? BPF_FUNC_RINGBUF_SUBMIT then
    match regs m 1, regs m 2 with
    | Ptr RRecord 0, Num 0 => returns m Undef (rec m) (out m ++ [Submitted (rec m)])
    | _, _ => Wrong
    end
  else Wrong.

Definition add (a b : Val) : option Val :=
  match a, b with
  | Num x, Num y => Some (Num ((x + y) mod 2 ^ 64))
  | Ptr r o, Num y => Some (Ptr r (o + y))
  | _, _ => None
  end.

(** A value that can be stored or compared with an immediate. *)
Definition defined (v : Val) : bool := match v with Num _ | Ptr _ _ => true | _ => false end.

Definition insn_step (k : Kernel) (i : Insn) (m : Machine) : Outcome :=
  let '(mkInsn code dst src off imm) := i in
  let imm64 := imm mod 2 ^ 64 in
  let d := regs m dst in
  let s := regs m src in
  if code =? BPF_MOV64_REG then (if defined s then set_reg m dst s else Wrong)
  else if code =? BPF_MOV64_IMM then set_reg m dst (Num imm64)
  else if code =? BPF_ALU64_AND_REG then
    match d, s with Num x, Num y => set_reg m dst (Num (Z.land x y)) | _, _ => Wrong end
  else if code =? BPF_ALU64_ADD_IMM then
    match d with
    | Num x => set_reg m dst (Num ((x + imm) mod 2 ^ 64))
    | Ptr r o => set_reg m dst (Ptr r (o + imm))
    | _ => Wrong
    end
  else if code =? BPF_ALU64_ADD_REG then
    match add d s with Some v => set_reg m dst v | None => Wrong end
  else if code =? BPF_LDX_MEM_W then
    match s with
    | Ptr r o => match read k m 4 r (o + off) with Some v => set_reg m dst (Num v) | None => Wrong end
    | _ => Wrong
    end
  else if code =? BPF_LDX_MEM_DW then
    match s with
    | Ptr r o => match read k m 8 r (o + off) with Some v => set_reg m dst (Num v) | None => Wrong end
    | _ => Wrong
    end
  else if code =? BPF_ST_MEM_W then
    match d with Ptr r o => write m 4 r (o + off) imm64 | _ => Wrong end
  else if code =? BPF_STX_MEM_W then
    match d, s with Ptr r o, Num v => write m 4 r (o + off) v | _, _ => Wrong end
  else if code =? BPF_STX_MEM_DW then
    match d, s with Ptr r o, Num v => write m 8 r (o + off) v | _, _ => Wrong end
  else if code =? BPF_STX_XADD_DW then
    match d, s with
    | Ptr RStats o, Num v =>
        if ((o + off =? STAT_DENIED) || (o + off =? STAT_DROPPED))
        then Next (mkMachine (regs m) (stack m) (rec m) (out m ++ [Bumped (o + off) v]) (S (time m)))
        else Wrong
    | _, _ => Wrong
    end
  else if code =? BPF_LDDW_IMM then
    if src =? BPF_PSEUDO_MAP_FD
    then Skip 1 (mkMachine (upd dst (MapRef imm) (regs m)) (stack m) (rec m) (out m) (S (time m)))
    else Wrong
  else if code =? BPF_CALL then call k m imm
  else if code =? BPF_EXIT then match regs m 0 with Num r => Halt r (go m) | _ => Wrong end
  else if code =? BPF_JA then Skip off (go m)
  else if code =? BPF_JEQ_K then
    match d with
    | Num x => branch (x =? imm64) off m
    | Ptr _ _ => if imm64 =? 0 then branch false off m else Wrong
    | _ => Wrong
    end
  else if code =? BPF_JSET_K then
    match d with Num x => branch (negb (Z.land x imm64 =? 0)) off m | _ => Wrong end
  else if code =? BPF_JNE_X then
    match d, s with Num x, Num y => branch (negb (x =? y)) off m | _, _ => Wrong end
  else if code =? BPF_JLE_X then
    match d, s with Num x, Num y => branch (x <=? y) off m | _, _ => Wrong end
  else Wrong.

(** ** Runs *)

Inductive Result :=
  | Returned (r : Z) (m : Machine)
  | Failed
  | OutOfFuel.

Fixpoint run_prog (fuel : nat) (w : World) (prog : list Z) (pc : Z) (m : Machine) : Result :=
  match fuel with
  | O => OutOfFuel
  | S fuel =>
      if pc <? 0 then Failed
      else match prog !! Z.to_nat pc with
      | None => Failed
      | Some word =>
          match insn_step (w (time m)) (decode word) m with
          | Next m' => run_prog fuel w prog (pc + 1) m'
          | Skip n m' => run_prog fuel w prog (pc + 1 + n) m'
          | Halt r m' => Returned r m'
          | Wrong => Failed
          end
      end
  end.
