(* ===== verification/EbpfAsm.v ===== *)
(** * EbpfAsm: the builder produces the code its calls describe

    Running the words [resolve_jumps] returns is running the calls they came from:
    [run_ops] executes a list of builder calls with symbolic jumps, and
    [run_block] shows that a block of the calls, wherever it sits, does in the
    encoded program what [run_ops] says.  This is where the encoding, the
    offsets and the forward fixups are accounted for, so that the proofs about
    the generated code never see a word or an offset. *)

From S2P Require Import Prelude PolicyCidr Ebpf EbpfMachine.

Open Scope Z_scope.

(** ** Bits *)

Lemma lor_disjoint a b k : 0 <= k → 0 <= a < 2 ^ k → Z.lor a (Z.shiftl b k) = a + b * 2 ^ k.
Proof.
  intros Hk Ha. rewrite <-Z.shiftl_mul_pow2 by done. symmetry. apply Z.add_nocarry_lor.
  apply Z.bits_inj'. intros i Hi. rewrite Z.land_spec, Z.shiftl_spec, Z.bits_0 by lia.
  destruct (decide (i < k)).
  - rewrite (Z.testbit_neg_r b) by lia. apply andb_false_r.
  - by rewrite (testbit_above k a i) by lia.
Qed.

Lemma ins_value code dst src off imm :
  0 <= code < 256 → 0 <= dst < 16 → 0 <= src < 16 →
  ins code dst src off imm =
    code + dst * 2 ^ 8 + src * 2 ^ 12 + as_u16 off * 2 ^ 16 + as_u32 imm * 2 ^ 32.
Proof.
  intros Hc Hd Hs. unfold ins, as_u16, as_u32.
  pose proof (Z.mod_pos_bound off (2 ^ 16) ltac:(lia)).
  rewrite (lor_disjoint code) by lia. rewrite (lor_disjoint _ src) by lia.
  rewrite (lor_disjoint _ (off mod _)) by lia. by rewrite lor_disjoint by lia.
Qed.

Lemma ins_range code dst src off imm :
  0 <= code < 256 → 0 <= dst < 16 → 0 <= src < 16 → 0 <= ins code dst src off imm < 2 ^ 64.
Proof.
  intros. rewrite ins_value by done. unfold as_u16, as_u32.
  pose proof (Z.mod_pos_bound off (2 ^ 16) ltac:(lia)).
  pose proof (Z.mod_pos_bound imm (2 ^ 32) ltac:(lia)). lia.
Qed.

Lemma as_i16_small z : - 2 ^ 15 <= z < 2 ^ 15 → as_i16 z = z.
Proof.
  intros. unfold as_i16. cbn zeta.
  destruct (decide (0 <= z)).
  - rewrite Z.mod_small by lia. by destruct (Z.ltb_spec z (2 ^ 15)); [|lia].
  - rewrite <-(Z.mod_add z 1), Z.mod_small by lia. destruct (Z.ltb_spec (z + 1 * 2 ^ 16) (2 ^ 15)); lia.
Qed.

Lemma as_i16_mod a b : a mod 2 ^ 16 = b mod 2 ^ 16 → as_i16 a = as_i16 b.
Proof. intros H. unfold as_i16. by rewrite H. Qed.
Lemma as_i32_mod a b : a mod 2 ^ 32 = b mod 2 ^ 32 → as_i32 a = as_i32 b.
Proof. intros H. unfold as_i32. by rewrite H. Qed.

Lemma div_split a b q r : 0 <= r < b → a = b * q + r → a / b = q.
Proof. intros. symmetry. by apply (Z.div_unique_pos a b q r). Qed.

Lemma decode_ins code dst src off imm :
  0 <= code < 256 → 0 <= dst < 16 → 0 <= src < 16 → - 2 ^ 15 <= off < 2 ^ 15 →
  decode (ins code dst src off imm) = mkInsn code dst src off (as_i32 imm).
Proof.
  intros Hc Hd Hs Ho. unfold decode. rewrite ins_value by done. unfold as_u16, as_u32.
  pose proof (Z.mod_pos_bound off (2 ^ 16) ltac:(lia)).
  pose proof (Z.mod_pos_bound imm (2 ^ 32) ltac:(lia)).
  change 0xff with (Z.ones 8). change 0xf with (Z.ones 4).
  rewrite !Z.land_ones, !Z.shiftr_div_pow2 by lia. f_equal.
  - symmetry. apply (Z.mod_unique_pos _ _ (dst + src * 2 ^ 4 + off mod 2 ^ 16 * 2 ^ 8 + imm mod 2 ^ 32 * 2 ^ 24)); lia.
  - rewrite (div_split _ (2 ^ 8) (dst + src * 2 ^ 4 + off mod 2 ^ 16 * 2 ^ 8 + imm mod 2 ^ 32 * 2 ^ 24) code) by lia.
    symmetry. apply (Z.mod_unique_pos _ _ (src + off mod 2 ^ 16 * 2 ^ 4 + imm mod 2 ^ 32 * 2 ^ 20)); lia.
  - rewrite (div_split _ (2 ^ 12) (src + off mod 2 ^ 16 * 2 ^ 4 + imm mod 2 ^ 32 * 2 ^ 20) (code + dst * 2 ^ 8)) by lia.
    symmetry. apply (Z.mod_unique_pos _ _ (off mod 2 ^ 16 + imm mod 2 ^ 32 * 2 ^ 16)); lia.
  - transitivity (as_i16 off); [apply as_i16_mod|by apply as_i16_small].
    rewrite (div_split _ (2 ^ 16) (off mod 2 ^ 16 + imm mod 2 ^ 32 * 2 ^ 16) (code + dst * 2 ^ 8 + src * 2 ^ 12)) by lia.
    rewrite Z.mod_add by lia. apply Z.mod_mod. lia.
  - apply as_i32_mod.
    rewrite (div_split _ (2 ^ 32) (imm mod 2 ^ 32) (code + dst * 2 ^ 8 + src * 2 ^ 12 + off mod 2 ^ 16 * 2 ^ 16)) by lia.
    apply Z.mod_mod. lia.
Qed.

(** The fields other than the offset, from the two halves around it. *)
Lemma decode_halves w :
  decode w = mkInsn ((w mod 2 ^ 16) mod 2 ^ 8) ((w mod 2 ^ 16) / 2 ^ 8 mod 2 ^ 4)
               ((w mod 2 ^ 16) / 2 ^ 12 mod 2 ^ 4) (as_i16 (w / 2 ^ 16)) (as_i32 (w / 2 ^ 32)).
Proof.
  unfold decode. change 0xff with (Z.ones 8). change 0xf with (Z.ones 4).
  rewrite !Z.land_ones, !Z.shiftr_div_pow2 by lia.
  pose proof (Z.div_mod w (2 ^ 16) ltac:(lia)). pose proof (Z.mod_pos_bound w (2 ^ 16) ltac:(lia)).
  remember (w mod 2 ^ 16) as lo. remember (w / 2 ^ 16) as hi. subst w. f_equal.
  - replace (2 ^ 16 * hi + lo) with (lo + hi * 2 ^ 8 * 2 ^ 8) by lia. apply Z.mod_add. lia.
  - replace (2 ^ 16 * hi + lo) with (lo + hi * 2 ^ 8 * 2 ^ 8) by lia. rewrite Z.div_add by lia.
    replace (hi * 2 ^ 8) with (hi * 2 ^ 4 * 2 ^ 4) by lia. apply Z.mod_add. lia.
  - replace (2 ^ 16 * hi + lo) with (lo + hi * 2 ^ 4 * 2 ^ 12) by lia. rewrite Z.div_add by lia.
    apply Z.mod_add. lia.
Qed.

Lemma clear_off w : 0 <= w < 2 ^ 64 →
  Z.land w (Z.lxor (2 ^ 64 - 1) (Z.shiftl 0xffff 16)) = Z.lor (w mod 2 ^ 16) (Z.shiftl (w / 2 ^ 32) 32).
Proof.
  intros Hw. change (2 ^ 64 - 1) with (Z.ones 64). change 0xffff with (Z.ones 16).
  rewrite <-Z.land_ones, <-Z.shiftr_div_pow2 by lia. apply Z.bits_inj'. intros i Hi.
  rewrite Z.lor_spec, !Z.land_spec, Z.lxor_spec, !Z.shiftl_spec by lia.
  destruct (decide (i < 64)); [|by rewrite (testbit_above 64 w), Z.shiftr_spec, (testbit_above 64 w) by lia].
  rewrite (Z.testbit_ones_nonneg 64), (Z.testbit_ones_nonneg 16 i) by lia.
  destruct (decide (i < 32)).
  - rewrite (Z.testbit_neg_r (Z.shiftr w 32)) by lia.
    destruct (decide (i < 16)).
    + rewrite (Z.testbit_neg_r (Z.ones 16)) by lia.
      destruct (Z.ltb_spec i 64); [|lia]. destruct (Z.ltb_spec i 16); [|lia]. by rewrite orb_false_r.
    + rewrite (Z.testbit_ones_nonneg 16) by lia. destruct (Z.ltb_spec i 64); [|lia].
      destruct (Z.ltb_spec (i - 16) 16); [|lia]. destruct (Z.ltb_spec i 16); [lia|].
      by rewrite !andb_false_r.
  - rewrite (Z.testbit_ones_nonneg 16), Z.shiftr_spec by lia.
    replace (i - 32 + 32) with i by lia.
    destruct (Z.ltb_spec i 64); [|lia]. destruct (Z.ltb_spec (i - 16) 16); [lia|].
    destruct (Z.ltb_spec i 16); [lia|]. by rewrite andb_false_r, andb_true_r.
Qed.

Lemma decode_set_off w off : 0 <= w < 2 ^ 64 → - 2 ^ 15 <= off < 2 ^ 15 →
  decode (set_off w off) =
    mkInsn (i_code (decode w)) (i_dst (decode w)) (i_src (decode w)) off (i_imm (decode w)).
Proof.
  intros Hw Ho. unfold set_off. rewrite clear_off by done.
  rewrite <-Z.lor_assoc, (Z.lor_comm (Z.shiftl _ 32)), Z.lor_assoc. unfold as_u16.
  pose proof (Z.mod_pos_bound w (2 ^ 16) ltac:(lia)). pose proof (Z.mod_pos_bound off (2 ^ 16) ltac:(lia)).
  rewrite !lor_disjoint by (rewrite ?lor_disjoint by lia; lia). rewrite !decode_halves. cbn [i_code i_dst i_src i_imm].
  set (x := w mod 2 ^ 16 + _ + _).
  assert (x mod 2 ^ 16 = w mod 2 ^ 16) as ->.
  { symmetry. apply (Z.mod_unique_pos _ _ (off mod 2 ^ 16 + w / 2 ^ 32 * 2 ^ 16)); unfold x; lia. }
  rewrite (div_split x (2 ^ 16) (off mod 2 ^ 16 + w / 2 ^ 32 * 2 ^ 16) (w mod 2 ^ 16)) by (unfold x; lia).
  rewrite (div_split x (2 ^ 32) (w / 2 ^ 32) (w mod 2 ^ 16 + off mod 2 ^ 16 * 2 ^ 16)) by (unfold x; lia).
  f_equal. transitivity (as_i16 off); [apply as_i16_mod|by apply as_i16_small].
  rewrite Z.mod_add by lia. apply Z.mod_mod. lia.
Qed.

(** ** Symbolic runs *)

(** [Fall k]: past the end with [k] words still to skip. *)
Inductive Exec :=
  | Fall (k : nat) (m : Machine)
  | Goto (l : Mark) (m : Machine)
  | Done (r : Z) (m : Machine)
  | Bad.

Definition is_jump (code : Z) : bool :=
  (code =? BPF_JA) || (code =? BPF_JEQ_K) || (code =? BPF_JSET_K) || (code =? BPF_JNE_X) || (code =? BPF_JLE_X).

Definition jump_word_ok (code w : Z) : bool := is_jump code && (0 <=? w) && (w <? 2 ^ 64).

Fixpoint run_ops (w : World) (ops : list Op) (skip : nat) (m : Machine) : Exec :=
  match ops with
  | [] => Fall skip m
  | MarkHere _ :: ops => run_ops w ops skip m
  | Emit i :: ops =>
      match skip with
      | S k => run_ops w ops k m
      | O => match insn_step (w (time m)) (decode i) m with
             | Next m' => run_ops w ops 0 m'
             | Skip n m' => if 0 <=? n then run_ops w ops (Z.to_nat n) m' else Bad
             | Halt r m' => Done r m'
             | Wrong => Bad
             end
      end
  | Jump code dst src l imm :: ops =>
      match skip with
      | S k => run_ops w ops k m
      | O => if jump_word_ok code (ins code dst src 0 imm) && (i_code (decode (ins code dst src 0 imm)) =? code)
             then match insn_step (w (time m)) (decode (ins code dst src 0 imm)) m with
                  | Next m' => run_ops w ops 0 m'
                  | Skip _ m' => Goto l m'
                  | _ => Bad
                  end
             else Bad
      end
  end.

Lemma run_ops_app w a b : ∀ skip m,
  run_ops w (a ++ b) skip m =
    match run_ops w a skip m with
    | Fall k m' => run_ops w b k m'
    | r => r
    end.
Proof.
  induction a as [|o a IH]; intros skip m; [done|].
  destruct o; cbn [run_ops app]; [destruct skip as [|k]; [|apply IH]..|apply IH].
  - destruct (insn_step _ _ _) as [?|n ?|? ?|]; try done. by destruct (0 <=? n).
  - destruct (_ && _); [|done]. by destruct (insn_step _ _ _).
Qed.

(** ** What the builder holds *)

Fixpoint size (ops : list Op) : nat :=
  match ops with
  | [] => 0
  | MarkHere _ :: ops => size ops
  | _ :: ops => S (size ops)
  end.
Definition op_word (o : Op) : list Z :=
  match o with
  | Emit i => [i]
  | Jump code dst src _ imm => [ins code dst src 0 imm]
  | MarkHere _ => []
  end.
Fixpoint op_fixups (n : nat) (ops : list Op) : list (nat * Mark) :=
  match ops with
  | [] => []
  | Emit _ :: ops => op_fixups (S n) ops
  | Jump _ _ _ l _ :: ops => (n, l) :: op_fixups (S n) ops
  | MarkHere _ :: ops => op_fixups n ops
  end.
Fixpoint op_marks (n : nat) (ops : list Op) : list (Mark * nat) :=
  match ops with
  | [] => []
  | MarkHere l :: ops => (l, n) :: op_marks n ops
  | _ :: ops => op_marks (S n) ops
  end.
Definition marks_of (ops : list Op) : list Mark := (op_marks 0 ops).*1.

Lemma size_app a b : size (a ++ b) = (size a + size b)%nat.
Proof. induction a as [|[]]; cbn; lia. Qed.
Lemma size_words ops : length (ops ≫= op_word) = size ops.
Proof. induction ops as [|[] ops IH]; cbn; lia. Qed.

Lemma builder_runs ops : ∀ b,
  foldl apply_op b ops =
    mkBuilder (b_v b ++ (ops ≫= op_word)) (b_fixups b ++ op_fixups (length (b_v b)) ops)
      (b_marks b ++ op_marks (length (b_v b)) ops).
Proof.
  induction ops as [|o ops IH]; intros [v f k]; [cbn; by rewrite !app_nil_r|].
  cbn [foldl]. rewrite IH. destruct o; cbn -[ins]; rewrite ?length_app, <-?app_assoc; cbn -[ins];
    by rewrite ?Nat.add_1_r.
Qed.

Lemma op_fixups_app n a b : op_fixups n (a ++ b) = op_fixups n a ++ op_fixups (n + size a) b.
Proof. revert n. induction a as [|[] a IH]; intros n; cbn; rewrite ?IH, ?Nat.add_0_r, ?Nat.add_succ_r; done. Qed.
Lemma op_marks_app n a b : op_marks n (a ++ b) = op_marks n a ++ op_marks (n + size a) b.
Proof. revert n. induction a as [|[] a IH]; intros n; cbn; rewrite ?IH, ?Nat.add_0_r, ?Nat.add_succ_r; done. Qed.
Lemma op_marks_shift n ops : (op_marks n ops).*1 = marks_of ops.
Proof.
  unfold marks_of. generalize 0%nat. revert n.
  induction ops as [|[] ops IH]; intros n n'; cbn; [done|apply IH..|]. f_equal. apply IH.
Qed.
Lemma marks_of_app a b : marks_of (a ++ b) = marks_of a ++ marks_of b.
Proof. unfold marks_of at 1. by rewrite op_marks_app, fmap_app, !op_marks_shift. Qed.

Lemma op_fixups_from n ops p l : (p, l) ∈ op_fixups n ops → (n ≤ p < n + size ops)%nat.
Proof.
  revert n. induction ops as [|[] ops IH]; intros n H; cbn in *; [by apply elem_of_nil in H|..].
  - apply IH in H. lia.
  - apply elem_of_cons in H as [[= -> ->]|H%IH]; lia.
  - apply IH in H. lia.
Qed.
Lemma op_fixups_nodup n ops : NoDup (op_fixups n ops).*1.
Proof.
  revert n. induction ops as [|[] ops IH]; intros n; cbn; [constructor|apply IH| |apply IH].
  constructor; [|apply IH]. intros ([p l] & -> & H%op_fixups_from)%list_elem_of_fmap. cbn in *. lia.
Qed.

Lemma mark_target_app a b l :
  mark_target (a ++ b) l = match mark_target a l with Some t => Some t | None => mark_target b l end.
Proof.
  unfold mark_target. induction a as [|[l' t] a IH]; [done|]. cbn. by case_bool_decide.
Qed.
Lemma mark_target_fresh n ops l : l ∉ marks_of ops → mark_target (op_marks n ops) l = None.
Proof.
  rewrite <-(op_marks_shift n). unfold mark_target. generalize (op_marks n ops). intros ms H.
  induction ms as [|[l' t] ms IH]; [done|]. cbn in *.
  rewrite bool_decide_eq_false_2 by set_solver. apply IH. set_solver.
Qed.
Lemma mark_target_at pre l post : l ∉ marks_of pre →
  mark_target (op_marks 0 (pre ++ MarkHere l :: post)) l = Some (size pre).
Proof.
  intros H. rewrite op_marks_app, mark_target_app, mark_target_fresh by done.
  unfold mark_target. cbn. by rewrite bool_decide_eq_true_2.
Qed.

(** The words after the fixups. *)
Lemma resolve_loop_spec marks fixups : ∀ v v',
  resolve_loop marks fixups v = Some v' → NoDup fixups.*1 →
  (∀ p, p ∉ fixups.*1 → v' !! p = v !! p) ∧
  (∀ p l, (p, l) ∈ fixups → ∃ t word, mark_target marks l = Some t ∧ v !! p = Some word ∧
     v' !! p = Some (set_off word (as_i16 (Z.of_nat t - Z.of_nat p - 1)))).
Proof.
  induction fixups as [|[at_ l] fixups IH]; intros v v' H Hnd; cbn in *.
  { simplify_eq. split; [done|]. intros ? ? []%elem_of_nil. }
  destruct (mark_target marks l) as [t|] eqn:Ht; [|done].
  destruct (v !! at_) as [word|] eqn:Hw; [|done]. apply NoDup_cons in Hnd as [Hat Hnd].
  destruct (IH _ _ H Hnd) as [Hother Hfix]. split.
  - intros p Hp. rewrite Hother by set_solver. apply list_lookup_insert_ne. set_solver.
  - intros p l' [[= -> ->]|Hin]%elem_of_cons.
    + exists t, word. rewrite Hother by done. split_and!; [done..|].
      apply list_lookup_insert_eq. by apply lookup_lt_Some in Hw.
    + destruct (Hfix p l' Hin) as (t' & word' & ? & Hw' & ?). exists t', word'. split_and!; [done| |done].
      rewrite list_lookup_insert_ne in Hw'; [done|]. intros ->. apply Hat, list_elem_of_fmap. by exists (p, l').
Qed.

Lemma resolve_loop_total marks fixups : ∀ v,
  Forall (λ f, is_Some (mark_target marks f.2) ∧ (f.1 < length v)%nat) fixups →
  is_Some (resolve_loop marks fixups v).
Proof.
  induction fixups as [|[at_ l] fixups IH]; intros v H; [by eexists|]. cbn.
  apply Forall_cons in H as [[[t Ht] Hat] H]. cbn in *. rewrite Ht.
  destruct (lookup_lt_is_Some_2 v at_ Hat) as [word ->]. apply IH.
  eapply Forall_impl; [done|]. cbn. intros f [? ?]. by rewrite length_insert.
Qed.

Lemma resolve_loop_length marks fixups : ∀ v v',
  resolve_loop marks fixups v = Some v' → length v' = length v.
Proof.
  induction fixups as [|[at_ l] fixups IH]; intros v v' H; cbn in *; [by simplify_eq|].
  destruct (mark_target marks l), (v !! at_); try done. apply IH in H. by rewrite length_insert in H.
Qed.

(** ** Blocks of a program *)

(** A jump's target is only in its offset. *)
Lemma jump_step_off k code dst src off imm m : is_jump code = true →
  insn_step k (mkInsn code dst src off imm) m =
    match insn_step k (mkInsn code dst src 0 imm) m with
    | Skip _ m' => Skip off m'
    | r => r
    end.
Proof.
  unfold is_jump. rewrite !orb_true_iff, !Z.eqb_eq. intros [[[[->| ->]| ->]| ->]| ->]; cbn; unfold branch.
  - done.
  - by repeat case_match.
  - by repeat case_match.
  - by repeat case_match.
  - by repeat case_match.
Qed.

Section program.
Context (w : World) (ops : list Op) (prog : list Z).
Context (Hprog : resolve_jumps (foldl apply_op builder_new ops) = Some prog).
Context (Hsize : Z.of_nat (size ops) < 2 ^ 15).

(** The run from one point passes through the other, or ends there. *)
Definition reaches (pc : nat) (m : Machine) (pc' : nat) (m' : Machine) : Prop :=
  ∃ n, ∀ fuel, run_prog (n + fuel) w prog (Z.of_nat pc) m = run_prog fuel w prog (Z.of_nat pc') m'.
Definition halts (pc : nat) (m : Machine) (r : Z) (m' : Machine) : Prop :=
  ∃ n, ∀ fuel, run_prog (n + fuel) w prog (Z.of_nat pc) m = Returned r m'.

Lemma reaches_refl pc m : reaches pc m pc m.
Proof. by exists 0%nat. Qed.
Lemma reaches_trans pc m pc1 m1 pc2 m2 :
  reaches pc m pc1 m1 → reaches pc1 m1 pc2 m2 → reaches pc m pc2 m2.
Proof. intros [a Ha] [b Hb]. exists (a + b)%nat. intros fuel. by rewrite <-Nat.add_assoc, Ha. Qed.
Lemma reaches_halts pc m pc1 m1 r m' : reaches pc m pc1 m1 → halts pc1 m1 r m' → halts pc m r m'.
Proof. intros [a Ha] [b Hb]. exists (a + b)%nat. intros fuel. by rewrite <-Nat.add_assoc, Ha. Qed.

Lemma prog_emit pre i post : ops = pre ++ Emit i :: post → prog !! size pre = Some i.
Proof.
  intros E. revert Hprog. unfold resolve_jumps. rewrite builder_runs. cbn. intros H.
  apply resolve_loop_spec in H as [H _]; [|apply op_fixups_nodup]. rewrite H.
  - rewrite E, bind_app, <-(size_words pre). cbn. apply list_lookup_middle. done.
  - intros ([p l] & Hp & Hin)%list_elem_of_fmap. cbn in Hp. subst p. revert Hin.
    rewrite E, op_fixups_app. cbn. intros [Hin|Hin]%elem_of_app; apply op_fixups_from in Hin; lia.
Qed.

Lemma prog_jump pre code dst src l imm post : ops = pre ++ Jump code dst src l imm :: post →
  ∃ t, mark_target (op_marks 0 ops) l = Some t ∧
       prog !! size pre = Some (set_off (ins code dst src 0 imm) (as_i16 (Z.of_nat t - Z.of_nat (size pre) - 1))).
Proof.
  intros E. revert Hprog. unfold resolve_jumps. rewrite builder_runs. cbn -[ins]. intros H.
  apply resolve_loop_spec in H as [_ H]; [|apply op_fixups_nodup].
  destruct (H (size pre) l) as (t & word & Ht & Hw & Hp).
  { rewrite E, op_fixups_app. cbn. apply elem_of_app. right. by left. }
  exists t. split; [done|]. rewrite Hp. do 2 f_equal.
  rewrite E, bind_app, <-(size_words pre) in Hw. cbn [mbind list_bind op_word app] in Hw.
  rewrite list_lookup_middle in Hw by done. by simplify_eq.
Qed.

Lemma mark_target_bound l t : mark_target (op_marks 0 ops) l = Some t → (t ≤ size ops)%nat.
Proof.
  unfold mark_target. intros ([l' t'] & Hf & ->)%fmap_Some. apply find_some in Hf as [Hin _].
  apply list_elem_of_In in Hin. revert Hin. cbn [snd]. change (size ops) with (0 + size ops)%nat. generalize 0%nat.
  clear. induction ops as [|[] os IH]; intros n Hin; cbn in *; [by apply elem_of_nil in Hin|..].
  - apply IH in Hin. lia.
  - apply IH in Hin. lia.
  - apply elem_of_cons in Hin as [[= -> ->]|Hin%IH]; lia.
Qed.

(** What a symbolic outcome means at a position of the program. *)
Definition continues (pc : nat) (m : Machine) (stop : nat) (e : Exec) : Prop :=
  match e with
  | Fall k m' => reaches pc m (stop + k) m'
  | Goto l m' => ∃ t, mark_target (op_marks 0 ops) l = Some t ∧ reaches pc m t m'
  | Done r m' => halts pc m r m'
  | Bad => True
  end.

Lemma continues_step pc m pc1 m1 stop e : reaches pc m pc1 m1 → continues pc1 m1 stop e → continues pc m stop e.
Proof.
  intros H. destruct e as [k m'|l m'|r m'|]; cbn; [..|done].
  - by apply reaches_trans.
  - intros (t & ? & ?). exists t. split; [done|]. by eapply reaches_trans.
  - by apply reaches_halts.
Qed.

Lemma step_next pc word m m' : prog !! pc = Some word →
  insn_step (w (time m)) (decode word) m = Next m' → reaches pc m (S pc) m'.
Proof.
  intros Hp Hs. exists 1%nat. intros fuel. cbn -[insn_step decode Z.to_nat].
  destruct (Z.ltb_spec (Z.of_nat pc) 0); [lia|]. rewrite Nat2Z.id, Hp, Hs. f_equal. lia.
Qed.
Lemma step_skip pc word m m' n pc' : prog !! pc = Some word →
  insn_step (w (time m)) (decode word) m = Skip n m' → Z.of_nat pc' = Z.of_nat pc + 1 + n →
  reaches pc m pc' m'.
Proof.
  intros Hp Hs Hn. exists 1%nat. intros fuel. cbn -[insn_step decode Z.to_nat].
  destruct (Z.ltb_spec (Z.of_nat pc) 0); [lia|]. by rewrite Nat2Z.id, Hp, Hs, Hn.
Qed.
Lemma step_halt pc word m m' r : prog !! pc = Some word →
  insn_step (w (time m)) (decode word) m = Halt r m' → halts pc m r m'.
Proof.
  intros Hp Hs. exists 1%nat. intros fuel. cbn -[insn_step decode Z.to_nat].
  destruct (Z.ltb_spec (Z.of_nat pc) 0); [lia|]. by rewrite Nat2Z.id, Hp, Hs.
Qed.

Lemma run_block blk : ∀ pre post skip m, ops = pre ++ blk ++ post →
  continues (size pre + skip) m (size (pre ++ blk)) (run_ops w blk skip m).
Proof.
  induction blk as [|o blk IH]; intros pre post skip m E.
  { cbn. rewrite app_nil_r. apply reaches_refl. }
  assert (ops = (pre ++ [o]) ++ blk ++ post) as E' by by rewrite <-app_assoc.
  assert (pre ++ o :: blk = (pre ++ [o]) ++ blk) as -> by by rewrite <-app_assoc.
  specialize (IH (pre ++ [o]) post). rewrite (size_app pre [o]) in IH.
  destruct o as [i|code dst src l imm|l]; cbn [size] in IH; cbn [run_ops].
  - destruct skip as [|k].
    + pose proof (prog_emit pre i (blk ++ post) E) as Hp. rewrite Nat.add_0_r.
      destruct (insn_step _ _ _) as [m'|n m'|r m'|] eqn:Hs; [..|done].
      * eapply continues_step; [by eapply step_next|].
        specialize (IH 0%nat m' E'). by rewrite !Nat.add_0_r, Nat.add_1_r in IH.
      * destruct (Z.leb_spec 0 n); [|done].
        eapply continues_step; [|by apply (IH (Z.to_nat n))]. eapply step_skip; [done..|lia].
      * by eapply step_halt.
    + specialize (IH k m E'). by replace (size pre + S k)%nat with (size pre + 1 + k)%nat by lia.
  - destruct skip as [|k].
    + destruct (jump_word_ok _ _ && _) eqn:Hok; [|done].
      apply andb_true_iff in Hok as [Hok Hcode%Z.eqb_eq]. unfold jump_word_ok in Hok.
      rewrite !andb_true_iff, Z.leb_le, Z.ltb_lt in Hok. destruct Hok as [[Hj ?] ?].
      destruct (prog_jump pre code dst src l imm (blk ++ post) E) as (t & Ht & Hp).
      assert (size pre < size ops)%nat. { rewrite E, size_app. cbn. lia. }
      pose proof (mark_target_bound l t Ht).
      rewrite as_i16_small in Hp by lia.
      assert (insn_step (w (time m)) (decode (set_off (ins code dst src 0 imm)
                (Z.of_nat t - Z.of_nat (size pre) - 1))) m =
              match insn_step (w (time m)) (decode (ins code dst src 0 imm)) m with
              | Skip _ m' => Skip (Z.of_nat t - Z.of_nat (size pre) - 1) m'
              | r => r
              end) as Hs.
      { rewrite decode_set_off, Hcode, jump_step_off by (done || lia).
        destruct (decode (ins code dst src 0 imm)) as [c d s o i] eqn:Ed. cbn in Hcode. subst c. cbn [i_dst i_src i_imm].
        rewrite (jump_step_off _ code d s o i) by done. by destruct (insn_step _ _ _). }
      rewrite Nat.add_0_r.
      destruct (insn_step _ (decode (ins _ _ _ _ _)) _) as [m'|n m'|r m'|] eqn:Hi; [..|done|done].
      * eapply continues_step; [by eapply step_next|].
        specialize (IH 0%nat m' E'). by rewrite !Nat.add_0_r, Nat.add_1_r in IH.
      * cbn. exists t. split; [done|]. eapply step_skip; [done..|lia].
    + specialize (IH k m E'). by replace (size pre + S k)%nat with (size pre + 1 + k)%nat by lia.
  - specialize (IH skip m E'). by rewrite Nat.add_0_r in IH.
Qed.
End program.
