(* ===== verification/EbpfExec.v ===== *)
(** * EbpfExec: executing the generated blocks

    Rules that execute one builder call symbolically, the map lookup every
    block starts with, and what each block of the program does from any state
    in which the registers that live across the scan hold the flow. *)

From S2P Require Import Prelude PolicyCidr Ebpf EbpfMachine EbpfAsm.

Open Scope Z_scope.

(** ** Memory *)

Lemma le_bytes_length n v : length (le_bytes n v) = n.
Proof. revert v. induction n; intros; cbn; auto. Qed.

Lemma le_value_bytes n v : le_value (le_bytes n v) = v mod 256 ^ Z.of_nat n.
Proof.
  revert v. induction n as [|n IH]; intros v; [cbn; by rewrite Z.mod_1_r|].
  cbn [le_bytes le_value]. rewrite IH, Nat2Z.inj_succ, Z.pow_succ_r, Z.rem_mul_r by lia. lia.
Qed.

Lemma le_value_app a b : le_value (a ++ b) = le_value a + 256 ^ Z.of_nat (length a) * le_value b.
Proof.
  induction a as [|x a IH]; [cbn [app length le_value]; change (256 ^ Z.of_nat 0) with 1; lia|]. cbn [app length le_value].
  rewrite IH, Nat2Z.inj_succ, Z.pow_succ_r by lia. lia.
Qed.

Lemma le_value_u32 v : 0 <= v < 2 ^ 32 → le_value (le_bytes 4 v) = v.
Proof. intros. rewrite le_value_bytes. by apply Z.mod_small. Qed.
Lemma le_value_u64 v : 0 <= v < 2 ^ 64 → le_value (le_bytes 8 v) = v.
Proof. intros. rewrite le_value_bytes. by apply Z.mod_small. Qed.
Lemma le_value_pair a b : 0 <= a < 2 ^ 32 → 0 <= b < 2 ^ 32 →
  le_value (le_bytes 4 a ++ le_bytes 4 b) = a + 2 ^ 32 * b.
Proof. intros. by rewrite le_value_app, le_bytes_length, !le_value_u32. Qed.

Lemma read_bytes_from m bs : ∀ off,
  (∀ i b, bs !! i = Some b → m (off + Z.of_nat i) = Some b) → read_bytes m off (length bs) = Some bs.
Proof.
  induction bs as [|b bs IH]; intros off H; [done|]. cbn.
  pose proof (H 0%nat b eq_refl) as H0. rewrite Z.add_0_r in H0. rewrite H0, IH; [done|].
  intros i x Hx. rewrite <-(H (S i) x Hx). f_equal. lia.
Qed.

Lemma read_bytes_ext m m' n : ∀ off,
  (∀ a, off <= a < off + Z.of_nat n → m a = m' a) → read_bytes m off n = read_bytes m' off n.
Proof.
  induction n as [|n IH]; intros off H; [done|]. cbn. rewrite (H off) by lia.
  rewrite (IH (off + 1)) by (intros; apply H; lia). done.
Qed.

Lemma load_store n m off v : load n (store n m off v) off = Some (v mod 256 ^ Z.of_nat n).
Proof.
  unfold load, store. rewrite <-(le_bytes_length n v) at 2.
  rewrite (read_bytes_from _ (le_bytes n v)); [cbn; by rewrite le_value_bytes|].
  intros i b Hi. unfold store_bytes. apply lookup_lt_Some in Hi as Hlt.
  destruct (Z.leb_spec off (off + Z.of_nat i)), (Z.ltb_spec (off + Z.of_nat i) (off + Z.of_nat (length (le_bytes n v)))); try lia.
  cbn. by replace (Z.to_nat (off + Z.of_nat i - off)) with i by lia.
Qed.

Lemma load_store_other n k m off off' v :
  off' + Z.of_nat n <= off ∨ off + Z.of_nat k <= off' →
  load n (store k m off v) off' = load n m off'.
Proof.
  intros H. unfold load. f_equal. apply read_bytes_ext. intros a Ha. unfold store, store_bytes.
  rewrite le_bytes_length. destruct (Z.leb_spec off a), (Z.ltb_spec a (off + Z.of_nat k)); try done. lia.
Qed.

Lemma load_of_bytes n bs off : 0 <= off → off + Z.of_nat n <= Z.of_nat (length bs) →
  load n (of_bytes bs) off = Some (le_value (take n (drop (Z.to_nat off) bs))).
Proof.
  intros. unfold load. set (l := take n (drop (Z.to_nat off) bs)).
  assert (length l = n) as Hl by (unfold l; rewrite length_take, length_drop; lia).
  rewrite <-Hl at 1. rewrite (read_bytes_from _ l); [done|]. intros i b Hi.
  apply lookup_lt_Some in Hi as Hlt. unfold l in Hi. rewrite lookup_take_lt, lookup_drop in Hi by lia.
  unfold of_bytes, store_bytes. destruct (Z.leb_spec 0 (off + Z.of_nat i)); [|lia].
  destruct (Z.ltb_spec (off + Z.of_nat i) (0 + Z.of_nat (length bs))); [|lia]. cbn.
  by replace (Z.to_nat (off + Z.of_nat i - 0)) with (Z.to_nat off + i)%nat by lia.
Qed.

(** ** Well-formed data *)

Definition u32 (z : Z) : Prop := 0 <= z < 2 ^ 32.
Definition u64 (z : Z) : Prop := 0 <= z < 2 ^ 64.
Definition wf_words (w : Words) : Prop := u32 (w0 w) ∧ u32 (w1 w) ∧ u32 (w2 w) ∧ u32 (w3 w).
Definition wf_entry (e : RuleEntry) : Prop :=
  wf_words (re_addr e) ∧ wf_words (re_mask e) ∧ u32 (re_proto e) ∧ u32 (re_port_raw e)
  ∧ u64 (re_expires_at_ns e).

Definition pair (a b : Z) : Z := a + 2 ^ 32 * b.

(** The loads the blocks make from an entry. *)
Section entry_loads.
Context (e : RuleEntry) (He : wf_entry e).

Lemma entry_bytes_length : length (entry_bytes e) = 56%nat.
Proof. done. Qed.

Ltac entry_load :=
  destruct He as ((? & ? & ? & ?) & (? & ? & ? & ?) & ? & ? & ?); unfold u32, u64 in *;
  rewrite load_of_bytes by (rewrite ?entry_bytes_length; lia);
  unfold entry_bytes, words_bytes, pair; cbn -[le_value].

Lemma entry_addr0 : load 4 (of_bytes (entry_bytes e)) 0 = Some (w0 (re_addr e)).
Proof. entry_load. f_equal. by apply (le_value_u32 (w0 (re_addr e))). Qed.
Lemma entry_mask0 : load 4 (of_bytes (entry_bytes e)) 16 = Some (w0 (re_mask e)).
Proof. entry_load. f_equal. by apply (le_value_u32 (w0 (re_mask e))). Qed.
Lemma entry_proto : load 4 (of_bytes (entry_bytes e)) 32 = Some (re_proto e).
Proof. entry_load. f_equal. by apply (le_value_u32 (re_proto e)). Qed.
Lemma entry_port : load 4 (of_bytes (entry_bytes e)) 36 = Some (re_port_raw e).
Proof. entry_load. f_equal. by apply (le_value_u32 (re_port_raw e)). Qed.
Lemma entry_expires : load 8 (of_bytes (entry_bytes e)) 48 = Some (re_expires_at_ns e).
Proof. entry_load. f_equal. by apply (le_value_u64 (re_expires_at_ns e)). Qed.
Lemma entry_addr_lo : load 8 (of_bytes (entry_bytes e)) 0 = Some (pair (w0 (re_addr e)) (w1 (re_addr e))).
Proof. entry_load. f_equal. by apply (le_value_pair (w0 (re_addr e)) (w1 (re_addr e))). Qed.
Lemma entry_addr_hi : load 8 (of_bytes (entry_bytes e)) 8 = Some (pair (w2 (re_addr e)) (w3 (re_addr e))).
Proof. entry_load. f_equal. by apply (le_value_pair (w2 (re_addr e)) (w3 (re_addr e))). Qed.
Lemma entry_mask_lo : load 8 (of_bytes (entry_bytes e)) 16 = Some (pair (w0 (re_mask e)) (w1 (re_mask e))).
Proof. entry_load. f_equal. by apply (le_value_pair (w0 (re_mask e)) (w1 (re_mask e))). Qed.
Lemma entry_mask_hi : load 8 (of_bytes (entry_bytes e)) 24 = Some (pair (w2 (re_mask e)) (w3 (re_mask e))).
Proof. entry_load. f_equal. by apply (le_value_pair (w2 (re_mask e)) (w3 (re_mask e))). Qed.
End entry_loads.

(** ** One call *)

Section rules.
Context (w : World).
Implicit Types (R : Z → Val) (st rc : Mem) (o : list Effect) (t : nat) (ops : list Op).

Lemma run_emit code dst src off imm ops R st rc o t m' :
  0 <= code < 256 → 0 <= dst < 16 → 0 <= src < 16 → - 2 ^ 15 <= off < 2 ^ 15 →
  insn_step (w t) (mkInsn code dst src off (as_i32 imm)) (mkMachine R st rc o t) = Next m' →
  run_ops w (Emit (ins code dst src off imm) :: ops) 0 (mkMachine R st rc o t) = run_ops w ops 0 m'.
Proof. intros. cbn [run_ops time]. rewrite decode_ins by done. by rewrite H3. Qed.

Lemma op_mark l ops m : run_ops w (MarkHere l :: ops) 0 m = run_ops w ops 0 m.
Proof. done. Qed.

Lemma op_mov d s ops R st rc o t : 0 <= d < 16 → 0 <= s < 16 → defined (R s) = true →
  run_ops w (Emit (ins BPF_MOV64_REG d s 0 0) :: ops) 0 (mkMachine R st rc o t)
  = run_ops w ops 0 (mkMachine (upd d (R s) R) st rc o (S t)).
Proof. intros ? ? H. apply run_emit; [done..|]. cbn. by rewrite H. Qed.

Lemma op_mov_imm d v ops R st rc o t : 0 <= d < 16 → 0 <= v < 2 ^ 31 →
  run_ops w (Emit (ins BPF_MOV64_IMM d 0 0 v) :: ops) 0 (mkMachine R st rc o t)
  = run_ops w ops 0 (mkMachine (upd d (Num v) R) st rc o (S t)).
Proof.
  intros ? ?. apply run_emit; [done..|]. cbn. unfold as_i32, set_reg. cbn.
  rewrite (Z.mod_small v) by lia. destruct (Z.ltb_spec v (2 ^ 31)); [|lia]. by rewrite Z.mod_small by lia.
Qed.

Lemma op_and d s ops R st rc o t x y : 0 <= d < 16 → 0 <= s < 16 → R d = Num x → R s = Num y →
  run_ops w (Emit (ins BPF_ALU64_AND_REG d s 0 0) :: ops) 0 (mkMachine R st rc o t)
  = run_ops w ops 0 (mkMachine (upd d (Num (Z.land x y)) R) st rc o (S t)).
Proof. intros ? ? H1 H2. apply run_emit; [done..|]. cbn. by rewrite H1, H2. Qed.

Lemma op_add d s ops R st rc o t x y : 0 <= d < 16 → 0 <= s < 16 → R d = Num x → R s = Num y →
  run_ops w (Emit (ins BPF_ALU64_ADD_REG d s 0 0) :: ops) 0 (mkMachine R st rc o t)
  = run_ops w ops 0 (mkMachine (upd d (Num ((x + y) mod 2 ^ 64)) R) st rc o (S t)).
Proof. intros ? ? H1 H2. apply run_emit; [done..|]. cbn -[Z.pow]. by rewrite H1, H2. Qed.

Lemma op_ldx_w d s off ops R st rc o t r b v : 0 <= d < 16 → 0 <= s < 16 → - 2 ^ 15 <= off < 2 ^ 15 →
  R s = Ptr r b → read (w t) (mkMachine R st rc o t) 4 r (b + off) = Some v →
  run_ops w (Emit (ins BPF_LDX_MEM_W d s off 0) :: ops) 0 (mkMachine R st rc o t)
  = run_ops w ops 0 (mkMachine (upd d (Num v) R) st rc o (S t)).
Proof. intros ? ? ? H1 H2. apply run_emit; [done..|]. cbn -[read]. by rewrite H1, H2. Qed.

Lemma op_ldx_dw d s off ops R st rc o t r b v : 0 <= d < 16 → 0 <= s < 16 → - 2 ^ 15 <= off < 2 ^ 15 →
  R s = Ptr r b → read (w t) (mkMachine R st rc o t) 8 r (b + off) = Some v →
  run_ops w (Emit (ins BPF_LDX_MEM_DW d s off 0) :: ops) 0 (mkMachine R st rc o t)
  = run_ops w ops 0 (mkMachine (upd d (Num v) R) st rc o (S t)).
Proof. intros ? ? ? H1 H2. apply run_emit; [done..|]. cbn -[read]. by rewrite H1, H2. Qed.

Lemma op_st_stack off v ops R st rc o t : -512 <= off <= -4 → R 10 = Ptr RStack 0 →
  run_ops w (Emit (ins BPF_ST_MEM_W 10 0 off v) :: ops) 0 (mkMachine R st rc o t)
  = run_ops w ops 0 (mkMachine R (store 4 st off (as_i32 v mod 2 ^ 64)) rc o (S t)).
Proof.
  intros ? H. apply run_emit; [(done || lia)..|]. cbn -[Z.pow as_i32]. rewrite H. cbn -[store Z.add Z.pow as_i32].
  rewrite !Z.add_0_l. destruct (Z.leb_spec (-512) off), (Z.leb_spec (off + Z.of_nat 4) 0); try lia. done.
Qed.

Lemma op_stx_dw_stack s off v ops R st rc o t : 0 <= s < 16 → -512 <= off <= -8 →
  R 10 = Ptr RStack 0 → R s = Num v →
  run_ops w (Emit (ins BPF_STX_MEM_DW 10 s off 0) :: ops) 0 (mkMachine R st rc o t)
  = run_ops w ops 0 (mkMachine R (store 8 st off v) rc o (S t)).
Proof.
  intros ? ? H1 H2. apply run_emit; [(done || lia)..|]. cbn. rewrite H1, H2. cbn -[store Z.add].
  rewrite !Z.add_0_l. destruct (Z.leb_spec (-512) off), (Z.leb_spec (off + Z.of_nat 8) 0); try lia. done.
Qed.

Lemma op_st_rec off v ops R st rc o t : 0 <= off <= 44 → R 4 = Ptr RRecord 0 →
  run_ops w (Emit (ins BPF_ST_MEM_W 4 0 off v) :: ops) 0 (mkMachine R st rc o t)
  = run_ops w ops 0 (mkMachine R st (store 4 rc off (as_i32 v mod 2 ^ 64)) o (S t)).
Proof.
  intros ? H. apply run_emit; [(done || lia)..|]. cbn -[Z.pow as_i32]. rewrite H. cbn -[store Z.add Z.pow as_i32].
  rewrite !Z.add_0_l. destruct (Z.leb_spec 0 off), (Z.leb_spec (off + Z.of_nat 4) EVENT_SIZE); try (unfold EVENT_SIZE in *; lia). done.
Qed.

Lemma op_stx_w_rec s off v ops R st rc o t : 0 <= s < 16 → 0 <= off <= 44 →
  R 4 = Ptr RRecord 0 → R s = Num v →
  run_ops w (Emit (ins BPF_STX_MEM_W 4 s off 0) :: ops) 0 (mkMachine R st rc o t)
  = run_ops w ops 0 (mkMachine R st (store 4 rc off v) o (S t)).
Proof.
  intros ? ? H1 H2. apply run_emit; [(done || lia)..|]. cbn. rewrite H1, H2. cbn -[store Z.add].
  rewrite !Z.add_0_l. destruct (Z.leb_spec 0 off), (Z.leb_spec (off + Z.of_nat 4) EVENT_SIZE); try (unfold EVENT_SIZE in *; lia). done.
Qed.

Lemma op_stx_dw_rec s off v ops R st rc o t : 0 <= s < 16 → 0 <= off <= 40 →
  R 4 = Ptr RRecord 0 → R s = Num v →
  run_ops w (Emit (ins BPF_STX_MEM_DW 4 s off 0) :: ops) 0 (mkMachine R st rc o t)
  = run_ops w ops 0 (mkMachine R st (store 8 rc off v) o (S t)).
Proof.
  intros ? ? H1 H2. apply run_emit; [(done || lia)..|]. cbn. rewrite H1, H2. cbn -[store Z.add].
  rewrite !Z.add_0_l. destruct (Z.leb_spec 0 off), (Z.leb_spec (off + Z.of_nat 8) EVENT_SIZE); try (unfold EVENT_SIZE in *; lia). done.
Qed.

(** ** Jumps *)

Lemma op_ja l ops R st rc o t :
  run_ops w (Jump BPF_JA 0 0 l 0 :: ops) 0 (mkMachine R st rc o t)
  = Goto l (mkMachine R st rc o (S t)).
Proof. done. Qed.

Lemma run_jump code d s l imm ops m : is_jump code = true → 0 <= d < 16 → 0 <= s < 16 →
  run_ops w (Jump code d s l imm :: ops) 0 m =
    match insn_step (w (time m)) (mkInsn code d s 0 (as_i32 imm)) m with
    | Next m' => run_ops w ops 0 m'
    | Skip _ m' => Goto l m'
    | _ => Bad
    end.
Proof.
  intros Hj Hd Hs. assert (0 <= code < 256) as Hc.
  { unfold is_jump in Hj. rewrite !orb_true_iff, !Z.eqb_eq in Hj.
    by destruct Hj as [[[[->| ->]| ->]| ->]| ->]. }
  cbn [run_ops]. rewrite decode_ins by (done || lia). cbn [i_code]. unfold jump_word_ok.
  pose proof (ins_range code d s 0 imm Hc Hd Hs). rewrite Hj, Z.eqb_refl.
  destruct (Z.leb_spec 0 (ins code d s 0 imm)), (Z.ltb_spec (ins code d s 0 imm) (2 ^ 64)); try lia. done.
Qed.

(** A conditional jump on a register that holds a number. *)
Lemma op_jeq d l ops R st rc o t x : 0 <= d < 16 → R d = Num x →
  run_ops w (Jump BPF_JEQ_K d 0 l 0 :: ops) 0 (mkMachine R st rc o t)
  = if x =? 0 then Goto l (mkMachine R st rc o (S t)) else run_ops w ops 0 (mkMachine R st rc o (S t)).
Proof. intros Hd H. rewrite run_jump by done. cbn. rewrite H. change (as_i32 0 mod _) with 0. by destruct (x =? 0). Qed.
Lemma op_jeq_ptr d l ops R st rc o t r b : 0 <= d < 16 → R d = Ptr r b →
  run_ops w (Jump BPF_JEQ_K d 0 l 0 :: ops) 0 (mkMachine R st rc o t)
  = run_ops w ops 0 (mkMachine R st rc o (S t)).
Proof. intros Hd H. rewrite run_jump by done. cbn. by rewrite H. Qed.
Lemma op_jset d l ops R st rc o t x : 0 <= d < 16 → R d = Num x →
  run_ops w (Jump BPF_JSET_K d 0 l 1 :: ops) 0 (mkMachine R st rc o t)
  = if Z.land x 1 =? 0 then run_ops w ops 0 (mkMachine R st rc o (S t)) else Goto l (mkMachine R st rc o (S t)).
Proof.
  intros Hd H. rewrite run_jump by done. cbn. rewrite H. change (as_i32 1 mod _) with 1. by destruct (Z.land x 1 =? 0).
Qed.
Lemma op_jne d s l ops R st rc o t x y : 0 <= d < 16 → 0 <= s < 16 → R d = Num x → R s = Num y →
  run_ops w (Jump BPF_JNE_X d s l 0 :: ops) 0 (mkMachine R st rc o t)
  = if x =? y then run_ops w ops 0 (mkMachine R st rc o (S t)) else Goto l (mkMachine R st rc o (S t)).
Proof. intros Hd Hs H1 H2. rewrite run_jump by done. cbn. rewrite H1, H2. by destruct (x =? y). Qed.
Lemma op_jle d s l ops R st rc o t x y : 0 <= d < 16 → 0 <= s < 16 → R d = Num x → R s = Num y →
  run_ops w (Jump BPF_JLE_X d s l 0 :: ops) 0 (mkMachine R st rc o t)
  = if x <=? y then Goto l (mkMachine R st rc o (S t)) else run_ops w ops 0 (mkMachine R st rc o (S t)).
Proof. intros Hd Hs H1 H2. rewrite run_jump by done. cbn. rewrite H1, H2. by destruct (x <=? y). Qed.

(** A jump over the next word, where a dynamic qualifier reads [any]. *)
Lemma op_skip_any ops R st rc o t x jmp : R 1 = Num x → size [jmp] = 1%nat →
  run_ops w (Emit (ins BPF_JEQ_K 1 0 1 0) :: jmp :: ops) 0 (mkMachine R st rc o t)
  = if x =? 0 then run_ops w ops 0 (mkMachine R st rc o (S t))
    else run_ops w (jmp :: ops) 0 (mkMachine R st rc o (S t)).
Proof.
  intros H Hs. cbn [run_ops]. rewrite decode_ins by done. cbn -[run_ops]. rewrite H. unfold branch.
  change (as_i32 0 mod _) with 0. destruct (x =? 0); [|done]. by destruct jmp.
Qed.

Lemma op_exit r ops R st rc o t : R 0 = Num r →
  run_ops w (Emit (ins BPF_EXIT 0 0 0 0) :: ops) 0 (mkMachine R st rc o t)
  = Done r (mkMachine R st rc o (S t)).
Proof. intros H. cbn [run_ops]. rewrite decode_ins by done. cbn. by rewrite H. Qed.

(** ** Helpers *)

Definition clobber R (v : Val) : Z → Val :=
  upd 0 v (upd 1 Undef (upd 2 Undef (upd 3 Undef (upd 4 Undef (upd 5 Undef R))))).

Lemma op_boot_ns ops R st rc o t :
  run_ops w (Emit (ins BPF_CALL 0 0 0 BPF_FUNC_KTIME_GET_BOOT_NS) :: ops) 0 (mkMachine R st rc o t)
  = run_ops w ops 0 (mkMachine (clobber R (Num (k_boot_ns (w t)))) st rc o (S t)).
Proof. by apply run_emit. Qed.
Lemma op_pid_tgid ops R st rc o t :
  run_ops w (Emit (ins BPF_CALL 0 0 0 BPF_FUNC_GET_CURRENT_PID_TGID) :: ops) 0 (mkMachine R st rc o t)
  = run_ops w ops 0 (mkMachine (clobber R (Num (k_pid_tgid (w t)))) st rc o (S t)).
Proof. by apply run_emit. Qed.

Lemma op_ld_map d fd ops R st rc o t : 0 <= d < 16 → 0 <= fd < 2 ^ 31 →
  run_ops w (ld_map d fd ++ ops) 0 (mkMachine R st rc o t)
  = run_ops w ops 0 (mkMachine (upd d (MapRef fd) R) st rc o (S t)).
Proof.
  intros Hd Hfd. cbn [run_ops ld_map app]. rewrite decode_ins by done.
  cbn -[run_ops ins as_i32]. replace (as_i32 fd) with fd; [done|].
  unfold as_i32. rewrite Z.mod_small by lia. by destruct (Z.ltb_spec fd (2 ^ 31)); [|lia].
Qed.

(** The lookup of [key] leaves the element or NULL in [r0]; only the scratch
    registers and the key's slot change. *)
Lemma op_lookup fd key v ops R st rc o t : 0 <= fd < 2 ^ 31 → 0 <= key < 2 ^ 31 →
  R 10 = Ptr RStack 0 → map_elem (w (4 + t)%nat) fd (Z.to_nat key) = Some v →
  ∃ R' st', run_ops w (lookup_ops fd key ++ ops) 0 (mkMachine R st rc o t)
            = run_ops w ops 0 (mkMachine R' st' rc o (5 + t)%nat)
    ∧ R' 0 = v ∧ (∀ r, 6 <= r → R' r = R r)
    ∧ (∀ n a, a + Z.of_nat n <= SLOT_KEY → load n st' a = load n st a).
Proof.
  intros Hfd Hkey H10 Hv.
  set (st' := store 4 st SLOT_KEY (as_i32 key mod 2 ^ 64)).
  set (R1 := upd 2 (Ptr RStack SLOT_KEY) (upd 2 (Ptr RStack 0) (upd 1 (MapRef fd) R))).
  exists (clobber R1 v), st'.
  split; [|split_and!; [done| |]].
  - unfold lookup_ops. cbn [app]. rewrite op_st_stack by (done || lia).
    rewrite <-app_assoc, op_ld_map by done. cbn [app].
    rewrite op_mov; [|done..|cbn; by rewrite H10].
    erewrite run_emit; [|done..|cbn; rewrite H10; reflexivity].
    apply run_emit; [done..|]. fold st'. change (0 + as_i32 SLOT_KEY) with SLOT_KEY. fold R1.
    change (as_i32 BPF_FUNC_MAP_LOOKUP_ELEM) with BPF_FUNC_MAP_LOOKUP_ELEM. cbn -[load st'].
    assert (load 4 st' SLOT_KEY = Some key) as ->.
    { unfold st'. rewrite load_store. f_equal. unfold as_i32. rewrite (Z.mod_small key) by lia.
      destruct (Z.ltb_spec key (2 ^ 31)); [|lia]. rewrite (Z.mod_small key (2 ^ 64)) by lia.
      apply Z.mod_small. change (256 ^ Z.of_nat 4) with (2 ^ 32). lia. }
    cbn [Nat.add] in Hv. by rewrite Hv.
  - intros r Hr. unfold clobber, R1, upd.
    repeat match goal with |- context [r =? ?n] => destruct (Z.eqb_spec r n); [lia|] end. done.
  - intros n a Ha. unfold st'. apply load_store_other. by left.
Qed.
End rules.

(** ** Matching *)

(** The destination of a flow as the hooks see it, in context byte order. *)
Record Flow := mkFlow { fl_addr : Words; fl_port_raw : Z; fl_proto : Z }.
Definition wf_flow (f : Flow) : Prop := wf_words (fl_addr f) ∧ u32 (fl_port_raw f) ∧ u32 (fl_proto f).

Definition word_matches (a mask addr : Z) : bool := Z.land a mask =? addr.

(** [v4] entries are compared on their first word. *)
Definition addr_matches (v6 : bool) (a : Words) (e : RuleEntry) : bool :=
  if v6 then
    (word_matches (w0 a) (w0 (re_mask e)) (w0 (re_addr e))
     && word_matches (w1 a) (w1 (re_mask e)) (w1 (re_addr e)))
    && (word_matches (w2 a) (w2 (re_mask e)) (w2 (re_addr e))
        && word_matches (w3 a) (w3 (re_mask e)) (w3 (re_addr e)))
  else word_matches (w0 a) (w0 (re_mask e)) (w0 (re_addr e)).

Definition qual_matches (field v : Z) : bool := (field =? 0) || (field =? v).

Definition entry_matches (v6 : bool) (f : Flow) (e : RuleEntry) : bool :=
  addr_matches v6 (fl_addr f) e
  && (qual_matches (re_proto e) (fl_proto f) && qual_matches (re_port_raw e) (fl_port_raw f)).

(** A grant that is present and not expired. *)
Definition live (now : Z) (e : RuleEntry) : bool :=
  negb (re_expires_at_ns e =? 0) && negb (re_expires_at_ns e <=? now).

Lemma pair_eqb a b c d : u32 a → u32 b → u32 c → u32 d →
  (pair a b =? pair c d) = (a =? c) && (b =? d).
Proof.
  unfold u32, pair. intros. apply eq_true_iff_eq. rewrite andb_true_iff, !Z.eqb_eq. lia.
Qed.

Lemma pair_lor a b : u32 a → pair a b = Z.lor a (Z.shiftl b 32).
Proof. intros H. unfold pair. rewrite lor_disjoint by (done || apply H). lia. Qed.

Lemma land_u32 a b : u32 a → u32 (Z.land a b).
Proof.
  intros Ha. replace (Z.land a b) with (Z.land a b mod 2 ^ 32); [apply Z.mod_pos_bound; lia|].
  rewrite <-Z.land_ones, <-Z.land_assoc, (Z.land_comm b), Z.land_assoc, Z.land_ones by lia.
  by rewrite (Z.mod_small a) by apply Ha.
Qed.

Lemma pair_land a b c d : u32 a → u32 c → Z.land (pair a b) (pair c d) = pair (Z.land a c) (Z.land b d).
Proof.
  intros Ha Hc. rewrite !pair_lor by (try apply land_u32; done). apply Z.bits_inj'. intros i Hi.
  rewrite !Z.lor_spec, !Z.land_spec, !Z.lor_spec, !Z.shiftl_spec, !Z.land_spec by lia.
  destruct (decide (i < 32)).
  - by rewrite (Z.testbit_neg_r b), (Z.testbit_neg_r d), !orb_false_r by lia.
  - by rewrite (testbit_above 32 a), (testbit_above 32 c) by (done || lia).
Qed.

Lemma land_all_ones a : u32 a → Z.land a (2 ^ 32 - 1) = a.
Proof. intros Ha. change (2 ^ 32 - 1) with (Z.ones 32). rewrite Z.land_ones by lia. by apply Z.mod_small. Qed.

(** ** Compares *)

Section checks.
Context (w : World) (v6 : bool) (f : Flow) (now : Z) (reg : Region) (ent : nat → RuleEntry).
Context (Hf : wf_flow f) (Hent : ∀ t, wf_entry (ent t)).
Context (Hread : ∀ t m n off, read (w t) m n reg off = load n (of_bytes (entry_bytes (ent t))) off).
Implicit Types (R : Z → Val) (st rc : Mem) (o : list Effect) (t : nat).

(** The registers and stack slots that live across the scan. *)
Definition scanning R st : Prop :=
  R 10 = Ptr RStack 0
  ∧ R 7 = Num (if v6 then pair (w0 (fl_addr f)) (w1 (fl_addr f)) else w0 (fl_addr f))
  ∧ R 8 = Num (fl_port_raw f) ∧ R 9 = Num (fl_proto f)
  ∧ load 8 st SLOT_NOW = Some now
  ∧ (v6 = true → load 8 st SLOT_ADDR_HI = Some (pair (w2 (fl_addr f)) (w3 (fl_addr f)))).

Definition keeps_regs R R' : Prop := ∀ r, r = 0 ∨ 6 <= r → R' r = R r.

(** [blk] goes on exactly when the entry passes [test], wherever it is read,
    and otherwise leaves for the next block. *)
Definition checks (blk : list Op) (slot : Z) (test : RuleEntry → bool) : Prop :=
  ∀ rest R st rc o t, scanning R st → R 0 = Ptr reg 0 →
  ∃ R' t' (b : bool),
    run_ops w (blk ++ rest) 0 (mkMachine R st rc o t)
    = (if b then run_ops w rest 0 (mkMachine R' st rc o t') else Goto (MNext slot) (mkMachine R' st rc o t'))
    ∧ (t ≤ t')%nat ∧ keeps_regs R R'
    ∧ (∀ e, (∀ u, (t ≤ u ≤ t')%nat → ent u = e) → b = test e).

Lemma scanning_keeps R R' st : scanning R st → keeps_regs R R' → scanning R' st.
Proof.
  intros (H10 & H7 & H8 & H9 & Hn & Hhi) H. unfold keeps_regs in H.
  repeat split; rewrite ?H by lia; done.
Qed.

Lemma checks_app a b slot p q : checks a slot p → checks b slot q →
  checks (a ++ b) slot (λ e, p e && q e).
Proof.
  intros Ha Hb rest R st rc o t Hs H0. rewrite <-app_assoc.
  destruct (Ha (b ++ rest) R st rc o t Hs H0) as (R1 & t1 & b1 & -> & Ht1 & Hk1 & Hb1).
  destruct b1; [|exists R1, t1, false; split_and!; try done; intros e He; rewrite <-(Hb1 e) by done; done].
  destruct (Hb rest R1 st rc o t1) as (R2 & t2 & b2 & -> & Ht2 & Hk2 & Hb2).
  { by eapply scanning_keeps. } { rewrite Hk1 by lia. done. }
  exists R2, t2, b2. split_and!; [done|lia| |].
  - intros r Hr. by rewrite Hk2, Hk1.
  - intros e He. rewrite <-(Hb1 e), <-(Hb2 e); [done|intros; apply He; lia..].
Qed.

Lemma checks_proper p q blk slot : (∀ e, q e = p e) → checks blk slot p → checks blk slot q.
Proof.
  intros Hpq H rest R st rc o t Hs H0. destruct (H rest R st rc o t Hs H0) as (R' & t' & b & ? & ? & ? & Hb).
  exists R', t', b. split_and!; [done..|]. intros e He. by rewrite Hpq, (Hb e He).
Qed.

Lemma checks_nil slot p : (∀ t, p (ent t) = true) → checks [] slot p.
Proof.
  intros H rest R st rc o t Hs H0. exists R, t, true. split_and!; [done..|].
  intros e He. by rewrite <-(He t), H by lia.
Qed.

(** A register read back through the updates, whatever they were. *)
Ltac reg := cbn [upd Z.eqb Pos.eqb];
  solve [eassumption | reflexivity | match goal with H : ?R ?n = _ |- context [?R ?n] => by rewrite H end].
Ltac entry_read L := rewrite Hread; exact (L _ (Hent _)).
Ltac kept := intros r Hr; unfold upd;
  repeat match goal with |- context [r =? ?n] => destruct (Z.eqb_spec r n); [lia|] end; done.
Ltac start Hv := intros rest R st rc o t (H10 & H7 & H8 & H9 & Hn & Hhi) H0;
  rewrite Hv in H7; try match goal with H : v6 = true → _ |- _ => specialize (H Hv) end.
(** The compare that ends a check decides it. *)
Ltac decides := unfold next; erewrite op_jne; [|done..|reg|reg];
  do 3 eexists; split; [reflexivity|]; split_and!; [lia|kept|].

Lemma check_v4_masked slot : v6 = false →
  checks (cmp_v4 CmpMasked slot) slot (addr_matches v6 (fl_addr f)).
Proof.
  intros Hv. start Hv. cbn [cmp_v4 app].
  erewrite op_ldx_w; [|done..|reg|entry_read entry_mask0]. erewrite op_mov; [|done..|reg].
  erewrite op_and; [|done..|reg|reg]. erewrite op_ldx_w; [|done..|reg|entry_read entry_addr0].
  decides. intros e He. rewrite !He by lia. by rewrite Hv.
Qed.

Lemma check_lo_masked slot : v6 = true →
  checks (cmp_v6_lo CmpMasked slot) slot
    (λ e, word_matches (w0 (fl_addr f)) (w0 (re_mask e)) (w0 (re_addr e))
          && word_matches (w1 (fl_addr f)) (w1 (re_mask e)) (w1 (re_addr e))).
Proof.
  intros Hv. start Hv. cbn [cmp_v6_lo app].
  erewrite op_ldx_dw; [|done..|reg|entry_read entry_mask_lo]. erewrite op_mov; [|done..|reg].
  erewrite op_and; [|done..|reg|reg]. erewrite op_ldx_dw; [|done..|reg|entry_read entry_addr_lo].
  decides. intros e He. rewrite !He by lia.
  destruct (Hent t) as ((? & ? & ? & ?) & (? & ? & ? & ?) & _). rewrite He in * by lia.
  destruct Hf as ((? & ? & ? & ?) & _ & _). rewrite pair_land by done. by apply pair_eqb; try apply land_u32.
Qed.

Lemma check_hi_masked slot : v6 = true →
  checks (cmp_v6_hi CmpMasked slot) slot
    (λ e, word_matches (w2 (fl_addr f)) (w2 (re_mask e)) (w2 (re_addr e))
          && word_matches (w3 (fl_addr f)) (w3 (re_mask e)) (w3 (re_addr e))).
Proof.
  intros Hv. start Hv. cbn [cmp_v6_hi app].
  erewrite op_ldx_dw; [|done..|reg|entry_read entry_mask_hi].
  erewrite op_ldx_dw; [|done..|reg|exact Hhi].
  erewrite op_and; [|done..|reg|reg]. erewrite op_ldx_dw; [|done..|reg|entry_read entry_addr_hi].
  decides. intros e He. rewrite !He by lia.
  destruct (Hent t) as ((? & ? & ? & ?) & (? & ? & ? & ?) & _). rewrite He in * by lia.
  destruct Hf as ((? & ? & ? & ?) & _ & _). rewrite pair_land by done. by apply pair_eqb; try apply land_u32.
Qed.

(** *** Folded compares, for an entry that never changes *)

Ltac split_if H := match goal with |- context [if ?c then _ else _] => destruct c eqn:H end.

Section static.
Context (e0 : RuleEntry) (Hfix : ∀ t, ent t = e0).

Lemma check_v4_static slot : v6 = false →
  checks (cmp_v4 (word_cmp (w0 (re_mask e0)) (w0 (re_addr e0))) slot) slot (addr_matches v6 (fl_addr f)).
Proof.
  intros Hv. unfold word_cmp. split_if Hz; [|split_if Hall].
  - rewrite andb_true_iff, !Z.eqb_eq in Hz. destruct Hz as [Hm Ha]. cbn [cmp_v4]. apply checks_nil.
    intros t. rewrite Hv, Hfix. unfold addr_matches, word_matches. by rewrite Hm, Ha, Z.land_0_r.
  - apply Z.eqb_eq in Hall. start Hv. cbn [cmp_v4 app].
    erewrite op_ldx_w; [|done..|reg|entry_read entry_addr0]. decides.
    intros e He. rewrite !He, Hv by lia. rewrite <-(He t), Hfix by lia.
    unfold addr_matches, word_matches. rewrite Hall, land_all_ones; [done|]. apply Hf.
  - by apply check_v4_masked.
Qed.

Lemma check_lo_static slot : v6 = true →
  checks (cmp_v6_lo (pair_cmp (w0 (re_mask e0)) (w1 (re_mask e0)) (w0 (re_addr e0)) (w1 (re_addr e0))) slot) slot
    (λ e, word_matches (w0 (fl_addr f)) (w0 (re_mask e)) (w0 (re_addr e))
          && word_matches (w1 (fl_addr f)) (w1 (re_mask e)) (w1 (re_addr e))).
Proof.
  intros Hv. destruct Hf as ((Hf0 & Hf1 & Hf2 & Hf3) & _ & _). unfold pair_cmp.
  split_if Hz; [|split_if Hall].
  - rewrite !andb_true_iff, !Z.eqb_eq in Hz. destruct Hz as [[Hm0 Hm1] [Ha0 Ha1]]. cbn [cmp_v6_lo]. apply checks_nil.
    intros t. rewrite Hfix. unfold word_matches. by rewrite Hm0, Hm1, Ha0, Ha1, !Z.land_0_r.
  - rewrite andb_true_iff, !Z.eqb_eq in Hall. destruct Hall as [Hm0 Hm1]. start Hv. cbn [cmp_v6_lo app].
    erewrite op_ldx_dw; [|done..|reg|entry_read entry_addr_lo]. decides.
    intros e He. rewrite !He by lia. destruct (Hent t) as ((? & ? & ? & ?) & _). rewrite He in * by lia.
    rewrite <-(He t), Hfix in * by lia. unfold word_matches. rewrite Hm0, Hm1, !land_all_ones by done. by apply pair_eqb.
  - by apply check_lo_masked.
Qed.

Lemma check_hi_static slot : v6 = true →
  checks (cmp_v6_hi (pair_cmp (w2 (re_mask e0)) (w3 (re_mask e0)) (w2 (re_addr e0)) (w3 (re_addr e0))) slot) slot
    (λ e, word_matches (w2 (fl_addr f)) (w2 (re_mask e)) (w2 (re_addr e))
          && word_matches (w3 (fl_addr f)) (w3 (re_mask e)) (w3 (re_addr e))).
Proof.
  intros Hv. destruct Hf as ((Hf0 & Hf1 & Hf2 & Hf3) & _ & _). unfold pair_cmp.
  split_if Hz; [|split_if Hall].
  - rewrite !andb_true_iff, !Z.eqb_eq in Hz. destruct Hz as [[Hm0 Hm1] [Ha0 Ha1]]. cbn [cmp_v6_hi]. apply checks_nil.
    intros t. rewrite Hfix. unfold word_matches. by rewrite Hm0, Hm1, Ha0, Ha1, !Z.land_0_r.
  - rewrite andb_true_iff, !Z.eqb_eq in Hall. destruct Hall as [Hm0 Hm1]. start Hv. cbn [cmp_v6_hi app].
    erewrite op_ldx_dw; [|done..|reg|entry_read entry_addr_hi].
    erewrite op_ldx_dw; [|done..|reg|exact Hhi]. decides.
    intros e He. rewrite !He by lia. destruct (Hent t) as ((? & ? & ? & ?) & _). rewrite He in * by lia.
    rewrite <-(He t), Hfix in * by lia. unfold word_matches. rewrite Hm0, Hm1, !land_all_ones by done. by apply pair_eqb.
  - by apply check_hi_masked.
Qed.

Lemma check_addr_static kind slot : is_v6 kind = v6 →
  checks (cmp_addr kind (Some e0) slot) slot (addr_matches v6 (fl_addr f)).
Proof.
  intros Hk. unfold cmp_addr. rewrite Hk. destruct v6 eqn:Hv; [|rewrite <-Hv; by apply check_v4_static].
  rewrite <-Hv. eapply (checks_proper (λ e, _ && _)); [|apply checks_app; [by apply check_lo_static|by apply check_hi_static]].
  by rewrite Hv.
Qed.

Lemma check_proto_static slot :
  checks (cmp_qual 32 9 (re_proto e0 =? 0) false slot) slot (λ e, qual_matches (re_proto e) (fl_proto f)).
Proof.
  unfold cmp_qual. destruct (re_proto e0 =? 0) eqn:Hz.
  - apply checks_nil. intros t. unfold qual_matches. by rewrite Hfix, Hz.
  - intros rest R st rc o t (H10 & H7 & H8 & H9 & Hn & Hhi) H0. cbn [app].
    erewrite op_ldx_w; [|done..|reg|entry_read entry_proto]. decides.
    intros e He. rewrite !He by lia. unfold qual_matches. by rewrite <-(He t), Hfix, Hz by lia.
Qed.
Lemma check_port_static slot :
  checks (cmp_qual 36 8 (re_port_raw e0 =? 0) false slot) slot (λ e, qual_matches (re_port_raw e) (fl_port_raw f)).
Proof.
  unfold cmp_qual. destruct (re_port_raw e0 =? 0) eqn:Hz.
  - apply checks_nil. intros t. unfold qual_matches. by rewrite Hfix, Hz.
  - intros rest R st rc o t (H10 & H7 & H8 & H9 & Hn & Hhi) H0. cbn [app].
    erewrite op_ldx_w; [|done..|reg|entry_read entry_port]. decides.
    intros e He. rewrite !He by lia. unfold qual_matches. by rewrite <-(He t), Hfix, Hz by lia.
Qed.
End static.

(** *** Compares that read the entry at run time *)

Lemma check_addr_grant kind slot : is_v6 kind = v6 →
  checks (cmp_addr kind None slot) slot (addr_matches v6 (fl_addr f)).
Proof.
  intros Hk. unfold cmp_addr. rewrite Hk. destruct v6 eqn:Hv; [|rewrite <-Hv; by apply check_v4_masked].
  rewrite <-Hv. eapply (checks_proper (λ e, _ && _)); [|apply checks_app; [by apply check_lo_masked|by apply check_hi_masked]].
  by rewrite Hv.
Qed.

Lemma check_proto_grant slot :
  checks (cmp_qual 32 9 false true slot) slot (λ e, qual_matches (re_proto e) (fl_proto f)).
Proof.
  intros rest R st rc o t (H10 & H7 & H8 & H9 & Hn & Hhi) H0. cbn [cmp_qual app].
  erewrite op_ldx_w; [|done..|reg|entry_read entry_proto]. erewrite op_skip_any; [|reg|done].
  destruct (_ =? 0) eqn:Hz; [|decides; intros e He; rewrite !He in * by lia; unfold qual_matches; by rewrite Hz].
  do 2 eexists. exists true. split; [reflexivity|]. split_and!; [lia|kept|].
  intros e He. unfold qual_matches. by rewrite <-(He t), Hz by lia.
Qed.
Lemma check_port_grant slot :
  checks (cmp_qual 36 8 false true slot) slot (λ e, qual_matches (re_port_raw e) (fl_port_raw f)).
Proof.
  intros rest R st rc o t (H10 & H7 & H8 & H9 & Hn & Hhi) H0. cbn [cmp_qual app].
  erewrite op_ldx_w; [|done..|reg|entry_read entry_port]. erewrite op_skip_any; [|reg|done].
  destruct (_ =? 0) eqn:Hz; [|decides; intros e He; rewrite !He in * by lia; unfold qual_matches; by rewrite Hz].
  do 2 eexists. exists true. split; [reflexivity|]. split_and!; [lia|kept|].
  intros e He. unfold qual_matches. by rewrite <-(He t), Hz by lia.
Qed.

Lemma check_expiry slot : checks (expiry_check slot) slot (live now).
Proof.
  intros rest R st rc o t (H10 & H7 & H8 & H9 & Hn & Hhi) H0. cbn [expiry_check app]. unfold next.
  erewrite op_ldx_dw; [|done..|reg|entry_read entry_expires]. erewrite op_jeq; [|done|reg].
  destruct (_ =? 0) eqn:Hz.
  { do 2 eexists. exists false. split; [reflexivity|]. split_and!; [lia|kept|].
    intros e He. unfold live. by rewrite <-(He t), Hz by lia. }
  erewrite op_ldx_dw; [|done..|reg|exact Hn]. erewrite op_jle; [|done..|reg|reg].
  destruct (_ <=? _) eqn:Hle; do 2 eexists; [exists false|exists true]; (split; [reflexivity|]);
    (split_and!; [lia|kept|]); intros e He; unfold live; by rewrite <-(He t), Hz, Hle by lia.
Qed.
End checks.
