(* ===== verification/EbpfProgram.v ===== *)
(** * EbpfProgram: the phases of a generated program

    The program of a hook as its phases, and what the phases do when they are
    run. *)

From S2P Require Import Prelude PolicyCidr Ebpf EbpfMachine EbpfAsm EbpfExec.

Open Scope Z_scope.

(** ** The hook's context *)

(** [struct bpf_sock_addr], up to [protocol]. *)
Record SockAddr := mkSockAddr {
  sa_user_family : Z;
  sa_ip4 : Z;
  sa_ip6 : Words;
  sa_port : Z;
  sa_family : Z;
  sa_type : Z;
  sa_protocol : Z;
}.
Definition ctx_bytes (s : SockAddr) : list Z :=
  le_bytes 4 (sa_user_family s) ++ le_bytes 4 (sa_ip4 s) ++ words_bytes (sa_ip6 s)
  ++ le_bytes 4 (sa_port s) ++ le_bytes 4 (sa_family s) ++ le_bytes 4 (sa_type s)
  ++ le_bytes 4 (sa_protocol s).
Definition wf_sock_addr (s : SockAddr) : Prop :=
  u32 (sa_ip4 s) ∧ wf_words (sa_ip6 s) ∧ u32 (sa_port s) ∧ u32 (sa_protocol s).

Definition flow_of (kind : ProgKind) (s : SockAddr) : Flow :=
  mkFlow (if is_v6 kind then sa_ip6 s else W4 (sa_ip4 s) 0 0 0) (sa_port s) (sa_protocol s).

Section ctx_loads.
Context (s : SockAddr) (Hs : wf_sock_addr s).

Ltac ctx_load := unfold USER_IP4, USER_IP6, USER_PORT, PROTOCOL; destruct Hs as (? & (? & ? & ? & ?) & ? & ?);
  rewrite load_of_bytes by (change (length (ctx_bytes s)) with 40%nat; lia);
  unfold ctx_bytes, words_bytes; cbn -[le_value].

Lemma ctx_ip4 : load 4 (of_bytes (ctx_bytes s)) USER_IP4 = Some (sa_ip4 s).
Proof. ctx_load. f_equal. by apply (le_value_u32 (sa_ip4 s)). Qed.
Lemma ctx_ip6_lo : load 8 (of_bytes (ctx_bytes s)) USER_IP6 = Some (pair (w0 (sa_ip6 s)) (w1 (sa_ip6 s))).
Proof. ctx_load. f_equal. by apply (le_value_pair (w0 (sa_ip6 s)) (w1 (sa_ip6 s))). Qed.
Lemma ctx_ip6_hi : load 8 (of_bytes (ctx_bytes s)) (USER_IP6 + 8) = Some (pair (w2 (sa_ip6 s)) (w3 (sa_ip6 s))).
Proof. ctx_load. f_equal. by apply (le_value_pair (w2 (sa_ip6 s)) (w3 (sa_ip6 s))). Qed.
Lemma ctx_port : load 4 (of_bytes (ctx_bytes s)) USER_PORT = Some (sa_port s).
Proof. ctx_load. f_equal. by apply (le_value_u32 (sa_port s)). Qed.
Lemma ctx_protocol : load 4 (of_bytes (ctx_bytes s)) PROTOCOL = Some (sa_protocol s).
Proof. ctx_load. f_equal. by apply (le_value_u32 (sa_protocol s)). Qed.
End ctx_loads.

(** ** Marks *)

Definition labels_of (ops : list Op) : list Mark := (op_fixups 0 ops).*2.

Lemma op_fixups_labels n ops : (op_fixups n ops).*2 = labels_of ops.
Proof.
  unfold labels_of. generalize 0%nat. revert n.
  induction ops as [|[] ops IH]; intros n n'; cbn; [done|apply IH| |apply IH]. f_equal. apply IH.
Qed.
Lemma labels_of_app a b : labels_of (a ++ b) = labels_of a ++ labels_of b.
Proof. unfold labels_of at 1. by rewrite op_fixups_app, fmap_app, !op_fixups_labels. Qed.

Lemma mark_target_some n ops l : l ∈ marks_of ops → is_Some (mark_target (op_marks n ops) l).
Proof.
  rewrite <-(op_marks_shift n). unfold mark_target. generalize (op_marks n ops). intros ms H.
  induction ms as [|[l' t] ms IH]; cbn in *; [by apply elem_of_nil in H|].
  case_bool_decide; [by eexists|]. apply IH. set_solver.
Qed.

(** The builder resolves every jump when each label is bound. *)
Lemma resolve_total ops : labels_of ops ⊆ marks_of ops →
  is_Some (resolve_jumps (foldl apply_op builder_new ops)).
Proof.
  intros H. unfold resolve_jumps. rewrite builder_runs. cbn. apply resolve_loop_total.
  apply Forall_forall. intros [p l] Hin. cbn. split.
  - apply mark_target_some, H. unfold labels_of. apply list_elem_of_fmap. by exists (p, l).
  - rewrite size_words. apply op_fixups_from in Hin. lia.
Qed.

Lemma unique_target ops a l b : NoDup (marks_of ops) → ops = a ++ MarkHere l :: b →
  mark_target (op_marks 0 ops) l = Some (size a).
Proof.
  intros Hnd ->. apply mark_target_at. intros Hin. rewrite marks_of_app in Hnd.
  apply NoDup_app in Hnd as (_ & Hnd & _). apply (Hnd l Hin).
  change (MarkHere l :: b) with ([MarkHere l] ++ b). rewrite marks_of_app. set_solver.
Qed.

Lemma elem_of_concat {A} (ls : list (list A)) x : x ∈ concat ls ↔ ∃ l, x ∈ l ∧ l ∈ ls.
Proof. induction ls; cbn; set_solver. Qed.
Lemma concat_labels (blocks : list (list Op)) : labels_of (concat blocks) = concat (labels_of <$> blocks).
Proof. induction blocks as [|b bs IH]; [done|]. cbn [concat]. by rewrite labels_of_app, IH. Qed.
Lemma concat_marks (blocks : list (list Op)) : marks_of (concat blocks) = concat (marks_of <$> blocks).
Proof. induction blocks as [|b bs IH]; [done|]. cbn [concat]. by rewrite marks_of_app, IH. Qed.
Lemma concat_size (blocks : list (list Op)) n : (∀ b, b ∈ blocks → (size b ≤ n)%nat) →
  (size (concat blocks) ≤ n * length blocks)%nat.
Proof.
  induction blocks as [|b bs IH]; intros H; cbn; [lia|]. rewrite size_app.
  pose proof (H b ltac:(set_solver)). specialize (IH ltac:(set_solver)). lia.
Qed.

(** ** The shape of a program *)

Lemma cmp_addr_shape kind entry slot :
  marks_of (cmp_addr kind entry slot) = [] ∧ labels_of (cmp_addr kind entry slot) ⊆ [MNext slot]
  ∧ (size (cmp_addr kind entry slot) ≤ 10)%nat.
Proof.
  unfold cmp_addr. destruct (is_v6 kind).
  - rewrite marks_of_app, labels_of_app, size_app.
    generalize (match entry with None => CmpMasked | Some e => pair_cmp (w0 (re_mask e)) (w1 (re_mask e)) (w0 (re_addr e)) (w1 (re_addr e)) end).
    generalize (match entry with None => CmpMasked | Some e => pair_cmp (w2 (re_mask e)) (w3 (re_mask e)) (w2 (re_addr e)) (w3 (re_addr e)) end).
    intros c d. destruct c, d; cbn -[ins]; (split_and!; [done|set_solver|lia]).
  - generalize (match entry with None => CmpMasked | Some e => word_cmp (w0 (re_mask e)) (w0 (re_addr e)) end).
    intros c. destruct c; cbn -[ins]; (split_and!; [done|set_solver|lia]).
Qed.

Lemma cmp_qual_shape field r any grants slot :
  marks_of (cmp_qual field r any grants slot) = [] ∧ labels_of (cmp_qual field r any grants slot) ⊆ [MNext slot]
  ∧ (size (cmp_qual field r any grants slot) ≤ if grants then 3 else 2)%nat.
Proof. destruct any, grants; cbn -[ins]; (split_and!; [done|set_solver|lia]). Qed.

Lemma block_shape kind maps i entry hit :
  let grants := match entry with None => true | Some _ => false end in
  let blk := rule_block_ex kind maps i entry hit in
  marks_of blk = [MNext (block_slot i grants)] ∧ labels_of blk ⊆ [hit; MNext (block_slot i grants)]
  ∧ (size blk ≤ if grants then 28 else 23)%nat.
Proof.
  intros grants blk. unfold blk, rule_block_ex. fold grants. set (slot := block_slot i grants).
  rewrite !marks_of_app, !labels_of_app, !size_app.
  destruct (cmp_addr_shape kind entry slot) as (-> & Hl & Hs).
  destruct (cmp_qual_shape 32 9 (match entry with None => false | Some e => re_proto e =? 0 end) grants slot) as (-> & Hl1 & Hs1).
  destruct (cmp_qual_shape 36 8 (match entry with None => false | Some e => re_port_raw e =? 0 end) grants slot) as (-> & Hl2 & Hs2).
  destruct grants; cbn -[ins cmp_addr cmp_qual] in *; split_and!; try done; try lia;
    set_solver.
Qed.

Section shape.
Context (kind : ProgKind) (maps : ProgMaps) (entries : list RuleEntry) (slots : nat) (default_allow : bool).

Lemma static_marks : marks_of (static_blocks kind maps entries) = (λ i, MNext (Z.of_nat i)) <$> seq 0 (length entries).
Proof.
  unfold static_blocks. rewrite concat_marks.
  assert (∀ k, concat (marks_of <$> imap (λ i e, rule_block_ex kind maps (k + i) (Some e)
                 (if re_action e =? ACTION_ALLOW then MAllow else MDeny)) entries)
               = (λ i, MNext (Z.of_nat i)) <$> seq k (length entries)) as H; [|apply (H 0%nat)].
  induction entries as [|e es IH]; intros k; [done|]. cbn [imap fmap list_fmap concat length seq].
  destruct (block_shape kind maps (k + 0) (Some e) (if re_action e =? ACTION_ALLOW then MAllow else MDeny)) as [-> _].
  unfold block_slot. rewrite Nat.add_0_r, Z.add_0_r. cbn [app]. f_equal. rewrite <-IH. f_equal. f_equal.
  apply imap_ext. intros j x _. cbn. by rewrite Nat.add_succ_r.
Qed.

Lemma grant_marks seqlock : marks_of (grant_blocks kind maps slots seqlock)
  = (λ i, MNext (Z.of_nat i + 1000000)) <$> seq 0 slots.
Proof.
  unfold grant_blocks. rewrite concat_marks, <-list_fmap_compose. generalize 0%nat as k.
  induction slots as [|n IH]; intros k; [done|]. cbn [seq fmap list_fmap concat].
  destruct (block_shape kind maps k None (if seqlock then MGrantAllow else MAllow)) as [H _].
  cbn [compose] in *. unfold compose at 1. rewrite H. cbn [app block_slot]. f_equal. apply IH.
Qed.

Lemma static_labels : labels_of (static_blocks kind maps entries)
  ⊆ [MAllow; MDeny] ++ marks_of (static_blocks kind maps entries).
Proof.
  unfold static_blocks. rewrite concat_labels, concat_marks. intros l Hl.
  apply elem_of_concat in Hl as (ls & Hin & Hl). apply list_elem_of_fmap in Hl as (blk & -> & Hblk).
  apply elem_of_lookup_imap in Hblk as Hb. destruct Hb as (i & e & -> & Hi).
  destruct (block_shape kind maps i (Some e) (if re_action e =? ACTION_ALLOW then MAllow else MDeny)) as (Hm & Hl & _).
  apply Hl in Hin. apply elem_of_app. apply elem_of_cons in Hin as [->|Hin].
  - left. destruct (_ =? _); set_solver.
  - right. apply elem_of_concat. eexists. split; [|by apply list_elem_of_fmap_2]. by rewrite Hm.
Qed.
Lemma grant_labels seqlock : labels_of (grant_blocks kind maps slots seqlock)
  ⊆ (if seqlock then MGrantAllow else MAllow) :: marks_of (grant_blocks kind maps slots seqlock).
Proof.
  unfold grant_blocks. rewrite concat_labels, concat_marks. intros l Hl.
  apply elem_of_concat in Hl as (ls & Hin & Hl). apply list_elem_of_fmap in Hl as (blk & -> & Hblk).
  apply list_elem_of_fmap in Hblk as Hb. destruct Hb as (i & -> & Hi).
  destruct (block_shape kind maps i None (if seqlock then MGrantAllow else MAllow)) as (Hm & Hl & _).
  apply Hl in Hin. apply elem_of_cons in Hin as [->|Hin]; apply elem_of_cons; [by left|right].
  apply elem_of_concat. eexists. split; [|by apply list_elem_of_fmap_2]. by rewrite Hm.
Qed.

Lemma static_size : (size (static_blocks kind maps entries) ≤ 23 * length entries)%nat.
Proof.
  unfold static_blocks. etrans; [apply (concat_size _ 23)|by rewrite length_imap].
  intros b (i & e & -> & Hi)%elem_of_lookup_imap. apply (block_shape kind maps i (Some e)).
Qed.
Lemma grant_size seqlock : (size (grant_blocks kind maps slots seqlock) ≤ 28 * slots)%nat.
Proof.
  unfold grant_blocks. etrans; [apply (concat_size _ 28)|by rewrite length_fmap, length_seq].
  intros b (i & -> & Hi)%list_elem_of_fmap. apply (block_shape kind maps i None).
Qed.

(** A program for full tables fits the limit of 4096 words that kernels before
    5.2 place on a program. *)
Lemma build_ops_size :
  (size (build_ops kind maps entries slots default_allow) ≤ 95 + 23 * length entries + 28 * slots)%nat.
Proof.
  unfold build_ops. rewrite !size_app.
  pose proof static_size. pose proof (grant_size ((0 <? Z.of_nat slots) && negb default_allow)).
  destruct (_ && _), kind; cbn [size prologue_ctx prologue_clock seq_snapshot grant_recheck allow_tail deny_tail
    drop_tail app is_v6 is_sendmsg lookup_ops ld_map bump_stat deny_reserve deny_record record_addr] in *; lia.
Qed.

Lemma next_nodup (g : Z) n : NoDup ((λ i, MNext (Z.of_nat i + g)) <$> seq 0 n).
Proof. apply NoDup_fmap_2; [|apply NoDup_ListNoDup, seq_NoDup]. intros i j [= H]. lia. Qed.

Definition fixed_marks (seqlock : bool) : list Mark :=
  [MNoEpoch; MHaveEpoch; MDefault; MAllow; MDeny; MDenyDrop]
  ++ if seqlock then [MNoSeq; MHaveSeq; MGrantAllow] else [].

Lemma build_ops_marks_perm :
  marks_of (build_ops kind maps entries slots default_allow)
  ≡ₚ fixed_marks ((0 <? Z.of_nat slots) && negb default_allow)
     ++ (marks_of (static_blocks kind maps entries)
         ++ marks_of (grant_blocks kind maps slots ((0 <? Z.of_nat slots) && negb default_allow))).
Proof.
  unfold build_ops. rewrite !marks_of_app. set (seqlock := _ && _).
  generalize (marks_of (static_blocks kind maps entries)), (marks_of (grant_blocks kind maps slots seqlock)).
  intros X Y. destruct seqlock, kind; cbn -[ins]; unfold fixed_marks; solve_Permutation.
Qed.

Lemma build_ops_marks : (length entries ≤ MAX_RULES_PER_MAP)%nat →
  NoDup (marks_of (build_ops kind maps entries slots default_allow)).
Proof.
  intros Hlen. rewrite build_ops_marks_perm, static_marks, grant_marks.
  apply NoDup_app. split_and!.
  - destruct (_ && _); apply (bool_decide_eq_true_1 (NoDup _)); vm_compute; reflexivity.
  - intros l Hl [(i & -> & _)%list_elem_of_fmap|(i & -> & _)%list_elem_of_fmap]%elem_of_app;
      destruct (_ && _); unfold fixed_marks in Hl; set_solver.
  - apply NoDup_app. split_and!; [|intros l|apply next_nodup].
    + rewrite (list_fmap_ext _ (λ i, MNext (Z.of_nat i + 0))); [apply next_nodup|].
      intros; by rewrite Z.add_0_r.
    + intros (i & -> & Hi)%list_elem_of_fmap (j & [= Hj] & _)%list_elem_of_fmap.
      apply elem_of_seq in Hi. unfold MAX_RULES_PER_MAP in Hlen. lia.
Qed.

Lemma build_ops_labels :
  labels_of (build_ops kind maps entries slots default_allow)
  ⊆ marks_of (build_ops kind maps entries slots default_allow).
Proof.
  intros l Hl. rewrite build_ops_marks_perm. revert Hl. unfold build_ops. rewrite !labels_of_app.
  pose proof static_labels as H1. pose proof (grant_labels ((0 <? Z.of_nat slots) && negb default_allow)) as H2.
  set (seqlock := _ && _) in *.
  assert (∀ ls, Forall (.∈ fixed_marks seqlock) ls → l ∈ ls →
    l ∈ fixed_marks seqlock ++ (marks_of (static_blocks kind maps entries) ++ marks_of (grant_blocks kind maps slots seqlock))) as Hfix.
  { intros ls Hls Hin. apply elem_of_app. left. by apply (proj1 (Forall_forall _ _) Hls). }
  intros Hl. repeat (apply elem_of_app in Hl as [Hl|Hl]).
  3: { apply H1 in Hl. apply elem_of_app in Hl as [Hl|Hl]; [|set_solver].
       eapply Hfix; [|done]. unfold fixed_marks. repeat constructor; set_solver. }
  4: { apply H2 in Hl. apply elem_of_cons in Hl as [Hl|Hl]; [|set_solver].
       apply (Hfix [l]); [|by left]. rewrite Hl. unfold fixed_marks. destruct seqlock; repeat constructor; set_solver. }
  all: eapply Hfix; [|exact Hl]; apply (bool_decide_eq_true_1 (Forall _ _));
    destruct seqlock, kind, default_allow; reflexivity.
Qed.
End shape.

Definition wf_maps (m : ProgMaps) : Prop :=
  NoDup [pm_rules m; pm_grants m; pm_events m; pm_stats m; pm_seq m; pm_clock m]
  ∧ Forall (λ fd, 0 <= fd < 2 ^ 31) [pm_rules m; pm_grants m; pm_events m; pm_stats m; pm_seq m; pm_clock m].

(** A one-slot map of a [u64]: present with some value at every instant, or
    unreachable throughout. *)
Definition cell (v : nat → option Z) : Prop :=
  (∀ t, ∃ x, v t = Some x ∧ u64 x) ∨ (∀ t, v t = None).

(** What the launch sets up around a hook: the maps the program was built for,
    the static rules never rewritten, grant slots that always hold some entry,
    whatever user space writes into them meanwhile. *)
Record hooked (w : World) (maps : ProgMaps) (entries : list RuleEntry) (slots : nat) (sa : SockAddr) : Prop := {
  hk_maps : ∀ t, k_maps (w t) = maps;
  hk_wf_maps : wf_maps maps;
  hk_ctx : ∀ t, k_ctx (w t) = ctx_bytes sa;
  hk_sa : wf_sock_addr sa;
  hk_rules : ∀ t, k_rules (w t) = entries;
  hk_entries : Forall wf_entry entries;
  hk_grants : ∀ t, length (k_grants (w t)) = slots ∧ Forall wf_entry (k_grants (w t));
  hk_clock : cell (λ t, k_clock (w t));
  hk_seq : cell (λ t, k_seq (w t));
  hk_boot : ∀ t, u64 (k_boot_ns (w t));
  hk_pid : ∀ t, u64 (k_pid_tgid (w t));
}.

(** ** Map lookups *)

Section lookups.
Context (w : World) (maps : ProgMaps) (entries : list RuleEntry) (slots : nat) (sa : SockAddr).
Context (H : hooked w maps entries slots sa).

Ltac fds := destruct (hk_wf_maps _ _ _ _ _ H) as [Hnd Hfd]; rewrite ?NoDup_cons, ?elem_of_cons, ?Forall_cons in *.

Lemma fd_range fd : fd ∈ [pm_rules maps; pm_grants maps; pm_events maps; pm_stats maps; pm_seq maps; pm_clock maps] →
  0 <= fd < 2 ^ 31.
Proof. intros Hin. destruct (hk_wf_maps _ _ _ _ _ H) as [_ Hfd]. by apply (proj1 (Forall_forall _ _) Hfd) in Hin. Qed.

Lemma elem_rules t i : is_Some (entries !! i) → map_elem (w t) (pm_rules maps) i = Some (Ptr (RRule i) 0).
Proof.
  intros Hi. unfold map_elem. rewrite (hk_maps _ _ _ _ _ H), Z.eqb_refl, (hk_rules _ _ _ _ _ H).
  by rewrite bool_decide_eq_true_2.
Qed.
Lemma elem_grants t i : (i < slots)%nat → map_elem (w t) (pm_grants maps) i = Some (Ptr (RGrant i) 0).
Proof.
  intros Hi. unfold map_elem. rewrite (hk_maps _ _ _ _ _ H).
  destruct (Z.eqb_spec (pm_grants maps) (pm_rules maps)); [exfalso; fds; naive_solver|].
  rewrite Z.eqb_refl, bool_decide_eq_true_2; [done|]. apply lookup_lt_is_Some_2. by destruct (hk_grants _ _ _ _ _ H t) as [-> _].
Qed.
Lemma elem_stats t : map_elem (w t) (pm_stats maps) 0 = Some (if k_stats (w t) then Ptr RStats 0 else Num 0).
Proof.
  unfold map_elem. rewrite (hk_maps _ _ _ _ _ H).
  destruct (Z.eqb_spec (pm_stats maps) (pm_rules maps)); [exfalso; fds; naive_solver|].
  destruct (Z.eqb_spec (pm_stats maps) (pm_grants maps)); [exfalso; fds; naive_solver|]. by rewrite Z.eqb_refl.
Qed.
Lemma elem_seq t : map_elem (w t) (pm_seq maps) 0 = Some (if decide (is_Some (k_seq (w t))) then Ptr RSeq 0 else Num 0).
Proof.
  unfold map_elem. rewrite (hk_maps _ _ _ _ _ H).
  destruct (Z.eqb_spec (pm_seq maps) (pm_rules maps)); [exfalso; fds; naive_solver|].
  destruct (Z.eqb_spec (pm_seq maps) (pm_grants maps)); [exfalso; fds; naive_solver|].
  destruct (Z.eqb_spec (pm_seq maps) (pm_stats maps)); [exfalso; fds; naive_solver|].
  rewrite Z.eqb_refl. by case_bool_decide; case_decide.
Qed.
Lemma elem_clock t : map_elem (w t) (pm_clock maps) 0 = Some (if decide (is_Some (k_clock (w t))) then Ptr RClock 0 else Num 0).
Proof.
  unfold map_elem. rewrite (hk_maps _ _ _ _ _ H).
  destruct (Z.eqb_spec (pm_clock maps) (pm_rules maps)); [exfalso; fds; naive_solver|].
  destruct (Z.eqb_spec (pm_clock maps) (pm_grants maps)); [exfalso; fds; naive_solver|].
  destruct (Z.eqb_spec (pm_clock maps) (pm_stats maps)); [exfalso; fds; naive_solver|].
  destruct (Z.eqb_spec (pm_clock maps) (pm_seq maps)); [exfalso; fds; naive_solver|].
  rewrite Z.eqb_refl. by case_bool_decide; case_decide.
Qed.
End lookups.

(** ** Entry blocks *)

Section blocks.
Context (w : World) (kind : ProgKind) (maps : ProgMaps) (entries : list RuleEntry) (slots : nat) (sa : SockAddr).
Context (H : hooked w maps entries slots sa) (now : Z).
Local Notation f := (flow_of kind sa).
Local Notation v6 := (is_v6 kind).
Local Notation scanning := (scanning (is_v6 kind) (flow_of kind sa) now).

Lemma flow_of_wf : wf_flow f.
Proof.
  destruct (hk_sa _ _ _ _ _ H) as (? & ? & ? & ?). unfold flow_of, wf_flow. destruct v6; split_and!; try done.
  all: unfold u32; cbn; lia.
Qed.

Lemma scanning_lookup R R' st st' : scanning R st → (∀ r, 6 <= r → R' r = R r) →
  (∀ n a, a + Z.of_nat n <= SLOT_KEY → load n st' a = load n st a) → scanning R' st'.
Proof.
  intros (H10 & H7 & H8 & H9 & Hn & Hhi) HR Hst. unfold SLOT_KEY in Hst. repeat split.
  1-4: by rewrite HR by lia.
  - rewrite Hst; [done|]. unfold SLOT_NOW. lia.
  - intros Hv. rewrite Hst; [by apply Hhi|]. unfold SLOT_ADDR_HI. lia.
Qed.

Lemma static_block i e hit R st rc o t : entries !! i = Some e → (i < MAX_RULES_PER_MAP)%nat → scanning R st →
  let b := entry_matches v6 f e in
  ∃ R' st' t',
    run_ops w (rule_block_ex kind maps i (Some e) hit) 0 (mkMachine R st rc o t)
    = Goto (if b then hit else MNext (block_slot i false)) (mkMachine R' st' rc o t')
    ∧ scanning R' st' ∧ (t ≤ t')%nat
    ∧ load 4 st' SLOT_MATCH = (if b then Some (Z.of_nat i) else load 4 st SLOT_MATCH).
Proof.
  intros Hi Hmax Hs b. unfold MAX_RULES_PER_MAP in Hmax. unfold rule_block_ex. cbn zeta iota.
  set (slot := block_slot i false).
  assert (as_i32 (Z.of_nat i) = Z.of_nat i) as Hkey.
  { unfold as_i32. rewrite Z.mod_small by lia. by destruct (Z.ltb_spec (Z.of_nat i) (2 ^ 31)); [|lia]. }
  rewrite Hkey.
  destruct (op_lookup w (pm_rules maps) (Z.of_nat i) (Ptr (RRule i) 0)
    ([next BPF_JEQ_K 0 0 slot] ++ [] ++ cmp_addr kind (Some e) slot ++ cmp_qual 32 9 (re_proto e =? 0) false slot
     ++ cmp_qual 36 8 (re_port_raw e =? 0) false slot
     ++ [Emit (ins BPF_ST_MEM_W 10 0 SLOT_MATCH (Z.of_nat i))] ++ [Jump BPF_JA 0 0 hit 0; MarkHere (MNext slot)])
    R st rc o t) as (R1 & st1 & -> & H0 & HR & Hst).
  { apply (fd_range _ _ _ _ _ H). set_solver. } { lia. } { apply Hs. }
  { rewrite Nat2Z.id. apply (elem_rules _ _ _ _ _ H). by eexists. }
  assert (scanning R1 st1) as Hs1 by by eapply scanning_lookup.
  cbn [app]. unfold next at 1. erewrite op_jeq_ptr; [|done..].
  pose (ent := λ _ : nat, e).
  assert (wf_entry e) as Hwf by apply (proj1 (Forall_lookup _ _) (hk_entries _ _ _ _ _ H) i e Hi).
  assert (∀ t m n off, read (w t) m n (RRule i) off = load n (of_bytes (entry_bytes (ent t))) off) as Hread.
  { intros. cbn. by rewrite (hk_rules _ _ _ _ _ H), Hi. }
  pose proof (checks_app w v6 f now (RRule i) ent _ _ slot _ _
    (check_addr_static w v6 f now (RRule i) ent flow_of_wf (λ _, Hwf) Hread e (λ _, eq_refl) kind slot eq_refl)
    (checks_app w v6 f now (RRule i) ent _ _ slot _ _
      (check_proto_static w v6 f now (RRule i) ent (λ _, Hwf) Hread e (λ _, eq_refl) slot)
      (check_port_static w v6 f now (RRule i) ent (λ _, Hwf) Hread e (λ _, eq_refl) slot))) as Hchecks.
  edestruct (Hchecks ([Emit (ins BPF_ST_MEM_W 10 0 SLOT_MATCH (Z.of_nat i)); Jump BPF_JA 0 0 hit 0; MarkHere (MNext slot)])
    R1 st1 rc o (S (5 + t)) Hs1 H0) as (R2 & t2 & b2 & Hrun & Ht2 & Hk2 & Hb2).
  rewrite <-!app_assoc in Hrun. cbn [Nat.add] in *. rewrite Hrun.
  assert (b2 = b) as -> by (apply (Hb2 e); done).
  assert (scanning R2 st1) as Hs2 by by eapply scanning_keeps.
  destruct b; [|exists R2, st1, t2; split_and!; [done..|lia|by apply Hst]].
  rewrite op_st_stack by (done || apply Hs2). rewrite op_ja.
  do 3 eexists. split; [reflexivity|]. split_and!; [|lia|].
  - destruct Hs2 as (? & ? & ? & ? & ? & Hhi). repeat split; done.
  - rewrite load_store, Hkey, (Z.mod_small _ (2 ^ 64)) by lia. f_equal. apply Z.mod_small.
    change (256 ^ Z.of_nat 4) with (2 ^ 32). lia.
Qed.

(** The slot at an instant. *)
Definition grant_at (i t : nat) : RuleEntry :=
  default (mkEntry (W4 0 0 0 0) (W4 0 0 0 0) 0 0 0 0 0) (k_grants (w t) !! i).

Lemma grant_at_some i t : (i < slots)%nat → k_grants (w t) !! i = Some (grant_at i t) ∧ wf_entry (grant_at i t).
Proof.
  intros Hi. destruct (hk_grants _ _ _ _ _ H t) as [Hlen Hwf]. unfold grant_at.
  destruct (lookup_lt_is_Some_2 (k_grants (w t)) i ltac:(lia)) as [e He]. rewrite He. split; [done|].
  by apply (proj1 (Forall_lookup _ _) Hwf i e).
Qed.

Lemma grant_block i hit R st rc o t : (i < slots)%nat → (i < GRANT_SLOTS)%nat → scanning R st →
  ∃ R' st' t' (b : bool),
    run_ops w (rule_block_ex kind maps i None hit) 0 (mkMachine R st rc o t)
    = Goto (if b then hit else MNext (block_slot i true)) (mkMachine R' st' rc o t')
    ∧ scanning R' st' ∧ (t ≤ t')%nat
    ∧ (∀ n a, a + Z.of_nat n <= SLOT_KEY → load n st' a = load n st a)
    ∧ (∀ G, (∀ u, (t ≤ u ≤ t')%nat → k_grants (w u) = G) →
         ∀ e, G !! i = Some e → b = live now e && entry_matches v6 f e).
Proof.
  intros Hi Hmax Hs. unfold GRANT_SLOTS in Hmax. unfold rule_block_ex. cbn zeta iota.
  set (slot := block_slot i true).
  assert (as_i32 (Z.of_nat i) = Z.of_nat i) as Hkey.
  { unfold as_i32. rewrite Z.mod_small by lia. by destruct (Z.ltb_spec (Z.of_nat i) (2 ^ 31)); [|lia]. }
  rewrite Hkey.
  destruct (op_lookup w (pm_grants maps) (Z.of_nat i) (Ptr (RGrant i) 0)
    ([next BPF_JEQ_K 0 0 slot] ++ expiry_check slot ++ cmp_addr kind None slot ++ cmp_qual 32 9 false true slot
     ++ cmp_qual 36 8 false true slot ++ [] ++ [Jump BPF_JA 0 0 hit 0; MarkHere (MNext slot)])
    R st rc o t) as (R1 & st1 & -> & H0 & HR & Hst).
  { apply (fd_range _ _ _ _ _ H). set_solver. } { lia. } { apply Hs. }
  { rewrite Nat2Z.id. by apply (elem_grants _ _ _ _ _ H). }
  assert (scanning R1 st1) as Hs1 by by eapply scanning_lookup.
  cbn [app]. unfold next at 1. erewrite op_jeq_ptr; [|done..].
  assert (∀ t, wf_entry (grant_at i t)) as Hwf by (intros u; by apply grant_at_some).
  assert (∀ t m n off, read (w t) m n (RGrant i) off = load n (of_bytes (entry_bytes (grant_at i t))) off) as Hread.
  { intros u m n off. cbn. destruct (grant_at_some i u Hi) as [-> _]. done. }
  pose proof (checks_app w v6 f now (RGrant i) (grant_at i) _ _ slot _ _
    (check_expiry w v6 f now (RGrant i) (grant_at i) Hwf Hread slot)
    (checks_app w v6 f now (RGrant i) (grant_at i) _ _ slot _ _
      (check_addr_grant w v6 f now (RGrant i) (grant_at i) flow_of_wf Hwf Hread kind slot eq_refl)
      (checks_app w v6 f now (RGrant i) (grant_at i) _ _ slot _ _
        (check_proto_grant w v6 f now (RGrant i) (grant_at i) Hwf Hread slot)
        (check_port_grant w v6 f now (RGrant i) (grant_at i) Hwf Hread slot)))) as Hchecks.
  edestruct (Hchecks [Jump BPF_JA 0 0 hit 0; MarkHere (MNext slot)]
    R1 st1 rc o (S (5 + t)) Hs1 H0) as (R2 & t2 & b2 & Hrun & Ht2 & Hk2 & Hb2).
  rewrite <-!app_assoc in Hrun. cbn [Nat.add] in *. rewrite Hrun.
  assert (scanning R2 st1) as Hs2 by by eapply scanning_keeps.
  assert (∀ t', (t2 ≤ t')%nat → ∀ G, (∀ u, (t ≤ u ≤ t')%nat → k_grants (w u) = G) →
            ∀ e, G !! i = Some e → b2 = live now e && entry_matches v6 f e) as Hb.
  { intros t' Ht' G HG e He. apply Hb2. intros u Hu. unfold grant_at. by rewrite HG, He by lia. }
  destruct b2.
  - rewrite op_ja. exists R2, st1, (S t2), true. split_and!; [done..|lia|done|apply Hb; lia].
  - exists R2, st1, t2, false. split_and!; [done..|lia|done|by apply Hb].
Qed.
End blocks.

(** ** Scans *)

(** The first entry that matches, with its index. *)
Fixpoint first_match (v6 : bool) (f : Flow) (i : nat) (es : list RuleEntry) : option (nat * RuleEntry) :=
  match es with
  | [] => None
  | e :: es => if entry_matches v6 f e then Some (i, e) else first_match v6 f (S i) es
  end.

Definition entry_mark (e : RuleEntry) : Mark := if re_action e =? ACTION_ALLOW then MAllow else MDeny.

Section scans.
Context (w : World) (kind : ProgKind) (maps : ProgMaps) (entries : list RuleEntry) (slots : nat) (sa : SockAddr).
Context (default_allow : bool) (prog : list Z) (now : Z).
Context (H : hooked w maps entries slots sa).
Context (Hentries : (length entries ≤ MAX_RULES_PER_MAP)%nat) (Hslots : (slots ≤ GRANT_SLOTS)%nat).
Local Notation ops := (build_ops kind maps entries slots default_allow).
Context (Hprog : resolve_jumps (foldl apply_op builder_new ops) = Some prog).
Local Notation f := (flow_of kind sa).
Local Notation v6 := (is_v6 kind).
Local Notation scanning := (scanning (is_v6 kind) (flow_of kind sa) now).
Local Notation reaches := (reaches w prog).
Local Notation halts := (halts w prog).
Local Notation target := (mark_target (op_marks 0 ops)).

Lemma program_size : Z.of_nat (size ops) < 2 ^ 15.
Proof.
  pose proof (build_ops_size kind maps entries slots default_allow).
  unfold MAX_RULES_PER_MAP, GRANT_SLOTS in *. lia.
Qed.
Lemma marks_nodup : NoDup (marks_of ops).
Proof. by apply build_ops_marks. Qed.

(** What a block does where it stands. *)
Lemma block_falls pre blk post m m' : ops = pre ++ blk ++ post → run_ops w blk 0 m = Fall 0 m' →
  reaches (size pre) m (size (pre ++ blk)) m'.
Proof.
  intros E Hr. pose proof (run_block w ops prog Hprog program_size blk pre post 0 m E) as Hb.
  rewrite Hr in Hb. cbn [continues] in Hb. by rewrite !Nat.add_0_r in Hb.
Qed.
Lemma block_jumps pre blk post m l m' a b : ops = pre ++ blk ++ post → run_ops w blk 0 m = Goto l m' →
  ops = a ++ MarkHere l :: b → reaches (size pre) m (size a) m'.
Proof.
  intros E Hr El. pose proof (run_block w ops prog Hprog program_size blk pre post 0 m E) as Hb.
  rewrite Hr in Hb. cbn [continues] in Hb. rewrite Nat.add_0_r in Hb. destruct Hb as (t & Ht & Hb).
  rewrite (unique_target ops a l b marks_nodup El) in Ht. by simplify_eq.
Qed.
Lemma block_halts pre blk post m r m' : ops = pre ++ blk ++ post → run_ops w blk 0 m = Done r m' →
  halts (size pre) m r m'.
Proof.
  intros E Hr. pose proof (run_block w ops prog Hprog program_size blk pre post 0 m E) as Hb.
  rewrite Hr in Hb. cbn [continues] in Hb. by rewrite !Nat.add_0_r in Hb.
Qed.

(** Leaving an entry block for the next one is reaching its end. *)
Lemma block_next i entry hit pre post m m' :
  let grants := match entry with None => true | Some _ => false end in
  ops = pre ++ rule_block_ex kind maps i entry hit ++ post →
  run_ops w (rule_block_ex kind maps i entry hit) 0 m = Goto (MNext (block_slot i grants)) m' →
  reaches (size pre) m (size (pre ++ rule_block_ex kind maps i entry hit)) m'.
Proof.
  intros grants E Hr.
  assert (∃ c, rule_block_ex kind maps i entry hit = c ++ [MarkHere (MNext (block_slot i grants))]) as [c Hc].
  { unfold rule_block_ex. eexists. rewrite !app_assoc.
    change [Jump BPF_JA 0 0 hit 0; ?x] with ([Jump BPF_JA 0 0 hit 0] ++ [x]). rewrite app_assoc. reflexivity. }
  assert (size (pre ++ rule_block_ex kind maps i entry hit) = size (pre ++ c)) as ->.
  { rewrite Hc, !size_app. cbn. lia. }
  eapply block_jumps; [exact E|exact Hr|]. rewrite E, Hc, <-!app_assoc. reflexivity.
Qed.

(** A way to a label, wherever it is bound. *)
Definition goes (pc : nat) (m : Machine) (l : Mark) (m' : Machine) : Prop :=
  ∀ a b, ops = a ++ MarkHere l :: b → reaches pc m (size a) m'.

Definition static_part (i : nat) (es : list RuleEntry) : list Op :=
  concat (imap (λ j e, rule_block_ex kind maps (i + j) (Some e) (entry_mark e)) es).

Lemma static_part_cons i e es :
  static_part i (e :: es) = rule_block_ex kind maps i (Some e) (entry_mark e) ++ static_part (S i) es.
Proof.
  unfold static_part. cbn [imap concat]. rewrite Nat.add_0_r. f_equal. f_equal.
  apply imap_ext. intros j x _. cbn. by rewrite Nat.add_succ_r.
Qed.

Lemma static_scan es : ∀ i pre post R st rc o t,
  (∀ j e, es !! j = Some e → entries !! (i + j)%nat = Some e) →
  ops = pre ++ static_part i es ++ post →
  scanning R st → load 4 st SLOT_MATCH = Some RULE_IDX_NONE →
  ∃ R' st' t', scanning R' st' ∧ (t ≤ t')%nat ∧
  match first_match v6 f i es with
  | Some (j, e) =>
      load 4 st' SLOT_MATCH = Some (Z.of_nat j) ∧
      goes (size pre) (mkMachine R st rc o t) (entry_mark e) (mkMachine R' st' rc o t')
  | None =>
      load 4 st' SLOT_MATCH = Some RULE_IDX_NONE ∧
      reaches (size pre) (mkMachine R st rc o t) (size (pre ++ static_part i es)) (mkMachine R' st' rc o t')
  end.
Proof.
  induction es as [|e es IH]; intros i pre post R st rc o t Hes E Hs Hm.
  { exists R, st, t. split_and!; [done..|]. cbn. rewrite app_nil_r. split; [done|]. apply reaches_refl. }
  rewrite static_part_cons in *. rewrite <-app_assoc in E.
  assert (entries !! i = Some e) as Hi by (rewrite <-(Nat.add_0_r i); by apply Hes).
  assert (i < MAX_RULES_PER_MAP)%nat as Hlt by (apply lookup_lt_Some in Hi; lia).
  destruct (static_block w kind maps entries slots sa H now i e (entry_mark e) R st rc o t Hi Hlt Hs)
    as (R1 & st1 & t1 & Hr & Hs1 & Ht1 & Hm1).
  cbn [first_match]. destruct (entry_matches v6 f e).
  - exists R1, st1, t1. split_and!; [done..|]. intros a b Hab. by eapply block_jumps.
  - pose proof (block_next i (Some e) (entry_mark e) pre (static_part (S i) es ++ post) _ _ E Hr) as Hn.
    destruct (IH (S i) (pre ++ rule_block_ex kind maps i (Some e) (entry_mark e)) post R1 st1 rc o t1)
      as (R2 & st2 & t2 & Hs2 & Ht2 & Hres).
    { intros j x Hx. replace (S i + j)%nat with (i + S j)%nat by lia. by apply Hes. }
    { by rewrite <-app_assoc. } { done. } { by rewrite Hm1. }
    exists R2, st2, t2. split_and!; [done|lia|].
    destruct (first_match v6 f (S i) es) as [[j x]|]; destruct Hres as [Hm2 Hgo]; (split; [done|]).
    + intros a b Hab. eapply reaches_trans; [exact Hn|]. by eapply Hgo.
    + rewrite app_assoc. eapply reaches_trans; [exact Hn|]. exact Hgo.
Qed.

Definition grant_part (k n : nat) (hit : Mark) : list Op :=
  concat ((λ i, rule_block_ex kind maps i None hit) <$> seq k n).

(** The scan of the grants from slot [k]: it stops at a hit, and what it found
    is what a table that stood still throughout holds. *)
Lemma grant_scan hit n : ∀ k pre post R st rc o t,
  (k + n = slots)%nat → ops = pre ++ grant_part k n hit ++ post → scanning R st →
  ∃ R' st' t' (b : bool), scanning R' st' ∧ (t ≤ t')%nat ∧
    (∀ n a, a + Z.of_nat n <= SLOT_KEY → load n st' a = load n st a) ∧
    (if b then goes (size pre) (mkMachine R st rc o t) hit (mkMachine R' st' rc o t')
     else reaches (size pre) (mkMachine R st rc o t) (size (pre ++ grant_part k n hit)) (mkMachine R' st' rc o t')) ∧
    (∀ G, (∀ u, (t ≤ u ≤ t')%nat → k_grants (w u) = G) →
       b = existsb (λ e, live now e && entry_matches v6 f e) (drop k G)).
Proof.
  induction n as [|n IH]; intros k pre post R st rc o t Hk E Hs.
  { exists R, st, t, false. split_and!; [done..| |].
    - cbn. rewrite app_nil_r. apply reaches_refl.
    - intros G HG. destruct (hk_grants _ _ _ _ _ H t) as [Hlen _]. rewrite HG in Hlen by lia.
      by rewrite drop_ge by lia. }
  unfold grant_part in *. cbn [seq fmap list_fmap concat] in *. rewrite <-app_assoc in E.
  destruct (grant_block w kind maps entries slots sa H now k hit R st rc o t) as (R1 & st1 & t1 & b1 & Hr & Hs1 & Ht1 & Hst1 & Hb1);
    [lia..|done|].
  assert (∀ G t', (t1 ≤ t')%nat → (∀ u, (t ≤ u ≤ t')%nat → k_grants (w u) = G) →
    ∃ e, drop k G = e :: drop (S k) G ∧ b1 = live now e && entry_matches v6 f e) as Hcons.
  { intros G t' Ht' HG. destruct (hk_grants _ _ _ _ _ H t) as [Hlen _]. rewrite HG in Hlen by lia.
    destruct (lookup_lt_is_Some_2 G k ltac:(lia)) as [e He]. exists e. split; [by apply drop_S|].
    apply (Hb1 G); [|done]. intros; apply HG; lia. }
  destruct b1.
  - exists R1, st1, t1, true. split_and!; [done..| |].
    + intros a b Hab. by eapply block_jumps.
    + intros G HG. destruct (Hcons G t1 ltac:(lia) HG) as (e & -> & He). cbn. by rewrite <-He.
  - pose proof (block_next k None hit pre _ _ _ E Hr) as Hn.
    destruct (IH (S k) (pre ++ rule_block_ex kind maps k None hit) post R1 st1 rc o t1)
      as (R2 & st2 & t2 & b2 & Hs2 & Ht2 & Hst2 & Hres & Hb2); [lia|by rewrite <-app_assoc|done|].
    exists R2, st2, t2, b2. split_and!; [done|lia|intros; by rewrite Hst2, Hst1| |].
    + destruct b2; [intros a b Hab|rewrite app_assoc]; (eapply reaches_trans; [exact Hn|]); [by eapply Hres|exact Hres].
    + intros G HG. destruct (Hcons G t2 ltac:(lia) HG) as (e & -> & He). cbn. rewrite <-He. cbn.
      apply Hb2. intros; apply HG; lia.
Qed.
End scans.
