(* ===== verification/EbpfEvents.v ===== *)
(** * EbpfEvents: the deny record and the tails of a program

    The record a program submits and how the ring-buffer reader reads it
    ([src/src/warden/ebpf/events.rs]); and what the tails of a program, which
    submit it, do. *)

From S2P Require Import Prelude IpAddr PolicyCidr Ebpf EbpfMachine EbpfAsm EbpfExec.
From S2P Require Import EbpfProgram.

Open Scope Z_scope.

Record DenyEvent := mkDenyEvent {
  de_rule_idx : Z;
  de_family : Z;
  de_proto : Z;
  de_addr : Words;
  de_port_raw : Z;
  de_pid_tgid : Z;
}.

(** [(self.port_raw as u16).to_be()] *)
Definition de_port (ev : DenyEvent) : Z := raw_port (as_u16 (de_port_raw ev)).

Definition de_pid (ev : DenyEvent) : Z := Z.shiftr (de_pid_tgid ev) 32.

(** The value of address bytes in network order. *)
Definition be_value (bs : list Z) : Z := foldl (λ acc b, acc * 256 + b) 0 bs.

Definition de_dest (ev : DenyEvent) : option IpAddr :=
  if de_family ev =? AF_INET then Some (V4 (be_value (le_bytes 4 (w0 (de_addr ev)))))
  else if de_family ev =? AF_INET6 then Some (V6 (be_value (words_bytes (de_addr ev))))
  else None.

(** ** The record *)

Definition u32_at (bs : list Z) (off : nat) : Z := le_value (take 4 (drop off bs)).
Definition u64_at (bs : list Z) (off : nat) : Z := le_value (take 8 (drop off bs)).

Definition read_event (bs : list Z) : DenyEvent :=
  mkDenyEvent (u32_at bs 4) (u32_at bs 8) (u32_at bs 12)
    (W4 (u32_at bs 16) (u32_at bs 20) (u32_at bs 24) (u32_at bs 28)) (u32_at bs 32) (u64_at bs 40).

Inductive RecordError := Discarded | ShortRecord (len : Z) | BadMagic (magic : Z) | Unmapped.

Definition parse_event (bs : list Z) : result DenyEvent RecordError :=
  if u32_at bs 0 =? EVENT_MAGIC then Ok (read_event bs) else Err (BadMagic (u32_at bs 0)).

(** ** The ring *)

Record RingBuf := mkRing {
  rb_consumer : Z;
  rb_producer : Z;
  rb_data : Mem;
  rb_data_size : Z;
}.

Inductive Pop := PopEmpty | PopBusy | PopRecord (r : result DenyEvent RecordError).

Definition commit (rb : RingBuf) (pos : Z) : RingBuf :=
  mkRing pos (rb_producer rb) (rb_data rb) (rb_data_size rb).

Definition has_pending (rb : RingBuf) : bool := rb_consumer rb <? rb_producer rb.

Definition payload_len (len : Z) : Z := if EVENT_SIZE + 8 <=? len then len - 8 else len.
Definition advance (len : Z) : Z := Z.land (payload_len len + 8 + 7) (Z.lnot 7).

(** A read outside the mapping faults: [Unmapped] leaves the ring as it is. *)
Definition pop (rb : RingBuf) : RingBuf * Pop :=
  if rb_producer rb <=? rb_consumer rb then (rb, PopEmpty)
  else
    let off := Z.land (rb_consumer rb) (rb_data_size rb - 1) in
    match load 4 (rb_data rb) off with
    | None => (rb, PopRecord (Err Unmapped))
    | Some len_field =>
        let len := Z.land len_field 0x3fffffff in
        if Z.testbit len_field 31 then (rb, PopBusy)
        else
          let next := rb_consumer rb + advance len in
          if Z.testbit len_field 30 then (commit rb next, PopRecord (Err Discarded))
          else if payload_len len <? EVENT_SIZE then (commit rb next, PopRecord (Err (ShortRecord (payload_len len))))
          else match read_bytes (rb_data rb) (off + 8) 48 with
               | None => (rb, PopRecord (Err Unmapped))
               | Some bs => (commit rb next, PopRecord (parse_event bs))
               end
    end.

(** ** Progress *)

(** A record that is not being written is passed, by at least its header, so
    a malformed one cannot stop the drain. *)
Lemma pop_progress rb rb' p : pop rb = (rb', p) → p ≠ PopBusy → p ≠ PopEmpty →
  p ≠ PopRecord (Err Unmapped) → rb_consumer rb + 8 <= rb_consumer rb'.
Proof.
  unfold pop. destruct (_ <=? _); [by intros [= <- <-]|].
  destruct (load 4 _ _) as [lf|] eqn:Hl; [|by intros [= <- <-]].
  destruct (Z.testbit lf 31); [by intros [= <- <-]|].
  assert (0 <= Z.land lf 0x3fffffff) as Hlen by (apply Z.land_nonneg; lia).
  assert (8 <= advance (Z.land lf 0x3fffffff)) as Hadv.
  { revert Hlen. generalize (Z.land lf 0x3fffffff). intros n Hn. unfold advance.
    set (m := payload_len n + 8 + 7).
    assert (15 <= m) as Hm by (unfold m, payload_len, EVENT_SIZE; destruct (Z.leb_spec (48 + 8) n); lia).
    rewrite <-Z.ldiff_land. change 7 with (Z.ones 3). rewrite Z.ldiff_ones_r, Z.shiftl_mul_pow2, Z.shiftr_div_pow2 by lia.
    pose proof (Z.div_mod m (2 ^ 3) ltac:(lia)). pose proof (Z.mod_pos_bound m (2 ^ 3) ltac:(lia)). lia. }
  destruct (Z.testbit lf 30); [intros [= <- <-] _ _ _; cbn; lia|].
  destruct (_ <? _); [intros [= <- <-] _ _ _; cbn; lia|].
  destruct (read_bytes _ _ _); intros [= <- <-] _ _ Hu; cbn; [lia|done].
Qed.

(** ** Bytes read back *)

Lemma le_bytes_mod n v : le_bytes n (v mod 256 ^ Z.of_nat n) = le_bytes n v.
Proof.
  revert v. induction n as [|n IH]; intros v; [done|]. cbn [le_bytes].
  rewrite Nat2Z.inj_succ, Z.pow_succ_r, Z.rem_mul_r by lia. f_equal.
  - rewrite Z.mul_comm, Z.mod_add, Z.mod_mod by lia. done.
  - rewrite (div_split _ 256 ((v / 256) mod 256 ^ Z.of_nat n) (v mod 256)); [apply IH|apply Z.mod_pos_bound; lia|lia].
Qed.

Lemma read_bytes_app m off a b la lb : read_bytes m off a = Some la → read_bytes m (off + Z.of_nat a) b = Some lb →
  read_bytes m off (a + b) = Some (la ++ lb).
Proof.
  revert off la. induction a as [|a IH]; intros off la Ha Hb; cbn in Ha.
  - simplify_eq. cbn. by rewrite Z.add_0_r in Hb.
  - cbn. destruct (m off) as [x|]; [|done]. destruct (read_bytes m (off + 1) a) as [l|] eqn:E; [|done].
    simplify_eq. rewrite (IH (off + 1) l E); [done|]. rewrite <-Hb. f_equal. lia.
Qed.

Lemma read_store n m off v : read_bytes (store n m off v) off n = Some (le_bytes n v).
Proof.
  unfold store. rewrite <-(le_bytes_length n v) at 2. apply read_bytes_from.
  intros i b Hi. unfold store_bytes. apply lookup_lt_Some in Hi as Hlt.
  destruct (Z.leb_spec off (off + Z.of_nat i)), (Z.ltb_spec (off + Z.of_nat i) (off + Z.of_nat (length (le_bytes n v)))); try lia.
  cbn. by replace (Z.to_nat (off + Z.of_nat i - off)) with i by lia.
Qed.
Lemma read_store_other n k m off off' v :
  off' + Z.of_nat n <= off ∨ off + Z.of_nat k <= off' →
  read_bytes (store k m off v) off' n = read_bytes m off' n.
Proof.
  intros H. apply read_bytes_ext. intros a Ha. unfold store, store_bytes.
  rewrite le_bytes_length. destruct (Z.leb_spec off a), (Z.ltb_spec a (off + Z.of_nat k)); try done. lia.
Qed.

Lemma le_bytes_app a b v : le_bytes (a + b) v = le_bytes a v ++ le_bytes b (v / 256 ^ Z.of_nat a).
Proof.
  revert v. induction a as [|a IH]; intros v; [cbn; by rewrite Z.div_1_r|].
  cbn [Nat.add le_bytes app]. rewrite IH. do 2 f_equal.
  rewrite Z.div_div, Nat2Z.inj_succ, Z.pow_succ_r by lia. done.
Qed.
Lemma le_bytes_pair a b : u32 a → le_bytes 8 (pair a b) = le_bytes 4 a ++ le_bytes 4 b.
Proof.
  intros Ha. rewrite (le_bytes_app 4 4). f_equal.
  - rewrite <-(le_bytes_mod 4 (pair a b)). f_equal. change (256 ^ Z.of_nat 4) with (2 ^ 32). unfold pair.
    rewrite Z.mul_comm, Z.mod_add by lia. by apply Z.mod_small.
  - f_equal. apply (div_split _ _ _ a); [done|]. change (256 ^ Z.of_nat 4) with (2 ^ 32). unfold pair. lia.
Qed.

Lemma le_bytes_i32 v : le_bytes 4 (as_i32 v mod 2 ^ 64) = le_bytes 4 v.
Proof.
  rewrite <-(le_bytes_mod 4 v), <-(le_bytes_mod 4 (_ mod _)). f_equal.
  change (256 ^ Z.of_nat 4) with (2 ^ 32).
  rewrite Z.mod_mod_divide by (exists (2 ^ 32); done).
  unfold as_i32. destruct (_ <? _); [apply Z.mod_mod; lia|].
  rewrite <-(Z.mod_add _ 1) by lia. replace (v mod 2 ^ 32 - 2 ^ 32 + 1 * 2 ^ 32) with (v mod 2 ^ 32) by lia.
  apply Z.mod_mod. lia.
Qed.

(** ** Counters *)

Section tails.
Context (w : World) (kind : ProgKind) (maps : ProgMaps) (entries : list RuleEntry) (slots : nat) (sa : SockAddr).
Context (H : hooked w maps entries slots sa) (now : Z).
Local Notation f := (flow_of kind sa).
Local Notation v6 := (is_v6 kind).
Local Notation scanning := (scanning (is_v6 kind) (flow_of kind sa) now).

Lemma op_bump off rest R st rc o t : off = STAT_DENIED ∨ off = STAT_DROPPED → R 10 = Ptr RStack 0 →
  ∃ R' st' t' (b : bool),
    run_ops w (bump_stat (pm_stats maps) off ++ rest) 0 (mkMachine R st rc o t)
    = run_ops w rest 0 (mkMachine R' st' rc (o ++ if b then [Bumped off 1] else []) t')
    ∧ (∀ r, 6 <= r → R' r = R r)
    ∧ (∀ n a, a + Z.of_nat n <= SLOT_KEY → load n st' a = load n st a) ∧ (t ≤ t')%nat
    ∧ b = k_stats (w (4 + t)%nat).
Proof.
  intros Hoff H10. unfold bump_stat. rewrite <-app_assoc.
  destruct (op_lookup w (pm_stats maps) 0 (if k_stats (w (4 + t)%nat) then Ptr RStats 0 else Num 0)
    ([Emit (ins BPF_JEQ_K 0 0 2 0); Emit (ins BPF_MOV64_IMM 1 0 0 1); Emit (ins BPF_STX_XADD_DW 0 1 off 0)] ++ rest)
    R st rc o t) as (R1 & st1 & -> & H0 & HR & Hst); [|done|done|apply (elem_stats _ _ _ _ _ H)|].
  { apply (fd_range _ _ _ _ _ H). set_solver. }
  cbn [app]. destruct (k_stats (w (4 + t)%nat)) eqn:Hk.
  - exists (upd 1 (Num 1) R1), st1, (8 + t)%nat, true. split_and!; [|intros r Hr; unfold upd; destruct (Z.eqb_spec r 1); [lia|by apply HR]|done|lia|done].
    erewrite run_emit; [|done..|cbn; rewrite H0; reflexivity]. unfold go. cbn [Nat.add regs stack rec out time].
    rewrite op_mov_imm by done.
    erewrite run_emit; [reflexivity|done..|destruct Hoff as [->| ->]; done|]. cbn. rewrite H0.
    by destruct Hoff as [->| ->].
  - exists R1, st1, (6 + t)%nat, false. rewrite app_nil_r. split_and!; [|done..|lia|done].
    cbn [run_ops Nat.add]. rewrite decode_ins by done. cbn -[run_ops ins decode]. rewrite H0. done.
Qed.

(** ** The record of a denial *)

Definition record_words : Words := fl_addr f.
Definition denial_record (idx pid : Z) : list Z :=
  le_bytes 4 EVENT_MAGIC ++ le_bytes 4 idx ++ le_bytes 4 (kind_family kind) ++ le_bytes 4 (fl_proto f)
  ++ words_bytes (fl_addr f) ++ le_bytes 4 (fl_port_raw f) ++ le_bytes 4 0 ++ le_bytes 8 pid.

Lemma op_reserve rest R st rc o t : R 1 = MapRef (pm_events maps) → R 2 = Num EVENT_SIZE → R 3 = Num 0 →
  run_ops w (Emit (ins BPF_CALL 0 0 0 BPF_FUNC_RINGBUF_RESERVE) :: rest) 0 (mkMachine R st rc o t)
  = run_ops w rest 0 (mkMachine (clobber R (if k_reserve (w t) then Ptr RRecord 0 else Num 0)) st no_bytes o (S t)).
Proof.
  intros H1 H2 H3. apply run_emit; [done..|].
  change (insn_step _ _ _) with (call (w t) (mkMachine R st rc o t) BPF_FUNC_RINGBUF_RESERVE).
  unfold call. cbn. rewrite H1, H2, H3. cbn.
  by rewrite (hk_maps _ _ _ _ _ H), Z.eqb_refl.
Qed.
Lemma op_submit rest R st rc o t : R 1 = Ptr RRecord 0 → R 2 = Num 0 →
  run_ops w (Emit (ins BPF_CALL 0 0 0 BPF_FUNC_RINGBUF_SUBMIT) :: rest) 0 (mkMachine R st rc o t)
  = run_ops w rest 0 (mkMachine (clobber R Undef) st rc (o ++ [Submitted rc]) (S t)).
Proof.
  intros H1 H2. apply run_emit; [done..|].
  change (insn_step _ _ _) with (call (w t) (mkMachine R st rc o t) BPF_FUNC_RINGBUF_SUBMIT).
  unfold call. cbn. by rewrite H1, H2.
Qed.

Ltac reg := cbn [upd clobber Z.eqb Pos.eqb]; unfold clobber; cbn [upd Z.eqb Pos.eqb];
  solve [eassumption | reflexivity | match goal with H : ?R ?n = _ |- context [?R ?n] => by rewrite H end].

(** The words written at consecutive offsets, read back in one piece. *)
Ltac read_back :=
  repeat (rewrite read_store_other by (cbn; lia)); rewrite read_store, ?le_bytes_i32; reflexivity.
Ltac stretch n at_ := apply (read_bytes_app _ _ n); [read_back|change (read_bytes ?m _ ?k) with (read_bytes m at_ k)].

Lemma record_runs R st rc o t idx pid : scanning R st →
  R 0 = Ptr RRecord 0 → load 4 st SLOT_MATCH = Some idx → load 8 st SLOT_PID = Some pid →
  ∃ m rc', run_ops w (deny_record kind) 0 (mkMachine R st rc o t) = Done 0 m
    ∧ out m = o ++ [Submitted rc'] ∧ read_bytes rc' 0 48 = Some (denial_record idx pid).
Proof.
  intros (H10 & H7 & H8 & H9 & _ & Hhi) H0 Hm Hp. unfold deny_record. cbn [app].
  rewrite op_mov; [|done..|reg]. rewrite op_st_rec; [|done|reg].
  erewrite op_ldx_w; [|done..|reg|exact Hm]. erewrite op_stx_w_rec; [|done..|reg|reg].
  rewrite op_st_rec; [|done|reg]. erewrite op_stx_w_rec; [|done..|reg|reg].
  pose proof (flow_of_wf w kind maps entries slots sa H) as [(Ha0 & Ha1 & Ha2 & Ha3) _].
  unfold record_addr. destruct v6 eqn:Hv; cbn [app].
  - erewrite op_stx_dw_rec; [|done..|reg|reg]. erewrite op_ldx_dw; [|done..|reg|exact (Hhi eq_refl)].
    erewrite op_stx_dw_rec; [|done..|reg|reg]. erewrite op_stx_w_rec; [|done..|reg|reg].
    rewrite op_st_rec; [|done|reg]. erewrite op_ldx_dw; [|done..|reg|exact Hp].
    erewrite op_stx_dw_rec; [|done..|reg|reg]. rewrite op_mov; [|done..|reg]. rewrite op_mov_imm by done.
    rewrite op_submit; [|reg|reg]. rewrite op_mov_imm by done. erewrite op_exit; [|reg].
    do 2 eexists. split; [reflexivity|]. split; [reflexivity|]. unfold denial_record, words_bytes.
    rewrite (app_assoc (le_bytes 4 (w0 _))), <-!app_assoc, (app_assoc (le_bytes 4 (w0 _))), (app_assoc (le_bytes 4 (w2 _))).
    rewrite <-!le_bytes_pair by done.
    stretch 4%nat 4. stretch 4%nat 8. stretch 4%nat 12. stretch 4%nat 16. stretch 8%nat 24. stretch 8%nat 32.
    stretch 4%nat 36. stretch 4%nat 40. read_back.
  - erewrite (op_stx_w_rec w 7); [|done..|reg|reg]. do 3 (rewrite op_st_rec; [|done|reg]).
    erewrite op_stx_w_rec; [|done..|reg|reg].
    rewrite op_st_rec; [|done|reg]. erewrite op_ldx_dw; [|done..|reg|exact Hp].
    erewrite op_stx_dw_rec; [|done..|reg|reg]. rewrite op_mov; [|done..|reg]. rewrite op_mov_imm by done.
    rewrite op_submit; [|reg|reg]. rewrite op_mov_imm by done. erewrite op_exit; [|reg].
    do 2 eexists. split; [reflexivity|]. split; [reflexivity|]. unfold denial_record, words_bytes, flow_of.
    rewrite Hv. cbn [fl_addr w0 w1 w2 w3 fl_proto fl_port_raw]. rewrite <-!app_assoc.
    stretch 4%nat 4. stretch 4%nat 8. stretch 4%nat 12. stretch 4%nat 16. stretch 4%nat 20. stretch 4%nat 24.
    stretch 4%nat 28. stretch 4%nat 32. stretch 4%nat 36. stretch 4%nat 40. read_back.
Qed.

(** What a denial leaves: its count, and its record unless the ring was full. *)
Definition denial (idx : Z) (o : list Effect) : Prop :=
  ∃ (counted : bool) (tail : list Effect),
    o = (if counted then [Bumped STAT_DENIED 1] else []) ++ tail
    ∧ (counted = false → ∃ t, k_stats (w t) = false)
    ∧ ((∃ rc pid, tail = [Submitted rc] ∧ u64 pid ∧ read_bytes rc 0 48 = Some (denial_record idx pid))
       ∨ ((∃ t, k_reserve (w t) = false) ∧ (tail = [Bumped STAT_DROPPED 1] ∨ tail = []))).

(** The deny tail, up to its record or to the drop tail. *)
Lemma deny_tail_runs R st rc t idx : scanning R st → load 4 st SLOT_MATCH = Some idx →
  (∃ m, run_ops w (deny_tail kind maps) 0 (mkMachine R st rc [] t) = Done 0 m ∧ denial idx (out m))
  ∨ (∃ R' st' rc' t' (counted : bool),
       run_ops w (deny_tail kind maps) 0 (mkMachine R st rc [] t)
       = Goto MDenyDrop (mkMachine R' st' rc' (if counted then [Bumped STAT_DENIED 1] else []) t')
       ∧ R' 10 = Ptr RStack 0 ∧ (counted = false → ∃ t, k_stats (w t) = false) ∧ ∃ t, k_reserve (w t) = false).
Proof.
  intros Hs Hm. unfold deny_tail. rewrite op_mark.
  destruct (op_bump STAT_DENIED (deny_reserve maps ++ deny_record kind) R st rc [] t)
    as (R1 & st1 & t1 & b & -> & HR & Hst & _ & Hb); [by left|apply Hs|]. cbn [app].
  assert (b = false → ∃ t, k_stats (w t) = false) as Hcount by (intros ->; by eexists).
  assert (scanning R1 st1) as Hs1 by by eapply scanning_lookup.
  rewrite <-Hst in Hm by (unfold SLOT_MATCH, SLOT_KEY; lia). clear Hs HR Hst. unfold deny_reserve. cbn [app].
  destruct Hs1 as (H10 & H7 & H8 & H9 & Hn & Hhi).
  rewrite op_pid_tgid. erewrite op_stx_dw_stack; [|done..|reg|reg].
  rewrite <-!app_assoc, op_ld_map; [|done|apply (fd_range _ _ _ _ _ H); set_solver]. cbn [app].
  rewrite !op_mov_imm by done. rewrite op_reserve; [|reg..].
  set (st2 := store 8 st1 SLOT_PID (k_pid_tgid (w t1))).
  destruct (k_reserve _) eqn:Hres.
  - left. erewrite op_jeq_ptr; [|done|reg].
    set (R2 := clobber _ _). set (o1 := if b then _ else _).
    pose proof (hk_pid _ _ _ _ _ H t1) as Hpid.
    destruct (record_runs R2 st2 no_bytes o1 (7 + t1) idx (k_pid_tgid (w t1))) as (m & rc' & Hrun & Ho & Hrec).
    + split_and!; [exact H10|exact H7|exact H8|exact H9|..].
      * unfold st2. rewrite load_store_other; [exact Hn|]. unfold SLOT_NOW, SLOT_PID. lia.
      * intros Hv. unfold st2. rewrite load_store_other; [exact (Hhi Hv)|]. unfold SLOT_ADDR_HI, SLOT_PID. lia.
    + done.
    + unfold st2. rewrite load_store_other; [done|]. unfold SLOT_MATCH, SLOT_PID. lia.
    + unfold st2. rewrite load_store. f_equal. apply Z.mod_small. change (256 ^ Z.of_nat 8) with (2 ^ 64). exact Hpid.
    + exists m. split; [exact Hrun|]. exists b, [Submitted rc']. split_and!; [done..|]. left. by exists rc', (k_pid_tgid (w t1)).
  - right. erewrite op_jeq; [|done|reg]. cbn [Z.eqb]. do 4 eexists. exists b. split; [reflexivity|].
    split_and!; [reg|done|by eexists].
Qed.

Lemma drop_tail_runs R st rc o t : R 10 = Ptr RStack 0 →
  ∃ m (b : bool), run_ops w (drop_tail maps) 0 (mkMachine R st rc o t) = Done 0 m
    ∧ out m = o ++ if b then [Bumped STAT_DROPPED 1] else [].
Proof.
  intros H10. unfold drop_tail. rewrite op_mark.
  destruct (op_bump STAT_DROPPED [Emit (ins BPF_MOV64_IMM 0 0 0 0); Emit (ins BPF_EXIT 0 0 0 0)] R st rc o t)
    as (R1 & st1 & t1 & b & -> & _ & _ & _ & _); [by right|done|].
  rewrite op_mov_imm by done. erewrite op_exit; [|reg]. eexists _, b. split; [reflexivity|]. by destruct b.
Qed.
End tails.
