(* ===== verification/EbpfTheorems.v ===== *)
(** * EbpfTheorems: the verdict of a hook

    The phases joined: what the program of a hook returns, for every policy
    table, every flow and every way user space may rewrite the grant maps
    while the program runs. *)

From S2P Require Import Prelude IpAddr PolicyCidr Ebpf EbpfMachine EbpfAsm EbpfExec EbpfProgram EbpfEvents.

Open Scope Z_scope.

Section phases.
Context (w : World) (kind : ProgKind) (maps : ProgMaps) (entries : list RuleEntry) (slots : nat) (sa : SockAddr).
Context (H : hooked w maps entries slots sa).
Local Notation f := (flow_of kind sa).
Local Notation v6 := (is_v6 kind).

(** ** The prologue *)

(** The flow is in the registers, the clock not yet read. *)
Definition loaded (R : Z → Val) (st : Mem) : Prop :=
  R 10 = Ptr RStack 0
  ∧ R 7 = Num (if v6 then pair (w0 (fl_addr f)) (w1 (fl_addr f)) else w0 (fl_addr f))
  ∧ R 8 = Num (fl_port_raw f) ∧ R 9 = Num (fl_proto f)
  ∧ (v6 = true → load 8 st SLOT_ADDR_HI = Some (pair (w2 (fl_addr f)) (w3 (fl_addr f)))).

(** A datagram send without a destination. *)
Definition nameless : bool := is_sendmsg kind && (sa_port sa =? 0).

Ltac reg := cbn [upd clobber Z.eqb Pos.eqb]; unfold clobber; cbn [upd Z.eqb Pos.eqb];
  solve [eassumption | reflexivity | match goal with H : ?R ?n = _ |- context [?R ?n] => by rewrite H end].
Ltac ctx_read L := cbn [read]; rewrite (hk_ctx _ _ _ _ _ H); exact (L sa (hk_sa _ _ _ _ _ H)).

Lemma port_check ops R st rc o t : R 8 = Num (sa_port sa) → R 6 = Ptr RCtx 0 →
  run_ops w ((if is_sendmsg kind then [Jump BPF_JEQ_K 8 0 MAllow 0] else []) ++ [Emit (ins BPF_LDX_MEM_W 9 6 PROTOCOL 0)] ++ ops) 0
    (mkMachine R st rc o t)
  = if nameless then Goto MAllow (mkMachine R st rc o (S t))
    else run_ops w ops 0 (mkMachine (upd 9 (Num (sa_protocol sa)) R) st rc o ((if is_sendmsg kind then 2 else 1) + t)%nat).
Proof.
  intros H8 H6. unfold nameless. destruct (is_sendmsg kind); cbn [app andb].
  - erewrite op_jeq; [|done|reg]. destruct (sa_port sa =? 0); [done|].
    erewrite op_ldx_w; [|done..|reg|ctx_read ctx_protocol]. done.
  - erewrite op_ldx_w; [|done..|reg|ctx_read ctx_protocol]. done.
Qed.

Lemma prologue_runs :
  ∃ R st t, run_ops w (prologue_ctx kind) 0 initial
            = (if nameless then Goto MAllow else Fall 0) (mkMachine R st no_bytes [] t)
    ∧ (nameless = false → loaded R st).
Proof.
  unfold prologue_ctx, initial. cbn [app]. rewrite op_mov; [|done..|reg].
  unfold loaded, flow_of. cbn [fl_addr fl_port_raw fl_proto].
  pose proof (hk_sa _ _ _ _ _ H) as (? & (? & ? & ? & ?) & ? & ?).
  destruct v6; cbn [app].
  - erewrite op_ldx_dw; [|done..|reg|ctx_read ctx_ip6_lo]. erewrite op_ldx_dw; [|done..|reg|ctx_read ctx_ip6_hi].
    erewrite op_stx_dw_stack; [|done..|reg|reg]. erewrite op_ldx_w; [|done..|reg|ctx_read ctx_port].
    rewrite <-(app_nil_r [Emit (ins BPF_LDX_MEM_W 9 _ _ _)]), port_check by reg.
    destruct nameless; [by do 3 eexists|]. do 3 eexists. split; [reflexivity|]. intros _.
    split_and!; [reg|reg|reg|reg|]. intros _. rewrite load_store. f_equal. apply Z.mod_small.
    change (256 ^ Z.of_nat 8) with (2 ^ 64). unfold pair, u32 in *. lia.
  - erewrite op_ldx_w; [|done..|reg|ctx_read ctx_ip4]. erewrite op_ldx_w; [|done..|reg|ctx_read ctx_port].
    rewrite <-(app_nil_r [Emit (ins BPF_LDX_MEM_W 9 _ _ _)]), port_check by reg.
    destruct nameless; [by do 3 eexists|]. do 3 eexists. split; [reflexivity|]. intros _.
    split_and!; [reg|reg|reg|reg|done].
Qed.

(** ** The clock *)

Definition clock_read : list Op :=
  [Emit (ins BPF_CALL 0 0 0 BPF_FUNC_KTIME_GET_BOOT_NS); Emit (ins BPF_STX_MEM_DW 10 0 SLOT_NOW 0)]
  ++ lookup_ops (pm_clock maps) 0
  ++ [Jump BPF_JEQ_K 0 0 MNoEpoch 0; Emit (ins BPF_LDX_MEM_DW 1 0 0 0); Jump BPF_JA 0 0 MHaveEpoch 0].
Definition clock_zero : list Op := [Emit (ins BPF_MOV64_IMM 1 0 0 0)].
Definition clock_sum : list Op :=
  [Emit (ins BPF_LDX_MEM_DW 0 10 SLOT_NOW 0); Emit (ins BPF_ALU64_ADD_REG 0 1 0 0);
   Emit (ins BPF_STX_MEM_DW 10 0 SLOT_NOW 0);
   Emit (ins BPF_ST_MEM_W 10 0 SLOT_MATCH (as_i32 RULE_IDX_NONE))].

Lemma prologue_clock_split :
  prologue_clock maps = clock_read ++ MarkHere MNoEpoch :: clock_zero ++ MarkHere MHaveEpoch :: clock_sum.
Proof. unfold prologue_clock, clock_read. by rewrite <-!app_assoc. Qed.

(** The wall clock of a run: the boot time it read plus the epoch it found,
    zero when the clock map was unreachable. *)
Definition wall_clock (now : Z) : Prop :=
  ∃ tb tc, (tb ≤ tc)%nat ∧ now = (k_boot_ns (w tb) + default 0 (k_clock (w tc))) mod 2 ^ 64.

Lemma loaded_keeps R R' st st' : loaded R st → (∀ r, 6 <= r → R' r = R r) →
  (load 8 st' SLOT_ADDR_HI = load 8 st SLOT_ADDR_HI) → loaded R' st'.
Proof.
  intros (H10 & H7 & H8 & H9 & Hhi) HR Hst. unfold loaded. rewrite !HR, Hst by lia. done.
Qed.

(** A one-slot map read into [r1]: its value at the instant of the load, or
    the jump for an unreachable map. *)
Lemma cell_read fd region (v : nat → option Z) miss rest R st rc o t :
  0 <= fd < 2 ^ 31 → cell v → R 10 = Ptr RStack 0 →
  (∀ t, map_elem (w t) fd 0 = Some (if decide (is_Some (v t)) then Ptr region 0 else Num 0)) →
  (∀ t m, read (w t) m 8 region 0 = (x ← v t; load 8 (of_bytes (le_bytes 8 x)) 0)) →
  ∃ R' st' t' tc, (t ≤ tc ≤ t')%nat ∧ (∀ r, 6 <= r → R' r = R r)
    ∧ (∀ n a, a + Z.of_nat n <= SLOT_KEY → load n st' a = load n st a)
    ∧ run_ops w (lookup_ops fd 0 ++ [Jump BPF_JEQ_K 0 0 miss 0; Emit (ins BPF_LDX_MEM_DW 1 0 0 0)] ++ rest) 0
        (mkMachine R st rc o t)
      = (if v tc then run_ops w rest 0 (mkMachine R' st' rc o t') else Goto miss (mkMachine R' st' rc o t'))
    ∧ (∀ x, v tc = Some x → R' 1 = Num x ∧ u64 x).
Proof.
  intros Hfd Hcell H10 Helem Hread.
  destruct (op_lookup w fd 0 (if decide (is_Some (v (4 + t)%nat)) then Ptr region 0 else Num 0)
    ([Jump BPF_JEQ_K 0 0 miss 0; Emit (ins BPF_LDX_MEM_DW 1 0 0 0)] ++ rest) R st rc o t)
    as (R2 & st2 & -> & H0 & HR & Hst); [done..|apply Helem|]. cbn [app Nat.add] in *.
  destruct Hcell as [Hc|Hc].
  - destruct (Hc (4 + t)%nat) as (x4 & H4 & _). destruct (Hc (6 + t)%nat) as (x & H6 & Hx). cbn [Nat.add] in *.
    rewrite decide_True in H0 by (rewrite H4; by eexists). erewrite op_jeq_ptr; [|done|exact H0].
    assert (read (w (6 + t)%nat) (mkMachine R2 st2 rc o (6 + t)%nat) 8 region (0 + 0) = Some x) as Hr.
    { rewrite Z.add_0_r, Hread. cbn [Nat.add]. rewrite H6. cbn [mbind option_bind].
      rewrite load_of_bytes by (rewrite ?le_bytes_length; done).
      change (take 8 (drop (Z.to_nat 0) (le_bytes 8 x))) with (le_bytes 8 x). by rewrite le_value_u64. }
    erewrite op_ldx_dw; [|done..|exact H0|exact Hr].
    exists (upd 1 (Num x) R2), st2, (7 + t)%nat, (6 + t)%nat. cbn [Nat.add]. rewrite H6.
    split_and!; [lia|lia| |done|done|intros ? [= <-]; split; [reg|done]].
    intros r Hr'. unfold upd. destruct (Z.eqb_spec r 1); [lia|by apply HR].
  - rewrite decide_False in H0 by (rewrite Hc; by intros [? ?]). erewrite op_jeq; [|done|exact H0]. cbn [Z.eqb].
    exists R2, st2, (6 + t)%nat, (4 + t)%nat. cbn [Nat.add]. rewrite Hc. split_and!; [lia|lia|done..].
Qed.

Lemma clock_cell : 0 <= pm_clock maps < 2 ^ 31.
Proof. apply (fd_range _ _ _ _ _ H). set_solver. Qed.
Lemma seq_cell : 0 <= pm_seq maps < 2 ^ 31.
Proof. apply (fd_range _ _ _ _ _ H). set_solver. Qed.

Lemma clock_read_runs R st t : loaded R st →
  ∃ R' st' t' tc, (t ≤ tc)%nat ∧ loaded R' st' ∧ load 8 st' SLOT_NOW = Some (k_boot_ns (w t))
    ∧ run_ops w clock_read 0 (mkMachine R st no_bytes [] t)
      = Goto (if k_clock (w tc) then MHaveEpoch else MNoEpoch) (mkMachine R' st' no_bytes [] t')
    ∧ (∀ x, k_clock (w tc) = Some x → R' 1 = Num x).
Proof.
  intros Hl. pose proof Hl as (H10 & _). unfold clock_read. cbn [app]. rewrite op_boot_ns.
  erewrite op_stx_dw_stack; [|done..|reg|reg].
  set (st1 := store 8 st SLOT_NOW _). set (R1 := clobber _ _).
  destruct (cell_read (pm_clock maps) RClock (λ t, k_clock (w t)) MNoEpoch [Jump BPF_JA 0 0 MHaveEpoch 0]
    R1 st1 no_bytes [] (S (S t)) clock_cell (hk_clock _ _ _ _ _ H)) as (R2 & st2 & t2 & tc & Htc & HR & Hst & Hrun & Hx);
    [reg|apply (elem_clock _ _ _ _ _ H)|done|].
  cbn [app] in Hrun. rewrite Hrun. pose proof (hk_boot _ _ _ _ _ H t) as Hboot.
  assert (loaded R2 st2) as Hl2.
  { eapply loaded_keeps; [exact Hl|..].
    - intros r Hr. rewrite HR by done. unfold R1, clobber, upd.
      repeat match goal with |- context [r =? ?n] => destruct (Z.eqb_spec r n); [lia|] end. done.
    - rewrite Hst by (unfold SLOT_ADDR_HI, SLOT_KEY; lia). unfold st1. apply load_store_other.
      unfold SLOT_ADDR_HI, SLOT_NOW. lia. }
  assert (load 8 st2 SLOT_NOW = Some (k_boot_ns (w t))) as Hnow.
  { rewrite Hst by (unfold SLOT_NOW, SLOT_KEY; lia). unfold st1. rewrite load_store. f_equal.
    apply Z.mod_small. change (256 ^ Z.of_nat 8) with (2 ^ 64). exact Hboot. }
  rewrite op_ja. destruct (k_clock (w tc)) as [x|] eqn:E.
  - exists R2, st2, (S t2), tc. rewrite E. split_and!; [lia|done..|]. intros y [= <-]. by apply Hx.
  - exists R2, st2, t2, tc. rewrite E. split_and!; [lia|done..].
Qed.

Lemma clock_sum_runs R st t boot epoch : loaded R st → load 8 st SLOT_NOW = Some boot → R 1 = Num epoch →
  ∃ R' st', run_ops w clock_sum 0 (mkMachine R st no_bytes [] t)
              = Fall 0 (mkMachine R' st' no_bytes [] (4 + t)%nat)
    ∧ scanning v6 f ((boot + epoch) mod 2 ^ 64) R' st' ∧ load 4 st' SLOT_MATCH = Some RULE_IDX_NONE.
Proof.
  intros (H10 & H7 & H8 & H9 & Hhi) Hn H1. unfold clock_sum.
  erewrite op_ldx_dw; [|done..|reg|exact Hn]. erewrite op_add; [|done..|reg|reg].
  erewrite op_stx_dw_stack; [|done..|reg|reg]. rewrite op_st_stack; [|done|reg].
  do 2 eexists. split; [reflexivity|]. split.
  - split_and!; [reg|reg|reg|reg| |intros Hv].
    + rewrite load_store_other by (unfold SLOT_MATCH, SLOT_NOW; lia). rewrite load_store.
      change (256 ^ Z.of_nat 8) with (2 ^ 64). by rewrite Z.mod_mod by lia.
    + rewrite !load_store_other by (unfold SLOT_MATCH, SLOT_NOW, SLOT_ADDR_HI; lia). exact (Hhi Hv).
  - rewrite load_store. reflexivity.
Qed.

(** ** The sequence counter *)

Definition seq_test : list Op :=
  [Emit (ins BPF_STX_MEM_DW 10 1 SLOT_SEQ 0); Jump BPF_JSET_K 1 0 MDefault 1].
Lemma seq_snapshot_split :
  seq_snapshot maps = (lookup_ops (pm_seq maps) 0 ++ [Jump BPF_JEQ_K 0 0 MNoSeq 0; Emit (ins BPF_LDX_MEM_DW 1 0 0 0)]
                       ++ [Jump BPF_JA 0 0 MHaveSeq 0])
    ++ MarkHere MNoSeq :: [Emit (ins BPF_MOV64_IMM 1 0 0 1)] ++ MarkHere MHaveSeq :: seq_test.
Proof. unfold seq_snapshot. by rewrite <-!app_assoc. Qed.

Section counter.
Context (now : Z).
Local Notation scanning := (scanning (is_v6 kind) (flow_of kind sa) now).

Lemma seq_read_runs R st rc o t : scanning R st →
  ∃ R' st' t' tc, (t ≤ tc ≤ t')%nat ∧ scanning R' st' ∧ load 4 st' SLOT_MATCH = load 4 st SLOT_MATCH
    ∧ run_ops w (lookup_ops (pm_seq maps) 0 ++ [Jump BPF_JEQ_K 0 0 MNoSeq 0; Emit (ins BPF_LDX_MEM_DW 1 0 0 0)]
                 ++ [Jump BPF_JA 0 0 MHaveSeq 0]) 0 (mkMachine R st rc o t)
      = Goto (if k_seq (w tc) then MHaveSeq else MNoSeq) (mkMachine R' st' rc o t')
    ∧ (∀ x, k_seq (w tc) = Some x → R' 1 = Num x ∧ u64 x).
Proof.
  intros Hs. pose proof Hs as (H10 & _).
  destruct (cell_read (pm_seq maps) RSeq (λ t, k_seq (w t)) MNoSeq [Jump BPF_JA 0 0 MHaveSeq 0]
    R st rc o t seq_cell (hk_seq _ _ _ _ _ H) H10 (elem_seq _ _ _ _ _ H)) as (R2 & st2 & t2 & tc & Htc & HR & Hst & Hrun & Hx); [done|].
  rewrite Hrun, op_ja.
  assert (scanning R2 st2) as Hs2 by by eapply scanning_lookup.
  assert (load 4 st2 SLOT_MATCH = load 4 st SLOT_MATCH) as Hm by (apply Hst; unfold SLOT_MATCH, SLOT_KEY; lia).
  destruct (k_seq (w tc)) as [x|] eqn:E; [exists R2, st2, (S t2), tc|exists R2, st2, t2, tc]; rewrite E; split_and!; done || lia || eauto.
Qed.

Lemma seq_test_runs R st rc o t s : scanning R st → R 1 = Num s → u64 s →
  ∃ st' t', run_ops w seq_test 0 (mkMachine R st rc o t)
            = (if Z.even s then Fall 0 else Goto MDefault) (mkMachine R st' rc o t')
    ∧ (t ≤ t')%nat ∧ scanning R st' ∧ load 4 st' SLOT_MATCH = load 4 st SLOT_MATCH ∧ load 8 st' SLOT_SEQ = Some s.
Proof.
  intros (H10 & H7 & H8 & H9 & Hn & Hhi) H1 Hs. unfold seq_test.
  erewrite op_stx_dw_stack; [|done..|reg|reg]. erewrite op_jset; [|done|reg].
  exists (store 8 st SLOT_SEQ s), (S (S t)). split_and!.
  - change 1 with (Z.ones 1). rewrite Z.land_ones by done. change (2 ^ 1) with 2.
    by rewrite Zeven_mod; destruct (s mod 2 =? 0).
  - lia.
  - split_and!; [done..| |].
    + rewrite load_store_other by (unfold SLOT_SEQ, SLOT_NOW; lia). done.
    + intros Hv. rewrite load_store_other by (unfold SLOT_SEQ, SLOT_ADDR_HI; lia). by apply Hhi.
  - apply load_store_other. unfold SLOT_SEQ, SLOT_MATCH; lia.
  - rewrite load_store. f_equal. by apply Z.mod_small.
Qed.

Lemma recheck_runs R st rc o t s : scanning R st → load 8 st SLOT_SEQ = Some s →
  ∃ R' st' t' tc (b : bool), (t ≤ tc)%nat ∧ scanning R' st' ∧ load 4 st' SLOT_MATCH = load 4 st SLOT_MATCH
    ∧ run_ops w (grant_recheck maps) 0 (mkMachine R st rc o t)
      = Goto (if b then MAllow else MDefault) (mkMachine R' st' rc o t')
    ∧ b = bool_decide (k_seq (w tc) = Some s).
Proof.
  intros Hs Hseq. pose proof Hs as (H10 & _). unfold grant_recheck. rewrite op_mark.
  destruct (cell_read (pm_seq maps) RSeq (λ t, k_seq (w t)) MDefault
    [Emit (ins BPF_LDX_MEM_DW 2 10 SLOT_SEQ 0); Jump BPF_JNE_X 1 2 MDefault 0; Jump BPF_JA 0 0 MAllow 0]
    R st rc o t seq_cell (hk_seq _ _ _ _ _ H) H10 (elem_seq _ _ _ _ _ H)) as (R2 & st2 & t2 & tc & Htc & HR & Hst & Hrun & Hx); [done|].
  cbn [app] in Hrun. rewrite Hrun.
  assert (scanning R2 st2) as Hs2 by by eapply scanning_lookup.
  assert (load 4 st2 SLOT_MATCH = load 4 st SLOT_MATCH) as Hm by (apply Hst; unfold SLOT_MATCH, SLOT_KEY; lia).
  assert (load 8 st2 SLOT_SEQ = Some s) as Hseq2 by (rewrite Hst; [done|]; unfold SLOT_SEQ, SLOT_KEY; lia).
  destruct (k_seq (w tc)) as [x|] eqn:E.
  - destruct (Hx x eq_refl) as [H1 _]. pose proof Hs2 as (H10' & _).
    erewrite op_ldx_dw; [|done..|reg|exact Hseq2]. erewrite op_jne; [|done..|reg|reg]. rewrite op_ja.
    assert (scanning (upd 2 (Num s) R2) st2) as Hs3.
    { eapply scanning_keeps; [exact Hs2|]. intros r Hr. unfold upd. destruct (Z.eqb_spec r 2); [lia|done]. }
    destruct (Z.eqb_spec x s) as [->|]; [exists (upd 2 (Num s) R2), st2, (S (S (S t2))), tc, true|exists (upd 2 (Num s) R2), st2, (S (S t2)), tc, false];
      (split_and!; [lia|done..|]); rewrite E; [by rewrite bool_decide_eq_true_2|].
    rewrite bool_decide_eq_false_2; [done|]. congruence.
  - exists R2, st2, t2, tc, false. split_and!; [lia|done..|]. by rewrite E.
Qed.
End counter.
End phases.
