(* ===== verification/EbpfVerdict.v ===== *)
(** * EbpfVerdict: the verdict of a hook

    The scan of the tables that a hook computes, and the theorem on the whole
    program. *)

From S2P Require Import Prelude IpAddr PolicyCidr Ebpf EbpfMachine EbpfAsm EbpfExec.
From S2P Require Import EbpfProgram EbpfEvents EbpfTheorems.

Open Scope Z_scope.

(** A grant that authorizes the flow at [now]. *)
Definition granted (v6 : bool) (f : Flow) (now : Z) (G : list RuleEntry) : bool :=
  existsb (λ e, live now e && entry_matches v6 f e) G.

Section verdict.
Context (w : World) (kind : ProgKind) (maps : ProgMaps) (entries : list RuleEntry) (slots : nat) (sa : SockAddr).
Context (default_allow : bool) (prog : list Z).
Context (H : hooked w maps entries slots sa).
Context (Hentries : (length entries ≤ MAX_RULES_PER_MAP)%nat) (Hslots : (slots ≤ GRANT_SLOTS)%nat).
Local Notation ops := (build_ops kind maps entries slots default_allow).
Context (Hprog : resolve_jumps (foldl apply_op builder_new ops) = Some prog).
Local Notation f := (flow_of kind sa).
Local Notation v6 := (is_v6 kind).
Local Notation reaches := (reaches w prog).
Local Notation halts := (halts w prog).
Local Notation goes := (goes w kind maps entries slots default_allow prog).
Local Notation denial := (denial w kind sa).
Local Notation block_falls := (block_falls w kind maps entries slots default_allow prog Hentries Hslots Hprog).
Local Notation block_jumps := (block_jumps w kind maps entries slots default_allow prog Hentries Hslots Hprog).
Local Notation block_halts := (block_halts w kind maps entries slots default_allow prog Hentries Hslots Hprog).

(** The run from here ends with [r] and leaves effects in [Φ]. *)
Definition ends (pc : nat) (m : Machine) (r : Z) (Φ : list Effect → Prop) : Prop :=
  ∃ m', halts pc m r m' ∧ Φ (out m').

Lemma reaches_ends pc m pc' m' r Φ : reaches pc m pc' m' → ends pc' m' r Φ → ends pc m r Φ.
Proof. intros Hr (m1 & Hh & Ho). exists m1. split; [|done]. by eapply reaches_halts. Qed.

(** ** The parts of the program *)

Definition seqlock : bool := (0 <? Z.of_nat slots) && negb default_allow.
Definition head : list Op := prologue_ctx kind ++ prologue_clock maps.
Definition snapshot : list Op := if seqlock then seq_snapshot maps else [].
Definition grants : list Op := grant_blocks kind maps slots seqlock.
Definition before_default : list Op := head ++ static_blocks kind maps entries ++ snapshot ++ grants.
Definition default_jump : list Op := [MarkHere MDefault; Jump BPF_JA 0 0 (if default_allow then MAllow else MDeny) 0].
Definition recheck : list Op := if seqlock then grant_recheck maps else [].

Lemma ops_default : ops = before_default ++ default_jump ++ allow_tail ++ recheck ++ deny_tail kind maps ++ drop_tail maps.
Proof. unfold build_ops, before_default, head, default_jump. by rewrite <-!app_assoc. Qed.
Lemma ops_allow : ops = (before_default ++ default_jump) ++ allow_tail ++ recheck ++ deny_tail kind maps ++ drop_tail maps.
Proof. rewrite ops_default. by rewrite <-!app_assoc. Qed.
Lemma ops_deny : ops = (before_default ++ default_jump ++ allow_tail ++ recheck) ++ deny_tail kind maps ++ drop_tail maps.
Proof. rewrite ops_default. by rewrite <-!app_assoc. Qed.
Lemma ops_drop : ops = (before_default ++ default_jump ++ allow_tail ++ recheck ++ deny_tail kind maps) ++ drop_tail maps ++ [].
Proof. rewrite ops_default, app_nil_r. by rewrite <-!app_assoc. Qed.

(** ** Tails *)

Lemma allow_ends pc m m' : goes pc m MAllow m' → out m' = [] → ends pc m 1 (eq []).
Proof.
  intros Hg Ho. eapply reaches_ends; [eapply Hg; exact ops_allow|].
  destruct m' as [R st rc o t]. cbn in Ho. subst o.
  eexists. split; [eapply block_halts; [exact ops_allow|]|].
  - unfold allow_tail. rewrite op_mark, op_mov_imm by done. by erewrite op_exit.
  - done.
Qed.

Lemma deny_ends pc m R st rc t now idx : goes pc m MDeny (mkMachine R st rc [] t) →
  scanning v6 f now R st → load 4 st SLOT_MATCH = Some idx → ends pc m 0 (denial idx).
Proof.
  intros Hg Hs Hm. eapply reaches_ends; [eapply Hg; exact ops_deny|].
  destruct (deny_tail_runs w kind maps entries slots sa H now R st rc t idx Hs Hm)
    as [(m' & Hrun & Hd)|(R' & st' & rc' & t' & b & Hrun & H10 & Hcount & Hres)].
  - exists m'. split; [|done]. eapply block_halts; [exact ops_deny|exact Hrun].
  - eapply reaches_ends; [eapply block_jumps; [exact ops_deny|exact Hrun|exact ops_drop]|].
    destruct (drop_tail_runs w maps entries slots sa H R' st' rc' (if b then [Bumped STAT_DENIED 1] else []) t' H10)
      as (m' & b2 & Hrun2 & Ho).
    exists m'. split; [eapply block_halts; [exact ops_drop|exact Hrun2]|].
    exists b, (if b2 then [Bumped STAT_DROPPED 1] else []). split_and!; [done..|].
    right. split; [done|]. destruct b2; [by left|by right].
Qed.

(** The verdict where nothing matched. *)
Definition default_outcome (r : Z) (o : list Effect) : Prop :=
  if default_allow then r = 1 ∧ o = [] else r = 0 ∧ denial RULE_IDX_NONE o.

Lemma posture : default_allow = true ∨ default_allow = false.
Proof. generalize default_allow. intros []; auto. Qed.

Lemma default_ends pc m R st rc t now : reaches pc m (size before_default) (mkMachine R st rc [] t) →
  scanning v6 f now R st → load 4 st SLOT_MATCH = Some RULE_IDX_NONE →
  ∃ r, ends pc m r (default_outcome r).
Proof.
  intros Hr Hs Hm.
  assert (goes pc m (if default_allow then MAllow else MDeny) (mkMachine R st rc [] (S t))) as Hg.
  { intros a b Hab. eapply reaches_trans; [exact Hr|].
    eapply block_jumps; [exact ops_default| |exact Hab]. unfold default_jump. rewrite op_mark. apply op_ja. }
  destruct posture as [E|E].
  - assert ((if default_allow then MAllow else MDeny) = MAllow) as El by by rewrite E. rewrite El in Hg.
    exists 1. destruct (allow_ends _ _ _ Hg eq_refl) as (m' & Hh & Ho). exists m'. split; [done|].
    unfold default_outcome. by rewrite E.
  - assert ((if default_allow then MAllow else MDeny) = MDeny) as El by by rewrite E. rewrite El in Hg.
    exists 0. destruct (deny_ends _ _ _ _ _ _ _ _ Hg Hs Hm) as (m' & Hh & Ho). exists m'. split; [done|].
    unfold default_outcome. by rewrite E.
Qed.

(** ** Grants *)

(** Nothing is written to the grant maps between the two instants. *)
Definition steady (t0 t1 : nat) (G : list RuleEntry) : Prop :=
  ∀ u, (t0 ≤ u ≤ t1)%nat → k_grants (w u) = G.

(** How a scan under default-deny ends: with an allow framed by two equal even
    readings of the counter, or with the default. *)
Definition grant_outcome (t : nat) (now : Z) (r : Z) (o : list Effect) : Prop :=
  (r = 1 ∧ o = [] ∧ ∃ t0 t1 s, (t0 ≤ t1)%nat ∧ k_seq (w t0) = Some s ∧ k_seq (w t1) = Some s ∧ Z.even s = true
     ∧ ∀ G, steady t0 t1 G → granted v6 f now G = true)
  ∨ (r = 0 ∧ denial RULE_IDX_NONE o
     ∧ ∀ G s, (∀ u, (t ≤ u)%nat → k_grants (w u) = G ∧ k_seq (w u) = Some s) → Z.even s = true →
         granted v6 f now G = false).

Lemma denied_outcome pc m r t now : default_allow = false → ends pc m r (default_outcome r) →
  (∀ G s, (∀ u, (t ≤ u)%nat → k_grants (w u) = G ∧ k_seq (w u) = Some s) → Z.even s = true →
     granted v6 f now G = false) →
  ends pc m r (grant_outcome t now r).
Proof.
  intros E (m' & Hh & Ho) Hg. exists m'. split; [done|]. right.
  unfold default_outcome in Ho. rewrite E in Ho. destruct Ho. done.
Qed.

Definition scanned : list Op := head ++ static_blocks kind maps entries.
Definition after_grants : list Op := default_jump ++ allow_tail ++ recheck ++ deny_tail kind maps ++ drop_tail maps.

Lemma ops_scanned : ops = scanned ++ snapshot ++ grants ++ after_grants.
Proof. rewrite ops_default. unfold before_default, scanned, after_grants. by rewrite <-!app_assoc. Qed.
Lemma before_default_split : before_default = scanned ++ snapshot ++ grants.
Proof. unfold before_default, scanned. by rewrite <-!app_assoc. Qed.

(** *** With the counter *)

Section framed.
Context (Hdeny : default_allow = false) (Hpos : (0 < slots)%nat).

Lemma seqlock_on : seqlock = true.
Proof. unfold seqlock. rewrite Hdeny. destruct (Z.ltb_spec 0 (Z.of_nat slots)); [done|lia]. Qed.

Definition seq_head : list Op :=
  lookup_ops (pm_seq maps) 0 ++ [Jump BPF_JEQ_K 0 0 MNoSeq 0; Emit (ins BPF_LDX_MEM_DW 1 0 0 0)]
  ++ [Jump BPF_JA 0 0 MHaveSeq 0].
Definition no_seq : list Op := [MarkHere MNoSeq; Emit (ins BPF_MOV64_IMM 1 0 0 1)].

Lemma snapshot_split : snapshot = seq_head ++ no_seq ++ MarkHere MHaveSeq :: seq_test.
Proof. unfold snapshot. rewrite seqlock_on. apply seq_snapshot_split. Qed.
Lemma grants_split : grants = grant_part kind maps 0 slots MGrantAllow.
Proof. unfold grants. by rewrite seqlock_on. Qed.
Lemma recheck_split : recheck = grant_recheck maps.
Proof. unfold recheck. by rewrite seqlock_on. Qed.

Lemma ops_seq_head : ops = scanned ++ seq_head ++ (no_seq ++ MarkHere MHaveSeq :: seq_test ++ grants ++ after_grants).
Proof. rewrite ops_scanned, snapshot_split. by rewrite <-!app_assoc. Qed.
Lemma ops_no_seq : ops = (scanned ++ seq_head) ++ no_seq ++ (MarkHere MHaveSeq :: seq_test ++ grants ++ after_grants).
Proof. by rewrite ops_seq_head, <-!app_assoc. Qed.
Lemma ops_have_seq :
  ops = (scanned ++ seq_head ++ no_seq) ++ (MarkHere MHaveSeq :: seq_test) ++ (grants ++ after_grants).
Proof. rewrite ops_no_seq, <-!app_assoc. done. Qed.
Lemma ops_grants : ops = (scanned ++ snapshot) ++ grant_part kind maps 0 slots MGrantAllow ++ after_grants.
Proof. rewrite ops_scanned, <-grants_split. by rewrite <-!app_assoc. Qed.
Lemma ops_recheck :
  ops = (before_default ++ default_jump ++ allow_tail) ++ grant_recheck maps ++ (deny_tail kind maps ++ drop_tail maps).
Proof. rewrite ops_default, recheck_split. by rewrite <-!app_assoc. Qed.
Lemma ops_mark_default : ops = before_default ++ MarkHere MDefault ::
  [Jump BPF_JA 0 0 (if default_allow then MAllow else MDeny) 0] ++ allow_tail ++ recheck ++ deny_tail kind maps ++ drop_tail maps.
Proof. apply ops_default. Qed.

(** The counter is read: the scan follows on an even value, the default on
    any other. *)
Lemma snapshot_ends R st rc t now : scanning v6 f now R st → load 4 st SLOT_MATCH = Some RULE_IDX_NONE →
  ∃ R' st' t' tc, (t ≤ tc ≤ t')%nat ∧ scanning v6 f now R' st' ∧ load 4 st' SLOT_MATCH = Some RULE_IDX_NONE
  ∧ ((∃ s, k_seq (w tc) = Some s ∧ Z.even s = true ∧ load 8 st' SLOT_SEQ = Some s
        ∧ reaches (size scanned) (mkMachine R st rc [] t) (size (scanned ++ snapshot)) (mkMachine R' st' rc [] t'))
     ∨ ((∀ s, k_seq (w tc) = Some s → Z.even s = false)
        ∧ reaches (size scanned) (mkMachine R st rc [] t) (size before_default) (mkMachine R' st' rc [] t'))).
Proof.
  intros Hs Hm.
  destruct (seq_read_runs w kind maps entries slots sa H now R st rc [] t Hs) as (R1 & st1 & t1 & tc & Htc & Hs1 & Hm1 & Hrun & Hx).
  rewrite Hm in Hm1.
  assert (∃ R2 t2 s, (t1 ≤ t2)%nat ∧ scanning v6 f now R2 st1 ∧ R2 1 = Num s ∧ u64 s
    ∧ (∀ x, k_seq (w tc) = Some x → x = s) ∧ (Z.even s = true → k_seq (w tc) = Some s)
    ∧ reaches (size scanned) (mkMachine R st rc [] t) (size (scanned ++ seq_head ++ no_seq)) (mkMachine R2 st1 rc [] t2))
    as (R2 & t2 & s & Ht2 & Hs2 & H1 & Hu & Heq & Heven & Hreach).
  { destruct (k_seq (w tc)) as [x|] eqn:Ex.
    - destruct (Hx x eq_refl) as [H1 Hu]. exists R1, t1, x. split_and!; [lia|done..|congruence|done|].
      eapply block_jumps; [exact ops_seq_head|exact Hrun|exact ops_have_seq].
    - exists (upd 1 (Num 1) R1), (S t1), 1. split_and!; [lia| |done|split; lia|done|done|].
      + eapply scanning_keeps; [exact Hs1|]. intros r Hr. unfold upd. destruct (Z.eqb_spec r 1); [lia|done].
      + eapply reaches_trans; [eapply block_jumps; [exact ops_seq_head|exact Hrun|exact ops_no_seq]|].
        rewrite app_assoc. eapply block_falls; [exact ops_no_seq|]. unfold no_seq. rewrite op_mark, op_mov_imm by done. done. }
  destruct (seq_test_runs w kind sa now R2 st1 rc [] t2 s Hs2 H1 Hu) as (st3 & t3 & Htest & Ht3 & Hs3 & Hm3 & Hseq).
  exists R2, st3, t3, tc. split_and!; [lia|lia|done|by rewrite Hm3|].
  assert (run_ops w (MarkHere MHaveSeq :: seq_test) 0 (mkMachine R2 st1 rc [] t2)
          = (if Z.even s then Fall 0 else Goto MDefault) (mkMachine R2 st3 rc [] t3)) as Htest'.
  { by rewrite op_mark. }
  destruct (Z.even s) eqn:Ev.
  - left. exists s. split_and!; [by apply Heven|done..|]. eapply reaches_trans; [exact Hreach|].
    replace (size (scanned ++ snapshot)) with (size ((scanned ++ seq_head ++ no_seq) ++ (MarkHere MHaveSeq :: seq_test))).
    + eapply block_falls; [exact ops_have_seq|exact Htest'].
    + rewrite snapshot_split. by rewrite <-!app_assoc.
  - right. split; [intros x Hxs; by rewrite (Heq x Hxs)|]. eapply reaches_trans; [exact Hreach|].
    eapply block_jumps; [exact ops_have_seq|exact Htest'|exact ops_mark_default].
Qed.

Lemma framed_scan_ends R st rc t now : scanning v6 f now R st → load 4 st SLOT_MATCH = Some RULE_IDX_NONE →
  ∃ r, ends (size scanned) (mkMachine R st rc [] t) r (grant_outcome t now r).
Proof.
  intros Hs Hm.
  destruct (snapshot_ends R st rc t now Hs Hm) as (R1 & st1 & t1 & tc & Htc & Hs1 & Hm1 & [(s & Hk & Ev & Hseq & Hr1)|[Hodd Hr1]]); cycle 1.
  { destruct (default_ends _ _ _ _ _ _ _ Hr1 Hs1 Hm1) as [r Hend]. exists r.
    apply denied_outcome; [done..|]. intros G s Hq Hev. rewrite (Hodd s) in Hev; [done|]. apply Hq. lia. }
  destruct (grant_scan w kind maps entries slots sa default_allow prog now H Hentries Hslots Hprog MGrantAllow slots 0
    (scanned ++ snapshot) after_grants R1 st1 rc [] t1 ltac:(lia) ops_grants Hs1)
    as (R2 & st2 & t2 & b & Hs2 & Ht2 & Hst2 & Hgo & Hb).
  assert (load 4 st2 SLOT_MATCH = Some RULE_IDX_NONE) as Hm2 by (rewrite Hst2; [done|]; unfold SLOT_MATCH, SLOT_KEY; lia).
  assert (load 8 st2 SLOT_SEQ = Some s) as Hseq2 by (rewrite Hst2; [done|]; unfold SLOT_SEQ, SLOT_KEY; lia).
  destruct b.
  - assert (reaches (size scanned) (mkMachine R st rc [] t) (size (before_default ++ default_jump ++ allow_tail))
              (mkMachine R2 st2 rc [] t2)) as Hr2.
    { eapply reaches_trans; [exact Hr1|]. eapply Hgo. rewrite ops_recheck. reflexivity. }
    destruct (recheck_runs w kind maps entries slots sa H now R2 st2 rc [] t2 s Hs2 Hseq2)
      as (R3 & st3 & t3 & tc3 & b & Htc3 & Hs3 & Hm3 & Hrun & Hb3). rewrite Hm2 in Hm3.
    destruct b; symmetry in Hb3.
    + apply bool_decide_eq_true in Hb3. exists 1.
      destruct (allow_ends (size scanned) (mkMachine R st rc [] t) (mkMachine R3 st3 rc [] t3)) as (m' & Hh & Ho); [|done|].
      { intros x y Hxy. eapply reaches_trans; [exact Hr2|]. eapply block_jumps; [exact ops_recheck|exact Hrun|exact Hxy]. }
      exists m'. split; [done|]. left. split_and!; [done..|]. exists tc, tc3, s. split_and!; [lia|done..|].
      intros G HG. unfold granted. rewrite (Hb G); [by rewrite drop_0|]. intros u Hu. apply HG. lia.
    + apply bool_decide_eq_false in Hb3.
      destruct (default_ends (size scanned) (mkMachine R st rc [] t) R3 st3 rc t3 now) as [r Hend]; [|done..|].
      { eapply reaches_trans; [exact Hr2|]. eapply block_jumps; [exact ops_recheck|exact Hrun|exact ops_mark_default]. }
      exists r. apply denied_outcome; [done..|]. intros G s' Hq Hev. exfalso. apply Hb3.
      destruct (Hq tc ltac:(lia)) as [_ Hq1]. destruct (Hq tc3 ltac:(lia)) as [_ Hq2]. congruence.
  - destruct (default_ends (size scanned) (mkMachine R st rc [] t) R2 st2 rc t2 now) as [r Hend]; [|done..|].
    { eapply reaches_trans; [exact Hr1|]. rewrite before_default_split, grants_split, app_assoc. exact Hgo. }
    exists r. apply denied_outcome; [done..|]. intros G s' Hq Hev. unfold granted. rewrite <-(drop_0 G). symmetry.
    apply Hb. intros u Hu. apply Hq. lia.
Qed.
End framed.

(** *** Without it *)

Lemma ops_plain_grants : seqlock = false →
  ops = scanned ++ grant_part kind maps 0 slots MAllow ++ after_grants.
Proof. intros E. rewrite ops_scanned. unfold snapshot, grants. by rewrite E. Qed.

Definition scan_outcome (t : nat) (now r : Z) (o : list Effect) : Prop :=
  if default_allow then r = 1 ∧ o = [] else grant_outcome t now r o.

Lemma scan_ends R st rc t now : scanning v6 f now R st → load 4 st SLOT_MATCH = Some RULE_IDX_NONE →
  ∃ r, ends (size scanned) (mkMachine R st rc [] t) r (scan_outcome t now r).
Proof.
  intros Hs Hm. unfold scan_outcome. destruct posture as [E|E].
  - assert (seqlock = false) as El by (unfold seqlock; by rewrite E, andb_false_r).
    destruct (grant_scan w kind maps entries slots sa default_allow prog now H Hentries Hslots Hprog MAllow slots 0
      scanned after_grants R st rc [] t ltac:(lia) (ops_plain_grants El) Hs) as (R2 & st2 & t2 & b & Hs2 & Ht2 & Hst2 & Hgo & _).
    destruct b.
    + exists 1. destruct (allow_ends _ _ _ Hgo eq_refl) as (m' & Hh & Ho). exists m'. by rewrite E.
    + destruct (default_ends (size scanned) (mkMachine R st rc [] t) R2 st2 rc t2 now) as [r (m' & Hh & Ho)]; [|done|..].
      * rewrite before_default_split. unfold snapshot, grants. rewrite El. exact Hgo.
      * rewrite Hst2; [done|]. unfold SLOT_MATCH, SLOT_KEY. lia.
      * exists r, m'. split; [done|]. unfold default_outcome in Ho. by rewrite E in *.
  - destruct (decide (slots = 0%nat)) as [E0|]; cycle 1.
    { destruct (framed_scan_ends E ltac:(lia) R st rc t now Hs Hm) as [r (m' & Hh & Ho)]. exists r, m'. by rewrite E. }
    assert (seqlock = false) as El by (unfold seqlock; by rewrite E0).
    destruct (default_ends (size scanned) (mkMachine R st rc [] t) R st rc t now) as [r Hend]; [|done..|].
    + assert (before_default = scanned) as ->; [|apply reaches_refl].
      rewrite before_default_split. unfold snapshot, grants, grant_blocks. rewrite El, E0. by rewrite app_nil_r.
    + exists r. destruct (denied_outcome _ _ _ t now E Hend) as (m' & Hh & Ho); [|exists m'; by rewrite E].
      intros G s Hq _. destruct (hk_grants _ _ _ _ _ H t) as [Hlen _]. destruct (Hq t ltac:(lia)) as [HG _].
      rewrite HG, E0 in Hlen. by destruct G.
Qed.

(** ** The whole run *)

(** The verdict on a flow that names a destination. *)
Definition verdict_outcome (t : nat) (now r : Z) (o : list Effect) : Prop :=
  match first_match v6 f 0 entries with
  | Some (i, e) =>
      if re_action e =? ACTION_ALLOW then r = 1 ∧ o = [] else r = 0 ∧ denial (Z.of_nat i) o
  | None => scan_outcome t now r o
  end.

Lemma static_ends R st rc t now : scanning v6 f now R st → load 4 st SLOT_MATCH = Some RULE_IDX_NONE →
  ∃ r, ends (size head) (mkMachine R st rc [] t) r (verdict_outcome t now r).
Proof.
  intros Hs Hm.
  destruct (static_scan w kind maps entries slots sa default_allow prog now H Hentries Hslots Hprog entries 0
    head (snapshot ++ grants ++ after_grants) R st rc [] t ltac:(done)) as (R1 & st1 & t1 & Hs1 & Ht1 & Hres); [|done..|].
  { rewrite ops_scanned. unfold scanned. by rewrite <-app_assoc. }
  unfold verdict_outcome. destruct (first_match v6 f 0 entries) as [[i e]|].
  - destruct Hres as [Hm1 Hgo]. unfold entry_mark in Hgo. destruct (re_action e =? ACTION_ALLOW).
    + exists 1. destruct (allow_ends _ _ _ Hgo eq_refl) as (m' & Hh & Ho). by exists m'.
    + exists 0. destruct (deny_ends _ _ _ _ _ _ _ _ Hgo Hs1 Hm1) as (m' & Hh & Ho). by exists m'.
  - destruct Hres as [Hm1 Hgo]. destruct (scan_ends R1 st1 rc t1 now Hs1 Hm1) as [r (m' & Hh & Ho)].
    exists r, m'. split; [by eapply reaches_halts|]. unfold scan_outcome in *. destruct posture as [E|E]; rewrite E in *; [done|].
    destruct Ho as [Ho|(-> & Hd & Hq)]; [by left|right]. split_and!; [done..|].
    intros G s Hu. apply (Hq G s). intros u Hle. apply Hu. lia.
Qed.

Lemma ops_head : ops = prologue_ctx kind ++ prologue_clock maps ++ static_blocks kind maps entries ++ snapshot ++ grants ++ after_grants.
Proof. rewrite ops_scanned. unfold scanned, head. by rewrite <-!app_assoc. Qed.

Lemma clock_ends R st t : loaded kind sa R st →
  ∃ R' st' t' now, wall_clock w now ∧ scanning v6 f now R' st' ∧ load 4 st' SLOT_MATCH = Some RULE_IDX_NONE
    ∧ reaches (size (prologue_ctx kind)) (mkMachine R st no_bytes [] t) (size head) (mkMachine R' st' no_bytes [] t').
Proof.
  intros Hl.
  assert (ops = prologue_ctx kind ++ clock_read maps ++ (MarkHere MNoEpoch :: clock_zero ++ MarkHere MHaveEpoch :: clock_sum
            ++ static_blocks kind maps entries ++ snapshot ++ grants ++ after_grants)) as E1.
  { rewrite ops_head, prologue_clock_split. by rewrite <-!app_assoc. }
  assert (ops = (prologue_ctx kind ++ clock_read maps) ++ (MarkHere MNoEpoch :: clock_zero) ++ (MarkHere MHaveEpoch :: clock_sum
            ++ static_blocks kind maps entries ++ snapshot ++ grants ++ after_grants)) as E2.
  { rewrite E1. by rewrite <-!app_assoc. }
  assert (ops = (prologue_ctx kind ++ clock_read maps ++ MarkHere MNoEpoch :: clock_zero) ++ (MarkHere MHaveEpoch :: clock_sum)
            ++ (static_blocks kind maps entries ++ snapshot ++ grants ++ after_grants)) as E3.
  { rewrite E1. by rewrite <-!app_assoc. }
  destruct (clock_read_runs w kind maps entries slots sa H R st t Hl) as (R1 & st1 & t1 & tc & Htc & Hl1 & Hn1 & Hrun & Hx).
  assert (∃ R2 t2, loaded kind sa R2 st1 ∧ R2 1 = Num (default 0 (k_clock (w tc)))
    ∧ reaches (size (prologue_ctx kind)) (mkMachine R st no_bytes [] t)
        (size (prologue_ctx kind ++ clock_read maps ++ MarkHere MNoEpoch :: clock_zero)) (mkMachine R2 st1 no_bytes [] t2))
    as (R2 & t2 & Hl2 & H1 & Hr).
  { destruct (k_clock (w tc)) as [x|] eqn:Ex.
    - exists R1, t1. split_and!; [done|by apply Hx|]. eapply block_jumps; [exact E1|exact Hrun|exact E3].
    - exists (upd 1 (Num 0) R1), (S t1). split_and!; [|done|].
      + eapply loaded_keeps; [exact Hl1| |done]. intros r Hr. unfold upd. destruct (Z.eqb_spec r 1); [lia|done].
      + eapply reaches_trans; [eapply block_jumps; [exact E1|exact Hrun|exact E2]|].
        rewrite app_assoc. eapply block_falls; [exact E2|]. unfold clock_zero. rewrite op_mark, op_mov_imm by done. done. }
  destruct (clock_sum_runs w kind sa R2 st1 t2 _ _ Hl2 Hn1 H1) as (R3 & st3 & Hsum & Hs3 & Hm3).
  exists R3, st3, (4 + t2)%nat, ((k_boot_ns (w t) + default 0 (k_clock (w tc))) mod 2 ^ 64).
  split_and!; [by exists t, tc|exact Hs3|done|]. eapply reaches_trans; [exact Hr|].
  replace (size head) with (size ((prologue_ctx kind ++ clock_read maps ++ MarkHere MNoEpoch :: clock_zero) ++ MarkHere MHaveEpoch :: clock_sum)).
  - eapply block_falls; [exact E3|]. by rewrite op_mark.
  - unfold head. rewrite prologue_clock_split. by rewrite <-!app_assoc.
Qed.

Definition hook_outcome (r : Z) (o : list Effect) : Prop :=
  if nameless kind sa then r = 1 ∧ o = []
  else ∃ t now, wall_clock w now ∧ verdict_outcome t now r o.

Lemma run_ends : ∃ r, ends 0 initial r (hook_outcome r).
Proof.
  destruct (prologue_runs w kind maps entries slots sa H) as (R & st & t & Hrun & Hl).
  unfold hook_outcome. destruct (nameless kind sa).
  - exists 1. destruct (allow_ends 0 initial (mkMachine R st no_bytes [] t)) as (m' & Hh & Ho); [|done|by exists m'].
    intros a b Hab. eapply (block_jumps []); [exact ops_head|exact Hrun|exact Hab].
  - destruct (clock_ends R st t (Hl eq_refl)) as (R' & st' & t' & now & Hnow & Hs & Hm & Hr).
    destruct (static_ends R' st' no_bytes t' now Hs Hm) as [r (m' & Hh & Ho)].
    exists r, m'. split; [|by exists t', now].
    eapply reaches_halts; [|eapply reaches_halts; [exact Hr|exact Hh]].
    eapply (block_falls []); [exact ops_head|exact Hrun].
Qed.
End verdict.

(** The program and its run, whatever user space does to the maps meanwhile. *)
Definition runs_to (w : World) (prog : list Z) (r : Z) (o : list Effect) : Prop :=
  ∃ n m, (∀ fuel, run_prog (n + fuel) w prog 0 initial = Returned r m) ∧ out m = o.

Lemma resolve_length ops prog : resolve_jumps (foldl apply_op builder_new ops) = Some prog → length prog = size ops.
Proof.
  unfold resolve_jumps. rewrite builder_runs. cbn. generalize (op_fixups 0 ops), (op_marks 0 ops).
  intros fx mk. rewrite <-(size_words ops). generalize (ops ≫= op_word).
  induction fx as [|[at_ l] fx IH]; cbn; intros v; [by intros [= ->]|].
  destruct (mark_target mk l), (v !! at_); try done. intros E%IH. by rewrite E, length_insert.
Qed.

Section hook.
Context (w : World) (kind : ProgKind) (maps : ProgMaps) (entries : list RuleEntry) (slots : nat) (sa : SockAddr).
Context (default_allow : bool).
Local Notation prog_of := (build_prog kind maps entries slots default_allow).

Lemma build_prog_total : ∃ prog, prog_of = Some prog ∧ length prog = size (build_ops kind maps entries slots default_allow).
Proof.
  destruct (resolve_total _ (build_ops_labels kind maps entries slots default_allow)) as [prog E].
  exists prog. split; [exact E|]. by apply resolve_length.
Qed.

Lemma hook_runs : hooked w maps entries slots sa → (length entries ≤ MAX_RULES_PER_MAP)%nat → (slots ≤ GRANT_SLOTS)%nat →
  ∃ prog r o, prog_of = Some prog ∧ runs_to w prog r o ∧ hook_outcome w kind entries sa default_allow r o.
Proof.
  intros H He Hs. destruct build_prog_total as (prog & E & _).
  destruct (run_ends w kind maps entries slots sa default_allow prog H He Hs E) as (r & m & [n Hn] & Ho).
  exists prog, r, (out m). split_and!; [done| |done]. exists n, m. split; [exact Hn|done].
Qed.
End hook.

(** ** Verdicts *)

(** The kernel's limit on the length of a program before 5.2. *)
Definition BPF_MAXINSNS : nat := 4096.

(** No grant is written and the counter rests. *)
Definition at_rest (w : World) (G : list RuleEntry) : Prop :=
  ∃ s, Z.even s = true ∧ ∀ t, k_grants (w t) = G ∧ k_seq (w t) = Some s.

(** The verdict a scan of the tables gives at [now]. *)
Definition scan_verdict (v6 default_allow : bool) (f : Flow) (now : Z) (entries G : list RuleEntry) : bool :=
  match first_match v6 f 0 entries with
  | Some (_, e) => re_action e =? ACTION_ALLOW
  | None => default_allow || granted v6 f now G
  end.
Definition deciding_index (v6 : bool) (f : Flow) (entries : list RuleEntry) : Z :=
  match first_match v6 f 0 entries with Some (i, _) => Z.of_nat i | None => RULE_IDX_NONE end.

Lemma outcome_verdict w kind entries sa default_allow r o :
  nameless kind sa = false → hook_outcome w kind entries sa default_allow r o →
  ∃ now, wall_clock w now
  ∧ (r = 1 ∧ o = [] ∨ r = 0 ∧ denial w kind sa (deciding_index (is_v6 kind) (flow_of kind sa) entries) o)
  ∧ ∀ G, at_rest w G → r = Z.b2z (scan_verdict (is_v6 kind) default_allow (flow_of kind sa) now entries G).
Proof.
  intros En. unfold hook_outcome. rewrite En. intros (t & now & Hnow & Hv). exists now. split; [done|].
  unfold verdict_outcome in Hv. unfold deciding_index, scan_verdict. destruct (first_match _ _ _ _) as [[i e]|].
  - destruct (_ =? _); destruct Hv as [-> Ho]; auto.
  - unfold scan_outcome in Hv. destruct default_allow; [destruct Hv as [-> ->]; auto|].
    destruct Hv as [(-> & -> & t0 & t1 & s & _ & _ & _ & _ & HG)|(-> & Hd & HG)]; (split; [auto|]); intros G (s' & Hs' & Hrest); cbn.
    + rewrite (HG G); [done|]. intros u _. apply Hrest.
    + rewrite (HG G s'); [done| |done]. intros u _. apply Hrest.
Qed.

(** [C9] What a cgroup hook decides: for tables within the caps, [build]
    resolves every jump and its program fits the limit of 4096 instructions;
    run by the kernel, whatever user space writes into the grant, clock and
    sequence maps meanwhile, it halts without an invalid access.  A sendmsg
    that names no destination is let through without effect.  Any other flow
    is either allowed without effect or refused with exactly one denial,
    labelled with the first static entry that matches the flow (address under
    the entry's mask, then protocol and port) or with no entry; and when the
    maps are at rest, the verdict is exactly that entry's action, else the
    default, else a live grant's. *)
Theorem hook_verdict w kind maps entries slots sa default_allow :
  hooked w maps entries slots sa → (length entries ≤ MAX_RULES_PER_MAP)%nat → (slots ≤ GRANT_SLOTS)%nat →
  ∃ prog r o,
    build_prog kind maps entries slots default_allow = Some prog ∧ (length prog ≤ BPF_MAXINSNS)%nat
    ∧ runs_to w prog r o
    ∧ if nameless kind sa then r = 1 ∧ o = []
      else ∃ now, wall_clock w now
        ∧ (r = 1 ∧ o = [] ∨ r = 0 ∧ denial w kind sa (deciding_index (is_v6 kind) (flow_of kind sa) entries) o)
        ∧ ∀ G, at_rest w G → r = Z.b2z (scan_verdict (is_v6 kind) default_allow (flow_of kind sa) now entries G).
Proof.
  intros H He Hs.
  destruct (hook_runs w kind maps entries slots sa default_allow H He Hs) as (prog & r & o & E & Hr & Ho).
  exists prog, r, o. split_and!; [done| |done|].
  - rewrite (resolve_length _ _ E). pose proof (build_ops_size kind maps entries slots default_allow).
    unfold BPF_MAXINSNS, MAX_RULES_PER_MAP, GRANT_SLOTS in *. lia.
  - destruct (nameless kind sa) eqn:En; [unfold hook_outcome in Ho; by rewrite En in Ho|]. by apply outcome_verdict.
Qed.

(** ** A machine at rest *)

Definition still (k : Kernel) : World := λ _, k.

Lemma still_hooked k sa : wf_maps (k_maps k) → k_ctx k = ctx_bytes sa → wf_sock_addr sa →
  Forall wf_entry (k_rules k) → Forall wf_entry (k_grants k) →
  from_option u64 True (k_clock k) → from_option u64 True (k_seq k) → u64 (k_boot_ns k) → u64 (k_pid_tgid k) →
  hooked (still k) (k_maps k) (k_rules k) (length (k_grants k)) sa.
Proof.
  intros. assert (∀ v : option Z, from_option u64 True v → cell (λ _, v)) as Hc.
  { intros [x|] ?; [left|right]; naive_solver. }
  by split; unfold still; auto.
Qed.

Lemma still_at_rest k s : k_seq k = Some s → Z.even s = true → at_rest (still k) (k_grants k).
Proof. intros Hs He. by exists s. Qed.

Definition demo_maps : ProgMaps := mkMaps 3 4 5 6 7 8.

(** A kernel whose hook sees [sa]. *)
Definition demo_kernel (sa : SockAddr) (rules grants : list RuleEntry) : Kernel :=
  mkKernel demo_maps (ctx_bytes sa) rules grants (Some 5) (Some 2) true true 7 (2 ^ 32 + 1).

Lemma demo_hooked sa rules grants : wf_sock_addr sa → Forall wf_entry rules → Forall wf_entry grants →
  hooked (still (demo_kernel sa rules grants)) demo_maps rules (length grants) sa.
Proof.
  intros. apply (still_hooked (demo_kernel sa rules grants)); cbn; try done.
  split; [|repeat constructor; done]. apply (bool_decide_unpack _). by vm_compute.
Qed.

Lemma demo_at_rest sa rules grants : at_rest (still (demo_kernel sa rules grants)) grants.
Proof. by apply (still_at_rest (demo_kernel sa rules grants) 2). Qed.

(** TCP to 192.0.2.7:443 through an IPv4 socket. *)
Definition demo_sock : SockAddr := mkSockAddr 2 0x070200c0 (W4 0 0 0 0) 0xbb01 2 1 6.
Definition demo_entry (addr mask port_raw action expires : Z) : RuleEntry :=
  mkEntry (W4 addr 0 0 0) (W4 mask 0 0 0) 6 port_raw action 0 expires.

Lemma hook_verdict_witness :
  let rules := [demo_entry 0x0a 0xff 0 ACTION_DENY 0] in
  let grants := [demo_entry 0x070200c0 0xffffffff 0xbb01 ACTION_ALLOW 100] in
  ∃ prog o, build_prog V4Connect demo_maps rules 1 false = Some prog ∧ (length prog ≤ BPF_MAXINSNS)%nat
    ∧ runs_to (still (demo_kernel demo_sock rules grants)) prog 1 o.
Proof.
  intros rules grants.
  destruct (hook_verdict (still (demo_kernel demo_sock rules grants)) V4Connect demo_maps rules 1 demo_sock false)
    as (prog & r & o & E & Hl & Hr & now & (tb & tc & _ & ->) & _ & Hrest).
  - apply (demo_hooked demo_sock rules grants); [|repeat constructor; done..]. by repeat split; cbn; lia.
  - cbn. unfold MAX_RULES_PER_MAP. lia.
  - unfold GRANT_SLOTS. lia.
  - exists prog, o. split_and!; [done..|]. by rewrite (Hrest _ (demo_at_rest _ _ _)) in Hr.
Defined.
