(* ===== verification/EbpfRules.v ===== *)
(** * EbpfRules: the compiled tables

    [src/src/warden/ebpf/rules.rs]: policy rules as entries of the four
    tables, and the address words of an entry as a range of addresses. *)

From S2P Require Import Prelude Text IpAddr PolicyHost PolicyCidr Outbound Ebpf EbpfMachine.
From S2P Require Import ProtectedSpace EbpfAsm EbpfExec EbpfEvents.

Open Scope Z_scope.

Inductive Family := FamV4 | FamV6.

#[export] Instance Family_eq_dec : EqDecision Family.
Proof. solve_decision. Defined.

Record RuleMeta := mkMeta { rm_decision : string; rm_rule : string }.

Record RuleTable := mkTable {
  rt_v4 : list RuleEntry;
  rt_v6 : list RuleEntry;
  rt_default_allow : bool;
  rt_meta_v4 : list RuleMeta;
  rt_meta_v6 : list RuleMeta;
}.

Definition proto_num (p : EgressProto) : Z :=
  match p with Tcp => IPPROTO_TCP | Udp => IPPROTO_UDP | AnyProto => 0 end.

(** ** Addresses as words *)

Definition ip_octets (ip : IpAddr) : list Z :=
  match ip with
  | V4 a => v4_octets a
  | V6 a => v6_octet a <$> [0; 1; 2; 3; 4; 5; 6; 7; 8; 9; 10; 11; 12; 13; 14; 15]
  end.

(** Byte [i] of the mask of a prefix. *)
Definition mask_byte (prefix : Z) (i : nat) : Z :=
  let bits := Z.min (Z.max 0 (prefix - Z.of_nat i * 8)) 8 in
  Z.shiftl 0xff (8 - bits) mod 256.
Definition mask_bytes (prefix : Z) (n : nat) : list Z := mask_byte prefix <$> seq 0 n.

(** The words of an address, four of its bytes each. *)
Definition to_words (bytes : list Z) : Words :=
  W4 (le_value (take 4 bytes)) (le_value (take 4 (drop 4 bytes)))
     (le_value (take 4 (drop 8 bytes))) (le_value (take 4 (drop 12 bytes))).

Definition family_of_ip (ip : IpAddr) : Family := if is_ipv4 ip then FamV4 else FamV6.

Definition bad_cidr (cidr why : string) : string := "invalid CIDR '" +:+ cidr +:+ "' (" +:+ why +:+ ")".

Definition parse_cidr_words (cidr : string) : result (Family * Words * Words) string :=
  match split_once "/" cidr with
  | None => Err (bad_cidr cidr "missing prefix")
  | Some (addr_s, prefix_s) =>
      match parse_ip addr_s with
      | None => Err (bad_cidr cidr "bad address")
      | Some addr =>
          match parse_u32 prefix_s with
          | None => Err (bad_cidr cidr "bad prefix")
          | Some prefix =>
              if max_prefix addr <? prefix then Err (bad_cidr cidr "prefix exceeds address length")
              else
                let mask := mask_bytes prefix (length (ip_octets addr)) in
                let net := zip_with Z.land (ip_octets addr) mask in
                Ok (family_of_ip addr, to_words net, to_words mask)
          end
      end
  end.

Definition full_mask (fam : Family) : Words :=
  match fam with
  | FamV4 => W4 (2 ^ 32 - 1) 0 0 0
  | FamV6 => W4 (2 ^ 32 - 1) (2 ^ 32 - 1) (2 ^ 32 - 1) (2 ^ 32 - 1)
  end.

(** [u32::from_ne_bytes([0, 0, 0xff, 0xff])] *)
Definition MAPPED : Z := le_value [0; 0; 0xff; 0xff].

Definition v4_mapped (addr mask : Words) : Words * Words :=
  (W4 0 0 MAPPED (w0 addr), W4 (2 ^ 32 - 1) (2 ^ 32 - 1) (2 ^ 32 - 1) (w0 mask)).

Definition static_entry (addr mask : Words) (proto port_raw action : Z) : RuleEntry :=
  mkEntry addr mask proto port_raw action 0 0.

(** The entry under the address and the mask of its mapped form. *)
Definition mapped_entry (e : RuleEntry) : RuleEntry :=
  let '(maddr, mmask) := v4_mapped (re_addr e) (re_mask e) in
  mkEntry maddr mmask (re_proto e) (re_port_raw e) (re_action e) (re_pad e) (re_expires_at_ns e).

(** ** Tables under construction *)

Definition Side : Type := list RuleEntry * list RuleMeta.
Definition Tables : Type := Side * Side.

Definition too_many : string :=
  "too many IP-layer rules for the cgroup-eBPF route (>96 per family) — reduce the rule set".

Definition push (s : Side) (e : RuleEntry) (m : RuleMeta) : result Side string :=
  if (MAX_RULES_PER_MAP <=? length s.1)%nat then Err too_many else Ok (s.1 ++ [e], s.2 ++ [m]).

Local Open Scope result_scope.

Definition push_v4 (t : Tables) (e : RuleEntry) (m : RuleMeta) : result Tables string :=
  s ←? push t.1 e m ; Ok (s, t.2).
Definition push_v6 (t : Tables) (e : RuleEntry) (m : RuleMeta) : result Tables string :=
  s ←? push t.2 e m ; Ok (t.1, s).

(** An IPv4 entry also goes, mapped, into the IPv6 table. *)
Definition push_family (fam : Family) (t : Tables) (e : RuleEntry) (m : RuleMeta) : result Tables string :=
  match fam with
  | FamV4 => t' ←? push_v4 t e m ; push_v6 t' (mapped_entry e) m
  | FamV6 => push_v6 t e m
  end.
Definition push_any (t : Tables) (e : RuleEntry) (m : RuleMeta) : result Tables string :=
  t' ←? push_v4 t e m ; push_v6 t' e m.

Fixpoint fold_result {A S E} (f : S → A → result S E) (s : S) (xs : list A) : result S E :=
  match xs with
  | [] => Ok s
  | x :: xs => s' ←? f s x ; fold_result f s' xs
  end.

(** ** Denies *)

Record DenyRow := mkRow {
  dr_family : Family;
  dr_addr : Words;
  dr_mask : Words;
  dr_meta : RuleMeta;
}.
Definition row_key (r : DenyRow) : Family * Words * Words := (dr_family r, dr_addr r, dr_mask r).

(** One staged row, unless its compiled form is already there. *)
Definition stage (rows : list DenyRow) (cidr : string) (m : RuleMeta) : result (list DenyRow) string :=
  w ←? parse_cidr_words cidr ;
  let '(fam, a, mask) := w in
  Ok (if bool_decide ((fam, a, mask) ∈ row_key <$> rows) then rows else rows ++ [mkRow fam a mask m]).

Definition stage_host (rows : list DenyRow) (h : string) : result (list DenyRow) string :=
  if bool_decide (h = "*") then Ok rows
  else match parse_ip h with
       | Some addr => stage rows (ip_literal_cidr addr) (mkMeta "deny-host" (show_ip addr))
       | None => Ok rows
       end.
Definition stage_cidr (rows : list DenyRow) (c : string) : result (list DenyRow) string :=
  stage rows c (mkMeta "deny-cidr" c).

Definition deny_rows (o : OutboundPolicy) : result (list DenyRow) string :=
  rows ←? fold_result stage_host [] (denied_hosts o) ;
  fold_result stage_cidr rows (denied_cidrs o).

Definition push_deny (t : Tables) (r : DenyRow) : result Tables string :=
  push_family (dr_family r) t (static_entry (dr_addr r) (dr_mask r) 0 0 ACTION_DENY) (dr_meta r).

(** ** Allows *)

Definition zero_words : Words := W4 0 0 0 0.
Definition any_deny : RuleEntry := static_entry zero_words zero_words 0 0 ACTION_DENY.

Definition rule_port_raw (port : option Z) : Z := from_option raw_port 0 port.
Definition is_cidr (d : EgressDest) : bool := match d with Cidr _ => true | _ => false end.

Definition push_allow (t : Tables) (rule : EgressRule) : result Tables string :=
  if negb (eg_allow rule) then Ok t
  else
    let entry a mask := static_entry a mask (proto_num (eg_proto rule)) (rule_port_raw (eg_port rule)) ACTION_ALLOW in
    let m := mkMeta (if is_cidr (eg_dest rule) then "allow-cidr" else "allow-host") (describe rule) in
    match eg_dest rule with
    | Unix _ => Ok t
    | Cidr c => w ←? parse_cidr_words c ; let '(fam, a, mask) := w in push_family fam t (entry a mask) m
    | Host h =>
        if bool_decide (h = "*") then push_any t (entry zero_words zero_words) m
        else match parse_ip h with
        | Some ip =>
            w ←? parse_cidr_words (ip_literal_cidr ip) ;
            let '(_, a, _) := w in
            push_family (family_of_ip ip) t (entry a (full_mask (family_of_ip ip))) m
        | None => Ok t
        end
    end.

Definition compile (o : OutboundPolicy) : result RuleTable string :=
  let t := (([], []), ([], [])) in
  t ←? (if existsb (λ h, bool_decide (h = "*")) (denied_hosts o)
        then push_any t any_deny (mkMeta "deny-host" "*") else Ok t) ;
  rows ←? deny_rows o ;
  t ←? fold_result push_deny t rows ;
  t ←? fold_result push_allow t (egress_rules o) ;
  Ok (mkTable t.1.1 t.2.1 (negb (deny_all_others o)) t.1.2 t.2.2).

(** ** Grants *)

Definition NANOS : Z := 1000000000.

(** [expires_at.saturating_mul(1_000_000_000)] *)
Definition expires_ns (expires_at : Z) : Z := Z.min (expires_at * NANOS) (2 ^ 64 - 1).

(** [None] where the source has [unreachable!]. *)
Definition grant_entries (addr : IpAddr) (quals : list GrantQual) (expires_at : Z) : option (list (Family * RuleEntry)) :=
  match parse_cidr_words (ip_literal_cidr addr) with
  | Err _ => None
  | Ok (_, a, _) =>
      let fam := family_of_ip addr in
      Some (quals ≫= λ q,
        let entry := mkEntry a (full_mask fam) (proto_num (gq_proto q)) (rule_port_raw (gq_port q)) ACTION_ALLOW 0
                       (expires_ns expires_at) in
        (fam, entry) :: (if bool_decide (fam = FamV4) then [(FamV6, mapped_entry entry)] else []))
  end.

Definition grant_sentinel : RuleEntry := mkEntry zero_words zero_words 0 0 ACTION_ALLOW 0 1.

Definition byte (b : Z) : Prop := 0 <= b < 256.

(** ** Big-endian values *)

Lemma be_value_cons x xs : be_value (x :: xs) = x * 256 ^ Z.of_nat (length xs) + be_value xs.
Proof.
  unfold be_value. cbn [foldl].
  assert (∀ ys acc, foldl (λ acc b, acc * 256 + b) acc ys
    = acc * 256 ^ Z.of_nat (length ys) + foldl (λ acc b, acc * 256 + b) 0 ys) as Hacc.
  { induction ys as [|y ys IH]; intros acc; [cbn; lia|]. cbn [foldl length].
    rewrite IH, (IH (0 * 256 + y)), Nat2Z.inj_succ, Z.pow_succ_r by lia. lia. }
  rewrite Hacc. lia.
Qed.

Lemma be_value_range xs : Forall byte xs → 0 <= be_value xs < 256 ^ Z.of_nat (length xs).
Proof.
  induction 1 as [|x xs Hx _ IH]; [done|]. rewrite be_value_cons. cbn [length]. unfold byte in Hx.
  rewrite Nat2Z.inj_succ, Z.pow_succ_r by lia. nia.
Qed.

Lemma be_value_app xs ys : be_value (xs ++ ys) = be_value xs * 256 ^ Z.of_nat (length ys) + be_value ys.
Proof.
  induction xs as [|x xs IH]; [done|]. cbn [app]. rewrite !be_value_cons, IH, length_app, Nat2Z.inj_add, Z.pow_add_r by lia. lia.
Qed.

Lemma be_value_inj xs : ∀ ys, Forall byte xs → Forall byte ys → length xs = length ys → be_value xs = be_value ys → xs = ys.
Proof.
  induction xs as [|x xs IH]; intros [|y ys] Hx Hy Hl; try done. inversion_clear Hx. inversion_clear Hy.
  rewrite !be_value_cons. injection Hl as Hl. rewrite Hl. intros E.
  pose proof (be_value_range xs ltac:(done)) as Hxs. pose proof (be_value_range ys ltac:(done)). rewrite Hl in Hxs.
  assert (x = y) as -> by nia. f_equal. apply IH; [done..|]. lia.
Qed.

(** ** Octets *)

(** The [n] low bytes of a value, most significant first. *)
Fixpoint be_octets (n : nat) (a : Z) : list Z :=
  match n with
  | O => []
  | S n => (a / 256 ^ Z.of_nat n) mod 256 :: be_octets n a
  end.

Lemma length_be_octets n a : length (be_octets n a) = n.
Proof. induction n; cbn; lia. Qed.
Lemma be_octets_bytes n a : Forall byte (be_octets n a).
Proof. induction n; constructor; [apply Z.mod_pos_bound; lia|done]. Qed.
Lemma be_octets_value n a : 0 <= a → be_value (be_octets n a) = a mod 256 ^ Z.of_nat n.
Proof.
  intros Ha. induction n as [|n IH]; [cbn; by rewrite Z.mod_1_r|]. cbn [be_octets]. rewrite be_value_cons, length_be_octets, IH.
  rewrite Nat2Z.inj_succ, Z.pow_succ_r, (Z.mul_comm 256), Z.rem_mul_r by (try apply Z.pow_nonzero; lia). lia.
Qed.

Definition width_bytes (ip : IpAddr) : nat := if is_ipv4 ip then 4 else 16.

Lemma octets_be ip : ip_octets ip = be_octets (width_bytes ip) (value ip).
Proof.
  assert (∀ a k, 0 <= k → Z.land (Z.shiftr a (8 * k)) 255 = (a / 256 ^ k) mod 256) as Hb.
  { intros a k Hk. change 255 with (Z.ones 8). rewrite Z.land_ones, Z.shiftr_div_pow2 by lia.
    change 256 with (2 ^ 8). rewrite <-Z.pow_mul_r by lia. done. }
  destruct ip as [a|a]; cbn [ip_octets v4_octets fmap list_fmap width_bytes is_ipv4 value be_octets];
    unfold v4_octet, v6_octet; rewrite !Hb by lia; reflexivity.
Qed.

Lemma width_bits ip : width ip = 8 * Z.of_nat (width_bytes ip).
Proof. by destruct ip. Qed.
Lemma octets_length ip : length (ip_octets ip) = width_bytes ip.
Proof. rewrite octets_be. apply length_be_octets. Qed.
Lemma octets_bytes ip : Forall byte (ip_octets ip).
Proof. rewrite octets_be. apply be_octets_bytes. Qed.
Lemma octets_value ip : wf_ip ip → be_value (ip_octets ip) = value ip.
Proof.
  intros [H0 H1]%wf_value. rewrite octets_be, be_octets_value by done. apply Z.mod_small. split; [done|].
  rewrite width_bits in H1. change 256 with (2 ^ 8). by rewrite <-Z.pow_mul_r by lia.
Qed.

(** ** Masks *)

Lemma mask_bytes_cons p n : mask_bytes p (S n) = mask_byte p 0 :: mask_bytes (p - 8) n.
Proof.
  unfold mask_bytes. cbn [seq fmap list_fmap]. f_equal. rewrite <-fmap_S_seq, <-list_fmap_compose. apply list_fmap_ext.
  intros _ i _. cbn. unfold mask_byte. do 4 f_equal. lia.
Qed.
Lemma length_mask_bytes p n : length (mask_bytes p n) = n.
Proof. unfold mask_bytes. by rewrite length_fmap, length_seq. Qed.

(** A byte under its mask keeps its high bits. *)
Lemma land_mask x p : byte x → Z.land x (mask_byte p 0)
  = x / 2 ^ (8 - Z.min (Z.max 0 p) 8) * 2 ^ (8 - Z.min (Z.max 0 p) 8).
Proof.
  intros Hx. unfold mask_byte. rewrite Z.sub_0_r. remember (Z.min (Z.max 0 p) 8) as b eqn:Eb.
  assert (0 <= b <= 8) as Hb by lia. clear Eb.
  assert (forallb (λ b, forallb (λ x, Z.land (Z.of_nat x) (Z.shiftl 255 (8 - Z.of_nat b) mod 256)
     =? Z.of_nat x / 2 ^ (8 - Z.of_nat b) * 2 ^ (8 - Z.of_nat b)) (seq 0 256)) (seq 0 9) = true) as Hall by by vm_compute.
  rewrite forallb_forall in Hall. specialize (Hall (Z.to_nat b)). rewrite forallb_forall in Hall.
  specialize (Hall ltac:(apply in_seq; lia) (Z.to_nat x)).
  rewrite !Z2Nat.id in Hall by (unfold byte in *; lia). apply Z.eqb_eq, Hall, in_seq. unfold byte in Hx. lia.
Qed.

Lemma zip_zero_mask xs : ∀ p n, p <= 0 → length xs = n → zip_with Z.land xs (mask_bytes p n) = replicate n 0.
Proof.
  induction xs as [|x xs IH]; intros p n Hp <-; [done|]. cbn [length]. rewrite mask_bytes_cons. cbn [zip_with replicate].
  rewrite IH by lia || done. f_equal. unfold mask_byte. rewrite Z.sub_0_r.
  replace (Z.min (Z.max 0 p) 8) with 0 by lia. change (Z.shiftl 255 (8 - 0) mod 256) with 0. apply Z.land_0_r.
Qed.

(** Addresses of one network have equal bytes under its mask. *)
Lemma masked_bytes_iff xs : ∀ ys p, Forall byte xs → Forall byte ys → length xs = length ys →
  p <= 8 * Z.of_nat (length xs) →
  zip_with Z.land xs (mask_bytes p (length xs)) = zip_with Z.land ys (mask_bytes p (length ys))
  ↔ be_value xs / 2 ^ (8 * Z.of_nat (length xs) - Z.max 0 p) = be_value ys / 2 ^ (8 * Z.of_nat (length xs) - Z.max 0 p).
Proof.
  induction xs as [|x xs IH]; intros [|y ys] p Hx Hy Hl Hp; try done.
  apply Forall_cons in Hx as [Hbx Hx], Hy as [Hby Hy]. injection Hl as Hl. cbn [length]. rewrite <-Hl, !mask_bytes_cons.
  cbn [zip_with]. rewrite !land_mask by done. rewrite !be_value_cons, <-Hl.
  pose proof (be_value_range xs Hx) as Rx. pose proof (be_value_range ys Hy) as Ry. rewrite <-Hl in Ry.
  set (n := length xs) in *. change 256 with (2 ^ 8) in *. rewrite <-Z.pow_mul_r in * by lia.
  unfold byte in *. cbn [length] in Hp. rewrite Nat2Z.inj_succ in *.
  destruct (Z.le_gt_cases p 8) as [H8|H8].
  - replace (Z.min (Z.max 0 p) 8) with (Z.max 0 p) by lia. assert (0 <= Z.max 0 p <= 8) as Hq by lia.
    generalize dependent (Z.max 0 p). intros q Hq.
    replace (8 * Z.succ (Z.of_nat n) - q) with (8 * Z.of_nat n + (8 - q)) by lia.
    rewrite !Z.pow_add_r, <-!Z.div_div, !Z.div_add_l, !(Z.div_small (be_value _)), !Z.add_0_r
      by (try apply Z.pow_nonzero; try apply Z.pow_pos_nonneg; lia).
    rewrite (zip_zero_mask xs (p - 8) n), (zip_zero_mask ys (p - 8) n) by (done || lia).
    split; [intros [= E]|intros E; by rewrite E]. pose proof (Z.pow_pos_nonneg 2 (8 - q) ltac:(lia) ltac:(lia)). nia.
  - replace (Z.min (Z.max 0 p) 8) with 8 by lia. replace (8 - 8) with 0 by lia. rewrite Z.pow_0_r, !Z.div_1_r, !Z.mul_1_r.
    specialize (IH ys (p - 8) Hx Hy Hl ltac:(lia)). rewrite <-Hl in IH. fold n in IH.
    replace (8 * Z.succ (Z.of_nat n) - Z.max 0 p) with (8 * Z.of_nat n - Z.max 0 (p - 8)) by lia.
    set (k := 8 * Z.of_nat n - Z.max 0 (p - 8)) in *.
    assert (8 * Z.of_nat n = (p - 8) + k) as Ek by lia. rewrite Ek in Rx, Ry |- *. rewrite Z.pow_add_r in * by lia.
    pose proof (Z.pow_pos_nonneg 2 k ltac:(lia) ltac:(lia)). rewrite !Z.mul_assoc, !Z.div_add_l by lia.
    assert (0 <= be_value xs / 2 ^ k < 2 ^ (p - 8)) by (split; [apply Z.div_pos; lia|apply Z.div_lt_upper_bound; lia]).
    assert (0 <= be_value ys / 2 ^ k < 2 ^ (p - 8)) by (split; [apply Z.div_pos; lia|apply Z.div_lt_upper_bound; lia]).
    split; [intros [= -> E]; f_equal; by apply IH|]. intros E.
    assert (x = y) as -> by nia. f_equal. apply IH. lia.
Qed.

(** ** Words *)

Lemma land_split a b c d : byte a → byte b → Z.land (a + 256 * c) (b + 256 * d) = Z.land a b + 256 * Z.land c d.
Proof.
  unfold byte. intros Ha Hb.
  assert (∀ x y, byte x → (x + 256 * y) mod 2 ^ 8 = x ∧ Z.shiftr (x + 256 * y) 8 = y) as Hs.
  { unfold byte. intros x y Hx. rewrite Z.shiftr_div_pow2, (Z.mul_comm 256) by lia.
    change (2 ^ 8) with 256. rewrite Z.mod_add, Z.div_add, Z.mod_small, Z.div_small by lia. done. }
  destruct (Hs a c Ha) as [Ea Ec], (Hs b d Hb) as [Eb Ed].
  rewrite (Z.div_mod (Z.land (a + _) _) (2 ^ 8)) by lia. rewrite <-Z.shiftr_div_pow2, Z.shiftr_land, Ec, Ed by lia.
  rewrite <-(Z.land_ones _ 8), (Z.land_comm _ (Z.ones 8)) by lia.
  assert (Z.land (Z.ones 8) (Z.land (a + 256 * c) (b + 256 * d)) = Z.land a b) as ->; [|lia].
  rewrite <-(Z.land_diag (Z.ones 8)), <-Z.land_assoc, (Z.land_assoc (Z.ones 8) (a + _)), (Z.land_comm (Z.ones 8) (a + _)).
  rewrite (Z.land_ones (a + _)), Ea by lia. rewrite (Z.land_comm a), Z.land_assoc, (Z.land_comm (Z.ones 8) (b + _)).
  by rewrite Z.land_ones, Eb, Z.land_comm by lia.
Qed.

Lemma le_value_land xs : ∀ ys, Forall byte xs → Forall byte ys → length xs = length ys →
  Z.land (le_value xs) (le_value ys) = le_value (zip_with Z.land xs ys).
Proof.
  induction xs as [|x xs IH]; intros [|y ys] Hx Hy Hl; try done. apply Forall_cons in Hx as [? ?], Hy as [? ?].
  injection Hl as Hl. cbn [le_value zip_with]. by rewrite land_split, IH.
Qed.

Lemma le_value_inj xs : ∀ ys, Forall byte xs → Forall byte ys → length xs = length ys → le_value xs = le_value ys → xs = ys.
Proof.
  induction xs as [|x xs IH]; intros [|y ys] Hx Hy Hl; try done. apply Forall_cons in Hx as [? ?], Hy as [? ?].
  injection Hl as Hl. cbn [le_value]. unfold byte in *. intros E. assert (x = y) as -> by lia. f_equal. apply IH; auto. lia.
Qed.

Lemma zip_land_bytes xs ys : Forall byte xs → Forall byte ys → Forall byte (zip_with Z.land xs ys).
Proof.
  intros Hx. revert ys. induction Hx as [|x xs Hx _ IH]; intros ys Hy; [constructor|].
  destruct Hy as [|y ys Hy Hys]; [constructor|]. cbn. constructor; [|by apply IH]. unfold byte in *. split.
  - apply Z.land_nonneg. lia.
  - destruct (Z.eq_dec (Z.land x y) 0) as [->|]; [lia|].
    apply (Z.log2_lt_cancel). pose proof (Z.log2_land x y ltac:(lia) ltac:(lia)).
    assert (Z.log2 x < 8) by (destruct (Z.eq_dec x 0) as [->|]; [done|]; apply Z.log2_lt_pow2; lia).
    change (Z.log2 256) with 8. lia.
Qed.

Lemma mask_bytes_bytes p n : Forall byte (mask_bytes p n).
Proof. unfold mask_bytes. apply Forall_fmap, Forall_forall. intros i _. cbn. apply Z.mod_pos_bound. lia. Qed.

(** One word of a compare, as bytes. *)
Lemma word_matches_bytes xs ms ns : Forall byte xs → Forall byte ms → Forall byte ns →
  length xs = length ms → length ns = length ms →
  word_matches (le_value xs) (le_value ms) (le_value ns) = true ↔ zip_with Z.land xs ms = ns.
Proof.
  intros Hx Hm Hn Hl Hl'. unfold word_matches. rewrite Z.eqb_eq, le_value_land by done. split; [|by intros <-].
  apply le_value_inj; [by apply zip_land_bytes|done|]. rewrite length_zip_with. lia.
Qed.

Definition ip_words (ip : IpAddr) : Words := to_words (ip_octets ip).

(** The bytes of a compare cut at [n]. *)
Lemma cut n (xs ms ns : list Z) :
  zip_with Z.land (take n xs) (take n ms) = take n ns ∧ zip_with Z.land (drop n xs) (drop n ms) = drop n ns
  ↔ zip_with Z.land xs ms = ns.
Proof.
  rewrite <-zip_with_take, <-zip_with_drop. split; [|by intros <-].
  intros [E1 E2]. rewrite <-(take_drop n (zip_with _ _ _)), E1, E2. apply take_drop.
Qed.

Lemma chunk_bytes (xs : list Z) i : Forall byte xs → Forall byte (take 4 (drop i xs)).
Proof. intros. by apply Forall_take, Forall_drop. Qed.

Lemma words_match4 e xs ms ns : Forall byte xs → Forall byte ms → Forall byte ns →
  length xs = 4%nat → length ms = 4%nat → length ns = 4%nat → re_mask e = to_words ms → re_addr e = to_words ns →
  addr_matches false (to_words xs) e = true ↔ zip_with Z.land xs ms = ns.
Proof.
  intros Hx Hm Hn Lx Lm Ln Em Ea. unfold addr_matches. rewrite Em, Ea. cbn [to_words w0].
  rewrite !take_ge by lia. by apply word_matches_bytes; lia || done.
Qed.

Lemma words_match16 e xs ms ns : Forall byte xs → Forall byte ms → Forall byte ns →
  length xs = 16%nat → length ms = 16%nat → length ns = 16%nat → re_mask e = to_words ms → re_addr e = to_words ns →
  addr_matches true (to_words xs) e = true ↔ zip_with Z.land xs ms = ns.
Proof.
  intros Hx Hm Hn Lx Lm Ln Em Ea. unfold addr_matches. rewrite Em, Ea. cbn [to_words w0 w1 w2 w3].
  rewrite !andb_true_iff, <-(drop_0 xs), <-(drop_0 ms), <-(drop_0 ns), !drop_drop.
  rewrite !word_matches_bytes; [|try (by apply chunk_bytes) || (rewrite !length_take, !length_drop; lia)..].
  rewrite !drop_0, <-(cut 4 xs), <-(cut 4 (drop 4 xs)), !drop_drop, <-(cut 4 (drop (4 + 4) xs)), !drop_drop.
  rewrite !(take_ge (drop 12 _)) by (rewrite length_drop; lia). cbn [Nat.add]. tauto.
Qed.

(** ** Ranges *)

Section range.
Context (net dest : IpAddr) (p : Z) (e : RuleEntry).
Context (Hnet : wf_ip net) (Hdest : wf_ip dest) (Hp : 0 <= p <= width net).
Local Notation mask := (mask_bytes p (width_bytes net)).
Context (Em : re_mask e = to_words mask) (Ea : re_addr e = to_words (zip_with Z.land (ip_octets net) mask)).

Lemma length_masked : length (zip_with Z.land (ip_octets net) mask) = width_bytes net.
Proof. rewrite length_zip_with, octets_length, length_mask_bytes. lia. Qed.

Lemma range_bytes : is_ipv4 net = is_ipv4 dest →
  zip_with Z.land (ip_octets dest) mask = zip_with Z.land (ip_octets net) mask ↔ masked_eq net dest p = true.
Proof.
  intros Ef. assert (width_bytes dest = width_bytes net) as Ew by (unfold width_bytes; by rewrite Ef).
  rewrite masked_eq_iff by done. unfold same_net.
  pose proof (masked_bytes_iff (ip_octets dest) (ip_octets net) p (octets_bytes dest) (octets_bytes net)) as H.
  rewrite !octets_length, Ew, !octets_value in H by done. rewrite H by (done || rewrite width_bits in Hp; lia).
  rewrite width_bits, Z.max_r by lia. naive_solver.
Qed.

(** An entry of the destination's own family. *)
Lemma range_matches : is_ipv4 net = is_ipv4 dest →
  addr_matches (negb (is_ipv4 dest)) (ip_words dest) e = masked_eq net dest p.
Proof.
  intros Ef. apply eq_true_iff_eq. rewrite <-range_bytes by done. unfold ip_words.
  pose proof length_masked as Hl. pose proof (octets_length dest) as Hd. pose proof (length_mask_bytes p (width_bytes net)) as Hm.
  pose proof (octets_bytes dest). pose proof (mask_bytes_bytes p (width_bytes net)).
  pose proof (zip_land_bytes _ _ (octets_bytes net) (mask_bytes_bytes p (width_bytes net))).
  destruct dest, net; try done; [by apply words_match4|by apply words_match16].
Qed.
End range.

Lemma be_octets_split n k a : 0 <= a →
  be_octets (n + k) a = be_octets n (a / 256 ^ Z.of_nat k) ++ be_octets k (a mod 256 ^ Z.of_nat k).
Proof.
  intros Ha. pose proof (Z.pow_pos_nonneg 256 (Z.of_nat k) ltac:(lia) ltac:(lia)).
  apply be_value_inj; [apply be_octets_bytes|apply Forall_app_2; apply be_octets_bytes|by rewrite length_app, !length_be_octets|].
  rewrite be_value_app, length_be_octets, !be_octets_value, Nat2Z.inj_add, Z.pow_add_r, Z.mod_mod
    by first [lia|apply Z.div_pos; lia|apply Z.mod_pos_bound; lia].
  rewrite Z.mul_comm, Z.rem_mul_r by (try apply Z.pow_nonzero; lia). lia.
Qed.

Lemma zip_ones n xs : length xs = n → Forall byte xs → zip_with Z.land xs (replicate n 255) = xs.
Proof.
  intros <-. induction 1 as [|x xs Hx _ IH]; [done|]. cbn. rewrite IH. f_equal. unfold byte in Hx.
  change 255 with (Z.ones 8). rewrite Z.land_ones by lia. apply Z.mod_small. lia.
Qed.

(** The mapped form of an IPv4 entry matches the mapped addresses of its range. *)
Lemma mapped_matches net x p e : 0 <= net < 2 ^ 32 → 0 <= x < 2 ^ 128 → 0 <= p <= 32 →
  re_mask e = to_words (mask_bytes p 4) → re_addr e = to_words (zip_with Z.land (ip_octets (V4 net)) (mask_bytes p 4)) →
  addr_matches true (ip_words (V6 x)) (mapped_entry e)
  = from_option (λ v4, masked_eq (V4 net) (V4 v4) p) false (to_ipv4_mapped x).
Proof.
  intros Hnet Hx Hp Em Ea. set (ms := mask_bytes p 4) in *. set (ns := zip_with Z.land (ip_octets (V4 net)) ms) in *.
  pose proof (length_mask_bytes p 4) as Lm. fold ms in Lm. pose proof (mask_bytes_bytes p 4) as Bm. fold ms in Bm.
  assert (length ns = 4%nat) as Ln by (unfold ns; by rewrite length_zip_with, Lm).
  pose proof (zip_land_bytes _ _ (octets_bytes (V4 net)) Bm) as Bn. fold ns in Bn.
  pose proof (Z.div_pos x (2 ^ 32) ltac:(lia) ltac:(lia)). pose proof (Z.mod_pos_bound x (2 ^ 32) ltac:(lia)).
  assert (to_ipv4_mapped x = if x / 2 ^ 32 =? 0xffff then Some (x mod 2 ^ 32) else None) as ->.
  { destruct (Z.eqb_spec (x / 2 ^ 32) 0xffff) as [E|E].
    - apply mapped_iff; [done|]. split; [done|]. unfold mapped_of. pose proof (Z.div_mod x (2 ^ 32)). lia.
    - destruct (to_ipv4_mapped x) as [v|] eqn:Ev; [|done]. apply mapped_iff in Ev as [Hv ->]; [|done].
      unfold mapped_of in E. rewrite Z.div_add_l, Z.div_small, Z.add_0_r in E by lia. done. }
  apply eq_true_iff_eq. unfold ip_words.
  rewrite (words_match16 _ _ (replicate 12 255 ++ ms) (replicate 10 0 ++ [255; 255] ++ ns)); cycle 1.
  { apply octets_bytes. } { apply Forall_app_2; [repeat constructor; done|done]. }
  { rewrite app_assoc. apply Forall_app_2; [repeat constructor; done|done]. }
  { apply octets_length. } { rewrite length_app, Lm. done. } { rewrite !length_app, Ln. done. }
  { cbn. rewrite Em. unfold v4_mapped, to_words. by rewrite !take_ge by (rewrite ?length_drop; cbn; lia). }
  { cbn. rewrite Ea. unfold v4_mapped, to_words. by rewrite !take_ge by (rewrite ?length_drop; cbn; lia). }
  rewrite octets_be. cbn [width_bytes is_ipv4 value]. change 16%nat with (12 + 4)%nat. rewrite be_octets_split by lia.
  change (256 ^ Z.of_nat 4) with (2 ^ 32). rewrite zip_with_app by (by rewrite length_be_octets).
  assert (zip_with Z.land (be_octets 12 (x / 2 ^ 32)) (replicate 12 255) = be_octets 12 (x / 2 ^ 32)) as ->.
  { apply (zip_ones 12); [apply length_be_octets|apply be_octets_bytes]. }
  rewrite (app_assoc (replicate 10 0)).
  transitivity (be_octets 12 (x / 2 ^ 32) = replicate 10 0 ++ [255; 255]
    ∧ zip_with Z.land (be_octets 4 (x mod 2 ^ 32)) ms = ns).
  { split; [intros E|by intros [-> ->]]. apply app_inj_1 in E; [done|]. by rewrite length_be_octets. }
  assert (be_octets 12 (x / 2 ^ 32) = replicate 10 0 ++ [255; 255] ↔ x / 2 ^ 32 = 0xffff) as ->.
  { split; [intros E%(f_equal be_value)|intros ->; reflexivity]. rewrite be_octets_value in E by done.
    rewrite Z.mod_small in E; [exact E|]. split; [done|]. apply Z.div_lt_upper_bound; [lia|].
    change (2 ^ 32 * 256 ^ Z.of_nat 12) with (2 ^ 128). lia. }
  change (be_octets 4 (x mod 2 ^ 32)) with (be_octets (width_bytes (V4 (x mod 2 ^ 32))) (value (V4 (x mod 2 ^ 32)))).
  rewrite <-octets_be. unfold ns, ms.
  rewrite (range_bytes (V4 net) (V4 (x mod 2 ^ 32)) p Hnet ltac:(done) Hp eq_refl).
  destruct (Z.eqb_spec (x / 2 ^ 32) 0xffff); cbn [from_option]; naive_solver.
Qed.
