(* ===== verification/EbpfCompile.v ===== *)
(** * EbpfCompile: the compiled tables decide as the evaluator does

    The first-match scan of the tables [compile] builds against [evaluate] of
    [IpEval], the verdict of the other IP-layer route: equal verdicts and equal
    audit labels on every destination that is not IPv4-mapped, and the exact
    difference on those that are. *)

From S2P Require Import Prelude Text IpAddr PolicyHost PolicyCidr ProtectedSpace Outbound IpEval FlowGate Ebpf EbpfMachine EbpfAsm EbpfExec EbpfProgram EbpfEvents EbpfRules.

Open Scope Z_scope.

(** The flow a hook sees for a destination, and its program's family. *)
Definition flow_to (dest : IpAddr) (proto : EgressProto) (port : Z) : Flow :=
  mkFlow (ip_words dest) (raw_port port) (proto_num proto).
Definition dest_v6 (dest : IpAddr) : bool := negb (is_ipv4 dest).

(** ** Ranges compiled *)

Lemma digits_value_larger radix m1 m2 s : 0 < radix → m1 <= m2 → ∀ acc v, 0 <= acc →
  digits_value radix m2 acc s = Some v → v <= m1 → digits_value radix m1 acc s = Some v.
Proof.
  intros Hr Hm. induction s as [|c s IH]; intros acc v Ha; cbn; [done|].
  destruct (to_digit radix c) as [d|] eqn:Ed; [|done].
  assert (0 <= d) as Hd.
  { unfold to_digit, digit_value, is_ascii_digit, is_ascii_upper in Ed.
    repeat case_match; simplify_eq; rewrite ?andb_true_iff, ?Z.leb_le in *; lia. }
  destruct (Z.ltb_spec m2 (acc * radix + d)); [done|]. intros E Hv.
  assert (acc * radix + d <= v) as Hle.
  { clear -E Hr Hd Ha. assert (0 <= acc * radix + d) as H0 by nia. revert E H0. generalize (acc * radix + d).
    induction s as [|c s IH]; intros a; cbn; [intros [= ->]; lia|].
    destruct (to_digit radix c) as [d'|] eqn:Ed; [|done]. destruct (_ <? _); [done|]. intros E H0.
    assert (0 <= d').
    { unfold to_digit, digit_value, is_ascii_digit, is_ascii_upper in Ed.
      repeat case_match; simplify_eq; rewrite ?andb_true_iff, ?Z.leb_le in *; lia. }
    apply IH in E; nia. }
  destruct (Z.ltb_spec m1 (acc * radix + d)); [lia|]. apply IH; [nia|done..].
Qed.

Lemma parse_u8_of_u32 s p : parse_u32 s = Some p → p <= U8_MAX → parse_u8 s = Some p.
Proof.
  unfold parse_u32, parse_u8, from_str_radix. destruct s as [|c s]; [done|].
  repeat case_match; try done; apply digits_value_larger; unfold U8_MAX, U32_MAX; lia.
Qed.

Definition mask_of (net : IpAddr) (p : Z) : list Z := mask_bytes p (width_bytes net).

(** What a compiled range is. *)
Definition compiled (net : IpAddr) (p : Z) (a m : Words) : Prop :=
  m = to_words (mask_of net p) ∧ a = to_words (zip_with Z.land (ip_octets net) (mask_of net p)).

Lemma parse_cidr_words_ok c fam a m : parse_cidr_words c = Ok (fam, a, m) →
  ∃ net p, parse_policy_cidr c = Some (net, p) ∧ fam = family_of_ip net ∧ compiled net p a m.
Proof.
  unfold parse_cidr_words, parse_policy_cidr. destruct (split_once "/" c) as [[s1 s2]|]; [|done].
  destruct (parse_ip s1) as [net|]; [|done]. destruct (parse_u32 s2) as [p|] eqn:Ep; [|done].
  destruct (Z.ltb_spec (max_prefix net) p); [done|]. intros [= <- <- <-]. pose proof (max_prefix_range net).
  rewrite (parse_u8_of_u32 s2 p Ep) by (unfold U8_MAX; lia).
  destruct (Z.leb_spec p (max_prefix net)); [|lia]. exists net, p. unfold compiled, mask_of. by rewrite octets_length.
Qed.

Lemma parse_cidr_words_literal ip : wf_ip ip →
  ∃ a, parse_cidr_words (ip_literal_cidr ip) = Ok (family_of_ip ip, a, full_mask (family_of_ip ip))
    ∧ compiled ip (width ip) a (full_mask (family_of_ip ip)).
Proof.
  intros Hip. unfold parse_cidr_words, ip_literal_cidr. rewrite split_show_cidr, parse_show_ip by done.
  pose proof (max_prefix_range ip). unfold parse_u32. rewrite from_str_radix_show by (unfold U32_MAX; lia).
  rewrite Z.ltb_irrefl, octets_length. eexists. split; [f_equal; f_equal|split; [|reflexivity]]; by destruct ip.
Qed.

(** ** Lines *)

(** What one rule leaves in a table; [None] for a wildcard, in both as it is. *)
Record Line := mkLine { ln_family : option Family; ln_entry : RuleEntry; ln_meta : RuleMeta }.

Definition side (v6 : bool) (fam : Family) (e : RuleEntry) : list RuleEntry :=
  match fam with
  | FamV4 => [if v6 then mapped_entry e else e]
  | FamV6 => if v6 then [e] else []
  end.
Definition line_side (v6 : bool) (l : Line) : list RuleEntry :=
  match ln_family l with Some fam => side v6 fam (ln_entry l) | None => [ln_entry l] end.
Definition line_meta (v6 : bool) (l : Line) : list RuleMeta := (λ _, ln_meta l) <$> line_side v6 l.

Definition push_line (t : Tables) (l : Line) : result Tables string :=
  match ln_family l with
  | Some fam => push_family fam t (ln_entry l) (ln_meta l)
  | None => push_any t (ln_entry l) (ln_meta l)
  end.

Definition side_of (v6 : bool) (t : Tables) : Side := if v6 then t.2 else t.1.
(** [t'] is [t] with the lines appended, within the caps. *)
Definition appends (t t' : Tables) (ls : list Line) : Prop := ∀ v6,
  (side_of v6 t').1 = (side_of v6 t).1 ++ (ls ≫= line_side v6)
  ∧ (side_of v6 t').2 = (side_of v6 t).2 ++ (ls ≫= line_meta v6)
  ∧ ((length (side_of v6 t).1 ≤ MAX_RULES_PER_MAP)%nat → (length (side_of v6 t').1 ≤ MAX_RULES_PER_MAP)%nat).

Lemma appends_nil t : appends t t [].
Proof. intros v6. cbn. by rewrite !app_nil_r. Qed.
Lemma appends_app t t1 t2 ls1 ls2 : appends t t1 ls1 → appends t1 t2 ls2 → appends t t2 (ls1 ++ ls2).
Proof.
  intros H1 H2 v6. destruct (H1 v6) as (E1 & M1 & L1), (H2 v6) as (E2 & M2 & L2).
  split_and!; [by rewrite bind_app, E2, E1, <-app_assoc|by rewrite bind_app, M2, M1, <-app_assoc|auto].
Qed.

Lemma push_ok s e m s' : push s e m = Ok s' → s' = (s.1 ++ [e], s.2 ++ [m]) ∧ (length s'.1 ≤ MAX_RULES_PER_MAP)%nat.
Proof.
  unfold push. destruct (Nat.leb_spec MAX_RULES_PER_MAP (length s.1)); [done|]. intros [= <-].
  split; [done|]. cbn. rewrite length_app. cbn. lia.
Qed.

Lemma push_line_appends t l t' : push_line t l = Ok t' → appends t t' [l].
Proof.
  destruct t as [[e4 m4] [e6 m6]], l as [fam e m]. unfold push_line, push_family, push_any, push_v4, push_v6, appends.
  cbn [ln_family ln_entry ln_meta fst snd].
  destruct fam as [[]|]; intros E; cbn in E; repeat match goal with
    | H : result_bind ?r _ = Ok _ |- _ => let s := fresh "s" in let E := fresh "E" in
        destruct r as [s|] eqn:E; cbn in H; [|done]
    | H : Ok _ = Ok _ |- _ => injection H as <-
    | H : push _ _ _ = Ok _ |- _ => apply push_ok in H as [-> ?]
    end; intros []; cbn in *; rewrite ?app_nil_r; split_and!; auto.
Qed.

Lemma fold_appends {A} (f : Tables → A → result Tables string) (line : A → option Line) :
  (∀ t x t', f t x = Ok t' → appends t t' (option_list (line x))) →
  ∀ xs t t', fold_result f t xs = Ok t' → appends t t' (omap line xs).
Proof.
  intros Hf. induction xs as [|x xs IH]; intros t t'; cbn; [intros [= <-]; apply appends_nil|].
  destruct (f t x) as [t1|] eqn:E; cbn; [|done]. intros Hr%IH. apply Hf in E.
  pose proof (appends_app _ _ _ _ _ E Hr) as H. by destruct (line x).
Qed.

Definition deny_line (r : DenyRow) : Line :=
  mkLine (Some (dr_family r)) (static_entry (dr_addr r) (dr_mask r) 0 0 ACTION_DENY) (dr_meta r).

Definition allow_line (rule : EgressRule) : option Line :=
  if negb (eg_allow rule) then None
  else
    let line fam a mask := mkLine fam
      (static_entry a mask (proto_num (eg_proto rule)) (rule_port_raw (eg_port rule)) ACTION_ALLOW)
      (mkMeta (if is_cidr (eg_dest rule) then "allow-cidr" else "allow-host") (describe rule)) in
    match eg_dest rule with
    | Unix _ => None
    | Cidr c => match parse_cidr_words c with Ok (fam, a, mask) => Some (line (Some fam) a mask) | Err _ => None end
    | Host h =>
        if bool_decide (h = "*") then Some (line None zero_words zero_words)
        else match parse_ip h with
        | Some ip => match parse_cidr_words (ip_literal_cidr ip) with
                     | Ok (_, a, _) => Some (line (Some (family_of_ip ip)) a (full_mask (family_of_ip ip)))
                     | Err _ => None
                     end
        | None => None
        end
    end.

Lemma push_allow_appends t rule t' : push_allow t rule = Ok t' → appends t t' (option_list (allow_line rule)).
Proof.
  unfold push_allow, allow_line. destruct (eg_allow rule); cbn [negb]; [|intros [= <-]; apply appends_nil].
  destruct (eg_dest rule) as [h|c|u]; [case_bool_decide; [|destruct (parse_ip h) as [ip|]; [|intros [= <-]; apply appends_nil]]| |intros [= <-]; apply appends_nil].
  - intros E. apply push_line_appends. exact E.
  - destruct (parse_cidr_words _) as [[[fam a] m]|]; cbn; [|done]. intros E. apply push_line_appends. exact E.
  - destruct (parse_cidr_words c) as [[[fam a] m]|]; cbn; [|done]. intros E. apply push_line_appends. exact E.
Qed.

Definition any_line (o : OutboundPolicy) : list Line :=
  if ev_denied_any (build o Unotify) then [mkLine None any_deny (mkMeta "deny-host" "*")] else [].
Definition deny_lines (o : OutboundPolicy) (rows : list DenyRow) : list Line := any_line o ++ (deny_line <$> rows).
Definition allow_lines (o : OutboundPolicy) : list Line := omap allow_line (egress_rules o).

Definition table_entries (v6 : bool) (t : RuleTable) : list RuleEntry := if v6 then rt_v6 t else rt_v4 t.
Definition table_meta (v6 : bool) (t : RuleTable) : list RuleMeta := if v6 then rt_meta_v6 t else rt_meta_v4 t.

Lemma compile_lines o t : compile o = Ok t → ∃ rows, deny_rows o = Ok rows ∧ rt_default_allow t = negb (deny_all_others o)
  ∧ ∀ v6, let ls := deny_lines o rows ++ allow_lines o in
      table_entries v6 t = ls ≫= line_side v6 ∧ table_meta v6 t = ls ≫= line_meta v6
      ∧ (length (table_entries v6 t) ≤ MAX_RULES_PER_MAP)%nat.
Proof.
  unfold compile. change (existsb _ (denied_hosts o)) with (ev_denied_any (build o Unotify)).
  match goal with |- result_bind ?r _ = _ → _ => destruct r as [t0|] eqn:E0; cbn; [|done] end.
  assert (appends (([], []), ([], [])) t0 (any_line o)) as H0.
  { unfold any_line. destruct (ev_denied_any _); [|injection E0 as <-; apply appends_nil].
    apply push_line_appends. exact E0. }
  destruct (deny_rows o) as [rows|] eqn:Er; cbn; [|done].
  destruct (fold_result push_deny t0 rows) as [t1|] eqn:E1; cbn; [|done].
  destruct (fold_result push_allow t1 _) as [t2|] eqn:E2; cbn; [|done]. intros [= <-].
  apply (fold_appends push_deny (λ r, Some (deny_line r))) in E1; [|intros ? r ? Hr; exact (push_line_appends _ (deny_line r) _ Hr)].
  apply (fold_appends push_allow allow_line push_allow_appends) in E2.
  exists rows. split_and!; [done..|]. intros v6.
  assert (omap (λ r, Some (deny_line r)) rows = deny_line <$> rows) as Eo by (clear; induction rows; cbn; congruence).
  rewrite Eo in E1. pose proof (appends_app _ _ _ _ _ (appends_app _ _ _ _ _ H0 E1) E2 v6) as (He & Hm & Hl).
  unfold deny_lines, allow_lines. destruct v6; cbn in *; (split_and!; [done..|apply Hl; lia]).
Qed.

(** ** The scan over lines *)

Definition line_hits (v6 : bool) (f : Flow) (l : Line) : bool := existsb (entry_matches v6 f) (line_side v6 l).

Lemma first_match_lines v6 f ls : ∀ i,
  match List.find (line_hits v6 f) ls with
  | Some l => ∃ j e, first_match v6 f i (ls ≫= line_side v6) = Some ((i + j)%nat, e)
      ∧ re_action e = re_action (ln_entry l) ∧ (ls ≫= line_meta v6) !! j = Some (ln_meta l)
  | None => first_match v6 f i (ls ≫= line_side v6) = None
  end.
Proof.
  induction ls as [|l ls IH]; intros i; [done|]. cbn [List.find mbind list_bind].
  assert (∃ n e, (line_side v6 l = [] ∧ line_meta v6 l = [] ∧ n = 0%nat
      ∨ line_side v6 l = [e] ∧ line_meta v6 l = [ln_meta l] ∧ n = 1%nat)
      ∧ re_action e = re_action (ln_entry l)) as (n & e & Hs & Ha).
  { unfold line_meta, line_side, side. destruct l as [[[]|] e m]; cbn.
    - exists 1%nat, (if v6 then mapped_entry e else e). by split; [right|destruct v6].
    - destruct v6; [exists 1%nat, e|exists 0%nat, e]; auto.
    - exists 1%nat, e. auto. }
  unfold line_hits at 1. destruct Hs as [(Es & Em & En)|(Es & Em & En)]; rewrite Es, Em; cbn [existsb app first_match].
  - specialize (IH i). exact IH.
  - rewrite orb_false_r. destruct (entry_matches v6 f e).
    + exists 0%nat, e. split_and!; [by rewrite Nat.add_0_r|done..].
    + specialize (IH (S i)). destruct (List.find _ ls) as [l'|]; [|done]. destruct IH as (j & e' & E & Hact & Hm).
      exists (S j), e'. rewrite E. by rewrite Nat.add_succ_r.
Qed.

(** ** Destinations *)

(** A range contains the destination as written or as it is reached. *)
Definition covers (c : string) (dest : IpAddr) : bool := cidr_contains c dest || cidr_contains c (socket_endpoint dest).

Lemma side_matches net p a m dest e : wf_ip net → wf_ip dest → 0 <= p <= width net → compiled net p a m →
  re_addr e = a → re_mask e = m →
  existsb (λ e, addr_matches (dest_v6 dest) (ip_words dest) e) (side (dest_v6 dest) (family_of_ip net) e)
  = masked_eq net dest p || masked_eq net (socket_endpoint dest) p.
Proof.
  intros Hnet Hdest Hp [-> ->] Ea Em. unfold dest_v6.
  destruct (decide (is_ipv4 net = is_ipv4 dest)) as [Ef|Ef].
  - pose proof (range_matches net dest p e Hnet Hdest Hp Em Ea Ef) as Hr.
    destruct dest as [d|d], net as [n|n]; try done; unfold side, family_of_ip; cbn [is_ipv4 negb existsb] in *; rewrite Hr, orb_false_r.
    + cbn. by rewrite orb_diag.
    + unfold socket_endpoint, to_canonical. destruct (to_ipv4_mapped d); [|by rewrite orb_diag]. cbn. by rewrite orb_false_r.
  - destruct dest as [d|d], net as [n|n]; try done; unfold side, family_of_ip; cbn [is_ipv4 negb existsb].
    rewrite orb_false_r, (mapped_matches n d p e) by done. unfold socket_endpoint, to_canonical. cbn.
    by destruct (to_ipv4_mapped d).
Qed.

Lemma cidr_side_matches c fam a m dest e : wf_ip dest → parse_cidr_words c = Ok (fam, a, m) → re_addr e = a → re_mask e = m →
  existsb (λ e, addr_matches (dest_v6 dest) (ip_words dest) e) (side (dest_v6 dest) fam e) = covers c dest.
Proof.
  intros Hd (net & p & Ep & -> & Hc)%parse_cidr_words_ok Ea Em. unfold covers, cidr_contains. rewrite Ep.
  pose proof (parse_policy_cidr_wf _ _ _ Ep) as [Hn Hp]. by eapply side_matches.
Qed.

Lemma covers_literal ip dest : wf_ip ip → wf_ip dest →
  covers (ip_literal_cidr ip) dest = true ↔ ip = dest ∨ ip = socket_endpoint dest.
Proof.
  intros Hip Hd. unfold covers. rewrite orb_true_iff, !ip_literal_route by (done || by apply socket_endpoint_wf).
  naive_solver.
Qed.

(** ** Qualifiers *)

Lemma raw_port_value p : 0 <= p < 65536 → raw_port p = p / 256 + p mod 256 * 256.
Proof.
  intros Hp. unfold raw_port. rewrite Z.lor_comm. change 0xff with (Z.ones 8). rewrite Z.land_ones, Z.shiftr_div_pow2 by lia.
  rewrite lor_disjoint; [done|lia|]. change (2 ^ 8) with 256. split; [apply Z.div_pos; lia|apply Z.div_lt_upper_bound; lia].
Qed.
Lemma raw_port_inj p q : 0 <= p < 65536 → 0 <= q < 65536 → raw_port p = raw_port q → p = q.
Proof.
  intros Hp Hq. rewrite !raw_port_value by done. intros E.
  pose proof (Z.div_mod p 256 ltac:(lia)). pose proof (Z.div_mod q 256 ltac:(lia)).
  pose proof (Z.mod_pos_bound p 256 ltac:(lia)). pose proof (Z.mod_pos_bound q 256 ltac:(lia)).
  assert (p / 256 < 256) by (apply Z.div_lt_upper_bound; lia). assert (q / 256 < 256) by (apply Z.div_lt_upper_bound; lia). lia.
Qed.

(** A rule's port is one a destination can have. *)
Definition port_ok (port : option Z) : Prop := ∀ p, port = Some p → 0 < p < 65536.

Lemma port_matches port p : port_ok port → 0 <= p < 65536 →
  qual_matches (rule_port_raw port) (raw_port p) = is_none_or port (λ q, q =? p).
Proof.
  intros Hok Hp. destruct port as [q|]; [|done]. cbn. specialize (Hok q eq_refl). unfold qual_matches.
  destruct (Z.eqb_spec (raw_port q) 0) as [E|_].
  { change 0 with (raw_port 0) in E. apply raw_port_inj in E; lia. }
  destruct (Z.eqb_spec q p) as [->|Hne]; [by rewrite Z.eqb_refl|]. apply Z.eqb_neq. intros E%raw_port_inj; lia.
Qed.

Lemma proto_matches rule flow : flow ≠ AnyProto → qual_matches (proto_num rule) (proto_num flow) = proto_covers rule flow.
Proof. by destruct rule, flow. Qed.

Lemma side_entry_matches v6 f fam e :
  existsb (entry_matches v6 f) (side v6 fam e)
  = existsb (λ e, addr_matches v6 (fl_addr f) e) (side v6 fam e)
    && (qual_matches (re_proto e) (fl_proto f) && qual_matches (re_port_raw e) (fl_port_raw f)).
Proof. by destruct fam, v6; cbn; rewrite ?orb_false_r. Qed.

Lemma any_matches v6 f e : re_addr e = zero_words → re_mask e = zero_words →
  entry_matches v6 f e = qual_matches (re_proto e) (fl_proto f) && qual_matches (re_port_raw e) (fl_port_raw f).
Proof. intros Ea Em. unfold entry_matches, addr_matches, word_matches. rewrite Ea, Em. cbn. rewrite !Z.land_0_r. by destruct v6. Qed.

(** ** The tables on a flow *)

Section flow.
Context (dest : IpAddr) (proto : EgressProto) (port : Z).
Context (Hdest : wf_ip dest) (Hproto : proto ≠ AnyProto) (Hport : 0 <= port < 65536).
Local Notation v6 := (dest_v6 dest).
Local Notation f := (flow_to dest proto port).
Local Notation hits := (line_hits v6 f).

Lemma deny_hits c fam a m meta : parse_cidr_words c = Ok (fam, a, m) → hits (deny_line (mkRow fam a m meta)) = covers c dest.
Proof.
  intros Hc. unfold line_hits. cbn [line_side deny_line ln_family ln_entry]. rewrite side_entry_matches. cbn -[side existsb addr_matches].
  rewrite andb_true_r. by eapply cidr_side_matches.
Qed.

(** The label of the first row that covers the destination. *)
Definition label (rows : list DenyRow) : option RuleMeta := dr_meta <$> List.find (λ r, hits (deny_line r)) rows.

Lemma find_snoc {A} (p : A → bool) xs x :
  List.find p (xs ++ [x]) = match List.find p xs with Some y => Some y | None => if p x then Some x else None end.
Proof. induction xs as [|y xs IH]; cbn; [done|]. by destruct (p y). Qed.

Lemma stage_label rows c m rows' : stage rows c m = Ok rows' →
  label rows' = match label rows with Some l => Some l | None => if covers c dest then Some m else None end.
Proof.
  unfold stage. destruct (parse_cidr_words c) as [[[fam a] mask]|] eqn:Ec; cbn; [|done]. intros [= <-]. unfold label.
  case_bool_decide as Hin.
  - destruct (List.find _ rows) as [r|] eqn:Ef; [done|]. cbn. apply list_elem_of_fmap in Hin as ([fam' a' mask' m'] & [= <- <- <-] & Hr).
    rewrite list_elem_of_In in Hr. pose proof (List.find_none _ _ Ef _ Hr) as Hh. cbv beta in Hh.
    rewrite (deny_hits c fam a mask m' Ec) in Hh. by rewrite Hh.
  - rewrite find_snoc. destruct (List.find _ rows) as [r|]; [done|]. rewrite (deny_hits c fam a mask m Ec). by destruct (covers c dest).
Qed.

Definition or_label (l : option RuleMeta) (m : option RuleMeta) : option RuleMeta :=
  match l with Some x => Some x | None => m end.

Lemma fold_label {A} (f0 : list DenyRow → A → result (list DenyRow) string) (lab : A → option RuleMeta) :
  (∀ rows x rows', f0 rows x = Ok rows' → label rows' = or_label (label rows) (lab x)) →
  ∀ xs rows rows', fold_result f0 rows xs = Ok rows' → label rows' = or_label (label rows) (find_map lab xs).
Proof.
  intros Hf. induction xs as [|x xs IH]; intros rows rows'; cbn; [intros [= <-]; by destruct (label rows)|].
  destruct (f0 rows x) as [rows1|] eqn:E; cbn; [|done]. intros Hr%IH. rewrite Hr, (Hf _ _ _ E).
  unfold find_map. cbn. destruct (label rows); [done|]. cbn. by destruct (lab x).
Qed.

Definition host_label (h : string) : option RuleMeta :=
  ip ← parse_ip h; if bool_decide (ip = dest ∨ ip = socket_endpoint dest) then Some (mkMeta "deny-host" (show_ip ip)) else None.
Definition cidr_label (c : string) : option RuleMeta := if covers c dest then Some (mkMeta "deny-cidr" c) else None.

Lemma deny_rows_label o rows : deny_rows o = Ok rows →
  label rows = or_label (find_map host_label (denied_hosts o)) (find_map cidr_label (denied_cidrs o)).
Proof.
  unfold deny_rows. destruct (fold_result stage_host [] _) as [rows1|] eqn:E1; cbn; [|done]. intros E2.
  apply (fold_label stage_cidr cidr_label) in E2; [|intros ? c ? Hs; by rewrite (stage_label _ _ _ _ Hs)].
  apply (fold_label stage_host host_label) in E1; [by rewrite E2, E1|].
  intros rows0 h rows' Hs. unfold stage_host in Hs. unfold host_label. case_bool_decide as Eh.
  - subst h. injection Hs as <-. change (parse_ip "*") with (@None IpAddr). cbn. by destruct (label rows0).
  - destruct (parse_ip h) as [ip|] eqn:Ei; cbn; [|injection Hs as <-; by destruct (label rows0)].
    rewrite (stage_label _ _ _ _ Hs). unfold or_label. destruct (label rows0); [done|].
    apply parse_ip_wf in Ei. pose proof (covers_literal ip dest Ei Hdest) as Hc.
    case_bool_decide; destruct (covers _ _); naive_solver.
Qed.

(** ** Allows *)

(** A rule's destination names the address, as a range, a literal or any. *)
Definition dest_names (d : EgressDest) (x : IpAddr) : bool :=
  match d with
  | Host h => bool_decide (h = "*") || bool_decide (parse_ip h = Some x)
  | Cidr c => cidr_contains c x
  | Unix _ => false
  end.
Definition rule_names (r : EgressRule) (x : IpAddr) : bool :=
  eg_allow r && dest_names (eg_dest r) x && covers_flow r proto port.

Lemma allow_hits rule l : port_ok (eg_port rule) → allow_line rule = Some l →
  hits l = rule_names rule dest || rule_names rule (socket_endpoint dest).
Proof.
  intros Hok. unfold allow_line, rule_names. destruct (eg_allow rule); cbn [negb andb]; [|done].
  rewrite <-!andb_orb_distrib_l.
  set (q := qual_matches (proto_num (eg_proto rule)) (proto_num proto) && qual_matches (rule_port_raw (eg_port rule)) (raw_port port)).
  assert (covers_flow rule proto port = q) as ->.
  { unfold covers_flow, q. by rewrite port_matches, proto_matches. }
  assert (∀ net p a m, wf_ip net → 0 <= p <= width net → compiled net p a m →
    existsb (entry_matches v6 f) (side v6 (family_of_ip net) (static_entry a m (proto_num (eg_proto rule))
      (rule_port_raw (eg_port rule)) ACTION_ALLOW)) = (masked_eq net dest p || masked_eq net (socket_endpoint dest) p) && q) as Hside.
  { intros net p a m Hn Hp Hc. rewrite side_entry_matches. f_equal. by eapply side_matches. }
  destruct (eg_dest rule) as [h|c|u]; cbn [dest_names]; [|destruct (parse_cidr_words c) as [[[fam a] m]|] eqn:Ec; [|done]|done].
  - case_bool_decide as Eh.
    + intros [= <-]. unfold line_hits. cbn [line_side ln_family ln_entry existsb]. rewrite any_matches, orb_false_r by done. done.
    + destruct (parse_ip h) as [ip|] eqn:Ei; [|done]. apply parse_ip_wf in Ei.
      destruct (parse_cidr_words_literal ip Ei) as (a & -> & Hc). intros [= <-].
      unfold line_hits. cbn [line_side ln_family ln_entry]. rewrite (Hside ip (width ip)); [|done|pose proof (max_prefix_range ip); unfold width; lia|done].
      f_equal. cbn [orb]. pose proof (covers_literal ip dest Ei Hdest) as Hl. unfold covers, cidr_contains, ip_literal_cidr in Hl.
      pose proof (max_prefix_range ip). rewrite parse_show_cidr in Hl by (done || unfold width; lia). apply eq_true_iff_eq.
      rewrite Hl, orb_true_iff, !bool_decide_eq_true. naive_solver.
  - apply parse_cidr_words_ok in Ec as (net & p & Ep & -> & Hc). intros [= <-].
    pose proof (parse_policy_cidr_wf _ _ _ Ep) as [Hn Hp]. unfold line_hits. cbn [line_side ln_family ln_entry].
    rewrite (Hside net p) by done. unfold cidr_contains. by rewrite Ep.
Qed.

Lemma digits_value_monotone radix m1 m2 s : m1 <= m2 → ∀ acc v,
  digits_value radix m1 acc s = Some v → digits_value radix m2 acc s = Some v.
Proof.
  intros Hm. induction s as [|c s IH]; intros acc v; cbn; [done|]. destruct (to_digit radix c) as [d|]; [|done].
  destruct (Z.ltb_spec m1 (acc * radix + d)); [done|]. destruct (Z.ltb_spec m2 (acc * radix + d)); [lia|]. apply IH.
Qed.

Lemma parse_cidr_words_total c net p : parse_policy_cidr c = Some (net, p) → ∃ w, parse_cidr_words c = Ok w.
Proof.
  unfold parse_policy_cidr, parse_cidr_words. destruct (split_once "/" c) as [[s1 s2]|]; [|done].
  destruct (parse_ip s1) as [ip|]; [|done]. destruct (parse_u8 s2) as [q|] eqn:Eq; [|done].
  assert (parse_u32 s2 = Some q) as ->.
  { revert Eq. unfold parse_u8, parse_u32, from_str_radix. destruct s2 as [|ch s2]; [done|].
    repeat case_match; try done; apply digits_value_monotone; unfold U8_MAX, U32_MAX; lia. }
  destruct (Z.leb_spec q (max_prefix ip)); [|done]. destruct (Z.ltb_spec (max_prefix ip) q); [lia|]. by eexists.
Qed.

Lemma allow_line_total rule x : rule_names rule x = true → is_Some (allow_line rule).
Proof.
  unfold rule_names, allow_line. destruct (eg_allow rule); [|done]. cbn [negb andb].
  destruct (eg_dest rule) as [h|c|u]; cbn; [| |done].
  - case_bool_decide; [done|]. destruct (parse_ip h) as [ip|] eqn:Ei; cbn; [|by case_bool_decide].
    apply parse_ip_wf in Ei. by destruct (parse_cidr_words_literal ip Ei) as (a & -> & _).
  - unfold cidr_contains. destruct (parse_policy_cidr c) as [[net p]|] eqn:Ep; [|done].
    destruct (parse_cidr_words_total _ _ _ Ep) as [[[fam a] m] ->]. done.
Qed.

Lemma allow_line_action rule l : allow_line rule = Some l → re_action (ln_entry l) = ACTION_ALLOW.
Proof. unfold allow_line. intros. repeat case_match; simplify_eq; done. Qed.

Lemma find_app_or {A} (p : A → bool) xs ys :
  List.find p (xs ++ ys) = match List.find p xs with Some x => Some x | None => List.find p ys end.
Proof. induction xs as [|x xs IH]; cbn; [done|]. by destruct (p x). Qed.
Lemma find_fmap {A B} (g : A → B) (p : B → bool) xs : List.find p (g <$> xs) = g <$> List.find (λ x, p (g x)) xs.
Proof. induction xs as [|x xs IH]; cbn; [done|]. by destruct (p (g x)). Qed.

(** The label of the deny that decides, if any does. *)
Definition deny_label (o : OutboundPolicy) : option RuleMeta :=
  if ev_denied_any (build o Unotify) then Some (mkMeta "deny-host" "*")
  else or_label (find_map host_label (denied_hosts o)) (find_map cidr_label (denied_cidrs o)).

(** Some allow rule names the destination as written or as it is reached. *)
Definition some_rule_names (o : OutboundPolicy) : bool :=
  existsb (λ r, rule_names r dest || rule_names r (socket_endpoint dest)) (egress_rules o).

Lemma deny_lines_find o rows : deny_rows o = Ok rows →
  match List.find hits (deny_lines o rows) with
  | Some l => deny_label o = Some (ln_meta l) ∧ re_action (ln_entry l) = ACTION_DENY
  | None => deny_label o = None
  end.
Proof.
  intros Hr. unfold deny_lines, deny_label, any_line. pose proof (deny_rows_label o rows Hr) as Hl.
  destruct (ev_denied_any _); cbn [app List.find].
  - unfold line_hits at 1. cbn [line_side ln_family ln_entry existsb]. by rewrite any_matches, orb_false_r by done.
  - rewrite find_fmap. unfold label in Hl. rewrite <-Hl. by destruct (List.find _ rows).
Qed.

Lemma allow_lines_find o : Forall (λ r, port_ok (eg_port r)) (egress_rules o) →
  match List.find hits (allow_lines o) with
  | Some l => some_rule_names o = true ∧ re_action (ln_entry l) = ACTION_ALLOW
  | None => some_rule_names o = false
  end.
Proof.
  intros Hok. unfold allow_lines, some_rule_names. induction Hok as [|r rs Hr _ IH]; [done|]. cbn [omap list_omap existsb].
  destruct (allow_line r) as [l|] eqn:El.
  - cbn [List.find]. rewrite (allow_hits r l Hr El). destruct (_ || _); [|exact IH]. split; [done|]. by eapply allow_line_action.
  - assert (rule_names r dest || rule_names r (socket_endpoint dest) = false) as ->; [|exact IH].
    apply not_true_iff_false. rewrite orb_true_iff. intros [H%allow_line_total|H%allow_line_total]; destruct H; congruence.
Qed.

Lemma table_scan o t : compile o = Ok t → Forall (λ r, port_ok (eg_port r)) (egress_rules o) →
  match deny_label o with
  | Some m => ∃ j e, first_match v6 f 0 (table_entries v6 t) = Some (j, e) ∧ re_action e = ACTION_DENY
      ∧ table_meta v6 t !! j = Some m
  | None =>
      if some_rule_names o
      then ∃ j e, first_match v6 f 0 (table_entries v6 t) = Some (j, e) ∧ re_action e = ACTION_ALLOW
      else first_match v6 f 0 (table_entries v6 t) = None
  end.
Proof.
  intros (rows & Hr & _ & Hs)%compile_lines Hok. destruct (Hs v6) as (-> & -> & _).
  pose proof (first_match_lines v6 f (deny_lines o rows ++ allow_lines o) 0) as Hf. rewrite find_app_or in Hf.
  pose proof (deny_lines_find o rows Hr) as Hd. pose proof (allow_lines_find o Hok) as Ha.
  destruct (List.find hits (deny_lines o rows)) as [l|].
  - destruct Hd as [-> Hd]. destruct Hf as (j & e & Hf & Hact & Hm). exists j, e. by rewrite Hact.
  - rewrite Hd. destruct (List.find hits (allow_lines o)) as [l|]; [destruct Ha as [-> Ha]|by rewrite Ha].
    destruct Hf as (j & e & Hf & Hact & _). exists j, e. by rewrite Hact.
Qed.
End flow.

(** ** Compiled entries are well formed *)

Lemma le_value_range xs : Forall byte xs → 0 <= le_value xs < 256 ^ Z.of_nat (length xs).
Proof.
  induction 1 as [|b xs Hb _ IH]; [done|]. cbn [le_value length]. rewrite Nat2Z.inj_succ, Z.pow_succ_r by lia.
  unfold byte in Hb. lia.
Qed.

Lemma to_words_wf xs : Forall byte xs → wf_words (to_words xs).
Proof.
  intros Hx. assert (∀ i, u32 (le_value (take 4 (drop i xs)))) as H.
  { intros i. pose proof (le_value_range _ (chunk_bytes xs i Hx)) as [H0 H1]. split; [done|].
    eapply Z.lt_le_trans; [exact H1|]. change (2 ^ 32) with (256 ^ 4). apply Z.pow_le_mono_r; [lia|]. rewrite length_take. lia. }
  unfold wf_words, to_words. cbn [w0 w1 w2 w3]. pose proof (H 0%nat) as H'. rewrite drop_0 in H'. auto.
Qed.

Lemma compiled_wf net p a m : compiled net p a m → wf_words a ∧ wf_words m.
Proof.
  intros [-> ->]. split; apply to_words_wf; [apply zip_land_bytes; [apply octets_bytes|]|]; apply mask_bytes_bytes.
Qed.

Lemma mapped_wf e : wf_entry e → wf_entry (mapped_entry e).
Proof.
  intros ((Ha & _) & (Hm & _) & Hp & Hq & Hx). unfold mapped_entry, v4_mapped, wf_entry, wf_words. cbn [re_addr re_mask re_proto re_port_raw re_expires_at_ns w0 w1 w2 w3].
  assert (u32 0 ∧ u32 MAPPED ∧ u32 (2 ^ 32 - 1)) as (? & ? & ?) by (unfold u32; vm_compute; naive_solver). auto 20.
Qed.

Lemma static_wf a m proto port action : wf_words a → wf_words m → port_ok port →
  wf_entry (static_entry a m (proto_num proto) (rule_port_raw port) action).
Proof.
  intros Ha Hm Hp. unfold wf_entry. cbn [static_entry re_addr re_mask re_proto re_port_raw re_expires_at_ns]. split_and!; [done..| | |by split].
  - by destruct proto.
  - destruct port as [p|]; cbn; [|by split]. specialize (Hp p eq_refl). rewrite raw_port_value by lia.
    pose proof (Z.mod_pos_bound p 256 ltac:(lia)). assert (0 <= p / 256 < 256) by (split; [apply Z.div_pos; lia|apply Z.div_lt_upper_bound; lia]).
    unfold u32. lia.
Qed.

Lemma line_side_wf v6 l : wf_entry (ln_entry l) → Forall wf_entry (line_side v6 l).
Proof. intros H. unfold line_side, side. destruct l as [[[]|] e m], v6; cbn [ln_family ln_entry] in *;
  first [apply Forall_nil_2|apply Forall_singleton]; [try apply mapped_wf|..]; done. Qed.

Lemma deny_rows_wf o rows : deny_rows o = Ok rows → Forall (λ r, wf_entry (ln_entry (deny_line r))) rows.
Proof.
  assert (∀ rows c m rows', stage rows c m = Ok rows' → Forall (λ r, wf_entry (ln_entry (deny_line r))) rows →
    Forall (λ r, wf_entry (ln_entry (deny_line r))) rows') as Hstage.
  { intros rs c m rs'. unfold stage. destruct (parse_cidr_words c) as [[[fam a] mask]|] eqn:Ec; cbn; [|done]. intros [= <-] Hrs.
    case_bool_decide; [done|]. apply Forall_app_2; [done|]. constructor; [|constructor].
    apply parse_cidr_words_ok in Ec as (net & p & _ & _ & Hc). apply compiled_wf in Hc as [Ha Hm].
    by apply (static_wf a mask AnyProto None). }
  assert (∀ {A} (f : list DenyRow → A → result (list DenyRow) string),
    (∀ rs x rs', f rs x = Ok rs' → Forall (λ r, wf_entry (ln_entry (deny_line r))) rs → Forall (λ r, wf_entry (ln_entry (deny_line r))) rs') →
    ∀ xs rs rs', fold_result f rs xs = Ok rs' → Forall (λ r, wf_entry (ln_entry (deny_line r))) rs →
    Forall (λ r, wf_entry (ln_entry (deny_line r))) rs') as Hfold.
  { intros A f Hf. induction xs as [|x xs IH]; intros rs rs'; cbn; [by intros [= <-]|].
    destruct (f rs x) eqn:E; cbn; [|done]. intros H Hrs. eapply IH; [done|]. by eapply Hf. }
  unfold deny_rows. destruct (fold_result stage_host [] _) as [rows1|] eqn:E1; cbn; [|done]. intros E2.
  eapply Hfold; [|exact E2|]; [intros ? ? ?; apply Hstage|]. eapply Hfold; [|exact E1|constructor].
  intros rs h rs'. unfold stage_host. case_bool_decide; [by intros [= <-]|]. destruct (parse_ip h); [apply Hstage|by intros [= <-]].
Qed.

Lemma compile_wf o t v6 : compile o = Ok t → Forall (λ r, port_ok (eg_port r)) (egress_rules o) →
  Forall wf_entry (table_entries v6 t).
Proof.
  intros (rows & Hr & _ & Hs)%compile_lines Hok. destruct (Hs v6) as (-> & _). apply deny_rows_wf in Hr.
  assert (wf_words zero_words) as Hz by by repeat split.
  assert (Forall (λ l, wf_entry (ln_entry l)) (deny_lines o rows ++ allow_lines o)) as H.
  { apply Forall_app_2; [apply Forall_app_2|].
    - unfold any_line. destruct (ev_denied_any _); repeat constructor; done.
    - by apply Forall_fmap.
    - apply Forall_forall. intros l Hl. unfold allow_lines in Hl. rewrite list_elem_of_omap in Hl. destruct Hl as (r & Hin & Hl).
      pose proof (proj1 (Forall_forall _ _) Hok r Hin) as Hp. cbn in Hp. unfold allow_line in Hl.
      repeat case_match; simplify_eq; cbn [ln_entry]; apply static_wf; auto.
      all: repeat match goal with
        | E : parse_cidr_words _ = Ok (_, ?a, _) |- wf_words ?a => apply parse_cidr_words_ok in E as (? & ? & _ & _ & [? _]%compiled_wf); done
        | E : parse_cidr_words _ = Ok (_, _, ?m) |- wf_words ?m => apply parse_cidr_words_ok in E as (? & ? & _ & _ & [_ ?]%compiled_wf); done
        | |- wf_words (full_mask ?fam) => destruct fam; repeat split; cbn; lia
        end. }
  apply Forall_bind. eapply Forall_impl; [exact H|]. intros l Hl. by apply line_side_wf.
Qed.
