(* ===== verification/EbpfRoute.v ===== *)
(** * EbpfRoute: the eBPF route against the evaluator

    The compiled tables, the program built for them and the record of a denial
    put together: a hook returns the verdict [evaluate] gives for the flow, and
    the audit line [emit_deny] of [src/src/warden/ebpf/supervisor.rs] writes for
    its record names the same decision and rule. *)

From S2P Require Import Prelude Text IpAddr PolicyHost PolicyCidr ProtectedSpace Outbound IpEval AllowList FlowGate Ebpf EbpfMachine EbpfAsm EbpfExec EbpfProgram EbpfEvents EbpfTheorems EbpfVerdict EbpfRules EbpfCompile.

Open Scope Z_scope.

(** ** The audit line of a denial *)

Definition event_meta (meta4 meta6 : list RuleMeta) (ev : DenyEvent) : option RuleMeta :=
  if (de_rule_idx ev =? RULE_IDX_NONE) || negb (Z.land (de_rule_idx ev) RULE_IDX_GRANT =? 0) then None
  else if de_family ev =? AF_INET then meta4 !! Z.to_nat (de_rule_idx ev)
  else if de_family ev =? AF_INET6 then meta6 !! Z.to_nat (de_rule_idx ev)
  else None.

Definition event_label (meta4 meta6 : list RuleMeta) (ev : DenyEvent) : string * option string :=
  match event_meta meta4 meta6 ev with
  | Some m => (rm_decision m, Some (rm_rule m))
  | None => ("not-allowed", None)
  end.

Definition proto_label (n : Z) : string :=
  if n =? IPPROTO_TCP then "tcp" else if n =? IPPROTO_UDP then "udp" else "unknown".

(** The [details] text of [sandbox.network_denied]. *)
Definition deny_details (meta4 meta6 : list RuleMeta) (session_id : string) (ev : DenyEvent) : string :=
  let '(decision, rule) := event_label meta4 meta6 ev in
  "layer=ip proto=" +:+ proto_label (de_proto ev) +:+ " dest=" +:+ from_option show_ip "?" (de_dest ev)
  +:+ " port=" +:+ show_dec (de_port ev) +:+ " pid=" +:+ show_dec (de_pid ev)
  +:+ " decision=" +:+ decision +:+ " session_id=" +:+ session_id
  +:+ from_option (λ r, " rule=" +:+ r) "" rule.

(** ** Records read back *)

(** The context names the flow of the destination. *)
Definition names_dest (kind : ProgKind) (sa : SockAddr) (dest : IpAddr) (proto : EgressProto) (port : Z) : Prop :=
  is_v6 kind = dest_v6 dest ∧ flow_of kind sa = flow_to dest proto port.

Lemma kind_family_dest kind dest : is_v6 kind = dest_v6 dest → kind_family kind = if is_ipv4 dest then AF_INET else AF_INET6.
Proof. unfold dest_v6. by destruct kind, dest. Qed.

Lemma le_bytes_value xs : Forall byte xs → le_bytes (length xs) (le_value xs) = xs.
Proof.
  induction 1 as [|b xs Hb _ IH]; [done|]. cbn [length le_value le_bytes]. unfold byte in Hb.
  by rewrite (Z.mul_comm 256), Z.mod_add, Z.div_add, Z.mod_small, Z.div_small, Z.add_0_l, IH by lia.
Qed.

Lemma to_words_bytes n xs : Forall byte xs → length xs = n → n = 4%nat ∨ n = 16%nat →
  take n (words_bytes (to_words xs)) = xs.
Proof.
  intros Hb Hl Hn. assert (∀ ys, Forall byte ys → length ys = 4%nat → le_bytes 4 (le_value ys) = ys) as Hw.
  { intros ys Hy Hly. rewrite <-Hly. by apply le_bytes_value. }
  unfold words_bytes, to_words. cbn [w0 w1 w2 w3]. destruct Hn as [->| ->].
  - rewrite take_app_le by (rewrite le_bytes_length; lia). rewrite Hw; [|by apply Forall_take|rewrite length_take; lia].
    by rewrite !take_ge by (rewrite ?length_take; lia).
  - rewrite !Hw; try (by repeat (apply Forall_take || apply Forall_drop)); try (rewrite length_take, ?length_drop; lia).
    rewrite !(take_ge (drop 12 xs)) by (rewrite length_drop; lia).
    rewrite take_ge by (rewrite !length_app, !length_take, !length_drop; lia).
    replace (drop 12 xs) with (drop 4 (drop 8 xs)) by (by rewrite drop_drop). rewrite take_drop.
    replace (drop 8 xs) with (drop 4 (drop 4 xs)) by (by rewrite drop_drop). by rewrite !take_drop.
Qed.

(** The event a record of [denial_record] parses to. *)
Definition event_of (kind : ProgKind) (sa : SockAddr) (idx pid : Z) : DenyEvent :=
  let f := flow_of kind sa in
  mkDenyEvent idx (kind_family kind) (fl_proto f) (fl_addr f) (fl_port_raw f) pid.

Lemma parse_denial_record kind sa idx pid : wf_flow (flow_of kind sa) → u32 idx → u64 pid →
  parse_event (denial_record kind sa idx pid) = Ok (event_of kind sa idx pid).
Proof.
  intros [(H0 & H1 & H2 & H3) [Hport Hproto]] Hidx Hpid. unfold parse_event, read_event, event_of, denial_record.
  set (f := flow_of kind sa) in *. assert (u32 (kind_family kind)) as Hk by by destruct kind.
  change (u32_at _ 0) with (le_value (le_bytes 4 EVENT_MAGIC)). change (u32_at _ 4) with (le_value (le_bytes 4 idx)).
  change (u32_at _ 8) with (le_value (le_bytes 4 (kind_family kind))). change (u32_at _ 12) with (le_value (le_bytes 4 (fl_proto f))).
  change (u32_at _ 16) with (le_value (le_bytes 4 (w0 (fl_addr f)))). change (u32_at _ 20) with (le_value (le_bytes 4 (w1 (fl_addr f)))).
  change (u32_at _ 24) with (le_value (le_bytes 4 (w2 (fl_addr f)))). change (u32_at _ 28) with (le_value (le_bytes 4 (w3 (fl_addr f)))).
  change (u32_at _ 32) with (le_value (le_bytes 4 (fl_port_raw f))). change (u64_at _ 40) with (le_value (le_bytes 8 pid)).
  rewrite le_value_u64, !le_value_u32 by done. rewrite Z.eqb_refl. by destruct (fl_addr f).
Qed.

Section record.
Context (kind : ProgKind) (sa : SockAddr) (dest : IpAddr) (proto : EgressProto) (port idx pid : Z).
Context (Hd : wf_ip dest) (Hport : 0 <= port < 65536) (Hn : names_dest kind sa dest proto port).
Local Notation ev := (event_of kind sa idx pid).

Lemma event_dest : de_dest ev = Some dest.
Proof.
  destruct Hn as [Hk Hf]. unfold de_dest, event_of. cbn [de_family de_addr]. rewrite (kind_family_dest _ _ Hk), Hf.
  pose proof (to_words_bytes _ _ (octets_bytes dest) (octets_length dest)) as Hw. pose proof (octets_value dest Hd) as Hv.
  cbn [flow_to fl_addr]. unfold ip_words. destruct dest as [a|a]; cbn [is_ipv4 width_bytes] in *; cbn [Z.eqb AF_INET AF_INET6 Pos.eqb].
  - do 2 f_equal. transitivity (be_value (ip_octets (V4 a))); [f_equal|exact Hv]. rewrite <-(Hw ltac:(auto)) at 2. unfold words_bytes. rewrite take_app_le by (by rewrite le_bytes_length). by rewrite take_ge by (by rewrite le_bytes_length).
  - do 2 f_equal. transitivity (be_value (ip_octets (V6 a))); [f_equal|exact Hv]. rewrite <-(Hw ltac:(auto)) at 2. rewrite take_ge; [done|].
    unfold words_bytes. by rewrite !length_app, !le_bytes_length.
Qed.

Lemma event_port : de_port ev = port.
Proof.
  destruct Hn as [_ Hf]. unfold de_port, event_of. cbn [de_port_raw]. rewrite Hf. cbn [flow_to fl_port_raw].
  pose proof (Z.mod_pos_bound port 256 ltac:(lia)). pose proof (Z.div_mod port 256 ltac:(lia)).
  assert (0 <= port / 256 < 256) by (split; [apply Z.div_pos; lia|apply Z.div_lt_upper_bound; lia]).
  assert (0 <= raw_port port < 65536) as Hr by (rewrite raw_port_value by done; lia).
  assert (as_u16 (raw_port port) = raw_port port) as -> by (unfold as_u16; by apply Z.mod_small).
  rewrite (raw_port_value (raw_port port)), (raw_port_value port) by done.
  clear Hr. generalize dependent (port / 256). generalize dependent (port mod 256). intros lo Hlo hi E Hhi.
  rewrite Z.div_add, Z.mod_add, (Z.div_small hi), (Z.mod_small hi) by lia. lia.
Qed.
End record.

(** ** The tables and the evaluator *)

Section agree.
Context (o : OutboundPolicy) (t : RuleTable) (Ht : compile o = Ok t).
Context (Hports : Forall (λ r, port_ok (eg_port r)) (egress_rules o)).
Context (dest : IpAddr) (proto : EgressProto) (port : Z).
Context (Hdest : wf_ip dest) (Hproto : proto ≠ AnyProto) (Hport : 0 <= port < 65536).
Local Notation v6 := (dest_v6 dest).
Local Notation f := (flow_to dest proto port).
Local Notation ev := (build o Unotify).
Local Notation endpoint := (socket_endpoint dest).

Lemma find_map_none {A B} (g : A → option B) xs : find_map g xs = None ↔ ∀ x, x ∈ xs → g x = None.
Proof.
  unfold find_map. induction xs as [|x xs IH]; cbn; [set_solver|]. setoid_rewrite elem_of_cons.
  destruct (g x) eqn:E; [split; [done|]; intros H; rewrite H in E by auto; done|]. rewrite IH. naive_solver.
Qed.

(** A deny decides exactly when one names the destination, either way. *)
Lemma deny_label_none : deny_label dest o = None ↔ not_denied ev dest.
Proof.
  unfold deny_label, not_denied. destruct (ev_denied_any ev); [naive_solver|].
  assert (∀ x y : option RuleMeta, or_label x y = None ↔ x = None ∧ y = None) as Hor by (intros [] []; naive_solver).
  rewrite Hor, !find_map_none. change (judged_endpoint ev dest) with endpoint.
  assert (∀ x, ip_denied ev x ↔ policy_denies o x) as Hb by (intros; apply build_denied). rewrite !Hb.
  unfold policy_denies, host_label, cidr_label, covers. split.
  - intros [Hh Hc]. split_and!; [done| |].
    all: intros [(h & Hin & Hp)|(c & Hin & Hp)]; [specialize (Hh h Hin); rewrite Hp in Hh; cbn in Hh; case_bool_decide; naive_solver|].
    all: specialize (Hc c Hin); rewrite Hp in Hc; by rewrite ?orb_true_r in Hc.
  - intros (_ & Hd & He). split.
    + intros h Hin. destruct (parse_ip h) as [ip|] eqn:Ep; [|done]. cbn. case_bool_decide as E; [|done].
      destruct E as [->| ->]; exfalso; [apply Hd|apply He]; eauto.
    + intros c Hin. destruct (cidr_contains c dest) eqn:E1; [exfalso; apply Hd; eauto|].
      destruct (cidr_contains c endpoint) eqn:E2; [exfalso; apply He; eauto|done].
Qed.

(** An allow of the evaluator is a rule that names the reached endpoint. *)
Lemma find_allow : is_Some (List.find (rule_covers endpoint proto port) (ev_allows ev))
  ↔ ∃ r, r ∈ egress_rules o ∧ rule_names proto port r endpoint = true.
Proof.
  rewrite find_some_iff. cbn [ev_allows build]. split.
  - intros (a & Ha & Hc). rewrite list_elem_of_omap in Ha. destruct Ha as (r & Hin & Hp). exists r. split; [done|].
    revert Hp Hc. unfold project_rule, rule_covers, rule_names, covers_flow. destruct (eg_allow r); [|done]. cbn [negb andb].
    destruct (eg_dest r) as [h|c|u]; cbn [dest_names]; [case_bool_decide; [|destruct (parse_ip h) as [ip|] eqn:Ei]| |done];
      intros [= <-]; cbn; rewrite ?Ei, <-?andb_assoc; try done.
    case_bool_decide; [|done]. subst. by rewrite bool_decide_eq_true_2.
  - intros (r & Hin & Hn). unfold rule_names, covers_flow in Hn.
    assert (∃ a, project_rule r = Some a ∧ rule_covers endpoint proto port a = true) as (a & Ha & Hc).
    { unfold project_rule, rule_covers. destruct (eg_allow r); [|done]. cbn [negb andb] in *.
      destruct (eg_dest r) as [h|c|u]; cbn [dest_names] in Hn; [case_bool_decide; [|destruct (parse_ip h) as [ip|] eqn:Ei]| |done];
        eexists; (split; [done|]); cbn in *; rewrite <-?andb_assoc; try done.
      case_bool_decide as E; [|done]. injection E as ->. by rewrite bool_decide_eq_true_2. }
    exists a. rewrite list_elem_of_omap. eauto.
Qed.

Section grants.
Context (now : Z) (G : list RuleEntry) (names : list string).
Local Notation covered := (granted v6 f now G).
(** A loaded grant never covers a protected endpoint. *)
Context (HG : covered = true → endpoint_is_protected endpoint = false).
Local Notation table_verdict := (scan_verdict v6 (rt_default_allow t) f now (table_entries v6 t) G).

Lemma table_verdict_iff : table_verdict = true ↔
  not_denied ev dest ∧ (some_rule_names dest proto port o = true ∨ covered = true ∨ deny_all_others o = false).
Proof.
  rewrite <-deny_label_none. pose proof (table_scan dest proto port Hdest Hproto Hport o t Ht Hports) as Hs.
  destruct (compile_lines o t Ht) as (_ & _ & Hdef & _). unfold scan_verdict. rewrite Hdef.
  destruct (deny_label dest o) as [m|].
  - destruct Hs as (j & e & -> & -> & _). naive_solver.
  - destruct (some_rule_names dest proto port o).
    + destruct Hs as (j & e & -> & ->). naive_solver.
    + rewrite Hs, orb_true_iff, negb_true_iff. naive_solver.
Qed.

Lemma evaluator_verdict_iff : is_allow (evaluate ev dest proto port names covered) = true ↔
  not_denied ev dest ∧ ((∃ r, r ∈ egress_rules o ∧ rule_names proto port r endpoint = true)
                        ∨ covered = true ∨ deny_all_others o = false).
Proof.
  rewrite evaluate_allow_iff, <-find_allow. change (judged_endpoint ev dest) with endpoint. change (is_proxy ev) with false.
  destruct (List.find _ (ev_allows ev)) as [r|]; cbn [andb].
  - split; intros [? _]; split; try done. left. by eexists.
  - split; intros [? H]; (split; [done|]).
    + destruct H as [[H _]|[H _]]; auto.
    + destruct H as [[? ?]|[H|H]]; [done| |right; auto]. left. split; [done|]. by apply HG.
Qed.

(** The verdict of the tables is the evaluator's, or the destination is spelled
    as a rule names it while what it reaches is not. *)
Lemma table_evaluator : table_verdict = true ↔
  is_allow (evaluate ev dest proto port names covered) = true
  ∨ (not_denied ev dest ∧ ∃ r, r ∈ egress_rules o ∧ rule_names proto port r dest = true).
Proof.
  rewrite table_verdict_iff, evaluator_verdict_iff. unfold some_rule_names. rewrite existsb_true_iff.
  setoid_rewrite orb_true_iff. naive_solver.
Qed.

Lemma table_evaluator_canonical : endpoint = dest → table_verdict = is_allow (evaluate ev dest proto port names covered).
Proof.
  intros E. apply eq_true_iff_eq. rewrite table_evaluator. split; [|by left]. intros [H|(Hn & r & Hr & Hnm)]; [done|].
  rewrite evaluator_verdict_iff, E. split; [done|]. left. eauto.
Qed.

(** The decision and the rule the evaluator reports are those of the entry. *)
Lemma evaluator_label d rule : endpoint = dest → evaluate ev dest proto port names covered = IpDeny d rule →
  (d, rule) = match deny_label dest o with Some m => (rm_decision m, Some (rm_rule m)) | None => ("not-allowed", None) end.
Proof.
  intros E Hv. pose proof deny_label_none as Hnone. unfold evaluate in Hv. change (judged_endpoint ev dest) with endpoint in Hv.
  rewrite E, bool_decide_eq_true_2 in Hv by done. unfold deny_label in *.
  destruct (ev_denied_any ev); [by injection Hv as <- <-|].
  cbn [deny_scan] in Hv. unfold host_label, cidr_label, covers in *. rewrite E in *.
  destruct (decide (dest ∈ ev_denied_literals ev)) as [Hl|Hl];
    [rewrite bool_decide_eq_true_2 in Hv by done|rewrite bool_decide_eq_false_2 in Hv by done].
  - injection Hv as <- <-. cbn [ev_denied_literals build] in Hl. rewrite list_elem_of_omap in Hl.
    destruct Hl as (h & Hin & Hp). clear -Hin Hp. unfold find_map. induction (denied_hosts o) as [|h' hs IH]; [by apply elem_of_nil in Hin|].
    cbn. destruct (parse_ip h') as [ip|] eqn:Eh; cbn.
    + case_bool_decide as Ed; [by destruct Ed as [->| ->]|]. apply elem_of_cons in Hin as [<-|Hin]; [|by apply IH]. exfalso. naive_solver.
    + apply elem_of_cons in Hin as [<-|Hin]; [congruence|by apply IH].
  - assert (find_map (λ h, ip ← parse_ip h; if bool_decide (ip = dest ∨ ip = dest) then Some (mkMeta "deny-host" (show_ip ip)) else None)
      (denied_hosts o) = None) as Hh.
    { apply find_map_none. intros h Hin. destruct (parse_ip h) as [ip|] eqn:Ep; [|done]. cbn. case_bool_decide as Ed; [|done].
      exfalso. apply Hl. cbn. rewrite list_elem_of_omap. exists h. naive_solver. }
    rewrite Hh in *. cbn [or_label] in *. change (ev_denied_cidrs ev) with (denied_cidrs o) in Hv.
    assert (find_map (λ c, if cidr_contains c dest || cidr_contains c dest then Some (mkMeta "deny-cidr" c) else None) (denied_cidrs o)
      = mkMeta "deny-cidr" <$> List.find (λ c, cidr_contains c dest) (denied_cidrs o)) as Hc.
    { clear. unfold find_map. induction (denied_cidrs o) as [|c cs IH]; cbn; [done|]. by destruct (cidr_contains c dest). }
    rewrite Hc in *. destruct (List.find _ (denied_cidrs o)) as [c|]; [by injection Hv as <- <-|]. cbn.
    change (is_proxy ev) with false in Hv. cbn [andb] in Hv.
    destruct (List.find _ (ev_allows ev)); [done|]. destruct covered eqn:Eg; cbn [andb] in Hv.
    + rewrite HG in Hv by done. done.
    + destruct (ev_deny_all_others ev); [by injection Hv as <- <-|done].
Qed.
End grants.
End agree.

(** ** The route *)

Lemma first_match_bound v6 f es : ∀ i j e, first_match v6 f i es = Some (j, e) → (i ≤ j < i + length es)%nat.
Proof.
  induction es as [|x es IH]; intros i j e; cbn; [done|]. destruct (entry_matches v6 f x); [intros [= <- _]; lia|].
  intros H%IH. lia.
Qed.

Lemma static_index_label t kind sa j pid m : (j < MAX_RULES_PER_MAP)%nat → table_meta (is_v6 kind) t !! j = Some m →
  event_label (rt_meta_v4 t) (rt_meta_v6 t) (event_of kind sa (Z.of_nat j) pid) = (rm_decision m, Some (rm_rule m)).
Proof.
  intros Hj Hm. unfold event_label, event_meta, event_of. cbn [de_rule_idx de_family]. unfold MAX_RULES_PER_MAP in Hj.
  assert (Z.land (Z.of_nat j) RULE_IDX_GRANT = 0) as ->.
  { apply Z.bits_inj'. intros k Hk. rewrite Z.land_spec, Z.testbit_0_l. change RULE_IDX_GRANT with (2 ^ 31). rewrite Z.pow2_bits_eqb by lia.
    destruct (Z.eqb_spec 31 k) as [<-|]; [|by rewrite andb_false_r]. rewrite (testbit_above 7) by lia. done. }
  destruct (Z.eqb_spec (Z.of_nat j) RULE_IDX_NONE) as [E|_]; [unfold RULE_IDX_NONE in E; lia|]. cbn [orb negb Z.eqb].
  rewrite Nat2Z.id. unfold table_meta in Hm. destruct kind; cbn in *; by rewrite Hm.
Qed.

(** [C7] The eBPF route refines the evaluator: compile a policy none of whose
    rules names port 0 (which the compiled entry reads as any port,
    [port_zero_widens]), attach the generated program to a hook whose socket
    address names a destination, and let the grant map rest on entries none of
    which covers a protected endpoint. On every destination that is not
    IPv4-mapped, the kernel's verdict is the verdict [evaluate] gives the same
    flow with the map's live grants: allowed without effect, or refused with
    one denial whose record is audited under exactly the decision and the rule
    the evaluator reports. *)
Theorem hook_refines_evaluator o t w kind maps slots sa dest proto port G names :
  compile o = Ok t → Forall (λ r, port_ok (eg_port r)) (egress_rules o) →
  hooked w maps (table_entries (is_v6 kind) t) slots sa → (slots ≤ GRANT_SLOTS)%nat → nameless kind sa = false →
  names_dest kind sa dest proto port → wf_ip dest → proto ≠ AnyProto → 0 <= port < 65536 →
  socket_endpoint dest = dest → at_rest w G →
  (∀ now, granted (is_v6 kind) (flow_to dest proto port) now G = true → endpoint_is_protected dest = false) →
  ∃ prog r out now,
    build_prog kind maps (table_entries (is_v6 kind) t) slots (rt_default_allow t) = Some prog
    ∧ runs_to w prog r out ∧ wall_clock w now
    ∧ match evaluate (build o Unotify) dest proto port names (granted (is_v6 kind) (flow_to dest proto port) now G) with
      | IpAllow _ _ => r = 1 ∧ out = []
      | IpDeny decision rule => r = 0 ∧ ∃ idx, denial w kind sa idx out ∧ ∀ pid,
          event_label (rt_meta_v4 t) (rt_meta_v6 t) (event_of kind sa idx pid) = (decision, rule)
      end.
Proof.
  intros Ht Hports H Hslots Hnl [Hk Hf] Hd Hpr Hpt Hep HG Hprot. rewrite Hk in *.
  assert ((length (table_entries (dest_v6 dest) t) ≤ MAX_RULES_PER_MAP)%nat) as Hlen
    by by destruct (compile_lines o t Ht) as (rows & _ & _ & Hs); destruct (Hs (dest_v6 dest)) as (_ & _ & ?).
  destruct (hook_runs w kind maps _ slots sa (rt_default_allow t) H Hlen Hslots) as (prog & r & out & E & Hr & Ho).
  apply outcome_verdict in Ho as (now & Hnow & Hcase & Hrest); [|done]. rewrite Hk, Hf in Hcase, Hrest.
  exists prog, r, out, now. split_and!; [done..|]. specialize (Hrest G HG).
  assert (∀ b, granted (dest_v6 dest) (flow_to dest proto port) now G = b → b = true → endpoint_is_protected (socket_endpoint dest) = false)
    as HP by (intros b Hb ->; rewrite Hep; by eapply Hprot).
  rewrite (table_evaluator_canonical o t Ht Hports dest proto port Hd Hpr Hpt now G names (HP _ eq_refl) Hep) in Hrest.
  destruct (evaluate _ _ _ _ _ _) as [b rule|d rule] eqn:Ev; cbn [is_allow Z.b2z] in Hrest; (destruct Hcase as [[-> ->]|[-> Hden]]; [|]; try done).
  split; [done|]. eexists. split; [exact Hden|]. intros pid. symmetry.
  rewrite (evaluator_label o t Ht Hports dest proto port Hd Hpr Hpt now G names (HP _ eq_refl) d rule Hep Ev).
  pose proof (table_scan dest proto port Hd Hpr Hpt o t Ht Hports) as Hs. unfold deciding_index.
  destruct (deny_label dest o) as [m|] eqn:El.
  - destruct Hs as (j & e & Hj & _ & Hm). rewrite Hj. symmetry. apply static_index_label; [|by rewrite Hk].
    apply first_match_bound in Hj. lia.
  - destruct (some_rule_names dest proto port o) eqn:Es; [|by rewrite Hs].
    exfalso. apply (deny_label_none o t Ht Hports dest proto port Hd Hpr Hpt) in El.
    assert (is_allow (evaluate (build o Unotify) dest proto port names (granted (dest_v6 dest) (flow_to dest proto port) now G)) = true) as Ha.
    { rewrite <-(table_evaluator_canonical o t Ht Hports dest proto port Hd Hpr Hpt now G names (HP _ eq_refl) Hep).
      rewrite table_verdict_iff by (done || apply (HP _ eq_refl)). auto. }
    by rewrite Ev in Ha.
Qed.

(** What the compiled tables admit, on every destination: the evaluator's
    verdict, and beyond it exactly the flows no deny refuses whose destination
    an allow rule names as it is spelled.  The two differ only on an
    IPv4-mapped IPv6 destination an IPv6 rule covers: the hook matches the
    mapped spelling, the evaluator judges the IPv4 endpoint it reaches. *)
Lemma table_route_exact o t dest proto port now G names :
  compile o = Ok t → Forall (λ r, port_ok (eg_port r)) (egress_rules o) →
  wf_ip dest → proto ≠ AnyProto → 0 <= port < 65536 →
  (granted (dest_v6 dest) (flow_to dest proto port) now G = true → endpoint_is_protected (socket_endpoint dest) = false) →
  scan_verdict (dest_v6 dest) (rt_default_allow t) (flow_to dest proto port) now (table_entries (dest_v6 dest) t) G = true
  ↔ is_allow (evaluate (build o Unotify) dest proto port names (granted (dest_v6 dest) (flow_to dest proto port) now G)) = true
    ∨ (not_denied (build o Unotify) dest ∧ ∃ r, r ∈ egress_rules o ∧ rule_names proto port r dest = true).
Proof. intros. by apply table_evaluator. Qed.

(** [C39] The audit line of a kernel denial: the record the program submits for a
    flow parses, and its [details] text names the flow's own transport,
    destination, port and process, with the label of the entry it indexes. *)
Theorem denial_audited kind sa dest proto port idx pid meta4 meta6 session_id :
  wf_flow (flow_of kind sa) → names_dest kind sa dest proto port → wf_ip dest → proto ≠ AnyProto → 0 <= port < 65536 →
  u32 idx → u64 pid →
  ∃ ev, parse_event (denial_record kind sa idx pid) = Ok ev
    ∧ deny_details meta4 meta6 session_id ev =
      let '(decision, rule) := event_label meta4 meta6 (event_of kind sa idx pid) in
      "layer=ip proto=" +:+ EgressProto_as_str proto +:+ " dest=" +:+ show_ip dest +:+ " port=" +:+ show_dec port
      +:+ " pid=" +:+ show_dec (pid / 2 ^ 32) +:+ " decision=" +:+ decision +:+ " session_id=" +:+ session_id
      +:+ from_option (λ r, " rule=" +:+ r) "" rule.
Proof.
  intros Hwf Hn Hd Hpr Hpt Hidx Hpid. exists (event_of kind sa idx pid). split; [by apply parse_denial_record|].
  unfold deny_details. destruct (event_label _ _ _) as [decision rule].
  rewrite (event_dest kind sa dest proto port idx pid Hd Hn), (event_port kind sa dest proto port idx pid Hpt Hn).
  destruct Hn as [_ Hf]. unfold event_of, de_pid. cbn [de_proto de_pid_tgid from_option]. rewrite Hf, Z.shiftr_div_pow2 by lia.
  by destruct proto.
Qed.

(** *** A rule on port 0 *)

Definition port_zero_policy (dest : IpAddr) : OutboundPolicy :=
  mkOutbound [] [] [] [] [] [] true [mkEgress true (Host (show_ip dest)) Tcp (Some 0)].

(** An allow on port 0 is an allow on every port: [rule.port] 0 compiles to
    the encoding of no port qualifier, so the table admits the address on every
    port, while the evaluator refuses every port but 0. *)
Lemma port_zero_widens dest port now :
  wf_ip dest → socket_endpoint dest = dest → 0 < port < 65536 →
  ∃ t, compile (port_zero_policy dest) = Ok t
    ∧ scan_verdict (dest_v6 dest) (rt_default_allow t) (flow_to dest Tcp port) now (table_entries (dest_v6 dest) t) [] = true
    ∧ evaluate (build (port_zero_policy dest) Unotify) dest Tcp port [] false = IpDeny "not-allowed" None.
Proof.
  intros Hd He Hp. destruct (parse_cidr_words_literal dest Hd) as (a & Ea & Hc).
  assert (show_ip dest ≠ "*") as Hstar by (intros E; pose proof (show_ip_chars dest) as H; by rewrite E in H).
  set (e := static_entry a (full_mask (family_of_ip dest)) 6 0 ACTION_ALLOW).
  assert (∃ t, compile (port_zero_policy dest) = Ok t ∧ rt_default_allow t = false
    ∧ table_entries (dest_v6 dest) t = side (dest_v6 dest) (family_of_ip dest) e) as (t & Ht & Hdef & Htab).
  { unfold compile, port_zero_policy, deny_rows, push_allow. cbn [denied_hosts denied_cidrs existsb fold_result result_bind egress_rules stored_rules].
    unfold egress_rules. cbn [stored_rules]. rewrite bool_decide_eq_true_2 by done. cbn [fold_result eg_allow eg_dest eg_proto eg_port negb].
    rewrite (bool_decide_eq_false_2 (show_ip dest = "*")), parse_show_ip by done. rewrite Ea. cbn [result_bind].
    by destruct dest; eexists. }
  exists t. split; [done|]. split.
  - unfold scan_verdict. rewrite Htab.
    pose proof (side_matches dest (width dest) a (full_mask (family_of_ip dest)) dest e Hd Hd
      ltac:(pose proof (max_prefix_range dest); unfold width; lia) Hc eq_refl eq_refl) as Hm.
    assert (masked_eq dest dest (width dest) = true) as Hself.
    { apply masked_eq_iff; [done..| |apply same_net_refl]. pose proof (max_prefix_range dest). unfold width. lia. }
    rewrite Hself in Hm. cbn [orb] in Hm.
    pose proof (side_entry_matches (dest_v6 dest) (flow_to dest Tcp port) (family_of_ip dest) e) as Hs. cbn [fl_addr flow_to] in Hs.
    rewrite Hm in Hs. by destruct dest; cbn [side family_of_ip is_ipv4 dest_v6 negb existsb] in *; rewrite orb_false_r in Hs; cbn [first_match]; rewrite Hs.
  - unfold evaluate. change (judged_endpoint _ dest) with (socket_endpoint dest). rewrite He, bool_decide_eq_true_2 by done.
    cbn [build ev_denied_any port_zero_policy denied_hosts existsb deny_scan ev_denied_literals ev_denied_cidrs denied_cidrs omap list_omap List.find].
    rewrite (bool_decide_eq_false_2 (dest ∈ [])) by set_solver.
    assert (ev_allows (build (port_zero_policy dest) Unotify) =
      [mkAllow (ADLiteral dest) Tcp (Some 0) (describe (mkEgress true (Host (show_ip dest)) Tcp (Some 0)))]) as ->.
    { cbn. unfold project_rule. cbn [eg_allow negb eg_dest eg_proto eg_port].
      by rewrite (bool_decide_eq_false_2 (show_ip dest = "*")), parse_show_ip by done. }
    cbn [List.find]. unfold rule_covers. cbn [ar_dest dest_matches ar_proto ar_port is_none_or].
    destruct (Z.eqb_spec 0 port); [lia|]. by rewrite andb_false_r.
Qed.

(** ** Witnesses *)

(** A policy with a denied range, a denied literal inside the allowed range and
    an allowed range on one port. *)
Definition demo_policy : OutboundPolicy :=
  mkOutbound [] [] [] [] ["192.0.2.7"] ["10.0.0.0/8"] true [mkEgress true (Cidr "192.0.2.0/24") Tcp (Some 443)].
Definition demo_table : RuleTable :=
  match compile demo_policy with Ok t => t | Err _ => mkTable [] [] false [] [] end.

Lemma demo_compiles : compile demo_policy = Ok demo_table.
Proof. by vm_compute. Qed.
Lemma demo_ports : Forall (λ r, port_ok (eg_port r)) (egress_rules demo_policy).
Proof. constructor; [|constructor]. intros p [= <-]. lia. Qed.
Lemma demo_table_wf : Forall wf_entry (rt_v4 demo_table).
Proof. apply (compile_wf demo_policy demo_table false demo_compiles demo_ports). Qed.
Lemma demo_names : names_dest V4Connect demo_sock (V4 0xc0000207) Tcp 443.
Proof. by split; vm_compute. Qed.

Lemma hook_refines_evaluator_witness :
  ∃ prog r out idx, build_prog V4Connect demo_maps (rt_v4 demo_table) 1 false = Some prog
    ∧ runs_to (still (demo_kernel demo_sock (rt_v4 demo_table) [grant_sentinel])) prog r out
    ∧ r = 0 ∧ denial (still (demo_kernel demo_sock (rt_v4 demo_table) [grant_sentinel])) V4Connect demo_sock idx out
    ∧ ∀ pid, event_label (rt_meta_v4 demo_table) (rt_meta_v6 demo_table) (event_of V4Connect demo_sock idx pid)
             = ("deny-host", Some "192.0.2.7").
Proof.
  destruct (hook_refines_evaluator demo_policy demo_table
    (still (demo_kernel demo_sock (rt_v4 demo_table) [grant_sentinel])) V4Connect demo_maps 1 demo_sock (V4 0xc0000207) Tcp 443
    [grant_sentinel] [] demo_compiles demo_ports) as (prog & r & out & now & E & Hr & _ & Hv).
  - apply (demo_hooked demo_sock (rt_v4 demo_table) [grant_sentinel]); [|apply demo_table_wf|repeat constructor; done].
    by repeat split; cbn; lia.
  - unfold GRANT_SLOTS. lia.
  - reflexivity.
  - apply demo_names.
  - by split.
  - done.
  - lia.
  - reflexivity.
  - apply demo_at_rest.
  - reflexivity.
  - assert (∀ b, evaluate (build demo_policy Unotify) (V4 0xc0000207) Tcp 443 [] b = IpDeny "deny-host" (Some "192.0.2.7")) as Hev
      by (intros []; by vm_compute).
    rewrite Hev in Hv. destruct Hv as [-> (idx & Hden & Hl)]. exists prog, 0, out, idx.
    exact (conj E (conj Hr (conj eq_refl (conj Hden Hl)))).
Defined.

Definition demo_v6_policy : OutboundPolicy :=
  mkOutbound [] [] [] [] [] [] true [mkEgress true (Cidr "::/0") Tcp None].

Definition demo_v6_table : RuleTable :=
  match compile demo_v6_policy with Ok t => t | Err _ => mkTable [] [] false [] [] end.
Lemma demo_v6_compiles : compile demo_v6_policy = Ok demo_v6_table.
Proof. by vm_compute. Qed.

(** A policy for IPv6 only admits 192.0.2.7 under its mapped spelling. *)
Lemma mapped_destination_admitted :
  ∃ t, compile demo_v6_policy = Ok t
    ∧ scan_verdict true (rt_default_allow t) (flow_to (V6 (mapped_of 0xc0000207)) Tcp 443) 1 (rt_v6 t) [] = true
    ∧ is_allow (evaluate (build demo_v6_policy Unotify) (V6 (mapped_of 0xc0000207)) Tcp 443 [] false) = false.
Proof.
  exists demo_v6_table. split; [exact demo_v6_compiles|]. split; [|by vm_compute].
  apply (table_route_exact demo_v6_policy demo_v6_table (V6 (mapped_of 0xc0000207)) Tcp 443 1 [] [] demo_v6_compiles).
  - constructor; [|constructor]. by intros p [=].
  - by split.
  - done.
  - lia.
  - done.
  - right. split; [split_and!; [done| |]; intros [H|(c & H & _)]; by apply elem_of_nil in H|].
    eexists. split; [apply list_elem_of_singleton; reflexivity|by vm_compute].
Qed.

Lemma denial_audited_witness : ∃ ev, parse_event (denial_record V4Connect demo_sock 0 (2 ^ 32)) = Ok ev
  ∧ deny_details (rt_meta_v4 demo_table) (rt_meta_v6 demo_table) "s" ev =
    "layer=ip proto=tcp dest=192.0.2.7 port=443 pid=1 decision=deny-host session_id=s rule=192.0.2.7".
Proof.
  destruct (denial_audited V4Connect demo_sock (V4 0xc0000207) Tcp 443 0 (2 ^ 32) (rt_meta_v4 demo_table) (rt_meta_v6 demo_table) "s")
    as (ev & E & Hd).
  - by repeat split; cbn; lia.
  - apply demo_names.
  - by split.
  - done.
  - lia.
  - by split.
  - by split.
  - exists ev. split; [done|]. rewrite Hd. by vm_compute.
Defined.
