(* ===== verification/EbpfGrants.v ===== *)
(** * EbpfGrants: the grant-map writer and its seqlock

    [src/src/warden/ebpf/supervisor.rs]: flattening and writing the grants;
    and that a hook which reads the maps while they are rewritten authorizes a
    flow only from one consistent snapshot. *)

From S2P Require Import Prelude Text IpAddr PolicyHost PolicyCidr Outbound Ebpf EbpfMachine.
From S2P Require Import EbpfRules ProtectedSpace AllowList FlowGate EbpfAsm.
From S2P Require Import EbpfExec EbpfProgram EbpfEvents EbpfTheorems.
From S2P Require Import EbpfVerdict EbpfCompile EbpfRoute.

Open Scope Z_scope.

Record SnapshotGrant := mkSnapshotGrant {
  sg_addr : IpAddr;
  sg_name : string;
  sg_expires : Z;
  sg_quals : list GrantQual;
}.

Definition load_grants_filtered (grants : list SnapshotGrant) : list SnapshotGrant :=
  List.filter (λ g, negb (endpoint_is_protected (dialed_endpoint (sg_addr g)))) grants.

(** ** Flattening *)

Definition Flat : Type := list RuleEntry * list RuleEntry * Z.

Definition flatten_entry (acc : Flat) (x : Family * RuleEntry) : Flat :=
  let '(e4, e6, dropped) := acc in
  match x with
  | (FamV4, e) => if (length e4 <? GRANT_SLOTS)%nat then (e4 ++ [e], e6, dropped) else (e4, e6, dropped + 1)
  | (FamV6, e) => if (length e6 <? GRANT_SLOTS)%nat then (e4, e6 ++ [e], dropped) else (e4, e6, dropped + 1)
  end.

Definition entries_of (g : SnapshotGrant) : list (Family * RuleEntry) :=
  default [] (grant_entries (sg_addr g) (sg_quals g) (sg_expires g)).

Definition flatten_grants (grants : list SnapshotGrant) : Flat :=
  foldl flatten_entry ([], [], 0) (grants ≫= entries_of).

(** ** The maps *)

Record GrantMaps := mkGrantMaps { gm_v4 : list RuleEntry; gm_v6 : list RuleEntry; gm_seq : Z }.

Inductive MapWrite :=
  | WSlot (fam : Family) (i : nat) (e : RuleEntry)
  | WSeq (v : Z).

Definition slots_of (fam : Family) (m : GrantMaps) : list RuleEntry :=
  match fam with FamV4 => gm_v4 m | FamV6 => gm_v6 m end.

Definition apply_write (m : GrantMaps) (wr : MapWrite) : GrantMaps :=
  match wr with
  | WSlot FamV4 i e => mkGrantMaps (<[i := e]> (gm_v4 m)) (gm_v6 m) (gm_seq m)
  | WSlot FamV6 i e => mkGrantMaps (gm_v4 m) (<[i := e]> (gm_v6 m)) (gm_seq m)
  | WSeq v => mkGrantMaps (gm_v4 m) (gm_v6 m) v
  end.
Definition replay (m : GrantMaps) (log : list MapWrite) : GrantMaps := foldl apply_write m log.

(** The maps as [Runtime::prepare] leaves them. *)
Definition prepared : GrantMaps :=
  mkGrantMaps (replicate GRANT_SLOTS grant_sentinel) (replicate GRANT_SLOTS grant_sentinel) 0.

(** ** The writer *)

Record Writer := mkWriter { wr_maps : GrantMaps; wr_log : list MapWrite; wr_calls : nat }.

Section writer.
(** Whether the [n]th map call succeeds. *)
Context (sys : nat → bool).

Definition map_lookup (w : Writer) : bool * Writer :=
  (sys (wr_calls w), mkWriter (wr_maps w) (wr_log w) (S (wr_calls w))).
Definition map_update (w : Writer) (wr : MapWrite) : bool * Writer :=
  if sys (wr_calls w)
  then (true, mkWriter (apply_write (wr_maps w) wr) (wr_log w ++ [wr]) (S (wr_calls w)))
  else (false, mkWriter (wr_maps w) (wr_log w) (S (wr_calls w))).
(** An update the source makes under a condition. *)
Definition update_if (b : bool) (w : Writer) (wr : MapWrite) : bool * Writer :=
  if b then map_update w wr else (true, w).

Definition dead (e : RuleEntry) : RuleEntry :=
  mkEntry (re_addr e) (re_mask e) (re_proto e) (re_port_raw e) (re_action e) (re_pad e) 1.

Definition write_slot (fam : Family) (new : RuleEntry) (i : nat) (w : Writer) : bool * Writer :=
  let '(ok, w) := map_lookup w in
  if negb ok then (false, w)
  else
    let old := default grant_sentinel (slots_of fam (wr_maps w) !! i) in
    if bool_decide (old = new) then (true, w)
    else
      let p1 := dead old in
      let '(ok, w) := update_if (bool_decide (p1 ≠ old)) w (WSlot fam i p1) in
      if negb ok then (false, w)
      else
        let p2 := dead new in
        let '(ok, w) := update_if (bool_decide (p2 ≠ p1)) w (WSlot fam i p2) in
        if negb ok then (false, w)
        else update_if (bool_decide (new ≠ p2)) w (WSlot fam i new).

(** The loop over the slots from [i] on, [n] of them. *)
Fixpoint write_slots (fam : Family) (entries : list RuleEntry) (i n : nat) (w : Writer) : bool * Writer :=
  match n with
  | O => (true, w)
  | S n =>
      let '(ok, w) := write_slot fam (default grant_sentinel (entries !! i)) i w in
      if ok then write_slots fam entries (S i) n w else (false, w)
  end.
Definition write_all (fam : Family) (entries : list RuleEntry) (w : Writer) : bool * Writer :=
  write_slots fam entries 0 GRANT_SLOTS w.

Definition write_grant_maps (grants : list SnapshotGrant) (w : Writer) : option (nat * Z) * Writer :=
  let '(e4, e6, dropped) := flatten_grants grants in
  let '(ok, w) := map_lookup w in
  if negb ok then (None, w)
  else
    let seq := gm_seq (wr_maps w) in
    let '(ok, w) := map_update w (WSeq (Z.lor seq 1)) in
    if negb ok then (None, w)
    else
      let '(ok4, w) := write_all FamV4 e4 w in
      let '(slots_ok, w) := if ok4 then write_all FamV6 e6 w else (false, w) in
      let '(seq_ok, w) := map_update w (WSeq ((Z.lor seq 1 + 1) mod 2 ^ 64)) in
      (if slots_ok && seq_ok then Some ((length e4 + length e6)%nat, dropped) else None, w).

(** A resync: the snapshot loaded, filtered and written. *)
Definition sync_grants (w : Writer) (snapshot : list SnapshotGrant) : Writer :=
  (write_grant_maps (load_grants_filtered snapshot) w).2.
Definition resyncs (snapshots : list (list SnapshotGrant)) : Writer :=
  foldl sync_grants (mkWriter prepared [] 0) snapshots.
End writer.

(** ** Worlds *)

(** A hook of the family runs while the log is written: each instant sees the
    maps after some number of writes, and the slot of the write in progress
    with any words at all. *)
Definition follows (w : World) (fam : Family) (log : list MapWrite) (pos : nat → nat) : Prop :=
  (∀ t u, (t ≤ u)%nat → (pos t ≤ pos u)%nat) ∧
  ∀ t, let m := replay prepared (take (pos t) log) in
    k_seq (w t) = Some (gm_seq m)
    ∧ (k_grants (w t) = slots_of fam m
       ∨ ∃ i e torn, log !! pos t = Some (WSlot fam i e) ∧ k_grants (w t) = <[i := torn]> (slots_of fam m)).

(** ** Logs *)

(** The writes between two states of the writer. *)
Definition writes (w w' : Writer) (ls : list MapWrite) : Prop :=
  wr_log w' = wr_log w ++ ls ∧ wr_maps w' = replay (wr_maps w) ls.

Lemma writes_nil w n : writes w (mkWriter (wr_maps w) (wr_log w) n) [].
Proof. split; cbn; [by rewrite app_nil_r|done]. Qed.
Lemma writes_refl w : writes w w [].
Proof. split; [by rewrite app_nil_r|done]. Qed.
Lemma writes_app w w1 w2 a b : writes w w1 a → writes w1 w2 b → writes w w2 (a ++ b).
Proof. intros [L1 M1] [L2 M2]. split; [by rewrite L2, L1, app_assoc|]. unfold replay. by rewrite M2, M1, foldl_app. Qed.

(** Writes of slots of one family whose entries are in [P]. *)
Definition slot_write (fam : Family) (P : RuleEntry → Prop) (wr : MapWrite) : Prop :=
  ∃ i e, wr = WSlot fam i e ∧ P e.

Section protocol.
Context (sys : nat → bool).

Lemma map_update_writes w wr b w' : map_update sys w wr = (b, w') →
  writes w w' (if b then [wr] else []).
Proof. unfold map_update. destruct (sys _); intros [= <- <-]; [by split|apply writes_nil]. Qed.

Lemma update_if_writes c w wr b w' : update_if sys c w wr = (b, w') → ∃ ls, writes w w' ls ∧ (ls = [] ∨ ls = [wr]).
Proof.
  unfold update_if. destruct c.
  - intros E%map_update_writes. destruct b; eauto.
  - intros [= <- <-]. exists []. split; [apply writes_refl|auto].
Qed.

(** Each slot passes through dead entries only, up to its new one. *)
Lemma write_slot_writes fam new i w b w' : write_slot sys fam new i w = (b, w') →
  ∃ ls, writes w w' ls ∧ Forall (slot_write fam (λ e, re_expires_at_ns e = 1 ∨ e = new)) ls.
Proof.
  unfold write_slot. cbn [map_lookup fst snd]. set (w1 := mkWriter _ _ _).
  assert (writes w w1 []) as H1 by apply writes_nil.
  destruct (negb _); [intros [= <- <-]; by exists []|].
  set (old := default _ _). case_bool_decide; [intros [= <- <-]; by exists []|].
  assert (∀ e, re_expires_at_ns e = 1 ∨ e = new → ∀ ls, ls = [] ∨ ls = [WSlot fam i e] →
    Forall (slot_write fam (λ e, re_expires_at_ns e = 1 ∨ e = new)) ls) as Hone.
  { intros e He ls [->| ->]; repeat constructor. by exists i, e. }
  destruct (update_if sys _ w1 _) as [b2 w2] eqn:E2. apply update_if_writes in E2 as (l2 & H2 & F2%Hone); [|by left].
  destruct (negb b2).
  { intros [= <- <-]. exists l2. split; [|done]. exact (writes_app _ _ _ _ _ H1 H2). }
  destruct (update_if sys _ w2 _) as [b3 w3] eqn:E3. apply update_if_writes in E3 as (l3 & H3 & F3%Hone); [|by left].
  destruct (negb b3).
  { intros [= <- <-]. exists (l2 ++ l3). split; [|by apply Forall_app_2].
    exact (writes_app _ _ _ _ _ H1 (writes_app _ _ _ _ _ H2 H3)). }
  intros E4. apply update_if_writes in E4 as (l4 & H4 & F4%Hone); [|by right].
  exists (l2 ++ l3 ++ l4). split; [|by repeat apply Forall_app_2].
  exact (writes_app _ _ _ _ _ H1 (writes_app _ _ _ _ _ H2 (writes_app _ _ _ _ _ H3 H4))).
Qed.

(** Entries of a rewrite: dead ones and the new ones. *)
Definition fresh_or_dead (entries : list RuleEntry) (e : RuleEntry) : Prop := re_expires_at_ns e = 1 ∨ e ∈ entries.

Lemma write_slots_writes fam entries n : ∀ i w b w', write_slots sys fam entries i n w = (b, w') →
  ∃ ls, writes w w' ls ∧ Forall (slot_write fam (fresh_or_dead entries)) ls.
Proof.
  induction n as [|n IH]; intros i w b w'; cbn [write_slots]; [intros [= <- <-]; exists []; split; [apply writes_refl|done]|].
  destruct (write_slot sys fam (default grant_sentinel (entries !! i)) i w) as [ok w1] eqn:E1. apply write_slot_writes in E1 as (l1 & H1 & F1).
  assert (Forall (slot_write fam (fresh_or_dead entries)) l1) as F1'.
  { eapply Forall_impl; [exact F1|]. intros wr (j & e & -> & He). exists j, e. split; [done|].
    destruct He as [He| ->]; [by left|]. destruct (entries !! i) as [x|] eqn:Ex; cbn; [right; by eapply list_elem_of_lookup_2|by left]. }
  destruct ok; [|intros [= <- <-]; eauto]. intros (l2 & H2 & F2)%IH. exists (l1 ++ l2).
  split; [by eapply writes_app|by apply Forall_app_2].
Qed.
End protocol.

(** ** The bracket *)

(** Slots are written under an odd counter, which never goes back. *)
Fixpoint bracketed (m : GrantMaps) (log : list MapWrite) : Prop :=
  match log with
  | [] => True
  | wr :: log => (match wr with WSlot _ _ _ => Z.odd (gm_seq m) = true | WSeq v => gm_seq m <= v end)
                 ∧ bracketed (apply_write m wr) log
  end.

Lemma bracketed_app m a b : bracketed m (a ++ b) ↔ bracketed m a ∧ bracketed (replay m a) b.
Proof. revert m. induction a as [|wr a IH]; intros m; cbn; [tauto|]. rewrite IH. unfold replay. cbn. tauto. Qed.

Lemma slot_keeps_seq m fam i e : gm_seq (apply_write m (WSlot fam i e)) = gm_seq m.
Proof. by destruct fam. Qed.

Lemma slot_writes_seq fam P ls : Forall (slot_write fam P) ls → ∀ m, gm_seq (replay m ls) = gm_seq m
  ∧ (Z.odd (gm_seq m) = true → bracketed m ls).
Proof.
  induction 1 as [|wr ls (i & e & -> & _) _ IH]; intros m; [done|]. unfold replay. cbn [foldl bracketed].
  destruct (IH (apply_write m (WSlot fam i e))) as [E Hb]. rewrite slot_keeps_seq in *. split; [exact E|]. intros Ho. auto.
Qed.

Lemma bracketed_mono m log : bracketed m log → ∀ p q, (p ≤ q)%nat →
  gm_seq (replay m (take p log)) <= gm_seq (replay m (take q log)).
Proof.
  revert m. induction log as [|wr log IH]; intros m Hb p q Hpq; [by rewrite !take_nil|]. destruct Hb as [Hw Hb].
  assert (gm_seq m <= gm_seq (apply_write m wr)) as H0 by (destruct wr as [fam i e|v]; [by rewrite slot_keeps_seq|exact Hw]).
  destruct p as [|p], q as [|q]; [done| |lia|].
  - etransitivity; [exact H0|]. exact (IH _ Hb 0%nat q ltac:(lia)).
  - apply (IH _ Hb). lia.
Qed.

Lemma bracketed_slot m log p fam i e : bracketed m log → log !! p = Some (WSlot fam i e) →
  Z.odd (gm_seq (replay m (take p log))) = true.
Proof.
  revert m p. induction log as [|wr log IH]; intros m p Hb Hp; [done|]. destruct Hb as [Hw Hb].
  destruct p as [|p]; cbn in *; [by injection Hp as ->|]. by apply (IH _ p Hb).
Qed.

(** Between equal even readings nothing is written. *)
Lemma quiet m log fam p q : bracketed m log → (p ≤ q)%nat →
  gm_seq (replay m (take p log)) = gm_seq (replay m (take q log)) → Z.even (gm_seq (replay m (take p log))) = true →
  slots_of fam (replay m (take q log)) = slots_of fam (replay m (take p log)).
Proof.
  intros Hb Hpq Es Ev. induction Hpq as [|q Hpq IH]; [done|].
  pose proof (bracketed_mono m log Hb p q Hpq). pose proof (bracketed_mono m log Hb q (S q) ltac:(lia)).
  assert (gm_seq (replay m (take p log)) = gm_seq (replay m (take q log))) as Eq by lia. rewrite <-IH by done.
  destruct (log !! q) as [wr|] eqn:Eq'.
  - rewrite (take_S_r _ _ _ Eq'). unfold replay at 1. rewrite foldl_app. cbn. fold (replay m (take q log)).
    destruct wr as [fam' i e|v]; [|by destruct fam]. exfalso. apply (bracketed_slot m) in Eq'; [|done].
    rewrite <-Eq, <-Z.negb_even, Ev in Eq'. done.
  - apply lookup_ge_None in Eq'. by rewrite !take_ge by lia.
Qed.

(** ** A resync *)

Lemma lor_one s : Z.lor s 1 = if Z.odd s then s else s + 1.
Proof.
  assert (∀ k, Z.lor 1 (Z.shiftl k 1) = 1 + k * 2 ^ 1) as H by (intros; apply lor_disjoint; lia).
  destruct (Z.Even_or_Odd s) as [[k ->]|[k ->]].
  - rewrite Z.odd_even. cbn [negb]. replace (2 * k) with (Z.shiftl k 1) by (rewrite Z.shiftl_mul_pow2; lia).
    rewrite Z.lor_comm, H, Z.shiftl_mul_pow2; lia.
  - rewrite Z.odd_odd. replace (2 * k + 1) with (Z.lor 1 (Z.shiftl k 1)) by (rewrite H; lia).
    rewrite (Z.lor_comm 1), <-Z.lor_assoc, Z.lor_diag. done.
Qed.
Lemma lor_one_odd s : Z.odd (Z.lor s 1) = true.
Proof. rewrite lor_one. destruct (Z.odd s) eqn:E; [done|]. by rewrite Z.odd_add, E. Qed.

(** The entry stands for a grant. *)
Definition minted_by (grants : list SnapshotGrant) (fam : Family) (e : RuleEntry) : Prop :=
  (fam, e) ∈ grants ≫= entries_of.

Lemma flatten_minted grants e4 e6 dropped : flatten_grants grants = (e4, e6, dropped) →
  (∀ e, e ∈ e4 → minted_by grants FamV4 e) ∧ (∀ e, e ∈ e6 → minted_by grants FamV6 e).
Proof.
  unfold flatten_grants, minted_by. generalize (grants ≫= entries_of). intros xs.
  assert (∀ acc, (∀ e, e ∈ acc.1.1 → (FamV4, e) ∈ xs) → (∀ e, e ∈ acc.1.2 → (FamV6, e) ∈ xs) →
    ∀ ys, ys ⊆ xs → let r := foldl flatten_entry acc ys in
    (∀ e, e ∈ r.1.1 → (FamV4, e) ∈ xs) ∧ (∀ e, e ∈ r.1.2 → (FamV6, e) ∈ xs)) as H.
  { intros acc H4 H6 ys. revert acc H4 H6. induction ys as [|[fam y] ys IH]; intros [[a4 a6] d] H4 H6 Hs; [done|]. cbn [foldl].
    apply IH; [| |set_solver]; cbn; destruct fam; case_match; cbn in *; set_solver. }
  intros E. destruct (H ([], [], 0) ltac:(set_solver) ltac:(set_solver) xs ltac:(done)) as [H4 H6]. by rewrite E in H4, H6.
Qed.

(** What a write puts into a slot. *)
Definition sound_write (grants : list SnapshotGrant) (wr : MapWrite) : Prop :=
  match wr with WSlot fam _ e => re_expires_at_ns e = 1 ∨ minted_by grants fam e | WSeq _ => True end.

Lemma slot_writes_sound grants fam entries ls : (∀ e, e ∈ entries → minted_by grants fam e) →
  Forall (slot_write fam (fresh_or_dead entries)) ls → Forall (sound_write grants) ls.
Proof.
  intros Hm Hls. eapply Forall_impl; [exact Hls|]. intros wr (i & e & -> & [He|He]); [by left|right; auto].
Qed.

Section resync.
Context (sys : nat → bool).

Lemma write_grant_maps_writes grants w res w' : write_grant_maps sys grants w = (res, w') →
  let s := gm_seq (wr_maps w) in 0 <= s → s + 2 < 2 ^ 64 →
  ∃ ls, writes w w' ls ∧ bracketed (wr_maps w) ls ∧ s <= gm_seq (wr_maps w') <= s + 2 ∧ Forall (sound_write grants) ls.
Proof.
  intros E s Hs0 Hs2. revert E. unfold write_grant_maps.
  destruct (flatten_grants grants) as [[e4 e6] dropped] eqn:Ef. apply flatten_minted in Ef as [M4 M6].
  cbn [map_lookup]. set (w1 := mkWriter _ _ _). assert (writes w w1 []) as H1 by apply writes_nil. fold s.
  assert (s <= Z.lor s 1 <= s + 1) as Hl by (rewrite lor_one; destruct (Z.odd s); lia).
  assert (∀ w2, writes w w2 [] → ∃ ls, writes w w2 ls ∧ bracketed (wr_maps w) ls
    ∧ s <= gm_seq (wr_maps w2) <= s + 2 ∧ Forall (sound_write grants) ls) as Hnone.
  { intros w2 Hw. exists []. pose proof (proj2 Hw) as ->. cbn. fold s. split_and!; [exact Hw|done|lia|lia|done]. }
  destruct (negb (sys (wr_calls w))); [intros [= <- <-]; by apply Hnone|].
  change (gm_seq (wr_maps w1)) with s. destruct (map_update sys w1 (WSeq (Z.lor s 1))) as [b2 w2] eqn:E2. apply map_update_writes in E2.
  pose proof (writes_app _ _ _ _ _ H1 E2) as H2. cbn [app] in H2.
  destruct b2; cbn [negb]; [|intros [= <- <-]; by apply Hnone].
  destruct (write_all sys FamV4 e4 w2) as [ok4 w3] eqn:E3. apply write_slots_writes in E3 as (l3 & H3 & F3).
  assert (∃ ok w4 l4, (if ok4 then write_all sys FamV6 e6 w3 else (false, w3)) = (ok, w4) ∧ writes w3 w4 l4
    ∧ Forall (slot_write FamV6 (fresh_or_dead e6)) l4) as (ok & w4 & l4 & -> & H4 & F4).
  { destruct ok4; [|exists false, w3, []; split_and!; [done|apply writes_refl|done]].
    destruct (write_all sys FamV6 e6 w3) as [ok w4] eqn:E4. apply write_slots_writes in E4 as (l4 & H4 & F4). eauto 10. }
  destruct (map_update sys w4 _) as [b5 w5] eqn:E5. apply map_update_writes in E5. intros [= <- <-].
  set (mid := replay (wr_maps w) [WSeq (Z.lor s 1)]).
  assert (gm_seq mid = Z.lor s 1) as Emid by done.
  destruct (slot_writes_seq _ _ _ F3 mid) as [S3 B3]. destruct (slot_writes_seq _ _ _ F4 (replay mid l3)) as [S4 B4].
  rewrite Emid in *. rewrite S3 in *. specialize (B3 (lor_one_odd s)). specialize (B4 (lor_one_odd s)).
  exists ([WSeq (Z.lor s 1)] ++ l3 ++ l4 ++ (if b5 then [WSeq ((Z.lor s 1 + 1) mod 2 ^ 64)] else [])).
  pose proof (writes_app _ _ _ _ _ H2 (writes_app _ _ _ _ _ H3 (writes_app _ _ _ _ _ H4 E5))) as H5.
  assert (wr_maps w4 = replay (replay mid l3) l4) as M4'.
  { destruct H2 as [_ M2], H3 as [_ M3], H4 as [_ M4'']. by rewrite M4'', M3, M2. }
  split_and!.
  - exact H5.
  - rewrite !bracketed_app. fold mid. split_and!; [cbn; fold s; lia|done|done|].
    rewrite <-M4'. destruct b5; [|done]. cbn. rewrite M4', S4, Z.mod_small by lia. lia.
  - destruct E5 as [_ ->]. destruct b5; cbn; [rewrite Z.mod_small by lia; lia|rewrite M4', S4; lia].
  - destruct E5 as [_ ->]. destruct b5; cbn; [rewrite Z.mod_small by lia; lia|rewrite M4', S4; lia].
  - apply Forall_app_2; [by repeat constructor|]. apply Forall_app_2; [exact (slot_writes_sound _ _ _ _ M4 F3)|].
    apply Forall_app_2; [exact (slot_writes_sound _ _ _ _ M6 F4)|]. destruct b5; by repeat constructor.
Qed.

(** What every log of resyncs has, whichever calls failed. *)
Record sound_log (snapshots : list (list SnapshotGrant)) (w : Writer) : Prop := {
  sl_maps : wr_maps w = replay prepared (wr_log w);
  sl_bracketed : bracketed prepared (wr_log w);
  sl_seq : 0 <= gm_seq (wr_maps w) <= 2 * Z.of_nat (length snapshots);
  sl_writes : Forall (λ wr, ∃ snap, snap ∈ snapshots ∧ sound_write (load_grants_filtered snap) wr) (wr_log w);
}.

Lemma resyncs_sound snapshots : 2 * Z.of_nat (length snapshots) + 2 < 2 ^ 64 → sound_log snapshots (resyncs sys snapshots).
Proof.
  unfold resyncs. induction snapshots as [|snap snaps IH] using rev_ind; intros Hn; [by split|].
  rewrite length_app in Hn. cbn in Hn. rewrite Nat2Z.inj_add in Hn. destruct IH as [Hm Hb Hs Hw]; [lia|].
  rewrite foldl_app. cbn [foldl]. set (w := foldl _ _ snaps) in *. unfold sync_grants.
  destruct (write_grant_maps sys (load_grants_filtered snap) w) as [res w'] eqn:E. cbn [snd].
  apply write_grant_maps_writes in E as (ls & [El Em] & Bl & Sl & Fl); [|lia|lia]. split.
  - rewrite El, Em, Hm. unfold replay. by rewrite foldl_app.
  - rewrite El, bracketed_app, <-Hm. done.
  - rewrite length_app. cbn. lia.
  - rewrite El. apply Forall_app_2.
    + eapply Forall_impl; [exact Hw|]. intros wr (s & Hin & Hsw). exists s. split; [set_solver|done].
    + eapply Forall_impl; [exact Fl|]. intros wr Hsw. exists snap. split; [set_solver|done].
Qed.
End resync.

(** An entry the maps may rest on. *)
Definition sound_entry (snapshots : list (list SnapshotGrant)) (fam : Family) (e : RuleEntry) : Prop :=
  re_expires_at_ns e = 1 ∨ ∃ snap, snap ∈ snapshots ∧ minted_by (load_grants_filtered snap) fam e.

Lemma replay_sound snapshots log : Forall (λ wr, ∃ snap, snap ∈ snapshots ∧ sound_write (load_grants_filtered snap) wr) log →
  ∀ fam m, Forall (sound_entry snapshots fam) (slots_of fam m) → Forall (sound_entry snapshots fam) (slots_of fam (replay m log)).
Proof.
  induction 1 as [|wr log (snap & Hin & Hwr) _ IH]; intros fam m Hm; [done|]. unfold replay. cbn [foldl]. apply IH.
  destruct wr as [fam' i e|v]; [|by destruct fam].
  assert (sound_entry snapshots fam' e) as He by (destruct Hwr; [by left|right; eauto]).
  destruct fam, fam'; cbn in *; try done; by apply Forall_insert.
Qed.

Lemma prepared_sound snapshots fam : Forall (sound_entry snapshots fam) (slots_of fam prepared).
Proof. destruct fam; apply Forall_replicate; by left. Qed.

(** ** What a minted entry authorizes *)

(** A snapshot's addresses and ports are ones the types allow: a port is a
    [u16], zero included. *)
Definition wf_grant (g : SnapshotGrant) : Prop :=
  wf_ip (sg_addr g) ∧ Forall (λ q, ∀ p, gq_port q = Some p → 0 <= p < 65536) (sg_quals g).

(** What a qualifier covers once it is a map entry: its own flows, and every
    port when it names port 0, whose encoding is that of no port. *)
Definition entry_covers (q : GrantQual) (proto : EgressProto) (port : Z) : Prop :=
  qual_covers q proto port = true ∨ gq_port q = Some 0 ∧ proto_covers (gq_proto q) proto = true.

Lemma qualifier_matches q proto port : (∀ p, gq_port q = Some p → 0 <= p < 65536) →
  proto ≠ AnyProto → 0 <= port < 65536 →
  qual_matches (proto_num (gq_proto q)) (proto_num proto)
    && qual_matches (rule_port_raw (gq_port q)) (raw_port port) = true →
  entry_covers q proto port.
Proof.
  intros Hok Hpr Hpt. unfold entry_covers, qual_covers.
  destruct (decide (gq_port q = Some 0)) as [E|Hne].
  - intros [Hp _]%andb_prop. rewrite proto_matches in Hp by done. by right.
  - intros Hm. rewrite port_matches, proto_matches in Hm; [by left|done|..|done].
    intros p Hp. specialize (Hok p Hp). assert (p ≠ 0) by congruence. lia.
Qed.

Definition hook_family (v6 : bool) : Family := if v6 then FamV6 else FamV4.

Lemma minted_side grants v6 e : Forall wf_grant grants → minted_by grants (hook_family v6) e →
  ∃ g q a, g ∈ grants ∧ q ∈ sg_quals g ∧ compiled (sg_addr g) (width (sg_addr g)) a (full_mask (family_of_ip (sg_addr g)))
    ∧ e ∈ side v6 (family_of_ip (sg_addr g)) (mkEntry a (full_mask (family_of_ip (sg_addr g))) (proto_num (gq_proto q))
            (rule_port_raw (gq_port q)) ACTION_ALLOW 0 (expires_ns (sg_expires g))).
Proof.
  intros Hwf Hm. unfold minted_by in Hm. apply list_elem_of_bind in Hm as (g & He & Hg).
  pose proof (proj1 (Forall_forall _ _) Hwf g Hg) as [Ha _]. unfold entries_of, grant_entries in He.
  destruct (parse_cidr_words_literal _ Ha) as (a & Ea & Hc). rewrite Ea in He. cbn [default] in He.
  apply list_elem_of_bind in He as (q & He & Hq). exists g, q, a. split_and!; [done..|].
  destruct (sg_addr g) as [x|x], v6; cbn [family_of_ip is_ipv4 hook_family side] in *;
    repeat case_bool_decide; try done; set_solver.
Qed.

Lemma minted_authorizes grants dest proto port e : Forall wf_grant grants → wf_ip dest → proto ≠ AnyProto → 0 <= port < 65536 →
  minted_by grants (hook_family (dest_v6 dest)) e → entry_matches (dest_v6 dest) (flow_to dest proto port) e = true →
  ∃ g q, g ∈ grants ∧ q ∈ sg_quals g ∧ (sg_addr g = dest ∨ sg_addr g = socket_endpoint dest)
    ∧ entry_covers q proto port ∧ re_expires_at_ns e = expires_ns (sg_expires g).
Proof.
  intros Hwf Hd Hpr Hpt (g & q & a & Hg & Hq & Hc & He)%minted_side Hm; [|done]. exists g, q.
  pose proof (proj1 (Forall_forall _ _) Hwf g Hg) as [Ha Hqs]. pose proof (proj1 (Forall_forall _ _) Hqs q Hq) as Hok. cbn in Hok.
  set (entry := mkEntry a _ _ _ _ _ _) in He.
  assert (existsb (entry_matches (dest_v6 dest) (flow_to dest proto port)) (side (dest_v6 dest) (family_of_ip (sg_addr g)) entry) = true) as Hx
    by (apply existsb_true_iff; eauto).
  pose proof (max_prefix_range (sg_addr g)) as Hmax.
  rewrite side_entry_matches, andb_true_iff in Hx. destruct Hx as [Hx Hqual]. cbn [fl_addr flow_to] in Hx.
  rewrite (side_matches (sg_addr g) (width (sg_addr g)) a (full_mask (family_of_ip (sg_addr g)))) in Hx by (done || unfold width; lia).
  split_and!; [done..| | |].
  - apply (covers_literal (sg_addr g) dest Ha Hd). unfold covers, cidr_contains, ip_literal_cidr.
    by rewrite parse_show_cidr by (done || unfold width; lia).
  - cbn [re_proto re_port_raw entry fl_proto fl_port_raw flow_to] in Hqual. by apply qualifier_matches.
  - destruct (family_of_ip (sg_addr g)), (dest_v6 dest); cbn [side] in He; repeat first
      [apply list_elem_of_singleton in He; by rewrite He|by apply elem_of_nil in He].
Qed.

(** ** Scans *)

Section scan.
Context (sys : nat → bool) (snapshots : list (list SnapshotGrant)).
Context (Hn : 2 * Z.of_nat (length snapshots) + 2 < 2 ^ 64).
Local Notation log := (wr_log (resyncs sys snapshots)).
Context (w : World) (fam : Family) (pos : nat → nat) (Hw : follows w fam log pos).

(** Equal even readings frame maps at rest on sound entries. *)
Lemma framed_steady t0 t1 s : (t0 ≤ t1)%nat → k_seq (w t0) = Some s → k_seq (w t1) = Some s → Z.even s = true →
  ∃ G, steady w t0 t1 G ∧ Forall (sound_entry snapshots fam) G.
Proof.
  intros Ht H0 H1 Ev. destruct (resyncs_sound sys snapshots Hn) as [_ Hb _ Hs]. destruct Hw as [Hmono Hat].
  exists (slots_of fam (replay prepared (take (pos t0) log))). split.
  - intros u Hu. pose proof (Hmono t0 u ltac:(lia)) as P0. pose proof (Hmono u t1 ltac:(lia)) as P1.
    destruct (Hat t0) as [S0 _], (Hat t1) as [S1 _], (Hat u) as [Su Gu]. rewrite H0 in S0. rewrite H1 in S1.
    injection S0 as S0. injection S1 as S1.
    pose proof (bracketed_mono _ _ Hb _ _ P0) as M0. pose proof (bracketed_mono _ _ Hb _ _ P1) as M1.
    assert (gm_seq (replay prepared (take (pos u) log)) = s) as Es by lia.
    destruct Gu as [->|(i & e & torn & Hl & _)].
    + apply (quiet prepared log); [done|done|congruence|by rewrite <-S0].
    + apply (bracketed_slot prepared) in Hl; [|done]. rewrite Es, <-Z.negb_even, Ev in Hl. done.
  - apply replay_sound; [|apply prepared_sound]. by apply Forall_take.
Qed.
End scan.

(** [C8] An allow by grant has a grant behind it, whatever races with it: while
    the drain rewrites the grant maps any number of times (short of wrapping
    the 64-bit sequence), with any of its map calls failing and every slot torn
    while it is written, consider a default-deny hook whose socket address names
    a destination and whose static entries do not match the flow, on a clock
    that has left zero.  It returns 1 only if some loaded snapshot held a grant
    of the flow's own address (as written or as reached), not expired on the
    hook's clock and not into protected address space, with a qualifier that
    covers the flow's protocol and port or that covers the protocol and names
    port 0, which the map encodes as any port. *)
Theorem grant_honoured sys snapshots w pos kind maps entries sa dest proto port :
  2 * Z.of_nat (length snapshots) + 2 < 2 ^ 64 → Forall (Forall wf_grant) snapshots →
  follows w (hook_family (is_v6 kind)) (wr_log (resyncs sys snapshots)) pos →
  hooked w maps entries GRANT_SLOTS sa → (length entries ≤ MAX_RULES_PER_MAP)%nat →
  (∀ now, wall_clock w now → 1 <= now) → nameless kind sa = false →
  names_dest kind sa dest proto port → wf_ip dest → proto ≠ AnyProto → 0 <= port < 65536 →
  first_match (is_v6 kind) (flow_of kind sa) 0 entries = None →
  ∃ prog r out, build_prog kind maps entries GRANT_SLOTS false = Some prog ∧ runs_to w prog r out
    ∧ (r = 1 → ∃ snap g q now, snap ∈ snapshots ∧ g ∈ snap ∧ q ∈ sg_quals g
        ∧ (sg_addr g = dest ∨ sg_addr g = socket_endpoint dest) ∧ entry_covers q proto port
        ∧ wall_clock w now ∧ now < sg_expires g * NANOS
        ∧ endpoint_is_protected (dialed_endpoint (sg_addr g)) = false).
Proof.
  intros Hn Hwf Hfol H He Hclock Hnl [Hk Hf] Hd Hpr Hpt Hfm.
  destruct (hook_runs w kind maps entries GRANT_SLOTS sa false H He (le_n _)) as (prog & r & out & E & Hr & Ho).
  exists prog, r, out. split_and!; [exact E|exact Hr|]. intros ->.
  unfold hook_outcome in Ho. rewrite Hnl in Ho. destruct Ho as (t & now & Hnow & Hv). unfold verdict_outcome in Hv. rewrite Hfm in Hv.
  destruct Hv as [(_ & _ & t0 & t1 & s & Ht & H0 & H1 & Ev & HG)|(? & _)]; [|done].
  destruct (framed_steady sys snapshots Hn w _ pos Hfol t0 t1 s Ht H0 H1 Ev) as (G & Hst & Hsound).
  specialize (HG G Hst). unfold granted in HG. rewrite existsb_true_iff in HG. destruct HG as (e & Hin & [Hlive Hm]%andb_prop).
  pose proof (proj1 (Forall_forall _ _) Hsound e Hin) as [Hdead|(snap & Hsn & Hmint)].
  { specialize (Hclock now Hnow). unfold live in Hlive. rewrite Hdead in Hlive. destruct (Z.leb_spec 1 now); [done|lia]. }
  rewrite Hk, Hf in Hm. rewrite Hk in Hmint.
  assert (Forall wf_grant (load_grants_filtered snap)) as Hwf'.
  { apply Forall_forall. intros g Hg. apply list_elem_of_In, List.filter_In in Hg as [Hg _]. apply list_elem_of_In in Hg.
    exact (proj1 (Forall_forall _ _) (proj1 (Forall_forall _ _) Hwf snap Hsn) g Hg). }
  destruct (minted_authorizes _ dest proto port e Hwf' Hd Hpr Hpt Hmint Hm) as (g & q & Hg & Hq & Ha & Hc & Hexp).
  apply list_elem_of_In, List.filter_In in Hg as [Hg Hp]. apply list_elem_of_In in Hg. apply negb_true_iff in Hp.
  exists snap, g, q, now. split_and!; try done.
  unfold live in Hlive. rewrite Hexp in Hlive. unfold expires_ns in Hlive. destruct (Z.leb_spec (Z.min (sg_expires g * NANOS) (2 ^ 64 - 1)) now); [|lia].
  by rewrite andb_false_r in Hlive.
Qed.

(** ** A resync that succeeds *)

Section installs.
Context (sys : nat → bool) (Hsys : ∀ n, sys n = true).

(** The slots of a family hold [S], the rest is as before. *)
Definition only_slots (w w' : Writer) (fam : Family) (S : list RuleEntry) : Prop :=
  slots_of fam (wr_maps w') = S ∧ gm_seq (wr_maps w') = gm_seq (wr_maps w)
  ∧ ∀ fam', fam' ≠ fam → slots_of fam' (wr_maps w') = slots_of fam' (wr_maps w).

Lemma only_slots_trans w w1 w2 fam S1 S2 : only_slots w w1 fam S1 → only_slots w1 w2 fam S2 → only_slots w w2 fam S2.
Proof. intros (_ & E1 & O1) (HS & E2 & O2). split_and!; [done|congruence|]. intros f' Hf. by rewrite O2, O1. Qed.

Lemma update_if_ok c w fam i e : ∃ w', update_if sys c w (WSlot fam i e) = (true, w')
  ∧ only_slots w w' fam (if c then <[i := e]> (slots_of fam (wr_maps w)) else slots_of fam (wr_maps w)).
Proof.
  unfold update_if, map_update. destruct c; [rewrite Hsys|]; eexists; (split; [reflexivity|]); [|by split_and!].
  split_and!; [by destruct fam|by destruct fam|]. by intros [] Hf; destruct fam.
Qed.

Lemma write_slot_ok fam new i w : (i < length (slots_of fam (wr_maps w)))%nat →
  ∃ w', write_slot sys fam new i w = (true, w') ∧ only_slots w w' fam (<[i := new]> (slots_of fam (wr_maps w))).
Proof.
  intros Hi. unfold write_slot. cbn [map_lookup]. rewrite Hsys. cbn [negb]. set (w1 := mkWriter _ _ _).
  change (wr_maps w1) with (wr_maps w). destruct (lookup_lt_is_Some_2 _ _ Hi) as [old Hold]. rewrite Hold.
  change (default grant_sentinel (Some old)) with old.
  set (xs := slots_of fam (wr_maps w)) in *.
  case_bool_decide as Eon; [subst old; exists w1; split; [done|]; split_and!; [by rewrite list_insert_id|done..]|].
  destruct (update_if_ok (bool_decide (dead old ≠ old)) w1 fam i (dead old)) as (w2 & -> & H2). cbn [negb].
  destruct (update_if_ok (bool_decide (dead new ≠ dead old)) w2 fam i (dead new)) as (w3 & -> & H3). cbn [negb].
  destruct (update_if_ok (bool_decide (new ≠ dead new)) w3 fam i new) as (w4 & -> & H4).
  exists w4. split; [done|]. pose proof (only_slots_trans _ _ _ _ _ _ H2 (only_slots_trans _ _ _ _ _ _ H3 H4)) as (HS & HE & HO).
  split_and!; [|exact HE|exact HO]. rewrite HS. destruct H2 as [S2 _], H3 as [S3 _]. change (slots_of fam (wr_maps w1)) with xs in S2.
  case_bool_decide as C4; rewrite S3; case_bool_decide as C3; rewrite S2; case_bool_decide as C2; rewrite ?list_insert_insert_eq; try done.
  - by rewrite <-C4.
  - by rewrite <-C4.
  - rewrite <-C3, <-C4. done.
  - exfalso. apply Eon. congruence.
Qed.

(** Slot [j] of a table filled with [entries]. *)
Definition filled (entries : list RuleEntry) (j : nat) : RuleEntry := default grant_sentinel (entries !! j).

Lemma write_slots_ok fam entries n : ∀ i w, (i + n ≤ length (slots_of fam (wr_maps w)))%nat →
  ∃ w' S, write_slots sys fam entries i n w = (true, w') ∧ only_slots w w' fam S
    ∧ length S = length (slots_of fam (wr_maps w))
    ∧ ∀ j, S !! j = if decide (i ≤ j < i + n)%nat then Some (filled entries j) else slots_of fam (wr_maps w) !! j.
Proof.
  induction n as [|n IH]; intros i w Hi; cbn [write_slots].
  { exists w, (slots_of fam (wr_maps w)). split_and!; [done|by split_and!|done|]. intros j. by rewrite decide_False by lia. }
  destruct (write_slot_ok fam (default grant_sentinel (entries !! i)) i w) as (w1 & -> & H1); [lia|].
  pose proof H1 as (S1 & _). destruct (IH (S i) w1) as (w2 & S2 & -> & H2 & L2 & Hj); [rewrite S1, length_insert; lia|].
  exists w2, S2. split_and!; [done|by eapply only_slots_trans|by rewrite L2, S1, length_insert|].
  intros j. rewrite Hj, S1. destruct (decide (j = i)) as [->|Hne].
  - rewrite decide_False, decide_True by lia. by rewrite list_lookup_insert_eq by lia.
  - rewrite list_lookup_insert_ne by done. repeat case_decide; (done || lia).
Qed.

Lemma filled_table entries S : length S = GRANT_SLOTS → (∀ j, S !! j = if decide (0 ≤ j < GRANT_SLOTS)%nat then Some (filled entries j) else None) →
  (length entries ≤ GRANT_SLOTS)%nat → S = entries ++ replicate (GRANT_SLOTS - length entries) grant_sentinel.
Proof.
  intros Hl Hj Hlen. apply list_eq. intros j. rewrite Hj. unfold filled. destruct (decide (j < length entries)%nat) as [H|H].
  - rewrite decide_True by lia. rewrite lookup_app_l by done. by destruct (lookup_lt_is_Some_2 _ _ H) as [x ->].
  - rewrite (lookup_ge_None_2 entries) by lia. rewrite lookup_app_r by lia. case_decide as Hd.
    + by rewrite lookup_replicate_2 by lia.
    + rewrite lookup_ge_None_2; [done|]. rewrite length_replicate. lia.
Qed.

Lemma write_all_ok fam entries w : length (slots_of fam (wr_maps w)) = GRANT_SLOTS → (length entries ≤ GRANT_SLOTS)%nat →
  ∃ w', write_all sys fam entries w = (true, w')
    ∧ only_slots w w' fam (entries ++ replicate (GRANT_SLOTS - length entries) grant_sentinel).
Proof.
  intros Hl He. destruct (write_slots_ok fam entries GRANT_SLOTS 0 w) as (w' & S & Hw & Ho & HL & Hj); [lia|].
  exists w'. split; [exact Hw|]. rewrite <-(filled_table entries S); [exact Ho|congruence| |done].
  intros j. rewrite Hj. change (0 + GRANT_SLOTS)%nat with GRANT_SLOTS. case_decide; [done|]. apply lookup_ge_None_2. lia.
Qed.

Lemma flatten_bound grants e4 e6 dropped : flatten_grants grants = (e4, e6, dropped) →
  (length e4 ≤ GRANT_SLOTS)%nat ∧ (length e6 ≤ GRANT_SLOTS)%nat.
Proof.
  unfold flatten_grants. generalize (grants ≫= entries_of). intros xs.
  assert (∀ acc, (length acc.1.1 ≤ GRANT_SLOTS)%nat ∧ (length acc.1.2 ≤ GRANT_SLOTS)%nat →
    (length (foldl flatten_entry acc xs).1.1 ≤ GRANT_SLOTS)%nat ∧ (length (foldl flatten_entry acc xs).1.2 ≤ GRANT_SLOTS)%nat) as H.
  { induction xs as [|[fam x] xs IH]; intros [[a4 a6] d] Ha; [done|]. cbn [foldl]. apply IH. cbn [fst snd flatten_entry] in *.
    destruct fam; [destruct (Nat.ltb_spec (length a4) GRANT_SLOTS)|destruct (Nat.ltb_spec (length a6) GRANT_SLOTS)];
      cbn [fst snd]; rewrite ?length_app; cbn [length]; lia. }
  intros E. specialize (H ([], [], 0)). rewrite E in H. apply H. cbn. lia.
Qed.
End installs.

(** A resync that meets no failing call installs its snapshot: both maps
    hold the flattened grants in order, at most [GRANT_SLOTS] of each family,
    with the never-live sentinel in every other slot, and the counter rests on
    the next even value; the report counts the entries written and dropped. *)
Lemma resync_installs sys w grants e4 e6 dropped :
  (∀ n, sys n = true) → length (gm_v4 (wr_maps w)) = GRANT_SLOTS → length (gm_v6 (wr_maps w)) = GRANT_SLOTS →
  0 <= gm_seq (wr_maps w) < 2 ^ 64 - 2 → flatten_grants grants = (e4, e6, dropped) →
  ∃ w' s, write_grant_maps sys grants w = (Some ((length e4 + length e6)%nat, dropped), w')
    ∧ wr_maps w' = mkGrantMaps (e4 ++ replicate (GRANT_SLOTS - length e4) grant_sentinel)
                     (e6 ++ replicate (GRANT_SLOTS - length e6) grant_sentinel) s
    ∧ (length e4 ≤ GRANT_SLOTS)%nat ∧ (length e6 ≤ GRANT_SLOTS)%nat
    ∧ Z.even s = true ∧ gm_seq (wr_maps w) < s <= gm_seq (wr_maps w) + 2.
Proof.
  intros Hsys L4 L6 Hseq Ef. destruct (flatten_bound grants e4 e6 dropped Ef) as [B4 B6].
  unfold write_grant_maps. rewrite Ef. cbn [map_lookup]. rewrite Hsys. cbn [negb]. set (w1 := mkWriter _ _ _).
  change (gm_seq (wr_maps w1)) with (gm_seq (wr_maps w)). set (s := gm_seq (wr_maps w)) in *.
  unfold map_update at 1. rewrite Hsys. cbn [negb]. set (w2 := mkWriter _ _ _).
  destruct (write_all_ok sys Hsys FamV4 e4 w2 L4 B4) as (w3 & -> & S3 & E3 & O3).
  destruct (write_all_ok sys Hsys FamV6 e6 w3) as (w4 & -> & S4 & E4 & O4); [by rewrite O3|done|].
  unfold map_update. rewrite Hsys. cbn [andb]. do 2 eexists. split; [reflexivity|].
  pose proof (O4 FamV4 ltac:(done)) as O4'. cbn [slots_of] in *. cbn [wr_maps apply_write]. split; [by rewrite O4', S3, S4|].
  pose proof (lor_one s) as Hl. pose proof (lor_one_odd s) as Ho. assert (s <= Z.lor s 1 <= s + 1) by (rewrite Hl; destruct (Z.odd s); lia).
  rewrite Z.mod_small by lia. split_and!; [done..| |lia|lia]. rewrite Z.even_add, <-Z.negb_odd, Ho. done.
Qed.

(** ** Witnesses *)

Definition demo_grant : SnapshotGrant := mkSnapshotGrant (V4 0xc0000207) "demo" 100 [mkQual Tcp (Some 443)].

Definition demo_log : list MapWrite := wr_log (resyncs (λ _, true) [[demo_grant]]).
Definition demo_grants : list RuleEntry := slots_of FamV4 (replay prepared demo_log).
Definition demo_granted : World := still (demo_kernel demo_sock [] demo_grants).

Lemma demo_follows : follows demo_granted FamV4 demo_log (λ _, length demo_log).
Proof. split; [done|]. intros t. rewrite take_ge by done. split; [by vm_compute|by left]. Qed.
Lemma demo_grants_eq : demo_grants =
  mkEntry (W4 0x070200c0 0 0 0) (W4 (2 ^ 32 - 1) 0 0 0) 6 0xbb01 ACTION_ALLOW 0 (100 * NANOS) :: replicate 63 grant_sentinel.
Proof. by vm_compute. Qed.
Lemma demo_granted_hooked : hooked demo_granted demo_maps [] GRANT_SLOTS demo_sock.
Proof.
  change GRANT_SLOTS with (length (mkEntry (W4 0x070200c0 0 0 0) (W4 (2 ^ 32 - 1) 0 0 0) 6 0xbb01 ACTION_ALLOW 0 (100 * NANOS)
    :: replicate 63 grant_sentinel)). rewrite <-demo_grants_eq. apply demo_hooked.
  - by repeat split; cbn; lia.
  - constructor.
  - rewrite demo_grants_eq. constructor; [|apply Forall_replicate]; repeat split; cbn; unfold NANOS; lia.
Qed.
Lemma demo_clock now : wall_clock demo_granted now → 1 <= now.
Proof. intros (tb & tc & _ & ->). by vm_compute. Qed.

Lemma grant_honoured_witness :
  ∃ prog r out, build_prog V4Connect demo_maps [] GRANT_SLOTS false = Some prog ∧ runs_to demo_granted prog r out
    ∧ (r = 1 → ∃ snap g q now, snap ∈ [[demo_grant]] ∧ g ∈ snap ∧ q ∈ sg_quals g
        ∧ (sg_addr g = V4 0xc0000207 ∨ sg_addr g = socket_endpoint (V4 0xc0000207)) ∧ entry_covers q Tcp 443
        ∧ wall_clock demo_granted now ∧ now < sg_expires g * NANOS
        ∧ endpoint_is_protected (dialed_endpoint (sg_addr g)) = false).
Proof.
  apply (grant_honoured (λ _, true) [[demo_grant]] demo_granted (λ _, length demo_log) V4Connect demo_maps [] demo_sock (V4 0xc0000207) Tcp 443).
  - cbn. lia.
  - constructor; [|constructor]. constructor; [|constructor]. split; [by split|]. constructor; [|constructor]. intros p [= <-]. lia.
  - exact demo_follows.
  - exact demo_granted_hooked.
  - cbn. unfold MAX_RULES_PER_MAP. lia.
  - exact demo_clock.
  - reflexivity.
  - exact demo_names.
  - by split.
  - done.
  - lia.
  - reflexivity.
Defined.
