(* ===== verification/EbpfDrain.v ===== *)
(** * EbpfDrain: the loop that audits denials

    [Loop] of [src/src/warden/ebpf/supervisor.rs]: [drain_pending] pops every
    pending record, [emit_deny] audits it, [maybe_resync_grants] rewrites the
    grant maps when the snapshot's signature changed, [end] folds the kernel's
    counters in.  The ring holds what the kernel wrote up to its producer
    position; whether an audit commit succeeds is the answer of an oracle to
    its number. *)

From S2P Require Import Prelude Text IpAddr PolicyCidr Outbound Ebpf EbpfMachine EbpfAsm EbpfExec EbpfEvents EbpfRules EbpfGrants EbpfRoute.

Open Scope Z_scope.

Record DrainStats := mkStats {
  ds_denied : Z;
  ds_dropped : Z;
  ds_kernel_denied : Z;
  ds_malformed : Z;
  ds_busy : Z;
  ds_grant_syncs : Z;
  ds_grant_entries : Z;
  ds_grants_dropped : Z;
  ds_audit_errors : Z;
}.
Definition no_stats : DrainStats := mkStats 0 0 0 0 0 0 0 0 0.

(** The loop's state: the ring, the counters, the audited details in order and
    the number of audit commits made. *)
Record Loop := mkLoop {
  lp_ring : RingBuf;
  lp_stats : DrainStats;
  lp_audited : list string;
  lp_commits : nat;
  lp_allow_sig : option (Z * Z);
  lp_writer : Writer;
}.

Definition with_ring (l : Loop) (rb : RingBuf) : Loop :=
  mkLoop rb (lp_stats l) (lp_audited l) (lp_commits l) (lp_allow_sig l) (lp_writer l).
Definition with_stats (l : Loop) (s : DrainStats) : Loop :=
  mkLoop (lp_ring l) s (lp_audited l) (lp_commits l) (lp_allow_sig l) (lp_writer l).

Definition bump_malformed (s : DrainStats) : DrainStats :=
  mkStats (ds_denied s) (ds_dropped s) (ds_kernel_denied s) (ds_malformed s + 1) (ds_busy s) (ds_grant_syncs s)
    (ds_grant_entries s) (ds_grants_dropped s) (ds_audit_errors s).
Definition bump_busy (s : DrainStats) : DrainStats :=
  mkStats (ds_denied s) (ds_dropped s) (ds_kernel_denied s) (ds_malformed s) (ds_busy s + 1) (ds_grant_syncs s)
    (ds_grant_entries s) (ds_grants_dropped s) (ds_audit_errors s).

Section drain.
Context (meta4 meta6 : list RuleMeta) (session_id : string).
(** Whether the [n]th committed audit write, or map call, succeeds. *)
Context (audit sys : nat → bool).

(** A denial counts whether or not its audit write failed. *)
Definition emit_deny (l : Loop) (ev : DenyEvent) : Loop :=
  let s := lp_stats l in
  let errors := if audit (lp_commits l) then 0 else 1 in
  mkLoop (lp_ring l)
    (mkStats (ds_denied s + 1) (ds_dropped s) (ds_kernel_denied s) (ds_malformed s) (ds_busy s) (ds_grant_syncs s)
       (ds_grant_entries s) (ds_grants_dropped s) (ds_audit_errors s + errors))
    (lp_audited l ++ (if audit (lp_commits l) then [deny_details meta4 meta6 session_id ev] else []))
    (S (lp_commits l)) (lp_allow_sig l) (lp_writer l).

(** [None] out of fuel, or at a read outside the mapping. *)
Fixpoint drain_pending (fuel : nat) (l : Loop) : option (bool * Loop) :=
  match fuel with
  | O => None
  | S fuel =>
      let '(rb, p) := pop (lp_ring l) in
      let l := with_ring l rb in
      match p with
      | PopEmpty => Some (true, l)
      | PopBusy => Some (false, with_stats l (bump_busy (lp_stats l)))
      | PopRecord (Ok ev) => drain_pending fuel (emit_deny l ev)
      | PopRecord (Err Unmapped) => None
      | PopRecord (Err _) => drain_pending fuel (with_stats l (bump_malformed (lp_stats l)))
      end
  end.

(** [sig] is the file's signature now, [snapshot] what it holds. *)
Definition maybe_resync_grants (allowlist : bool) (sig : option (Z * Z)) (snapshot : list SnapshotGrant) (l : Loop) : Loop :=
  if negb allowlist then l
  else if bool_decide (sig = lp_allow_sig l) then l
  else
    let grants := match sig with Some _ => load_grants_filtered snapshot | None => [] end in
    let '(res, w) := write_grant_maps sys grants (lp_writer l) in
    match res with
    | Some (n, dropped) =>
        let s := lp_stats l in
        mkLoop (lp_ring l)
          (mkStats (ds_denied s) (ds_dropped s) (ds_kernel_denied s) (ds_malformed s) (ds_busy s) (ds_grant_syncs s + 1)
             (Z.of_nat n) (ds_grants_dropped s + dropped) (ds_audit_errors s))
          (lp_audited l) (lp_commits l) sig w
    | None => mkLoop (lp_ring l) (lp_stats l) (lp_audited l) (lp_commits l) (lp_allow_sig l) w
    end.
End drain.

(** [end]: the kernel's counters, when the stats map still answers. *)
Definition drain_end (kernel : option (Z * Z)) (s : DrainStats) : DrainStats :=
  match kernel with
  | Some (denied, dropped) =>
      mkStats (ds_denied s) dropped denied (ds_malformed s) (ds_busy s) (ds_grant_syncs s)
        (ds_grant_entries s) (ds_grants_dropped s) (ds_audit_errors s)
  | None => s
  end.

(** ** Termination *)

(** The data pages are mapped twice in a row, so a record never wraps. *)
Definition mapped_ring (rb : RingBuf) : Prop :=
  (∃ k, 6 <= k ∧ rb_data_size rb = 2 ^ k) ∧ ∀ a, 0 <= a < 2 * rb_data_size rb → is_Some (rb_data rb a).

Lemma read_mapped m off n : (∀ a, off <= a < off + Z.of_nat n → is_Some (m a)) → is_Some (read_bytes m off n).
Proof.
  revert off. induction n as [|n IH]; intros off H; cbn; [done|]. destruct (H off) as [b ->]; [lia|].
  destruct (IH (off + 1)) as [bs ->]; [|done]. intros a Ha. apply H. lia.
Qed.

Lemma pop_mapped rb rb' p : mapped_ring rb → pop rb = (rb', p) →
  p ≠ PopRecord (Err Unmapped) ∧ mapped_ring rb' ∧ rb_producer rb' = rb_producer rb.
Proof.
  intros [(k & Hk & Esz) Hm]. assert (2 ^ 6 <= 2 ^ k) by (apply Z.pow_le_mono_r; lia). change (2 ^ 6) with 64 in *.
  assert (mapped_ring rb) as Hrb by (split; eauto). unfold pop. destruct (_ <=? _); [by intros [= <- <-]|].
  set (off := Z.land _ _).
  assert (0 <= off < 2 ^ k) as Hoff.
  { unfold off. rewrite Esz. replace (2 ^ k - 1) with (Z.ones k) by (rewrite Z.ones_equiv; lia). rewrite Z.land_ones by lia.
    apply Z.mod_pos_bound. lia. }
  destruct (read_mapped (rb_data rb) off 4) as [bs Ebs]; [intros a Ha; apply Hm; rewrite Esz; lia|].
  unfold load. rewrite Ebs. cbn [fmap option_fmap option_map].
  destruct (Z.testbit _ 31); [by intros [= <- <-]|]. destruct (Z.testbit _ 30); [by intros [= <- <-]|].
  destruct (_ <? _); [by intros [= <- <-]|].
  destruct (read_mapped (rb_data rb) (off + 8) 48) as [bs' ->]; [intros a Ha; apply Hm; rewrite Esz; lia|].
  intros [= <- <-]. split; [|done]. unfold parse_event. destruct (_ =? _); by intros [=].
Qed.

Lemma pop_empty rb rb' : pop rb = (rb', PopEmpty) → rb' = rb ∧ rb_producer rb <= rb_consumer rb.
Proof.
  unfold pop. destruct (Z.leb_spec (rb_producer rb) (rb_consumer rb)); [by intros [= <-]|].
  destruct (load _ _ _); [|by intros [=]]. repeat (destruct (Z.testbit _ _); [by intros [=]|]).
  destruct (_ <? _); [by intros [=]|]. destruct (read_bytes _ _ _); by intros [=].
Qed.

Lemma pop_busy_here rb rb' : pop rb = (rb', PopBusy) → rb' = rb.
Proof.
  unfold pop. destruct (_ <=? _); [by intros [=]|]. destruct (load _ _ _); [|by intros [=]].
  destruct (Z.testbit _ 31); [by intros [= <-]|]. destruct (Z.testbit _ 30); [by intros [=]|].
  destruct (_ <? _); [by intros [=]|]. destruct (read_bytes _ _ _); by intros [=].
Qed.

(** Every denial drained was audited or counted as an audit failure. *)
Definition balance (l : Loop) : Z :=
  ds_denied (lp_stats l) - ds_audit_errors (lp_stats l) - Z.of_nat (length (lp_audited l)).

Section drain_theorems.
Context (meta4 meta6 : list RuleMeta) (session_id : string) (audit : nat → bool).
Local Notation drain := (drain_pending meta4 meta6 session_id audit).

Lemma emit_deny_balance l ev : balance (emit_deny meta4 meta6 session_id audit l ev) = balance l.
Proof. unfold balance, emit_deny. cbn. rewrite length_app. destruct (audit _); cbn; lia. Qed.

Lemma drain_spec n : ∀ l, mapped_ring (lp_ring l) →
  (Z.to_nat (rb_producer (lp_ring l) - rb_consumer (lp_ring l)) ≤ n)%nat →
  ∃ b l', drain (S n) l = Some (b, l') ∧ balance l' = balance l
    ∧ (b = true → rb_producer (lp_ring l') <= rb_consumer (lp_ring l'))
    ∧ (b = false → pop (lp_ring l') = (lp_ring l', PopBusy)).
Proof.
  induction n as [n IH] using lt_wf_ind. intros l Hm Hn. cbn [drain_pending].
  destruct (pop (lp_ring l)) as [rb p] eqn:Ep. destruct (pop_mapped _ _ _ Hm Ep) as (Hu & Hm' & Hprod).
  assert (∀ l1, lp_ring l1 = rb → balance l1 = balance l → p ≠ PopBusy → p ≠ PopEmpty →
    ∃ b l', drain n l1 = Some (b, l') ∧ balance l' = balance l
    ∧ (b = true → rb_producer (lp_ring l') <= rb_consumer (lp_ring l'))
    ∧ (b = false → pop (lp_ring l') = (lp_ring l', PopBusy))) as Hgo.
  { intros l1 E1 Eb Hb He. pose proof (pop_progress _ _ _ Ep Hb He Hu) as Hadv.
    assert (rb_consumer (lp_ring l) < rb_producer (lp_ring l)) as Hlt.
    { destruct (Z.ltb_spec (rb_consumer (lp_ring l)) (rb_producer (lp_ring l))); [done|]. unfold pop in Ep.
      destruct (Z.leb_spec (rb_producer (lp_ring l)) (rb_consumer (lp_ring l))); [congruence|lia]. }
    destruct n as [|n]; [lia|]. rewrite <-Eb. apply IH; [lia|by rewrite E1|]. rewrite E1, Hprod. lia. }
  destruct p as [| |[ev|e]].
  - apply pop_empty in Ep as [-> Hle]. do 2 eexists. split; [reflexivity|]. by split_and!.
  - pose proof (pop_busy_here _ _ Ep) as ->. do 2 eexists. split; [reflexivity|]. by split_and!.
  - apply Hgo; [done| |done..]. by rewrite emit_deny_balance.
  - destruct e; [apply Hgo; done..|done].
Qed.

(** The drain cannot be wedged: on a mapped ring, [drain_pending] returns
    after at most one step per byte between the consumer and the producer,
    whatever the records hold - malformed, discarded and short ones are passed
    and counted.  It returns [true] exactly with nothing pending, and [false]
    only in front of a record still being submitted; every denial it counts was
    audited or is counted as an audit error. *)
Lemma drain_terminates l :
  mapped_ring (lp_ring l) →
  ∃ b l', drain (S (Z.to_nat (rb_producer (lp_ring l) - rb_consumer (lp_ring l)))) l = Some (b, l')
    ∧ balance l' = balance l
    ∧ (b = true → rb_producer (lp_ring l') <= rb_consumer (lp_ring l'))
    ∧ (b = false → pop (lp_ring l') = (lp_ring l', PopBusy)).
Proof. intros Hm. by apply drain_spec. Qed.
End drain_theorems.

(** A ring of one record of 48 bytes with a foreign magic. *)
Definition demo_ring : RingBuf :=
  mkRing 0 56 (λ a, if (0 <=? a) && (a <? 128) then Some (if a =? 0 then 48 else 0) else None) 64.
Definition demo_loop : Loop := mkLoop demo_ring no_stats [] 0 None (mkWriter prepared [] 0).

