(* ===== verification/PathText.v ===== *)
(** * PathText: the spelling of filesystem and network arguments

    The part of [src/src/pathutil.rs] that reads strings and never touches the
    filesystem: control stripping, bounded percent-decoding, [file:] URIs,
    [normalize_fs_argument], the shape tests that call a string a path, a URL
    or an endpoint, and the key vocabularies.  The build modelled is the Unix
    one ([cfg!(windows)] is false).

    NFKC and UTS-46 are library tables: the class [Unicode] holds them. *)

From S2P Require Import Prelude Text Percent IpAddr PolicyHost.

Open Scope Z_scope.
Open Scope result_scope.

Class Unicode := {
  nfkc_tables : string → string;
  (** [idna::domain_to_ascii], used by the host spellings of a policy. *)
  domain_to_ascii : string → option string
}.

(** ** Characters

    A character is its UTF-8 encoding: an ASCII byte, or a lead byte with the
    bytes that continue it. *)

Definition starts_cont (h : string) : bool :=
  match h with
  | String b _ => cont b
  | EmptyString => false
  end.

Fixpoint chars (s : string) : list string :=
  match s with
  | EmptyString => []
  | String c s' =>
      match chars s' with
      | h :: t => if negb (is_ascii_char c) && starts_cont h then String c h :: t
                  else String c "" :: h :: t
      | [] => [String c ""]
      end
  end.

(** The code point of a character. *)
Fixpoint cont_bits (acc : Z) (s : string) : Z :=
  match s with
  | EmptyString => acc
  | String b s' => cont_bits (acc * 64 + (code b - 128)) s'
  end.

Definition code_point (ch : string) : Z :=
  match ch with
  | EmptyString => 0
  | String b rest =>
      match String.length rest with
      | O => code b
      | 1%nat => cont_bits (code b - 192) rest
      | 2%nat => cont_bits (code b - 224) rest
      | _ => cont_bits (code b - 240) rest
      end
  end.

Fixpoint collect_chars (cs : list string) : string :=
  match cs with
  | [] => EmptyString
  | c :: cs' => c +:+ collect_chars cs'
  end.

(** [chars().filter(p).collect()]. *)
Definition keep_chars (p : string → bool) (s : string) : string :=
  collect_chars (List.filter p (chars s)).

Definition is_whitespace (ch : string) : bool := existsb (String.eqb ch) WHITE_SPACE.

Definition NUL : ascii := ascii_of_nat 0.
Definition BACKSLASH_CHAR : ascii := ascii_of_nat 92.

Definition between (lo hi u : Z) : bool := (lo <=? u) && (u <=? hi).

Definition is_scheme_splitting_control (ch : string) : bool :=
  let u := code_point ch in
  between 0x01 0x1F u || (u =? 0x7F) || between 0x80 0x9F u || (u =? 0x2028) || (u =? 0x2029).

Definition is_scheme_format_noise (ch : string) : bool :=
  let u := code_point ch in
  (u =? 0xAD) || (u =? 0x34F) || (u =? 0x61C) || (u =? 0x180E) || between 0x200B 0x200F u
  || between 0x202A 0x202E u || between 0x2060 0x2064 u || between 0x2066 0x206F u
  || (u =? 0xFEFF) || (u =? 0xE0001) || between 0xE0020 0xE007F u.

Definition strip_scheme_splitting_controls (input : string) : string :=
  keep_chars (λ c, negb (is_scheme_splitting_control c)) input.

Definition strip_scheme_splitting_controls_keep (input : string) : string :=
  if existsb is_scheme_splitting_control (chars input)
  then strip_scheme_splitting_controls input else input.

Definition sniffed (c : string) : bool :=
  negb (is_scheme_splitting_control c) && negb (is_scheme_format_noise c) && negb (is_whitespace c).

Definition compact_uri_for_scheme_sniff (input : string) : string := keep_chars sniffed input.

(** ** Bounded percent-decoding *)

Definition PERCENT_DECODE_MAX_ROUNDS : nat := 8.

Definition percent_decode_once_cow (input : string) : string :=
  if negb (contains "%" input) then input
  else let decoded := percent_decode_once input in
       if bool_decide (decoded = input) then input else decoded.

Definition NUL_PATH : string := "empty or NUL-containing path".

Definition decode_then_strip_c0_cow (input : string) : result string string :=
  let decoded := percent_decode_once_cow input in
  if contains NUL decoded then Err NUL_PATH
  else Ok (strip_scheme_splitting_controls_keep decoded).

(** The loop over the rounds, then the round after the cap. *)
Fixpoint decode_rounds (rounds : nat) (current : string) : result string string :=
  next ←? decode_then_strip_c0_cow current;
  match rounds with
  | O => if bool_decide (next = current) then Ok current
         else Err "percent-encoding did not stabilize within decode cap"
  | S rounds' => if bool_decide (next = current) then Ok current else decode_rounds rounds' next
  end.

Definition printable (c : ascii) : bool := in_range 32 126 c.

Definition percent_decode_bounded_cow (input : string) : result string string :=
  if contains NUL input then Err NUL_PATH
  else if str_all (λ b, printable b && negb (Ascii.eqb b "%")) input then Ok input
  else decode_rounds PERCENT_DECODE_MAX_ROUNDS (strip_scheme_splitting_controls_keep input).

(** ** Lexical paths (Unix) *)

(** [Path::components] without the root: empty and [.] parts vanish. *)
Definition path_parts (path : string) : list string :=
  List.filter (λ s, negb (is_empty s) && negb (String.eqb s ".")) (split "/" path).

Definition has_root (path : string) : bool := starts_with "/" path.

(** A [PathBuf] under construction: rooted or not, and its components in
    reverse. [pop] fails on an empty path and on the root. *)
Record PathBuf := mkPathBuf { pb_root : bool; pb_rev : list string }.

Definition path_push (p : PathBuf) (s : string) : PathBuf := mkPathBuf (pb_root p) (s :: pb_rev p).
Definition path_pop (p : PathBuf) : option PathBuf :=
  match pb_rev p with
  | [] => None
  | _ :: rest => Some (mkPathBuf (pb_root p) rest)
  end.

Definition path_string (p : PathBuf) : string :=
  (if pb_root p then "/" else "") +:+ join "/" (rev (pb_rev p)).

Definition lexical_step (out : PathBuf) (component : string) : PathBuf :=
  if String.eqb component ".." then
    match path_pop out with
    | Some out' => out'
    | None => if pb_root out then out else path_push out ".."
    end
  else path_push out component.

Definition lexical_normalize_path (path : string) : string :=
  let out := foldl lexical_step (mkPathBuf (has_root path) []) (path_parts path) in
  let s := path_string out in
  if is_empty s then (if has_root path then "/" else ".") else s.

(** [to_match_string]. *)
Definition to_match_string (path : string) : string := default path (strip_prefix "//?/" path).

Definition lexical_normalize_str (path : string) : string :=
  to_match_string (lexical_normalize_path path).

(** ** Pattern matching *)

Definition normalize_pattern (pattern : string) : string :=
  lexical_normalize_str (default pattern (strip_suffix "/**" pattern)).

Definition split_segments : string → list string := path_parts.

Fixpoint segments_match (path_segs pat_segs : list string) : bool :=
  match pat_segs, path_segs with
  | [], _ => true
  | ps :: pat', s :: path' => (String.eqb ps "*" || String.eqb s ps) && segments_match path' pat'
  | _ :: _, [] => false
  end.

Definition segment_prefix_match (path pattern : string) : bool :=
  if String.eqb pattern "." then false
  else segments_match (split_segments path) (split_segments pattern).

Definition path_matches_lexical_normalized (normalized pattern : string) : bool :=
  segment_prefix_match normalized (normalize_pattern pattern).

Definition path_matches_lexical (path pattern : string) : bool :=
  path_matches_lexical_normalized (lexical_normalize_str path) pattern.

(** ** [file:] URIs *)

Definition starts_with_file_scheme (value : string) : bool :=
  starts_with "file:" (to_ascii_lowercase value).

Fixpoint skip_bytes (n : nat) (s : string) : string :=
  match n, s with
  | S n', String _ s' => skip_bytes n' s'
  | _, _ => s
  end.

Definition after_file_scheme (uri : string) : option string :=
  if starts_with_file_scheme uri then Some (skip_bytes 5 uri) else None.

Definition is_ascii_alphabetic (c : ascii) : bool := is_ascii_upper (c) || in_range 97 122 c.
Definition is_ascii_alphanumeric (c : ascii) : bool := is_ascii_alphabetic c || is_ascii_digit c.

Definition looks_like_windows_abs (value : string) : bool :=
  match value with
  | String a (String b (String c _)) =>
      is_ascii_alphabetic a && Ascii.eqb b ":" && (Ascii.eqb c BACKSLASH_CHAR || Ascii.eqb c "/")
  | _ => false
  end.

Definition looks_like_path (value : string) : bool :=
  if is_empty value || contains NUL value then false
  else if contains_str "://" value then starts_with_file_scheme value
  else if negb (contains "/" value || contains BACKSLASH_CHAR value) then false
  else starts_with "/" value || starts_with "./" value || starts_with "../" value
       || starts_with (String "." (String BACKSLASH_CHAR "")) value
       || starts_with (String "." (String "." (String BACKSLASH_CHAR ""))) value
       || looks_like_windows_abs value.

Definition strip_url_query_fragment (s : string) : string := take_until (one_of ["?"; "#"]%char) s.

(** [replace('\\', "/")]. *)
Definition slashed (s : string) : string :=
  str_map (λ c, if Ascii.eqb c BACKSLASH_CHAR then "/"%char else c) s.

Definition is_local_file_authority (authority : string) : bool :=
  match strip_prefix "[" authority ≫= strip_suffix "]" with
  | Some inner => is_some_and (parse_ipv6 inner) v6_is_loopback
  | None =>
      let lower := trim_end_matches "." (to_ascii_lowercase authority) in
      String.eqb lower "localhost" || is_some_and (parse_ipv4_whatwg lower) v4_is_loopback
  end.

(** What follows [file://], split at the first slash. *)
Definition file_authority (after : string) : option string :=
  let authority := take_until (Ascii.eqb "/") after in
  if negb (is_local_file_authority authority) then None
  else
    let path := strip_url_query_fragment (skip_bytes (String.length authority) after) in
    if is_empty path then None
    else if starts_with "//" path then None
    else Some path.

Definition file_uri_to_fs_path (uri : string) : option string :=
  match after_file_scheme (trim uri) with
  | None => None
  | Some tail =>
      let rest := slashed (strip_url_query_fragment tail) in
      match strip_prefix "//" rest with
      | Some after =>
          if starts_with "/" after then
            if starts_with "//" after then None else Some after
          else file_authority after
      | None =>
          if starts_with "/" rest || looks_like_windows_abs rest then Some rest
          else if is_empty rest then None
          else Some (lexical_normalize_str ("/" +:+ rest))
      end
  end.

(** ** Endpoint shapes *)

Definition dns_label (label : string) : bool :=
  negb (is_empty label) && (String.length label <=? 63)%nat
  && str_all (λ b, is_ascii_alphanumeric b || Ascii.eqb b "-") label
  && negb (starts_with "-" label) && negb (ends_with "-" label).

Definition dns_name_shape (host : string) : bool :=
  negb (is_empty host) && (String.length host <=? 253)%nat
  && str_any is_ascii_alphabetic host && forallb dns_label (split "." host).

Definition port_shape (s : string) : bool :=
  negb (is_empty s) && (String.length s <=? 5)%nat && str_all is_ascii_digit s
  && is_some_and (parse_u32 s) (λ p, p <=? 65535).

Definition is_ip (s : string) : bool := bool_decide (is_Some (parse_ip s)).
Definition is_ipv6 (s : string) : bool := bool_decide (is_Some (parse_ipv6 s)).

Definition looks_like_host_or_socket (value : string) : bool :=
  let v := trim value in
  if is_empty v || contains NUL v || str_any (one_of ["/"; BACKSLASH_CHAR; " "]%char) v then false
  else if is_ip v then true
  else match strip_prefix "[" v with
  | Some rest =>
      match split_once "]" rest with
      | None => false
      | Some (inner, tail) =>
          if negb (is_ipv6 inner) then false
          else if is_empty tail then true
          else is_some_and (strip_prefix ":" tail) port_shape
      end
  | None =>
      match rsplit_once ":" v with
      | None => false
      | Some (host, port) =>
          if contains ":" host then false
          else port_shape port && (is_ip host || dns_name_shape host)
      end
  end.

Definition selector_plausible (value : string) : bool :=
  let v := trim value in
  if is_empty v || contains NUL v then false
  else if str_any (one_of ["/"; BACKSLASH_CHAR; ":"; "~"; "$"; "%"; "@"]%char) v then true
  else contains "." v.

(** ** Key vocabularies *)

Definition PATH_FIELDS : list string := [
    "path"; "paths"; "file"; "filename"; "filepath"; "directory"; "dir"; "dest"; "destination";
    "source"; "output"; "target"; "root"; "cwd"]%string.

Definition NETWORK_FIELDS : list string := [
    "url"; "urls"; "host"; "hosts"; "hostname"; "endpoint"; "endpoints"; "uri"; "uris"; "origin";
    "origins"; "addr"; "addrs"; "address"; "addresses"; "peer"; "peers"; "proxy"; "proxies";
    "upstream"; "upstreams"; "server"; "servers"; "relay"; "relays"; "socket"; "sockets";
    "broker"; "brokers"; "ip"; "ips"; "ip_address"; "ipaddress"; "ipaddr"; "ip_addr"; "domain";
    "domains"; "domain_name"; "domainname"; "host_name"; "destinationip"; "destination_ip";
    "targetip"; "target_ip"; "hostaddress"; "dns"; "dns_name"; "remote"; "remote_addr";
    "remoteaddr"; "dial"; "connect"; "connection"; "redirect"; "bind"; "listen"; "listener"]%string.

Definition PAYLOAD_FIELDS : list string := [
    "content"; "contents"; "text"; "data"; "body"; "payload"; "message"; "msg"; "command"; "cmd";
    "args"; "arguments"; "query"; "sql"; "code"; "script"; "input"; "stdin"; "value"; "values";
    "description"; "pattern"; "regex"; "format"; "encoding"; "charset"; "mode"; "type"; "header";
    "headers"; "label"; "labels"; "tag"; "tags"; "version"; "status"; "state"; "filter"; "sort";
    "order"; "limit"; "offset"; "count"; "depth"; "timeout"; "interval"; "debug"; "verbose";
    "dryrun"; "dry_run"; "force"; "recursive"; "overwrite"; "append"; "newline"; "separator";
    "delimiter"; "quote"; "escape"; "language"; "locale"; "timezone"; "indent"; "env";
    "environment"; "options"; "flags"; "comment"; "reason"; "level"; "severity"; "color";
    "colour"; "owner"; "group"; "uid"; "gid"; "pid"; "note"; "notes"; "title"; "subject";
    "summary"; "prompt"; "question"; "answer"; "response"; "action"; "operation"; "op"; "task";
    "method"; "verb"; "direction"; "protocol"; "scheme"; "transport"]%string.

Definition one_of_names (names : list string) (key : string) : bool := existsb (String.eqb key) names.

Definition is_exact_path_field_name_lowered : string → bool := one_of_names PATH_FIELDS.
Definition is_network_field_name_lowered : string → bool := one_of_names NETWORK_FIELDS.
Definition is_known_payload_field_name_lowered : string → bool := one_of_names PAYLOAD_FIELDS.

Definition is_suffixed_path_field_name_lowered (key key_l : string) : bool :=
  ends_with "_path" key_l || ends_with "_paths" key_l
  || (ends_with "Path" key && negb (ends_with "XPath" key || String.eqb key "xPath"))
  || (ends_with "Paths" key && negb (ends_with "XPaths" key || String.eqb key "xPaths")).

Definition looks_like_jsonpath_expression (value : string) : bool :=
  let v := trim_start value in
  if contains "/" v || contains BACKSLASH_CHAR v then false
  else String.eqb v "$" || starts_with "$." v || starts_with "$[" v.

(** ** Normalisation *)

Section unicode.
Context `{Unicode}.

Definition nfkc (input : string) : string := if is_ascii input then input else nfkc_tables input.

(** Decoded, then normalised when it is not ASCII. *)
Definition decode_nfkc (raw : string) : result string string :=
  decoded ←? percent_decode_bounded_cow raw; Ok (nfkc decoded).

(** The compacted copy is only built when a colon could end a scheme. *)
Definition compacted (decoded : string) : option string :=
  if contains ":" decoded then Some (compact_uri_for_scheme_sniff decoded) else None.

Definition uri_path (decoded : string) : option string :=
  match file_uri_to_fs_path decoded with
  | Some p => Some p
  | None => compacted decoded ≫= file_uri_to_fs_path
  end.

Definition names_file_scheme (decoded : string) : bool :=
  starts_with_file_scheme decoded || is_some_and (compacted decoded) starts_with_file_scheme.

Definition normalize_fs_argument (raw : string) : result string string :=
  if is_empty raw then Err NUL_PATH
  else
    decoded ←? decode_nfkc raw;
    match uri_path decoded with
    | Some from_uri => decode_nfkc from_uri
    | None =>
        if names_file_scheme decoded
        then Err "file: URI does not name a local filesystem path"
        else Ok decoded
    end.

Definition looks_like_network_target (value : string) : bool :=
  if starts_with_file_scheme value then false
  else if match normalize_fs_argument value with
          | Ok normalized =>
              starts_with_file_scheme normalized
              || (looks_like_path normalized && negb (contains_str "://" normalized))
          | Err _ => false
          end then false
  else if contains_str "://" value then true
  else starts_with "//" value && (2 <? String.length value)%nat.

Definition looks_like_network_target_normalized (normalized : string) : bool :=
  if contains "%" normalized then looks_like_network_target normalized
  else if starts_with_file_scheme normalized
          || (looks_like_path normalized && negb (contains_str "://" normalized)) then false
  else contains_str "://" normalized
       || (starts_with "//" normalized && (2 <? String.length normalized)%nat).

(** ** Dirty and opaque URIs *)

Definition is_ascii_uri_scheme (scheme : string) : bool :=
  match scheme with
  | EmptyString => false
  | String first rest =>
      is_ascii_alphabetic first
      && str_all (λ c, is_ascii_alphanumeric c || one_of ["+"; "-"; "."]%char c) rest
  end.

Definition uri_scheme_slot (sniff : string) : option string := fst <$> split_once_str "://" sniff.

Definition uri_scheme_slot_is_dirty (raw : string) : bool :=
  match decode_nfkc raw with
  | Err _ => true
  | Ok decoded =>
      let compacted := compact_uri_for_scheme_sniff decoded in
      let dirty sniff :=
        match uri_scheme_slot sniff with
        | Some scheme => negb (is_ascii_uri_scheme scheme)
        | None => true
        end in
      if contains_str "://" compacted then dirty compacted
      else if contains_str "://" decoded then dirty decoded
      else false
  end.

(** The loop over the two candidates. *)
Fixpoint opaque_candidates (candidates : list string) : bool :=
  match candidates with
  | [] => false
  | candidate :: others =>
      match after_file_scheme candidate with
      | None => opaque_candidates others
      | Some rest =>
          let rest := slashed (strip_url_query_fragment rest) in
          if starts_with "//" rest || starts_with "/" rest || looks_like_windows_abs rest then false
          else if negb (is_empty rest) then true
          else opaque_candidates others
      end
  end.

Definition is_opaque_file_uri (raw : string) : bool :=
  match decode_nfkc raw with
  | Err _ => false
  | Ok decoded => opaque_candidates [decoded; compact_uri_for_scheme_sniff decoded]
  end.
End unicode.
