(* ===== verification/PathResolve.v ===== *)
(** * PathResolve: paths against the file system

    The half of [src/src/pathutil.rs] that asks the file system, and
    [src/src/secret_paths.rs]: the object a path argument names, the patterns
    of a policy, and the names that are secret whatever a policy allows. *)

From S2P Require Import Prelude Text Percent PathText.

Open Scope result_scope.

(** [std::fs::canonicalize]. *)
Inductive Canon := CFound (path : string) | CMissing | CError (e : string).

Class FileSystem := {
  current_dir : result string string;
  canonicalize : string → Canon;
  (** [symlink_metadata(path).is_symlink()]; [None] when it cannot be read. *)
  is_symlink : string → option bool;
  (** [fspriv]: directory permission bits, share roots and the opt-out. *)
  dir_shared_writable : string → result bool string;
  require_parent_write_restricted : string → result unit string;
  path_under_share_root : string → bool;
  replaceable_paths_permitted : bool;
  env_var : string → option string
}.

(** [Path::join] and [PathBuf::push] of a relative part. *)
Definition path_join (base part : string) : string :=
  if is_empty base then part
  else if ends_with "/" base then base +:+ part else base +:+ "/" +:+ part.

Definition is_posix_absolute (path : string) : bool :=
  starts_with "/" path && negb (starts_with "//" path).

Definition join_with (path cwd : string) : string :=
  if is_posix_absolute path then path
  else if has_root path then path
  else path_join cwd path.

Section resolve.
Context `{FileSystem}.

(** One component: [cursor] is the path so far, in reverse. *)
Definition replaceable_component (root : bool) (prev : list string) (component : string)
    : result unit string :=
  let cursor := path_string (mkPathBuf root (component :: prev)) in
  let parent := path_string (mkPathBuf root prev) in
  match is_symlink cursor with
  | Some true =>
      match dir_shared_writable parent with
      | Ok true => Err ("component '" +:+ cursor +:+ "' is a symbolic link under shared-writable '"
                          +:+ parent +:+ "' — it can be retargeted after authorization")
      | Ok false => Ok ()
      | Err e => Err ("cannot verify the parent of link '" +:+ cursor +:+ "': " +:+ e)
      end
  | _ => Ok ()
  end.

Fixpoint replaceable_loop (root : bool) (prev components : list string) : result unit string :=
  match components with
  | [] => Ok ()
  | c :: rest => _ ←? replaceable_component root prev c; replaceable_loop root (c :: prev) rest
  end.

Definition reject_replaceable_components (path : string) : result unit string :=
  replaceable_loop (has_root path) [] (path_parts path).

Definition resolution_failed (path e : string) : string :=
  "path resolution failed for '" +:+ path +:+ "': " +:+ e.

(** [rev] holds the components still to pop, [suffix] the popped ones. *)
Fixpoint ancestor_loop (lexical : string) (root : bool) (rev suffix : list string)
    : result string string :=
  let current := path_string (mkPathBuf root rev) in
  match canonicalize current with
  | CFound canon => Ok (foldl path_join canon suffix)
  | CError e => Err (resolution_failed current e)
  | CMissing =>
      match rev with
      | [] => Ok lexical
      | name :: rev' =>
          if String.eqb name ".." then Ok lexical
          else ancestor_loop lexical root rev' (name :: suffix)
      end
  end.

Definition resolve_via_existing_ancestor (lexical : string) : result string string :=
  ancestor_loop lexical (has_root lexical) (rev (path_parts lexical)) [].

Definition resolve_for_authorization_with_cwd (path cwd : string) : result string string :=
  if is_empty path || contains NUL path then Err NUL_PATH
  else
    let lexical := lexical_normalize_path (join_with path cwd) in
    _ ←? reject_replaceable_components lexical;
    resolved ←? match canonicalize lexical with
                | CFound canon => Ok canon
                | CMissing => resolve_via_existing_ancestor lexical
                | CError e => Err (resolution_failed lexical e)
                end;
    _ ←? (if replaceable_paths_permitted || path_under_share_root resolved then Ok ()
          else match require_parent_write_restricted resolved with
               | Ok _ => Ok ()
               | Err e =>
                   Err ("path '" +:+ lexical +:+ "' resolves through a replaceable component: "
                          +:+ e +:+ " (set MCP_WRIT_ALLOW_REPLACEABLE_PATHS=1 to accept the "
                          +:+ "rename-swap race on every authorized path)")
               end);
    Ok (to_match_string resolved).

Definition resolve_for_authorization (path : string) : result string string :=
  match current_dir with
  | Err e => Err ("cwd unavailable: " +:+ e)
  | Ok cwd => resolve_for_authorization_with_cwd path cwd
  end.

Definition resolve_policy_pattern (pattern : string) : result string string :=
  if is_empty pattern || contains NUL pattern then Err "empty or NUL-containing policy path"
  else if contains "*" pattern then
    match rsplit_once "/" (take_until (Ascii.eqb "*") pattern) with
    | None => Ok (normalize_pattern pattern)
    | Some (head, _) =>
        prefix ←? resolve_for_authorization (head +:+ "/");
        Ok (normalize_pattern
              (trim_end_matches "/" prefix +:+ skip_bytes (String.length head) pattern))
    end
  else resolved ←? resolve_for_authorization pattern; Ok (normalize_pattern resolved).

Definition path_matches (path pattern : string) : bool :=
  match resolve_for_authorization path, resolve_policy_pattern pattern with
  | Ok normalized, Ok match_pattern => segment_prefix_match normalized match_pattern
  | _, _ => false
  end.
End resolve.

Definition RESERVED_ABS_FILES : list string := ["/etc/passwd"; "/etc/shadow"; "/etc/sudoers"]%string.
Definition RESERVED_DIR_NAMES : list string := [".ssh"; ".gnupg"]%string.
Definition RESERVED_AWS_FILE : string := "credentials".
Definition RESERVED_AWS_DIR : string := ".aws".
Definition RESERVED_ENV : string := ".env".
Definition ENV_EXAMPLE : string := ".env.example".

Definition eq_ignore_ascii_case (a b : string) : bool :=
  String.eqb (to_ascii_lowercase a) (to_ascii_lowercase b).

Definition is_env_example_token (token : string) : bool := eq_ignore_ascii_case token ENV_EXAMPLE.

(** The set is the one of [is_scheme_format_noise], written again. *)
Definition path_has_invisible_unicode (path : string) : bool :=
  existsb is_scheme_format_noise (chars path).

Definition paths_equal (a b : string) : bool := String.eqb a b.
Definition reserved_eq (a b : string) : bool := paths_equal a b || eq_ignore_ascii_case a b.

Definition starts_with_dot_env_marker (seg : string) : bool :=
  starts_with ".env." (to_ascii_lowercase seg).

(** The first non-empty, non-dot part from the right. *)
Definition last_segment (path : string) : option string := last (path_parts path).

Fixpoint trim_start_matches (c : ascii) (s : string) : string :=
  match s with
  | EmptyString => EmptyString
  | String a s' => if Ascii.eqb a c then trim_start_matches c s' else s
  end.

(** [.env.<anything>] but [.env.example]. *)
Definition env_segment (seg : string) : bool :=
  reserved_eq seg RESERVED_ENV
  || (starts_with_dot_env_marker seg && negb (reserved_eq seg ENV_EXAMPLE)).

(** The loop over the segments, each with the one after it. *)
Fixpoint reserved_segments (segs : list string) : bool :=
  match segs with
  | [] => false
  | seg :: rest =>
      existsb (reserved_eq seg) RESERVED_DIR_NAMES
      || (reserved_eq seg RESERVED_AWS_DIR
          && is_some_and (head rest) (λ next, reserved_eq next RESERVED_AWS_FILE))
      || env_segment seg
      || reserved_segments rest
  end.

Definition strip_drive_prefix (path : string) : string :=
  let unified := slashed path in
  match unified with
  | String a (String b rest) =>
      if Ascii.eqb b ":" && is_ascii_alphabetic a then rest else unified
  | _ => unified
  end.

Section overlay.
Context `{Unicode} `{FileSystem}.

Definition reserved_windows_homes : list string :=
  (λ home, lexical_normalize_str (slashed home))
    <$> omap env_var ["USERPROFILE"; "HOME"]%string.

(** The process-wide cache holds these same values. *)
Definition resolved_reserved_files : list (option string) :=
  (λ reserved,
     match resolve_for_authorization_with_cwd reserved "/" with
     | Ok resolved => Some (to_ascii_lowercase resolved)
     | Err _ => None
     end) <$> RESERVED_ABS_FILES.

Definition reserved_file (unified : string) (r : string * option string) : bool :=
  let '(reserved, resolved_reserved) := r in
  let unified_l := to_ascii_lowercase unified in
  let unified_lex := lexical_normalize_str unified in
  let unified_l_lex := lexical_normalize_str unified_l in
  let trimmed := trim_start_matches "/" reserved in
  reserved_eq unified reserved
  || path_matches_lexical_normalized unified_lex reserved
  || path_matches_lexical_normalized unified_l_lex reserved
  || is_some_and resolved_reserved (path_matches_lexical_normalized unified_l_lex)
  || reserved_eq unified trimmed || reserved_eq unified_l trimmed.

Definition reserved_home (unified home : string) : bool :=
  let unified_l := to_ascii_lowercase unified in
  let unified_lex := lexical_normalize_str unified in
  let unified_l_lex := lexical_normalize_str unified_l in
  let aws := home +:+ "/" +:+ RESERVED_AWS_DIR +:+ "/" +:+ RESERVED_AWS_FILE in
  let env := home +:+ "/" +:+ RESERVED_ENV in
  existsb (λ name,
             let prefix := home +:+ "/" +:+ name in
             path_matches_lexical_normalized unified_lex prefix
             || path_matches_lexical_normalized unified_l_lex (to_ascii_lowercase prefix)
             || reserved_eq unified prefix) RESERVED_DIR_NAMES
  || reserved_eq unified aws || reserved_eq unified_l (to_ascii_lowercase aws)
  || reserved_eq unified env || reserved_eq unified_l (to_ascii_lowercase env).

Definition matches_reserved_form (normalized : string) : bool :=
  if negb (str_any (λ c, Ascii.eqb c "/" || Ascii.eqb c "." || Ascii.eqb c BACKSLASH_CHAR) normalized)
  then false
  else
    let unified := slashed normalized in
    existsb (reserved_file unified) (zip RESERVED_ABS_FILES resolved_reserved_files)
    || reserved_segments (path_parts unified)
    || is_some_and (last_segment unified) env_segment
    || existsb (reserved_home unified) reserved_windows_homes.

Definition reserved_after_normalize (path : string) : bool :=
  if is_empty path || contains NUL path then false
  else
    let nfkc_raw := nfkc path in
    let lexical :=
      if str_any (λ c, Ascii.eqb c "/" || Ascii.eqb c BACKSLASH_CHAR || Ascii.eqb c ".") nfkc_raw
      then lexical_normalize_str nfkc_raw else nfkc_raw in
    matches_reserved_form lexical
    || match resolve_for_authorization nfkc_raw with
       | Ok resolved =>
           let resolved_nfkc := nfkc resolved in
           matches_reserved_form resolved_nfkc
           || matches_reserved_form (lexical_normalize_str resolved_nfkc)
           || matches_reserved_form (strip_drive_prefix resolved_nfkc)
       | Err _ => false
       end.

Definition is_secret_path (path : string) : bool :=
  if is_empty path || contains NUL path then false
  else reserved_after_normalize path
       || match normalize_fs_argument path with
          | Ok normalized =>
              negb (String.eqb normalized path) && reserved_after_normalize normalized
          | Err _ => true
          end.

Definition is_secret_path_normalized (raw normalized : string) : bool :=
  if is_empty raw || contains NUL raw then false
  else if reserved_after_normalize raw then true
  else if negb (String.eqb raw normalized) then reserved_after_normalize normalized
  else if negb (contains "%" normalized) then false
  else match normalize_fs_argument normalized with
       | Ok second => negb (String.eqb second normalized) && reserved_after_normalize second
       | Err _ => true
       end.

Definition is_secret_path_pre_normalized (normalized : string) : bool :=
  is_secret_path_normalized normalized normalized.

Definition overlay_denies (path : string) : result unit string :=
  if is_empty path || contains NUL path then Err NUL_PATH
  else
    match normalize_fs_argument path with
    | Err e => Err ("path '" +:+ path +:+ "' rejected by secret-overlay (" +:+ e +:+ ")")
    | Ok normalized =>
        if path_has_invisible_unicode path || path_has_invisible_unicode normalized
        then Err ("path '" +:+ path +:+ "' contains invisible Unicode and is rejected by secret-overlay")
        else if is_secret_path_normalized path normalized
        then Err ("path '" +:+ path +:+ "' matches the secret-path overlay (beats explicit allow)")
        else if uri_scheme_slot_is_dirty path || uri_scheme_slot_is_dirty normalized
        then Err ("path '" +:+ path
                    +:+ "' has a non-ASCII or invalid URI scheme and is rejected by secret-overlay")
        else if is_opaque_file_uri path || is_opaque_file_uri normalized
        then Err ("path '" +:+ path
                    +:+ "' is an opaque file: URI and is rejected by the secret-path overlay")
        else Ok ()
    end.
End overlay.
