(* ===== verification/Targets.v ===== *)
(** * Targets: the targets of a call

    [src/src/policy/opaque.rs], the fields declared opaque, and
    [src/src/auditor/checker/targets.rs]: what the strings of a call name,
    path, host, URL or none of them. *)

From S2P Require Import Prelude Text Percent Json Deputy Structure PolicyHost PathText.
From S2P Require Import PathResolve.

Open Scope result_scope.

Definition MAX_OPAQUE_FIELDS : nat := 64.

Record OpaqueField := mkOpaque { of_source : string; of_segments : list string }.

Fixpoint pointer_segments (source : string) (raws : list string) : result (list string) string :=
  match raws with
  | [] => Ok []
  | raw :: rest =>
      if String.eqb raw "*"
      then Err ("opaque field " +:+ dquote +:+ source +:+ dquote
                  +:+ " uses the '*' wildcard — name concrete fields")
      else
        seg ←? decode_segment raw;
        segs ←? pointer_segments source rest;
        Ok (seg :: segs)
  end.

(** [source] starts with a slash; [rest] is what follows it. *)
Definition parse_opaque_pointer (source rest : string) : result (list string) string :=
  segments ←? pointer_segments source (split "/" rest);
  if (MAX_POINTER_SEGMENTS <? length segments)%nat
  then Err ("opaque field pointer exceeds 16 segments")
  else
    match segments with
    | a :: b :: members =>
        if (length members =? 0)%nat || negb (String.eqb a "params") || negb (String.eqb b "arguments")
        then Err ("opaque field pointer " +:+ dquote +:+ source +:+ dquote +:+ " must start with "
                    +:+ dquote +:+ "/params/arguments/" +:+ dquote +:+ " and name a member")
        else if existsb is_empty members
        then Err ("opaque field pointer " +:+ dquote +:+ source +:+ dquote
                    +:+ " contains an empty member name")
        else Ok members
    | _ => Err ("opaque field pointer " +:+ dquote +:+ source +:+ dquote +:+ " must start with "
                  +:+ dquote +:+ "/params/arguments/" +:+ dquote +:+ " and name a member")
    end.

Definition OpaqueField_parse (source : string) : result OpaqueField string :=
  if is_empty source then Err "opaque field name must not be empty"
  else if (MAX_POINTER_BYTES <? String.length source)%nat
  then Err "opaque field declaration exceeds 256 bytes"
  else
    segments ←?
      match strip_prefix "/" source with
      | Some rest => parse_opaque_pointer source rest
      | None =>
          if contains "/" source
          then Err ("opaque field " +:+ dquote +:+ source +:+ dquote
                      +:+ " contains '/' — write the /params/arguments/… pointer form")
          else if String.eqb source "*"
          then Err ("opaque field " +:+ dquote +:+ "*" +:+ dquote
                      +:+ " is a wildcard — name concrete fields")
          else Ok [source]
      end;
    Ok (mkOpaque source segments).

(** ** The matcher *)

Inductive OpaqueMatcher :=
  | OpaqueNode (terminal : option nat) (children : list (string * OpaqueMatcher)).

Definition declaration (m : OpaqueMatcher) : option nat :=
  let 'OpaqueNode t _ := m in t.
Definition matcher_children (m : OpaqueMatcher) : list (string * OpaqueMatcher) :=
  let 'OpaqueNode _ cs := m in cs.

Definition matcher_child (m : OpaqueMatcher) (name : string) : option OpaqueMatcher :=
  snd <$> List.find (λ c, String.eqb c.1 name) (matcher_children m).

Definition matcher_empty : OpaqueMatcher := OpaqueNode None [].

(** [children.entry(seg)] replaced by [node]. *)
Definition set_child (cs : list (string * OpaqueMatcher)) (seg : string) (node : OpaqueMatcher)
  : list (string * OpaqueMatcher) :=
  (seg, node) :: List.filter (λ c, negb (String.eqb c.1 seg)) cs.

Fixpoint matcher_insert (segs : list string) (index : nat) (m : OpaqueMatcher) : OpaqueMatcher :=
  match segs with
  | [] => OpaqueNode (Some index) (matcher_children m)
  | seg :: rest =>
      OpaqueNode (declaration m)
        (set_child (matcher_children m) seg
           (matcher_insert rest index (default matcher_empty (matcher_child m seg))))
  end.

Fixpoint matcher_insert_all (index : nat) (fields : list OpaqueField) (m : OpaqueMatcher)
  : OpaqueMatcher :=
  match fields with
  | [] => m
  | f :: rest => matcher_insert_all (S index) rest (matcher_insert (of_segments f) index m)
  end.

Definition matcher_build (fields : list OpaqueField) : option OpaqueMatcher :=
  match fields with
  | [] => None
  | _ => Some (matcher_insert_all 0 fields matcher_empty)
  end.

(** ** What the matcher decides *)

(** The cursor of the request walk after the member names [path]: it stays on
    a declared node, and is lost off the declared paths. *)
Definition descend (cursor : option OpaqueMatcher) (name : string) : option OpaqueMatcher :=
  match cursor with
  | Some c => if declaration c is Some _ then Some c else matcher_child c name
  | None => None
  end.

Definition cursor_at (cursor : option OpaqueMatcher) (path : list string) : option OpaqueMatcher :=
  foldl descend cursor path.

Lemma matcher_child_set cs seg node t name :
  matcher_child (OpaqueNode t (set_child cs seg node)) name
  = if String.eqb seg name then Some node else matcher_child (OpaqueNode t cs) name.
Proof.
  unfold matcher_child, set_child. cbn. destruct (String.eqb_spec seg name) as [<-|Hne]; [done|].
  f_equal. induction cs as [|[k c] cs IH]; [done|]. cbn.
  destruct (String.eqb_spec k seg) as [->|]; cbn.
  - destruct (String.eqb_spec seg name); [congruence|exact IH].
  - destruct (String.eqb k name); [done|exact IH].
Qed.

(** The node at a path, ignoring declarations on the way. *)
Fixpoint node_at (m : OpaqueMatcher) (path : list string) : option OpaqueMatcher :=
  match path with
  | [] => Some m
  | name :: rest => matcher_child m name ≫= λ c, node_at c rest
  end.

Definition declared_at (m : OpaqueMatcher) (path : list string) : option nat :=
  node_at m path ≫= declaration.

Lemma declared_insert segs index : ∀ m path,
  declared_at (matcher_insert segs index m) path
  = if bool_decide (path = segs) then Some index else declared_at m path.
Proof.
  unfold declared_at. induction segs as [|seg rest IH]; intros m path; cbn [matcher_insert].
  - destruct path as [|n path]; [done|]. rewrite bool_decide_eq_false_2 by done.
    cbn [node_at]. by destruct m.
  - destruct path as [|n path]; [by rewrite bool_decide_eq_false_2|].
    cbn [node_at]. rewrite matcher_child_set.
    destruct (String.eqb_spec seg n) as [<-|Hne].
    + cbn. rewrite IH. case_bool_decide as Hp.
      * subst. by rewrite bool_decide_eq_true_2.
      * rewrite bool_decide_eq_false_2 by congruence. destruct m as [t cs].
        destruct (matcher_child (OpaqueNode t cs) seg); [done|]. by destruct path.
    + rewrite bool_decide_eq_false_2 by congruence. by destruct m.
Qed.

(** The declaration at a path is the last one naming it. *)
Lemma declared_insert_all fields path : ∀ index m,
  is_Some (declared_at (matcher_insert_all index fields m) path)
  ↔ is_Some (declared_at m path) ∨ path ∈ of_segments <$> fields.
Proof.
  induction fields as [|f fields IH]; intros index m; cbn [matcher_insert_all].
  - rewrite elem_of_nil. tauto.
  - rewrite IH, declared_insert. cbn [fmap list_fmap]. rewrite elem_of_cons.
    case_bool_decide; [|tauto]. split; [tauto|]. eauto.
Qed.

Lemma declared_build fields m path : matcher_build fields = Some m →
  is_Some (declared_at m path) ↔ path ∈ of_segments <$> fields.
Proof.
  intros Hm. assert (m = matcher_insert_all 0 fields matcher_empty) as ->.
  { destruct fields; [done|]. cbn [matcher_build] in Hm. congruence. }
  rewrite declared_insert_all. split; [|auto]. intros [[x Hx]|]; [|done].
  destruct path; done.
Qed.

(** The cursor of the walk is on a declared node iff some prefix of the path
    was declared. *)
Lemma cursor_at_none path : cursor_at None path = None.
Proof. by induction path. Qed.

Lemma cursor_at_declared c i path : declaration c = Some i → cursor_at (Some c) path = Some c.
Proof. intros Hc. induction path as [|n path IH]; [done|]. cbn. by rewrite Hc. Qed.

Lemma cursor_at_spec path : ∀ m,
  is_Some (cursor_at (Some m) path ≫= declaration)
  ↔ ∃ p, p `prefix_of` path ∧ is_Some (declared_at m p).
Proof.
  induction path as [|n path IH]; intros m; destruct (declaration m) as [i|] eqn:Hm.
  - cbn. rewrite Hm. split; [|by eauto]. intros _. exists []. unfold declared_at. cbn. by rewrite Hm.
  - cbn. rewrite Hm. split; [by intros []|]. intros (p & Hp & [x Hx]).
    apply prefix_nil_inv in Hp as ->. unfold declared_at in Hx. cbn in Hx. congruence.
  - rewrite (cursor_at_declared m i) by done. cbn. rewrite Hm. split; [|by eauto].
    intros _. exists []. split; [apply prefix_nil|]. unfold declared_at. cbn. by rewrite Hm.
  - change (cursor_at (Some m) (n :: path)) with (cursor_at (descend (Some m) n) path).
    cbn [descend]. rewrite Hm. destruct (matcher_child m n) as [c|] eqn:Hc.
    + rewrite IH. split.
      * intros (p & Hp & Hd). exists (n :: p). split; [by apply prefix_cons|].
        unfold declared_at in *. cbn. by rewrite Hc.
      * intros (p & Hp & Hd). destruct p as [|n' p].
        { unfold declared_at in Hd. cbn in Hd. rewrite Hm in Hd. by destruct Hd. }
        apply prefix_cons_inv_1 in Hp as Hn. apply prefix_cons_inv_2 in Hp. subst.
        exists p. split; [done|]. unfold declared_at in *. cbn in Hd. by rewrite Hc in Hd.
    + rewrite cursor_at_none. split; [by intros []|]. intros (p & Hp & Hd).
      destruct p as [|n' p].
      { unfold declared_at in Hd. cbn in Hd. rewrite Hm in Hd. by destruct Hd. }
      apply prefix_cons_inv_1 in Hp. subst. unfold declared_at in Hd. cbn in Hd. rewrite Hc in Hd.
      by destruct Hd.
Qed.

(** A member is opaque exactly when it, or a member it is under, was declared. *)
Lemma opaque_spec fields path :
  is_Some (cursor_at (matcher_build fields) path ≫= declaration)
  ↔ ∃ p, p `prefix_of` path ∧ p ∈ of_segments <$> fields.
Proof.
  destruct (matcher_build fields) as [m|] eqn:Hm.
  - rewrite cursor_at_spec. by setoid_rewrite (declared_build _ _ _ Hm).
  - destruct fields; [|done]. rewrite cursor_at_none. split; [by intros []|].
    intros (p & _ & Hp). by apply elem_of_nil in Hp.
Qed.

Definition MAX_EXTRACTED_TARGETS : nat := 512.
Definition MAX_INSPECTED_LEAVES : nat := 4096.

(** ** Extracted targets *)

Inductive TargetSlot := SPath | SUrl | SHost | SUnclassified.

#[export] Instance TargetSlot_eq_dec : EqDecision TargetSlot.
Proof. solve_decision. Defined.

Record NoncanonicalSpelling := mkNoncanonical { nc_raw : string; nc_normalized : string }.

Record SeenSets := mkSeen {
  seen_path : gset string;
  seen_url : gset string;
  seen_host : gset string;
  seen_unclassified : gset string
}.

Definition slot_set (seen : SeenSets) (slot : TargetSlot) : gset string :=
  match slot with
  | SPath => seen_path seen
  | SUrl => seen_url seen
  | SHost => seen_host seen
  | SUnclassified => seen_unclassified seen
  end.

Record ExtractedTargets := mkTargets {
  et_paths : list string;
  et_urls : list string;
  et_hosts : list string;
  et_noncanonical : list NoncanonicalSpelling;
  et_unclassified : list string;
  et_opaque_mask : Z;
  et_truncated : bool;
  et_seen : SeenSets
}.

Definition targets_new : ExtractedTargets := mkTargets [] [] [] [] [] 0 false (mkSeen ∅ ∅ ∅ ∅).

Definition slot_targets (t : ExtractedTargets) (slot : TargetSlot) : list string :=
  match slot with
  | SPath => et_paths t
  | SUrl => et_urls t
  | SHost => et_hosts t
  | SUnclassified => et_unclassified t
  end.

Definition target_count (t : ExtractedTargets) : nat :=
  length (et_paths t) + length (et_urls t) + length (et_hosts t) + length (et_unclassified t).

Definition set_truncated (t : ExtractedTargets) (b : bool) : ExtractedTargets :=
  mkTargets (et_paths t) (et_urls t) (et_hosts t) (et_noncanonical t) (et_unclassified t)
    (et_opaque_mask t) b (et_seen t).

(** The spelling goes to the set and to the vector of its slot. *)
Definition retain (t : ExtractedTargets) (slot : TargetSlot) (v : string) : ExtractedTargets :=
  let '(mkTargets ps us hs nc un om tr (mkSeen sp su sh sn)) := t in
  match slot with
  | SPath => mkTargets (ps ++ [v]) us hs nc un om tr (mkSeen ({[v]} ∪ sp) su sh sn)
  | SUrl => mkTargets ps (us ++ [v]) hs nc un om tr (mkSeen sp ({[v]} ∪ su) sh sn)
  | SHost => mkTargets ps us (hs ++ [v]) nc un om tr (mkSeen sp su ({[v]} ∪ sh) sn)
  | SUnclassified => mkTargets ps us hs nc (un ++ [v]) om tr (mkSeen sp su sh ({[v]} ∪ sn))
  end.

Definition push_target (t : ExtractedTargets) (slot : TargetSlot) (value : string)
  : ExtractedTargets :=
  if et_truncated t then t
  else if (MAX_EXTRACTED_TARGETS <=? target_count t)%nat then set_truncated t true
  else if bool_decide (value ∈ slot_set (et_seen t) slot) then t
  else retain t slot value.

(** [1u64.checked_shl(decl).unwrap_or(0)]. *)
Definition push_opaque (t : ExtractedTargets) (decl : nat) : ExtractedTargets :=
  mkTargets (et_paths t) (et_urls t) (et_hosts t) (et_noncanonical t) (et_unclassified t)
    (Z.lor (et_opaque_mask t) (if (decl <? 64)%nat then Z.shiftl 1 (Z.of_nat decl) else 0))
    (et_truncated t) (et_seen t).

(** [count_ones] of the mask. *)
Fixpoint count_ones (bits : nat) (mask : Z) : nat :=
  match bits with
  | O => 0
  | S b => (if Z.testbit mask (Z.of_nat b) then 1 else 0) + count_ones b mask
  end.

Definition opaque_fields (t : ExtractedTargets) : nat := count_ones 64 (et_opaque_mask t).

Definition MAX_NONCANONICAL : nat := 8.

Definition push_noncanonical (t : ExtractedTargets) (raw normalized : string) : ExtractedTargets :=
  if (length (et_noncanonical t) <? MAX_NONCANONICAL)%nat
  then mkTargets (et_paths t) (et_urls t) (et_hosts t)
         (et_noncanonical t ++ [mkNoncanonical raw normalized]) (et_unclassified t)
         (et_opaque_mask t) (et_truncated t) (et_seen t)
  else t.

(** ** Key attributes *)

Record KeyAttrs := mkAttrs {
  exact_path : bool;
  suffixed_path : bool;
  network_key : bool;
  payload_key : bool;
  host_named : bool
}.

Definition NO_ATTRS : KeyAttrs := mkAttrs false false false false false.

Definition attrs_of (key : string) : KeyAttrs :=
  let key_l := to_ascii_lowercase key in
  mkAttrs (is_exact_path_field_name_lowered key_l)
    (is_suffixed_path_field_name_lowered key key_l)
    (is_network_field_name_lowered key_l)
    (is_known_payload_field_name_lowered key_l)
    (one_of_names ["host"; "hosts"; "hostname"]%string key_l).

Definition is_path_value (a : KeyAttrs) (value : string) : bool :=
  exact_path a || (suffixed_path a && negb (looks_like_jsonpath_expression value)).

(** ** The walk *)

Record LeafWalk := mkWalk { lw_count : nat; lw_truncated : bool; lw_done : bool }.

Definition walk_new : LeafWalk := mkWalk 0 false false.
Definition walk_stopped (w : LeafWalk) : bool := lw_truncated w || lw_done w.

Section walk.
Context {St : Type} (sink : KeyAttrs → string → option nat → St → St * bool).

(** A scalar is counted; a string is handed to the sink. *)
Definition scalar_leaf (val : Json) (attrs : KeyAttrs) (opaque : option OpaqueMatcher)
    (ws : LeafWalk * St) : LeafWalk * St :=
  let '(w, st) := ws in
  let count := S (lw_count w) in
  if (MAX_INSPECTED_LEAVES <? count)%nat then (mkWalk count true (lw_done w), st)
  else
    match to_unquoted_string_str val with
    | Some s =>
        let '(st', go) := sink attrs s (opaque ≫= declaration) st in
        (mkWalk count (lw_truncated w) (lw_done w || negb go), st')
    | None => (mkWalk count (lw_truncated w) (lw_done w), st)
    end.

Definition member_attrs (name : string) (v : Json) : KeyAttrs :=
  if is_object v then NO_ATTRS else attrs_of name.

Fixpoint walk_json_scalars (val : Json) (attrs : KeyAttrs) (opaque : option OpaqueMatcher)
    (depth : nat) (ws : LeafWalk * St) : LeafWalk * St :=
  if (MAX_JSON_NESTING <? depth)%nat || walk_stopped ws.1 then ws
  else
    match val with
    | JObject _ ms =>
        (fix members (ms : list (string * Json)) (ws : LeafWalk * St) : LeafWalk * St :=
           match ms with
           | [] => ws
           | (name, v) :: rest =>
               if walk_stopped ws.1 then ws
               else members rest
                      (walk_json_scalars v (member_attrs name v) (descend opaque name) (S depth) ws)
           end) ms ws
    | JArray _ items =>
        (fix elements (items : list Json) (ws : LeafWalk * St) : LeafWalk * St :=
           match items with
           | [] => ws
           | v :: rest =>
               if walk_stopped ws.1 then ws
               else elements rest (walk_json_scalars v attrs opaque (S depth) ws)
           end) items ws
    | _ => scalar_leaf val attrs opaque ws
    end.

(** [params.arguments] under the declared members, then
    [params.inputResponses] under none: one budget of leaves for both. *)
Definition walk_arguments (json : Json) (opaque : option OpaqueMatcher) (ws : LeafWalk * St)
  : LeafWalk * St :=
  match params_member json "arguments" with
  | Some args => walk_json_scalars args NO_ATTRS opaque 0 ws
  | None => ws
  end.

Definition walk_responses (json : Json) (ws : LeafWalk * St) : LeafWalk * St :=
  match params_member json "inputResponses" with
  | Some responses => walk_json_scalars responses NO_ATTRS None 0 ws
  | None => ws
  end.
End walk.

(** ** Classification *)

Definition is_plain_ascii_token (value : string) : bool :=
  negb (is_empty value)
  && str_all (λ b, printable b
                   && negb (one_of ["/"; BACKSLASH_CHAR; ":"; "~"; "$"; "%"; "@"; "."]%char b)) value.

Section classify.
Context `{Unicode} `{FileSystem}.

Definition canonical_host (v : string) : string := canonicalize_policy_host domain_to_ascii v.

Definition classify_plain_token (attrs : KeyAttrs) (value : string) (opaque : option nat)
    (out : ExtractedTargets) : ExtractedTargets :=
  if is_path_value attrs value then push_target out SPath value
  else if network_key attrs then
    if dns_name_shape value then push_target out SHost (canonical_host value)
    else push_target out SUrl value
  else if is_secret_path_pre_normalized value then push_target out SPath value
  else if payload_key attrs then out
  else match opaque with
       | Some decl => push_opaque out decl
       | None => push_target out SUnclassified value
       end.

(** A path under its normalised spelling, noting that it differs. *)
Definition push_path (out : ExtractedTargets) (value normalized : string) : ExtractedTargets :=
  push_target (if String.eqb normalized value then out else push_noncanonical out value normalized)
    SPath normalized.

Definition classify_normalized_value (attrs : KeyAttrs) (value normalized : string)
    (opaque : option nat) (out : ExtractedTargets) : ExtractedTargets :=
  if starts_with_file_scheme normalized || looks_like_path normalized
  then push_path out value normalized
  else if looks_like_network_target_normalized normalized then
    if host_named attrs then push_target out SHost (canonical_host normalized)
    else push_target out SUrl value
  else if looks_like_host_or_socket normalized
  then push_target out SHost (canonical_host normalized)
  else if is_path_value attrs normalized || looks_like_path value
  then push_path out value normalized
  else if network_key attrs then
    if contains_str "://" value || starts_with "//" value then push_target out SUrl value
    else if looks_like_host_or_socket normalized || dns_name_shape normalized
    then push_target out SHost (canonical_host normalized)
    else push_target out SUrl value
  else if is_secret_path_pre_normalized normalized then push_target out SPath normalized
  else if payload_key attrs then out
  else match opaque with
       | Some decl => push_opaque out decl
       | None => push_target out SUnclassified normalized
       end.

Definition classify_target_string (attrs : KeyAttrs) (value : string) (opaque : option nat)
    (out : ExtractedTargets) : ExtractedTargets :=
  if is_plain_ascii_token value then classify_plain_token attrs value opaque out
  else match normalize_fs_argument value with
       | Ok normalized => classify_normalized_value attrs value normalized opaque out
       | Err _ => push_target out SPath value
       end.

(** The sink of the single-consumer walks. *)
Definition classify_sink (attrs : KeyAttrs) (s : string) (opaque : option nat)
    (out : ExtractedTargets) : ExtractedTargets * bool :=
  if et_truncated out then (out, false)
  else let out' := classify_target_string attrs s opaque out in (out', negb (et_truncated out')).

(** [out.truncated |= walk.truncated]. *)
Definition finish (ws : LeafWalk * ExtractedTargets) : ExtractedTargets :=
  set_truncated ws.2 (et_truncated ws.2 || lw_truncated ws.1).

Definition collect_argument_targets (json : Json) (opaque : option OpaqueMatcher)
  : ExtractedTargets :=
  finish (walk_responses classify_sink json
            (walk_arguments classify_sink json opaque (walk_new, targets_new))).

Definition input_response_targets (json : Json) : ExtractedTargets :=
  finish (walk_responses classify_sink json (walk_new, targets_new)).

Definition extract_fs_targets (line : result Json string) : list string :=
  match line with
  | Ok json => et_paths (collect_argument_targets json None)
  | Err _ => []
  end.

Definition request_has_host_or_url (line : result Json string) : bool :=
  match line with
  | Ok json =>
      let extracted := collect_argument_targets json None in
      et_truncated extracted || negb (bool_decide (et_hosts extracted = []))
      || negb (bool_decide (et_urls extracted = []))
  | Err _ => false
  end.

(** ** Collected leaves *)

Inductive LeafNorm := LPlain | LNormalized (n : string) | LFailed.

Record ScalarLeaf := mkLeaf {
  leaf_attrs : KeyAttrs;
  leaf_raw : string;
  leaf_norm : LeafNorm;
  leaf_opaque : option nat
}.

Definition leaf_of (attrs : KeyAttrs) (raw : string) (opaque : option nat) : ScalarLeaf :=
  mkLeaf attrs raw
    (if is_plain_ascii_token raw then LPlain
     else match normalize_fs_argument raw with
          | Ok n => LNormalized n
          | Err _ => LFailed
          end) opaque.

Definition classify_leaf (leaf : ScalarLeaf) (out : ExtractedTargets) : ExtractedTargets :=
  match leaf_norm leaf with
  | LPlain => classify_plain_token (leaf_attrs leaf) (leaf_raw leaf) (leaf_opaque leaf) out
  | LFailed => push_target out SPath (leaf_raw leaf)
  | LNormalized n => classify_normalized_value (leaf_attrs leaf) (leaf_raw leaf) n (leaf_opaque leaf) out
  end.

Record CollectedLeaves := mkCollected { cl_leaves : list ScalarLeaf; cl_truncated : bool }.

Fixpoint replay (leaves : list ScalarLeaf) (out : ExtractedTargets) : ExtractedTargets :=
  match leaves with
  | [] => out
  | leaf :: rest => if et_truncated out then out else replay rest (classify_leaf leaf out)
  end.

Definition collected_classify (c : CollectedLeaves) : ExtractedTargets :=
  let out := replay (cl_leaves c) targets_new in
  if cl_truncated c then set_truncated out true else out.

(** The sink that also keeps the leaf. *)
Definition collect_sink (attrs : KeyAttrs) (s : string) (opaque : option nat)
    (st : ExtractedTargets * list ScalarLeaf) : (ExtractedTargets * list ScalarLeaf) * bool :=
  let '(out, leaves) := st in
  if et_truncated out then (st, false)
  else
    let leaf := leaf_of attrs s opaque in
    let out' := classify_leaf leaf out in
    ((out', leaves ++ [leaf]), negb (et_truncated out')).

Definition walk_combined_classified (json : Json) (opaque : option OpaqueMatcher)
  : ExtractedTargets * CollectedLeaves :=
  let '(w, (out, leaves)) :=
    walk_responses collect_sink json
      (walk_arguments collect_sink json opaque (walk_new, (targets_new, []))) in
  ((if lw_truncated w then set_truncated out true else out), mkCollected leaves (lw_truncated w)).

(** The first consumer walks, the next ones replay. *)
Definition combined_classify (json : Json) (shared : option CollectedLeaves)
    (opaque : option OpaqueMatcher) : ExtractedTargets * option CollectedLeaves :=
  match shared with
  | Some leaves => (collected_classify leaves, shared)
  | None => let '(targets, leaves) := walk_combined_classified json opaque in (targets, Some leaves)
  end.

(** ** The extraction rules of a use-role tool *)

Definition OVER_BUDGET : string := "argument target extraction exceeded the work budget".
Definition OVER_COUNT : string := "extracted target set exceeded the count bound".

Record UseState := mkUse {
  use_out : list string;
  use_noncanonical : list NoncanonicalSpelling;
  use_covered : bool;
  use_combined : option CollectedLeaves
}.

(** The values of a pointer, each normalised when it can be. *)
Fixpoint pointer_values (values : list string) (out : list string) (nc : list NoncanonicalSpelling)
  : list string * list NoncanonicalSpelling :=
  match values with
  | [] => (out, nc)
  | value :: rest =>
      match normalize_fs_argument value with
      | Ok normalized =>
          pointer_values rest (out ++ [normalized])
            (if String.eqb normalized value then nc else nc ++ [mkNoncanonical value normalized])
      | Err _ => pointer_values rest (out ++ [value]) nc
      end
  end.

Definition use_rule (json : Json) (opaque : option OpaqueMatcher) (st : UseState) (rule : DeputyRule)
  : result UseState string :=
  st' ←?
    match rule with
    | RShape FsTargets =>
        let '(targets, combined) := combined_classify json (use_combined st) opaque in
        if et_truncated targets then Err OVER_BUDGET
        else Ok (mkUse (use_out st ++ et_paths targets)
                   (use_noncanonical st ++ et_noncanonical targets) true combined)
    | RShape McpListResult => Ok st
    | RPointer p =>
        let outcome := resolve p json in
        if po_truncated outcome
        then Err ("extraction at " +:+ dquote +:+ ptr_source p +:+ dquote
                    +:+ " exceeded the value bound")
        else
          let '(out, nc) := pointer_values (po_values outcome) (use_out st) (use_noncanonical st) in
          Ok (mkUse out nc (use_covered st) (use_combined st))
    end;
  if (MAX_EXTRACTED_TARGETS <? length (use_out st'))%nat then Err OVER_COUNT else Ok st'.

Fixpoint use_rules (json : Json) (opaque : option OpaqueMatcher) (st : UseState)
    (rules : list DeputyRule) : result UseState string :=
  match rules with
  | [] => Ok st
  | rule :: rest => st' ←? use_rule json opaque st rule; use_rules json opaque st' rest
  end.

(** The retry channel, when no rule walked it. *)
Definition use_responses (json : Json) (st : UseState) : result UseState string :=
  if use_covered st then Ok st
  else
    let targets := input_response_targets json in
    if et_truncated targets then Err "inputResponses target extraction exceeded the work budget"
    else
      let out := use_out st ++ et_paths targets in
      if (MAX_EXTRACTED_TARGETS <? length out)%nat then Err OVER_COUNT
      else Ok (mkUse out (use_noncanonical st ++ et_noncanonical targets) false (use_combined st)).

Definition unrecognized_reason (bad : string) : string :=
  "unrecognized argument '" +:+ bad +:+ "' may carry an undeclared resource "
  +:+ "selector — restricted tools accept only declared fields".

Definition noncanonical_reason (nc : NoncanonicalSpelling) : string :=
  "path argument '" +:+ nc_raw nc +:+ "' is not in canonical form; resend the canonical spelling '"
  +:+ nc_normalized nc +:+ "'".

Definition extract_deputy_use_targets (line : result Json string) (rules : list DeputyRule)
    (opaque_fields : list OpaqueField) : result (list string) string :=
  match line with
  | Err e => Err ("request is not valid JSON: " +:+ e)
  | Ok json =>
      let opaque := matcher_build opaque_fields in
      st ←? use_rules json opaque (mkUse [] [] false None) rules;
      st ←? use_responses json st;
      let '(classified, _) := combined_classify json (use_combined st) opaque in
      if et_truncated classified then Err OVER_BUDGET
      else
        match List.find selector_plausible (et_unclassified classified) with
        | Some bad => Err (unrecognized_reason bad)
        | None =>
            match head (use_noncanonical st) with
            | Some nc => Err (noncanonical_reason nc)
            | None => Ok (use_out st)
            end
        end
  end.
End classify.
