(* ===== verification/SubPolicy.v ===== *)
(** * SubPolicy: the contract of one tool

    [src/src/auditor/checker/sub_policy.rs] and the tool half of
    [src/src/policy/mod.rs]: the filesystem and network rules of a tool, the
    global outbound rules, the secret overlay and the read-only guard, applied
    to the targets a call names. *)

From S2P Require Import Prelude Text Percent Json IpAddr PolicyHost PolicyCidr Outbound Session.
From S2P Require Import Deputy PathText PathResolve Targets.

Open Scope result_scope.

(** ** The policy of a tool *)

Record FsToolPolicy := mkFsTool {
  fs_allowed_paths : list string;
  fs_read_only_paths : list string;
  fs_read_write_paths : list string;
  fs_denied_paths : list string;
  fs_allow_specified : bool;
  fs_require_path : option bool
}.

Definition allows_pathless_call (fs : FsToolPolicy) : bool :=
  bool_decide (fs_require_path fs = Some false) && fs_allow_specified fs
  && bool_decide (fs_allowed_paths fs = []) && bool_decide (fs_read_only_paths fs = [])
  && bool_decide (fs_read_write_paths fs = []).

Record ToolSyscallPolicy := mkSyscalls { sc_allowed : list string; sc_denied : list string }.

Inductive InputResponsesMode := IRAuto | IRDeny | IRAllow | IRInspect.
Inductive ResolvedInputResponses := RDeny | RAllow | RInspect.

Definition resolve_input_responses (m : InputResponsesMode) (has_security_contract : bool)
  : ResolvedInputResponses :=
  match m with
  | IRAuto => if has_security_contract then RDeny else RAllow
  | IRDeny => RDeny
  | IRAllow => RAllow
  | IRInspect => RInspect
  end.

Record ToolPolicy := mkToolPolicy {
  tp_name : string;
  tp_allowed : bool;
  tp_args_schema : option string;
  tp_side_effect : option string;
  tp_fs : option FsToolPolicy;
  tp_syscalls : option ToolSyscallPolicy;
  tp_network : option ToolNetworkPolicy;
  tp_input_responses : InputResponsesMode;
  tp_deputy : option DeputyPolicy;
  tp_opaque_fields : list OpaqueField
}.

Definition nonempty {A} (l : list A) : bool := negb (length l =? 0)%nat.

Definition fs_restricts (fs : FsToolPolicy) : bool :=
  fs_allow_specified fs || bool_decide (is_Some (fs_require_path fs))
  || nonempty (fs_allowed_paths fs) || nonempty (fs_denied_paths fs).

Definition net_restricts (net : ToolNetworkPolicy) : bool :=
  t_allow_specified net || nonempty (t_allowed_hosts net) || nonempty (t_allowed_cidrs net)
  || nonempty (t_denied_hosts net) || nonempty (t_denied_cidrs net) || nonempty (t_egress_rules net).

Definition has_security_contract (tool : ToolPolicy) : bool :=
  bool_decide (is_Some (tp_args_schema tool)) || bool_decide (is_Some (tp_side_effect tool))
  || is_some_and (tp_fs tool) fs_restricts || is_some_and (tp_network tool) net_restricts
  || is_some_and (tp_syscalls tool) (λ sc, nonempty (sc_allowed sc) || nonempty (sc_denied sc))
  || is_some_and (tp_deputy tool) (λ d, bool_decide (dp_role d = Use)).

Record Policy := mkPolicy {
  pol_tools : list ToolPolicy;
  pol_secret_overlay : bool;
  pol_outbound : OutboundPolicy;
  pol_trajectory : bool;
  pol_trajectory_rules : list TrajectoryRule
}.

(** Any rule of the global outbound block. *)
Definition outbound_restricts (o : OutboundPolicy) : bool :=
  nonempty (denied_hosts o) || nonempty (denied_cidrs o) || deny_all_others o
  || nonempty (allowed o) || nonempty (allowed_cidrs o).

Record PolicyViolation := mkViolation { pv_tool_name : string; pv_reason : string }.

(** ** Network targets *)

Record NetTarget := mkNetTarget { nt_host : string; nt_port : option Z; nt_proto : EgressProto }.

Definition UDP_SCHEMES : list string :=
  ["udp"; "dns"; "ntp"; "quic"; "stun"; "stuns"; "dtls"; "sip"; "sips"; "mdns"; "tftp"; "snmp"]%string.

Definition scheme_proto (scheme : string) : EgressProto :=
  if one_of_names UDP_SCHEMES (to_ascii_lowercase scheme) then Udp else Tcp.

Definition scheme_default_port (scheme : string) : option Z :=
  str_match (to_ascii_lowercase scheme)
    [(["http"; "ws"], Some 80%Z); (["https"; "wss"], Some 443%Z); (["ftp"], Some 21%Z);
     (["ssh"], Some 22%Z); (["telnet"], Some 23%Z); (["smtp"], Some 25%Z); (["dns"], Some 53%Z);
     (["pop3"], Some 110%Z); (["pop3s"], Some 995%Z); (["ntp"], Some 123%Z);
     (["imap"], Some 143%Z); (["imaps"], Some 993%Z); (["ldap"], Some 389%Z);
     (["ldaps"], Some 636%Z); (["smtps"], Some 465%Z)]%string None.

(** [url.split("://").next()]. *)
Definition url_scheme (url : string) : string :=
  match split_once_str "://" url with
  | Some (scheme, _) => scheme
  | None => url
  end.

(** Runs a check over a list, stopping at the first refusal. *)
Fixpoint all_ok {A E} (f : A → result unit E) (l : list A) : result unit E :=
  match l with
  | [] => Ok ()
  | x :: rest => _ ←? f x; all_ok f rest
  end.

(** A refusal when the condition holds. *)
Definition refuse_if (b : bool) (reason : string) : result unit string :=
  if b then Err reason else Ok ().

Definition literal_ip (host : string) : option IpAddr := parse_ip (normalize_policy_host host).

Section check.
Context `{Unicode} `{FileSystem}.

Definition host_match (host pattern : string) : bool := host_matches domain_to_ascii host pattern.

Definition egress_dest_matches (dest : EgressDest) (target : NetTarget) : bool :=
  match dest with
  | Host h => host_match (nt_host target) h
  | Cidr c => is_some_and (literal_ip (nt_host target)) (cidr_contains c)
  | Unix _ => false
  end.

Definition host_target (raw : string) : NetTarget :=
  let '(host, port, _) := analyze_policy_host raw in mkNetTarget host port Tcp.

Definition url_target (url : string) : option NetTarget :=
  match extract_host_from_url url with
  | Some h =>
      let '(_, port, _) := analyze_policy_host url in
      let scheme := url_scheme url in
      Some (mkNetTarget h (if port is Some p then Some p else scheme_default_port scheme)
              (scheme_proto scheme))
  | None => None
  end.

Fixpoint url_targets (restricted : bool) (urls : list string) : result (list NetTarget) string :=
  match urls with
  | [] => Ok []
  | url :: rest =>
      match url_target url with
      | Some t => ts ←? url_targets restricted rest; Ok (t :: ts)
      | None =>
          if restricted
          then Err ("invalid or unparseable URL '" +:+ url +:+ "' in network-restricted tool")
          else url_targets restricted rest
      end
  end.

(** Covered by an allow-list of host patterns and ranges. *)
Definition host_listed (hosts cidrs : list string) (host : string) : bool :=
  existsb (host_match host) hosts
  || is_some_and (literal_ip host) (λ ip, existsb (λ c, cidr_contains c ip) cidrs).

(** The deny lists: hosts first, then ranges for a literal address. *)
Definition deny_lists (hosts cidrs : list string) (by_host : string) (by_cidr : string → string)
    (host : string) : result unit string :=
  _ ←? refuse_if (existsb (host_match host) hosts) by_host;
  match literal_ip host with
  | Some ip => all_ok (λ c, refuse_if (cidr_contains c ip) (by_cidr c)) cidrs
  | None => Ok ()
  end.

Definition global_check (o : OutboundPolicy) (target : NetTarget) : result unit string :=
  let host := nt_host target in
  _ ←? deny_lists (denied_hosts o) (denied_cidrs o)
         ("host '" +:+ host +:+ "' denied by global network policy")
         (λ c, "host '" +:+ host +:+ "' denied by global network cidr rule '" +:+ c +:+ "'") host;
  refuse_if (deny_all_others o && negb (host_listed (allowed o) (allowed_cidrs o) host))
    ("host '" +:+ host +:+ "' not in global outbound allow list").

(** A deny rule overlaps a target whose port is unknown; an allow rule does
    not cover one. *)
Definition rule_denies (target : NetTarget) (rule : EgressRule) : bool :=
  egress_dest_matches (eg_dest rule) target && proto_covers (eg_proto rule) (nt_proto target)
  && (bool_decide (eg_port rule = None) || bool_decide (nt_port target = None)
      || bool_decide (eg_port rule = nt_port target)).

Definition rule_allows (target : NetTarget) (rule : EgressRule) : bool :=
  egress_dest_matches (eg_dest rule) target && proto_covers (eg_proto rule) (nt_proto target)
  && is_none_or (eg_port rule) (λ p, bool_decide (nt_port target = Some p)).

Definition qualified_check (rules : list EgressRule) (target : NetTarget) : result unit string :=
  let host := nt_host target in
  _ ←? refuse_if (existsb (rule_denies target) (List.filter (λ r, negb (eg_allow r)) rules))
         ("destination '" +:+ host +:+ "' denied by qualified tool egress rule");
  refuse_if (negb (existsb (rule_allows target) (List.filter eg_allow rules)))
    ("destination '" +:+ host +:+ "' not covered by tool egress rules "
       +:+ "(proto/port qualifiers apply)").

Definition tool_check (net : ToolNetworkPolicy) (target : NetTarget) : result unit string :=
  let host := nt_host target in
  _ ←? deny_lists (t_denied_hosts net) (t_denied_cidrs net)
         ("host '" +:+ host +:+ "' denied by tool network sub-policy")
         (λ c, "host '" +:+ host +:+ "' denied by tool network cidr rule '" +:+ c +:+ "'") host;
  if nonempty (t_egress_rules net) then qualified_check (egress_rule_set net) target
  else refuse_if
         ((t_allow_specified net || nonempty (t_allowed_hosts net) || nonempty (t_allowed_cidrs net))
          && negb (host_listed (t_allowed_hosts net) (t_allowed_cidrs net) host))
         ("host '" +:+ host +:+ "' not in tool network allowed hosts").

Definition requires_host_target (net : ToolNetworkPolicy) : bool :=
  nonempty (t_allowed_hosts net) || nonempty (t_denied_hosts net) || nonempty (t_allowed_cidrs net)
  || nonempty (t_denied_cidrs net) || nonempty (t_egress_rules net).

(** ** Filesystem targets *)

Record ResolvedFsPatterns := mkPatterns { rp_denied : list string; rp_allowed : list string }.

Fixpoint resolve_patterns (patterns : list string) : result (list string) string :=
  match patterns with
  | [] => Ok []
  | p :: rest =>
      r ←? match resolve_policy_pattern p with
           | Ok r => Ok r
           | Err e => Err ("policy path '" +:+ p +:+ "' could not be resolved: " +:+ e)
           end;
      rs ←? resolve_patterns rest;
      Ok (r :: rs)
  end.

Definition resolve_fs_patterns (fs : FsToolPolicy) : result ResolvedFsPatterns string :=
  denied ←? resolve_patterns (fs_denied_paths fs);
  allowed ←? resolve_patterns (fs_allowed_paths fs);
  Ok (mkPatterns denied allowed).

(** The object a path argument names. *)
Definition resolve_argument (path : string) : result string string :=
  match normalize_fs_argument path with
  | Err e => Err ("path '" +:+ path +:+ "' could not be normalized: " +:+ e)
  | Ok effective =>
      match resolve_for_authorization effective with
      | Err e => Err ("path '" +:+ path +:+ "' could not be resolved: " +:+ e)
      | Ok resolved => Ok resolved
      end
  end.

Definition authorize_one_path_prepared (fs : FsToolPolicy) (patterns : ResolvedFsPatterns)
    (path : string) : result unit string :=
  resolved ←? resolve_argument path;
  let named := "path '" +:+ path +:+ "' (resolved '" +:+ resolved in
  _ ←? refuse_if (existsb (path_matches_lexical resolved) (rp_denied patterns))
         (named +:+ "') denied by tool fs sub-policy");
  refuse_if ((fs_allow_specified fs || nonempty (fs_allowed_paths fs))
             && negb (existsb (path_matches_lexical resolved) (rp_allowed patterns)))
    (named +:+ "') not in tool fs allowed paths").

Definition secret_overlay_applies_to_url (url : string) : bool :=
  starts_with_file_scheme url || is_opaque_file_uri url || uri_scheme_slot_is_dirty url
  || negb (looks_like_network_target url).

Definition apply_secret_overlay (extracted : ExtractedTargets) : result unit string :=
  _ ←? all_ok overlay_denies (et_paths extracted);
  all_ok (λ url, if secret_overlay_applies_to_url url then overlay_denies url else Ok ())
    (et_urls extracted).

(** ** The check *)

Record SubPolicyOutcome := mkOutcomeSub { so_sub_policy : bool; so_opaque_fields : nat }.

Definition is_read_only (tool : ToolPolicy) : bool :=
  bool_decide (SideEffect_parse (default "" (tp_side_effect tool)) = Ok ReadOnly).

Definition fs_restricted (tool : ToolPolicy) : bool := is_some_and (tp_fs tool) fs_restricts.

Definition net_contract (tool : ToolPolicy) (policy : Policy) : bool :=
  is_some_and (tp_network tool) net_restricts || is_read_only tool
  || outbound_restricts (pol_outbound policy).

Definition restricted (tool : ToolPolicy) (policy : Policy) : bool :=
  fs_restricted tool || net_contract tool policy.

(** The guards on the extraction itself. *)
Definition check_extraction (tool : ToolPolicy) (policy : Policy) (extracted : ExtractedTargets)
    : result unit string :=
  _ ←? refuse_if (is_read_only tool && (nonempty (et_hosts extracted) || nonempty (et_urls extracted)))
         ("side_effect=" +:+ dquote +:+ "read_only" +:+ dquote +:+ " forbids host/URL arguments");
  _ ←? refuse_if (restricted tool policy && et_truncated extracted) OVER_BUDGET;
  match (if restricted tool policy then List.find selector_plausible (et_unclassified extracted)
         else None) with
  | Some bad => Err (unrecognized_reason bad)
  | None => Ok ()
  end.

Definition check_fs (tool : ToolPolicy) (extracted : ExtractedTargets) : result unit string :=
  match tp_fs tool with
  | Some fs =>
      if fs_restricted tool then
        _ ←? refuse_if (negb (nonempty (et_paths extracted)) && negb (allows_pathless_call fs))
               ("filesystem-restricted tool is missing a path target "
                  +:+ "(checked path/file/uri and nested string fields)");
        if nonempty (et_paths extracted) then
          patterns ←? resolve_fs_patterns fs;
          all_ok (authorize_one_path_prepared fs patterns) (et_paths extracted)
        else Ok ()
      else Ok ()
  | None => Ok ()
  end.

Definition check_canonical (tool : ToolPolicy) (extracted : ExtractedTargets) : result unit string :=
  match (if fs_restricted tool then head (et_noncanonical extracted) else None) with
  | Some nc => Err (noncanonical_reason nc)
  | None => Ok ()
  end.

Definition net_targets (tool : ToolPolicy) (policy : Policy) (extracted : ExtractedTargets)
    : result (list NetTarget) string :=
  from_urls ←? url_targets (bool_decide (is_Some (tp_network tool))
                            || outbound_restricts (pol_outbound policy)) (et_urls extracted);
  Ok ((host_target <$> et_hosts extracted) ++ from_urls).

Definition check_tool_network (tool : ToolPolicy) (targets : list NetTarget) : result unit string :=
  match tp_network tool with
  | Some net =>
      _ ←? refuse_if (requires_host_target net && negb (nonempty targets))
             ("network-restricted tool is missing a url/host target "
                +:+ "(checked url/host/uri and nested string fields)");
      all_ok (tool_check net) targets
  | None => Ok ()
  end.

(** Whether any sub-policy ran. *)
Definition sub_policy_ran (tool : ToolPolicy) (policy : Policy) (extracted : ExtractedTargets)
    (targets : list NetTarget) : bool :=
  bool_decide (is_Some (tp_fs tool))
  || (pol_secret_overlay policy && (nonempty (et_paths extracted) || nonempty (et_urls extracted)))
  || bool_decide (is_Some (tp_network tool))
  || (nonempty targets && (nonempty (denied_hosts (pol_outbound policy))
                           || nonempty (denied_cidrs (pol_outbound policy))))
  || bool_decide (is_Some (tp_syscalls tool)).

Definition check_tool_sub_policy (json : Json) (tool : ToolPolicy) (policy : Policy)
    : result SubPolicyOutcome string :=
  let extracted := collect_argument_targets json (matcher_build (tp_opaque_fields tool)) in
  _ ←? check_extraction tool policy extracted;
  _ ←? check_fs tool extracted;
  _ ←? (if pol_secret_overlay policy then apply_secret_overlay extracted else Ok ());
  _ ←? check_canonical tool extracted;
  targets ←? net_targets tool policy extracted;
  _ ←? all_ok (global_check (pol_outbound policy)) targets;
  _ ←? check_tool_network tool targets;
  Ok (mkOutcomeSub (sub_policy_ran tool policy extracted targets) (opaque_fields extracted)).
End check.
