(* ===== verification/SchemaDecimal.v ===== *)
(** * SchemaDecimal: exact decimal numbers

    The [ExactDecimal] of [src/src/auditor/schema_validator.rs]: numbers of a
    JSON text compared and divided digit by digit, without floating point.
    Digits are most significant first, [exp] is the power of ten of the first
    one; a parsed number has no zero at either end. Then the value a numeric
    text denotes, and that the digit arithmetic computes on it: parsing keeps
    the value, comparison is the comparison of values and the remainder loop
    is divisibility. *)

From S2P Require Import Prelude Text IpAddr RpcId.

Open Scope Z_scope.
Open Scope result_scope.

Definition I64_MAX : Z := 9223372036854775807.
Definition I64_MIN : Z := -9223372036854775808.

Definition in_i64 (n : Z) : bool := (I64_MIN <=? n) && (n <=? I64_MAX).

(** The checked operations of [i64]. *)
Definition checked_i64 (n : Z) : option Z := if in_i64 n then Some n else None.

(** ** [str::parse::<i64>] *)

Fixpoint i64_digits (sign acc : Z) (s : string) : result Z string :=
  match s with
  | EmptyString => Ok acc
  | String c s' =>
      match to_digit 10 c with
      | None => Err "invalid digit found in string"
      | Some d =>
          let acc' := acc * 10 + sign * d in
          if in_i64 acc' then i64_digits sign acc' s'
          else Err (if sign <? 0 then "number too small to fit in target type"
                    else "number too large to fit in target type")
      end
  end.

Definition parse_i64 (s : string) : result Z string :=
  match s with
  | EmptyString => Err "cannot parse integer from empty string"
  | String c rest =>
      if (Ascii.eqb c "+" || Ascii.eqb c "-") && is_empty rest
      then Err "invalid digit found in string"
      else if Ascii.eqb c "+" then i64_digits 1 0 rest
      else if Ascii.eqb c "-" then i64_digits (-1) 0 rest
      else i64_digits 1 0 s
  end.

(** ** Parsing *)

Record ExactDecimal := mkDecimal { d_negative : bool; d_digits : list Z; d_exp : Z }.

#[export] Instance ExactDecimal_eq_dec : EqDecision ExactDecimal.
Proof. solve_decision. Defined.

Fixpoint raw_digits (part : string) : option (list Z) :=
  match part with
  | EmptyString => Some []
  | String c rest =>
      if is_ascii_digit c then (λ ds, code c - 48 :: ds) <$> raw_digits rest else None
  end.

(** The leading zeros of a digit list, and the list without them. *)
Fixpoint leading_zeros (ds : list Z) : nat :=
  match ds with
  | 0 :: ds' => S (leading_zeros ds')
  | _ => O
  end.
Definition trim_leading_zeros (ds : list Z) : list Z := drop (leading_zeros ds) ds.
Definition trim_trailing_zeros (ds : list Z) : list Z := rev (trim_leading_zeros (rev ds)).

(** The first [e] or [E]. *)
Definition is_exp_char (c : ascii) : bool := Ascii.eqb c "e" || Ascii.eqb c "E".

Fixpoint split_exp (s : string) : option (string * string) :=
  match s with
  | EmptyString => None
  | String c rest =>
      if is_exp_char c then Some (EmptyString, rest)
      else prod_map (String c) id <$> split_exp rest
  end.

Definition split_sign (s : string) : bool * string :=
  match strip_prefix "-" s with
  | Some rest => (true, rest)
  | None => (false, default s (strip_prefix "+" s))
  end.

(** Sign, integer digits, fraction digits and exponent of a number. *)
Definition number_parts (s : string) : result (bool * list Z * list Z * Z) string :=
  let '(negative, rest) := split_sign s in
  parts ←?
     match split_exp rest with
     | Some (mantissa, exp_str) =>
         match parse_i64 exp_str with
         | Ok e => Ok (mantissa, e)
         | Err e => Err ("invalid exponent '" +:+ exp_str +:+ "': " +:+ e)
         end
     | None => Ok (rest, 0)
     end;
  let '(mantissa, exp_val) := parts in
  let '(int_part, frac_part) := default (mantissa, EmptyString) (split_once "." mantissa) in
  match raw_digits int_part with
  | None => Err ("invalid character in integer part of '" +:+ s +:+ "'")
  | Some ints =>
      match raw_digits frac_part with
      | None => Err ("invalid character in fraction part of '" +:+ s +:+ "'")
      | Some fracs => Ok (negative, ints, fracs, exp_val)
      end
  end.

Definition decimal_parse (input : string) : result ExactDecimal string :=
  let s := trim input in
  if is_empty s then Err "empty numeric string"
  else
    parts ←? number_parts s;
    let '(negative, ints, fracs, exp_val) := parts in
    let raw := ints ++ fracs in
    let start_idx := leading_zeros raw in
    let trimmed := trim_trailing_zeros (trim_leading_zeros raw) in
    if (length trimmed =? 0)%nat then Ok (mkDecimal false [] 0)
    else
      match checked_i64 (Z.of_nat (length ints) - 1 - Z.of_nat start_idx + exp_val) with
      | None => Err "exponent overflow"
      | Some exp => Ok (mkDecimal negative trimmed exp)
      end.

(** ** Comparison *)

(** Lexicographic, a proper prefix being less: [Iterator::cmp]. *)
Fixpoint digits_cmp (a b : list Z) : comparison :=
  match a, b with
  | [], [] => Eq
  | [], _ => Lt
  | _, [] => Gt
  | x :: a', y :: b' => match x ?= y with Eq => digits_cmp a' b' | c => c end
  end.

Definition cmp_abs (a b : ExactDecimal) : comparison :=
  match d_exp a ?= d_exp b with
  | Eq => digits_cmp (d_digits a) (d_digits b)
  | c => c
  end.

Definition is_zero (d : ExactDecimal) : bool := (length (d_digits d) =? 0)%nat.

Definition decimal_cmp (a b : ExactDecimal) : comparison :=
  if is_zero a && is_zero b then Eq
  else if is_zero a then if d_negative b then Gt else Lt
  else if is_zero b then if d_negative a then Lt else Gt
  else match d_negative a, d_negative b with
       | true, false => Lt
       | false, true => Gt
       | false, false => cmp_abs a b
       | true, true => cmp_abs b a
       end.

Definition compare_numeric_strings (a b : string) : result comparison string :=
  da ←? decimal_parse a;
  db ←? decimal_parse b;
  Ok (decimal_cmp da db).

Definition numbers_equal (a b : string) : bool :=
  match decimal_parse a, decimal_parse b with
  | Ok da, Ok db => bool_decide (decimal_cmp da db = Eq)
  | _, _ => String.eqb a b
  end.

(** ** Divisibility *)

Definition MAX_MULTIPLE_OF_COST : Z := 1048576.

(** [a.len().cmp(&b.len()).then_with(...)]. *)
Definition cmp_digits (a b : list Z) : comparison :=
  match Nat.compare (length a) (length b) with
  | Eq => digits_cmp a b
  | c => c
  end.

(** Subtraction from the least significant digit with a borrow; both lists
    are given least significant first. *)
Fixpoint sub_borrow (a b : list Z) (borrow : Z) : list Z :=
  match a with
  | [] => []
  | x :: a' =>
      let d := x - default 0 (head b) - borrow in
      if d <? 0 then d + 10 :: sub_borrow a' (tail b) 1 else d :: sub_borrow a' (tail b) 0
  end.

Definition sub_assign (a b : list Z) : list Z :=
  trim_leading_zeros (rev (sub_borrow (rev a) (rev b) 0)).

(** The [while] loop; [fuel] bounds the subtractions of one digit. *)
Fixpoint reduce (fuel : nat) (rem divisor : list Z) : list Z :=
  match fuel with
  | O => rem
  | S f => match cmp_digits rem divisor with
           | Lt => rem
           | _ => reduce f (sub_assign rem divisor) divisor
           end
  end.

Definition mod_step (divisor rem : list Z) (d : Z) : list Z :=
  reduce 10 (trim_leading_zeros (rem ++ [d])) divisor.

Definition digits_mod_is_zero (dividend divisor : list Z) : bool :=
  forallb (Z.eqb 0) (foldl (mod_step divisor) [] dividend).

(** [Vec::resize(len, 0)] to a longer length. *)
Definition pad_zeros (ds : list Z) (len : Z) : list Z :=
  ds ++ replicate (Z.to_nat len - length ds) 0.

Definition SPAN_OVERFLOW : string :=
  "multipleOf operands exceed evaluation bound (exponent span overflows)".

Definition or_overflow (o : option Z) : result Z string :=
  match o with Some z => Ok z | None => Err SPAN_OVERFLOW end.

(** Both operands padded to their common scale, when that is not too long. *)
Definition multiple_cells (dv dd : ExactDecimal) : result bool string :=
  let digits d := Z.of_nat (length (d_digits d)) in
  sv ←? or_overflow (checked_i64 (d_exp dv - (digits dv - 1)));
  sd ←? or_overflow (checked_i64 (d_exp dd - (digits dd - 1)));
  let t := Z.min sv sd in
  span_a ←? or_overflow (checked_i64 (sv - t));
  len_a ←? or_overflow (checked_i64 (digits dv + span_a));
  span_b ←? or_overflow (checked_i64 (sd - t));
  len_b ←? or_overflow (checked_i64 (digits dd + span_b));
  cost ←? or_overflow (checked_i64 (len_a * len_b));
  if MAX_MULTIPLE_OF_COST <? cost
  then Err ("multipleOf operands exceed evaluation bound (" +:+ show_dec cost +:+ " digit cells > "
              +:+ show_dec MAX_MULTIPLE_OF_COST +:+ ")")
  else Ok (digits_mod_is_zero (pad_zeros (d_digits dv) len_a) (pad_zeros (d_digits dd) len_b)).

Definition is_multiple_of (value divisor : string) : result bool string :=
  dv ←? decimal_parse value;
  dd ←? match decimal_parse divisor with
        | Ok d => Ok d
        | Err e => Err ("invalid multipleOf '" +:+ divisor +:+ "': " +:+ e)
        end;
  if d_negative dd || is_zero dd
  then Err ("multipleOf must be greater than 0, got '" +:+ divisor +:+ "'")
  else if is_zero dv then Ok true
  else multiple_cells dv dd.

(** ** Values of digit lists *)

Definition dvalue (ds : list Z) : Z := foldl (λ a d, a * 10 + d) 0 ds.

Definition digit (d : Z) : Prop := 0 ≤ d ≤ 9.

(** [10 ^ length]. *)
Definition width {A} (l : list A) : Z := 10 ^ Z.of_nat (length l).

Lemma width_pos {A} (l : list A) : 0 < width l.
Proof. apply Z.pow_pos_nonneg; lia. Qed.

Lemma width_app {A} (l k : list A) : width (l ++ k) = width l * width k.
Proof. unfold width. rewrite length_app, Nat2Z.inj_add, Z.pow_add_r by lia. done. Qed.

Lemma width_cons {A} (x : A) l : width (x :: l) = 10 * width l.
Proof. unfold width. cbn [length]. rewrite Nat2Z.inj_succ, Z.pow_succ_r by lia. done. Qed.

Lemma foldl_dvalue ds : ∀ a, foldl (λ a d, a * 10 + d) a ds = a * width ds + dvalue ds.
Proof.
  induction ds as [|d ds IH]; intros a; [unfold dvalue, width; cbn; lia|]. unfold dvalue. cbn [foldl].
  rewrite IH, (IH (0 * 10 + d)), width_cons. ring.
Qed.

Lemma dvalue_app a b : dvalue (a ++ b) = dvalue a * width b + dvalue b.
Proof. unfold dvalue at 1. rewrite foldl_app. apply foldl_dvalue. Qed.

Lemma dvalue_cons d ds : dvalue (d :: ds) = d * width ds + dvalue ds.
Proof. change (d :: ds) with ([d] ++ ds). rewrite dvalue_app. unfold dvalue at 1. cbn [foldl]. lia. Qed.

Lemma dvalue_zeros n : dvalue (replicate n 0) = 0.
Proof. induction n as [|n IH]; [done|]. cbn [replicate]. rewrite dvalue_cons, IH. lia. Qed.

Lemma dvalue_range ds : Forall digit ds → 0 ≤ dvalue ds < width ds.
Proof.
  induction 1 as [|d ds Hd _ IH]; [done|]. unfold digit in Hd.
  rewrite dvalue_cons, width_cons. pose proof (width_pos ds). nia.
Qed.

Lemma width_replicate {A} n (x : A) : width (replicate n x) = 10 ^ Z.of_nat n.
Proof. unfold width. by rewrite length_replicate. Qed.

(** ** Trimming *)

Lemma leading_split ds : ds = replicate (leading_zeros ds) 0 ++ trim_leading_zeros ds.
Proof.
  unfold trim_leading_zeros. induction ds as [|d ds IH]; [done|].
  destruct d as [|p|p]; [|done..]. cbn [leading_zeros drop replicate app]. by f_equal.
Qed.

(** No zero in front. *)
Definition headed (ds : list Z) : Prop := hd 1 ds ≠ 0.
(** No zero at the end. *)
Definition footed (ds : list Z) : Prop := headed (rev ds).

Lemma trim_headed ds : headed (trim_leading_zeros ds).
Proof. unfold trim_leading_zeros. induction ds as [|[|p|p] ds IH]; done. Qed.

Lemma trim_id ds : headed ds → trim_leading_zeros ds = ds.
Proof. by destruct ds as [|[|p|p] ds]. Qed.

Lemma dvalue_trim ds : dvalue (trim_leading_zeros ds) = dvalue ds.
Proof. rewrite (leading_split ds) at 2. rewrite dvalue_app, dvalue_zeros. lia. Qed.

Lemma trim_digits ds : Forall digit ds → Forall digit (trim_leading_zeros ds).
Proof. intros H. unfold trim_leading_zeros. by apply Forall_drop. Qed.

Lemma trailing_split ds : ∃ n, ds = trim_trailing_zeros ds ++ replicate n 0
  ∧ length ds = (length (trim_trailing_zeros ds) + n)%nat.
Proof.
  exists (leading_zeros (rev ds)). unfold trim_trailing_zeros.
  assert (ds = rev (trim_leading_zeros (rev ds)) ++ replicate (leading_zeros (rev ds)) 0) as E.
  { rewrite <- (rev_involutive ds) at 1. rewrite (leading_split (rev ds)) at 1.
    rewrite rev_app_distr. f_equal. rewrite List.rev_alt. apply reverse_replicate. }
  split; [done|]. apply (f_equal length) in E. by rewrite length_app, length_replicate in E.
Qed.

Lemma trailing_footed ds : footed (trim_trailing_zeros ds).
Proof. unfold footed, trim_trailing_zeros. rewrite rev_involutive. apply trim_headed. Qed.

Lemma trailing_digits ds : Forall digit ds → Forall digit (trim_trailing_zeros ds).
Proof.
  intros H. unfold trim_trailing_zeros. by apply List.Forall_rev, trim_digits, List.Forall_rev.
Qed.

Lemma trailing_headed ds : headed ds → headed (trim_trailing_zeros ds).
Proof.
  destruct (trailing_split ds) as (n & E & _). intros H. rewrite E in H.
  by destruct (trim_trailing_zeros ds).
Qed.

Lemma headed_pos ds : Forall digit ds → headed ds → ds ≠ [] → width ds ≤ 10 * dvalue ds.
Proof.
  intros Hd Hh Hne. destruct ds as [|d ds]; [done|]. apply Forall_cons_1 in Hd as [Hd Hds].
  unfold headed in Hh. cbn in Hh. unfold digit in Hd. rewrite dvalue_cons, width_cons.
  pose proof (dvalue_range ds Hds). pose proof (width_pos ds). nia.
Qed.

Lemma footed_tail d ds : footed (d :: ds) → footed ds.
Proof. unfold footed, headed. cbn [rev]. by destruct (rev ds). Qed.

Lemma footed_pos ds : Forall digit ds → footed ds → ds ≠ [] → 0 < dvalue ds.
Proof.
  induction 1 as [|d ds Hd Hds IH]; [done|]. intros Hf _. unfold digit in Hd.
  rewrite dvalue_cons. pose proof (width_pos ds). pose proof (dvalue_range ds Hds).
  destruct (decide (ds = [])) as [->|Hne].
  - unfold footed, headed in Hf. cbn in *. lia.
  - specialize (IH (footed_tail _ _ Hf) Hne). nia.
Qed.

(** ** Lexicographic comparison *)

Lemma cmp_scale p u v : 0 < p → (p * u ?= p * v) = (u ?= v).
Proof. intros Hp. symmetry. apply Zmult_compare_compat_l. lia. Qed.

(** The first digit decides. *)
Lemma first_digit x y va vb wa wb : 0 ≤ va < wa → 0 ≤ vb → 0 < wb → x < y →
  (x * wa + va) * wb < (y * wb + vb) * wa.
Proof.
  intros Ha Hb Hw Hxy. assert ((x * wa + va) * wb < (x + 1) * wa * wb) by nia.
  assert ((x + 1) * (wa * wb) ≤ y * (wa * wb)) by nia. nia.
Qed.

(** Digits after a decimal point. *)
Lemma digits_cmp_value a b : Forall digit a → Forall digit b → footed a → footed b →
  digits_cmp a b = (dvalue a * width b ?= dvalue b * width a).
Proof.
  revert b. induction a as [|x a IH]; intros [|y b] Ha Hb Fa Fb; cbn [digits_cmp].
  - done.
  - pose proof (footed_pos _ Hb Fb ltac:(done)). symmetry. apply Z.compare_lt_iff.
    change (dvalue []) with 0. change (@width Z []) with 1. lia.
  - pose proof (footed_pos _ Ha Fa ltac:(done)). symmetry. apply Z.compare_gt_iff.
    change (dvalue []) with 0. change (@width Z []) with 1. lia.
  - apply Forall_cons_1 in Ha as [Hx Ha], Hb as [Hy Hb]. unfold digit in Hx, Hy.
    pose proof (dvalue_range a Ha). pose proof (dvalue_range b Hb).
    pose proof (width_pos a) as Wa. pose proof (width_pos b) as Wb.
    rewrite !dvalue_cons, !width_cons.
    replace ((x * width a + dvalue a) * (10 * width b))
      with (10 * ((x * width a + dvalue a) * width b)) by ring.
    replace ((y * width b + dvalue b) * (10 * width a))
      with (10 * ((y * width b + dvalue b) * width a)) by ring.
    rewrite cmp_scale by lia. destruct (Z.compare_spec x y) as [->|Hlt|Hgt].
    + replace ((y * width a + dvalue a) * width b) with (y * width a * width b + dvalue a * width b) by ring.
      replace ((y * width b + dvalue b) * width a) with (y * width a * width b + dvalue b * width a) by ring.
      rewrite Z.add_compare_mono_l.
      apply IH; eauto using footed_tail.
    + symmetry. apply Z.compare_lt_iff. apply first_digit; lia.
    + symmetry. apply Z.compare_gt_iff. apply first_digit; lia.
Qed.

(** ** Decimal values *)

(** A decimal [(m, e)] is the number [m * 10 ^ e]; it is compared with another
    at a scale both reach. *)
Definition at_scale (v : Z * Z) (k : Z) : Z := v.1 * 10 ^ (v.2 - k).

Definition value_cmp (v w : Z * Z) : comparison :=
  let k := Z.min v.2 w.2 in at_scale v k ?= at_scale w k.

Definition same_number (v w : Z * Z) : Prop := value_cmp v w = Eq.

(** [v] is an integer multiple of [w]. *)
Definition multiple (v w : Z * Z) : Prop :=
  let k := Z.min v.2 w.2 in (at_scale w k | at_scale v k).

Lemma at_scale_shift v j k : j ≤ k → k ≤ v.2 → at_scale v j = 10 ^ (k - j) * at_scale v k.
Proof.
  intros Hj Hk. unfold at_scale. replace (v.2 - j) with ((k - j) + (v.2 - k)) by lia.
  rewrite Z.pow_add_r by lia. ring.
Qed.

Lemma pow_pos k : 0 ≤ k → 0 < 10 ^ k.
Proof. intros. by apply Z.pow_pos_nonneg. Qed.

Lemma value_cmp_at v w k : k ≤ v.2 → k ≤ w.2 → value_cmp v w = (at_scale v k ?= at_scale w k).
Proof.
  intros Hv Hw. unfold value_cmp. set (m := Z.min v.2 w.2).
  rewrite (at_scale_shift v k m), (at_scale_shift w k m) by lia.
  by rewrite cmp_scale by (apply pow_pos; lia).
Qed.

Lemma multiple_at v w k : k ≤ v.2 → k ≤ w.2 → multiple v w ↔ (at_scale w k | at_scale v k).
Proof.
  intros Hv Hw. unfold multiple. set (m := Z.min v.2 w.2).
  rewrite (at_scale_shift v k m), (at_scale_shift w k m) by lia.
  rewrite Z.mul_divide_cancel_l; [done|]. pose proof (pow_pos (m - k)). lia.
Qed.

Lemma same_number_at v w k : same_number v w → k ≤ v.2 → k ≤ w.2 → at_scale v k = at_scale w k.
Proof. unfold same_number. intros H Hv Hw. rewrite (value_cmp_at v w k) in H by done. by apply Z.compare_eq. Qed.

Lemma value_cmp_same v v' w w' : same_number v v' → same_number w w' → value_cmp v w = value_cmp v' w'.
Proof.
  intros Hv Hw. set (k := Z.min (Z.min v.2 v'.2) (Z.min w.2 w'.2)).
  rewrite (value_cmp_at v w k), (value_cmp_at v' w' k) by lia.
  by rewrite (same_number_at v v' k), (same_number_at w w' k) by (done || lia).
Qed.

Lemma multiple_same v v' w w' : same_number v v' → same_number w w' → multiple v w ↔ multiple v' w'.
Proof.
  intros Hv Hw. set (k := Z.min (Z.min v.2 v'.2) (Z.min w.2 w'.2)).
  rewrite (multiple_at v w k), (multiple_at v' w' k) by lia.
  by rewrite (same_number_at v v' k), (same_number_at w w' k) by (done || lia).
Qed.

(** ** Parsed numbers *)

Definition signed (negative : bool) (m : Z) : Z := if negative then - m else m.

(** The value of a numeric text, read positionally. *)
Definition text_value (s : string) : option (Z * Z) :=
  match number_parts (trim s) with
  | Ok (negative, ints, fracs, e) =>
      Some (signed negative (dvalue (ints ++ fracs)), e - Z.of_nat (length fracs))
  | Err _ => None
  end.

Definition decimal_scale (d : ExactDecimal) : Z := d_exp d - (Z.of_nat (length (d_digits d)) - 1).
Definition decimal_value (d : ExactDecimal) : Z * Z :=
  (signed (d_negative d) (dvalue (d_digits d)), decimal_scale d).

(** No zero at either end. *)
Record normal (d : ExactDecimal) : Prop := {
  nd_digits : Forall digit (d_digits d);
  nd_head : headed (d_digits d);
  nd_foot : footed (d_digits d)
}.

Lemma raw_digits_ok s ds : raw_digits s = Some ds → Forall digit ds.
Proof.
  revert ds. induction s as [|c s IH]; intros ds; [intros [= <-]; constructor|]. cbn [raw_digits].
  destruct (is_ascii_digit c) eqn:Hc; [|done]. intros (t & Ht & ->)%fmap_Some_1.
  constructor; [|by apply IH]. apply digit_code in Hc. exact Hc.
Qed.

Lemma number_parts_digits s b ints fracs e : number_parts s = Ok (b, ints, fracs, e) →
  Forall digit (ints ++ fracs).
Proof.
  unfold number_parts. destruct (split_sign s) as [neg rest].
  destruct (match split_exp rest with Some _ => _ | None => _ end) as [[mant ev]|]; [|done].
  cbn [result_bind]. destruct (default _ _) as [ip fp].
  destruct (raw_digits ip) eqn:Hi; [|done]. destruct (raw_digits fp) eqn:Hf; [|done].
  intros [= _ <- <- _]. apply Forall_app. eauto using raw_digits_ok.
Qed.

Lemma signed_mul b m p : signed b m * p = signed b (m * p).
Proof. destruct b; cbn; lia. Qed.

Lemma decimal_parse_value s d : decimal_parse s = Ok d →
  normal d ∧ ∃ v, text_value s = Some v ∧ same_number v (decimal_value d).
Proof.
  unfold decimal_parse, text_value. destruct (is_empty (trim s)); [done|].
  destruct (number_parts (trim s)) as [[[[b ints] fracs] e]|] eqn:Hp; [|done]. cbn [result_bind].
  pose proof (number_parts_digits _ _ _ _ _ Hp) as Hd. set (raw := ints ++ fracs) in *.
  destruct (trailing_split (trim_leading_zeros raw)) as (n & Et & Hl).
  set (t := trim_trailing_zeros (trim_leading_zeros raw)) in *.
  assert (length raw = (leading_zeros raw + (length t + n))%nat) as Hlen.
  { rewrite (leading_split raw) at 1. rewrite length_app, length_replicate, Hl. done. }
  assert (dvalue raw = dvalue t * 10 ^ Z.of_nat n) as Hv.
  { rewrite <- (dvalue_trim raw), Et, dvalue_app, dvalue_zeros, width_replicate. lia. }
  destruct (Nat.eqb_spec (length t) 0) as [H0|H0].
  - intros [= <-]. split; [by repeat constructor|]. eexists; split; [done|].
    destruct t; [|done]. unfold same_number. rewrite value_cmp_at with (k := Z.min (e - Z.of_nat (length fracs)) 1);
      [|cbn [fst snd]; lia|unfold decimal_value, decimal_scale; cbn; lia].
    unfold at_scale. cbn [fst snd decimal_value d_negative d_digits signed]. rewrite Hv.
    change (dvalue []) with 0. rewrite !Z.mul_0_l. by destruct b.
  - destruct (checked_i64 _) as [ex|] eqn:Hc; [|done]. intros [= <-]. split.
    { split; cbn; [by apply trailing_digits, trim_digits|apply trailing_headed, trim_headed|
                   apply trailing_footed]. }
    eexists; split; [done|]. unfold checked_i64 in Hc. case_match; [|done].
    assert (ex = Z.of_nat (length ints) - 1 - Z.of_nat (leading_zeros raw) + e) as -> by congruence.
    assert (length raw = (length ints + length fracs)%nat) as Hr by apply length_app.
    unfold same_number. rewrite value_cmp_at with (k := e - Z.of_nat (length fracs));
      [|cbn; lia|unfold decimal_value, decimal_scale; cbn [snd d_exp d_digits]; lia].
    apply Z.compare_eq_iff. unfold at_scale, decimal_value, decimal_scale.
    cbn [fst snd d_negative d_digits d_exp]. rewrite Hv, !signed_mul. f_equal.
    rewrite <- Z.mul_assoc, <- Z.pow_add_r by lia. do 2 f_equal. lia.
Qed.

(** ** Comparison *)

Lemma decimal_pos d : normal d → is_zero d = false → 0 < dvalue (d_digits d).
Proof.
  intros [Hd _ Hf] Hz. apply footed_pos; [done..|]. intros E. unfold is_zero in Hz. by rewrite E in Hz.
Qed.

(** The position of the first digit bounds the value. *)
Lemma decimal_bounds d k : normal d → is_zero d = false → k ≤ decimal_scale d →
  10 ^ (d_exp d - k) ≤ dvalue (d_digits d) * 10 ^ (decimal_scale d - k) < 10 * 10 ^ (d_exp d - k).
Proof.
  intros [Hd Hh Hf] Hz Hk. pose proof (dvalue_range _ Hd) as Hr.
  assert (d_digits d ≠ []) as Hne by (intros E; unfold is_zero in Hz; by rewrite E in Hz).
  pose proof (headed_pos _ Hd Hh Hne) as Hp.
  assert (10 * 10 ^ (d_exp d - k) = width (d_digits d) * 10 ^ (decimal_scale d - k)) as E.
  { unfold width. rewrite <- Z.pow_succ_r, <- Z.pow_add_r; unfold decimal_scale in *; [f_equal; lia|lia..|].
    destruct (d_digits d); [done|]. cbn [length] in *. lia. }
  pose proof (pow_pos (decimal_scale d - k)). nia.
Qed.

Lemma cmp_abs_value a b : normal a → normal b → is_zero a = false → is_zero b = false →
  cmp_abs a b = value_cmp (dvalue (d_digits a), decimal_scale a) (dvalue (d_digits b), decimal_scale b).
Proof.
  intros Na Nb Za Zb. set (k := Z.min (decimal_scale a) (decimal_scale b)).
  rewrite (value_cmp_at _ _ k) by (cbn; lia). unfold at_scale, cmp_abs. cbn [fst snd].
  pose proof (decimal_bounds a k Na Za ltac:(lia)) as Ha.
  pose proof (decimal_bounds b k Nb Zb ltac:(lia)) as Hb.
  assert (∀ x y, k ≤ x → x < y → 10 * 10 ^ (x - k) ≤ 10 ^ (y - k)) as Hmono.
  { intros x y Hx Hxy. rewrite <- Z.pow_succ_r by lia. apply Z.pow_le_mono_r; lia. }
  assert (∀ d, is_zero d = false → decimal_scale d ≤ d_exp d) as Hs.
  { intros d Hz. unfold decimal_scale. unfold is_zero in Hz. apply Nat.eqb_neq in Hz. lia. }
  pose proof (Hs a Za). pose proof (Hs b Zb).
  destruct (Z.compare_spec (d_exp a) (d_exp b)) as [E|Hlt|Hgt].
  - destruct Na as [Da _ Fa], Nb as [Db _ Fb]. rewrite digits_cmp_value by done.
    set (W := 10 ^ (d_exp a + 1 - k)).
    assert (∀ d, is_zero d = false → d_exp d = d_exp a → k ≤ decimal_scale d →
              W = width (d_digits d) * 10 ^ (decimal_scale d - k)) as HW.
    { intros d Hz Ed Hk. unfold W, width. rewrite <- Z.pow_add_r by lia. f_equal. unfold decimal_scale. lia. }
    pose proof (HW a Za eq_refl ltac:(lia)) as Wa. pose proof (HW b Zb (eq_sym E) ltac:(lia)) as Wb.
    set (x := 10 ^ (decimal_scale a - k)) in *. set (y := 10 ^ (decimal_scale b - k)) in *.
    assert (0 < x * y) as Hxy by (apply Z.mul_pos_pos; apply pow_pos; lia).
    rewrite <- (cmp_scale (x * y) (dvalue (d_digits a) * width _)) by done.
    rewrite <- (cmp_scale W (dvalue (d_digits a) * x)) by (apply pow_pos; lia).
    f_equal; [rewrite Wb|rewrite Wa]; ring.
  - symmetry. apply Z.compare_lt_iff. specialize (Hmono (d_exp a) (d_exp b)). lia.
  - symmetry. apply Z.compare_gt_iff. specialize (Hmono (d_exp b) (d_exp a)). lia.
Qed.

Lemma decimal_cmp_value a b : normal a → normal b →
  decimal_cmp a b = value_cmp (decimal_value a) (decimal_value b).
Proof.
  intros Na Nb. set (k := Z.min (decimal_scale a) (decimal_scale b)).
  rewrite (value_cmp_at _ _ k) by (cbn; lia). unfold decimal_cmp.
  assert (∀ d, is_zero d = true → k ≤ decimal_scale d → at_scale (decimal_value d) k = 0) as Hz.
  { intros d Hd _. unfold is_zero in Hd. apply Nat.eqb_eq in Hd. destruct (d_digits d) eqn:E; [|done].
    unfold at_scale, decimal_value. rewrite E. change (dvalue []) with 0. by destruct (d_negative d). }
  assert (∀ d, normal d → is_zero d = false → k ≤ decimal_scale d →
            ∃ p, 0 < p ∧ at_scale (decimal_value d) k = signed (d_negative d) p
                 ∧ p = dvalue (d_digits d) * 10 ^ (decimal_scale d - k)) as Hp.
  { intros d Hn Hd Hk. exists (dvalue (d_digits d) * 10 ^ (decimal_scale d - k)).
    split_and!; [|apply signed_mul|done].
    apply Z.mul_pos_pos; [by apply decimal_pos|apply pow_pos; lia]. }
  destruct (is_zero a) eqn:Za, (is_zero b) eqn:Zb; cbn [andb].
  - by rewrite !Hz by (done || lia).
  - rewrite (Hz a) by (done || lia). destruct (Hp b Nb Zb ltac:(lia)) as (p & Hpos & -> & _).
    symmetry. destruct (d_negative b); cbn [signed]; [apply Z.compare_gt_iff|apply Z.compare_lt_iff]; lia.
  - rewrite (Hz b) by (done || lia). destruct (Hp a Na Za ltac:(lia)) as (p & Hpos & -> & _).
    symmetry. destruct (d_negative a); cbn [signed]; [apply Z.compare_lt_iff|apply Z.compare_gt_iff]; lia.
  - destruct (Hp a Na Za ltac:(lia)) as (p & Hpos & -> & Ep).
    destruct (Hp b Nb Zb ltac:(lia)) as (q & Hqos & -> & Eq').
    pose proof (cmp_abs_value a b Na Nb Za Zb) as Hab. rewrite (value_cmp_at _ _ k) in Hab by (cbn; lia).
    pose proof (cmp_abs_value b a Nb Na Zb Za) as Hba. rewrite (value_cmp_at _ _ k) in Hba by (cbn; lia).
    unfold at_scale in Hab, Hba. cbn [fst snd] in Hab, Hba. rewrite <- Ep, <- Eq' in Hab, Hba.
    destruct (d_negative a), (d_negative b); cbn [signed].
    + by rewrite Hba, Z.compare_opp.
    + symmetry. apply Z.compare_lt_iff. lia.
    + symmetry. apply Z.compare_gt_iff. lia.
    + done.
Qed.

Lemma compare_value a b c : compare_numeric_strings a b = Ok c →
  ∃ v w, text_value a = Some v ∧ text_value b = Some w ∧ c = value_cmp v w.
Proof.
  unfold compare_numeric_strings. destruct (decimal_parse a) as [da|] eqn:Ha; [|done].
  destruct (decimal_parse b) as [db|] eqn:Hb; [|done]. cbn. intros [= <-].
  destruct (decimal_parse_value _ _ Ha) as (Na & v & Hv & Sv).
  destruct (decimal_parse_value _ _ Hb) as (Nb & w & Hw & Sw).
  exists v, w. split_and!; [done..|]. rewrite decimal_cmp_value by done. symmetry. by apply value_cmp_same.
Qed.

(** ** Divisibility *)

Lemma cmp_digits_value a b : Forall digit a → Forall digit b → headed a → headed b →
  cmp_digits a b = (dvalue a ?= dvalue b).
Proof.
  intros Da Db Ha Hb. unfold cmp_digits.
  pose proof (dvalue_range a Da) as Ra. pose proof (dvalue_range b Db) as Rb.
  assert (∀ x y : list Z, (length x < length y)%nat → 10 * width x ≤ width y) as Hw.
  { intros x y Hxy. unfold width. rewrite <- Z.pow_succ_r by lia. apply Z.pow_le_mono_r; lia. }
  destruct (Nat.compare_spec (length a) (length b)) as [E|Hlt|Hgt].
  - clear Ra Rb Hw Ha Hb. revert b E Db. induction Da as [|x a Hx Da IH]; intros [|y b] E Db; try done.
    apply Forall_cons_1 in Db as [Hy Db]. injection E as E. cbn [digits_cmp].
    rewrite !dvalue_cons. assert (width b = width a) as -> by (unfold width; by rewrite E).
    pose proof (dvalue_range a Da). pose proof (dvalue_range b Db) as Rb.
    assert (width b = width a) as Eb by (unfold width; by rewrite E). rewrite Eb in Rb.
    destruct (Z.compare_spec x y) as [->|?|?].
    + rewrite Z.add_compare_mono_l. by apply IH.
    + symmetry. apply Z.compare_lt_iff. nia.
    + symmetry. apply Z.compare_gt_iff. nia.
  - symmetry. apply Z.compare_lt_iff. specialize (Hw a b Hlt).
    assert (b ≠ []) as Nb by (destruct b; [cbn in Hlt; lia|done]).
    pose proof (headed_pos b Db Hb Nb). lia.
  - symmetry. apply Z.compare_gt_iff. specialize (Hw b a Hgt).
    assert (a ≠ []) as Na by (destruct a; [cbn in Hgt; lia|done]).
    pose proof (headed_pos a Da Ha Na). lia.
Qed.

(** The value of digits given least significant first. *)
Fixpoint lvalue (ds : list Z) : Z :=
  match ds with [] => 0 | d :: ds' => d + 10 * lvalue ds' end.

Lemma lvalue_rev ds : lvalue (rev ds) = dvalue ds.
Proof.
  assert (∀ a d, lvalue (a ++ [d]) = lvalue a + width a * d) as Happ.
  { induction a as [|x a IH]; intros d; [cbn; change (@width Z []) with 1; lia|].
    cbn [app lvalue]. rewrite IH, width_cons. lia. }
  induction ds as [|d ds IH]; [done|]. cbn [rev]. rewrite Happ, IH, dvalue_cons.
  assert (width (rev ds) = width ds) as -> by (unfold width; by rewrite length_rev). lia.
Qed.

Lemma sub_borrow_value a : ∀ b borrow, Forall digit a → Forall digit b → 0 ≤ borrow ≤ 1 →
  lvalue b + borrow ≤ lvalue a → (length b ≤ length a)%nat →
  lvalue (sub_borrow a b borrow) = lvalue a - lvalue b - borrow ∧ Forall digit (sub_borrow a b borrow).
Proof.
  induction a as [|x a IH]; intros b borrow Da Db Hb Hle Hlen; cbn [sub_borrow].
  { destruct b; [|cbn in Hlen; lia]. cbn in *. split; [lia|constructor]. }
  apply Forall_cons_1 in Da as [Hx Da]. unfold digit in Hx.
  assert (0 ≤ default 0 (head b) ≤ 9 ∧ Forall digit (tail b)
          ∧ lvalue b = default 0 (head b) + 10 * lvalue (tail b) ∧ (length (tail b) ≤ length a)%nat)
    as (Hh & Dt & Ev & Hl).
  { destruct b as [|y b]; cbn in *; [split_and!; try lia; constructor|].
    apply Forall_cons_1 in Db as [Hy Db]. split_and!; [apply Hy|apply Hy|done|lia|lia]. }
  cbn [lvalue] in Hle. rewrite Ev in Hle. set (y := default 0 (head b)) in *. rewrite Ev.
  destruct (Z.ltb_spec (x - y - borrow) 0) as [Hneg|Hpos].
  - destruct (IH (tail b) 1 Da Dt ltac:(lia) ltac:(lia) Hl) as [E D]. cbn [lvalue]. rewrite E.
    split; [lia|]. constructor; [unfold digit; lia|done].
  - destruct (IH (tail b) 0 Da Dt ltac:(lia) ltac:(lia) Hl) as [E D]. cbn [lvalue]. rewrite E.
    split; [lia|]. constructor; [unfold digit; lia|done].
Qed.

(** A remainder or divisor as the loop keeps it. *)
Definition trimmed (ds : list Z) : Prop := Forall digit ds ∧ headed ds.

Lemma trimmed_longer a b : trimmed a → trimmed b → dvalue b ≤ dvalue a → (length b ≤ length a)%nat.
Proof.
  intros [Da Ha] [Db Hb] Hle. destruct (decide (length b ≤ length a)%nat) as [?|Hn]; [done|].
  pose proof (cmp_digits_value a b Da Db Ha Hb) as E. unfold cmp_digits in E.
  assert (Nat.compare (length a) (length b) = Lt) as El by (apply Nat.compare_lt_iff; lia).
  rewrite El in E. symmetry in E. rewrite Z.compare_lt_iff in E. exfalso. lia.
Qed.

Lemma sub_assign_value a b : trimmed a → trimmed b → dvalue b ≤ dvalue a →
  trimmed (sub_assign a b) ∧ dvalue (sub_assign a b) = dvalue a - dvalue b.
Proof.
  intros Ta Tb Hle. pose proof (trimmed_longer a b Ta Tb Hle) as Hlen.
  destruct Ta as [Da Ha], Tb as [Db Hb]. unfold sub_assign.
  destruct (sub_borrow_value (rev a) (rev b) 0) as [E D];
    [by apply List.Forall_rev|by apply List.Forall_rev|lia|rewrite !lvalue_rev; lia|by rewrite !length_rev|].
  split.
  - split; [|apply trim_headed]. by apply trim_digits, List.Forall_rev.
  - rewrite dvalue_trim, <- lvalue_rev, rev_involutive, E, !lvalue_rev. lia.
Qed.

(** Repeated subtraction is the remainder when there is fuel for the quotient. *)
Lemma reduce_value fuel divisor : trimmed divisor → 0 < dvalue divisor → ∀ rem, trimmed rem →
  dvalue rem < Z.of_nat fuel * dvalue divisor →
  trimmed (reduce fuel rem divisor) ∧ dvalue (reduce fuel rem divisor) = dvalue rem mod dvalue divisor.
Proof.
  intros Td Hpos. induction fuel as [|f IH]; intros rem Tr Hlt.
  { pose proof (dvalue_range rem (proj1 Tr)). lia. }
  cbn [reduce]. rewrite cmp_digits_value by (apply Tr || apply Td).
  pose proof (dvalue_range rem (proj1 Tr)) as Hr.
  destruct (Z.compare_spec (dvalue rem) (dvalue divisor)) as [E|?|?].
  2: { split; [done|]. rewrite Z.mod_small by lia. done. }
  all: destruct (sub_assign_value rem divisor Tr Td ltac:(lia)) as [Ts Es];
    destruct (IH (sub_assign rem divisor) Ts ltac:(lia)) as [Tx ->]; (split; [done|]); rewrite Es.
  all: rewrite <- (Z.mod_add (dvalue rem - dvalue divisor) 1) by lia; f_equal; lia.
Qed.

Lemma mod_loop divisor ds : trimmed divisor → 0 < dvalue divisor → Forall digit ds → ∀ rem acc,
  trimmed rem → dvalue rem = acc mod dvalue divisor →
  let r := foldl (mod_step divisor) rem ds in
  trimmed r ∧ dvalue r = foldl (λ a d, a * 10 + d) acc ds mod dvalue divisor.
Proof.
  intros Td Hpos. induction 1 as [|d ds Hd _ IH]; intros rem acc Tr Er; cbn [foldl]; [done|].
  assert (Forall digit (rem ++ [d])) as Dn by (apply Forall_app; split; [apply Tr|by constructor]).
  assert (dvalue (rem ++ [d]) = dvalue rem * 10 + d) as En.
  { rewrite dvalue_app. change (@width Z [d]) with 10. unfold dvalue at 2. cbn. lia. }
  pose proof (Z.mod_pos_bound acc (dvalue divisor) Hpos). unfold digit in Hd.
  destruct (reduce_value 10 divisor Td Hpos (trim_leading_zeros (rem ++ [d]))) as [Tx Ex].
  { split; [by apply trim_digits|apply trim_headed]. }
  { rewrite dvalue_trim, En. nia. }
  apply IH; [done|]. unfold mod_step. rewrite Ex, dvalue_trim, En, Er.
  rewrite Z.add_mod, Z.mul_mod_idemp_l, <- Z.add_mod by lia. done.
Qed.

Lemma all_zero_value ds : Forall digit ds → forallb (Z.eqb 0) ds = true ↔ dvalue ds = 0.
Proof.
  induction 1 as [|d ds Hd Hds IH]; [done|]. cbn [forallb]. unfold digit in Hd.
  rewrite andb_true_iff, IH, dvalue_cons, Z.eqb_eq. pose proof (dvalue_range ds Hds).
  pose proof (width_pos ds). nia.
Qed.

Lemma digits_mod_value dividend divisor : Forall digit dividend → trimmed divisor → 0 < dvalue divisor →
  digits_mod_is_zero dividend divisor = true ↔ (dvalue divisor | dvalue dividend).
Proof.
  intros Hd Td Hpos. unfold digits_mod_is_zero.
  destruct (mod_loop divisor dividend Td Hpos Hd [] 0) as [Tr Er];
    [by split; [constructor|]|by rewrite Z.mod_0_l by lia|].
  rewrite all_zero_value by apply Tr. rewrite Er. fold (dvalue dividend).
  rewrite Z.mod_divide by lia. done.
Qed.

Lemma pad_value ds n : Z.of_nat (length ds) ≤ n →
  dvalue (pad_zeros ds n) = dvalue ds * 10 ^ (n - Z.of_nat (length ds)).
Proof.
  intros Hn. unfold pad_zeros. rewrite dvalue_app, dvalue_zeros, width_replicate.
  replace (Z.of_nat (Z.to_nat n - length ds)) with (n - Z.of_nat (length ds)) by lia. lia.
Qed.

Lemma pad_digits ds n : Forall digit ds → Forall digit (pad_zeros ds n).
Proof.
  intros Hd. apply Forall_app. split; [done|]. apply Forall_replicate. unfold digit. lia.
Qed.

Lemma pad_headed ds n : ds ≠ [] → headed ds → headed (pad_zeros ds n).
Proof. by destruct ds. Qed.

Lemma or_overflow_ok o z : or_overflow o = Ok z → o = Some z.
Proof. destruct o; cbn; congruence. Qed.

Lemma checked_ok x z : checked_i64 x = Some z → z = x.
Proof. unfold checked_i64. case_match; congruence. Qed.

(** Divisibility does not look at the sign. *)
Lemma divide_signed b m w : (w | signed b m) ↔ (w | m).
Proof. destruct b; [apply Z.divide_opp_r|done]. Qed.

Lemma zero_value d : is_zero d = true → (decimal_value d).1 = 0.
Proof.
  unfold is_zero, decimal_value. intros Hz%Nat.eqb_eq. destruct (d_digits d); [|done].
  by destruct (d_negative d).
Qed.

Lemma same_number_pos v w : same_number v w → 0 < w.1 → 0 < v.1.
Proof.
  intros H Hw. set (k := Z.min v.2 w.2). pose proof (same_number_at v w k H ltac:(lia) ltac:(lia)) as E.
  unfold at_scale in E. pose proof (pow_pos (v.2 - k) ltac:(lia)). pose proof (pow_pos (w.2 - k) ltac:(lia)).
  nia.
Qed.

(** The padded operands are the values at the common scale. *)
Lemma padded_multiple dv dd : normal dv → normal dd → d_negative dd = false → is_zero dd = false →
  let t := Z.min (decimal_scale dv) (decimal_scale dd) in
  let padded d := pad_zeros (d_digits d) (Z.of_nat (length (d_digits d)) + (decimal_scale d - t)) in
  digits_mod_is_zero (padded dv) (padded dd) = true ↔ multiple (decimal_value dv) (decimal_value dd).
Proof.
  intros [Dv _ _] Nd Hneg Hz t padded. pose proof (decimal_pos dd Nd Hz) as Hpos.
  destruct Nd as [Dd Hd _].
  assert (∀ d, t ≤ decimal_scale d →
            dvalue (padded d) = dvalue (d_digits d) * 10 ^ (decimal_scale d - t)) as Hpad.
  { intros d Hs. unfold padded. rewrite pad_value by lia. do 2 f_equal. lia. }
  rewrite digits_mod_value.
  - rewrite !Hpad by lia. unfold multiple. fold t. unfold at_scale, decimal_value. cbn [fst snd].
    rewrite Hneg. cbn [signed]. fold t. by rewrite signed_mul, divide_signed.
  - by apply pad_digits.
  - split; [by apply pad_digits|]. apply pad_headed; [|done]. intros E. rewrite E in Hpos. by apply Z.lt_irrefl in Hpos.
  - rewrite Hpad by lia. apply Z.mul_pos_pos; [done|apply pow_pos; lia].
Qed.

Lemma multiple_cells_value dv dd b : normal dv → normal dd → d_negative dd = false →
  is_zero dd = false → multiple_cells dv dd = Ok b →
  b = true ↔ multiple (decimal_value dv) (decimal_value dd).
Proof.
  intros Nv Nd Hneg Hz. unfold multiple_cells. intros Hres.
  apply result_bind_ok in Hres as (sv & Hsv%or_overflow_ok%checked_ok & Hres).
  apply result_bind_ok in Hres as (sd & Hsd%or_overflow_ok%checked_ok & Hres).
  apply result_bind_ok in Hres as (xa & Hxa%or_overflow_ok%checked_ok & Hres).
  apply result_bind_ok in Hres as (la & Hla%or_overflow_ok%checked_ok & Hres).
  apply result_bind_ok in Hres as (xb & Hxb%or_overflow_ok%checked_ok & Hres).
  apply result_bind_ok in Hres as (lb & Hlb%or_overflow_ok%checked_ok & Hres).
  apply result_bind_ok in Hres as (cost & _ & Hres). destruct (_ <? cost); [done|].
  assert (b = digits_mod_is_zero (pad_zeros (d_digits dv) la) (pad_zeros (d_digits dd) lb)) as ->
    by congruence.
  rewrite Hla, Hlb, Hxa, Hxb, Hsv, Hsd. by apply padded_multiple.
Qed.

Lemma is_multiple_value value divisor b : is_multiple_of value divisor = Ok b →
  ∃ v w, text_value value = Some v ∧ text_value divisor = Some w ∧ 0 < w.1 ∧ (b = true ↔ multiple v w).
Proof.
  unfold is_multiple_of. destruct (decimal_parse value) as [dv|] eqn:Hv; [|done].
  destruct (decimal_parse divisor) as [dd|] eqn:Hd; [|done]. cbn [result_bind].
  destruct (decimal_parse_value _ _ Hv) as (Nv & v & Ev & Sv).
  destruct (decimal_parse_value _ _ Hd) as (Nd & w & Ew & Sw).
  destruct (d_negative dd) eqn:Hneg; [done|]. destruct (is_zero dd) eqn:Hzd; [done|]. cbn [orb].
  intros Hres. exists v, w.
  assert (0 < w.1) as Hw.
  { apply (same_number_pos w (decimal_value dd)); [done|]. unfold decimal_value. rewrite Hneg. cbn.
    by apply decimal_pos. }
  split_and!; [done..|]. rewrite (multiple_same v (decimal_value dv) w (decimal_value dd)) by done.
  destruct (is_zero dv) eqn:Hzv.
  - injection Hres as <-. split; [intros _|done]. unfold multiple, at_scale. rewrite (zero_value dv) by done.
    rewrite Z.mul_0_l. apply Z.divide_0_r.
  - by apply multiple_cells_value.
Qed.

Lemma numbers_equal_value a b da db : decimal_parse a = Ok da → decimal_parse b = Ok db →
  ∃ v w, text_value a = Some v ∧ text_value b = Some w ∧ (numbers_equal a b = true ↔ same_number v w).
Proof.
  intros Ha Hb. destruct (compare_value a b (decimal_cmp da db)) as (v & w & Hv & Hw & E).
  { unfold compare_numeric_strings. by rewrite Ha, Hb. }
  exists v, w. split_and!; [done..|]. unfold numbers_equal. rewrite Ha, Hb, bool_decide_eq_true, E. done.
Qed.

(** ** The grammar of JSON numbers *)

(** The exponents the evaluator can represent. *)
Definition fits_i64 (n : JsonNumber) : Prop :=
  let digits := len (jn_int n +:+ frac_digits n) in
  I64_MIN + digits ≤ exp_value n ≤ I64_MAX - digits.

Lemma split_exp_any s : split_exp s = split_at_any is_exp_mark s.
Proof.
  induction s as [|c s IH]; [done|]. cbn [split_exp split_at_any].
  change (is_exp_char c) with (is_exp_mark c). case_match; [done|]. rewrite IH.
  by destruct (split_at_any is_exp_mark s) as [[a b]|].
Qed.

Lemma raw_digits_value s : str_all is_ascii_digit s = true →
  ∃ ds, raw_digits s = Some ds ∧ Z.of_nat (length ds) = len s ∧ dvalue ds = nat_value 0 s.
Proof.
  induction s as [|c s IH]; [by exists []|]. cbn [str_all raw_digits]. intros [Hc Hs]%andb_true_iff.
  destruct (IH Hs) as (ds & E & Hl & Hv). rewrite Hc, E. exists (code c - 48 :: ds).
  split; [done|]. rewrite len_cons. cbn [length nat_value].
  rewrite nat_value_acc, dvalue_cons, Hv. unfold width. rewrite Hl. split; lia.
Qed.

Lemma i64_digits_value sign s : ∀ a, sign = 1 ∨ sign = -1 → 0 ≤ a → str_all is_ascii_digit s = true →
  in_i64 (sign * nat_value a s) = true → i64_digits sign (sign * a) s = Ok (sign * nat_value a s).
Proof.
  induction s as [|c s IH]; intros a Hsg Ha; cbn [str_all nat_value i64_digits]; [done|].
  intros [Hc Hs]%andb_true_iff Hin. pose proof (digit_code c Hc) as Hd.
  assert (to_digit 10 c = Some (code c - 48)) as -> by (clear - Hc; revert Hc; each_char c).
  replace (sign * a * 10 + sign * (code c - 48)) with (sign * (a * 10 + (code c - 48))) by ring.
  assert (in_i64 (sign * (a * 10 + (code c - 48))) = true) as ->.
  { revert Hin. unfold in_i64. rewrite !andb_true_iff, !Z.leb_le. unfold I64_MIN, I64_MAX.
    rewrite nat_value_acc. pose proof (nat_value_range s Hs) as Hr. pose proof (len_nonneg s).
    assert (0 < 10 ^ len s) by (apply Z.pow_pos_nonneg; lia). nia. }
  apply IH; [done|lia|done|done].
Qed.

Lemma print_exp_parse n : number_ok n = true → fits_i64 n → is_Some (jn_exp n) →
  parse_i64 (exp_text n) = Ok (exp_value n).
Proof.
  unfold number_ok, fits_i64, exp_text, exp_value. intros [_ He]%andb_true_iff Hf [[[u g] d] Ee].
  rewrite Ee in *. apply is_digits_spec in He as (Hd & c & d' & -> & Hc).
  pose proof (len_nonneg (jn_int n +:+ frac_digits n)) as Hl. destruct (digit_no_sign c Hc) as [Hm Hp].
  assert (∀ sign, sign = 1 ∨ sign = -1 → in_i64 (sign * nat_value 0 (String c d')) = true →
            i64_digits sign 0 (String c d') = Ok (sign * nat_value 0 (String c d'))) as Hparse.
  { intros sign Hsg Hin. rewrite <- (Z.mul_0_r sign) at 1. by apply i64_digits_value. }
  assert (∀ z, I64_MIN ≤ z ≤ I64_MAX → in_i64 z = true) as Hin.
  { intros z Hz. apply andb_true_iff. by rewrite !Z.leb_le. }
  destruct g as [[]|]; rewrite ?app_cons_string, ?app_empty_string.
  - change (parse_i64 (String "-" (String c d'))) with (i64_digits (-1) 0 (String c d')).
    rewrite Hparse; [f_equal; lia|lia|apply Hin; lia].
  - change (parse_i64 (String "+" (String c d'))) with (i64_digits 1 0 (String c d')).
    rewrite Hparse; [f_equal; lia|lia|apply Hin; lia].
  - unfold parse_i64. rewrite Hp, (Ascii.eqb_sym c "-"), Hm. cbn [orb andb].
    rewrite Hparse; [f_equal; lia|lia|apply Hin; lia].
Qed.

Lemma split_sign_print n rest : number_ok n = true →
  split_sign ((if jn_neg n then "-" else "") +:+ jn_int n +:+ rest) = (jn_neg n, jn_int n +:+ rest).
Proof.
  intros Hok. pose proof (number_digits n Hok) as (Di & _ & _ & Ei). unfold split_sign.
  destruct (jn_neg n); [done|]. rewrite app_empty_string.
  destruct (jn_int n) as [|c s]; [done|]. rewrite app_cons_string.
  cbn -[Ascii.eqb] in Di |- *. apply andb_true_iff in Di as [Hc _].
  destruct (digit_no_sign c Hc) as [Hm Hp]. rewrite Ascii.eqb_sym in Hp. by rewrite Hm, Hp.
Qed.

Lemma print_number_parts n : number_ok n = true → fits_i64 n →
  ∃ ints fracs, number_parts (print_number n) = Ok (jn_neg n, ints, fracs, exp_value n)
    ∧ Z.of_nat (length ints) = len (jn_int n) ∧ Z.of_nat (length fracs) = len (frac_digits n)
    ∧ dvalue (ints ++ fracs) = nat_value 0 (jn_int n +:+ frac_digits n).
Proof.
  intros Hok Hfit. pose proof (number_digits n Hok) as (Di & Df & _ & _).
  destruct (raw_digits_value _ Di) as (ints & Ei & Li & Vi).
  destruct (raw_digits_value _ Df) as (fracs & Ef & Lf & Vf). exists ints, fracs.
  split_and!; [|done..|].
  2: { rewrite dvalue_app, nat_value_app, Vi, Vf. unfold width. by rewrite Lf. }
  unfold number_parts, print_number. rewrite split_sign_print by done.
  assert (∀ e : result (string * Z) string,
    e = Ok (mantissa_text n, exp_value n) →
    (parts ←? e;
     let '(mantissa, exp_val) := parts in
     let '(int_part, frac_part) := default (mantissa, EmptyString) (split_once "." mantissa) in
     match raw_digits int_part with
     | None => Err ("invalid character in integer part of '" +:+ print_number n +:+ "'")
     | Some i =>
         match raw_digits frac_part with
         | None => Err ("invalid character in fraction part of '" +:+ print_number n +:+ "'")
         | Some f => Ok (jn_neg n, i, f, exp_val)
         end
     end) = Ok (jn_neg n, ints, fracs, exp_value n)) as Hk.
  { intros e ->. cbn [result_bind]. rewrite print_mantissa by done. by rewrite Ei, Ef. }
  apply Hk. clear Hk. rewrite split_exp_any, <- app_assoc_string. fold (mantissa_text n).
  pose proof (print_splits n Hok) as Hs. destruct (jn_exp n) as [e|] eqn:Ee.
  - pose proof (print_exp_parse n Hok Hfit ltac:(by rewrite Ee)) as Hp.
    destruct (split_at_any _ _) as [[m x]|] eqn:Esp; cbn in Hs.
    + injection Hs as -> ->. by rewrite Hp.
    + exfalso. destruct e as [[u g] d]. unfold print_exp in Esp. revert Esp.
      destruct u; rewrite app_cons_string, app_empty_string, split_at_any_app;
        try done; by apply mantissa_no_mark.
  - rewrite app_nil_string, split_at_any_none by (by apply mantissa_no_mark).
    unfold exp_value. by rewrite Ee.
Qed.

Lemma print_text_value n : number_ok n = true → fits_i64 n →
  text_value (print_number n) = Some (coeff n, scale n).
Proof.
  intros Hok Hfit. destruct (print_number_parts n Hok Hfit) as (ints & fracs & E & _ & Lf & Hv).
  unfold text_value. rewrite trim_graphic by (by apply print_graphic).
  rewrite E, Hv, Lf. done.
Qed.

(** A number within the range is read. *)
Lemma print_parses n : number_ok n = true → fits_i64 n → ∃ d, decimal_parse (print_number n) = Ok d
  ∧ (is_zero d = false → scale n ≤ decimal_scale d
       ∧ d_exp d + 1 ≤ scale n + len (jn_int n +:+ frac_digits n)).
Proof.
  intros Hok Hfit. destruct (print_number_parts n Hok Hfit) as (ints & fracs & E & Li & Lf & _).
  unfold decimal_parse. rewrite trim_graphic by (by apply print_graphic). rewrite E.
  assert (is_empty (print_number n) = false) as ->.
  { destruct (print_number n) as [|c s] eqn:Ep; [|done]. exfalso.
    pose proof (number_digits n Hok) as (_ & _ & _ & Hi). apply (f_equal String.length) in Ep.
    unfold print_number in Ep. rewrite !length_app_string in Ep.
    destruct (jn_int n); [done|]. cbn in Ep. lia. }
  cbn [result_bind]. set (raw := ints ++ fracs).
  destruct (trailing_split (trim_leading_zeros raw)) as (k & _ & Hl).
  set (t := trim_trailing_zeros (trim_leading_zeros raw)) in *.
  assert (length raw = (leading_zeros raw + (length t + k))%nat) as Hlen.
  { rewrite (leading_split raw) at 1. rewrite length_app, length_replicate, Hl. done. }
  assert (length raw = (length ints + length fracs)%nat) as Hr by apply length_app.
  destruct (Nat.eqb_spec (length t) 0) as [H0|H0]; [by eexists|].
  unfold fits_i64 in Hfit. rewrite len_app in *. unfold checked_i64.
  assert (in_i64 (Z.of_nat (length ints) - 1 - Z.of_nat (leading_zeros raw) + exp_value n) = true) as ->.
  { apply andb_true_iff. rewrite !Z.leb_le. unfold I64_MIN, I64_MAX in *. lia. }
  eexists. split; [done|]. intros _. unfold decimal_scale, scale. cbn [d_exp d_digits]. lia.
Qed.

Lemma checked_within z : I64_MIN ≤ z ≤ I64_MAX → or_overflow (checked_i64 z) = Ok z.
Proof.
  intros Hz. unfold checked_i64. assert (in_i64 z = true) as ->; [|done].
  apply andb_true_iff. by rewrite !Z.leb_le.
Qed.

(** A decimal as read from a number: its scale is in range and its digits are
    among those of the number. *)
Record read_from (d : ExactDecimal) (n : JsonNumber) : Prop := {
  rf_range : I64_MIN ≤ decimal_scale d ≤ I64_MAX;
  rf_scale : scale n ≤ decimal_scale d;
  rf_exp : d_exp d + 1 ≤ scale n + len (jn_int n +:+ frac_digits n);
  rf_digits : 1 ≤ Z.of_nat (length (d_digits d))
}.

Lemma print_read n d : number_ok n = true → fits_i64 n → decimal_parse (print_number n) = Ok d →
  is_zero d = false → read_from d n.
Proof.
  intros Hok Hf Hd Hz. destruct (print_parses n Hok Hf) as (d' & E & B).
  rewrite E in Hd. injection Hd as ->. destruct (B Hz) as [B1 B2].
  assert (1 ≤ Z.of_nat (length (d_digits d))) as Hl.
  { unfold is_zero in Hz. apply Nat.eqb_neq in Hz. lia. }
  split; [|done..]. unfold fits_i64, scale in *. rewrite len_app in *. unfold decimal_scale in *.
  pose proof (len_nonneg (jn_int n)). pose proof (len_nonneg (frac_digits n)). lia.
Qed.

(** The digit cells of an operand at the common scale. *)
Definition span (n1 n2 : JsonNumber) : Z :=
  len (jn_int n1 +:+ frac_digits n1) + (scale n1 - Z.min (scale n1) (scale n2)).

Lemma multiple_cells_total dv dd n1 n2 : read_from dv n1 → read_from dd n2 →
  span n1 n2 * span n2 n1 ≤ MAX_MULTIPLE_OF_COST → ∃ b, multiple_cells dv dd = Ok b.
Proof.
  intros [Rv Sv Ev Lv] [Rd Sd Ed Ld] Hcost. unfold span in Hcost.
  rewrite (Z.min_comm (scale n2)) in Hcost. set (k := Z.min (scale n1) (scale n2)) in *.
  set (t := Z.min (decimal_scale dv) (decimal_scale dd)).
  set (la := Z.of_nat (length (d_digits dv)) + (decimal_scale dv - t)).
  set (lb := Z.of_nat (length (d_digits dd)) + (decimal_scale dd - t)).
  assert (1 ≤ la ≤ len (jn_int n1 +:+ frac_digits n1) + (scale n1 - k)) as Ba.
  { unfold la, t, k, decimal_scale in *. lia. }
  assert (1 ≤ lb ≤ len (jn_int n2 +:+ frac_digits n2) + (scale n2 - k)) as Bb.
  { unfold lb, t, k, decimal_scale in *. lia. }
  assert (la * lb ≤ MAX_MULTIPLE_OF_COST) as Hc by nia.
  assert (la ≤ la * lb ∧ lb ≤ la * lb) as [Ca Cb] by nia.
  unfold multiple_cells. cbv zeta. fold (decimal_scale dv) (decimal_scale dd).
  rewrite (checked_within (decimal_scale dv)) by done. cbn [result_bind].
  rewrite (checked_within (decimal_scale dd)) by done. cbn [result_bind]. fold t.
  unfold MAX_MULTIPLE_OF_COST, I64_MIN, I64_MAX in *.
  rewrite checked_within by (unfold I64_MIN, I64_MAX; lia). cbn [result_bind]. fold la.
  rewrite checked_within by (unfold I64_MIN, I64_MAX; lia). cbn [result_bind].
  rewrite checked_within by (unfold I64_MIN, I64_MAX; lia). cbn [result_bind]. fold lb.
  rewrite checked_within by (unfold I64_MIN, I64_MAX; lia). cbn [result_bind].
  rewrite checked_within by (unfold I64_MIN, I64_MAX; lia). cbn [result_bind].
  rewrite (proj2 (Z.ltb_ge _ _)) by done. eauto.
Qed.

(** Within the work bound a positive divisor is never refused. *)
Lemma is_multiple_total n1 n2 : number_ok n1 = true → number_ok n2 = true → fits_i64 n1 → fits_i64 n2 →
  0 < coeff n2 → span n1 n2 * span n2 n1 ≤ MAX_MULTIPLE_OF_COST →
  ∃ b, is_multiple_of (print_number n1) (print_number n2) = Ok b.
Proof.
  intros O1 O2 F1 F2 Hpos Hcost. unfold is_multiple_of.
  destruct (print_parses n1 O1 F1) as (dv & Hv & _). destruct (print_parses n2 O2 F2) as (dd & Hd & _).
  rewrite Hv, Hd. cbn [result_bind]. destruct (decimal_parse_value _ _ Hd) as (Nd & w & Ew & Sw).
  rewrite print_text_value in Ew by done. injection Ew as <-.
  assert (0 < (decimal_value dd).1) as Hdd.
  { apply (same_number_pos _ (coeff n2, scale n2)); [|done]. unfold same_number, value_cmp in *.
    by rewrite Z.min_comm, Z.compare_antisym, Sw. }
  destruct (is_zero dd) eqn:Hz; [apply zero_value in Hz; lia|].
  destruct (d_negative dd) eqn:Hn; cbn [orb].
  { unfold decimal_value in Hdd. rewrite Hn in Hdd. cbn in Hdd. pose proof (decimal_pos dd Nd Hz). lia. }
  destruct (is_zero dv) eqn:Hzv; [eauto|].
  eapply multiple_cells_total; eauto using print_read.
Qed.

Lemma same_value_number n1 n2 : same_value n1 n2 ↔ same_number (coeff n1, scale n1) (coeff n2, scale n2).
Proof. unfold same_value, same_number, value_cmp, at_scale. cbn [fst snd]. by rewrite Z.compare_eq_iff. Qed.

(** The evaluator's number arithmetic is exact on JSON numbers, however
    they are spelled: bounds compare the numbers themselves, [enum] and
    [const] identify exactly equal numbers, and [multipleOf] decides whether
    the value is an integer multiple of the divisor and answers whenever the
    operands stay within the work bound, with no floating point and no
    overflow while the exponents fit the 64-bit arithmetic. *)
Lemma schema_numbers_exact n1 n2 :
  number_ok n1 = true → number_ok n2 = true → fits_i64 n1 → fits_i64 n2 →
  let v1 := (coeff n1, scale n1) in
  let v2 := (coeff n2, scale n2) in
  compare_numeric_strings (print_number n1) (print_number n2) = Ok (value_cmp v1 v2)
  ∧ (numbers_equal (print_number n1) (print_number n2) = true ↔ same_value n1 n2)
  ∧ (∀ b, is_multiple_of (print_number n1) (print_number n2) = Ok b →
       0 < coeff n2 ∧ (b = true ↔ multiple v1 v2))
  ∧ (0 < coeff n2 → span n1 n2 * span n2 n1 ≤ MAX_MULTIPLE_OF_COST →
       ∃ b, is_multiple_of (print_number n1) (print_number n2) = Ok b).
Proof.
  intros O1 O2 F1 F2 v1 v2.
  destruct (print_parses n1 O1 F1) as (d1 & H1 & _). destruct (print_parses n2 O2 F2) as (d2 & H2 & _).
  pose proof (print_text_value n1 O1 F1) as T1. pose proof (print_text_value n2 O2 F2) as T2.
  split_and!.
  - destruct (compare_numeric_strings (print_number n1) (print_number n2)) as [c|] eqn:E.
    + destruct (compare_value _ _ _ E) as (v & w & Hv & Hw & ->). unfold v1, v2. congruence.
    + unfold compare_numeric_strings in E. by rewrite H1, H2 in E.
  - destruct (numbers_equal_value _ _ _ _ H1 H2) as (v & w & Hv & Hw & ->).
    rewrite same_value_number. by rewrite T1, T2 in *; simplify_eq.
  - intros b (v & w & Hv & Hw & Hpos & Hb)%is_multiple_value.
    assert (v = v1) as -> by (unfold v1; congruence). assert (w = v2) as -> by (unfold v2; congruence).
    done.
  - intros Hpos Hc. by apply is_multiple_total.
Qed.

