(* ===== verification/SchemaEval.v ===== *)
(** * SchemaEval: the evaluator of [args_schema]

    The call-time half of [src/src/schema_spec.rs] (keywords, lookups, [$ref])
    and [src/src/auditor/schema_validator.rs]: the arguments of a call against
    the JSON Schema of its tool. The evaluator carries two budgets that
    survive a failed branch (a mismatch inside [anyOf] is caught), so it is
    written in a monad that returns the budgets whatever the outcome. The
    recursion follows the schema through [$ref] and is bounded by the depth
    limit, not by the tree: [validate_value] takes fuel. *)

From S2P Require Import Prelude Text Percent IpAddr Json PathText SchemaDecimal.

Open Scope result_scope.

(** What the evaluator asks of libraries: the JSON parser of a schema text,
    the regular expressions of [pattern], and the text of an accessor called
    on a value of another kind. *)
Class SchemaLib := {
  parse_json : string → result Json string;
  regex_new : string → result unit string;
  regex_is_match : string → string → bool;
  kind_error : Json → string
}.

Definition SUPPORTED_KEYWORDS : list string := [
  "type"; "properties"; "required"; "additionalProperties"; "items"; "enum"; "const"; "minimum";
  "maximum"; "exclusiveMinimum"; "exclusiveMaximum"; "multipleOf"; "minLength"; "maxLength";
  "pattern"; "minItems"; "maxItems"; "uniqueItems"; "anyOf"; "oneOf"; "allOf"; "$ref"; "format";
  "description"; "title"; "default"; "examples"; "$schema"; "$id"; "$comment"; "definitions";
  "$defs"]%string.

Definition MAX_SCHEMA_DEPTH : nat := 64.

Definition VALID_TYPES : list string :=
  ["string"; "number"; "integer"; "boolean"; "array"; "object"; "null"]%string.

Definition member_opt (obj : Json) (name : string) : option Json := member obj name.

Definition field_path (base field : string) : string :=
  if is_empty base then field
  else if starts_with "[" field then base +:+ field
  else base +:+ "." +:+ field.

Definition or_schema (path : string) : string := if is_empty path then "schema" else path.
Definition or_value (path : string) : string := if is_empty path then "value" else path.
Definition at_path (where_ msg : string) : string := "at '" +:+ where_ +:+ "': " +:+ msg.

Definition supported (key : string) : bool := existsb (String.eqb key) SUPPORTED_KEYWORDS.

Definition check_unsupported_keywords (schema : Json) (path : string) : result unit string :=
  match to_object schema with
  | None => Ok ()
  | Some ms =>
      match List.find (λ m, negb (supported m.1)) ms with
      | Some (key, _) =>
          Err (at_path (or_schema path) ("unsupported schema keyword '" +:+ key +:+ "'"))
      | None => Ok ()
      end
  end.

(** ** [$ref] *)

(** [replace("~d", c)] for a two-character pattern. *)
Fixpoint replace_tilde (d c : ascii) (s : string) : string :=
  match s with
  | EmptyString => EmptyString
  | String a s' =>
      match s' with
      | String b s'' =>
          if Ascii.eqb a "~" && Ascii.eqb b d then String c (replace_tilde d c s'')
          else String a (replace_tilde d c s')
      | EmptyString => s
      end
  end.

Definition ref_segment (raw : string) : string := replace_tilde "0" "~" (replace_tilde "1" "/" raw).

(** [percent_decode] of [schema_spec.rs], a third copy of the loop. *)
Definition percent_decode (s : string) : string :=
  if negb (contains "%" s) then s else percent_decode_once s.

Section refs.
Context `{SchemaLib}.

Definition unresolvable (target why : string) : string :=
  "unresolvable $ref '" +:+ target +:+ "': " +:+ why.

Definition ref_step (target : string) (node : Json) (segment : string) : result Json string :=
  match node with
  | JObject _ _ =>
      match member_opt node segment with
      | Some v => Ok v
      | None => Err (unresolvable target ("missing key '" +:+ segment +:+ "'"))
      end
  | JArray _ items =>
      match parse_u64 segment with
      | None => Err (unresolvable target ("'" +:+ segment +:+ "' is not an array index"))
      | Some idx =>
          match items !! Z.to_nat idx with
          | Some v => Ok v
          | None => Err (unresolvable target ("array index " +:+ show_dec idx +:+ " out of range"))
          end
      end
  | _ => Err (unresolvable target ("'" +:+ segment +:+ "' walks into a non-container"))
  end.

Fixpoint ref_walk (target : string) (node : Json) (segments : list string) : result Json string :=
  match segments with
  | [] => Ok node
  | raw :: rest => node' ←? ref_step target node (ref_segment raw); ref_walk target node' rest
  end.

Definition resolve_local_ref (root : Json) (target : string) : result Json string :=
  match strip_prefix "#" target with
  | None => Err ("unsupported $ref '" +:+ target
                   +:+ "': only same-document references (#…) are resolved")
  | Some pointer =>
      if is_empty pointer then Ok root
      else
        match strip_prefix "/" pointer with
        | None => Err (unresolvable target "fragment is not a JSON pointer")
        | Some pointer => ref_walk target root (split "/" (percent_decode pointer))
        end
  end.
End refs.

Open Scope Z_scope.

Definition MAX_BRANCH_EVALS : Z := 1048576.
Definition MAX_NODE_EVALS : Z := 16777216.

Record EvalState := mkEval { branch_budget : Z; node_budget : Z }.

Inductive EvalError := Mismatch (m : string) | Fatal (m : string).

Definition into_message (e : EvalError) : string :=
  match e with Mismatch m | Fatal m => m end.

Definition M (A : Type) : Type := EvalState → EvalState * result A EvalError.

Definition mret {A} (a : A) : M A := λ ev, (ev, Ok a).
Definition mfail {A} (e : EvalError) : M A := λ ev, (ev, Err e).
Definition mbind_ev {A B} (m : M A) (k : A → M B) : M B := λ ev,
  match m ev with
  | (ev', Ok a) => k a ev'
  | (ev', Err e) => (ev', Err e)
  end.

(** [map_err(EvalError::Fatal)?]. *)
Definition fatal {A} (r : result A string) : M A :=
  match r with Ok a => mret a | Err e => mfail (Fatal e) end.

Declare Scope eval_scope.
Delimit Scope eval_scope with eval.
Notation "x ⇐ m ; k" := (mbind_ev m (λ x, k))
  (at level 100, m at level 200, k at level 200, right associativity) : eval_scope.
Open Scope eval_scope.

(** ** Budgets *)

Definition limit_reason (what : string) (limit : Z) (path : string) : string :=
  at_path (or_schema path)
    ("schema " +:+ what +:+ " evaluation limit " +:+ show_dec limit +:+ " exceeded").

Definition spend_branch (path : string) : M unit := λ ev,
  if branch_budget ev =? 0
  then (ev, Err (Fatal (limit_reason "combinator" MAX_BRANCH_EVALS path)))
  else (mkEval (branch_budget ev - 1) (node_budget ev), Ok ()).

Definition spend_node (path : string) : M unit := λ ev,
  if node_budget ev =? 0
  then (ev, Err (Fatal (limit_reason "node" MAX_NODE_EVALS path)))
  else (mkEval (branch_budget ev) (node_budget ev - 1), Ok ()).

Definition mismatch_if (b : bool) (reason : string) : M unit :=
  if b then mfail (Mismatch reason) else mret ().

(** ** Kinds *)

Definition kind_name (v : Json) : string :=
  match v with
  | JNull => "null"
  | JBool _ => "boolean"
  | JInteger _ => "integer"
  | JFloat _ => "number"
  | JString _ _ => "string"
  | JArray _ _ => "array"
  | JObject _ _ => "object"
  end.

Definition is_number (v : Json) : bool := bool_decide (is_Some (as_number_str v)).

Definition has_type (v : Json) (expected : string) : bool :=
  if String.eqb expected "number" then is_number v else String.eqb (kind_name v) expected.

Definition type_matches (v : Json) (expected : string) : result bool string :=
  if existsb (String.eqb expected) VALID_TYPES then Ok (has_type v expected)
  else Err ("unknown schema type '" +:+ expected +:+ "'").

(** ** Value equality *)

Fixpoint json_values_equal (a b : Json) : bool :=
  match a, b with
  | (JInteger x | JFloat x), (JInteger y | JFloat y) => numbers_equal x y
  | JNull, JNull => true
  | JBool x, JBool y => Bool.eqb x y
  | JString _ x, JString _ y => String.eqb x y
  | JArray _ xs, JArray _ ys =>
      (fix zip_equal (xs ys : list Json) : bool :=
         match xs, ys with
         | [], [] => true
         | x :: xs', y :: ys' => json_values_equal x y && zip_equal xs' ys'
         | _, _ => false
         end) xs ys
  | JObject _ xs, JObject _ ys =>
      (length xs =? length ys)%nat
      && (fix all_members (xs : list (string * Json)) : bool :=
            match xs with
            | [] => true
            | (name, x) :: xs' =>
                match member_of ys name with
                | Some y => json_values_equal x y && all_members xs'
                | None => false
                end
            end) xs
  | _, _ => false
  end.

(** [{:?}] of the digits. *)
Definition show_digits (ds : list Z) : string := "[" +:+ join ", " (show_dec <$> ds) +:+ "]".
Definition show_int (z : Z) : string :=
  if z <? 0 then "-" +:+ show_dec (- z) else show_dec z.

Definition number_key (raw : string) : string :=
  match decimal_parse raw with
  | Ok d => "D" +:+ (if d_negative d then "-" else "+") +:+ show_int (d_exp d) +:+ ":"
              +:+ show_digits (d_digits d)
  | Err _ => "r" +:+ raw
  end.

Definition show_len (s : string) : string := show_dec (Z.of_nat (String.length s)).

Fixpoint canonical_key (v : Json) (depth : nat) : string :=
  if (MAX_SCHEMA_DEPTH <? depth)%nat then "r" +:+ as_raw_str v
  else
    match v with
    | JNull => "N"
    | JBool b => if b then "Bt" else "Bf"
    | JInteger raw | JFloat raw => number_key raw
    | JString _ s => "S" +:+ show_len s +:+ ":" +:+ s
    | JArray _ items => "A[" +:+ join "," ((λ v, canonical_key v (S depth)) <$> items) +:+ "]"
    | JObject _ ms =>
        "O{" +:+ join "," ((λ p, show_len p.1 +:+ ":" +:+ p.1 +:+ "=" +:+ p.2)
                             <$> merge_sort ord_le ((λ m, (m.1, canonical_key m.2 (S depth))) <$> ms))
          +:+ "}"
    end.

(** ** Leaf constraints *)

Section eval.
Context `{SchemaLib} (root : Json).

Definition number_of (v : Json) : M string :=
  match as_number_str v with Some s => mret s | None => mfail (Fatal (kind_error v)) end.
Definition string_of (v : Json) : M string :=
  match to_unquoted_string_str v with Some s => mret s | None => mfail (Fatal (kind_error v)) end.
Definition array_of (v : Json) : M (list Json) :=
  match to_array v with Some items => mret items | None => mfail (Fatal (kind_error v)) end.

(** A bound that is a [usize] written as an integer. *)
Definition usize_of (keyword : string) (v : Json) : M Z :=
  match v with
  | JInteger raw =>
      match parse_u64 raw with
      | Some n => mret n
      | None => mfail (Fatal ("invalid " +:+ keyword +:+ " '" +:+ raw +:+ "'"))
      end
  | _ => mfail (Fatal (kind_error v))
  end.

(** Runs a check on the value of a keyword, when the schema has it. *)
Definition on_keyword (schema : Json) (name : string) (k : Json → M unit) : M unit :=
  match member_opt schema name with Some v => k v | None => mret () end.

Definition check_type (value : Json) (expected path : string) : M unit :=
  ok ⇐ fatal (type_matches value expected);
  mismatch_if (negb ok)
    (at_path (or_value path) ("should be " +:+ expected +:+ ", got " +:+ kind_name value)).

Fixpoint type_names (path : string) (ts : list Json) : M (list string) :=
  match ts with
  | [] => mret []
  | t :: rest =>
      match to_unquoted_string_str t with
      | None => mfail (Fatal (at_path (or_schema path) "type array elements must be strings"))
      | Some name => names ⇐ type_names path rest; mret (name :: names)
      end
  end.

Definition check_type_union (value : Json) (ts : list Json) (path : string) : M unit :=
  names ⇐ type_names path ts;
  match names with
  | [] => mfail (Fatal (at_path (or_schema path) "type array must not be empty"))
  | _ =>
      match List.find (λ n, negb (existsb (String.eqb n) VALID_TYPES)) names with
      | Some name => mfail (Fatal ("unknown schema type '" +:+ name +:+ "'"))
      | None =>
          mismatch_if (negb (existsb (has_type value) names))
            (at_path (or_value path)
               ("should be one of [" +:+ join ", " names +:+ "], got " +:+ kind_name value))
      end
  end.

Definition check_type_keyword (value type_val : Json) (path : string) : M unit :=
  match type_val with
  | JString _ expected => check_type value expected path
  | JArray _ ts => check_type_union value ts path
  | _ => mfail (Fatal (at_path (or_schema path) "type must be a string or an array of type names"))
  end.

Definition check_enum (value enum_val : Json) (path : string) : M unit :=
  match to_array enum_val with
  | None => mfail (Fatal (at_path path ("enum must be an array: " +:+ kind_error enum_val)))
  | Some items =>
      mismatch_if (negb (existsb (json_values_equal value) items))
        (at_path (or_value path) ("value " +:+ as_raw_str value +:+ " is not in enum"))
  end.

Definition check_const (value const_val : Json) (path : string) : M unit :=
  mismatch_if (negb (json_values_equal value const_val))
    (at_path (or_value path)
       ("value " +:+ as_raw_str value +:+ " is not equal to const " +:+ as_raw_str const_val)).

(** One bound: refused when the comparison is one of [bad]. *)
Definition check_bound (num path what : string) (bad : comparison → bool) (bound : Json) : M unit :=
  b ⇐ number_of bound;
  c ⇐ fatal (compare_numeric_strings num b);
  mismatch_if (bad c) (at_path (or_value path) (num +:+ " is " +:+ what +:+ " " +:+ b)).

Definition is_lt (c : comparison) : bool := if c is Lt then true else false.
Definition is_gt (c : comparison) : bool := if c is Gt then true else false.
Definition is_le (c : comparison) : bool := negb (is_gt c).
Definition is_ge (c : comparison) : bool := negb (is_lt c).

Definition check_numeric_constraints (value schema : Json) (path : string) : M unit :=
  match as_number_str value with
  | None => mret ()
  | Some num =>
      _ ⇐ on_keyword schema "minimum" (check_bound num path "less than minimum" is_lt);
      _ ⇐ on_keyword schema "maximum" (check_bound num path "greater than maximum" is_gt);
      _ ⇐ on_keyword schema "exclusiveMinimum"
            (check_bound num path "less than or equal to exclusiveMinimum" is_le);
      _ ⇐ on_keyword schema "exclusiveMaximum"
            (check_bound num path "greater than or equal to exclusiveMaximum" is_ge);
      on_keyword schema "multipleOf" (λ mo,
        d ⇐ number_of mo;
        ok ⇐ fatal (is_multiple_of num d);
        mismatch_if (negb ok) (at_path (or_value path) (num +:+ " is not a multiple of " +:+ d)))
  end.

Definition char_count (s : string) : Z := Z.of_nat (length (chars s)).

Definition check_string_constraints (value schema : Json) (path : string) : M unit :=
  match to_unquoted_string_str value with
  | None => mret ()
  | Some s =>
      let n := char_count s in
      _ ⇐ on_keyword schema "minLength" (λ v,
            min ⇐ usize_of "minLength" v;
            mismatch_if (n <? min)
              (at_path (or_value path) ("string length " +:+ show_dec n +:+ " is less than minLength "
                                          +:+ show_dec min)));
      _ ⇐ on_keyword schema "maxLength" (λ v,
            max ⇐ usize_of "maxLength" v;
            mismatch_if (max <? n)
              (at_path (or_value path) ("string length " +:+ show_dec n
                                          +:+ " is greater than maxLength " +:+ show_dec max)));
      on_keyword schema "pattern" (λ v,
        pat ⇐ string_of v;
        match regex_new pat with
        | Err e => mfail (Fatal (at_path (or_value path)
                                   ("invalid regex pattern '" +:+ pat +:+ "': " +:+ e)))
        | Ok _ => mismatch_if (negb (regex_is_match pat s))
                    (at_path (or_value path) ("string does not match pattern '" +:+ pat +:+ "'"))
        end)
  end.

(** ** Structure: the recursive call is a parameter *)

Section structure.
Context (validate : Json → Json → string → nat → M unit).

Fixpoint charge_members (ms : list (string * Json)) (path : string) : M unit :=
  match ms with
  | [] => mret ()
  | _ :: rest => _ ⇐ spend_node path; charge_members rest path
  end.

Fixpoint check_required (reqs : list Json) (entries : list (string * Json)) (path : string)
    : M unit :=
  match reqs with
  | [] => mret ()
  | req :: rest =>
      name ⇐ string_of req;
      _ ⇐ mismatch_if (negb (existsb (λ m, String.eqb m.1 name) entries))
            (at_path (field_path path name) "missing required field");
      check_required rest entries path
  end.

Definition extra_refused (path key : string) : EvalError :=
  Mismatch (at_path (field_path path key) "additional property not allowed").

(** One member against its property schema, the [false] of
    [additionalProperties], or the schema of the extra members. *)
Definition check_member (props : option Json) (additional_allowed : bool)
    (additional_schema : option Json) (path : string) (depth : nat) (key : string) (val : Json)
    : M unit :=
  match props ≫= λ p, member_opt p key with
  | Some prop_schema => validate val prop_schema (field_path path key) (S depth)
  | None =>
      if negb additional_allowed then mfail (extra_refused path key)
      else match additional_schema with
           | Some add_schema => validate val add_schema (field_path path key) (S depth)
           | None => mret ()
           end
  end.

Fixpoint check_members (props : option Json) (additional_allowed : bool)
    (additional_schema : option Json) (path : string) (depth : nat) (ms : list (string * Json))
    : M unit :=
  match ms with
  | [] => mret ()
  | (key, val) :: rest =>
      _ ⇐ check_member props additional_allowed additional_schema path depth key val;
      check_members props additional_allowed additional_schema path depth rest
  end.

Definition additional_mode (path : string) (additional : option Json) : M (bool * option Json) :=
  match additional with
  | None => mret (true, None)
  | Some (JBool b) => mret (b, None)
  | Some v =>
      if is_object v then mret (true, Some v)
      else mfail (Fatal (at_path path "additionalProperties must be a boolean or an object"))
  end.

Definition validate_object (entries : list (string * Json)) (schema : Json) (path : string)
    (depth : nat) : M unit :=
  _ ⇐ charge_members entries path;
  _ ⇐ on_keyword schema "required" (λ r, reqs ⇐ array_of r; check_required reqs entries path);
  mode ⇐ additional_mode path (member_opt schema "additionalProperties");
  match member_opt schema "properties" with
  | Some props =>
      if negb (is_object props)
      then mfail (Fatal (at_path path "properties must be an object"))
      else check_members (Some props) mode.1 mode.2 path depth entries
  | None => check_members None mode.1 mode.2 path depth entries
  end.

Definition item_path (path : string) (i : nat) : string :=
  field_path path ("[" +:+ show_dec (Z.of_nat i) +:+ "]").

(** The elements in order, with the keys seen when they must be distinct. *)
Fixpoint check_items (items : option Json) (seen : option (gset string)) (path : string)
    (depth i : nat) (elems : list Json) : M unit :=
  match elems with
  | [] => mret ()
  | elem :: rest =>
      _ ⇐ spend_node path;
      _ ⇐ match items with
          | Some s => validate elem s (item_path path i) (S depth)
          | None => mret ()
          end;
      match seen with
      | Some set =>
          let key := canonical_key elem 0 in
          if bool_decide (key ∈ set)
          then mfail (Mismatch (at_path (item_path path i) "array elements are not unique"))
          else check_items items (Some ({[key]} ∪ set)) path depth (S i) rest
      | None => check_items items None path depth (S i) rest
      end
  end.

Definition unique_mode (path : string) (unique : option Json) : M bool :=
  match unique with
  | None => mret false
  | Some (JBool b) => mret b
  | Some _ => mfail (Fatal (at_path (or_schema path) "uniqueItems must be a boolean"))
  end.

Definition validate_array (elems : list Json) (schema : Json) (path : string) (depth : nat)
    : M unit :=
  let items := member_opt schema "items" in
  _ ⇐ match items with
      | Some (JArray _ _) =>
          mfail (Fatal (at_path (or_schema path)
                          "array-form 'items' (tuple validation) is not supported"))
      | _ => mret ()
      end;
  unique ⇐ unique_mode path (member_opt schema "uniqueItems");
  _ ⇐ check_items items (if unique : bool then Some ∅ else None) path depth 0 elems;
  let count := Z.of_nat (length elems) in
  _ ⇐ on_keyword schema "minItems" (λ v,
        min ⇐ usize_of "minItems" v;
        mismatch_if (count <? min)
          (at_path (or_value path) ("array has " +:+ show_dec count
                                      +:+ " items, is less than minItems " +:+ show_dec min)));
  on_keyword schema "maxItems" (λ v,
    max ⇐ usize_of "maxItems" v;
    mismatch_if (max <? count)
      (at_path (or_value path) ("array has " +:+ show_dec count
                                  +:+ " items, is greater than maxItems " +:+ show_dec max))).

(** ** Combinators *)

Definition combinator_branches (val : Json) (name path : string) : M (list Json) :=
  match to_array val with
  | Some (b :: bs) => mret (b :: bs)
  | _ => mfail (Fatal (at_path (or_schema path)
                         ("'" +:+ name +:+ "' must be a non-empty array of schemas")))
  end.

Fixpoint check_all_of (value : Json) (branches : list Json) (path : string) (depth : nat) : M unit :=
  match branches with
  | [] => mret ()
  | branch :: rest =>
      _ ⇐ spend_branch path;
      _ ⇐ validate value branch path (S depth);
      check_all_of value rest path depth
  end.

(** A mismatch is a value here; a fatal error is not caught. *)
Definition attempt (m : M unit) : M (option string) := λ ev,
  match m ev with
  | (ev', Ok _) => (ev', Ok None)
  | (ev', Err (Mismatch e)) => (ev', Ok (Some e))
  | (ev', Err (Fatal e)) => (ev', Err (Fatal e))
  end.

(** Every branch is tried: how many matched, and the first mismatch. *)
Fixpoint try_branches (value : Json) (branches : list Json) (path : string) (depth : nat)
    (matched : nat) (first_err : option string) : M (nat * option string) :=
  match branches with
  | [] => mret (matched, first_err)
  | branch :: rest =>
      _ ⇐ spend_branch path;
      outcome ⇐ attempt (validate value branch path (S depth));
      match outcome with
      | None => try_branches value rest path depth (S matched) first_err
      | Some e =>
          try_branches value rest path depth matched
            (if first_err is Some _ then first_err else Some e)
      end
  end.

Definition check_any_of (value val : Json) (path : string) (depth : nat) : M unit :=
  branches ⇐ combinator_branches val "anyOf" path;
  r ⇐ try_branches value branches path depth 0 None;
  mismatch_if (r.1 =? 0)%nat
    (at_path (or_value path)
       ("value does not match any anyOf branch (" +:+ default "" r.2 +:+ ")")).

Definition check_one_of (value val : Json) (path : string) (depth : nat) : M unit :=
  branches ⇐ combinator_branches val "oneOf" path;
  r ⇐ try_branches value branches path depth 0 None;
  mismatch_if (negb (r.1 =? 1)%nat)
    (at_path (or_value path)
       ("value matches " +:+ show_dec (Z.of_nat r.1) +:+ " oneOf branches, expected exactly 1")).

Definition check_ref (value ref_val : Json) (path : string) (depth : nat) : M unit :=
  target ⇐ string_of ref_val;
  resolved ⇐ fatal (resolve_local_ref root target);
  _ ⇐ spend_branch path;
  validate value resolved path (S depth).

(** An object schema, keyword by keyword. *)
Definition validate_keywords (value schema : Json) (path : string) (depth : nat) : M unit :=
  _ ⇐ fatal (check_unsupported_keywords schema path);
  _ ⇐ on_keyword schema "$ref" (λ r, check_ref value r path depth);
  _ ⇐ on_keyword schema "type" (λ t, check_type_keyword value t path);
  _ ⇐ on_keyword schema "enum" (λ e, check_enum value e path);
  _ ⇐ on_keyword schema "const" (λ c, check_const value c path);
  _ ⇐ check_numeric_constraints value schema path;
  _ ⇐ check_string_constraints value schema path;
  _ ⇐ match to_object value with
      | Some entries => validate_object entries schema path depth
      | None => mret ()
      end;
  _ ⇐ match to_array value with
      | Some elems => validate_array elems schema path depth
      | None => mret ()
      end;
  _ ⇐ on_keyword schema "allOf" (λ v,
        branches ⇐ combinator_branches v "allOf" path; check_all_of value branches path depth);
  _ ⇐ on_keyword schema "anyOf" (λ v, check_any_of value v path depth);
  on_keyword schema "oneOf" (λ v, check_one_of value v path depth).

Definition validate_step (value schema : Json) (path : string) (depth : nat) : M unit :=
  _ ⇐ spend_node path;
  if (MAX_SCHEMA_DEPTH <? depth)%nat
  then mfail (Fatal (at_path (or_schema path)
                       ("schema evaluation exceeds depth limit "
                          +:+ show_dec (Z.of_nat MAX_SCHEMA_DEPTH))))
  else
    match schema with
    | JBool true => mret ()
    | JBool false => mfail (Mismatch (at_path (or_value path) "schema is false, value rejected"))
    | JObject _ _ => validate_keywords value schema path depth
    | _ => mfail (Fatal (at_path (or_schema path) "schema must be a boolean or an object"))
    end.
End structure.

(** The knot.  A call at depth 65 fails before it recurses: 66 steps are
    always enough from depth 0. *)
Fixpoint validate_value (fuel : nat) : Json → Json → string → nat → M unit :=
  match fuel with
  | O => λ _ _ _ _, mfail (Fatal "out of fuel")
  | S f => validate_step (validate_value f)
  end.
End eval.

Definition VALIDATE_FUEL : nat := S (S MAX_SCHEMA_DEPTH).

Definition validate_arguments `{SchemaLib} (arguments : Json) (schema_str : string)
    : result unit string :=
  match parse_json schema_str with
  | Err e => Err ("invalid args_schema JSON: " +:+ e)
  | Ok schema =>
      match validate_value schema VALIDATE_FUEL arguments schema "" 0
              (mkEval MAX_BRANCH_EVALS MAX_NODE_EVALS) with
      | (_, Ok _) => Ok ()
      | (_, Err e) => Err (into_message e)
      end
  end.
