(* ===== verification/CheckRequest.v ===== *)
(** * CheckRequest: the verdict on one [tools/call]

    [src/src/auditor/checker.rs]: the request is admitted when it is an object
    without repeated keys, its tool is listed and allowed, its arguments meet
    the schema, its retry members are in order and its sub-policy passes.  A
    refusal is a [PolicyViolation] whose text is also what the wire, the audit
    record and the correction report classify.

    A line is given as what the JSON parser made of it. *)

From S2P Require Import Prelude Text Percent IpAddr Json Structure Protocol WireFrame Session Deputy.
From S2P Require Import PathText PathResolve Targets Outbound SubPolicy.
From S2P Require Import SchemaDecimal SchemaEval.

Open Scope result_scope.

(** ** Reasons *)

Definition REASON_TOOL_NOT_ALLOWED : string := "tool is not allowed".
Definition REASON_TOOL_NOT_FOUND : string := "tool not found in policy (default deny)".
Definition UNKNOWN_TOOL : string := "<unknown>".

Inductive ValidationKind := ValidationPathTraversal | ValidationArgumentInvalid.

Definition validation_kind (v : PolicyViolation) : option ValidationKind :=
  if contains_str "path traversal" (pv_reason v) then Some ValidationPathTraversal
  else if starts_with "schema validation failed:" (pv_reason v) then Some ValidationArgumentInvalid
  else None.

Definition is_authorization_denial (v : PolicyViolation) : bool :=
  String.eqb (pv_reason v) REASON_TOOL_NOT_ALLOWED || String.eqb (pv_reason v) REASON_TOOL_NOT_FOUND.

Definition client_reason (v : PolicyViolation) : string :=
  if String.eqb (pv_reason v) REASON_TOOL_NOT_ALLOWED || String.eqb (pv_reason v) REASON_TOOL_NOT_FOUND
  then REASON_TOOL_NOT_ALLOWED else pv_reason v.

Definition is_denied_target (v : PolicyViolation) : bool :=
  let r := pv_reason v in
  if starts_with "host '" r || starts_with "destination '" r then true
  else starts_with "path '" r
       && (ends_with "') denied by tool fs sub-policy" r
           || ends_with "') not in tool fs allowed paths" r
           || ends_with "' matches the secret-path overlay (beats explicit allow)" r).

Record CheckPass := mkPass { cp_sub_policy : option string; cp_audit_notes : list string }.

Definition violation {A} (tool : string) (r : result A string) : result A PolicyViolation :=
  match r with
  | Ok a => Ok a
  | Err e => Err (mkViolation tool e)
  end.

(** ** Protocol versions *)

Definition declared_protocol_version (json : Json) : option string :=
  match params_member json "_meta" ≫= λ meta, member meta META_PROTOCOL_VERSION ≫= as_string_str with
  | Some v => Some v
  | None => params_member json "protocolVersion" ≫= as_string_str
  end.

Inductive RequestProtocolVersion := RPV2026July28 | RPV2025November25 | RPVOther | RPVUnspecified.

Definition classify_request_protocol_version (line : result Json string) : RequestProtocolVersion :=
  match line with
  | Err _ => RPVUnspecified
  | Ok json =>
      match declared_protocol_version json with
      | Some v =>
          if String.eqb v MCP_VERSION_2026_07_28 then RPV2026July28
          else if String.eqb v MCP_VERSION_2025_11_25 then RPV2025November25
          else RPVOther
      | None => RPVUnspecified
      end
  end.

(** [{b:02X}]. *)
Definition hex_upper (d : Z) : ascii := ascii_of_nat (Z.to_nat (if (d <? 10)%Z then 48 + d else 55 + d)).

Definition unreserved (b : ascii) : bool :=
  is_ascii_alphanumeric b || PolicyHost.one_of ["-"; "."; "_"; "~"]%char b.

Fixpoint encode_audit_field_value (value : string) : string :=
  match value with
  | EmptyString => EmptyString
  | String b rest =>
      if unreserved b then String b (encode_audit_field_value rest)
      else String "%" (String (hex_upper (code b / 16))
                         (String (hex_upper (code b mod 16)) (encode_audit_field_value rest)))
  end.

Definition protocol_version_audit_notes (json : Json) : list string :=
  match declared_protocol_version json with
  | Some v => ["protocolVersion=" +:+ encode_audit_field_value v]
  | None => []
  end.

(** ** The retry members *)

Definition check_request_state (json : Json) (notes : list string) : result (list string) string :=
  match params_member json "requestState" with
  | None => Ok notes
  | Some value =>
      let size := request_state_byte_len value in
      if (REQUEST_STATE_MAX_BYTES <? size)%Z
      then Err ("requestState exceeds size cap (" +:+ show_dec size +:+ " > "
                  +:+ show_dec REQUEST_STATE_MAX_BYTES +:+ " bytes)")
      else Ok (notes ++ ["requestState present (" +:+ show_dec size +:+ " bytes)"])
  end.

Definition input_responses_denied_reason (mode : InputResponsesMode) : string :=
  match mode with
  | IRAuto => "inputResponses denied by secure default (tool has a security contract; set input_responses="
                +:+ dquote +:+ "allow" +:+ dquote +:+ " or " +:+ dquote +:+ "inspect" +:+ dquote
                +:+ " to opt in)"
  | IRDeny => "inputResponses denied by tool policy"
  | IRAllow | IRInspect => "inputResponses denied"
  end.

Definition check_input_responses (json : Json) (tool : ToolPolicy) (notes : list string)
    : result (list string) string :=
  match params_member json "inputResponses" with
  | None => Ok notes
  | Some _ =>
      match resolve_input_responses (tp_input_responses tool) (has_security_contract tool) with
      | RDeny => Err (input_responses_denied_reason (tp_input_responses tool))
      | RAllow => Ok notes
      | RInspect => Ok (notes ++ ["inputResponses present (inspect)"])
      end
  end.

(** ** The request *)

(** The [method] member; of several the last, after a type check on each. *)
Fixpoint find_method (ms : list (string * Json)) (found : option string)
    : result (option string) string :=
  match ms with
  | [] => Ok found
  | (key, v) :: rest =>
      if String.eqb key "method" then
        match to_unquoted_string_str v with
        | Some m => find_method rest (Some m)
        | None => Err "'method' field must be a valid JSON string"
        end
      else find_method rest found
  end.

Definition request_tool_name (json : Json) : result string string :=
  match member json "params" with
  | None => Err "tools/call without params"
  | Some params =>
      match member params "name" with
      | None => Err "tools/call without params.name"
      | Some name =>
          match to_unquoted_string_str name with
          | Some s => Ok s
          | None => Err "params.name is not a string"
          end
      end
  end.

Definition policy_allows_tool (policy : Policy) (name : string) : bool :=
  existsb (λ t, String.eqb (tp_name t) name && tp_allowed t) (pol_tools policy).

(** The listed, allowed entry of a tool. *)
Definition admit_tool (policy : Policy) (name : string) : result ToolPolicy string :=
  if negb (policy_allows_tool policy name) then
    Err (if existsb (λ t, String.eqb (tp_name t) name) (pol_tools policy)
         then REASON_TOOL_NOT_ALLOWED else REASON_TOOL_NOT_FOUND)
  else
    match List.find (λ t, String.eqb (tp_name t) name && tp_allowed t) (pol_tools policy) with
    | Some tool => Ok tool
    | None => Err REASON_TOOL_NOT_FOUND
    end.

(** Where the text of a schema comes from: the bounded read of a file that
    lies under the working directory. *)
Class SchemaFiles := { read_schema_file : string → string → result string string }.

(** The components of [base] are the first ones of [path]. *)
Definition path_starts_with (path base : string) : bool :=
  bool_decide (has_root path = has_root base)
  && bool_decide (take (length (path_parts base)) (path_parts path) = path_parts base).

Section request.
Context `{Unicode} `{FileSystem} `{SchemaLib} `{SchemaFiles}.

Definition schema_file (path : string) : result string string :=
  match canonicalize path with
  | CMissing => Err ("failed to read schema file '" +:+ path
                       +:+ "': No such file or directory (os error 2)")
  | CError e => Err ("failed to resolve schema file path '" +:+ path +:+ "': " +:+ e)
  | CFound canonical =>
      match current_dir with
      | Err e => Err ("failed to determine working directory: " +:+ e)
      | Ok base_raw =>
          let base := match canonicalize base_raw with CFound b => b | _ => base_raw end in
          if negb (path_starts_with canonical base)
          then Err ("path traversal: schema file '" +:+ canonical
                      +:+ "' resolves outside the working directory")
          else
            match read_schema_file canonical base with
            | Ok text => Ok text
            | Err e => Err ("failed to read schema file '" +:+ path +:+ "': " +:+ e)
            end
      end
  end.

Definition resolve_schema (schema_ref : string) : result string string :=
  match strip_prefix "@" schema_ref with
  | Some path => schema_file (trim path)
  | None => Ok schema_ref
  end.

Definition validate_tool_args (json : Json) (schema_ref : string) : result unit string :=
  schema_str ←? resolve_schema schema_ref;
  let arguments := default (JObject "{}" []) (params_member json "arguments") in
  match validate_arguments arguments schema_str with
  | Ok _ => Ok ()
  | Err e => Err ("schema validation failed: " +:+ e)
  end.

(** The checks of an admitted tool, in order. *)
Definition check_call (json : Json) (tool : ToolPolicy) (policy : Policy) (notes : list string)
    : result CheckPass string :=
  _ ←? match tp_args_schema tool with
       | Some schema_ref => validate_tool_args json schema_ref
       | None => Ok ()
       end;
  notes ←? check_request_state json notes;
  notes ←? check_input_responses json tool notes;
  outcome ←? check_tool_sub_policy json tool policy;
  let notes :=
    if (0 <? so_opaque_fields outcome)%nat
    then notes ++ ["opaque_fields=" +:+ show_dec (Z.of_nat (so_opaque_fields outcome))]
    else notes in
  Ok (mkPass (if so_sub_policy outcome then Some ("tool:" +:+ tp_name tool) else None) notes).

Definition check_request (line : result Json string) (policy : Policy)
    : result CheckPass PolicyViolation :=
  match line with
  | Err e => Err (mkViolation UNKNOWN_TOOL ("invalid JSON: " +:+ e))
  | Ok json =>
      match to_object json with
      | None =>
          Err (mkViolation UNKNOWN_TOOL
                 "request must be a JSON object (batch requests are not supported)")
      | Some ms =>
          _ ←? violation UNKNOWN_TOOL (check_duplicate_keys_recursively json);
          method ←? violation UNKNOWN_TOOL (find_method ms None);
          let notes := protocol_version_audit_notes json in
          if negb (bool_decide (method = Some "tools/call")) then Ok (mkPass None notes)
          else
            name ←? violation UNKNOWN_TOOL (request_tool_name json);
            tool ←? violation name (admit_tool policy name);
            violation name (check_call json tool policy notes)
      end
  end.

(** ** Trajectory *)

Definition tool_side_effect (policy : Policy) (name : string) : option SideEffect :=
  match List.find (λ t, String.eqb (tp_name t) name) (pol_tools policy) with
  | Some t => match tp_side_effect t with
              | Some raw => match SideEffect_parse raw with Ok se => Some se | Err _ => None end
              | None => None
              end
  | None => None
  end.

Definition check_request_trajectory (line : result Json string) (policy : Policy)
    (session : SessionState) : result unit PolicyViolation :=
  if negb (pol_trajectory policy) then Ok ()
  else
    match line with
    | Err e => Err (mkViolation UNKNOWN_TOOL ("invalid JSON: " +:+ e))
    | Ok json =>
        name ←? violation UNKNOWN_TOOL (request_tool_name json);
        violation name
          (check_trajectory session (pol_trajectory_rules policy) name
             (tool_side_effect policy name) (request_has_host_or_url line))
    end.
End request.
