(* ===== verification/PathTheorems.v ===== *)
(** * PathTheorems: what normalisation settles

    A normalised argument without a percent sign is a fixed point of
    [normalize_fs_argument], so the variants of the shape and secret tests that
    skip the second normalisation give the verdict of the full ones.  NFKC is
    a library function: what the proofs use of it are the laws [NfkcLaws]. *)

From S2P Require Import Prelude Text Percent IpAddr PathText PathResolve.

Open Scope result_scope.

(** ** Well-formed sequences of characters *)

Definition wf_char (ch : string) : Prop :=
  match ch with
  | EmptyString => False
  | String b rest =>
      if is_ascii_char b then rest = EmptyString else cont b = false ∧ str_all cont rest = true
  end.

(** No byte continues a sequence that was not begun. *)
Definition text (s : string) : Prop := Forall wf_char (chars s).

Lemma collect_chars_chars s : collect_chars (chars s) = s.
Proof.
  induction s as [|c s IH]; [done|]. cbn [chars].
  destruct (chars s) as [|h t]; cbn in *; [by subst|].
  destruct (negb (is_ascii_char c) && starts_cont h); cbn; by rewrite <- IH.
Qed.

Lemma chars_ascii c s : is_ascii_char c = true → chars (String c s) = String c "" :: chars s.
Proof. intros Hc. cbn [chars]. rewrite Hc. by destruct (chars s). Qed.

Lemma wf_char_not_cont ch : wf_char ch → starts_cont ch = false.
Proof.
  destruct ch as [|b rest]; [done|]. cbn -[is_ascii_char cont]. destruct (is_ascii_char b) eqn:E.
  - intros _. by apply ascii_cont.
  - by intros [].
Qed.

Lemma chars_cont_run rest cs : str_all cont rest = true → Forall wf_char cs →
  chars (collect_chars cs) = cs → rest ≠ "" →
  ∃ h t, chars (rest +:+ collect_chars cs) = (rest +:+ h) :: t ∧ h = "" ∧ t = cs.
Proof.
  intros Hr Hcs Hc. revert Hr. induction rest as [|b rest IH]; intros Hr Hne; [done|].
  cbn [str_all] in Hr. apply andb_true_iff in Hr as [Hb Hr].
  assert (is_ascii_char b = false) as Hb'.
  { destruct (is_ascii_char b) eqn:E; [|done]. apply ascii_cont in E. congruence. }
  rewrite app_cons_string. cbn [chars]. destruct rest as [|b' rest].
  - rewrite app_empty_string, Hc. exists "", cs. destruct cs as [|h t]; [done|].
    rewrite Hb'. apply Forall_cons_1 in Hcs as [Hh _]. by rewrite (wf_char_not_cont h Hh).
  - destruct (IH Hr) as (h & t & -> & -> & ->); [done|]. rewrite Hb'.
    cbn [str_all] in Hr. apply andb_true_iff in Hr as [Hb2 _].
    rewrite app_cons_string. cbn [starts_cont]. rewrite Hb2. by exists "", cs.
Qed.

Lemma chars_collect cs : Forall wf_char cs → chars (collect_chars cs) = cs.
Proof.
  induction cs as [|ch cs IH]; intros Hcs; [done|]. apply Forall_cons_1 in Hcs as [Hch Hcs].
  cbn [collect_chars]. destruct ch as [|b rest]; [done|]. cbn -[is_ascii_char cont] in Hch.
  rewrite app_cons_string. destruct (is_ascii_char b) eqn:Hb.
  - subst rest. rewrite chars_ascii, app_empty_string by done. by rewrite IH.
  - destruct Hch as [Hcont Hrest]. destruct rest as [|b' rest].
    + rewrite app_empty_string. cbn [chars]. rewrite IH by done. destruct cs as [|h t]; [done|].
      rewrite Hb. apply Forall_cons_1 in Hcs as [Hh _]. by rewrite (wf_char_not_cont h Hh).
    + destruct (chars_cont_run (String b' rest) cs Hrest Hcs (IH Hcs)) as (h & t & E & -> & ->);
        [done|]. cbn [chars]. rewrite E, Hb. rewrite app_cons_string. cbn [starts_cont].
      cbn [str_all] in Hrest. apply andb_true_iff in Hrest as [-> _].
      by rewrite app_nil_string.
Qed.

Lemma text_collect cs : Forall wf_char cs → text (collect_chars cs).
Proof. intros Hcs. unfold text. by rewrite chars_collect. Qed.

Lemma text_cons_ascii c s : is_ascii_char c = true → text (String c s) ↔ text s.
Proof.
  intros Hc. unfold text. rewrite chars_ascii by done. rewrite Forall_cons. cbn. rewrite Hc. tauto.
Qed.

Lemma text_app_char ch s : wf_char ch → text s → text (ch +:+ s).
Proof.
  intros Hch Hs. rewrite <- (collect_chars_chars s).
  change (ch +:+ collect_chars (chars s)) with (collect_chars (ch :: chars s)).
  apply text_collect. by constructor.
Qed.

Lemma keep_chars_text p s : text s → text (keep_chars p s).
Proof.
  intros Hs. apply text_collect. apply Forall_forall. intros ch Hch%list_elem_of_In.
  apply List.filter_In in Hch as [Hch%list_elem_of_In _]. by apply (proj1 (Forall_forall _ _) Hs).
Qed.

Lemma keep_chars_id p s : Forall (λ c, p c = true) (chars s) → keep_chars p s = s.
Proof.
  intros Hs. unfold keep_chars. rewrite <- (collect_chars_chars s) at 2. f_equal.
  induction Hs as [|c cs Hc _ IH]; [done|]. cbn. by rewrite Hc, IH.
Qed.

Lemma chars_keep p s : text s → chars (keep_chars p s) = List.filter p (chars s).
Proof.
  intros Hs. unfold keep_chars. apply chars_collect. apply Forall_forall.
  intros ch Hch%list_elem_of_In. apply List.filter_In in Hch as [Hch%list_elem_of_In _].
  by apply (proj1 (Forall_forall _ _) Hs).
Qed.

(** ** Valid UTF-8 and lossy decoding give well-formed text *)

#[local] Opaque is_ascii_char in_range cont second3 second4.

Lemma in_range_not_ascii lo hi b : (128 ≤ lo)%Z → in_range lo hi b = true → is_ascii_char b = false.
Proof.
  intros Hlo Hb. destruct (is_ascii_char b) eqn:E; [|done].
  rewrite (ascii_not_cont b lo hi E Hlo) in Hb. done.
Qed.

Lemma lead_not_cont lo hi b : (192 ≤ lo)%Z → in_range lo hi b = true → cont b = false.
Proof.
  #[local] Transparent in_range cont.
  unfold cont, in_range. rewrite !andb_true_iff, !andb_false_iff, !Z.leb_le, !Z.leb_gt. lia.
  #[local] Opaque in_range cont.
Qed.

Lemma second3_cont b b1 : second3 b b1 = true → cont b1 = true.
Proof.
  #[local] Transparent second3 cont in_range.
  unfold second3, cont, in_range. repeat case_match; rewrite ?andb_true_iff, ?Z.leb_le; lia.
  #[local] Opaque second3 cont in_range.
Qed.

Lemma second4_cont b b1 : second4 b b1 = true → cont b1 = true.
Proof.
  #[local] Transparent second4 cont in_range.
  unfold second4, cont, in_range. repeat case_match; rewrite ?andb_true_iff, ?Z.leb_le; lia.
  #[local] Opaque second4 cont in_range.
Qed.

Lemma wf_lead lo hi b rest : (194 ≤ lo)%Z → in_range lo hi b = true → str_all cont rest = true →
  wf_char (String b rest).
Proof.
  intros Hlo Hb Hr. cbn. rewrite (in_range_not_ascii lo hi) by (done || lia). split; [|done].
  apply (lead_not_cont lo hi); [lia|done].
Qed.

Lemma wf_replacement : wf_char REPLACEMENT.
Proof. by vm_compute. Qed.

Lemma lossy_chunk_wf b s : wf_char (lossy_chunk b s).1.
Proof.
  unfold lossy_chunk. destruct (is_ascii_char b) eqn:Hb; [cbn; by rewrite Hb|].
  repeat case_match; cbn [fst]; try exact wf_replacement;
    (eapply wf_lead; [|eassumption|]; [lia|]);
    cbn; repeat (apply andb_true_iff; split); try done; eauto using second3_cont, second4_cont.
Qed.

Lemma lossy_text s : text (from_utf8_lossy s).
Proof.
  unfold from_utf8_lossy. generalize (String.length s) as n. intros n. revert s.
  induction n as [|n IH]; intros s; [constructor|]. destruct s as [|b s]; [constructor|].
  cbn [lossy_loop]. pose proof (lossy_chunk_wf b s). destruct (lossy_chunk b s) as [out rest].
  by apply text_app_char.
Qed.

(** ** Clean text: no NUL and no splitting control *)

Definition no_control (s : string) : Prop :=
  Forall (λ c, is_scheme_splitting_control c = false) (chars s).

Definition clean (s : string) : Prop := contains NUL s = false ∧ no_control s.

Lemma no_control_existsb s : no_control s ↔ existsb is_scheme_splitting_control (chars s) = false.
Proof.
  unfold no_control. induction (chars s) as [|c cs IH]; cbn; [split; [done|constructor]|].
  rewrite Forall_cons, orb_false_iff, IH. done.
Qed.

Lemma strip_keep_id s : no_control s → strip_scheme_splitting_controls_keep s = s.
Proof.
  intros Hs%no_control_existsb. unfold strip_scheme_splitting_controls_keep. by rewrite Hs.
Qed.

Lemma strip_keep_no_control s : text s → no_control (strip_scheme_splitting_controls_keep s).
Proof.
  intros Hs. unfold strip_scheme_splitting_controls_keep.
  destruct (existsb _ (chars s)) eqn:E; [|by apply no_control_existsb].
  unfold no_control, strip_scheme_splitting_controls. rewrite chars_keep by done.
  apply Forall_forall. intros c Hc%list_elem_of_In. apply List.filter_In in Hc as [_ Hc].
  by apply negb_true_iff in Hc.
Qed.

Lemma contains_collect c cs :
  contains c (collect_chars cs) = existsb (contains c) cs.
Proof.
  induction cs as [|ch cs IH]; [done|]. cbn [collect_chars existsb].
  by rewrite contains_app_string, IH.
Qed.

Lemma keep_chars_contains p c s : contains c s = false → contains c (keep_chars p s) = false.
Proof.
  intros Hs. rewrite <- (collect_chars_chars s), contains_collect in Hs.
  unfold keep_chars. rewrite contains_collect. apply not_true_iff_false. intros Hx.
  apply List.existsb_exists in Hx as (ch & Hch & Hc). apply List.filter_In in Hch as [Hch _].
  assert (existsb (contains c) (chars s) = true); [|congruence].
  apply List.existsb_exists. eauto.
Qed.

Lemma strip_keep_contains c s : contains c s = false →
  contains c (strip_scheme_splitting_controls_keep s) = false.
Proof.
  intros Hs. unfold strip_scheme_splitting_controls_keep, strip_scheme_splitting_controls.
  case_match; [by apply keep_chars_contains|done].
Qed.

(** Filtering a character out shortens the string. *)
Lemma keep_chars_length p s : (String.length (keep_chars p s) ≤ String.length s)%nat.
Proof.
  rewrite <- (collect_chars_chars s) at 2. unfold keep_chars. induction (chars s) as [|c cs IH]; [done|].
  cbn [List.filter collect_chars]. rewrite length_app_string. case_match; cbn [collect_chars];
    rewrite ?length_app_string; lia.
Qed.

Lemma chars_nonempty s : Forall (λ c, c ≠ "") (chars s).
Proof.
  induction s as [|c s IH]; [constructor|]. cbn [chars]. destruct (chars s) as [|h t]; [by repeat constructor|].
  apply Forall_cons_1 in IH as [? ?]. case_match; by repeat constructor.
Qed.

Lemma keep_chars_fixed p s : keep_chars p s = s → Forall (λ c, p c = true) (chars s).
Proof.
  intros Hs. apply (f_equal String.length) in Hs. rewrite <- (collect_chars_chars s) in Hs at 2.
  unfold keep_chars in Hs. pose proof (chars_nonempty s) as Hne. revert Hs.
  assert (∀ cs, (String.length (collect_chars (List.filter p cs))
                 ≤ String.length (collect_chars cs))%nat) as Hle.
  { induction cs as [|c cs IH]; [done|]. cbn [List.filter collect_chars]. rewrite length_app_string.
    case_match; cbn [collect_chars]; rewrite ?length_app_string; lia. }
  induction Hne as [|c cs Hc _ IH]; intros Hs; [constructor|]. cbn [List.filter collect_chars] in Hs.
  rewrite length_app_string in Hs. specialize (Hle cs). destruct (p c) eqn:E.
  - cbn [collect_chars] in Hs. rewrite length_app_string in Hs. constructor; [done|]. apply IH. lia.
  - destruct c; [done|]. simpl in Hs. lia.
Qed.

(** A fixed point of a round is clean. *)
Lemma round_fixed_clean s : decode_then_strip_c0_cow s = Ok s → clean s.
Proof.
  unfold decode_then_strip_c0_cow. case_match eqn:Hn; [done|]. intros [= Hs].
  destruct (contains "%" s) eqn:Hp.
  - assert (text (percent_decode_once_cow s) ∨ percent_decode_once_cow s = s) as [Ht|E].
    { unfold percent_decode_once_cow. rewrite Hp. cbn [negb].
      case_bool_decide; [by right|left; apply lossy_text]. }
    + rewrite <- Hs. split; [by apply strip_keep_contains|by apply strip_keep_no_control].
    + rewrite E in *. split; [done|]. revert Hs. unfold strip_scheme_splitting_controls_keep.
      case_match eqn:Ex; [|intros _; by apply no_control_existsb].
      intros Hs%keep_chars_fixed. eapply Forall_impl; [exact Hs|]. intros c Hc. by apply negb_true_iff.
  - assert (percent_decode_once_cow s = s) as E by (unfold percent_decode_once_cow; by rewrite Hp).
    rewrite E in *. split; [done|]. revert Hs. unfold strip_scheme_splitting_controls_keep.
    case_match eqn:Ex; [|intros _; by apply no_control_existsb].
    intros Hs%keep_chars_fixed. eapply Forall_impl; [exact Hs|]. intros c Hc. by apply negb_true_iff.
Qed.

Lemma decode_rounds_clean n : ∀ s r, decode_rounds n s = Ok r → clean r.
Proof.
  induction n as [|n IH]; intros s r; cbn [decode_rounds];
    destruct (decode_then_strip_c0_cow s) as [next|] eqn:E; try done; cbn [result_bind];
    case_bool_decide; intros Hr; simplify_eq; eauto using round_fixed_clean.
Qed.

(** Printable ASCII is clean. *)
Lemma printable_char_clean c : printable c = true →
  is_ascii_char c = true ∧ is_scheme_splitting_control (String c "") = false ∧ Ascii.eqb NUL c = false.
Proof. each_char c. Qed.

Lemma printable_clean p s : (∀ c, p c = true → printable c = true) → str_all p s = true → clean s.
Proof.
  intros Hp. induction s as [|c s IH]; [intros _; repeat split; constructor|].
  cbn [str_all]. intros [Hc Hs]%andb_true_iff. destruct (IH Hs) as (Hn & Hk).
  destruct (printable_char_clean c (Hp c Hc)) as (Ha & Hctl & Hnul). split.
  - by rewrite contains_cons, Hnul, Hn.
  - unfold no_control. rewrite chars_ascii by done. by constructor.
Qed.

Lemma percent_bounded_clean s r : percent_decode_bounded_cow s = Ok r → clean r.
Proof.
  unfold percent_decode_bounded_cow. case_match; [done|]. case_match eqn:E.
  - intros [= <-]. eapply printable_clean; [|exact E]. intros c Hc. by apply andb_true_iff in Hc as [? _].
  - apply decode_rounds_clean.
Qed.

(** Clean text without an escape is a fixed point of the decoding. *)
Lemma percent_bounded_id s : clean s → contains "%" s = false → percent_decode_bounded_cow s = Ok s.
Proof.
  intros (Hn & Hc) Hp. unfold percent_decode_bounded_cow. rewrite Hn. case_match; [done|].
  rewrite (strip_keep_id s Hc). cbn [decode_rounds PERCENT_DECODE_MAX_ROUNDS].
  unfold decode_then_strip_c0_cow, percent_decode_once_cow. rewrite Hp. cbn [negb].
  rewrite Hn, strip_keep_id by done. cbn [result_bind]. by rewrite bool_decide_eq_true_2.
Qed.

(** ** Anchored paths: a leading slash or a drive *)

Definition rooted (s : string) : bool := starts_with "/" s || looks_like_windows_abs s.

Inductive Anchor : string → Prop :=
  | AnchorSlash : Anchor "/"
  | AnchorDrive a c : is_ascii_alphabetic a = true → c = "/"%char ∨ c = BACKSLASH_CHAR →
      Anchor (String a (String ":" (String c ""))).

Lemma rooted_anchor s : rooted s = true ↔ ∃ p s', Anchor p ∧ s = p +:+ s'.
Proof.
  unfold rooted. rewrite orb_true_iff. split.
  - intros [[r Hr]%starts_with_iff|H]; [by exists "/", r; split; [constructor|]|].
    destruct s as [|a [|b [|c s]]]; try done. cbn in H. rewrite !andb_true_iff, orb_true_iff in H.
    destruct H as [[Ha Hb%Ascii.eqb_eq] Hc]. subst b.
    exists (String a (String ":" (String c ""))), s. split; [|done]. constructor; [done|].
    destruct Hc as [Hc|Hc]; apply Ascii.eqb_eq in Hc; auto.
  - intros (p & s' & Hp & ->). destruct Hp as [|a c Ha Hc]; [left; apply starts_with_iff; eauto|].
    right. rewrite !app_cons_string. unfold looks_like_windows_abs.
    rewrite Ha. by destruct Hc as [-> | ->].
Qed.

(** An anchor character is neither decoded, nor stripped, nor white space. *)
Definition anchor_char (c : ascii) : bool :=
  is_ascii_char c && negb (Ascii.eqb c "%") && sniffed (String c "") && graphic c.

Lemma anchor_chars p : Anchor p → str_all anchor_char p = true.
Proof.
  intros [|a c Ha Hc]; [by vm_compute|]. cbn [str_all].
  assert (anchor_char c = true) as -> by (destruct Hc as [-> | ->]; by vm_compute).
  assert (anchor_char a = true) as ->; [|by vm_compute]. revert Ha. each_char a.
Qed.

Lemma anchor_char_inv c : anchor_char c = true →
  is_ascii_char c = true ∧ Ascii.eqb c "%" = false ∧ sniffed (String c "") = true ∧ graphic c = true.
Proof. unfold anchor_char. rewrite !andb_true_iff, negb_true_iff. tauto. Qed.

Lemma percent_decode_cons c s : is_ascii_char c = true → Ascii.eqb c "%" = false →
  percent_decode_once (String c s) = String c (percent_decode_once s).
Proof.
  intros Ha Hp. unfold percent_decode_once. rewrite decode_bytes_cons.
  assert (escape (String c s) = None) as ->.
  { unfold escape. destruct s as [|h [|l s]]; try done. by rewrite Hp. }
  rewrite from_utf8_lossy_cons. unfold lossy_chunk. by rewrite Ha.
Qed.

Lemma keep_cons q c s : is_ascii_char c = true → q (String c "") = true →
  keep_chars q (String c s) = String c (keep_chars q s).
Proof. intros Ha Hq. unfold keep_chars. rewrite chars_ascii by done. cbn. by rewrite Hq. Qed.

Lemma sniffed_uncontrolled c : sniffed c = true → negb (is_scheme_splitting_control c) = true.
Proof. unfold sniffed. rewrite !andb_true_iff. tauto. Qed.

(** A function that leaves a run of anchor characters in front. *)
Definition keeps_front (f : string → string) : Prop :=
  ∀ p s, str_all anchor_char p = true → ∃ s', f (p +:+ s) = p +:+ s'.

Lemma keeps_front_step (f : string → string) :
  (∀ c s, anchor_char c = true → f (String c s) = String c (f s)) → keeps_front f.
Proof.
  intros Hf p s. revert s. induction p as [|c p IH]; intros s Hp; [by exists (f s)|].
  cbn [str_all] in Hp. apply andb_true_iff in Hp as [Hc Hp]. destruct (IH s Hp) as [s' Hs'].
  exists s'. by rewrite !app_cons_string, Hf, Hs'.
Qed.

Lemma percent_cow_front : keeps_front percent_decode_once_cow.
Proof.
  intros p s Hp. unfold percent_decode_once_cow. repeat case_match; eauto.
  apply keeps_front_step; [|done]. intros c t (? & ? & _)%anchor_char_inv. by apply percent_decode_cons.
Qed.

Lemma strip_keep_front : keeps_front strip_scheme_splitting_controls_keep.
Proof.
  intros p s Hp. unfold strip_scheme_splitting_controls_keep. case_match; [|eauto].
  apply (keeps_front_step strip_scheme_splitting_controls); [|done].
  intros c t (? & _ & Hs & _)%anchor_char_inv. apply keep_cons; [done|].
  by apply sniffed_uncontrolled.
Qed.

Lemma compact_front : keeps_front compact_uri_for_scheme_sniff.
Proof.
  apply keeps_front_step. intros c t (? & _ & Hs & _)%anchor_char_inv. by apply keep_cons.
Qed.

Lemma trim_start_cons c s : graphic c = true → trim_start (String c s) = String c s.
Proof.
  intros Hc. unfold trim_start. cbn [String.length trim_start_fuel]. by rewrite graphic_not_space.
Qed.

Lemma trim_end_cons c s : graphic c = true → trim_end (String c s) = String c (trim_end s).
Proof. intros Hc. cbn [trim_end]. by rewrite trim_start_cons. Qed.

Lemma trim_end_front : keeps_front trim_end.
Proof. apply keeps_front_step. intros c t (_ & _ & _ & ?)%anchor_char_inv. by apply trim_end_cons. Qed.

Lemma trim_front p s : str_all anchor_char p = true → p ≠ "" → ∃ s', trim (p +:+ s) = p +:+ s'.
Proof.
  intros Hp Hne. unfold trim. destruct p as [|c p]; [done|].
  rewrite app_cons_string, trim_start_cons, <- app_cons_string; [by apply trim_end_front|].
  cbn [str_all] in Hp. apply andb_true_iff in Hp as [(_ & _ & _ & ?)%anchor_char_inv _]. done.
Qed.

Lemma decode_then_strip_front p s r : str_all anchor_char p = true →
  decode_then_strip_c0_cow (p +:+ s) = Ok r → ∃ s', r = p +:+ s'.
Proof.
  intros Hp. unfold decode_then_strip_c0_cow. destruct (percent_cow_front p s Hp) as [s1 ->].
  case_match; [done|]. intros [= <-]. by apply strip_keep_front.
Qed.

Lemma decode_rounds_front n p : ∀ s r, str_all anchor_char p = true →
  decode_rounds n (p +:+ s) = Ok r → ∃ s', r = p +:+ s'.
Proof.
  induction n as [|n IH]; intros s r Hp; cbn [decode_rounds];
    destruct (decode_then_strip_c0_cow (p +:+ s)) as [next|] eqn:E; try done; cbn [result_bind];
    destruct (decode_then_strip_front _ _ _ Hp E) as [s' ->]; case_bool_decide; intros Hr;
    simplify_eq; eauto.
Qed.

Lemma percent_bounded_front p s r : str_all anchor_char p = true →
  percent_decode_bounded_cow (p +:+ s) = Ok r → ∃ s', r = p +:+ s'.
Proof.
  intros Hp. unfold percent_decode_bounded_cow. case_match; [done|].
  case_match; [intros [= <-]; eauto|]. destruct (strip_keep_front p s Hp) as [s1 ->].
  by apply decode_rounds_front.
Qed.

Lemma percent_bounded_rooted s r : rooted s = true →
  percent_decode_bounded_cow s = Ok r → rooted r = true.
Proof.
  rewrite !rooted_anchor. intros (p & s' & Hp & ->) Hr.
  destruct (percent_bounded_front _ _ _ (anchor_chars p Hp) Hr) as [t ->]. eauto.
Qed.

(** ** A rooted path is not a [file:] URI *)

Lemma rooted_not_file s : rooted s = true → starts_with_file_scheme s = false.
Proof.
  rewrite rooted_anchor. intros (p & s' & [|a c Ha Hc] & ->); [done|].
  unfold starts_with_file_scheme, starts_with. apply bool_decide_eq_false. intros [r Hr].
  rewrite !app_cons_string in Hr.
  cbn [to_ascii_lowercase str_map strip_prefix] in Hr. by destruct (Ascii.eqb "f" (lower a)).
Qed.

Lemma rooted_after_file s : rooted s = true → after_file_scheme s = None.
Proof. intros H. unfold after_file_scheme. by rewrite rooted_not_file. Qed.

Lemma rooted_not_uri s : rooted s = true → file_uri_to_fs_path s = None.
Proof.
  intros H. unfold file_uri_to_fs_path. rewrite rooted_after_file; [done|].
  revert H. rewrite !rooted_anchor. intros (p & s' & Hp & ->).
  destruct (trim_front p s' (anchor_chars p Hp)) as [t ->]; [by destruct Hp|eauto].
Qed.

Lemma rooted_compact s : rooted s = true → rooted (compact_uri_for_scheme_sniff s) = true.
Proof.
  rewrite !rooted_anchor. intros (p & s' & Hp & ->).
  destruct (compact_front p s' (anchor_chars p Hp)) as [t ->]. eauto.
Qed.

(** The path of a [file:] URI is rooted. *)
Lemma take_until_split p s : s = take_until p s +:+ skip_bytes (String.length (take_until p s)) s.
Proof.
  induction s as [|c s IH]; [done|]. cbn [take_until]. destruct (p c); [done|].
  rewrite app_cons_string. cbn [String.length skip_bytes]. by rewrite <- IH.
Qed.

(** ** Components *)

(** A component: not empty, no slash. *)
Definition component (s : string) : Prop := s ≠ "" ∧ contains "/" s = false.

Lemma split_lacking c s : Forall (λ p, contains c p = false) (split c s).
Proof.
  induction s as [|a s IH]; [by repeat constructor|]. cbn [split].
  destruct (Ascii.eqb_spec a c) as [->|Hne]; [by constructor|].
  destruct (split c s) as [|h t]; [constructor; [|done]|apply Forall_cons_1 in IH as [Hh Ht]; constructor; [|done]];
    rewrite contains_cons; destruct (Ascii.eqb_spec c a); simplify_eq; done.
Qed.

Lemma path_parts_component path : Forall component (path_parts path).
Proof.
  apply Forall_forall. intros s Hs%list_elem_of_In. unfold path_parts in Hs.
  apply List.filter_In in Hs as [Hs%list_elem_of_In Hk]. apply andb_true_iff in Hk as [Hk _]. split.
  - by destruct s.
  - by apply (proj1 (Forall_forall _ _) (split_lacking "/" path)).
Qed.

Lemma lexical_fold_component cs : ∀ p, Forall component cs → Forall component (pb_rev p) →
  Forall component (pb_rev (foldl lexical_step p cs)) ∧ pb_root (foldl lexical_step p cs) = pb_root p.
Proof.
  induction cs as [|c cs IH]; intros p Hcs Hp; [done|]. apply Forall_cons_1 in Hcs as [Hc Hcs].
  cbn [foldl]. destruct (IH (lexical_step p c) Hcs) as [H1 H2].
  - unfold lexical_step, path_pop, path_push. destruct p as [root [|x l]]; cbn in *;
      destruct (String.eqb c ".."); cbn; try (by constructor); [by destruct root; repeat constructor|].
    by apply Forall_cons_1 in Hp as [_ ?].
  - split; [done|]. rewrite H2. unfold lexical_step, path_pop. repeat case_match; by simplify_eq/=.
Qed.

Lemma join_component cs : Forall component cs → starts_with "/" (join "/" cs) = false.
Proof.
  intros Hcs. destruct cs as [|c cs]; [done|]. apply Forall_cons_1 in Hcs as [[Hne Hc] _].
  destruct c as [|a c]; [done|]. rewrite contains_cons in Hc. apply orb_false_iff in Hc as [Ha _].
  unfold starts_with. apply bool_decide_eq_false. intros [r Hr].
  destruct cs as [|c' cs]; cbn [join] in Hr; rewrite ?app_cons_string in Hr;
    cbn [strip_prefix] in Hr; by rewrite Ha in Hr.
Qed.

(** The normal form of an absolute path is its root and its components. *)
Lemma lexical_absolute path : has_root path = true →
  ∃ cs, Forall component cs ∧ lexical_normalize_path path = "/" +:+ join "/" cs
        ∧ lexical_normalize_str path = "/" +:+ join "/" cs.
Proof.
  intros Hroot. unfold lexical_normalize_str, lexical_normalize_path. rewrite Hroot.
  destruct (lexical_fold_component (path_parts path) (mkPathBuf true []) (path_parts_component path))
    as [Hc Hr]; [done|]. destruct (foldl lexical_step _ _) as [root cs]. cbn in Hc, Hr. subst root.
  exists (rev cs). unfold path_string. cbn [pb_root pb_rev]. rewrite app_cons_string.
  cbn [is_empty]. split_and!; [by apply Forall_reverse_2 + (apply Forall_rev; done)|done|].
  unfold to_match_string. rewrite app_empty_string.
  destruct (strip_prefix "//?/" _) as [r|] eqn:E; [|done]. exfalso.
  assert (starts_with "/" (join "/" (rev cs)) = false) as Hj.
  { apply join_component. by apply Forall_rev. }
  apply strip_prefix_app in E. rewrite !app_cons_string in E. injection E as E.
  rewrite E in Hj. done.
Qed.

Lemma slashed_rooted s : starts_with "/" s = true → rooted s = true.
Proof. intros H. unfold rooted. by rewrite H. Qed.

Lemma skip_take_slash s : skip_bytes (String.length (take_until (Ascii.eqb "/") s)) s = ""
  ∨ starts_with "/" (skip_bytes (String.length (take_until (Ascii.eqb "/") s)) s) = true.
Proof.
  induction s as [|c s IH]; [by left|]. cbn [take_until].
  destruct (Ascii.eqb_spec "/" c) as [<-|]; [by right|]. exact IH.
Qed.

Lemma take_until_front (p : ascii → bool) c s : p c = false →
  starts_with (String c "") (take_until p (String c s)) = true.
Proof.
  intros Hc. cbn [take_until]. rewrite Hc. apply starts_with_iff. by eexists.
Qed.

Lemma file_uri_rooted uri p : file_uri_to_fs_path uri = Some p → rooted p = true.
Proof.
  unfold file_uri_to_fs_path. case_match; [|done]. case_match.
  - case_match eqn:Ha; [case_match; [done|]; intros [= <-]; by apply slashed_rooted|].
    unfold file_authority. repeat case_match; try done. intros [= <-]. apply slashed_rooted.
    match goal with |- starts_with "/" (strip_url_query_fragment ?t) = true =>
      assert (t = "" ∨ starts_with "/" t = true) as [E|Hs] by apply skip_take_slash end.
    { rewrite E in *. done. }
    apply starts_with_iff in Hs as [r ->]. by apply take_until_front.
  - case_match eqn:Hr; [intros [= <-]; exact Hr|]. case_match; [done|]. intros [= <-].
    apply slashed_rooted.
    destruct (lexical_absolute ("/" +:+ slashed (strip_url_query_fragment s))) as (cs & _ & _ & ->); done.
Qed.

(** ** Normalisation is idempotent *)

(** What UAX #15 says of NFKC: it is idempotent, its output holds a control or
    a NUL only when its input does, and a slash or a drive letter with its
    colon never composes with what follows. *)
Class NfkcLaws `{Unicode} := {
  nfkc_idempotent s : nfkc_tables (nfkc_tables s) = nfkc_tables s;
  nfkc_clean s : clean s → clean (nfkc_tables s);
  nfkc_rooted s : rooted s = true → rooted (nfkc_tables s) = true
}.

Section normal.
Context `{NfkcLaws}.

Lemma nfkc_twice s : nfkc (nfkc s) = nfkc s.
Proof.
  unfold nfkc. destruct (is_ascii s) eqn:E; [by rewrite E|].
  destruct (is_ascii (nfkc_tables s)); [done|apply nfkc_idempotent].
Qed.

Lemma decode_nfkc_inv raw n : decode_nfkc raw = Ok n →
  ∃ d, percent_decode_bounded_cow raw = Ok d ∧ n = nfkc d ∧ clean n ∧ nfkc n = n.
Proof.
  unfold decode_nfkc. destruct (percent_decode_bounded_cow raw) as [d|] eqn:E; [|done].
  intros [= <-]. exists d. split_and!; [done..| |apply nfkc_twice].
  apply percent_bounded_clean in E. unfold nfkc. case_match; [done|by apply nfkc_clean].
Qed.

Lemma decode_nfkc_id n : clean n → nfkc n = n → contains "%" n = false → decode_nfkc n = Ok n.
Proof. intros Hc Hn Hp. unfold decode_nfkc. rewrite percent_bounded_id by done. cbn. by rewrite Hn. Qed.

Lemma decode_nfkc_rooted p n : rooted p = true → decode_nfkc p = Ok n → rooted n = true.
Proof.
  intros Hp (d & Hd & -> & _)%decode_nfkc_inv. apply percent_bounded_rooted in Hd; [|done].
  unfold nfkc. case_match; [done|by apply nfkc_rooted].
Qed.

Lemma normalize_rooted n : rooted n = true → decode_nfkc n = Ok n → normalize_fs_argument n = Ok n.
Proof.
  intros Hr Hd. unfold normalize_fs_argument. destruct n as [|c n]; [done|]. cbn [is_empty].
  rewrite Hd. cbn [result_bind]. unfold uri_path, names_file_scheme, compacted.
  rewrite rooted_not_uri, rooted_not_file by done.
  destruct (contains ":" (String c n)); [|done]. cbn [mbind option_bind is_some_and].
  by rewrite rooted_not_uri, rooted_not_file by (by apply rooted_compact).
Qed.

(** A normalised argument, when it is not empty and holds no escape, is its
    own normal form. *)
Lemma normalize_fixed raw n : normalize_fs_argument raw = Ok n → n ≠ "" → contains "%" n = false →
  normalize_fs_argument n = Ok n.
Proof.
  unfold normalize_fs_argument at 1. case_match; [done|].
  destruct (decode_nfkc raw) as [decoded|] eqn:Hd; [|done]. cbn [result_bind].
  destruct (uri_path decoded) as [from_uri|] eqn:Hu.
  - intros Hn _ Hp. assert (rooted from_uri = true) as Hr.
    { unfold uri_path in Hu.
      destruct (file_uri_to_fs_path decoded) eqn:E; [simplify_eq; by apply file_uri_rooted in E|].
      destruct (compacted decoded); [|done]. by apply file_uri_rooted in Hu. }
    apply normalize_rooted; [by apply (decode_nfkc_rooted from_uri)|].
    apply decode_nfkc_inv in Hn as (d & _ & -> & Hc & Hi). by apply decode_nfkc_id.
  - destruct (names_file_scheme decoded) eqn:Hs; [done|]. intros [= <-] Hne Hp.
    apply decode_nfkc_inv in Hd as (d & _ & -> & Hc & Hi).
    unfold normalize_fs_argument. destruct (is_empty (nfkc d)) eqn:He; [by destruct (nfkc d)|].
    rewrite decode_nfkc_id by done. cbn [result_bind]. by rewrite Hu, Hs.
Qed.

(** The shape test on a normalised argument is the full one. *)
Lemma network_target_normalized raw n : normalize_fs_argument raw = Ok n →
  looks_like_network_target_normalized n = looks_like_network_target n.
Proof.
  intros Hn. unfold looks_like_network_target_normalized. destruct (contains "%" n) eqn:Hp; [done|].
  unfold looks_like_network_target. destruct (starts_with_file_scheme n) eqn:Hf; [done|].
  destruct (decide (n = "")) as [->|Hne]; [done|].
  rewrite (normalize_fixed raw n) by done. rewrite Hf. cbn [orb].
  destruct (looks_like_path n && negb (contains_str "://" n)); [done|].
  by destruct (contains_str "://" n).
Qed.

Context `{FileSystem}.

Lemma secret_pre_normalized raw n : normalize_fs_argument raw = Ok n →
  is_secret_path_pre_normalized n = is_secret_path n.
Proof.
  intros Hn. unfold is_secret_path_pre_normalized, is_secret_path_normalized, is_secret_path.
  case_match eqn:He; [done|]. rewrite String.eqb_refl. cbn [negb].
  destruct (reserved_after_normalize n); [done|]. cbn [orb].
  destruct (contains "%" n) eqn:Hp; [done|]. cbn [negb].
  rewrite (normalize_fixed raw n); [by rewrite String.eqb_refl|done| |done].
  intros ->. done.
Qed.
End normal.

(** A relative path loses its second parent step. *)
Lemma second_parent_step_lost : lexical_normalize_path "../x" = "../x"
  ∧ lexical_normalize_path "../../x" = "x".
Proof. split; reflexivity. Qed.
