(* ===== verification/TargetsTheorems.v ===== *)
(** * TargetsTheorems: what the extraction finds

    The verdict on one string, with which the fast path and the deferred
    replay agree; the walk as a fold over the strings of a request; and that a
    walk which is not truncated finds every target. *)

From S2P Require Import Prelude Text Percent IpAddr Json Structure PolicyHost Deputy PathText.
From S2P Require Import PathResolve Targets PathTheorems.

Open Scope result_scope.

(** ** Plain tokens have no shape *)

Definition plain_char (b : ascii) : bool :=
  printable b && negb (one_of ["/"; BACKSLASH_CHAR; ":"; "~"; "$"; "%"; "@"; "."]%char b).

Lemma plain_token_inv v : is_plain_ascii_token v = true → v ≠ "" ∧ str_all plain_char v = true.
Proof.
  unfold is_plain_ascii_token. intros [Hne Hv]%andb_true_iff. split; [by destruct v|exact Hv].
Qed.

Lemma plain_lacks c v : plain_char c = false → str_all plain_char v = true → contains c v = false.
Proof. apply contains_outside. Qed.

Lemma plain_printable c : plain_char c = true → printable c = true.
Proof. unfold plain_char. rewrite andb_true_iff. tauto. Qed.

Lemma plain_ascii v : str_all plain_char v = true → is_ascii v = true.
Proof.
  apply str_all_impl. intros c Hc%plain_printable. by apply printable_char_clean in Hc as [? _].
Qed.

Lemma contains_lower c s : lower c = c → (∀ a, lower a = c → a = c) →
  contains c (to_ascii_lowercase s) = contains c s.
Proof.
  intros Hc Hinj. induction s as [|a s IH]; [done|]. unfold to_ascii_lowercase in *. cbn [str_map].
  rewrite !contains_cons, IH. f_equal. destruct (Ascii.eqb_spec c a) as [<-|Hne].
  - rewrite Hc. apply Ascii.eqb_refl.
  - apply Ascii.eqb_neq. intros E. apply Hne. symmetry. by apply Hinj.
Qed.

Lemma starts_with_contains p c s : contains c p = true → contains c s = false →
  starts_with p s = false.
Proof.
  intros Hp Hs. apply not_true_iff_false. intros [r ->]%starts_with_iff.
  rewrite contains_app_string, Hp in Hs. done.
Qed.

Lemma contains_str_contains p c s : contains c p = true → contains c s = false →
  contains_str p s = false.
Proof.
  intros Hp Hs. apply not_true_iff_false. intros (a & b & ->)%contains_str_spec.
  rewrite !contains_app_string, Hp in Hs. by destruct (contains c a).
Qed.

Lemma no_colon_no_file v : contains ":" v = false → starts_with_file_scheme v = false.
Proof.
  intros Hv. unfold starts_with_file_scheme. apply (starts_with_contains _ ":"); [done|].
  rewrite contains_lower; [done|done|]. intros a. each_char a.
Qed.

Lemma no_sep_no_path v : contains "/" v = false → contains BACKSLASH_CHAR v = false →
  contains ":" v = false → looks_like_path v = false.
Proof.
  intros H1 H2 H3. unfold looks_like_path.
  rewrite (contains_str_contains "://" ":"), H1, H2 by done. by case_match.
Qed.

(** ** Addresses need punctuation *)

(** What a reader leaves is a suffix of what it was given. *)
Lemma read_digits_suffix radix limit s : ∀ count acc v n rest,
  read_digits radix limit count acc s = Some (v, n, rest) → ∃ p, s = p +:+ rest.
Proof.
  induction s as [|c s IH]; intros count acc v n rest; cbn [read_digits]; [intros [= <- <- <-]; by exists ""|].
  destruct (to_digit radix c); [|intros [= <- <- <-]; by exists ""].
  case_match; [done|]. intros (p & ->)%IH. by exists (String c p).
Qed.

Lemma read_number_suffix radix limit z max s v rest :
  read_number radix limit z max s = Some (v, rest) → ∃ p, s = p +:+ rest.
Proof.
  unfold read_number. destruct (read_digits _ _ _ _ _) as [[[v' n] rest']|] eqn:E; [|done].
  repeat case_match; intros [= <- <-]. by apply read_digits_suffix in E.
Qed.

Lemma suffix_lacks c p rest : contains c (p +:+ rest) = false → contains c rest = false.
Proof. rewrite contains_app_string. by intros [_ ?]%orb_false_iff. Qed.

Lemma read_given_lacks c s : contains c s = false → read_given_char c s = None.
Proof.
  destruct s as [|a s]; [done|]. rewrite contains_cons. intros [Ha _]%orb_false_iff. cbn.
  rewrite Ascii.eqb_sym in Ha. by rewrite Ha.
Qed.

Lemma read_ipv4_lacks s : contains "." s = false → read_ipv4_addr s = None.
Proof.
  intros Hs. unfold read_ipv4_addr. cbn [read_octets read_separator].
  destruct (read_octet s) as [[o rest]|] eqn:E; [|done].
  apply read_number_suffix in E as [p ->]. apply suffix_lacks in Hs.
  by rewrite (read_given_lacks "." rest).
Qed.

Lemma read_groups_lacks n : ∀ first s, contains "." s = false → contains ":" s = false →
  let '(gs, v4, rest) := read_groups n first s in
  v4 = false ∧ (length gs ≤ 1)%nat ∧ contains ":" rest = false ∧ (first = false → gs = []).
Proof.
  induction n as [|n IH]; intros first s Hd Hc; [cbn; split_and!; done || lia|]. cbn [read_groups].
  assert (read_separator ":" first read_ipv4_addr s = None) as ->.
  { unfold read_separator. destruct first; [by apply read_ipv4_lacks|]. by rewrite read_given_lacks. }
  unfold read_separator. destruct first.
  - destruct (read_number 16 4 true 65535 s) as [[g rest]|] eqn:E;
      [|destruct (Nat.ltb 0 n); cbn; split_and!; done || lia].
    apply read_number_suffix in E as [p ->]. apply suffix_lacks in Hd, Hc.
    specialize (IH false rest Hd Hc). destruct (read_groups n false rest) as [[gs v4] rest'].
    destruct IH as (-> & _ & Hr & Hgs). rewrite (Hgs eq_refl).
    destruct (Nat.ltb 0 n); cbn; split_and!; done || lia.
  - rewrite read_given_lacks by done. destruct (Nat.ltb 0 n); cbn; split_and!; done || lia.
Qed.

Lemma read_ipv6_lacks s : contains "." s = false → contains ":" s = false → read_ipv6_addr s = None.
Proof.
  intros Hd Hc. unfold read_ipv6_addr. pose proof (read_groups_lacks 8 true s Hd Hc) as Hg.
  destruct (read_groups 8 true s) as [[gs v4] rest]. destruct Hg as (-> & Hl & Hr & _).
  destruct (Nat.eqb_spec (length gs) 8); [lia|]. by rewrite read_given_lacks.
Qed.

Lemma is_ip_lacks s : contains "." s = false → contains ":" s = false → is_ip s = false.
Proof.
  intros Hd Hc. unfold is_ip, parse_ip, parse_with, read_ip_addr.
  rewrite read_ipv4_lacks, read_ipv6_lacks by done. done.
Qed.

Lemma is_ipv6_lacks s : contains "." s = false → contains ":" s = false → is_ipv6 s = false.
Proof.
  intros Hd Hc. unfold is_ipv6, parse_ipv6, parse_with. by rewrite read_ipv6_lacks.
Qed.

(** Trimming keeps a string inside what it was. *)
Lemma trim_lacks c s : contains c s = false → contains c (trim s) = false.
Proof.
  assert (∀ n t, contains c t = false → contains c (trim_start_fuel n t) = false) as Hstart.
  { induction n as [|n IH]; intros t Ht; [done|]. cbn [trim_start_fuel].
    destruct (strip_any WHITE_SPACE t) as [t'|] eqn:E; [|done]. apply IH.
    revert E. unfold strip_any. induction WHITE_SPACE as [|w ws IHw]; [done|]. cbn [foldr].
    destruct (strip_prefix w t) as [r|] eqn:Ew; [|exact IHw]. intros [= ->].
    apply strip_prefix_app in Ew as ->. by apply suffix_lacks in Ht. }
  intros Hs. unfold trim, trim_start. apply Hstart with (n := String.length s) in Hs.
  revert Hs. generalize (trim_start_fuel (String.length s) s) as t.
  induction t as [|a t IH]; [done|]. rewrite contains_cons. intros [Ha Ht]%orb_false_iff.
  cbn [trim_end]. case_match; [done|]. by rewrite contains_cons, Ha, IH.
Qed.

Lemma split_once_parts c s a b : split_once c s = Some (a, b) → s = a +:+ String c b.
Proof.
  revert a b. induction s as [|x s IH]; intros a b; [done|]. cbn [split_once].
  destruct (Ascii.eqb_spec x c) as [->|]; [intros [= <- <-]; done|].
  destruct (split_once c s) as [[h t]|]; [|done]. intros [= <- <-].
  rewrite app_cons_string. f_equal. by apply IH.
Qed.

Lemma rsplit_once_lacks c s : contains c s = false → rsplit_once c s = None.
Proof.
  induction s as [|a s IH]; [done|]. rewrite contains_cons. intros [Ha Hs]%orb_false_iff.
  cbn [rsplit_once]. rewrite IH by done. rewrite Ascii.eqb_sym in Ha. by rewrite Ha.
Qed.

Lemma no_socket v : contains "." v = false → contains ":" v = false →
  looks_like_host_or_socket v = false.
Proof.
  intros Hd Hc. apply (trim_lacks ".") in Hd. apply (trim_lacks ":") in Hc.
  unfold looks_like_host_or_socket. destruct (_ || _ || _); [done|].
  rewrite is_ip_lacks by done. destruct (strip_prefix "[" (trim v)) as [rest|] eqn:E.
  - apply strip_prefix_app in E. rewrite E in Hd, Hc. apply suffix_lacks in Hd, Hc.
    destruct (split_once "]" rest) as [[inner tail]|] eqn:Es; [|done].
    apply split_once_parts in Es as ->. rewrite contains_app_string in Hd, Hc.
    apply orb_false_iff in Hd as [Hd _], Hc as [Hc _]. by rewrite is_ipv6_lacks.
  - by rewrite rsplit_once_lacks.
Qed.

(** ** The classifier as a verdict *)

(** What one string adds: a target (with the spelling it diverges from), an
    exempted declared field, or nothing. *)
Inductive Verdict :=
  | VTarget (slot : TargetSlot) (v : string) (noncanonical : bool)
  | VOpaque (decl : nat)
  | VPayload.

Definition apply_verdict (raw : string) (v : Verdict) (out : ExtractedTargets) : ExtractedTargets :=
  match v with
  | VTarget slot t nc => push_target (if nc then push_noncanonical out raw t else out) slot t
  | VOpaque decl => push_opaque out decl
  | VPayload => out
  end.

Section verdict.
Context `{Unicode} `{FileSystem}.

(** The rules in order, without the fast path. *)
Definition leaf_verdict (attrs : KeyAttrs) (value : string) (opaque : option nat) : Verdict :=
  match normalize_fs_argument value with
  | Err _ => VTarget SPath value false
  | Ok n =>
      let path := VTarget SPath n (negb (String.eqb n value)) in
      let host := VTarget SHost (canonical_host n) false in
      let url := VTarget SUrl value false in
      if starts_with_file_scheme n || looks_like_path n then path
      else if looks_like_network_target_normalized n then if host_named attrs then host else url
      else if looks_like_host_or_socket n then host
      else if is_path_value attrs n || looks_like_path value then path
      else if network_key attrs then
        if negb (contains_str "://" value || starts_with "//" value) && dns_name_shape n
        then host else url
      else if is_secret_path_pre_normalized n then VTarget SPath n false
      else if payload_key attrs then VPayload
      else match opaque with
           | Some decl => VOpaque decl
           | None => VTarget SUnclassified n false
           end
  end.

Lemma classify_normalized_verdict attrs value n opaque out :
  normalize_fs_argument value = Ok n →
  classify_normalized_value attrs value n opaque out
  = apply_verdict value (leaf_verdict attrs value opaque) out.
Proof.
  intros Hn. unfold classify_normalized_value, leaf_verdict, push_path. rewrite Hn.
  destruct (starts_with_file_scheme n || looks_like_path n).
  { cbn. by destruct (String.eqb n value). }
  destruct (looks_like_network_target_normalized n); [by destruct (host_named attrs)|].
  destruct (looks_like_host_or_socket n) eqn:Hs; [done|].
  destruct (is_path_value attrs n || looks_like_path value).
  { cbn. by destruct (String.eqb n value). }
  destruct (network_key attrs).
  { destruct (contains_str "://" value || starts_with "//" value); [done|]. cbn [negb andb orb].
    by destruct (dns_name_shape n). }
  destruct (is_secret_path_pre_normalized n); [done|]. destruct (payload_key attrs); [done|].
  by destruct opaque.
Qed.

(** ** The fast path *)

Lemma normalize_plain v : is_plain_ascii_token v = true → normalize_fs_argument v = Ok v.
Proof.
  intros (Hne & Hv)%plain_token_inv. unfold normalize_fs_argument.
  destruct (is_empty v) eqn:He; [by destruct v|].
  assert (contains ":" v = false) as Hc by (by apply plain_lacks).
  assert (decode_nfkc v = Ok v) as ->.
  { unfold decode_nfkc, nfkc. rewrite percent_bounded_id.
    - cbn. by rewrite plain_ascii.
    - eapply printable_clean; [exact plain_printable|exact Hv].
    - by apply plain_lacks. }
  cbn [result_bind]. unfold uri_path, names_file_scheme, compacted, file_uri_to_fs_path, after_file_scheme.
  rewrite !no_colon_no_file, Hc by (by rewrite ?trim_lacks). done.
Qed.

Lemma classify_plain_verdict attrs v opaque out : is_plain_ascii_token v = true →
  classify_plain_token attrs v opaque out = apply_verdict v (leaf_verdict attrs v opaque) out.
Proof.
  intros Hp. unfold leaf_verdict. rewrite (normalize_plain v Hp). cbv zeta.
  apply plain_token_inv in Hp as [Hne Hv].
  assert (contains "/" v = false) as Hs by (by apply plain_lacks).
  assert (contains BACKSLASH_CHAR v = false) as Hb by (by apply plain_lacks).
  assert (contains ":" v = false) as Hc by (by apply plain_lacks).
  assert (contains "." v = false) as Hd by (by apply plain_lacks).
  assert (contains "%" v = false) as Hpc by (by apply plain_lacks).
  assert (contains_str "://" v = false) as Hu by (by apply (contains_str_contains _ ":")).
  assert (starts_with "//" v = false) as Hss by (by apply (starts_with_contains _ "/")).
  unfold looks_like_network_target_normalized.
  rewrite Hpc, no_colon_no_file, no_sep_no_path, no_socket, Hu, Hss, String.eqb_refl by done.
  cbn [orb andb negb]. rewrite orb_false_r. unfold classify_plain_token.
  destruct (is_path_value attrs v); [done|].
  destruct (network_key attrs); [by destruct (dns_name_shape v)|].
  destruct (is_secret_path_pre_normalized v); [done|]. destruct (payload_key attrs); [done|].
  by destruct opaque.
Qed.

Lemma classify_verdict attrs v opaque out :
  classify_target_string attrs v opaque out = apply_verdict v (leaf_verdict attrs v opaque) out.
Proof.
  unfold classify_target_string. destruct (is_plain_ascii_token v) eqn:Hp.
  - by apply classify_plain_verdict.
  - destruct (normalize_fs_argument v) as [n|] eqn:Hn.
    + by apply classify_normalized_verdict.
    + unfold leaf_verdict. by rewrite Hn.
Qed.

(** Replaying a collected leaf is classifying it. *)
Lemma classify_leaf_of attrs v opaque out :
  classify_leaf (leaf_of attrs v opaque) out = classify_target_string attrs v opaque out.
Proof.
  unfold classify_leaf, leaf_of, classify_target_string. cbn.
  destruct (is_plain_ascii_token v); [done|]. by destruct (normalize_fs_argument v).
Qed.
End verdict.

(** ** The scalars of a value, in visit order *)

Record Leaf := mkScalar {
  lf_attrs : KeyAttrs;
  lf_string : option string;
  lf_decl : option nat
}.

Fixpoint leaves (v : Json) (attrs : KeyAttrs) (opaque : option OpaqueMatcher) : list Leaf :=
  match v with
  | JObject _ ms =>
      (fix members (ms : list (string * Json)) : list Leaf :=
         match ms with
         | [] => []
         | (name, x) :: rest => leaves x (member_attrs name x) (descend opaque name) ++ members rest
         end) ms
  | JArray _ items =>
      (fix elements (items : list Json) : list Leaf :=
         match items with
         | [] => []
         | x :: rest => leaves x attrs opaque ++ elements rest
         end) items
  | _ => [mkScalar attrs (to_unquoted_string_str v) (opaque ≫= declaration)]
  end.

Definition argument_leaves (json : Json) (opaque : option OpaqueMatcher) : list Leaf :=
  match params_member json "arguments" with
  | Some args => leaves args NO_ATTRS opaque
  | None => []
  end.

Definition response_leaves (json : Json) : list Leaf :=
  match params_member json "inputResponses" with
  | Some responses => leaves responses NO_ATTRS None
  | None => []
  end.

(** Every scalar of a request, in the order of the combined walk. *)
Definition request_leaves (json : Json) (opaque : option OpaqueMatcher) : list Leaf :=
  argument_leaves json opaque ++ response_leaves json.

Section fold.
Context {St : Type} (sink : KeyAttrs → string → option nat → St → St * bool).

Definition leaf_step (ws : LeafWalk * St) (l : Leaf) : LeafWalk * St :=
  if walk_stopped ws.1 then ws
  else
    let '(w, st) := ws in
    let count := S (lw_count w) in
    if (MAX_INSPECTED_LEAVES <? count)%nat then (mkWalk count true (lw_done w), st)
    else
      match lf_string l with
      | Some s =>
          let '(st', go) := sink (lf_attrs l) s (lf_decl l) st in
          (mkWalk count (lw_truncated w) (lw_done w || negb go), st')
      | None => (mkWalk count (lw_truncated w) (lw_done w), st)
      end.

Lemma fold_stopped ls ws : walk_stopped ws.1 = true → foldl leaf_step ws ls = ws.
Proof.
  intros Hw. induction ls as [|l ls IH]; [done|]. cbn. unfold leaf_step at 2. by rewrite Hw.
Qed.

Lemma scalar_leaf_step v attrs opaque ws : walk_stopped ws.1 = false →
  scalar_leaf sink v attrs opaque ws
  = leaf_step ws (mkScalar attrs (to_unquoted_string_str v) (opaque ≫= declaration)).
Proof. intros Hw. unfold leaf_step. rewrite Hw. by destruct ws. Qed.

#[local] Arguments Nat.ltb : simpl never.

(** The loops over members and elements, for any walk of one value. *)
Lemma members_fold (walk : Json → KeyAttrs → option OpaqueMatcher → LeafWalk * St → LeafWalk * St)
    opaque ms ws :
  Forall (λ m, ∀ attrs op ws, walk m.2 attrs op ws = foldl leaf_step ws (leaves m.2 attrs op)) ms →
  (fix members (ms : list (string * Json)) (ws : LeafWalk * St) : LeafWalk * St :=
     match ms with
     | [] => ws
     | (name, v) :: rest =>
         if walk_stopped ws.1 then ws
         else members rest (walk v (member_attrs name v) (descend opaque name) ws)
     end) ms ws
  = foldl leaf_step ws
      ((fix members (ms : list (string * Json)) : list Leaf :=
          match ms with
          | [] => []
          | (name, x) :: rest => leaves x (member_attrs name x) (descend opaque name) ++ members rest
          end) ms).
Proof.
  intros Hms. revert ws. induction Hms as [|[name v] ms Hv _ IH]; intros ws; [done|].
  destruct (walk_stopped ws.1) eqn:Hw; [by rewrite fold_stopped|].
  rewrite foldl_app, IH, (Hv _ _ ws). done.
Qed.

Lemma elements_fold (walk : Json → LeafWalk * St → LeafWalk * St) attrs opaque items ws :
  Forall (λ x, ∀ ws, walk x ws = foldl leaf_step ws (leaves x attrs opaque)) items →
  (fix elements (items : list Json) (ws : LeafWalk * St) : LeafWalk * St :=
     match items with
     | [] => ws
     | v :: rest => if walk_stopped ws.1 then ws else elements rest (walk v ws)
     end) items ws
  = foldl leaf_step ws
      ((fix elements (items : list Json) : list Leaf :=
          match items with
          | [] => []
          | x :: rest => leaves x attrs opaque ++ elements rest
          end) items).
Proof.
  intros Hi. revert ws. induction Hi as [|v items Hv _ IH]; intros ws; [done|].
  destruct (walk_stopped ws.1) eqn:Hw; [by rewrite fold_stopped|]. by rewrite foldl_app, IH, Hv.
Qed.

Lemma walk_object r ms attrs opaque depth ws : (depth ≤ MAX_JSON_NESTING)%nat →
  walk_stopped ws.1 = false →
  walk_json_scalars sink (JObject r ms) attrs opaque depth ws
  = (fix members (ms : list (string * Json)) (ws : LeafWalk * St) : LeafWalk * St :=
       match ms with
       | [] => ws
       | (name, v) :: rest =>
           if walk_stopped ws.1 then ws
           else members rest
                  (walk_json_scalars sink v (member_attrs name v) (descend opaque name) (S depth) ws)
       end) ms ws.
Proof. intros Hd Hw. cbn. rewrite (proj2 (Nat.ltb_ge _ _) Hd), Hw. done. Qed.

Lemma walk_array r items attrs opaque depth ws : (depth ≤ MAX_JSON_NESTING)%nat →
  walk_stopped ws.1 = false →
  walk_json_scalars sink (JArray r items) attrs opaque depth ws
  = (fix elements (items : list Json) (ws : LeafWalk * St) : LeafWalk * St :=
       match items with
       | [] => ws
       | v :: rest => if walk_stopped ws.1 then ws
                      else elements rest (walk_json_scalars sink v attrs opaque (S depth) ws)
       end) items ws.
Proof. intros Hd Hw. cbn. rewrite (proj2 (Nat.ltb_ge _ _) Hd), Hw. done. Qed.

Lemma walk_leaves v : ∀ attrs opaque depth n ws, well_keyed v n → (depth + n ≤ MAX_JSON_NESTING)%nat →
  walk_json_scalars sink v attrs opaque depth ws = foldl leaf_step ws (leaves v attrs opaque).
Proof.
  induction v as [| | | | |r items IH|r ms IH] using Json_nested_ind;
    intros attrs opaque depth n ws Hk Hd;
    (destruct (walk_stopped ws.1) eqn:Hw;
      [rewrite fold_stopped by done; cbn; rewrite Hw, orb_true_r; done|]);
    try (cbn [walk_json_scalars]; rewrite (proj2 (Nat.ltb_ge _ _)), Hw by lia; cbn [orb];
         rewrite scalar_leaf_step by done; done).
  - rewrite walk_array by (done || lia). apply (elements_fold (λ x ws, walk_json_scalars sink x attrs opaque (S depth) ws)).
    destruct n as [|n]; [cbn in Hk; by subst|]. apply well_keyed_array in Hk.
    rewrite Forall_forall in *. intros x Hx ws'. apply (IH x Hx) with (n := n); [by apply Hk|lia].
  - rewrite walk_object by (done || lia). apply (members_fold (λ x a o ws, walk_json_scalars sink x a o (S depth) ws)).
    destruct n as [|n]; [cbn in Hk; by subst|]. apply well_keyed_object in Hk as [_ Hk].
    rewrite Forall_forall in *. intros x Hx a o ws'. apply (IH x Hx) with (n := n); [by apply Hk|lia].
Qed.
End fold.

(** ** A request that passed the nesting check is walked whole *)

Lemma well_keyed_member v name w n : well_keyed v (S n) → member v name = Some w → well_keyed w n.
Proof.
  intros Hk (raw & ms & -> & Hin)%member_inv. apply well_keyed_object in Hk as [_ Hk].
  rewrite Forall_forall in Hk. exact (Hk _ Hin).
Qed.

Lemma params_member_keyed v key w n : well_keyed v (S (S n)) → params_member v key = Some w →
  well_keyed w n.
Proof.
  unfold params_member. destruct (member v "params") as [p|] eqn:Hp; [|done]. cbn.
  intros Hk Hw. eapply well_keyed_member; [|exact Hw]. by eapply well_keyed_member.
Qed.

(** The nesting check of [check_request]. *)
Definition keyed_request (json : Json) : Prop := well_keyed json MAX_JSON_NESTING.

Lemma keyed_request_iff json :
  check_duplicate_keys_recursively json = Ok tt ↔ keyed_request json.
Proof.
  unfold check_duplicate_keys_recursively, keyed_request. rewrite check_depth_iff by lia.
  by rewrite Nat.sub_0_r.
Qed.

Section request.
Context {St : Type} (sink : KeyAttrs → string → option nat → St → St * bool).

Lemma walk_arguments_fold json opaque ws : keyed_request json →
  walk_arguments sink json opaque ws = foldl (leaf_step sink) ws (argument_leaves json opaque).
Proof.
  intros Hk. unfold walk_arguments, argument_leaves.
  destruct (params_member json "arguments") as [args|] eqn:E; [|done].
  apply (params_member_keyed _ _ _ 62) in E; [|exact Hk].
  apply (walk_leaves sink args NO_ATTRS opaque 0 62 ws E). unfold MAX_JSON_NESTING. lia.
Qed.

Lemma walk_responses_fold json ws : keyed_request json →
  walk_responses sink json ws = foldl (leaf_step sink) ws (response_leaves json).
Proof.
  intros Hk. unfold walk_responses, response_leaves.
  destruct (params_member json "inputResponses") as [resp|] eqn:E; [|done].
  apply (params_member_keyed _ _ _ 62) in E; [|exact Hk].
  apply (walk_leaves sink resp NO_ATTRS None 0 62 ws E). unfold MAX_JSON_NESTING. lia.
Qed.

Lemma walk_request_fold json opaque ws : keyed_request json →
  walk_responses sink json (walk_arguments sink json opaque ws)
  = foldl (leaf_step sink) ws (request_leaves json opaque).
Proof.
  intros Hk. unfold request_leaves. by rewrite walk_responses_fold, walk_arguments_fold, foldl_app.
Qed.
End request.

(** ** The extracted targets as a state *)

(** The set of a slot holds what its vector holds, without repetition, and the
    four vectors together stay in the budget. *)
Record targets_ok (t : ExtractedTargets) : Prop := {
  to_seen : ∀ slot v, v ∈ slot_set (et_seen t) slot ↔ v ∈ slot_targets t slot;
  to_nodup : ∀ slot, NoDup (slot_targets t slot);
  to_count : (target_count t ≤ MAX_EXTRACTED_TARGETS)%nat;
  to_nc : (length (et_noncanonical t) ≤ MAX_NONCANONICAL)%nat
}.

Lemma targets_new_ok : targets_ok targets_new.
Proof.
  split; [intros [] v; cbn; set_solver|intros []; constructor|cbn; lia|cbn; lia].
Qed.

Lemma retain_targets t slot v slot' :
  slot_targets (retain t slot v) slot'
  = if bool_decide (slot = slot') then slot_targets t slot' ++ [v] else slot_targets t slot'.
Proof. destruct t as [? ? ? ? ? ? ? []]. by destruct slot, slot'. Qed.

Lemma retain_seen t slot v slot' :
  slot_set (et_seen (retain t slot v)) slot'
  = if bool_decide (slot = slot') then {[v]} ∪ slot_set (et_seen t) slot'
    else slot_set (et_seen t) slot'.
Proof. destruct t as [? ? ? ? ? ? ? []]. by destruct slot, slot'. Qed.

Lemma retain_count t slot v : target_count (retain t slot v) = S (target_count t).
Proof.
  destruct t as [? ? ? ? ? ? ? []]. unfold target_count. destruct slot; cbn; rewrite length_app; cbn; lia.
Qed.

Lemma retain_rest t slot v :
  et_noncanonical (retain t slot v) = et_noncanonical t ∧ et_truncated (retain t slot v) = et_truncated t
  ∧ et_opaque_mask (retain t slot v) = et_opaque_mask t.
Proof. destruct t as [? ? ? ? ? ? ? []]. by destruct slot. Qed.

Lemma push_target_ok t slot v : targets_ok t → targets_ok (push_target t slot v).
Proof.
  intros [Hs Hn Hc Hnc]. unfold push_target. case_match; [done|].
  destruct (Nat.leb_spec MAX_EXTRACTED_TARGETS (target_count t)); [by split|].
  case_bool_decide as Hin; [done|]. split.
  - intros slot' x. rewrite retain_seen, retain_targets. case_bool_decide; [|apply Hs].
    rewrite elem_of_union, elem_of_singleton, elem_of_app, list_elem_of_singleton, Hs. tauto.
  - intros slot'. rewrite retain_targets. case_bool_decide as E; [|apply Hn]. subst.
    apply NoDup_app. split; [apply Hn|split; [|apply NoDup_singleton]].
    intros x Hx ->%list_elem_of_singleton. apply Hin, Hs, Hx.
  - rewrite retain_count. lia.
  - by destruct (retain_rest t slot v) as (-> & _ & _).
Qed.

Lemma push_noncanonical_fields t raw n :
  let t' := push_noncanonical t raw n in
  (∀ slot, slot_targets t' slot = slot_targets t slot) ∧ et_seen t' = et_seen t
  ∧ et_truncated t' = et_truncated t ∧ target_count t' = target_count t
  ∧ et_noncanonical t' ≠ [].
Proof.
  unfold push_noncanonical. cbv zeta. destruct (Nat.ltb_spec (length (et_noncanonical t)) MAX_NONCANONICAL).
  - split_and!; try done. cbn. by destruct (et_noncanonical t).
  - split_and!; try done. intros E. rewrite E in *. cbn in *. unfold MAX_NONCANONICAL in *. lia.
Qed.

Lemma push_noncanonical_ok t raw n : targets_ok t → targets_ok (push_noncanonical t raw n).
Proof.
  intros [Hs Hn Hc Hnc]. destruct (push_noncanonical_fields t raw n) as (Hsl & Hse & _ & Hco & _).
  split.
  - intros slot v. rewrite Hse, Hsl. apply Hs.
  - intros slot. rewrite Hsl. apply Hn.
  - by rewrite Hco.
  - unfold push_noncanonical. case_match eqn:E; [|done]. cbn. rewrite length_app. cbn.
    apply Nat.ltb_lt in E. lia.
Qed.

Lemma apply_verdict_ok raw v t : targets_ok t → targets_ok (apply_verdict raw v t).
Proof.
  intros Ht. destruct v as [slot x [|]|decl|]; cbn; auto using push_target_ok, push_noncanonical_ok.
  destruct Ht. by split.
Qed.

(** ** Effects of one leaf *)

Section effects.
Context `{Unicode} `{FileSystem}.

Definition verdict_of (l : Leaf) (s : string) : Verdict := leaf_verdict (lf_attrs l) s (lf_decl l).

Definition leaf_effect (out : ExtractedTargets) (l : Leaf) : ExtractedTargets :=
  match lf_string l with
  | Some s => apply_verdict s (verdict_of l s) out
  | None => out
  end.

Lemma push_target_truncated t slot v : et_truncated t = true → push_target t slot v = t.
Proof. intros Ht. unfold push_target. by rewrite Ht. Qed.

Lemma apply_verdict_truncated raw v t : et_truncated t = true →
  et_truncated (apply_verdict raw v t) = true.
Proof.
  intros Ht. destruct v as [slot x nc|decl|]; cbn; [|done..].
  rewrite push_target_truncated; destruct nc; try done;
    by destruct (push_noncanonical_fields t raw x) as (_ & _ & -> & _).
Qed.

Lemma leaf_effect_truncated t l : et_truncated t = true → et_truncated (leaf_effect t l) = true.
Proof. intros Ht. unfold leaf_effect. case_match; [by apply apply_verdict_truncated|done]. Qed.

Lemma fold_effect_truncated ls : ∀ t, et_truncated (foldl leaf_effect t ls) = false →
  et_truncated t = false.
Proof.
  induction ls as [|l ls IH]; intros t Ht; [done|]. cbn in Ht. apply IH in Ht.
  destruct (et_truncated t) eqn:E; [|done]. by rewrite leaf_effect_truncated in Ht.
Qed.

(** A push that does not trip the budget leaves its value in its slot. *)
Lemma push_target_in t slot v : targets_ok t → et_truncated (push_target t slot v) = false →
  v ∈ slot_targets (push_target t slot v) slot.
Proof.
  intros Ht. unfold push_target. case_match; [congruence|]. case_match; [done|].
  case_bool_decide as Hin; intros _; [by apply to_seen|].
  rewrite retain_targets, bool_decide_eq_true_2 by done. set_solver.
Qed.

Lemma push_target_keeps t slot v slot' x :
  x ∈ slot_targets t slot' → x ∈ slot_targets (push_target t slot v) slot'.
Proof.
  intros Hx. unfold push_target. repeat case_match; try (done || by destruct slot').
  rewrite retain_targets. destruct (bool_decide (slot = slot')); [|done]. apply elem_of_app. by left.
Qed.

Lemma push_target_nc t slot v : et_noncanonical (push_target t slot v) = et_noncanonical t.
Proof.
  unfold push_target. repeat case_match; try done. by destruct (retain_rest t slot v) as (-> & _ & _).
Qed.

Lemma push_noncanonical_keeps t raw n slot x :
  x ∈ slot_targets t slot → x ∈ slot_targets (push_noncanonical t raw n) slot.
Proof. destruct (push_noncanonical_fields t raw n) as (Hs & _). by rewrite Hs. Qed.

Lemma apply_verdict_keeps raw v t slot x :
  x ∈ slot_targets t slot → x ∈ slot_targets (apply_verdict raw v t) slot.
Proof.
  intros Hx. destruct v as [s y []|d|]; cbn; auto using push_target_keeps, push_noncanonical_keeps.
Qed.

Lemma apply_verdict_nc raw v t : et_noncanonical t ≠ [] → et_noncanonical (apply_verdict raw v t) ≠ [].
Proof.
  intros Ht. destruct v as [s y []|d|]; cbn; try done; rewrite push_target_nc; [|done].
  by destruct (push_noncanonical_fields t raw y) as (_ & _ & _ & _ & ?).
Qed.

(** Every leaf is accounted for in an extraction that is not truncated. *)
Lemma fold_effect_complete ls : ∀ t, targets_ok t → et_truncated (foldl leaf_effect t ls) = false →
  let out := foldl leaf_effect t ls in
  targets_ok out
  ∧ (∀ slot x, x ∈ slot_targets t slot → x ∈ slot_targets out slot)
  ∧ (et_noncanonical t ≠ [] → et_noncanonical out ≠ [])
  ∧ (∀ l s slot x nc, l ∈ ls → lf_string l = Some s → verdict_of l s = VTarget slot x nc →
       x ∈ slot_targets out slot ∧ (nc = true → et_noncanonical out ≠ [])).
Proof.
  induction ls as [|l ls IH]; intros t Ht Hout; cbn [foldl] in *.
  { split_and!; try done. set_solver. }
  assert (targets_ok (leaf_effect t l)) as Ht'.
  { unfold leaf_effect. case_match; [by apply apply_verdict_ok|done]. }
  pose proof (fold_effect_truncated _ _ Hout) as Htr.
  destruct (IH _ Ht' Hout) as (Hok & Hkeep & Hnc & Hall). split_and!; [done| | |].
  - intros slot x Hx. apply Hkeep. unfold leaf_effect. case_match; [by apply apply_verdict_keeps|done].
  - intros Hn. apply Hnc. unfold leaf_effect. case_match; [by apply apply_verdict_nc|done].
  - intros l' s slot x nc [->|Hl]%elem_of_cons Hs Hv; [|by eapply Hall].
    assert (leaf_effect t l = apply_verdict s (VTarget slot x nc) t) as El.
    { unfold leaf_effect. by rewrite Hs, Hv. }
    rewrite El in *. cbn [apply_verdict] in *. split.
    + apply Hkeep. apply push_target_in; [|done]. destruct nc; [by apply push_noncanonical_ok|done].
    + intros ->. apply Hnc. rewrite push_target_nc.
      by destruct (push_noncanonical_fields t s x) as (_ & _ & _ & _ & ?).
Qed.

(** Nothing but a leaf adds a target. *)
Lemma push_target_inv t slot v slot' x : x ∈ slot_targets (push_target t slot v) slot' →
  x ∈ slot_targets t slot' ∨ (slot' = slot ∧ x = v).
Proof.
  unfold push_target. repeat case_match; try (by left || by destruct slot'; left).
  rewrite retain_targets. destruct (decide (slot = slot')) as [<-|Hne].
  - rewrite bool_decide_eq_true_2 by done. rewrite elem_of_app, list_elem_of_singleton. naive_solver.
  - rewrite bool_decide_eq_false_2 by done. by left.
Qed.

Lemma fold_effect_sound ls slot x : ∀ t, x ∈ slot_targets (foldl leaf_effect t ls) slot →
  x ∈ slot_targets t slot
  ∨ ∃ l s nc, l ∈ ls ∧ lf_string l = Some s ∧ verdict_of l s = VTarget slot x nc.
Proof.
  induction ls as [|l ls IH]; intros t Hx; [by left|]. cbn in Hx.
  apply IH in Hx as [Hx|(l' & s & nc & Hl & ?)]; [|right; exists l', s, nc; set_solver].
  unfold leaf_effect in Hx. destruct (lf_string l) as [s|] eqn:Hs; [|by left].
  destruct (verdict_of l s) as [sl y nc|d|] eqn:Hv; cbn in Hx; [|by left; destruct slot|by left].
  apply push_target_inv in Hx as [Hx|[-> ->]].
  - left. destruct nc; [|done]. by destruct (push_noncanonical_fields t s y) as (Hsl & _); rewrite Hsl in Hx.
  - right. exists l, s, nc. set_solver.
Qed.

(** ** The walk of a request *)

(** The fold with the sink, when neither budget trips, is the plain fold. *)
Lemma classify_fold ls : ∀ w out w' out', walk_stopped w = false → et_truncated out = false →
  foldl (leaf_step classify_sink) (w, out) ls = (w', out') →
  lw_truncated w' = false → et_truncated out' = false →
  out' = foldl leaf_effect out ls ∧ lw_count w' = (lw_count w + length ls)%nat
  ∧ (lw_count w ≤ MAX_INSPECTED_LEAVES → lw_count w' ≤ MAX_INSPECTED_LEAVES)%nat.
Proof.
  induction ls as [|l ls IH]; intros w out w' out' Hw Ho; cbn [foldl].
  { intros [= <- <-] _ _. split_and!; [done|cbn; lia|done]. }
  unfold leaf_step at 2. cbn [fst]. rewrite Hw. unfold walk_stopped in Hw.
  apply orb_false_iff in Hw as [Hwt Hwd].
  destruct (Nat.ltb_spec MAX_INSPECTED_LEAVES (S (lw_count w))) as [Hc|Hc].
  { rewrite fold_stopped by done. intros [= <- <-] Hx _. done. }
  unfold leaf_effect at 2. destruct (lf_string l) as [s|] eqn:Hs.
  - unfold classify_sink. rewrite Ho, classify_verdict. fold (verdict_of l s).
    set (out1 := apply_verdict s (verdict_of l s) out). rewrite Hwt, Hwd, negb_involutive. cbn [orb].
    destruct (et_truncated out1) eqn:Ho1.
    { rewrite fold_stopped by done. intros [= <- <-] _ Hx. congruence. }
    intros E Ht1 Ht2. apply IH in E as (-> & Hcount & Hle); [|done..]. cbn in *.
    split_and!; [done|lia|intros _; apply Hle; lia].
  - rewrite Hwt, Hwd. intros E Ht1 Ht2. apply IH in E as (-> & Hcount & Hle); [|done..]. cbn in *.
    split_and!; [done|lia|intros _; apply Hle; lia].
Qed.

Lemma set_truncated_same t : set_truncated t (et_truncated t) = t.
Proof. by destruct t. Qed.

(** An extraction that is not truncated is the fold of every leaf. *)
Lemma collect_complete json opaque : keyed_request json →
  et_truncated (collect_argument_targets json opaque) = false →
  collect_argument_targets json opaque = foldl leaf_effect targets_new (request_leaves json opaque)
  ∧ (length (request_leaves json opaque) ≤ MAX_INSPECTED_LEAVES)%nat.
Proof.
  intros Hk. unfold collect_argument_targets. rewrite walk_request_fold by done.
  destruct (foldl _ (walk_new, targets_new) _) as [w out] eqn:E. unfold finish. cbn [fst snd].
  intros [Ho Hw]%orb_false_iff. rewrite Ho, Hw.
  apply classify_fold in E as (Eo & Hc & Hle); [|done..]. split.
  - rewrite <- Eo. cbn [orb]. by rewrite <- Ho, set_truncated_same.
  - change (lw_count walk_new) with 0%nat in *. lia.
Qed.
End effects.
