(* ===== verification/CheckTheorems.v ===== *)
(** * CheckTheorems: what an admitted call is allowed to name

    The contract of a tool as predicates on its targets, and that a call which
    passes the sub-policy names, in every string of its arguments, only what
    the contract grants. *)

From S2P Require Import Prelude Text Percent IpAddr Json Structure PolicyHost PolicyCidr Outbound.
From S2P Require Import Session Deputy PathText PathResolve Targets SubPolicy.
From S2P Require Import TargetsTheorems.

Open Scope result_scope.

(** ** Reading the checks *)

Lemma refuse_if_ok b reason u : refuse_if b reason = Ok u → b = false.
Proof. by destruct b. Qed.

Lemma all_ok_Forall {A E} (f : A → result unit E) l u : all_ok f l = Ok u →
  Forall (λ x, f x = Ok ()) l.
Proof.
  revert u. induction l as [|x l IH]; intros u; [constructor|]. cbn.
  intros ([] & Hx & Hl)%result_bind_ok. constructor; [done|by eapply IH].
Qed.

Lemma existsb_false {A} (f : A → bool) l : existsb f l = false ↔ ∀ x, x ∈ l → f x = false.
Proof.
  rewrite <- not_true_iff_false, List.existsb_exists. setoid_rewrite <- list_elem_of_In.
  split; [|by intros H (x & Hx & Hf); rewrite (H x Hx) in Hf].
  intros H x Hx. apply not_true_iff_false. eauto.
Qed.

Lemma find_none {A} (f : A → bool) l : List.find f l = None → ∀ x, x ∈ l → f x = false.
Proof. intros Hn x Hx%list_elem_of_In. by apply (List.find_none f l). Qed.

Section contract.
Context `{Unicode} `{FileSystem} (tool : ToolPolicy) (policy : Policy).

(** ** The contract *)

(** The object a path names lies outside every denied pattern and, when the
    tool lists what it allows, inside an allowed one. *)
Definition path_granted (fs : FsToolPolicy) (path : string) : Prop :=
  ∃ patterns resolved,
    resolve_fs_patterns fs = Ok patterns ∧ resolve_argument path = Ok resolved
    ∧ (∀ d, d ∈ rp_denied patterns → path_matches_lexical resolved d = false)
    ∧ (fs_allow_specified fs = true ∨ fs_allowed_paths fs ≠ [] →
       ∃ a, a ∈ rp_allowed patterns ∧ path_matches_lexical resolved a = true).

Definition host_undenied (hosts cidrs : list string) (host : string) : Prop :=
  (∀ d, d ∈ hosts → host_match host d = false)
  ∧ (∀ ip c, literal_ip host = Some ip → c ∈ cidrs → cidr_contains c ip = false).

(** The rule speaks of the destination and the transport of the target. *)
Definition rule_names (t : NetTarget) (r : EgressRule) : Prop :=
  egress_dest_matches (eg_dest r) t = true ∧ proto_covers (eg_proto r) (nt_proto t) = true.

(** A rule grants the target, its port included, and none denies it; a port
    the target does not state may be the denied one and is not the allowed
    one. *)
Definition rules_grant (rules : list EgressRule) (t : NetTarget) : Prop :=
  (∀ r, r ∈ rules → eg_allow r = false → rule_names t r →
     ∃ p q, eg_port r = Some p ∧ nt_port t = Some q ∧ p ≠ q)
  ∧ ∃ r, r ∈ rules ∧ eg_allow r = true ∧ rule_names t r ∧ ∀ p, eg_port r = Some p → nt_port t = Some p.

Definition tool_grants (net : ToolNetworkPolicy) (t : NetTarget) : Prop :=
  host_undenied (t_denied_hosts net) (t_denied_cidrs net) (nt_host t)
  ∧ (t_egress_rules net ≠ [] → rules_grant (t_egress_rules net) t)
  ∧ (t_egress_rules net = [] →
     t_allow_specified net = true ∨ t_allowed_hosts net ≠ [] ∨ t_allowed_cidrs net ≠ [] →
     host_listed (t_allowed_hosts net) (t_allowed_cidrs net) (nt_host t) = true).

Definition target_granted (t : NetTarget) : Prop :=
  let o := pol_outbound policy in
  host_undenied (denied_hosts o) (denied_cidrs o) (nt_host t)
  ∧ (deny_all_others o = true → host_listed (allowed o) (allowed_cidrs o) (nt_host t) = true)
  ∧ (∀ net, tp_network tool = Some net → tool_grants net t).

(** What a classified string may be in an admitted call. *)
Definition leaf_granted (v : Verdict) : Prop :=
  match v with
  | VTarget SPath p nc =>
      (∀ fs, tp_fs tool = Some fs → fs_restricts fs = true → path_granted fs p ∧ nc = false)
      ∧ (pol_secret_overlay policy = true → overlay_denies p = Ok ())
  | VTarget SHost h _ => is_read_only tool = false ∧ target_granted (host_target h)
  | VTarget SUrl u _ =>
      is_read_only tool = false
      ∧ (pol_secret_overlay policy = true → secret_overlay_applies_to_url u = true →
         overlay_denies u = Ok ())
      ∧ match url_target u with
        | Some t => target_granted t
        | None => tp_network tool = None ∧ outbound_restricts (pol_outbound policy) = false
        end
  | VTarget SUnclassified s _ => selector_plausible s = false
  | VOpaque _ | VPayload => True
  end.

(** ** Each check establishes its clause *)

Lemma nonempty_false {A} (l : list A) : nonempty l = false → l = [].
Proof. by destruct l. Qed.

Lemma nonempty_true {A} (l : list A) : l ≠ [] → nonempty l = true.
Proof. by destruct l. Qed.

Lemma nonempty_in {A} (l : list A) x : nonempty l = false → x ∉ l.
Proof. intros ->%nonempty_false. apply not_elem_of_nil. Qed.

Lemma deny_lists_ok hosts cidrs by_host by_cidr host u :
  deny_lists hosts cidrs by_host by_cidr host = Ok u → host_undenied hosts cidrs host.
Proof.
  unfold deny_lists. intros ([] & Hh%refuse_if_ok & Hc)%result_bind_ok. split.
  - by apply existsb_false.
  - intros ip c Hip Hin. rewrite Hip in Hc. apply all_ok_Forall in Hc.
    rewrite Forall_forall in Hc. by apply (refuse_if_ok _ (by_cidr c) ()), Hc.
Qed.

Lemma global_check_ok t u : global_check (pol_outbound policy) t = Ok u →
  let o := pol_outbound policy in
  host_undenied (denied_hosts o) (denied_cidrs o) (nt_host t)
  ∧ (deny_all_others o = true → host_listed (allowed o) (allowed_cidrs o) (nt_host t) = true).
Proof.
  unfold global_check. intros ([] & Hd%deny_lists_ok & Ha%refuse_if_ok)%result_bind_ok.
  split; [done|]. intros Hall. rewrite Hall in Ha. by apply negb_false_iff in Ha.
Qed.

Lemma qualified_check_ok rules t u : qualified_check rules t = Ok u → rules_grant rules t.
Proof.
  unfold qualified_check. intros ([] & Hd%refuse_if_ok & Ha%refuse_if_ok)%result_bind_ok. split.
  - intros r Hr Hneg [Hn1 Hn2]. rewrite existsb_false in Hd.
    assert (rule_denies t r = false) as Hf.
    { apply Hd, list_elem_of_In, List.filter_In. split; [by apply list_elem_of_In|by rewrite Hneg]. }
    unfold rule_denies in Hf. rewrite Hn1, Hn2 in Hf. cbn [andb] in Hf.
    apply orb_false_iff in Hf as [[H1%bool_decide_eq_false H2%bool_decide_eq_false]%orb_false_iff
      H3%bool_decide_eq_false].
    destruct (eg_port r) as [p|]; [|done]. destruct (nt_port t) as [q|]; [|done].
    exists p, q. split_and!; congruence.
  - apply negb_false_iff, List.existsb_exists in Ha as (r & [Hr Hal]%List.filter_In & Hm).
    unfold rule_allows in Hm. apply andb_true_iff in Hm as [[Hm1 Hm2]%andb_true_iff Hm3].
    exists r. split_and!; [by apply list_elem_of_In|done|done|]. intros p Hp. rewrite Hp in Hm3.
    by apply bool_decide_eq_true in Hm3.
Qed.

Lemma tool_check_ok net t u : tool_check net t = Ok u → tool_grants net t.
Proof.
  unfold tool_check. intros ([] & Hd%deny_lists_ok & Ha)%result_bind_ok. split; [done|].
  destruct (nonempty (t_egress_rules net)) eqn:Hq.
  - split; [|intros Hn; by rewrite Hn in Hq]. intros Hne. apply qualified_check_ok in Ha.
    unfold egress_rule_set in Ha. by rewrite bool_decide_eq_true_2 in Ha.
  - apply nonempty_false in Hq. split; [done|]. intros _ Hs. apply refuse_if_ok in Ha.
    destruct (host_listed _ _ _); [done|]. rewrite andb_true_r in Ha.
    apply orb_false_iff in Ha as [[Ha1 Ha2]%orb_false_iff Ha3].
    apply nonempty_false in Ha2, Ha3. destruct Hs as [Hs|[Hs|Hs]]; congruence.
Qed.

Lemma authorize_path_ok fs patterns path u : resolve_fs_patterns fs = Ok patterns →
  authorize_one_path_prepared fs patterns path = Ok u → path_granted fs path.
Proof.
  intros Hp. unfold authorize_one_path_prepared.
  intros (resolved & Hr & ([] & Hd%refuse_if_ok & Ha%refuse_if_ok)%result_bind_ok)%result_bind_ok.
  exists patterns, resolved. split_and!; [done|done|by apply existsb_false|].
  intros Hs. destruct (existsb _ (rp_allowed patterns)) eqn:E.
  - apply List.existsb_exists in E as (a & Hin%list_elem_of_In & Hm). eauto.
  - rewrite andb_true_r in Ha. apply orb_false_iff in Ha as [Ha1 Ha2]. apply nonempty_false in Ha2.
    destruct Hs; congruence.
Qed.

Lemma check_fs_ok extracted u fs p : check_fs tool extracted = Ok u →
  tp_fs tool = Some fs → fs_restricts fs = true → p ∈ et_paths extracted → path_granted fs p.
Proof.
  intros Hc Hfs Hr Hp. unfold check_fs, fs_restricted in Hc. rewrite Hfs in Hc. cbn in Hc.
  rewrite Hr in Hc. apply result_bind_ok in Hc as ([] & _ & Hc).
  rewrite nonempty_true in Hc by (intros E; rewrite E in Hp; by apply elem_of_nil in Hp).
  apply result_bind_ok in Hc as (patterns & Hpat & Hc).
  apply all_ok_Forall in Hc. rewrite Forall_forall in Hc. by eapply authorize_path_ok; [|apply Hc].
Qed.

Lemma overlay_ok extracted u : apply_secret_overlay extracted = Ok u →
  (∀ p, p ∈ et_paths extracted → overlay_denies p = Ok ())
  ∧ (∀ url, url ∈ et_urls extracted → secret_overlay_applies_to_url url = true →
       overlay_denies url = Ok ()).
Proof.
  unfold apply_secret_overlay. intros ([] & Hp & Hu)%result_bind_ok.
  apply all_ok_Forall in Hp, Hu. rewrite Forall_forall in Hp, Hu. split; [done|].
  intros url Hin Happ. specialize (Hu url Hin). by rewrite Happ in Hu.
Qed.

Lemma url_targets_ok restricted urls ts url : url_targets restricted urls = Ok ts → url ∈ urls →
  match url_target url with
  | Some t => t ∈ ts
  | None => restricted = false
  end.
Proof.
  revert ts. induction urls as [|x urls IH]; intros ts Ht; [set_solver|]. cbn in Ht.
  intros [->|Hin]%elem_of_cons.
  - destruct (url_target x) as [t|]; [|by destruct restricted].
    apply result_bind_ok in Ht as (ts' & _ & [= <-]). set_solver.
  - destruct (url_target x) as [t|]; [|destruct restricted; [done|by apply IH]].
    apply result_bind_ok in Ht as (ts' & Ht & [= <-]). specialize (IH ts' Ht Hin).
    destruct (url_target url); [set_solver|done].
Qed.

Lemma tool_network_ok targets u t net : check_tool_network tool targets = Ok u → t ∈ targets →
  tp_network tool = Some net → tool_grants net t.
Proof.
  intros Hc Ht Hn. unfold check_tool_network in Hc. rewrite Hn in Hc.
  apply result_bind_ok in Hc as ([] & _ & Hc). apply all_ok_Forall in Hc.
  rewrite Forall_forall in Hc. by eapply tool_check_ok, Hc.
Qed.

Lemma check_extraction_ok extracted u : check_extraction tool policy extracted = Ok u →
  (is_read_only tool = true → et_hosts extracted = [] ∧ et_urls extracted = [])
  ∧ (restricted tool policy = true → et_truncated extracted = false
     ∧ ∀ v, v ∈ et_unclassified extracted → selector_plausible v = false).
Proof.
  unfold check_extraction.
  intros ([] & Hr%refuse_if_ok & ([] & Ht%refuse_if_ok & Hu)%result_bind_ok)%result_bind_ok. split.
  - intros Hro. rewrite Hro in Hr. cbn in Hr. apply orb_false_iff in Hr as [? ?].
    split; by apply nonempty_false.
  - intros Hres. rewrite Hres in Ht, Hu. split; [done|].
    destruct (List.find selector_plausible (et_unclassified extracted)) eqn:E; [done|].
    by apply find_none.
Qed.

(** ** The whole check *)

(** The extraction a passing call was checked on. *)
Definition call_targets (json : Json) : ExtractedTargets :=
  collect_argument_targets json (matcher_build (tp_opaque_fields tool)).

Definition call_leaves (json : Json) : list Leaf :=
  request_leaves json (matcher_build (tp_opaque_fields tool)).

Lemma passing_targets json o : check_tool_sub_policy json tool policy = Ok o →
  (∀ p, p ∈ et_paths (call_targets json) →
     (∀ fs, tp_fs tool = Some fs → fs_restricts fs = true → path_granted fs p)
     ∧ (pol_secret_overlay policy = true → overlay_denies p = Ok ()))
  ∧ (fs_restricted tool = true → et_noncanonical (call_targets json) = [])
  ∧ (∀ h, h ∈ et_hosts (call_targets json) → is_read_only tool = false ∧ target_granted (host_target h))
  ∧ (∀ u, u ∈ et_urls (call_targets json) → leaf_granted (VTarget SUrl u false))
  ∧ (restricted tool policy = true → et_truncated (call_targets json) = false
     ∧ ∀ v, v ∈ et_unclassified (call_targets json) → selector_plausible v = false).
Proof.
  unfold check_tool_sub_policy. cbv zeta. fold (call_targets json).
  intros (u1 & He%check_extraction_ok & (u2 & Hfs & (u3 & Hov & (u4 & Hca & (targets & Htg
    & (u5 & Hgl & (u6 & Htn & _)%result_bind_ok)%result_bind_ok)%result_bind_ok)%result_bind_ok)%result_bind_ok)%result_bind_ok)%result_bind_ok.
  destruct He as [Hro Hres].
  unfold net_targets in Htg. apply result_bind_ok in Htg as (ts & Hts & Htg).
  assert (targets = (host_target <$> et_hosts (call_targets json)) ++ ts) as -> by congruence.
  apply all_ok_Forall in Hgl. rewrite Forall_forall in Hgl.
  assert (∀ t, t ∈ (host_target <$> et_hosts (call_targets json)) ++ ts → target_granted t) as Hgrant.
  { intros t Hin. destruct (global_check_ok t () (Hgl t Hin)) as [H1 H2].
    split_and!; [done|done|]. intros net Hnet. by eapply tool_network_ok. }
  split_and!.
  - intros p Hp. split; [intros fs ? ?; by eapply check_fs_ok|].
    intros Hso. rewrite Hso in Hov. exact (proj1 (overlay_ok _ _ Hov) p Hp).
  - intros Hr. unfold check_canonical in Hca. rewrite Hr in Hca.
    by destruct (et_noncanonical (call_targets json)).
  - intros h Hh. split.
    + apply not_true_iff_false. intros Ht. apply Hro in Ht as [E _]. by rewrite E in Hh; apply elem_of_nil in Hh.
    + apply Hgrant, elem_of_app. left. apply list_elem_of_fmap. eauto.
  - intros u Hu. cbn. split_and!.
    + apply not_true_iff_false. intros Ht. apply Hro in Ht as [_ E]. by rewrite E in Hu; apply elem_of_nil in Hu.
    + intros Hso. rewrite Hso in Hov. exact (proj2 (overlay_ok _ _ Hov) u Hu).
    + pose proof (url_targets_ok _ _ _ u Hts Hu) as Hx. destruct (url_target u) as [t|].
      * apply Hgrant. set_solver.
      * apply orb_false_iff in Hx as [Hx1 Hx2]. split; [|done].
        by apply bool_decide_eq_false, eq_None_not_Some in Hx1.
  - done.
Qed.

(** Every string of the arguments of a passing, restricted call is granted. *)
Lemma passing_leaves json o l s : keyed_request json → restricted tool policy = true →
  check_tool_sub_policy json tool policy = Ok o → l ∈ call_leaves json → lf_string l = Some s →
  leaf_granted (verdict_of l s).
Proof.
  intros Hk Hr Hc Hl Hs. destruct (passing_targets json o Hc) as (Hp & Hnc & Hh & Hu & Hres).
  destruct (Hres Hr) as [Htr Hun]. destruct (collect_complete _ _ Hk Htr) as [Eq _].
  fold (call_targets json) (call_leaves json) in Eq.
  destruct (fold_effect_complete (call_leaves json) targets_new targets_new_ok) as (_ & _ & _ & Hall).
  { by rewrite <- Eq. }
  rewrite <- Eq in Hall. destruct (verdict_of l s) as [slot x nc|d|] eqn:Hv; [|done..].
  destruct (Hall l s slot x nc Hl Hs Hv) as [Hin Hnc']. destruct slot; cbn [slot_targets] in Hin.
  - destruct (Hp x Hin) as [Hg Ho]. split; [|done]. intros fs Hfs Hfr. split; [by apply Hg|].
    destruct nc; [|done]. exfalso. apply Hnc'; [done|]. apply Hnc. unfold fs_restricted. by rewrite Hfs.
  - exact (Hu x Hin).
  - exact (Hh x Hin).
  - exact (Hun x Hin).
Qed.
End contract.
