(* ===== verification/RequestTheorems.v ===== *)
(** * RequestTheorems: the verdict on a call

    The properties of the argument checker: what an admitted call may name,
    what a refusal tells the client, what a use-role call is checked on and
    what the trajectory check sees. *)

From S2P Require Import Prelude Text Percent Json Structure PolicyHost Deputy PathText.
From S2P Require Import PathResolve Targets TargetsTheorems CheckTheorems IpAddr Outbound.
From S2P Require Import Session SubPolicy SchemaEval CheckRequest PathTheorems.

Open Scope result_scope.

Section use.
Context `{Unicode} `{FileSystem}.

(** ** Replay *)

Lemma replay_snoc ls leaf : ∀ out,
  replay (ls ++ [leaf]) out
  = let out' := replay ls out in if et_truncated out' then out' else classify_leaf leaf out'.
Proof.
  induction ls as [|l ls IH]; intros out; cbn.
  - by destruct (et_truncated out).
  - destruct (et_truncated out) eqn:E; [by rewrite E|]. apply IH.
Qed.

(** The collecting sink does what the classifying one does, and its leaves
    replay to its targets. *)
Lemma collect_fold ls : ∀ w out c, replay c targets_new = out →
  let '(w1, out1) := foldl (leaf_step classify_sink) (w, out) ls in
  let '(w2, (out2, c2)) := foldl (leaf_step collect_sink) (w, (out, c)) ls in
  w2 = w1 ∧ out2 = out1 ∧ replay c2 targets_new = out2.
Proof.
  induction ls as [|l ls IH]; intros w out c Hc; cbn [foldl]; [done|].
  unfold leaf_step at 2 4. cbn [fst].
  destruct (walk_stopped w); [by apply IH|].
  destruct (MAX_INSPECTED_LEAVES <? S (lw_count w))%nat; [by apply IH|].
  destruct (lf_string l) as [s|]; [|by apply IH].
  assert (classify_sink (lf_attrs l) s (lf_decl l) out
          = if et_truncated out then (out, false)
            else let out' := classify_leaf (leaf_of (lf_attrs l) s (lf_decl l)) out in
                 (out', negb (et_truncated out'))) as ->.
  { unfold classify_sink. by rewrite classify_leaf_of. }
  cbn [collect_sink]. destruct (et_truncated out) eqn:Ho; [by apply IH|].
  apply IH. rewrite replay_snoc. cbv zeta. by rewrite Hc, Ho.
Qed.

Lemma combined_replay json opaque : keyed_request json →
  let '(targets, collected) := walk_combined_classified json opaque in
  targets = collect_argument_targets json opaque ∧ collected_classify collected = targets.
Proof.
  intros Hk. unfold walk_combined_classified, collect_argument_targets, collected_classify.
  rewrite !walk_request_fold by done.
  pose proof (collect_fold (request_leaves json opaque) walk_new targets_new [] eq_refl) as Hf.
  destruct (foldl (leaf_step classify_sink) _ _) as [w1 out1].
  destruct (foldl (leaf_step collect_sink) _ _) as [w2 [out2 c2]]. destruct Hf as (-> & -> & Hr).
  cbn. rewrite Hr. unfold finish. cbn. destruct (lw_truncated w1).
  - by rewrite orb_true_r.
  - by rewrite orb_false_r, set_truncated_same.
Qed.

(** Whatever was shared, the consumer sees the targets of a fresh walk. *)
Definition shared_ok (json : Json) (opaque : option OpaqueMatcher) (shared : option CollectedLeaves) : Prop :=
  ∀ c, shared = Some c → collected_classify c = collect_argument_targets json opaque.

Lemma combined_classify_fresh json opaque shared : keyed_request json →
  shared_ok json opaque shared →
  (combined_classify json shared opaque).1 = collect_argument_targets json opaque
  ∧ shared_ok json opaque (combined_classify json shared opaque).2.
Proof.
  intros Hk Hs. unfold combined_classify. destruct shared as [c|].
  - cbn. split; [by apply Hs|done].
  - pose proof (combined_replay json opaque Hk) as Hr.
    destruct (walk_combined_classified json opaque) as [t c]. destruct Hr as [-> Hr]. cbn.
    split; [done|]. intros c' [= <-]. done.
Qed.

(** ** The rules *)

(** The spelling of a value among the targets: as it is when it does not
    normalise, as its normal form when it does. *)
Definition target_of (value : string) : string :=
  match normalize_fs_argument value with Ok n => n | Err _ => value end.

Lemma pointer_values_spec values : ∀ out nc,
  (pointer_values values out nc).1 = out ++ (target_of <$> values)
  ∧ ((pointer_values values out nc).2 = [] → nc = [] ∧ ∀ v, v ∈ values → target_of v = v).
Proof.
  induction values as [|v values IH]; intros out nc; cbn [pointer_values].
  - cbn. split; [by rewrite app_nil_r|]. intros ->. split; [done|]. set_solver.
  - assert (target_of v = match normalize_fs_argument v with Ok n => n | Err _ => v end) as Ev by done.
    destruct (normalize_fs_argument v) as [n|].
    + destruct (IH (out ++ [n]) (if String.eqb n v then nc else nc ++ [mkNoncanonical v n])) as [H1 H2].
      split; [rewrite H1; cbn; by rewrite Ev, <- app_assoc|].
      intros [Hnil Hv]%H2. destruct (String.eqb_spec n v) as [->|]; [|by destruct nc].
      split; [done|]. intros x [->|Hx]%elem_of_cons; [by rewrite Ev|by apply Hv].
    + destruct (IH (out ++ [v]) nc) as [H1 H2].
      split; [rewrite H1; cbn; by rewrite Ev, <- app_assoc|].
      intros [Hnil Hv]%H2. split; [done|]. intros x [->|Hx]%elem_of_cons; [by rewrite Ev|by apply Hv].
Qed.

(** What the state holds after some rules: nothing missing, nothing too many. *)
Record use_ok (json : Json) (opaque : option OpaqueMatcher) (rules : list DeputyRule) (st : UseState)
    : Prop := {
  uo_bound : (length (use_out st) ≤ MAX_EXTRACTED_TARGETS)%nat;
  uo_shared : shared_ok json opaque (use_combined st);
  uo_pointer : ∀ p v, RPointer p ∈ rules → v ∈ po_values (resolve p json) → target_of v ∈ use_out st
                 ∧ (use_noncanonical st = [] → target_of v = v);
  uo_shape : RShape FsTargets ∈ rules → use_covered st = true;
  uo_covered : use_covered st = true →
     et_truncated (collect_argument_targets json opaque) = false
     ∧ (∀ p, p ∈ et_paths (collect_argument_targets json opaque) → p ∈ use_out st)
     ∧ (use_noncanonical st = [] → et_noncanonical (collect_argument_targets json opaque) = [])
}.

Lemma use_rule_ok json opaque done_rules st rule st' : keyed_request json →
  use_ok json opaque done_rules st → use_rule json opaque st rule = Ok st' →
  use_ok json opaque (done_rules ++ [rule]) st'.
Proof.
  intros Hk [Hb Hsh Hp Hs Hc]. unfold use_rule. intros (st1 & Hr & Hbound)%result_bind_ok.
  destruct (Nat.ltb_spec MAX_EXTRACTED_TARGETS (length (use_out st1))) as [|Hle]; [done|].
  assert (st' = st1) as -> by congruence. clear Hbound. destruct rule as [p|[]].
  - destruct (po_truncated (resolve p json)); [done|].
    destruct (pointer_values_spec (po_values (resolve p json)) (use_out st) (use_noncanonical st)) as [E1 E2].
    destruct (pointer_values _ _ _) as [out nc]. cbn in E1, E2. injection Hr as <-. subst out.
    split; cbn in *; [done|done| | |].
    + intros q v [Hq|Hq%list_elem_of_singleton]%elem_of_app Hv.
      * destruct (Hp q v Hq Hv) as [Hin Hnc]. split; [set_solver|]. intros [Hnil _]%E2. auto.
      * injection Hq as ->. split; [apply elem_of_app; right; apply list_elem_of_fmap; eauto|].
        intros [_ Hall]%E2. by apply Hall.
    + intros [Hin|Hin%list_elem_of_singleton]%elem_of_app; [by apply Hs|done].
    + intros Hcov. destruct (Hc Hcov) as (? & Hin & Hn). split_and!; [done|set_solver|].
      intros [Hnil _]%E2. auto.
  - destruct (combined_classify_fresh json opaque (use_combined st) Hk Hsh) as [E1 E2].
    destruct (combined_classify json (use_combined st) opaque) as [targets combined]. cbn in E1, E2.
    subst targets. destruct (et_truncated (collect_argument_targets json opaque)) eqn:Ht; [done|].
    injection Hr as <-. split; cbn in *; [done|done| |done|].
    + intros q v [Hq|Hq%list_elem_of_singleton]%elem_of_app Hv; [|done].
      destruct (Hp q v Hq Hv) as [Hin Hnc]. split; [set_solver|].
      intros [Hnil _]%app_eq_nil. auto.
    + intros _. split_and!; [done|set_solver|]. by intros [_ ?]%app_eq_nil.
  - injection Hr as <-. split; [done|done| | |done].
    + intros q v [Hq|Hq%list_elem_of_singleton]%elem_of_app Hv; [exact (Hp q v Hq Hv)|done].
    + intros [Hin|Hin%list_elem_of_singleton]%elem_of_app; [by apply Hs|done].
Qed.

Lemma use_rules_ok json opaque rules : ∀ done_rules st st', keyed_request json →
  use_ok json opaque done_rules st → use_rules json opaque st rules = Ok st' →
  use_ok json opaque (done_rules ++ rules) st'.
Proof.
  induction rules as [|rule rules IH]; intros done_rules st st' Hk Hst; cbn [use_rules].
  - intros [= <-]. by rewrite app_nil_r.
  - intros (st1 & H1 & H2)%result_bind_ok. rewrite cons_middle, app_assoc.
    eapply IH; [done| |exact H2]. by eapply use_rule_ok.
Qed.

Lemma use_init_ok json opaque : use_ok json opaque [] (mkUse [] [] false None).
Proof. split; cbn; [unfold MAX_EXTRACTED_TARGETS; lia|done|set_solver|set_solver|done]. Qed.

(** ** The retry channel *)

(** Its leaves, walked on their own. *)
Lemma input_responses_complete json : keyed_request json →
  et_truncated (input_response_targets json) = false →
  input_response_targets json = foldl leaf_effect targets_new (response_leaves json).
Proof.
  intros Hk. unfold input_response_targets. rewrite walk_responses_fold by done.
  destruct (foldl _ (walk_new, targets_new) _) as [w out] eqn:E. unfold finish. cbn [fst snd].
  intros [Ho Hw]%orb_false_iff. rewrite Ho, Hw.
  apply classify_fold in E as (Eo & _); [|done..]. rewrite <- Eo. cbn [orb].
  by rewrite <- Ho, set_truncated_same.
Qed.

Lemma response_leaf_in json l s p nc : keyed_request json →
  et_truncated (input_response_targets json) = false → l ∈ response_leaves json →
  lf_string l = Some s → verdict_of l s = VTarget SPath p nc →
  p ∈ et_paths (input_response_targets json)
  ∧ (nc = true → et_noncanonical (input_response_targets json) ≠ []).
Proof.
  intros Hk Ht Hl Hs Hv. rewrite input_responses_complete in Ht |- * by done.
  destruct (fold_effect_complete (response_leaves json) targets_new targets_new_ok Ht)
    as (_ & _ & _ & Hall).
  exact (Hall l s SPath p nc Hl Hs Hv).
Qed.

Lemma request_leaf_in json opaque l s slot x nc : keyed_request json →
  et_truncated (collect_argument_targets json opaque) = false → l ∈ request_leaves json opaque →
  lf_string l = Some s → verdict_of l s = VTarget slot x nc →
  x ∈ slot_targets (collect_argument_targets json opaque) slot
  ∧ (nc = true → et_noncanonical (collect_argument_targets json opaque) ≠ []).
Proof.
  intros Hk Ht Hl Hs Hv. destruct (collect_complete json opaque Hk Ht) as [E _]. rewrite E in *.
  destruct (fold_effect_complete (request_leaves json opaque) targets_new targets_new_ok Ht)
    as (_ & _ & _ & Hall).
  exact (Hall l s slot x nc Hl Hs Hv).
Qed.
End use.

(** ** Admission *)

Section admission.
Context `{Unicode} `{FileSystem} `{SchemaLib} `{SchemaFiles}.

Lemma admit_tool_ok policy name tool : admit_tool policy name = Ok tool →
  tool ∈ pol_tools policy ∧ tp_name tool = name ∧ tp_allowed tool = true.
Proof.
  unfold admit_tool. case_match; [done|]. case_match eqn:E; [|done]. intros [= <-].
  apply List.find_some in E as [Hin [Hn%String.eqb_eq Ha]%andb_true_iff].
  split_and!; [by apply list_elem_of_In|done|done].
Qed.

Lemma violation_ok {A} name (r : result A string) a : violation name r = Ok a ↔ r = Ok a.
Proof. destruct r; cbn; split; congruence. Qed.

Lemma request_state_ok json notes notes' v : check_request_state json notes = Ok notes' →
  params_member json "requestState" = Some v → (request_state_byte_len v ≤ REQUEST_STATE_MAX_BYTES)%Z.
Proof.
  unfold check_request_state. intros Hc Hv. rewrite Hv in Hc.
  destruct (Z.ltb_spec REQUEST_STATE_MAX_BYTES (request_state_byte_len v)); [done|lia].
Qed.

Lemma input_responses_ok json tool notes notes' v : check_input_responses json tool notes = Ok notes' →
  params_member json "inputResponses" = Some v → has_security_contract tool = true →
  tp_input_responses tool = IRAllow ∨ tp_input_responses tool = IRInspect.
Proof.
  unfold check_input_responses. intros Hc Hv Hs. rewrite Hv, Hs in Hc.
  destruct (tp_input_responses tool); cbn in Hc; auto; done.
Qed.

(** The steps of a request that is a [tools/call]. *)
Lemma check_request_call raw ms policy r : find_method ms None = Ok (Some "tools/call") →
  keyed_request (JObject raw ms) →
  check_request (Ok (JObject raw ms)) policy = r →
  r = (name ←? violation UNKNOWN_TOOL (request_tool_name (JObject raw ms));
       tool ←? violation name (admit_tool policy name);
       violation name (check_call (JObject raw ms) tool policy
                         (protocol_version_audit_notes (JObject raw ms)))).
Proof.
  intros Hm Hk%keyed_request_iff <-. unfold check_request. cbn [to_object].
  rewrite Hk. cbn [violation result_bind]. rewrite Hm. cbn [violation result_bind].
  by rewrite bool_decide_eq_true_2.
Qed.

Lemma check_request_keyed raw ms policy pass :
  check_request (Ok (JObject raw ms)) policy = Ok pass → keyed_request (JObject raw ms).
Proof.
  unfold check_request. cbn [to_object]. intros ([] & Hk%violation_ok & _)%result_bind_ok.
  by apply keyed_request_iff.
Qed.
End admission.

(** [C12] An admitted [tools/call] is within its tool's contract: the tool is
    listed and allowed, its schema accepted the arguments, the retry members
    are within their cap and mode, and, when anything restricts the tool,
    every string anywhere in the arguments and the input responses is
    granted: a path resolves to an allowed object outside the denied ones and
    the secret overlay and is spelled canonically, a host or URL passes the
    global and the tool's network rules (deny first, qualifiers included),
    and whatever is left unrecognised could not select a resource. *)
Theorem admitted_call_granted
    `{Unicode} `{FileSystem} `{SchemaLib} `{SchemaFiles} raw ms policy pass :
  check_request (Ok (JObject raw ms)) policy = Ok pass →
  find_method ms None = Ok (Some "tools/call") →
  let json := JObject raw ms in
  ∃ tool, request_tool_name json = Ok (tp_name tool)
    ∧ tool ∈ pol_tools policy ∧ tp_allowed tool = true
    ∧ (∀ schema_ref, tp_args_schema tool = Some schema_ref → validate_tool_args json schema_ref = Ok ())
    ∧ (∀ v, params_member json "requestState" = Some v →
         (request_state_byte_len v ≤ REQUEST_STATE_MAX_BYTES)%Z)
    ∧ (∀ v, params_member json "inputResponses" = Some v → has_security_contract tool = true →
         tp_input_responses tool = IRAllow ∨ tp_input_responses tool = IRInspect)
    ∧ (restricted tool policy = true → ∀ l s, l ∈ call_leaves tool json → lf_string l = Some s →
         leaf_granted tool policy (verdict_of l s)).
Proof.
  intros Hc Hm. pose proof (check_request_keyed _ _ _ _ Hc) as Hk.
  apply check_request_call in Hc as E; [|done..]. symmetry in E.
  apply result_bind_ok in E as (name & Hn%violation_ok & E).
  apply result_bind_ok in E as (tool & Ht%violation_ok & E). apply violation_ok in E.
  apply admit_tool_ok in Ht as (Hin & <- & Hal). exists tool. unfold check_call in E.
  apply result_bind_ok in E as (u & Hsch & E). apply result_bind_ok in E as (n1 & Hst & E).
  apply result_bind_ok in E as (n2 & Hir & E). apply result_bind_ok in E as (o & Hsub & _).
  split_and!; [done|done|done| | | |].
  - intros sref Hs. rewrite Hs in Hsch. by destruct u.
  - intros v Hv. by eapply request_state_ok.
  - intros v Hv Hs. by eapply input_responses_ok.
  - intros Hr l s Hl Hs. by eapply passing_leaves.
Qed.

(** ** Refusals *)

(** A reason that does not begin like the two authorization refusals. *)
Definition other_reason (r : string) : Prop := starts_with "t" r = false.

Definition reasons_ok {A} (r : result A string) : Prop :=
  match r with Ok _ => True | Err e => other_reason e end.

Lemma reasons_bind {A B} (r : result A string) (k : A → result B string) :
  reasons_ok r → (∀ a, reasons_ok (k a)) → reasons_ok (x ←? r; k x).
Proof. destruct r; cbn; auto. Qed.

Lemma reasons_refuse b reason : other_reason reason → reasons_ok (refuse_if b reason).
Proof. by destruct b. Qed.

Lemma reasons_all_ok {A} (f : A → result unit string) l :
  (∀ x, reasons_ok (f x)) → reasons_ok (all_ok f l).
Proof. intros Hf. induction l as [|x l IH]; [done|]. cbn. by apply reasons_bind. Qed.

(** One step through a check: a bind, a loop, a test, or a reason in view. *)
Ltac reasons :=
  repeat first
    [ exact I
    | progress intros
    | apply reasons_bind | apply reasons_all_ok | apply reasons_refuse
    | reflexivity
    | case_match ].

Section reasons.
Context `{Unicode} `{FileSystem} `{SchemaLib} `{SchemaFiles}.

Lemma overlay_reasons path : reasons_ok (overlay_denies path).
Proof. unfold overlay_denies. reasons. Qed.

Lemma resolve_patterns_reasons ps : reasons_ok (resolve_patterns ps).
Proof.
  induction ps as [|p ps IH]; [done|]. cbn. apply reasons_bind; [by reasons|]. intros r.
  by apply reasons_bind.
Qed.

Lemma url_targets_reasons b urls : reasons_ok (url_targets b urls).
Proof.
  induction urls as [|u urls IH]; [done|]. cbn. destruct (url_target u); [by apply reasons_bind|].
  by destruct b.
Qed.

Lemma deny_lists_reasons hosts cidrs r1 r2 host : other_reason r1 → (∀ c, other_reason (r2 c)) →
  reasons_ok (deny_lists hosts cidrs r1 r2 host).
Proof. intros H3 H4. unfold deny_lists. apply reasons_bind; [by apply reasons_refuse|]. intros _. reasons. apply H4. Qed.

Lemma sub_policy_reasons json tool policy : reasons_ok (check_tool_sub_policy json tool policy).
Proof.
  unfold check_tool_sub_policy. cbv zeta. apply reasons_bind.
  { unfold check_extraction. reasons. }
  intros _. apply reasons_bind.
  { unfold check_fs. destruct (tp_fs tool) as [fs|]; [|done]. destruct (fs_restricted tool); [|done].
    apply reasons_bind; [by apply reasons_refuse|]. intros _. case_match; [|done].
    apply reasons_bind.
    - unfold resolve_fs_patterns. apply reasons_bind; [apply resolve_patterns_reasons|]. intros d.
      apply reasons_bind; [apply resolve_patterns_reasons|done].
    - intros pats. apply reasons_all_ok. intros path. unfold authorize_one_path_prepared.
      apply reasons_bind; [unfold resolve_argument; by reasons|]. by reasons. }
  intros _. apply reasons_bind.
  { case_match; [|done]. unfold apply_secret_overlay. apply reasons_bind.
    - apply reasons_all_ok, overlay_reasons.
    - intros _. apply reasons_all_ok. intros url. case_match; [apply overlay_reasons|done]. }
  intros _. apply reasons_bind; [unfold check_canonical; by reasons|].
  intros _. apply reasons_bind.
  { unfold net_targets. apply reasons_bind; [apply url_targets_reasons|done]. }
  intros ts. apply reasons_bind.
  { apply reasons_all_ok. intros t. unfold global_check. apply reasons_bind; [|by reasons].
    by apply deny_lists_reasons. }
  intros _. apply reasons_bind; [|done]. unfold check_tool_network. case_match; [|done].
  apply reasons_bind; [by apply reasons_refuse|]. intros _. apply reasons_all_ok. intros t'.
  unfold tool_check. apply reasons_bind; [by apply deny_lists_reasons|]. intros _.
  case_match; [unfold qualified_check; by reasons|by apply reasons_refuse].
Qed.

Lemma check_call_reasons json tool policy notes : reasons_ok (check_call json tool policy notes).
Proof.
  unfold check_call. apply reasons_bind.
  { case_match; [|done]. unfold validate_tool_args. apply reasons_bind.
    - unfold resolve_schema, schema_file. by reasons.
    - intros text. case_match; done. }
  intros _. apply reasons_bind; [unfold check_request_state; by reasons|].
  intros n1. apply reasons_bind.
  { unfold check_input_responses, input_responses_denied_reason. by reasons. }
  intros n2. apply reasons_bind; [apply sub_policy_reasons|done].
Qed.

Lemma other_not_denial name r : other_reason r → is_authorization_denial (mkViolation name r) = false.
Proof.
  unfold other_reason, is_authorization_denial. cbn [pv_reason]. intros Hr.
  destruct (String.eqb_spec r REASON_TOOL_NOT_ALLOWED) as [->|]; [done|].
  by destruct (String.eqb_spec r REASON_TOOL_NOT_FOUND) as [->|].
Qed.
End reasons.

(** [C35] The refusal of a call says nothing about which tools exist, and says
    it exactly when the tool is the reason: a well-formed call is refused as
    unauthorized iff the policy does not allow the tool it names, and then the
    client is given one fixed text whether the tool is listed or unknown. *)
Theorem authorization_refusal_exact
    `{Unicode} `{FileSystem} `{SchemaLib} `{SchemaFiles} raw ms policy name :
  keyed_request (JObject raw ms) → find_method ms None = Ok (Some "tools/call") →
  request_tool_name (JObject raw ms) = Ok name →
  (policy_allows_tool policy name = false ↔
   ∃ v, check_request (Ok (JObject raw ms)) policy = Err v ∧ is_authorization_denial v = true)
  ∧ (∀ v, check_request (Ok (JObject raw ms)) policy = Err v → is_authorization_denial v = true →
       client_reason v = REASON_TOOL_NOT_ALLOWED ∧ pv_tool_name v = name).
Proof.
  intros Hk Hm Hn.
  assert (check_request (Ok (JObject raw ms)) policy
          = (tool ←? violation name (admit_tool policy name);
             violation name (check_call (JObject raw ms) tool policy
                               (protocol_version_audit_notes (JObject raw ms))))) as E.
  { etransitivity; [by apply check_request_call|]. by rewrite Hn. }
  rewrite E. unfold admit_tool. destruct (policy_allows_tool policy name) eqn:Ha; cbn [negb].
  - assert (∃ tool, List.find (λ t, String.eqb (tp_name t) name && tp_allowed t) (pol_tools policy)
                    = Some tool) as [tool ->].
    { destruct (List.find _ _) eqn:Ef; [eauto|]. unfold policy_allows_tool in Ha.
      apply List.existsb_exists in Ha as (t & Hin & Ht). eapply List.find_none in Ef; [|exact Hin].
      cbv beta in Ef. congruence. }
    cbn [violation result_bind]. pose proof (check_call_reasons (JObject raw ms) tool policy
      (protocol_version_audit_notes (JObject raw ms))) as Hr.
    destruct (check_call _ _ _ _) as [p|e]; cbn [violation reasons_ok] in *.
    + split; [|done]. split; [done|]. by intros (v & ? & _).
    + split; [split; [done|]|]; [intros (v & [= <-] & Hv)|intros v [= <-] Hv];
        by rewrite other_not_denial in Hv.
  - cbn. destruct (existsb _ (pol_tools policy)); (split; [split; [intros _|done]|]); eauto;
      intros v [= <-] _; done.
Qed.

(** ** Use-role calls *)

Section use_role.
Context `{Unicode} `{FileSystem}.

(** What the state of a successful extraction holds. *)
Lemma use_targets_state json rules fields out : keyed_request json →
  extract_deputy_use_targets (Ok json) rules fields = Ok out →
  ∃ st, use_ok json (matcher_build fields) rules st ∧ use_noncanonical st = []
    ∧ (∀ p, p ∈ use_out st → p ∈ out) ∧ (length out ≤ MAX_EXTRACTED_TARGETS)%nat
    ∧ (use_covered st = false → et_truncated (input_response_targets json) = false
       ∧ et_noncanonical (input_response_targets json) = []
       ∧ ∀ p, p ∈ et_paths (input_response_targets json) → p ∈ out)
    ∧ et_truncated (collect_argument_targets json (matcher_build fields)) = false
    ∧ (∀ v, v ∈ et_unclassified (collect_argument_targets json (matcher_build fields)) →
         selector_plausible v = false).
Proof.
  intros Hk. unfold extract_deputy_use_targets.
  intros (st & Hst & (st2 & Hst2 & E)%result_bind_ok)%result_bind_ok.
  pose proof (use_rules_ok _ _ rules [] _ st Hk (use_init_ok json (matcher_build fields)) Hst) as Hok.
  cbn [app] in Hok. exists st. unfold use_responses in Hst2.
  destruct (use_covered st) eqn:Hcov.
  - injection Hst2 as <-.
    destruct (combined_classify_fresh json (matcher_build fields) (use_combined st) Hk (uo_shared _ _ _ _ Hok))
      as [E1 _].
    destruct (combined_classify json (use_combined st) (matcher_build fields)) as [cl sh]. cbn in E1.
    subst cl. destruct (et_truncated _) eqn:Ht in E; [done|].
    destruct (List.find _ _) eqn:Hf in E; [done|].
    destruct (use_noncanonical st) eqn:Hnc in E; [|done]. injection E as <-.
    split_and!; try done; [by apply Hok|by apply find_none].
  - destruct (et_truncated (input_response_targets json)) eqn:Hrt; [done|].
    destruct (Nat.ltb_spec MAX_EXTRACTED_TARGETS (length (use_out st ++ et_paths (input_response_targets json))))
      as [|Hle]; [done|].
    assert (st2 = mkUse (use_out st ++ et_paths (input_response_targets json))
                    (use_noncanonical st ++ et_noncanonical (input_response_targets json)) false
                    (use_combined st)) as -> by congruence.
    cbn [use_combined use_noncanonical use_out] in E.
    destruct (combined_classify_fresh json (matcher_build fields) (use_combined st) Hk (uo_shared _ _ _ _ Hok))
      as [E1 _].
    destruct (combined_classify json (use_combined st) (matcher_build fields)) as [cl sh]. cbn in E1.
    subst cl. destruct (et_truncated _) eqn:Ht in E; [done|].
    destruct (List.find _ _) eqn:Hf in E; [done|].
    destruct (use_noncanonical st ++ et_noncanonical (input_response_targets json)) eqn:Hnc in E; [|done].
    cbn [head] in E.
    assert (out = use_out st ++ et_paths (input_response_targets json)) as -> by congruence.
    apply app_eq_nil in Hnc as [Hn1 Hn2].
    split_and!; try done; [set_solver| |by apply find_none].
    intros _. split_and!; [done|done|set_solver].
Qed.
End use_role.

(** [C13] A use-role extraction that succeeds hands the session check every
    path the call can name: every value its pointers reach as it is spelled,
    every string of the retry channel that is a path and, under [fs_targets],
    every path anywhere in the request, all canonically spelled and at most
    512 of them; and no undeclared field holds what could select a resource. *)
Theorem use_targets_complete `{Unicode} `{FileSystem} json rules fields out :
  keyed_request json → extract_deputy_use_targets (Ok json) rules fields = Ok out →
  (length out ≤ MAX_EXTRACTED_TARGETS)%nat
  ∧ (∀ p v, RPointer p ∈ rules → v ∈ po_values (resolve p json) → v ∈ out)
  ∧ (∀ l s p nc, l ∈ response_leaves json → lf_string l = Some s →
       verdict_of l s = VTarget SPath p nc → p ∈ out ∧ nc = false)
  ∧ (RShape FsTargets ∈ rules → ∀ l s p nc, l ∈ request_leaves json (matcher_build fields) →
       lf_string l = Some s → verdict_of l s = VTarget SPath p nc → p ∈ out ∧ nc = false)
  ∧ (∀ l s v nc, l ∈ request_leaves json (matcher_build fields) → lf_string l = Some s →
       verdict_of l s = VTarget SUnclassified v nc → selector_plausible v = false).
Proof.
  intros Hk Hx. destruct (use_targets_state _ _ _ _ Hk Hx)
    as (st & [Hb Hsh Hp Hs Hc] & Hnc & Hout & Hlen & Hresp & Htr & Hun).
  assert (∀ l s p nc, use_covered st = true → l ∈ request_leaves json (matcher_build fields) →
            lf_string l = Some s → verdict_of l s = VTarget SPath p nc → p ∈ out ∧ nc = false) as Hall.
  { intros l s p nc Hcov Hl Hls Hv. destruct (Hc Hcov) as (_ & Hin & Hn).
    destruct (request_leaf_in json _ l s SPath p nc Hk Htr Hl Hls Hv) as [Hi Hncx].
    split; [by apply Hout, Hin|]. destruct nc; [|done]. exfalso. by apply Hncx, Hn. }
  split_and!; [done| | | |].
  - intros p v Hr Hv. destruct (Hp p v Hr Hv) as [Hin Ht]. rewrite (Ht Hnc) in Hin. by apply Hout.
  - intros l s p nc Hl Hls Hv. destruct (use_covered st) eqn:Hcov.
    + apply (Hall l s p nc eq_refl); [|done|done]. apply elem_of_app. by right.
    + destruct (Hresp eq_refl) as (Ht & Hn & Hi).
      destruct (response_leaf_in json l s p nc Hk Ht Hl Hls Hv) as [Hin Hncx].
      split; [by apply Hi|]. destruct nc; [|done]. exfalso. by apply Hncx.
  - intros Hr l s p nc. apply Hall. by apply Hs.
  - intros l s v nc Hl Hls Hv. apply Hun.
    exact (proj1 (request_leaf_in json _ l s SUnclassified v nc Hk Htr Hl Hls Hv)).
Qed.

(** ** Trajectory *)

Section traject.
Context `{Unicode} `{FileSystem}.

Lemma no_host_or_url json l s slot x nc : keyed_request json →
  request_has_host_or_url (Ok json) = false → l ∈ request_leaves json None → lf_string l = Some s →
  verdict_of l s = VTarget slot x nc → slot ≠ SHost ∧ slot ≠ SUrl.
Proof.
  intros Hk. unfold request_has_host_or_url. intros Hr Hl Hs Hv.
  apply orb_false_iff in Hr as [[Ht Hh]%orb_false_iff Hu].
  apply negb_false_iff, bool_decide_eq_true in Hh, Hu.
  destruct (request_leaf_in json None l s slot x nc Hk Ht Hl Hs Hv) as [Hin _].
  split; intros ->; cbn [slot_targets] in Hin; [rewrite Hh in Hin|rewrite Hu in Hin]; by apply elem_of_nil in Hin.
Qed.
End traject.

(** A rule that is met and whose next step is forbidden refuses. *)
Lemma trajectory_loop_denies s rules next has rule : rule ∈ rules → matches_after s rule = true →
  denies_next rule next has = true → trajectory_loop s rules next has ≠ Ok ().
Proof.
  induction rules as [|r rules IH]; [set_solver|]. intros [->|Hin]%elem_of_cons Hm Hd; cbn.
  - by rewrite Hm, Hd.
  - destruct (matches_after s r); cbn; [|by apply IH]. destruct (denies_next r next has); [done|by apply IH].
Qed.

(** [C27] After a side effect that a [deny-next="network"] rule names, a call
    that the trajectory check passes names no host and no URL in any string
    of its arguments or input responses, however it is nested or keyed,
    except a network tool called again with no other tool in between. *)
Theorem trajectory_blocks_network `{Unicode} `{FileSystem} json policy session name rule l s x nc :
  keyed_request json → pol_trajectory policy = true → request_tool_name json = Ok name →
  rule ∈ pol_trajectory_rules policy → deny_next rule = Network →
  matches_after session rule = true →
  check_request_trajectory (Ok json) policy session = Ok () →
  l ∈ request_leaves json None → lf_string l = Some s →
  verdict_of l s = VTarget SHost x nc ∨ verdict_of l s = VTarget SUrl x nc →
  same_tool_only session name = true ∧ tool_side_effect policy name = Some Network.
Proof.
  intros Hk Hp Hn Hr Hd Hm. unfold check_request_trajectory. rewrite Hp, Hn. cbn [negb violation result_bind].
  rewrite violation_ok. intros Hc Hl Hs Hv.
  assert (request_has_host_or_url (Ok json) = true) as Hh.
  { apply not_false_iff_true. intros Hf.
    destruct Hv as [Hv|Hv]; destruct (no_host_or_url json l s _ x nc Hk Hf Hl Hs Hv); done. }
  rewrite Hh in Hc. unfold check_trajectory in Hc.
  assert (trajectory_loop session (pol_trajectory_rules policy) (tool_side_effect policy name) true ≠ Ok ())
    as Hloop.
  { apply (trajectory_loop_denies _ _ _ _ rule); [done|done|]. unfold denies_next. rewrite Hd. apply orb_true_r. }
  destruct (bool_decide (last_successful_side_effect session = None)
            && bool_decide (unverified_effects session = [])) eqn:E0.
  { exfalso. apply andb_true_iff in E0 as [E1%bool_decide_eq_true E2%bool_decide_eq_true].
    unfold matches_after in Hm. rewrite E1, E2 in Hm.
    apply orb_true_iff in Hm as [Hm%bool_decide_eq_true|Hm%bool_decide_eq_true]; [done|set_solver]. }
  destruct (same_tool_only session name) eqn:Es; [|done]. cbn [andb] in Hc.
  split; [done|]. destruct (decide (tool_side_effect policy name = Some Network)) as [?|Hne]; [done|].
  rewrite bool_decide_eq_true_2 in Hc by done. done.
Qed.

(** * Concrete calls

    A filesystem in which every path is its own canonical name, a Unicode
    library that changes nothing, a policy with a file reader, and the
    properties of the checker at concrete requests. *)

(** ** A filesystem and a Unicode library for examples *)

Definition plain_unicode : Unicode := {| nfkc_tables := id; domain_to_ascii := λ _, None |}.

Definition quiet_fs : FileSystem := {|
  current_dir := Ok "/srv/work";
  canonicalize := CFound;
  is_symlink := λ _, Some false;
  dir_shared_writable := λ _, Ok false;
  require_parent_write_restricted := λ _, Ok ();
  path_under_share_root := λ _, false;
  replaceable_paths_permitted := false;
  env_var := λ _, None
|}.

Definition no_schemas : SchemaLib := {|
  parse_json := λ _, Err "no parser";
  regex_new := λ _, Err "no regex";
  regex_is_match := λ _ _, false;
  kind_error := λ _, "unexpected kind"
|}.

Definition no_files : SchemaFiles := {| read_schema_file := λ _ _, Err "no file" |}.

#[local] Existing Instances plain_unicode quiet_fs no_schemas no_files.

Definition text (s : string) : Json := JString s s.
Definition call (name : string) (args : list (string * Json)) : list (string * Json) :=
  [("jsonrpc", text "2.0"); ("id", JInteger "1"); ("method", text "tools/call");
   ("params", JObject "" [("name", text name); ("arguments", JObject "" args)])]%string.

Definition open_outbound : OutboundPolicy := mkOutbound [] [] [] [] [] [] false [].

(** A tool that may touch [/srv/work] but not its [private] directory, under
    an outbound policy that closes the network. *)
Definition reader : ToolPolicy :=
  mkToolPolicy "read_file" true None None
    (Some (mkFsTool ["/srv/work/**"] ["/srv/work/*"] [] ["/srv/work/private/**"] true None))
    None None IRAuto None [].

Definition reader_policy : Policy := mkPolicy [reader] true OutboundPolicy_default false [].

(** The reader of [/srv/work] opens a file of its tree. *)
Lemma admitted_call_granted_witness :
  ∃ tool, request_tool_name (JObject "" (call "read_file" [("path", text "/srv/work/a.txt")]))
          = Ok (tp_name tool) ∧ tool ∈ pol_tools reader_policy.
Proof.
  destruct (admitted_call_granted "" (call "read_file" [("path", text "/srv/work/a.txt")])
              reader_policy (mkPass (Some "tool:read_file") [])) as (tool & Hn & Hin & _).
  - vm_compute. reflexivity.
  - reflexivity.
  - exists tool. split; [exact Hn|exact Hin].
Defined.

(** ** Refusals *)

Definition shell_call : list (string * Json) := call "run_shell" [("command", text "ls")].

Lemma keyed_by_check json : check_duplicate_keys_recursively json = Ok tt → keyed_request json.
Proof. apply keyed_request_iff. Qed.

(** A tool the policy does not list. *)
Lemma authorization_refusal_exact_witness :
  ∃ v, check_request (Ok (JObject "" shell_call)) reader_policy = Err v
       ∧ client_reason v = REASON_TOOL_NOT_ALLOWED.
Proof.
  destruct (authorization_refusal_exact "" shell_call reader_policy "run_shell") as [Hiff Htext].
  - apply keyed_by_check. vm_compute. reflexivity.
  - reflexivity.
  - reflexivity.
  - destruct (proj1 Hiff) as (v & Hv & Hd); [reflexivity|].
    exists v. split; [exact Hv|exact (proj1 (Htext v Hv Hd))].
Defined.

(** ** A use-role call *)

Definition open_call : Json :=
  JObject "" (call "open" [("target", text "/srv/work/a.txt"); ("token", text "alpha")]).

Definition target_pointer : ExtractPointer :=
  mkPointer "/params/arguments/target" ["params"; "arguments"; "target"] false.

(** Under a pointer and [fs_targets] the path reaches the session check by
    both rules; the token selects no resource. *)
Lemma use_targets_complete_witness :
  extract_deputy_use_targets (Ok open_call) [RPointer target_pointer; RShape FsTargets] []
    = Ok ["/srv/work/a.txt"; "/srv/work/a.txt"]
  ∧ "/srv/work/a.txt" ∈ ["/srv/work/a.txt"; "/srv/work/a.txt"]
  ∧ selector_plausible "alpha" = false.
Proof.
  destruct (use_targets_complete open_call [RPointer target_pointer; RShape FsTargets] []
              ["/srv/work/a.txt"; "/srv/work/a.txt"]) as (_ & Hptr & _ & _ & Hun).
  - apply keyed_by_check. vm_compute. reflexivity.
  - vm_compute. reflexivity.
  - split; [vm_compute; reflexivity|split].
    + apply (Hptr target_pointer); [left|vm_compute; left].
    + apply (Hun (mkScalar (attrs_of "token") (Some "alpha") None) "alpha" "alpha" false).
      * vm_compute. right. left.
      * reflexivity.
      * vm_compute. reflexivity.
Defined.

(** ** The trajectory *)

Definition fetcher (name : string) : ToolPolicy :=
  mkToolPolicy name true None (Some "network") None None None IRAuto None [].

Definition fetch_policy : Policy :=
  mkPolicy [fetcher "fetch"; fetcher "post"] true open_outbound true [mkTrajectory Network Network].

(** After a call of [fetch] that succeeded. *)
Definition after_fetch : SessionState :=
  mkSession ∅ ∅ 0 0 (Some Network) (Some "fetch") ∅ 0 ∅ false ∅ 0.

Definition fetch_call (tool : string) : Json :=
  JObject "" (call tool [("url", text "https://example.com/a")]).

(** The same tool may go on; another may not. *)
Lemma trajectory_blocks_network_witness :
  same_tool_only after_fetch "fetch" = true
  ∧ check_request_trajectory (Ok (fetch_call "post")) fetch_policy after_fetch ≠ Ok ().
Proof.
  split; [|vm_compute; discriminate].
  refine (proj1 (trajectory_blocks_network (fetch_call "fetch") fetch_policy after_fetch "fetch"
    (mkTrajectory Network Network) (mkScalar (attrs_of "url") (Some "https://example.com/a") None)
    "https://example.com/a" "https://example.com/a" false _ _ _ _ _ _ _ _ _ _)).
  - apply keyed_by_check. vm_compute. reflexivity.
  - reflexivity.
  - reflexivity.
  - left.
  - reflexivity.
  - vm_compute. reflexivity.
  - vm_compute. reflexivity.
  - vm_compute. left.
  - reflexivity.
  - right. vm_compute. reflexivity.
Defined.

(** ** Past the extraction budget *)

(** A tool that nothing restricts, under a policy with the secret overlay. *)
Definition free_tool : ToolPolicy := mkToolPolicy "batch" true None None None None None IRAuto None [].
Definition overlay_policy : Policy := mkPolicy [free_tool] true open_outbound false [].

Definition batch_call (n : nat) : list (string * Json) :=
  call "batch" [("sizes", JArray "" (replicate n (JInteger "0"))); ("path", text "/root/.ssh/id_rsa")].

(** The overlay refuses the key file, and the same file is admitted after as
    many numbers as the walk inspects. *)
Lemma overlay_stops_at_budget :
  overlay_denies "/root/.ssh/id_rsa" ≠ Ok ()
  ∧ (∃ v, check_request (Ok (JObject "" (batch_call 16))) overlay_policy = Err v)
  ∧ ∃ pass, check_request (Ok (JObject "" (batch_call 4096))) overlay_policy = Ok pass.
Proof.
  split_and!.
  - vm_compute. discriminate.
  - eexists. vm_compute. reflexivity.
  - eexists. vm_compute. reflexivity.
Qed.
