(* ===== verification/SchemaTheorems.v ===== *)
(** * SchemaTheorems: the evaluator decides the schema

    What a schema says of a value, as predicates: one clause per keyword, the
    references followed to a given depth.  The evaluator of [SchemaEval]
    answers it: an accepted value conforms, a mismatch means that it does not,
    and only a fatal error (a malformed schema, a budget, the depth limit)
    leaves the question open.  Its fuel is never what stops it. *)

From S2P Require Import Prelude Text Percent IpAddr Json PathText RpcId PolicyCidr SchemaDecimal SchemaEval.

Open Scope Z_scope.

(** ** Conformance *)

Definition keyword (schema : Json) (name : string) (P : Json → Prop) : Prop :=
  ∀ v, member_opt schema name = Some v → P v.

(** The kinds of [type]. *)
Inductive TypeOf : Json → string → Prop :=
  | OfNull : TypeOf JNull "null"
  | OfBoolean b : TypeOf (JBool b) "boolean"
  | OfInteger r : TypeOf (JInteger r) "integer"
  | OfNumber v r : as_number_str v = Some r → TypeOf v "number"
  | OfString r s : TypeOf (JString r s) "string"
  | OfArray r items : TypeOf (JArray r items) "array"
  | OfObject r ms : TypeOf (JObject r ms) "object".

(** Equal numbers; texts the evaluator cannot read are equal as texts. *)
Definition NumEq (x y : string) : Prop :=
  match decimal_parse x, decimal_parse y with
  | Ok _, Ok _ => ∃ v w, text_value x = Some v ∧ text_value y = Some w ∧ same_number v w
  | _, _ => x = y
  end.

Inductive JEq : Json → Json → Prop :=
  | EqNull : JEq JNull JNull
  | EqBool b : JEq (JBool b) (JBool b)
  | EqNumber v w x y : as_number_str v = Some x → as_number_str w = Some y → NumEq x y → JEq v w
  | EqString r r' s : JEq (JString r s) (JString r' s)
  | EqArray r r' xs ys : Forall2 JEq xs ys → JEq (JArray r xs) (JArray r' ys)
  | EqObject r r' xs ys : length xs = length ys →
      (∀ name x, (name, x) ∈ xs → ∃ y, member_of ys name = Some y ∧ JEq x y) →
      JEq (JObject r xs) (JObject r' ys).

(** A value whose canonical key says all of it: within the depth limit, with
    readable numbers and distinct member names, no text longer than a length
    prints. *)
Definition short (s : string) : bool := Z.of_nat (String.length s) <? 10 ^ 19.

Fixpoint readable (v : Json) (depth : nat) : bool :=
  negb (MAX_SCHEMA_DEPTH <? depth)%nat
  && match v with
     | JNull | JBool _ => true
     | JInteger raw | JFloat raw => is_ok (decimal_parse raw)
     | JString _ s => short s
     | JArray _ items => forallb (λ v, readable v (S depth)) items
     | JObject _ ms => bool_decide (NoDup ms.*1) && forallb (λ m, short m.1 && readable m.2 (S depth)) ms
     end.

(** Elements of an array that count as the same: equal values; for a value that
    is not readable, whose key falls back on raw text, equal keys. *)
Definition same_item (v w : Json) : Prop :=
  if readable v 0 && readable w 0 then JEq v w else canonical_key v 0 = canonical_key w 0.

Definition distinct_items (elems : list Json) : Prop :=
  ∀ i j v w, elems !! i = Some v → elems !! j = Some w → same_item v w → i = j.

(** The comparison of a number with a bound. *)
Definition bounded_by (R : comparison → Prop) (num : string) (bound : Json) : Prop :=
  ∀ b, as_number_str bound = Some b →
  ∃ v w, text_value num = Some v ∧ text_value b = Some w ∧ R (value_cmp v w).

Definition multiple_of (num : string) (divisor : Json) : Prop :=
  ∀ d, as_number_str divisor = Some d →
  ∃ v w, text_value num = Some v ∧ text_value d = Some w ∧ 0 < w.1 ∧ multiple v w.

(** A count keyword. *)
Definition counted (R : Z → Prop) (v : Json) : Prop :=
  ∀ raw n, v = JInteger raw → parse_u64 raw = Some n → R n.

(** Exactly [n] elements satisfy [P]. *)
Inductive Count {A} (P : A → Prop) : list A → nat → Prop :=
  | CountNil : Count P [] 0
  | CountYes x l n : P x → Count P l n → Count P (x :: l) (S n)
  | CountNo x l n : ¬ P x → Count P l n → Count P (x :: l) n.

Section conforms.
Context `{SchemaLib} (root : Json).

(** The clauses, over what the subschemas mean. *)
Section clauses.
Context (C : Json → Json → Prop).

Definition ref_holds (value ref_val : Json) : Prop :=
  ∀ target resolved, to_unquoted_string_str ref_val = Some target →
  resolve_local_ref root target = Ok resolved → C value resolved.

Definition type_holds (value type_val : Json) : Prop :=
  match type_val with
  | JString _ name => TypeOf value name
  | JArray _ ts => ∃ t name, t ∈ ts ∧ to_unquoted_string_str t = Some name ∧ TypeOf value name
  | _ => False
  end.

Definition enum_holds (value enum_val : Json) : Prop :=
  ∀ items, to_array enum_val = Some items → ∃ item, item ∈ items ∧ JEq value item.

Definition number_holds (value schema : Json) : Prop :=
  match as_number_str value with
  | None => True
  | Some num =>
      keyword schema "minimum" (bounded_by (λ c, c ≠ Lt) num)
      ∧ keyword schema "maximum" (bounded_by (λ c, c ≠ Gt) num)
      ∧ keyword schema "exclusiveMinimum" (bounded_by (λ c, c = Gt) num)
      ∧ keyword schema "exclusiveMaximum" (bounded_by (λ c, c = Lt) num)
      ∧ keyword schema "multipleOf" (multiple_of num)
  end.

Definition string_holds (value schema : Json) : Prop :=
  match to_unquoted_string_str value with
  | None => True
  | Some s =>
      keyword schema "minLength" (counted (λ n, n ≤ char_count s))
      ∧ keyword schema "maxLength" (counted (λ n, char_count s ≤ n))
      ∧ keyword schema "pattern" (λ v, ∀ pat, to_unquoted_string_str v = Some pat →
          regex_is_match pat s = true)
  end.

Definition required_holds (entries : list (string * Json)) (r : Json) : Prop :=
  ∀ reqs req name, to_array r = Some reqs → req ∈ reqs → to_unquoted_string_str req = Some name →
  ∃ v, (name, v) ∈ entries.

(** The schema that governs a member, if any: its own, or that of the extras;
    [false] admits no extra. *)
Definition member_holds (schema : Json) (key : string) (val : Json) : Prop :=
  match member_opt schema "properties" ≫= λ p, member_opt p key with
  | Some prop_schema => C val prop_schema
  | None =>
      match member_opt schema "additionalProperties" with
      | None => True
      | Some (JBool b) => b = true
      | Some add_schema => C val add_schema
      end
  end.

Definition object_holds (value schema : Json) : Prop :=
  match to_object value with
  | None => True
  | Some entries =>
      keyword schema "required" (required_holds entries)
      ∧ ∀ key val, (key, val) ∈ entries → member_holds schema key val
  end.

Definition array_holds (value schema : Json) : Prop :=
  match to_array value with
  | None => True
  | Some elems =>
      (keyword schema "items" (λ s, Forall (λ e, C e s) elems)
       ∧ keyword schema "uniqueItems" (λ u, u = JBool true → distinct_items elems))
      ∧ keyword schema "minItems" (counted (λ n, n ≤ Z.of_nat (length elems)))
      ∧ keyword schema "maxItems" (counted (λ n, Z.of_nat (length elems) ≤ n))
  end.

Definition branches_hold (P : list Json → Prop) (v : Json) : Prop :=
  ∀ branches, to_array v = Some branches → P branches.

Definition satisfies (value schema : Json) : Prop :=
  keyword schema "$ref" (ref_holds value)
  ∧ keyword schema "type" (type_holds value)
  ∧ keyword schema "enum" (enum_holds value)
  ∧ keyword schema "const" (JEq value)
  ∧ number_holds value schema
  ∧ string_holds value schema
  ∧ object_holds value schema
  ∧ array_holds value schema
  ∧ keyword schema "allOf" (branches_hold (Forall (C value)))
  ∧ keyword schema "anyOf" (branches_hold (Exists (C value)))
  ∧ keyword schema "oneOf" (branches_hold (λ bs, Count (C value) bs 1)).
End clauses.

(** The value conforms to the schema, subschemas and references being
    followed [n] levels down. *)
Fixpoint conforms (n : nat) (value schema : Json) : Prop :=
  match n with
  | O => False
  | S n' =>
      match schema with
      | JBool b => b = true
      | JObject _ _ => satisfies (conforms n') value schema
      | _ => False
      end
  end.
End conforms.

(** ** What a run of the evaluator settles *)

(** The run answers the question [P]. *)
Definition decides (m : M unit) (P : Prop) : Prop := ∀ ev,
  match (m ev).2 with
  | Ok _ => P
  | Err (Mismatch _) => ¬ P
  | Err (Fatal _) => True
  end.

(** The run fails only fatally, and otherwise returns what [Q] says. *)
Definition yields {A} (m : M A) (Q : A → Prop) : Prop := ∀ ev,
  match (m ev).2 with
  | Ok a => Q a
  | Err (Mismatch _) => False
  | Err (Fatal _) => True
  end.

Section rules.
Lemma decides_iff m P Q : decides m P → (P ↔ Q) → decides m Q.
Proof. intros H E ev. specialize (H ev). repeat case_match; tauto. Qed.

Lemma decides_ret (P : Prop) : P → decides (mret ()) P.
Proof. by intros H ev. Qed.

Lemma decides_fatal m P : decides (mfail (Fatal m)) P.
Proof. by intros ev. Qed.

Lemma decides_mismatch m (P : Prop) : ¬ P → decides (mfail (Mismatch m)) P.
Proof. by intros H ev. Qed.

Lemma decides_test b reason (P : Prop) : (b = false ↔ P) → decides (mismatch_if b reason) P.
Proof. intros H ev. destruct b; cbn; [|tauto]. intros HP. by apply H in HP. Qed.

Lemma decides_seq m1 m2 P Q : decides m1 P → decides m2 Q → decides (mbind_ev m1 (λ _, m2)) (P ∧ Q).
Proof.
  intros H1 H2 ev. specialize (H1 ev). unfold mbind_ev. destruct (m1 ev) as [ev' [u|[e|e]]]; cbn in *.
  - specialize (H2 ev'). repeat case_match; tauto.
  - tauto.
  - done.
Qed.

Lemma decides_bind {A} (m : M A) k Q P : yields m Q → (∀ a, Q a → decides (k a) P) →
  decides (mbind_ev m k) P.
Proof.
  intros Hm Hk ev. specialize (Hm ev). unfold mbind_ev. destruct (m ev) as [ev' [a|[e|e]]]; cbn in *.
  - by apply Hk.
  - done.
  - done.
Qed.

Lemma yields_ret {A} (a : A) (Q : A → Prop) : Q a → yields (mret a) Q.
Proof. by intros H ev. Qed.

Lemma yields_fatal {A} m (Q : A → Prop) : yields (mfail (Fatal m)) Q.
Proof. by intros ev. Qed.

Lemma yields_bind {A B} (m : M A) (k : A → M B) Q R : yields m Q → (∀ a, Q a → yields (k a) R) →
  yields (mbind_ev m k) R.
Proof.
  intros Hm Hk ev. specialize (Hm ev). unfold mbind_ev. destruct (m ev) as [ev' [a|[e|e]]]; cbn in *.
  - by apply Hk.
  - done.
  - done.
Qed.

Lemma yields_mono {A} (m : M A) (Q R : A → Prop) : yields m Q → (∀ a, Q a → R a) → yields m R.
Proof. intros Hm HR ev. specialize (Hm ev). destruct (m ev).2 as [a|[e|e]]; auto. Qed.

Lemma yields_result {A} (r : result A string) : yields (fatal r) (λ a, r = Ok a).
Proof. by destruct r. Qed.

Lemma yields_spend_node path : yields (spend_node path) (λ _, True).
Proof. intros ev. unfold spend_node. by destruct (node_budget ev =? 0). Qed.

Lemma yields_spend_branch path : yields (spend_branch path) (λ _, True).
Proof. intros ev. unfold spend_branch. by destruct (branch_budget ev =? 0). Qed.

Lemma decides_keyword schema name k P :
  (∀ v, decides (k v) (P v)) → decides (on_keyword schema name k) (keyword schema name P).
Proof.
  intros H. unfold on_keyword, keyword. destruct (member_opt schema name) as [v|].
  - eapply decides_iff; [apply H|]. split; [by intros ? ? [= <-]|auto].
  - by apply decides_ret.
Qed.
End rules.

(** ** Equality of values *)

Lemma numbers_equal_iff x y : numbers_equal x y = true ↔ NumEq x y.
Proof.
  unfold NumEq. destruct (decimal_parse x) as [dx|] eqn:Hx, (decimal_parse y) as [dy|] eqn:Hy;
    try (unfold numbers_equal; rewrite Hx, ?Hy; apply String.eqb_eq).
  destruct (numbers_equal_value x y dx dy Hx Hy) as (v & w & Hv & Hw & ->). rewrite Hv, Hw.
  split; [eauto|]. by intros (? & ? & [= <-] & [= <-] & ?).
Qed.

Lemma zip_equal_iff xs : Forall (λ x, ∀ y, json_values_equal x y = true ↔ JEq x y) xs → ∀ ys,
  (fix zip_equal (xs ys : list Json) : bool :=
     match xs, ys with
     | [], [] => true
     | x :: xs', y :: ys' => json_values_equal x y && zip_equal xs' ys'
     | _, _ => false
     end) xs ys = true ↔ Forall2 JEq xs ys.
Proof.
  induction 1 as [|x xs Hx _ IH]; intros [|y ys].
  - split; [constructor|done].
  - split; [done|by inversion 1].
  - split; [done|by inversion 1].
  - rewrite andb_true_iff, Hx, IH. split; [intros []; by constructor|by inversion 1].
Qed.

Lemma all_members_iff ys xs : Forall (λ m, ∀ y, json_values_equal m.2 y = true ↔ JEq m.2 y) xs →
  (fix all_members (xs : list (string * Json)) : bool :=
     match xs with
     | [] => true
     | (name, x) :: xs' =>
         match member_of ys name with
         | Some y => json_values_equal x y && all_members xs'
         | None => false
         end
     end) xs = true
  ↔ ∀ name x, (name, x) ∈ xs → ∃ y, member_of ys name = Some y ∧ JEq x y.
Proof.
  induction 1 as [|[name x] xs Hx _ IH]; [split; [set_solver|done]|]. cbn [snd] in Hx. split.
  - intros Hm. destruct (member_of ys name) as [y|] eqn:Ey; [|done].
    apply andb_true_iff in Hm as [Hxy Hrest]. rewrite IH in Hrest. rewrite Hx in Hxy.
    intros n z [[= -> ->]|Hin]%elem_of_cons; eauto.
  - intros Hall. destruct (Hall name x) as (y & -> & Hy); [set_solver|]. rewrite <- Hx in Hy.
    rewrite Hy. cbn. apply IH. intros n z Hin. apply Hall. set_solver.
Qed.

Lemma json_values_equal_iff v : ∀ w, json_values_equal v w = true ↔ JEq v w.
Proof.
  induction v as [|b|r|r|r s|r items IH|r ms IH] using Json_nested_ind; intros w.
  - destruct w; (split; [try done; constructor|inversion 1; done]).
  - destruct w; try (split; [done|inversion 1; done]). cbn. rewrite eqb_true_iff.
    split; [intros ->; constructor|inversion 1; done].
  - destruct w; try (split; [done|inversion 1; done]); cbn; rewrite numbers_equal_iff;
      (split; [by eapply EqNumber|inversion 1; by simplify_eq/=]).
  - destruct w; try (split; [done|inversion 1; done]); cbn; rewrite numbers_equal_iff;
      (split; [by eapply EqNumber|inversion 1; by simplify_eq/=]).
  - destruct w; try (split; [done|inversion 1; done]). cbn. rewrite String.eqb_eq.
    split; [intros ->; constructor|inversion 1; done].
  - destruct w as [| | | | |r' ys|]; try (split; [done|inversion 1; done]). cbn [json_values_equal].
    rewrite zip_equal_iff by done. split; [by constructor|inversion 1; done].
  - destruct w as [| | | | | |r' ys]; try (split; [done|inversion 1; done]). cbn [json_values_equal].
    rewrite andb_true_iff, Nat.eqb_eq, all_members_iff by done.
    split; [intros []; by constructor|inversion 1; done].
Qed.

(** ** The canonical key *)

Lemma app_cancel_string s : ∀ t x y, String.length s = String.length t → s +:+ x = t +:+ y → s = t ∧ x = y.
Proof.
  induction s as [|c s IH]; intros [|c' t] x y Hl E; cbn in Hl; try done.
  rewrite !app_cons_string in E. injection E as -> E. destruct (IH t x y) as [-> ->]; [lia|done|done].
Qed.

(** The text after a number starts with no digit. *)
Definition undigit (x : string) : Prop := match x with String c _ => is_ascii_digit c = false | EmptyString => True end.

Lemma digits_delim s : ∀ t x y, str_all is_ascii_digit s = true → str_all is_ascii_digit t = true →
  undigit x → undigit y → s +:+ x = t +:+ y → s = t ∧ x = y.
Proof.
  induction s as [|c s IH]; intros [|c' t] x y Hs Ht Hx Hy E.
  - done.
  - rewrite app_empty_string, app_cons_string in E. subst x. cbn in *. by apply andb_true_iff in Ht as [Hc _]; rewrite Hx in Hc.
  - rewrite app_empty_string, app_cons_string in E. subst y. cbn in *. by apply andb_true_iff in Hs as [Hc _]; rewrite Hy in Hc.
  - rewrite !app_cons_string in E. injection E as -> E. cbn in Hs, Ht. apply andb_true_iff in Hs as [_ Hs], Ht as [_ Ht].
    destruct (IH t x y) as [-> ->]; done.
Qed.

Lemma show_dec_delim n m x y : 0 <= n < 10 ^ 20 → 0 <= m < 10 ^ 20 → undigit x → undigit y →
  show_dec n +:+ x = show_dec m +:+ y → n = m ∧ x = y.
Proof.
  intros Hn Hm Hx Hy E. apply digits_delim in E as [E ->]; [|by apply show_dec_shape; lia|by apply show_dec_shape; lia|done|done].
  split; [|done]. pose proof (from_str_radix_show (10 ^ 20) n ltac:(lia) ltac:(lia)) as H1.
  rewrite E, from_str_radix_show in H1 by lia. congruence.
Qed.

Lemma show_int_delim n m x y : - 10 ^ 19 < n < 10 ^ 19 → - 10 ^ 19 < m < 10 ^ 19 → undigit x → undigit y →
  show_int n +:+ x = show_int m +:+ y → n = m ∧ x = y.
Proof.
  intros Hn Hm Hx Hy E. unfold show_int in E.
  assert (∀ k z, 0 <= k → String "-" z = show_dec k +:+ x → False) as Hminus1.
  { intros k z Hk Ez. destruct (show_dec_shape k Hk) as [Hne Hd]. destruct (show_dec k); [done|].
    rewrite app_cons_string in Ez. injection Ez as <- _. done. }
  assert (∀ k z, 0 <= k → String "-" z = show_dec k +:+ y → False) as Hminus2.
  { intros k z Hk Ez. destruct (show_dec_shape k Hk) as [Hne Hd]. destruct (show_dec k); [done|].
    rewrite app_cons_string in Ez. injection Ez as <- _. done. }
  destruct (Z.ltb_spec n 0), (Z.ltb_spec m 0); rewrite ?app_cons_string in E.
  - injection E as E. rewrite !app_empty_string in E. apply show_dec_delim in E as [E ->]; [|lia|lia|done|done]. split; [lia|done].
  - exfalso. eapply Hminus2; [|exact E]. lia.
  - exfalso. eapply Hminus1; [|symmetry; exact E]. lia.
  - apply show_dec_delim in E; [done|lia|lia|done|done].
Qed.

Definition jtail (sep : string) (ks : list string) : string :=
  match ks with [] => "" | _ => sep +:+ join sep ks end.

Lemma join_cons sep k ks : join sep (k :: ks) = k +:+ jtail sep ks.
Proof. destruct ks; [by rewrite app_nil_string|done]. Qed.

(** Codes that end where a separator or the closing bracket stands. *)
Section joined.
Context {A : Type} (code : A → string) (P Q : A → Prop) (c stop : ascii) (sep : string).
Hypothesis Hstop : c ≠ stop.
Definition closes (x : string) : Prop := ∃ r, x = String c r ∨ x = String stop r.
Hypothesis Hcode : ∀ a b x y, P a → Q b → closes x → closes y → code a +:+ x = code b +:+ y → code a = code b ∧ x = y.
Hypothesis Hstart : ∀ a x y, P a ∨ Q a → code a +:+ x ≠ String stop y.

Lemma jtail_closes ks x : closes (jtail (String c sep) ks +:+ String stop x).
Proof. destruct ks; cbn [jtail]; rewrite ?app_cons_string; eexists; [right|left]; done. Qed.

Lemma join_delim xs : ∀ ys x y, Forall P xs → Forall Q ys →
  join (String c sep) (code <$> xs) +:+ String stop x = join (String c sep) (code <$> ys) +:+ String stop y →
  code <$> xs = code <$> ys ∧ x = y.
Proof.
  induction xs as [|a xs IH]; intros [|b ys] x y Hx Hy E; rewrite ?fmap_cons, ?join_cons, ?app_assoc_string in *.
  - cbn in E. by injection E as ->.
  - apply Forall_cons in Hy as [Hb _]. by destruct (Hstart b (jtail (String c sep) (code <$> ys) +:+ String stop y) x (or_intror Hb)).
  - apply Forall_cons in Hx as [Ha _]. by destruct (Hstart a (jtail (String c sep) (code <$> xs) +:+ String stop x) y (or_introl Ha)).
  - apply Forall_cons in Hx as [Ha Hx], Hy as [Hb Hy].
    apply Hcode in E as [-> E]; [|done|done|apply jtail_closes|apply jtail_closes].
    assert (code <$> xs = code <$> ys ∧ x = y) as [-> ->]; [|done].
    destruct xs as [|a' xs], ys as [|b' ys]; cbn [jtail fmap list_fmap] in E; rewrite ?app_cons_string, ?app_empty_string in E.
    + by injection E as ->.
    + by injection E as <-.
    + by injection E as ->.
    + injection E as E. rewrite !app_assoc_string in E. apply app_cancel_string in E as [_ E]; [|done]. by apply IH.
Qed.
End joined.

(** *** Numbers *)

Lemma decimal_parse_form s d : decimal_parse s = Ok d →
  Forall digit (d_digits d) ∧ - 10 ^ 19 < d_exp d < 10 ^ 19 ∧ (is_zero d = true → d = mkDecimal false [] 0).
Proof.
  intros Hd. pose proof (decimal_parse_value s d Hd) as [Hn _]. revert Hd. unfold decimal_parse.
  destruct (is_empty (trim s)); [done|]. destruct (number_parts (trim s)) as [[[[b ints] fracs] e]|]; [|done]. cbn [result_bind].
  destruct (_ =? 0)%nat eqn:E0.
  - intros [= <-]. cbn. split_and!; [constructor|lia|lia|done].
  - destruct (checked_i64 _) as [ex|] eqn:Ec; [|done]. intros [= <-]. cbn [d_digits d_exp] in *. split_and!.
    + apply Hn.
    + unfold checked_i64 in Ec. destruct (in_i64 _) eqn:Ei; [|done]. injection Ec as <-.
      unfold in_i64, I64_MIN, I64_MAX in Ei. apply andb_true_iff in Ei as [?%Z.leb_le ?%Z.leb_le]. lia.
    + unfold checked_i64 in Ec. destruct (in_i64 _) eqn:Ei; [|done]. injection Ec as <-.
      unfold in_i64, I64_MIN, I64_MAX in Ei. apply andb_true_iff in Ei as [?%Z.leb_le ?%Z.leb_le]. lia.
    + unfold is_zero. cbn. intros Hz. by rewrite Hz in E0.
Qed.

Lemma digits_cmp_eq a : ∀ b, digits_cmp a b = Eq ↔ a = b.
Proof.
  induction a as [|x a IH]; intros [|y b]; cbn; try done.
  destruct (Z.compare_spec x y) as [->|H|H]; [rewrite IH; split; congruence|split; [done|intros [= -> _]; lia]..].
Qed.

Lemma cmp_abs_eq a b : cmp_abs a b = Eq ↔ d_exp a = d_exp b ∧ d_digits a = d_digits b.
Proof.
  unfold cmp_abs. destruct (Z.compare_spec (d_exp a) (d_exp b)) as [E|H|H]; [rewrite digits_cmp_eq; split; [by intros ->|by intros [_ ?]]|split; [done|lia]..].
Qed.

Lemma decimal_cmp_eq s t a b : decimal_parse s = Ok a → decimal_parse t = Ok b → decimal_cmp a b = Eq ↔ a = b.
Proof.
  intros Ha Hb. apply decimal_parse_form in Ha as (_ & _ & Za), Hb as (_ & _ & Zb).
  unfold decimal_cmp. destruct (is_zero a) eqn:Ea, (is_zero b) eqn:Eb; cbn [andb].
  - rewrite Za, Zb; done.
  - split; [by destruct (d_negative b)|]. intros ->. congruence.
  - split; [by destruct (d_negative a)|]. intros ->. congruence.
  - destruct a as [na da ea], b as [nb db eb]. cbn [d_negative]. destruct na, nb.
    + rewrite cmp_abs_eq. cbn. split; [by intros [-> ->]|by intros [= -> ->]].
    + split; [done|intros [=]].
    + split; [done|intros [=]].
    + rewrite cmp_abs_eq. cbn. split; [by intros [-> ->]|by intros [= -> ->]].
Qed.

Lemma num_eq_key s t a b : decimal_parse s = Ok a → decimal_parse t = Ok b → NumEq s t ↔ a = b.
Proof.
  intros Ha Hb. rewrite <- numbers_equal_iff. unfold numbers_equal. rewrite Ha, Hb, bool_decide_eq_true.
  by eapply decimal_cmp_eq.
Qed.

Lemma char_inj c c' x y : String c x = String c' y → c = c' ∧ x = y.
Proof. by intros [= -> ->]. Qed.

Lemma cons_inj {A} (x y : A) l k : x :: l = y :: k → x = y ∧ l = k.
Proof. by intros [= -> ->]. Qed.

Lemma show_digits_delim ds : ∀ es x y, Forall digit ds → Forall digit es →
  show_digits ds +:+ x = show_digits es +:+ y → ds = es ∧ x = y.
Proof.
  intros es x y Hd He E. unfold show_digits in E. rewrite !app_cons_string, !app_empty_string, !app_assoc_string in E. injection E as E.
  rewrite !app_cons_string, !app_empty_string in E.
  apply (join_delim show_dec digit digit "," "]" " ") in E as [E ->]; [|done| | |done|done].
  - split; [|done]. revert es He E. clear -Hd. induction Hd as [|a ds Ha Hd IH]; intros [|b es] He E; try done.
    apply Forall_cons in He as [Hb He]. rewrite !fmap_cons in E. apply cons_inj in E as [Eab E]. rewrite (IH es He E).
    assert (show_dec a +:+ "" = show_dec b +:+ "") as E' by (by rewrite Eab).
    apply show_dec_delim in E' as [-> _]; [done|unfold digit in *; lia..|done|done].
  - intros a b x' y' Ha Hb [r Hx] [r' Hy] E'. apply show_dec_delim in E' as [-> ->];
      [done|unfold digit in *; lia..| |]; [by destruct Hx as [->| ->]|by destruct Hy as [->| ->]].
  - intros a x' y' Ha E'. assert (digit a) as Hda by (by destruct Ha). clear Ha. destruct (show_dec_shape a) as [_ Hs]; [unfold digit in *; lia|].
    destruct (show_dec a) eqn:Es; [by destruct (show_dec_shape a ltac:(unfold digit in *; lia)) as [Hne _]; rewrite Es in Hne|].
    rewrite app_cons_string in E'. injection E' as -> _. done.
Qed.

Lemma number_key_delim s t a b x y : decimal_parse s = Ok a → decimal_parse t = Ok b →
  number_key s +:+ x = number_key t +:+ y → a = b ∧ x = y.
Proof.
  intros Ha Hb E. unfold number_key in E. rewrite Ha, Hb in E.
  apply decimal_parse_form in Ha as (Da & Ea & _), Hb as (Db & Eb & _).
  destruct a as [na da ea], b as [nb db eb]. cbn [d_negative d_digits d_exp] in *.
  rewrite !app_assoc_string, !app_cons_string, !app_empty_string in E. injection E as E.
  assert (na = nb) as <- by (destruct na, nb; rewrite !app_cons_string in E; by injection E).
  assert (show_int ea +:+ ":" +:+ show_digits da +:+ x = show_int eb +:+ ":" +:+ show_digits db +:+ y) as E'.
  { destruct na; rewrite !app_cons_string, !app_empty_string in E; by injection E. }
  apply show_int_delim in E' as [-> E']; [|done..]. rewrite !app_cons_string, !app_empty_string in E'. apply char_inj in E' as [_ E'].
  by apply show_digits_delim in E' as [-> ->].
Qed.

Lemma text_delim s t x y : short s = true → short t = true →
  show_len s +:+ ":" +:+ s +:+ x = show_len t +:+ ":" +:+ t +:+ y → s = t ∧ x = y.
Proof.
  unfold short, show_len. intros Hs%Z.ltb_lt Ht%Z.ltb_lt E. apply show_dec_delim in E as [El E]; [|lia|lia|done|done].
  rewrite !app_cons_string, !app_empty_string in E. injection E as E. apply app_cancel_string in E; [done|lia].
Qed.

(** *** The key of a readable value *)

Definition member_code (p : string * string) : string := show_len p.1 +:+ ":" +:+ p.1 +:+ "=" +:+ p.2.

Definition keyed (depth : nat) (ms : list (string * Json)) : list (string * string) :=
  (λ m, (m.1, canonical_key m.2 depth)) <$> ms.

Lemma readable_depth v d : readable v d = true → (MAX_SCHEMA_DEPTH <? d)%nat = false.
Proof. destruct v; cbn [readable]; intros [H _]%andb_true_iff; by apply negb_true_iff. Qed.

Lemma key_array r items d : readable (JArray r items) d = true →
  canonical_key (JArray r items) d = "A[" +:+ join "," ((λ v, canonical_key v (S d)) <$> items) +:+ "]"
  ∧ Forall (λ v, readable v (S d) = true) items.
Proof.
  intros Hr. pose proof (readable_depth _ _ Hr) as Hd. cbn [canonical_key readable] in *. rewrite Hd in *.
  cbn [negb andb] in Hr. split; [done|]. apply Forall_forall. intros v Hv%list_elem_of_In. by apply (proj1 (forallb_forall _ _) Hr).
Qed.

Lemma key_object r ms d : readable (JObject r ms) d = true →
  canonical_key (JObject r ms) d = "O{" +:+ join "," (member_code <$> merge_sort ord_le (keyed (S d) ms)) +:+ "}"
  ∧ NoDup ms.*1 ∧ Forall (λ m, short m.1 = true ∧ readable m.2 (S d) = true) ms.
Proof.
  intros Hr. pose proof (readable_depth _ _ Hr) as Hd. cbn [canonical_key readable] in *. rewrite Hd in *.
  cbn [negb andb] in Hr. apply andb_true_iff in Hr as [Hnd%bool_decide_eq_true Hf]. split_and!; [done|done|].
  apply Forall_forall. intros m Hm%list_elem_of_In. apply andb_true_iff. by apply (proj1 (forallb_forall _ _) Hf).
Qed.

(** A value whose key ends by itself. *)
Definition delimited (v : Json) : Prop := ∀ w d x y, readable v d = true → readable w d = true →
  canonical_key v d +:+ x = canonical_key w d +:+ y → canonical_key v d = canonical_key w d ∧ x = y.

(** The first character of a key. *)
Definition key_head (v : Json) : ascii :=
  match v with
  | JNull => "N" | JBool _ => "B" | JInteger _ | JFloat _ => "D" | JString _ _ => "S"
  | JArray _ _ => "A" | JObject _ _ => "O"
  end%char.

Lemma key_starts v d : readable v d = true → ∃ s, canonical_key v d = String (key_head v) s.
Proof.
  intros Hr. pose proof (readable_depth _ _ Hr) as Hd. destruct v as [|b|raw|raw|r s|r items|r ms];
    cbn [canonical_key readable key_head] in *; rewrite Hd in *; cbn [negb andb] in Hr.
  - by eexists.
  - destruct b; by eexists.
  - unfold number_key. destruct (decimal_parse raw); [|done]. by eexists.
  - unfold number_key. destruct (decimal_parse raw); [|done]. by eexists.
  - by eexists.
  - by eexists.
  - by eexists.
Qed.

Lemma same_head v w d x y : readable v d = true → readable w d = true →
  canonical_key v d +:+ x = canonical_key w d +:+ y → key_head v = key_head w.
Proof.
  intros Hv Hw E. destruct (key_starts v d Hv) as [s Es], (key_starts w d Hw) as [t Et].
  rewrite Es, Et, !app_cons_string in E. by apply char_inj in E as [? _].
Qed.

Lemma array_delim items items' d x y : Forall delimited items →
  Forall (λ v, readable v (S d) = true) items → Forall (λ v, readable v (S d) = true) items' →
  join "," ((λ v, canonical_key v (S d)) <$> items) +:+ String "]" x
  = join "," ((λ v, canonical_key v (S d)) <$> items') +:+ String "]" y →
  (λ v, canonical_key v (S d)) <$> items = (λ v, canonical_key v (S d)) <$> items' ∧ x = y.
Proof.
  intros Hdel Hr Hr'. apply (join_delim (λ v, canonical_key v (S d))
    (λ v, delimited v ∧ readable v (S d) = true) (λ v, readable v (S d) = true) "," "]" ""); [done| | | |done].
  - intros v w a b [Hv Hrv] Hrw _ _ E. by eapply Hv.
  - intros v a b Hv E. assert (readable v (S d) = true) as Hrv by (by destruct Hv as [[_ ?]|?]).
    destruct (key_starts v (S d) Hrv) as [s Es]. rewrite Es, app_cons_string in E. apply char_inj in E as [E _].
    by destruct v.
  - by apply Forall_and.
Qed.

(** A keyed member that came from a readable one. *)
Definition from_member (R : Json → Prop) (d : nat) (p : string * string) : Prop :=
  ∃ name v, p = (name, canonical_key v d) ∧ short name = true ∧ readable v d = true ∧ R v.

Lemma member_code_inj p q d : from_member (λ _, True) d p → from_member (λ _, True) d q →
  member_code p = member_code q → p = q.
Proof.
  intros (n & v & -> & Hn & _ & _) (m & w & -> & Hm & _ & _). unfold member_code. cbn [fst snd]. intros E.
  apply text_delim in E as [-> E]; [|done..]. rewrite !app_cons_string, !app_empty_string in E.
  by apply char_inj in E as [_ ->].
Qed.

Lemma members_delim ps qs d x y : Forall (from_member delimited d) ps → Forall (from_member (λ _, True) d) qs →
  join "," (member_code <$> ps) +:+ String "}" x = join "," (member_code <$> qs) +:+ String "}" y →
  member_code <$> ps = member_code <$> qs ∧ x = y.
Proof.
  intros Hp Hq. apply (join_delim member_code (from_member delimited d) (from_member (λ _, True) d) "," "}" ""); [done| | |done|done].
  - intros p q a b (n & v & -> & Hn & Hv & Hdel) (m & w & -> & Hm & Hw & _) _ _ E. unfold member_code in *. cbn [fst snd] in *.
    rewrite !app_assoc_string in E. apply text_delim in E as [-> E]; [|done..].
    rewrite !app_cons_string, !app_empty_string in E. apply char_inj in E as [_ E].
    by destruct (Hdel w d a b Hv Hw E) as [-> ->].
  - intros p a b Hpq E. assert (∃ n v, p = (n, canonical_key v d)) as (n & v & ->).
    { destruct Hpq as [(n & v & -> & _)|(n & v & -> & _)]; eauto. }
    unfold member_code, show_len in E. cbn [fst] in E.
    destruct (show_dec_shape (Z.of_nat (String.length n))) as [Hne Hd]; [lia|].
    destruct (show_dec _) as [|c t]; [done|]. rewrite !app_cons_string in E. apply char_inj in E as [-> _]. done.
Qed.

Lemma keyed_from R d ms : Forall (λ m, short m.1 = true ∧ readable m.2 d = true) ms → Forall (λ m, R m.2) ms →
  Forall (from_member R d) (merge_sort ord_le (keyed d ms)).
Proof.
  intros Hs HR. rewrite merge_sort_Permutation. unfold keyed. apply Forall_fmap, Forall_forall. intros [n v] Hm.
  pose proof (proj1 (Forall_forall _ _) Hs _ Hm) as [? ?]. pose proof (proj1 (Forall_forall _ _) HR _ Hm).
  exists n, v. cbn in *. by split_and!.
Qed.

Lemma key_number v raw d : readable v d = true → as_number_str v = Some raw →
  canonical_key v d = number_key raw ∧ ∃ n, decimal_parse raw = Ok n.
Proof.
  intros Hr Hn. pose proof (readable_depth _ _ Hr) as Hd. destruct v; try done; injection Hn as ->;
    cbn [canonical_key readable] in *; rewrite Hd in *; cbn [negb andb] in Hr; (split; [done|]);
    (destruct (decimal_parse raw) as [n|]; [by exists n|done]).
Qed.

Lemma numbers_delim v w raw raw' d x y : as_number_str v = Some raw → as_number_str w = Some raw' →
  readable v d = true → readable w d = true → canonical_key v d +:+ x = canonical_key w d +:+ y →
  NumEq raw raw' ∧ canonical_key v d = canonical_key w d ∧ x = y.
Proof.
  intros Hn Hn' Hv Hw E. destruct (key_number _ _ _ Hv Hn) as (Ev & a & Ea), (key_number _ _ _ Hw Hn') as (Ew & b & Eb).
  rewrite Ev, Ew in *. destruct (number_key_delim _ _ _ _ _ _ Ea Eb E) as [<- ->].
  split_and!; [by eapply num_eq_key| |done]. unfold number_key. by rewrite Ea, Eb.
Qed.

Lemma key_string r s d : readable (JString r s) d = true →
  canonical_key (JString r s) d = "S" +:+ show_len s +:+ ":" +:+ s ∧ short s = true.
Proof.
  intros Hr. pose proof (readable_depth _ _ Hr) as Hd. cbn [canonical_key readable] in *. rewrite Hd in *. done.
Qed.

(** Drops the fixed head of two keys. *)
Ltac drop_head E := rewrite ?app_cons_string, ?app_empty_string in E; apply char_inj in E as [_ E].

Lemma key_delimited v : delimited v.
Proof.
  induction v as [|b|raw|raw|r s|r items IH|r ms IH] using Json_nested_ind; intros w d x y Hv Hw E;
    pose proof (same_head _ _ _ _ _ Hv Hw E) as Hh; destruct w as [|b'|raw'|raw'|r' s'|r' items'|r' ms']; try done;
    try (by eapply numbers_delim in E as (_ & -> & ->)).
  - pose proof (readable_depth _ _ Hv) as Hd. cbn [canonical_key] in *. rewrite Hd in *. by drop_head E.
  - pose proof (readable_depth _ _ Hv) as Hd. cbn [canonical_key] in *. rewrite Hd in *.
    destruct b, b'; drop_head E; apply char_inj in E as [? E]; done.
  - destruct (key_string _ _ _ Hv) as [Ev Hs], (key_string _ _ _ Hw) as [Ew Hs']. rewrite Ev, Ew in *.
    rewrite !app_assoc_string in E. drop_head E. by apply text_delim in E as [-> ->].
  - destruct (key_array _ _ _ Hv) as [Ev Hr], (key_array _ _ _ Hw) as [Ew Hr']. rewrite Ev, Ew in *.
    rewrite !app_assoc_string in E. drop_head E. drop_head E.
    by apply array_delim in E as [-> ->].
  - destruct (key_object _ _ _ Hv) as (Ev & _ & Hr), (key_object _ _ _ Hw) as (Ew & _ & Hr'). rewrite Ev, Ew in *.
    rewrite !app_assoc_string in E. drop_head E. drop_head E.
    apply (members_delim _ _ (S d)) in E as [-> ->]; [done|by apply keyed_from|].
    apply keyed_from; [done|]. by apply Forall_true.
Qed.

Lemma find_member ms name v : NoDup ms.*1 → (name, v) ∈ ms → member_of ms name = Some v.
Proof.
  unfold member_of. induction ms as [|[n w] ms IH]; [by intros _ ?%not_elem_of_nil|].
  rewrite fmap_cons, NoDup_cons. intros [Hni Hnd] [[= -> ->]|Hin]%elem_of_cons; cbn.
  - by rewrite String.eqb_refl.
  - destruct (String.eqb_spec n name) as [->|_]; [|by apply IH].
    destruct Hni. by apply (list_elem_of_fmap_2' fst ms (name, v)).
Qed.

Lemma keyed_perm d ms ms' :
  Forall (λ m, short m.1 = true ∧ readable m.2 d = true) ms →
  Forall (λ m, short m.1 = true ∧ readable m.2 d = true) ms' →
  member_code <$> merge_sort ord_le (keyed d ms) = member_code <$> merge_sort ord_le (keyed d ms') →
  keyed d ms ≡ₚ keyed d ms'.
Proof.
  intros Hs Hs' E. rewrite <- (merge_sort_Permutation ord_le (keyed d ms)), <- (merge_sort_Permutation ord_le (keyed d ms')).
  assert (merge_sort ord_le (keyed d ms) = merge_sort ord_le (keyed d ms')) as ->; [|done].
  pose proof (keyed_from (λ _, True) d ms Hs ltac:(by apply Forall_true)) as HF.
  pose proof (keyed_from (λ _, True) d ms' Hs' ltac:(by apply Forall_true)) as HF'.
  revert E HF HF'. generalize (merge_sort ord_le (keyed d ms)), (merge_sort ord_le (keyed d ms')). clear.
  intros l. induction l as [|p l IH]; intros [|q k] E HF HF'; try done.
  rewrite !fmap_cons in E. apply cons_inj in E as [Ep E]. apply Forall_cons in HF as [Hp HF], HF' as [Hq HF'].
  f_equal; [by eapply member_code_inj|by apply IH].
Qed.

(** Equal keys come from equal values. *)
Lemma key_sound v : ∀ w d, readable v d = true → readable w d = true →
  canonical_key v d = canonical_key w d → JEq v w.
Proof.
  induction v as [|b|raw|raw|r s|r items IH|r ms IH] using Json_nested_ind; intros w d Hv Hw E;
    assert (canonical_key _ d +:+ "" = canonical_key w d +:+ "") as E0 by (by rewrite E);
    pose proof (same_head _ _ _ _ _ Hv Hw E0) as Hh; destruct w as [|b'|raw'|raw'|r' s'|r' items'|r' ms']; try done;
    try (eapply numbers_delim in E0 as (HN & _); [by eapply EqNumber|done..]).
  - constructor.
  - pose proof (readable_depth _ _ Hv) as Hd. cbn [canonical_key] in *. rewrite Hd in *. destruct b, b'; try done; constructor.
  - destruct (key_string _ _ _ Hv) as [Ev Hs], (key_string _ _ _ Hw) as [Ew Hs']. rewrite Ev, Ew in E0.
    rewrite !app_assoc_string in E0. drop_head E0. apply text_delim in E0 as [-> _]; [constructor|done..].
  - destruct (key_array _ _ _ Hv) as [Ev Hr], (key_array _ _ _ Hw) as [Ew Hr']. rewrite Ev, Ew in E. constructor.
    drop_head E. drop_head E.
    apply array_delim in E as [E _]; [|apply Forall_forall; intros ? _; apply key_delimited|done|done].
    clear -IH E Hr Hr'. revert items' E Hr'. induction IH as [|v items Hv _ IH]; intros [|w items'] E Hr'; try done.
    rewrite !fmap_cons in E. apply cons_inj in E as [Ek E]. apply Forall_cons in Hr as [Hv' Hr], Hr' as [Hw' Hr'].
    constructor; [by eapply Hv|by apply IH].
  - destruct (key_object _ _ _ Hv) as (Ev & Hnd & Hr), (key_object _ _ _ Hw) as (Ew & Hnd' & Hr'). rewrite Ev, Ew in E.
    drop_head E. drop_head E. apply (members_delim _ _ (S d)) in E as [E _].
    2:{ apply keyed_from; [done|]. apply Forall_forall. intros ? _. apply key_delimited. }
    2:{ apply keyed_from; [done|by apply Forall_true]. }
    apply keyed_perm in E; [|done..]. constructor.
    + apply Permutation_length in E. unfold keyed in E. by rewrite !length_fmap in E.
    + intros name v Hin. assert ((name, canonical_key v (S d)) ∈ keyed (S d) ms') as Hk.
      { rewrite <- E. by apply (list_elem_of_fmap_2 (λ m, (m.1, canonical_key m.2 (S d))) ms (name, v)). }
      apply list_elem_of_fmap in Hk as ([n w] & [= -> Ek] & Hin'). exists w. split; [by apply find_member|].
      apply (proj1 (Forall_forall _ _) IH (n, v) Hin w (S d)); [|by apply (proj1 (Forall_forall _ _) Hr' (n, w))|done].
      by apply (proj1 (Forall_forall _ _) Hr (n, v)).
Qed.

Lemma member_of_in ms name v : member_of ms name = Some v → (name, v) ∈ ms.
Proof.
  unfold member_of. destruct (List.find _ ms) as [[n w]|] eqn:E; [|done]. intros [= ->].
  apply List.find_some in E as [Hin Hk%String.eqb_eq]. cbn in Hk. subst. by apply list_elem_of_In.
Qed.

Lemma sort_perm d ms ms' : keyed d ms ≡ₚ keyed d ms' →
  merge_sort ord_le (keyed d ms) = merge_sort ord_le (keyed d ms').
Proof.
  intros HP. apply (Sorted_unique ord_le); [apply Sorted_merge_sort, _..|]. by rewrite !merge_sort_Permutation.
Qed.

Lemma keyed_nodup d ms : NoDup ms.*1 → NoDup (keyed d ms).
Proof.
  intros Hnd. apply (NoDup_fmap_1 fst). unfold keyed. by rewrite <- list_fmap_compose.
Qed.

(** Equal values have equal keys. *)
Lemma key_complete v : ∀ w d, readable v d = true → readable w d = true → JEq v w →
  canonical_key v d = canonical_key w d.
Proof.
  induction v as [|b|raw|raw|r s|r items IH|r ms IH] using Json_nested_ind; intros w d Hv Hw HE;
    inversion HE as [|?|? ? a b' Ha Hb HN|r1 r2 s1|r1 r2 xs ys HF|r1 r2 xs ys Hl Hm]; subst; try done.
  - destruct (key_number _ _ _ Hv Ha) as (-> & m & Em), (key_number _ _ _ Hw Hb) as (-> & n & En).
    apply (num_eq_key _ _ _ _ Em En) in HN as <-. unfold number_key. by rewrite Em, En.
  - destruct (key_number _ _ _ Hv Ha) as (-> & m & Em), (key_number _ _ _ Hw Hb) as (-> & n & En).
    apply (num_eq_key _ _ _ _ Em En) in HN as <-. unfold number_key. by rewrite Em, En.
  - by rewrite (proj1 (key_string _ _ _ Hv)), (proj1 (key_string _ _ _ Hw)).
  - destruct (key_array _ _ _ Hv) as [-> Hr], (key_array _ _ _ Hw) as [-> Hr'].
    assert ((λ v, canonical_key v (S d)) <$> items = (λ v, canonical_key v (S d)) <$> ys) as ->; [|done].
    clear -IH HF Hr Hr'. induction HF as [|v w items ys Hvw HF IHF]; [done|]. rewrite !fmap_cons.
    apply Forall_cons in IH as [Hv IH], Hr as [Hrv Hr], Hr' as [Hrw Hr']. f_equal; [by apply Hv|by apply IHF].
  - destruct (key_object _ _ _ Hv) as (-> & Hnd & Hr), (key_object _ _ _ Hw) as (-> & Hnd' & Hr').
    rewrite (sort_perm (S d) ms ys); [done|].
    apply submseteq_length_Permutation; [|unfold keyed; rewrite !length_fmap; lia].
    apply NoDup_submseteq; [by apply keyed_nodup|].
    intros p ([n v] & -> & Hin)%list_elem_of_fmap. cbn [fst snd].
    destruct (Hm n v Hin) as (y & Hy%member_of_in & HJ).
    assert (canonical_key v (S d) = canonical_key y (S d)) as ->.
    { apply (proj1 (Forall_forall _ _) IH (n, v) Hin);
      [by apply (proj1 (Forall_forall _ _) Hr (n, v))|by apply (proj1 (Forall_forall _ _) Hr' (n, y))|done]. }
    by apply (list_elem_of_fmap_2 (λ m, (m.1, canonical_key m.2 (S d))) ys (n, y)).
Qed.

Lemma same_item_key v w : same_item v w ↔ canonical_key v 0 = canonical_key w 0.
Proof.
  unfold same_item. destruct (readable v 0) eqn:Hv, (readable w 0) eqn:Hw; cbn [andb]; try done.
  split; [by apply key_complete|by apply key_sound].
Qed.

Lemma distinct_items_keys elems : distinct_items elems ↔ NoDup ((λ e, canonical_key e 0) <$> elems).
Proof.
  rewrite NoDup_alt. unfold distinct_items. setoid_rewrite same_item_key. setoid_rewrite list_lookup_fmap. split.
  - intros H i j k Hi Hj. destruct (elems !! i) as [v|] eqn:Ei, (elems !! j) as [w|] eqn:Ej; try done.
    apply (H i j v w); [done..|]. cbn in *. congruence.
  - intros H i j v w Hi Hj Ek. apply (H i j (canonical_key v 0)); [by rewrite Hi|rewrite Hj; cbn; by rewrite Ek].
Qed.

(** ** Leaf keywords *)

Lemma has_type_iff v name : has_type v name = true ↔ TypeOf v name.
Proof.
  unfold has_type. destruct (String.eqb_spec name "number") as [->|Hne].
  - unfold is_number. rewrite bool_decide_eq_true. split.
    + intros [r Hr]. by econstructor.
    + inversion 1; by eauto.
  - destruct v; cbn [kind_name]; rewrite String.eqb_eq;
      (split; [intros <-; solve [done|constructor]|inversion 1; by simplify_eq/=]).
Qed.

Section leaves.
Context `{SchemaLib} (root : Json).

Lemma yields_number v : yields (number_of v) (λ s, as_number_str v = Some s).
Proof. unfold number_of. case_match; [by apply yields_ret|apply yields_fatal]. Qed.

Lemma yields_string v : yields (string_of v) (λ s, to_unquoted_string_str v = Some s).
Proof. unfold string_of. case_match; [by apply yields_ret|apply yields_fatal]. Qed.

Lemma yields_array v : yields (array_of v) (λ l, to_array v = Some l).
Proof. unfold array_of. case_match; [by apply yields_ret|apply yields_fatal]. Qed.

Lemma yields_usize kw v : yields (usize_of kw v) (λ n, ∃ raw, v = JInteger raw ∧ parse_u64 raw = Some n).
Proof.
  unfold usize_of. destruct v as [| |raw| | | |]; try apply yields_fatal.
  destruct (parse_u64 raw) eqn:E; [apply yields_ret; eauto|apply yields_fatal].
Qed.

Lemma decides_counted kw v f R reason : (∀ n, f n = false ↔ R n) →
  decides (n ⇐ usize_of kw v; mismatch_if (f n) (reason n)) (counted R v).
Proof.
  intros Hf. eapply decides_bind; [apply yields_usize|]. intros n (raw & -> & Hn).
  apply decides_test. rewrite Hf. unfold counted. split; [|eauto].
  intros HR raw' n' [= <-] Hn'. congruence.
Qed.

Lemma decides_type value t path : decides (check_type_keyword value t path) (type_holds value t).
Proof.
  destruct t as [| | | |r name|r ts|]; try apply decides_fatal; cbn [check_type_keyword type_holds].
  - eapply decides_bind; [apply yields_result|]. intros ok Hok. apply decides_test.
    unfold type_matches in Hok. case_match; [|done]. injection Hok as <-.
    by rewrite negb_false_iff, has_type_iff.
  - unfold check_type_union. eapply (decides_bind _ _ (λ names, ∀ n, n ∈ names ↔
      ∃ t, t ∈ ts ∧ to_unquoted_string_str t = Some n)).
    + induction ts as [|t ts IH]; cbn [type_names].
      { apply yields_ret. set_solver. }
      destruct (to_unquoted_string_str t) as [name|] eqn:Et; [|apply yields_fatal].
      eapply yields_bind; [exact IH|]. intros names Hn. apply yields_ret. intros n.
      cbv beta in Hn. rewrite elem_of_cons, (Hn n). setoid_rewrite elem_of_cons. split.
      * intros [->|(x & Hx & Ex)]; eauto.
      * intros (x & [->|Hx] & Ex); [left; congruence|eauto].
    + intros names Hn. destruct names as [|n0 ns] eqn:En; [apply decides_fatal|]. rewrite <- En in *.
      destruct (List.find _ names); [apply decides_fatal|]. apply decides_test.
      rewrite negb_false_iff, List.existsb_exists. split.
      * intros (n & Hin%list_elem_of_In & HT%has_type_iff). apply Hn in Hin as (t & Ht & Et). eauto.
      * intros (t & n & Ht & Et & HT%has_type_iff). exists n. split; [|done].
        apply list_elem_of_In, Hn. eauto.
Qed.

Lemma decides_enum value e path : decides (check_enum value e path) (enum_holds value e).
Proof.
  unfold check_enum, enum_holds. destruct (to_array e) as [items|]; [|apply decides_fatal].
  apply decides_test. rewrite negb_false_iff, List.existsb_exists. split.
  - intros (item & Hin%list_elem_of_In & HE%json_values_equal_iff) ? [= <-]. eauto.
  - intros HE. destruct (HE items eq_refl) as (item & Hin%list_elem_of_In & HE'%json_values_equal_iff). eauto.
Qed.

Lemma decides_const value c path : decides (check_const value c path) (JEq value c).
Proof. apply decides_test. by rewrite negb_false_iff, json_values_equal_iff. Qed.

Lemma decides_bound num path what bad R bound : (∀ c, bad c = false ↔ R c) →
  decides (check_bound num path what bad bound) (bounded_by R num bound).
Proof.
  intros Hbad. unfold check_bound. eapply decides_bind; [apply yields_number|]. intros b Hb.
  eapply decides_bind; [apply yields_result|]. intros c (v & w & Hv & Hw & ->)%compare_value.
  apply decides_test. rewrite Hbad. unfold bounded_by. split.
  - intros HR b' Hb'. assert (b' = b) as -> by congruence. eauto.
  - intros HR. destruct (HR b Hb) as (v' & w' & Hv' & Hw' & HR'). congruence.
Qed.

Lemma decides_numeric value schema path :
  decides (check_numeric_constraints value schema path) (number_holds value schema).
Proof.
  unfold check_numeric_constraints, number_holds. destruct (as_number_str value) as [num|]; [|by apply decides_ret].
  repeat apply decides_seq; apply decides_keyword; intros v.
  - apply decides_bound. by intros [].
  - apply decides_bound. by intros [].
  - apply decides_bound. by intros [].
  - apply decides_bound. by intros [].
  - eapply decides_bind; [apply yields_number|]. intros d Hd.
    eapply decides_bind; [apply yields_result|]. intros ok (x & w & Hx & Hw & Hpos & Hok)%is_multiple_value.
    apply decides_test. rewrite negb_false_iff, Hok. unfold multiple_of. split.
    + intros Hm d' Hd'. assert (d' = d) as -> by congruence. eauto 10.
    + intros Hm. destruct (Hm d Hd) as (x' & w' & Hx' & Hw' & _ & Hm'). congruence.
Qed.

Lemma decides_string value schema path :
  decides (check_string_constraints value schema path) (string_holds value schema).
Proof.
  unfold check_string_constraints, string_holds.
  destruct (to_unquoted_string_str value) as [s|]; [|by apply decides_ret].
  repeat apply decides_seq; apply decides_keyword; intros v.
  - apply (decides_counted _ _ (λ n, char_count s <? n)). intros n. rewrite Z.ltb_ge. lia.
  - apply (decides_counted _ _ (λ n, n <? char_count s)). intros n. rewrite Z.ltb_ge. lia.
  - eapply decides_bind; [apply yields_string|]. intros pat Hp.
    destruct (regex_new pat) as [u|]; [|apply decides_fatal]. apply decides_test.
    rewrite negb_false_iff. split; [|auto]. intros Hm pat' Hp'. congruence.
Qed.
End leaves.

(** ** Structure *)

Lemma Count_unique {A} (P : A → Prop) l m n : Count P l m → Count P l n → m = n.
Proof.
  intros Hm. revert n. induction Hm; intros k Hk; inversion Hk; subst; try done; f_equal; auto.
Qed.

Lemma Count_zero {A} (P : A → Prop) l n : Count P l n → Exists P l ↔ n ≠ 0%nat.
Proof.
  induction 1 as [|x l n Hx _ IH|x l n Hx _ IH].
  - rewrite Exists_nil. done.
  - rewrite Exists_cons. split; [done|auto].
  - rewrite Exists_cons. tauto.
Qed.

Section structure.
Context `{SchemaLib} (root : Json) (V : Json → Json → string → nat → M unit) (C : Json → Json → Prop).
Context (depth : nat) (HV : ∀ v s p, decides (V v s p (S depth)) (C v s)).

Lemma yields_charge ms path : yields (charge_members ms path) (λ _, True).
Proof.
  induction ms as [|m ms IH]; cbn; [by apply yields_ret|].
  eapply yields_bind; [apply yields_spend_node|]. by intros _ _.
Qed.

Lemma decides_required reqs entries path :
  decides (check_required reqs entries path)
    (∀ req name, req ∈ reqs → to_unquoted_string_str req = Some name → ∃ v, (name, v) ∈ entries).
Proof.
  induction reqs as [|req reqs IH]; cbn [check_required]; [apply decides_ret; set_solver|].
  eapply decides_bind; [apply yields_string|]. intros name Hn.
  eapply decides_iff.
  { apply decides_seq; [|exact IH]. apply (decides_test _ _ (∃ v, (name, v) ∈ entries)).
    rewrite negb_false_iff, List.existsb_exists. split.
    - intros ([k v] & Hin%list_elem_of_In & Hk%String.eqb_eq). cbn in Hk. subst k. eauto.
    - intros (v & Hin%list_elem_of_In). exists (name, v). split; [done|apply String.eqb_refl]. }
  split.
  - intros [Hv Hrest] r n [->|Hin]%elem_of_cons Hr; [|by eapply Hrest]. assert (n = name) as -> by congruence. done.
  - intros Hall. split; [|set_solver]. apply (Hall req); [set_solver|done].
Qed.

Lemma decides_members schema path entries mode :
  (match member_opt schema "additionalProperties" with
   | None => mode = (true, None)
   | Some (JBool b) => mode = (b, None)
   | Some v => mode = (true, Some v)
   end) →
  decides (check_members V (member_opt schema "properties") mode.1 mode.2 path depth entries)
    (∀ key val, (key, val) ∈ entries → member_holds C schema key val).
Proof.
  intros Hmode. induction entries as [|[key val] entries IH]; cbn [check_members];
    [apply decides_ret; set_solver|].
  eapply decides_iff.
  { apply decides_seq; [|exact IH]. apply (decides_iff _ (member_holds C schema key val)); [|done].
    unfold check_member, member_holds.
    destruct (member_opt schema "properties" ≫= _) as [ps|]; [apply HV|].
    destruct (member_opt schema "additionalProperties") as [[|b| | | | |]|]; subst mode; cbn [fst snd negb];
      try apply HV; [|by apply decides_ret].
    destruct b; cbn [negb]; [by apply decides_ret|by apply decides_mismatch]. }
  split.
  - intros [Hm Hrest] k v [[= -> ->]|Hin]%elem_of_cons; auto.
  - intros Hall. split; [apply Hall; set_solver|]. intros k v Hin. apply Hall. set_solver.
Qed.

Lemma decides_object value schema path :
  decides (match to_object value with
           | Some entries => validate_object V entries schema path depth
           | None => mret ()
           end) (object_holds C value schema).
Proof.
  unfold object_holds. destruct (to_object value) as [entries|]; [|by apply decides_ret].
  unfold validate_object. eapply decides_bind; [apply yields_charge|]. intros _ _. apply decides_seq.
  - apply decides_keyword. intros r. eapply decides_bind; [apply yields_array|]. intros reqs Hr.
    eapply decides_iff; [apply decides_required|]. unfold required_holds. split.
    + intros Hq reqs' req name Hr' Hin Hn. assert (reqs' = reqs) as -> by congruence. by eapply Hq.
    + intros Hq req name Hin Hn. exact (Hq reqs req name Hr Hin Hn).
  - eapply (decides_bind _ _ (λ mode,
      match member_opt schema "additionalProperties" with
      | None => mode = (true, None)
      | Some (JBool b) => mode = (b, None)
      | Some v => mode = (true, Some v)
      end)).
    + unfold additional_mode. destruct (member_opt schema "additionalProperties") as [[|b| | | | |]|];
        cbn; try apply yields_fatal; by apply yields_ret.
    + intros mode Hmode. pose proof (decides_members schema path entries mode Hmode) as Hd.
      destruct (member_opt schema "properties") as [props|]; [|done].
      destruct (negb (is_object props)); [apply decides_fatal|done].
Qed.

(** The elements after those whose keys are in [seen]. *)
Lemma decides_items items path elems : ∀ seen i,
  decides (check_items V items seen path depth i elems)
    ((∀ s, items = Some s → Forall (λ e, C e s) elems)
     ∧ (∀ set, seen = Some set → NoDup ((λ e, canonical_key e 0) <$> elems)
          ∧ ∀ e, e ∈ elems → canonical_key e 0 ∉ set)).
Proof.
  induction elems as [|e elems IH]; intros seen i; cbn [check_items].
  { apply decides_ret. split; [constructor|]. intros. split; [constructor|set_solver]. }
  eapply decides_bind; [apply yields_spend_node|]. intros _ _.
  eapply decides_iff.
  { apply decides_seq.
    - apply (decides_iff _ (∀ s, items = Some s → C e s)); [|done]. destruct items as [s|].
      + eapply decides_iff; [apply HV|]. split; [by intros ? ? [= <-]|auto].
      + by apply decides_ret.
    - apply (decides_iff _ ((∀ s, items = Some s → Forall (λ e, C e s) elems)
        ∧ (∀ set, seen = Some set → canonical_key e 0 ∉ set
             ∧ canonical_key e 0 ∉ ((λ e, canonical_key e 0) <$> elems)
             ∧ NoDup ((λ e, canonical_key e 0) <$> elems)
             ∧ ∀ x, x ∈ elems → canonical_key x 0 ∉ set))); [|done].
      destruct seen as [set|].
      + destruct (decide (canonical_key e 0 ∈ set)) as [Hin|Hout].
        * rewrite bool_decide_eq_true_2 by done. apply decides_mismatch. intros [_ Hs].
          by destruct (Hs set eq_refl).
        * rewrite bool_decide_eq_false_2 by done. eapply decides_iff; [apply IH|].
          split; (intros [HF HS]; split; [done|]; intros ? [= <-]).
          -- destruct (HS _ eq_refl) as [Hnd Hall]. split_and!; [done| |done|set_solver].
             intros (x & Ex & Hx)%list_elem_of_fmap. apply (Hall x Hx). rewrite <- Ex. set_solver.
          -- destruct (HS _ eq_refl) as (_ & Hne & Hnd & Hall). split; [done|]. intros x Hx.
             rewrite elem_of_union, elem_of_singleton. intros [Ex|Hin]; [|by apply (Hall x Hx)].
             apply Hne, list_elem_of_fmap. by exists x.
      + eapply decides_iff; [apply IH|]. split; (intros [HF _]; split; [done|]; intros ? [=]). }
  split.
  - intros (He & HF & HS). split; [intros s Hs; constructor; auto|]. intros set Hset.
    destruct (HS set Hset) as (Hnin & Hne & Hnd & Hall). split; [by constructor|]. set_solver.
  - intros [HF HS]. split; [intros s Hs; specialize (HF s Hs); by apply Forall_cons_1 in HF as [? _]|].
    split; [intros s Hs; specialize (HF s Hs); by apply Forall_cons_1 in HF as [_ ?]|].
    intros set Hset. destruct (HS set Hset) as [Hnd Hall]. apply NoDup_cons in Hnd as [Hne Hnd].
    split_and!; [apply Hall; set_solver|done|done|]. intros x Hx. apply Hall. set_solver.
Qed.

Lemma decides_array value schema path :
  decides (match to_array value with
           | Some elems => validate_array V elems schema path depth
           | None => mret ()
           end) (array_holds C value schema).
Proof.
  unfold array_holds. destruct (to_array value) as [elems|]; [|by apply decides_ret].
  unfold validate_array. eapply (decides_bind _ _ (λ _, True)).
  { case_match; [case_match|]; first [by apply yields_ret|apply yields_fatal]. }
  intros _ _. eapply (decides_bind _ _ (λ unique, unique = true ↔
    member_opt schema "uniqueItems" = Some (JBool true))).
  { unfold unique_mode. destruct (member_opt schema "uniqueItems") as [[|b| | | | |]|];
      try apply yields_fatal; apply yields_ret; [destruct b|]; (split; congruence). }
  intros unique Hu. apply decides_seq; [|apply decides_seq].
  - eapply decides_iff; [apply decides_items|]. unfold keyword. split.
    + intros [HF HS]. split; [done|]. intros u Hk ->. rewrite <- Hu in Hk. subst unique.
      apply distinct_items_keys. exact (proj1 (HS ∅ eq_refl)).
    + intros [HF HS]. split; [done|]. intros set Hset. destruct unique; [|done]. injection Hset as <-.
      split; [|set_solver]. apply distinct_items_keys. by apply (HS (JBool true)); [apply Hu|].
  - apply decides_keyword. intros v. apply (decides_counted _ _ (λ n, Z.of_nat (length elems) <? n)).
    intros n. rewrite Z.ltb_ge. lia.
  - apply decides_keyword. intros v. apply (decides_counted _ _ (λ n, n <? Z.of_nat (length elems))).
    intros n. rewrite Z.ltb_ge. lia.
Qed.

(** ** Combinators *)

Lemma yields_branches v name path : yields (combinator_branches v name path) (λ bs, to_array v = Some bs).
Proof.
  unfold combinator_branches. destruct (to_array v) as [[|b bs]|]; [apply yields_fatal| |apply yields_fatal].
  by apply yields_ret.
Qed.

Lemma decides_all_of value branches path :
  decides (check_all_of V value branches path depth) (Forall (C value) branches).
Proof.
  induction branches as [|b bs IH]; cbn [check_all_of]; [by apply decides_ret|].
  eapply decides_bind; [apply yields_spend_branch|]. intros _ _.
  eapply decides_iff; [apply decides_seq; [apply HV|exact IH]|]. by rewrite Forall_cons.
Qed.

Lemma yields_attempt m P : decides m P → yields (attempt m) (λ o, o = None ↔ P).
Proof.
  intros Hm ev. specialize (Hm ev). unfold attempt. destruct (m ev) as [ev' [u|[e|e]]]; cbn in *;
    [done|split; [done|tauto]|done].
Qed.

Lemma yields_branch_count value branches path : ∀ matched first_err,
  yields (try_branches V value branches path depth matched first_err)
    (λ r, ∃ n, Count (C value) branches n ∧ r.1 = (matched + n)%nat).
Proof.
  induction branches as [|b bs IH]; intros matched err; cbn [try_branches].
  { apply yields_ret. exists 0%nat. split; [constructor|]. cbn. lia. }
  eapply yields_bind; [apply yields_spend_branch|]. intros _ _.
  eapply yields_bind; [apply yields_attempt, HV|]. intros [e|] Ho; cbv beta in Ho.
  - eapply yields_mono; [apply IH|]. intros r (n & Hn & E). exists n. split; [|done].
    constructor; [|done]. intros Hc. by apply Ho in Hc.
  - eapply yields_mono; [apply IH|]. intros r (n & Hn & E). exists (S n). split; [|lia].
    constructor; [by apply Ho|done].
Qed.

Lemma decides_any_of value v path :
  decides (check_any_of V value v path depth) (branches_hold (Exists (C value)) v).
Proof.
  unfold check_any_of. eapply decides_bind; [apply yields_branches|]. intros bs Hbs. cbv beta in Hbs.
  eapply decides_bind; [apply yields_branch_count|]. intros r (n & Hn & Er). apply decides_test.
  rewrite Nat.eqb_neq, Er. unfold branches_hold. rewrite <- (Count_zero _ _ _ Hn). split.
  - intros HE ? Hb. congruence.
  - intros HE. by apply HE.
Qed.

Lemma decides_one_of value v path :
  decides (check_one_of V value v path depth) (branches_hold (λ bs, Count (C value) bs 1) v).
Proof.
  unfold check_one_of. eapply decides_bind; [apply yields_branches|]. intros bs Hbs. cbv beta in Hbs.
  eapply decides_bind; [apply yields_branch_count|]. intros r (n & Hn & Er). apply decides_test.
  rewrite negb_false_iff, Nat.eqb_eq, Er. cbn [Nat.add]. unfold branches_hold. split.
  - intros -> ? Hb. congruence.
  - intros HC. by apply (Count_unique _ _ _ _ Hn), HC.
Qed.

Lemma decides_ref value r path : decides (check_ref root V value r path depth) (ref_holds root C value r).
Proof.
  unfold check_ref. eapply decides_bind; [apply yields_string|]. intros target Ht. cbv beta in Ht.
  eapply decides_bind; [apply yields_result|]. intros resolved Hr. cbv beta in Hr.
  eapply decides_bind; [apply yields_spend_branch|]. intros _ _.
  eapply decides_iff; [apply HV|]. unfold ref_holds. split; [|eauto].
  intros HC target' resolved' Ht' Hr'. congruence.
Qed.

Lemma decides_keywords value schema path :
  decides (validate_keywords root V value schema path depth) (satisfies root C value schema).
Proof.
  unfold validate_keywords, satisfies. eapply decides_bind; [apply yields_result|]. intros _ _.
  repeat apply decides_seq; try (apply decides_keyword; intros v).
  - apply decides_ref.
  - apply decides_type.
  - apply decides_enum.
  - apply decides_const.
  - apply decides_numeric.
  - apply decides_string.
  - apply decides_object.
  - apply decides_array.
  - eapply decides_bind; [apply yields_branches|]. intros bs Hbs. cbv beta in Hbs.
    eapply decides_iff; [apply decides_all_of|]. unfold branches_hold. split.
    + intros HF ? Hb. congruence.
    + intros HF. by apply HF.
  - apply decides_any_of.
  - apply decides_one_of.
Qed.
End structure.

Section total.
Context `{SchemaLib} (root : Json).

(** With less fuel than levels every answer is the answer at those levels. *)
Lemma validate_decides fuel : ∀ n value schema path depth, (fuel ≤ n)%nat →
  decides (validate_value root fuel value schema path depth) (conforms root n value schema).
Proof.
  induction fuel as [|f IH]; intros n value schema path depth Hn; [apply decides_fatal|].
  destruct n as [|n]; [lia|]. cbn [validate_value]. unfold validate_step.
  eapply decides_bind; [apply yields_spend_node|]. intros _ _.
  destruct (MAX_SCHEMA_DEPTH <? depth)%nat; [apply decides_fatal|].
  destruct schema as [|b| | | | |r ms]; try apply decides_fatal.
  - destruct b; [by apply decides_ret|by apply decides_mismatch].
  - apply decides_keywords. intros v s p. apply IH. lia.
Qed.
End total.

(** ** Fuel and budgets *)

Definition funded (ev : EvalState) : Prop := 0 ≤ branch_budget ev ∧ 0 ≤ node_budget ev.

(** What was spent was there. *)
Definition spent_from (ev ev' : EvalState) : Prop :=
  funded ev' ∧ branch_budget ev' ≤ branch_budget ev ∧ node_budget ev' ≤ node_budget ev.

(** The two runs are the same and stay within the budgets. *)
Definition agree {A} (m1 m2 : M A) : Prop := ∀ ev,
  m1 ev = m2 ev ∧ (funded ev → spent_from ev (m1 ev).1).

Section agreement.
Lemma agree_pure {A} (m : M A) : (∀ ev, (m ev).1 = ev) → agree m m.
Proof. intros Hm ev. split; [done|]. rewrite Hm. intros Hf. unfold spent_from. split; [done|lia]. Qed.

Lemma agree_ret {A} (a : A) : agree (mret a) (mret a).
Proof. by apply agree_pure. Qed.

Lemma agree_fail {A} e : agree (mfail e : M A) (mfail e).
Proof. by apply agree_pure. Qed.

Lemma agree_fatal {A} (r : result A string) : agree (fatal r) (fatal r).
Proof. destruct r; [apply agree_ret|apply agree_fail]. Qed.

Lemma agree_test b reason : agree (mismatch_if b reason) (mismatch_if b reason).
Proof. destruct b; [apply agree_fail|apply agree_ret]. Qed.

Lemma agree_bind {A B} (m1 m2 : M A) (k1 k2 : A → M B) : agree m1 m2 → (∀ a, agree (k1 a) (k2 a)) →
  agree (mbind_ev m1 k1) (mbind_ev m2 k2).
Proof.
  intros Hm Hk ev. destruct (Hm ev) as [E Hs]. unfold mbind_ev. rewrite <- E.
  destruct (m1 ev) as [ev' [a|e]]; cbn [fst] in *; [|done].
  destruct (Hk a ev') as [E' Hs']. split; [done|]. intros Hf. destruct (Hs Hf) as (Hf' & H1 & H2).
  destruct (Hs' Hf') as (Hf2 & H3 & H4). unfold spent_from. split; [done|lia].
Qed.

Lemma agree_node path : agree (spend_node path) (spend_node path).
Proof.
  intros ev. split; [done|]. unfold spend_node, spent_from, funded.
  destruct (Z.eqb_spec (node_budget ev) 0); cbn; lia.
Qed.

Lemma agree_branch path : agree (spend_branch path) (spend_branch path).
Proof.
  intros ev. split; [done|]. unfold spend_branch, spent_from, funded.
  destruct (Z.eqb_spec (branch_budget ev) 0); cbn; lia.
Qed.

Lemma agree_attempt m1 m2 : agree m1 m2 → agree (attempt m1) (attempt m2).
Proof.
  intros Hm ev. destruct (Hm ev) as [E Hs]. unfold attempt. rewrite <- E.
  destruct (m1 ev) as [ev' [u|[e|e]]]; done.
Qed.

Lemma agree_keyword schema name k1 k2 : (∀ v, agree (k1 v) (k2 v)) →
  agree (on_keyword schema name k1) (on_keyword schema name k2).
Proof. intros Hk. unfold on_keyword. case_match; [apply Hk|apply agree_ret]. Qed.

Lemma agree_sym {A} (m1 m2 : M A) : agree m1 m2 → ∀ ev, m1 ev = m2 ev.
Proof. intros Hm ev. apply Hm. Qed.
End agreement.

(** One step through a computation of the evaluator. *)
Ltac agreeing :=
  repeat first
    [ progress intros
    | apply agree_ret | apply agree_fail | apply agree_fatal | apply agree_test
    | apply agree_node | apply agree_branch | apply agree_keyword | apply agree_bind
    | apply agree_attempt
    | case_match ].

Section fuel.
Context `{SchemaLib} (root : Json).

Lemma agree_type_names path ts : agree (type_names path ts) (type_names path ts).
Proof. induction ts as [|t ts IH]; cbn; agreeing; exact IH. Qed.

Lemma agree_type value t path : agree (check_type_keyword value t path) (check_type_keyword value t path).
Proof.
  unfold check_type_keyword, check_type, check_type_union.
  case_match; agreeing; apply agree_type_names.
Qed.

Lemma agree_leaves value schema path :
  agree (check_numeric_constraints value schema path) (check_numeric_constraints value schema path)
  ∧ agree (check_string_constraints value schema path) (check_string_constraints value schema path).
Proof.
  split; [unfold check_numeric_constraints, check_bound, number_of
         |unfold check_string_constraints, usize_of, string_of]; agreeing.
Qed.

Context (V1 V2 : Json → Json → string → nat → M unit) (depth : nat).
Context (HV : ∀ v s p, agree (V1 v s p (S depth)) (V2 v s p (S depth))).

Lemma agree_required reqs entries path :
  agree (check_required reqs entries path) (check_required reqs entries path).
Proof. induction reqs as [|r rs IH]; cbn; [agreeing|]. unfold string_of. agreeing. exact IH. Qed.

Lemma agree_charge ms path : agree (charge_members ms path) (charge_members ms path).
Proof. induction ms as [|m ms IH]; cbn; agreeing. exact IH. Qed.

Lemma agree_members props allowed schema path ms :
  agree (check_members V1 props allowed schema path depth ms) (check_members V2 props allowed schema path depth ms).
Proof.
  induction ms as [|[key val] ms IH]; cbn; [agreeing|]. apply agree_bind; [|intros _; exact IH].
  unfold check_member. repeat case_match; first [apply HV|agreeing].
Qed.

Lemma agree_object entries schema path :
  agree (validate_object V1 entries schema path depth) (validate_object V2 entries schema path depth).
Proof.
  unfold validate_object. apply agree_bind; [apply agree_charge|]. intros _.
  apply agree_bind; [unfold array_of; agreeing; apply agree_required|]. intros _.
  apply agree_bind; [unfold additional_mode; agreeing|]. intros mode.
  repeat case_match; first [apply agree_members|agreeing].
Qed.

Lemma agree_items items path elems : ∀ seen i,
  agree (check_items V1 items seen path depth i elems) (check_items V2 items seen path depth i elems).
Proof.
  induction elems as [|e elems IH]; intros seen i; cbn [check_items]; [agreeing|].
  apply agree_bind; [apply agree_node|]. intros _.
  apply agree_bind; [case_match; [apply HV|agreeing]|]. intros _.
  repeat case_match; first [apply IH|agreeing].
Qed.

Lemma agree_array elems schema path :
  agree (validate_array V1 elems schema path depth) (validate_array V2 elems schema path depth).
Proof.
  unfold validate_array. apply agree_bind; [agreeing|]. intros _.
  apply agree_bind; [unfold unique_mode; agreeing|]. intros u.
  apply agree_bind; [apply agree_items|]. intros _. unfold usize_of. agreeing.
Qed.

Lemma agree_all_of value bs path :
  agree (check_all_of V1 value bs path depth) (check_all_of V2 value bs path depth).
Proof.
  induction bs as [|b bs IH]; cbn; [agreeing|]. apply agree_bind; [apply agree_branch|]. intros _.
  apply agree_bind; [apply HV|]. intros _. exact IH.
Qed.

Lemma agree_branches value bs path : ∀ n err,
  agree (try_branches V1 value bs path depth n err) (try_branches V2 value bs path depth n err).
Proof.
  induction bs as [|b bs IH]; intros n err; cbn [try_branches]; [agreeing|].
  apply agree_bind; [apply agree_branch|]. intros _.
  apply agree_bind; [apply agree_attempt, HV|]. intros o. case_match; apply IH.
Qed.

Lemma agree_step value schema path :
  agree (validate_step root V1 value schema path depth) (validate_step root V2 value schema path depth).
Proof.
  unfold validate_step. apply agree_bind; [apply agree_node|]. intros _.
  case_match; [agreeing|]. case_match; try solve [agreeing]. unfold validate_keywords.
  apply agree_bind; [apply agree_fatal|]. intros _.
  apply agree_bind; [apply agree_keyword; intros v; unfold check_ref, string_of; agreeing; apply HV|]. intros _.
  apply agree_bind; [apply agree_keyword; intros v; apply agree_type|]. intros _.
  apply agree_bind; [unfold check_enum; agreeing|]. intros _.
  apply agree_bind; [unfold check_const; agreeing|]. intros _.
  apply agree_bind; [apply agree_leaves|]. intros _.
  apply agree_bind; [apply agree_leaves|]. intros _.
  apply agree_bind; [case_match; [apply agree_object|agreeing]|]. intros _.
  apply agree_bind; [case_match; [apply agree_array|agreeing]|]. intros _.
  apply agree_bind; [apply agree_keyword; intros v; unfold combinator_branches; agreeing; apply agree_all_of|].
  intros _. unfold check_any_of, check_one_of, combinator_branches. agreeing; apply agree_branches.
Qed.
End fuel.

Section enough.
Context `{SchemaLib} (root : Json).

Lemma validate_agree f1 : ∀ f2 value schema path depth, (depth ≤ S MAX_SCHEMA_DEPTH)%nat →
  (VALIDATE_FUEL ≤ f1 + depth)%nat → (VALIDATE_FUEL ≤ f2 + depth)%nat →
  agree (validate_value root f1 value schema path depth) (validate_value root f2 value schema path depth).
Proof.
  unfold VALIDATE_FUEL.
  induction f1 as [|f1 IH]; intros f2 value schema path depth Hd H1 H2; [lia|].
  destruct f2 as [|f2]; [lia|]. cbn [validate_value].
  destruct (decide (depth = S MAX_SCHEMA_DEPTH)) as [->|Hne].
  - unfold validate_step. rewrite (proj2 (Nat.ltb_lt _ _)) by lia. agreeing.
  - apply agree_step. intros v s p. apply IH; lia.
Qed.
End enough.

(** [C32] The evaluator decides the schema: whatever the arguments, the schema
    and the budgets, an accepted value conforms to the schema and a mismatch
    means that it does not, at every depth from the evaluator's own limit on
    to which subschemas and references may be followed; only a fatal error
    (malformed schema, unresolvable reference, exhausted budget or depth)
    leaves it open. *)
Theorem schema_evaluation_decides `{SchemaLib} root value schema path ev n :
  (VALIDATE_FUEL ≤ n)%nat →
  match (validate_value root VALIDATE_FUEL value schema path 0 ev).2 with
  | Ok _ => conforms root n value schema
  | Err (Mismatch _) => ¬ conforms root n value schema
  | Err (Fatal _) => True
  end.
Proof. intros Hn. by apply validate_decides. Qed.

(** [C34] The evaluation terminates within its own limits: the outcome is the
    same with any fuel from 66 on, so it is never cut short by the recursion
    bound of the definition, however the references of the schema loop, and
    it ends with both budgets between zero and what they were. *)
Theorem schema_evaluation_terminates `{SchemaLib} root value schema path ev fuel :
  (VALIDATE_FUEL ≤ fuel)%nat → funded ev →
  validate_value root fuel value schema path 0 ev
    = validate_value root VALIDATE_FUEL value schema path 0 ev
  ∧ spent_from ev (validate_value root VALIDATE_FUEL value schema path 0 ev).1.
Proof.
  intros Hf Hev. destruct (validate_agree root fuel VALIDATE_FUEL value schema path 0) with (ev := ev)
    as [E Hs]; [lia|lia|lia|]. rewrite <- E. auto.
Qed.
