(* ===== verification/SchemaScan.v ===== *)
(** * SchemaScan: the load-time scan of a schema

    [unsupported_schema_findings] of [src/src/schema_spec.rs]: what the
    evaluator could not enforce, found when the policy is loaded.  The scan
    follows references and remembers the pointers it has been to; it recurses
    through them, bounded by the depth limit, so it takes fuel. *)

From S2P Require Import Prelude Text Percent IpAddr Json RpcId SchemaDecimal SchemaEval.

Open Scope Z_scope.

Record ScanState := mkScan { sn_findings : list string; sn_visited : gset string }.

Definition MAX_FINDINGS : nat := 16.

Definition push_finding (msg : string) (st : ScanState) : ScanState :=
  if (length (sn_findings st) <? MAX_FINDINGS)%nat
  then mkScan (sn_findings st ++ [msg]) (sn_visited st) else st.

Definition finding_if (b : bool) (msg : string) (st : ScanState) : ScanState :=
  if b then push_finding msg st else st.

(** [name.replace('~', "~0").replace('/', "~1")]. *)
Fixpoint ptr_escape (name : string) : string :=
  match name with
  | EmptyString => EmptyString
  | String c rest =>
      if Ascii.eqb c "~" then String "~" (String "0" (ptr_escape rest))
      else if Ascii.eqb c "/" then String "~" (String "1" (ptr_escape rest))
      else String c (ptr_escape rest)
  end.

(** Positive, read off the text. *)
Definition is_positive_number_str (s : string) : bool :=
  let s := trim s in
  if starts_with "-" s then false
  else str_any (λ c, is_ascii_digit c && negb (Ascii.eqb c "0")) s.

Definition is_string (v : Json) : bool := if v is JString _ _ then true else false.
Definition is_boolean (v : Json) : bool := if v is JBool _ then true else false.
Definition is_array (v : Json) : bool := if v is JArray _ _ then true else false.

Definition strings_of (vs : list Json) : list string := omap to_unquoted_string_str vs.

Section scan.
Context `{SchemaLib} (root : Json).

Definition located (ptr msg : string) : string := ptr +:+ ": " +:+ msg.

(** The names of a [type] keyword, with the findings on its shape. *)
Definition type_shape (v : Json) (ptr : string) (st : ScanState) : list string * ScanState :=
  match v with
  | JString _ name => ([name], st)
  | JArray _ elems =>
      let st := finding_if (bool_decide (elems = [])) (located ptr "'type' array must not be empty") st in
      (strings_of elems,
       foldl (λ st t, finding_if (negb (is_string t))
                        (located ptr "'type' array elements must be strings") st) st elems)
  | _ => ([], push_finding (located ptr "'type' must be a string or an array of type names") st)
  end.

Definition unknown_type (ptr : string) (st : ScanState) (name : string) : ScanState :=
  finding_if (negb (existsb (String.eqb name) VALID_TYPES))
    (located ptr ("unknown schema type '" +:+ name +:+ "'")) st.

Definition nonnegative_count (v : Json) : bool :=
  match v with
  | JInteger raw => match parse_i64 raw with Ok n => 0 <=? n | Err _ => false end
  | _ => false
  end.

Section step.
Context (scan : Json → string → nat → ScanState → ScanState).

Definition ref_shape (v : Json) (ptr : string) (depth : nat) (st : ScanState) : ScanState :=
  match to_unquoted_string_str v with
  | None => push_finding (located ptr "'$ref' must be a string") st
  | Some target =>
      match resolve_local_ref root target with
      | Err e => push_finding (located ptr e) st
      | Ok node => scan node target (S depth) st
      end
  end.

Definition pattern_shape (v : Json) (ptr : string) (st : ScanState) : ScanState :=
  match to_unquoted_string_str v with
  | None => push_finding (located ptr "'pattern' must be a string") st
  | Some p =>
      match regex_new p with
      | Err e => push_finding (located ptr ("invalid regex pattern '" +:+ p +:+ "': " +:+ e)) st
      | Ok _ => st
      end
  end.

Definition items_shape (v : Json) (ptr : string) (st : ScanState) : ScanState :=
  if is_array v
  then push_finding (located ptr "array-form 'items' (tuple validation) is not supported") st
  else finding_if (negb (is_object v || is_boolean v)) (located ptr "'items' must be a schema") st.

(** Whether [key] is one of the names. *)
Definition one_of_keys (names : list string) (key : string) : bool := existsb (String.eqb key) names.

Definition check_keyword_shape (key : string) (v : Json) (ptr : string) (depth : nat) (st : ScanState)
  : ScanState :=
  let quoted msg := located ptr ("'" +:+ key +:+ "' " +:+ msg) in
  if String.eqb key "type" then
    let '(names, st) := type_shape v ptr st in foldl (unknown_type ptr) st names
  else if one_of_keys ["enum"; "examples"]%string key then
    finding_if (negb (is_array v)) (quoted "must be an array") st
  else if String.eqb key "required" then
    finding_if (negb match to_array v with Some ts => forallb is_string ts | None => false end)
      (quoted "must be an array of strings") st
  else if one_of_keys ["minimum"; "maximum"; "exclusiveMinimum"; "exclusiveMaximum"]%string key then
    finding_if (negb (is_number v)) (quoted "must be a number") st
  else if String.eqb key "multipleOf" then
    finding_if (negb (is_some_and (as_number_str v) is_positive_number_str))
      (quoted "must be a number greater than 0") st
  else if one_of_keys ["minLength"; "maxLength"; "minItems"; "maxItems"]%string key then
    finding_if (negb (nonnegative_count v)) (quoted "must be a non-negative integer") st
  else if String.eqb key "uniqueItems" then
    finding_if (negb (is_boolean v)) (quoted "must be a boolean") st
  else if String.eqb key "pattern" then pattern_shape v ptr st
  else if one_of_keys ["format"; "title"; "description"; "$comment"; "$schema"; "$id"]%string key then
    finding_if (negb (is_string v)) (quoted "must be a string") st
  else if one_of_keys ["properties"; "$defs"; "definitions"]%string key then
    finding_if (negb (is_object v)) (quoted "must be an object") st
  else if String.eqb key "additionalProperties" then
    finding_if (negb (is_boolean v || is_object v)) (quoted "must be a boolean or an object") st
  else if String.eqb key "items" then items_shape v ptr st
  else if one_of_keys ["anyOf"; "oneOf"; "allOf"]%string key then
    finding_if (negb match to_array v with Some (_ :: _) => true | _ => false end)
      (quoted "must be a non-empty array of schemas") st
  else if String.eqb key "$ref" then ref_shape v ptr depth st
  else st.

Definition check_keyword (ptr : string) (depth : nat) (st : ScanState) (m : string * Json) : ScanState :=
  let '(key, v) := m in
  if negb (supported key)
  then push_finding (located ptr ("unsupported schema keyword '" +:+ key +:+ "'")) st
  else check_keyword_shape key v ptr depth st.

(** The members of an object keyword as subschemas. *)
Definition scan_members (schema : Json) (name ptr : string) (depth : nat) (st : ScanState) : ScanState :=
  match member_opt schema name ≫= to_object with
  | Some ms => foldl (λ st m, scan m.2 (ptr +:+ "/" +:+ name +:+ "/" +:+ ptr_escape m.1) (S depth) st) st ms
  | None => st
  end.

(** A keyword that holds one subschema, when its kind is [ok]. *)
Definition scan_single (ok : Json → bool) (schema : Json) (name ptr : string) (depth : nat)
    (st : ScanState) : ScanState :=
  match member_opt schema name with
  | Some v => if ok v then scan v (ptr +:+ "/" +:+ name) (S depth) st else st
  | None => st
  end.

Definition branch_ptr (ptr name : string) (i : nat) : string :=
  ptr +:+ "/" +:+ name +:+ "/" +:+ show_dec (Z.of_nat i).

Fixpoint scan_elements (ptr name : string) (depth i : nat) (subs : list Json) (st : ScanState)
  : ScanState :=
  match subs with
  | [] => st
  | sub :: rest =>
      scan_elements ptr name depth (S i) rest (scan sub (branch_ptr ptr name i) (S depth) st)
  end.

Definition scan_branches (schema : Json) (ptr : string) (depth : nat) (st : ScanState) (name : string)
  : ScanState :=
  match member_opt schema name ≫= to_array with
  | Some subs => scan_elements ptr name depth 0 subs st
  | None => st
  end.

(** The subschemas of an object schema, in the order of the source. *)
Definition scan_positions (schema : Json) (ptr : string) (depth : nat) (st : ScanState) : ScanState :=
  let st := scan_members schema "properties" ptr depth st in
  let st := scan_single (λ v, is_object v || is_boolean v) schema "items" ptr depth st in
  let st := scan_single is_object schema "additionalProperties" ptr depth st in
  let st := foldl (scan_branches schema ptr depth) st ["anyOf"; "oneOf"; "allOf"]%string in
  let st := scan_members schema "$defs" ptr depth st in
  scan_members schema "definitions" ptr depth st.

Definition scan_step (schema : Json) (ptr : string) (depth : nat) (st : ScanState) : ScanState :=
  if (MAX_FINDINGS <=? length (sn_findings st))%nat || bool_decide (ptr ∈ sn_visited st) then st
  else
    let st := mkScan (sn_findings st) ({[ptr]} ∪ sn_visited st) in
    if (MAX_SCHEMA_DEPTH <? depth)%nat
    then push_finding (located ptr ("schema exceeds depth limit "
                                      +:+ show_dec (Z.of_nat MAX_SCHEMA_DEPTH))) st
    else
      match schema with
      | JBool _ => st
      | JObject _ ms =>
          scan_positions schema ptr depth (foldl (check_keyword ptr depth) st ms)
      | _ => push_finding (located ptr "schema must be a boolean or an object") st
      end.
End step.

(** The knot; a call at depth 65 does not recurse. *)
Fixpoint scan_schema (fuel : nat) : Json → string → nat → ScanState → ScanState :=
  match fuel with
  | O => λ _ ptr _, push_finding (located ptr "out of fuel")
  | S f => scan_step (scan_schema f)
  end.
End scan.

Definition SCAN_FUEL : nat := S (S MAX_SCHEMA_DEPTH).

Definition unsupported_schema_findings `{SchemaLib} (schema_str : string) : list string :=
  match parse_json schema_str with
  | Err e => ["invalid args_schema JSON: " +:+ e]%string
  | Ok schema => sn_findings (scan_schema schema SCAN_FUEL schema "#" 0 (mkScan [] ∅))
  end.
