(* ===== verification/ScanTheorems.v ===== *)
(** * ScanTheorems: a schema the scan accepts can be evaluated

    The scan of [SchemaScan] promises that a schema without findings never
    fails a call for what the scan looks for.  The scanned nodes form a set
    closed under the positions the evaluator goes to, and on such a set the
    evaluator fails fatally only for its budgets, its depth limit or numbers
    outside its arithmetic.  Three spellings escape the scan; they are excluded
    here and shown as examples. *)

From S2P Require Import Prelude Text Percent IpAddr Json RpcId PathText PathTheorems PolicyCidr HostMatch SchemaDecimal.
From S2P Require Import TargetsTheorems SchemaEval SchemaTheorems SchemaScan.

Open Scope Z_scope.

(** ** Failures that no scan can foresee *)

Inductive excused : string → Prop :=
  | ExBudget what limit path : excused (limit_reason what limit path)
  | ExDepth path : excused (at_path (or_schema path)
      ("schema evaluation exceeds depth limit " +:+ show_dec (Z.of_nat MAX_SCHEMA_DEPTH)))
  | ExNumber s e : decimal_parse s = Err e → excused e
  | ExDivisor s e : decimal_parse s = Err e → excused ("invalid multipleOf '" +:+ s +:+ "': " +:+ e)
  | ExSpan : excused SPAN_OVERFLOW
  | ExCells cost : MAX_MULTIPLE_OF_COST < cost →
      excused ("multipleOf operands exceed evaluation bound (" +:+ show_dec cost +:+ " digit cells > "
                 +:+ show_dec MAX_MULTIPLE_OF_COST +:+ ")").

(** A divisor the evaluator does not refuse for its sign. *)
Definition divisor_ok (s : string) : Prop :=
  ∀ d, decimal_parse s = Ok d → d_negative d = false ∧ is_zero d = false.

Definition faultless {A} (m : M A) : Prop := ∀ ev,
  match (m ev).2 with
  | Err (Fatal e) => excused e
  | _ => True
  end.

Section rules.
Lemma fl_ret {A} (a : A) : faultless (mret a).
Proof. by intros ev. Qed.

Lemma fl_test b reason : faultless (mismatch_if b reason).
Proof. by destruct b; intros ev. Qed.

Lemma fl_mismatch {A} m : faultless (mfail (Mismatch m) : M A).
Proof. by intros ev. Qed.

Lemma fl_bind {A B} (m : M A) (k : A → M B) : faultless m → (∀ a, faultless (k a)) →
  faultless (mbind_ev m k).
Proof.
  intros Hm Hk ev. specialize (Hm ev). unfold mbind_ev. destruct (m ev) as [ev' [a|e]]; [apply Hk|done].
Qed.

Lemma fl_ret_bind {A B} (a : A) (k : A → M B) : faultless (k a) → faultless (mbind_ev (mret a) k).
Proof. intros Hk ev. apply Hk. Qed.

Lemma fl_node path : faultless (spend_node path).
Proof. intros ev. unfold spend_node. destruct (node_budget ev =? 0); [apply ExBudget|done]. Qed.

Lemma fl_branch path : faultless (spend_branch path).
Proof. intros ev. unfold spend_branch. destruct (branch_budget ev =? 0); [apply ExBudget|done]. Qed.

Lemma fl_ok {A} (r : result A string) a : r = Ok a → faultless (fatal r).
Proof. intros -> ev. done. Qed.

Lemma fl_compare a b : faultless (fatal (compare_numeric_strings a b)).
Proof.
  intros ev. unfold fatal, compare_numeric_strings.
  destruct (decimal_parse a) eqn:Ea; cbn; [|by eapply ExNumber].
  destruct (decimal_parse b) eqn:Eb; cbn; [done|by eapply ExNumber].
Qed.

Lemma overflow_excused o e : or_overflow o = Err e → excused e.
Proof. destruct o; [done|]. intros [= <-]. apply ExSpan. Qed.

Lemma cells_excused dv dd e : multiple_cells dv dd = Err e → excused e.
Proof.
  unfold multiple_cells. intros H.
  repeat match type of H with
  | result_bind ?o _ = _ => destruct o eqn:?; [cbn [result_bind] in H|injection H as <-; by eapply overflow_excused]
  end.
  case_match eqn:E; [|done]. injection H as <-. apply ExCells. by apply Z.ltb_lt.
Qed.

Lemma fl_multiple a b : divisor_ok b → faultless (fatal (is_multiple_of a b)).
Proof.
  intros Hb ev. unfold fatal, is_multiple_of.
  destruct (decimal_parse a) as [dv|] eqn:Ea; cbn [result_bind]; [|cbn; by eapply ExNumber].
  destruct (decimal_parse b) as [dd|] eqn:Eb; cbn [result_bind]; [|cbn; by apply ExDivisor].
  destruct (Hb dd Eb) as [-> ->]. cbn [orb]. destruct (is_zero dv); [done|].
  destruct (multiple_cells dv dd) eqn:E; [done|]. cbn. by eapply cells_excused.
Qed.

Lemma fl_attempt m : faultless m → faultless (attempt m).
Proof.
  intros Hm ev. specialize (Hm ev). unfold attempt. destruct (m ev) as [ev' [u|[e|e]]]; done.
Qed.
End rules.

(** ** What the evaluator asks of a keyword *)

Definition valid_type (name : string) : Prop := existsb (String.eqb name) VALID_TYPES = true.

Definition type_ok (v : Json) : Prop :=
  match v with
  | JString _ name => valid_type name
  | JArray _ ts => ts ≠ [] ∧ ∀ t, t ∈ ts → ∃ r name, t = JString r name ∧ valid_type name
  | _ => False
  end.

Definition count_ok (v : Json) : Prop := ∃ raw n, v = JInteger raw ∧ parse_u64 raw = Some n.

Section keywords.
Context `{SchemaLib}.

Record keyword_ok (root : Json) (key : string) (v : Json) : Prop := {
  ko_supported : supported key = true;
  ko_type : key = "type" → type_ok v;
  ko_enum : key = "enum" → is_Some (to_array v);
  ko_required : key = "required" → ∃ ts, to_array v = Some ts ∧ ∀ t, t ∈ ts → is_Some (to_unquoted_string_str t);
  ko_number : key ∈ ["minimum"; "maximum"; "exclusiveMinimum"; "exclusiveMaximum"]%string →
    is_Some (as_number_str v);
  ko_multiple : key = "multipleOf" → ∃ s, as_number_str v = Some s ∧ divisor_ok s;
  ko_count : key ∈ ["minLength"; "maxLength"; "minItems"; "maxItems"]%string → count_ok v;
  ko_unique : key = "uniqueItems" → ∃ b, v = JBool b;
  ko_pattern : key = "pattern" → ∃ p, to_unquoted_string_str v = Some p ∧ regex_new p = Ok ();
  ko_object : key = "properties" → is_object v = true;
  ko_additional : key = "additionalProperties" → (∃ b, v = JBool b) ∨ is_object v = true;
  ko_items : key = "items" → to_array v = None;
  ko_branches : key ∈ ["anyOf"; "oneOf"; "allOf"]%string → ∃ b bs, to_array v = Some (b :: bs);
  ko_ref : key = "$ref" → ∃ target node, to_unquoted_string_str v = Some target
    ∧ resolve_local_ref root target = Ok node
}.

(** The nodes the evaluator goes to from a schema. *)
Inductive successor (root schema : Json) : Json → Prop :=
  | SuccProperty props key sub : member_opt schema "properties" = Some props →
      member_opt props key = Some sub → successor root schema sub
  | SuccAdditional sub : member_opt schema "additionalProperties" = Some sub →
      is_object sub = true → successor root schema sub
  | SuccItems sub : member_opt schema "items" = Some sub → successor root schema sub
  | SuccBranch name v bs sub : name ∈ ["anyOf"; "oneOf"; "allOf"]%string →
      member_opt schema name = Some v → to_array v = Some bs → sub ∈ bs → successor root schema sub
  | SuccRef v target sub : member_opt schema "$ref" = Some v → to_unquoted_string_str v = Some target →
      resolve_local_ref root target = Ok sub → successor root schema sub.

Definition well_shaped (root schema : Json) : Prop :=
  match schema with
  | JBool _ => True
  | JObject _ ms => ∀ key v, (key, v) ∈ ms → keyword_ok root key v
  | _ => False
  end.

(** A set of nodes closed under what the evaluator does. *)
Definition closed (root : Json) (N : Json → Prop) : Prop := ∀ schema, N schema →
  well_shaped root schema ∧ ∀ sub, successor root schema sub → N sub.
End keywords.

Section evaluate.
Context `{SchemaLib} (root : Json).

Lemma fl_keyword schema name k :
  (∀ v, member_opt schema name = Some v → faultless (k v)) → faultless (on_keyword schema name k).
Proof. intros Hk. unfold on_keyword. destruct (member_opt schema name); [by apply Hk|apply fl_ret]. Qed.

Lemma shaped_keyword schema name v : well_shaped root schema → member_opt schema name = Some v →
  keyword_ok root name v.
Proof. intros Hs (raw & ms & -> & Hin)%member_inv. by apply Hs. Qed.

Lemma fl_type value t path : type_ok t → faultless (check_type_keyword value t path).
Proof.
  destruct t as [| | | |r name|r ts|]; try done; cbn [type_ok check_type_keyword].
  - intros Hv. unfold check_type. apply fl_bind; [|intros; apply fl_test].
    unfold type_matches. rewrite Hv. by eapply fl_ok.
  - intros [Hne Hts]. unfold check_type_union.
    assert (∀ us, (∀ t, t ∈ us → ∃ r name, t = JString r name ∧ valid_type name) →
      yields (type_names path us) (λ ns, (us ≠ [] → ns ≠ []) ∧ ∀ n, n ∈ ns → valid_type n)
      ∧ faultless (type_names path us)) as Hn.
    { induction us as [|t us IH]; intros Hus; cbn [type_names].
      { split; [apply yields_ret; split; [done|set_solver]|apply fl_ret]. }
      destruct (Hus t) as (r' & name & -> & Hv); [set_solver|]. cbn [to_unquoted_string_str].
      destruct IH as [IHy IHf]; [set_solver|]. split.
      - eapply yields_bind; [exact IHy|]. intros ns [_ Hns]. apply yields_ret. split; [done|].
        intros n [->|Hin]%elem_of_cons; auto.
      - apply fl_bind; [exact IHf|]. intros; apply fl_ret. }
    destruct (Hn ts Hts) as [Hy Hf]. intros ev. specialize (Hy ev). specialize (Hf ev).
    unfold mbind_ev. destruct (type_names path ts ev) as [ev' [ns|e]]; cbn in *; [|done].
    destruct Hy as [Hnn Hval]. destruct ns as [|n ns]; [by destruct Hnn|].
    destruct (List.find _ (n :: ns)) as [bad|] eqn:E; [|by apply fl_test].
    apply List.find_some in E as [Hin%list_elem_of_In Hb]. cbv beta in Hb.
    specialize (Hval bad Hin). unfold valid_type in Hval. cbn in Hval. by rewrite Hval in Hb.
Qed.

Lemma fl_number v : is_Some (as_number_str v) → ∃ s, number_of v = mret s.
Proof. intros [s Hs]. exists s. unfold number_of. by rewrite Hs. Qed.

Lemma fl_count kw v : count_ok v → ∃ n, usize_of kw v = mret n.
Proof. intros (raw & n & -> & Hn). exists n. cbn. by rewrite Hn. Qed.

(** A count keyword. *)
Lemma fl_counted kw v f reason : count_ok v →
  faultless (n ⇐ usize_of kw v; mismatch_if (f n) (reason n)).
Proof. intros (n & ->)%(fl_count kw). apply fl_ret_bind, fl_test. Qed.

Lemma fl_numeric value schema path : well_shaped root schema →
  faultless (check_numeric_constraints value schema path).
Proof.
  intros Hs. unfold check_numeric_constraints. destruct (as_number_str value) as [num|]; [|apply fl_ret].
  assert (∀ name what bad, name ∈ ["minimum"; "maximum"; "exclusiveMinimum"; "exclusiveMaximum"]%string →
    faultless (on_keyword schema name (check_bound num path what bad))) as Hb.
  { intros name what bad Hin. apply fl_keyword. intros v Hv.
    destruct (fl_number v) as [s Es]; [by eapply ko_number; [by eapply shaped_keyword|]|].
    unfold check_bound. rewrite Es. apply fl_ret_bind, fl_bind; [apply fl_compare|]. intros; apply fl_test. }
  do 4 (apply fl_bind; [apply Hb; set_solver|intros _]).
  apply fl_keyword. intros v Hv.
  destruct (ko_multiple root "multipleOf" v) as (s & Hn & Hd); [by eapply shaped_keyword|done|].
  unfold number_of. rewrite Hn. apply fl_ret_bind, fl_bind; [by apply fl_multiple|]. intros; apply fl_test.
Qed.

Lemma fl_string value schema path : well_shaped root schema →
  faultless (check_string_constraints value schema path).
Proof.
  intros Hs. unfold check_string_constraints.
  destruct (to_unquoted_string_str value) as [s|]; [|apply fl_ret].
  apply fl_bind; [|intros _; apply fl_bind; [|intros _]]; apply fl_keyword; intros v Hv;
    apply (shaped_keyword schema) in Hv; try done.
  - apply (fl_counted _ _ (λ n, char_count s <? n)). eapply ko_count; [done|set_solver].
  - apply (fl_counted _ _ (λ n, n <? char_count s)). eapply ko_count; [done|set_solver].
  - destruct (ko_pattern _ _ _ Hv eq_refl) as (p & Hp & Hr). unfold string_of. rewrite Hp.
    apply fl_ret_bind. rewrite Hr. apply fl_test.
Qed.

Section recursion.
Context (N : Json → Prop) (HN : closed root N).
Context (V : Json → Json → string → nat → M unit) (depth : nat).
Context (HV : ∀ v s p, N s → faultless (V v s p (S depth))).

Lemma fl_required reqs entries path : (∀ t, t ∈ reqs → is_Some (to_unquoted_string_str t)) →
  faultless (check_required reqs entries path).
Proof.
  induction reqs as [|r rs IH]; intros Hr; cbn; [apply fl_ret|].
  destruct (Hr r) as [name Hn]; [set_solver|]. unfold string_of. rewrite Hn.
  apply fl_ret_bind, fl_bind; [apply fl_test|]. intros _. apply IH. set_solver.
Qed.

Lemma fl_charge ms path : faultless (charge_members ms path).
Proof. induction ms as [|m ms IH]; cbn; [apply fl_ret|]. apply fl_bind; [apply fl_node|]. by intros _. Qed.

Lemma fl_object entries schema path : N schema → faultless (validate_object V entries schema path depth).
Proof.
  intros Hn. destruct (HN schema Hn) as [Hs Hsucc]. unfold validate_object.
  apply fl_bind; [apply fl_charge|]. intros _. apply fl_bind.
  { apply fl_keyword. intros r Hr. apply (shaped_keyword schema) in Hr; [|done].
    destruct (ko_required _ _ _ Hr eq_refl) as (ts & Ht & Hall). unfold array_of. rewrite Ht.
    by apply fl_ret_bind, fl_required. }
  intros _.
  assert (∃ mode, additional_mode path (member_opt schema "additionalProperties") = mret mode
    ∧ ∀ s, mode.2 = Some s → N s) as (mode & -> & Hmode).
  { destruct (member_opt schema "additionalProperties") as [v|] eqn:Ea; [|by exists (true, None)].
    destruct (ko_additional _ _ _ (shaped_keyword schema _ v Hs Ea) eq_refl) as [[b ->]|Ho].
    - by exists (b, None).
    - exists (true, Some v). split.
      + unfold additional_mode. rewrite Ho. by destruct v.
      + intros s [= <-]. apply Hsucc. by eapply SuccAdditional. }
  apply fl_ret_bind.
  assert (∀ ms, faultless (check_members V (member_opt schema "properties") mode.1 mode.2 path depth ms)) as Hm.
  { induction ms as [|[key val] ms IH]; cbn [check_members]; [apply fl_ret|].
    apply fl_bind; [|by intros _]. unfold check_member.
    destruct (member_opt schema "properties") as [props|] eqn:Ep; cbn [mbind option_bind].
    - destruct (member_opt props key) as [sub|] eqn:Ek; [apply HV, Hsucc; by eapply SuccProperty|].
      destruct (negb mode.1); [apply fl_mismatch|]. destruct mode.2 eqn:E; [by apply HV, Hmode|apply fl_ret].
    - destruct (negb mode.1); [apply fl_mismatch|]. destruct mode.2 eqn:E; [by apply HV, Hmode|apply fl_ret]. }
  specialize (Hm entries). destruct (member_opt schema "properties") as [props|] eqn:Ep; [|done].
  rewrite (ko_object _ _ _ (shaped_keyword schema _ props Hs Ep) eq_refl). done.
Qed.

Lemma fl_items items path elems : (∀ s, items = Some s → N s) → ∀ seen i,
  faultless (check_items V items seen path depth i elems).
Proof.
  intros Hi. induction elems as [|e elems IH]; intros seen i; cbn [check_items]; [apply fl_ret|].
  apply fl_bind; [apply fl_node|]. intros _. apply fl_bind.
  { destruct items as [s|]; [by apply HV, Hi|apply fl_ret]. }
  intros _. destruct seen; [|apply IH]. case_match; [apply fl_mismatch|apply IH].
Qed.

Lemma fl_array elems schema path : N schema → faultless (validate_array V elems schema path depth).
Proof.
  intros Hn. destruct (HN schema Hn) as [Hs Hsucc]. unfold validate_array. apply fl_bind.
  { destruct (member_opt schema "items") as [v|] eqn:Ei; [|apply fl_ret].
    pose proof (ko_items _ _ _ (shaped_keyword schema _ v Hs Ei) eq_refl). destruct v; try apply fl_ret. done. }
  intros _. apply fl_bind.
  { unfold unique_mode. destruct (member_opt schema "uniqueItems") as [v|] eqn:Eu; [|apply fl_ret].
    destruct (ko_unique _ _ _ (shaped_keyword schema _ v Hs Eu) eq_refl) as [b ->]. apply fl_ret. }
  intros u. apply fl_bind.
  { apply fl_items. intros s Hi. by apply Hsucc, SuccItems. }
  intros _. apply fl_bind; [|intros _]; apply fl_keyword; intros v Hv;
    apply (shaped_keyword schema) in Hv; try done.
  - apply (fl_counted _ _ (λ n, Z.of_nat (length elems) <? n)). eapply ko_count; [done|set_solver].
  - apply (fl_counted _ _ (λ n, n <? Z.of_nat (length elems))). eapply ko_count; [done|set_solver].
Qed.

Lemma fl_all_of value bs path : (∀ b, b ∈ bs → N b) → faultless (check_all_of V value bs path depth).
Proof.
  induction bs as [|b bs IH]; intros Hb; cbn; [apply fl_ret|]. apply fl_bind; [apply fl_branch|]. intros _.
  apply fl_bind; [apply HV, Hb; set_solver|]. intros _. apply IH. set_solver.
Qed.

Lemma fl_branches value bs path : (∀ b, b ∈ bs → N b) → ∀ n err,
  faultless (try_branches V value bs path depth n err).
Proof.
  induction bs as [|b bs IH]; intros Hb n err; cbn [try_branches]; [apply fl_ret|].
  apply fl_bind; [apply fl_branch|]. intros _.
  apply fl_bind; [apply fl_attempt, HV, Hb; set_solver|]. intros []; apply IH; set_solver.
Qed.

(** A combinator keyword: its branches are read and are nodes of the set. *)
Lemma fl_combinator schema name path k : N schema → name ∈ ["anyOf"; "oneOf"; "allOf"]%string →
  (∀ bs, (∀ b, b ∈ bs → N b) → faultless (k bs)) →
  faultless (on_keyword schema name (λ v, bs ⇐ combinator_branches v name path; k bs)).
Proof.
  intros Hn Hin Hk. destruct (HN schema Hn) as [Hs Hsucc]. apply fl_keyword. intros v Hv.
  destruct (ko_branches _ _ _ (shaped_keyword schema _ v Hs Hv) Hin) as (b & bs & Hb).
  unfold combinator_branches. rewrite Hb. apply fl_ret_bind, Hk. intros x Hx.
  apply Hsucc. by eapply SuccBranch.
Qed.

Lemma fl_keywords value schema path : N schema → faultless (validate_keywords root V value schema path depth).
Proof.
  intros Hn. destruct (HN schema Hn) as [Hs Hsucc]. unfold validate_keywords. apply fl_bind.
  { unfold check_unsupported_keywords. destruct schema as [| | | | | |r ms]; try by eapply fl_ok.
    cbn [to_object]. destruct (List.find _ ms) as [[key v]|] eqn:E; [|by eapply fl_ok].
    apply List.find_some in E as [Hin%list_elem_of_In Hb].
    pose proof (ko_supported _ _ _ (Hs key v Hin)) as Hk. cbn [fst] in Hb. by rewrite Hk in Hb. }
  intros _. apply fl_bind.
  { apply fl_keyword. intros v Hv.
    destruct (ko_ref _ _ _ (shaped_keyword schema _ v Hs Hv) eq_refl) as (target & node & Ht & Hr).
    unfold check_ref, string_of. rewrite Ht. apply fl_ret_bind. rewrite Hr. apply fl_ret_bind.
    apply fl_bind; [apply fl_branch|]. intros _. apply HV, Hsucc. by eapply SuccRef. }
  intros _. apply fl_bind.
  { apply fl_keyword. intros v Hv. apply fl_type.
    by apply (ko_type _ _ _ (shaped_keyword schema _ v Hs Hv)). }
  intros _. apply fl_bind.
  { apply fl_keyword. intros v Hv. unfold check_enum.
    destruct (ko_enum _ _ _ (shaped_keyword schema _ v Hs Hv) eq_refl) as [items ->]. apply fl_test. }
  intros _. apply fl_bind; [apply fl_keyword; intros; apply fl_test|].
  intros _. apply fl_bind; [by apply fl_numeric|]. intros _. apply fl_bind; [by apply fl_string|].
  intros _. apply fl_bind; [case_match; [by apply fl_object|apply fl_ret]|].
  intros _. apply fl_bind; [case_match; [by apply fl_array|apply fl_ret]|].
  intros _. apply fl_bind.
  { apply fl_combinator; [done|set_solver|]. intros bs Hb. by apply fl_all_of. }
  intros _. unfold check_any_of, check_one_of.
  apply fl_bind; [|intros _]; (apply fl_combinator; [done|set_solver|]); intros bs Hb;
    (apply fl_bind; [by apply fl_branches|]); intros; apply fl_test.
Qed.
End recursion.

(** On a closed set no evaluation fails for the shape of the schema. *)
Lemma closed_faultless N fuel : closed root N → ∀ value schema path depth, N schema →
  (depth ≤ S MAX_SCHEMA_DEPTH)%nat → (VALIDATE_FUEL ≤ fuel + depth)%nat →
  faultless (validate_value root fuel value schema path depth).
Proof.
  intros HN. unfold VALIDATE_FUEL. induction fuel as [|f IH]; intros value schema path depth Hn Hd Hf; [lia|].
  cbn [validate_value]. unfold validate_step. apply fl_bind; [apply fl_node|]. intros _.
  destruct (Nat.ltb_spec MAX_SCHEMA_DEPTH depth) as [|Hle]; [intros ev; apply ExDepth|].
  destruct (HN schema Hn) as [Hs _].
  destruct schema as [|b| | | | |r ms]; try done.
  - destruct b; [apply fl_ret|apply fl_mismatch].
  - apply (fl_keywords N HN); [|done]. intros v s p Hin. apply IH; [done|lia|lia].
Qed.
End evaluate.

(** ** Pointers *)

Lemma replace_tilde_plain d c a s : a ≠ "~"%char → replace_tilde d c (String a s) = String a (replace_tilde d c s).
Proof.
  intros Ha. destruct s as [|b s]; [done|]. cbn -[Ascii.eqb]. by rewrite (proj2 (Ascii.eqb_neq a "~") Ha).
Qed.

Lemma replace_tilde_hit d c s : replace_tilde d c (String "~" (String d s)) = String c (replace_tilde d c s).
Proof. cbn -[Ascii.eqb]. by rewrite !Ascii.eqb_refl. Qed.

Lemma replace_tilde_miss d c b s : b ≠ d →
  replace_tilde d c (String "~" (String b s)) = String "~" (replace_tilde d c (String b s)).
Proof. intros Hb. cbn -[Ascii.eqb]. by rewrite (proj2 (Ascii.eqb_neq b d) Hb), andb_false_r. Qed.

(** Escaping and unescaping a member name. *)
Lemma ref_segment_escape name : ref_segment (ptr_escape name) = name.
Proof.
  unfold ref_segment. induction name as [|c name IH]; [done|]. cbn [ptr_escape].
  destruct (Ascii.eqb_spec c "~") as [->|Ht]; [|destruct (Ascii.eqb_spec c "/") as [->|Hs]].
  - rewrite replace_tilde_miss, (replace_tilde_plain "1" "/" "0"), replace_tilde_hit by done. by rewrite IH.
  - rewrite replace_tilde_hit, replace_tilde_plain by done. by rewrite IH.
  - rewrite !replace_tilde_plain by done. by rewrite IH.
Qed.

Lemma escape_no_slash name : contains "/" (ptr_escape name) = false.
Proof.
  induction name as [|c name IH]; [done|]. cbn [ptr_escape].
  destruct (Ascii.eqb_spec c "~") as [->|Ht]; [by rewrite !contains_cons, IH|].
  destruct (Ascii.eqb_spec c "/") as [->|Hs]; [by rewrite !contains_cons, IH|].
  rewrite contains_cons, IH, (proj2 (Ascii.eqb_neq "/" c)); [done|]. congruence.
Qed.

Lemma split_snoc c s t : contains c t = false → split c (s +:+ String c t) = split c s ++ [t].
Proof.
  intros Ht. induction s as [|a s IH]; rewrite ?app_empty_string, ?app_cons_string; cbn [split].
  - by rewrite Ascii.eqb_refl, split_no_sep.
  - rewrite IH. destruct (Ascii.eqb a c); [done|]. destruct (split c s) as [|h l] eqn:E; [|done].
    exfalso. destruct s; cbn in E; [done|]. by repeat case_match.
Qed.

Lemma strip_prefix_self p s : strip_prefix p (p +:+ s) = Some s.
Proof. by apply strip_prefix_app. Qed.

Section pointers.
Context `{SchemaLib} (root : Json).

Fixpoint follow (node : Json) (segments : list string) : option Json :=
  match segments with
  | [] => Some node
  | raw :: rest =>
      match ref_step "" node (ref_segment raw) with
      | Ok sub => follow sub rest
      | Err _ => None
      end
  end.

(** The node a pointer names when it is not percent-encoded. *)
Definition pointer_node (ptr : string) : option Json :=
  match strip_prefix "#" ptr with
  | None => None
  | Some p =>
      if is_empty p then Some root
      else match strip_prefix "/" p with
           | None => None
           | Some q => follow root (split "/" q)
           end
  end.

Lemma ref_step_target t1 t2 node seg sub : ref_step t1 node seg = Ok sub → ref_step t2 node seg = Ok sub.
Proof. unfold ref_step. repeat case_match; congruence. Qed.

Lemma follow_walk target segs : ∀ node sub, ref_walk target node segs = Ok sub → follow node segs = Some sub.
Proof.
  induction segs as [|raw segs IH]; intros node sub; cbn; [congruence|].
  intros (node' & Hs & Hw)%result_bind_ok. rewrite (ref_step_target _ "" _ _ _ Hs). by apply IH.
Qed.

Lemma follow_app segs1 segs2 : ∀ node, follow node (segs1 ++ segs2) = follow node segs1 ≫= λ n, follow n segs2.
Proof.
  induction segs1 as [|raw segs IH]; intros node; [done|]. cbn. case_match; [apply IH|done].
Qed.

(** A plain reference names the node it resolves to. *)
Lemma resolve_pointer target node : contains "%" target = false →
  resolve_local_ref root target = Ok node → pointer_node target = Some node.
Proof.
  intros Hp. unfold resolve_local_ref, pointer_node. destruct (strip_prefix "#" target) as [p|] eqn:E1; [|done].
  destruct (is_empty p); [congruence|]. destruct (strip_prefix "/" p) as [q|] eqn:E2; [|done].
  assert (contains "%" q = false) as Hq.
  { apply strip_prefix_app in E1, E2. subst. by rewrite !contains_app_string in Hp. }
  unfold percent_decode. rewrite Hq. cbn [negb]. apply follow_walk.
Qed.

Lemma pointer_extend ptr seg node sub : pointer_node ptr = Some node → contains "/" seg = false →
  ref_step "" node (ref_segment seg) = Ok sub → pointer_node (ptr +:+ "/" +:+ seg) = Some sub.
Proof.
  unfold pointer_node. intros Hn Hs Hr. destruct (strip_prefix "#" ptr) as [p|] eqn:E1; [|done].
  apply strip_prefix_app in E1 as ->. rewrite app_assoc_string, strip_prefix_self.
  destruct p as [|c p]; cbn [is_empty] in Hn.
  - injection Hn as <-. rewrite app_empty_string. cbn [is_empty String.append].
    change (String "/" seg) with ("/" +:+ seg). rewrite strip_prefix_self, split_no_sep by done.
    cbn [follow]. by rewrite Hr.
  - destruct (strip_prefix "/" (String c p)) as [q|] eqn:E2; [|done].
    apply strip_prefix_app in E2 as E3. rewrite E3, app_assoc_string.
    rewrite strip_prefix_self. change (is_empty ("/" +:+ _)) with false.
    change ("/" +:+ seg) with (String "/" seg). rewrite split_snoc, follow_app, Hn by done. cbn [mbind option_bind follow]. by rewrite Hr.
Qed.
End pointers.

(** ** Spellings the scan reads otherwise than the evaluator *)

Definition COUNTS : list string := ["minLength"; "maxLength"; "minItems"; "maxItems"]%string.

(** Not a zero written with an exponent, whose digits the scan takes for those
    of the number. *)
Definition plain_divisor (s : string) : bool :=
  match decimal_parse s with
  | Ok d => negb (is_zero d) || str_all (λ c, negb (is_exp_char c)) (trim s)
  | Err _ => true
  end.

Lemma split_exp_none s : str_all (λ c, negb (is_exp_char c)) s = true → split_exp s = None.
Proof.
  induction s as [|c s IH]; cbn; [done|]. intros [Hc%negb_true_iff Hs]%andb_prop.
  by rewrite Hc, (IH Hs).
Qed.

(** Neither digit nor dot, or the digit zero. *)
Definition zero_char (c : ascii) : bool := negb (is_ascii_digit c && negb (Ascii.eqb c "0")).

Lemma zero_digits s : ∀ ds, raw_digits s = Some ds → Forall (λ d, d = 0) ds → str_all zero_char s = true.
Proof.
  induction s as [|c s IH]; intros ds; cbn; [done|]. destruct (is_ascii_digit c) eqn:Ec; [|done].
  destruct (raw_digits s) as [ds'|]; [|done]. intros [= <-] [Hz Hds]%Forall_cons_1.
  apply andb_true_iff. split; [|by eapply IH]. unfold zero_char. rewrite Ec. cbn [andb].
  rewrite negb_involutive. apply Ascii.eqb_eq. unfold code in Hz.
  rewrite <- (ascii_nat_embedding c). replace (nat_of_ascii c) with 48%nat by lia. done.
Qed.

Lemma trimmed_nil ds : trim_trailing_zeros (trim_leading_zeros ds) = [] → Forall (λ d, d = 0) ds.
Proof.
  unfold trim_trailing_zeros. intros E. rewrite (leading_split ds). apply Forall_app_2; [by apply Forall_replicate|].
  apply (f_equal (@rev Z)) in E. rewrite rev_involutive in E. cbn in E.
  rewrite <- (rev_involutive (trim_leading_zeros ds)). apply Forall_rev.
  rewrite (leading_split (rev _)), E. apply Forall_app_2; [by apply Forall_replicate|constructor].
Qed.

Lemma positive_divisor s : is_positive_number_str s = true → plain_divisor s = true → divisor_ok s.
Proof.
  unfold is_positive_number_str, plain_divisor. cbv zeta. intros Hpos Hplain d Hd. rewrite Hd in Hplain.
  destruct (starts_with "-" (trim s)) eqn:Hneg; [done|].
  assert (strip_prefix "-" (trim s) = None) as Hs.
  { unfold starts_with in Hneg. apply bool_decide_eq_false in Hneg. by apply eq_None_not_Some. }
  unfold decimal_parse in Hd. destruct (is_empty (trim s)); [done|].
  apply result_bind_ok in Hd as ([[[neg ints] fracs] exp] & Hp & Hd).
  unfold number_parts, split_sign in Hp. rewrite Hs in Hp.
  apply result_bind_ok in Hp as ([mantissa e] & Hm & Hp).
  set (rest := default (trim s) (strip_prefix "+" (trim s))) in *.
  destruct (default (mantissa, _) (split_once "." mantissa)) as [int_part frac_part] eqn:Es.
  destruct (raw_digits int_part) as [ids|] eqn:Ei; [|done]. destruct (raw_digits frac_part) as [fds|] eqn:Ef; [|done].
  injection Hp as <- <- <- <-.
  destruct (length _ =? 0)%nat eqn:El in Hd.
  2:{ case_match; [|done]. injection Hd as <-. done. }
  injection Hd as <-. exfalso. cbn [is_zero d_digits negb orb] in Hplain.
  apply Nat.eqb_eq, nil_length_inv, trimmed_nil, Forall_app in El as [Hi Hf].
  assert (∀ p, str_all p (trim s) = true → str_all p rest = true) as Hrest.
  { intros p Hall. unfold rest. destruct (strip_prefix "+" (trim s)) as [r|] eqn:Er; [|done]. cbn.
    apply strip_prefix_app in Er. rewrite Er in Hall. rewrite str_all_app in Hall. by apply andb_prop in Hall as [_ ?]. }
  assert (str_all zero_char rest = true → str_all zero_char (trim s) = true) as Hback.
  { unfold rest. destruct (strip_prefix "+" (trim s)) as [r|] eqn:Er; [|done]. cbn.
    apply strip_prefix_app in Er as ->. rewrite str_all_app. intros ->. done. }
  clearbody rest. rewrite (split_exp_none rest) in Hm by auto. injection Hm as <- <-.
  assert (str_all zero_char (trim s) = true) as Hzt.
  { apply Hback. apply zero_digits in Ei, Ef; [|done..]. destruct (split_once "." rest) as [[a b]|] eqn:Eo.
    - cbn in Es. injection Es as -> ->. apply split_once_parts in Eo as ->.
      rewrite str_all_app. cbn. by rewrite Ei, Ef.
    - cbn in Es. by injection Es as -> _. }
  unfold str_any in Hpos. unfold zero_char in Hzt. by rewrite Hzt in Hpos.
Qed.

Definition plain_keyword (key : string) (v : Json) : bool :=
  if String.eqb key "$ref" then is_none_or (to_unquoted_string_str v) (λ t, negb (contains "%" t))
  else if one_of_keys COUNTS key then
    match v with JInteger raw => negb (starts_with "-" raw) | _ => true end
  else if String.eqb key "multipleOf" then is_none_or (as_number_str v) plain_divisor
  else true.

(** No reference is percent-encoded, no count is written with a sign, no
    divisor is a zero written with an exponent, and arrays are as long as
    memory allows. *)
Fixpoint plain_schema (v : Json) : bool :=
  match v with
  | JArray _ items => (Z.of_nat (length items) <=? U64_MAX) && forallb plain_schema items
  | JObject _ ms => forallb (λ m, plain_keyword m.1 m.2 && plain_schema m.2) ms
  | _ => true
  end.

Lemma plain_object r ms key v : plain_schema (JObject r ms) = true → (key, v) ∈ ms →
  plain_keyword key v = true ∧ plain_schema v = true.
Proof.
  cbn. rewrite List.forallb_forall. intros Hall Hin%list_elem_of_In.
  by apply Hall, andb_true_iff in Hin.
Qed.

Lemma plain_array r items : plain_schema (JArray r items) = true →
  Z.of_nat (length items) ≤ U64_MAX ∧ ∀ v, v ∈ items → plain_schema v = true.
Proof.
  cbn [plain_schema]. rewrite andb_true_iff, Z.leb_le, List.forallb_forall. intros [Hl Hall].
  split; [done|]. intros v Hin%list_elem_of_In. by apply Hall.
Qed.

Section plain.
Context `{SchemaLib} (root : Json) (Hroot : plain_schema root = true).

Lemma plain_follow segs : ∀ node sub, plain_schema node = true → follow node segs = Some sub →
  plain_schema sub = true.
Proof.
  induction segs as [|raw segs IH]; intros node sub Hp; cbn [follow]; [congruence|].
  destruct (ref_step "" node (ref_segment raw)) as [next|] eqn:E; [|done]. intros Hf.
  apply (IH next); [|done]. unfold ref_step in E. destruct node as [| | | | |r items|r ms]; try done.
  - destruct (parse_u64 _) as [i|]; [|done]. destruct (items !! _) as [x|] eqn:Ei; [|done].
    injection E as <-. apply plain_array in Hp as [_ Hall]. apply Hall. by eapply list_elem_of_lookup_2.
  - destruct (member_opt _ _) as [x|] eqn:Em; [|done]. injection E as <-.
    apply member_inv in Em as (? & ? & [= <- <-] & Hin). by eapply plain_object.
Qed.

Lemma plain_pointer ptr node : pointer_node root ptr = Some node → plain_schema node = true.
Proof.
  unfold pointer_node. repeat case_match; try done; [congruence|]. by apply plain_follow.
Qed.
End plain.

(** ** What a sweep of the scan leaves behind *)

Section sweeps.
Context `{SchemaLib} (root : Json) (Hroot : plain_schema root = true).

(** A node that one of the visited pointers names. *)
Definition found (V : gset string) (node : Json) : Prop := ∃ q, q ∈ V ∧ pointer_node root q = Some node.

(** The pointer names a node that is well shaped and whose successors are
    among those of the visited pointers. *)
Definition finished (V : gset string) (ptr : string) : Prop :=
  ∃ node, pointer_node root ptr = Some node ∧ well_shaped root node
    ∧ ∀ sub, successor root node sub → found V sub.

Lemma found_mono V V' node : V ⊆ V' → found V node → found V' node.
Proof. intros HV (q & Hq & Hn). exists q. split; [set_solver|done]. Qed.

Lemma finished_mono V V' ptr : V ⊆ V' → finished V ptr → finished V' ptr.
Proof.
  intros HV (node & Hn & Hs & Hsub). exists node. split_and!; [done..|]. intros sub Hsucc.
  eapply found_mono; [done|]. by apply Hsub.
Qed.

(** Without findings at the end there were none before; and from [P] of the
    pointers visited before, nothing was forgotten, what was added is finished,
    and [Q] holds of the pointers visited after. *)
Definition swept (P : gset string → Prop) (st st' : ScanState) (Q : gset string → Prop) : Prop :=
  sn_findings st' = [] →
  sn_findings st = [] ∧
  (P (sn_visited st) →
   sn_visited st ⊆ sn_visited st'
   ∧ (∀ q, q ∈ sn_visited st' → q ∉ sn_visited st → finished (sn_visited st') q)
   ∧ Q (sn_visited st')).

(** A fact about the visited pointers that stays true. *)
Definition lasting (Q : gset string → Prop) : Prop := ∀ V V', V ⊆ V' → Q V → Q V'.

Lemma lasting_pure φ : lasting (λ _, φ).
Proof. by intros V V'. Qed.

Lemma swept_same st (P Q : gset string → Prop) : (∀ V, P V → Q V) → swept P st st Q.
Proof. intros HQ Hc. split; [done|]. intros HP. split_and!; [done| |by apply HQ]. by intros q ? ?. Qed.

Lemma swept_conseq st st' (P P' Q Q' : gset string → Prop) :
  swept P st st' Q → (∀ V, P' V → P V) → (∀ V, P' V → Q V → Q' V) → lasting P' → swept P' st st' Q'.
Proof.
  intros Hs HP HQ Hl Hc. destruct (Hs Hc) as (? & Hrest). split; [done|]. intros HP'.
  destruct Hrest as (Hsub & Hnew & HQv); [by apply HP|]. split_and!; [done..|].
  apply HQ; [by eapply Hl|done].
Qed.

Lemma swept_trans st1 st2 st3 P Q R : swept P st1 st2 Q → swept Q st2 st3 R → swept P st1 st3 R.
Proof.
  intros H12 H23 Hc. destruct (H23 Hc) as (Hc2 & Hr2). destruct (H12 Hc2) as (Hc1 & Hr1).
  split; [done|]. intros HP. destruct (Hr1 HP) as (Hsub1 & Hnew1 & HQ).
  destruct (Hr2 HQ) as (Hsub2 & Hnew2 & HR). split_and!; [set_solver| |done].
  intros q Hq Hn. destruct (decide (q ∈ sn_visited st2)) as [Hin|Hout]; [|by apply Hnew2].
  eapply finished_mono; [exact Hsub2|]. by apply Hnew1.
Qed.

(** Two sweeps under the same fact. *)
Lemma swept_seq st1 st2 st3 P A B : lasting P → lasting A →
  swept P st1 st2 A → swept P st2 st3 B → swept P st1 st3 (λ V, A V ∧ B V).
Proof.
  intros HP HA H12 H23. apply (swept_trans _ st2 _ _ (λ V, P V ∧ A V)).
  - eapply swept_conseq; [exact H12|done|done|done].
  - eapply swept_conseq; [exact H23|by intros V []|by intros V [] ?|].
    intros V V' HV []. split; [by eapply HP|by eapply HA].
Qed.

Lemma push_finding_swept msg st P Q : swept P st (push_finding msg st) Q.
Proof.
  intros Hc. exfalso. unfold push_finding in Hc.
  destruct (Nat.ltb_spec (length (sn_findings st)) MAX_FINDINGS) as [|Hlen]; cbn in Hc.
  - by destruct (sn_findings st).
  - rewrite Hc in Hlen. cbn in Hlen. unfold MAX_FINDINGS in Hlen. lia.
Qed.

Lemma finding_swept b msg st (P Q : gset string → Prop) : (b = false → ∀ V, P V → Q V) →
  swept P st (finding_if b msg st) Q.
Proof. intros HQ. destruct b; [apply push_finding_swept|]. by apply swept_same, HQ. Qed.

(** Loops: with an invariant over what was done, and with a part established
    by each step. *)
Lemma foldl_swept {A} (f : ScanState → A → ScanState) (I : list A → gset string → Prop) l :
  (∀ pre x post st, l = pre ++ x :: post → swept (I pre) st (f st x) (I (pre ++ [x]))) → ∀ st,
  swept (I []) st (foldl f st l) (I l).
Proof.
  intros Hf. assert (∀ post pre st, l = pre ++ post → swept (I pre) st (foldl f st post) (I l)) as Hg.
  { induction post as [|x post IH]; intros pre st Hl; cbn [foldl].
    - rewrite app_nil_r in Hl. subst. by apply swept_same.
    - eapply swept_trans; [by eapply Hf|]. apply IH. by rewrite <- app_assoc. }
  intros st. by apply Hg.
Qed.

Lemma foldl_each {A} (f : ScanState → A → ScanState) P (R : A → gset string → Prop) l :
  lasting P → (∀ x, lasting (R x)) → (∀ x st, x ∈ l → swept P st (f st x) (R x)) → ∀ st,
  swept P st (foldl f st l) (λ V, ∀ x, x ∈ l → R x V).
Proof.
  intros HP HR. induction l as [|x l IH]; intros Hf st; cbn [foldl]; [apply swept_same; set_solver|].
  eapply swept_conseq; [eapply swept_seq; [done|apply (HR x)|apply Hf; set_solver|
    apply IH; intros; apply Hf; set_solver]|done| |done].
  intros V _ [Hx Hl] y [->|Hy]%elem_of_cons; auto.
Qed.

(** ** Keywords *)

Lemma one_of_keys_iff names key : one_of_keys names key = true ↔ key ∈ names.
Proof.
  unfold one_of_keys. rewrite List.existsb_exists. split.
  - by intros (x & Hx%list_elem_of_In & ->%String.eqb_eq).
  - intros Hin%list_elem_of_In. exists key. split; [done|apply String.eqb_refl].
Qed.

Notation sure := (λ _ : gset string, True).

Lemma type_shape_swept v ptr st :
  swept sure st (foldl (unknown_type ptr) (type_shape v ptr st).2 (type_shape v ptr st).1) (λ _, type_ok v).
Proof.
  assert (∀ names st, swept sure st (foldl (unknown_type ptr) st names) (λ _, ∀ n, n ∈ names → valid_type n)) as Hn.
  { intros names. apply (foldl_each _ _ (λ n _, valid_type n)); [apply lasting_pure|intros; apply lasting_pure|].
    intros n st' _. apply finding_swept. intros Hb%negb_false_iff V _. exact Hb. }
  destruct v as [| | | |r name|r ts|]; cbn [type_shape fst snd]; try apply push_finding_swept.
  - eapply swept_conseq; [apply Hn|done| |apply lasting_pure]. intros V _ Hall. apply Hall. set_solver.
  - eapply swept_conseq; [eapply swept_seq; [apply lasting_pure|apply lasting_pure| |apply Hn]|done| |apply lasting_pure].
    { eapply swept_seq; [apply lasting_pure|apply lasting_pure|
        apply finding_swept with (Q := λ _, ts ≠ []); by intros ?%bool_decide_eq_false|].
      apply (foldl_each _ _ (λ t _, is_string t = true)); [apply lasting_pure|intros; apply lasting_pure|].
      intros t st' _. apply finding_swept. by intros ?%negb_false_iff. }
    intros V _ [[He Hs] Hv]. cbn. split; [done|]. intros t Ht.
    specialize (Hs t Ht). destruct t as [| | | |r' name| |]; try done. exists r', name. split; [done|].
    apply Hv. apply list_elem_of_omap. by exists (JString r' name).
Qed.

Lemma to_digit_nonneg c d : to_digit 10 c = Some d → 0 ≤ d.
Proof. unfold to_digit, digit_value, is_ascii_digit, is_ascii_upper. intros Hd.
  repeat case_match; simplify_eq; lia. Qed.

Lemma i64_digits_unsigned s : ∀ acc n, 0 ≤ acc → i64_digits 1 acc s = Ok n →
  digits_value 10 U64_MAX acc s = Some n.
Proof.
  induction s as [|c s IH]; intros acc n Ha; cbn [i64_digits digits_value]; [congruence|].
  destruct (to_digit 10 c) as [d|] eqn:Ed; [|done]. rewrite Z.mul_1_l.
  destruct (in_i64 (acc * 10 + d)) eqn:Ei; [|done].
  assert (0 ≤ d) as Hd by (by apply to_digit_nonneg in Ed).
  assert (U64_MAX <? acc * 10 + d = false) as ->.
  { unfold in_i64, I64_MIN, I64_MAX in Ei. apply Z.ltb_ge. unfold U64_MAX. lia. }
  apply IH. lia.
Qed.

Lemma count_parses raw : nonnegative_count (JInteger raw) = true → starts_with "-" raw = false →
  ∃ n, parse_u64 raw = Some n.
Proof.
  cbn [nonnegative_count]. unfold parse_i64, parse_u64, from_str_radix.
  destruct raw as [|c raw]; [done|]. intros Hn Hm.
  assert (Ascii.eqb c "-" = false) as Hc.
  { destruct (Ascii.eqb_spec c "-") as [->|]; [done|done]. }
  rewrite Hc, orb_false_r in Hn. destruct (Ascii.eqb c "+"); cbn [andb] in Hn.
  - destruct (is_empty raw); [done|]. destruct (i64_digits 1 0 raw) as [n|] eqn:E; [|done].
    exists n. by apply i64_digits_unsigned.
  - destruct (i64_digits 1 0 (String c raw)) as [n|] eqn:E; [|done]. exists n. by apply i64_digits_unsigned.
Qed.

(** What a look at one keyword establishes. *)
Definition looked_at (key : string) (v : Json) (V : gset string) : Prop :=
  keyword_ok root key v
  ∧ (key = "items" → is_object v || is_boolean v = true)
  ∧ (key = "$ref" → ∀ target node, to_unquoted_string_str v = Some target →
      resolve_local_ref root target = Ok node → found V node).

Lemma lasting_looked key v : lasting (looked_at key v).
Proof.
  intros V V' HV (Hk & Hi & Hr). split_and!; [done..|]. intros E target node Ht Hn.
  eapply found_mono; [done|]. by eapply Hr.
Qed.

Section scanning.
Context (scan : Json → string → nat → ScanState → ScanState).
Context (Hscan : ∀ schema ptr depth st, plain_schema schema = true →
  swept (λ V, pointer_node root ptr = Some schema ∨ ptr ∈ V) st (scan schema ptr depth st) (λ V, ptr ∈ V)).

Lemma plain_ref v target node : plain_keyword "$ref" v = true → to_unquoted_string_str v = Some target →
  resolve_local_ref root target = Ok node → pointer_node root target = Some node.
Proof. cbn. intros Hp Ht. rewrite Ht in Hp. apply resolve_pointer. by apply negb_true_iff in Hp. Qed.

Lemma ref_shape_swept v ptr depth st : plain_keyword "$ref" v = true →
  swept sure st (ref_shape root scan v ptr depth st)
    (λ V, ∃ target node, to_unquoted_string_str v = Some target ∧ resolve_local_ref root target = Ok node
       ∧ found V node).
Proof.
  intros Hp. unfold ref_shape. destruct (to_unquoted_string_str v) as [target|] eqn:Ht; [|apply push_finding_swept].
  destruct (resolve_local_ref root target) as [node|] eqn:Hr; [|apply push_finding_swept].
  pose proof (plain_ref v target node Hp Ht Hr) as Hn.
  eapply swept_conseq; [apply Hscan; by eapply plain_pointer|by left| |apply lasting_pure].
  intros V _ Hin. exists target, node. split_and!; [done..|]. by exists target.
Qed.

(** A key that is none of the names asked for. *)
Ltac no_key := let E := fresh in intros E; exfalso; elem_cases E; (discriminate || contradiction).
(** What is left of [looked_at] when the clause of the key is at hand. *)
Ltac looked := split_and!; [split; (done || no_key || idtac)|no_key || idtac|no_key || idtac].

Lemma keys_cases names key : one_of_keys names key = true ∧ key ∈ names ∨ one_of_keys names key = false ∧ key ∉ names.
Proof.
  destruct (one_of_keys names key) eqn:E; [left|right]; (split; [done|]).
  - by apply one_of_keys_iff.
  - rewrite <- one_of_keys_iff. congruence.
Qed.

(** The keywords whose look is one test. *)
Lemma tested_keyword key v b msg st : (b = false → ∀ V, looked_at key v V) →
  swept sure st (finding_if b msg st) (looked_at key v).
Proof. intros Hb. apply finding_swept. intros Hf V _. by apply Hb. Qed.

Lemma count_looked key v : key ∈ COUNTS → supported key = true → plain_keyword key v = true →
  nonnegative_count v = true → ∀ V, looked_at key v V.
Proof.
  intros Hin Hk Hp Hn V. destruct v as [| |raw| | | |]; try done.
  assert (count_ok (JInteger raw)) as Hc.
  { destruct (count_parses raw Hn) as [n Hr]; [|by exists raw, n].
    unfold plain_keyword in Hp. unfold COUNTS in Hin. elem_cases Hin; by apply negb_true_iff in Hp. }
  unfold COUNTS in Hin. elem_cases Hin; looked.
Qed.

Lemma pattern_swept v ptr st : supported "pattern" = true →
  swept sure st (pattern_shape v ptr st) (looked_at "pattern" v).
Proof.
  intros Hk. unfold pattern_shape. destruct (to_unquoted_string_str v) as [p|] eqn:Ep; [|apply push_finding_swept].
  destruct (regex_new p) as [[]|] eqn:Er; [|apply push_finding_swept]. apply swept_same. intros V _.
  looked. intros _. by exists p.
Qed.

Lemma items_swept v ptr st : supported "items" = true →
  swept sure st (items_shape v ptr st) (looked_at "items" v).
Proof.
  intros Hk. unfold items_shape. destruct (is_array v) eqn:Ea; [apply push_finding_swept|].
  apply finding_swept. intros Hb%negb_false_iff V _. looked; [|done]. intros _. by destruct v.
Qed.

Lemma keyword_swept key v ptr depth st : plain_keyword key v = true →
  swept sure st (check_keyword root scan ptr depth st (key, v)) (looked_at key v).
Proof.
  intros Hp. unfold check_keyword. destruct (supported key) eqn:Hk; cbn [negb]; [|apply push_finding_swept].
  unfold check_keyword_shape.
  destruct (String.eqb_spec key "type") as [->|N1].
  { pose proof (type_shape_swept v ptr st) as Ht. destruct (type_shape v ptr st) as [names st'].
    eapply swept_conseq; [exact Ht|done| |apply lasting_pure]. intros V _ Hv. looked. }
  destruct (keys_cases ["enum"; "examples"] key) as [[-> Hin]|[-> N2]].
  { apply tested_keyword. intros Hb%negb_false_iff V. destruct v; try done.
    elem_cases Hin; looked. }
  destruct (String.eqb_spec key "required") as [->|N3].
  { apply tested_keyword. intros Hb%negb_false_iff V. destruct (to_array v) as [ts|] eqn:Ea; [|done].
    looked. intros _. exists ts. split; [done|]. intros t Ht%list_elem_of_In.
    rewrite List.forallb_forall in Hb. specialize (Hb t Ht). by destruct t. }
  destruct (keys_cases ["minimum"; "maximum"; "exclusiveMinimum"; "exclusiveMaximum"] key) as [[-> Hin]|[-> N4]].
  { apply tested_keyword. intros Hb%negb_false_iff V. destruct v; try done; elem_cases Hin; looked. }
  destruct (String.eqb_spec key "multipleOf") as [->|N5].
  { apply tested_keyword. intros Hb%negb_false_iff V.
    destruct (as_number_str v) as [num|] eqn:En; [|done]. cbn in Hb, Hp. rewrite En in Hp. cbn in Hp.
    looked. intros _. exists num. split; [done|]. by apply positive_divisor. }
  destruct (keys_cases ["minLength"; "maxLength"; "minItems"; "maxItems"] key) as [[-> Hin]|[-> N6]].
  { apply tested_keyword. intros Hb%negb_false_iff V. by apply count_looked. }
  destruct (String.eqb_spec key "uniqueItems") as [->|N7].
  { apply tested_keyword. intros Hb%negb_false_iff V. destruct v; try done. looked. eauto. }
  destruct (String.eqb_spec key "pattern") as [->|N8]; [by apply pattern_swept|].
  destruct (keys_cases ["format"; "title"; "description"; "$comment"; "$schema"; "$id"] key) as [[-> Hin]|[-> N9]].
  { apply tested_keyword. intros _ V. elem_cases Hin; looked. }
  destruct (keys_cases ["properties"; "$defs"; "definitions"] key) as [[-> Hin]|[-> N10]].
  { apply tested_keyword. intros Hb%negb_false_iff V. elem_cases Hin; looked. }
  destruct (String.eqb_spec key "additionalProperties") as [->|N11].
  { apply tested_keyword. intros Hb%negb_false_iff V. looked. intros _. destruct v; try done; eauto. }
  destruct (String.eqb_spec key "items") as [->|N12]; [by apply items_swept|].
  destruct (keys_cases ["anyOf"; "oneOf"; "allOf"] key) as [[-> Hin]|[-> N13]].
  { apply tested_keyword. intros Hb%negb_false_iff V.
    destruct (to_array v) as [[|b bs]|] eqn:Ea; try done. elem_cases Hin; looked; eauto. }
  destruct (String.eqb_spec key "$ref") as [->|N14].
  { eapply swept_conseq; [by apply ref_shape_swept|done| |apply lasting_pure].
    intros V _ (target & node & Ht & Hr & Hf). looked; [eauto|].
    intros _ t n Ht' Hr'. rewrite Ht' in Ht. injection Ht as ->. rewrite Hr' in Hr. by injection Hr as ->. }
  apply swept_same. intros V _. split_and!; [split|..]; try done; intros Hin; exfalso; set_solver.
Qed.

(** ** Subschemas *)

Lemma pointer_member ptr node key sub : pointer_node root ptr = Some node → member_opt node key = Some sub →
  pointer_node root (ptr +:+ "/" +:+ ptr_escape key) = Some sub.
Proof.
  intros Hn Hm. eapply pointer_extend; [done|apply escape_no_slash|]. rewrite ref_segment_escape.
  pose proof Hm as (r & ms & -> & _)%member_inv. unfold ref_step. by rewrite Hm.
Qed.

Lemma member_first r pre key v post : key ∉ pre.*1 → member_opt (JObject r (pre ++ (key, v) :: post)) key = Some v.
Proof.
  unfold member_opt, member, member_of. cbn [to_object]. induction pre as [|[k w] pre IH]; cbn.
  - by rewrite String.eqb_refl.
  - intros Hn. apply not_elem_of_cons in Hn as [Hk Hn].
    destruct (String.eqb_spec k key) as [->|]; [done|]. by apply IH.
Qed.

Lemma plain_member schema name v : plain_schema schema = true → member_opt schema name = Some v →
  plain_schema v = true.
Proof. intros Hp (r & ms & -> & Hin)%member_inv. by eapply plain_object. Qed.

Definition here (schema : Json) (ptr : string) : gset string → Prop := λ _, pointer_node root ptr = Some schema.

Lemma members_swept schema name ptr depth st : plain_schema schema = true → ptr_escape name = name →
  swept (here schema ptr) st (scan_members scan schema name ptr depth st)
    (λ V, ∀ props key sub, member_opt schema name = Some props → member_opt props key = Some sub → found V sub).
Proof.
  intros Hp Hname. unfold scan_members.
  destruct (member_opt schema name) as [props|] eqn:Em; cbn [mbind option_bind]; [|by apply swept_same].
  destruct (to_object props) as [ms|] eqn:Eo.
  2: { apply swept_same. intros V _ ? key sub [= <-] (r & ms & -> & _)%member_inv. done. }
  destruct props as [| | | | | |r ms']; try done. injection Eo as ->.
  set (mptr key := ptr +:+ "/" +:+ name +:+ "/" +:+ ptr_escape key).
  assert (∀ key sub, pointer_node root ptr = Some schema → member_opt (JObject r ms) key = Some sub →
    pointer_node root (mptr key) = Some sub) as Hat.
  { intros key sub Hn Hk. unfold mptr. rewrite <- Hname, <- !app_assoc_string.
    rewrite (app_assoc_string ptr). rewrite (app_assoc_string (ptr +:+ _)).
    eapply pointer_member; [|done]. by eapply pointer_member. }
  pose (I (pre : list (string * Json)) (V : gset string) := pointer_node root ptr = Some schema ∧ ∀ k, k ∈ pre.*1 → mptr k ∈ V).
  assert (∀ pre, lasting (I pre)) as HI.
  { intros pre V V' HV [Hn Hk]. split; [done|]. intros k Hin. apply HV. by apply Hk. }
  eapply swept_conseq; [apply (foldl_swept _ I ms)| | |apply lasting_pure].
  - intros pre [key v] post st' Hms. cbn [fst snd]. eapply swept_conseq; [apply Hscan| | |apply HI].
    + apply plain_member with (1 := Hp) in Em. eapply (plain_object r ms key v); [exact Em|]. rewrite Hms. set_solver.
    + intros V [Hn Hk]. destruct (decide (key ∈ pre.*1)) as [Hin|Hout]; [by right; apply Hk|left].
      apply Hat; [done|]. rewrite Hms. by apply member_first.
    + intros V [Hn Hk] Hin. split; [done|]. intros k. rewrite fmap_app, elem_of_app. cbn.
      rewrite list_elem_of_singleton. intros [Hk'| ->]; [by apply Hk|done].
  - intros V Hn. split; [done|]. intros k Hk. by apply elem_of_nil in Hk.
  - intros V Hn [_ Hk] ? key sub [= <-] Hm. exists (mptr key). split; [|by apply Hat].
    apply Hk. apply member_inv in Hm as (? & ? & [= <- <-] & Hin). by apply (list_elem_of_fmap_2 fst) in Hin.
Qed.

Lemma single_swept ok schema name ptr depth st : plain_schema schema = true → ptr_escape name = name →
  swept (here schema ptr) st (scan_single scan ok schema name ptr depth st)
    (λ V, ∀ v, member_opt schema name = Some v → ok v = true → found V v).
Proof.
  intros Hp Hname. unfold scan_single. destruct (member_opt schema name) as [v|] eqn:Em; [|by apply swept_same].
  destruct (ok v) eqn:Eo; [|apply swept_same; congruence].
  assert (pointer_node root ptr = Some schema → pointer_node root (ptr +:+ "/" +:+ name) = Some v) as Hat.
  { intros Hn. rewrite <- Hname. by eapply pointer_member. }
  eapply swept_conseq; [apply Hscan; by eapply plain_member| | |apply lasting_pure].
  - intros V Hn. left. by apply Hat.
  - intros V Hn Hin w [= <-] _. eexists. split; [exact Hin|]. by apply Hat.
Qed.

Lemma replace_tilde_none d c s : contains "~" s = false → replace_tilde d c s = s.
Proof.
  induction s as [|a s IH]; [done|]. rewrite contains_cons, orb_false_iff. intros [Ha Hs].
  rewrite replace_tilde_plain, IH; [done|done|]. intros ->. by rewrite Ascii.eqb_refl in Ha.
Qed.

Lemma pointer_element ptr r items i sub : pointer_node root ptr = Some (JArray r items) →
  Z.of_nat (length items) ≤ U64_MAX → items !! i = Some sub →
  pointer_node root (ptr +:+ "/" +:+ show_dec (Z.of_nat i)) = Some sub.
Proof.
  intros Hn Hlen Hi. pose proof (lookup_lt_Some _ _ _ Hi) as Hlt.
  destruct (show_dec_shape (Z.of_nat i)) as [_ Hd]; [lia|].
  eapply pointer_extend; [done|by apply (contains_outside is_ascii_digit)|].
  unfold ref_segment. rewrite !replace_tilde_none by (rewrite ?replace_tilde_none; by apply (contains_outside is_ascii_digit)).
  unfold ref_step, parse_u64, U64_MAX in *. rewrite from_str_radix_show by lia. by rewrite Nat2Z.id, Hi.
Qed.

Lemma elements_swept φ ptr name depth subs : ∀ i st,
  (∀ sub, sub ∈ subs → plain_schema sub = true) →
  (φ → ∀ j sub, subs !! j = Some sub → pointer_node root (branch_ptr ptr name (i + j)) = Some sub) →
  swept (λ _, φ) st (scan_elements scan ptr name depth i subs st) (λ V, ∀ sub, sub ∈ subs → found V sub).
Proof.
  induction subs as [|sub subs IH]; intros i st Hp Hat; cbn [scan_elements]; [apply swept_same; set_solver|].
  assert (φ → pointer_node root (branch_ptr ptr name i) = Some sub) as Hhere.
  { intros Hφ. specialize (Hat Hφ 0%nat sub eq_refl). by rewrite Nat.add_0_r in Hat. }
  assert (swept (λ _, φ) st (scan sub (branch_ptr ptr name i) (S depth) st) (λ V, found V sub)) as Hfirst.
  { eapply swept_conseq; [apply Hscan, Hp; set_solver| | |apply lasting_pure].
    - intros V Hφ. left. by apply Hhere.
    - intros V Hφ Hin. eexists. split; [exact Hin|]. by apply Hhere. }
  eapply swept_conseq; [eapply swept_seq; [apply lasting_pure| |exact Hfirst|apply IH]|auto| |apply lasting_pure].
  - intros V V' HV. by apply found_mono.
  - set_solver.
  - intros Hφ j x Hx. rewrite Nat.add_succ_l, <- Nat.add_succ_r. by apply Hat.
  - intros V _ [Hs Hrest] x [->|Hx]%elem_of_cons; [done|by apply Hrest].
Qed.

Lemma branches_swept schema ptr depth st name : plain_schema schema = true → ptr_escape name = name →
  swept (here schema ptr) st (scan_branches scan schema ptr depth st name)
    (λ V, ∀ v bs sub, member_opt schema name = Some v → to_array v = Some bs → sub ∈ bs → found V sub).
Proof.
  intros Hp Hname. unfold scan_branches.
  destruct (member_opt schema name) as [v|] eqn:Em; cbn [mbind option_bind]; [|by apply swept_same].
  destruct (to_array v) as [bs|] eqn:Ea; [|apply swept_same; congruence].
  destruct v as [| | | | |r bs'|]; try done. injection Ea as ->.
  pose proof (plain_member _ _ _ Hp Em) as [Hlen Hall]%plain_array.
  eapply swept_conseq; [apply (elements_swept (pointer_node root ptr = Some schema)); [done|]|done| |apply lasting_pure].
  - intros Hn j sub Hj. unfold branch_ptr. rewrite <- !app_assoc_string, (app_assoc_string ptr), (app_assoc_string (ptr +:+ _)).
    eapply pointer_element; [|done|done]. rewrite <- Hname. by eapply pointer_member.
  - intros V _ Hf v' bs0 sub [= <-] [= <-]. apply Hf.
Qed.

(** Every place the evaluator goes to, the references apart, is found. *)
Record placed (schema : Json) (V : gset string) : Prop := {
  pl_properties : ∀ props key sub, member_opt schema "properties" = Some props →
    member_opt props key = Some sub → found V sub;
  pl_items : ∀ v, member_opt schema "items" = Some v → is_object v || is_boolean v = true → found V v;
  pl_additional : ∀ v, member_opt schema "additionalProperties" = Some v → is_object v = true → found V v;
  pl_branches : ∀ name, name ∈ ["anyOf"; "oneOf"; "allOf"]%string → ∀ v bs sub,
    member_opt schema name = Some v → to_array v = Some bs → sub ∈ bs → found V sub
}.

Ltac lasting_found := repeat intro; eapply found_mono; [eassumption|]; eauto.

Lemma positions_swept schema ptr depth st : plain_schema schema = true →
  swept (here schema ptr) st (scan_positions scan schema ptr depth st) (placed schema).
Proof.
  intros Hp. unfold scan_positions.
  set (st5 := foldl _ _ _). eapply swept_conseq; [|done| |apply lasting_pure].
  - eapply swept_seq; [apply lasting_pure|shelve|by apply (members_swept schema "properties" ptr depth)|].
    eapply swept_seq; [apply lasting_pure|shelve|by apply (single_swept (λ v, is_object v || is_boolean v) schema "items" ptr depth)|].
    eapply swept_seq; [apply lasting_pure|shelve|by apply (single_swept is_object schema "additionalProperties" ptr depth)|].
    apply (swept_trans _ st5 _ _ (λ V, here schema ptr V ∧ ∀ name, name ∈ ["anyOf"; "oneOf"; "allOf"]%string → ∀ v bs sub,
      member_opt schema name = Some v → to_array v = Some bs → sub ∈ bs → found V sub)).
    + eapply swept_conseq; [eapply (foldl_each _ (here schema ptr) (λ name V, ∀ v bs sub,
        member_opt schema name = Some v → to_array v = Some bs → sub ∈ bs → found V sub)); [apply lasting_pure|shelve|]|auto| |apply lasting_pure].
      { intros name st' Hin. apply branches_swept; [done|]. by elem_cases Hin. }
      intros V Hh Hf. by split.
    + eapply swept_trans.
      { eapply swept_conseq; [by apply (members_swept schema "$defs" ptr depth)|by intros V []| |].
        - intros V Hv _. exact Hv.
        - intros V V' HV [Hh Hf]. split; [done|]. lasting_found. }
      eapply swept_conseq; [by apply (members_swept schema "definitions" ptr depth)|by intros V []| |].
      * intros V [_ Hv] _. exact Hv.
      * intros V V' HV [Hh Hf]. split; [done|]. lasting_found.
  - intros V _ (H1 & H2 & H3 & H4). by split.
  Unshelve. all: lasting_found.
Qed.

(** ** The sweep of a node *)

Lemma lasting_here schema ptr φ : lasting φ → lasting (λ V, here schema ptr V ∧ φ V).
Proof. intros Hφ V V' HV []. split; [done|]. by eapply Hφ. Qed.

Lemma node_swept r ms ptr depth st : plain_schema (JObject r ms) = true →
  swept (here (JObject r ms) ptr) st
    (scan_positions scan (JObject r ms) ptr depth (foldl (check_keyword root scan ptr depth) st ms))
    (λ V, (∀ key v, (key, v) ∈ ms → looked_at key v V) ∧ placed (JObject r ms) V).
Proof.
  intros Hp. eapply swept_seq; [apply lasting_pure| | |by apply positions_swept].
  { intros V V' HV Hl key v Hin. eapply lasting_looked; [done|]. by apply Hl. }
  eapply swept_conseq; [eapply (foldl_each _ sure (λ m, looked_at m.1 m.2))|done| |apply lasting_pure].
  - apply lasting_pure.
  - intros m. apply lasting_looked.
  - intros [key v] st' Hin. apply keyword_swept. by eapply plain_object.
  - intros V _ Hl key v Hin. by apply (Hl (key, v)).
Qed.

Lemma node_finished r ms ptr V : pointer_node root ptr = Some (JObject r ms) →
  (∀ key v, (key, v) ∈ ms → looked_at key v V) → placed (JObject r ms) V → finished V ptr.
Proof.
  intros Hn Hl Hpl. exists (JObject r ms). split_and!; [done| |].
  - intros key v Hin. by apply Hl.
  - assert (∀ key v, member_opt (JObject r ms) key = Some v → looked_at key v V) as Hm.
    { intros key v (? & ? & [= <- <-] & Hin)%member_inv. by apply Hl. }
    intros sub [props key s Hpr Hk|s Ha Ho|s Hi|name v bs s Hin Hv Hb Hs|v target s Hv Ht Hr].
    + by eapply pl_properties.
    + by eapply pl_additional.
    + eapply pl_items; [done..|]. by apply (Hm _ _ Hi).
    + by eapply pl_branches.
    + by eapply (Hm _ _ Hv).
Qed.

(** A first visit: the pointer is entered, and what follows finishes it. *)
Lemma visit_swept schema ptr st st' : ptr ∉ sn_visited st →
  swept (here schema ptr) (mkScan (sn_findings st) ({[ptr]} ∪ sn_visited st)) st' (λ V, finished V ptr) →
  swept (λ V, pointer_node root ptr = Some schema ∨ ptr ∈ V) st st' (λ V, ptr ∈ V).
Proof.
  intros Hnew Hs Hc. destruct (Hs Hc) as [Hc1 Hr]. cbn [sn_findings sn_visited] in *. split; [done|].
  intros [Hn|]; [|done]. destruct (Hr Hn) as (Hsub & Hfin & Hptr). split_and!; [set_solver| |set_solver].
  intros q Hq Hout. destruct (decide (q = ptr)) as [->|Hne]; [done|]. apply Hfin; set_solver.
Qed.

Lemma boolean_finished b ptr V : pointer_node root ptr = Some (JBool b) → finished V ptr.
Proof. intros Hn. exists (JBool b). split_and!; [done..|]. by intros sub []. Qed.

Lemma step_swept schema ptr depth st : plain_schema schema = true →
  swept (λ V, pointer_node root ptr = Some schema ∨ ptr ∈ V) st (scan_step root scan schema ptr depth st)
    (λ V, ptr ∈ V).
Proof.
  intros Hp. unfold scan_step.
  destruct (Nat.leb_spec MAX_FINDINGS (length (sn_findings st))) as [Hfull|_]; cbn [orb].
  { intros Hc. rewrite Hc in Hfull. cbn in Hfull. unfold MAX_FINDINGS in Hfull. lia. }
  case_bool_decide as Hv; [intros Hc; split; [done|]; intros _; split_and!; [done| |done]; by intros q ? ?|].
  apply visit_swept; [done|].
  destruct (Nat.ltb_spec MAX_SCHEMA_DEPTH depth); [apply push_finding_swept|].
  destruct schema as [|b| | | | |r ms]; try apply push_finding_swept.
  - apply swept_same. intros V. apply boolean_finished.
  - eapply swept_conseq; [by apply node_swept|auto| |apply lasting_pure].
    intros V Hh [Hl Hpl]. by eapply node_finished.
Qed.
End scanning.

Lemma scan_swept fuel : ∀ schema ptr depth st, plain_schema schema = true →
  swept (λ V, pointer_node root ptr = Some schema ∨ ptr ∈ V) st (scan_schema root fuel schema ptr depth st)
    (λ V, ptr ∈ V).
Proof.
  induction fuel as [|f IH]; intros schema ptr depth st Hp; cbn [scan_schema]; [apply push_finding_swept|].
  by apply step_swept.
Qed.

(** The nodes of a scan without findings. *)
Lemma clean_scan_closed fuel V : scan_schema root fuel root "#" 0 (mkScan [] ∅) = mkScan [] V →
  closed root (found V) ∧ found V root.
Proof.
  intros E. destruct (scan_swept fuel root "#" 0 (mkScan [] ∅) Hroot) as [_ Hr]; [by rewrite E|].
  destruct Hr as (_ & Hfin & Hin); [by left|]. rewrite E in Hfin, Hin. cbn in Hfin, Hin. split.
  - intros schema (q & Hq & Hqn). destruct (Hfin q Hq) as (node & Hn & Hs & Hsucc); [set_solver|].
    rewrite Hqn in Hn. by injection Hn as ->.
  - by exists "#"%string.
Qed.
End sweeps.

(** [C33] A schema that loads without findings, and that spells no reference
    with percent escapes, no count with a sign and no zero divisor with an
    exponent, never fails an evaluation for what it is: whatever the arguments
    and the budgets, a fatal error is the exhaustion of a budget, the depth
    limit, a number whose text the exact decimals cannot hold, or a divisibility
    test over its work bound; in particular no divisor is refused as not
    positive. *)
Theorem clean_schema_evaluates `{SchemaLib} schema_str schema arguments ev :
  parse_json schema_str = Ok schema → unsupported_schema_findings schema_str = [] →
  plain_schema schema = true →
  match (validate_value schema VALIDATE_FUEL arguments schema "" 0 ev).2 with
  | Err (Fatal e) => excused e
  | _ => True
  end.
Proof.
  intros Hparse Hf Hp. unfold unsupported_schema_findings in Hf. rewrite Hparse in Hf.
  destruct (scan_schema _ _ _ _ _ _) as [fs V] eqn:E. cbn in Hf. subst.
  destruct (clean_scan_closed schema Hp _ V E) as [Hcl Hin].
  apply (closed_faultless schema (found schema V)); [done|done|unfold MAX_SCHEMA_DEPTH|unfold VALIDATE_FUEL]; lia.
Qed.

(** ** The fuel of the scan *)

Lemma foldl_ext {A B} (f g : A → B → A) l : (∀ a b, f a b = g a b) → ∀ a, foldl f a l = foldl g a l.
Proof. intros Hfg. induction l as [|b l IH]; intros a; cbn; [done|]. by rewrite Hfg, IH. Qed.

Section fuel.
Context `{SchemaLib} (root : Json) (scan1 scan2 : Json → string → nat → ScanState → ScanState).

Lemma step_ext schema ptr depth st :
  ((depth ≤ MAX_SCHEMA_DEPTH)%nat → ∀ s p st, scan1 s p (S depth) st = scan2 s p (S depth) st) →
  scan_step root scan1 schema ptr depth st = scan_step root scan2 schema ptr depth st.
Proof.
  intros Heq. unfold scan_step. destruct (_ || _); [done|].
  destruct (Nat.ltb_spec MAX_SCHEMA_DEPTH depth) as [|Hd]; [done|]. specialize (Heq Hd).
  destruct schema as [| | | | | |r ms]; [reflexivity..|].
  assert (∀ name st, scan_members scan1 (JObject r ms) name ptr depth st
    = scan_members scan2 (JObject r ms) name ptr depth st) as Hm.
  { intros name st'. unfold scan_members. case_match; [|done]. apply foldl_ext. intros. apply Heq. }
  assert (∀ ok name st, scan_single scan1 ok (JObject r ms) name ptr depth st
    = scan_single scan2 ok (JObject r ms) name ptr depth st) as Hs.
  { intros ok name st'. unfold scan_single. repeat case_match; [apply Heq|done..]. }
  assert (∀ name subs i st, scan_elements scan1 ptr name depth i subs st
    = scan_elements scan2 ptr name depth i subs st) as He.
  { intros name subs. induction subs as [|s subs IH]; intros i st'; cbn; [done|]. by rewrite Heq, IH. }
  assert (∀ v st, ref_shape root scan1 v ptr depth st = ref_shape root scan2 v ptr depth st) as Hr.
  { intros v st'. unfold ref_shape. repeat case_match; [apply Heq|done..]. }
  unfold scan_positions. rewrite !Hm, !Hs.
  rewrite (foldl_ext (check_keyword root scan1 ptr depth) (check_keyword root scan2 ptr depth)).
  - rewrite (foldl_ext (scan_branches scan1 (JObject r ms) ptr depth) (scan_branches scan2 (JObject r ms) ptr depth)); [reflexivity|].
    intros st' name. unfold scan_branches. case_match; [apply He|done].
  - intros st' [key v]. unfold check_keyword, check_keyword_shape. rewrite Hr. reflexivity.
Qed.
End fuel.

(** More fuel does not change a scan that starts at the root. *)
Lemma scan_fuel_enough `{SchemaLib} root fuel extra : ∀ schema ptr depth st,
  (SCAN_FUEL ≤ fuel + depth)%nat → (depth ≤ S MAX_SCHEMA_DEPTH)%nat →
  scan_schema root (fuel + extra) schema ptr depth st = scan_schema root fuel schema ptr depth st.
Proof.
  unfold SCAN_FUEL. induction fuel as [|f IH]; intros schema ptr depth st Hf Hd; [lia|].
  cbn [Nat.add scan_schema]. apply step_ext. intros Hle s p st'. apply IH; lia.
Qed.

(** ** Concrete schemas *)

(** A parser that reads every text as the schema at hand, and a regular
    expression library without expressions. *)
Definition reads_as (schema : Json) : SchemaLib := {|
  parse_json := λ _, Ok schema;
  regex_new := λ _, Err "no regex";
  regex_is_match := λ _ _, false;
  kind_error := λ _, "unexpected kind"
|}.

Definition word (s : string) : Json := JString s s.
Definition obj (ms : list (string * Json)) : Json := JObject "" ms.
Definition full_budget : EvalState := mkEval MAX_BRANCH_EVALS MAX_NODE_EVALS.

(** [{"type": "object", "required": ["n"], "properties": {"n": {"type":
    "integer", "minimum": 2, "multipleOf": 3}}}]. *)
Definition even_steps : Json :=
  obj [("type", word "object"); ("required", JArray "" [word "n"]);
       ("properties", obj [("n", obj [("type", word "integer"); ("minimum", JInteger "2");
                                      ("multipleOf", JInteger "3")])])]%string.

Definition n_is (raw : string) : Json := obj [("n", JInteger raw)]%string.

Lemma schema_evaluation_decides_witness :
  @conforms (reads_as even_steps) even_steps VALIDATE_FUEL (n_is "6") even_steps
  ∧ ¬ @conforms (reads_as even_steps) even_steps VALIDATE_FUEL (n_is "7") even_steps.
Proof.
  pose proof (@schema_evaluation_decides (reads_as even_steps) even_steps (n_is "6") even_steps ""
    full_budget VALIDATE_FUEL (Nat.le_refl _)) as H6.
  pose proof (@schema_evaluation_decides (reads_as even_steps) even_steps (n_is "7") even_steps ""
    full_budget VALIDATE_FUEL (Nat.le_refl _)) as H7.
  destruct (validate_value _ _ (n_is "6") _ _ _ _) as [ev6 [u|e]] eqn:E6; [|vm_compute in E6; discriminate].
  destruct (validate_value _ _ (n_is "7") _ _ _ _) as [ev7 [u'|[m|m]]] eqn:E7;
    [vm_compute in E7; discriminate| |vm_compute in E7; discriminate].
  split; [exact H6|exact H7].
Defined.

(** [{"$ref": "#"}]: a schema that is its own reference. *)
Definition looping : Json := obj [("$ref", word "#")]%string.

Lemma schema_evaluation_terminates_witness :
  @validate_value (reads_as looping) looping 5000 JNull looping "" 0 full_budget
    = @validate_value (reads_as looping) looping VALIDATE_FUEL JNull looping "" 0 full_budget
  ∧ spent_from full_budget (@validate_value (reads_as looping) looping VALIDATE_FUEL JNull looping "" 0 full_budget).1.
Proof.
  apply (@schema_evaluation_terminates (reads_as looping) looping JNull looping "" full_budget 5000).
  - apply Nat.leb_le. reflexivity.
  - split; vm_compute; discriminate.
Defined.

(** [{"type": "object", "properties": {"next": {"$ref": "#"}}, "anyOf": [true,
    {"required": ["next"]}]}]: a list of any length. *)
Definition chain : Json :=
  obj [("type", word "object"); ("properties", obj [("next", looping)]);
       ("anyOf", JArray "" [JBool true; obj [("required", JArray "" [word "next"])]])]%string.

Lemma clean_schema_evaluates_witness :
  match (@validate_value (reads_as chain) chain VALIDATE_FUEL (n_is "1") chain "" 0 full_budget).2 with
  | Err (Fatal e) => excused e
  | _ => True
  end.
Proof.
  apply (@clean_schema_evaluates (reads_as chain) "" chain (n_is "1") full_budget);
    [reflexivity|vm_compute; reflexivity|reflexivity].
Defined.

(** A schema that loads without a finding and fails on a value. *)
Definition loads_and_fails (schema value : Json) (why : string) : Prop :=
  @unsupported_schema_findings (reads_as schema) "" = []
  ∧ @validate_arguments (reads_as schema) value "" = Err why
  ∧ (@validate_value (reads_as schema) schema VALIDATE_FUEL value schema "" 0 full_budget).2 = Err (Fatal why).

(** [{"minLength": -0}]: not negative when it is loaded, not a [usize] when it
    is evaluated. *)
Lemma negative_zero_count : ∃ why,
  loads_and_fails (obj [("minLength", JInteger "-0")]%string) (word "a") why.
Proof. eexists. split_and!; vm_compute; reflexivity. Qed.

(** [{"multipleOf": 0e5}]: the scan takes the digit of the exponent for a digit
    of the number, which is zero. *)
Lemma zero_divisor_loads : ∃ why,
  loads_and_fails (obj [("multipleOf", JFloat "0e5")]%string) (JInteger "1") why.
Proof. eexists. split_and!; vm_compute; reflexivity. Qed.

(** The reference is decoded where it is resolved, but its spelling is what
    the scan remembers: a member of that name was visited before, and the node
    that the reference names is never looked at. *)
Definition aliased : Json :=
  obj [("properties", obj [("a", obj [("default", obj [("bogus", JInteger "1")])]);
                           ("a%2Fdefault", JBool true);
                           ("b", obj [("$ref", word "#/properties/a%2Fdefault")])])]%string.

Lemma percent_reference_unscanned : ∃ why, loads_and_fails aliased (obj [("b", JNull)]%string) why.
Proof. eexists. split_and!; vm_compute; reflexivity. Qed.
