(* ===== verification/JsonCanon.v ===== *)
(** * JsonCanon: the canonical text of a JSON document

    The hand-written parser and printer of [src/src/verifier/json_canon.rs],
    on which the pins of tool listings rest.  The source walks a byte slice by
    index; here a parser takes the bytes that are left, and an index in an
    error is the total length less what is left.  An error is one constructor
    per site.  The input is a [str]: the re-decoding of spans between ASCII
    delimiters cannot fail and is left out. *)

From S2P Require Import Prelude Text IpAddr.

Open Scope Z_scope.
Open Scope result_scope.

Notation "' p ←? r ; k" := (result_bind r (λ p, k))
  (at level 20, p pattern, r at level 100, k at level 200, right associativity) : result_scope.

Inductive CanonError :=
  | EmptyInput
  | TrailingCharacters (at_ : Z)
  | NestingExceeded
  | UnexpectedEnd
  | ExpectedColon (at_ : Z)
  | EndInObject
  | ExpectedCommaOrBrace (at_ : Z)
  | EndInArray
  | ExpectedCommaOrBracket (at_ : Z)
  | IncompleteUnicodeEscape
  | InvalidUnicodeEscape
  | UnpairedHighSurrogate (cp : Z)
  | ExpectedLowSurrogate (cp low : Z)
  | UnpairedLowSurrogate (cp : Z)
  | ExpectedQuote (at_ : Z)
  | EndInEscape
  | InvalidEscape (c : ascii)
  | UnescapedControl (at_ : Z)
  | UnterminatedString
  | InvalidNumber (at_ : Z)
  | InvalidLiteral (at_ : Z).

Inductive JsonVal :=
  | VNull
  | VBool (b : bool)
  | VNum (raw : string)
  | VStr (s : string)
  | VArray (elems : list JsonVal)
  | VObject (pairs : list (string * JsonVal)).

(** The bound of the source: depth 65 is refused, so there is room for 65
    levels. *)
Definition MAX_JSON_DEPTH : nat := 64.

Definition QUOTE : ascii := ascii_of_nat 34.
Definition SLASH : ascii := ascii_of_nat 92.

Definition is_json_ws (c : ascii) : bool :=
  (code c =? 32) || (code c =? 9) || (code c =? 10) || (code c =? 13).

Fixpoint skip_ws (s : string) : string :=
  match s with
  | String c s' => if is_json_ws c then skip_ws s' else s
  | EmptyString => EmptyString
  end.

(** ** Characters *)

Definition char_byte (n : Z) : ascii := ascii_of_nat (Z.to_nat n).

(** [String::push] of a character. *)
Definition push_char (cp : Z) : string :=
  if cp <? 0x80 then String (char_byte cp) ""
  else if cp <? 0x800 then
    String (char_byte (0xC0 + cp / 64)) (String (char_byte (0x80 + cp mod 64)) "")
  else if cp <? 0x10000 then
    String (char_byte (0xE0 + cp / 4096)) (String (char_byte (0x80 + cp / 64 mod 64))
      (String (char_byte (0x80 + cp mod 64)) ""))
  else
    String (char_byte (0xF0 + cp / 262144)) (String (char_byte (0x80 + cp / 4096 mod 64))
      (String (char_byte (0x80 + cp / 64 mod 64)) (String (char_byte (0x80 + cp mod 64)) ""))).

(** [u32::from_str_radix(hex, 16)], which takes a leading [+]. *)
Definition parse_hex4 (a b c d : ascii) : result Z CanonError :=
  match from_str_radix 16 U32_MAX (String a (String b (String c (String d "")))) with
  | Some cp => Ok cp
  | None => Err InvalidUnicodeEscape
  end.

Definition is_high (cp : Z) : bool := (0xD800 <=? cp) && (cp <=? 0xDBFF).
Definition is_low (cp : Z) : bool := (0xDC00 <=? cp) && (cp <=? 0xDFFF).

Definition simple_escape (c : ascii) : option ascii :=
  let n := code c in
  if n =? 34 then Some QUOTE
  else if n =? 92 then Some SLASH
  else if n =? 47 then Some c
  else if n =? 98 then Some (char_byte 8)
  else if n =? 102 then Some (char_byte 12)
  else if n =? 110 then Some (char_byte 10)
  else if n =? 114 then Some (char_byte 13)
  else if n =? 116 then Some (char_byte 9)
  else None.

Section parser.
(** [b.len()]. *)
Context (total : Z).

Definition index (rest : string) : Z := total - Z.of_nat (String.length rest).

(** Decoded text put before what the rest of the string decodes to. *)
Definition prefixed (p : string) (r : result (string * string) CanonError)
  : result (string * string) CanonError :=
  match r with
  | Ok (s, rest) => Ok (p +:+ s, rest)
  | Err e => Err e
  end.

(** The bytes of a string after its opening quote. *)
Fixpoint string_body (b : string) : result (string * string) CanonError :=
  match b with
  | EmptyString => Err UnterminatedString
  | String c rest =>
      if Ascii.eqb c SLASH then
        match rest with
        | EmptyString => Err EndInEscape
        | String e rest =>
            match simple_escape e with
            | Some x => prefixed (String x "") (string_body rest)
            | None =>
                if Ascii.eqb e "u" then
                  match rest with
                  | String h1 (String h2 (String h3 (String h4 rest))) =>
                      cp ←? parse_hex4 h1 h2 h3 h4;
                      if is_high cp then
                        match rest with
                        | String c1 (String c2 (String l1 (String l2 (String l3 (String l4 rest))))) =>
                            if Ascii.eqb c1 SLASH && Ascii.eqb c2 "u" then
                              low ←? parse_hex4 l1 l2 l3 l4;
                              if is_low low
                              then prefixed (push_char (0x10000 + (cp - 0xD800) * 1024 + (low - 0xDC00)))
                                     (string_body rest)
                              else Err (ExpectedLowSurrogate cp low)
                            else Err (UnpairedHighSurrogate cp)
                        | _ => Err (UnpairedHighSurrogate cp)
                        end
                      else if is_low cp then Err (UnpairedLowSurrogate cp)
                      else prefixed (push_char cp) (string_body rest)
                  | _ => Err IncompleteUnicodeEscape
                  end
                else Err (InvalidEscape e)
            end
        end
      else if Ascii.eqb c QUOTE then Ok (EmptyString, rest)
      else if code c <? 32 then Err (UnescapedControl (index b))
      else prefixed (String c "") (string_body rest)
  end.

Definition parse_string (b : string) : result (string * string) CanonError :=
  match skip_ws b with
  | String c rest => if Ascii.eqb c QUOTE then string_body rest else Err (ExpectedQuote (index (skip_ws b)))
  | EmptyString => Err (ExpectedQuote (index ""))
  end.

(** ** Numbers *)

Fixpoint span_digits (b : string) : string * string :=
  match b with
  | String c rest =>
      if is_ascii_digit c then let '(ds, rest) := span_digits rest in (String c ds, rest)
      else (EmptyString, b)
  | EmptyString => (EmptyString, EmptyString)
  end.

Definition int_part (b : string) : option (string * string) :=
  match b with
  | String c rest =>
      if Ascii.eqb c "0" then
        match rest with
        | String d _ => if is_ascii_digit d then None else Some ("0"%string, rest)
        | EmptyString => Some ("0"%string, rest)
        end
      else if is_ascii_digit c then Some (span_digits b)
      else None
  | EmptyString => None
  end.

(** At least one digit. *)
Definition digits1 (b : string) : option (string * string) :=
  let '(ds, rest) := span_digits b in if is_empty ds then None else Some (ds, rest).

Definition frac_part (b : string) : option (string * string) :=
  match b with
  | String c rest =>
      if Ascii.eqb c "." then prod_map (String c) id <$> digits1 rest else Some (EmptyString, b)
  | EmptyString => Some (EmptyString, b)
  end.

Definition exp_part (b : string) : option (string * string) :=
  match b with
  | String c rest =>
      if Ascii.eqb c "e" || Ascii.eqb c "E" then
        match rest with
        | String s rest' =>
            if Ascii.eqb s "+" || Ascii.eqb s "-"
            then prod_map (λ ds, String c (String s ds)) id <$> digits1 rest'
            else prod_map (String c) id <$> digits1 rest
        | EmptyString => None
        end
      else Some (EmptyString, b)
  | EmptyString => Some (EmptyString, b)
  end.

Definition sign_part (b : string) : string * string :=
  match b with
  | String c rest => if Ascii.eqb c "-" then ("-"%string, rest) else (EmptyString, b)
  | EmptyString => (EmptyString, EmptyString)
  end.

Definition number_text (b : string) : option (string * string) :=
  let '(sign, b1) := sign_part b in
  '(i, b2) ← int_part b1;
  '(f, b3) ← frac_part b2;
  '(e, b4) ← exp_part b3;
  Some (sign +:+ i +:+ f +:+ e, b4).

Definition parse_number (b : string) : result (JsonVal * string) CanonError :=
  match number_text b with
  | Some (raw, rest) => Ok (VNum raw, rest)
  | None => Err (InvalidNumber (index b))
  end.

Definition parse_bool (b : string) : result (JsonVal * string) CanonError :=
  match strip_prefix "true" b with
  | Some rest => Ok (VBool true, rest)
  | None =>
      match strip_prefix "false" b with
      | Some rest => Ok (VBool false, rest)
      | None => Err (InvalidLiteral (index b))
      end
  end.

Definition parse_null (b : string) : result (JsonVal * string) CanonError :=
  match strip_prefix "null" b with
  | Some rest => Ok (VNull, rest)
  | None => Err (InvalidLiteral (index b))
  end.

(** ** Objects and arrays *)

(** [sort_by] on the keys: stable. *)
Fixpoint insert_pair {A} (p : string * A) (l : list (string * A)) : list (string * A) :=
  match l with
  | [] => [p]
  | q :: l' => if decide (ord_le p.1 q.1) then p :: l else q :: insert_pair p l'
  end.
Definition sort_pairs {A} (l : list (string * A)) : list (string * A) := foldr insert_pair [] l.

Section containers.
Context (parse : string → result (JsonVal * string) CanonError).

(** The loop of [parse_object] from a key on; every turn takes bytes, so the
    bytes left are enough turns. *)
Fixpoint object_loop (turns : nat) (b : string) : result (list (string * JsonVal) * string) CanonError :=
  match turns with
  | O => Err EndInObject
  | S turns =>
      '(key, b) ←? parse_string (skip_ws b);
      match skip_ws b with
      | EmptyString => Err (ExpectedColon (index ""))
      | String c rest =>
          if negb (Ascii.eqb c ":") then Err (ExpectedColon (index (skip_ws b)))
          else
            '(val, b) ←? parse rest;
            match skip_ws b with
            | EmptyString => Err EndInObject
            | String c rest =>
                if Ascii.eqb c "}" then Ok ([(key, val)], rest)
                else if negb (Ascii.eqb c ",") then Err (ExpectedCommaOrBrace (index (skip_ws b)))
                else '(pairs, b) ←? object_loop turns rest; Ok ((key, val) :: pairs, b)
            end
      end
  end.

(** After the opening brace. *)
Definition parse_object (b : string) : result (JsonVal * string) CanonError :=
  let b := skip_ws b in
  match strip_prefix "}" b with
  | Some rest => Ok (VObject [], rest)
  | None => '(pairs, rest) ←? object_loop (S (String.length b)) b; Ok (VObject (sort_pairs pairs), rest)
  end.

Fixpoint array_loop (turns : nat) (b : string) : result (list JsonVal * string) CanonError :=
  match turns with
  | O => Err EndInArray
  | S turns =>
      '(val, b) ←? parse b;
      match skip_ws b with
      | EmptyString => Err EndInArray
      | String c rest =>
          if Ascii.eqb c "]" then Ok ([val], rest)
          else if negb (Ascii.eqb c ",") then Err (ExpectedCommaOrBracket (index (skip_ws b)))
          else '(elems, b) ←? array_loop turns rest; Ok (val :: elems, b)
      end
  end.

Definition parse_array (b : string) : result (JsonVal * string) CanonError :=
  let b := skip_ws b in
  match strip_prefix "]" b with
  | Some rest => Ok (VArray [], rest)
  | None => '(elems, rest) ←? array_loop (S (String.length b)) b; Ok (VArray elems, rest)
  end.
End containers.

(** [room] is the number of levels left. *)
Fixpoint parse_value_at (room : nat) (b : string) : result (JsonVal * string) CanonError :=
  match room with
  | O => Err NestingExceeded
  | S room =>
      match skip_ws b with
      | EmptyString => Err UnexpectedEnd
      | String c rest =>
          if Ascii.eqb c "{" then parse_object (parse_value_at room) rest
          else if Ascii.eqb c "[" then parse_array (parse_value_at room) rest
          else if Ascii.eqb c QUOTE then '(s, rest) ←? string_body rest; Ok (VStr s, rest)
          else if Ascii.eqb c "t" || Ascii.eqb c "f" then parse_bool (String c rest)
          else if Ascii.eqb c "n" then parse_null (String c rest)
          else parse_number (String c rest)
      end
  end.
End parser.

Definition parse_value (b : string) : result (JsonVal * string) CanonError :=
  parse_value_at (Z.of_nat (String.length b)) (S MAX_JSON_DEPTH) b.

(** ** Printing *)

(** Escapes are all on ASCII characters: the bytes of others pass. *)
Definition write_char (c : ascii) : string :=
  let n := code c in
  let escaped x := String SLASH (String x "") in
  if n =? 34 then escaped QUOTE
  else if n =? 92 then escaped SLASH
  else if n =? 10 then escaped "n"%char
  else if n =? 13 then escaped "r"%char
  else if n =? 9 then escaped "t"%char
  else if n =? 8 then escaped "b"%char
  else if n =? 12 then escaped "f"%char
  else if n <? 32 then String SLASH ("u00" +:+ String (digit_char (n / 16)) (String (digit_char (n mod 16)) ""))
  else String c "".

Fixpoint write_chars (s : string) : string :=
  match s with
  | EmptyString => EmptyString
  | String c s' => write_char c +:+ write_chars s'
  end.

Definition write_json_string (s : string) : string := String QUOTE (write_chars s +:+ String QUOTE "").

(** Items separated by commas. *)
Definition commas (items : list string) : string := join "," items.

Fixpoint write_normalized (v : JsonVal) : string :=
  match v with
  | VNull => "null"
  | VBool true => "true"
  | VBool false => "false"
  | VNum raw => raw
  | VStr s => write_json_string s
  | VArray elems => "[" +:+ commas (write_normalized <$> elems) +:+ "]"
  | VObject pairs =>
      "{" +:+ commas ((λ p, write_json_string p.1 +:+ ":" +:+ write_normalized p.2) <$> pairs) +:+ "}"
  end.

(** ** Normalizing *)

(** The whole document. *)
Definition parse_document (input : string) : result JsonVal CanonError :=
  let b := trim input in
  if is_empty b then Err EmptyInput
  else
    '(v, rest) ←? parse_value b;
    let rest := skip_ws rest in
    if is_empty rest then Ok v
    else Err (TrailingCharacters (index (Z.of_nat (String.length b)) rest)).

Definition normalize_json (input : string) : result string CanonError :=
  v ←? parse_document input; Ok (write_normalized v).
