(* ===== verification/CanonTheorems.v ===== *)
(** * CanonTheorems: canonical texts read back

    A parsed document is in normal form ([canonical]: sorted members, numbers
    as the grammar reads them, nesting within bounds); the text of a value in
    normal form parses to that value, whatever follows it.  So normalizing is
    idempotent and two documents have one canonical text exactly when they
    have one parse. *)

From S2P Require Import Prelude Text IpAddr JsonCanon.

Open Scope Z_scope.
Open Scope result_scope.

(** ** Strings *)

Lemma skip_ws_graphic c s : graphic c = true → skip_ws (String c s) = String c s.
Proof.
  intros Hg. cbn. assert (is_json_ws c = false) as ->; [|done].
  unfold is_json_ws, graphic in *. lia.
Qed.

Section reading.
Context (total : Z).

(** One written character is one step of the reader. *)
Lemma body_write_char c t :
  string_body total (write_char c +:+ t) = prefixed (String c "") (string_body total t).
Proof. destruct c as [[] [] [] [] [] [] [] []]; reflexivity. Qed.

Lemma body_write s rest : string_body total (write_chars s +:+ String QUOTE rest) = Ok (s, rest).
Proof.
  induction s as [|c s IH]; [done|]. cbn [write_chars].
  by rewrite app_assoc_string, body_write_char, IH.
Qed.

Lemma parse_write_string s rest : parse_string total (write_json_string s +:+ rest) = Ok (s, rest).
Proof.
  unfold write_json_string, parse_string. rewrite app_cons_string, skip_ws_graphic by done.
  rewrite app_assoc_string. apply body_write.
Qed.
End reading.

(** ** Numbers *)

(** Text at which a number ends. *)
Definition no_char (p : ascii → bool) (t : string) : Prop := match t with String c _ => p c = false | _ => True end.
Definition stop_char (c : ascii) : bool :=
  is_ascii_digit c || Ascii.eqb c "." || Ascii.eqb c "e" || Ascii.eqb c "E".
Definition stops (t : string) : Prop := no_char stop_char t.

#[local] Arguments is_ascii_digit : simpl never.
#[local] Arguments Ascii.eqb : simpl never.

Lemma span_digits_none t : no_char is_ascii_digit t → span_digits t = ("", t).
Proof. destruct t as [|c t]; [done|]. cbn. by intros ->. Qed.

Lemma span_digits_stop b ds r t : span_digits b = (ds, r) → no_char is_ascii_digit t →
  b = ds +:+ r ∧ no_char is_ascii_digit r ∧ span_digits (ds +:+ t) = (ds, t).
Proof.
  intros E Ht. revert ds r E. induction b as [|c b IH]; intros ds r; cbn.
  - intros [= <- <-]. split_and!; [done..|]. by apply span_digits_none.
  - destruct (is_ascii_digit c) eqn:Ec.
    + destruct (span_digits b) as [ds' r'] eqn:Eb. intros [= <- <-].
      destruct (IH ds' r' eq_refl) as (-> & Hr & Hs). split_and!; [done..|].
      rewrite app_cons_string. cbn. by rewrite Ec, Hs.
    + intros [= <- <-]. split_and!; [done|done|]. by apply span_digits_none.
Qed.

(** A part of a number: what it takes is a prefix, and it takes that prefix
    again before any text that [ok] allows. *)
Definition part_stable (part : string → option (string * string)) (ok : string → string → Prop) : Prop :=
  ∀ b x r, part b = Some (x, r) → ok x r ∧ b = x +:+ r ∧ ∀ t, ok x t → part (x +:+ t) = Some (x, t).

Lemma digits1_stable : part_stable digits1 (λ x t, x ≠ "" ∧ no_char is_ascii_digit t).
Proof.
  intros b x r. unfold digits1. destruct (span_digits b) as [ds r'] eqn:E.
  destruct ds as [|c ds]; [done|]. cbn [is_empty]. intros [= <- <-].
  destruct (span_digits_stop b _ _ "" E I) as (Hb & Hr & _). split_and!; [done..|]. intros t [_ Ht].
  destruct (span_digits_stop b _ _ t E Ht) as (_ & _ & ->). done.
Qed.

Lemma int_stable : part_stable int_part (λ x t, no_char is_ascii_digit t).
Proof.
  intros b x r. destruct b as [|c b]; [done|]. cbn -[span_digits].
  destruct (Ascii.eqb_spec c "0") as [->|Hz].
  - intros E. assert (x = "0"%string ∧ r = b ∧ no_char is_ascii_digit b) as (-> & -> & Hb).
    { destruct b as [|d b]; [by injection E as <- <-|]. destruct (is_ascii_digit d) eqn:Ed; [done|].
      by injection E as <- <-. }
    split_and!; [done..|]. intros t Ht. rewrite app_cons_string, app_empty_string.
    destruct t as [|d t]; [done|]. cbn in *. by rewrite Ht.
  - destruct (is_ascii_digit c) eqn:Ec; [|done]. intros [= E]. change (span_digits (String c b) = (x, r)) in E.
    destruct (span_digits_stop _ _ _ "" E I) as (Hb & Hr & _). split_and!; [done..|]. intros t Ht.
    destruct (span_digits_stop _ _ _ t E Ht) as (_ & _ & Hs).
    cbn [span_digits] in E. rewrite Ec in E. destruct (span_digits b) as [ds r']. injection E as <- <-.
    rewrite app_cons_string in *. cbn -[span_digits]. by rewrite (proj2 (Ascii.eqb_neq c "0") Hz), Ec, Hs.
Qed.

Lemma prefix_inv (f : string → string) (o : option (string * string)) x r :
  prod_map f id <$> o = Some (x, r) → ∃ ds, o = Some (ds, r) ∧ x = f ds.
Proof. destruct o as [[ds r']|]; [|done]. cbn. intros [= <- <-]. eauto. Qed.

(** A part that may be absent, and starts with one of [p]. *)
Definition optional_ok (p : ascii → bool) (x t : string) : Prop :=
  match x with
  | EmptyString => no_char p t
  | String c _ => p c = true ∧ no_char is_ascii_digit t
  end.

Definition is_dot (c : ascii) : bool := Ascii.eqb c ".".
Definition is_e (c : ascii) : bool := Ascii.eqb c "e" || Ascii.eqb c "E".

Lemma frac_stable : part_stable frac_part (optional_ok is_dot).
Proof.
  intros b x r Hb. assert (x = "" ∧ r = b ∧ no_char is_dot b
    ∨ ∃ ds b', b = String "." b' ∧ digits1 b' = Some (ds, r) ∧ x = String "." ds) as Hcases.
  { destruct b as [|c b]; [left; by injection Hb as <- <-|]. cbn in Hb.
    destruct (Ascii.eqb_spec c ".") as [->|Hc].
    - right. apply prefix_inv in Hb as (ds & Hd & ->). eauto.
    - left. injection Hb as <- <-. split_and!; [done..|]. by apply Ascii.eqb_neq. }
  destruct Hcases as [(-> & -> & Hn)|(ds & b' & -> & Hd & ->)].
  - split_and!; [done..|]. intros t Ht. rewrite app_empty_string. destruct t as [|c t]; [done|].
    cbn in Ht |- *. unfold is_dot in Ht. by rewrite Ht.
  - destruct (digits1_stable _ _ _ Hd) as ([Hne Hr] & -> & Hs). split_and!; [done..|]. intros t [_ Ht].
    rewrite app_cons_string. cbn. rewrite Hs by done. done.
Qed.

Lemma exp_cases b x r : exp_part b = Some (x, r) → x = "" ∧ r = b ∧ no_char is_e b
  ∨ ∃ c ds b', is_e c = true ∧ b = String c b' ∧ x = String c ds
      ∧ (digits1 b' = Some (ds, r) ∧ no_char (λ s, Ascii.eqb s "+" || Ascii.eqb s "-") b' ∨
         ∃ s ds' b'', (Ascii.eqb s "+" || Ascii.eqb s "-") = true ∧ b' = String s b'' ∧ ds = String s ds'
           ∧ digits1 b'' = Some (ds', r)).
Proof.
  destruct b as [|c b]; [intros [= <- <-]; by left|]. cbn.
  destruct (Ascii.eqb c "e" || Ascii.eqb c "E") eqn:Hc.
  - destruct b as [|s b]; [done|]. destruct (Ascii.eqb s "+" || Ascii.eqb s "-") eqn:Hs;
      intros (ds & Hd & ->)%prefix_inv; right.
    + exists c, (String s ds), (String s b). split_and!; [done..|]. right. eauto 10.
    + exists c, ds, (String s b). split_and!; [done..|]. by left.
  - intros [= <- <-]. by left.
Qed.

Lemma exp_stable : part_stable exp_part (optional_ok is_e).
Proof.
  intros b x r Hb. destruct (exp_cases b x r Hb) as [(-> & -> & Hn)|(c & ds & b' & Hc & -> & -> & Hd)].
  - split_and!; [done..|]. intros t Ht. rewrite app_empty_string. destruct t as [|c t]; [done|].
    cbn in Ht |- *. unfold is_e in Ht. by rewrite Ht.
  - unfold is_e in Hc. destruct Hd as [[Hd Hn]|(s & ds' & b'' & Hs & -> & -> & Hd)];
      destruct (digits1_stable _ _ _ Hd) as ([Hne Hr] & -> & Hst);
      (split_and!; [done..|]); intros t [_ Ht]; rewrite !app_cons_string; cbn; rewrite Hc.
    + destruct ds as [|d ds]; [done|]. rewrite app_cons_string in *. cbn in Hn.
      rewrite Hn, <- app_cons_string, Hst by done. done.
    + rewrite Hs, Hst by done. done.
Qed.

Lemma int_head b i r : int_part b = Some (i, r) → ∃ c i', i = String c i' ∧ is_ascii_digit c = true.
Proof.
  destruct b as [|c b]; [done|]. cbn. destruct (Ascii.eqb_spec c "0") as [->|_].
  - destruct b as [|d b]; [intros [= <- <-]; by exists "0"%char, ""%string|].
    destruct (is_ascii_digit d); [done|]. intros [= <- <-]. by exists "0"%char, ""%string.
  - destruct (is_ascii_digit c) eqn:Ec; [|done]. destruct (span_digits b) as [ds r']. intros [= <- <-]. eauto.
Qed.

Lemma digit_sign_part c t : is_ascii_digit c = true → sign_part (String c t) = ("", String c t).
Proof.
  intros Hc. cbn. destruct (Ascii.eqb_spec c "-") as [->|]; [|done]. by vm_compute in Hc.
Qed.

Lemma optional_no_digit p x t : (∀ c, p c = true → is_ascii_digit c = false) → optional_ok p x t →
  no_char is_ascii_digit t → no_char is_ascii_digit (x +:+ t).
Proof. intros Hp. destruct x as [|c x]; [done|]. cbn. intros [Hc _] _. by apply Hp. Qed.

Lemma stops_no_char (p : ascii → bool) t : (∀ c, p c = true → stop_char c = true) → stops t → no_char p t.
Proof.
  intros Hp. destruct t as [|c t]; [done|]. cbn. intros Hc. destruct (p c) eqn:E; [|done].
  by rewrite Hp in Hc.
Qed.

Lemma stop_digit c : is_ascii_digit c = true → stop_char c = true.
Proof. unfold stop_char. by intros ->. Qed.
Lemma stop_dot c : is_dot c = true → stop_char c = true.
Proof. unfold stop_char, is_dot. intros ->. by rewrite orb_true_r. Qed.
Lemma stop_e c : is_e c = true → stop_char c = true.
Proof. unfold stop_char, is_e. rewrite <- orb_assoc. intros ->. by rewrite orb_true_r. Qed.
Lemma dot_no_digit c : is_dot c = true → is_ascii_digit c = false.
Proof. by intros ->%Ascii.eqb_eq. Qed.
Lemma e_no_digit c : is_e c = true → is_ascii_digit c = false.
Proof. unfold is_e. by intros [->%Ascii.eqb_eq| ->%Ascii.eqb_eq]%orb_true_iff. Qed.
Lemma e_no_dot c : is_e c = true → is_dot c = false.
Proof. unfold is_e. by intros [->%Ascii.eqb_eq| ->%Ascii.eqb_eq]%orb_true_iff. Qed.

(** A shape that reads as itself before [t]. *)
Lemma number_reads sg i f e t :
  sg = "-"%string ∨ sg = ""%string → (∃ c i', i = String c i' ∧ is_ascii_digit c = true) →
  (∀ u, no_char is_ascii_digit u → int_part (i +:+ u) = Some (i, u)) →
  (∀ u, optional_ok is_dot f u → frac_part (f +:+ u) = Some (f, u)) →
  (∀ u, optional_ok is_e e u → exp_part (e +:+ u) = Some (e, u)) →
  optional_ok is_dot f (e +:+ t) → optional_ok is_e e t → no_char is_ascii_digit (f +:+ e +:+ t) →
  number_text ((sg +:+ i +:+ f +:+ e) +:+ t) = Some (sg +:+ i +:+ f +:+ e, t).
Proof.
  intros Hsg (c & i' & Ei & Hc) Hi Hf He Of Oe Nd. unfold number_text. rewrite !app_assoc_string.
  assert (sign_part (sg +:+ i +:+ f +:+ e +:+ t) = (sg, i +:+ f +:+ e +:+ t)) as ->.
  { destruct Hsg as [-> | ->]; [done|]. rewrite app_empty_string, Ei, !app_cons_string. by apply digit_sign_part. }
  rewrite Hi by done. cbn [mbind option_bind]. rewrite Hf by done. cbn [mbind option_bind].
  rewrite He by done. done.
Qed.

(** What is read as a number is read again before any text that ends one. *)
Lemma number_stable b raw r : number_text b = Some (raw, r) →
  b = raw +:+ r ∧ ∀ t, stops t → number_text (raw +:+ t) = Some (raw, t).
Proof.
  unfold number_text at 1. destruct (sign_part b) as [sg b1] eqn:Es.
  destruct (int_part b1) as [[i b2]|] eqn:Ei; [|done]. cbn [mbind option_bind].
  destruct (frac_part b2) as [[f b3]|] eqn:Ef; [|done]. cbn [mbind option_bind].
  destruct (exp_part b3) as [[e b4]|] eqn:Ee; [|done]. cbn [mbind option_bind]. intros [= <- <-].
  assert (b = sg +:+ b1 ∧ (sg = "-"%string ∨ sg = ""%string)) as [-> Hsg].
  { destruct b as [|c b]; [by injection Es as <- <-; auto|]. cbn in Es.
    destruct (Ascii.eqb_spec c "-") as [->|]; injection Es as <- <-; auto. }
  destruct (int_stable _ _ _ Ei) as (Oi & -> & Hi). destruct (frac_stable _ _ _ Ef) as (Of & -> & Hf).
  destruct (exp_stable _ _ _ Ee) as (Oe & -> & He). split; [by rewrite !app_assoc_string|]. intros t Ht.
  assert (optional_ok is_e e t) as Oe'.
  { destruct e as [|c e]; [by apply (stops_no_char is_e), Ht; apply stop_e|]. split; [by apply Oe|].
    apply (stops_no_char is_ascii_digit), Ht. apply stop_digit. }
  assert (no_char is_ascii_digit t) as Nt by (apply stops_no_char, Ht; apply stop_digit).
  assert (optional_ok is_dot f (e +:+ t)) as Of'.
  { destruct f as [|c f].
    - destruct e as [|d e]; [apply (stops_no_char is_dot), Ht; apply stop_dot|]. cbn. by apply e_no_dot, Oe.
    - split; [by apply Of|]. eapply optional_no_digit; [apply e_no_digit|done|done]. }
  apply number_reads; [done|by eapply int_head|done..|].
  eapply optional_no_digit; [apply dot_no_digit|done|].
  eapply optional_no_digit; [apply e_no_digit|done|done].
Qed.

(** ** Sorted members *)

Definition key_le {A} (p q : string * A) : Prop := ord_le p.1 q.1.

Lemma insert_pair_perm {A} (p : string * A) l : insert_pair p l ≡ₚ p :: l.
Proof.
  induction l as [|q l IH]; cbn; [done|]. case_decide; [done|]. rewrite IH. apply Permutation_swap.
Qed.

Lemma sort_pairs_perm {A} (l : list (string * A)) : sort_pairs l ≡ₚ l.
Proof.
  unfold sort_pairs. induction l as [|p l IH]; cbn; [done|]. by rewrite insert_pair_perm, IH.
Qed.

Lemma insert_pair_sorted {A} (p : string * A) l :
  StronglySorted key_le l → StronglySorted key_le (insert_pair p l).
Proof.
  induction 1 as [|q l Hl IH Hq]; cbn; [repeat constructor|]. case_decide as Hpq.
  - constructor; [by constructor|]. constructor; [done|]. eapply Forall_impl; [exact Hq|].
    intros x Hx. unfold key_le in *. by transitivity q.1.
  - constructor; [done|]. rewrite insert_pair_perm. constructor; [|done].
    unfold key_le. destruct (total ord_le p.1 q.1); [done|done].
Qed.

Lemma sort_pairs_sorted {A} (l : list (string * A)) : StronglySorted key_le (sort_pairs l).
Proof. unfold sort_pairs. induction l as [|p l IH]; cbn; [constructor|]. by apply insert_pair_sorted. Qed.

Lemma sort_sorted {A} (l : list (string * A)) : StronglySorted key_le l → sort_pairs l = l.
Proof.
  unfold sort_pairs. induction 1 as [|p l Hl IH Hp]; cbn; [done|]. rewrite IH.
  destruct Hp as [|q l Hq _]; cbn; [done|]. by rewrite decide_True.
Qed.

Lemma sort_pairs_idem {A} (l : list (string * A)) : sort_pairs (sort_pairs l) = sort_pairs l.
Proof. apply sort_sorted, sort_pairs_sorted. Qed.

(** ** Normal forms *)

(** Values in normal form that need at most the given levels. *)
Inductive canonical : nat → JsonVal → Prop :=
  | CanNull n : canonical (S n) VNull
  | CanBool n b : canonical (S n) (VBool b)
  | CanNum n raw : number_text raw = Some (raw, "") → canonical (S n) (VNum raw)
  | CanStr n s : canonical (S n) (VStr s)
  | CanArray n elems : Forall (canonical n) elems → canonical (S n) (VArray elems)
  | CanObject n pairs : Forall (λ p, canonical n p.2) pairs → sort_pairs pairs = pairs →
      canonical (S n) (VObject pairs).

Section parsed.
Context (total : Z).

Lemma object_loop_forall (P : JsonVal → Prop) parse turns :
  (∀ b v r, parse b = Ok (v, r) → P v) → ∀ b pairs r,
  object_loop total parse turns b = Ok (pairs, r) → Forall (λ p, P p.2) pairs.
Proof.
  intros Hp. induction turns as [|turns IH]; intros b pairs r; cbn [object_loop]; [done|].
  intros ([key b1] & _ & E)%result_bind_ok. destruct (skip_ws b1) as [|c rest]; [done|].
  destruct (negb _); [done|]. apply result_bind_ok in E as ([v b2] & Hv & E).
  destruct (skip_ws b2) as [|d rest']; [done|]. destruct (Ascii.eqb d "}").
  - injection E as <- <-. repeat constructor. by eapply Hp.
  - destruct (negb _); [done|]. apply result_bind_ok in E as ([pairs' b3] & Hl & [= <- <-]).
    constructor; [by eapply Hp|by eapply IH].
Qed.

Lemma array_loop_forall (P : JsonVal → Prop) parse turns :
  (∀ b v r, parse b = Ok (v, r) → P v) → ∀ b elems r,
  array_loop total parse turns b = Ok (elems, r) → Forall P elems.
Proof.
  intros Hp. induction turns as [|turns IH]; intros b elems r; cbn [array_loop]; [done|].
  intros ([v b2] & Hv & E)%result_bind_ok.
  destruct (skip_ws b2) as [|d rest']; [done|]. destruct (Ascii.eqb d "]").
  - injection E as <- <-. repeat constructor. by eapply Hp.
  - destruct (negb _); [done|]. apply result_bind_ok in E as ([elems' b3] & Hl & [= <- <-]).
    constructor; [by eapply Hp|by eapply IH].
Qed.

(** What is parsed is in normal form. *)
Lemma parsed_canonical n : ∀ b v r, parse_value_at total n b = Ok (v, r) → canonical n v.
Proof.
  induction n as [|n IH]; intros b v r; cbn [parse_value_at]; [done|].
  destruct (skip_ws b) as [|c rest]; [done|].
  destruct (Ascii.eqb c "{").
  { unfold parse_object. destruct (strip_prefix _ _); [intros [= <- <-]; by constructor|].
    intros ([pairs r'] & Hl & [= <- <-])%result_bind_ok. constructor; [|apply sort_pairs_idem].
    rewrite sort_pairs_perm. by eapply object_loop_forall. }
  destruct (Ascii.eqb c "[").
  { unfold parse_array. destruct (strip_prefix _ _); [intros [= <- <-]; by constructor|].
    intros ([elems r'] & Hl & [= <- <-])%result_bind_ok. constructor. by eapply array_loop_forall. }
  destruct (Ascii.eqb c QUOTE); [intros ([s r'] & _ & [= <- <-])%result_bind_ok; constructor|].
  destruct (_ || _); [unfold parse_bool; repeat case_match; try done; intros [= <- <-]; constructor|].
  destruct (Ascii.eqb c "n"); [unfold parse_null; repeat case_match; try done; intros [= <- <-]; constructor|].
  unfold parse_number. destruct (number_text _) as [[raw r']|] eqn:E; [|done]. intros [= <- <-]. constructor.
  destruct (number_stable _ _ _ E) as [_ Hs]. rewrite <- (app_nil_string raw) at 1. by apply Hs.
Qed.
End parsed.

(** ** Written values read back *)

Lemma number_head raw r b : number_text b = Some (raw, r) →
  ∃ c s, raw = String c s ∧ (c = "-"%char ∨ is_ascii_digit c = true).
Proof.
  unfold number_text. destruct (sign_part b) as [sg b1] eqn:Es.
  destruct (int_part b1) as [[i b2]|] eqn:Ei; [|done]. cbn [mbind option_bind].
  destruct (frac_part b2) as [[f b3]|]; [|done]. cbn [mbind option_bind].
  destruct (exp_part b3) as [[e b4]|]; [|done]. cbn [mbind option_bind]. intros [= <- <-].
  destruct (int_head _ _ _ Ei) as (c & i' & -> & Hc).
  destruct b as [|d b]; cbn in Es; [injection Es as <- <-; eauto|].
  destruct (Ascii.eqb_spec d "-") as [->|]; injection Es as <- <-; rewrite ?app_cons_string; eauto.
Qed.

(** A character that starts a number starts nothing else. *)
Lemma number_char c : c = "-"%char ∨ is_ascii_digit c = true →
  graphic c = true ∧ Ascii.eqb c "{" = false ∧ Ascii.eqb c "[" = false ∧ Ascii.eqb c QUOTE = false
  ∧ Ascii.eqb c "t" || Ascii.eqb c "f" = false ∧ Ascii.eqb c "n" = false
  ∧ Ascii.eqb c "]" = false ∧ Ascii.eqb c "}" = false.
Proof. intros [->|Hc]; [done|]. destruct c as [[] [] [] [] [] [] [] []]; vm_compute in Hc |- *; naive_solver. Qed.

Lemma write_head n v : canonical n v → ∃ c s, write_normalized v = String c s ∧ graphic c = true
  ∧ Ascii.eqb "]" c = false ∧ Ascii.eqb "}" c = false.
Proof.
  intros [| ? []| ? raw Hr| | |]; try by eexists _, _.
  destruct (number_head _ _ _ Hr) as (c & s & Es & Hc). exists c, s. split; [done|].
  destruct (number_char c Hc) as (Hg & _ & _ & _ & _ & _ & H1 & H2). by rewrite !(Ascii.eqb_sym _ c).
Qed.

Lemma commas_cons x y ys : commas (x :: y :: ys) = x +:+ "," +:+ commas (y :: ys).
Proof. done. Qed.

Lemma commas_length xs : (length xs ≤ S (String.length (commas xs)))%nat.
Proof.
  induction xs as [|x [|y ys] IH]; [cbn; lia..|]. rewrite commas_cons, !length_app_string. cbn in *. lia.
Qed.

Section roundtrip.
Context (total : Z).

(** A parser that reads what is written for the value. *)
Definition reads (parse : string → result (JsonVal * string) CanonError) (v : JsonVal) : Prop :=
  ∀ t, stops t → parse (write_normalized v +:+ t) = Ok (v, t).

Lemma array_loop_reads parse t elems : Forall (reads parse) elems → elems ≠ [] → ∀ turns,
  (length elems ≤ turns)%nat →
  array_loop total parse turns (commas (write_normalized <$> elems) +:+ String "]" t) = Ok (elems, t).
Proof.
  induction 1 as [|v elems Hv Hall IH]; [done|]. intros _ [|turns] Hn; [cbn in Hn; lia|].
  cbn [array_loop]. destruct elems as [|w elems].
  - cbn [fmap list_fmap commas join]. by rewrite Hv.
  - rewrite !fmap_cons, commas_cons, !app_assoc_string, app_cons_string, app_empty_string, Hv by done.
    cbn [result_bind]. rewrite skip_ws_graphic by done. cbn [Ascii.eqb negb]. rewrite <- fmap_cons.
    rewrite IH by (done || (cbn in Hn |- *; lia)). done.
Qed.

(** The text of a member. *)
Definition write_member (p : string * JsonVal) : string := write_json_string p.1 +:+ ":" +:+ write_normalized p.2.

Lemma object_loop_reads parse t pairs : Forall (λ p, reads parse p.2) pairs → pairs ≠ [] → ∀ turns,
  (length pairs ≤ turns)%nat →
  object_loop total parse turns (commas (write_member <$> pairs) +:+ String "}" t) = Ok (pairs, t).
Proof.
  induction 1 as [|[key v] pairs Hv Hall IH]; [done|]. intros _ [|turns] Hn; [cbn in Hn; lia|].
  cbn [object_loop]. cbn [snd] in Hv.
  assert (∀ u, skip_ws (write_member (key, v) +:+ u) = write_json_string key +:+ String ":" (write_normalized v +:+ u)) as Hk.
  { intros u. unfold write_member. cbn [fst snd]. rewrite !app_assoc_string. done. }
  destruct pairs as [|w pairs].
  - cbn [fmap list_fmap commas join]. rewrite Hk, parse_write_string. cbn [result_bind].
    rewrite skip_ws_graphic by done. cbn [negb Ascii.eqb]. by rewrite Hv.
  - rewrite !fmap_cons, commas_cons, !app_assoc_string, app_cons_string, app_empty_string, Hk, parse_write_string.
    cbn [result_bind]. rewrite skip_ws_graphic by done. cbn [negb Ascii.eqb]. rewrite Hv by done. cbn [result_bind].
    rewrite skip_ws_graphic by done. cbn [negb Ascii.eqb]. rewrite <- fmap_cons.
    rewrite IH by (done || (cbn in Hn |- *; lia)). done.
Qed.

(** A container: its members, if any, are not its closing character. *)
Lemma strip_closing (c : ascii) (d : ascii) s : Ascii.eqb c d = false → strip_prefix (String c "") (String d s) = None.
Proof. intros Hc. cbn. by rewrite Hc. Qed.

Lemma parse_array_reads parse t n elems : Forall (reads parse) elems → Forall (canonical n) elems →
  parse_array total parse (commas (write_normalized <$> elems) +:+ String "]" t) = Ok (VArray elems, t).
Proof.
  intros Hr Hc. unfold parse_array. destruct elems as [|v elems]; [done|].
  assert (∃ c s, commas (write_normalized <$> v :: elems) +:+ String "]" t = String c s ∧ graphic c = true
    ∧ Ascii.eqb "]" c = false) as (c & s & E & Hg & Hb).
  { apply Forall_cons in Hc as [Hv _]. destruct (write_head n v Hv) as (c & s & Es & Hg & Hb & _).
    destruct elems as [|w elems]; [|rewrite !fmap_cons, commas_cons]; cbn [fmap list_fmap commas join]; rewrite Es;
      rewrite ?app_cons_string; eauto. }
  rewrite E, skip_ws_graphic, strip_closing by done. rewrite <- E, array_loop_reads; [done..|].
  rewrite length_app_string. pose proof (commas_length (write_normalized <$> v :: elems)) as Hl.
  rewrite length_fmap in Hl. lia.
Qed.

Lemma parse_object_reads parse t pairs : Forall (λ p, reads parse p.2) pairs → sort_pairs pairs = pairs →
  parse_object total parse (commas (write_member <$> pairs) +:+ String "}" t) = Ok (VObject pairs, t).
Proof.
  intros Hr Hs. unfold parse_object. destruct pairs as [|p pairs]; [done|].
  assert (∃ s, commas (write_member <$> p :: pairs) +:+ String "}" t = String QUOTE s) as [s E].
  { destruct pairs as [|w pairs]; [|rewrite !fmap_cons, commas_cons]; eexists; reflexivity. }
  rewrite E, skip_ws_graphic, strip_closing by done. rewrite <- E, object_loop_reads; [cbn [result_bind]; by rewrite Hs|done..|].
  rewrite length_app_string. pose proof (commas_length (write_member <$> p :: pairs)) as Hl.
  rewrite length_fmap in Hl. lia.
Qed.

Lemma canonical_reads n : ∀ v, canonical n v → reads (parse_value_at total n) v.
Proof.
  induction n as [|n IH]; intros v Hc; inversion Hc as [|? []|? raw Hr| |? elems He|? pairs Hp Hs]; subst; intros t Ht.
  - done.
  - done.
  - done.
  - cbn [write_normalized parse_value_at]. destruct (number_head _ _ _ Hr) as (c & s & -> & Hch).
    destruct (number_char c Hch) as (Hg & H1 & H2 & H3 & H4 & H5 & _).
    rewrite app_cons_string, skip_ws_graphic by done. rewrite H1, H2, H3, H4, H5.
    unfold parse_number. destruct (number_stable _ _ _ Hr) as [_ Hst]. by rewrite <- app_cons_string, Hst.
  - cbn [write_normalized]. unfold write_json_string. rewrite app_cons_string. cbn [parse_value_at].
    rewrite skip_ws_graphic by done. cbn [Ascii.eqb QUOTE]. rewrite app_assoc_string, app_cons_string, app_empty_string.
    by rewrite body_write.
  - cbn [write_normalized]. rewrite !app_assoc_string. cbn [parse_value_at].
    rewrite !app_cons_string, !app_empty_string, skip_ws_graphic by done.
    apply (parse_array_reads _ _ n); [|done]. eapply Forall_impl; [exact He|]. apply IH.
  - cbn [write_normalized]. rewrite !app_assoc_string. cbn [parse_value_at].
    rewrite !app_cons_string, !app_empty_string, skip_ws_graphic by done.
    apply parse_object_reads; [|done]. eapply Forall_impl; [exact Hp|]. intros p. apply IH.
Qed.
End roundtrip.

(** ** Whole documents *)

Lemma digit_is_graphic c : is_ascii_digit c = true → graphic c = true.
Proof. unfold is_ascii_digit, graphic. lia. Qed.

Lemma span_graphic b : str_all graphic (span_digits b).1 = true.
Proof.
  induction b as [|c b IH]; [done|]. cbn. destruct (is_ascii_digit c) eqn:Ec; [|done].
  destruct (span_digits b) as [ds r]. cbn in *. by rewrite digit_is_graphic, IH.
Qed.

Lemma digits1_graphic b ds r : digits1 b = Some (ds, r) → str_all graphic ds = true.
Proof.
  unfold digits1. pose proof (span_graphic b) as Hg. destruct (span_digits b) as [ds' r'].
  destruct (is_empty ds'); [done|]. by intros [= <- <-].
Qed.

Lemma number_graphic b raw r : number_text b = Some (raw, r) → str_all graphic raw = true.
Proof.
  unfold number_text. destruct (sign_part b) as [sg b1] eqn:Es.
  destruct (int_part b1) as [[i b2]|] eqn:Ei; [|done]. cbn [mbind option_bind].
  destruct (frac_part b2) as [[f b3]|] eqn:Ef; [|done]. cbn [mbind option_bind].
  destruct (exp_part b3) as [[e b4]|] eqn:Ee; [|done]. cbn [mbind option_bind]. intros [= <- <-].
  rewrite !str_all_app, !andb_true_iff. split_and!.
  - destruct b as [|c b]; cbn in Es; [by injection Es as <- <-|].
    destruct (Ascii.eqb c "-"); by injection Es as <- <-.
  - destruct b1 as [|c b1]; [done|]. cbn -[span_digits] in Ei. destruct (Ascii.eqb c "0").
    + repeat case_match; try done; by injection Ei as <- <-.
    + destruct (is_ascii_digit c); [|done]. pose proof (span_graphic (String c b1)) as Hg.
      injection Ei as E. change (span_digits (String c b1) = (i, b2)) in E. by rewrite E in Hg.
  - destruct b2 as [|c b2]; [by injection Ef as <- <-|]. cbn in Ef.
    destruct (Ascii.eqb_spec c ".") as [->|]; [|by injection Ef as <- <-].
    apply prefix_inv in Ef as (ds & Hd & ->). cbn. by eapply digits1_graphic.
  - destruct (exp_cases _ _ _ Ee) as [(-> & _)|(c & ds & b' & Hc & -> & -> & Hd)]; [done|].
    assert (graphic c = true) as Hg.
    { unfold is_e in Hc. by apply orb_true_iff in Hc as [->%Ascii.eqb_eq| ->%Ascii.eqb_eq]. }
    cbn. rewrite Hg. destruct Hd as [[Hd _]|(s & ds' & b'' & Hs & -> & -> & Hd)]; [by eapply digits1_graphic|].
    apply digits1_graphic in Hd. cbn. rewrite Hd.
    by apply orb_true_iff in Hs as [->%Ascii.eqb_eq| ->%Ascii.eqb_eq].
Qed.

(** *** White space at the ends *)

Lemma strip_keeps_last x w : contains x w = false → ∀ s r, strip_prefix w (s +:+ String x "") = Some r →
  ∃ s', r = s' +:+ String x "".
Proof.
  induction w as [|a w IH]; intros Hw s r; cbn [strip_prefix]; [intros [= <-]; eauto|].
  rewrite contains_cons, orb_false_iff in Hw. destruct Hw as [Ha Hw].
  destruct s as [|b s]; rewrite ?app_empty_string, ?app_cons_string.
  - rewrite Ascii.eqb_sym in Ha. by rewrite Ha.
  - destruct (Ascii.eqb a b); [|done]. by apply IH.
Qed.

Lemma graphic_not_in_space x w : graphic x = true → w ∈ WHITE_SPACE → contains x w = false.
Proof.
  intros Hx Hw. apply (contains_outside (λ c, negb (graphic c))); [by rewrite Hx|].
  vm_compute in Hw. by elem_cases Hw.
Qed.

Lemma strip_any_keeps_last x ws s r : (∀ w, w ∈ ws → contains x w = false) →
  strip_any ws (s +:+ String x "") = Some r → ∃ s', r = s' +:+ String x "".
Proof.
  unfold strip_any. induction ws as [|w ws IH]; intros Hws; [done|]. cbn [foldr].
  destruct (strip_prefix w _) as [r'|] eqn:E.
  - intros [= <-]. eapply strip_keeps_last; [|exact E]. apply Hws. set_solver.
  - apply IH. set_solver.
Qed.

Lemma trim_start_keeps_last x n : graphic x = true → ∀ s, ∃ s',
  trim_start_fuel n (s +:+ String x "") = s' +:+ String x "".
Proof.
  intros Hx. induction n as [|n IH]; intros s; cbn [trim_start_fuel]; [eauto|].
  destruct (strip_any _ _) as [r|] eqn:E; [|eauto].
  destruct (strip_any_keeps_last x WHITE_SPACE s r) as [s' ->]; [|done|apply IH].
  intros w. by apply graphic_not_in_space.
Qed.

Lemma trim_end_graphic x s : graphic x = true → trim_end (s +:+ String x "") = s +:+ String x "".
Proof.
  intros Hx. assert (∀ s, is_empty (trim_start (s +:+ String x "")) = false) as Hne.
  { intros s'. unfold trim_start. destruct (trim_start_keeps_last x (String.length (s' +:+ String x "")) Hx s') as [s'' ->].
    by destruct s''. }
  induction s as [|a s IH].
  - specialize (Hne ""%string). rewrite app_empty_string in *. cbn [trim_end]. by rewrite Hne.
  - specialize (Hne (String a s)). rewrite app_cons_string in *. cbn [trim_end]. by rewrite Hne, IH.
Qed.

Lemma trim_framed c s x : graphic c = true → graphic x = true →
  trim (String c (s +:+ String x "")) = String c (s +:+ String x "").
Proof.
  intros Hc Hx. unfold trim.
  assert (trim_start (String c (s +:+ String x "")) = String c (s +:+ String x "")) as ->.
  { unfold trim_start. cbn [String.length trim_start_fuel]. by rewrite graphic_not_space. }
  rewrite <- app_cons_string. by apply trim_end_graphic.
Qed.

(** Canonical text has no white space at its ends. *)
Lemma trim_write n v : canonical n v → trim (write_normalized v) = write_normalized v.
Proof.
  intros [| ? []| ? raw Hr| ? s| ? elems| ? pairs].
  - by apply trim_graphic.
  - by apply trim_graphic.
  - by apply trim_graphic.
  - by eapply trim_graphic, number_graphic.
  - by apply trim_framed.
  - by apply (trim_framed "[" _ "]").
  - by apply (trim_framed "{" _ "}").
Qed.

Lemma document_canonical input v : parse_document input = Ok v → canonical (S MAX_JSON_DEPTH) v.
Proof.
  unfold parse_document. destruct (is_empty _); [done|].
  intros ([v' r] & Hv & E)%result_bind_ok. destruct (is_empty _); [|done]. injection E as <-.
  by eapply parsed_canonical.
Qed.

Lemma document_write v : canonical (S MAX_JSON_DEPTH) v → parse_document (write_normalized v) = Ok v.
Proof.
  intros Hc. unfold parse_document. rewrite (trim_write _ _ Hc).
  destruct (write_head _ _ Hc) as (c & s & E & _). assert (is_empty (write_normalized v) = false) as -> by by rewrite E.
  unfold parse_value. rewrite <- (app_nil_string (write_normalized v)) at 2.
  by rewrite (canonical_reads _ _ _ Hc "").
Qed.

(** One canonical text, one value, at any depth. *)
Lemma write_injective n v w : canonical n v → canonical n w →
  write_normalized v = write_normalized w → v = w.
Proof.
  intros Hv Hw E. pose proof (canonical_reads 0 n v Hv "" I) as Rv.
  pose proof (canonical_reads 0 n w Hw "" I) as Rw. rewrite E, Rw in Rv. by injection Rv.
Qed.

Lemma canonical_more n m v : canonical n v → (n ≤ m)%nat → canonical m v.
Proof.
  revert m v. induction n as [|n IH]; intros m v Hc Hle; inversion Hc; subst;
    (destruct m as [|m]; [lia|]); constructor; try done.
  - eapply Forall_impl; [done|]. intros x Hx. apply IH; [done|lia].
  - eapply Forall_impl; [done|]. intros x Hx. apply IH; [done|lia].
Qed.

(** ** The turns of the loops *)

Lemma skip_ws_shrinks b : (String.length (skip_ws b) ≤ String.length b)%nat.
Proof. induction b as [|c b IH]; [done|]. cbn. destruct (is_json_ws c); cbn; lia. Qed.

Section turns.
Context (total : Z).

(** A parser that takes something. *)
Definition consumes {A} (parse : string → result (A * string) CanonError) : Prop :=
  ∀ b a r, parse b = Ok (a, r) → (String.length r < String.length b)%nat.

Lemma prefixed_ok p res s r : prefixed p res = Ok (s, r) → ∃ s', res = Ok (s', r).
Proof. destruct res as [[s' r']|]; [|done]. cbn. intros [= _ <-]. eauto. Qed.

Lemma string_body_consumes : consumes (string_body total).
Proof.
  intros b. remember (String.length b) as k eqn:Hk. assert (String.length b ≤ k)%nat as Hb by lia. clear Hk.
  revert b Hb. induction k as [|k IH]; intros b Hb s r; [destruct b; cbn in Hb; [done|lia]|].
  assert (∀ rest p, (String.length rest < String.length b)%nat → prefixed p (string_body total rest) = Ok (s, r) →
    (String.length r < S k)%nat) as Hrec.
  { intros rest p Hlt (s' & Hr)%prefixed_ok. assert (String.length r < k)%nat; [|lia].
    eapply IH; [|exact Hr]. lia. }
  destruct b as [|c b]; [done|]. cbn [string_body String.length] in *.
  destruct (Ascii.eqb c SLASH).
  - destruct b as [|e b]; [done|]. cbn [String.length] in *.
    destruct (simple_escape e) as [x|]; [apply Hrec; lia|]. destruct (Ascii.eqb e "u"); [|done].
    destruct b as [|h1 [|h2 [|h3 [|h4 b]]]]; try done. cbn [String.length] in *.
    intros (cp & _ & E)%result_bind_ok. destruct (is_high cp).
    + destruct b as [|c1 [|c2 [|l1 [|l2 [|l3 [|l4 b]]]]]]; try done. cbn [String.length] in *.
      destruct (_ && _); [|done]. apply result_bind_ok in E as (low & _ & E).
      destruct (is_low low); [|done]. eapply Hrec; [|exact E]. lia.
    + destruct (is_low cp); [done|]. eapply Hrec; [|exact E]. lia.
  - destruct (Ascii.eqb c QUOTE); [intros [= <- <-]; lia|]. destruct (code c <? 32); [done|].
    apply Hrec. lia.
Qed.

Lemma parse_string_consumes : consumes (parse_string total).
Proof.
  intros b s r. unfold parse_string. pose proof (skip_ws_shrinks b) as Hs.
  destruct (skip_ws b) as [|c rest]; [done|]. destruct (Ascii.eqb c QUOTE); [|done].
  intros Hr%string_body_consumes. cbn in Hs. lia.
Qed.

Section loops.
Context (parse : string → result (JsonVal * string) CanonError) (Hparse : consumes parse).

Lemma array_loop_consumes turns : consumes (array_loop total parse turns).
Proof.
  induction turns as [|turns IH]; intros b elems r; cbn [array_loop]; [done|].
  intros ([v b2] & Hv%Hparse & E)%result_bind_ok. pose proof (skip_ws_shrinks b2) as Hs.
  destruct (skip_ws b2) as [|d rest]; [done|]. cbn in Hs. destruct (Ascii.eqb d "]"); [injection E as <- <-; lia|].
  destruct (negb _); [done|]. apply result_bind_ok in E as ([elems' b3] & Hl%IH & [= <- <-]). lia.
Qed.

(** Turns beyond the bytes left change nothing. *)
Lemma array_loop_turns extra turns : ∀ b, (String.length b < turns)%nat →
  array_loop total parse (turns + extra) b = array_loop total parse turns b.
Proof.
  induction turns as [|turns IH]; intros b Hb; [lia|]. cbn [Nat.add array_loop].
  destruct (parse b) as [[v b2]|] eqn:Hv; [|done]. cbn [result_bind]. apply Hparse in Hv.
  pose proof (skip_ws_shrinks b2) as Hs. destruct (skip_ws b2) as [|d rest]; [done|]. cbn in Hs.
  rewrite IH; [done|lia].
Qed.

(** What one turn of [object_loop] reads before it goes on. *)
Lemma object_head_consumes b key b1 c rest v b2 : parse_string total (skip_ws b) = Ok (key, b1) →
  skip_ws b1 = String c rest → parse rest = Ok (v, b2) → (S (String.length b2) < String.length b)%nat.
Proof.
  intros Hk%parse_string_consumes Hc Hv%Hparse. pose proof (skip_ws_shrinks b). pose proof (skip_ws_shrinks b1) as H1.
  rewrite Hc in H1. cbn in H1. lia.
Qed.

Lemma object_loop_consumes turns : consumes (object_loop total parse turns).
Proof.
  induction turns as [|turns IH]; intros b pairs r; cbn [object_loop]; [done|].
  intros ([key b1] & Hk & E)%result_bind_ok. destruct (skip_ws b1) as [|c rest] eqn:Ec; [done|].
  destruct (negb _); [done|]. apply result_bind_ok in E as ([v b2] & Hv & E).
  pose proof (object_head_consumes _ _ _ _ _ _ _ Hk Ec Hv). pose proof (skip_ws_shrinks b2) as Hs.
  destruct (skip_ws b2) as [|d rest']; [done|]. cbn in Hs. destruct (Ascii.eqb d "}"); [injection E as <- <-; lia|].
  destruct (negb _); [done|]. apply result_bind_ok in E as ([pairs' b3] & Hl%IH & [= <- <-]). lia.
Qed.

Lemma object_loop_turns extra turns : ∀ b, (String.length b < turns)%nat →
  object_loop total parse (turns + extra) b = object_loop total parse turns b.
Proof.
  induction turns as [|turns IH]; intros b Hb; [lia|]. cbn [Nat.add object_loop].
  destruct (parse_string total (skip_ws b)) as [[key b1]|] eqn:Hk; [|done]. cbn [result_bind].
  destruct (skip_ws b1) as [|c rest] eqn:Ec; [done|]. destruct (negb _); [done|].
  destruct (parse rest) as [[v b2]|] eqn:Hv; [|done]. cbn [result_bind].
  pose proof (object_head_consumes _ _ _ _ _ _ _ Hk Ec Hv). pose proof (skip_ws_shrinks b2) as Hs.
  destruct (skip_ws b2) as [|d rest']; [done|]. cbn in Hs. rewrite IH; [done|lia].
Qed.
End loops.

Lemma number_consumes b v r : parse_number total b = Ok (v, r) → (String.length r < String.length b)%nat.
Proof.
  unfold parse_number. destruct (number_text b) as [[raw r']|] eqn:E; [|done]. intros [= <- <-].
  destruct (number_head _ _ _ E) as (c & s & -> & _). destruct (number_stable _ _ _ E) as [-> _].
  rewrite length_app_string. cbn. lia.
Qed.

Lemma parse_value_consumes n : consumes (parse_value_at total n).
Proof.
  induction n as [|n IH]; intros b v r; cbn [parse_value_at]; [done|].
  pose proof (skip_ws_shrinks b) as Hs. destruct (skip_ws b) as [|c rest]; [done|]. cbn in Hs.
  pose proof (skip_ws_shrinks rest) as Hs'.
  destruct (Ascii.eqb c "{").
  { unfold parse_object. destruct (strip_prefix "}" (skip_ws rest)) eqn:Es.
    - intros [= <- <-]. apply strip_prefix_length in Es. cbn in Es. lia.
    - intros ([pairs r'] & Hl & [= <- <-])%result_bind_ok. apply object_loop_consumes in Hl; [lia|done]. }
  destruct (Ascii.eqb c "[").
  { unfold parse_array. destruct (strip_prefix "]" (skip_ws rest)) eqn:Es.
    - intros [= <- <-]. apply strip_prefix_length in Es. cbn in Es. lia.
    - intros ([elems r'] & Hl & [= <- <-])%result_bind_ok. apply array_loop_consumes in Hl; [lia|done]. }
  destruct (Ascii.eqb c QUOTE); [intros ([s r'] & Hr%string_body_consumes & [= <- <-])%result_bind_ok; lia|].
  destruct (_ || _).
  { unfold parse_bool. destruct (strip_prefix "true" _) as [t|] eqn:Et;
      [|destruct (strip_prefix "false" _) as [t|] eqn:Ef; [|done]]; intros [= <- <-];
      [apply strip_prefix_length in Et|apply strip_prefix_length in Ef]; cbn in *; lia. }
  destruct (Ascii.eqb c "n").
  { unfold parse_null. destruct (strip_prefix "null" _) as [t|] eqn:Et; [|done]. intros [= <- <-].
    apply strip_prefix_length in Et. cbn in *. lia. }
  intros Hn%number_consumes. cbn in Hn. lia.
Qed.
End turns.

(** [C30] Canonical JSON: a document that normalizes has one canonical text,
    which is its own normal form; two documents that normalize have the same
    canonical text exactly when they parse to the same value (members in any
    order, any white space, any spelling of the characters of strings). *)
Theorem canonical_text_exact a b x y :
  normalize_json a = Ok x → normalize_json b = Ok y →
  normalize_json x = Ok x ∧ (x = y ↔ parse_document a = parse_document b).
Proof.
  unfold normalize_json. intros (v & Hv & [= <-])%result_bind_ok (w & Hw & [= <-])%result_bind_ok.
  pose proof (document_canonical _ _ Hv) as Cv. pose proof (document_canonical _ _ Hw) as Cw. split.
  - by rewrite (document_write _ Cv).
  - rewrite Hv, Hw. split; [|by intros [= ->]]. intros E. f_equal. by eapply write_injective.
Qed.
