(* ===== verification/ToolPins.v ===== *)
(** * ToolPins: pins and diffs of tool listings

    The digest of a listing ([src/src/verifier/tools_hash.rs]), the
    classification of its changes ([src/src/verifier/diff_classify.rs], with
    the folds of [src/src/verifier/unicode.rs]), the verdict against a pin
    ([src/src/verifier/tools_diff.rs]) and the file names of baselines
    ([src/src/verifier/tools_baseline.rs]).  SHA-256 and the expression that
    recognises instructions are library code: the classes [Digest] and
    [Expressions].  Texts for people are left out: a blocked listing carries
    what its message is made of. *)

From S2P Require Import Prelude Text IpAddr PolicyHost PathText ToolsList JsonCanon.

Open Scope Z_scope.
Open Scope result_scope.

Class Digest := { sha256 : string → list ascii }.

(** ** The digest of a listing *)

Inductive CanonicalField := FieldValue (v : JsonVal) | FieldRaw (raw : string).

Inductive HashError := NotNormalizable (key : string) (e : CanonError).

Definition optional_json_field (key : string) (raw : option string)
  : result (list (string * CanonicalField)) HashError :=
  match raw with
  | None => Ok []
  | Some raw =>
      match normalize_json raw with
      | Ok norm => Ok [(key, FieldRaw norm)]
      | Err e => Err (NotNormalizable key e)
      end
  end.

Definition canonical_pairs (tool : ToolDefinition) : result (list (string * CanonicalField)) HashError :=
  input ←? optional_json_field "inputSchema" (td_input_schema tool);
  output ←? optional_json_field "outputSchema" (td_output_schema tool);
  annotations ←? optional_json_field "annotations" (td_annotations_raw tool);
  icons ←? optional_json_field "icons" (td_icons_raw tool);
  execution ←? optional_json_field "execution" (td_execution_raw tool);
  meta ←? optional_json_field "_meta" (td_meta_raw tool);
  Ok ([("name"%string, FieldValue (VStr (td_name tool)));
       ("description"%string, FieldValue (VStr (td_description tool)))]
      ++ match td_title tool with Some title => [("title"%string, FieldValue (VStr title))] | None => [] end
      ++ input ++ output ++ annotations ++ icons ++ execution ++ meta).

Definition write_field (f : CanonicalField) : string :=
  match f with FieldValue v => write_normalized v | FieldRaw raw => raw end.

Definition write_canonical_tool (tool : ToolDefinition) : result string HashError :=
  pairs ←? canonical_pairs tool;
  Ok ("{" +:+ commas ((λ p, write_json_string p.1 +:+ ":" +:+ write_field p.2) <$> sort_pairs pairs) +:+ "}").

Fixpoint write_tools (tools : list ToolDefinition) : result (list string) HashError :=
  match tools with
  | [] => Ok []
  | t :: tools => s ←? write_canonical_tool t; ss ←? write_tools tools; Ok (s :: ss)
  end.

(** [sort_by] on names: stable. *)
Definition sort_by_name (tools : list ToolDefinition) : list ToolDefinition :=
  snd <$> sort_pairs ((λ t, (td_name t, t)) <$> tools).

Definition canonical_tools_json (tools : list ToolDefinition) : result string HashError :=
  ss ←? write_tools (sort_by_name tools); Ok ("[" +:+ commas ss +:+ "]").

Definition hex_byte_low (b : ascii) : string :=
  String (digit_char (code b / 16)) (String (digit_char (code b mod 16)) "").

Definition format_sha256 (digest : list ascii) : string :=
  "sha256:" +:+ foldr (λ b s, hex_byte_low b +:+ s) "" digest.

Definition HASH_PREFIX : string := "mcp-guard-tools-list-v4:".

Definition hash_tools_list `{Digest} (tools : list ToolDefinition) : result string HashError :=
  normalized ←? canonical_tools_json tools; Ok (format_sha256 (sha256 (HASH_PREFIX +:+ normalized))).

(** ** Folded names *)

Definition is_invisible_attack_char (ch : string) : bool :=
  let u := code_point ch in
  between 0x202A 0x202E u || between 0x200B 0x200F u || between 0x2060 0x206F u || (u =? 0xFEFF)
  || between 0xE0000 0xE007F u.

Definition fold_fullwidth_ascii (ch : string) : string :=
  let u := code_point ch in if between 0xFF01 0xFF5E u then push_char (u - 0xFEE0) else ch.

Definition CYRILLIC : list (list Z * string) :=
  [([0x430; 0x410], "a"); ([0x432; 0x412], "b"); ([0x433; 0x413], "r");
   ([0x435; 0x415; 0x451; 0x401], "e"); ([0x43A; 0x41A], "k"); ([0x43C; 0x41C], "m");
   ([0x43D; 0x41D], "h"); ([0x43E; 0x41E], "o"); ([0x440; 0x420], "p"); ([0x441; 0x421], "c");
   ([0x442; 0x422], "t"); ([0x443; 0x423], "y"); ([0x445; 0x425], "x");
   ([0x456; 0x406; 0x457; 0x407], "i"); ([0x455; 0x405], "s"); ([0x458; 0x408], "j");
   ([0x51B; 0x51A], "q"); ([0x51D; 0x51C], "w")]%string.

Definition GREEK : list (list Z * string) :=
  [([0x391; 0x3B1], "A"); ([0x392; 0x3B2], "B"); ([0x395; 0x3B5; 0x3F5], "E"); ([0x396; 0x3B6], "Z");
   ([0x397; 0x3B7], "H"); ([0x399; 0x3B9], "I"); ([0x39A; 0x3BA; 0x3F0], "K"); ([0x39C; 0x3BC], "M");
   ([0x39D; 0x3BD], "N"); ([0x39F; 0x3BF], "O"); ([0x3A1; 0x3C1; 0x3F1], "P"); ([0x3A4; 0x3C4], "T");
   ([0x3A5; 0x3C5; 0x3D2], "Y"); ([0x3A7; 0x3C7], "X"); ([0x3F9; 0x3F2], "C"); ([0x3C9; 0x3A9], "W");
   ([0x3B3], "Y"); ([0x3C3; 0x3C2; 0x3A3], "S")]%string.

Definition LIGATURES : list (list Z * string) :=
  [([0xFB00], "ff"); ([0xFB01], "fi"); ([0xFB02], "fl"); ([0xFB03], "ffi"); ([0xFB04], "ffl");
   ([0xFB05; 0xFB06], "st")]%string.

Definition fold_table (table : list (list Z * string)) (ch : string) : option string :=
  snd <$> List.find (λ row, existsb (Z.eqb (code_point ch)) row.1) table.

Definition fold_cyrillic_lookalike (ch : string) : string := default ch (fold_table CYRILLIC ch).
Definition fold_greek_lookalike (ch : string) : string := default ch (fold_table GREEK ch).
Definition fold_latin_ligature (ch : string) : option string := fold_table LIGATURES ch.

Definition fold_char (ch : string) : string :=
  let ch := fold_fullwidth_ascii ch in
  match fold_latin_ligature ch with
  | Some expanded => to_ascii_lowercase expanded
  | None => to_ascii_lowercase (fold_greek_lookalike (fold_cyrillic_lookalike ch))
  end.

Definition fold_name_for_collision `{Unicode} (name : string) : string :=
  collect_chars (fold_char <$> chars (nfkc_tables name)).

(** ** Changes *)

Inductive ChangeSeverity := SevLow | SevMedium | SevHigh.

Definition severity_rank (s : ChangeSeverity) : Z :=
  match s with SevLow => 0 | SevMedium => 1 | SevHigh => 2 end.

Inductive DescriptionChangeClass := ClsWhitespace | ClsUnicode | ClsInstruction | ClsOther.

(** What is printed for a changed field: the two titles, or a fixed text. *)
Inductive FieldDetail := TitleChanged (old new : option string) | DigestChanged.

(** Why a schema counts as changed. *)
Inductive SchemaDetail := NormalFormChanged | OverBudget.

Inductive ToolChange :=
  | DescriptionChanged (tool_name old_desc new_desc : string) (class : DescriptionChangeClass)
  | SchemaParamAdded (tool_name param_name : string)
  | ToolAdded (tool_name : string)
  | ToolRemoved (tool_name : string)
  | SchemaParamRemoved (tool_name param_name : string)
  | SchemaChanged (tool_name : string) (detail : SchemaDetail)
  | AdvertisedFieldChanged (tool_name field : string) (detail : FieldDetail).

Definition change_severity (c : ToolChange) : ChangeSeverity :=
  match c with
  | DescriptionChanged _ _ _ _ | SchemaParamAdded _ _ | SchemaChanged _ _ | AdvertisedFieldChanged _ _ _ => SevHigh
  | ToolAdded _ | SchemaParamRemoved _ _ => SevMedium
  | ToolRemoved _ => SevLow
  end.

Class Expressions := {
  (** The CC-001 expression of [manifest_rules.rs] on a folded text. *)
  hidden_instructions : string → bool
}.

Section classify.
Context `{Unicode, Expressions}.

(** Runs of white space as one blank, the loop of [fold_whitespace]. *)
Fixpoint fold_runs (prev_ws : bool) (cs : list string) : string :=
  match cs with
  | [] => ""
  | c :: cs =>
      if is_whitespace c then
        if prev_ws then fold_runs true cs else " " +:+ fold_runs true cs
      else c +:+ fold_runs false cs
  end.

Definition fold_whitespace (s : string) : string := trim (fold_runs false (chars s)).

Definition invisible_chars (s : string) : list string := List.filter is_invisible_attack_char (chars s).

Definition description_has_hidden_instructions (description : string) : bool :=
  hidden_instructions (fold_name_for_collision description).

Definition classify_description_change (old new : string) : DescriptionChangeClass :=
  if bool_decide (fold_whitespace old = fold_whitespace new) then ClsWhitespace
  else if negb (bool_decide (invisible_chars old = invisible_chars new)) then ClsUnicode
  else if description_has_hidden_instructions new then ClsInstruction
  else ClsOther.

(** ** The parameters of a schema *)

Definition MAX_SCHEMA_BYTES : nat := 256 * 1024.
Definition MAX_SCHEMA_PROPS : nat := 4096.
Definition MAX_SCHEMA_WALK_DEPTH : nat := 64.

Definition SCHEMA_DESCENT_KEYS : list string :=
  ["items"; "additionalItems"; "additionalProperties"; "propertyNames"; "unevaluatedProperties"; "contains";
   "oneOf"; "anyOf"; "allOf"; "prefixItems"; "not"; "if"; "then"; "else"]%string.

Definition SCHEMA_MAP_KEYS : list string := ["$defs"; "definitions"; "patternProperties"; "dependentSchemas"]%string.

Definition SCHEMA_ARRAY_KEYS : list string := ["oneOf"; "anyOf"; "allOf"; "prefixItems"; "items"; "contains"]%string.

Definition is_key (names : list string) (key : string) : bool := existsb (String.eqb key) names.

(** [out] in the order of the walk, and [seen]. *)
Record PropWalk := mkWalk { pw_out : list string; pw_seen : gset string }.

Definition walk_full (st : PropWalk) : bool := (MAX_SCHEMA_PROPS <=? length (pw_out st))%nat.

(** [if seen.insert(name) { out.push(name) }]. *)
Definition note_prop (name : string) (st : PropWalk) : PropWalk :=
  if bool_decide (name ∈ pw_seen st) then st
  else mkWalk (pw_out st ++ [name]) ({[name]} ∪ pw_seen st).

(** A loop that returns when the cap is reached; the callers then return as
    well, each at its own test. *)
Definition walk_each {A} (step : PropWalk → A → PropWalk) (st : PropWalk) (xs : list A) : PropWalk :=
  foldl (λ st x, if walk_full st then st else step st x) st xs.

Section walk.
Context (walk : JsonVal → PropWalk → PropWalk).

Definition walk_keyword (st : PropWalk) (m : string * JsonVal) : PropWalk :=
  let '(key, child) := m in
  if String.eqb key "properties" then
    match child with
    | VObject props => walk_each (λ st p, walk p.2 (note_prop p.1 st)) st props
    | _ => st
    end
  else if is_key SCHEMA_MAP_KEYS key then
    match child with
    | VObject subs => walk_each (λ st p, walk p.2 st) st subs
    | _ => st
    end
  else if is_key SCHEMA_DESCENT_KEYS key then walk child st
  else st.

Definition walk_array_keyword (st : PropWalk) (m : string * JsonVal) : PropWalk :=
  let '(key, child) := m in
  if negb (is_key SCHEMA_ARRAY_KEYS key) then st
  else match child with
       | VArray items => walk_each (λ st i, walk i st) st items
       | _ => st
       end.
End walk.

(** [room] is what is left of the depth. *)
Fixpoint walk_schema_props (room : nat) (val : JsonVal) (st : PropWalk) : PropWalk :=
  match room with
  | O => st
  | S room =>
      if walk_full st then st
      else match val with
           | VObject pairs =>
               let st := walk_each (walk_keyword (walk_schema_props room)) st pairs in
               foldl (walk_array_keyword (walk_schema_props room)) st pairs
           | _ => st
           end
  end.

Definition extract_properties_from_val (val : JsonVal) : list string :=
  pw_out (walk_schema_props (S MAX_SCHEMA_WALK_DEPTH) val (mkWalk [] ∅)).

Definition extract_schema_properties (schema_json : string) : option (list string) :=
  if (MAX_SCHEMA_BYTES <? String.length schema_json)%nat then None
  else
    match parse_value (trim schema_json) with
    | Err _ => Some []
    | Ok (val, _) =>
        let props := extract_properties_from_val val in
        if (MAX_SCHEMA_PROPS <=? length props)%nat then None else Some props
    end.

(** ** The diff *)

Definition both_normal (a b : option string) : option (string * string) :=
  match normalize_json <$> a, normalize_json <$> b with
  | Some (Ok x), Some (Ok y) => Some (x, y)
  | _, _ => None
  end.

Definition schemas_differ (baseline current : option string) : bool :=
  match both_normal baseline current with
  | Some (x, y) => negb (String.eqb x y)
  | None => negb (bool_decide (baseline = current))
  end.

Definition unclassified (schema : option string) (props : option (list string)) : bool :=
  bool_decide (is_Some schema) && negb (bool_decide (is_Some props)).

Definition diff_schemas (tool_name : string) (baseline current : option string) : list ToolChange :=
  let changed := if schemas_differ baseline current then [SchemaChanged tool_name NormalFormChanged] else [] in
  let base_props := baseline ≫= extract_schema_properties in
  let cur_props := current ≫= extract_schema_properties in
  if unclassified baseline base_props || unclassified current cur_props
  then changed ++ [SchemaChanged tool_name OverBudget]
  else
    let base_props := default [] base_props in
    let cur_props := default [] cur_props in
    let base_set : gset string := list_to_set base_props in
    let cur_set : gset string := list_to_set cur_props in
    changed
    ++ (SchemaParamAdded tool_name <$> filter (λ p, p ∉ base_set) cur_props)
    ++ (SchemaParamRemoved tool_name <$> filter (λ p, p ∉ cur_set) base_props).

Definition optional_json_changed (baseline current : option string) : bool :=
  match baseline, current with
  | None, None => false
  | Some b, Some c =>
      match both_normal baseline current with
      | Some (x, y) => negb (String.eqb x y)
      | None => negb (String.eqb b c)
      end
  | _, _ => true
  end.

Definition field_change (tool_name field : string) (changed : bool) (detail : FieldDetail) : list ToolChange :=
  if changed then [AdvertisedFieldChanged tool_name field detail] else [].

Definition diff_advertised_fields (tool_name : string) (baseline current : ToolDefinition) : list ToolChange :=
  let json field get :=
    field_change tool_name field (optional_json_changed (get baseline) (get current)) DigestChanged in
  field_change tool_name "title" (negb (bool_decide (td_title baseline = td_title current)))
    (TitleChanged (td_title baseline) (td_title current))
  ++ json "outputSchema"%string td_output_schema
  ++ json "annotations"%string td_annotations_raw
  ++ json "icons"%string td_icons_raw
  ++ json "execution"%string td_execution_raw
  ++ json "_meta"%string td_meta_raw.

(** [iter().map(|t| (name, t)).collect()]: a later tool of a name replaces an
    earlier one. *)
Definition index_by_name (tools : list ToolDefinition) : gmap string ToolDefinition :=
  foldl (λ m t, <[td_name t := t]> m) ∅ tools.

Definition sorted_names (m : gmap string ToolDefinition) : list string := sort_dedup (map_to_list m).*1.

Definition diff_tool (name : string) (base cur : ToolDefinition) : list ToolChange :=
  (if bool_decide (td_description base = td_description cur) then []
   else [DescriptionChanged name (td_description base) (td_description cur)
           (classify_description_change (td_description base) (td_description cur))])
  ++ diff_schemas name (td_input_schema base) (td_input_schema cur)
  ++ diff_advertised_fields name base cur.

Record DiffResult := mkDiff { df_changes : list ToolChange; df_max_severity : ChangeSeverity; df_should_block : bool }.

Definition max_severity (changes : list ToolChange) : ChangeSeverity :=
  foldl (λ m c, if severity_rank m <? severity_rank (change_severity c) then change_severity c else m) SevLow changes.

Definition diff_tools_lists (baseline current : list ToolDefinition) : DiffResult :=
  let bm := index_by_name baseline in
  let cm := index_by_name current in
  let removed := (λ n, ToolRemoved n) <$> filter (λ n, cm !! n = None) (sorted_names bm) in
  let rest := mjoin ((λ n, match cm !! n with
                           | None => []
                           | Some cur => match bm !! n with
                                         | None => [ToolAdded n]
                                         | Some base => diff_tool n base cur
                                         end
                           end) <$> sorted_names cm) in
  let changes := removed ++ rest in
  mkDiff changes (max_severity changes) (severity_rank SevHigh <=? severity_rank (max_severity changes)).
End classify.

(** ** The verdict against a pin *)

Record ToolsListHashEntry := mkPin { pin_server : string; pin_hash : string; pin_approved : option string }.

Inductive VerifyAction := Verified | NoEntry.

Inductive BlockedListing :=
  | NotHashable (server : string) (e : HashError)
  | HashMismatch (server expected got : string) (diff : option DiffResult).

(** The record written to the audit log: [hash.verified] (informational,
    success, allowed) or [tools_list.changed] (high, failure, denied). *)
Inductive PinEvent := EvHashVerified (server : string) | EvToolsListChanged (b : BlockedListing).

Section verify.
Context `{Digest, Unicode, Expressions}.

Definition verify_tools_list (server_name : string) (current_tools : list ToolDefinition)
    (policy_entry : option ToolsListHashEntry) (baseline_tools : option (list ToolDefinition))
  : result VerifyAction BlockedListing * list PinEvent :=
  match policy_entry with
  | None => (Ok NoEntry, [])
  | Some entry =>
      match hash_tools_list current_tools with
      | Err e => let b := NotHashable server_name e in (Err b, [EvToolsListChanged b])
      | Ok current_hash =>
          if String.eqb current_hash (pin_hash entry) then (Ok Verified, [EvHashVerified server_name])
          else
            let b := HashMismatch server_name (pin_hash entry) current_hash
                       ((λ baseline, diff_tools_lists baseline current_tools) <$> baseline_tools) in
            (Err b, [EvToolsListChanged b])
      end
  end.
End verify.

(** ** Baseline files *)

(** [{:x}] of a code point. *)
Definition show_code (n : Z) : string := digits 6 16 n "".

Definition is_ascii_lowercase (c : ascii) : bool := (97 <=? code c) && (code c <=? 122).

Definition sanitize_char (ch : string) : string :=
  match ch with
  | String c EmptyString =>
      if is_ascii_lowercase c || is_ascii_digit c || Ascii.eqb c "-" then ch
      else if Ascii.eqb c "_" then "__"
      else "_" +:+ show_code (code_point ch) +:+ "_"
  | _ => "_" +:+ show_code (code_point ch) +:+ "_"
  end.

Definition sanitize_filename (name : string) : string :=
  let sanitized := collect_chars (sanitize_char <$> chars name) in
  if is_empty sanitized then "unnamed" else sanitized.
