(* ===== verification/PinTheorems.v ===== *)
(** * PinTheorems: what a pin fixes and what a diff reports

    The canonical text of a listing determines its tools up to their order,
    the layout of their JSON and the spelling of its characters; so a listing
    that passes against the pin of an approved one is that listing, or the two
    texts are a collision of SHA-256.  The diff is silent exactly when every tool is the same,
    and the parameters it reports are those the schemas declare. *)

From S2P Require Import Prelude Text IpAddr PolicyHost PathText ToolsList JsonCanon CanonTheorems ToolPins.

Open Scope Z_scope.
Open Scope result_scope.

(** ** Sorting and values *)

Lemma insert_pair_map {A B} (f : A → B) p l :
  insert_pair (prod_map id f p) (prod_map id f <$> l) = prod_map id f <$> insert_pair p l.
Proof.
  destruct p as [k a]. induction l as [|[k' b] l IH]; [done|]. cbn [insert_pair fmap list_fmap prod_map fst snd id].
  case_decide; [done|]. cbn [fmap list_fmap]. by rewrite <- IH.
Qed.

Lemma sort_pairs_map {A B} (f : A → B) l : sort_pairs (prod_map id f <$> l) = prod_map id f <$> sort_pairs l.
Proof.
  unfold sort_pairs. induction l as [|p l IH]; [done|]. cbn [fmap list_fmap foldr].
  by rewrite <- insert_pair_map, <- IH.
Qed.

(** ** The value of a tool *)

(** The members of the canonical object of a tool, as values. *)
Definition json_member (key : string) (raw : option string) (ms : list (string * JsonVal)) : Prop :=
  match raw with
  | None => ms = []
  | Some raw => ∃ v, parse_document raw = Ok v ∧ ms = [(key, v)]
  end.

Definition title_member (t : ToolDefinition) : list (string * JsonVal) :=
  match td_title t with Some title => [("title"%string, VStr title)] | None => [] end.

Definition tool_members (t : ToolDefinition) (ms : list (string * JsonVal)) : Prop :=
  ∃ m1 m2 m3 m4 m5 m6,
    json_member "inputSchema" (td_input_schema t) m1 ∧ json_member "outputSchema" (td_output_schema t) m2
    ∧ json_member "annotations" (td_annotations_raw t) m3 ∧ json_member "icons" (td_icons_raw t) m4
    ∧ json_member "execution" (td_execution_raw t) m5 ∧ json_member "_meta" (td_meta_raw t) m6
    ∧ ms = [("name"%string, VStr (td_name t)); ("description"%string, VStr (td_description t))]
           ++ title_member t ++ m1 ++ m2 ++ m3 ++ m4 ++ m5 ++ m6.

Lemma optional_field_member key raw fields : optional_json_field key raw = Ok fields →
  ∃ ms, json_member key raw ms ∧ prod_map id write_field <$> fields = prod_map id write_normalized <$> ms.
Proof.
  unfold optional_json_field, normalize_json. destruct raw as [raw|]; [|intros [= <-]; by exists []].
  destruct (parse_document raw) as [v|] eqn:E; [|done]. cbn [result_bind]. intros [= <-].
  exists [(key, v)]. split; [by exists v|done].
Qed.

Lemma canonical_pairs_members t pairs : canonical_pairs t = Ok pairs →
  ∃ ms, tool_members t ms ∧ prod_map id write_field <$> pairs = prod_map id write_normalized <$> ms.
Proof.
  unfold canonical_pairs. intros (p1 & (m1 & H1 & E1)%optional_field_member & E)%result_bind_ok.
  apply result_bind_ok in E as (p2 & (m2 & H2 & E2)%optional_field_member & E).
  apply result_bind_ok in E as (p3 & (m3 & H3 & E3)%optional_field_member & E).
  apply result_bind_ok in E as (p4 & (m4 & H4 & E4)%optional_field_member & E).
  apply result_bind_ok in E as (p5 & (m5 & H5 & E5)%optional_field_member & E).
  apply result_bind_ok in E as (p6 & (m6 & H6 & E6)%optional_field_member & E). injection E as <-.
  eexists. split; [by exists m1, m2, m3, m4, m5, m6; split_and!|].
  rewrite !fmap_cons, !fmap_app, E1, E2, E3, E4, E5, E6. unfold title_member. by destruct (td_title t).
Qed.

(** The canonical text of a tool is that of a value. *)
Lemma write_tool_value t s : write_canonical_tool t = Ok s →
  ∃ ms, tool_members t ms ∧ s = write_normalized (VObject (sort_pairs ms)).
Proof.
  unfold write_canonical_tool. intros (pairs & (ms & Hm & E)%canonical_pairs_members & [= <-])%result_bind_ok.
  exists ms. split; [done|]. cbn [write_normalized]. do 2 f_equal.
  transitivity (commas ((λ p : string * string, write_json_string p.1 +:+ ":" +:+ p.2)
                          <$> sort_pairs (prod_map id write_field <$> pairs))).
  - rewrite sort_pairs_map, <- list_fmap_compose. done.
  - rewrite E, sort_pairs_map, <- list_fmap_compose. done.
Qed.

Lemma json_member_canonical key raw ms : json_member key raw ms →
  Forall (λ p, canonical (S MAX_JSON_DEPTH) p.2) ms.
Proof.
  destruct raw as [raw|]; cbn; [|by intros ->]. intros (v & Hv & ->). repeat constructor.
  by eapply document_canonical.
Qed.

Lemma tool_members_canonical t ms : tool_members t ms →
  canonical (S (S MAX_JSON_DEPTH)) (VObject (sort_pairs ms)).
Proof.
  intros (m1 & m2 & m3 & m4 & m5 & m6 & H1 & H2 & H3 & H4 & H5 & H6 & ->).
  constructor; [|apply sort_pairs_idem]. rewrite sort_pairs_perm, !Forall_app.
  split_and!; try by eapply json_member_canonical; eassumption.
  - repeat constructor.
  - unfold title_member. destruct (td_title t); repeat constructor.
Qed.

(** ** Same tools *)

(** Both absent, or both the same document. *)
Definition same_json (a b : option string) : Prop :=
  match a, b with
  | None, None => True
  | Some a, Some b => ∃ v, parse_document a = Ok v ∧ parse_document b = Ok v
  | _, _ => False
  end.

Record same_tool (t t' : ToolDefinition) : Prop := {
  sm_name : td_name t = td_name t';
  sm_description : td_description t = td_description t';
  sm_title : td_title t = td_title t';
  sm_input : same_json (td_input_schema t) (td_input_schema t');
  sm_output : same_json (td_output_schema t) (td_output_schema t');
  sm_annotations : same_json (td_annotations_raw t) (td_annotations_raw t');
  sm_icons : same_json (td_icons_raw t) (td_icons_raw t');
  sm_execution : same_json (td_execution_raw t) (td_execution_raw t');
  sm_meta : same_json (td_meta_raw t) (td_meta_raw t')
}.

Lemma json_member_same key a b ms ms' : json_member key a ms → json_member key b ms' →
  (ms = ms' ↔ same_json a b).
Proof.
  destruct a as [a|], b as [b|]; cbn.
  - intros (v & Hv & ->) (w & Hw & ->). split.
    + intros [= ->]. eauto.
    + intros (x & Hx & Hx'). congruence.
  - intros (v & Hv & ->) ->. done.
  - intros -> (v & Hv & ->). done.
  - by intros -> ->.
Qed.

(** The members of one key. *)
Definition pick (key : string) (ms : list (string * JsonVal)) : list (string * JsonVal) :=
  filter (λ p, p.1 = key) ms.

Lemma pick_perm key ms ms' : ms ≡ₚ ms' → pick key ms ≡ₚ pick key ms'.
Proof. unfold pick. by intros ->. Qed.

Lemma pick_app key ms ms' : pick key (ms ++ ms') = pick key ms ++ pick key ms'.
Proof. apply filter_app. Qed.

Lemma pick_one key key' v : pick key' [(key, v)] = if String.eqb key key' then [(key, v)] else [].
Proof.
  unfold pick. rewrite filter_cons. cbn [fst]. destruct (String.eqb_spec key key'); by case_decide.
Qed.

Lemma pick_member key key' raw ms : json_member key raw ms → pick key' ms = if String.eqb key key' then ms else [].
Proof.
  destruct raw as [raw|]; cbn; [intros (v & _ & ->); apply pick_one|intros ->]. by destruct (String.eqb key key').
Qed.

Lemma pick_title key t : pick key (title_member t) = if String.eqb "title" key then title_member t else [].
Proof. unfold title_member. destruct (td_title t); [apply pick_one|]. by destruct (String.eqb "title" key). Qed.

Lemma small_perm {A} (l l' : list A) : (length l ≤ 1)%nat → l ≡ₚ l' → l = l'.
Proof.
  intros Hl Hp. destruct l as [|x [|y l]]; [| |cbn in Hl; lia].
  - by apply Permutation_nil_l in Hp.
  - by apply Permutation_singleton_l in Hp.
Qed.

Lemma member_small key raw ms : json_member key raw ms → (length ms ≤ 1)%nat.
Proof. destruct raw; cbn; [intros (v & _ & ->)|intros ->]; cbn; lia. Qed.

Section members.
Context (t : ToolDefinition) (m1 m2 m3 m4 m5 m6 : list (string * JsonVal)).
Context (H1 : json_member "inputSchema" (td_input_schema t) m1) (H2 : json_member "outputSchema" (td_output_schema t) m2).
Context (H3 : json_member "annotations" (td_annotations_raw t) m3) (H4 : json_member "icons" (td_icons_raw t) m4).
Context (H5 : json_member "execution" (td_execution_raw t) m5) (H6 : json_member "_meta" (td_meta_raw t) m6).

Definition all_members : list (string * JsonVal) :=
  [("name"%string, VStr (td_name t)); ("description"%string, VStr (td_description t))]
  ++ title_member t ++ m1 ++ m2 ++ m3 ++ m4 ++ m5 ++ m6.

Lemma pick_all key : pick key all_members =
  (if String.eqb "name" key then [("name"%string, VStr (td_name t))] else [])
  ++ (if String.eqb "description" key then [("description"%string, VStr (td_description t))] else [])
  ++ (if String.eqb "title" key then title_member t else [])
  ++ (if String.eqb "inputSchema" key then m1 else []) ++ (if String.eqb "outputSchema" key then m2 else [])
  ++ (if String.eqb "annotations" key then m3 else []) ++ (if String.eqb "icons" key then m4 else [])
  ++ (if String.eqb "execution" key then m5 else []) ++ (if String.eqb "_meta" key then m6 else []).
Proof.
  unfold all_members. rewrite !pick_app.
  change [("name"%string, VStr (td_name t)); ("description"%string, VStr (td_description t))]
    with ([("name"%string, VStr (td_name t))] ++ [("description"%string, VStr (td_description t))]).
  rewrite pick_app, !pick_one, pick_title, <- !app_assoc.
  by rewrite (pick_member _ _ _ _ H1), (pick_member _ _ _ _ H2), (pick_member _ _ _ _ H3), (pick_member _ _ _ _ H4),
    (pick_member _ _ _ _ H5), (pick_member _ _ _ _ H6).
Qed.
End members.

(** One JSON member, from the members of its key. *)
Ltac same_member H G Hk key :=
  apply (json_member_same _ _ _ _ _ H G); specialize (Hk key); cbn in Hk; rewrite ?app_nil_r in Hk;
  eapply small_perm; [by eapply member_small|done].

Lemma members_same t t' ms ms' : tool_members t ms → tool_members t' ms' →
  (sort_pairs ms = sort_pairs ms' ↔ same_tool t t').
Proof.
  intros (m1 & m2 & m3 & m4 & m5 & m6 & H1 & H2 & H3 & H4 & H5 & H6 & ->)
    (n1 & n2 & n3 & n4 & n5 & n6 & G1 & G2 & G3 & G4 & G5 & G6 & ->).
  fold (all_members t m1 m2 m3 m4 m5 m6) (all_members t' n1 n2 n3 n4 n5 n6). split.
  - intros E. assert (∀ key, pick key (all_members t m1 m2 m3 m4 m5 m6) ≡ₚ pick key (all_members t' n1 n2 n3 n4 n5 n6)) as Hk.
    { intros key. apply pick_perm. by rewrite <- sort_pairs_perm, E, sort_pairs_perm. }
    setoid_rewrite pick_all in Hk; [|done..]. split.
    + specialize (Hk "name"%string). cbn in Hk. apply small_perm in Hk; [|done]. by injection Hk.
    + specialize (Hk "description"%string). cbn in Hk. apply small_perm in Hk; [|done]. by injection Hk.
    + specialize (Hk "title"%string). cbn in Hk. rewrite !app_nil_r in Hk. unfold title_member in Hk.
      apply small_perm in Hk; [|by destruct (td_title t); cbn; lia]. destruct (td_title t), (td_title t'); congruence.
    + same_member H1 G1 Hk "inputSchema"%string.
    + same_member H2 G2 Hk "outputSchema"%string.
    + same_member H3 G3 Hk "annotations"%string.
    + same_member H4 G4 Hk "icons"%string.
    + same_member H5 G5 Hk "execution"%string.
    + same_member H6 G6 Hk "_meta"%string.
  - intros []. f_equal. unfold all_members, title_member.
    rewrite (proj2 (json_member_same _ _ _ _ _ H1 G1)), (proj2 (json_member_same _ _ _ _ _ H2 G2)),
      (proj2 (json_member_same _ _ _ _ _ H3 G3)), (proj2 (json_member_same _ _ _ _ _ H4 G4)),
      (proj2 (json_member_same _ _ _ _ _ H5 G5)), (proj2 (json_member_same _ _ _ _ _ H6 G6)) by done.
    by rewrite sm_name0, sm_description0, sm_title0.
Qed.

(** ** Listings *)

(** A listing that can be written is an array of tool values. *)
Lemma write_tools_values ts ss : write_tools ts = Ok ss →
  ∃ mss, Forall2 tool_members ts mss ∧ ss = (λ ms, write_normalized (VObject (sort_pairs ms))) <$> mss.
Proof.
  revert ss. induction ts as [|t ts IH]; intros ss; cbn [write_tools].
  - intros [= <-]. by exists [].
  - intros (s & (ms & Hm & ->)%write_tool_value & E)%result_bind_ok.
    apply result_bind_ok in E as (ss' & (mss & Hms & ->)%IH & [= <-]).
    exists (ms :: mss). split; [by constructor|done].
Qed.

Definition listing_value (mss : list (list (string * JsonVal))) : JsonVal :=
  VArray ((λ ms, VObject (sort_pairs ms)) <$> mss).

Lemma listing_text ts x : canonical_tools_json ts = Ok x →
  ∃ mss, Forall2 tool_members (sort_by_name ts) mss ∧ x = write_normalized (listing_value mss)
    ∧ canonical (S (S (S MAX_JSON_DEPTH))) (listing_value mss).
Proof.
  unfold canonical_tools_json. intros (ss & (mss & Hms & ->)%write_tools_values & [= <-])%result_bind_ok.
  exists mss. split_and!; [done| |].
  - unfold listing_value. cbn [write_normalized]. by rewrite <- list_fmap_compose.
  - constructor. apply Forall_fmap. clear -Hms. induction Hms; constructor; [by eapply tool_members_canonical|done].
Qed.

Lemma members_forall2 ts ts' mss mss' : Forall2 tool_members ts mss → Forall2 tool_members ts' mss' →
  ((λ ms, VObject (sort_pairs ms)) <$> mss = (λ ms, VObject (sort_pairs ms)) <$> mss' ↔ Forall2 same_tool ts ts').
Proof.
  intros H1. revert ts' mss'. induction H1 as [|t ms ts mss Hm Hms IH]; intros ts' mss' H2;
    destruct H2 as [|t' ms' ts' mss' Hm' Hms'].
  - split; [constructor|done].
  - split; [done|]. inversion 1.
  - split; [done|]. inversion 1.
  - rewrite !fmap_cons. split.
    + intros [= Es Er]. constructor; [by eapply members_same|]. by eapply IH.
    + intros [Hs Hr]%Forall2_cons. f_equal; [f_equal; by eapply members_same|]. by eapply IH.
Qed.

(** The canonical text determines the tools, and nothing but them. *)
Lemma listing_exact ts ts' x y : canonical_tools_json ts = Ok x → canonical_tools_json ts' = Ok y →
  (x = y ↔ Forall2 same_tool (sort_by_name ts) (sort_by_name ts')).
Proof.
  intros (mss & Hm & -> & Hc)%listing_text (mss' & Hm' & -> & Hc')%listing_text.
  rewrite <- (members_forall2 _ _ _ _ Hm Hm'). split.
  - intros E. by injection (write_injective _ _ _ Hc Hc' E).
  - unfold listing_value. by intros ->.
Qed.

Lemma sort_by_name_perm ts : sort_by_name ts ≡ₚ ts.
Proof.
  unfold sort_by_name. rewrite sort_pairs_perm, <- list_fmap_compose. by rewrite list_fmap_id.
Qed.

Lemma digit_char_injective a b : 0 ≤ a < 16 → 0 ≤ b < 16 → digit_char a = digit_char b → a = b.
Proof.
  intros Ha Hb E. pose proof (to_digit_hex a Ha) as Da. rewrite E, to_digit_hex in Da by done. congruence.
Qed.

Lemma hex_byte_injective a b s s' : hex_byte_low a +:+ s = hex_byte_low b +:+ s' → a = b ∧ s = s'.
Proof.
  unfold hex_byte_low. rewrite !app_cons_string, !app_empty_string. intros [= H1 H2 ->]. split; [|done].
  pose proof (code_range a). pose proof (code_range b).
  assert (∀ n, 0 ≤ n < 256 → 0 ≤ n / 16 < 16 ∧ 0 ≤ n mod 16 < 16) as Hd.
  { intros n Hn. split; [split; [apply Z.div_pos|apply Z.div_lt_upper_bound]|apply Z.mod_pos_bound]; lia. }
  apply digit_char_injective in H1; [|by apply Hd..]. apply digit_char_injective in H2; [|by apply Hd..].
  apply code_inj. rewrite (Z.div_mod (code a) 16), (Z.div_mod (code b) 16) by done. congruence.
Qed.

Lemma format_injective d d' : format_sha256 d = format_sha256 d' → d = d'.
Proof.
  unfold format_sha256. rewrite !app_cons_string, !app_empty_string. intros [= E]. revert d' E.
  induction d as [|a d IH]; intros [|b d']; cbn [foldr]; [done|done|done|].
  intros [-> E]%hex_byte_injective. f_equal. by apply IH.
Qed.

(** What is the same as some tool can be written. *)
Lemma same_field_ok key a b : same_json a b → ∃ fields, optional_json_field key b = Ok fields.
Proof.
  unfold optional_json_field, normalize_json. destruct a as [a|], b as [b|]; try done; [|by eexists].
  intros (v & _ & ->). by eexists.
Qed.

Lemma same_tool_ok t t' : same_tool t t' → ∃ s, write_canonical_tool t' = Ok s.
Proof.
  intros [_ _ _ H1 H2 H3 H4 H5 H6]. unfold write_canonical_tool, canonical_pairs.
  destruct (same_field_ok "inputSchema" _ _ H1) as [f1 ->], (same_field_ok "outputSchema" _ _ H2) as [f2 ->],
    (same_field_ok "annotations" _ _ H3) as [f3 ->], (same_field_ok "icons" _ _ H4) as [f4 ->],
    (same_field_ok "execution" _ _ H5) as [f5 ->], (same_field_ok "_meta" _ _ H6) as [f6 ->]. by eexists.
Qed.

Lemma same_tools_ok ts ts' : Forall2 same_tool ts ts' → ∃ ss, write_tools ts' = Ok ss.
Proof.
  induction 1 as [|t t' ts ts' [s Hs]%same_tool_ok _ [ss IH]]; [by exists []|].
  exists (s :: ss). cbn [write_tools]. by rewrite Hs, IH.
Qed.

Section pins.
Context `{Digest, Unicode, Expressions}.

(** Two listings whose different texts have one digest. *)
Definition collide (ts ts' : list ToolDefinition) : Prop := ∃ x y,
  canonical_tools_json ts = Ok x ∧ canonical_tools_json ts' = Ok y ∧ x ≠ y
  ∧ sha256 (HASH_PREFIX +:+ x) = sha256 (HASH_PREFIX +:+ y).

Lemma hash_exact ts ts' h h' : hash_tools_list ts = Ok h → hash_tools_list ts' = Ok h' →
  (Forall2 same_tool (sort_by_name ts) (sort_by_name ts') → h = h')
  ∧ (h = h' → Forall2 same_tool (sort_by_name ts) (sort_by_name ts') ∨ collide ts ts').
Proof.
  unfold hash_tools_list. intros (x & Hx & [= <-])%result_bind_ok (y & Hy & [= <-])%result_bind_ok.
  rewrite <- (listing_exact _ _ _ _ Hx Hy). split; [by intros ->|].
  intros E%format_injective. destruct (decide (x = y)) as [|Hne]; [by left|right].
  by exists x, y.
Qed.
End pins.

(** [C29] A pin fixes the tools: against the pin of an approved listing, a
    listing with the same tools (in any order, any layout of their JSON) is
    verified, and a verified listing has the same names, descriptions, titles,
    schemas, annotations, icons, execution hints and metadata, unless the two
    canonical texts are a collision of SHA-256; any other listing, or one whose JSON cannot be
    canonicalized, is blocked and the refusal is put on record. *)
Theorem pinned_listing_is_approved `{Digest, Unicode, Expressions} server approved current entry baseline :
  hash_tools_list approved = Ok (pin_hash entry) →
  let '(verdict, events) := verify_tools_list server current (Some entry) baseline in
  let same := Forall2 same_tool (sort_by_name approved) (sort_by_name current) in
  sort_by_name approved ≡ₚ approved ∧ sort_by_name current ≡ₚ current
  ∧ (same → verdict = Ok Verified)
  ∧ (verdict = Ok Verified → events = [EvHashVerified server] ∧ (same ∨ collide approved current))
  ∧ (verdict ≠ Ok Verified → ∃ why, verdict = Err why ∧ events = [EvToolsListChanged why]).
Proof.
  intros Ha. unfold verify_tools_list.
  destruct (hash_tools_list current) as [h|e] eqn:Hc.
  - destruct (hash_exact _ _ _ _ Ha Hc) as [Hsame Hverified].
    destruct (String.eqb_spec h (pin_hash entry)) as [->|Hne]; (split_and!; [apply sort_by_name_perm..| | |]).
    + done.
    + intros _. split; [done|]. by apply Hverified.
    + by intros [].
    + intros Hs. by rewrite (Hsame Hs) in Hne.
    + done.
    + intros _. eauto.
  - split_and!; [apply sort_by_name_perm..| | |].
    + intros [ss Hss]%same_tools_ok. unfold hash_tools_list, canonical_tools_json in Hc. by rewrite Hss in Hc.
    + done.
    + intros _. eauto.
Qed.

(** ** The parameters of a schema *)

(** Where a schema holds schemas. *)
Inductive subschema (pairs : list (string * JsonVal)) : JsonVal → Prop :=
  | SubProperty props name sub : ("properties"%string, VObject props) ∈ pairs → (name, sub) ∈ props →
      subschema pairs sub
  | SubMember key subs name sub : key ∈ SCHEMA_MAP_KEYS → (key, VObject subs) ∈ pairs → (name, sub) ∈ subs →
      subschema pairs sub
  | SubKeyword key sub : key ∈ SCHEMA_DESCENT_KEYS → (key, sub) ∈ pairs → subschema pairs sub
  | SubElement key items sub : key ∈ SCHEMA_ARRAY_KEYS → (key, VArray items) ∈ pairs → sub ∈ items →
      subschema pairs sub.

(** A parameter: a member of a [properties] object, at any depth. *)
Inductive declares : JsonVal → string → Prop :=
  | DeclHere pairs props name sub : ("properties"%string, VObject props) ∈ pairs → (name, sub) ∈ props →
      declares (VObject pairs) name
  | DeclBelow pairs sub name : subschema pairs sub → declares sub name → declares (VObject pairs) name.

(** The walk keeps [out] without duplicates and [seen] in step. *)
Definition walk_ok (st : PropWalk) : Prop := NoDup (pw_out st) ∧ ∀ n, n ∈ pw_seen st ↔ n ∈ pw_out st.

(** What a part of the walk does: it adds names of [D] only, and all of them
    unless it ends at the cap. *)
Definition grown (D : string → Prop) (st st' : PropWalk) : Prop := walk_ok st →
  walk_ok st' ∧ (∃ new, pw_out st' = pw_out st ++ new)
  ∧ (∀ n, n ∈ pw_out st' → n ∈ pw_out st ∨ D n)
  ∧ (walk_full st' = false → ∀ n, D n → n ∈ pw_out st').

Lemma grown_same (D : string → Prop) st : (∀ n, ¬ D n) ∨ walk_full st = true → grown D st st.
Proof.
  intros HD Hok. split_and!; [done|exists []; by rewrite app_nil_r|by left|].
  intros Hf n Hn. destruct HD as [HD|HD]; [by destruct (HD n)|congruence].
Qed.

Lemma grown_iff (D D' : string → Prop) st st' : (∀ n, D n ↔ D' n) → grown D st st' → grown D' st st'.
Proof.
  intros HD Hg Hok. destruct (Hg Hok) as (Hok' & Hnew & Hs & Hc). split_and!; [done..| |].
  - intros n [?|?%HD]%Hs; auto.
  - intros Hf n ?%HD. auto.
Qed.

Lemma full_grows (out new : list string) : (MAX_SCHEMA_PROPS <=? length (out ++ new))%nat = false →
  (MAX_SCHEMA_PROPS <=? length out)%nat = false.
Proof. rewrite length_app, !Nat.leb_gt. lia. Qed.

Lemma grown_trans D1 D2 st1 st2 st3 : grown D1 st1 st2 → grown D2 st2 st3 → grown (λ n, D1 n ∨ D2 n) st1 st3.
Proof.
  intros H12 H23 Hok. destruct (H12 Hok) as (Hok2 & [new1 E1] & Hs1 & Hc1).
  destruct (H23 Hok2) as (Hok3 & [new2 E2] & Hs2 & Hc2). split_and!; [done| | |].
  - exists (new1 ++ new2). by rewrite E2, E1, app_assoc.
  - intros n [[?|?]%Hs1|?]%Hs2; auto.
  - intros Hf n [Hn|Hn]; [|by apply Hc2]. rewrite E2. apply elem_of_app. left. apply Hc1; [|done].
    unfold walk_full in *. rewrite E2 in Hf. by eapply full_grows.
Qed.

Lemma note_grown name st : grown (λ n, n = name) st (note_prop name st).
Proof.
  intros [Hnd Hseen]. unfold note_prop. case_bool_decide as Hin.
  - apply Hseen in Hin. split_and!; [done|exists []; by rewrite app_nil_r|by left|by intros _ n ->].
  - rewrite Hseen in Hin. cbn. split_and!; [|by exists [name]|set_solver|set_solver].
    split; cbn; [|set_solver]. apply NoDup_app. split_and!; [done|set_solver|apply NoDup_singleton].
Qed.

Lemma foldl_grown {A} (step : PropWalk → A → PropWalk) (D : A → string → Prop) xs :
  (∀ x st, x ∈ xs → grown (D x) st (step st x)) → ∀ st,
  grown (λ n, ∃ x, x ∈ xs ∧ D x n) st (foldl step st xs).
Proof.
  induction xs as [|x xs IH]; intros Hstep st; cbn [foldl]; [apply grown_same; set_solver|].
  eapply grown_iff; [|eapply grown_trans; [apply (Hstep x); set_solver|apply IH; intros; apply Hstep; set_solver]].
  intros n. set_solver.
Qed.

Lemma walk_each_grown {A} (step : PropWalk → A → PropWalk) (D : A → string → Prop) xs :
  (∀ x st, x ∈ xs → grown (D x) st (step st x)) → ∀ st,
  grown (λ n, ∃ x, x ∈ xs ∧ D x n) st (walk_each step st xs).
Proof.
  intros Hstep. apply foldl_grown. intros x st Hx. destruct (walk_full st) eqn:E; [|by apply Hstep].
  apply grown_same. by right.
Qed.

Lemma is_key_iff names key : is_key names key = true ↔ key ∈ names.
Proof.
  unfold is_key. rewrite List.existsb_exists. split.
  - by intros (x & Hx%list_elem_of_In & ->%String.eqb_eq).
  - intros Hin%list_elem_of_In. exists key. split; [done|apply String.eqb_refl].
Qed.

Section walking.
Context (walk : JsonVal → PropWalk → PropWalk) (good : JsonVal → Prop).
Context (Hwalk : ∀ v st, good v → grown (declares v) st (walk v st)).

(** What one keyword adds. *)
Definition keyword_adds (m : string * JsonVal) (n : string) : Prop :=
  m.1 = "properties" ∧ (∃ props p, m.2 = VObject props ∧ p ∈ props ∧ (n = p.1 ∨ declares p.2 n))
  ∨ m.1 ∈ SCHEMA_MAP_KEYS ∧ (∃ subs p, m.2 = VObject subs ∧ p ∈ subs ∧ declares p.2 n)
  ∨ m.1 ∈ SCHEMA_DESCENT_KEYS ∧ declares m.2 n.

Definition elements_add (m : string * JsonVal) (n : string) : Prop :=
  m.1 ∈ SCHEMA_ARRAY_KEYS ∧ ∃ items i, m.2 = VArray items ∧ i ∈ items ∧ declares i n.

(** What the value of a keyword must be for its parts to be walked. *)
Definition parts_good (v : JsonVal) : Prop :=
  good v ∧ (∀ props p, v = VObject props → p ∈ props → good p.2) ∧ (∀ items i, v = VArray items → i ∈ items → good i).

Lemma keyword_grown m st : parts_good m.2 → grown (keyword_adds m) st (walk_keyword walk st m).
Proof.
  destruct m as [key child]. intros (Hg & Hobj & _). cbn [snd] in *. unfold walk_keyword.
  assert (is_key SCHEMA_MAP_KEYS "properties" = false ∧ is_key SCHEMA_DESCENT_KEYS "properties" = false) as [M0 D0] by done.
  destruct (String.eqb_spec key "properties") as [->|Hk].
  { destruct child as [| | | | |props]; try by apply grown_same; left; intros n Hn; unfold keyword_adds in Hn; cbn in Hn;
      rewrite <- !is_key_iff, M0, D0 in Hn; naive_solver.
    eapply grown_iff; [|apply (walk_each_grown _ (λ p n, n = p.1 ∨ declares p.2 n))].
    - intros n. unfold keyword_adds. cbn. rewrite <- !is_key_iff, M0, D0. naive_solver.
    - intros p st' Hp. eapply grown_trans; [apply note_grown|]. apply Hwalk. by eapply Hobj. }
  destruct (is_key SCHEMA_MAP_KEYS key) eqn:Em.
  { assert (is_key SCHEMA_DESCENT_KEYS key = false) as Ed.
    { apply is_key_iff in Em. unfold SCHEMA_MAP_KEYS in Em. by elem_cases Em. }
    destruct child as [| | | | |subs]; try by apply grown_same; left; intros n Hn; unfold keyword_adds in Hn; cbn in Hn;
      rewrite <- !is_key_iff, Ed in Hn; naive_solver.
    eapply grown_iff; [|apply (walk_each_grown _ (λ p n, declares p.2 n))].
    - intros n. unfold keyword_adds. cbn. rewrite <- !is_key_iff, Em, Ed. naive_solver.
    - intros p st' Hp. apply Hwalk. by eapply Hobj. }
  destruct (is_key SCHEMA_DESCENT_KEYS key) eqn:Ed.
  - eapply grown_iff; [|by apply Hwalk]. intros n. unfold keyword_adds. cbn. rewrite <- !is_key_iff, Em, Ed. naive_solver.
  - apply grown_same. left. intros n Hn. unfold keyword_adds in Hn. cbn in Hn. rewrite <- !is_key_iff, Em, Ed in Hn.
    naive_solver.
Qed.

Lemma elements_grown m st : parts_good m.2 → grown (elements_add m) st (walk_array_keyword walk st m).
Proof.
  destruct m as [key child]. intros (_ & _ & Harr). cbn [snd] in *. unfold walk_array_keyword.
  destruct (is_key SCHEMA_ARRAY_KEYS key) eqn:Ek; cbn [negb].
  - destruct child as [| | | |items|]; try by apply grown_same; left; intros n (_ & ? & ? & [=] & _).
    eapply grown_iff; [|apply (walk_each_grown _ (λ i n, declares i n))].
    + intros n. unfold elements_add. cbn. rewrite <- is_key_iff, Ek. naive_solver.
    + intros i st' Hi. apply Hwalk. by eapply Harr.
  - apply grown_same. left. intros n [Hk _]. cbn in Hk. apply is_key_iff in Hk. congruence.
Qed.

Lemma declares_object pairs n : declares (VObject pairs) n ↔
  (∃ m, m ∈ pairs ∧ keyword_adds m n) ∨ (∃ m, m ∈ pairs ∧ elements_add m n).
Proof.
  split.
  - inversion 1 as [? props ? sub Hp Hs|? sub ? [props name s Hp Hs|key subs name s Hk Hp Hs|key s Hk Hp|key items s Hk Hp Hs] Hd];
      subst.
    + left. eexists. split; [exact Hp|]. left. cbn. eauto 10.
    + left. eexists. split; [exact Hp|]. left. cbn. split; [done|]. exists props, (name, s). auto.
    + left. eexists. split; [exact Hp|]. right; left. cbn. split; [done|]. exists subs, (name, s). auto.
    + left. eexists. split; [exact Hp|]. right; right. done.
    + right. eexists. split; [exact Hp|]. split; [done|]. cbn. eauto.
  - intros [([key v] & Hm & [(Hk & props & [pn ps] & Hv & Hp & [Hn|Hd])|[(Hk & subs & [pn ps] & Hv & Hp & Hd)|(Hk & Hd)]])
           |([key v] & Hm & Hk & items & i & Hv & Hi & Hd)]; cbn in *; subst.
    + by eapply DeclHere.
    + eapply DeclBelow; [by eapply SubProperty|done].
    + eapply DeclBelow; [by eapply SubMember|done].
    + eapply DeclBelow; [by eapply SubKeyword|done].
    + eapply DeclBelow; [by eapply SubElement|done].
Qed.

Lemma object_grown pairs st : Forall (λ m, parts_good m.2) pairs →
  grown (declares (VObject pairs)) st
    (foldl (walk_array_keyword walk) (walk_each (walk_keyword walk) st pairs) pairs).
Proof.
  rewrite Forall_forall. intros Hg. eapply grown_iff; [|eapply grown_trans].
  - intros n. symmetry. apply declares_object.
  - apply walk_each_grown. intros m st' Hm. apply keyword_grown. by apply Hg.
  - apply foldl_grown. intros m st' Hm. apply elements_grown. by apply Hg.
Qed.
End walking.

Lemma walk_grown room : ∀ n v st, canonical n v → (n ≤ room)%nat →
  grown (declares v) st (walk_schema_props room v st).
Proof.
  induction room as [|room IH]; intros n v st Hc Hn.
  { destruct n; [inversion Hc|lia]. }
  cbn [walk_schema_props]. destruct (walk_full st) eqn:Ef; [apply grown_same; by right|].
  destruct v as [| | | | |pairs]; try by apply grown_same; left; intros m; inversion 1.
  inversion Hc as [| | | | |k ps Hps _]; subst.
  apply (object_grown _ (canonical k)); [intros v' st' Hv; apply (IH k); [done|lia]|].
  eapply Forall_impl; [exact Hps|]. intros [key child] Hch. cbn in *. split_and!; [done| |].
  - intros props p -> Hp. inversion Hch as [| | | | |k' ? Hall _]; subst. rewrite Forall_forall in Hall.
    eapply canonical_more; [by apply Hall|lia].
  - intros items i -> Hi. inversion Hch as [| | | |k' ? Hall|]; subst. rewrite Forall_forall in Hall.
    eapply canonical_more; [by apply Hall|lia].
Qed.

Lemma walk_start_ok : walk_ok (mkWalk [] ∅).
Proof. split; [constructor|]. cbn. set_solver. Qed.

(** A classified schema: its parameters, once each. *)
Lemma extract_exact schema props v rest : extract_schema_properties schema = Some props →
  parse_value (trim schema) = Ok (v, rest) → NoDup props ∧ ∀ n, n ∈ props ↔ declares v n.
Proof.
  unfold extract_schema_properties. destruct (_ <? _)%nat; [done|]. intros E Hv. rewrite Hv in E.
  destruct (Nat.leb_spec MAX_SCHEMA_PROPS (length (extract_properties_from_val v))) as [|Hlt]; [done|].
  injection E as <-. unfold extract_properties_from_val in *.
  pose proof (parsed_canonical _ _ _ _ _ Hv) as Hcan.
  pose proof (walk_grown (S MAX_SCHEMA_WALK_DEPTH) (S MAX_JSON_DEPTH) v (mkWalk [] ∅) Hcan (Nat.le_refl _)) as Hg.
  destruct (Hg walk_start_ok) as ([Hnd _] & _ & Hs & Hc).
  split; [done|]. intros n. split.
  - intros Hn. destruct (Hs n Hn) as [Hn'|]; [by apply elem_of_nil in Hn'|done].
  - apply Hc. unfold walk_full. by apply Nat.leb_gt.
Qed.

(** ** What a diff reports *)

(** Nothing to report for a JSON member: the same document, or the same text
    where one of them is not JSON. *)
Definition json_alike (a b : option string) : Prop :=
  match a, b with
  | None, None => True
  | Some a, Some b =>
      match parse_document a, parse_document b with
      | Ok v, Ok w => v = w
      | _, _ => a = b
      end
  | _, _ => False
  end.

Definition texts_alike (a b : string) : bool :=
  match both_normal (Some a) (Some b) with
  | Some (x, y) => String.eqb x y
  | None => String.eqb a b
  end.

Lemma texts_alike_iff a b : texts_alike a b = true ↔ json_alike (Some a) (Some b).
Proof.
  unfold texts_alike, both_normal, normalize_json. cbn [fmap option_fmap option_map json_alike].
  destruct (parse_document a) as [v|] eqn:Ea; cbn [result_bind]; [|apply String.eqb_eq].
  destruct (parse_document b) as [w|] eqn:Eb; cbn [result_bind]; [|apply String.eqb_eq].
  rewrite String.eqb_eq. split; [|by intros ->].
  apply (write_injective (S MAX_JSON_DEPTH)); by eapply document_canonical.
Qed.

Lemma json_changed_iff a b : optional_json_changed a b = false ↔ json_alike a b.
Proof.
  destruct a as [a|], b as [b|]; try done. rewrite <- texts_alike_iff. unfold optional_json_changed, texts_alike.
  destruct (both_normal _ _) as [[x y]|]; apply negb_false_iff.
Qed.

Lemma schemas_differ_iff a b : schemas_differ a b = false ↔ json_alike a b.
Proof.
  unfold schemas_differ. destruct a as [a|], b as [b|].
  - rewrite <- texts_alike_iff. unfold texts_alike. destruct (both_normal _ _) as [[x y]|]; rewrite negb_false_iff; [done|].
    rewrite bool_decide_eq_true, String.eqb_eq. split; congruence.
  - cbn. destruct (normalize_json a); rewrite bool_decide_eq_false_2 by done; by split.
  - cbn. rewrite bool_decide_eq_false_2 by done. by split.
  - cbn. rewrite bool_decide_eq_true_2 by done. by split.
Qed.

(** Schemas that are alike and classified have the same parameters. *)
Lemma document_value schema v : parse_document schema = Ok v → ∃ rest, parse_value (trim schema) = Ok (v, rest).
Proof.
  unfold parse_document. destruct (is_empty _); [done|]. intros ([v' r] & Hv & E)%result_bind_ok.
  destruct (is_empty _); [|done]. injection E as <-. eauto.
Qed.

Lemma extract_value schema props v rest : extract_schema_properties schema = Some props →
  parse_value (trim schema) = Ok (v, rest) → props = extract_properties_from_val v.
Proof.
  unfold extract_schema_properties. destruct (_ <? _)%nat; [done|]. intros E Hv. rewrite Hv in E.
  destruct (_ <=? _)%nat; [done|]. by injection E.
Qed.

Lemma alike_props a b pa pb : json_alike a b → a ≫= extract_schema_properties = pa →
  b ≫= extract_schema_properties = pb → unclassified a pa = false → unclassified b pb = false → pa = pb.
Proof.
  destruct a as [a|], b as [b|]; try done; [|by intros _ <- <-]. cbn [json_alike mbind option_bind].
  intros Hal <- <- Ha Hb. destruct (extract_schema_properties a) as [pa|] eqn:Ea; [|done].
  destruct (extract_schema_properties b) as [pb|] eqn:Eb; [|done]. f_equal.
  destruct (parse_document a) as [v|] eqn:Da; [|congruence]. destruct (parse_document b) as [w|] eqn:Db; [|congruence].
  subst. apply document_value in Da as [ra Da], Db as [rb Db].
  by rewrite (extract_value _ _ _ _ Ea Da), (extract_value _ _ _ _ Eb Db).
Qed.

(** A schema too large or too wide to classify. *)
Definition over_budget (t : ToolDefinition) : bool :=
  unclassified (td_input_schema t) (td_input_schema t ≫= extract_schema_properties).

(** Two tools between which there is nothing to report. *)
Record quiet (t t' : ToolDefinition) : Prop := {
  qt_description : td_description t = td_description t';
  qt_title : td_title t = td_title t';
  qt_input : json_alike (td_input_schema t) (td_input_schema t');
  qt_output : json_alike (td_output_schema t) (td_output_schema t');
  qt_annotations : json_alike (td_annotations_raw t) (td_annotations_raw t');
  qt_icons : json_alike (td_icons_raw t) (td_icons_raw t');
  qt_execution : json_alike (td_execution_raw t) (td_execution_raw t');
  qt_meta : json_alike (td_meta_raw t) (td_meta_raw t');
  qt_base : over_budget t = false;
  qt_current : over_budget t' = false
}.

Definition has_high (changes : list ToolChange) : Prop := ∃ c, c ∈ changes ∧ change_severity c = SevHigh.

Lemma has_high_app l l' : has_high (l ++ l') ↔ has_high l ∨ has_high l'.
Proof. unfold has_high. set_solver. Qed.

(** Changes of one aspect: none, or one that blocks. *)
Definition aspect (changes : list ToolChange) (unchanged : Prop) : Prop :=
  changes = [] ∧ unchanged ∨ has_high changes ∧ ¬ unchanged.

Lemma aspect_app l l' P P' : aspect l P → aspect l' P' → aspect (l ++ l') (P ∧ P').
Proof.
  intros [[-> HP]|[Hh HP]] [[-> HP']|[Hh' HP']]; unfold aspect; rewrite ?has_high_app; tauto.
Qed.

Lemma aspect_one (b : bool) c P : change_severity c = SevHigh → (b = false ↔ P) →
  aspect (if b then [c] else []) P.
Proof.
  intros Hs HP. destruct b; [right|left].
  - split; [exists c; set_solver|]. intros ?%HP. done.
  - split; [done|]. by apply HP.
Qed.

Lemma filter_none (l : list string) (s : gset string) : (∀ x, x ∈ l → x ∈ s) → filter (λ p, p ∉ s) l = [].
Proof.
  induction l as [|x l IH]; intros Hl; [done|]. rewrite filter_cons_False; [|set_solver]. apply IH. set_solver.
Qed.

Section reports.
Context `{Unicode, Expressions}.

Lemma schemas_aspect name t t' : aspect (diff_schemas name (td_input_schema t) (td_input_schema t'))
  (json_alike (td_input_schema t) (td_input_schema t') ∧ over_budget t = false ∧ over_budget t' = false).
Proof.
  unfold diff_schemas, over_budget. set (a := td_input_schema t). set (b := td_input_schema t').
  pose proof (schemas_differ_iff a b) as Hd.
  destruct (unclassified a _) eqn:Ua; [right; cbn [orb]|].
  { split; [|naive_solver]. apply has_high_app. right. by exists (SchemaChanged name OverBudget); split; [set_solver|]. }
  destruct (unclassified b _) eqn:Ub; [right; cbn [orb]|].
  { split; [|naive_solver]. apply has_high_app. right. by exists (SchemaChanged name OverBudget); split; [set_solver|]. }
  cbn [orb]. destruct (schemas_differ a b) eqn:Es; [right|left].
  - split; [|intros (Hal%Hd & _); done]. by exists (SchemaChanged name NormalFormChanged); split; [set_solver|].
  - assert (json_alike a b) as Hal by (by apply Hd).
    rewrite (alike_props a b _ _ Hal eq_refl eq_refl Ua Ub).
    rewrite !filter_none by (intros; by apply elem_of_list_to_set). done.
Qed.

Lemma fields_aspect name t t' : aspect (diff_advertised_fields name t t')
  (td_title t = td_title t' ∧ json_alike (td_output_schema t) (td_output_schema t')
   ∧ json_alike (td_annotations_raw t) (td_annotations_raw t') ∧ json_alike (td_icons_raw t) (td_icons_raw t')
   ∧ json_alike (td_execution_raw t) (td_execution_raw t') ∧ json_alike (td_meta_raw t) (td_meta_raw t')).
Proof.
  unfold diff_advertised_fields, field_change.
  apply aspect_app; [apply aspect_one; [done|]; rewrite negb_false_iff; apply bool_decide_eq_true|].
  repeat (apply aspect_app; [apply aspect_one; [done|apply json_changed_iff]|]).
  apply aspect_one; [done|apply json_changed_iff].
Qed.

(** The changes of one tool: none exactly when there is nothing to report,
    and otherwise one of them blocks. *)
Lemma diff_tool_aspect name t t' : aspect (diff_tool name t t') (quiet t t').
Proof.
  assert (aspect (diff_tool name t t') (td_description t = td_description t' ∧
    (json_alike (td_input_schema t) (td_input_schema t') ∧ over_budget t = false ∧ over_budget t' = false)
    ∧ (td_title t = td_title t' ∧ json_alike (td_output_schema t) (td_output_schema t')
   ∧ json_alike (td_annotations_raw t) (td_annotations_raw t') ∧ json_alike (td_icons_raw t) (td_icons_raw t')
   ∧ json_alike (td_execution_raw t) (td_execution_raw t') ∧ json_alike (td_meta_raw t) (td_meta_raw t')))) as Ha.
  { unfold diff_tool. apply aspect_app; [|apply aspect_app; [apply schemas_aspect|apply fields_aspect]].
    case_bool_decide as Hd; [by left|right]. split; [|done]. eexists. split; [by apply list_elem_of_singleton|done]. }
  destruct Ha as [[E (? & (? & ? & ?) & ? & ? & ? & ? & ? & ?)]|[Hh Hn]]; [left|right]; (split; [done|]).
  - by split.
  - intros []. apply Hn. by split_and!.
Qed.

(** *** Parameters *)

(** A parameter that the input schema of a tool declares. *)
Definition parameter (t : ToolDefinition) (p : string) : Prop := ∃ schema v rest,
  td_input_schema t = Some schema ∧ parse_value (trim schema) = Ok (v, rest) ∧ declares v p.

Lemma parameter_iff t p : over_budget t = false →
  (p ∈ default [] (td_input_schema t ≫= extract_schema_properties) ↔ parameter t p).
Proof.
  unfold over_budget, parameter. destruct (td_input_schema t) as [schema|]; cbn [mbind option_bind default].
  2: { intros _. split; [by intros ?%elem_of_nil|]. by intros (? & ? & ? & [=] & _). }
  destruct (extract_schema_properties schema) as [props|] eqn:E; [|done]. intros _. cbn [default].
  destruct (parse_value (trim schema)) as [[v rest]|e] eqn:Ev.
  - destruct (extract_exact _ _ _ _ E Ev) as [_ Hp]. rewrite Hp. split; [eauto 10|].
    intros (? & v' & rest' & [= <-] & Hv & Hd). rewrite Ev in Hv. by injection Hv as -> ->.
  - unfold extract_schema_properties in E. destruct (_ <? _)%nat; [done|]. rewrite Ev in E. injection E as <-.
    split; [by intros ?%elem_of_nil|]. intros (? & ? & ? & [= <-] & Hv & _). congruence.
Qed.

Definition change_tool (c : ToolChange) : string :=
  match c with
  | DescriptionChanged n _ _ _ | SchemaParamAdded n _ | ToolAdded n | ToolRemoved n | SchemaParamRemoved n _
  | SchemaChanged n _ | AdvertisedFieldChanged n _ _ => n
  end.

(** Whether a change is one of a tool that both listings have. *)
Definition in_common (c : ToolChange) : bool :=
  match c with ToolAdded _ | ToolRemoved _ => false | _ => true end.

Lemma fields_only name t t' c : c ∈ diff_advertised_fields name t t' → ∃ f d, c = AdvertisedFieldChanged name f d.
Proof.
  unfold diff_advertised_fields, field_change. rewrite !elem_of_app.
  intros [Hc|[Hc|[Hc|[Hc|[Hc|Hc]]]]]; case_match; set_solver.
Qed.

Lemma schemas_only name a b c : c ∈ diff_schemas name a b → change_tool c = name ∧ in_common c = true.
Proof.
  unfold diff_schemas. destruct (_ || _); rewrite !elem_of_app, ?list_elem_of_fmap.
  - intros [Hc|Hc]; [case_match|]; set_solver.
  - intros [Hc|[(p & -> & _)|(p & -> & _)]]; [case_match; set_solver|done|done].
Qed.

Lemma diff_tool_only name t t' c : c ∈ diff_tool name t t' → change_tool c = name ∧ in_common c = true.
Proof.
  unfold diff_tool. rewrite !elem_of_app. intros [Hc|[Hc|Hc]].
  - case_match; [by apply elem_of_nil in Hc|]. by apply list_elem_of_singleton in Hc as ->.
  - by apply schemas_only in Hc.
  - by apply fields_only in Hc as (f & d & ->).
Qed.

Lemma added_parameter name t t' p : over_budget t = false → over_budget t' = false →
  (SchemaParamAdded name p ∈ diff_tool name t t' ↔ parameter t' p ∧ ¬ parameter t p).
Proof.
  intros Ht Ht'. rewrite <- (parameter_iff t p Ht), <- (parameter_iff t' p Ht').
  unfold diff_tool. rewrite !elem_of_app. split.
  - intros [Hc|[Hc|(? & ? & [=])%fields_only]]; [case_match; set_solver|].
    unfold diff_schemas in Hc. unfold over_budget in Ht, Ht'. rewrite Ht, Ht' in Hc. cbn [orb] in Hc.
    rewrite !elem_of_app, !list_elem_of_fmap in Hc.
    destruct Hc as [Hc|[(q & [= <-] & Hq)|(q & [=] & _)]]; [case_match; set_solver|].
    apply list_elem_of_filter in Hq as [Hn Hq]. rewrite elem_of_list_to_set in Hn. done.
  - intros [Hin Hout]. right; left. unfold diff_schemas. unfold over_budget in Ht, Ht'. rewrite Ht, Ht'. cbn [orb].
    rewrite !elem_of_app, !list_elem_of_fmap. right; left. exists p. split; [done|].
    apply list_elem_of_filter. by rewrite elem_of_list_to_set.
Qed.

(** *** Whole listings *)

Lemma elem_of_names (m : gmap string ToolDefinition) n : n ∈ sorted_names m ↔ is_Some (m !! n).
Proof.
  unfold sorted_names. rewrite elem_of_sort_dedup, list_elem_of_fmap. split.
  - intros ([k t] & -> & Hk%elem_of_map_to_list). by exists t.
  - intros [t Ht]. exists (n, t). split; [done|]. by apply elem_of_map_to_list.
Qed.

Lemma change_iff base cur c : c ∈ df_changes (diff_tools_lists base cur) ↔
  match index_by_name base !! change_tool c, index_by_name cur !! change_tool c with
  | Some t, Some t' => c ∈ diff_tool (change_tool c) t t'
  | Some _, None => c = ToolRemoved (change_tool c)
  | None, Some _ => c = ToolAdded (change_tool c)
  | None, None => False
  end.
Proof.
  unfold diff_tools_lists. cbn [df_changes]. set (bm := index_by_name base). set (cm := index_by_name cur).
  rewrite elem_of_app, list_elem_of_fmap, list_elem_of_join. setoid_rewrite list_elem_of_fmap.
  setoid_rewrite list_elem_of_filter. setoid_rewrite elem_of_names. split.
  - intros [(n & -> & Hc & [t Hb])|(l & Hc & n & -> & [t' Hn])]; cbn [change_tool].
    + by rewrite Hb, Hc.
    + rewrite Hn in Hc. destruct (bm !! n) as [t|] eqn:Hb.
      * apply diff_tool_only in Hc as Hc'. destruct Hc' as [<- _]. by rewrite Hb, Hn.
      * apply list_elem_of_singleton in Hc as ->. cbn. by rewrite Hb, Hn.
  - destruct (bm !! change_tool c) as [t|] eqn:Hb, (cm !! change_tool c) as [t'|] eqn:Hc; [| | |done].
    + intros Hin. right. eexists. split; [exact Hin|]. exists (change_tool c). rewrite Hb, Hc. eauto.
    + intros E. left. exists (change_tool c). eauto.
    + intros E. right. eexists. split; [|exists (change_tool c); rewrite Hb, Hc; eauto]. set_solver.
Qed.

Lemma max_severity_high changes : max_severity changes = SevHigh ↔ has_high changes.
Proof.
  unfold max_severity. assert (∀ m, foldl (λ m c, if severity_rank m <? severity_rank (change_severity c)
    then change_severity c else m) m changes = SevHigh ↔ m = SevHigh ∨ has_high changes) as Hg.
  { induction changes as [|c changes IH]; intros m; cbn [foldl].
    - split; [by left|]. intros [?|(c & Hc & _)]; [done|]. by apply elem_of_nil in Hc.
    - rewrite IH. change (c :: changes) with ([c] ++ changes). rewrite has_high_app.
      assert (has_high [c] ↔ change_severity c = SevHigh) as -> by (unfold has_high; set_solver).
      destruct m, (change_severity c); cbn; naive_solver. }
  rewrite Hg. naive_solver.
Qed.
End reports.

(** What a diff says of one name. *)
Lemma changes_quiet `{Unicode, Expressions} base cur : df_changes (diff_tools_lists base cur) = [] ↔
  ∀ n, match index_by_name base !! n, index_by_name cur !! n with
       | None, None => True
       | Some t, Some t' => quiet t t'
       | _, _ => False
       end.
Proof.
  pose proof (change_iff base cur) as Hc. split.
  - intros E n. rewrite E in Hc.
    destruct (index_by_name base !! n) as [t|] eqn:Hb, (index_by_name cur !! n) as [t'|] eqn:Hcn; [| | |done].
    + destruct (diff_tool_aspect n t t') as [[_ Hq]|[(c & Hin & _) _]]; [done|].
      apply diff_tool_only in Hin as Hn. destruct Hn as [<- _]. specialize (Hc c). rewrite Hb, Hcn in Hc.
      by apply Hc, elem_of_nil in Hin.
    + specialize (Hc (ToolRemoved n)). cbn in Hc. rewrite Hb, Hcn in Hc. by apply (elem_of_nil (ToolRemoved n)), Hc.
    + specialize (Hc (ToolAdded n)). cbn in Hc. rewrite Hb, Hcn in Hc. by apply (elem_of_nil (ToolAdded n)), Hc.
  - intros Hq. destruct (df_changes _) as [|c l] eqn:E; [done|]. exfalso.
    specialize (Hq (change_tool c)). assert (c ∈ c :: l) as Hin%Hc by set_solver. revert Hin Hq.
    destruct (index_by_name base !! _) as [t|], (index_by_name cur !! _) as [t'|]; try done.
    intros Hin Hq. destruct (diff_tool_aspect (change_tool c) t t') as [[E' _]|[_ Hn]]; [|done].
    rewrite E' in Hin. by apply elem_of_nil in Hin.
Qed.

Lemma blocks_iff `{Unicode, Expressions} base cur : df_should_block (diff_tools_lists base cur) = true ↔
  ∃ n t t', index_by_name base !! n = Some t ∧ index_by_name cur !! n = Some t' ∧ ¬ quiet t t'.
Proof.
  assert (df_should_block (diff_tools_lists base cur) = true ↔ has_high (df_changes (diff_tools_lists base cur))) as ->.
  { rewrite <- max_severity_high. unfold diff_tools_lists. cbn [df_should_block df_changes].
    destruct (max_severity _); cbn; naive_solver. }
  unfold has_high. setoid_rewrite change_iff. split.
  - intros (c & Hin & Hs). exists (change_tool c).
    destruct (index_by_name base !! _) as [t|], (index_by_name cur !! _) as [t'|]; try done;
      [|by rewrite Hin in Hs|by rewrite Hin in Hs].
    exists t, t'. split_and!; [done..|]. intros Hq.
    destruct (diff_tool_aspect (change_tool c) t t') as [[E _]|[_ Hn]]; [|done]. rewrite E in Hin. by apply elem_of_nil in Hin.
  - intros (n & t & t' & Hb & Hcn & Hq). destruct (diff_tool_aspect n t t') as [[_ ?]|[(c & Hin & Hs) _]]; [done|].
    exists c. split; [|done]. apply diff_tool_only in Hin as Hn. destruct Hn as [-> _]. by rewrite Hb, Hcn.
Qed.

(** [C31] The diff of two listings, each read as one tool per name (the last
    one of a name), is exact. It is empty exactly when the listings have the
    same tool names and between the tools of one name nothing differs
    (description, title, and no JSON member is another document) and both input
    schemas are within the analysis budget; it blocks exactly when, for some
    tool of both listings, something differs or one of the schemas is over that
    budget; added and removed tools are those of one listing only; and, when
    both schemas of a tool are within the budget, the new parameters reported
    for it are exactly those its current schema declares, at any depth, and the
    baseline schema does not. *)
Theorem listing_diff_exact `{Unicode, Expressions} base cur :
  let d := diff_tools_lists base cur in
  let bm := index_by_name base in
  let cm := index_by_name cur in
  (df_changes d = [] ↔ ∀ n, match bm !! n, cm !! n with
     | None, None => True
     | Some t, Some t' => quiet t t'
     | _, _ => False
     end)
  ∧ (df_should_block d = true ↔ ∃ n t t', bm !! n = Some t ∧ cm !! n = Some t' ∧ ¬ quiet t t')
  ∧ (∀ n, ToolAdded n ∈ df_changes d ↔ bm !! n = None ∧ is_Some (cm !! n))
  ∧ (∀ n, ToolRemoved n ∈ df_changes d ↔ is_Some (bm !! n) ∧ cm !! n = None)
  ∧ (∀ n t t' p, bm !! n = Some t → cm !! n = Some t' → over_budget t = false → over_budget t' = false →
       (SchemaParamAdded n p ∈ df_changes d ↔ parameter t' p ∧ ¬ parameter t p)).
Proof.
  intros d bm cm. pose proof (change_iff base cur) as Hc. fold d bm cm in Hc. split_and!.
  - apply changes_quiet.
  - apply blocks_iff.
  - intros n. rewrite Hc. cbn [change_tool]. destruct (bm !! n) as [t|], (cm !! n) as [t'|]; try naive_solver.
    split; [|naive_solver]. by intros [_ ?]%diff_tool_only.
  - intros n. rewrite Hc. cbn [change_tool]. destruct (bm !! n) as [t|], (cm !! n) as [t'|]; try naive_solver.
    split; [|naive_solver]. by intros [_ ?]%diff_tool_only.
  - intros n t t' p Hb Hcn Ht Ht'. rewrite Hc. cbn [change_tool]. rewrite Hb, Hcn. by apply added_parameter.
Qed.
