(* ===== verification/PinnedSession.v ===== *)
(** * PinnedSession: pinned listings in a running session

    The listing pipeline asks its verifier through the class [Verifier].  Here
    the class is implemented by the pins of a policy, as
    [verify_and_emit_list] of [src/src/auditor/proxy_tools_list.rs] calls
    [verify_tools_list], and what the pipeline proves against the class becomes
    a statement about the approved tools.  The manifest scan and the stored
    baselines stay open. *)

From S2P Require Import Prelude Text IpAddr PolicyHost PathText JsonCanon CanonTheorems.
From S2P Require Import Json RpcId WireFrame ToolsList Interleave ProxyState ListPipeline ListClient ListTheorems.
From S2P Require Import ToolPins PinTheorems.

Open Scope Z_scope.

Section session.
Context `{Digest, Unicode, Expressions}.
Context (scan : list ToolDefinition → bool) (baselines : string → option (list ToolDefinition)).
Context (entries : list ToolsListHashEntry).

Definition is_blocked (r : result VerifyAction BlockedListing * list PinEvent) : bool :=
  match r.1 with Ok _ => false | Err _ => true end.

(** The loop over the entries of the policy, by their servers; without
    entries the listing of the server called default. *)
Definition pin_blocks (server : option string) (tools : list ToolDefinition) : bool :=
  match server with
  | None => is_blocked (verify_tools_list "default" tools None (baselines "default"))
  | Some server =>
      existsb (λ e, String.eqb (pin_server e) server
                    && is_blocked (verify_tools_list server tools (Some e) (baselines server))) entries
  end.

#[export] Instance pin_verifier : Verifier := {|
  scan_blocks := scan;
  diff_blocks := pin_blocks;
  ProxyState.hash_tools_list := λ tools, match hash_tools_list tools with Ok h => Some h | Err _ => None end
|}.

(** Every pin is asked, and none blocks an accepted listing. *)
Lemma accepted_listing pol tools : tools_list_hashes pol = pin_server <$> entries →
  listing_verdict pol tools = None → ∀ e, e ∈ entries →
  (verify_tools_list (pin_server e) tools (Some e) (baselines (pin_server e))).1 = Ok Verified.
Proof.
  intros Hpol Hv e He. unfold listing_verdict in Hv.
  destruct (ProxyState.hash_tools_list tools); [|done].
  destruct (scan_blocks tools); [done|]. rewrite Hpol in Hv.
  rewrite bool_decide_eq_false_2 in Hv by (intros Hn%fmap_nil_inv; rewrite Hn in He; by apply elem_of_nil in He).
  destruct (existsb _ _) eqn:Eb; [done|]. rewrite <- not_true_iff_false in Eb.
  destruct (is_blocked (verify_tools_list (pin_server e) tools (Some e) (baselines (pin_server e)))) eqn:Hb.
  - destruct Eb. apply List.existsb_exists. exists (pin_server e). split.
    + apply list_elem_of_In, list_elem_of_fmap. by exists e.
    + cbn. apply List.existsb_exists. exists e. split; [by apply list_elem_of_In|]. by rewrite String.eqb_refl.
  - unfold is_blocked, verify_tools_list in *. destruct (hash_tools_list tools); [|done]. by destruct (String.eqb _ _).
Qed.
End session.

(** A verified listing names the tools of the approved one. *)
Lemma same_names ts ts' name : Forall2 same_tool ts ts' → name ∈ td_name <$> ts' → name ∈ td_name <$> ts.
Proof.
  induction 1 as [|t t' ts ts' Hs _ IH]; [done|]. rewrite !fmap_cons, !elem_of_cons.
  intros [->|Hin]; [left; symmetry; apply Hs|right; auto].
Qed.

Lemma emitted_names pol tools name : name ∈ td_name <$> emit_tools pol tools → name ∈ td_name <$> tools.
Proof.
  unfold emit_tools, visible_tools. destruct (policy_dry_run pol); [done|].
  rewrite !list_elem_of_fmap. intros (t & -> & [_ Ht]%list_elem_of_filter). eauto.
Qed.

(** [C28] In a session under pinned listings, whatever the interleaving of the
    two loops and whatever the server sends, a call the policy allows that
    crosses (so not a call a dry run merely observes) names a tool of the
    listing whose hash the policy pins, and the published definitions behind it
    are the approved ones (same description, title, schemas, annotations,
    icons, execution hints and metadata, tool by tool), unless the canonical
    texts of the two listings are a collision of SHA-256. *)
Theorem pinned_session_calls_approved `{Digest, Unicode, Expressions} scan baselines entries iter pol turns
    pre post expected tool e approved :
  tools_list_hashes pol = pin_server <$> entries → e ∈ entries →
  hash_tools_list approved = Ok (pin_hash e) →
  sh_trace (sy_shared (@system_run iter (pin_verifier scan baselines entries) pol turns))
    = pre ++ Dispatched expected tool true :: post →
  ∃ name tools before after,
    tool = Some name ∧ name ∈ td_name <$> emit_tools pol tools
    ∧ pre = before ++ Published tools :: after ∧ unpublished after ∧ unchanged after
    ∧ (collide approved tools
       ∨ name ∈ td_name <$> approved ∧ Forall2 same_tool (sort_by_name approved) (sort_by_name tools)).
Proof.
  intros Hpol He Ha Htrace.
  destruct (@dispatch_published iter (pin_verifier scan baselines entries) pol turns pre post expected tool)
    as (name & tools & before & after & -> & Hpre & Hv & Hn & Hu & Hc); [|done|].
  { unfold list_verification_required. rewrite Hpol, bool_decide_eq_false_2; [done|].
    intros Hn%fmap_nil_inv. subst. by apply elem_of_nil in He. }
  pose proof (accepted_listing scan baselines entries pol tools Hpol Hv e He) as Hver.
  unfold verify_tools_list in Hver. destruct (hash_tools_list tools) as [h|] eqn:Hh; [|done].
  destruct (String.eqb_spec h (pin_hash e)) as [->|]; [|done].
  exists name, tools, before, after. split_and!; [done..|].
  destruct (hash_exact _ _ _ _ Ha Hh) as [_ [Hs|Hcol]]; [done| |by left]. right. split; [|done].
  rewrite <- (sort_by_name_perm approved). eapply same_names; [exact Hs|].
  rewrite (sort_by_name_perm tools). by eapply emitted_names.
Qed.

(** ** Concrete listings *)

Module PinDemo.

(** JSON text with single quotes for double ones. *)
Definition json (s : string) : string := str_map (λ c, if Ascii.eqb c "'" then QUOTE else c) s.

(** A digest without collisions, NFKC that changes nothing, no instructions. *)
#[export] Instance full_digest : Digest := {| sha256 := String.list_ascii_of_string |}.
#[export] Instance no_tables : Unicode := {| nfkc_tables := id; domain_to_ascii := λ _, None |}.
#[export] Instance no_instructions : Expressions := {| hidden_instructions := λ _, false |}.

Definition tool (name schema : string) : ToolDefinition :=
  mkTool name "" None (Some (json schema)) None None None None None None.

Definition approved_tools : list ToolDefinition :=
  [tool "read" "{'type':'object','properties':{'path':{'type':'string'}}}"; tool "list" "{}"].
Definition same_tools : list ToolDefinition :=
  [tool "list" "{ }"; tool "read" "{'properties': {'path': {'type': 'string'}}, 'type': 'object'}"].

Definition pin_of (tools : list ToolDefinition) : string :=
  match hash_tools_list tools with Ok h => h | Err _ => "" end.

(** A session that pins the listing of [ListingDemo.probed]. *)
Definition bare (name : string) : ToolDefinition := mkTool name "" None None None None None None None None.
Definition pinned : list ToolsListHashEntry := [mkPin "files" (pin_of [bare "remove"; bare "read"]) None].
Definition pinned_policy : ListPolicy := mkListPolicy ["files"] [("read", true); ("remove", false)] false false.

Definition pinned_events : list ListEvent :=
  sh_trace (sy_shared (@system_run map_to_list (pin_verifier (λ _, false) (λ _, None) pinned) pinned_policy
                         ListingDemo.probed)).

End PinDemo.
Import PinDemo.

Lemma canonical_text_exact_witness :
  normalize_json (json "{'a':[true,'x'],'b':1}") = Ok (json "{'a':[true,'x'],'b':1}")
  ∧ parse_document (json " {'b' : 1, 'a': [ true, '\u0078' ]} ") = parse_document (json "{'a':[true,'x'],'b':1}").
Proof.
  destruct (canonical_text_exact (json " {'b' : 1, 'a': [ true, '\u0078' ]} ") (json "{'a':[true,'x'],'b':1}")
    (json "{'a':[true,'x'],'b':1}") (json "{'a':[true,'x'],'b':1}")) as [H1 H2]; [reflexivity|reflexivity|].
  split; [exact H1|]. apply H2. reflexivity.
Defined.

(** [u32::from_str_radix] takes a sign: an escape that is not JSON. *)
Lemma signed_escape_accepted : parse_document (json "'\u+041'") = Ok (VStr "A").
Proof. reflexivity. Qed.

Lemma pinned_listing_is_approved_witness :
  (verify_tools_list "files" same_tools (Some (mkPin "files" (pin_of approved_tools) None)) None).1 = Ok Verified
  ∧ (Forall2 same_tool (sort_by_name approved_tools) (sort_by_name same_tools) ∨ collide approved_tools same_tools).
Proof.
  pose proof (pinned_listing_is_approved "files" approved_tools same_tools
    (mkPin "files" (pin_of approved_tools) None) None) as H. cbv zeta in H.
  destruct (verify_tools_list "files" same_tools (Some (mkPin "files" (pin_of approved_tools) None)) None)
    as [verdict events] eqn:E. assert (verdict = Ok Verified) as Hv.
  { vm_compute in E. congruence. }
  destruct H as (_ & _ & _ & H & _); [vm_compute; reflexivity|]. split; [exact Hv|]. apply (H Hv).
Defined.

Lemma pinned_session_calls_approved_witness :
  ∃ name tools before after,
    Some "read"%string = Some name ∧ name ∈ td_name <$> emit_tools pinned_policy tools
    ∧ take 5 pinned_events = before ++ Published tools :: after ∧ unpublished after ∧ unchanged after
    ∧ (collide [bare "remove"; bare "read"] tools
       ∨ name ∈ td_name <$> [bare "remove"; bare "read"]
         ∧ Forall2 same_tool (sort_by_name [bare "remove"; bare "read"]) (sort_by_name tools)).
Proof.
  apply (pinned_session_calls_approved (λ _, false) (λ _, None) pinned map_to_list pinned_policy ListingDemo.probed
    (take 5 pinned_events) [] (Some 1) (Some "read"%string) (mkPin "files" (pin_of [bare "remove"; bare "read"]) None)).
  - reflexivity.
  - apply list_elem_of_here.
  - vm_compute. reflexivity.
  - vm_compute. reflexivity.
Defined.
