(* ===== verification/PolicyMerge.v ===== *)
(** * PolicyMerge: the layers of a tool's policy

    [src/src/policy/merge.rs] and [src/src/policy/validator/paths.rs]: the
    spelling rules under which one filesystem pattern covers another on a
    target system, and the merge of the layers defaults, profiles, server
    defaults and tool into the policy of one tool.

    The merge is characterised entry by entry, independently of the loop: a
    deny stated anywhere holds, an allow holds when no later layer replaced the
    allow side and no deny covers it.  On POSIX targets pruning covered allows
    is then shown to change no decision of the matcher of
    [src/src/pathutil.rs]. *)

From S2P Require Import Prelude Text McpRules IpAddr PolicyHost PolicyCidr HostMatch Outbound AllowList.
From S2P Require Import DnsWire Deputy PathText PathResolve Targets SubPolicy PathTheorems ScanTheorems.

Open Scope result_scope.

(** ** Target systems *)

Inductive TargetOs := Windows | Linux | MacOs | OtherOs (name : string).

#[export] Instance TargetOs_eq_dec : EqDecision TargetOs.
Proof. solve_decision. Defined.

Definition separates_backslash (os : TargetOs) : bool :=
  match os with Windows => true | _ => false end.

Definition paths_case_insensitive (os : TargetOs) : bool :=
  match os with Windows | MacOs => true | _ => false end.

(** ** Spellings of a pattern *)

(** [path.replace('\\', "/")] on targets that separate at a backslash. *)
Definition unify_separators_for (os : TargetOs) (path : string) : string :=
  if separates_backslash os
  then str_map (λ c, if Ascii.eqb c BACKSLASH_CHAR then "/"%char else c) path
  else path.

Definition is_drive_prefix (seg : string) (os : TargetOs) : bool :=
  separates_backslash os
  && match seg with
     | String c (String colon EmptyString) => is_ascii_alphabetic c && Ascii.eqb colon ":"
     | _ => false
     end.

Definition trim_wildcards (unified : string) : string :=
  match strip_suffix "/**" unified with
  | Some stripped => stripped
  | None =>
      match strip_suffix "/*" unified with
      | Some stripped => stripped
      | None => if String.eqb unified "*" then "" else unified
      end
  end.

(** One step of the component walk; the segments are kept in reverse. *)
Definition normalize_seg (os : TargetOs) (segments : list string) (seg : string) : list string :=
  if is_empty seg then match segments with [] => [""] | _ => segments end
  else if String.eqb seg "." then segments
  else if String.eqb seg ".." then
    match segments with
    | top :: rest => if is_empty top || is_drive_prefix top os then segments else rest
    | [] => []
    end
  else seg :: segments.

Definition normalize_fs_pattern_for (path : string) (os : TargetOs) : string :=
  let trimmed := trim_wildcards (unify_separators_for os path) in
  match rev (foldl (normalize_seg os) [] (split "/" trimmed)) with
  | [] => "/"
  | [""] => "/"
  | segments => join "/" segments
  end.

Definition split_path_components (path : string) : list string :=
  List.filter (λ part, negb (is_empty part)) (split "/" path).

Definition path_seg_eq (os : TargetOs) (a b : string) : bool :=
  if paths_case_insensitive os then eq_ignore_ascii_case a b else String.eqb a b.

Definition path_components_equal (left right : string) (os : TargetOs) : bool :=
  let l := split_path_components left in
  let r := split_path_components right in
  (length l =? length r)%nat && forallb (λ ab, path_seg_eq os (fst ab) (snd ab)) (zip l r).

Definition pattern_seg (os : TargetOs) (segments : list string) (comp : string) : list string :=
  if is_empty comp || String.eqb comp "." then segments
  else if String.eqb comp ".." then
    match segments with
    | top :: rest => if is_drive_prefix top os then segments else rest
    | [] => []
    end
  else comp :: segments.

Definition pattern_components (path : string) (os : TargetOs) : list string :=
  rev (foldl (pattern_seg os) [] (split "/" (unify_separators_for os path))).

(** The loop of [path_covers] over the components of both patterns. *)
Fixpoint covers_loop (os : TargetOs) (allow_parts deny_parts : list string) : bool :=
  match allow_parts with
  | [] => true
  | allow_part :: allow_rest =>
      if String.eqb allow_part "**" then true
      else match deny_parts with
           | [] => false
           | deny_part :: deny_rest =>
               if negb (String.eqb allow_part "*") && negb (path_seg_eq os allow_part deny_part)
               then false
               else covers_loop os allow_rest deny_rest
           end
  end.

Definition path_covers (allowed denied : string) (os : TargetOs) : bool :=
  match pattern_components allowed os with
  | [] => false
  | allow_parts => covers_loop os allow_parts (pattern_components denied os)
  end.

Definition covers_or_same_for (covering covered : string) (os : TargetOs) : bool :=
  let c_norm := normalize_fs_pattern_for covering os in
  let d_norm := normalize_fs_pattern_for covered os in
  if path_components_equal c_norm d_norm os then true
  else if String.eqb c_norm "/" then true
  else path_covers covering covered os.

(** ** Layers *)

Record PolicyLayer := mkLayer {
  layer_allowed : option bool;
  layer_fs : option FsToolPolicy;
  layer_syscalls : option ToolSyscallPolicy;
  layer_network : option ToolNetworkPolicy;
  layer_environment_explicit : bool;
  layer_fs_replace : bool;
  layer_syscalls_replace : bool;
  layer_network_replace : bool
}.

Record MergedToolPolicy := mkMerged {
  m_allowed : bool;
  m_fs : FsToolPolicy;
  m_syscalls : ToolSyscallPolicy;
  m_network : ToolNetworkPolicy
}.

Definition merge_start : MergedToolPolicy :=
  mkMerged true (mkFsTool [] [] [] [] false None) (mkSyscalls [] [])
    (mkToolNetwork [] [] [] [] [] false).

Definition fs_has_allow_rules (fs : FsToolPolicy) : bool :=
  fs_allow_specified fs || nonempty (fs_allowed_paths fs) || nonempty (fs_read_only_paths fs)
  || nonempty (fs_read_write_paths fs).

Definition net_has_allow_rules (net : ToolNetworkPolicy) : bool :=
  t_allow_specified net || nonempty (t_allowed_hosts net) || nonempty (t_allowed_cidrs net)
  || existsb eg_allow (t_egress_rules net).

(** Whether a block replaces the allow side collected so far. *)
Definition fs_replaces (version : Z) (l : PolicyLayer) (fs : FsToolPolicy) : bool :=
  if 3 <=? version then layer_fs_replace l else fs_has_allow_rules fs.

Definition syscalls_replaces (version : Z) (l : PolicyLayer) (sc : ToolSyscallPolicy) : bool :=
  if 3 <=? version then layer_syscalls_replace l else nonempty (sc_allowed sc).

Definition network_replaces (version : Z) (l : PolicyLayer) (net : ToolNetworkPolicy) : bool :=
  if 3 <=? version then layer_network_replace l else net_has_allow_rules net.

(** An allow list under a block: replaced, or extended by what it lacks. *)
Definition merge_allows {A} `{EqDecision A} (replaces : bool) (acc xs : list A) : list A :=
  if replaces then xs else push_new acc xs.

Definition merge_fs (version : Z) (l : PolicyLayer) (acc : FsToolPolicy) (fs : FsToolPolicy)
    : FsToolPolicy :=
  let replaces := fs_replaces version l fs in
  mkFsTool
    (merge_allows replaces (fs_allowed_paths acc) (fs_allowed_paths fs))
    (merge_allows replaces (fs_read_only_paths acc) (fs_read_only_paths fs))
    (merge_allows replaces (fs_read_write_paths acc) (fs_read_write_paths fs))
    (push_new (fs_denied_paths acc) (fs_denied_paths fs))
    (if replaces then true else fs_allow_specified acc || fs_has_allow_rules fs)
    (match fs_require_path fs with Some r => Some r | None => fs_require_path acc end).

Definition merge_syscalls (version : Z) (l : PolicyLayer) (acc sc : ToolSyscallPolicy)
    : ToolSyscallPolicy :=
  mkSyscalls (merge_allows (syscalls_replaces version l sc) (sc_allowed acc) (sc_allowed sc))
    (push_new (sc_denied acc) (sc_denied sc)).

(** The egress rules under a network block: a replacing block first drops the
    allow rules collected so far; its own allows, then its denies, are added. *)
Definition merge_egress (replaces : bool) (acc rules : list EgressRule) : list EgressRule :=
  let kept := if replaces then List.filter (λ r, negb (eg_allow r)) acc else acc in
  push_new (push_new kept (List.filter eg_allow rules)) (List.filter (λ r, negb (eg_allow r)) rules).

Definition merge_network (version : Z) (l : PolicyLayer) (acc net : ToolNetworkPolicy)
    : ToolNetworkPolicy :=
  let replaces := network_replaces version l net in
  mkToolNetwork
    (merge_allows replaces (t_allowed_hosts acc) (t_allowed_hosts net))
    (merge_allows replaces (t_allowed_cidrs acc) (t_allowed_cidrs net))
    (push_new (t_denied_hosts acc) (t_denied_hosts net))
    (push_new (t_denied_cidrs acc) (t_denied_cidrs net))
    (merge_egress replaces (t_egress_rules acc) (t_egress_rules net))
    (if replaces then true else t_allow_specified acc || net_has_allow_rules net).

(** A category a layer leaves out is inherited. *)
Definition inherit {C} (merge : C → C → C) (acc : C) (stated : option C) : C :=
  match stated with Some c => merge acc c | None => acc end.

Definition merge_layer (version : Z) (acc : MergedToolPolicy) (l : PolicyLayer) : MergedToolPolicy :=
  mkMerged
    (m_allowed acc && negb (bool_decide (layer_allowed l = Some false)))
    (inherit (merge_fs version l) (m_fs acc) (layer_fs l))
    (inherit (merge_syscalls version l) (m_syscalls acc) (layer_syscalls l))
    (inherit (merge_network version l) (m_network acc) (layer_network l)).

Section merge.
Context (domain_to_ascii : string → option string) (host_os : TargetOs).

Definition deny_pattern_covers (deny allow : string) : bool := covers_or_same_for deny allow host_os.

Definition fs_deny_covers (denies : list string) (allow : string) : bool :=
  existsb (λ d, deny_pattern_covers d allow) denies.

Definition prune_fs (fs : FsToolPolicy) : FsToolPolicy :=
  let kept := List.filter (λ p, negb (fs_deny_covers (fs_denied_paths fs) p)) in
  mkFsTool (kept (fs_allowed_paths fs)) (kept (fs_read_only_paths fs)) (kept (fs_read_write_paths fs))
    (fs_denied_paths fs) (fs_allow_specified fs) (fs_require_path fs).

Definition prune_syscalls (sc : ToolSyscallPolicy) : ToolSyscallPolicy :=
  mkSyscalls (List.filter (λ s, negb (bool_decide (s ∈ sc_denied sc))) (sc_allowed sc)) (sc_denied sc).

(** The IP-layer denies of a network block: its ranges and its literals. *)
Definition merged_denied_ip (net : ToolNetworkPolicy) : list string :=
  t_denied_cidrs net ++ literal_routes (t_denied_hosts net).

Definition prune_network (net : ToolNetworkPolicy) : ToolNetworkPolicy :=
  let deny_all_ip := existsb (λ d, bool_decide (d = "*")) (t_denied_hosts net) in
  mkToolNetwork
    (List.filter (λ h, negb (host_denied domain_to_ascii (t_denied_hosts net) h)) (t_allowed_hosts net))
    (List.filter (λ c, negb (cidr_denied deny_all_ip (merged_denied_ip net) c)) (t_allowed_cidrs net))
    (t_denied_hosts net) (t_denied_cidrs net) (t_egress_rules net) (t_allow_specified net).

Definition merge_policy (layers : list PolicyLayer) (version : Z) : MergedToolPolicy :=
  let r := foldl (merge_layer version) merge_start layers in
  mkMerged (m_allowed r) (prune_fs (m_fs r)) (prune_syscalls (m_syscalls r))
    (prune_network (m_network r)).
End merge.

(** ** The policy of one tool *)

(** The refusals of a merged policy; the list an empty entry was found in. *)
Inductive MergedList :=
  | AllowedPathsList | DeniedPathsList | AllowedSyscallList | DeniedSyscallList
  | AllowedHostsList | AllowedCidrsList | DeniedHostsList | DeniedCidrsList.

Inductive MergedError :=
  | PathlessWithGrants
  | EmptyMergedEntry (where_ : MergedList).

Definition is_blank (s : string) : bool := is_empty (trim s).

Definition validate_fs_target_contract {E} (refusal : E) (fs : FsToolPolicy) : result unit E :=
  if bool_decide (fs_require_path fs = Some false) && negb (allows_pathless_call fs)
  then Err refusal else Ok ().

Definition no_blank {E} (refusal : E) (entries : list string) : result unit E :=
  if existsb is_blank entries then Err refusal else Ok ().

Definition validate_merged (merged : MergedToolPolicy) : result unit MergedError :=
  _ ←? validate_fs_target_contract PathlessWithGrants (m_fs merged);
  _ ←? no_blank (EmptyMergedEntry AllowedPathsList) (fs_allowed_paths (m_fs merged));
  _ ←? no_blank (EmptyMergedEntry DeniedPathsList) (fs_denied_paths (m_fs merged));
  _ ←? no_blank (EmptyMergedEntry AllowedSyscallList) (sc_allowed (m_syscalls merged));
  _ ←? no_blank (EmptyMergedEntry DeniedSyscallList) (sc_denied (m_syscalls merged));
  _ ←? no_blank (EmptyMergedEntry AllowedHostsList) (t_allowed_hosts (m_network merged));
  _ ←? no_blank (EmptyMergedEntry AllowedCidrsList) (t_allowed_cidrs (m_network merged));
  _ ←? no_blank (EmptyMergedEntry DeniedHostsList) (t_denied_hosts (m_network merged));
  no_blank (EmptyMergedEntry DeniedCidrsList) (t_denied_cidrs (m_network merged)).

Definition has_fs (layers : list PolicyLayer) (m : MergedToolPolicy) : bool :=
  existsb (λ l, bool_decide (is_Some (layer_fs l))) layers
  || nonempty (fs_allowed_paths (m_fs m)) || nonempty (fs_read_only_paths (m_fs m))
  || nonempty (fs_read_write_paths (m_fs m)) || nonempty (fs_denied_paths (m_fs m)).

Definition has_syscalls (layers : list PolicyLayer) (m : MergedToolPolicy) : bool :=
  existsb (λ l, bool_decide (is_Some (layer_syscalls l))) layers
  || nonempty (sc_allowed (m_syscalls m)) || nonempty (sc_denied (m_syscalls m)).

Definition has_network (layers : list PolicyLayer) (m : MergedToolPolicy) : bool :=
  existsb (λ l, bool_decide (is_Some (layer_network l))) layers
  || nonempty (t_allowed_hosts (m_network m)) || nonempty (t_denied_hosts (m_network m)).

(** What a [tool] node states besides its layers. *)
Record ToolNode := mkToolNode {
  node_name : string;
  node_args_schema : option string;
  node_side_effect : option string;
  node_input_responses : InputResponsesMode;
  node_deputy : option DeputyPolicy;
  node_opaque_fields : list OpaqueField
}.

(** The merge order: defaults, profiles, server defaults, tool. *)
Definition merge_layers (defaults : PolicyLayer) (profiles : list PolicyLayer)
    (server_defaults tool : PolicyLayer) : list PolicyLayer :=
  [defaults] ++ profiles ++ [server_defaults; tool].

Definition resolve_tool (domain_to_ascii : string → option string) (host_os : TargetOs)
    (node : ToolNode) (layers : list PolicyLayer) (rules : Z) : result ToolPolicy MergedError :=
  let merged := merge_policy domain_to_ascii host_os layers rules in
  _ ←? validate_merged merged;
  Ok (mkToolPolicy (node_name node) (m_allowed merged) (node_args_schema node)
        (node_side_effect node)
        (if has_fs layers merged then Some (m_fs merged) else None)
        (if has_syscalls layers merged then Some (m_syscalls merged) else None)
        (if has_network layers merged then Some (m_network merged) else None)
        (node_input_responses node) (node_deputy node) (node_opaque_fields node)).

(** ** What the layers say, entry by entry *)

(** An entry some layer states. *)
Definition stated {C A} (cat : PolicyLayer → option C) (entries : C → list A)
    (layers : list PolicyLayer) (x : A) : Prop :=
  ∃ l c, l ∈ layers ∧ cat l = Some c ∧ x ∈ entries c.

(** An entry of a block after which no block replaced the allow side. *)
Definition in_force {C A} (replaces : PolicyLayer → C → bool) (cat : PolicyLayer → option C)
    (entries : C → list A) (layers : list PolicyLayer) (x : A) : Prop :=
  ∃ before l c after, layers = before ++ l :: after ∧ cat l = Some c ∧ x ∈ entries c ∧
    ∀ l' c', l' ∈ after → cat l' = Some c' → replaces l' c' = false.

Lemma stated_snoc {C A} cat (entries : C → list A) layers l x :
  stated cat entries (layers ++ [l]) x ↔
  stated cat entries layers x ∨ ∃ c, cat l = Some c ∧ x ∈ entries c.
Proof.
  unfold stated. setoid_rewrite elem_of_app. setoid_rewrite list_elem_of_singleton. naive_solver.
Qed.

Lemma in_force_snoc {C A} replaces cat (entries : C → list A) layers l x :
  in_force replaces cat entries (layers ++ [l]) x ↔
  (in_force replaces cat entries layers x ∧ ∀ c, cat l = Some c → replaces l c = false) ∨
  ∃ c, cat l = Some c ∧ x ∈ entries c.
Proof.
  split.
  - intros (before & l' & c & after & E & Hc & Hx & Hlast).
    destruct after as [|z after _] using rev_ind.
    + right. apply app_inj_tail in E as [_ <-]. eauto.
    + left. rewrite app_comm_cons, app_assoc in E. apply app_inj_tail in E as [-> ->].
      split; [|intros; eapply Hlast; [set_solver|done]].
      exists before, l', c, after. split_and!; [done..|]. intros; eapply Hlast; [set_solver|done].
  - intros [[(before & l' & c & after & -> & Hc & Hx & Hlast) Hl]|(c & Hc & Hx)].
    + exists before, l', c, (after ++ [l]). rewrite <- app_assoc. split_and!; [done..|].
      intros l'' c'' [?| ->%list_elem_of_singleton]%elem_of_app ?; eauto.
    + exists layers, l, c, []. split_and!; [done..|]. intros ?? []%not_elem_of_nil.
Qed.

(** A list that grows by what each block states holds what some block stated. *)
Lemma merge_stated {S C A} `{EqDecision A} (step : S → PolicyLayer → S) (get : S → list A)
    (cat : PolicyLayer → option C) (entries : C → list A) s0 layers x :
  get s0 = [] →
  (∀ s l y, y ∈ get (step s l) ↔ y ∈ get s ∨ ∃ c, cat l = Some c ∧ y ∈ entries c) →
  x ∈ get (foldl step s0 layers) ↔ stated cat entries layers x.
Proof.
  intros H0 Hstep. induction layers as [|l layers IH] using rev_ind.
  - cbn. rewrite H0. split; [by intros ?%not_elem_of_nil|]. intros (l & c & []%not_elem_of_nil & _).
  - rewrite foldl_app. cbn [foldl]. by rewrite Hstep, IH, stated_snoc.
Qed.

(** A list a block replaces or extends holds what is in force. *)
Lemma merge_in_force {S C A} `{EqDecision A} (step : S → PolicyLayer → S) (get : S → list A)
    replaces (cat : PolicyLayer → option C) (entries : C → list A) s0 layers x :
  get s0 = [] →
  (∀ s l y, y ∈ get (step s l) ↔
     (y ∈ get s ∧ ∀ c, cat l = Some c → replaces l c = false) ∨ ∃ c, cat l = Some c ∧ y ∈ entries c) →
  x ∈ get (foldl step s0 layers) ↔ in_force replaces cat entries layers x.
Proof.
  intros H0 Hstep. induction layers as [|l layers IH] using rev_ind.
  - cbn. rewrite H0. split; [by intros ?%not_elem_of_nil|].
    intros (b & l & c & a & E & _). by destruct b.
  - rewrite foldl_app. cbn [foldl]. by rewrite Hstep, IH, in_force_snoc.
Qed.

Lemma elem_of_merge_allows {A} `{EqDecision A} (replaces : bool) (acc xs : list A) x :
  x ∈ merge_allows replaces acc xs ↔ (x ∈ acc ∧ replaces = false) ∨ x ∈ xs.
Proof. unfold merge_allows. destruct replaces; [naive_solver|]. rewrite elem_of_push_new. naive_solver. Qed.

Lemma elem_of_filter_bool {A} (p : A → bool) l x : x ∈ List.filter p l ↔ x ∈ l ∧ p x = true.
Proof. by rewrite list_elem_of_In, List.filter_In, <- list_elem_of_In. Qed.

Lemma elem_of_merge_egress replaces acc rules r :
  r ∈ merge_egress replaces acc rules ↔
  (r ∈ acc ∧ (eg_allow r = true → replaces = false)) ∨ r ∈ rules.
Proof.
  unfold merge_egress. rewrite !elem_of_push_new, !elem_of_filter_bool.
  assert (r ∈ (if replaces then List.filter (λ r, negb (eg_allow r)) acc else acc) ↔
          r ∈ acc ∧ (eg_allow r = true → replaces = false)) as ->.
  { destruct replaces; rewrite ?elem_of_filter_bool; destruct (eg_allow r); naive_solver. }
  destruct (eg_allow r); naive_solver.
Qed.

Ltac merge_category :=
  intros s l y; unfold merge_layer; cbn;
  match goal with |- context [inherit _ _ ?o] => destruct o; cbn end;
  rewrite ?elem_of_merge_allows, ?elem_of_push_new; naive_solver.

Implicit Types (layers : list PolicyLayer) (v : Z).

(** The three allow lists of a filesystem block. *)
Inductive path_list : (FsToolPolicy → list string) → Prop :=
  | list_allowed : path_list fs_allowed_paths
  | list_read_only : path_list fs_read_only_paths
  | list_read_write : path_list fs_read_write_paths.

Definition merged_layers v layers : MergedToolPolicy := foldl (merge_layer v) merge_start layers.

Lemma merged_denied_paths v layers x :
  x ∈ fs_denied_paths (m_fs (merged_layers v layers)) ↔ stated layer_fs fs_denied_paths layers x.
Proof. apply (merge_stated _ (λ s, fs_denied_paths (m_fs s))); [done|merge_category]. Qed.

Lemma merged_paths v layers f x : path_list f →
  x ∈ f (m_fs (merged_layers v layers)) ↔ in_force (fs_replaces v) layer_fs f layers x.
Proof.
  intros [| |];
    [apply (merge_in_force _ (λ s, fs_allowed_paths (m_fs s)))
    |apply (merge_in_force _ (λ s, fs_read_only_paths (m_fs s)))
    |apply (merge_in_force _ (λ s, fs_read_write_paths (m_fs s)))]; first [done|merge_category].
Qed.

Lemma merged_syscalls v layers x :
  (x ∈ sc_denied (m_syscalls (merged_layers v layers)) ↔ stated layer_syscalls sc_denied layers x) ∧
  (x ∈ sc_allowed (m_syscalls (merged_layers v layers)) ↔
     in_force (syscalls_replaces v) layer_syscalls sc_allowed layers x).
Proof.
  split; [apply (merge_stated _ (λ s, sc_denied (m_syscalls s)))
         |apply (merge_in_force _ (λ s, sc_allowed (m_syscalls s)))]; first [done|merge_category].
Qed.

Lemma merged_hosts v layers x :
  (x ∈ t_denied_hosts (m_network (merged_layers v layers)) ↔
     stated layer_network t_denied_hosts layers x) ∧
  (x ∈ t_allowed_hosts (m_network (merged_layers v layers)) ↔
     in_force (network_replaces v) layer_network t_allowed_hosts layers x).
Proof.
  split; [apply (merge_stated _ (λ s, t_denied_hosts (m_network s)))
         |apply (merge_in_force _ (λ s, t_allowed_hosts (m_network s)))]; first [done|merge_category].
Qed.

Lemma merged_cidrs v layers x :
  (x ∈ t_denied_cidrs (m_network (merged_layers v layers)) ↔
     stated layer_network t_denied_cidrs layers x) ∧
  (x ∈ t_allowed_cidrs (m_network (merged_layers v layers)) ↔
     in_force (network_replaces v) layer_network t_allowed_cidrs layers x).
Proof.
  split; [apply (merge_stated _ (λ s, t_denied_cidrs (m_network s)))
         |apply (merge_in_force _ (λ s, t_allowed_cidrs (m_network s)))]; first [done|merge_category].
Qed.

(** Deny rules accumulate, allow rules are replaced with their block. *)
Lemma merged_egress v layers r :
  r ∈ t_egress_rules (m_network (merged_layers v layers)) ↔
  if eg_allow r then in_force (network_replaces v) layer_network t_egress_rules layers r
  else stated layer_network t_egress_rules layers r.
Proof.
  unfold merged_layers. destruct (eg_allow r) eqn:Ha;
    (induction layers as [|l layers IH] using rev_ind;
     [cbn; split; [by intros ?%not_elem_of_nil|]|]).
  - intros (b & l & c & a & E & _). by destruct b.
  - rewrite foldl_app, in_force_snoc. cbn [foldl]. unfold merge_layer at 1. cbn [m_network].
    destruct (layer_network l) as [net|]; cbn [inherit]; [|rewrite IH; naive_solver].
    cbn [merge_network t_egress_rules]. rewrite elem_of_merge_egress, IH, Ha. naive_solver.
  - intros (l & c & []%not_elem_of_nil & _).
  - rewrite foldl_app, stated_snoc. cbn [foldl]. unfold merge_layer at 1. cbn [m_network].
    destruct (layer_network l) as [net|]; cbn [inherit]; [|rewrite IH; naive_solver].
    cbn [merge_network t_egress_rules]. rewrite elem_of_merge_egress, IH, Ha. naive_solver.
Qed.

Lemma merged_allowed v layers :
  m_allowed (merged_layers v layers) = true ↔ ∀ l, l ∈ layers → layer_allowed l ≠ Some false.
Proof.
  unfold merged_layers. induction layers as [|l layers IH] using rev_ind; [cbn; set_solver|].
  rewrite foldl_app. cbn [foldl merge_layer m_allowed].
  rewrite andb_true_iff, IH, negb_true_iff, bool_decide_eq_false. set_solver.
Qed.

Lemma merged_require_path v layers :
  fs_require_path (m_fs (merged_layers v layers)) =
  last (omap (λ l, layer_fs l ≫= fs_require_path) layers).
Proof.
  unfold merged_layers. induction layers as [|l layers IH] using rev_ind; [done|].
  rewrite foldl_app, omap_app. cbn [foldl merge_layer m_fs omap list_omap].
  destruct (layer_fs l) as [fs|]; cbn [inherit]; [|by rewrite IH, app_nil_r].
  cbn [merge_fs fs_require_path mbind option_bind]. rewrite IH.
  destruct (fs_require_path fs); [by rewrite last_snoc|by rewrite app_nil_r].
Qed.

Lemma merge_flag {S C} (step : S → PolicyLayer → S) (get : S → bool) (cat : PolicyLayer → option C)
    (flag : PolicyLayer → C → bool) s0 layers :
  get s0 = false →
  (∀ s l, get (step s l) = get s || match cat l with Some c => flag l c | None => false end) →
  get (foldl step s0 layers) = true ↔
  ∃ l c, l ∈ layers ∧ cat l = Some c ∧ flag l c = true.
Proof.
  intros H0 Hstep. induction layers as [|l layers IH] using rev_ind.
  - cbn. rewrite H0. split; [done|]. intros (l & c & []%not_elem_of_nil & _).
  - rewrite foldl_app. cbn [foldl]. rewrite Hstep, orb_true_iff, IH. split.
    + intros [(l' & c & Hl & H)|H]; [exists l', c; set_solver|].
      destruct (cat l) as [c|] eqn:E; [|done]. exists l, c. set_solver.
    + intros (l' & c & [Hl|Hl%list_elem_of_singleton]%elem_of_app & E & H); [left; by exists l', c|].
      right. subst l'. by rewrite E.
Qed.

Lemma merged_allow_specified v layers :
  (fs_allow_specified (m_fs (merged_layers v layers)) = true ↔
   ∃ l fs, l ∈ layers ∧ layer_fs l = Some fs ∧ (fs_replaces v l fs || fs_has_allow_rules fs) = true) ∧
  (t_allow_specified (m_network (merged_layers v layers)) = true ↔
   ∃ l net, l ∈ layers ∧ layer_network l = Some net ∧
     (network_replaces v l net || net_has_allow_rules net) = true).
Proof.
  split;
    [apply (merge_flag _ (λ s, fs_allow_specified (m_fs s)) layer_fs
              (λ l fs, fs_replaces v l fs || fs_has_allow_rules fs))
    |apply (merge_flag _ (λ s, t_allow_specified (m_network s)) layer_network
              (λ l net, network_replaces v l net || net_has_allow_rules net))]; try done; intros s l.
  - cbn. destruct (layer_fs l) as [fs|]; cbn; [|by rewrite orb_false_r].
    destruct (fs_replaces v l fs); [by rewrite orb_true_r|done].
  - cbn. destruct (layer_network l) as [net|]; cbn; [|by rewrite orb_false_r].
    destruct (network_replaces v l net); [by rewrite orb_true_r|done].
Qed.

Lemma elem_of_pruned (denied : string → bool) (l : list string) x :
  x ∈ List.filter (λ y, negb (denied y)) l ↔ x ∈ l ∧ denied x = false.
Proof. by rewrite elem_of_filter_bool, negb_true_iff. Qed.

Section exact.
Context (domain_to_ascii : string → option string) (host_os : TargetOs).
Notation merge_policy := (merge_policy domain_to_ascii host_os).

(** What denies an entry of a merged list. *)
Definition path_denied layers (x : string) : Prop :=
  ∃ d, stated layer_fs fs_denied_paths layers d ∧ deny_pattern_covers host_os d x = true.

Definition host_covered layers (h : string) : Prop :=
  ∃ d, stated layer_network t_denied_hosts layers d ∧
       host_covered_by_deny domain_to_ascii h d = true.

Definition range_covered layers (c : string) : Prop :=
  stated layer_network t_denied_hosts layers "*" ∨
  (∃ d, stated layer_network t_denied_cidrs layers d ∧ cidr_covers d c = true) ∨
  (∃ h ip, stated layer_network t_denied_hosts layers h ∧ parse_ip h = Some ip ∧
           cidr_covers (ip_literal_cidr ip) c = true).

Lemma not_existsb {A} (p : A → bool) l : existsb p l = false ↔ ¬ ∃ x, x ∈ l ∧ p x = true.
Proof. by rewrite <- not_true_iff_false, existsb_true_iff. Qed.

Lemma pruned_cidr v layers c :
  let net := m_network (merged_layers v layers) in
  cidr_denied (existsb (λ d, bool_decide (d = "*")) (t_denied_hosts net)) (merged_denied_ip net) c
    = true ↔ range_covered layers c.
Proof.
  cbn zeta. unfold cidr_denied, range_covered, merged_denied_ip, literal_routes.
  rewrite orb_true_iff, !existsb_true_iff. setoid_rewrite elem_of_app.
  setoid_rewrite list_elem_of_omap. setoid_rewrite (proj1 (merged_hosts _ _ _)).
  setoid_rewrite (proj1 (merged_cidrs _ _ _)). setoid_rewrite bool_decide_eq_true.
  setoid_rewrite fmap_Some. naive_solver.
Qed.

Lemma pruned_path v layers x :
  fs_deny_covers host_os (fs_denied_paths (m_fs (merged_layers v layers))) x = true ↔
  path_denied layers x.
Proof.
  unfold fs_deny_covers, path_denied. rewrite existsb_true_iff.
  by setoid_rewrite merged_denied_paths.
Qed.

Lemma pruned_host v layers h :
  host_denied domain_to_ascii (t_denied_hosts (m_network (merged_layers v layers))) h = true ↔
  host_covered layers h.
Proof.
  unfold host_denied, host_covered. rewrite existsb_true_iff.
  by setoid_rewrite (proj1 (merged_hosts _ _ _)).
Qed.

(** An entry is kept exactly when it was there and nothing denies it. *)
Lemma elem_of_kept {denied : string → bool} {D : Prop} {l : list string} {x} {Q : Prop} :
  (x ∈ l ↔ Q) → (denied x = true ↔ D) →
  x ∈ List.filter (λ y, negb (denied y)) l ↔ Q ∧ ¬ D.
Proof. intros HQ HD. by rewrite elem_of_pruned, HQ, <- HD, not_true_iff_false. Qed.

Lemma pruned_list v layers f x : path_list f →
  x ∈ f (m_fs (merge_policy layers v)) ↔
  in_force (fs_replaces v) layer_fs f layers x ∧ ¬ path_denied layers x.
Proof.
  intros Hf. rewrite <- (merged_paths v layers f x Hf), <- (pruned_path v).
  rewrite not_true_iff_false. destruct Hf; apply elem_of_pruned.
Qed.

Lemma kept_syscall v layers x :
  x ∈ sc_allowed (m_syscalls (merge_policy layers v)) ↔
  in_force (syscalls_replaces v) layer_syscalls sc_allowed layers x ∧
  ¬ stated layer_syscalls sc_denied layers x.
Proof.
  apply elem_of_kept; [apply merged_syscalls|]. rewrite bool_decide_eq_true. apply merged_syscalls.
Qed.

Lemma kept_host v layers h :
  h ∈ t_allowed_hosts (m_network (merge_policy layers v)) ↔
  in_force (network_replaces v) layer_network t_allowed_hosts layers h ∧ ¬ host_covered layers h.
Proof. apply elem_of_kept; [apply merged_hosts|apply pruned_host]. Qed.

(** [C15] The merge of policy layers, entry by entry and whatever the layers:
    the tool is allowed exactly when no layer denies it; every deny entry of
    every layer holds, and nothing else is denied; an allow entry holds exactly
    when the layer that states it is not followed by one that replaces the allow
    side of its category and no deny of any layer takes it away (by path
    coverage, by name, by host coverage, or by range); allow rules are replaced
    with their block and deny rules never; a category counts as restricted
    exactly when some layer replaced or stated its allow side; and the path
    requirement is the last one stated. *)
Theorem merge_policy_exact layers v :
  let m := merge_policy layers v in
  (m_allowed m = true ↔ ∀ l, l ∈ layers → layer_allowed l ≠ Some false) ∧
  (∀ f x, path_list f → x ∈ f (m_fs m) ↔
     in_force (fs_replaces v) layer_fs f layers x ∧ ¬ path_denied layers x) ∧
  (∀ x, x ∈ fs_denied_paths (m_fs m) ↔ stated layer_fs fs_denied_paths layers x) ∧
  (∀ x, x ∈ sc_allowed (m_syscalls m) ↔
     in_force (syscalls_replaces v) layer_syscalls sc_allowed layers x ∧
     ¬ stated layer_syscalls sc_denied layers x) ∧
  (∀ x, x ∈ sc_denied (m_syscalls m) ↔ stated layer_syscalls sc_denied layers x) ∧
  (∀ h, h ∈ t_allowed_hosts (m_network m) ↔
     in_force (network_replaces v) layer_network t_allowed_hosts layers h ∧ ¬ host_covered layers h) ∧
  (∀ c, c ∈ t_allowed_cidrs (m_network m) ↔
     in_force (network_replaces v) layer_network t_allowed_cidrs layers c ∧ ¬ range_covered layers c) ∧
  (∀ h, h ∈ t_denied_hosts (m_network m) ↔ stated layer_network t_denied_hosts layers h) ∧
  (∀ c, c ∈ t_denied_cidrs (m_network m) ↔ stated layer_network t_denied_cidrs layers c) ∧
  (∀ r, r ∈ t_egress_rules (m_network m) ↔
     if eg_allow r then in_force (network_replaces v) layer_network t_egress_rules layers r
     else stated layer_network t_egress_rules layers r) ∧
  (fs_allow_specified (m_fs m) = true ↔ ∃ l fs, l ∈ layers ∧ layer_fs l = Some fs ∧
     (fs_replaces v l fs || fs_has_allow_rules fs) = true) ∧
  (t_allow_specified (m_network m) = true ↔ ∃ l net, l ∈ layers ∧ layer_network l = Some net ∧
     (network_replaces v l net || net_has_allow_rules net) = true) ∧
  fs_require_path (m_fs m) = last (omap (λ l, layer_fs l ≫= fs_require_path) layers).
Proof.
  cbn zeta. split_and!.
  - apply merged_allowed.
  - intros f x. apply pruned_list.
  - apply merged_denied_paths.
  - apply kept_syscall.
  - apply merged_syscalls.
  - apply kept_host.
  - intros c. apply elem_of_kept; [apply merged_cidrs|apply pruned_cidr].
  - apply merged_hosts.
  - apply merged_cidrs.
  - apply merged_egress.
  - apply (proj1 (merged_allow_specified v layers)).
  - apply (proj2 (merged_allow_specified v layers)).
  - apply merged_require_path.
Qed.

(** A category is absent from the tool exactly when no layer states it. *)
Lemma nonempty_inhabited {A} (l : list A) : nonempty l = true ↔ ∃ x, x ∈ l.
Proof.
  destruct l as [|x l]; cbn; split; try done; [by intros [x ?%not_elem_of_nil]|].
  intros _. exists x. set_solver.
Qed.

Lemma category_stated {C} (cat : PolicyLayer → option C) layers :
  existsb (λ l, bool_decide (is_Some (cat l))) layers = true ↔ ∃ l c, l ∈ layers ∧ cat l = Some c.
Proof.
  rewrite existsb_true_iff. setoid_rewrite bool_decide_eq_true. unfold is_Some. naive_solver.
Qed.

Lemma in_force_stated {C A} replaces (cat : PolicyLayer → option C) (entries : C → list A) layers x :
  in_force replaces cat entries layers x → ∃ l c, l ∈ layers ∧ cat l = Some c.
Proof. intros (b & l & c & a & -> & Hc & _). exists l, c. set_solver. Qed.

Lemma category_present v layers :
  let m := merge_policy layers v in
  (has_fs layers m = true ↔ ∃ l c, l ∈ layers ∧ layer_fs l = Some c) ∧
  (has_syscalls layers m = true ↔ ∃ l c, l ∈ layers ∧ layer_syscalls l = Some c) ∧
  (has_network layers m = true ↔ ∃ l c, l ∈ layers ∧ layer_network l = Some c).
Proof.
  cbn zeta. unfold has_fs, has_syscalls, has_network.
  rewrite !orb_true_iff, !category_stated, !nonempty_inhabited.
  split_and!; (split; [|by eauto]); intros Hany; repeat destruct Hany as [Hany|Hany]; try done;
    destruct Hany as [x Hx];
    first [rewrite pruned_list in Hx by constructor|apply (merged_denied_paths v) in Hx
          |apply kept_syscall in Hx|apply (merged_syscalls v) in Hx|apply kept_host in Hx
          |apply (merged_hosts v) in Hx];
    first [destruct Hx as (l & c & ? & ? & _); by exists l, c
          |destruct Hx as [Hx _]; by eapply in_force_stated].
Qed.
End exact.

(** ** Pruning and matching *)

Section authority.
Context (os : TargetOs) (Hsep : separates_backslash os = false)
  (Hcase : paths_case_insensitive os = false).

Lemma unify_posix p : unify_separators_for os p = p.
Proof. unfold unify_separators_for. by rewrite Hsep. Qed.

Lemma drive_posix seg : is_drive_prefix seg os = false.
Proof. unfold is_drive_prefix. by rewrite Hsep. Qed.

Lemma seg_eq_posix a b : path_seg_eq os a b = String.eqb a b.
Proof. unfold path_seg_eq. by rewrite Hcase. Qed.

Notation comps s := (pattern_components s os).

Lemma comps_snoc s t : component t → t ≠ "." → t ≠ ".." → comps (s +:+ String "/" t) = comps s ++ [t].
Proof.
  intros [Hne Hc] H1 H2. unfold pattern_components. rewrite !unify_posix, split_snoc, foldl_app by done.
  cbn [foldl]. unfold pattern_seg at 1. destruct (String.eqb_spec t "."); [done|].
  destruct (String.eqb_spec t ".."); [done|]. by destruct t.
Qed.

(** What every component of a pattern is. *)
Definition kept_part (s : string) : Prop := component s ∧ s ≠ ".".

Lemma pattern_fold_kept l : ∀ segs, Forall (λ p, contains "/" p = false) l → Forall kept_part segs →
  Forall kept_part (foldl (pattern_seg os) segs l).
Proof.
  induction l as [|c l IH]; intros segs Hl Hs; [done|]. apply Forall_cons_1 in Hl as [Hc Hl].
  cbn [foldl]. apply IH; [done|]. unfold pattern_seg.
  destruct (is_empty c) eqn:He; [done|]. destruct (String.eqb_spec c "."); [done|]. cbn [orb].
  destruct (String.eqb_spec c "..").
  - destruct segs; [done|]. rewrite drive_posix. by apply Forall_cons_1 in Hs as [_ ?].
  - constructor; [|done]. split; [|done]. split; [by intros ->|done].
Qed.

Lemma comps_kept s : Forall kept_part (comps s).
Proof. apply Forall_rev, pattern_fold_kept; [apply split_lacking|constructor]. Qed.

Lemma lexical_fold_pattern l : ∀ segs,
  foldl lexical_step (mkPathBuf true segs)
    (List.filter (λ s, negb (is_empty s) && negb (String.eqb s ".")) l)
  = mkPathBuf true (foldl (pattern_seg os) segs l).
Proof.
  induction l as [|c l IH]; intros segs; [done|]. cbn [foldl List.filter].
  unfold pattern_seg at 2. destruct (is_empty c); cbn [negb andb orb]; [apply IH|].
  destruct (String.eqb c "."); cbn [negb andb orb]; [apply IH|]. cbn [foldl].
  unfold lexical_step at 2, path_pop, path_push. cbn [pb_rev pb_root].
  destruct (String.eqb c ".."); [|apply IH]. destruct segs; rewrite ?drive_posix; apply IH.
Qed.

Lemma split_join cs : Forall component cs → cs ≠ [] → split "/" (join "/" cs) = cs.
Proof.
  induction cs as [|c cs IH]; intros Hcs Hne; [done|]. apply Forall_cons_1 in Hcs as [[_ Hc] Hcs].
  destruct cs as [|c' cs]; [by apply split_no_sep|].
  change (join "/" (c :: c' :: cs)) with (c +:+ ("/" +:+ join "/" (c' :: cs))).
  rewrite split_app by done. by rewrite IH.
Qed.

Lemma filter_all {A} (p : A → bool) l : Forall (λ x, p x = true) l → List.filter p l = l.
Proof. induction 1 as [|x l Hx _ IH]; [done|]. cbn. by rewrite Hx, IH. Qed.

Lemma parts_of_join cs : Forall kept_part cs → path_parts ("/" +:+ join "/" cs) = cs.
Proof.
  intros Hcs. unfold path_parts. rewrite app_cons_string, app_empty_string. cbn [split Ascii.eqb].
  cbn. destruct cs as [|c cs]; [done|]. rewrite split_join;
    [|by eapply Forall_impl; [done|]; intros ? []|done].
  apply filter_all. eapply Forall_impl; [done|]. intros x [[Hx _] Hd].
  destruct (String.eqb_spec x "."); [done|]. by destruct x.
Qed.

(** The matcher reads an absolute pattern by the same components. *)
Lemma segments_of_rooted p : has_root p = true →
  split_segments (lexical_normalize_str p) = comps p ∧ lexical_normalize_str p ≠ ".".
Proof.
  intros Hroot. destruct (lexical_absolute p Hroot) as (cs & Hcs & Ep & Es).
  assert (lexical_normalize_str p = "/" +:+ join "/" (comps p)) as ->.
  { rewrite Es, <- Ep. unfold lexical_normalize_path, path_parts, pattern_components.
    rewrite Hroot, lexical_fold_pattern, unify_posix. by destruct (path_string _) eqn:E. }
  split; [apply parts_of_join, comps_kept|done].
Qed.

Lemma strip_suffix_tail p s r : strip_suffix p s = Some r → s = r +:+ p.
Proof.
  revert r. induction s as [|c s IH]; intros r; cbn [strip_suffix];
    case_bool_decide as Hp; try (by intros [= <-]).
  destruct (strip_suffix p s) as [r'|]; [|done]. intros [= <-].
  by rewrite app_cons_string, <- (IH r').
Qed.

(** The pattern the matcher reads, and when it stays absolute. *)
Definition match_text (p : string) : string := default p (strip_suffix "/**" p).

Definition absolute_pattern (p : string) : Prop := has_root (match_text p) = true.

Lemma matches_by_components path p : absolute_pattern p →
  path_matches_lexical path p =
  segments_match (split_segments (lexical_normalize_str path)) (comps (match_text p)).
Proof.
  intros Hp. unfold path_matches_lexical, path_matches_lexical_normalized, segment_prefix_match.
  change (normalize_pattern p) with (lexical_normalize_str (match_text p)).
  destruct (segments_of_rooted _ Hp) as [-> Hdot].
  by destruct (String.eqb_spec (lexical_normalize_str (match_text p)) ".").
Qed.

(** The normal form of a pattern keeps its components, behind a root mark. *)
Definition root_mark (mark : list string) : Prop := mark = [] ∨ mark = [""].

Lemma normalize_fold_pattern l : ∀ segs mark, root_mark mark →
  Forall (λ p, contains "/" p = false) l → Forall kept_part segs →
  ∃ mark', root_mark mark' ∧
    foldl (normalize_seg os) (segs ++ mark) l = foldl (pattern_seg os) segs l ++ mark'.
Proof.
  induction l as [|c l IH]; intros segs mark Hm Hl Hs; [by exists mark|].
  pose proof (pattern_fold_kept [c] segs) as Hone. cbn [foldl] in Hone.
  apply Forall_cons_1 in Hl as [Hc Hl]. specialize (Hone ltac:(by constructor) Hs).
  assert (∃ mark', root_mark mark' ∧
    normalize_seg os (segs ++ mark) c = pattern_seg os segs c ++ mark') as (m & Hm' & E).
  { unfold normalize_seg, pattern_seg. destruct (is_empty c); cbn [orb].
    { destruct segs; [|by exists mark]. destruct Hm as [->| ->]; exists [""]; split; by try right. }
    destruct (String.eqb c "."); [by exists mark|]. destruct (String.eqb c ".."); [|by exists mark].
    exists mark. split; [done|]. destruct segs as [|top rest].
    - destruct Hm as [->| ->]; done.
    - cbn [app]. rewrite drive_posix. apply Forall_cons_1 in Hs as [[[Ht _] _] _]. by destruct top. }
  cbn [foldl]. rewrite E. by apply IH.
Qed.

Lemma normalized_components p :
  split_path_components (normalize_fs_pattern_for p os) = comps (trim_wildcards p).
Proof.
  unfold normalize_fs_pattern_for. rewrite unify_posix.
  destruct (normalize_fold_pattern (split "/" (trim_wildcards p)) [] []) as (mark & Hm & E);
    [by left|apply split_lacking|constructor|]. cbn [app] in E. rewrite E, rev_app_distr.
  pose proof (comps_kept (trim_wildcards p)) as Hk.
  unfold pattern_components in *. rewrite unify_posix in *.
  destruct (rev (foldl (pattern_seg os) [] _)) as [|c cs]; [by destruct Hm as [->| ->]|].
  assert (split_path_components (join "/" (c :: cs)) = c :: cs) as Hj.
  { unfold split_path_components. rewrite split_join;
      [|by eapply Forall_impl; [done|]; intros ? []|done].
    apply filter_all. eapply Forall_impl; [done|]. intros x [[Hx _] _]. by destruct x. }
  apply Forall_cons_1 in Hk as [[[Hc _] _] _].
  destruct Hm as [->| ->]; cbn [rev app]; [|exact Hj].
  destruct c; [done|]. by destruct cs.
Qed.

Lemma components_equal_posix l r : path_components_equal l r os = true →
  split_path_components l = split_path_components r.
Proof.
  unfold path_components_equal. generalize (split_path_components l), (split_path_components r).
  clear l r. intros l. induction l as [|x l IH]; intros [|y r]; cbn; try done.
  rewrite seg_eq_posix, !andb_true_iff. intros (Hlen & ->%String.eqb_eq & Hall).
  f_equal. apply IH. by rewrite andb_true_iff.
Qed.

Lemma segments_match_prefix X Y : ∀ P, segments_match P (X ++ Y) = true → segments_match P X = true.
Proof.
  induction X as [|x X IH]; intros [|s P]; cbn; try done.
  rewrite !andb_true_iff. intros [? ?]. split; [done|]. by apply IH.
Qed.

(** A deny spelled as a directory: absolute, no [**] but a final [/**], and a
    last component that is not [*]. *)
Definition plain_deny (d : string) : Prop :=
  absolute_pattern d ∧ "**" ∉ comps (match_text d) ∧ last (comps (match_text d)) ≠ Some "*".

Lemma comps_star s : comps (s +:+ "/*") = comps s ++ ["*"].
Proof. by apply comps_snoc. Qed.

Lemma comps_globstar s : comps (s +:+ "/**") = comps s ++ ["**"].
Proof. by apply comps_snoc. Qed.

Lemma raw_components p :
  comps p = comps (match_text p) ++ if ends_with "/**" p then ["**"] else [].
Proof.
  unfold match_text, ends_with. destruct (strip_suffix "/**" p) as [s|] eqn:E; cbn [from_option].
  - rewrite bool_decide_eq_true_2 by eauto. apply strip_suffix_tail in E as ->. apply comps_globstar.
  - rewrite bool_decide_eq_false_2 by (by intros []). by rewrite app_nil_r.
Qed.

Lemma trimmed_components p : absolute_pattern p →
  comps (match_text p) = comps (trim_wildcards p) ∨
  comps (match_text p) = comps (trim_wildcards p) ++ ["*"].
Proof.
  unfold absolute_pattern, match_text, trim_wildcards. intros Hp.
  destruct (strip_suffix "/**" p) as [s|]; [by left|]. cbn [default] in *.
  destruct (strip_suffix "/*" p) as [s|] eqn:E.
  - right. apply strip_suffix_tail in E as ->. apply comps_star.
  - left. destruct (String.eqb_spec p "*") as [->|]; done.
Qed.

Lemma covers_loop_sound D : ∀ A (gd ga : bool) P,
  "**" ∉ D → last D ≠ Some "*" →
  covers_loop os (D ++ if gd then ["**"] else []) (A ++ if ga then ["**"] else []) = true →
  segments_match P A = true → segments_match P D = true.
Proof.
  induction D as [|x D IH]; intros A gd ga P Hg Hl Hc HP; [by destruct P|].
  cbn [app covers_loop] in Hc. destruct (String.eqb_spec x "**") as [->|Hx]; [set_solver|].
  assert (last D ≠ Some "*") as Hl' by (by destruct D).
  assert ("**" ∉ D) as Hg' by set_solver.
  destruct A as [|y A]; cbn [app] in Hc.
  - exfalso. destruct ga; [|done]. rewrite seg_eq_posix in Hc.
    destruct (String.eqb_spec x "*") as [->|Hs]; cbn [negb andb] in Hc.
    + destruct D as [|z D]; [done|]. cbn in Hc. destruct (String.eqb_spec z "**"); [set_solver|done].
    + by destruct (String.eqb_spec x "**").
  - rewrite seg_eq_posix in Hc. destruct P as [|s P]; [done|]. cbn [segments_match] in HP |- *.
    apply andb_true_iff in HP as [Hs HP].
    destruct (String.eqb_spec x "*") as [->|Hn]; cbn [negb andb orb] in *; [by eapply IH|].
    destruct (String.eqb_spec x y) as [->|]; [|done]. cbn [negb] in Hc.
    destruct (String.eqb_spec y "*"); [done|]. cbn [orb] in Hs. rewrite Hs. by eapply IH.
Qed.

(** Under a directory deny that covers an allow, every path the allow matches
    the deny matches. *)
Lemma covered_allow_denied d a path : plain_deny d → absolute_pattern a →
  covers_or_same_for d a os = true →
  path_matches_lexical path a = true → path_matches_lexical path d = true.
Proof.
  intros (Hd & Hg & Hl) Ha Hcov. rewrite !matches_by_components by done.
  generalize (split_segments (lexical_normalize_str path)). intros P HP.
  assert (comps (match_text d) = comps (trim_wildcards d)) as Ed.
  { destruct (trimmed_components d Hd) as [?|E]; [done|]. by rewrite E, last_snoc in Hl. }
  unfold covers_or_same_for in Hcov. destruct (path_components_equal _ _ os) eqn:E1.
  - apply components_equal_posix in E1. rewrite !normalized_components in E1.
    rewrite Ed, E1. destruct (trimmed_components a Ha) as [E|E]; rewrite E in HP; [done|].
    by eapply segments_match_prefix.
  - destruct (String.eqb_spec (normalize_fs_pattern_for d os) "/") as [E2|_].
    + pose proof (normalized_components d) as En. rewrite E2, <- Ed in En. cbn in En.
      rewrite <- En. by destruct P.
    + unfold path_covers in Hcov. rewrite (raw_components a) in Hcov.
      destruct (comps d) eqn:Er; [done|]. rewrite <- Er, raw_components in Hcov.
      by eapply covers_loop_sound.
Qed.

(** An absolute pattern without wildcards but a final [/**]. *)
Definition literal_pattern (p : string) : Prop :=
  absolute_pattern p ∧ "*" ∉ comps (match_text p) ∧ "**" ∉ comps (match_text p).

Lemma literal_trimmed p : literal_pattern p → comps (match_text p) = comps (trim_wildcards p).
Proof.
  intros (Ha & Hs & _). destruct (trimmed_components p Ha) as [?|E]; [done|].
  rewrite E in Hs. set_solver.
Qed.

Lemma segments_match_literal X : "*" ∉ X → ∀ P, segments_match P X = true ↔ X `prefix_of` P.
Proof.
  induction X as [|x X IH]; intros Hs P.
  { split; [intros _; apply prefix_nil|by destruct P]. }
  destruct P as [|s P]; cbn [segments_match].
  { split; [done|]. by intros ?%prefix_nil_not. }
  destruct (String.eqb_spec x "*") as [->|_]; [set_solver|]. cbn [orb].
  rewrite andb_true_iff, IH by set_solver. rewrite String.eqb_eq. split.
  - intros [-> ?]. by apply prefix_cons.
  - intros Hp. split; [by apply prefix_cons_inv_1 in Hp|by apply prefix_cons_inv_2 in Hp].
Qed.

Lemma covers_loop_complete D rest (gd : bool) tail :
  covers_loop os (D ++ if gd then ["**"] else []) ((D ++ rest) ++ tail) = true.
Proof.
  induction D as [|x D IH]; cbn [app covers_loop]; [by destruct gd|].
  destruct (String.eqb x "**"); [done|]. rewrite seg_eq_posix, String.eqb_refl.
  cbn [negb]. rewrite andb_false_r. apply IH.
Qed.

(** A literal pattern covers every pattern below it. *)
Lemma covers_complete a b : literal_pattern a → comps (match_text a) `prefix_of` comps (match_text b) →
  covers_or_same_for a b os = true.
Proof.
  intros Ha [rest Hb]. unfold covers_or_same_for. destruct (path_components_equal _ _ os); [done|].
  destruct (String.eqb_spec (normalize_fs_pattern_for a os) "/") as [_|Hroot]; [done|].
  unfold path_covers. rewrite (raw_components b), Hb.
  assert (comps a ≠ []) as Hne.
  { intros E. apply Hroot. rewrite raw_components in E. apply app_eq_nil in E as [E _].
    rewrite (literal_trimmed a Ha) in E. unfold pattern_components in E. rewrite unify_posix in E.
    unfold normalize_fs_pattern_for. rewrite unify_posix.
    destruct (normalize_fold_pattern (split "/" (trim_wildcards a)) [] []) as (mark & Hm & F);
      [by left|apply split_lacking|constructor|]. cbn [app] in F. rewrite F, rev_app_distr, E.
    by destruct Hm as [->| ->]. }
  destruct (comps a) eqn:Er; [done|]. rewrite <- Er, raw_components. apply covers_loop_complete.
Qed.

(** Literal patterns that do not cover each other match no common path. *)
Lemma literal_patterns_disjoint a d path : literal_pattern a → literal_pattern d →
  covers_or_same_for a d os = false → covers_or_same_for d a os = false →
  path_matches_lexical path a = true → path_matches_lexical path d = false.
Proof.
  intros Ha Hd Had Hda Hm. apply not_true_iff_false. intros Hm'.
  rewrite matches_by_components in Hm, Hm' by (apply Ha || apply Hd).
  apply segments_match_literal in Hm; [|apply Ha]. apply segments_match_literal in Hm'; [|apply Hd].
  destruct (prefix_weak_total _ _ _ Hm Hm') as [Hp|Hp].
  - by rewrite (covers_complete a d Ha Hp) in Had.
  - by rewrite (covers_complete d a Hd Hp) in Hda.
Qed.
End authority.

(** The two tests of a path against the lists of a tool. *)
Definition lists_grant (allows denies : list string) (path : string) : bool :=
  existsb (path_matches_lexical path) allows && negb (existsb (path_matches_lexical path) denies).

(** [C16] On a target with case-sensitive POSIX paths (neither macOS nor
    Windows), pruning the allows a deny covers changes no decision, provided
    that the denies of the layers are absolute, have no [**] but a final [/**]
    and do not end in the component [*], and that the allows in force are
    absolute: a path is granted by the merged lists exactly when an allow in
    force matches it and no deny of any layer does. *)
Theorem pruning_keeps_authority domain_to_ascii os layers v f path :
  separates_backslash os = false → paths_case_insensitive os = false → path_list f →
  (∀ d, stated layer_fs fs_denied_paths layers d → plain_deny os d) →
  (∀ a, in_force (fs_replaces v) layer_fs f layers a → absolute_pattern a) →
  let fs := m_fs (merge_policy domain_to_ascii os layers v) in
  lists_grant (f fs) (fs_denied_paths fs) path = true ↔
  (∃ a, in_force (fs_replaces v) layer_fs f layers a ∧ path_matches_lexical path a = true) ∧
  ¬ ∃ d, stated layer_fs fs_denied_paths layers d ∧ path_matches_lexical path d = true.
Proof.
  intros Hsep Hcase Hf Hdeny Hallow. cbn zeta. unfold lists_grant.
  rewrite andb_true_iff, negb_true_iff, existsb_true_iff, not_existsb.
  setoid_rewrite (pruned_list domain_to_ascii os v layers f _ Hf).
  setoid_rewrite (merged_denied_paths v). split.
  - intros [(a & [Ha _] & Hm) Hn]. eauto.
  - intros [(a & Ha & Hm) Hn]. split; [|done]. exists a. split_and!; [done| |done].
    intros (d & Hd & Hcov). apply Hn. exists d. split; [done|].
    apply (covered_allow_denied os Hsep Hcase d a); auto.
Qed.

(** What [resolve_tool] gives a tool is the merge of its layers. *)
Lemma resolved_tool_fs domain_to_ascii os node layers rules tool fs :
  resolve_tool domain_to_ascii os node layers rules = Ok tool → tp_fs tool = Some fs →
  fs = m_fs (merge_policy domain_to_ascii os layers rules).
Proof.
  unfold resolve_tool. intros ([] & _ & [= <-])%result_bind_ok. cbn. by case_match; intros [= <-].
Qed.

(** No deny of a resolved tool covers one of its allows. *)
Lemma resolved_tool_pruned domain_to_ascii os node layers rules tool fs f a d :
  resolve_tool domain_to_ascii os node layers rules = Ok tool → tp_fs tool = Some fs →
  path_list f → a ∈ f fs → d ∈ fs_denied_paths fs → covers_or_same_for d a os = false.
Proof.
  intros Ht Hfs Hf Ha Hd. rewrite (resolved_tool_fs _ _ _ _ _ _ _ Ht Hfs) in Ha, Hd.
  apply (pruned_list domain_to_ascii os rules layers f a Hf) in Ha as [_ Hn].
  apply not_true_iff_false. intros Hc. apply Hn. exists d. split; [|done].
  by apply (merged_denied_paths rules).
Qed.

(** ** The pattern [/**] *)

(** The coverage rules read [/**] as the root: it covers every pattern. *)
Lemma root_globstar_covers a os : covers_or_same_for "/**" a os = true.
Proof.
  unfold covers_or_same_for. case_match; [done|].
  by replace (normalize_fs_pattern_for "/**" os) with "/" by (by destruct os).
Qed.

(** The matcher reads it as the empty path, which matches nothing: a tool
    whose only filesystem rule is [deny "/**"] is refused no path. *)
Lemma root_globstar_denies_nothing `{Unicode} `{FileSystem} path resolved :
  resolve_for_authorization "/" = Ok "/" → resolve_argument path = Ok resolved →
  let fs := mkFsTool [] [] [] ["/**"] false None in
  ∃ patterns, resolve_fs_patterns fs = Ok patterns ∧
    authorize_one_path_prepared fs patterns path = Ok ().
Proof.
  intros Hroot Harg. exists (mkPatterns ["."] []).
  assert (resolve_policy_pattern "/**" = Ok ".") as E.
  { unfold resolve_policy_pattern.
    change (rsplit_once "/" (take_until (Ascii.eqb "*") "/**")) with (Some ("", "")).
    cbn -[resolve_for_authorization]. by rewrite app_empty_string, Hroot. }
  split.
  - unfold resolve_fs_patterns. cbn [fs_denied_paths fs_allowed_paths resolve_patterns].
    by rewrite E.
  - unfold authorize_one_path_prepared. by rewrite Harg.
Qed.

(** ** Example *)

Definition example_fs (allowed denied : list string) : PolicyLayer :=
  mkLayer None (Some (mkFsTool allowed [] [] denied (nonempty allowed) None)) None None
    false false false false.

Definition example_layers : list PolicyLayer :=
  [example_fs ["/srv/"; "/srv/secret/keys"] ["/srv/secret/**"]; example_fs ["/opt/*/lib"] []].

(** Version 3 unites the two allow lists, version 2 keeps the tool's; the
    allow under the deny is gone in both. *)
Lemma example_merged :
  fs_allowed_paths (m_fs (merge_policy Some Linux example_layers 3)) = ["/srv/"; "/opt/*/lib"] ∧
  fs_allowed_paths (m_fs (merge_policy Some Linux example_layers 2)) = ["/opt/*/lib"] ∧
  fs_denied_paths (m_fs (merge_policy Some Linux example_layers 2)) = ["/srv/secret/**"].
Proof. by vm_compute. Qed.

Lemma stated_example (entries : FsToolPolicy → list string) x : stated layer_fs entries example_layers x →
  x ∈ mjoin ((λ l, default [] (entries <$> layer_fs l)) <$> example_layers).
Proof.
  intros (l & c & Hl & Hc & Hx). apply list_elem_of_join. exists (entries c). split; [done|].
  apply list_elem_of_fmap. exists l. by rewrite Hc.
Qed.

Lemma in_force_is_stated {C A} replaces (cat : PolicyLayer → option C) (entries : C → list A) layers x :
  in_force replaces cat entries layers x → stated cat entries layers x.
Proof. intros (b & l & c & a & -> & Hc & Hx & _). exists l, c. set_solver. Qed.

Lemma pruning_keeps_authority_witness :
  lists_grant (fs_allowed_paths (m_fs (merge_policy Some Linux example_layers 3)))
    (fs_denied_paths (m_fs (merge_policy Some Linux example_layers 3))) "/srv/data/a" = true ↔
  (∃ a, in_force (fs_replaces 3) layer_fs fs_allowed_paths example_layers a ∧
        path_matches_lexical "/srv/data/a" a = true) ∧
  ¬ ∃ d, stated layer_fs fs_denied_paths example_layers d ∧
         path_matches_lexical "/srv/data/a" d = true.
Proof.
  apply (pruning_keeps_authority Some Linux example_layers 3 fs_allowed_paths "/srv/data/a").
  - reflexivity.
  - reflexivity.
  - constructor.
  - intros d Hd%stated_example. vm_compute in Hd. apply list_elem_of_singleton in Hd as ->.
    split; [done|]. vm_compute. split; [|done].
    intros Hin. repeat (apply elem_of_cons in Hin as [Hin|Hin]; [done|]). by apply not_elem_of_nil in Hin.
  - intros a Ha%in_force_is_stated%stated_example. vm_compute in Ha.
    repeat (apply elem_of_cons in Ha as [->|Ha]; [done|]). by apply not_elem_of_nil in Ha.
Defined.
