(* ===== verification/PolicyValidate.v ===== *)
(** * PolicyValidate: what a loaded policy satisfies

    [src/src/policy/validator.rs] and [src/src/policy/validator/psec.rs]: the
    checks every policy document passes before it governs anything, and those
    a launch adds for the system the workload runs on.  Each refusal is a value
    of [ValidationError]; its operator-facing text is not modelled.

    A policy that passes has unambiguous tools, path lists the operating system
    can enforce, side effects the trajectory check can read (when it is on) and
    schemas the evaluator can evaluate (from version 2 on); what a policy
    launched under the Windows process security environment is encoded as is in
    [PsecSpec]. *)

From S2P Require Import Prelude Text Percent Json McpRules IpAddr PolicyHost PolicyCidr HostMatch.
From S2P Require Import Outbound AllowList EgressTheorems Session Deputy PathText PathResolve Targets.
From S2P Require Import SubPolicy SchemaEval SchemaScan PathTheorems CheckTheorems PolicyMerge.

Open Scope result_scope.

(** ** Documents *)

Inductive TransportType := Stdio | Http.

Record TransportConfig := mkTransport { tc_type : TransportType; tc_listen_addr : option string }.

(** A tool with what its declaration said beyond its call contract. *)
Record LoadedTool := mkLoaded {
  lt_tool : ToolPolicy;
  lt_server : option string;
  lt_network_explicit : bool;
  lt_syscalls_explicit : bool;
  lt_fs_replace : bool;
  lt_network_replace : bool;
  lt_syscalls_replace : bool;
  lt_environment_explicit : bool;
  lt_process_exec_allowed : bool
}.

Record FsPolicy := mkFsPolicy {
  g_read_only : list string;
  g_read_write : list string;
  g_executable : list string;
  g_denied_paths : list string
}.

Record EnvironmentPolicy := mkEnvironment { env_allowed : list string; env_inherit_parent : bool }.

Inductive HashType := HBinary | HLockfile | HEntrypoint | HDockerManifest.

Definition HashType_as_str (h : HashType) : string :=
  match h with
  | HBinary => "binary-hash"
  | HLockfile => "lockfile-hash"
  | HEntrypoint => "entrypoint-hash"
  | HDockerManifest => "docker-manifest-hash"
  end.

Record HashEntry := mkHashEntry { he_server_name : string; he_hash_type : HashType; he_target : string }.

Record PolicyDocument := mkDocument {
  d_version : Z;
  d_transport : TransportConfig;
  d_tools : list LoadedTool;
  d_fs : FsPolicy;
  d_denied_syscalls : list string;
  d_outbound : OutboundPolicy;
  d_allow_listen : bool;
  d_environment : EnvironmentPolicy;
  d_confused_deputy_protection : bool;
  d_trajectory : bool;
  d_hash_entries : list HashEntry;
  d_mcp_rules : list ServerMcpRules
}.

(** ** Execution targets *)

Inductive ExecutionSubstrate := Native | Container | Vm.

#[export] Instance ExecutionSubstrate_eq_dec : EqDecision ExecutionSubstrate.
Proof. solve_decision. Defined.

Inductive WindowsNativeMechanism := AppContainer | Psec.

#[export] Instance WindowsNativeMechanism_eq_dec : EqDecision WindowsNativeMechanism.
Proof. solve_decision. Defined.

Record ExecutionTarget := mkTarget {
  workload_os : TargetOs;
  substrate : ExecutionSubstrate;
  native_windows_mechanism : option WindowsNativeMechanism
}.

Definition effective_windows_mechanism (t : ExecutionTarget) : option WindowsNativeMechanism :=
  if negb (bool_decide (substrate t = Native)) || negb (bool_decide (workload_os t = Windows))
  then None else Some (default AppContainer (native_windows_mechanism t)).

Definition is_psec (t : ExecutionTarget) : bool :=
  bool_decide (effective_windows_mechanism t = Some Psec).

(** ** Refusals *)

Inductive PsecPathReason := PsecGlob | PsecRelative.

Inductive FsField := FReadOnly | FReadWrite | FExecutable | FDenied.

Inductive ValidationError :=
  | UnsupportedVersion (v : Z)
  | McpRulesNeedV2
  | UnknownRuleMethod (method server : string)
  | RuleWithoutAtom (method server : string)
  | HttpNeedsListenAddr
  | EmptyToolName (index : nat)
  | DuplicateTool (name server : string)
  | PathlessTool (tool : string)
  | EmptyToolPath (tool : string) (denied : bool)
  | EmptyGlobalPath (field : FsField)
  | DeniedUnderAllowed (tool denied allowed : string)
  | DeniedUnderGlobal (tool : option string) (denied allowed : string)
  | WritableExecutable (exec write : string)
  | EmptyHashTarget (server : string)
  | DuplicateHashTarget (target server : string)
  | UnixNeedsV2
  | UnixNeedsLinux (os : TargetOs)
  | PsecPorts (entries : list string) (name_guidance : bool)
  | PsecCidrPorts (entries : list string)
  | PsecQualified (rules : list string)
  | PsecNotIpv4 (entries : list string) (name_guidance : bool)
  | PsecNotHostRoute (entries : list string)
  | PsecDenyOverlap (entries : list string)
  | AppContainerDestinations (name_guidance : bool)
  | PsecInheritsEnvironment
  | PsecEnvironment (entries : list string)
  | PsecUnrestricted
  | PsecListen
  | PsecHttp
  | PsecPaths (entries : list (FsField * string * PsecPathReason))
  | PerToolSyscalls (tool : string)
  | SyscallDenyNeedsV3
  | ReplaceNeedsV3 (tool : string)
  | PerToolEnvironment (tool : string)
  | InheritWithAllow
  | BadEnvironmentName (name : string)
  | LockfileWithoutIdentity
  | BadSideEffect (message : string)
  | ReadOnlyWriteGlob (tool : string)
  | ReadOnlyNetwork (tool : string)
  | ReadOnlyExec (tool : string)
  | WriteExec (tool : string)
  | MissingSideEffect (tool : string)
  | DeputyNeedsV2 (tool : string)
  | DeputyNeedsProtection (tool : string)
  | BadDeputy (tool message : string)
  | ArgumentsNeedV2 (tool : string)
  | TooManyOpaque (tool : string)
  | DuplicateOpaque (tool source : string)
  | UnresolvedSchema (tool : string)
  | UnsupportedSchema (tool : string) (findings : list string).

Definition refused_when {E} (b : bool) (e : E) : result unit E := if b then Err e else Ok ().

Definition lt_name (t : LoadedTool) : string := tp_name (lt_tool t).

(** ** Checks of the document *)

Definition MIN_SUPPORTED_VERSION : Z := 1.
Definition MAX_SUPPORTED_VERSION : Z := 3.

Definition validate_version (p : PolicyDocument) : result unit ValidationError :=
  refused_when (negb ((MIN_SUPPORTED_VERSION <=? d_version p) && (d_version p <=? MAX_SUPPORTED_VERSION)))
    (UnsupportedVersion (d_version p)).

Definition check_mcp_rule (server : string) (rule : McpRule) : result unit ValidationError :=
  _ ←? refused_when (bool_decide (method_slots (rule_method rule) = []))
         (UnknownRuleMethod (rule_method rule) server);
  refused_when (bool_decide (atoms rule = [])) (RuleWithoutAtom (rule_method rule) server).

Definition validate_mcp_rules (p : PolicyDocument) : result unit ValidationError :=
  match d_mcp_rules p with
  | [] => Ok ()
  | entries =>
      _ ←? refused_when (d_version p <? 2) McpRulesNeedV2;
      all_ok (λ entry, all_ok (check_mcp_rule (default "<unnamed>" (server_name entry)))
                         (server_rules entry)) entries
  end.

Definition validate_required_fields (p : PolicyDocument) : result unit ValidationError :=
  _ ←? refused_when (match tc_type (d_transport p), tc_listen_addr (d_transport p) with
               | Http, None => true
               | _, _ => false
               end) HttpNeedsListenAddr;
  all_ok (λ it, refused_when (is_blank (lt_name (snd it))) (EmptyToolName (fst it)))
    (imap pair (d_tools p)).

(** Inserting into a set of seen keys, refusing the first repetition. *)
Fixpoint no_repeat {A K E} `{EqDecision K} (key : A → K) (refusal : A → E) (seen : list K) (l : list A)
    : result unit E :=
  match l with
  | [] => Ok ()
  | x :: rest =>
      if bool_decide (key x ∈ seen) then Err (refusal x) else no_repeat key refusal (key x :: seen) rest
  end.

Definition tool_server (t : LoadedTool) : string := default "" (lt_server t).

Definition tool_key (t : LoadedTool) : string := tool_server t +:+ String NUL "" +:+ trim (lt_name t).

Definition validate_duplicate_tools (p : PolicyDocument) : result unit ValidationError :=
  no_repeat tool_key
    (λ t, DuplicateTool (trim (lt_name t))
            (if is_empty (tool_server t) then "<default>" else tool_server t)) [] (d_tools p).

Definition validate_tool_paths (t : LoadedTool) : result unit ValidationError :=
  match tp_fs (lt_tool t) with
  | Some fs =>
      _ ←? validate_fs_target_contract (PathlessTool (lt_name t)) fs;
      _ ←? no_blank (EmptyToolPath (lt_name t) false) (fs_allowed_paths fs);
      no_blank (EmptyToolPath (lt_name t) true) (fs_denied_paths fs)
  | None => Ok ()
  end.

Definition validate_paths (p : PolicyDocument) : result unit ValidationError :=
  _ ←? all_ok validate_tool_paths (d_tools p);
  _ ←? no_blank (EmptyGlobalPath FReadOnly) (g_read_only (d_fs p));
  _ ←? no_blank (EmptyGlobalPath FReadWrite) (g_read_write (d_fs p));
  no_blank (EmptyGlobalPath FExecutable) (g_executable (d_fs p)).

(** ** Path lists an additive ruleset can enforce *)

(** The paths the process-wide ruleset allows. *)
Definition global_allows (fs : FsPolicy) : list string :=
  g_read_only fs ++ g_read_write fs ++ g_executable fs.

Definition subpath_denials_of_tool (os : TargetOs) (fs : FsPolicy) (t : LoadedTool)
    : result unit ValidationError :=
  if negb (tp_allowed (lt_tool t)) then Ok ()
  else match tp_fs (lt_tool t) with
       | None => Ok ()
       | Some tfs =>
           all_ok (λ denied,
             _ ←? all_ok (λ allowed, refused_when (covers_or_same_for allowed denied os)
                                       (DeniedUnderAllowed (lt_name t) denied allowed))
                    (fs_allowed_paths tfs);
             all_ok (λ allowed, refused_when (covers_or_same_for allowed denied os)
                                  (DeniedUnderGlobal (Some (lt_name t)) denied allowed))
               (global_allows fs)) (fs_denied_paths tfs)
       end.

(** The write paths of the allowed tools. *)
Definition tool_writes (p : PolicyDocument) : list string :=
  flat_map (λ t, match tp_fs (lt_tool t) with Some fs => fs_read_write_paths fs | None => [] end)
    (List.filter (λ t, tp_allowed (lt_tool t)) (d_tools p)).

Definition validate_subpath_denials (p : PolicyDocument) (os : TargetOs) : result unit ValidationError :=
  _ ←? all_ok (subpath_denials_of_tool os (d_fs p)) (d_tools p);
  _ ←? all_ok (λ denied,
         all_ok (λ allowed, refused_when (covers_or_same_for allowed denied os)
                              (DeniedUnderGlobal None denied allowed))
           (global_allows (d_fs p))) (g_denied_paths (d_fs p));
  all_ok (λ exec,
    all_ok (λ write, refused_when (covers_or_same_for exec write os || covers_or_same_for write exec os)
                       (WritableExecutable exec write))
      (g_read_write (d_fs p) ++ tool_writes p)) (g_executable (d_fs p)).

(** ** Windows: what a process security environment expresses *)

Definition BS : string := String BACKSLASH_CHAR "".

Definition psec_ipv4_expressible (entry : string) : bool :=
  bool_decide (is_Some (parse_with read_ipv4_addr entry)).

Definition psec_cidr_expressible (entry : string) : bool :=
  match parse_policy_cidr entry with
  | Some (V4 _, prefix) => prefix =? 32
  | _ => false
  end.

Definition entry_needs_name_layer (entry : string) : bool :=
  if String.eqb entry "*" then false
  else let '(host, _, _) := analyze_policy_host entry in
       bool_decide (parse_ip host = None) && bool_decide (parse_policy_cidr host = None).

(** [split(['\\', '/'])]. *)
Definition split_seps (body : string) : list string :=
  split "/" (str_map (λ c, if Ascii.eqb c BACKSLASH_CHAR then "/"%char else c) body).

Definition unc_body_names_server_and_share (body : string) : bool :=
  match split_seps body with
  | server :: share :: _ => negb (is_empty server) && negb (is_empty share)
  | _ => false
  end.

(** [a.first_some(|| b)]. *)
Definition first_some {A} (a b : option A) : option A :=
  match a with Some _ => a | None => b end.

Definition drive_absolute (s : string) : bool :=
  match s with
  | String c (String colon (String sep _)) =>
      is_ascii_alphabetic c && Ascii.eqb colon ":" && one_of [BACKSLASH_CHAR; "/"%char] sep
  | _ => false
  end.

Definition psec_fs_path_expressible (path : string) : result unit PsecPathReason :=
  let verbatim := first_some (strip_prefix (BS +:+ BS +:+ "?" +:+ BS) path) (strip_prefix "//?/" path) in
  let stripped := default path verbatim in
  _ ←? refused_when (contains "*" stripped || contains "?" stripped) PsecGlob;
  let unc_body :=
    first_some (first_some (strip_prefix (BS +:+ BS) stripped) (strip_prefix "//" stripped))
      (if bool_decide (is_Some verbatim)
       then first_some (strip_prefix ("UNC" +:+ BS) stripped) (strip_prefix "UNC/" stripped)
       else None) in
  refused_when (negb (drive_absolute stripped) && negb (is_some_and unc_body unc_body_names_server_and_share))
    PsecRelative.

(** Refuses when a list of offending entries is not empty. *)
Definition refuse_entries {A E} (entries : list A) (refusal : list A → E) : result unit E :=
  match entries with [] => Ok () | _ => Err (refusal entries) end.

(** The declared allows a deny must not overlap: literals as host routes, and
    ranges. *)
Definition declared_routes (o : OutboundPolicy) : list string :=
  literal_routes (allowed o) ++ allowed_cidrs o.

Definition ported_hosts (o : OutboundPolicy) : list string :=
  List.filter (λ raw, bool_decide (normalize_policy_host raw ∈ allowed o)) (allowed_port_qualified o).

Definition ported_cidrs (o : OutboundPolicy) : list string :=
  List.filter (λ raw, match analyze_policy_cidr raw with
                      | Ok (cidr, _, _) => bool_decide (cidr ∈ allowed_cidrs o)
                      | Err _ => false
                      end) (allowed_cidrs_port_qualified o).

Definition rule_is_qualified (r : EgressRule) : bool :=
  eg_allow r && (bool_decide (is_Some (eg_port r)) || negb (bool_decide (eg_proto r = Tcp))).

Definition overlapped (o : OutboundPolicy) : list string :=
  List.filter (λ allow, existsb (λ deny, cidr_intersects deny allow) (ip_layer_denies o))
    (declared_routes o).

Definition validate_psec_egress (o : OutboundPolicy) : result unit ValidationError :=
  _ ←? refuse_entries (ported_hosts o)
         (λ es, PsecPorts es (existsb entry_needs_name_layer es));
  _ ←? refuse_entries (ported_cidrs o) PsecCidrPorts;
  _ ←? refuse_entries (describe <$> List.filter rule_is_qualified (egress_rules o)) PsecQualified;
  _ ←? refuse_entries (List.filter (λ e, negb (psec_ipv4_expressible e)) (allowed o))
         (λ es, PsecNotIpv4 es (existsb entry_needs_name_layer es));
  _ ←? refuse_entries (List.filter (λ e, negb (psec_cidr_expressible e)) (allowed_cidrs o))
         PsecNotHostRoute;
  refuse_entries (overlapped o) PsecDenyOverlap.

(** Whether the policy pins destinations under default-deny. *)
Definition pins_destinations (o : OutboundPolicy) : bool :=
  deny_all_others o
  && (nonempty (allowed o) || nonempty (allowed_cidrs o) || existsb eg_allow (egress_rules o)).

Definition validate_target_network_enforcement (p : PolicyDocument) (t : ExecutionTarget)
    : result unit ValidationError :=
  let o := d_outbound p in
  if negb (bool_decide (workload_os t = Windows)) then Ok ()
  else if negb (pins_destinations o) then Ok ()
  else if is_psec t then validate_psec_egress o
  else Err (AppContainerDestinations
              (existsb entry_needs_name_layer (allowed o)
               || existsb (λ r, eg_allow r && match eg_dest r with
                                              | Host h => entry_needs_name_layer h
                                              | _ => false
                                              end) (egress_rules o))).

Definition bad_paths (field : FsField) (paths : list string) : list (FsField * string * PsecPathReason) :=
  omap (λ path, match psec_fs_path_expressible path with
                | Err reason => Some (field, path, reason)
                | Ok _ => None
                end) paths.

Definition validate_psec_expressibility (p : PolicyDocument) (t : ExecutionTarget)
    : result unit ValidationError :=
  if negb (is_psec t) then Ok ()
  else
    _ ←? refused_when (env_inherit_parent (d_environment p)) PsecInheritsEnvironment;
    _ ←? refuse_entries (env_allowed (d_environment p)) PsecEnvironment;
    _ ←? refused_when (negb (deny_all_others (d_outbound p))) PsecUnrestricted;
    _ ←? refused_when (d_allow_listen p) PsecListen;
    _ ←? refused_when (match tc_type (d_transport p) with Http => true | Stdio => false end) PsecHttp;
    refuse_entries (bad_paths FReadOnly (g_read_only (d_fs p))
                    ++ bad_paths FReadWrite (g_read_write (d_fs p))
                    ++ bad_paths FExecutable (g_executable (d_fs p))
                    ++ bad_paths FDenied (g_denied_paths (d_fs p))) PsecPaths.

(** ** The remaining checks *)

Definition hash_key (e : HashEntry) : string :=
  he_server_name e +:+ ":" +:+ HashType_as_str (he_hash_type e) +:+ ":" +:+ he_target e.

Fixpoint validate_hashes (seen : list string) (entries : list HashEntry) : result unit ValidationError :=
  match entries with
  | [] => Ok ()
  | e :: rest =>
      _ ←? refused_when (is_blank (he_target e)) (EmptyHashTarget (he_server_name e));
      if bool_decide (hash_key e ∈ seen) then Err (DuplicateHashTarget (he_target e) (he_server_name e))
      else validate_hashes (hash_key e :: seen) rest
  end.

Definition validate_hash_entries (p : PolicyDocument) : result unit ValidationError :=
  validate_hashes [] (d_hash_entries p).

Definition is_unix (r : EgressRule) : bool :=
  match eg_dest r with Unix _ => true | _ => false end.

Definition validate_unix_optins (p : PolicyDocument) (target : option ExecutionTarget)
    : result unit ValidationError :=
  if negb (existsb is_unix (egress_rules (d_outbound p))) then Ok ()
  else
    _ ←? refused_when (d_version p <? 2) UnixNeedsV2;
    match target with
    | Some t => refused_when (negb (bool_decide (workload_os t = Linux))) (UnixNeedsLinux (workload_os t))
    | None => Ok ()
    end.

Definition validate_per_tool_syscalls (p : PolicyDocument) : result unit ValidationError :=
  all_ok (λ t, refused_when (lt_syscalls_explicit t) (PerToolSyscalls (lt_name t))) (d_tools p).

Definition validate_v3_declarations (p : PolicyDocument) : result unit ValidationError :=
  if 3 <=? d_version p then Ok ()
  else
    _ ←? refused_when (nonempty (d_denied_syscalls p)) SyscallDenyNeedsV3;
    all_ok (λ t, refused_when (lt_fs_replace t || lt_network_replace t || lt_syscalls_replace t)
                   (ReplaceNeedsV3 (lt_name t))) (d_tools p).

Definition validate_per_tool_environment (p : PolicyDocument) : result unit ValidationError :=
  all_ok (λ t, refused_when (lt_environment_explicit t) (PerToolEnvironment (lt_name t))) (d_tools p).

Definition validate_environment_names (p : PolicyDocument) : result unit ValidationError :=
  let env := d_environment p in
  _ ←? refused_when (env_inherit_parent env && nonempty (env_allowed env)) InheritWithAllow;
  all_ok (λ name, refused_when (is_empty name || contains "=" name || contains NUL name)
                    (BadEnvironmentName name)) (env_allowed env).

Definition is_file_hash (e : HashEntry) : bool :=
  match he_hash_type e with HBinary | HLockfile | HEntrypoint => true | HDockerManifest => false end.

Definition is_identity_hash (e : HashEntry) : bool :=
  match he_hash_type e with HBinary | HEntrypoint => true | _ => false end.

Definition validate_hash_workload_identity (p : PolicyDocument) : result unit ValidationError :=
  match List.filter is_file_hash (d_hash_entries p) with
  | [] => Ok ()
  | file_hashes => refused_when (negb (existsb is_identity_hash file_hashes)) LockfileWithoutIdentity
  end.

Definition tool_has_write_glob (t : LoadedTool) : bool :=
  is_some_and (tp_fs (lt_tool t)) (λ fs, nonempty (fs_read_write_paths fs)).

Definition side_effect_consistent (t : LoadedTool) : result unit ValidationError :=
  match tp_side_effect (lt_tool t) with
  | None => Ok ()
  | Some raw =>
      match SideEffect_parse raw with
      | Err e => Err (BadSideEffect e)
      | Ok ReadOnly =>
          _ ←? refused_when (tool_has_write_glob t) (ReadOnlyWriteGlob (lt_name t));
          _ ←? refused_when (lt_network_explicit t) (ReadOnlyNetwork (lt_name t));
          refused_when (lt_process_exec_allowed t) (ReadOnlyExec (lt_name t))
      | Ok Write => refused_when (lt_process_exec_allowed t) (WriteExec (lt_name t))
      | Ok _ => Ok ()
      end
  end.

Definition validate_side_effect_consistency (p : PolicyDocument) : result unit ValidationError :=
  all_ok side_effect_consistent (d_tools p).

Definition validate_trajectory_requires_side_effect (p : PolicyDocument) : result unit ValidationError :=
  if negb (d_trajectory p) then Ok ()
  else all_ok (λ t, refused_when (tp_allowed (lt_tool t) && is_none_or (tp_side_effect (lt_tool t)) is_blank)
                      (MissingSideEffect (lt_name t))) (d_tools p).

Definition validate_deputy_contracts (p : PolicyDocument) : result unit ValidationError :=
  all_ok (λ t,
    match tp_deputy (lt_tool t) with
    | None => Ok ()
    | Some dep =>
        _ ←? refused_when (d_version p <? 2) (DeputyNeedsV2 (lt_name t));
        _ ←? refused_when (negb (d_confused_deputy_protection p)) (DeputyNeedsProtection (lt_name t));
        match deputy_validate dep with
        | Ok _ => Ok ()
        | Err e => Err (BadDeputy (lt_name t) e)
        end
    end) (d_tools p).

Definition validate_opaque_of_tool (version : Z) (t : LoadedTool) : result unit ValidationError :=
  let fields := tp_opaque_fields (lt_tool t) in
  if negb (nonempty fields) then Ok ()
  else
    _ ←? refused_when (version <? 2) (ArgumentsNeedV2 (lt_name t));
    _ ←? refused_when (MAX_OPAQUE_FIELDS <? length fields)%nat (TooManyOpaque (lt_name t));
    no_repeat of_segments (λ f, DuplicateOpaque (lt_name t) (of_source f)) [] fields.

Definition validate_opaque_declarations (p : PolicyDocument) : result unit ValidationError :=
  all_ok (validate_opaque_of_tool (d_version p)) (d_tools p).

Section validate.
Context `{SchemaLib}.

Definition validate_schema_of_tool (version : Z) (t : LoadedTool) : result unit ValidationError :=
  match tp_args_schema (lt_tool t) with
  | None => Ok ()
  | Some schema_ref =>
      if starts_with "@" (trim_start schema_ref)
      then refused_when (2 <=? version) (UnresolvedSchema (lt_name t))
      else match unsupported_schema_findings schema_ref with
           | [] => Ok ()
           | findings => refused_when (2 <=? version) (UnsupportedSchema (lt_name t) findings)
           end
  end.

Definition validate_args_schemas (p : PolicyDocument) : result unit ValidationError :=
  all_ok (validate_schema_of_tool (d_version p)) (d_tools p).

(** A check only a launch makes. *)
Definition for_target (target : option ExecutionTarget)
    (check : ExecutionTarget → result unit ValidationError) : result unit ValidationError :=
  match target with Some t => check t | None => Ok () end.

Definition validate_policy_inner (p : PolicyDocument) (target : option ExecutionTarget)
    : result unit ValidationError :=
  _ ←? validate_version p;
  _ ←? validate_mcp_rules p;
  _ ←? validate_required_fields p;
  _ ←? validate_duplicate_tools p;
  _ ←? validate_paths p;
  _ ←? for_target target (λ t, validate_subpath_denials p (workload_os t));
  _ ←? validate_hash_entries p;
  _ ←? validate_unix_optins p target;
  _ ←? for_target target (λ t, _ ←? validate_target_network_enforcement p t;
                               validate_psec_expressibility p t);
  _ ←? validate_per_tool_syscalls p;
  _ ←? validate_v3_declarations p;
  _ ←? validate_per_tool_environment p;
  _ ←? validate_environment_names p;
  _ ←? validate_hash_workload_identity p;
  _ ←? validate_side_effect_consistency p;
  _ ←? validate_trajectory_requires_side_effect p;
  _ ←? validate_deputy_contracts p;
  _ ←? validate_opaque_declarations p;
  validate_args_schemas p.

Definition validate_policy_for_target (p : PolicyDocument) (t : ExecutionTarget)
    : result unit ValidationError := validate_policy_inner p (Some t).

Definition validate_policy_document (p : PolicyDocument) : result unit ValidationError :=
  validate_policy_inner p None.
End validate.

(** ** Reading a passed check *)

Lemma refused_when_ok {E} b (e : E) : refused_when b e = Ok () ↔ b = false.
Proof. by destruct b. Qed.

Lemma refuse_entries_ok {A E} (l : list A) (f : list A → E) : refuse_entries l f = Ok () ↔ l = [].
Proof. by destruct l. Qed.

Lemma all_ok_in {A E} (f : A → result unit E) l x : all_ok f l = Ok () → x ∈ l → f x = Ok ().
Proof. intros H%all_ok_Forall. revert x. by apply Forall_forall. Qed.

Lemma filter_nil_all {A} (p : A → bool) l x : List.filter p l = [] → x ∈ l → p x = false.
Proof.
  intros H Hx. destruct (p x) eqn:E; [|done].
  assert (x ∈ List.filter p l) as Hin by (by apply elem_of_filter_bool).
  rewrite H in Hin. by apply not_elem_of_nil in Hin.
Qed.

Ltac ok_steps :=
  repeat match goal with
         | H : result_bind _ _ = Ok _ |- _ => apply result_bind_ok in H as ([] & ? & H)
         end.

Lemma no_repeat_fresh {A K E} `{EqDecision K} (key : A → K) (refusal : A → E) l : ∀ seen,
  no_repeat key refusal seen l = Ok () → NoDup (key <$> l) ∧ ∀ x, x ∈ l → key x ∉ seen.
Proof.
  induction l as [|x l IH]; intros seen; cbn; [split; [constructor|set_solver]|].
  case_bool_decide as Hx; [done|]. intros [Hn Hs]%IH. split.
  - constructor; [|done]. intros (y & Hy & Hin)%list_elem_of_fmap. apply (Hs _ Hin). rewrite Hy. left.
  - intros y [->|Hy]%elem_of_cons; [done|]. specialize (Hs y Hy). set_solver.
Qed.

Section passed.
Context `{SchemaLib} (p : PolicyDocument).

(** The checks a launch passes, one by one. *)
Lemma launch_checks t : validate_policy_for_target p t = Ok () →
  (validate_version p = Ok () ∧ validate_mcp_rules p = Ok () ∧ validate_duplicate_tools p = Ok () ∧
   validate_subpath_denials p (workload_os t) = Ok () ∧ validate_unix_optins p (Some t) = Ok ()) ∧
  (validate_target_network_enforcement p t = Ok () ∧ validate_psec_expressibility p t = Ok () ∧
   validate_side_effect_consistency p = Ok () ∧ validate_trajectory_requires_side_effect p = Ok ()) ∧
  validate_deputy_contracts p = Ok () ∧ validate_args_schemas p = Ok ().
Proof.
  unfold validate_policy_for_target, validate_policy_inner, for_target. intros Hv.
  ok_steps. by split_and!.
Qed.

(** Two tools of one server never share a name. *)
Lemma tools_unambiguous i j ti tj : validate_duplicate_tools p = Ok () →
  d_tools p !! i = Some ti → d_tools p !! j = Some tj →
  tool_server ti = tool_server tj → trim (lt_name ti) = trim (lt_name tj) → i = j.
Proof.
  intros [Hn _]%no_repeat_fresh Hi Hj Hs Ht.
  apply (NoDup_lookup _ i j (tool_key ti) Hn); rewrite list_lookup_fmap.
  - by rewrite Hi.
  - rewrite Hj. cbn. unfold tool_key. by rewrite Hs, Ht.
Qed.

Lemma tool_paths_separate os t fs d a : validate_subpath_denials p os = Ok () →
  t ∈ d_tools p → tp_allowed (lt_tool t) = true → tp_fs (lt_tool t) = Some fs →
  d ∈ fs_denied_paths fs → a ∈ fs_allowed_paths fs ++ global_allows (d_fs p) →
  covers_or_same_for a d os = false.
Proof.
  intros Hv Ht Hal Hfs Hd Ha. unfold validate_subpath_denials in Hv. ok_steps.
  match goal with H : all_ok (subpath_denials_of_tool _ _) _ = _ |- _ =>
    pose proof (all_ok_in _ _ _ H Ht) as Htool end.
  unfold subpath_denials_of_tool in Htool. rewrite Hal, Hfs in Htool. cbn [negb] in Htool.
  pose proof (all_ok_in _ _ _ Htool Hd) as Hd'. cbn beta in Hd'. ok_steps.
  apply elem_of_app in Ha as [Ha|Ha].
  - match goal with H : all_ok _ (fs_allowed_paths fs) = Ok _ |- _ =>
      apply (all_ok_in _ _ _ H) in Ha; by apply refused_when_ok in Ha end.
  - match goal with H : all_ok _ (global_allows _) = Ok _ |- _ =>
      apply (all_ok_in _ _ _ H) in Ha; by apply refused_when_ok in Ha end.
Qed.

Lemma global_paths_separate os d a : validate_subpath_denials p os = Ok () →
  d ∈ g_denied_paths (d_fs p) → a ∈ global_allows (d_fs p) → covers_or_same_for a d os = false.
Proof.
  intros Hv Hd Ha. unfold validate_subpath_denials in Hv. ok_steps.
  match goal with H : all_ok _ (g_denied_paths _) = Ok _ |- _ =>
    apply (all_ok_in _ _ _ H) in Hd; apply (all_ok_in _ _ _ Hd) in Ha; by apply refused_when_ok in Ha end.
Qed.

(** No path is both writable and executable. *)
Lemma writable_never_executable os exec write : validate_subpath_denials p os = Ok () →
  exec ∈ g_executable (d_fs p) → write ∈ g_read_write (d_fs p) ++ tool_writes p →
  covers_or_same_for exec write os = false ∧ covers_or_same_for write exec os = false.
Proof.
  intros Hv He Hw. unfold validate_subpath_denials in Hv. ok_steps.
  apply (all_ok_in _ _ _ Hv) in He. apply (all_ok_in _ _ _ He) in Hw.
  apply refused_when_ok in Hw. by apply orb_false_iff in Hw.
Qed.

Lemma side_effects_known t : validate_side_effect_consistency p = Ok () →
  validate_trajectory_requires_side_effect p = Ok () → d_trajectory p = true →
  t ∈ d_tools p → tp_allowed (lt_tool t) = true →
  ∃ raw s, tp_side_effect (lt_tool t) = Some raw ∧ SideEffect_parse raw = Ok s.
Proof.
  intros Hc Htr Hon Ht Hal. unfold validate_trajectory_requires_side_effect in Htr.
  rewrite Hon in Htr. apply (all_ok_in _ _ _ Htr) in Ht as Hn. apply refused_when_ok in Hn.
  rewrite Hal in Hn. cbn [andb] in Hn. apply (all_ok_in _ _ _ Hc) in Ht.
  unfold side_effect_consistent in Ht. destruct (tp_side_effect (lt_tool t)) as [raw|]; [|done].
  exists raw. destruct (SideEffect_parse raw) as [s|]; [by exists s|done].
Qed.

Lemma read_only_tools t raw : validate_side_effect_consistency p = Ok () →
  t ∈ d_tools p → tp_side_effect (lt_tool t) = Some raw → SideEffect_parse raw = Ok ReadOnly →
  (∀ fs, tp_fs (lt_tool t) = Some fs → fs_read_write_paths fs = []) ∧
  lt_network_explicit t = false ∧ lt_process_exec_allowed t = false.
Proof.
  intros Hc Ht Hs Hr. apply (all_ok_in _ _ _ Hc) in Ht. unfold side_effect_consistent in Ht.
  rewrite Hs, Hr in Ht. ok_steps. rewrite refused_when_ok in *. split_and!; [|done..].
  intros fs Hfs. unfold tool_has_write_glob in *. rewrite Hfs in *. cbn in *.
  by destruct (fs_read_write_paths fs).
Qed.

Lemma schemas_clean t schema_ref : validate_args_schemas p = Ok () → 2 <= d_version p →
  t ∈ d_tools p → tp_args_schema (lt_tool t) = Some schema_ref →
  starts_with "@" (trim_start schema_ref) = false ∧ unsupported_schema_findings schema_ref = [].
Proof.
  intros Hv H2%Z.leb_le Ht Hs. apply (all_ok_in _ _ _ Hv) in Ht. unfold validate_schema_of_tool in Ht.
  rewrite Hs, H2 in Ht. destruct (starts_with "@" _); [done|]. split; [done|]. by case_match.
Qed.

Lemma deputies_checked t dep : validate_deputy_contracts p = Ok () →
  t ∈ d_tools p → tp_deputy (lt_tool t) = Some dep →
  2 <= d_version p ∧ d_confused_deputy_protection p = true ∧ deputy_validate dep = Ok ().
Proof.
  intros Hv Ht Hd. apply (all_ok_in _ _ _ Hv) in Ht. cbn in Ht. rewrite Hd in Ht. ok_steps.
  rewrite refused_when_ok in *. split_and!; [lia|by apply negb_false_iff|].
  by destruct (deputy_validate dep) as [[]|].
Qed.

Lemma rules_reach_atoms entry rule : validate_mcp_rules p = Ok () →
  entry ∈ d_mcp_rules p → rule ∈ server_rules entry → atoms rule ≠ [] ∧ 2 <= d_version p.
Proof.
  intros Hv He Hr. unfold validate_mcp_rules in Hv.
  destruct (d_mcp_rules p) as [|e es]; [by apply not_elem_of_nil in He|]. ok_steps.
  apply (all_ok_in _ _ _ Hv) in He. apply (all_ok_in _ _ _ He) in Hr. unfold check_mcp_rule in Hr.
  ok_steps. rewrite !refused_when_ok in *. split; [by apply bool_decide_eq_false in Hr|lia].
Qed.

Lemma unix_rules_on_linux t r : validate_unix_optins p (Some t) = Ok () →
  r ∈ egress_rules (d_outbound p) → is_unix r = true → workload_os t = Linux ∧ 2 <= d_version p.
Proof.
  intros Hv Hr Hu. unfold validate_unix_optins in Hv.
  assert (existsb is_unix (egress_rules (d_outbound p)) = true) as E by (apply existsb_true_iff; eauto).
  rewrite E in Hv. cbn [negb] in Hv. ok_steps. rewrite !refused_when_ok in *.
  split; [|lia]. apply negb_false_iff in Hv. by apply bool_decide_eq_true in Hv.
Qed.

Lemma windows_pins_need_psec t : validate_target_network_enforcement p t = Ok () →
  workload_os t = Windows → pins_destinations (d_outbound p) = true →
  is_psec t = true ∧ validate_psec_egress (d_outbound p) = Ok ().
Proof.
  intros Hv Hw Hp. unfold validate_target_network_enforcement in Hv. rewrite Hp in Hv.
  rewrite bool_decide_eq_true_2 in Hv by done. cbn [negb] in Hv. by destruct (is_psec t).
Qed.

End passed.

(** ** Allow-only enforcement *)

(** [C14] The operating system enforces only the allow list of a tool, since an
    additive ruleset has no negative rule; nothing is lost. For an allowed tool
    resolved from its layers in a policy that passed validation for a target
    with case-sensitive POSIX paths (Linux and unknown systems, neither macOS
    nor Windows), with absolute patterns in which no component is a wildcard (a
    final [/**] apart), a path is granted by allow and deny lists together
    exactly when an allow matches it: no path is matched by both. *)
Theorem additive_tool_rules_exact `{SchemaLib} p t domain_to_ascii node layers rules lt fs path :
  validate_policy_for_target p t = Ok () →
  separates_backslash (workload_os t) = false → paths_case_insensitive (workload_os t) = false →
  lt ∈ d_tools p → tp_allowed (lt_tool lt) = true → tp_fs (lt_tool lt) = Some fs →
  resolve_tool domain_to_ascii (workload_os t) node layers rules = Ok (lt_tool lt) →
  (∀ x, x ∈ fs_allowed_paths fs ++ fs_denied_paths fs → literal_pattern (workload_os t) x) →
  lists_grant (fs_allowed_paths fs) (fs_denied_paths fs) path
  = existsb (path_matches_lexical path) (fs_allowed_paths fs).
Proof.
  intros ((_ & _ & _ & Hsub & _) & _)%launch_checks Hsep Hcase Hlt Hal Hfs Hres Hlit.
  unfold lists_grant. destruct (existsb _ (fs_allowed_paths fs)) eqn:Ea; [|done]. cbn [andb].
  apply negb_true_iff, existsb_false. intros d Hd.
  apply existsb_true_iff in Ea as (a & Ha & Hm).
  apply (literal_patterns_disjoint (workload_os t) Hsep Hcase a d); [| | | |done].
  - apply Hlit, elem_of_app. by left.
  - apply Hlit, elem_of_app. by right.
  - eapply tool_paths_separate; [done..|]. apply elem_of_app. by left.
  - eapply (resolved_tool_pruned _ _ _ _ _ _ _ fs_allowed_paths); [done..| |done|done]. constructor.
Qed.

(** ** Examples *)

(** The key of a hash entry joins its parts by a colon that the parts may hold:
    two entries of different servers collide, and the second is refused as a
    duplicate. *)
Lemma hash_key_ambiguous :
  validate_hashes [] [mkHashEntry "s" HBinary "binary-hash:t"; mkHashEntry "s:binary-hash" HBinary "t"]
  = Err (DuplicateHashTarget "t" "s:binary-hash").
Proof. reflexivity. Qed.

Definition no_json : SchemaLib := {|
  parse_json := λ _, Err "no parser";
  regex_new := λ _, Err "no regex";
  regex_is_match := λ _ _, false;
  kind_error := λ _, "unexpected kind"
|}.

Definition example_node : ToolNode := mkToolNode "read" None (Some "read_only"%string) IRAuto None [].

Definition example_tool_layers : list PolicyLayer :=
  [example_fs ["/srv/secret/keys"] ["/srv/secret/**"]; example_fs ["/srv/data"; "/opt/lib"] []].

Definition example_tool_fs : FsToolPolicy :=
  mkFsTool ["/srv/data"; "/opt/lib"] [] [] ["/srv/secret/**"] true None.

Definition example_tool : ToolPolicy :=
  mkToolPolicy "read" true None (Some "read_only"%string) (Some example_tool_fs) None None IRAuto None [].

Definition example_document (o : OutboundPolicy) : PolicyDocument :=
  mkDocument 3 (mkTransport Stdio None)
    [mkLoaded example_tool (Some "files"%string) false false false false false false false]
    (mkFsPolicy ["/usr/share"] ["/var/tmp"] ["/usr/lib"] ["/home"]) [] o false (mkEnvironment [] false)
    false true [] [].

Definition linux_native : ExecutionTarget := mkTarget Linux Native None.


Lemma additive_tool_rules_exact_witness :
  lists_grant (fs_allowed_paths example_tool_fs) (fs_denied_paths example_tool_fs) "/srv/data/a"
  = existsb (path_matches_lexical "/srv/data/a") (fs_allowed_paths example_tool_fs).
Proof.
  apply (@additive_tool_rules_exact no_json (example_document OutboundPolicy_default) linux_native
    Some example_node example_tool_layers 3
    (mkLoaded example_tool (Some "files"%string) false false false false false false false)
    example_tool_fs "/srv/data/a").
  - reflexivity.
  - reflexivity.
  - reflexivity.
  - apply list_elem_of_In. left. reflexivity.
  - reflexivity.
  - reflexivity.
  - vm_compute. reflexivity.
  - intros x Hx. cbn in Hx. unfold literal_pattern, absolute_pattern.
    repeat (apply elem_of_cons in Hx as [->|Hx];
            [split_and!; [reflexivity|vm_compute; set_solver|vm_compute; set_solver]|]).
    by apply not_elem_of_nil in Hx.
Defined.
