(* ===== verification/PsecSpec.v ===== *)
(** * PsecSpec: the launch specification of the process security environment

    [src/src/warden/psec_spec.rs]: [build_launch_spec] translates a policy into
    the lists a Windows process security environment knows, or says what it
    cannot express; [encode_spec] writes them as a FlatBuffers document.

    A reader of that wire format ([read_spec]) stands beside the writer: it
    follows the offsets of the document and knows nothing of how they were
    laid out.  What it reads back is what was encoded, and for a policy that
    passed validation the rules it reads admit exactly the addresses the
    policy's lists allow and no deny takes away. *)

From S2P Require Import Prelude Text IpAddr PolicyHost PolicyCidr HostMatch Outbound.
From S2P Require Import AllowList EgressTheorems Ebpf EbpfMachine EbpfExec SubPolicy SchemaEval SchemaScan.
From S2P Require Import CheckTheorems PolicyMerge PolicyValidate.

Open Scope result_scope.
Open Scope Z_scope.

(** ** The FlatBuffers writer *)

(** [Fb]: the bytes written so far. *)
Notation Fb := (list Z).

Definition text_bytes (s : string) : list Z := code <$> String.list_ascii_of_string s.

Definition Fb_new : Fb := le_bytes 4 0 ++ text_bytes "PSEC".

(** The loop runs fewer than [a] times. *)
Fixpoint align_loop (fuel : nat) (a : Z) (buf : Fb) : Fb :=
  match fuel with
  | O => buf
  | S fuel =>
      if Z.of_nat (length buf) mod a =? 0 then buf else align_loop fuel a (buf ++ [0])
  end.

Definition align (a : Z) (buf : Fb) : Fb := align_loop (Z.to_nat a) a buf.

Definition pos (buf : Fb) : Z := as_u32 (Z.of_nat (length buf)).

(** [buf[at..at + n].copy_from_slice(bytes)], inside the buffer wherever the
    writer uses it. *)
Definition overwrite (buf : Fb) (at_ : Z) (bytes : list Z) : Fb :=
  list_inserts (Z.to_nat at_) bytes buf.

Definition patch_u32 (buf : Fb) (at_ v : Z) : Fb := overwrite buf at_ (le_bytes 4 v).

Inductive SpecNode :=
  | NStr (s : string)
  | NStrVec (items : list string)
  | NTabVec (items : list SpecNode)
  | NTable (max_slot : nat) (fields : list (nat * FieldV))
with FieldV :=
  | FU8 (v : Z)
  | FU16 (v : Z)
  | FVer (major minor : Z)
  | FRef (child : SpecNode).

Definition field_size (f : FieldV) : Z :=
  match f with
  | FU8 _ => 1
  | FU16 _ => 2
  | FVer _ _ | FRef _ => 4
  end.

(** The next multiple of four. *)
Definition round4 (n : Z) : Z := (n + 3) / 4 * 4.

(** Where the fields of a table lie, and where the last one ends. *)
Fixpoint layout (fields : list (nat * FieldV)) (cursor : Z) : list Z * Z :=
  match fields with
  | [] => ([], cursor)
  | (_, f) :: rest =>
      let at_ := round4 cursor in
      let '(offs, cursor) := layout rest (at_ + field_size f) in
      (as_u16 at_ :: offs, cursor)
  end.

(** The vtable entry of slot [s]: 0 when the table has no such field. *)
Fixpoint slot_offset (fields : list (nat * FieldV)) (offs : list Z) (s : nat) : Z :=
  match fields, offs with
  | (slot, _) :: fields, off :: offs =>
      if Nat.eqb slot s then off else slot_offset fields offs s
  | _, _ => 0
  end.

Definition write_str (s : string) (buf : Fb) : Fb * Z :=
  let buf := align 4 buf in
  (buf ++ le_bytes 4 (Z.of_nat (String.length s)) ++ text_bytes s ++ [0], pos buf).

(** One zero slot per item, with their positions. *)
Fixpoint reserve (n : nat) (buf : Fb) : list Z * Fb :=
  match n with
  | O => ([], buf)
  | S n => let '(slots, buf') := reserve n (buf ++ le_bytes 4 0) in (pos buf :: slots, buf')
  end.

(** Writes the items behind the vector and patches each slot. *)
Definition fill {A} (write : A → Fb → Fb * Z) :=
  fix fill (items : list A) (slots : list Z) (buf : Fb) : Fb :=
    match items, slots with
    | item :: items, slot :: slots =>
        let '(buf, sp) := write item buf in
        fill items slots (patch_u32 buf slot (sp - as_u32 slot))
    | _, _ => buf
    end.

Definition write_vec {A} (write : A → Fb → Fb * Z) (items : list A) (buf : Fb) : Fb * Z :=
  let buf := align 4 buf in
  let p := pos buf in
  let '(slots, buf) := reserve (length items) (buf ++ le_bytes 4 (Z.of_nat (length items))) in
  (fill write items slots buf, p).

(** The scalar fields, in place. *)
Fixpoint write_scalars (tpos : Z) (fields : list (nat * FieldV)) (offs : list Z) (buf : Fb) : Fb :=
  match fields, offs with
  | (_, f) :: fields, off :: offs =>
      let at_ := tpos + off in
      write_scalars tpos fields offs
        match f with
        | FU8 v => overwrite buf at_ [v]
        | FU16 v => overwrite buf at_ (le_bytes 2 v)
        | FVer a b => overwrite (overwrite buf at_ (le_bytes 2 a)) (at_ + 2) (le_bytes 2 b)
        | FRef _ => buf
        end
  | _, _ => buf
  end.

(** The children of the reference fields, each behind what is written. *)
Definition write_refs (write : SpecNode → Fb → Fb * Z) (tpos : Z) :=
  fix write_refs (fields : list (nat * FieldV)) (offs : list Z) (buf : Fb) : Fb :=
    match fields, offs with
    | (_, f) :: fields, off :: offs =>
        match f with
        | FRef child =>
            let '(buf, cp) := write child buf in
            write_refs fields offs (patch_u32 buf (tpos + off) (cp - as_u32 (tpos + off)))
        | _ => write_refs fields offs buf
        end
    | _, _ => buf
    end.

(** The vtable and the table before its fields are written. *)
Definition write_shell (max_slot : nat) (fields : list (nat * FieldV)) (buf : Fb) : Fb * Z :=
  let '(offs, cursor) := layout fields 4 in
  let table_size := as_u16 (round4 cursor) in
  let vlen := as_u16 (4 + 2 * (Z.of_nat max_slot + 1)) in
  let buf := align 4 buf in
  let vpos := pos buf in
  let buf := buf ++ le_bytes 2 vlen ++ le_bytes 2 table_size
             ++ flat_map (λ s, le_bytes 2 (slot_offset fields offs s)) (seq 0 (S max_slot)) in
  let buf := align 4 buf in
  let tpos := pos buf in
  let buf := resize (Z.to_nat (tpos + table_size)) 0 buf in
  (overwrite buf tpos (le_bytes 4 (tpos - vpos)), tpos).

Fixpoint write_node (node : SpecNode) (buf : Fb) {struct node} : Fb * Z :=
  match node with
  | NStr s => write_str s buf
  | NStrVec items => write_vec write_str items buf
  | NTabVec items => write_vec write_node items buf
  | NTable max_slot fields =>
      let offs := (layout fields 4).1 in
      let '(buf, tpos) := write_shell max_slot fields buf in
      (write_refs write_node tpos fields offs (write_scalars tpos fields offs buf), tpos)
  end.

Definition rule_node (addr : string) : SpecNode :=
  let subnet := NTable 1 [(0%nat, FRef (NStr addr)); (1%nat, FU8 32)] in
  let dest := NTable 1 [(0%nat, FRef subnet)] in
  let port_rule := NTable 2 [(0%nat, FU8 1); (1%nat, FU16 1); (2%nat, FU16 65535)] in
  NTable 1 [(0%nat, FRef (NTabVec [dest])); (1%nat, FRef (NTabVec [port_rule]))].

Definition net_policy_node (allow : list string) : SpecNode :=
  let egress_fields :=
    (0%nat, FU8 0)
    :: (if nonempty allow then [(1%nat, FRef (NTabVec (rule_node <$> allow)))] else []) in
  NTable 3 [(1%nat, FRef (NTable 2 egress_fields))].

Definition SPEC_VERSION : Z * Z := (1, 0).

Definition list_field (slot : nat) (paths : list string) : list (nat * FieldV) :=
  if nonempty paths then [(slot, FRef (NStrVec paths))] else [].

Definition spec_root (ro rw deny allow_ipv4 : list string) : SpecNode :=
  NTable 8 ((0%nat, FVer SPEC_VERSION.1 SPEC_VERSION.2)
            :: list_field 4 rw ++ list_field 5 ro ++ list_field 6 deny
            ++ [(7%nat, FRef (net_policy_node allow_ipv4))]).

Definition encode_spec (ro rw deny allow_ipv4 : list string) : Fb :=
  let '(buf, root_pos) := write_node (spec_root ro rw deny allow_ipv4) Fb_new in
  patch_u32 buf 0 root_pos.

(** ** A reader of the wire format *)

(** An [n]-byte little-endian value. *)
Definition get (n : nat) (buf : Fb) (at_ : Z) : option Z :=
  if (0 <=? at_) && (at_ + Z.of_nat n <=? Z.of_nat (length buf))
  then Some (le_value (take n (drop (Z.to_nat at_) buf))) else None.

(** Where the offset at [at_] points. *)
Definition follow (buf : Fb) (at_ : Z) : option Z :=
  off ← get 4 buf at_; Some (at_ + off).

(** Where the field of a slot lies, when the table has it. *)
Definition field (buf : Fb) (table : Z) (slot : nat) : option Z :=
  soffset ← get 4 buf table;
  let vtable := table - soffset in
  vlen ← get 2 buf vtable;
  if vlen <? 4 + 2 * (Z.of_nat slot + 1) then None
  else off ← get 2 buf (vtable + 4 + 2 * Z.of_nat slot);
       if off =? 0 then None else Some (table + off).

Definition read_str (buf : Fb) (p : Z) : option string :=
  n ← get 4 buf p;
  nul ← get 1 buf (p + 4 + n);
  if nul =? 0
  then Some (String.string_of_list_ascii ((ascii_of_nat ∘ Z.to_nat) <$> take (Z.to_nat n) (drop (Z.to_nat (p + 4)) buf)))
  else None.

Definition read_vec (buf : Fb) (p : Z) : option (list Z) :=
  n ← get 4 buf p; mapM (λ i, follow buf (p + 4 + 4 * i)) (seqZ 0 n).

(** A reference field, read by [read]; [missing] without the field. *)
Definition read_ref {A} (read : Fb → Z → option A) (missing : option A) (buf : Fb) (table : Z)
    (slot : nat) : option A :=
  match field buf table slot with
  | None => missing
  | Some at_ => p ← follow buf at_; read buf p
  end.

Definition read_items {A} (read : Fb → Z → option A) (buf : Fb) (p : Z) : option (list A) :=
  ps ← read_vec buf p; mapM (read buf) ps.

Definition scalar (n : nat) (buf : Fb) (table : Z) (slot : nat) : option Z :=
  match field buf table slot with
  | None => Some 0
  | Some at_ => get n buf at_
  end.

(** An endpoint rule: its destinations with their prefix lengths, its port
    rules as protocol, first and last port. *)
Record EndpointRule := mkEndpoint {
  er_destinations : list (string * Z);
  er_ports : list (Z * Z * Z)
}.

Record SpecDoc := mkDoc {
  sd_version : Z * Z;
  sd_read_write : list string;
  sd_read_only : list string;
  sd_deny : list string;
  sd_default_action : Z;
  sd_allow : list EndpointRule
}.

Definition read_subnet (buf : Fb) (p : Z) : option (string * Z) :=
  address ← read_ref read_str None buf p 0;
  prefix ← scalar 1 buf p 1;
  Some (address, prefix).

Definition read_port (buf : Fb) (p : Z) : option (Z * Z * Z) :=
  protocol ← scalar 1 buf p 0;
  port ← scalar 2 buf p 1;
  end_port ← scalar 2 buf p 2;
  Some (protocol, port, end_port).

Definition read_rule (buf : Fb) (p : Z) : option EndpointRule :=
  destinations ← read_ref (read_items (λ buf p, read_ref read_subnet None buf p 0)) (Some []) buf p 0;
  ports ← read_ref (read_items read_port) (Some []) buf p 1;
  Some (mkEndpoint destinations ports).

Definition read_egress (buf : Fb) (p : Z) : option (Z * list EndpointRule) :=
  action ← scalar 1 buf p 0;
  rules ← read_ref (read_items read_rule) (Some []) buf p 1;
  Some (action, rules).

Definition read_spec (buf : Fb) : option SpecDoc :=
  if negb (bool_decide (take 4 (drop 4 buf) = text_bytes "PSEC")) then None
  else
    root ← get 4 buf 0;
    version ← field buf root 0;
    major ← get 2 buf version;
    minor ← get 2 buf (version + 2);
    rw ← read_ref (read_items read_str) (Some []) buf root 4;
    ro ← read_ref (read_items read_str) (Some []) buf root 5;
    deny ← read_ref (read_items read_str) (Some []) buf root 6;
    egress ← read_ref (λ buf p, read_ref read_egress None buf p 1) None buf root 7;
    Some (mkDoc (major, minor) rw ro deny egress.1 egress.2).

Example read_back :
  read_spec (encode_spec ["C:/a"; "C:/b"] [] ["D:/x"] ["192.0.2.7"; "198.51.100.3"])
  = Some (mkDoc (1, 0) [] ["C:/a"; "C:/b"] ["D:/x"] 0
            [mkEndpoint [("192.0.2.7"%string, 32)] [(1, 1, 65535)];
             mkEndpoint [("198.51.100.3"%string, 32)] [(1, 1, 65535)]]).
Proof. vm_compute. reflexivity. Qed.

(** ** From the policy to the lists *)

(** What the launch reads of the host's file system. *)
Class LaunchHost := {
  path_exists : string → bool;
  is_file : string → bool;
  is_dir : string → bool;
  path_parent : string → option string
}.

Inductive ControlState :=
  | Planned | Verified | PartiallyApplied | NotApplied | Skipped | Unknown | Failed | NotApplicable.

Inductive GrantOrigin := FromPolicy | FromTool (name : string) | FromRuntime | OsImplementation.

Inductive FsAccess := AccRead | AccReadWrite | AccExecute | AccTraverse.

Inductive GrantSubject :=
  | GFsPath (path : string) (access : FsAccess)
  | GTcpConnect (port : Z)
  | GCapability (name : string)
  | GSyscall (name : string)
  | GPrivateTmpdir
  | GRule (kind name : string).

(** The text of the reason is not modelled. *)
Record ProcessGrant := mkGrant {
  gr_subject : GrantSubject;
  gr_origin : GrantOrigin;
  gr_state : ControlState
}.

(** What the environment cannot express; texts as in [ValidationError]. *)
Inductive PsecProblem :=
  | PbEnvironment (names : list string)
  | PbTmpdir (path : string)
  | PbUnrestricted
  | PbPort (raw : string) (name_guidance : bool)
  | PbNotIpv4 (entry : string) (name_guidance : bool)
  | PbCidrPort (raw : string)
  | PbQualified (rule : string)
  | PbNotHostRoute (entry : string)
  | PbOverlap (allow : string)
  | PbListen
  | PbHttp
  | PbPath (path : string) (reason : PsecPathReason).

(** The options the translation reads. *)
Record SpawnOptions := mkSpawn { so_allowed_names : list string; so_tmpdir : option string }.

(** The accumulators of [build_launch_spec]. *)
Record Draft := mkDraft {
  df_problems : list PsecProblem;
  df_grants : list ProcessGrant;
  df_rules : list string;
  df_ro : list string;
  df_rw : list string;
  df_deny : list string
}.

Definition no_draft : Draft := mkDraft [] [] [] [] [] [].

Definition problem (pb : PsecProblem) (d : Draft) : Draft :=
  mkDraft (df_problems d ++ [pb]) (df_grants d) (df_rules d) (df_ro d) (df_rw d) (df_deny d).

Definition push_grant (s : GrantSubject) (g : GrantOrigin) (c : ControlState) (d : Draft) : Draft :=
  mkDraft (df_problems d) (df_grants d ++ [mkGrant s g c]) (df_rules d) (df_ro d) (df_rw d) (df_deny d).

Definition add_rule (rule : string) (d : Draft) : Draft :=
  mkDraft (df_problems d) (df_grants d) (df_rules d ++ [rule]) (df_ro d) (df_rw d) (df_deny d).

Inductive Bucket := Ro | Rw | Dn.

Definition add_path (b : Bucket) (path : string) (d : Draft) : Draft :=
  mkDraft (df_problems d) (df_grants d) (df_rules d)
    (match b with Ro => df_ro d ++ [path] | _ => df_ro d end)
    (match b with Rw => df_rw d ++ [path] | _ => df_rw d end)
    (match b with Dn => df_deny d ++ [path] | _ => df_deny d end).

(** A problem and the grant that records it. *)
Definition plan_refuse (pb : PsecProblem) (kind name : string) (d : Draft) : Draft :=
  push_grant (GRule kind name) FromPolicy NotApplied (problem pb d).

Definition plan_environment (opts : SpawnOptions) (d : Draft) : Draft :=
  let d := if nonempty (so_allowed_names opts) then problem (PbEnvironment (so_allowed_names opts)) d else d in
  match so_tmpdir opts with Some tmp => problem (PbTmpdir tmp) d | None => d end.

Section egress.
Variable o : OutboundPolicy.

Definition plan_ported_host (d : Draft) (raw : string) : Draft :=
  if bool_decide (normalize_policy_host raw ∈ allowed o)
  then plan_refuse (PbPort raw (entry_needs_name_layer raw)) "net_destination" raw d else d.

Definition plan_host (d : Draft) (entry : string) : Draft :=
  if existsb (λ raw, String.eqb (normalize_policy_host raw) entry) (allowed_port_qualified o) then d
  else if psec_ipv4_expressible entry
  then push_grant (GRule "net_destination" entry) FromPolicy Planned (add_rule entry d)
  else plan_refuse (PbNotIpv4 entry (entry_needs_name_layer entry)) "net_destination" entry d.

(** Whether a written range names [cidr]. *)
Definition names_cidr (cidr raw : string) : bool :=
  match analyze_policy_cidr raw with
  | Ok (c, _, _) => String.eqb c cidr
  | Err _ => false
  end.

Definition plan_ported_cidr (d : Draft) (raw : string) : Draft :=
  let still_present := match analyze_policy_cidr raw with
                       | Ok (cidr, _, _) => bool_decide (cidr ∈ allowed_cidrs o)
                       | Err _ => false
                       end in
  if still_present then plan_refuse (PbCidrPort raw) "net_destination_cidr" raw d else d.

Definition provenance_covered (r : EgressRule) : bool :=
  match eg_dest r with
  | Host h => existsb (λ raw, let '(norm, p, _) := analyze_policy_host raw in
                              String.eqb norm h && bool_decide (is_Some p)) (allowed_port_qualified o)
  | Cidr c => existsb (λ raw, match analyze_policy_cidr raw with
                              | Ok (norm, p, _) => String.eqb norm c && bool_decide (is_Some p)
                              | Err _ => false
                              end) (allowed_cidrs_port_qualified o)
  | Unix _ => false
  end.

Definition plan_rule (d : Draft) (r : EgressRule) : Draft :=
  let proto_qualified := negb (bool_decide (eg_proto r = Tcp)) in
  let ported := bool_decide (is_Some (eg_port r)) in
  if negb (eg_allow r) then d
  else if negb proto_qualified && negb ported then d
  else if ported && negb proto_qualified && provenance_covered r then d
  else plan_refuse (PbQualified (describe r)) "net_destination" (describe r) d.

Definition plan_cidr (d : Draft) (entry : string) : Draft :=
  if existsb (names_cidr entry) (allowed_cidrs_port_qualified o) then d
  else match parse_policy_cidr entry with
       | Some (V4 addr, 32) =>
           let rule := show_ip (V4 addr) in
           push_grant (GRule "net_destination_cidr" entry) FromPolicy Planned
             (if bool_decide (rule ∈ df_rules d) then d else add_rule rule d)
       | _ => plan_refuse (PbNotHostRoute entry) "net_destination_cidr" entry d
       end.

Definition plan_deny (d : Draft) (entry : string) : Draft :=
  push_grant (GRule "net_destination_deny" entry) FromPolicy Skipped d.

Definition plan_overlap (d : Draft) (allow : string) : Draft :=
  if existsb (λ deny, cidr_intersects deny allow) (ip_layer_denies o) then problem (PbOverlap allow) d
  else d.

Definition plan_egress (d : Draft) : Draft :=
  if negb (deny_all_others o) then problem PbUnrestricted d
  else
    let d := foldl plan_ported_host d (allowed_port_qualified o) in
    let d := foldl plan_host d (allowed o) in
    let d := foldl plan_ported_cidr d (allowed_cidrs_port_qualified o) in
    let d := foldl plan_rule d (egress_rules o) in
    let d := foldl plan_cidr d (allowed_cidrs o) in
    let d := foldl plan_deny d (denied_hosts o ++ denied_cidrs o) in
    foldl plan_overlap d (literal_routes (allowed o) ++ allowed_cidrs o).
End egress.

Definition plan_inbound (p : PolicyDocument) (d : Draft) : Draft :=
  let d := if d_allow_listen p then plan_refuse PbListen "net_inbound" "listen" d else d in
  match tc_type (d_transport p) with
  | Http => push_grant (GRule "loopback_exemption" "localhost") FromRuntime NotApplied (problem PbHttp d)
  | Stdio => d
  end.

Section files.
Context `{LaunchHost}.

Definition plan_path (subject : string → GrantSubject) (b : Bucket) (d : Draft) (path : string) : Draft :=
  match psec_fs_path_expressible path with
  | Err reason => push_grant (subject path) FromPolicy NotApplied (problem (PbPath path reason) d)
  | Ok _ =>
      if path_exists path then push_grant (subject path) FromPolicy Planned (add_path b path d)
      else push_grant (subject path) FromPolicy Skipped d
  end.

Definition plan_paths (fs : FsPolicy) (d : Draft) : Draft :=
  let d := foldl (plan_path (λ p, GFsPath p AccRead) Ro) d (g_read_only fs) in
  let d := foldl (plan_path (λ p, GFsPath p AccReadWrite) Rw) d (g_read_write fs) in
  let d := foldl (plan_path (λ p, GFsPath p AccExecute) Ro) d (g_executable fs) in
  foldl (plan_path (GRule "fs_deny") Dn) d (g_denied_paths fs).

(** The launch image and its directory; [exe] is the given program or what the
    search for [command] found. *)
Definition plan_image (exe : option string) (command : string) (d : Draft) : Draft :=
  match exe with
  | Some exe =>
      if is_file exe then
        let d := push_grant (GFsPath exe AccRead) FromRuntime Planned (add_path Ro exe d) in
        match path_parent exe with
        | Some parent =>
            if is_dir parent then push_grant (GFsPath parent AccRead) FromRuntime Planned (add_path Ro parent d)
            else d
        | None => d
        end
      else push_grant (GFsPath exe AccRead) FromRuntime Skipped d
  | None => push_grant (GFsPath command AccRead) FromRuntime Skipped d
  end.

Definition draft_launch (p : PolicyDocument) (exe : option string) (command : string)
    (opts : SpawnOptions) : Draft :=
  plan_image exe command
    (plan_paths (d_fs p) (plan_inbound p (plan_egress (d_outbound p) (plan_environment opts no_draft)))).

Record PsecBuild := mkBuild { pb_spec : Fb; pb_fs_paths : list string; pb_grants : list ProcessGrant }.
Record PsecRefusal := mkRefusal { pr_problems : list PsecProblem; pr_grants : list ProcessGrant }.

Definition build_launch_spec (p : PolicyDocument) (exe : option string) (command : string)
    (opts : SpawnOptions) : result PsecBuild PsecRefusal :=
  let d := draft_launch p exe command opts in
  if nonempty (df_problems d) then Err (mkRefusal (df_problems d) (df_grants d))
  else Ok (mkBuild (encode_spec (df_ro d) (df_rw d) (df_deny d) (df_rules d))
             (df_ro d ++ df_rw d ++ df_deny d) (df_grants d)).
End files.

(** * The document is read back

    ** What a node is in a buffer *)

Definition blen (buf : Fb) : Z := Z.of_nat (length buf).

Definition all2 {A B} (P : A → B → Prop) := fix go (xs : list A) (ys : list B) {struct ys} : Prop :=
  match ys, xs with
  | [], [] => True
  | y :: ys, x :: xs => P x y ∧ go xs ys
  | _, _ => False
  end.

(** The fields of a table, each at its slot. *)
Definition fields_hold (P : Z → FieldV → Prop) (buf : Fb) (table : Z) :=
  fix go (fields : list (nat * FieldV)) : Prop :=
    match fields with
    | [] => True
    | (slot, f) :: rest => (∃ at_, field buf table slot = Some at_ ∧ P at_ f) ∧ go rest
    end.

Fixpoint holds (buf : Fb) (node : SpecNode) (p : Z) {struct node} : Prop :=
  match node with
  | NStr s => read_str buf p = Some s
  | NStrVec items => ∃ ps, read_vec buf p = Some ps ∧ all2 (λ q s, read_str buf q = Some s) ps items
  | NTabVec items => ∃ ps, read_vec buf p = Some ps ∧ all2 (λ q n, holds buf n q) ps items
  | NTable _ fields =>
      (∀ slot, slot ∉ fields.*1 → field buf p slot = None) ∧
      fields_hold (field_holds buf) buf p fields
  end
with field_holds (buf : Fb) (at_ : Z) (f : FieldV) {struct f} : Prop :=
  match f with
  | FU8 v => get 1 buf at_ = Some v
  | FU16 v => get 2 buf at_ = Some v
  | FVer a b => get 2 buf at_ = Some a ∧ get 2 buf (at_ + 2) = Some b
  | FRef child => ∃ q, follow buf at_ = Some q ∧ holds buf child q
  end.

(** The bytes a node takes at most, padding included. *)
Definition str_size (s : string) : Z := 9 + Z.of_nat (String.length s).

Definition sum_map {A} (f : A → Z) := fix go (xs : list A) : Z :=
  match xs with [] => 0 | x :: xs => f x + go xs end.

Fixpoint node_size (node : SpecNode) : Z :=
  match node with
  | NStr s => str_size s
  | NStrVec items => 8 + sum_map (λ s, 4 + str_size s) items
  | NTabVec items => 8 + sum_map (λ n, 4 + node_size n) items
  | NTable max_slot fields =>
      18 + 2 * Z.of_nat max_slot + sum_map (λ '(_, f), 4 + field_room f) fields
  end
with field_room (f : FieldV) : Z :=
  match f with FRef child => node_size child | _ => 0 end.

(** Slots in range and distinct, scalars of their width, few enough fields for
    16-bit offsets. *)
Definition all_map {A} (P : A → Prop) := fix go (xs : list A) : Prop :=
  match xs with [] => True | x :: xs => P x ∧ go xs end.

Fixpoint wf_node (node : SpecNode) : Prop :=
  match node with
  | NStr _ | NStrVec _ => True
  | NTabVec items => all_map wf_node items
  | NTable max_slot fields =>
      (max_slot < 1000)%nat ∧ (length fields < 1000)%nat ∧ NoDup fields.*1 ∧
      (∀ slot, slot ∈ fields.*1 → slot ≤ max_slot)%nat ∧ all_map (λ '(_, f), wf_field f) fields
  end
with wf_field (f : FieldV) : Prop :=
  match f with
  | FU8 v => 0 <= v < 2 ^ 8
  | FU16 v => 0 <= v < 2 ^ 16
  | FVer a b => 0 <= a < 2 ^ 16 ∧ 0 <= b < 2 ^ 16
  | FRef child => wf_node child
  end.

(** ** Bytes in place *)

Definition has (buf : Fb) (n : nat) (bs : list Z) : Prop :=
  ∀ i x, bs !! i = Some x → buf !! (n + i)%nat = Some x.

(** [b] holds what [buf] holds from [lo] on. *)
Definition agrees (lo : nat) (buf b : Fb) : Prop :=
  ∀ i, (lo ≤ i < length buf)%nat → b !! i = buf !! i.

Lemma agrees_weaken lo lo' buf b : agrees lo buf b → (lo ≤ lo')%nat → agrees lo' buf b.
Proof. intros H Hl i Hi. apply H. lia. Qed.

Lemma agrees_app lo buf ext b : agrees lo (buf ++ ext) b → agrees lo buf b.
Proof. intros H i Hi. rewrite H by (rewrite length_app; lia). apply lookup_app_l. lia. Qed.

Lemma agrees_has lo pre bs post b : agrees lo (pre ++ bs ++ post) b → (lo ≤ length pre)%nat →
  has b (length pre) bs.
Proof.
  intros H Hl i x Hi. pose proof (lookup_lt_Some _ _ _ Hi).
  rewrite H by (rewrite !length_app; lia).
  rewrite lookup_app_r by lia. rewrite lookup_app_l by lia. by replace (length pre + i - length pre)%nat with i by lia.
Qed.

Lemma has_app_l buf n a b : has buf n (a ++ b) → has buf n a.
Proof. intros H i x Hi. apply H. by apply lookup_app_l_Some. Qed.

Lemma has_app_r buf n a b : has buf n (a ++ b) → has buf (n + length a) b.
Proof.
  intros H i x Hi. replace (n + length a + i)%nat with (n + (length a + i))%nat by lia. apply H.
  rewrite lookup_app_r by lia. by replace (length a + i - length a)%nat with i by lia.
Qed.

Lemma has_take buf n bs : has buf n bs → take (length bs) (drop n buf) = bs.
Proof.
  intros H. apply list_eq. intros i. destruct (decide (i < length bs)%nat).
  - rewrite lookup_take_lt, lookup_drop by lia. destruct (lookup_lt_is_Some_2 bs i ltac:(done)) as [x Hx].
    rewrite Hx. by apply H.
  - rewrite lookup_take_ge, lookup_ge_None_2 by lia. done.
Qed.

Lemma has_len buf n bs : has buf n bs → bs ≠ [] → (n + length bs ≤ length buf)%nat.
Proof.
  intros H Hb. destruct (lookup_lt_is_Some_2 bs (length bs - 1)) as [x Hx]; [by destruct bs; [|cbn; lia]|].
  apply H, lookup_lt_Some in Hx. destruct bs; [done|]. cbn in *. lia.
Qed.

Lemma get_has buf n bs : has buf n bs → bs ≠ [] → get (length bs) buf (Z.of_nat n) = Some (le_value bs).
Proof.
  intros H Hb. pose proof (has_len _ _ _ H Hb). unfold get. rewrite Nat2Z.id, has_take by done.
  rewrite (proj2 (Z.leb_le _ _)) by lia. by rewrite (proj2 (Z.leb_le _ _)) by lia.
Qed.

Lemma get_le k v buf n : has buf n (le_bytes k v) → (0 < k)%nat → 0 <= v < 256 ^ Z.of_nat k →
  get k buf (Z.of_nat n) = Some v.
Proof.
  intros H Hk Hv. pose proof (le_bytes_length k v) as Hl. rewrite <- Hl at 1. rewrite get_has; [|done|].
  - by rewrite le_value_bytes, Z.mod_small.
  - intros E. rewrite E in Hl. cbn in Hl. lia.
Qed.

Lemma overwrite_app pre c post bs : length c = length bs →
  overwrite (pre ++ c ++ post) (blen pre) bs = pre ++ bs ++ post.
Proof.
  unfold overwrite, blen. rewrite Nat2Z.id. revert pre c. induction bs as [|x bs IH]; intros pre c Hc.
  - by destruct c.
  - destruct c as [|y c]; [done|]. injection Hc as Hc. cbn [list_inserts].
    replace (pre ++ (y :: c) ++ post) with ((pre ++ [y]) ++ c ++ post) by (by rewrite <- app_assoc).
    replace (S (length pre)) with (length (pre ++ [y])) by (rewrite length_app; cbn; lia).
    rewrite IH by done. rewrite <- app_assoc. cbn [app].
    rewrite insert_app_r_alt, Nat.sub_diag by lia. done.
Qed.

Lemma align_pad buf : ∃ pad, align 4 buf = buf ++ pad ∧ (length pad ≤ 4)%nat.
Proof.
  unfold align. change (Z.to_nat 4) with 4%nat. generalize 4%nat as fuel. intros fuel.
  revert buf. induction fuel as [|fuel IH]; intros buf; cbn [align_loop].
  - exists []. by rewrite app_nil_r.
  - destruct (_ =? 0).
    + exists []. rewrite app_nil_r. cbn. split; [done|lia].
    + destruct (IH (buf ++ [0])) as (pad & -> & Hp). exists (0 :: pad). rewrite <- app_assoc. cbn. split; [done|lia].
Qed.

Lemma blen_app a b : blen (a ++ b) = blen a + blen b.
Proof. unfold blen. rewrite length_app. lia. Qed.

Lemma blen_nonneg a : 0 <= blen a.
Proof. unfold blen. lia. Qed.

Lemma pos_len buf : blen buf < 2 ^ 32 → pos buf = blen buf.
Proof. intros. unfold pos, as_u32. apply Z.mod_small. pose proof (blen_nonneg buf). unfold blen in *. lia. Qed.

(** ** What a writer promises

    It only appends, takes at most [size] bytes, and any buffer that agrees
    with what it appended holds the value at the returned position. *)
Definition writes {A} (write : A → Fb → Fb * Z) (size : A → Z) (H : Fb → A → Z → Prop) (a : A) : Prop :=
  ∀ buf, blen buf + size a < 2 ^ 32 →
  ∃ ext p, write a buf = (buf ++ ext, p) ∧ blen ext <= size a ∧ blen buf <= p <= blen buf + blen ext ∧
    ∀ b, agrees (length buf) (buf ++ ext) b → H b a p.

Lemma sum_map_nonneg {A} (f : A → Z) xs : (∀ x, 0 <= f x) → 0 <= sum_map f xs.
Proof. intros H. induction xs as [|x xs IH]; cbn; [lia|]. specialize (H x). lia. Qed.

Lemma text_bytes_length s : length (text_bytes s) = String.length s.
Proof. unfold text_bytes. rewrite length_fmap. induction s as [|c s IH]; cbn; [done|by rewrite IH]. Qed.

Lemma text_bytes_back s :
  String.string_of_list_ascii ((ascii_of_nat ∘ Z.to_nat) <$> text_bytes s) = s.
Proof.
  unfold text_bytes. rewrite <- list_fmap_compose. rewrite <- (String.string_of_list_ascii_of_string s) at 2.
  f_equal. induction (String.list_ascii_of_string s) as [|c cs IH]; [done|]. cbn. rewrite IH. f_equal.
  unfold code. by rewrite Nat2Z.id, ascii_nat_embedding.
Qed.

Lemma write_str_ok s : writes write_str str_size (λ b s p, read_str b p = Some s) s.
Proof.
  intros buf Hs. unfold write_str. destruct (align_pad buf) as (pad & -> & Hpad).
  pose proof (blen_nonneg buf). unfold str_size in *.
  assert (blen (buf ++ pad) < 2 ^ 32) as Hl by (rewrite blen_app; unfold blen in *; lia).
  eexists (pad ++ _), _. rewrite <- (app_assoc buf pad). rewrite pos_len by done. split_and!; [done|..].
  - rewrite !blen_app. unfold blen. rewrite le_bytes_length, text_bytes_length. cbn. lia.
  - rewrite blen_app. unfold blen. lia.
  - rewrite !blen_app. unfold blen. lia.
  - intros b Hb. rewrite app_assoc, <- (app_nil_r (le_bytes 4 _ ++ _)) in Hb.
    apply agrees_has in Hb; [|rewrite length_app; lia].
    pose proof (has_app_l _ _ _ _ Hb) as Hn. apply has_app_r in Hb.
    pose proof (has_app_l _ _ _ _ Hb) as Ht. apply has_app_r in Hb.
    rewrite le_bytes_length in *. rewrite text_bytes_length in Hb.
    apply get_le in Hn; [|lia|change (256 ^ Z.of_nat 4) with (2 ^ 32); lia].
    apply get_has in Hb; [|done]. cbn [length le_value] in Hb.
    unfold read_str. fold (blen (buf ++ pad)) in Hn. rewrite Hn. cbn [mbind option_bind].
    replace (blen (buf ++ pad) + 4 + Z.of_nat (String.length s))
      with (Z.of_nat (length (buf ++ pad) + 4 + String.length s)) by (unfold blen; lia).
    rewrite Hb. cbn [mbind option_bind Z.mul Z.add Z.eqb].
    rewrite Nat2Z.id. replace (Z.to_nat (blen (buf ++ pad) + 4)) with (length (buf ++ pad) + 4)%nat by (unfold blen; lia).
    rewrite <- text_bytes_length. rewrite has_take by done. by rewrite text_bytes_back.
Qed.

(** ** Vectors *)

Fixpoint slots_from (base : Z) (n : nat) : list Z :=
  match n with O => [] | S n => base :: slots_from (base + 4) n end.

Lemma reserve_spec n : ∀ buf, blen buf + 4 * Z.of_nat n < 2 ^ 32 →
  ∃ cells, reserve n buf = (slots_from (blen buf) n, buf ++ cells) ∧ length cells = (4 * n)%nat.
Proof.
  induction n as [|n IH]; intros buf Hb.
  - exists []. by rewrite app_nil_r.
  - cbn [reserve]. destruct (IH (buf ++ le_bytes 4 0)) as (cells & E & Hc);
      [rewrite blen_app; unfold blen at 2; rewrite le_bytes_length; lia|].
    rewrite E. exists (le_bytes 4 0 ++ cells). rewrite pos_len by lia. rewrite app_assoc, length_app, Hc, le_bytes_length.
    split; [|lia]. cbn [slots_from]. rewrite blen_app. unfold blen at 3. by rewrite le_bytes_length.
Qed.

(** An item is written behind everything and the slot at the end of [pre] is
    patched; later writes change only the bytes between the slot and the item. *)
Lemma patch_step {A} write size H (a : A) pre c post :
  writes write size H a → 0 <= size a → length c = 4%nat → blen (pre ++ c ++ post) + size a < 2 ^ 32 →
  ∃ e p w, write a (pre ++ c ++ post) = (pre ++ c ++ post ++ e, p) ∧
    patch_u32 (pre ++ c ++ post ++ e) (blen pre) (p - as_u32 (blen pre)) = pre ++ w ++ post ++ e ∧
    length w = 4%nat ∧ blen e <= size a ∧
    ∀ post' more b, length post' = length post →
      agrees (length pre) (pre ++ w ++ post' ++ e ++ more) b →
      ∃ q, follow b (blen pre) = Some q ∧ H b a q.
Proof.
  intros Ha Hsz Hc Hb. destruct (Ha _ Hb) as (e & p & E & He & Hp & Hh).
  assert (0 <= blen pre < 2 ^ 32) as Hpre.
  { rewrite !blen_app in Hb. pose proof (blen_nonneg pre). pose proof (blen_nonneg c). pose proof (blen_nonneg post). lia. }
  replace (as_u32 (blen pre)) with (blen pre) by (unfold as_u32; by rewrite Z.mod_small).
  exists e, p, (le_bytes 4 (p - blen pre)). unfold patch_u32.
  rewrite E, overwrite_app by (by rewrite le_bytes_length). rewrite <- !app_assoc. split_and!; [done|done|by rewrite le_bytes_length|done|].
  intros post' more b Hl Hag. exists p. split.
  - pose proof Hag as Hw. apply agrees_has in Hw; [|done]. apply get_le in Hw; [|lia|].
    + unfold follow, blen. rewrite Hw. cbn [mbind option_bind]. f_equal. unfold blen. lia.
    + change (256 ^ Z.of_nat 4) with (2 ^ 32). rewrite !blen_app in *.
      pose proof (blen_nonneg c). pose proof (blen_nonneg post). lia.
  - apply Hh. intros i Hi. rewrite !length_app in Hi. rewrite Hag by (rewrite !length_app, le_bytes_length; lia).
    rewrite (lookup_app_r pre), (lookup_app_r (le_bytes _ _)), (lookup_app_r post') by (rewrite ?le_bytes_length; lia).
    rewrite (lookup_app_l e) by (rewrite le_bytes_length; lia).
    rewrite <- !app_assoc, (lookup_app_r pre), (lookup_app_r c), (lookup_app_r post) by lia.
    f_equal. rewrite le_bytes_length. lia.
Qed.

(** The first four bytes of the slots. *)
Lemma first_cell n (cells : Fb) : length cells = (4 * S n)%nat →
  ∃ c rest, cells = c ++ rest ∧ length c = 4%nat ∧ length rest = (4 * n)%nat.
Proof.
  intros H. exists (take 4 cells), (drop 4 cells). rewrite take_drop, length_take, length_drop. split_and!; [done|lia..].
Qed.

Lemma fill_spec {A} write size H (items : list A) :
  (∀ a, 0 <= size a) → Forall (writes write size H) items → ∀ pre cells tail,
  length cells = (4 * length items)%nat → blen (pre ++ cells ++ tail) + sum_map size items < 2 ^ 32 →
  ∃ cells' ext, fill write items (slots_from (blen pre) (length items)) (pre ++ cells ++ tail)
    = pre ++ cells' ++ tail ++ ext ∧ length cells' = length cells ∧ blen ext <= sum_map size items ∧
    ∀ b, agrees (length pre) (pre ++ cells' ++ tail ++ ext) b →
      ∃ ps, mapM (follow b) (slots_from (blen pre) (length items)) = Some ps ∧ all2 (λ q a, H b a q) ps items.
Proof.
  intros Hsz HF. induction HF as [|a items Ha HF IH]; intros pre cells tail Hc Hb.
  - destruct cells; [|done]. exists [], []. rewrite !app_nil_r. cbn. split_and!; [done..|]. intros b _. by exists [].
  - apply first_cell in Hc as (c & rest & -> & Hc & Hrest). cbn [sum_map] in *.
    pose proof (sum_map_nonneg size items Hsz). rewrite <- app_assoc in *.
    destruct (patch_step write size H a pre c (rest ++ tail) Ha (Hsz a) Hc) as (e & p & w & E & Ep & Hw & He & Hh); [lia|].
    cbn [fill length slots_from]. rewrite E, Ep.
    assert (blen (pre ++ w) = blen pre + 4) as Hpw by (rewrite blen_app; unfold blen; lia).
    assert (blen c = 4) by (unfold blen; lia).
    destruct (IH (pre ++ w) rest (tail ++ e)) as (cells' & ext & E2 & Hc' & He2 & Hh2); [done|rewrite !blen_app in *; lia|].
    rewrite Hpw, <- !app_assoc in E2. rewrite <- app_assoc, E2. exists (w ++ cells'), (e ++ ext). rewrite <- !app_assoc.
    split_and!; [done|rewrite !length_app; lia|rewrite blen_app; lia|].
    intros b Hag. destruct (Hh (cells' ++ tail) ext b) as (q & Eq & Hq);
      [rewrite !length_app; lia|by rewrite <- !app_assoc|].
    destruct (Hh2 b) as (ps & Eps & Hps).
    { apply (agrees_weaken (length pre)); [|rewrite length_app; lia]. by rewrite <- !app_assoc. }
    rewrite Hpw in Eps. exists (q :: ps). cbn [mapM]. rewrite Eq. cbn [mbind option_bind]. by rewrite Eps.
Qed.

Lemma mapM_slots b n : ∀ base k,
  mapM (λ i, follow b (base + 4 * i)) (seqZ k (Z.of_nat n)) = mapM (follow b) (slots_from (base + 4 * k) n).
Proof.
  induction n as [|n IH]; intros base k; [done|].
  rewrite seqZ_cons by lia. cbn [mapM slots_from].
  replace (Z.pred (Z.of_nat (S n))) with (Z.of_nat n) by lia. rewrite IH.
  replace (base + 4 * Z.succ k) with (base + 4 * k + 4) by lia. done.
Qed.

Lemma write_vec_ok {A} write size H (items : list A) :
  (∀ a, 0 <= size a) → Forall (writes write size H) items →
  writes (write_vec write) (λ items, 8 + sum_map (λ a, 4 + size a) items)
    (λ b items p, ∃ ps, read_vec b p = Some ps ∧ all2 (λ q a, H b a q) ps items) items.
Proof.
  intros Hsz HF buf Hs. unfold write_vec. destruct (align_pad buf) as (pad & -> & Hpad).
  assert (∀ xs : list A, sum_map (λ a, 4 + size a) xs = 4 * Z.of_nat (length xs) + sum_map size xs) as Hsum.
  { intros xs. induction xs as [|x xs IH]; [done|]. cbn [sum_map length]. rewrite IH. lia. }
  rewrite Hsum in *. pose proof (sum_map_nonneg size items Hsz). pose proof (blen_nonneg buf).
  set (n := le_bytes 4 (Z.of_nat (length items))).
  assert (length n = 4%nat) as Hn by (subst n; by rewrite le_bytes_length).
  assert (blen pad <= 4) by (unfold blen; lia). assert (blen n = 4) by (unfold blen; lia).
  destruct (reserve_spec (length items) ((buf ++ pad) ++ n)) as (cells & -> & Hc); [rewrite !blen_app; lia|].
  assert (blen cells = 4 * Z.of_nat (length items)) by (unfold blen; lia).
  destruct (fill_spec write size H items Hsz HF ((buf ++ pad) ++ n) cells []) as (cells' & ext & E & Hc' & He & Hh);
    [done|rewrite !blen_app; change (blen []) with 0; lia|].
  rewrite app_nil_r in E. rewrite E, pos_len by (rewrite blen_app; lia).
  cbn [app]. exists (pad ++ n ++ cells' ++ ext), (blen (buf ++ pad)). rewrite <- !app_assoc. split_and!; [done|..].
  - rewrite !blen_app. unfold blen in *. lia.
  - rewrite blen_app. pose proof (blen_nonneg pad). lia.
  - rewrite !blen_app. pose proof (blen_nonneg cells'). pose proof (blen_nonneg ext). lia.
  - intros b Hb. destruct (Hh b) as (ps & Eps & Hps).
    { apply (agrees_weaken (length buf)); [|rewrite !length_app; lia]. rewrite <- !app_assoc. exact Hb. }
    rewrite (app_assoc buf pad) in Hb. apply agrees_has in Hb; [|rewrite length_app; lia].
    exists ps. split; [|done]. unfold read_vec.
    subst n. apply get_le in Hb; [|lia|change (256 ^ Z.of_nat 4) with (2 ^ 32); lia].
    fold (blen (buf ++ pad)) in Hb. rewrite Hb. cbn [mbind option_bind].
    rewrite mapM_slots. rewrite blen_app in Eps. unfold blen in Eps at 2. rewrite le_bytes_length in Eps.
    by rewrite Z.mul_0_r, Z.add_0_r.
Qed.

(** ** Tables *)

Lemma round4_cell k f : round4 (4 * k + field_size f) = 4 * (k + 1).
Proof. unfold round4. destruct f; cbn [field_size]; Z.to_euclidean_division_equations; lia. Qed.

Lemma layout_spec fields : ∀ k c, round4 c = 4 * k → 0 <= k → k + Z.of_nat (length fields) < 16384 →
  (layout fields c).1 = slots_from (4 * k) (length fields) ∧
  round4 (layout fields c).2 = 4 * (k + Z.of_nat (length fields)).
Proof.
  induction fields as [|[slot f] fields IH]; intros k c Hc Hk Hn; cbn [layout length slots_from] in *.
  - cbn. split; [done|lia].
  - rewrite Hc. destruct (IH (k + 1) (4 * k + field_size f)) as [E1 E2]; [apply round4_cell|lia|lia|].
    destruct (layout fields _) as [offs c']. cbn in *. subst offs. split; [|lia].
    unfold as_u16. rewrite Z.mod_small by lia. by replace (4 * (k + 1)) with (4 * k + 4) by lia.
Qed.

Lemma slot_offset_missing fields s : ∀ base,
  s ∉ fields.*1 → slot_offset fields (slots_from base (length fields)) s = 0.
Proof.
  induction fields as [|[slot f] fields IH]; intros base Hs; [done|]. cbn in *.
  apply not_elem_of_cons in Hs as [Hne Hs]. rewrite (proj2 (Nat.eqb_neq slot s)) by done. by apply IH.
Qed.

Lemma slot_offset_found fields j s f : ∀ base, NoDup fields.*1 → fields !! j = Some (s, f) →
  slot_offset fields (slots_from base (length fields)) s = base + 4 * Z.of_nat j.
Proof.
  revert j. induction fields as [|[slot g] fields IH]; intros j base Hnd Hj; [done|].
  cbn in Hnd. apply NoDup_cons in Hnd as [Hni Hnd]. cbn [length slots_from slot_offset]. destruct j as [|j].
  - injection Hj as -> ->. rewrite Nat.eqb_refl. lia.
  - cbn in Hj. rewrite (proj2 (Nat.eqb_neq slot s)); [rewrite (IH j); [lia|done..]|].
    intros ->. apply Hni. by apply (list_elem_of_fmap_2' fst fields (s, f)); [eapply list_elem_of_lookup_2|].
Qed.

(** The four bytes of a field once the scalars are written. *)
Definition cell (f : FieldV) : list Z :=
  match f with
  | FU8 v => [v; 0; 0; 0]
  | FU16 v => le_bytes 2 v ++ [0; 0]
  | FVer a b => le_bytes 2 a ++ le_bytes 2 b
  | FRef _ => [0; 0; 0; 0]
  end.

Definition cells (fields : list (nat * FieldV)) : list Z := flat_map (λ '(_, f), cell f) fields.

Lemma cell_length f : length (cell f) = 4%nat.
Proof. by destruct f; cbn. Qed.

Lemma cells_length fields : length (cells fields) = (4 * length fields)%nat.
Proof. induction fields as [|[s f] fields IH]; [done|]. cbn [cells flat_map]. rewrite length_app, cell_length. fold (cells fields). rewrite IH. cbn. lia. Qed.

Lemma write_scalars_spec tpos fields : ∀ off pre tail, tpos + off = blen pre →
  write_scalars tpos fields (slots_from off (length fields)) (pre ++ replicate (4 * length fields) 0 ++ tail)
  = pre ++ cells fields ++ tail.
Proof.
  induction fields as [|[slot f] fields IH]; intros off pre tail Ho; [done|].
  replace (4 * length ((slot, f) :: fields))%nat with (4 + 4 * length fields)%nat by (cbn; lia).
  rewrite replicate_add, <- app_assoc. cbn [length slots_from write_scalars cells flat_map]. fold (cells fields).
  set (rest := replicate (4 * length fields) 0 ++ tail).
  replace (match f with FU8 _ => _ | _ => _ end) with ((pre ++ cell f) ++ rest).
  - subst rest. rewrite (IH (off + 4)); [by rewrite <- !app_assoc|]. rewrite blen_app. unfold blen at 2. rewrite cell_length. lia.
  - rewrite <- app_assoc, Ho. destruct f as [v|v|a b|child]; cbn [cell replicate].
    + by rewrite (overwrite_app pre [0] ([0; 0; 0] ++ rest)).
    + rewrite (overwrite_app pre [0; 0] ([0; 0] ++ rest)) by done. by rewrite <- app_assoc.
    + rewrite (overwrite_app pre [0; 0] ([0; 0] ++ rest)) by done. rewrite (app_assoc pre (le_bytes 2 a)).
      replace (blen pre + 2) with (blen (pre ++ le_bytes 2 a)) by (by rewrite blen_app).
      rewrite overwrite_app by done. by rewrite <- !app_assoc.
    + done.
Qed.

Lemma scalar_holds pre f post b :
  match f with FRef _ => False | _ => wf_field f end →
  agrees (length pre) (pre ++ cell f ++ post) b → field_holds b (blen pre) f.
Proof.
  intros Hf Hag. apply agrees_has in Hag; [|done]. unfold blen. destruct f as [v|v|a c|child]; cbn [field_holds wf_field cell] in *.
  - apply (get_le 1 v); [|lia|done]. cbn. rewrite Z.mod_small by lia.
    change [v; 0; 0; 0] with ([v] ++ [0; 0; 0]) in Hag. by apply has_app_l in Hag.
  - apply (get_le 2 v); [|lia|done]. by apply has_app_l in Hag.
  - destruct Hf as [Ha Hb]. split.
    + apply (get_le 2 a); [|lia|done]. by apply has_app_l in Hag.
    + apply has_app_r in Hag. apply (get_le 2 c) in Hag; [|lia|done].
      by rewrite Nat2Z.inj_add in Hag.
  - done.
Qed.

(** A buffer in which every field of a table is in its place. *)
Definition cells_hold (b : Fb) (base : Z) (fields : list (nat * FieldV)) : Prop :=
  ∀ j slot f, fields !! j = Some (slot, f) → field_holds b (base + 4 * Z.of_nat j) f.

Lemma cells_hold_cons b base slot f fields :
  field_holds b base f → cells_hold b (base + 4) fields → cells_hold b base ((slot, f) :: fields).
Proof.
  intros Hf Hr j s g Hj. destruct j as [|j].
  - injection Hj as _ <-. by rewrite Z.mul_0_r, Z.add_0_r.
  - replace (base + 4 * Z.of_nat (S j)) with (base + 4 + 4 * Z.of_nat j) by lia. by eapply Hr.
Qed.

Definition ref_writes (f : FieldV) : Prop :=
  match f with
  | FRef child => writes write_node node_size holds child
  | _ => wf_field f
  end.

Definition rooms (fields : list (nat * FieldV)) : Z := sum_map (λ '(_, f), field_room f) fields.

Lemma write_refs_spec tpos fields : (∀ n, 0 <= node_size n) →
  Forall (λ '(_, f), ref_writes f) fields → ∀ off pre tail, tpos + off = blen pre →
  blen (pre ++ cells fields ++ tail) + rooms fields < 2 ^ 32 →
  ∃ cs ext, write_refs write_node tpos fields (slots_from off (length fields)) (pre ++ cells fields ++ tail)
    = pre ++ cs ++ tail ++ ext ∧ length cs = (4 * length fields)%nat ∧ blen ext <= rooms fields ∧
    ∀ b, agrees (length pre) (pre ++ cs ++ tail ++ ext) b → cells_hold b (blen pre) fields.
Proof.
  intros Hsz HF. induction HF as [|[slot f] fields Hf HF IH]; intros off pre tail Ho Hb.
  - exists [], []. rewrite app_nil_r. split_and!; [done..|]. by intros b _ j s g ?.
  - cbn [cells flat_map] in *. fold (cells fields) in *. unfold rooms in *. cbn [sum_map] in *.
    assert (0 <= sum_map (λ '(_, f), field_room f) fields).
    { apply sum_map_nonneg. intros [s [v|v|a b|child]]; cbn; [lia..|apply Hsz]. }
    assert (blen (cell f) = 4) by (unfold blen; by rewrite cell_length).
    rewrite <- app_assoc in *. cbn [length slots_from write_refs]. rewrite Ho.
    destruct f as [v|v|x y|child]; cbn [field_room] in *.
    1-3: match goal with |- context [cell ?g] =>
      destruct (IH (off + 4) (pre ++ cell g) tail) as (cs & ext & E & Hcs & He & Hh); [rewrite blen_app; lia|rewrite !blen_app in *; lia|];
      rewrite <- !app_assoc in E; rewrite E; exists (cell g ++ cs), ext; rewrite <- !app_assoc;
      split_and!; [done|rewrite length_app, cell_length; cbn; lia|lia|];
      intros b Hag; apply cells_hold_cons; [by eapply scalar_holds|];
      replace (blen pre + 4) with (blen (pre ++ cell g)) by (rewrite blen_app; lia);
      apply Hh, (agrees_weaken (length pre)); [by rewrite <- app_assoc|rewrite length_app; lia] end.
    destruct (patch_step write_node node_size holds child pre (cell (FRef child)) (cells fields ++ tail) Hf (Hsz child))
      as (e & p & w & E & Ep & Hw & He & Hh); [done|lia|].
    rewrite E, Ep. assert (blen (pre ++ w) = blen pre + 4) as Hpw by (rewrite blen_app; unfold blen; lia).
    destruct (IH (off + 4) (pre ++ w) (tail ++ e)) as (cs & ext & E2 & Hcs & He2 & Hh2); [lia|rewrite !blen_app in *; lia|].
    rewrite <- !app_assoc in E2. rewrite <- app_assoc, E2. exists (w ++ cs), (e ++ ext). rewrite <- !app_assoc.
    split_and!; [done|rewrite length_app; cbn; lia|rewrite blen_app; lia|].
    intros b Hag. apply cells_hold_cons.
    + apply (Hh (cs ++ tail) ext b); [rewrite !length_app, cells_length; lia|by rewrite <- !app_assoc].
    + rewrite <- Hpw. apply Hh2, (agrees_weaken (length pre)); [by rewrite <- !app_assoc|rewrite length_app; lia].
Qed.

(** The vtable of a table. *)
Definition vtable (max_slot : nat) (fields : list (nat * FieldV)) : list Z :=
  le_bytes 2 (4 + 2 * (Z.of_nat max_slot + 1)) ++ le_bytes 2 (4 + 4 * Z.of_nat (length fields))
  ++ flat_map (λ s, le_bytes 2 (slot_offset fields (slots_from 4 (length fields)) s)) (seq 0 (S max_slot)).

Lemma pairs_length (g : nat → Z) n : ∀ k, length (flat_map (λ s, le_bytes 2 (g s)) (seq k n)) = (2 * n)%nat.
Proof. induction n as [|n IH]; intros k; [done|]. cbn [seq flat_map]. rewrite length_app, IH, le_bytes_length. lia. Qed.

Lemma vtable_length max_slot fields : length (vtable max_slot fields) = (4 + 2 * S max_slot)%nat.
Proof. unfold vtable. by rewrite !length_app, !le_bytes_length, pairs_length. Qed.

Lemma pairs_has buf (g : nat → Z) m : ∀ n k, has buf n (flat_map (λ s, le_bytes 2 (g s)) (seq k m)) →
  ∀ s, (s < m)%nat → has buf (n + 2 * s) (le_bytes 2 (g (k + s)%nat)).
Proof.
  induction m as [|m IH]; intros n k H s Hs; [lia|]. cbn [seq flat_map] in H. destruct s as [|s].
  - rewrite Nat.mul_0_r, !Nat.add_0_r. by apply has_app_l in H.
  - apply has_app_r in H. rewrite le_bytes_length in H. specialize (IH _ _ H s ltac:(lia)).
    replace (n + 2 * S s)%nat with (n + 2 + 2 * s)%nat by lia. by replace (k + S s)%nat with (S k + s)%nat by lia.
Qed.

Fixpoint node_size_nonneg (node : SpecNode) : 0 <= node_size node
with field_room_nonneg (f : FieldV) : 0 <= field_room f.
Proof.
  - destruct node as [s|items|items|m fields]; cbn [node_size].
    + unfold str_size. lia.
    + induction items as [|s items IH]; cbn [sum_map]; [lia|]. unfold str_size in *. lia.
    + induction items as [|n items IH]; cbn [sum_map]; [lia|]. pose proof (node_size_nonneg n). lia.
    + induction fields as [|[s f] fields IH]; cbn [sum_map]; [lia|]. pose proof (field_room_nonneg f). lia.
  - destruct f as [v|v|x y|child]; cbn [field_room]; [lia..|apply node_size_nonneg].
Qed.

Lemma table_size m fields :
  node_size (NTable m fields) = 18 + 2 * Z.of_nat m + 4 * Z.of_nat (length fields) + rooms fields.
Proof.
  cbn [node_size]. unfold rooms. induction fields as [|[s f] fields IH]; cbn [sum_map length]; [lia|]. lia.
Qed.

Lemma rooms_nonneg fields : 0 <= rooms fields.
Proof. apply sum_map_nonneg. intros [s f]. apply field_room_nonneg. Qed.

Lemma write_shell_spec max_slot fields buf : (max_slot < 1000)%nat → (length fields < 1000)%nat →
  blen buf + node_size (NTable max_slot fields) < 2 ^ 32 →
  ∃ pad pad2, let front := buf ++ pad ++ vtable max_slot fields ++ pad2 in
    (length pad ≤ 4)%nat ∧ (length pad2 ≤ 4)%nat ∧
    write_shell max_slot fields buf
    = (front ++ le_bytes 4 (blen (vtable max_slot fields ++ pad2)) ++ replicate (4 * length fields) 0, blen front).
Proof.
  intros Hm Hf Hb. unfold write_shell.
  destruct (layout_spec fields 1 4) as [Eo Ec]; [done|lia|lia|].
  destruct (layout fields 4) as [offs cursor]. cbn [fst snd] in *. subst offs. rewrite Ec.
  replace (as_u16 (4 * (1 + Z.of_nat (length fields)))) with (4 + 4 * Z.of_nat (length fields))
    by (unfold as_u16; rewrite Z.mod_small; lia).
  replace (as_u16 (4 + 2 * (Z.of_nat max_slot + 1))) with (4 + 2 * (Z.of_nat max_slot + 1))
    by (unfold as_u16; rewrite Z.mod_small; lia).
  destruct (align_pad buf) as (pad & -> & Hpad).
  change (le_bytes 2 (4 + 2 * (Z.of_nat max_slot + 1)) ++ _) with (vtable max_slot fields).
  destruct (align_pad ((buf ++ pad) ++ vtable max_slot fields)) as (pad2 & -> & Hpad2).
  pose proof (vtable_length max_slot fields) as Hv. pose proof (blen_nonneg buf) as Hbuf.
  pose proof (rooms_nonneg fields). rewrite table_size in Hb. exists pad, pad2. cbv zeta. split_and!; [done..|]. rewrite <- !app_assoc.
  set (front := buf ++ pad ++ vtable max_slot fields ++ pad2).
  assert (blen front = blen buf + blen pad + blen (vtable max_slot fields) + blen pad2) as Hfront
    by (subst front; rewrite !blen_app; lia).
  rewrite !pos_len by (unfold blen in *; rewrite ?length_app; lia).
  rewrite resize_ge by (unfold blen; lia).
  replace (Z.to_nat (blen front + (4 + 4 * Z.of_nat (length fields))) - length front)%nat
    with (4 + 4 * length fields)%nat by (unfold blen; lia).
  rewrite replicate_add, overwrite_app by (by rewrite le_bytes_length).
  replace (blen front - blen (buf ++ pad)) with (blen (vtable max_slot fields ++ pad2)) by (rewrite !blen_app; lia).
  subst front. by rewrite <- !app_assoc.
Qed.

(** Reading a slot of a table laid out so. *)
Lemma field_spec max_slot fields pre pad2 post b slot :
  (max_slot < 1000)%nat → (length fields < 1000)%nat → (length pad2 ≤ 4)%nat →
  agrees (length pre) ((pre ++ vtable max_slot fields ++ pad2)
                       ++ le_bytes 4 (blen (vtable max_slot fields ++ pad2)) ++ post) b →
  let tpos := blen (pre ++ vtable max_slot fields ++ pad2) in
  let off := slot_offset fields (slots_from 4 (length fields)) slot in
  (∀ s, 0 <= slot_offset fields (slots_from 4 (length fields)) s < 2 ^ 16) →
  field b tpos slot = if (slot <=? max_slot)%nat then if off =? 0 then None else Some (tpos + off) else None.
Proof.
  intros Hm Hf Hp2 Hag. cbv zeta. intros Hoff. pose proof (vtable_length max_slot fields) as Hv.
  assert (has b (length pre) (vtable max_slot fields)) as Hvt.
  { rewrite <- !app_assoc in Hag. by apply agrees_has in Hag. }
  apply agrees_has in Hag; [|rewrite length_app; lia].
  apply get_le in Hag; [|lia|unfold blen; rewrite length_app, Hv; change (256 ^ Z.of_nat 4) with (2 ^ 32); lia].
  unfold field. fold (blen (pre ++ vtable max_slot fields ++ pad2)) in Hag. rewrite Hag. cbn [mbind option_bind].
  replace (blen (pre ++ vtable max_slot fields ++ pad2) - blen (vtable max_slot fields ++ pad2)) with (blen pre)
    by (rewrite (blen_app pre); lia).
  unfold vtable in Hvt. pose proof (has_app_l _ _ _ _ Hvt) as Hlen. apply has_app_r, has_app_r in Hvt.
  apply get_le in Hlen; [|lia|change (256 ^ Z.of_nat 2) with (2 ^ 16); lia].
  fold (blen pre) in Hlen. rewrite Hlen. cbn [mbind option_bind].
  destruct (Nat.leb_spec slot max_slot) as [Hs|Hs].
  - rewrite (proj2 (Z.ltb_ge _ _)) by lia.
    pose proof (pairs_has _ _ _ _ _ Hvt slot ltac:(lia)) as Hslot. rewrite !le_bytes_length in Hslot.
    apply get_le in Hslot; [|lia|by apply Hoff].
    replace (blen pre + 4 + 2 * Z.of_nat slot) with (Z.of_nat (length pre + 2 + 2 + 2 * slot)) by (unfold blen; lia).
    by rewrite Hslot.
  - by rewrite (proj2 (Z.ltb_lt _ _)) by lia.
Qed.

Lemma slot_offset_range fields s : (length fields < 1000)%nat → NoDup fields.*1 →
  0 <= slot_offset fields (slots_from 4 (length fields)) s < 2 ^ 16.
Proof.
  intros Hf Hnd. destruct (decide (s ∈ fields.*1)) as [Hs|Hs].
  - apply list_elem_of_fmap in Hs as ([s' f] & -> & Hj). apply list_elem_of_lookup_1 in Hj as [j Hj].
    rewrite (slot_offset_found fields j _ f) by done. apply lookup_lt_Some in Hj. lia.
  - by rewrite slot_offset_missing.
Qed.

Lemma fields_hold_all (P : Z → FieldV → Prop) buf table fields :
  (∀ slot f, (slot, f) ∈ fields → ∃ at_, field buf table slot = Some at_ ∧ P at_ f) →
  fields_hold P buf table fields.
Proof.
  induction fields as [|[slot f] fields IH]; intros H; cbn; [done|]. split.
  - apply H. left.
  - apply IH. intros s g Hg. apply H. by right.
Qed.

Lemma write_table_ok max_slot fields :
  (max_slot < 1000)%nat → (length fields < 1000)%nat → NoDup fields.*1 →
  (∀ slot, slot ∈ fields.*1 → slot ≤ max_slot)%nat → Forall (λ '(_, f), ref_writes f) fields →
  writes write_node node_size holds (NTable max_slot fields).
Proof.
  intros Hm Hf Hnd Hs HF buf Hb. cbn [write_node].
  destruct (layout_spec fields 1 4) as [-> _]; [done|lia|lia|]. change (4 * 1) with 4.
  destruct (write_shell_spec max_slot fields buf Hm Hf Hb) as (pad & pad2 & Hpad & Hpad2 & E). rewrite E. clear E.
  set (front := buf ++ pad ++ vtable max_slot fields ++ pad2).
  set (w := le_bytes 4 (blen (vtable max_slot fields ++ pad2))).
  assert (blen w = 4) as Hw by (unfold blen; subst w; by rewrite le_bytes_length).
  rewrite table_size in *. pose proof (vtable_length max_slot fields) as Hv. pose proof (rooms_nonneg fields).
  assert (blen front = blen buf + blen pad + blen (vtable max_slot fields) + blen pad2) as Hfront
    by (subst front; rewrite !blen_app; lia).
  pose proof (write_scalars_spec (blen front) fields 4 (front ++ w) []) as Es. rewrite app_nil_r, <- app_assoc in Es.
  rewrite Es by (rewrite blen_app; lia). clear Es.
  assert (blen (cells fields) = 4 * Z.of_nat (length fields)) as Hcells by (unfold blen; rewrite cells_length; lia).
  destruct (write_refs_spec (blen front) fields node_size_nonneg HF 4 (front ++ w) []) as (cs & ext & E & Hcs & He & Hh);
    [rewrite blen_app; lia|rewrite !blen_app, Hcells; change (blen []) with 0; unfold blen in *; lia|].
  rewrite E. cbn [app] in *. subst front. exists (pad ++ vtable max_slot fields ++ pad2 ++ w ++ cs ++ ext), (blen (buf ++ pad ++ vtable max_slot fields ++ pad2)).
  split_and!; [by rewrite <- !app_assoc|rewrite !blen_app in *; unfold blen in *; lia..|].
  intros b Hag. cbn [holds].
  assert (∀ slot, let off := slot_offset fields (slots_from 4 (length fields)) slot in
    let tpos := blen (buf ++ pad ++ vtable max_slot fields ++ pad2) in
    field b tpos slot = if (slot <=? max_slot)%nat then if off =? 0 then None else Some (tpos + off) else None) as Hfield.
  { intros slot. rewrite (app_assoc buf pad). apply (field_spec max_slot fields (buf ++ pad) pad2 (cs ++ ext)); [done..| |].
    - apply (agrees_weaken (length buf)); [|rewrite length_app; lia]. fold w. by rewrite <- !app_assoc.
    - intros s. by apply slot_offset_range. }
  split.
  - intros slot Hno. rewrite Hfield, slot_offset_missing by done. by case_match.
  - apply fields_hold_all. intros slot f Hin. pose proof Hin as [j Hj]%list_elem_of_lookup_1.
    rewrite Hfield, (proj2 (Nat.leb_le slot max_slot)), (slot_offset_found fields j slot f)
      by (done || apply Hs; by apply (list_elem_of_fmap_2' fst fields (slot, f))).
    rewrite (proj2 (Z.eqb_neq _ _)) by lia. eexists. split; [done|].
    replace (blen (buf ++ pad ++ vtable max_slot fields ++ pad2) + (4 + 4 * Z.of_nat j))
      with (blen ((buf ++ pad ++ vtable max_slot fields ++ pad2) ++ w) + 4 * Z.of_nat j) by (rewrite (blen_app _ w); lia).
    eapply Hh; [|done]. apply (agrees_weaken (length buf)); [|rewrite !length_app; lia]. by rewrite <- !app_assoc in *.
Qed.

Fixpoint write_node_ok (node : SpecNode) : wf_node node → writes write_node node_size holds node
with write_field_ok (f : FieldV) : wf_field f → ref_writes f.
Proof.
  - destruct node as [s|items|items|m fields]; intros Hwf.
    + apply write_str_ok.
    + apply (write_vec_ok write_str str_size (λ b s p, read_str b p = Some s)); [unfold str_size; lia|].
      apply Forall_forall. intros s _. apply write_str_ok.
    + apply (write_vec_ok write_node node_size holds); [apply node_size_nonneg|].
      cbn [wf_node] in Hwf. induction items as [|n items IH]; [constructor|].
      destruct Hwf as [Hn Hwf]. constructor; [by apply write_node_ok|by apply IH].
    + destruct Hwf as (Hm & Hf & Hnd & Hs & Hwf). apply write_table_ok; [done..|]. clear -Hwf write_field_ok.
      induction fields as [|[s f] fields IH]; [constructor|].
      destruct Hwf as [Hf Hwf]. constructor; [by apply write_field_ok|by apply IH].
  - destruct f as [v|v|x y|child]; intros Hwf; [done..|]. by apply write_node_ok.
Qed.

(** ** Reading the document *)

Section table.
Context (b : Fb) (m : nat) (fields : list (nat * FieldV)) (p : Z).
Hypothesis Htable : holds b (NTable m fields) p.

Lemma table_field slot f : (slot, f) ∈ fields → ∃ at_, field b p slot = Some at_ ∧ field_holds b at_ f.
Proof.
  destruct Htable as [_ Hf]. clear Htable. induction fields as [|[s g] rest IH]; intros Hin; [by apply not_elem_of_nil in Hin|].
  destruct Hf as [Hg Hf]. apply elem_of_cons in Hin as [[= -> ->]|Hin]; [done|by apply IH].
Qed.

Lemma read_ref_there {A} (read : Fb → Z → option A) missing slot child v :
  (slot, FRef child) ∈ fields → (∀ q, holds b child q → read b q = Some v) →
  read_ref read missing b p slot = Some v.
Proof.
  intros (at_ & Ef & q & Eq & Hq)%table_field Hr. unfold read_ref. rewrite Ef. cbn. rewrite Eq. cbn. by apply Hr.
Qed.

Lemma read_ref_missing {A} (read : Fb → Z → option A) missing slot :
  slot ∉ fields.*1 → read_ref read missing b p slot = missing.
Proof. intros Hs. unfold read_ref. by rewrite (proj1 Htable). Qed.

Lemma scalar_u8 slot v : (slot, FU8 v) ∈ fields → scalar 1 b p slot = Some v.
Proof. intros (at_ & Ef & Hv)%table_field. unfold scalar. by rewrite Ef. Qed.

Lemma scalar_u16 slot v : (slot, FU16 v) ∈ fields → scalar 2 b p slot = Some v.
Proof. intros (at_ & Ef & Hv)%table_field. unfold scalar. by rewrite Ef. Qed.
End table.

Lemma read_items_spec {A B C} (H : Z → A → Prop) (node : C → A) (read : Fb → Z → option B) (val : C → B) xs b p :
  (∃ ps, read_vec b p = Some ps ∧ all2 H ps (node <$> xs)) →
  (∀ x q, H q (node x) → read b q = Some (val x)) → read_items read b p = Some (val <$> xs).
Proof.
  intros (ps & Eps & Hps) Hr. unfold read_items. rewrite Eps. cbn [mbind option_bind]. clear Eps.
  revert ps Hps. induction xs as [|x xs IH]; intros [|q ps] Hps; [done..|]. destruct Hps as [Hq Hps].
  cbn [mapM]. rewrite (Hr x q) by done. cbn [mbind option_bind]. by rewrite IH.
Qed.

Lemma read_strings b items q : holds b (NStrVec items) q → read_items read_str b q = Some items.
Proof.
  intros H. cbn [holds] in H. rewrite <- (list_fmap_id items) in H |- *.
  by apply (read_items_spec _ id read_str id items b q H).
Qed.

Lemma read_nodes {B C} (node : C → SpecNode) (read : Fb → Z → option B) (val : C → B) xs b p :
  holds b (NTabVec (node <$> xs)) p → (∀ x q, holds b (node x) q → read b q = Some (val x)) →
  read_items read b p = Some (val <$> xs).
Proof. intros H. exact (read_items_spec (λ q n, holds b n q) node read val xs b p H). Qed.

Lemma read_single {B} n (read : Fb → Z → option B) v b p :
  holds b (NTabVec [n]) p → (∀ q, holds b n q → read b q = Some v) → read_items read b p = Some [v].
Proof. intros H Hr. apply (read_nodes (λ _, n) read (λ _, v) [()] b p H). by intros _. Qed.

(** The rule an address is encoded as. *)
Definition endpoint_of (addr : string) : EndpointRule := mkEndpoint [(addr, 32)] [(1, 1, 65535)].

(** Closes membership of a given field in a list of fields. *)
Ltac slot_in := repeat first [left | right].

(** Reads a reference field of a table known to hold. *)
Ltac read_slot H v :=
  match goal with |- context [read_ref ?r ?miss ?b ?p ?s] =>
    let E := fresh in
    assert (read_ref r miss b p s = Some v) as E;
    [eapply (read_ref_there _ _ _ _ H); [slot_in|]; cbv beta | rewrite E; clear E; cbn [mbind option_bind]]
  end.

Lemma read_rule_spec b addr p : holds b (rule_node addr) p → read_rule b p = Some (endpoint_of addr).
Proof.
  intros Hr. unfold read_rule. read_slot Hr [(addr, 32)].
  { intros q Hq. eapply read_single; [exact Hq|]. intros q' Hn.
    read_slot Hn (addr, 32); [|done]. intros s Hs. unfold read_subnet. read_slot Hs addr; [by intros|].
    by rewrite (scalar_u8 _ _ _ _ Hs 1 32) by slot_in. }
  read_slot Hr [(1, 1, 65535)]; [|done].
  intros q Hq. eapply read_single; [exact Hq|]. intros q' Hn. unfold read_port.
  by rewrite (scalar_u8 _ _ _ _ Hn 0 1), (scalar_u16 _ _ _ _ Hn 1 1), (scalar_u16 _ _ _ _ Hn 2 65535) by slot_in.
Qed.

Lemma read_egress_spec b allow p : holds b (net_policy_node allow) p →
  read_ref read_egress None b p 1 = Some (0, endpoint_of <$> allow).
Proof.
  intros Hn. read_slot Hn (0, endpoint_of <$> allow); [|done]. intros q Hq.
  unfold read_egress. rewrite (scalar_u8 _ _ _ _ Hq 0 0) by slot_in. cbn [mbind option_bind].
  destruct allow as [|a allow].
  - by rewrite (read_ref_missing _ _ _ _ Hq) by (cbn; set_solver).
  - read_slot Hq (endpoint_of <$> a :: allow); [|done]. intros r Hr.
    apply (read_nodes rule_node read_rule endpoint_of (a :: allow) _ _ Hr).
    intros x s. apply read_rule_spec.
Qed.

(** The lists of the document: present exactly when they are not empty. *)
Lemma read_list b m fields p slot paths :
  holds b (NTable m fields) p → list_field slot paths ⊆ fields → (paths = [] → slot ∉ fields.*1) →
  read_ref (read_items read_str) (Some []) b p slot = Some paths.
Proof.
  intros Ht Hin Hmiss. destruct paths as [|x paths]; [by rewrite (read_ref_missing _ _ _ _ Ht) by auto|].
  eapply (read_ref_there _ _ _ _ Ht); [apply Hin; left|]. apply read_strings.
Qed.

(** The slots of a table whose fields are written down. *)
Definition slots_ok (m : nat) (slots : list nat) : bool :=
  (m <? 1000)%nat && (length slots <? 1000)%nat && bool_decide (NoDup slots) && forallb (λ s, s <=? m)%nat slots.

Lemma wf_table m fields : slots_ok m fields.*1 = true → Forall wf_field fields.*2 → wf_node (NTable m fields).
Proof.
  unfold slots_ok. rewrite !andb_true_iff. intros [[[Hm Hl] Hnd] Hs] Hf. apply Nat.ltb_lt in Hm, Hl.
  rewrite length_fmap in Hl. apply bool_decide_eq_true in Hnd.
  split_and!; [done..| |].
  - intros slot Hin. rewrite forallb_forall in Hs. apply Nat.leb_le, Hs, list_elem_of_In, Hin.
  - clear -Hf. induction fields as [|[s f] fields IH]; cbn in *; [done|]. apply Forall_cons in Hf as [? ?]. by split; [|apply IH].
Qed.

Lemma wf_ref n : wf_node n → wf_field (FRef n).
Proof. exact id. Qed.

(** Leaves the children of the reference fields. *)
Ltac wf_fields :=
  apply wf_table;
  [reflexivity
  |cbn [fmap list_fmap snd app]; repeat (apply Forall_cons; split); try apply Forall_nil;
   first [apply wf_ref | cbn; lia]].

Lemma wf_single n : wf_node n → wf_node (NTabVec [n]).
Proof. intros H. exact (conj H I). Qed.

Lemma wf_rule addr : wf_node (rule_node addr).
Proof.
  unfold rule_node. wf_fields; apply wf_single.
  - wf_fields. wf_fields. exact I.
  - wf_fields.
Qed.

Lemma wf_rules allow : wf_node (NTabVec (rule_node <$> allow)).
Proof. induction allow as [|a allow IH]; [exact I|]. exact (conj (wf_rule a) IH). Qed.

Lemma wf_net allow : wf_node (net_policy_node allow).
Proof.
  unfold net_policy_node. wf_fields. pose proof (wf_rules allow) as Hr.
  destruct allow as [|a allow]; wf_fields. exact Hr.
Qed.

Lemma wf_root ro rw deny allow : wf_node (spec_root ro rw deny allow).
Proof.
  pose proof (wf_net allow) as Hn. unfold spec_root.
  destruct rw as [|? ?], ro as [|? ?], deny as [|? ?]; wf_fields; first [exact Hn | exact I].
Qed.

Lemma encode_read ro rw deny allow : 8 + node_size (spec_root ro rw deny allow) < 2 ^ 32 →
  read_spec (encode_spec ro rw deny allow) = Some (mkDoc (1, 0) rw ro deny 0 (endpoint_of <$> allow)).
Proof.
  intros Hb. unfold encode_spec.
  destruct (write_node_ok _ (wf_root ro rw deny allow) Fb_new Hb) as (ext & p & -> & He & Hp & Hh).
  unfold Fb_new in *. rewrite <- app_assoc in *.
  unfold patch_u32. pose proof (overwrite_app [] (le_bytes 4 0) (text_bytes "PSEC" ++ ext) (le_bytes 4 p) eq_refl) as Ep.
  rewrite !app_nil_l in Ep. change (blen []) with 0 in Ep. rewrite Ep. clear Ep.
  set (b := le_bytes 4 p ++ text_bytes "PSEC" ++ ext).
  assert (holds b (spec_root ro rw deny allow) p) as Hr.
  { apply Hh. intros i Hi. subst b. rewrite !length_app, !le_bytes_length in Hi.
    by rewrite !(lookup_app_r (le_bytes 4 _)) by (rewrite le_bytes_length; lia). }
  assert (get 4 b 0 = Some p) as Hroot.
  { apply (get_le 4 p b 0); [|lia|].
    - by intros i x Hx; apply lookup_app_l_Some.
    - change (256 ^ Z.of_nat 4) with (2 ^ 32). change (blen (le_bytes 4 0 ++ text_bytes "PSEC")) with 8 in Hp. lia. }
  unfold read_spec. rewrite bool_decide_eq_true_2 by done. cbn [negb]. rewrite Hroot. cbn [mbind option_bind].
  destruct (table_field _ _ _ _ Hr 0 (FVer 1 0) ltac:(left)) as (v & -> & Hmaj & Hmin).
  cbn [mbind option_bind]. rewrite Hmaj. cbn [mbind option_bind]. rewrite Hmin. cbn [mbind option_bind].
  rewrite (read_list _ _ _ _ 4 rw Hr), (read_list _ _ _ _ 5 ro Hr), (read_list _ _ _ _ 6 deny Hr);
    [|destruct rw, ro, deny; cbn; set_solver..].
  cbn [mbind option_bind].
  assert ((7%nat, FRef (net_policy_node allow)) ∈
          (0%nat, FVer 1 0) :: list_field 4 rw ++ list_field 5 ro ++ list_field 6 deny
          ++ [(7%nat, FRef (net_policy_node allow))]) as H7 by set_solver.
  rewrite (read_ref_there _ _ _ _ Hr _ _ 7 _ (0, endpoint_of <$> allow) H7); [done|].
  intros q. apply read_egress_spec.
Qed.

(** * What a validated policy is encoded as *)

(** The checks of an egress policy that passed, pinned or not. *)
Record expressible (o : OutboundPolicy) : Prop := {
  ex_ported_hosts : ported_hosts o = [];
  ex_ported_cidrs : ported_cidrs o = [];
  ex_rules : ∀ r, r ∈ egress_rules o → eg_allow r = true → eg_proto r = Tcp ∧ eg_port r = None;
  ex_hosts : ∀ h, h ∈ allowed o → psec_ipv4_expressible h = true;
  ex_cidrs : ∀ c, c ∈ allowed_cidrs o → psec_cidr_expressible c = true;
  ex_overlap : overlapped o = []
}.

Lemma psec_egress_expressible o : validate_psec_egress o = Ok () → expressible o.
Proof.
  intros Hv. unfold validate_psec_egress in Hv. ok_steps. rewrite !refuse_entries_ok in *.
  split; [done|done| | | |done].
  - intros r Hr Ha.
    match goal with H : describe <$> _ = [] |- _ => apply fmap_nil_inv in H;
      apply (filter_nil_all _ _ _ H) in Hr end.
    unfold rule_is_qualified in Hr. rewrite Ha in Hr. cbn [andb] in Hr.
    apply orb_false_iff in Hr as [Hport Hproto]. apply negb_false_iff, bool_decide_eq_true in Hproto.
    apply bool_decide_eq_false in Hport. by rewrite <- eq_None_not_Some in Hport.
  - intros h Hh. eapply filter_nil_all in Hh; [|eassumption]. by apply negb_false_iff.
  - intros c Hc. eapply filter_nil_all in Hc; [|eassumption]. by apply negb_false_iff.
Qed.

Lemma filter_empty {A} (f : A → bool) l : (∀ x, x ∈ l → f x = false) → List.filter f l = [].
Proof.
  induction l as [|x l IH]; intros H; [done|]. cbn. rewrite (H x) by left. apply IH. intros y Hy. apply H. by right.
Qed.

Lemma unpinned_expressible o : pins_destinations o = false → deny_all_others o = true → expressible o.
Proof.
  unfold pins_destinations. intros Hp Hd. rewrite Hd in Hp. cbn [andb] in Hp.
  apply orb_false_iff in Hp as [[Ha Hc]%orb_false_iff Hr]. rewrite existsb_false in Hr.
  assert (allowed o = []) as Ea by (by destruct (allowed o)).
  assert (allowed_cidrs o = []) as Ec by (by destruct (allowed_cidrs o)).
  split; unfold ported_hosts, ported_cidrs, overlapped, declared_routes; rewrite ?Ea, ?Ec; try set_solver.
  - by apply filter_empty.
  - apply filter_empty. intros raw _. by destruct (analyze_policy_cidr raw) as [[[]]|].
  - intros r Hin Hal. by rewrite (Hr r Hin) in Hal.
Qed.

Lemma no_bad_paths field paths path : bad_paths field paths = [] → path ∈ paths →
  psec_fs_path_expressible path = Ok ().
Proof.
  intros Hb Hp. destruct (psec_fs_path_expressible path) as [[]|reason] eqn:E; [done|exfalso].
  apply (not_elem_of_nil (field, path, reason)). rewrite <- Hb. apply list_elem_of_omap. exists path. by rewrite E.
Qed.

Section launched.
Context `{SchemaLib} (p : PolicyDocument) (t : ExecutionTarget).
Hypothesis Hvalid : validate_policy_for_target p t = Ok ().
Hypothesis Hpsec : is_psec t = true.

Lemma psec_is_windows : workload_os t = Windows.
Proof.
  unfold is_psec, effective_windows_mechanism in Hpsec. apply bool_decide_eq_true in Hpsec.
  destruct (bool_decide (workload_os t = Windows)) eqn:E; [by apply bool_decide_eq_true in E|].
  by rewrite orb_true_r in Hpsec.
Qed.

(** What the expressibility check leaves. *)
Lemma psec_checks :
  env_allowed (d_environment p) = [] ∧ deny_all_others (d_outbound p) = true ∧ d_allow_listen p = false ∧
  tc_type (d_transport p) = Stdio ∧
  ∀ path, path ∈ g_read_only (d_fs p) ++ g_read_write (d_fs p) ++ g_executable (d_fs p) ++ g_denied_paths (d_fs p) →
    psec_fs_path_expressible path = Ok ().
Proof.
  pose proof (launch_checks p t Hvalid) as (_ & (_ & Hex & _) & _).
  unfold validate_psec_expressibility in Hex. rewrite Hpsec in Hex. cbn [negb] in Hex. ok_steps.
  rewrite ?refuse_entries_ok, ?refused_when_ok in *. split_and!.
  - done.
  - by apply negb_false_iff.
  - done.
  - by destruct (tc_type (d_transport p)).
  - apply app_eq_nil in Hex as [Hro [Hrw [Hx Hd]%app_eq_nil]%app_eq_nil]. intros path.
    rewrite !elem_of_app. intros [Hp|[Hp|[Hp|Hp]]]; by (eapply no_bad_paths; [|exact Hp]).
Qed.

Lemma psec_expressible : expressible (d_outbound p).
Proof.
  pose proof (launch_checks p t Hvalid) as (_ & (Hnet & _) & _).
  destruct (pins_destinations (d_outbound p)) eqn:Hpin.
  - apply psec_egress_expressible. by apply (windows_pins_need_psec p t Hnet psec_is_windows).
  - apply unpinned_expressible; [done|]. by destruct psec_checks as (_ & ? & _).
Qed.
End launched.

(** ** The plan of an expressible policy *)

Definition lists (d : Draft) : list PsecProblem * list string * list string * list string * list string :=
  (df_problems d, df_rules d, df_ro d, df_rw d, df_deny d).

(** A fold whose steps only record grants. *)
Lemma foldl_lists {A} (f : Draft → A → Draft) xs : ∀ d,
  (∀ d x, x ∈ xs → lists (f d x) = lists d) → lists (foldl f d xs) = lists d.
Proof.
  induction xs as [|x xs IH]; intros d H; [done|]. cbn [foldl]. rewrite IH; [apply H; left|].
  intros e y Hy. apply H. by right.
Qed.

Definition with_rules (rules : list string) (d : Draft) :=
  (df_problems d, rules, df_ro d, df_rw d, df_deny d).

Lemma lists_step rules rules' d e : lists e = with_rules rules d →
  df_rules e = rules ∧ with_rules rules' e = with_rules rules' d.
Proof. unfold lists, with_rules. intros [=]. split; congruence. Qed.

(** The rules of single-address ranges. *)
Definition route_rule (c : string) : option string :=
  match parse_policy_cidr c with
  | Some (V4 a, 32) => Some (show_ip (V4 a))
  | _ => None
  end.

Section plan.
Variable o : OutboundPolicy.
Hypothesis Hex : expressible o.

Lemma plan_ported_host_id d raw : raw ∈ allowed_port_qualified o → lists (plan_ported_host o d raw) = lists d.
Proof.
  intros Hr. unfold plan_ported_host. by rewrite (filter_nil_all _ _ _ (ex_ported_hosts o Hex) Hr).
Qed.

Lemma plan_ported_cidr_id d raw : raw ∈ allowed_cidrs_port_qualified o → lists (plan_ported_cidr o d raw) = lists d.
Proof.
  intros Hr. unfold plan_ported_cidr. by rewrite (filter_nil_all _ _ _ (ex_ported_cidrs o Hex) Hr).
Qed.

Lemma plan_rule_id d r : r ∈ egress_rules o → lists (plan_rule o d r) = lists d.
Proof.
  intros Hr. unfold plan_rule. destruct (eg_allow r) eqn:Ha; [|done].
  destruct (ex_rules o Hex r Hr Ha) as [-> ->]. done.
Qed.

Lemma plan_overlap_id d c : c ∈ declared_routes o → lists (plan_overlap o d c) = lists d.
Proof. intros Hc. unfold plan_overlap. by rewrite (filter_nil_all _ _ _ (ex_overlap o Hex) Hc). Qed.

Lemma plan_hosts hosts : ∀ d, hosts ⊆ allowed o →
  lists (foldl (plan_host o) d hosts) = with_rules (df_rules d ++ hosts) d.
Proof.
  induction hosts as [|h hosts IH]; intros d Hin; cbn [foldl]; [by rewrite app_nil_r|].
  assert (h ∈ allowed o) as Hh by (apply Hin; left).
  assert (plan_host o d h = push_grant (GRule "net_destination" h) FromPolicy Planned (add_rule h d)) as ->.
  { unfold plan_host. rewrite (ex_hosts o Hex h Hh).
    rewrite (proj2 (existsb_false _ _)); [done|]. intros raw Hr. apply not_true_iff_false. intros E%String.eqb_eq.
    pose proof (filter_nil_all _ _ _ (ex_ported_hosts o Hex) Hr) as Hn. apply bool_decide_eq_false in Hn. by rewrite E in Hn. }
  rewrite IH by set_solver. unfold with_rules. cbn. by rewrite <- app_assoc.
Qed.

Lemma plan_cidrs cs : ∀ d, cs ⊆ allowed_cidrs o →
  lists (foldl (plan_cidr o) d cs) = with_rules (push_missing (df_rules d) (omap route_rule cs)) d.
Proof.
  induction cs as [|c cs IH]; intros d Hin; cbn [foldl]; [done|].
  assert (c ∈ allowed_cidrs o) as Hc by (apply Hin; left).
  assert (existsb (names_cidr c) (allowed_cidrs_port_qualified o) = false) as Hn.
  { apply existsb_false. intros raw Hr. pose proof (filter_nil_all _ _ _ (ex_ported_cidrs o Hex) Hr) as Hn. cbn in Hn.
    unfold names_cidr. destruct (analyze_policy_cidr raw) as [[[c' ?] ?]|]; [|done].
    apply bool_decide_eq_false in Hn. apply String.eqb_neq. by intros ->. }
  pose proof (ex_cidrs o Hex c Hc) as Hx. unfold psec_cidr_expressible in Hx.
  destruct (parse_policy_cidr c) as [[[a|a] q]|] eqn:E; [|done..]. apply Z.eqb_eq in Hx as ->.
  assert (route_rule c = Some (show_ip (V4 a))) as Er by (unfold route_rule; by rewrite E).
  cbn [omap list_omap]. rewrite Er. rewrite IH by set_solver.
  unfold plan_cidr. rewrite Hn, E. unfold with_rules, push_missing. cbn [foldl]. by case_bool_decide.
Qed.

Lemma plan_egress_lists d : deny_all_others o = true → df_rules d = [] →
  lists (plan_egress o d) = with_rules (push_missing (allowed o) (omap route_rule (allowed_cidrs o))) d.
Proof.
  intros Hd Hr. unfold plan_egress. rewrite Hd. cbn [negb].
  rewrite (foldl_lists (plan_overlap o)) by (intros; by apply plan_overlap_id).
  rewrite (foldl_lists plan_deny) by done. rewrite plan_cidrs by done.
  set (d1 := foldl (plan_ported_host o) d _). set (d2 := foldl (plan_host o) d1 _).
  set (d4 := foldl (plan_rule o) _ _).
  assert (lists d1 = with_rules [] d) as E1.
  { subst d1. rewrite foldl_lists by (intros; by apply plan_ported_host_id). unfold lists. by rewrite Hr. }
  assert (lists d4 = with_rules (allowed o) d) as E4.
  { subst d4. rewrite (foldl_lists (plan_rule o)) by (intros; by apply plan_rule_id).
    rewrite (foldl_lists (plan_ported_cidr o)) by (intros; by apply plan_ported_cidr_id).
    subst d2. rewrite plan_hosts by done. by destruct (lists_step _ (df_rules d1 ++ allowed o) _ _ E1) as [-> ->]. }
  by destruct (lists_step _ (push_missing (df_rules d4) (omap route_rule (allowed_cidrs o))) _ _ E4) as [-> ->].
Qed.
End plan.

(** ** Files *)

Section files.
Context `{LaunchHost}.

(** The launch image and its directory. *)
Definition image_paths (exe : option string) : list string :=
  match exe with
  | Some exe =>
      if is_file exe
      then exe :: match path_parent exe with Some d => if is_dir d then [d] else [] | None => [] end
      else []
  | None => []
  end.

Definition bucket (b : Bucket) (d : Draft) : list string :=
  match b with Ro => df_ro d | Rw => df_rw d | Dn => df_deny d end.

Definition existing (paths : list string) : list string := List.filter path_exists paths.

Lemma plan_path_list subject b paths : ∀ d,
  (∀ path, path ∈ paths → psec_fs_path_expressible path = Ok ()) →
  let d' := foldl (plan_path subject b) d paths in
  df_problems d' = df_problems d ∧ df_rules d' = df_rules d ∧
  ∀ b', bucket b' d' = bucket b' d ++ match b, b' with
                                       | Ro, Ro | Rw, Rw | Dn, Dn => existing paths
                                       | _, _ => []
                                       end.
Proof.
  induction paths as [|x paths IH]; intros d Hok; cbn [foldl].
  - split_and!; [done..|]. intros b'. by destruct b, b'; rewrite app_nil_r.
  - destruct (IH (plan_path subject b d x)) as (-> & -> & Hb); [intros y Hy; apply Hok; by right|].
    assert (psec_fs_path_expressible x = Ok ()) as E by (apply Hok; left).
    unfold plan_path in *. rewrite E in *. unfold existing in *. cbn [List.filter].
    destruct (path_exists x); (split_and!; [done..|]); intros b'; rewrite Hb;
      destruct b, b'; cbn; by rewrite ?app_nil_r, <- ?app_assoc.
Qed.

Lemma plan_paths_lists fs d :
  (∀ path, path ∈ g_read_only fs ++ g_read_write fs ++ g_executable fs ++ g_denied_paths fs →
     psec_fs_path_expressible path = Ok ()) →
  lists (plan_paths fs d)
  = (df_problems d, df_rules d, df_ro d ++ existing (g_read_only fs) ++ existing (g_executable fs),
     df_rw d ++ existing (g_read_write fs), df_deny d ++ existing (g_denied_paths fs)).
Proof.
  intros Hok. unfold plan_paths, lists.
  set (d1 := foldl _ d _). set (d2 := foldl _ d1 _). set (d3 := foldl _ d2 _). set (d4 := foldl _ d3 _).
  destruct (plan_path_list (λ p, GFsPath p AccRead) Ro (g_read_only fs) d) as (P1 & R1 & B1); [set_solver|].
  destruct (plan_path_list (λ p, GFsPath p AccReadWrite) Rw (g_read_write fs) d1) as (P2 & R2 & B2); [set_solver|].
  destruct (plan_path_list (λ p, GFsPath p AccExecute) Ro (g_executable fs) d2) as (P3 & R3 & B3); [set_solver|].
  destruct (plan_path_list (GRule "fs_deny") Dn (g_denied_paths fs) d3) as (P4 & R4 & B4); [set_solver|].
  fold d1 in P1, R1, B1. fold d2 in P2, R2, B2. fold d3 in P3, R3, B3. fold d4 in P4, R4, B4.
  rewrite P4, P3, P2, P1, R4, R3, R2, R1.
  pose proof (B4 Ro) as E1. rewrite (B3 Ro), (B2 Ro), (B1 Ro) in E1.
  pose proof (B4 Rw) as E2. rewrite (B3 Rw), (B2 Rw), (B1 Rw) in E2.
  pose proof (B4 Dn) as E3. rewrite (B3 Dn), (B2 Dn), (B1 Dn) in E3.
  cbn [bucket] in *. rewrite !app_nil_r, <- ?app_assoc in *. by rewrite E1, E2, E3.
Qed.

Lemma plan_image_lists exe command d :
  lists (plan_image exe command d)
  = (df_problems d, df_rules d, df_ro d ++ image_paths exe, df_rw d, df_deny d).
Proof.
  unfold plan_image, image_paths, lists. destruct exe as [e|]; [|cbn; by rewrite app_nil_r].
  destruct (is_file e); [|cbn; by rewrite app_nil_r]. destruct (path_parent e) as [q|]; [|done].
  destruct (is_dir q); [|done]. cbn. by rewrite <- app_assoc.
Qed.

(** The lists a validated policy is drafted to. *)
Lemma draft_lists `{SchemaLib} p t exe command opts :
  validate_policy_for_target p t = Ok () → is_psec t = true →
  so_allowed_names opts = env_allowed (d_environment p) → so_tmpdir opts = None →
  lists (draft_launch p exe command opts)
  = ([], push_missing (allowed (d_outbound p)) (omap route_rule (allowed_cidrs (d_outbound p))),
     existing (g_read_only (d_fs p)) ++ existing (g_executable (d_fs p)) ++ image_paths exe,
     existing (g_read_write (d_fs p)), existing (g_denied_paths (d_fs p))).
Proof.
  intros Hv Hp Hn Ht. destruct (psec_checks p t Hv Hp) as (He & Hd & Hl & Hs & Hpaths).
  unfold draft_launch. rewrite plan_image_lists.
  pose proof (plan_paths_lists (d_fs p)
    (plan_inbound p (plan_egress (d_outbound p) (plan_environment opts no_draft))) Hpaths) as [= -> -> -> -> ->].
  unfold plan_inbound. rewrite Hl, Hs.
  assert (plan_environment opts no_draft = no_draft) as -> by (unfold plan_environment; by rewrite Hn, He, Ht).
  pose proof (plan_egress_lists (d_outbound p) (psec_expressible p t Hv Hp) no_draft Hd eq_refl) as [= -> -> -> -> ->].
  cbn. by rewrite <- app_assoc.
Qed.
End files.

(** ** The rules admit what the lists allow *)

Definition endpoint_admits (r : EndpointRule) (x : IpAddr) : Prop :=
  ∃ addr prefix net, (addr, prefix) ∈ er_destinations r ∧ parse_ip addr = Some net ∧ masked_eq net x prefix = true.

Lemma ipv4_expressible_parses h : psec_ipv4_expressible h = true → ∃ a, parse_ip h = Some (V4 a).
Proof.
  unfold psec_ipv4_expressible, parse_ip, parse_with, read_ip_addr.
  rewrite bool_decide_eq_true. intros [a Ha]. destruct (read_ipv4_addr h) as [[b [|]]|]; [|done..].
  by exists b.
Qed.

Lemma route_rule_spec o c r : expressible o → c ∈ allowed_cidrs o → route_rule c = Some r →
  ∃ a, parse_policy_cidr c = Some (V4 a, 32) ∧ r = show_ip (V4 a) ∧ parse_ip r = Some (V4 a).
Proof.
  intros Hex Hc Hr. pose proof (ex_cidrs o Hex c Hc) as Hx. unfold psec_cidr_expressible, route_rule in *.
  destruct (parse_policy_cidr c) as [[[a|a] q]|] eqn:E; [|done..]. apply Z.eqb_eq in Hx as ->.
  injection Hr as <-. exists a. split_and!; [done..|]. apply (parse_show_ip (V4 a)). by eapply parse_policy_cidr_wf.
Qed.

(** Every rule is an IPv4 address. *)
Lemma rules_are_v4 o addr : expressible o →
  addr ∈ push_missing (allowed o) (omap route_rule (allowed_cidrs o)) → ∃ a, parse_ip addr = Some (V4 a).
Proof.
  intros Hex. rewrite elem_of_push_missing, list_elem_of_omap. intros [Ha|(c & Hc & Hr)].
  - apply ipv4_expressible_parses. by apply (ex_hosts o Hex).
  - destruct (route_rule_spec o c addr Hex Hc Hr) as (a & _ & _ & ?). by exists a.
Qed.

Lemma single_address a x : wf_ip (V4 a) → wf_ip x → masked_eq (V4 a) x 32 = true ↔ x = V4 a.
Proof.
  intros Wa Wx. rewrite <- (ip_literal_route (V4 a) x Wa Wx). unfold cidr_contains, ip_literal_cidr.
  rewrite (parse_show_cidr (V4 a) (max_prefix (V4 a))); [done|done|]. change (0 <= 32 <= 32). lia.
Qed.

Lemma endpoint_admits_address addr a x : parse_ip addr = Some (V4 a) → wf_ip x →
  endpoint_admits (endpoint_of addr) x ↔ x = V4 a.
Proof.
  intros Ha Wx. rewrite <- single_address by (done || by eapply parse_ip_wf). unfold endpoint_admits, endpoint_of. cbn. split.
  - intros (addr' & prefix & net & [= -> ->]%list_elem_of_singleton & En & Hm). by rewrite Ha in En; injection En as <-.
  - intros Hm. exists addr, 32, (V4 a). split_and!; [left|done|done].
Qed.

Lemma rules_admit_allows o x : expressible o → wf_ip x →
  (∃ addr, addr ∈ push_missing (allowed o) (omap route_rule (allowed_cidrs o)) ∧
           endpoint_admits (endpoint_of addr) x) ↔ declared_ip_allow o x.
Proof.
  intros Hex Wx. split.
  - intros (addr & Hin & Hadm). destruct (rules_are_v4 o addr Hex Hin) as [a Ha].
    apply (endpoint_admits_address addr a x Ha Wx) in Hadm as ->.
    apply elem_of_push_missing in Hin as [Hin|(c & Hc & Hr)%list_elem_of_omap]; [right; by exists addr|left].
    exists c. split; [done|]. destruct (route_rule_spec o c addr Hex Hc Hr) as (a' & Ec & -> & Ep).
    rewrite Ha in Ep. injection Ep as <-. unfold cidr_contains. rewrite Ec. by apply single_address.
  - intros [(c & Hc & Hx)|(h & Hh & Hx)].
    + pose proof (ex_cidrs o Hex c Hc) as Hs. unfold psec_cidr_expressible, cidr_contains in *.
      destruct (parse_policy_cidr c) as [[[a|a] q]|] eqn:E; [|done..]. apply Z.eqb_eq in Hs as ->.
      destruct (parse_policy_cidr_wf _ _ _ E) as [Wa _]. apply single_address in Hx as ->; [|done..].
      exists (show_ip (V4 a)). split.
      * apply elem_of_push_missing. right. apply list_elem_of_omap. exists c. unfold route_rule. by rewrite E.
      * apply (endpoint_admits_address _ a); [by apply (parse_show_ip (V4 a))|done|done].
    + exists h. split; [apply elem_of_push_missing; by left|].
      destruct (ipv4_expressible_parses h (ex_hosts o Hex h Hh)) as [a Ha]. rewrite Ha in Hx. injection Hx as <-.
      by apply (endpoint_admits_address h a).
Qed.

(** An address that the lists allow is denied by none of the deny lists. *)
Lemma expressible_allow_not_denied o x : expressible o → wf_ip x →
  declared_ip_allow o x → ¬ declared_ip_deny o x.
Proof.
  intros Hex Wx Ha Hd. apply (ip_layer_denies_mean o x Wx) in Hd as (d & Hd & Hdx).
  assert (in_any (declared_routes o) x) as (c & Hc & Hx).
  { unfold declared_routes. rewrite in_any_app. unfold in_any at 1. rewrite literal_routes_contain by done.
    unfold in_any. unfold declared_ip_allow in Ha. naive_solver. }
  apply (filter_nil_all _ _ _ (ex_overlap o Hex)) in Hc. apply not_true_iff_false in Hc. apply Hc, existsb_true_iff.
  exists d. split; [done|]. apply cidr_intersects_iff_overlap; [| |by exists x];
    unfold cidr_contains in *; by repeat case_match.
Qed.

(** [C18] A policy that passes validation for a launch under the Windows
    process security environment loses nothing in the encoding. When the launch
    passes the policy's environment names and no temporary directory, and the
    document takes less than 4 GiB, the policy is encoded and not refused, and
    following the offsets of the document reads back version 1.0, the policy's
    existing paths (with the launch image), a default action of deny and rules
    each of a single IPv4 address, TCP, ports 1 to 65535. No rule of the policy
    asked for less than that, and the rules admit exactly the addresses that
    the lists of literals and ranges allow and no deny literal or range takes
    away. *)
Theorem psec_pins_authority `{SchemaLib} `{LaunchHost} p t exe command opts :
  validate_policy_for_target p t = Ok () → is_psec t = true →
  so_allowed_names opts = env_allowed (d_environment p) → so_tmpdir opts = None →
  (let d := draft_launch p exe command opts in
   8 + node_size (spec_root (df_ro d) (df_rw d) (df_deny d) (df_rules d)) < 2 ^ 32) →
  ∃ build doc,
    build_launch_spec p exe command opts = Ok build ∧ read_spec (pb_spec build) = Some doc ∧
    sd_version doc = (1, 0) ∧
    sd_read_only doc = existing (g_read_only (d_fs p)) ++ existing (g_executable (d_fs p)) ++ image_paths exe ∧
    sd_read_write doc = existing (g_read_write (d_fs p)) ∧ sd_deny doc = existing (g_denied_paths (d_fs p)) ∧
    deny_all_others (d_outbound p) = true ∧ sd_default_action doc = 0 ∧
    (∀ r, r ∈ sd_allow doc → ∃ addr a,
       r = mkEndpoint [(addr, 32)] [(1, 1, 65535)] ∧ parse_ip addr = Some (V4 a)) ∧
    (∀ r, r ∈ egress_rules (d_outbound p) → eg_allow r = true → eg_proto r = Tcp ∧ eg_port r = None) ∧
    (∀ x, wf_ip x → (∃ r, r ∈ sd_allow doc ∧ endpoint_admits r x) ↔
       declared_ip_allow (d_outbound p) x ∧ ¬ declared_ip_deny (d_outbound p) x).
Proof.
  intros Hv Hp Hn Ht Hsize. pose proof (draft_lists p t exe command opts Hv Hp Hn Ht) as [= Epb Eru Ero Erw Edn].
  pose proof (psec_expressible p t Hv Hp) as Hex. destruct (psec_checks p t Hv Hp) as (_ & Hd & _).
  cbv zeta in Hsize. rewrite Eru, Ero, Erw, Edn in Hsize.
  unfold build_launch_spec. rewrite Epb, Eru, Ero, Erw, Edn. cbn [nonempty].
  do 2 eexists. split; [reflexivity|]. cbn [pb_spec]. rewrite (encode_read _ _ _ _ Hsize).
  split; [reflexivity|]. cbn. split_and!; [done..| | |].
  - intros r (addr & -> & Hin)%list_elem_of_fmap. destruct (rules_are_v4 _ _ Hex Hin) as [a Ha]. by exists addr, a.
  - apply (ex_rules _ Hex).
  - intros x Wx. pose proof (rules_admit_allows _ x Hex Wx) as Hall. split.
    + intros (r & (addr & -> & Hin)%list_elem_of_fmap & Hadm).
      assert (declared_ip_allow (d_outbound p) x) as Ha by (apply Hall; by exists addr).
      split; [done|by apply expressible_allow_not_denied].
    + intros [(addr & Hin & Hadm)%Hall _]. exists (endpoint_of addr). split; [|done]. by apply list_elem_of_fmap_2.
Qed.

(** ** Example *)

(** A Windows document: one pinned literal, one pinned route, one denied literal. *)
Definition pinned_outbound : OutboundPolicy :=
  mkOutbound ["192.0.2.7"] [] ["198.51.100.3/32"] [] ["203.0.113.9"] ["10.0.0.0/8"] true [].

Definition windows_document : PolicyDocument :=
  mkDocument 2 (mkTransport Stdio None) [] (mkFsPolicy ["C:/data"] [] [] []) [] pinned_outbound false
    (mkEnvironment [] false) false false [] [].

Definition windows_psec : ExecutionTarget := mkTarget Windows Native (Some Psec).

(** A host on which every path exists and the image lies in [C:/bin]. *)
Definition full_host : LaunchHost := {|
  path_exists := λ _, true;
  is_file := λ _, true;
  is_dir := λ _, true;
  path_parent := λ _, Some "C:/bin"%string
|}.

Lemma psec_pins_authority_witness :
  ∃ build doc,
    @build_launch_spec full_host windows_document (Some "C:/bin/s.exe"%string) "s" (mkSpawn [] None) = Ok build ∧
    read_spec (pb_spec build) = Some doc ∧
    sd_read_only doc = ["C:/data"; "C:/bin/s.exe"; "C:/bin"]%string ∧
    ((∃ r, r ∈ sd_allow doc ∧ endpoint_admits r (V4 0xC0000207)) ↔
     declared_ip_allow pinned_outbound (V4 0xC0000207) ∧ ¬ declared_ip_deny pinned_outbound (V4 0xC0000207)).
Proof.
  destruct (@psec_pins_authority no_json full_host windows_document windows_psec (Some "C:/bin/s.exe"%string) "s"
    (mkSpawn [] None)) as (build & doc & Hb & Hd & _ & Hro & _ & _ & _ & _ & _ & _ & Hx).
  - vm_compute. reflexivity.
  - vm_compute. reflexivity.
  - reflexivity.
  - reflexivity.
  - vm_compute. reflexivity.
  - exists build, doc. split; [exact Hb|]. split; [exact Hd|]. split; [exact Hro|].
    apply Hx. vm_compute. split; [discriminate|reflexivity].
Defined.
